(* ===== verification/_CoqProject ===== *)
-Q . S2P
Prelude.v
Bits.v
BitsLogic.v
BitsShift.v
BitsArith.v
BitsTheorems.v
BitsSimd.v
FourState.v
FourStateSpec.v
FourStateTheorems.v
Wire.v
WireSpec.v
SampledClock.v
Kernel.v
Dff.v
Collection.v
Fifo.v
FifoSpec.v
SyncMem.v
SyncMemSpec.v
ByteMem.v
ByteMemSpec.v
StorageTheorems.v
Observations.v
ObservationsSpec.v
SimSystem.v
SimSystemSpec.v
KernelSystem.v
WorkExecutor.v
WorkExecutorSpec.v
ModelInput.v
ModelInputSpec.v
ConfigSpec.v
SimExecutor.v
SimExecutorSpec.v
ExecutorTextSpec.v
ExecutorWitness.v
SystemRunner.v
SystemRunnerSpec.v
RunnerWitness.v
CompilerPrelude.v
ApInt.v
ValueSemantics.v
ValueSemanticsSpec.v
HardwareTypes.v
HardwareAnalysis.v
HardwareAnalysisSpec.v
HardwareLayoutSpec.v
HardwareAnalysisTheorems.v
HardwareIr.v
HardwareIrSpec.v
NumericLowering.v
NumericLoweringSpec.v
NumericLoweringTheorems.v
DivRemLowering.v
TableViews.v
TableViewsSpec.v
StaticValues.v
StaticValuesSpec.v
RecordConstructors.v
RecordConstructorsSpec.v
SourceEvaluation.v
SourceEvaluationSpec.v
PythonAst.v
PythonAstSpec.v
PythonSyntax.v
RuleWrites.v
RuleWritesSpec.v
SourceIdentity.v
SourceOrder.v
SourceIdentitySpec.v
SourceIdentifier.v
SourceIdentifierSpec.v
PythonForms.v
PythonFormsSpec.v
GrantProof.v
GrantProofSpec.v
GrantFailures.v
CppNames.v
CppNamesSpec.v
