(* ===== verification/Prelude.v ===== *)
(** * Verification of the pyCircuit runtime and of core parts of its compiler

    pyCircuit compiles hardware descriptions to C++ models.  The models run on
    a small runtime, [gfsim], that lives in [src/include/gfsim/] and
    [src/runtime/].  This library models that runtime function by function and
    proves that its parts do what a cycle-accurate simulator needs: words of
    any width compute modulo [2^W], four-state values follow the hardware
    truth tables, storage primitives commit once per clock sample and all
    together, a failed step changes nothing, and a run ends and reports
    exactly what it committed.

    Of the compiler ([src/compiler/]) it models the parts that decide what a
    generated model computes: the meaning of static expressions, the packed
    layout of types, the lowering of mathematical integers to bit vectors, the
    planning of the writes of rules, the proofs that two writers of one
    register exclude each other, and the names of the generated C++ code.

    ** The program

    Values: [Bits<W>] (bits.h) is a fixed array of 64-bit words;
    [FourState<W>] (four_state.h) adds a known plane and a Z plane; [wire<T>]
    (wire.h) is a typed signal whose payload has a bit layout.

    Storage: a kernel is a set of static functions [work], [xfer], [discard]
    and [reset] over a committed [Current] and a staged [Pending] record.
    dff.h, fifo.h, sync_mem.h and byte_mem.h define the kernels,
    sampled_clock.h the edge detection they share, memory_detail.h the address
    and strobe helpers, and collection.h a bulk owner that commits all lanes
    of a kernel or none.

    Systems: modules ([SimObj], [SimModule]) are registered with a
    [SimSystem], whose [Step] calls every root's [Work], checks the whole
    system, and only then every root's [Xfer].  [ObservationSlots] stages
    events and gauges during work and publishes them with the commit.
    [WorkExecutor] runs a batch of callbacks on a thread pool.

    Execution: [SimExecutor] (sim_executor.cpp) is the model API around a
    system: JSON configuration (model_input.cpp), reset, step with run limits,
    statistics and error text.  [SystemRunner] (system_runner.cpp) is the
    command line program: it parses options, opens the event file, matches the
    observation metadata, drives the executor to its end and writes one record
    per observed group and a final result record.

    Compiler: a design is a package of definitions whose widths, extents and
    parameters are static expressions.  [evaluateValue]
    (SourceValueSemantics.cpp) computes one operator on mathematical integers;
    [HardwareAnalysis] evaluates expressions under the bindings of an
    instance, resolves types and lays them out in bits.  NumericLowering.cpp
    and FixedUnsignedDivRemLowering.cpp replace integer arithmetic by
    bit-vector operations that HardwareEmitCppDefinition.cpp prints as calls
    of the runtime.  A design arrives as the captured syntax tree of a Python
    file (PythonImportAST.cpp).  Before it is lowered, SourceRuleWrites.cpp
    reads the rules of its modules, plans which owners each registration
    writes, and lists the pairs of registrations that may write one place.
    Such rules must exclude each other; HardwareGrantProof.cpp proves it from
    their enables.
    FinalCppNames.cpp chooses the names.

    ** How the model is written

    An unsigned integer of [w] bits is a [Z] in [0, 2^w) and every operation
    that can wrap is written with its wrap ([u64_add], [wrapu]).  A template
    parameter is a [Z] or a type argument; a static assertion is a section
    hypothesis or a class ([PosWidth]).  A function that may throw returns
    [outcome]; one that is [noexcept] turns an exception into [Terminate], and
    theorems about it show that this never happens or when it does.  Stateful
    code that may throw is [ST S A], in which the state survives the
    exception.  Arrays and vectors are lists read and written by index
    ([.[i]], [.[i := v]]).  Objects reached through pointers (modules,
    observation owners) live in a heap [H] and are named by addresses; what a
    module's virtual functions do is a [SimObj] instance, a parameter of the
    theorems.  Text is a list of bytes.

    Counted loops are [for_range] and its variants, total by their count.
    Loops that are not counted take fuel: [assign_loop] the slice width,
    [utf8_loop] and [domains_loop] the input length, the group scans of
    [Obs] and [Rec] one round per descriptor, [print_decimal] twenty digits,
    [Runner.rounds] the fuel of [Run].  Each fuel is proved enough: the
    specifications are stated for the function as called, without a hypothesis
    on fuel, and [run_terminates] bounds [Run] by the configured limit.  The
    mutually recursive functions of [HardwareAnalysis] take fuel for their
    recursion depth: [None] is a call that is still running.
    [static_evaluation_exact] gives a fuel that suffices for every expression
    with a meaning, and [cyclic_binding_diverges] the calls that never return.

    The LLVM classes [APInt] and [APSInt] are the class [ApLib], with their
    documented behaviour as the laws [ApLaws]; [Reference.lib] is a concrete
    instance that satisfies them.  MLIR attributes and types are the inductive
    types of the attributes the code reads; a diagnostic is the error of a
    [FailureOr], its text shortened where it quotes a name.

    ** Files and theorems

    - Prelude: exceptions, state passing, loops, indexed lists, 64-bit
      arithmetic, word lists as numbers; the tactics and hints of the library.
    - Bits (bits.h): all of [Bits<W>], with the abstraction [bval] and the
      invariant [bits_wf].  BitsLogic, BitsShift and BitsArith prove each
      operator against integer arithmetic; BitsTheorems states the results
      (ring arithmetic, division, shifts, comparisons, width changes and the
      defect of [sext] on whole words).  BitsSimd models the NEON paths and
      proves them equal to the portable loops.
    - FourState (four_state.h): planes and operators.  FourStateSpec gives the
      lane view ([lane], [V4]); FourStateTheorems states the truth tables,
      pessimistic arithmetic, comparison, width changes, shifts and slice
      assignment, and when [sign_extend] ends the process.
    - Wire (wire.h): layouts of tables and structures, scalar and table
      signals; WireSpec proves the layouts; StorageTheorems states the round
      trips and holds the witnesses of the storage theorems.
    - SampledClock (sampled_clock.h) and Kernel: edge detection and the kernel
      interface with its laws, against which Collection and KernelSystem are
      proved.
    - Dff (dff.h), Collection (collection.h), Fifo and FifoSpec (fifo.h),
      SyncMem and SyncMemSpec (memory_detail.h, sync_mem.h), ByteMem and
      ByteMemSpec (byte_mem.h): for each kernel a specification on the pin
      levels and the theorem that one clock sample follows it.  The queue is a
      refinement of a list of waiting tokens over whole runs.
    - Observations and ObservationsSpec (ObservationSlot.h): configuration,
      staging, group checks, commit; the invariant, completeness of the commit
      and the round trip of a staged value through the plane storage.
    - SimSystem and SimSystemSpec (SimObj.h, SimModule.h, SimSystem.h): the
      lifecycle, its invariant, and steps as transactions.  KernelSystem puts
      kernels into a system and proves that a step is synchronous: every
      register moves by the states before the step.
    - WorkExecutor and WorkExecutorSpec (WorkExecutor.h): the pool as a step
      relation over all interleavings; every batch completes, runs each item
      once and answers as the serial loop does.
    - ModelInput, ModelInputSpec and ConfigSpec (model_input.h,
      model_input.cpp): UTF-8 and the configuration text; both are exact.
    - SimExecutor, SimExecutorSpec, ExecutorTextSpec and ExecutorWitness
      (SimExecutor.h, model_api.h, sim_executor.cpp): the API calls, run
      limits, the failure latch, JSON text and statistics.
    - SystemRunner, SystemRunnerSpec and RunnerWitness (SystemRunner.h,
      system_runner.cpp): options, event sink, metadata, the step loop and the
      records; which runners are ready, that every run ends, and what exit
      code zero means.

    - CompilerPrelude: fallible results, bit lengths, signed ranges and
      decimal spellings; ApInt: the class of arbitrary-precision integers.
    - ValueSemantics and ValueSemanticsSpec (SourceValueSemantics.cpp,
      ACIRSourceContracts.cpp): every opcode computes its mathematical
      function exactly or reports the documented error.
    - HardwareTypes, HardwareAnalysis, HardwareAnalysisSpec, HardwareLayoutSpec
      and HardwareAnalysisTheorems (HardwareAnalysis.cpp, ACIREnumOps.cpp,
      ACIRCollectionOps.cpp): static evaluation returns the meaning of an
      expression, the leaves of a layout partition its width, and an enum is
      accepted exactly when it is well formed.
    - TableViews and TableViewsSpec (ACIRCollectionOps.cpp): reshape, slice,
      transpose and rotate views and chains of them; a verified view addresses
      its input exactly and injectively, a verified layout is a bijection.
    - StaticValues and StaticValuesSpec (SourceStaticValueContracts.cpp): the
      dictionaries that spell logical types, static types, constants and
      defaults, and the resolution of nominal records; a logical type is
      accepted exactly in its least storage, a constant exactly when it belongs
      to its type.  The fuel bounds the nesting of records, and one more than
      the number of declared records is enough.
    - RecordConstructors and RecordConstructorsSpec
      (SourceStaticRecordConstructors.cpp): helpers that build static records;
      arguments are bound as in a call of the source language and a result is
      a value of the record.
    - SourceEvaluation and SourceEvaluationSpec (ACIRStaticEvaluation.cpp):
      inspection and evaluation of static source expressions; the memos and
      guards are invisible, kinds are foreseen, and the evaluator agrees with
      the one of the hardware analysis.
    - HardwareIr and HardwareIrSpec (HardwareEmitCppDefinition.cpp): trees of
      bit-vector operations and the runtime calls they become.
    - NumericLowering, NumericLoweringSpec and NumericLoweringTheorems
      (NumericLowering.cpp), DivRemLowering (FixedUnsignedDivRemLowering.cpp):
      the emitted code carries the exact integer, within the computed
      interval; division by a constant is exact for every numerator.
    - PythonAst and PythonAstSpec (PythonImportAST.cpp): nodes and paths, the
      check of a capture, argument binding, shadowing and declaration order; an
      accepted capture has the shape that is read of it, and a name is shadowed
      exactly by the scopes around its use.  The recursion over nodes is
      [walk], bounded by the height of the tree, which [walk_unfold] proves
      enough.  PythonSyntax (PythonImportEnumSyntax.cpp): the markers that
      imported names resolve to.
    - PythonForms and PythonFormsSpec (PythonImportEnumSyntax.cpp,
      PythonImportCaseSyntax.cpp): the declarations of rules, methods and
      enums, and match statements; each is accepted exactly in its form, and
      the arms of a match select what Python selects.
    - SourceIdentifier and SourceIdentifierSpec (SourceIdentifier.cpp):
      Python names.  The table searches are exact, decomposition ends, and a
      name is accepted exactly when it is an identifier in normal form.  The
      fuel bounds the steps of a decomposition; for tables whose
      decompositions lead downwards there is one that is enough.
    - SourceIdentity, SourceOrder and SourceIdentitySpec
      (ACIRIdentityContracts.cpp, ACIRSourceContracts.cpp): the dictionaries
      that name spans, sites, occurrences, owners, states and observations.
      Their verifiers are exact whatever the memo holds, what the importer
      builds passes them and names its node uniquely, and verified identities
      are totally ordered.
    - RuleWrites and RuleWritesSpec (SourceRuleWrites.cpp): the whole analysis.
      Paths are compared exactly, the plan of a registration touches what its
      rule assigns, and no two writers of one place escape the report.
    - GrantProof, GrantProofSpec and GrantFailures (HardwareGrantProof.cpp):
      the search for a proof that two write enables are never one together.
      An answer [true] is right in every four-state valuation of the graph,
      the operators it reads are those of the runtime, and failures are final.
      The recursion is bounded by the depth limit of the code.
    - CppNames and CppNamesSpec (FinalCppNames.cpp): names are legal and
      different sources get different names.

    ** Not modelled

    The rest of the compiler: the typed import of Python sources, verifiers,
    passes and emitters walk MLIR operations whose classes are generated at build
    time and are not in the repository.  The layout cache of
    [HardwareAnalysis::getLeaves] is left out, since a cached layout is the
    one that would be computed.  Also the Python front end and tools, the
    Verilog primitives and the generated reference designs.  Of
    the runtime: memory exhaustion and the branches that catch it, locales,
    the spin lock that serialises API calls, the mutexes and condition
    variables below the pool's atomic steps, thread creation, the Windows
    branch of [exclusiveCreate] and the destructors.  Operating system answers
    (file contents, creation and write results), module code, the generated
    Unicode tables and the path predicates of LLVM are parameters. *)

From Stdlib Require Import ZArith Lia String Ascii.
From stdpp Require Import base list numbers strings.

Declare Scope gfsim_scope.
Delimit Scope gfsim_scope with gfsim.
Open Scope Z_scope.
Open Scope gfsim_scope.

(** ** Fixed-width unsigned integers

    A [w]-bit unsigned C++ integer is a [Z] in [0, 2^w).  Arithmetic wraps
    modulo [2^w]; shifts are only used with an amount below the width. *)

Definition wrapu (w z : Z) : Z := z mod 2 ^ w.

Definition is_u (w z : Z) : Prop := 0 <= z < 2 ^ w.

Definition u64 (z : Z) : Z := wrapu 64 z.

Definition u64_add (a b : Z) : Z := u64 (a + b).
Definition u64_sub (a b : Z) : Z := u64 (a - b).
Definition u64_mul (a b : Z) : Z := u64 (a * b).
Definition u64_not (a : Z) : Z := u64 (Z.lnot a).
Definition u64_shl (a n : Z) : Z := u64 (Z.shiftl a n).
Definition u64_shr (a n : Z) : Z := Z.shiftr a n.

Definition u64_max : Z := 2 ^ 64 - 1.

(** Conversion of a 64-bit pattern to [std::int64_t]. *)
Definition to_i64 (a : Z) : Z := if a <? 2 ^ 63 then a else a - 2 ^ 64.

(** ** Text

    Runtime text is a list of bytes.  [lit] writes a literal, in which an
    apostrophe stands for the double quote. *)

Definition byte_of (a : ascii) : Z :=
  let b := Z.of_N (N_of_ascii a) in if b =? 39 then 34 else b.
Definition lit (s : string) : list Z := byte_of <$> list_ascii_of_string s.

(** ** C++ exceptions

    [Ret] is a normal return, [Throw] an exception in flight and [Terminate]
    the call of [std::terminate] when an exception leaves a [noexcept]
    function; only [Throw] can be caught. *)

Inductive exn :=
| FourStateViolation (what : string)
| InvalidArgument (what : string)
| OutOfRange (what : string)
| RuntimeError (what : string).

Inductive outcome (A : Type) :=
| Ret (a : A)
| Throw (e : exn)
| Terminate.
Arguments Ret {A} a.
Arguments Throw {A} e.
Arguments Terminate {A}.

Definition obind {A B} (m : outcome A) (k : A -> outcome B) : outcome B :=
  match m with
  | Ret a => k a
  | Throw e => Throw e
  | Terminate => Terminate
  end.

Notation "x <- m ;; k" := (obind m (fun x => k))
  (at level 62, m at next level, right associativity) : gfsim_scope.

(** A function declared [noexcept]. *)
Definition noexcept {A} (m : outcome A) : outcome A :=
  match m with Throw _ => Terminate | _ => m end.

(** Stateful code that may throw: the state survives the exception. *)
Definition ST (S A : Type) : Type := S -> outcome A * S.

Definition st_ret {S A} (a : A) : ST S A := fun s => (Ret a, s).
Definition st_throw {S A} (e : exn) : ST S A := fun s => (Throw e, s).
Definition st_lift {S A} (m : outcome A) : ST S A := fun s => (m, s).
Definition st_modify {S} (f : S -> S) : ST S unit := fun s => (Ret tt, f s).
Definition st_get {S} : ST S S := fun s => (Ret s, s).

Definition st_bind {S A B} (m : ST S A) (k : A -> ST S B) : ST S B :=
  fun s =>
    match m s with
    | (Ret a, s') => k a s'
    | (Throw e, s') => (Throw e, s')
    | (Terminate, s') => (Terminate, s')
    end.

Notation "'do' x <- m ;; k" := (st_bind m (fun x => k))
  (at level 62, x name, m at next level, right associativity) : gfsim_scope.
Notation "'do_' m ;; k" := (st_bind m (fun _ => k))
  (at level 62, m at next level, right associativity) : gfsim_scope.

(** [try { body } catch (...) { handler; throw; }] *)
Definition try_rethrow {S A} (body : ST S A) (handler : S -> S) : ST S A :=
  fun s =>
    match body s with
    | (Throw e, s') => (Throw e, handler s')
    | r => r
    end.

(** ** Counted loops

    [for_range n i body s] is
    [for (k = i; k < i + n; ++k) s = body(k, s);] *)
Fixpoint for_range {St : Type} (n : nat) (i : Z) (body : Z -> St -> St) (s : St) : St :=
  match n with
  | O => s
  | S n' => for_range n' (i + 1) body (body i s)
  end.

(** [for (k = i; k < i + n; ++k) if (!p(k)) return false; return true;] *)
Fixpoint all_range (n : nat) (i : Z) (p : Z -> bool) : bool :=
  match n with
  | O => true
  | S n' => if p i then all_range n' (i + 1) p else false
  end.

(** [for (k = i; k < i + n; ++k) if (f(k) decides) return f(k);] *)
Fixpoint first_range {R : Type} (n : nat) (i : Z) (f : Z -> option R) : option R :=
  match n with
  | O => None
  | S n' => match f i with Some r => Some r | None => first_range n' (i + 1) f end
  end.

(** A counted loop whose body may throw. *)
Fixpoint ofor_range {St : Type} (n : nat) (i : Z) (body : Z -> St -> outcome St) (s : St)
  : outcome St :=
  match n with
  | O => Ret s
  | S n' => s' <- body i s ;; ofor_range n' (i + 1) body s'
  end.

(** The same over the state monad. *)
Fixpoint st_for {St : Type} (n : nat) (i : Z) (body : Z -> ST St unit) : ST St unit :=
  match n with
  | O => st_ret tt
  | S n' => do_ body i ;; st_for n' (i + 1) body
  end.

(** Array element read and write, [a[i]] and [a[i] = x]; every use in the
    source is in range, which the well-formedness lemmas establish. *)
Notation "a .[ i ]" := (a !!! Z.to_nat i) (at level 1, left associativity, format "a .[ i ]") : gfsim_scope.
Notation "a .[ i := x ]" := (<[Z.to_nat i := x]> a) (at level 1, left associativity, format "a .[ i  :=  x ]") : gfsim_scope.

(** Invariant rule for counted loops. *)
Lemma for_range_inv {St} (P : Z -> St -> Prop) n i body s :
  P i s ->
  (forall k t, i <= k < i + Z.of_nat n -> P k t -> P (k + 1) (body k t)) ->
  P (i + Z.of_nat n) (for_range n i body s).
Proof.
  revert i s; induction n as [|n IH]; intros i s H0 Hstep.
  - cbn [for_range]. replace (i + Z.of_nat 0) with i by lia. exact H0.
  - cbn [for_range]. replace (i + Z.of_nat (S n)) with (i + 1 + Z.of_nat n) by lia.
    apply IH; [apply Hstep; [lia | exact H0]|].
    intros k t Hk. apply Hstep. lia.
Qed.

Lemma for_range_succ {St} n i (body : Z -> St -> St) s :
  for_range (S n) i body s = body (i + Z.of_nat n) (for_range n i body s).
Proof.
  revert i s; induction n as [|n IH]; intros i s.
  - cbn. f_equal. lia.
  - change (for_range (S (S n)) i body s)
      with (for_range (S n) (i + 1) body (body i s)).
    rewrite IH. cbn [for_range]. f_equal. lia.
Qed.

Lemma for_range_ext {St} n i (f g : Z -> St -> St) s :
  (forall k t, i <= k < i + Z.of_nat n -> f k t = g k t) ->
  for_range n i f s = for_range n i g s.
Proof.
  revert i s; induction n as [|n IH]; intros i s H; [reflexivity|].
  cbn [for_range]. rewrite H by lia. apply IH. intros; apply H; lia.
Qed.

Lemma ofor_range_ret {St} n i (body : Z -> St -> outcome St) (g : Z -> St -> St) s :
  (forall k t, i <= k < i + Z.of_nat n -> body k t = Ret (g k t)) ->
  ofor_range n i body s = Ret (for_range n i g s).
Proof.
  revert i s; induction n as [|n IH]; intros i s H; [reflexivity|].
  cbn [ofor_range for_range]. rewrite H by lia. cbn [obind]. apply IH. intros; apply H; lia.
Qed.

Lemma ofor_range_inv {St} (P : Z -> St -> Prop) n i body s :
  P i s ->
  (forall k t, i <= k < i + Z.of_nat n -> P k t -> exists t', body k t = Ret t' /\ P (k + 1) t') ->
  exists s', ofor_range n i body s = Ret s' /\ P (i + Z.of_nat n) s'.
Proof.
  revert i s; induction n as [|n IH]; intros i s H0 Hstep; cbn [ofor_range].
  - exists s. replace (i + Z.of_nat 0) with i by lia. auto.
  - destruct (Hstep i s) as (t & -> & Ht); [lia | exact H0|]. cbn [obind].
    replace (i + Z.of_nat (S n)) with (i + 1 + Z.of_nat n) by lia.
    apply IH; [exact Ht|]. intros k u Hk. apply Hstep. lia.
Qed.

Lemma st_for_inv {St} (P : Z -> St -> Prop) (Q : exn -> St -> Prop) n i (body : Z -> ST St unit) s :
  P i s ->
  (forall k t, i <= k < i + Z.of_nat n -> P k t ->
     match body k t with
     | (Ret _, t') => P (k + 1) t'
     | (Throw e, t') => Q e t'
     | (Terminate, _) => False
     end) ->
  match st_for n i body s with
  | (Ret _, s') => P (i + Z.of_nat n) s'
  | (Throw e, s') => Q e s'
  | (Terminate, _) => False
  end.
Proof.
  revert i s; induction n as [|n IH]; intros i s H0 Hstep; cbn [st_for].
  - unfold st_ret. replace (i + Z.of_nat 0) with i by lia. exact H0.
  - unfold st_bind at 1. pose proof (Hstep i s ltac:(lia) H0) as H1.
    destruct (body i s) as [[u|e|] t]; [|exact H1 | exact H1].
    replace (i + Z.of_nat (S n)) with (i + 1 + Z.of_nat n) by lia.
    apply IH; [exact H1|]. intros k u' Hk. apply Hstep. lia.
Qed.

(** Arrays as lists: the function read back from indices. *)
Definition tabulate {A} (n : nat) (f : Z -> A) : list A := (fun i => f (Z.of_nat i)) <$> seq 0 n.

Section Arrays.
Context {A : Type} `{IA : Inhabited A}.
Implicit Types l : list A.

Lemma length_tabulate n (f : Z -> A) : length (tabulate n f) = n.
Proof. unfold tabulate. rewrite length_fmap, length_seq. reflexivity. Qed.

Lemma tabulate_at n (f : Z -> A) i : 0 <= i < Z.of_nat n -> (tabulate n f).[i] = f i.
Proof.
  intros Hi. apply list_lookup_total_correct. unfold tabulate.
  rewrite list_lookup_fmap, lookup_seq_lt by lia. cbn. f_equal. f_equal. lia.
Qed.

Lemma array_ext l (k : list A) :
  length l = length k -> (forall i, 0 <= i < Z.of_nat (length l) -> l.[i] = k.[i]) -> l = k.
Proof.
  intros Hl H. eapply list_eq_same_length; [reflexivity | congruence |].
  intros i x y Hi Ex Ey. specialize (H (Z.of_nat i) ltac:(lia)). rewrite Nat2Z.id in H.
  rewrite (list_lookup_total_correct _ _ _ Ex), (list_lookup_total_correct _ _ _ Ey) in H.
  exact H.
Qed.

Lemma array_get_set_eq l i x : 0 <= i < Z.of_nat (length l) -> (l.[i := x]).[i] = x.
Proof. intros Hi. rewrite list_lookup_total_insert_eq; [reflexivity | lia]. Qed.

Lemma array_get_set_ne l i j x : 0 <= i -> 0 <= j -> i <> j -> (l.[i := x]).[j] = l.[j].
Proof. intros Hi Hj Hne. rewrite list_lookup_total_insert_ne; [reflexivity | lia]. Qed.

Lemma array_get_set l i j x : 0 <= i < Z.of_nat (length l) -> 0 <= j ->
  (l.[i := x]).[j] = if j =? i then x else l.[j].
Proof.
  intros Hi Hj. destruct (Z.eqb_spec j i) as [->|]; [apply array_get_set_eq, Hi|].
  apply array_get_set_ne; lia.
Qed.

(** A loop that writes [f i] at each index builds the table of [f]. *)
Lemma array_loop n (f : Z -> A) l :
  length l = n -> for_range n 0 (fun i out => out.[i := f i]) l = tabulate n f.
Proof.
  intros Hl.
  pose proof (for_range_inv
    (fun k out => length out = n /\ forall i, 0 <= i < k -> out.[i] = f i)
    n 0 (fun i out => out.[i := f i]) l) as H.
  destruct H as [Hlen Hat].
  - split; [exact Hl | lia].
  - intros k t Hk [Ht Hf]. rewrite length_insert. split; [exact Ht|]. intros i Hi.
    rewrite array_get_set by lia. destruct (Z.eqb_spec i k) as [->|]; [reflexivity | apply Hf; lia].
  - apply array_ext; [rewrite length_tabulate; exact Hlen|]. intros i Hi.
    rewrite Hlen in Hi. rewrite tabulate_at by lia. apply Hat. lia.
Qed.

(** The same with the old element as an argument. *)
Lemma array_update_loop n (f : Z -> A -> A) l :
  length l = n ->
  for_range n 0 (fun i out => out.[i := f i out.[i]]) l = tabulate n (fun i => f i l.[i]).
Proof.
  intros Hl.
  pose proof (for_range_inv
    (fun k out => length out = n /\ forall i, 0 <= i < Z.of_nat n ->
       out.[i] = if i <? k then f i l.[i] else l.[i])
    n 0 (fun i out => out.[i := f i out.[i]]) l) as H.
  destruct H as [Hlen Hat].
  - split; [exact Hl|]. intros i Hi. destruct (Z.ltb_spec i 0); [lia | reflexivity].
  - intros k t Hk [Ht Hf]. rewrite length_insert. split; [exact Ht|]. intros i Hi.
    rewrite array_get_set by lia. destruct (Z.eqb_spec i k) as [->|].
    + rewrite Hf by lia. destruct (Z.ltb_spec k k), (Z.ltb_spec k (k + 1)); (lia || reflexivity).
    + rewrite Hf by lia. destruct (Z.ltb_spec i k), (Z.ltb_spec i (k + 1)); (lia || reflexivity).
  - apply array_ext; [rewrite length_tabulate; exact Hlen|]. intros i Hi.
    rewrite Hlen in Hi. rewrite tabulate_at, Hat by lia.
    destruct (Z.ltb_spec i (0 + Z.of_nat n)); [reflexivity | lia].
Qed.

Lemma Forall_at (P : A -> Prop) l i : Forall P l -> 0 <= i < Z.of_nat (length l) -> P l.[i].
Proof.
  intros H Hi. eapply Forall_lookup_1; [exact H|]. apply list_lookup_lookup_total_lt. lia.
Qed.

Lemma Forall_tabulate (P : A -> Prop) n f :
  (forall i, 0 <= i < Z.of_nat n -> P (f i)) -> Forall P (tabulate n f).
Proof.
  intros H. apply Forall_fmap, Forall_forall. intros i Hi. apply H.
  apply elem_of_seq in Hi. lia.
Qed.

Lemma tabulate_self l : tabulate (length l) (fun i => l.[i]) = l.
Proof.
  apply array_ext; [apply length_tabulate|]. intros i Hi. rewrite length_tabulate in Hi.
  apply tabulate_at. exact Hi.
Qed.
End Arrays.

Lemma tabulate_ext {A} n (f g : Z -> A) :
  (forall i, 0 <= i < Z.of_nat n -> f i = g i) -> tabulate n f = tabulate n g.
Proof.
  intros H. apply list_fmap_ext. intros i x E. apply lookup_seq in E as [-> Hi]. apply H. lia.
Qed.

Lemma all_range_true n i p :
  all_range n i p = true <-> forall k, i <= k < i + Z.of_nat n -> p k = true.
Proof.
  revert i; induction n as [|n IH]; intros i; cbn [all_range].
  - split; [lia | reflexivity].
  - destruct (p i) eqn:E.
    + rewrite IH. split; intros H k Hk.
      * destruct (decide (k = i)) as [->|]; [exact E | apply H; lia].
      * apply H; lia.
    + split; [discriminate | intros H; rewrite <- E; apply H; lia].
Qed.

Lemma all_range_false n i p :
  all_range n i p = false <-> exists k, i <= k < i + Z.of_nat n /\ p k = false.
Proof.
  revert i; induction n as [|n IH]; intros i; cbn [all_range].
  - split; [discriminate | intros (k & Hk & _); lia].
  - destruct (p i) eqn:E.
    + rewrite IH. split; intros (k & Hk & Hp).
      * exists k; split; [lia | exact Hp].
      * exists k; split; [|exact Hp]. destruct (decide (k = i)); [congruence | lia].
    + split; [intros _; exists i; split; [lia | exact E] | reflexivity].
Qed.

(** ** Bits of integers *)

Lemma u64_range z : is_u 64 (u64 z).
Proof. unfold is_u, u64, wrapu. apply Z.mod_pos_bound. lia. Qed.

Lemma u64_id z : is_u 64 z -> u64 z = z.
Proof. apply Z.mod_small. Qed.

Lemma u64_testbit z n : 0 <= n -> Z.testbit (u64 z) n = (n <? 64) && Z.testbit z n.
Proof.
  intros Hn. unfold u64, wrapu. rewrite Z.testbit_mod_pow2 by lia. reflexivity.
Qed.

Lemma is_u_testbit w z n : 0 <= w -> is_u w z -> w <= n -> Z.testbit z n = false.
Proof.
  intros Hw [Hlo Hhi] Hn. rewrite <- (Z.mod_small z (2 ^ w)) by lia.
  apply Z.mod_pow2_bits_high. lia.
Qed.

Lemma is_u_of_testbit w z :
  0 <= w -> 0 <= z -> (forall n, w <= n -> Z.testbit z n = false) -> is_u w z.
Proof.
  intros Hw Hz H. split; [lia|].
  assert (Hm : z mod 2 ^ w = z).
  { apply Z.bits_inj'. intros n Hn. rewrite Z.testbit_mod_pow2 by lia.
    destruct (Z.ltb_spec n w); [reflexivity|]. cbn. symmetry. apply H. lia. }
  rewrite <- Hm. apply Z.mod_pos_bound. lia.
Qed.

Lemma u64_not_0 : u64_not 0 = Z.ones 64.
Proof. reflexivity. Qed.

Lemma is_u_ones64 : is_u 64 (Z.ones 64).
Proof. split; [discriminate | reflexivity]. Qed.

Lemma ones_testbit w n : 0 <= w -> 0 <= n -> Z.testbit (Z.ones w) n = (n <? w).
Proof.
  intros Hw Hn. destruct (Z.ltb_spec n w).
  - apply Z.ones_spec_low. lia.
  - apply Z.ones_spec_high. lia.
Qed.

Lemma land_1_testbit z : negb (Z.land z 1 =? 0) = Z.testbit z 0.
Proof.
  change 1 with (Z.ones 1). rewrite Z.land_ones by lia. change (2 ^ 1) with 2.
  rewrite <- Z.bit0_mod. destruct (Z.testbit z 0); reflexivity.
Qed.

Lemma is_u_land w a b : 0 <= w -> is_u w a -> 0 <= b -> is_u w (Z.land a b).
Proof.
  intros Hw Ha Hb. apply is_u_of_testbit; [lia | apply Z.land_nonneg; unfold is_u in *; lia|].
  intros n Hn. rewrite Z.land_spec, (is_u_testbit w a) by assumption. reflexivity.
Qed.

Lemma is_u_lor w a b : 0 <= w -> is_u w a -> is_u w b -> is_u w (Z.lor a b).
Proof.
  intros Hw Ha Hb. apply is_u_of_testbit; [lia | apply Z.lor_nonneg; unfold is_u in *; lia|].
  intros n Hn. rewrite Z.lor_spec, (is_u_testbit w a), (is_u_testbit w b) by assumption.
  reflexivity.
Qed.

Lemma is_u_lxor w a b : 0 <= w -> is_u w a -> is_u w b -> is_u w (Z.lxor a b).
Proof.
  intros Hw Ha Hb. apply is_u_of_testbit; [lia | apply Z.lxor_nonneg; unfold is_u in *; lia|].
  intros n Hn. rewrite Z.lxor_spec, (is_u_testbit w a), (is_u_testbit w b) by assumption.
  reflexivity.
Qed.

Lemma is_u_shiftr w a n : 0 <= n -> is_u w a -> is_u w (Z.shiftr a n).
Proof.
  intros Hn [Ha Hb]. rewrite Z.shiftr_div_pow2 by lia.
  assert (0 < 2 ^ n) by (apply Z.pow_pos_nonneg; lia).
  split; [apply Z.div_pos; lia|]. apply Z.div_lt_upper_bound; [lia|]. nia.
Qed.

(** ** Word lists as integers *)

Fixpoint words_to_Z (ws : list Z) : Z :=
  match ws with
  | [] => 0
  | w :: ws' => w + 2 ^ 64 * words_to_Z ws'
  end.

Lemma words_to_Z_range ws :
  Forall (is_u 64) ws -> 0 <= words_to_Z ws < 2 ^ (64 * Z.of_nat (length ws)).
Proof.
  induction 1 as [|w ws [Hw Hw'] _ IH]; cbn [words_to_Z length]; [cbn; lia|].
  rewrite Nat2Z.inj_succ, Z.mul_succ_r, Z.pow_add_r by lia. nia.
Qed.

Lemma words_to_Z_app ws vs :
  words_to_Z (ws ++ vs) = words_to_Z ws + 2 ^ (64 * Z.of_nat (length ws)) * words_to_Z vs.
Proof.
  induction ws as [|w ws IH]; cbn [words_to_Z length app]; [cbn [Z.of_nat]; change (2 ^ (64 * 0)) with 1; lia|].
  rewrite IH, Nat2Z.inj_succ, Z.mul_succ_r, Z.pow_add_r by lia. ring.
Qed.

Lemma words_to_Z_take ws k :
  (k < length ws)%nat ->
  words_to_Z (take (S k) ws) = words_to_Z (take k ws) + 2 ^ (64 * Z.of_nat k) * ws !!! k.
Proof.
  intros Hk. erewrite take_S_r by (apply list_lookup_lookup_total_lt; lia).
  rewrite words_to_Z_app, length_take_le by lia. cbn [words_to_Z]. ring.
Qed.

Lemma testbit_add_mul lo hi k n :
  0 <= k -> is_u k lo -> 0 <= n ->
  Z.testbit (lo + 2 ^ k * hi) n = if n <? k then Z.testbit lo n else Z.testbit hi (n - k).
Proof.
  intros Hk Hlo Hn. rewrite (Z.mul_comm (2 ^ k)), <- Z.shiftl_mul_pow2 by lia.
  rewrite Z.add_nocarry_lor.
  - rewrite Z.lor_spec, Z.shiftl_spec by lia. destruct (Z.ltb_spec n k).
    + rewrite (Z.testbit_neg_r hi) by lia. apply orb_false_r.
    + rewrite (is_u_testbit k lo) by assumption. reflexivity.
  - apply Z.bits_inj'. intros m Hm. rewrite Z.land_spec, Z.shiftl_spec, Z.bits_0 by lia.
    destruct (Z.ltb_spec m k).
    + rewrite (Z.testbit_neg_r hi) by lia. apply andb_false_r.
    + rewrite (is_u_testbit k lo) by assumption. reflexivity.
Qed.

Lemma words_to_Z_testbit ws n :
  Forall (is_u 64) ws -> 0 <= n ->
  Z.testbit (words_to_Z ws) n =
  match ws !! Z.to_nat (n / 64) with Some w => Z.testbit w (n mod 64) | None => false end.
Proof.
  intros Hws. revert n. induction Hws as [|w ws Hw _ IH]; intros n Hn; cbn [words_to_Z].
  - rewrite lookup_nil. apply Z.bits_0.
  - rewrite testbit_add_mul by (assumption || lia). destruct (Z.ltb_spec n 64).
    + rewrite Z.div_small, Z.mod_small by lia. reflexivity.
    + rewrite IH by lia.
      replace (Z.to_nat (n / 64)) with (S (Z.to_nat ((n - 64) / 64))).
      * cbn [lookup list_lookup].
        replace ((n - 64) mod 64) with (n mod 64); [reflexivity|].
        symmetry. apply (Z.mod_add n (-1) 64). lia.
      * replace ((n - 64) / 64) with (n / 64 - 1).
        -- assert (1 <= n / 64) by (apply Z.div_le_lower_bound; lia). lia.
        -- symmetry. apply (Z.div_add n (-1) 64). lia.
Qed.

Lemma words_to_Z_inj ws vs :
  length ws = length vs -> Forall (is_u 64) ws -> Forall (is_u 64) vs ->
  words_to_Z ws = words_to_Z vs -> ws = vs.
Proof.
  intros Hl Hws. revert vs Hl. induction Hws as [|w ws Hw _ IH]; intros [|v vs] Hl Hvs E;
    cbn in Hl; try lia; [reflexivity|].
  inversion Hvs as [|? ? Hv Hvs']; subst. cbn [words_to_Z] in E. unfold is_u in *.
  assert (w = v) by nia. subst. f_equal. apply IH; [lia | assumption | lia].
Qed.

Lemma words_to_Z_split ws k :
  (k < length ws)%nat ->
  words_to_Z ws = words_to_Z (take k ws) +
    2 ^ (64 * Z.of_nat k) * (ws !!! k + 2 ^ 64 * words_to_Z (drop (S k) ws)).
Proof.
  intros Hk. rewrite <- (take_drop k ws) at 1. rewrite words_to_Z_app, length_take_le by lia.
  f_equal. f_equal. erewrite drop_S by (apply list_lookup_lookup_total_lt; exact Hk). reflexivity.
Qed.

(** Word-lexicographic comparison from the top decides the integer order. *)
Lemma words_to_Z_lt ws vs k :
  length ws = length vs -> Forall (is_u 64) ws -> Forall (is_u 64) vs ->
  (k < length ws)%nat -> drop (S k) ws = drop (S k) vs -> ws !!! k < vs !!! k ->
  words_to_Z ws < words_to_Z vs.
Proof.
  intros Hl Hws Hvs Hk Hd Hlt.
  rewrite (words_to_Z_split ws k), (words_to_Z_split vs k), Hd by lia.
  pose proof (words_to_Z_range (take k ws) (Forall_take _ _ _ Hws)) as H1.
  pose proof (words_to_Z_range (take k vs) (Forall_take _ _ _ Hvs)) as H2.
  rewrite length_take_le in H1, H2 by lia.
  assert (0 < 2 ^ (64 * Z.of_nat k)) by (apply Z.pow_pos_nonneg; lia). nia.
Qed.

(** A loop with an early return: either the first deciding index, or none. *)
Lemma first_range_spec {R} n i (f : Z -> option R) :
  match first_range n i f with
  | Some r => exists k, i <= k < i + Z.of_nat n /\ f k = Some r /\ forall j, i <= j < k -> f j = None
  | None => forall j, i <= j < i + Z.of_nat n -> f j = None
  end.
Proof.
  revert i; induction n as [|n IH]; intros i; cbn [first_range]; [lia|].
  destruct (f i) as [r|] eqn:E.
  - exists i. split; [lia|]. split; [exact E | lia].
  - specialize (IH (i + 1)). destruct (first_range n (i + 1) f) as [r|].
    + destruct IH as (k & Hk & Hf & Hj). exists k. split; [lia|]. split; [exact Hf|].
      intros j Hj'. destruct (decide (j = i)) as [->|]; [exact E | apply Hj; lia].
    + intros j Hj. destruct (decide (j = i)) as [->|]; [exact E | apply IH; lia].
Qed.

Lemma words_to_Z_insert ws k w :
  (k < length ws)%nat ->
  words_to_Z (<[k := w]> ws) = words_to_Z ws + 2 ^ (64 * Z.of_nat k) * (w - ws !!! k).
Proof.
  intros Hk. rewrite (words_to_Z_split ws k), (words_to_Z_split (<[k := w]> ws) k)
    by (rewrite ?length_insert; exact Hk).
  rewrite take_insert_ge, drop_insert_lt, list_lookup_total_insert_eq by lia. ring.
Qed.

Lemma words_to_Z_zeros n : words_to_Z (replicate n 0) = 0.
Proof. induction n as [|n IH]; cbn [words_to_Z replicate]; lia. Qed.

Lemma mod_of_eq a b k m : 0 <= k <= m -> a mod 2 ^ m = b mod 2 ^ m -> a mod 2 ^ k = b mod 2 ^ k.
Proof.
  intros Hk E.
  assert (Hd : forall x, x mod 2 ^ k = (x mod 2 ^ m) mod 2 ^ k).
  { intros x. replace (2 ^ m) with (2 ^ k * 2 ^ (m - k)) by (rewrite <- Z.pow_add_r by lia; f_equal; lia).
    rewrite Z.rem_mul_r by (try apply Z.pow_nonzero; try apply Z.pow_pos_nonneg; lia).
    rewrite Z.mul_comm, Z.mod_add, Z.mod_mod by (apply Z.pow_nonzero; lia). reflexivity. }
  rewrite (Hd a), (Hd b), E. reflexivity.
Qed.
