(* ===== verification/Bits.v ===== *)
(** * Bits: the finite-width binary value of [include/gfsim/bits.h]

    [Bits<Width>] is an array of [kWords] 64-bit words whose unused high bits
    are kept zero by [maskTop].  This file defines every operation of the
    class and of the free functions over it, with the word loops of the
    source, and the representation lemmas (well-formedness, the integer value
    [bval], its bits) on which the files [BitsArith] and [BitsShift] build
    the functional specifications. *)

From Stdlib Require Import ZArith Lia.
From stdpp Require Import base list numbers.
From S2P Require Import Prelude.

(** ** The class template *)

Record Bits (Width : Z) := mkBits { words_ : list Z }.
Arguments mkBits {Width} words_.
Arguments words_ {Width} _.

Definition kWordBits : Z := 64.
Definition kWords (Width : Z) : Z := 1 + (Width - 1) / kWordBits.
Definition nWords (Width : Z) : nat := Z.to_nat (kWords Width).

(** The default member initialiser [words_{}]. *)
Definition bits_default (Width : Z) : Bits Width := mkBits (replicate (nWords Width) 0).

Definition topMask (Width : Z) : Z :=
  if Width mod kWordBits =? 0 then u64_not 0
  else u64_sub (u64_shl 1 (Width mod kWordBits)) 1.

Definition maskTop {Width} (v : Bits Width) : Bits Width :=
  let last := kWords Width - 1 in
  mkBits ((words_ v).[last := Z.land (words_ v).[last] (topMask Width)]).

(** [explicit Bits(word_type low)] *)
Definition bits_of_word (Width : Z) (low : Z) : Bits Width :=
  maskTop (mkBits ((replicate (nWords Width) 0).[0 := low])).

(** [explicit Bits(std::initializer_list<word_type> words)] *)
Fixpoint init_words (n : nat) (i : Z) (init : list Z) (ws : list Z) : list Z :=
  match init with
  | [] => ws
  | w :: rest => if Z.of_nat n <=? i then ws else init_words n (i + 1) rest (ws.[i := w])
  end.

Definition bits_of_list (Width : Z) (init : list Z) : Bits Width :=
  maskTop (mkBits (init_words (nWords Width) 0 init (replicate (nWords Width) 0))).

Definition value {Width} (v : Bits Width) : Z := (words_ v).[0].
Definition toBool {Width} (v : Bits Width) : bool := negb (Z.land (words_ v).[0] 1 =? 0).

Definition word {Width} (v : Bits Width) (i : Z) : Z :=
  if i <? kWords Width then (words_ v).[i] else 0.

Definition setWord {Width} (v : Bits Width) (i w : Z) : Bits Width :=
  if kWords Width <=? i then v
  else if i + 1 =? kWords Width then mkBits ((words_ v).[i := Z.land w (topMask Width)])
  else mkBits ((words_ v).[i := w]).

Definition bit {Width} (v : Bits Width) (i : Z) : bool :=
  if Width <=? i then false
  else negb (Z.land (u64_shr (word v (i / kWordBits)) (i mod kWordBits)) 1 =? 0).

Definition mask (Width : Z) : Z :=
  if 64 <=? Width then u64_not 0 else u64_sub (u64_shl 1 Width) 1.

Definition ones (Width : Z) : Bits Width :=
  maskTop (mkBits (for_range (nWords Width) 0
    (fun i out => out.[i := u64_not 0]) (replicate (nWords Width) 0))).

(** ** Word-serial arithmetic *)

Definition bits_add {Width} (a b : Bits Width) : Bits Width :=
  let '(out, _) :=
    for_range (nWords Width) 0
      (fun i '(out, carry) =>
         let sum := u64_add (words_ a).[i] (words_ b).[i] in
         let carryLow := if sum <? (words_ a).[i] then 1 else 0 in
         let withCarry := u64_add sum carry in
         let carryHigh := if withCarry <? sum then 1 else 0 in
         (out.[i := withCarry], Z.lor carryLow carryHigh))
      (replicate (nWords Width) 0, 0) in
  maskTop (mkBits out).

Definition bits_sub {Width} (a b : Bits Width) : Bits Width :=
  let '(out, _) :=
    for_range (nWords Width) 0
      (fun i '(out, borrow) =>
         let diff := u64_sub (words_ a).[i] (words_ b).[i] in
         let borrowLow := if (words_ a).[i] <? (words_ b).[i] then 1 else 0 in
         let withBorrow := u64_sub diff borrow in
         let borrowHigh := if diff <? borrow then 1 else 0 in
         (out.[i := withBorrow], Z.lor borrowLow borrowHigh))
      (replicate (nWords Width) 0, 0) in
  maskTop (mkBits out).

(** The 64x64 -> 128 product from 32-bit limbs: [(hi, lo)]. *)
Definition mulWord (a b : Z) : Z * Z :=
  let m32 := 0xFFFFFFFF in
  let aLow := Z.land a m32 in
  let aHigh := u64_shr a 32 in
  let bLow := Z.land b m32 in
  let bHigh := u64_shr b 32 in
  let lowLow := u64_mul aLow bLow in
  let lowHigh := u64_mul aLow bHigh in
  let highLow := u64_mul aHigh bLow in
  let highHigh := u64_mul aHigh bHigh in
  let mid := u64_add (u64_add (u64_shr lowLow 32) (Z.land lowHigh m32)) (Z.land highLow m32) in
  let lo := Z.lor (Z.land lowLow m32) (u64_shl mid 32) in
  let hi := u64_add (u64_add (u64_add highHigh (u64_shr lowHigh 32)) (u64_shr highLow 32))
                    (u64_shr mid 32) in
  (hi, lo).

(** One iteration of the inner loop of [operator*]. *)
Definition mul_step (ai : Z) (bj : Z) (idx : Z) (st : list Z * Z) : list Z * Z :=
  let '(out, carry) := st in
  let '(hi, lo) := mulWord ai bj in
  let cur := out.[idx] in
  let sum := u64_add cur lo in
  let carryLow := if sum <? cur then 1 else 0 in
  let withCarry := u64_add sum carry in
  let carryHigh := if withCarry <? sum then 1 else 0 in
  (out.[idx := withCarry], u64_add (u64_add hi carryLow) carryHigh).

Definition bits_mul {Width} (a b : Bits Width) : Bits Width :=
  maskTop (mkBits
    (for_range (nWords Width) 0
       (fun i out =>
          fst (for_range (Z.to_nat (kWords Width - i)) 0
                 (fun j st => mul_step (words_ a).[i] (words_ b).[j] (i + j) st)
                 (out, 0)))
       (replicate (nWords Width) 0))).

(** ** Bitwise operators: one word loop each, then [maskTop]. *)

Definition map_words {Width} (f : Z -> Z) : Bits Width :=
  maskTop (mkBits (for_range (nWords Width) 0
    (fun i out => out.[i := f i]) (replicate (nWords Width) 0))).

Definition bits_and {Width} (a b : Bits Width) : Bits Width :=
  map_words (fun i => Z.land (words_ a).[i] (words_ b).[i]).
Definition bits_or {Width} (a b : Bits Width) : Bits Width :=
  map_words (fun i => Z.lor (words_ a).[i] (words_ b).[i]).
Definition bits_xor {Width} (a b : Bits Width) : Bits Width :=
  map_words (fun i => Z.lxor (words_ a).[i] (words_ b).[i]).
Definition bits_not {Width} (a : Bits Width) : Bits Width :=
  map_words (fun i => u64_not (words_ a).[i]).

(** ** Comparisons *)

Definition bits_eq {Width} (a b : Bits Width) : bool :=
  all_range (nWords Width) 0 (fun i => (words_ a).[i] =? (words_ b).[i]).
Definition bits_ne {Width} (a b : Bits Width) : bool := negb (bits_eq a b).

Definition bits_lt {Width} (a b : Bits Width) : bool :=
  match first_range (nWords Width) 0
          (fun i =>
             let idx := (kWords Width - 1) - i in
             if (words_ a).[idx] <? (words_ b).[idx] then Some true
             else if (words_ b).[idx] <? (words_ a).[idx] then Some false
             else None)
  with Some r => r | None => false end.
Definition bits_gt {Width} (a b : Bits Width) : bool := bits_lt b a.
Definition bits_le {Width} (a b : Bits Width) : bool := negb (bits_lt b a).
Definition bits_ge {Width} (a b : Bits Width) : bool := negb (bits_lt a b).

(** ** Free functions *)

Definition mux {Width} (sel : Bits 1) (a b : Bits Width) : Bits Width :=
  if toBool sel then a else b.

(** [appendPackedBitsWords]: the destination array and the running offset. *)
Definition appendPackedBitsWords {Width} (dst : list Z) (offset : Z) (v : Bits Width)
  : list Z * Z :=
  for_range (nWords Width) 0
    (fun i '(dst, offset) => (dst.[offset := word v i], offset + 1)) (dst, offset).

Definition asSigned {Width} (v : Bits Width) : Z :=
  if Width =? 64 then to_i64 (value v)
  else
    let x := value v in
    let signBit := u64_shl 1 (Width - 1) in
    let x := if Z.land x signBit =? 0 then x
             else Z.lor x (u64_shl (u64_not 0) Width) in
    to_i64 x.

Definition shl {Width} (v : Bits Width) (amount : Z) : Bits Width :=
  if amount =? 0 then v
  else if Width <=? amount then bits_of_word Width 0
  else
    let wordShift := amount / kWordBits in
    let bitShift := amount mod kWordBits in
    for_range (nWords Width) 0
      (fun i out =>
         let dst := (kWords Width - 1) - i in
         let w :=
           if wordShift <=? dst then
             let src := dst - wordShift in
             let w := u64_shl (word v src) bitShift in
             if negb (bitShift =? 0) && (0 <? src)
             then Z.lor w (u64_shr (word v (src - 1)) (64 - bitShift)) else w
           else 0 in
         setWord out dst w)
      (bits_default Width).

Definition lshr {Width} (v : Bits Width) (amount : Z) : Bits Width :=
  if amount =? 0 then v
  else if Width <=? amount then bits_of_word Width 0
  else
    let wordShift := amount / kWordBits in
    let bitShift := amount mod kWordBits in
    for_range (nWords Width) 0
      (fun dst out =>
         let src := dst + wordShift in
         let w :=
           if src <? kWords Width then
             let w := u64_shr (word v src) bitShift in
             if negb (bitShift =? 0) && (src + 1 <? kWords Width)
             then Z.lor w (u64_shl (word v (src + 1)) (64 - bitShift)) else w
           else 0 in
         setWord out dst w)
      (bits_default Width).

Definition ashr {Width} (v : Bits Width) (amount : Z) : Bits Width :=
  if amount =? 0 then v
  else if Width <=? amount then
    (if bit v (Width - 1) then ones Width else bits_of_word Width 0)
  else
    let out := lshr v amount in
    if negb (bit v (Width - 1)) then out
    else
      let fillFrom := Width - amount in
      let fill := shl (ones Width) fillFrom in
      bits_or out fill.

(** *** [namespace detail] *)

Definition isZero {Width} (v : Bits Width) : bool :=
  all_range (nWords Width) 0 (fun i => word v i =? 0).
Definition isAllOnes {Width} (v : Bits Width) : bool :=
  all_range (Z.to_nat Width) 0 (fun i => bit v i).
Definition isMinSigned {Width} (v : Bits Width) : bool :=
  if negb (bit v (Width - 1)) then false
  else all_range (Z.to_nat (Width - 1)) 0 (fun i => negb (bit v i)).
Definition negate {Width} (v : Bits Width) : Bits Width :=
  bits_add (bits_not v) (bits_of_word Width 1).
Definition setBit {Width} (v : Bits Width) (idx : Z) : Bits Width :=
  if Width <=? idx then v else bits_or v (shl (bits_of_word Width 1) idx).

(** One iteration of the restoring division, on [(quot, rem)]. *)
Definition udivrem_step {Width} (numer denom : Bits Width) (b : Z)
    (st : Bits Width * Bits Width) : Bits Width * Bits Width :=
  let '(quot, rem) := st in
  let rem := shl rem 1 in
  let rem := if bit numer b then bits_or rem (bits_of_word Width 1) else rem in
  if bits_ge rem denom then (setBit quot b, bits_sub rem denom) else (quot, rem).

Definition udivrem {Width} (numer denom : Bits Width) : Bits Width * Bits Width :=
  if isZero denom then (bits_of_word Width 0, bits_of_word Width 0)
  else for_range (Z.to_nat Width) 0
         (fun k st => udivrem_step numer denom (Width - k - 1) st)
         (bits_of_word Width 0, bits_of_word Width 0).

Definition udiv {Width} (a b : Bits Width) : Bits Width :=
  if isZero b then bits_of_word Width 0
  else if Width <=? 64 then bits_of_word Width (value a / value b)
  else fst (udivrem a b).

Definition urem {Width} (a b : Bits Width) : Bits Width :=
  if isZero b then bits_of_word Width 0
  else if Width <=? 64 then bits_of_word Width (value a mod value b)
  else snd (udivrem a b).

Definition sdiv {Width} (a b : Bits Width) : Bits Width :=
  if isZero b then bits_of_word Width 0
  else if isMinSigned a && isAllOnes b then a
  else if Width <=? 64 then
    bits_of_word Width (u64 (Z.quot (asSigned a) (asSigned b)))
  else
    let aNeg := bit a (Width - 1) in
    let bNeg := bit b (Width - 1) in
    let ua := if aNeg then negate a else a in
    let ub := if bNeg then negate b else b in
    let q := fst (udivrem ua ub) in
    if xorb aNeg bNeg then negate q else q.

Definition srem {Width} (a b : Bits Width) : Bits Width :=
  if isZero b then bits_of_word Width 0
  else if isMinSigned a && isAllOnes b then bits_of_word Width 0
  else if Width <=? 64 then
    bits_of_word Width (u64 (Z.rem (asSigned a) (asSigned b)))
  else
    let aNeg := bit a (Width - 1) in
    let bNeg := bit b (Width - 1) in
    let ua := if aNeg then negate a else a in
    let ub := if bNeg then negate b else b in
    let r := snd (udivrem ua ub) in
    if aNeg then negate r else r.

(** *** Width changes *)

Definition trunc (OutWidth : Z) {InWidth} (v : Bits InWidth) : Bits OutWidth :=
  for_range (nWords OutWidth) 0 (fun i out => setWord out i (word v i)) (bits_default OutWidth).

Definition zext (OutWidth : Z) {InWidth} (v : Bits InWidth) : Bits OutWidth :=
  for_range (nWords OutWidth) 0 (fun i out => setWord out i (word v i)) (bits_default OutWidth).

Definition sext (OutWidth : Z) {InWidth} (v : Bits InWidth) : Bits OutWidth :=
  let out :=
    for_range (nWords OutWidth) 0 (fun i out => setWord out i (word v i)) (bits_default OutWidth) in
  if negb (bit v (InWidth - 1)) then out
  else
    let signWord := (InWidth - 1) / kWordBits in
    let signBit := (InWidth - 1) mod kWordBits in
    let topFill := if signBit <? 63 then u64_shl (u64_not 0) (signBit + 1) else u64_not 0 in
    let out := setWord out signWord (Z.lor (word out signWord) topFill) in
    for_range (Z.to_nat (kWords OutWidth - (signWord + 1))) (signWord + 1)
      (fun i out => setWord out i (u64_not 0)) out.

Definition extract (OutWidth : Z) {InWidth} (v : Bits InWidth) (lsb : Z) : Bits OutWidth :=
  trunc OutWidth (lshr v lsb).

Definition concat {A B} (a : Bits A) (b : Bits B) : Bits (A + B) :=
  let aa := zext (A + B) a in
  let bb := zext (A + B) b in
  bits_or (shl aa B) bb.

Definition slt {Width} (a b : Bits Width) : bool :=
  let sign := shl (bits_of_word Width 1) (Width - 1) in
  bits_lt (bits_xor a sign) (bits_xor b sign).

Definition eq {Width} (a b : Bits Width) : Bits 1 :=
  bits_of_word 1 (if bits_eq a b then 1 else 0).
Definition ult {Width} (a b : Bits Width) : Bits 1 :=
  bits_of_word 1 (if bits_lt a b then 1 else 0).

(** ** Representation *)

(** The integer a [Bits] value denotes. *)
Definition bval {Width} (v : Bits Width) : Z := words_to_Z (words_ v).

(** The class invariant: [kWords] words, each a [uint64_t], nothing above bit
    [Width]. *)
Definition bits_wf {Width} (v : Bits Width) : Prop :=
  length (words_ v) = nWords Width /\ Forall (is_u 64) (words_ v) /\ bval v < 2 ^ Width.

(** Its decision, for concrete values. *)
Definition bits_wfb {Width} (v : Bits Width) : bool :=
  Nat.eqb (length (words_ v)) (nWords Width) && forallb (fun w => (0 <=? w) && (w <? 2 ^ 64)) (words_ v) &&
  (bval v <? 2 ^ Width).

Lemma bits_wfb_sound {Width} (v : Bits Width) : bits_wfb v = true -> bits_wf v.
Proof.
  unfold bits_wfb. intros H. apply andb_prop in H as [H H3]. apply andb_prop in H as [H1 H2].
  split; [apply Nat.eqb_eq, H1|]. split; [|apply Z.ltb_lt, H3].
  rewrite forallb_forall in H2. apply List.Forall_forall. intros w Hw. apply H2 in Hw.
  apply andb_prop in Hw as [Hw1 Hw2]. split; lia.
Qed.

(** A template parameter admitted by [static_assert(Width > 0)]. *)
Class PosWidth (Width : Z) : Prop := pos_width : 0 < Width.

#[export] Hint Extern 1 (PosWidth _) => (unfold PosWidth in *; lia) : typeclass_instances.

Section kWords.
Context {W : Z} `{HW : PosWidth W}.

Lemma kWords_pos : 1 <= kWords W.
Proof using HW.
  unfold kWords, kWordBits, PosWidth in *.
  assert (0 <= (W - 1) / 64) by (apply Z.div_pos; lia). lia.
Qed.

Lemma kWords_bounds : 64 * (kWords W - 1) < W <= 64 * kWords W.
Proof using HW.
  unfold kWords, kWordBits, PosWidth in *.
  pose proof (Z.div_mod (W - 1) 64 ltac:(lia)).
  pose proof (Z.mod_pos_bound (W - 1) 64 ltac:(lia)). lia.
Qed.

Lemma nWords_kWords : Z.of_nat (nWords W) = kWords W.
Proof using HW. unfold nWords. pose proof kWords_pos. lia. Qed.

Lemma topMask_ones : topMask W = Z.ones (W - 64 * (kWords W - 1)).
Proof using HW.
  pose proof kWords_bounds as Hb. unfold topMask, kWordBits.
  pose proof (Z.mod_pos_bound W 64 ltac:(lia)) as Hm.
  assert (Hd : W = 64 * (W / 64) + W mod 64) by (apply Z.div_mod; lia).
  destruct (Z.eqb_spec (W mod 64) 0) as [E|E].
  - rewrite u64_not_0. f_equal. nia.
  - replace (W - 64 * (kWords W - 1)) with (W mod 64) by nia.
    unfold u64_sub, u64_shl. rewrite Z.shiftl_1_l.
    assert (1 <= 2 ^ (W mod 64) < 2 ^ 64).
    { split; [apply (Z.pow_le_mono_r 2 0); lia | apply Z.pow_lt_mono_r; lia]. }
    rewrite (u64_id (2 ^ _)) by (unfold is_u; lia).
    rewrite u64_id by (unfold is_u; lia). rewrite Z.ones_equiv. lia.
Qed.

Lemma word_index n : 0 <= n < W -> 0 <= n / 64 < kWords W.
Proof using HW.
  intros Hn. pose proof kWords_bounds. split; [apply Z.div_pos; lia|].
  apply Z.div_lt_upper_bound; lia.
Qed.

Lemma bval_range (v : Bits W) : bits_wf v -> is_u W (bval v).
Proof.
  intros (_ & Hf & Hb). split; [|exact Hb]. apply (words_to_Z_range _ Hf).
Qed.

Lemma word_range (v : Bits W) i : bits_wf v -> 0 <= i -> is_u 64 (word v i).
Proof using HW.
  intros (Hl & Hf & _) Hi. unfold word. destruct (Z.ltb_spec i (kWords W)); [|unfold is_u; lia].
  apply (Forall_lookup_total_1 _ _ _ Hf). rewrite Hl. pose proof nWords_kWords. lia.
Qed.

Lemma word_lookup (v : Bits W) i :
  bits_wf v -> 0 <= i < kWords W -> words_ v !! Z.to_nat i = Some (word v i).
Proof using HW.
  intros (Hl & _ & _) Hi. unfold word. destruct (Z.ltb_spec i (kWords W)); [|lia].
  apply list_lookup_lookup_total_lt. rewrite Hl. pose proof nWords_kWords. lia.
Qed.

Lemma bval_testbit (v : Bits W) n :
  bits_wf v -> 0 <= n -> Z.testbit (bval v) n = Z.testbit (word v (n / 64)) (n mod 64).
Proof using HW.
  intros Hwf Hn. unfold bval. pose proof Hwf as (Hl & Hf & _).
  rewrite words_to_Z_testbit by assumption.
  assert (0 <= n / 64) by (apply Z.div_pos; lia).
  destruct (Z.ltb_spec (n / 64) (kWords W)) as [Hlt|Hge].
  - rewrite word_lookup by (assumption || lia). reflexivity.
  - rewrite lookup_ge_None_2 by (rewrite Hl; unfold nWords; lia).
    unfold word. destruct (Z.ltb_spec (n / 64) (kWords W)); [lia|].
    symmetry. apply Z.bits_0.
Qed.

Lemma bval_testbit_high (v : Bits W) n :
  bits_wf v -> W <= n -> Z.testbit (bval v) n = false.
Proof using HW.
  intros Hwf Hn. apply (is_u_testbit W); [unfold PosWidth in *; lia | apply bval_range, Hwf | exact Hn].
Qed.

Lemma bits_inj (a b : Bits W) : bits_wf a -> bits_wf b -> bval a = bval b -> a = b.
Proof.
  intros (La & Fa & _) (Lb & Fb & _) E. destruct a as [wa], b as [wb]; cbn in *.
  f_equal. apply words_to_Z_inj; [congruence | assumption..].
Qed.

Lemma bits_inj_testbit (a b : Bits W) :
  bits_wf a -> bits_wf b ->
  (forall n, 0 <= n < W -> Z.testbit (bval a) n = Z.testbit (bval b) n) -> a = b.
Proof using HW.
  intros Ha Hb H. apply bits_inj; [assumption..|]. apply Z.bits_inj'. intros n Hn.
  destruct (Z.ltb_spec n W); [apply H; lia|].
  rewrite !bval_testbit_high by assumption. reflexivity.
Qed.

(** [maskTop] reduces the value modulo [2^Width] and establishes the
    invariant. *)
Lemma maskTop_spec (ws : list Z) :
  length ws = nWords W -> Forall (is_u 64) ws ->
  bits_wf (maskTop (mkBits (Width:=W) ws)) /\
  bval (maskTop (mkBits (Width:=W) ws)) = words_to_Z ws mod 2 ^ W.
Proof using HW.
  intros Hl Hf. pose proof kWords_bounds as Hb. pose proof nWords_kWords as Hn.
  pose proof kWords_pos as Hp. unfold PosWidth in HW.
  set (k := Z.to_nat (kWords W - 1)).
  assert (Hk : (k < length ws)%nat) by (rewrite Hl; unfold k; lia).
  assert (Hwk : is_u 64 (ws !!! k)) by (apply (Forall_lookup_total_1 _ _ _ Hf); lia).
  assert (Hto : 0 <= topMask W) by (rewrite topMask_ones, Z.ones_equiv; lia).
  assert (Hf' : Forall (is_u 64) (<[k:=Z.land (ws !!! k) (topMask W)]> ws)).
  { apply Forall_insert; [exact Hf|]. apply is_u_land; [lia | exact Hwk | exact Hto]. }
  assert (E : bval (maskTop (mkBits (Width:=W) ws)) = words_to_Z ws mod 2 ^ W).
  { unfold bval, maskTop; cbn [words_]. fold k.
    apply Z.bits_inj'. intros n Hn0. rewrite Z.testbit_mod_pow2 by lia.
    rewrite !words_to_Z_testbit by assumption.
    assert (Hd : n = 64 * (n / 64) + n mod 64) by (apply Z.div_mod; lia).
    pose proof (Z.mod_pos_bound n 64 ltac:(lia)) as Hm.
    assert (0 <= n / 64) by (apply Z.div_pos; lia).
    destruct (decide (k = Z.to_nat (n / 64))) as [Ek|Ek].
    - rewrite <- Ek, list_lookup_insert_eq, list_lookup_lookup_total_lt by lia.
      rewrite Z.land_spec, topMask_ones, ones_testbit by lia.
      rewrite andb_comm. f_equal.
      destruct (Z.ltb_spec (n mod 64) (W - 64 * (kWords W - 1))), (Z.ltb_spec n W); try reflexivity; lia.
    - rewrite list_lookup_insert_ne by exact Ek.
      destruct (Z.ltb_spec n W); [reflexivity|].
      rewrite lookup_ge_None_2; [reflexivity|]. rewrite Hl. lia. }
  split; [|exact E]. split; [|split].
  - unfold maskTop; cbn [words_]. rewrite length_insert. exact Hl.
  - exact Hf'.
  - rewrite E. apply Z.mod_pos_bound. lia.
Qed.
End kWords.

(** ** Word loops

    Every loop that writes each word of a result once produces
    [mk_words f] for the word function [f] of the loop body. *)

Definition fill (W : Z) (f : Z -> Z) : list Z := (fun i => f (Z.of_nat i)) <$> seq 0 (nWords W).
Definition mk_words (W : Z) (f : Z -> Z) : Bits W := maskTop (mkBits (fill W f)).

Section fill.
Context {W : Z} `{HW : PosWidth W}.
Implicit Types f g : Z -> Z.

Lemma length_fill f : length (fill W f) = nWords W.
Proof using. unfold fill. rewrite length_fmap, length_seq. reflexivity. Qed.

Lemma fill_lookup f i : (i < nWords W)%nat -> fill W f !! i = Some (f (Z.of_nat i)).
Proof using.
  intros Hi. unfold fill. rewrite list_lookup_fmap, lookup_seq_lt by exact Hi. reflexivity.
Qed.

Lemma fill_word f i : 0 <= i < kWords W -> (fill W f).[i] = f i.
Proof using HW.
  intros Hi. apply list_lookup_total_correct. rewrite fill_lookup.
  - f_equal. f_equal. lia.
  - unfold nWords. lia.
Qed.

Lemma fill_eq f ws :
  length ws = nWords W -> (forall i, 0 <= i < kWords W -> ws.[i] = f i) -> ws = fill W f.
Proof using HW.
  intros Hl H. pose proof nWords_kWords (W:=W). apply list_eq. intros i.
  destruct (decide (i < nWords W)%nat) as [Hi|Hi].
  - rewrite fill_lookup by exact Hi. rewrite <- H by lia. rewrite Nat2Z.id.
    apply list_lookup_lookup_total_lt. lia.
  - rewrite !lookup_ge_None_2; [reflexivity | rewrite length_fill; lia | lia].
Qed.

Lemma fill_ext f g :
  (forall i, 0 <= i < kWords W -> f i = g i) -> fill W f = fill W g.
Proof using HW.
  intros H. apply fill_eq; [apply length_fill|]. intros i Hi. rewrite fill_word by exact Hi. auto.
Qed.

Lemma fill_range f :
  (forall i, 0 <= i < kWords W -> is_u 64 (f i)) -> Forall (is_u 64) (fill W f).
Proof using HW.
  intros H. apply Forall_lookup. intros i w E. pose proof nWords_kWords (W:=W).
  assert (Hi : (i < nWords W)%nat) by (rewrite <- (length_fill f); eapply lookup_lt_Some; exact E).
  rewrite fill_lookup in E by exact Hi. injection E as <-. apply H. lia.
Qed.

Lemma words_lookup_insert_ne (ws : list Z) i j x :
  0 <= i -> 0 <= j -> i <> j -> (ws.[i := x]).[j] = ws.[j].
Proof using. intros Hi Hj Hne. rewrite list_lookup_total_insert_ne; [reflexivity | lia]. Qed.

Lemma words_lookup_insert_eq (ws : list Z) i x :
  0 <= i < Z.of_nat (length ws) -> (ws.[i := x]).[i] = x.
Proof using. intros Hi. rewrite list_lookup_total_insert_eq; [reflexivity | lia]. Qed.

(** An array written once per index, ascending. *)
Lemma fill_loop f (ws : list Z) :
  length ws = nWords W ->
  for_range (nWords W) 0 (fun i out => out.[i := f i]) ws = fill W f.
Proof using HW.
  intros Hl. pose proof nWords_kWords (W:=W) as Hn.
  pose proof (for_range_inv
    (fun k (out : list Z) => length out = nWords W /\ forall i, 0 <= i < k -> out.[i] = f i)
    (nWords W) 0 (fun i out => out.[i := f i]) ws) as H.
  destruct H as [Hlen Hw]; [split; [exact Hl | lia] | |].
  - intros k out Hk [Hlen Hw]. split; [rewrite length_insert; exact Hlen|].
    intros i Hi. destruct (decide (i = k)) as [->|Hne].
    + apply words_lookup_insert_eq. lia.
    + rewrite words_lookup_insert_ne by lia. apply Hw. lia.
  - apply fill_eq; [exact Hlen|]. intros i Hi. apply Hw. lia.
Qed.

Lemma map_words_fill f : map_words f = mk_words W f.
Proof using HW.
  unfold map_words, mk_words. rewrite fill_loop; [reflexivity | apply length_replicate].
Qed.

(** The words left by [setWord]. *)
Definition masked_word f (i : Z) : Z :=
  if i + 1 =? kWords W then Z.land (f i) (topMask W) else f i.

Lemma mk_words_masked f : mk_words W f = mkBits (fill W (masked_word f)).
Proof using HW.
  pose proof nWords_kWords (W:=W) as Hn. pose proof kWords_pos (W:=W) as Hp.
  unfold mk_words, maskTop. cbn [words_]. f_equal.
  apply fill_eq; [rewrite length_insert; apply length_fill|].
  intros i Hi. unfold masked_word. destruct (Z.eqb_spec (i + 1) (kWords W)) as [E|E].
  - replace (kWords W - 1) with i by lia.
    rewrite words_lookup_insert_eq by (rewrite length_fill; lia).
    rewrite fill_word by lia. reflexivity.
  - rewrite words_lookup_insert_ne by lia. apply fill_word. lia.
Qed.

Lemma setWord_words (v : Bits W) i w :
  0 <= i < kWords W ->
  words_ (setWord v i w) = (words_ v).[i := masked_word (fun _ => w) i].
Proof using.
  intros Hi. unfold setWord, masked_word.
  destruct (Z.leb_spec (kWords W) i); [lia|].
  destruct (Z.eqb_spec (i + 1) (kWords W)); reflexivity.
Qed.

(** Loops over [setWord], ascending and descending. *)
Lemma setWord_loop_up f :
  for_range (nWords W) 0 (fun i out => setWord out i (f i)) (bits_default W) = mk_words W f.
Proof using HW.
  pose proof nWords_kWords (W:=W) as Hn. rewrite mk_words_masked.
  pose proof (for_range_inv
    (fun k (out : Bits W) => length (words_ out) = nWords W /\
       forall i, 0 <= i < k -> (words_ out).[i] = masked_word f i)
    (nWords W) 0 (fun i out => setWord out i (f i)) (bits_default W)) as H.
  destruct H as [Hlen Hw]; [split; [apply length_replicate | lia] | |].
  - intros k out Hk [Hlen Hw]. rewrite setWord_words by lia.
    split; [rewrite length_insert; exact Hlen|].
    intros i Hi. destruct (decide (i = k)) as [->|Hne].
    + apply words_lookup_insert_eq. lia.
    + rewrite words_lookup_insert_ne by lia. apply Hw. lia.
  - destruct (for_range _ _ _ _) as [ws]; cbn [words_] in *. f_equal.
    apply fill_eq; [exact Hlen|]. intros i Hi. apply Hw. lia.
Qed.

Lemma setWord_loop_down f :
  for_range (nWords W) 0
    (fun i out => setWord out ((kWords W - 1) - i) (f ((kWords W - 1) - i)))
    (bits_default W) = mk_words W f.
Proof using HW.
  pose proof nWords_kWords (W:=W) as Hn. rewrite mk_words_masked.
  pose proof (for_range_inv
    (fun k (out : Bits W) => length (words_ out) = nWords W /\
       forall i, kWords W - k <= i < kWords W -> (words_ out).[i] = masked_word f i)
    (nWords W) 0
    (fun i out => setWord out ((kWords W - 1) - i) (f ((kWords W - 1) - i)))
    (bits_default W)) as H.
  destruct H as [Hlen Hw]; [split; [apply length_replicate | lia] | |].
  - intros k out Hk [Hlen Hw]. rewrite setWord_words by lia.
    split; [rewrite length_insert; exact Hlen|].
    intros i Hi. destruct (decide (i = kWords W - 1 - k)) as [->|Hne].
    + apply words_lookup_insert_eq. lia.
    + rewrite words_lookup_insert_ne by lia. apply Hw. lia.
  - destruct (for_range _ _ _ _) as [ws]; cbn [words_] in *. f_equal.
    apply fill_eq; [exact Hlen|]. intros i Hi. apply Hw. lia.
Qed.

Lemma mk_words_wf f :
  (forall i, 0 <= i < kWords W -> is_u 64 (f i)) -> bits_wf (mk_words W f).
Proof using HW.
  intros H. apply maskTop_spec; [apply length_fill | apply fill_range, H].
Qed.

Lemma mk_words_testbit f n :
  (forall i, 0 <= i < kWords W -> is_u 64 (f i)) -> 0 <= n ->
  Z.testbit (bval (mk_words W f)) n = (n <? W) && Z.testbit (f (n / 64)) (n mod 64).
Proof using HW.
  intros H Hn. unfold mk_words.
  rewrite (proj2 (maskTop_spec (W:=W) _ (length_fill f) (fill_range f H))).
  unfold PosWidth in HW. rewrite Z.testbit_mod_pow2 by lia.
  destruct (Z.ltb_spec n W) as [Hlt|]; [|reflexivity]. cbn [andb].
  rewrite words_to_Z_testbit by (exact Hn || apply fill_range, H).
  pose proof (word_index (W:=W) n ltac:(lia)) as Hi. pose proof nWords_kWords (W:=W).
  rewrite fill_lookup by lia. rewrite Z2Nat.id by lia. reflexivity.
Qed.
End fill.
