(* ===== verification/BitsLogic.v ===== *)
(** * Bit-level specifications of [Bits]

    Constants, bitwise operators, comparisons, shifts and width changes of
    [bits.h], each characterised by the integer value [bval] (or its signed
    reading [sval]), with preservation of the class invariant. *)

From Stdlib Require Import ZArith Lia.
From stdpp Require Import base list numbers.
From S2P Require Import Prelude Bits.

Create HintDb bits.

(** Two's-complement reading. *)
Definition sval {Width} (v : Bits Width) : Z :=
  if Z.testbit (bval v) (Width - 1) then bval v - 2 ^ Width else bval v.

(** Solves range side conditions of word functions. *)
Ltac u64_solve :=
  unfold u64_add, u64_sub, u64_mul, u64_not, u64_shl, u64_shr in *;
  repeat first
    [ apply u64_range
    | apply is_u_land; [lia | | ]
    | apply is_u_lor; [lia | | ]
    | apply is_u_lxor; [lia | | ]
    | apply is_u_shiftr; [lia | ]
    | apply word_range; [assumption || eauto with bits | lia] ];
  try (unfold is_u in *; lia).

(** Bit-extensional equality of integers below [2^W]. *)
Ltac bit_ext n Hn := apply Z.bits_inj'; intros n Hn.

(** Splits the conditionals of [H] and closes by arithmetic. *)
Ltac split_ifs H :=
  repeat match type of H with
         | context [if ?c then _ else _] => destruct c eqn:?; try discriminate H
         end; try lia.

Section Logic.
Context {W : Z} `{HW : PosWidth W}.
Implicit Types a b v : Bits W.

Lemma W_pos : 0 < W.
Proof. exact HW. Qed.

Lemma pow_W_pos : 0 < 2 ^ W.
Proof using HW. apply Z.pow_pos_nonneg; [lia | unfold PosWidth in HW; lia]. Qed.

Lemma words_word v i : 0 <= i < kWords W -> (words_ v).[i] = word v i.
Proof using. intros Hi. unfold word. destruct (Z.ltb_spec i (kWords W)); [reflexivity | lia]. Qed.

Lemma raw_range v i : bits_wf v -> 0 <= i < kWords W -> is_u 64 (words_ v).[i].
Proof using HW. intros Hv Hi. rewrite words_word by exact Hi. apply word_range; [exact Hv | lia]. Qed.

(** A mapped bitwise operator acts bit by bit. *)
Lemma mk_words_bitwise2 (op : Z -> Z -> Z) (bop : bool -> bool -> bool) a b :
  bits_wf a -> bits_wf b ->
  (forall x y n, 0 <= n -> Z.testbit (op x y) n = bop (Z.testbit x n) (Z.testbit y n)) ->
  (forall x y, is_u 64 x -> is_u 64 y -> is_u 64 (op x y)) ->
  bop false false = false ->
  let r := mk_words W (fun i => op (words_ a).[i] (words_ b).[i]) in
  bits_wf r /\ bval r = op (bval a) (bval b).
Proof using HW.
  intros Ha Hb Hop Hrange Hff r.
  assert (Hr : forall i, 0 <= i < kWords W -> is_u 64 (op (words_ a).[i] (words_ b).[i])).
  { intros i Hi. apply Hrange; apply raw_range; assumption. }
  split; [apply mk_words_wf, Hr|].
  bit_ext n Hn. rewrite Hop by exact Hn. unfold r. rewrite mk_words_testbit by assumption.
  destruct (Z.ltb_spec n W) as [Hlt|Hge].
  - pose proof (word_index (W:=W) n ltac:(lia)) as Hi. rewrite !words_word by exact Hi.
    rewrite Hop by (apply Z.mod_pos_bound; lia). rewrite !bval_testbit by assumption. reflexivity.
  - rewrite !bval_testbit_high by assumption. auto.
Qed.

Lemma bits_and_spec a b :
  bits_wf a -> bits_wf b -> bits_wf (bits_and a b) /\ bval (bits_and a b) = Z.land (bval a) (bval b).
Proof using HW.
  intros Ha Hb. unfold bits_and. rewrite map_words_fill.
  apply (mk_words_bitwise2 Z.land andb); auto using Z.land_spec.
  intros x y Hx Hy. apply is_u_land; [lia | exact Hx | unfold is_u in Hy; lia].
Qed.

Lemma bits_or_spec a b :
  bits_wf a -> bits_wf b -> bits_wf (bits_or a b) /\ bval (bits_or a b) = Z.lor (bval a) (bval b).
Proof using HW.
  intros Ha Hb. unfold bits_or. rewrite map_words_fill.
  apply (mk_words_bitwise2 Z.lor orb); auto using Z.lor_spec.
  intros x y Hx Hy. apply is_u_lor; [lia | assumption..].
Qed.

Lemma bits_xor_spec a b :
  bits_wf a -> bits_wf b -> bits_wf (bits_xor a b) /\ bval (bits_xor a b) = Z.lxor (bval a) (bval b).
Proof using HW.
  intros Ha Hb. unfold bits_xor. rewrite map_words_fill.
  apply (mk_words_bitwise2 Z.lxor xorb); auto using Z.lxor_spec.
  intros x y Hx Hy. apply is_u_lxor; [lia | assumption..].
Qed.

Lemma bits_not_testbit v n :
  bits_wf v -> 0 <= n -> Z.testbit (bval (bits_not v)) n = (n <? W) && negb (Z.testbit (bval v) n).
Proof using HW.
  intros Hv Hn. unfold bits_not. rewrite map_words_fill.
  rewrite mk_words_testbit by (intros; u64_solve || exact Hn).
  destruct (Z.ltb_spec n W) as [Hlt|]; [|reflexivity].
  pose proof (word_index (W:=W) n ltac:(lia)) as Hi. rewrite words_word by exact Hi.
  pose proof (Z.mod_pos_bound n 64 ltac:(lia)) as Hm.
  unfold u64_not. rewrite u64_testbit, Z.lnot_spec, bval_testbit by (assumption || lia).
  destruct (Z.ltb_spec (n mod 64) 64); [reflexivity | lia].
Qed.

Lemma bits_not_wf v : bits_wf v -> bits_wf (bits_not v).
Proof using HW.
  intros Hv. unfold bits_not. rewrite map_words_fill. apply mk_words_wf. intros; u64_solve.
Qed.

Lemma bits_not_spec v : bits_wf v -> bval (bits_not v) = 2 ^ W - 1 - bval v.
Proof using HW.
  intros Hv. transitivity (Z.lxor (bval v) (Z.ones W)).
  - bit_ext n Hn. pose proof W_pos.
    rewrite bits_not_testbit, Z.lxor_spec, ones_testbit by (assumption || lia).
    destruct (Z.ltb_spec n W); [destruct (Z.testbit (bval v) n); reflexivity|].
    rewrite bval_testbit_high by assumption. reflexivity.
  - pose proof W_pos. pose proof (bval_range v Hv) as Hr.
    enough (Z.lxor (bval v) (Z.ones W) + bval v = Z.ones W) by (rewrite Z.ones_equiv in *; lia).
    rewrite Z.add_nocarry_lxor.
    + bit_ext n Hn. rewrite !Z.lxor_spec.
      destruct (Z.testbit (bval v) n), (Z.testbit (Z.ones W) n); reflexivity.
    + bit_ext n Hn. rewrite Z.land_spec, Z.lxor_spec, Z.bits_0, ones_testbit by lia.
      destruct (Z.ltb_spec n W); [destruct (Z.testbit (bval v) n); reflexivity|].
      rewrite bval_testbit_high by assumption. reflexivity.
Qed.

(** Constants. *)
Lemma bits_of_word_mk low : bits_of_word W low = mk_words W (fun i => if i =? 0 then low else 0).
Proof using HW.
  unfold bits_of_word, mk_words. f_equal. f_equal. pose proof kWords_pos (W:=W).
  pose proof nWords_kWords (W:=W).
  apply fill_eq; [rewrite length_insert; apply length_replicate|]. intros i Hi.
  destruct (Z.eqb_spec i 0) as [->|].
  - apply words_lookup_insert_eq. rewrite length_replicate. lia.
  - rewrite words_lookup_insert_ne by lia. apply lookup_total_replicate_2. lia.
Qed.

Lemma bits_of_word_spec low :
  is_u 64 low -> bits_wf (bits_of_word W low) /\ bval (bits_of_word W low) = low mod 2 ^ W.
Proof using HW.
  intros Hl. rewrite bits_of_word_mk.
  assert (Hr : forall i, 0 <= i < kWords W -> is_u 64 (if i =? 0 then low else 0)).
  { intros i _. destruct (i =? 0); [exact Hl | unfold is_u; lia]. }
  split; [apply mk_words_wf, Hr|]. bit_ext n Hn. pose proof W_pos.
  rewrite mk_words_testbit, Z.testbit_mod_pow2 by (assumption || lia). f_equal.
  destruct (Z.ltb_spec n 64).
  - rewrite Z.div_small, Z.mod_small by lia. reflexivity.
  - assert (1 <= n / 64) by (apply Z.div_le_lower_bound; lia).
    destruct (Z.eqb_spec (n / 64) 0); [lia|].
    rewrite Z.bits_0, (is_u_testbit 64 low) by (assumption || lia). reflexivity.
Qed.

Lemma ones_mk : ones W = mk_words W (fun _ => Z.ones 64).
Proof using HW.
  unfold ones, mk_words. rewrite fill_loop by apply length_replicate. reflexivity.
Qed.

Lemma ones_spec : bits_wf (ones W) /\ bval (ones W) = Z.ones W.
Proof using HW.
  rewrite ones_mk.
  assert (Hr : forall i, 0 <= i < kWords W -> is_u 64 (Z.ones 64)) by (intros; apply is_u_ones64).
  split; [apply mk_words_wf, Hr|]. bit_ext n Hn. pose proof W_pos.
  pose proof (Z.mod_pos_bound n 64 ltac:(lia)).
  rewrite mk_words_testbit, !ones_testbit by (exact Hr || lia).
  destruct (Z.ltb_spec (n mod 64) 64); [apply andb_true_r | lia].
Qed.

Lemma zero_spec : bits_wf (bits_of_word W 0) /\ bval (bits_of_word W 0) = 0.
Proof using HW.
  destruct (bits_of_word_spec 0) as [H E]; [unfold is_u; lia|]. pose proof pow_W_pos.
  rewrite E, Z.mod_0_l by lia. auto.
Qed.

Lemma bits_default_zero : bits_default W = bits_of_word W 0.
Proof using HW.
  unfold bits_default, bits_of_word, maskTop. cbn [words_]. f_equal.
  pose proof kWords_pos (W:=W). unfold nWords.
  destruct (Z.to_nat (kWords W)) eqn:E; [lia|]. cbn [replicate].
  change (Z.to_nat 0) with 0%nat. cbn [list_insert insert].
  change (0 :: replicate n 0) with (replicate (S n) 0).
  rewrite lookup_total_replicate_2, Z.land_0_l by lia.
  symmetry. apply insert_replicate.
Qed.

Lemma value_spec v : bits_wf v -> value v = bval v mod 2 ^ 64.
Proof using HW.
  intros (Hl & Hf & _). unfold value, bval. pose proof kWords_pos (W:=W). unfold nWords in Hl.
  destruct (words_ v) as [|w ws]; cbn [length] in Hl; [lia|].
  inversion Hf as [|? ? Hw Hws]; subst. cbn [words_to_Z]. change (Z.to_nat 0) with 0%nat. cbn.
  rewrite Z.mul_comm, Z.mod_add by lia. symmetry. apply Z.mod_small. exact Hw.
Qed.

Lemma value_small v : bits_wf v -> W <= 64 -> value v = bval v.
Proof using HW.
  intros Hv HW64. rewrite value_spec by exact Hv. apply Z.mod_small.
  pose proof (bval_range v Hv) as Hr. unfold is_u in Hr.
  assert (2 ^ W <= 2 ^ 64) by (apply Z.pow_le_mono_r; lia). lia.
Qed.

Lemma toBool_spec v : bits_wf v -> toBool v = Z.testbit (bval v) 0.
Proof using HW.
  intros Hv. unfold toBool. rewrite land_1_testbit.
  change ((words_ v).[0]) with (value v). rewrite value_spec by exact Hv.
  rewrite Z.testbit_mod_pow2 by lia. reflexivity.
Qed.

Lemma bit_spec v n : bits_wf v -> 0 <= n -> bit v n = Z.testbit (bval v) n.
Proof using HW.
  intros Hv Hn. unfold bit, kWordBits, u64_shr. destruct (Z.leb_spec W n).
  - symmetry. apply bval_testbit_high; assumption.
  - rewrite land_1_testbit, Z.shiftr_spec by lia. rewrite bval_testbit by assumption.
    f_equal.
Qed.

(** Comparisons. *)
Lemma bits_eq_spec a b : bits_wf a -> bits_wf b -> bits_eq a b = true <-> a = b.
Proof using HW.
  intros (La & _) (Lb & _). unfold bits_eq. rewrite all_range_true.
  pose proof nWords_kWords (W:=W). split.
  - intros H1. destruct a as [wa], b as [wb]; cbn [words_] in *. f_equal.
    transitivity (fill W (fun i => wb.[i])); [|symmetry]; apply fill_eq; try assumption; [|reflexivity].
    intros i Hi. specialize (H1 i ltac:(lia)). lia.
  - intros -> i _. apply Z.eqb_refl.
Qed.

Lemma bits_eq_refl v : bits_eq v v = true.
Proof using. unfold bits_eq. apply all_range_true. intros i _. apply Z.eqb_refl. Qed.

Lemma bits_eq_bval a b : bits_wf a -> bits_wf b -> bits_eq a b = (bval a =? bval b).
Proof using HW.
  intros Ha Hb. apply eq_true_iff_eq. rewrite bits_eq_spec, Z.eqb_eq by assumption.
  split; [intros ->; reflexivity | apply bits_inj; assumption].
Qed.

Lemma bits_lt_spec a b : bits_wf a -> bits_wf b -> bits_lt a b = (bval a <? bval b).
Proof using HW.
  intros (La & Fa & _) (Lb & Fb & _). unfold bits_lt, bval.
  pose proof nWords_kWords (W:=W) as Hn.
  match goal with |- context [first_range ?n ?i ?f] => pose proof (first_range_spec n i f) as H end.
  assert (Hdrop : forall k, 0 <= k <= kWords W ->
    (forall j, 0 <= j < k -> (words_ a).[kWords W - 1 - j] = (words_ b).[kWords W - 1 - j]) ->
    drop (Z.to_nat (kWords W - k)) (words_ a) = drop (Z.to_nat (kWords W - k)) (words_ b)).
  { intros k Hk Hj. apply list_eq. intros i. rewrite !lookup_drop.
    destruct (decide (Z.of_nat i < k)) as [Hi|Hi].
    - rewrite !list_lookup_lookup_total_lt by lia. f_equal.
      specialize (Hj (k - 1 - Z.of_nat i) ltac:(lia)).
      replace (Z.to_nat (kWords W - k) + i)%nat
        with (Z.to_nat (kWords W - 1 - (k - 1 - Z.of_nat i))) by lia. exact Hj.
    - rewrite !lookup_ge_None_2; [reflexivity | lia | lia]. }
  destruct (first_range _ _ _) as [r|].
  - destruct H as (k & Hk & Hf & Hj).
    assert (Heq : drop (Z.to_nat (kWords W - k)) (words_ a) = drop (Z.to_nat (kWords W - k)) (words_ b)).
    { apply Hdrop; [lia|]. intros j Hj'. specialize (Hj j Hj'). cbn beta zeta in Hj.
      split_ifs Hj. }
    replace (Z.to_nat (kWords W - k)) with (S (Z.to_nat (kWords W - 1 - k))) in Heq by lia.
    cbn beta zeta in Hf. destruct (Z.ltb_spec (words_ a).[kWords W - 1 - k] (words_ b).[kWords W - 1 - k]).
    + injection Hf as <-. symmetry. apply Z.ltb_lt.
      eapply words_to_Z_lt; [congruence | assumption.. | | exact Heq | assumption]. lia.
    + destruct (Z.ltb_spec (words_ b).[kWords W - 1 - k] (words_ a).[kWords W - 1 - k]); [|discriminate].
      injection Hf as <-. symmetry. apply Z.ltb_ge.
      apply Z.lt_le_incl.
      eapply words_to_Z_lt; [congruence | assumption.. | | symmetry; exact Heq | assumption]. lia.
  - assert (words_ a = words_ b) as ->; [|symmetry; apply Z.ltb_irrefl].
    specialize (Hdrop (kWords W)). rewrite Z.sub_diag in Hdrop. apply Hdrop; [pose proof kWords_pos (W:=W); lia|].
    intros j Hj. specialize (H j ltac:(lia)). cbn beta zeta in H. split_ifs H.
Qed.

Lemma bits_ge_spec a b : bits_wf a -> bits_wf b -> bits_ge a b = (bval b <=? bval a).
Proof using HW.
  intros Ha Hb. unfold bits_ge. rewrite bits_lt_spec by assumption.
  destruct (Z.ltb_spec (bval a) (bval b)), (Z.leb_spec (bval b) (bval a)); try reflexivity; lia.
Qed.

Lemma isZero_spec v : bits_wf v -> isZero v = (bval v =? 0).
Proof using HW.
  intros Hv. destruct zero_spec as [Hz Ez]. rewrite <- Ez, <- bits_eq_bval by assumption.
  unfold isZero, bits_eq. apply eq_true_iff_eq. rewrite !all_range_true.
  pose proof nWords_kWords (W:=W) as Hn.
  assert (H0 : forall k, 0 <= k < kWords W -> (words_ (bits_of_word W 0)).[k] = 0).
  { intros k Hk. rewrite <- bits_default_zero. apply lookup_total_replicate_2. lia. }
  split; intros H k Hk; specialize (H k Hk); rewrite H0 in * by lia;
    rewrite words_word in * by lia; exact H.
Qed.
End Logic.

#[export] Hint Resolve bits_not_wf : bits.
