(* ===== verification/BitsShift.v ===== *)
(** * Shifts, width changes and signed readings of [Bits]

    [shl], [lshr], [ashr], [trunc], [zext], [sext], [extract], [concat] and
    the signed comparisons of [bits.h], specified bit by bit and then as
    integer operations. *)

From Stdlib Require Import ZArith Lia.
From stdpp Require Import base list numbers.
From S2P Require Import Prelude Bits BitsLogic.

Lemma div_mod_64 n q r : n = 64 * q + r -> 0 <= r < 64 -> n / 64 = q /\ n mod 64 = r.
Proof.
  intros -> Hr. split.
  - symmetry. apply (Z.div_unique_pos _ _ _ r); lia.
  - symmetry. apply (Z.mod_unique_pos _ _ q); lia.
Qed.

(** Splits an index into its word and bit positions. *)
Ltac split_index n q r Hn Hr :=
  let E := fresh "E" in
  pose proof (Z.div_mod n 64 ltac:(lia)) as E;
  pose proof (Z.mod_pos_bound n 64 ltac:(lia)) as Hr;
  set (q := n / 64) in *; set (r := n mod 64) in *; clearbody q r;
  rename E into Hn.

Section Shift.
Context {W : Z} `{HW : PosWidth W}.
Implicit Types a b v : Bits W.

Lemma bval_testbit_at v q r :
  bits_wf v -> 0 <= q -> 0 <= r < 64 ->
  Z.testbit (word v q) r = Z.testbit (bval v) (64 * q + r).
Proof using HW.
  intros Hv Hq Hr. rewrite bval_testbit by (assumption || lia).
  destruct (div_mod_64 (64 * q + r) q r) as [-> ->]; [reflexivity | exact Hr | reflexivity].
Qed.

Lemma word_testbit_high v q n : bits_wf v -> 0 <= q -> 64 <= n -> Z.testbit (word v q) n = false.
Proof using HW.
  intros Hv Hq Hn. apply (is_u_testbit 64); [lia | apply word_range; assumption | exact Hn].
Qed.

(** The word the left-shift loop writes at [dst]. *)
Definition shl_word v (amount dst : Z) : Z :=
  let wordShift := amount / kWordBits in
  let bitShift := amount mod kWordBits in
  if wordShift <=? dst then
    let src := dst - wordShift in
    let w := u64_shl (word v src) bitShift in
    if negb (bitShift =? 0) && (0 <? src)
    then Z.lor w (u64_shr (word v (src - 1)) (64 - bitShift)) else w
  else 0.

Lemma shl_word_range v k dst : bits_wf v -> 0 <= k -> 0 <= dst -> is_u 64 (shl_word v k dst).
Proof using HW.
  intros Hv Hk Hd. unfold shl_word, kWordBits. cbv zeta.
  pose proof (Z.mod_pos_bound k 64 ltac:(lia)).
  destruct (Z.leb_spec (k / 64) dst); [|unfold is_u; lia].
  destruct (negb _ && _) eqn:E; [|apply u64_range].
  apply andb_prop in E as [_ E]. apply Z.ltb_lt in E.
  apply is_u_lor; [lia | apply u64_range|].
  apply is_u_shiftr; [lia|]. apply word_range; [exact Hv | lia].
Qed.

Lemma shl_word_testbit v k q r :
  bits_wf v -> 0 <= k -> 0 <= q -> 0 <= r < 64 ->
  Z.testbit (shl_word v k q) r = Z.testbit (bval v) (64 * q + r - k).
Proof using HW.
  intros Hv Hk Hq Hr. unfold shl_word, kWordBits. cbv zeta.
  split_index k kq kr Ek Hkr.
  destruct (Z.leb_spec kq q) as [Hle|Hlt].
  2:{ rewrite Z.bits_0, Z.testbit_neg_r by lia. reflexivity. }
  assert (Hlow : Z.testbit (u64_shl (word v (q - kq)) kr) r =
                 if kr <=? r then Z.testbit (bval v) (64 * q + r - k) else false).
  { unfold u64_shl. rewrite u64_testbit, Z.shiftl_spec by lia.
    destruct (Z.ltb_spec r 64); [|lia]. cbn [andb]. destruct (Z.leb_spec kr r).
    - rewrite bval_testbit_at by (assumption || lia). f_equal. lia.
    - apply Z.testbit_neg_r. lia. }
  destruct (negb (kr =? 0) && (0 <? q - kq)) eqn:E.
  - apply andb_prop in E as [E1 E2]. apply negb_true_iff, Z.eqb_neq in E1. apply Z.ltb_lt in E2.
    rewrite Z.lor_spec, Hlow. unfold u64_shr. rewrite Z.shiftr_spec by lia.
    destruct (Z.leb_spec kr r).
    + rewrite word_testbit_high by (assumption || lia). apply orb_false_r.
    + rewrite bval_testbit_at by (assumption || lia). cbn [orb]. f_equal. lia.
  - rewrite Hlow. destruct (Z.leb_spec kr r) as [|Hr2]; [reflexivity|].
    apply andb_false_iff in E. destruct E as [E|E].
    + apply negb_false_iff, Z.eqb_eq in E. lia.
    + apply Z.ltb_ge in E. rewrite Z.testbit_neg_r by lia. reflexivity.
Qed.

Lemma shl_mk v k : 0 < k < W -> shl v k = mk_words W (shl_word v k).
Proof using HW.
  intros Hk. unfold shl. destruct (Z.eqb_spec k 0); [lia|]. destruct (Z.leb_spec W k); [lia|].
  rewrite <- setWord_loop_down. reflexivity.
Qed.

Lemma shl_wf v k : bits_wf v -> 0 <= k -> bits_wf (shl v k).
Proof using HW.
  intros Hv Hk. destruct (decide (0 < k < W)).
  - rewrite shl_mk by assumption. apply mk_words_wf. intros i Hi. apply shl_word_range; [exact Hv | lia..].
  - unfold shl. destruct (Z.eqb_spec k 0); [exact Hv|]. destruct (Z.leb_spec W k); [|lia].
    apply zero_spec.
Qed.

Lemma shl_testbit v k n :
  bits_wf v -> 0 <= k -> 0 <= n ->
  Z.testbit (bval (shl v k)) n = (n <? W) && Z.testbit (bval v) (n - k).
Proof using HW.
  intros Hv Hk Hn. destruct (decide (0 < k < W)).
  - rewrite shl_mk by assumption. rewrite mk_words_testbit; [| |exact Hn].
    2:{ intros i Hi. apply shl_word_range; [exact Hv | lia..]. }
    f_equal. split_index n q r En Hr. rewrite shl_word_testbit by (assumption || lia).
    f_equal. lia.
  - unfold shl. destruct (Z.eqb_spec k 0) as [->|].
    + rewrite Z.sub_0_r. destruct (Z.ltb_spec n W); [reflexivity|].
      rewrite bval_testbit_high by assumption. reflexivity.
    + destruct (Z.leb_spec W k); [|lia]. rewrite (proj2 zero_spec), Z.bits_0.
      destruct (Z.ltb_spec n W); [|reflexivity]. rewrite Z.testbit_neg_r by lia. reflexivity.
Qed.

Lemma shl_spec v k :
  bits_wf v -> 0 <= k -> bval (shl v k) = (bval v * 2 ^ k) mod 2 ^ W.
Proof using HW.
  intros Hv Hk. rewrite <- Z.shiftl_mul_pow2 by exact Hk. bit_ext n Hn. pose proof (W_pos (W:=W)).
  rewrite shl_testbit, Z.testbit_mod_pow2, Z.shiftl_spec by (assumption || lia). reflexivity.
Qed.

(** The word the right-shift loop writes at [dst]. *)
Definition lshr_word v (amount dst : Z) : Z :=
  let wordShift := amount / kWordBits in
  let bitShift := amount mod kWordBits in
  let src := dst + wordShift in
  if src <? kWords W then
    let w := u64_shr (word v src) bitShift in
    if negb (bitShift =? 0) && (src + 1 <? kWords W)
    then Z.lor w (u64_shl (word v (src + 1)) (64 - bitShift)) else w
  else 0.

Lemma lshr_word_range v k dst : bits_wf v -> 0 <= k -> 0 <= dst -> is_u 64 (lshr_word v k dst).
Proof using HW.
  intros Hv Hk Hd. unfold lshr_word, kWordBits. cbv zeta.
  pose proof (Z.mod_pos_bound k 64 ltac:(lia)).
  assert (0 <= k / 64) by (apply Z.div_pos; lia).
  destruct (Z.ltb_spec (dst + k / 64) (kWords W)); [|unfold is_u; lia].
  assert (is_u 64 (u64_shr (word v (dst + k / 64)) (k mod 64))).
  { apply is_u_shiftr; [lia|]. apply word_range; [exact Hv | lia]. }
  destruct (negb _ && _); [|assumption]. apply is_u_lor; [lia | assumption | apply u64_range].
Qed.

Lemma word_beyond v i : kWords W <= i -> word v i = 0.
Proof using. intros Hi. unfold word. destruct (Z.ltb_spec i (kWords W)); [lia | reflexivity]. Qed.

Lemma lshr_word_testbit v k q r :
  bits_wf v -> 0 <= k -> 0 <= q -> 0 <= r < 64 ->
  Z.testbit (lshr_word v k q) r = Z.testbit (bval v) (64 * q + r + k).
Proof using HW.
  intros Hv Hk Hq Hr. unfold lshr_word, kWordBits. cbv zeta.
  assert (0 <= k / 64) by (apply Z.div_pos; lia). pose proof (kWords_bounds (W:=W)).
  split_index k kq kr Ek Hkr.
  destruct (Z.ltb_spec (q + kq) (kWords W)) as [Hlt|Hge].
  2:{ rewrite Z.bits_0, bval_testbit_high by (assumption || lia). reflexivity. }
  assert (Hlow : Z.testbit (u64_shr (word v (q + kq)) kr) r =
                 if r + kr <? 64 then Z.testbit (bval v) (64 * q + r + k) else false).
  { unfold u64_shr. rewrite Z.shiftr_spec by lia. destruct (Z.ltb_spec (r + kr) 64).
    - rewrite bval_testbit_at by (assumption || lia). f_equal. lia.
    - apply word_testbit_high; [exact Hv | lia..]. }
  destruct (negb (kr =? 0) && (q + kq + 1 <? kWords W)) eqn:E.
  - apply andb_prop in E as [E1 E2]. apply negb_true_iff, Z.eqb_neq in E1. apply Z.ltb_lt in E2.
    rewrite Z.lor_spec, Hlow. unfold u64_shl. rewrite u64_testbit, Z.shiftl_spec by lia.
    destruct (Z.ltb_spec r 64); [|lia]. cbn [andb]. destruct (Z.ltb_spec (r + kr) 64).
    + rewrite (Z.testbit_neg_r (word _ _)) by lia. apply orb_false_r.
    + rewrite bval_testbit_at by (assumption || lia). cbn [orb]. f_equal. lia.
  - rewrite Hlow. destruct (Z.ltb_spec (r + kr) 64) as [|Hr2]; [reflexivity|].
    apply andb_false_iff in E. destruct E as [E|E].
    + apply negb_false_iff, Z.eqb_eq in E. lia.
    + apply Z.ltb_ge in E. rewrite bval_testbit_high by (assumption || lia). reflexivity.
Qed.

Lemma lshr_mk v k : 0 < k < W -> lshr v k = mk_words W (lshr_word v k).
Proof using HW.
  intros Hk. unfold lshr. destruct (Z.eqb_spec k 0); [lia|]. destruct (Z.leb_spec W k); [lia|].
  rewrite <- setWord_loop_up. reflexivity.
Qed.

Lemma lshr_wf v k : bits_wf v -> 0 <= k -> bits_wf (lshr v k).
Proof using HW.
  intros Hv Hk. destruct (decide (0 < k < W)).
  - rewrite lshr_mk by assumption. apply mk_words_wf. intros i Hi. apply lshr_word_range; [exact Hv | lia..].
  - unfold lshr. destruct (Z.eqb_spec k 0); [exact Hv|]. destruct (Z.leb_spec W k); [|lia].
    apply zero_spec.
Qed.

Lemma lshr_testbit v k n :
  bits_wf v -> 0 <= k -> 0 <= n ->
  Z.testbit (bval (lshr v k)) n = Z.testbit (bval v) (n + k).
Proof using HW.
  intros Hv Hk Hn. destruct (decide (0 < k < W)).
  - rewrite lshr_mk by assumption. rewrite mk_words_testbit; [| |exact Hn].
    2:{ intros i Hi. apply lshr_word_range; [exact Hv | lia..]. }
    destruct (Z.ltb_spec n W).
    + assert (0 <= n / 64) by (apply Z.div_pos; lia).
      split_index n q r En Hr. rewrite lshr_word_testbit by (assumption || lia).
      cbn [andb]. f_equal. lia.
    + rewrite bval_testbit_high by (assumption || lia). reflexivity.
  - unfold lshr. destruct (Z.eqb_spec k 0) as [->|]; [f_equal; lia|].
    destruct (Z.leb_spec W k); [|lia]. rewrite (proj2 zero_spec), Z.bits_0.
    rewrite bval_testbit_high by (assumption || lia). reflexivity.
Qed.

Lemma lshr_spec v k : bits_wf v -> 0 <= k -> bval (lshr v k) = bval v / 2 ^ k.
Proof using HW.
  intros Hv Hk. rewrite <- Z.shiftr_div_pow2 by exact Hk. bit_ext n Hn.
  rewrite lshr_testbit, Z.shiftr_spec by (assumption || lia). reflexivity.
Qed.
End Shift.

#[export] Hint Resolve shl_wf lshr_wf : bits.

(** ** Signed readings *)

Section Signed.
Context {W : Z} `{HW : PosWidth W}.
Implicit Types a b v : Bits W.

Lemma pow_W_half : 2 ^ W = 2 ^ (W - 1) * 2.
Proof using HW.
  unfold PosWidth in HW. rewrite Z.mul_comm, <- Z.pow_succ_r by lia. f_equal. lia.
Qed.

Lemma testbit_sub_pow x n :
  is_u W x -> 0 <= n -> Z.testbit (x - 2 ^ W) n = if n <? W then Z.testbit x n else true.
Proof using HW.
  intros Hx Hn. unfold PosWidth in HW.
  replace (x - 2 ^ W) with (x + 2 ^ W * (-1)) by lia.
  rewrite testbit_add_mul by (assumption || lia). destruct (Z.ltb_spec n W); [reflexivity|].
  apply Z.bits_m1. lia.
Qed.

Lemma sval_testbit v n :
  bits_wf v -> 0 <= n ->
  Z.testbit (sval v) n = if n <? W then Z.testbit (bval v) n else Z.testbit (bval v) (W - 1).
Proof using HW.
  intros Hv Hn. unfold sval. destruct (Z.testbit (bval v) (W - 1)) eqn:E.
  - rewrite testbit_sub_pow by (exact Hn || apply bval_range, Hv). reflexivity.
  - destruct (Z.ltb_spec n W); [reflexivity|]. apply bval_testbit_high; assumption.
Qed.

Lemma sval_range v : bits_wf v -> - 2 ^ (W - 1) <= sval v < 2 ^ (W - 1).
Proof using HW.
  intros Hv. pose proof (bval_range v Hv) as Hr. unfold is_u in Hr. unfold PosWidth in HW.
  pose proof pow_W_half as E.
  assert (Hp : 0 < 2 ^ (W - 1)) by (apply Z.pow_pos_nonneg; lia).
  unfold sval. destruct (Z.testbit (bval v) (W - 1)) eqn:Et.
  - apply Z.testbit_true in Et; [|lia].
    assert (bval v / 2 ^ (W - 1) <> 0) by (intros Hz; rewrite Hz in Et; discriminate Et).
    assert (2 ^ (W - 1) <= bval v).
    { destruct (Z.le_gt_cases (2 ^ (W - 1)) (bval v)); [assumption|].
      exfalso. apply H. apply Z.div_small. lia. }
    lia.
  - apply Z.testbit_false in Et; [|lia].
    destruct (Z.le_gt_cases (2 ^ (W - 1)) (bval v)); [|lia].
    assert (bval v / 2 ^ (W - 1) = 1); [|rewrite H0 in Et; discriminate Et].
    symmetry. apply (Z.div_unique _ _ _ (bval v - 2 ^ (W - 1))); lia.
Qed.

Lemma sval_mod v : bits_wf v -> sval v mod 2 ^ W = bval v.
Proof using HW.
  intros Hv. unfold sval. pose proof (bval_range v Hv) as Hr. unfold is_u in Hr.
  destruct (Z.testbit (bval v) (W - 1)); [|apply Z.mod_small; lia].
  replace (bval v - 2 ^ W) with (bval v + (-1) * 2 ^ W) by lia.
  rewrite Z.mod_add by lia. apply Z.mod_small. lia.
Qed.

(** A signed integer in range is the reading of the value congruent to it. *)
Lemma sval_unique v z :
  bits_wf v -> - 2 ^ (W - 1) <= z < 2 ^ (W - 1) -> bval v = z mod 2 ^ W -> sval v = z.
Proof using HW.
  intros Hv Hz E. pose proof (sval_range v Hv) as Hs. pose proof (sval_mod v Hv) as Hm.
  unfold PosWidth in HW.
  pose proof pow_W_half as E2.
  assert (Hp : 0 < 2 ^ (W - 1)) by (apply Z.pow_pos_nonneg; lia).
  rewrite E in Hm. pose proof (Z.div_mod (sval v) (2 ^ W) ltac:(lia)) as D1.
  pose proof (Z.div_mod z (2 ^ W) ltac:(lia)) as D2. rewrite Hm in D1.
  assert (sval v / 2 ^ W = z / 2 ^ W) by nia. nia.
Qed.

Lemma ashr_wf v k : bits_wf v -> 0 <= k -> bits_wf (ashr v k).
Proof using HW.
  intros Hv Hk. unfold ashr. destruct (Z.eqb_spec k 0); [exact Hv|].
  destruct (Z.leb_spec W k).
  - destruct (bit v (W - 1)); [apply ones_spec | apply zero_spec].
  - destruct (negb _); [apply lshr_wf; assumption|].
    apply bits_or_spec; [apply lshr_wf; assumption | apply shl_wf; [apply ones_spec | lia]].
Qed.

Lemma ashr_testbit v k n :
  bits_wf v -> 0 <= k -> 0 <= n ->
  Z.testbit (bval (ashr v k)) n = (n <? W) && Z.testbit (sval v) (n + k).
Proof using HW.
  intros Hv Hk Hn. pose proof (W_pos (W:=W)) as HW0. unfold ashr.
  rewrite bit_spec by (assumption || lia).
  destruct (Z.eqb_spec k 0) as [->|].
  { rewrite Z.add_0_r, sval_testbit by assumption. destruct (Z.ltb_spec n W); [reflexivity|].
    rewrite bval_testbit_high by assumption. reflexivity. }
  rewrite sval_testbit by (assumption || lia).
  destruct (Z.leb_spec W k).
  - destruct (Z.ltb_spec (n + k) W); [lia|]. destruct (Z.testbit (bval v) (W - 1)).
    + rewrite (proj2 ones_spec), ones_testbit, andb_true_r by lia. reflexivity.
    + rewrite (proj2 zero_spec), Z.bits_0, andb_false_r. reflexivity.
  - destruct (Z.testbit (bval v) (W - 1)) eqn:E; cbn [negb].
    + destruct (ones_spec (W:=W)) as [Ho Eo].
      rewrite (proj2 (bits_or_spec _ _ (lshr_wf v k Hv Hk) (shl_wf _ (W - k) Ho ltac:(lia)))).
      rewrite Z.lor_spec, lshr_testbit, shl_testbit, Eo by (assumption || lia).
      destruct (Z.ltb_spec n W); [|rewrite bval_testbit_high by (assumption || lia); reflexivity].
      destruct (Z.ltb_spec (n + k) W).
      * rewrite (Z.testbit_neg_r (Z.ones W)) by lia. cbn. apply orb_false_r.
      * rewrite ones_testbit by lia. destruct (Z.ltb_spec (n - (W - k)) W); [apply orb_true_r | lia].
    + rewrite lshr_testbit by assumption. destruct (Z.ltb_spec (n + k) W).
      * destruct (Z.ltb_spec n W); [reflexivity | lia].
      * rewrite bval_testbit_high by assumption. symmetry. apply andb_false_r.
Qed.

Lemma ashr_spec v k : bits_wf v -> 0 <= k -> sval (ashr v k) = sval v / 2 ^ k.
Proof using HW.
  intros Hv Hk. rewrite <- Z.shiftr_div_pow2 by exact Hk. pose proof (W_pos (W:=W)).
  bit_ext n Hn. rewrite sval_testbit by (auto using ashr_wf).
  rewrite !ashr_testbit, Z.shiftr_spec by (assumption || lia).
  destruct (Z.ltb_spec n W); [reflexivity|]. destruct (Z.ltb_spec (W - 1) W); [|lia]. cbn [andb].
  rewrite !sval_testbit by (assumption || lia).
  destruct (Z.ltb_spec (W - 1 + k) W), (Z.ltb_spec (n + k) W); try lia; f_equal; lia.
Qed.

Lemma slt_spec a b : bits_wf a -> bits_wf b -> slt a b = (sval a <? sval b).
Proof using HW.
  intros Ha Hb. pose proof (W_pos (W:=W)) as HW0. unfold slt.
  set (sign := shl (bits_of_word W 1) (W - 1)).
  destruct (bits_of_word_spec (W:=W) 1) as [H1 E1]; [unfold is_u; lia|].
  assert (Hs : bits_wf sign) by (apply shl_wf; [exact H1 | lia]).
  assert (Es : bval sign = 2 ^ (W - 1)).
  { unfold sign. rewrite shl_spec, E1 by (assumption || lia).
    assert (1 < 2 ^ W) by (apply Z.pow_gt_1; lia). rewrite (Z.mod_small 1) by lia.
    rewrite Z.mul_1_l. apply Z.mod_small. split; [apply Z.pow_nonneg; lia|].
    apply Z.pow_lt_mono_r; lia. }
  assert (Hflip : forall v, bits_wf v -> bval (bits_xor v sign) = sval v + 2 ^ (W - 1)).
  { intros v Hv. rewrite (proj2 (bits_xor_spec _ _ Hv Hs)), Es.
    pose proof pow_W_half as E2.
    unfold sval. destruct (Z.testbit (bval v) (W - 1)) eqn:E.
    - replace (bval v - 2 ^ W + 2 ^ (W - 1)) with (bval v - 2 ^ (W - 1)) by lia.
      rewrite (Z.sub_nocarry_ldiff (bval v) (2 ^ (W - 1))).
      + bit_ext n Hn. rewrite Z.lxor_spec, Z.ldiff_spec, Z.pow2_bits_eqb by lia.
        destruct (Z.eqb_spec (W - 1) n) as [<-|]; [rewrite E; reflexivity|].
        rewrite xorb_false_r, andb_true_r. reflexivity.
      + bit_ext n Hn. rewrite Z.ldiff_spec, Z.bits_0, Z.pow2_bits_eqb by lia.
        destruct (Z.eqb_spec (W - 1) n) as [<-|]; [rewrite E|]; reflexivity.
    - rewrite (Z.add_nocarry_lxor (bval v)); [reflexivity|].
      bit_ext n Hn. rewrite Z.land_spec, Z.bits_0, Z.pow2_bits_eqb by lia.
      destruct (Z.eqb_spec (W - 1) n) as [<-|]; [rewrite E; reflexivity | apply andb_false_r]. }
  rewrite bits_lt_spec by (apply bits_xor_spec; assumption).
  rewrite !Hflip by assumption.
  destruct (Z.ltb_spec (sval a) (sval b)), (Z.ltb_spec (sval a + 2 ^ (W - 1)) (sval b + 2 ^ (W - 1)));
    try reflexivity; lia.
Qed.
End Signed.

(** ** Width changes *)

Section Width.
Context {A B : Z} `{HA : PosWidth A} `{HB : PosWidth B}.
Implicit Types v : Bits A.

Lemma copy_words_range v i : bits_wf v -> 0 <= i < kWords B -> is_u 64 (word v i).
Proof using HA. intros Hv Hi. apply word_range; [exact Hv | lia]. Qed.

Lemma trunc_mk v : trunc B v = mk_words B (word v).
Proof using HB. unfold trunc. apply setWord_loop_up. Qed.

Lemma zext_mk v : zext B v = mk_words B (word v).
Proof using HB. unfold zext. apply setWord_loop_up. Qed.

Lemma copy_words_testbit v n :
  bits_wf v -> 0 <= n ->
  Z.testbit (bval (mk_words B (word v))) n = (n <? B) && Z.testbit (bval v) n.
Proof using HA HB.
  intros Hv Hn. rewrite mk_words_testbit by (auto using copy_words_range).
  rewrite (bval_testbit v) by assumption. reflexivity.
Qed.

Lemma trunc_spec v :
  bits_wf v -> bits_wf (trunc B v) /\ bval (trunc B v) = bval v mod 2 ^ B.
Proof using HA HB.
  intros Hv. rewrite trunc_mk. split; [apply mk_words_wf; auto using copy_words_range|].
  unfold PosWidth in *. bit_ext n Hn.
  rewrite copy_words_testbit, Z.testbit_mod_pow2 by (assumption || lia). reflexivity.
Qed.

Lemma zext_spec v :
  bits_wf v -> A <= B -> bits_wf (zext B v) /\ bval (zext B v) = bval v.
Proof using HA HB.
  intros Hv HAB. rewrite zext_mk. split; [apply mk_words_wf; auto using copy_words_range|].
  bit_ext n Hn. rewrite copy_words_testbit by assumption.
  destruct (Z.ltb_spec n B); [reflexivity|]. rewrite bval_testbit_high by (assumption || lia). reflexivity.
Qed.

(** The words written by [sext] for a negative operand. *)
Definition sext_word v (i : Z) : Z :=
  let signWord := (A - 1) / kWordBits in
  let signBit := (A - 1) mod kWordBits in
  let topFill := if signBit <? 63 then u64_shl (u64_not 0) (signBit + 1) else u64_not 0 in
  if i <? signWord then word v i
  else if i =? signWord then Z.lor (word v i) topFill
  else u64_not 0.

Lemma land_lor_absorb x t m : Z.land (Z.lor (Z.land x m) t) m = Z.land (Z.lor x t) m.
Proof using.
  apply Z.bits_inj'. intros n _. rewrite !Z.land_spec, !Z.lor_spec, Z.land_spec.
  destruct (Z.testbit x n), (Z.testbit t n), (Z.testbit m n); reflexivity.
Qed.

Lemma sext_neg_mk v :
  A <= B -> bit v (A - 1) = true -> sext B v = mk_words B (sext_word v).
Proof using HA HB.
  intros HAB Hneg. unfold sext. rewrite Hneg. cbn [negb].
  rewrite (setWord_loop_up (W:=B) (word v)).
  set (signWord := (A - 1) / kWordBits).
  set (topFill := if _ <? 63 then _ else _).
  pose proof (nWords_kWords (W:=B)) as Hn. pose proof (kWords_bounds (W:=B)) as Hb.
  assert (Hsw : 0 <= signWord < kWords B).
  { unfold signWord, kWordBits, PosWidth in *. split; [apply Z.div_pos; lia|].
    apply Z.div_lt_upper_bound; lia. }
  assert (Hw0 : forall i, 0 <= i < kWords B ->
            (words_ (mk_words B (word v))).[i] = masked_word (W:=B) (word v) i).
  { intros i Hi. rewrite mk_words_masked. apply fill_word. exact Hi. }
  assert (Hl0 : length (words_ (mk_words B (word v))) = nWords B).
  { rewrite mk_words_masked. apply length_fill. }
  set (out0 := mk_words B (word v)) in *. clearbody out0.
  rewrite mk_words_masked.
  match goal with |- for_range ?n ?i ?body ?s = _ =>
    pose proof (for_range_inv
      (fun k (out : Bits B) => length (words_ out) = nWords B /\
         (forall j, 0 <= j < k -> (words_ out).[j] = masked_word (W:=B) (sext_word v) j))
      n i body s) as H end.
  destruct H as [Hlen Hw].
  - rewrite setWord_words by exact Hsw. split; [rewrite length_insert; exact Hl0|].
    intros j Hj. destruct (decide (j = signWord)) as [->|Hne].
    + rewrite words_lookup_insert_eq by lia.
      unfold masked_word, sext_word. fold signWord topFill.
      destruct (Z.ltb_spec signWord signWord); [lia|]. rewrite Z.eqb_refl.
      rewrite <- (words_word out0 signWord), Hw0 by lia. unfold masked_word. destruct (Z.eqb_spec (signWord + 1) (kWords B)); [|reflexivity].
      apply land_lor_absorb.
    + rewrite words_lookup_insert_ne by lia. rewrite Hw0 by lia.
      unfold masked_word, sext_word. fold signWord topFill.
      destruct (Z.ltb_spec j signWord); [reflexivity | lia].
  - intros k out Hk [Hlen Hw]. rewrite setWord_words by lia.
    split; [rewrite length_insert; exact Hlen|]. intros j Hj.
    destruct (decide (j = k)) as [->|Hne].
    + rewrite words_lookup_insert_eq by lia.
      unfold masked_word, sext_word. fold signWord topFill.
      destruct (Z.ltb_spec k signWord); [lia|]. destruct (Z.eqb_spec k signWord); [lia | reflexivity].
    + rewrite words_lookup_insert_ne by lia. apply Hw. lia.
  - destruct (for_range _ _ _ _) as [ws]; cbn [words_] in *. f_equal.
    apply fill_eq; [exact Hlen|]. intros i Hi. apply Hw. lia.
Qed.

Lemma sext_word_range v i : bits_wf v -> 0 <= i -> is_u 64 (sext_word v i).
Proof using HA.
  intros Hv Hi. unfold sext_word. cbv zeta. repeat case_match; u64_solve; apply is_u_ones64.
Qed.

Lemma sext_word_testbit v q r :
  bits_wf v -> A mod 64 <> 0 -> Z.testbit (bval v) (A - 1) = true -> 0 <= q -> 0 <= r < 64 ->
  Z.testbit (sext_word v q) r = Z.testbit (sval v) (64 * q + r).
Proof using HA.
  intros Hv Hmod Hneg Hq Hr. rewrite sval_testbit, Hneg by (assumption || lia).
  unfold sext_word, kWordBits. cbv zeta.
  assert (Hsr' : (A - 1) mod 64 <> 63).
  { intros E. apply Hmod. pose proof (Z.div_mod (A - 1) 64 ltac:(lia)).
    replace A with ((1 + (A - 1) / 64) * 64) by lia. apply Z.mod_mul. lia. }
  split_index (A - 1) sq sr Es Hsr.
  destruct (Z.ltb_spec q sq).
  { rewrite bval_testbit_at by assumption. destruct (Z.ltb_spec (64 * q + r) A); [reflexivity | lia]. }
  destruct (Z.eqb_spec q sq) as [->|].
  2:{ rewrite u64_not_0, ones_testbit by lia.
      destruct (Z.ltb_spec (64 * q + r) A), (Z.ltb_spec r 64); try reflexivity; lia. }
  rewrite Z.lor_spec, bval_testbit_at by assumption.
  destruct (Z.ltb_spec sr 63); [|lia].
  unfold u64_shl. rewrite u64_not_0, u64_testbit, Z.shiftl_spec by lia.
  destruct (Z.ltb_spec r 64); [|lia]. cbn [andb].
  destruct (Z.ltb_spec (64 * sq + r) A).
  - rewrite (Z.testbit_neg_r (Z.ones 64)) by lia. apply orb_false_r.
  - rewrite ones_testbit by lia. destruct (Z.ltb_spec (r - (sr + 1)) 64); [apply orb_true_r | lia].
Qed.

Lemma sext_wf v : bits_wf v -> A <= B -> bits_wf (sext B v).
Proof using HA HB.
  intros Hv HAB. destruct (bit v (A - 1)) eqn:E.
  - rewrite sext_neg_mk by assumption. apply mk_words_wf. intros i Hi. apply sext_word_range; [exact Hv | lia].
  - unfold sext. rewrite E, (setWord_loop_up (W:=B) (word v)). cbn [negb].
    apply mk_words_wf; auto using copy_words_range.
Qed.

Lemma sext_testbit v n :
  bits_wf v -> A <= B -> A mod 64 <> 0 \/ Z.testbit (bval v) (A - 1) = false -> 0 <= n ->
  Z.testbit (bval (sext B v)) n = (n <? B) && Z.testbit (sval v) n.
Proof using HA HB.
  intros Hv HAB Hok Hn. pose proof (W_pos (W:=A)). destruct (bit v (A - 1)) eqn:E.
  - rewrite sext_neg_mk by assumption. rewrite bit_spec in E by (assumption || lia).
    destruct Hok as [Hok|Hok]; [|congruence].
    rewrite mk_words_testbit; [| |exact Hn].
    2:{ intros i Hi. apply sext_word_range; [exact Hv | lia]. }
    f_equal. split_index n q r En Hr. rewrite sext_word_testbit by (assumption || lia).
    f_equal. lia.
  - unfold sext. rewrite E, (setWord_loop_up (W:=B) (word v)). cbn [negb].
    rewrite copy_words_testbit by assumption. rewrite bit_spec in E by (assumption || lia).
    unfold sval. rewrite E. reflexivity.
Qed.

(** Sign extension preserves the signed reading, unless the operand is
    negative and its width a multiple of the word size. *)
Lemma sext_spec v :
  bits_wf v -> A <= B -> A mod 64 <> 0 \/ Z.testbit (bval v) (A - 1) = false ->
  sval (sext B v) = sval v.
Proof using HA HB.
  intros Hv HAB Hok. pose proof (W_pos (W:=A)). bit_ext n Hn.
  rewrite (sval_testbit (W:=B)) by (auto using sext_wf).
  rewrite !sext_testbit by (assumption || lia).
  destruct (Z.ltb_spec n B); [reflexivity|]. destruct (Z.ltb_spec (B - 1) B); [|lia]. cbn [andb].
  rewrite !sval_testbit by (assumption || lia).
  destruct (Z.ltb_spec n A); [lia|]. destruct (Z.ltb_spec (B - 1) A); [|reflexivity].
  f_equal. lia.
Qed.

Lemma extract_spec v lsb :
  bits_wf v -> 0 <= lsb ->
  bits_wf (extract B v lsb) /\ bval (extract B v lsb) = (bval v / 2 ^ lsb) mod 2 ^ B.
Proof using HA HB.
  intros Hv Hl. unfold extract.
  assert (Hs : bits_wf (lshr v lsb)) by (apply lshr_wf; assumption).
  split.
  - rewrite trunc_mk. apply mk_words_wf; auto using copy_words_range.
  - transitivity (bval (lshr v lsb) mod 2 ^ B); [|rewrite lshr_spec by assumption; reflexivity].
    unfold PosWidth in *. rewrite trunc_mk. bit_ext n Hn.
    rewrite copy_words_testbit, Z.testbit_mod_pow2 by (assumption || lia). reflexivity.
Qed.
End Width.

Section Concat.
Context {A B : Z} `{HA : PosWidth A} `{HB : PosWidth B}.

Lemma concat_spec (a : Bits A) (b : Bits B) :
  bits_wf a -> bits_wf b ->
  bits_wf (concat a b) /\ bval (concat a b) = bval a * 2 ^ B + bval b.
Proof using HA HB.
  intros Ha Hb. unfold concat.
  assert (HAB : PosWidth (A + B)) by (unfold PosWidth in *; lia).
  unfold PosWidth in HA, HB.
  destruct (zext_spec (B:=A + B) a Ha) as [Haa Eaa]; [lia|].
  destruct (zext_spec (B:=A + B) b Hb) as [Hbb Ebb]; [lia|].
  assert (Hs : bits_wf (shl (zext (A + B) a) B)) by (apply shl_wf; [exact Haa | lia]).
  destruct (bits_or_spec _ _ Hs Hbb) as [Ho Eo]. split; [exact Ho|].
  rewrite Eo, Ebb, shl_spec, Eaa by (assumption || lia).
  pose proof (bval_range a Ha) as Ra. pose proof (bval_range b Hb) as Rb. unfold is_u in Ra, Rb.
  rewrite Z.mod_small.
  2:{ rewrite Z.pow_add_r by lia. nia. }
  rewrite Z.lor_comm, (Z.add_comm (bval a * 2 ^ B)), (Z.mul_comm (bval a)).
  apply Z.bits_inj'. intros n Hn.
  rewrite testbit_add_mul by (exact Rb || lia).
  rewrite Z.lor_spec, (Z.mul_comm (2 ^ B)), Z.mul_pow2_bits by lia.
  destruct (Z.ltb_spec n B).
  - rewrite (Z.testbit_neg_r (bval a)) by lia. apply orb_false_r.
  - rewrite (bval_testbit_high b) by assumption. reflexivity.
Qed.
End Concat.

(** ** Single-word update *)

Section SetWord.
Context {W : Z} `{HW : PosWidth W}.

Lemma setWord_mk (v : Bits W) i w :
  bits_wf v -> 0 <= i < kWords W ->
  setWord v i w = mk_words W (fun j => if j =? i then w else word v j).
Proof using HW.
  intros Hv Hi. pose proof (nWords_kWords (W:=W)) as Hn. pose proof (kWords_bounds (W:=W)) as Hb.
  rewrite mk_words_masked. destruct (setWord v i w) as [ws] eqn:E.
  assert (Ew : ws = (words_ v).[i := masked_word (W:=W) (fun _ => w) i]).
  { rewrite <- setWord_words by exact Hi. rewrite E. reflexivity. }
  f_equal. rewrite Ew. apply fill_eq; [rewrite length_insert; apply Hv|].
  intros j Hj. unfold masked_word. destruct (Z.eqb_spec j i) as [->|Hne].
  - rewrite words_lookup_insert_eq by (pose proof (proj1 Hv); lia). reflexivity.
  - rewrite words_lookup_insert_ne by lia. rewrite words_word by lia.
    destruct (Z.eqb_spec (j + 1) (kWords W)) as [Ej|]; [|reflexivity].
    apply Z.bits_inj'. intros n Hn'. rewrite Z.land_spec, topMask_ones, ones_testbit by lia.
    destruct (Z.ltb_spec n (W - 64 * (kWords W - 1))); [symmetry; apply andb_true_r|].
    rewrite andb_false_r. destruct (Z.ltb_spec n 64).
    + rewrite bval_testbit_at by (assumption || lia). apply bval_testbit_high; [assumption | lia].
    + apply word_testbit_high; [assumption | lia..].
Qed.

Lemma setWord_range (v : Bits W) i w k :
  bits_wf v -> is_u 64 w -> 0 <= k -> is_u 64 (if k =? i then w else word v k).
Proof using HW. intros Hv Hw Hk. destruct (k =? i); [exact Hw | apply word_range; assumption]. Qed.

Lemma setWord_wf (v : Bits W) i w :
  bits_wf v -> is_u 64 w -> 0 <= i < kWords W -> bits_wf (setWord v i w).
Proof using HW.
  intros Hv Hw Hi. rewrite setWord_mk by assumption. apply mk_words_wf.
  intros k Hk. apply setWord_range; [assumption.. | lia].
Qed.

Lemma setWord_testbit (v : Bits W) i w n :
  bits_wf v -> is_u 64 w -> 0 <= i < kWords W -> 0 <= n < W ->
  Z.testbit (bval (setWord v i w)) n =
  if n / 64 =? i then Z.testbit w (n mod 64) else Z.testbit (bval v) n.
Proof using HW.
  intros Hv Hw Hi Hn. rewrite setWord_mk by assumption.
  rewrite mk_words_testbit; [|intros k Hk; apply setWord_range; [assumption.. | lia] | lia].
  destruct (Z.ltb_spec n W); [cbn [andb] | lia].
  destruct (n / 64 =? i); [reflexivity|]. rewrite bval_testbit by (assumption || lia). reflexivity.
Qed.
End SetWord.
