(* ===== verification/BitsArith.v ===== *)
(** * Arithmetic of [Bits]

    Addition, subtraction, multiplication and division of [bits.h] over
    arrays of 64-bit words, specified as integer arithmetic modulo
    [2^Width]. *)

From Stdlib Require Import ZArith Lia.
From stdpp Require Import base list numbers.
From S2P Require Import Prelude Bits BitsLogic BitsShift.

(** ** Word steps *)

Lemma bool_carry (c d : bool) :
  Z.lor (if c then 1 else 0) (if d then 1 else 0) = if c || d then 1 else 0.
Proof. destruct c, d; reflexivity. Qed.

(** One word of the carry chain. *)
Lemma add_word_step x y c :
  is_u 64 x -> is_u 64 y -> 0 <= c <= 1 ->
  let sum := u64_add x y in
  let w := u64_add sum c in
  let carry := Z.lor (if sum <? x then 1 else 0) (if w <? sum then 1 else 0) in
  is_u 64 w /\ 0 <= carry <= 1 /\ w + 2 ^ 64 * carry = x + y + c.
Proof.
  intros Hx Hy Hc sum w carry. split; [apply u64_range|].
  unfold carry, w, sum, u64_add, u64, wrapu, is_u in *. rewrite bool_carry.
  pose proof (Z.mod_pos_bound (x + y) (2 ^ 64) ltac:(lia)) as B1.
  pose proof (Z.div_mod (x + y) (2 ^ 64) ltac:(lia)) as D1.
  set (s := (x + y) mod 2 ^ 64) in *. set (q := (x + y) / 2 ^ 64) in *.
  pose proof (Z.mod_pos_bound (s + c) (2 ^ 64) ltac:(lia)) as B2.
  pose proof (Z.div_mod (s + c) (2 ^ 64) ltac:(lia)) as D2.
  set (t := (s + c) mod 2 ^ 64) in *. set (p := (s + c) / 2 ^ 64) in *.
  clearbody s q t p.
  destruct (Z.ltb_spec s x), (Z.ltb_spec t s); cbn [orb]; split; try lia.
Qed.

(** One word of the borrow chain. *)
Lemma sub_word_step x y c :
  is_u 64 x -> is_u 64 y -> 0 <= c <= 1 ->
  let diff := u64_sub x y in
  let w := u64_sub diff c in
  let borrow := Z.lor (if x <? y then 1 else 0) (if diff <? c then 1 else 0) in
  is_u 64 w /\ 0 <= borrow <= 1 /\ w - 2 ^ 64 * borrow = x - y - c.
Proof.
  intros Hx Hy Hc diff w borrow. split; [apply u64_range|].
  unfold borrow, w, diff, u64_sub, u64, wrapu, is_u in *. rewrite bool_carry.
  pose proof (Z.mod_pos_bound (x - y) (2 ^ 64) ltac:(lia)) as B1.
  pose proof (Z.div_mod (x - y) (2 ^ 64) ltac:(lia)) as D1.
  set (s := (x - y) mod 2 ^ 64) in *. set (q := (x - y) / 2 ^ 64) in *.
  pose proof (Z.mod_pos_bound (s - c) (2 ^ 64) ltac:(lia)) as B2.
  pose proof (Z.div_mod (s - c) (2 ^ 64) ltac:(lia)) as D2.
  set (t := (s - c) mod 2 ^ 64) in *. set (p := (s - c) / 2 ^ 64) in *.
  clearbody s q t p.
  destruct (Z.ltb_spec x y), (Z.ltb_spec s c); cbn [orb]; split; try lia.
Qed.

(** The 32-bit limb product is exact. *)
Lemma mulWord_spec a b :
  is_u 64 a -> is_u 64 b ->
  let '(hi, lo) := mulWord a b in
  is_u 64 hi /\ is_u 64 lo /\ 2 ^ 64 * hi + lo = a * b.
Proof.
  intros Ha Hb. unfold mulWord. cbv zeta. unfold is_u in *.
  change 0xFFFFFFFF with (Z.ones 32). unfold u64_shr.
  rewrite !Z.land_ones, !Z.shiftr_div_pow2 by lia.
  pose proof (Z.div_mod a (2 ^ 32) ltac:(lia)) as Da.
  pose proof (Z.mod_pos_bound a (2 ^ 32) ltac:(lia)) as Ma.
  pose proof (Z.div_mod b (2 ^ 32) ltac:(lia)) as Db.
  pose proof (Z.mod_pos_bound b (2 ^ 32) ltac:(lia)) as Mb.
  assert (Ha2 : 0 <= a / 2 ^ 32 < 2 ^ 32) by (split; [apply Z.div_pos | apply Z.div_lt_upper_bound]; lia).
  assert (Hb2 : 0 <= b / 2 ^ 32 < 2 ^ 32) by (split; [apply Z.div_pos | apply Z.div_lt_upper_bound]; lia).
  set (al := a mod 2 ^ 32) in *. set (ah := a / 2 ^ 32) in *.
  set (bl := b mod 2 ^ 32) in *. set (bh := b / 2 ^ 32) in *. clearbody al ah bl bh.
  assert (Pll : 0 <= al * bl <= (2 ^ 32 - 1) * (2 ^ 32 - 1)) by nia.
  assert (Plh : 0 <= al * bh <= (2 ^ 32 - 1) * (2 ^ 32 - 1)) by nia.
  assert (Phl : 0 <= ah * bl <= (2 ^ 32 - 1) * (2 ^ 32 - 1)) by nia.
  assert (Phh : 0 <= ah * bh <= (2 ^ 32 - 1) * (2 ^ 32 - 1)) by nia.
  assert (Hab : a * b = 2 ^ 64 * (ah * bh) + 2 ^ 32 * (al * bh + ah * bl) + al * bl).
  { rewrite Da, Db. replace (2 ^ 64) with (2 ^ 32 * 2 ^ 32) by reflexivity. ring. }
  assert (Hub : a * b <= (2 ^ 64 - 1) * (2 ^ 64 - 1)) by nia.
  unfold u64_mul, u64_add, u64_shl.
  rewrite !(u64_id (_ * _)) by (unfold is_u; lia).
  set (ll := al * bl) in *. set (lh := al * bh) in *. set (hl := ah * bl) in *. set (hh := ah * bh) in *.
  clearbody ll lh hl hh. rewrite Hab in *. clear Da Db Hab.
  pose proof (Z.div_mod ll (2 ^ 32) ltac:(lia)) as D1. pose proof (Z.mod_pos_bound ll (2 ^ 32) ltac:(lia)) as M1.
  pose proof (Z.div_mod lh (2 ^ 32) ltac:(lia)) as D2. pose proof (Z.mod_pos_bound lh (2 ^ 32) ltac:(lia)) as M2.
  pose proof (Z.div_mod hl (2 ^ 32) ltac:(lia)) as D3. pose proof (Z.mod_pos_bound hl (2 ^ 32) ltac:(lia)) as M3.
  set (l1 := ll mod 2 ^ 32) in *. set (h1 := ll / 2 ^ 32) in *.
  set (l2 := lh mod 2 ^ 32) in *. set (h2 := lh / 2 ^ 32) in *.
  set (l3 := hl mod 2 ^ 32) in *. set (h3 := hl / 2 ^ 32) in *. clearbody l1 h1 l2 h2 l3 h3.
  rewrite (u64_id (h1 + l2)) by (unfold is_u; lia). rewrite (u64_id (h1 + l2 + l3)) by (unfold is_u; lia).
  set (mid := h1 + l2 + l3) in *.
  pose proof (Z.div_mod mid (2 ^ 32) ltac:(lia)) as D4. pose proof (Z.mod_pos_bound mid (2 ^ 32) ltac:(lia)) as M4.
  rewrite Z.shiftl_mul_pow2 by lia.
  assert (Em : u64 (mid * 2 ^ 32) = 2 ^ 32 * (mid mod 2 ^ 32)).
  { unfold u64, wrapu. replace (2 ^ 64) with (2 ^ 32 * 2 ^ 32) by reflexivity.
    rewrite Z.mul_mod_distr_r by lia. lia. }
  rewrite Em.
  assert (El : Z.lor l1 (2 ^ 32 * (mid mod 2 ^ 32)) = l1 + 2 ^ 32 * (mid mod 2 ^ 32)).
  { symmetry. apply Z.bits_inj'. intros n Hn. rewrite testbit_add_mul by (unfold is_u; lia).
    rewrite Z.lor_spec, (Z.mul_comm (2 ^ 32)), Z.mul_pow2_bits by lia.
    destruct (Z.ltb_spec n 32).
    - rewrite (Z.testbit_neg_r (mid mod _)) by lia. symmetry. apply orb_false_r.
    - rewrite (is_u_testbit 32 l1) by (unfold is_u; lia). reflexivity. }
  rewrite El.
  set (ml := mid mod 2 ^ 32) in *. set (mh := mid / 2 ^ 32) in *. clearbody ml mh.
  unfold mid in *. clear mid Em El.
  rewrite (u64_id (hh + h2)) by (unfold is_u; lia).
  rewrite (u64_id (hh + h2 + h3)) by (unfold is_u; lia).
  rewrite (u64_id (hh + h2 + h3 + mh)) by (unfold is_u; lia).
  repeat split; lia.
Qed.

(** ** Multi-word operators *)

Section Arith.
Context {W : Z} `{HW : PosWidth W}.
Implicit Types a b v : Bits W.

Definition full : Z := 64 * kWords W.

Lemma full_ge : W <= full.
Proof using HW. unfold full. pose proof (kWords_bounds (W:=W)). lia. Qed.

Lemma take_all_words v : bits_wf v -> words_to_Z (take (nWords W) (words_ v)) = bval v.
Proof using. intros (Hl & _). rewrite take_ge by lia. reflexivity. Qed.

(** The value [maskTop] leaves depends only on the words modulo [2^full]. *)
Lemma maskTop_mod ws z :
  length ws = nWords W -> Forall (is_u 64) ws -> words_to_Z ws mod 2 ^ full = z mod 2 ^ full ->
  bits_wf (maskTop (mkBits (Width:=W) ws)) /\ bval (maskTop (mkBits (Width:=W) ws)) = z mod 2 ^ W.
Proof using HW.
  intros Hl Hf E. destruct (maskTop_spec (W:=W) ws Hl Hf) as [Hwf Ev]. split; [exact Hwf|].
  rewrite Ev. apply (mod_of_eq _ _ W full); [|exact E]. pose proof full_ge. unfold PosWidth in HW. lia.
Qed.

Lemma zeros_range n : Forall (is_u 64) (replicate n 0).
Proof using. apply Forall_replicate. unfold is_u. lia. Qed.

(** The state of a carry loop before word [k]. *)
Definition chain_inv (sgn : Z) (a b : Bits W) (k : Z) (st : list Z * Z) : Prop :=
  let '(out, carry) := st in
  length out = nWords W /\ Forall (is_u 64) out /\ 0 <= carry <= 1 /\
  (forall j, k <= j < kWords W -> out.[j] = 0) /\
  words_to_Z out + sgn * (2 ^ (64 * k) * carry) =
    words_to_Z (take (Z.to_nat k) (words_ a)) + sgn * words_to_Z (take (Z.to_nat k) (words_ b)).

Lemma chain_inv_init sgn a b : chain_inv sgn a b 0 (replicate (nWords W) 0, 0).
Proof using HW.
  unfold chain_inv. pose proof (nWords_kWords (W:=W)).
  rewrite length_replicate, words_to_Z_zeros. repeat split; try lia; [apply zeros_range|].
  intros j Hj. apply lookup_total_replicate_2. lia.
Qed.

(** Writing one result word advances the chain. *)
Lemma chain_inv_step sgn a b k out carry w carry' :
  bits_wf a -> bits_wf b -> 0 <= k < kWords W -> chain_inv sgn a b k (out, carry) ->
  is_u 64 w -> 0 <= carry' <= 1 ->
  w + sgn * (2 ^ 64 * carry') = (words_ a).[k] + sgn * ((words_ b).[k] + carry) ->
  chain_inv sgn a b (k + 1) (out.[k := w], carry').
Proof using HW.
  intros (La & _) (Lb & _) Hk (Hl & Hf & _ & Hz & He) Hw Hc E. unfold chain_inv.
  pose proof (nWords_kWords (W:=W)). rewrite length_insert.
  split; [exact Hl|]. split; [apply Forall_insert; assumption|]. split; [exact Hc|]. split.
  - intros j Hj. rewrite words_lookup_insert_ne by lia. apply Hz. lia.
  - rewrite words_to_Z_insert, Hz by lia.
    replace (Z.to_nat (k + 1)) with (S (Z.to_nat k)) by lia.
    rewrite !words_to_Z_take by lia. rewrite Z2Nat.id by lia.
    replace (64 * (k + 1)) with (64 * k + 64) by lia. rewrite Z.pow_add_r by lia.
    set (P := 2 ^ (64 * k)) in *. set (Q := 2 ^ 64) in *. nia.
Qed.

Lemma bits_add_spec a b :
  bits_wf a -> bits_wf b ->
  bits_wf (bits_add a b) /\ bval (bits_add a b) = (bval a + bval b) mod 2 ^ W.
Proof using HW.
  intros Ha Hb. pose proof (nWords_kWords (W:=W)) as Hn. unfold bits_add.
  match goal with |- context [for_range ?n ?i ?body ?s] =>
    pose proof (for_range_inv (chain_inv 1 a b) n i body s) as H end.
  destruct (for_range _ _ _ _) as [out carry].
  destruct H as (Hl & Hf & Hc & _ & E); [apply chain_inv_init | |].
  - intros k [out' c'] Hk Hinv. pose proof Hinv as (_ & _ & Hc' & _).
    destruct (add_word_step (words_ a).[k] (words_ b).[k] c') as (Hw & Hcr & Es);
      [apply raw_range; [assumption | lia].. | exact Hc' |].
    apply (chain_inv_step 1 a b k out' c'); try assumption; lia.
  - cbv zeta. rewrite Hn, Z.add_0_l in E. apply maskTop_mod; [assumption..|].
    replace (Z.to_nat (kWords W)) with (nWords W) in E by lia.
    rewrite !take_all_words in E by assumption.
    replace (words_to_Z out) with (bval a + bval b + (- carry) * 2 ^ full) by (unfold full; lia).
    rewrite Z.mod_add by (apply Z.pow_nonzero; pose proof full_ge; unfold PosWidth in HW; lia). reflexivity.
Qed.

Lemma bits_sub_spec a b :
  bits_wf a -> bits_wf b ->
  bits_wf (bits_sub a b) /\ bval (bits_sub a b) = (bval a - bval b) mod 2 ^ W.
Proof using HW.
  intros Ha Hb. pose proof (nWords_kWords (W:=W)) as Hn. unfold bits_sub.
  match goal with |- context [for_range ?n ?i ?body ?s] =>
    pose proof (for_range_inv (chain_inv (-1) a b) n i body s) as H end.
  destruct (for_range _ _ _ _) as [out carry].
  destruct H as (Hl & Hf & Hc & _ & E); [apply chain_inv_init | |].
  - intros k [out' c'] Hk Hinv. pose proof Hinv as (_ & _ & Hc' & _).
    destruct (sub_word_step (words_ a).[k] (words_ b).[k] c') as (Hw & Hcr & Es);
      [apply raw_range; [assumption | lia].. | exact Hc' |].
    apply (chain_inv_step (-1) a b k out' c'); try assumption; lia.
  - cbv zeta. rewrite Hn, Z.add_0_l in E. apply maskTop_mod; [assumption..|].
    replace (Z.to_nat (kWords W)) with (nWords W) in E by lia.
    rewrite !take_all_words in E by assumption.
    replace (words_to_Z out) with (bval a - bval b + carry * 2 ^ full) by (unfold full; lia).
    rewrite Z.mod_add by (apply Z.pow_nonzero; pose proof full_ge; unfold PosWidth in HW; lia). reflexivity.
Qed.

(** One inner step of the schoolbook product adds [ai * bj] at word [idx],
    carrying exactly. *)
Lemma mul_step_spec ai bj idx out carry :
  is_u 64 ai -> is_u 64 bj -> is_u 64 carry -> Forall (is_u 64) out ->
  0 <= idx < Z.of_nat (length out) ->
  let '(out', carry') := mul_step ai bj idx (out, carry) in
  length out' = length out /\ Forall (is_u 64) out' /\ is_u 64 carry' /\
  words_to_Z out' + 2 ^ (64 * (idx + 1)) * carry' =
    words_to_Z out + 2 ^ (64 * idx) * carry + 2 ^ (64 * idx) * (ai * bj).
Proof using.
  intros Hai Hbj Hc Hf Hidx. unfold mul_step.
  pose proof (mulWord_spec ai bj Hai Hbj) as Hm. destruct (mulWord ai bj) as [hi lo].
  destruct Hm as (Hhi & Hlo & Ep).
  assert (Hcur : is_u 64 out.[idx]) by (apply (Forall_lookup_total_1 _ _ _ Hf); lia).
  set (cur := out.[idx]) in *.
  assert (Hstep : exists w cl ch, w = u64_add (u64_add cur lo) carry /\
    cl = (if u64_add cur lo <? cur then 1 else 0) /\
    ch = (if u64_add (u64_add cur lo) carry <? u64_add cur lo then 1 else 0) /\
    0 <= cl <= 1 /\ 0 <= ch <= 1 /\ is_u 64 w /\ w + 2 ^ 64 * (cl + ch) = cur + lo + carry).
  { do 3 eexists. split; [reflexivity|]. split; [reflexivity|]. split; [reflexivity|].
    split; [case_match; lia|]. split; [case_match; lia|]. split; [apply u64_range|].
    unfold u64_add, u64, wrapu, is_u in *.
    pose proof (Z.mod_pos_bound (cur + lo) (2 ^ 64) ltac:(lia)) as B1.
    pose proof (Z.div_mod (cur + lo) (2 ^ 64) ltac:(lia)) as D1.
    set (s := (cur + lo) mod 2 ^ 64) in *. set (q := (cur + lo) / 2 ^ 64) in *.
    pose proof (Z.mod_pos_bound (s + carry) (2 ^ 64) ltac:(lia)) as B2.
    pose proof (Z.div_mod (s + carry) (2 ^ 64) ltac:(lia)) as D2.
    set (t := (s + carry) mod 2 ^ 64) in *. set (p := (s + carry) / 2 ^ 64) in *.
    clearbody s q t p. destruct (Z.ltb_spec s cur), (Z.ltb_spec t s); lia. }
  destruct Hstep as (w & cl & ch & Ew & Ecl & Ech & Hcl & Hch & Hw & Es).
  rewrite <- Ech, <- Ecl, <- Ew. clear Ech Ecl Ew.
  assert (Hub : ai * bj <= (2 ^ 64 - 1) * (2 ^ 64 - 1)) by (unfold is_u in *; nia).
  unfold is_u in *. unfold u64_add.
  rewrite (u64_id (hi + cl)) by (unfold is_u; lia). rewrite (u64_id (hi + cl + ch)) by (unfold is_u; lia).
  rewrite length_insert. split; [reflexivity|]. split; [apply Forall_insert; assumption|].
  split; [lia|]. rewrite words_to_Z_insert by lia. rewrite Z2Nat.id by lia. fold cur.
  replace (64 * (idx + 1)) with (64 * idx + 64) by lia. rewrite Z.pow_add_r by lia.
  set (P := 2 ^ (64 * idx)) in *. nia.
Qed.

(** One row of the product, up to the discarded top carry. *)
Lemma mul_row_spec a b i out :
  bits_wf a -> bits_wf b -> 0 <= i < kWords W ->
  length out = nWords W -> Forall (is_u 64) out ->
  let r := fst (for_range (Z.to_nat (kWords W - i)) 0
                 (fun j st => mul_step (words_ a).[i] (words_ b).[j] (i + j) st) (out, 0)) in
  length r = nWords W /\ Forall (is_u 64) r /\
  words_to_Z r mod 2 ^ full =
    (words_to_Z out + 2 ^ (64 * i) * (words_ a).[i] * bval b) mod 2 ^ full.
Proof using HW.
  intros Ha Hb Hi Hl Hf r. unfold r. clear r. pose proof (nWords_kWords (W:=W)) as Hn.
  pose proof Hb as (Lb & Fb & _).
  assert (Hai : is_u 64 (words_ a).[i]) by (apply raw_range; assumption).
  set (ai := (words_ a).[i]) in *.
  match goal with |- context [for_range ?n ?s ?body ?t] =>
    pose proof (for_range_inv
      (fun j (st : list Z * Z) => let '(o, c) := st in
         length o = nWords W /\ Forall (is_u 64) o /\ is_u 64 c /\
         words_to_Z o + 2 ^ (64 * (i + j)) * c =
           words_to_Z out + 2 ^ (64 * i) * ai * words_to_Z (take (Z.to_nat j) (words_ b)))
      n s body t) as H end.
  destruct (for_range _ _ _ _) as [o c]. cbn [fst].
  destruct H as (Ho & Fo & Hc & E).
  - split; [exact Hl|]. split; [exact Hf|]. split; [unfold is_u; lia|].
    change (Z.to_nat 0) with 0%nat. rewrite take_0. cbn [words_to_Z]. lia.
  - intros j [o' c'] Hj (Lo & Fo & Hc & E).
    assert (Hbj : is_u 64 (words_ b).[j]) by (apply raw_range; [exact Hb | lia]).
    pose proof (mul_step_spec ai (words_ b).[j] (i + j) o' c' Hai Hbj Hc Fo ltac:(lia)) as Hs.
    destruct (mul_step _ _ _ _) as [o2 c2]. destruct Hs as (L2 & F2 & Hc2 & E2).
    split; [congruence|]. split; [exact F2|]. split; [exact Hc2|].
    replace (i + (j + 1)) with (i + j + 1) by lia. rewrite E2, E.
    replace (Z.to_nat (j + 1)) with (S (Z.to_nat j)) by lia.
    rewrite words_to_Z_take by lia. rewrite Z2Nat.id by lia.
    replace (64 * (i + j)) with (64 * i + 64 * j) by lia. rewrite Z.pow_add_r by lia. ring.
  - split; [exact Ho|]. split; [exact Fo|].
    rewrite Z.add_0_l, Z2Nat.id in E by lia.
    replace (i + (kWords W - i)) with (kWords W) in E by lia. fold full in E.
    assert (Hfp : 2 ^ full <> 0).
    { apply Z.pow_nonzero; [lia|]. pose proof full_ge. unfold PosWidth in HW. lia. }
    replace (words_to_Z o) with
      (words_to_Z out + 2 ^ (64 * i) * ai * words_to_Z (take (Z.to_nat (kWords W - i)) (words_ b)) + (- c) * 2 ^ full)
      by lia.
    rewrite Z.mod_add by exact Hfp.
    set (kb := Z.to_nat (kWords W - i)).
    assert (Eb : bval b = words_to_Z (take kb (words_ b)) + 2 ^ (64 * (kWords W - i)) * words_to_Z (drop kb (words_ b))).
    { unfold bval. rewrite <- (take_drop kb (words_ b)) at 1.
      rewrite words_to_Z_app, length_take_le by (unfold kb; lia). unfold kb. rewrite Z2Nat.id by lia. reflexivity. }
    rewrite Eb, Z.mul_add_distr_l.
    replace (2 ^ (64 * i) * ai * (2 ^ (64 * (kWords W - i)) * words_to_Z (drop kb (words_ b))))
      with ((ai * words_to_Z (drop kb (words_ b))) * 2 ^ full).
    + rewrite Z.add_assoc, Z.mod_add by exact Hfp. reflexivity.
    + replace full with (64 * i + 64 * (kWords W - i)) by (unfold full; lia).
      rewrite Z.pow_add_r by lia. ring.
Qed.

Lemma bits_mul_spec a b :
  bits_wf a -> bits_wf b ->
  bits_wf (bits_mul a b) /\ bval (bits_mul a b) = (bval a * bval b) mod 2 ^ W.
Proof using HW.
  intros Ha Hb. pose proof (nWords_kWords (W:=W)) as Hn. unfold bits_mul.
  pose proof Ha as (La & _).
  match goal with |- context [for_range ?n ?i0 ?body ?s] =>
    pose proof (for_range_inv
      (fun i (out : list Z) => length out = nWords W /\ Forall (is_u 64) out /\
         words_to_Z out mod 2 ^ full = (words_to_Z (take (Z.to_nat i) (words_ a)) * bval b) mod 2 ^ full)
      n i0 body s) as H end.
  destruct H as (Hl & Hf & E).
  - rewrite length_replicate, words_to_Z_zeros. split; [reflexivity|]. split; [apply zeros_range|].
    reflexivity.
  - intros i out Hi (Lo & Fo & Eo).
    destruct (mul_row_spec a b i out Ha Hb ltac:(lia) Lo Fo) as (L2 & F2 & E2).
    split; [exact L2|]. split; [exact F2|]. rewrite E2.
    replace (Z.to_nat (i + 1)) with (S (Z.to_nat i)) by lia.
    rewrite words_to_Z_take, Z.mul_add_distr_r by lia. rewrite Z2Nat.id by lia.
    rewrite Z.add_mod, Eo, <- Z.add_mod.
    + reflexivity.
    + apply Z.pow_nonzero; [lia|]. pose proof full_ge. unfold PosWidth in HW. lia.
    + apply Z.pow_nonzero; [lia|]. pose proof full_ge. unfold PosWidth in HW. lia.
  - rewrite Hn, Z.add_0_l in E. replace (Z.to_nat (kWords W)) with (nWords W) in E by lia.
    rewrite take_all_words in E by exact Ha. apply maskTop_mod; assumption.
Qed.
End Arith.

(** ** Division *)

Section Division.
Context {W : Z} `{HW : PosWidth W}.
Implicit Types a b v : Bits W.

Lemma one_spec : bits_wf (bits_of_word W 1) /\ bval (bits_of_word W 1) = 1.
Proof using HW.
  destruct (bits_of_word_spec (W:=W) 1) as [H E]; [unfold is_u; lia|]. split; [exact H|].
  rewrite E. apply Z.mod_small. unfold PosWidth in HW. assert (1 < 2 ^ W) by (apply Z.pow_gt_1; lia). lia.
Qed.

Lemma negate_spec v : bits_wf v -> bits_wf (negate v) /\ bval (negate v) = (- bval v) mod 2 ^ W.
Proof using HW.
  intros Hv. unfold negate. destruct one_spec as [H1 E1].
  destruct (bits_add_spec _ _ (bits_not_wf v Hv) H1) as [Hs Es]. split; [exact Hs|].
  rewrite Es, E1, bits_not_spec by exact Hv.
  replace (2 ^ W - 1 - bval v + 1) with (- bval v + 1 * 2 ^ W) by lia.
  apply Z.mod_add. pose proof (pow_W_pos (W:=W)). lia.
Qed.

Lemma setBit_spec v i m :
  bits_wf v -> 0 <= i < W -> bval v = m * 2 ^ (i + 1) ->
  bits_wf (setBit v i) /\ bval (setBit v i) = bval v + 2 ^ i.
Proof using HW.
  intros Hv Hi Em. unfold setBit. destruct (Z.leb_spec W i); [lia|].
  destruct one_spec as [H1 E1].
  assert (Hs : bits_wf (shl (bits_of_word W 1) i)) by (apply shl_wf; [exact H1 | lia]).
  destruct (bits_or_spec _ _ Hv Hs) as [Ho Eo]. split; [exact Ho|].
  rewrite Eo, shl_spec, E1, Z.mul_1_l by (assumption || lia).
  rewrite (Z.mod_small (2 ^ i)) by (split; [apply Z.pow_nonneg | apply Z.pow_lt_mono_r]; lia).
  rewrite Z.add_comm, Z.lor_comm. symmetry. apply Z.add_nocarry_lor.
  apply Z.bits_inj'. intros n Hn. rewrite Z.land_spec, Z.bits_0, Z.pow2_bits_eqb by lia.
  destruct (Z.eqb_spec i n) as [<-|]; [|reflexivity]. rewrite Em.
  rewrite Z.mul_pow2_bits_low by lia. reflexivity.
Qed.

(** The state of restoring division after the top [k] bits of the
    numerator. *)
Definition udivrem_inv (numer denom : Bits W) (k : Z) (st : Bits W * Bits W) : Prop :=
  let '(quot, rem) := st in
  bits_wf quot /\ bits_wf rem /\ bval rem < bval denom /\
  exists q, bval quot = q * 2 ^ (W - k) /\ bval numer / 2 ^ (W - k) = q * bval denom + bval rem.

Lemma shl1_or_spec v (c : bool) :
  bits_wf v -> 2 * bval v + 1 < 2 ^ W ->
  let r := if c then bits_or (shl v 1) (bits_of_word W 1) else shl v 1 in
  bits_wf r /\ bval r = 2 * bval v + Z.b2z c.
Proof using HW.
  intros Hv Hb r. pose proof (bval_range v Hv) as Hr. unfold is_u in Hr.
  assert (Hs : bits_wf (shl v 1)) by (apply shl_wf; [exact Hv | lia]).
  assert (Es : bval (shl v 1) = 2 * bval v).
  { rewrite shl_spec by (assumption || lia). rewrite Z.mod_small by lia. lia. }
  unfold r. destruct c; cbn [Z.b2z]; [|split; [exact Hs | lia]].
  destruct one_spec as [H1 E1]. destruct (bits_or_spec _ _ Hs H1) as [Ho Eo].
  split; [exact Ho|]. rewrite Eo, E1, Es. symmetry. apply Z.add_nocarry_lor.
  apply Z.bits_inj'. intros n Hn. rewrite Z.land_spec, Z.bits_0.
  destruct (decide (n = 0)) as [->|].
  - rewrite Z.testbit_even_0. reflexivity.
  - change 1 with (2 ^ 0). rewrite Z.pow2_bits_eqb by lia.
    destruct (Z.eqb_spec 0 n); [lia|]. apply andb_false_r.
Qed.

Lemma half_step (n c : Z) : 0 <= c -> n / 2 ^ c = 2 * (n / 2 ^ (c + 1)) + Z.b2z (Z.testbit n c).
Proof using.
  intros Hb. rewrite Z.pow_add_r by lia. change (2 ^ 1) with 2.
  rewrite <- Z.div_div by (try apply Z.pow_nonzero; lia).
  assert (E : Z.b2z (Z.testbit n c) = (n / 2 ^ c) mod 2) by (apply Z.testbit_spec'; lia).
  rewrite E. apply Z.div_mod. lia.
Qed.

Lemma udivrem_step_inv numer denom k st :
  bits_wf numer -> bits_wf denom -> 0 <= k < W ->
  udivrem_inv numer denom k st ->
  udivrem_inv numer denom (k + 1) (udivrem_step numer denom (W - k - 1) st).
Proof using HW.
  intros Hn Hd Hk Hinv. destruct st as [quot rem]. destruct Hinv as (Hq & Hr & Hlt & q & Eq & En).
  pose proof (bval_range _ Hn) as Rn. pose proof (bval_range _ Hr) as Rr. unfold is_u in Rn, Rr.
  pose proof (bval_range _ Hq) as Rq. unfold is_u in Rq.
  set (c := W - k - 1) in *. replace (W - k) with (c + 1) in * by lia.
  assert (Ec : W - (k + 1) = c) by lia.
  assert (Hc1 : 0 < 2 ^ (c + 1)) by (apply Z.pow_pos_nonneg; lia).
  assert (Hc0 : 0 < 2 ^ c) by (apply Z.pow_pos_nonneg; lia).
  assert (E2c : 2 ^ (c + 1) = 2 * 2 ^ c) by (rewrite Z.pow_add_r by lia; lia).
  assert (Hqn : 0 <= q) by nia.
  assert (Hbound : 2 * bval rem + 1 < 2 ^ W).
  { assert (bval numer / 2 ^ (c + 1) < 2 ^ k).
    { apply Z.div_lt_upper_bound; [lia|]. rewrite <- Z.pow_add_r by lia.
      replace (c + 1 + k) with W by lia. lia. }
    assert (bval rem <= bval numer / 2 ^ (c + 1)) by nia.
    assert (2 ^ (k + 1) <= 2 ^ W) by (apply Z.pow_le_mono_r; lia).
    rewrite Z.pow_add_r in * by lia. lia. }
  unfold udivrem_step. rewrite bit_spec by (assumption || lia).
  destruct (shl1_or_spec rem (Z.testbit (bval numer) c) Hr Hbound) as [Hr1 Er1].
  set (rem1 := if Z.testbit (bval numer) c then _ else _) in *.
  pose proof (half_step (bval numer) c ltac:(lia)) as Eh.
  rewrite bits_ge_spec by assumption. destruct (Z.leb_spec (bval denom) (bval rem1)) as [Hge|Hlt1].
  - destruct (setBit_spec quot c q Hq ltac:(lia) Eq) as [Hq' Eq'].
    destruct (bits_sub_spec rem1 denom Hr1 Hd) as [Hs Es].
    pose proof (bval_range _ Hd) as Rd. pose proof (bval_range _ Hr1) as R1. unfold is_u in Rd, R1.
    rewrite Z.mod_small in Es by lia.
    split; [exact Hq'|]. split; [exact Hs|].
    assert (0 <= Z.b2z (Z.testbit (bval numer) c) <= 1) by (destruct (Z.testbit _ _); cbn; lia).
    split; [lia|]. exists (2 * q + 1). rewrite Ec. split; [rewrite Eq', Eq, E2c; ring|].
    rewrite Eh, En, Es. lia.
  - split; [exact Hq|]. split; [exact Hr1|]. split; [lia|].
    exists (2 * q). rewrite Ec. split; [rewrite Eq, E2c; ring|]. rewrite Eh, En, Er1. lia.
Qed.

(** Restoring division computes the Euclidean quotient and remainder. *)
Lemma udivrem_spec (numer denom : Bits W) :
  bits_wf numer -> bits_wf denom -> bval denom <> 0 ->
  let '(quot, rem) := udivrem numer denom in
  bits_wf quot /\ bits_wf rem /\
  bval quot = bval numer / bval denom /\ bval rem = bval numer mod bval denom.
Proof using HW.
  intros Hn Hd Hnz. unfold udivrem. rewrite isZero_spec by exact Hd.
  destruct (Z.eqb_spec (bval denom) 0); [contradiction|].
  pose proof (bval_range _ Hn) as Rn. pose proof (bval_range _ Hd) as Rd. unfold is_u in Rn, Rd.
  pose proof (W_pos (W:=W)) as HW0. destruct (zero_spec (W:=W)) as [Hz Ez].
  match goal with |- context [for_range ?n ?i ?body ?s] =>
    pose proof (for_range_inv (udivrem_inv numer denom) n i body s) as H end.
  destruct (for_range _ _ _ _) as [quot rem].
  destruct H as (Hq & Hr & Hlt & q & Eq & En).
  - split; [exact Hz|]. split; [exact Hz|]. rewrite Ez. split; [lia|].
    exists 0. split; [lia|]. rewrite Z.sub_0_r, Z.div_small by lia. lia.
  - intros k st Hk. apply udivrem_step_inv; [assumption.. | lia].
  - rewrite Z.add_0_l, Z2Nat.id, Z.sub_diag in * by lia. change (2 ^ 0) with 1 in *.
    rewrite Z.div_1_r, Z.mul_1_r in *.
    split; [exact Hq|]. split; [exact Hr|].
    pose proof (bval_range _ Hr) as Rr. unfold is_u in Rr. rewrite Eq. split.
    + apply (Z.div_unique_pos _ _ _ (bval rem)); lia.
    + apply (Z.mod_unique_pos _ _ q); lia.
Qed.

Lemma udiv_spec a b :
  bits_wf a -> bits_wf b ->
  bits_wf (udiv a b) /\
  bval (udiv a b) = if bval b =? 0 then 0 else bval a / bval b.
Proof using HW.
  intros Ha Hb. unfold udiv. rewrite isZero_spec by exact Hb.
  pose proof (bval_range _ Ha) as Ra. pose proof (bval_range _ Hb) as Rb.
  destruct (Z.eqb_spec (bval b) 0); [apply zero_spec|].
  destruct (Z.leb_spec W 64) as [H64|].
  - rewrite !value_small by assumption. unfold is_u in *.
    assert (2 ^ W <= 2 ^ 64) by (apply Z.pow_le_mono_r; lia).
    assert (0 <= bval a / bval b <= bval a).
    { split; [apply Z.div_pos; lia|]. apply Z.div_le_upper_bound; nia. }
    destruct (bits_of_word_spec (W:=W) (bval a / bval b)) as [Hw Ew]; [unfold is_u; lia|].
    split; [exact Hw|]. rewrite Ew. apply Z.mod_small. lia.
  - pose proof (udivrem_spec a b Ha Hb ltac:(assumption)) as H1.
    destruct (udivrem a b) as [q r]. destruct H1 as (Hq & _ & Eq & _). cbn [fst]. auto.
Qed.

Lemma urem_spec a b :
  bits_wf a -> bits_wf b ->
  bits_wf (urem a b) /\
  bval (urem a b) = if bval b =? 0 then 0 else bval a mod bval b.
Proof using HW.
  intros Ha Hb. unfold urem. rewrite isZero_spec by exact Hb.
  pose proof (bval_range _ Ha) as Ra. pose proof (bval_range _ Hb) as Rb.
  destruct (Z.eqb_spec (bval b) 0); [apply zero_spec|].
  destruct (Z.leb_spec W 64) as [H64|].
  - rewrite !value_small by assumption. unfold is_u in *.
    assert (2 ^ W <= 2 ^ 64) by (apply Z.pow_le_mono_r; lia).
    pose proof (Z.mod_pos_bound (bval a) (bval b) ltac:(lia)).
    destruct (bits_of_word_spec (W:=W) (bval a mod bval b)) as [Hw Ew]; [unfold is_u; lia|].
    split; [exact Hw|]. rewrite Ew. apply Z.mod_small. lia.
  - pose proof (udivrem_spec a b Ha Hb ltac:(assumption)) as H1.
    destruct (udivrem a b) as [q r]. destruct H1 as (_ & Hr & _ & Er). cbn [snd]. auto.
Qed.
End Division.

(** ** Signed division *)

Section SignedDivision.
Context {W : Z} `{HW : PosWidth W}.
Implicit Types a b v : Bits W.

Lemma sval_neg v : bits_wf v -> Z.testbit (bval v) (W - 1) = (sval v <? 0).
Proof using HW.
  intros Hv. unfold sval. pose proof (bval_range v Hv) as Hr. unfold is_u in Hr.
  destruct (Z.testbit (bval v) (W - 1)).
  - destruct (Z.ltb_spec (bval v - 2 ^ W) 0); [reflexivity | lia].
  - destruct (Z.ltb_spec (bval v) 0); [lia | reflexivity].
Qed.

Lemma sval_zero v : bits_wf v -> (sval v = 0 <-> bval v = 0).
Proof using HW.
  intros Hv. unfold sval. pose proof (bval_range v Hv) as Hr. unfold is_u in Hr.
  destruct (Z.testbit (bval v) (W - 1)) eqn:E; [|reflexivity].
  split; intros H; [lia|]. rewrite H, Z.bits_0 in E. discriminate.
Qed.

Lemma isAllOnes_spec v : bits_wf v -> isAllOnes v = (sval v =? -1).
Proof using HW.
  intros Hv. pose proof (W_pos (W:=W)). apply eq_true_iff_eq. unfold isAllOnes.
  rewrite all_range_true, Z.eqb_eq. split.
  - intros H0. apply Z.bits_inj'. intros n Hn. rewrite Z.bits_m1, sval_testbit by assumption.
    destruct (Z.ltb_spec n W); rewrite <- bit_spec by (assumption || lia); apply H0; lia.
  - intros E n Hn. rewrite bit_spec by (assumption || lia).
    assert (Hs : Z.testbit (sval v) n = true) by (rewrite E; apply Z.bits_m1; lia).
    rewrite sval_testbit in Hs by (assumption || lia).
    destruct (Z.ltb_spec n W); [exact Hs | lia].
Qed.

Lemma isMinSigned_spec v : bits_wf v -> isMinSigned v = (sval v =? - 2 ^ (W - 1)).
Proof using HW.
  intros Hv. pose proof (W_pos (W:=W)) as H0. pose proof (pow_W_half (W:=W)) as Eh.
  unfold isMinSigned. rewrite bit_spec by (assumption || lia).
  pose proof (bval_range v Hv) as Hr. unfold is_u in Hr.
  assert (Hp : 0 < 2 ^ (W - 1)) by (apply Z.pow_pos_nonneg; lia).
  destruct (Z.testbit (bval v) (W - 1)) eqn:E; cbn [negb].
  - apply eq_true_iff_eq. rewrite all_range_true, Z.eqb_eq. unfold sval. rewrite E. split.
    + intros H1. enough (bval v = 2 ^ (W - 1)) by lia.
      apply Z.bits_inj'. intros n Hn. rewrite Z.pow2_bits_eqb by lia.
      destruct (Z.eqb_spec (W - 1) n) as [<-|]; [exact E|].
      destruct (Z.ltb_spec n W); [|apply bval_testbit_high; assumption].
      specialize (H1 n ltac:(lia)). rewrite bit_spec in H1 by (assumption || lia).
      apply negb_true_iff. exact H1.
    + intros H1 n Hn. rewrite bit_spec by (assumption || lia).
      replace (bval v) with (2 ^ (W - 1)) by lia. rewrite Z.pow2_bits_eqb by lia.
      destruct (Z.eqb_spec (W - 1) n); [lia | reflexivity].
  - symmetry. apply Z.eqb_neq. unfold sval. rewrite E. lia.
Qed.

(** [asSigned] is the two's-complement reading, for the widths it admits. *)
Lemma asSigned_spec v : bits_wf v -> W <= 64 -> asSigned v = sval v.
Proof using HW.
  intros Hv H64. pose proof (W_pos (W:=W)) as H0. unfold asSigned. rewrite value_small by assumption.
  pose proof (bval_range v Hv) as Hr. unfold is_u in Hr. pose proof (sval_range v Hv) as Hs.
  assert (Hsv : sval v = if Z.testbit (bval v) (W - 1) then bval v - 2 ^ W else bval v) by reflexivity.
  destruct (Z.eqb_spec W 64) as [->|Hne].
  - unfold to_i64. rewrite Hsv in *.
    destruct (Z.testbit (bval v) (64 - 1)), (Z.ltb_spec (bval v) (2 ^ 63)); lia.
  - assert (Hle : 2 ^ W <= 2 ^ 63) by (apply Z.pow_le_mono_r; lia).
    assert (Hland : (Z.land (bval v) (u64_shl 1 (W - 1)) =? 0) = negb (Z.testbit (bval v) (W - 1))).
    { unfold u64_shl. rewrite Z.shiftl_1_l, u64_id.
      2:{ split; [apply Z.pow_nonneg; lia | apply Z.pow_lt_mono_r; lia]. }
      assert (El : Z.land (bval v) (2 ^ (W - 1)) = Z.b2z (Z.testbit (bval v) (W - 1)) * 2 ^ (W - 1)).
      { apply Z.bits_inj'. intros n Hn. rewrite Z.land_spec, Z.pow2_bits_eqb by lia.
        destruct (Z.testbit (bval v) (W - 1)) eqn:E; cbn [Z.b2z].
        - rewrite Z.mul_1_l, Z.pow2_bits_eqb by lia.
          destruct (Z.eqb_spec (W - 1) n) as [<-|]; [rewrite E; reflexivity | apply andb_false_r].
        - rewrite Z.mul_0_l, Z.bits_0.
          destruct (Z.eqb_spec (W - 1) n) as [<-|]; [rewrite E; reflexivity | apply andb_false_r]. }
      rewrite El. assert (0 < 2 ^ (W - 1)) by (apply Z.pow_pos_nonneg; lia).
      destruct (Z.testbit (bval v) (W - 1)); cbn [Z.b2z negb]; [apply Z.eqb_neq | apply Z.eqb_eq]; lia. }
    rewrite Hland, Hsv. destruct (Z.testbit (bval v) (W - 1)) eqn:E; cbn [negb].
    + assert (Eor : Z.lor (bval v) (u64_shl (u64_not 0) W) = bval v + 2 ^ 64 - 2 ^ W).
      { replace (bval v + 2 ^ 64 - 2 ^ W) with (bval v + 2 ^ W * (2 ^ (64 - W) - 1)).
        2:{ rewrite Z.mul_sub_distr_l, <- Z.pow_add_r by lia. replace (W + (64 - W)) with 64 by lia. lia. }
        apply Z.bits_inj'. intros n Hn. rewrite testbit_add_mul by (unfold is_u; lia).
        unfold u64_shl. rewrite Z.lor_spec, u64_testbit, Z.shiftl_spec, u64_not_0 by lia.
        replace (2 ^ (64 - W) - 1) with (Z.ones (64 - W)) by (rewrite Z.ones_equiv; lia).
        destruct (Z.ltb_spec n W).
        - rewrite (Z.testbit_neg_r (Z.ones 64)) by lia. rewrite andb_false_r. apply orb_false_r.
        - rewrite bval_testbit_high, !ones_testbit by (assumption || lia). cbn [orb].
          destruct (Z.ltb_spec n 64), (Z.ltb_spec (n - W) 64), (Z.ltb_spec (n - W) (64 - W)); try reflexivity; lia. }
      rewrite Eor. unfold to_i64. rewrite Hsv, ?E in Hs.
      assert (2 ^ (W - 1) <= 2 ^ 63) by (apply Z.pow_le_mono_r; lia).
      destruct (Z.ltb_spec (bval v + 2 ^ 64 - 2 ^ W) (2 ^ 63)); lia.
    + unfold to_i64. destruct (Z.ltb_spec (bval v) (2 ^ 63)); lia.
Qed.

Lemma quot_range x y :
  - 2 ^ (W - 1) <= x < 2 ^ (W - 1) -> y <> 0 -> ~ (x = - 2 ^ (W - 1) /\ y = -1) ->
  - 2 ^ (W - 1) <= Z.quot x y < 2 ^ (W - 1).
Proof using.
  intros Hx Hy Hne.
  assert (Hp : 0 <= 2 ^ (W - 1)) by (apply Z.pow_nonneg; lia).
  assert (Habs : Z.abs (Z.quot x y) * Z.abs y <= Z.abs x).
  { rewrite <- Z.quot_abs, Z.mul_comm by exact Hy. apply Z.mul_quot_le; lia. }
  destruct (decide (Z.abs y = 1)) as [Hy1|].
  - assert (y = 1 \/ y = -1) as [-> | ->] by lia.
    + rewrite Z.quot_1_r. lia.
    + change (-1) with (-(1)). rewrite Z.quot_opp_r, Z.quot_1_r by lia. lia.
  - assert (2 <= Z.abs y) by lia. nia.
Qed.

(** Magnitudes used by the wide signed division. *)
Lemma magnitude_spec v :
  bits_wf v ->
  let u := if bit v (W - 1) then negate v else v in
  bits_wf u /\ bval u = Z.abs (sval v).
Proof using HW.
  intros Hv u. pose proof (W_pos (W:=W)) as H0. pose proof (bval_range v Hv) as Hr. unfold is_u in Hr.
  unfold u. rewrite bit_spec by (assumption || lia). unfold sval.
  destruct (Z.testbit (bval v) (W - 1)) eqn:E; [|split; [exact Hv | lia]].
  destruct (negate_spec v Hv) as [Hn En]. split; [exact Hn|]. rewrite En.
  assert (bval v <> 0) by (intros Hz; rewrite Hz, Z.bits_0 in E; discriminate).
  replace (- bval v) with (2 ^ W - bval v + (-1) * 2 ^ W) by lia.
  rewrite Z.mod_add, Z.mod_small by lia. lia.
Qed.

Lemma signed_result v (neg : bool) z :
  bits_wf v -> bval v = Z.abs z -> - 2 ^ (W - 1) <= z < 2 ^ (W - 1) ->
  (if neg then z <= 0 else 0 <= z) ->
  let r := if neg then negate v else v in bits_wf r /\ sval r = z.
Proof using HW.
  intros Hv Ev Hz Hs r. pose proof (bval_range v Hv) as Hr. unfold is_u in Hr. unfold r.
  destruct neg.
  - destruct (negate_spec v Hv) as [Hn En]. split; [exact Hn|].
    apply sval_unique; [exact Hn | exact Hz|]. rewrite En, Ev. f_equal. lia.
  - split; [exact Hv|]. apply sval_unique; [exact Hv | exact Hz|].
    rewrite Z.mod_small; lia.
Qed.

Lemma sdiv_spec a b :
  bits_wf a -> bits_wf b ->
  bits_wf (sdiv a b) /\
  sval (sdiv a b) =
    if sval b =? 0 then 0
    else if (sval a =? - 2 ^ (W - 1)) && (sval b =? -1) then sval a
    else Z.quot (sval a) (sval b).
Proof using HW.
  intros Ha Hb. pose proof (W_pos (W:=W)) as H0. unfold sdiv.
  rewrite isZero_spec, isMinSigned_spec, isAllOnes_spec by assumption.
  destruct (zero_spec (W:=W)) as [Hz Ez].
  assert (Esz : sval (bits_of_word W 0) = 0) by (apply sval_zero; assumption).
  pose proof (sval_zero b Hb) as Hbz.
  destruct (Z.eqb_spec (bval b) 0) as [E|E], (Z.eqb_spec (sval b) 0) as [E'|E']; try tauto.
  destruct ((sval a =? - 2 ^ (W - 1)) && (sval b =? -1)) eqn:Eov; [auto|].
  assert (Hq : - 2 ^ (W - 1) <= Z.quot (sval a) (sval b) < 2 ^ (W - 1)).
  { apply quot_range; [apply sval_range, Ha | exact E' |]. intros [H1 H2].
    rewrite H1, H2, !Z.eqb_refl in Eov. discriminate. }
  destruct (Z.leb_spec W 64) as [H64|].
  - rewrite !asSigned_spec by assumption.
    destruct (bits_of_word_spec (W:=W) (u64 (Z.quot (sval a) (sval b)))) as [Hw Ew]; [apply u64_range|].
    split; [exact Hw|]. apply sval_unique; [exact Hw | exact Hq |]. rewrite Ew. unfold u64, wrapu.
    apply (mod_of_eq _ _ W 64); [lia|]. apply Z.mod_mod. lia.
  - destruct (magnitude_spec a Ha) as [Hua Eua]. destruct (magnitude_spec b Hb) as [Hub Eub].
    set (ua := if bit a (W - 1) then _ else _) in *. set (ub := if bit b (W - 1) then _ else _) in *.
    pose proof (udivrem_spec ua ub Hua Hub ltac:(lia)) as Hd.
    destruct (udivrem ua ub) as [q r]. destruct Hd as (Hqw & _ & Eq & _). cbn [fst].
    rewrite !bit_spec, !sval_neg by (assumption || lia).
    rewrite Eua, Eub in Eq. pose proof (Z.quot_div (sval a) (sval b) E') as Hqd.
    assert (0 <= Z.abs (sval a) / Z.abs (sval b)) by (apply Z.div_pos; lia).
    apply signed_result; [exact Hqw | | exact Hq |].
    + rewrite <- Z.quot_abs, Z.quot_div_nonneg by lia. exact Eq.
    + rewrite Hqd. destruct (Z.ltb_spec (sval a) 0), (Z.ltb_spec (sval b) 0); cbn [xorb]; nia.
Qed.

Lemma srem_spec a b :
  bits_wf a -> bits_wf b ->
  bits_wf (srem a b) /\
  sval (srem a b) = if sval b =? 0 then 0 else Z.rem (sval a) (sval b).
Proof using HW.
  intros Ha Hb. pose proof (W_pos (W:=W)) as H0. unfold srem.
  rewrite isZero_spec, isMinSigned_spec, isAllOnes_spec by assumption.
  destruct (zero_spec (W:=W)) as [Hz Ez].
  assert (Esz : sval (bits_of_word W 0) = 0) by (apply sval_zero; assumption).
  pose proof (sval_zero b Hb) as Hbz.
  destruct (Z.eqb_spec (bval b) 0) as [E|E], (Z.eqb_spec (sval b) 0) as [E'|E']; try tauto.
  destruct ((sval a =? - 2 ^ (W - 1)) && (sval b =? -1)) eqn:Eov.
  { apply andb_prop in Eov as [_ Eb]. apply Z.eqb_eq in Eb. split; [exact Hz|].
    rewrite Eb, Esz. change (-1) with (- (1)). rewrite Z.rem_opp_r, Z.rem_1_r by lia. reflexivity. }
  pose proof (sval_range b Hb) as Rb. pose proof (Z.rem_bound_abs (sval a) (sval b) E') as Hbd.
  pose proof (sval_range a Ha) as Ra.
  assert (Hq : - 2 ^ (W - 1) <= Z.rem (sval a) (sval b) < 2 ^ (W - 1)) by lia.
  destruct (Z.leb_spec W 64) as [H64|].
  - rewrite !asSigned_spec by assumption.
    destruct (bits_of_word_spec (W:=W) (u64 (Z.rem (sval a) (sval b)))) as [Hw Ew]; [apply u64_range|].
    split; [exact Hw|]. apply sval_unique; [exact Hw | exact Hq |]. rewrite Ew. unfold u64, wrapu.
    apply (mod_of_eq _ _ W 64); [lia|]. apply Z.mod_mod. lia.
  - destruct (magnitude_spec a Ha) as [Hua Eua]. destruct (magnitude_spec b Hb) as [Hub Eub].
    set (ua := if bit a (W - 1) then _ else _) in *. set (ub := if bit b (W - 1) then _ else _) in *.
    pose proof (udivrem_spec ua ub Hua Hub ltac:(lia)) as Hd.
    destruct (udivrem ua ub) as [q r]. destruct Hd as (_ & Hrw & _ & Er). cbn [snd].
    rewrite !bit_spec, !sval_neg by (assumption || lia).
    rewrite Eua, Eub in Er. pose proof (Z.rem_mod (sval a) (sval b) E') as Hqd.
    pose proof (Z.mod_pos_bound (Z.abs (sval a)) (Z.abs (sval b)) ltac:(lia)).
    apply signed_result; [exact Hrw | | exact Hq |].
    + rewrite <- Z.rem_abs, Z.rem_mod_nonneg by lia. exact Er.
    + rewrite Hqd. destruct (Z.ltb_spec (sval a) 0); nia.
Qed.
End SignedDivision.

(** ** Well-formedness and bit rules, as hints *)

Section Rules.
Context {W : Z} `{HW : PosWidth W}.
Implicit Types a b v : Bits W.

Lemma bits_and_wf a b : bits_wf a -> bits_wf b -> bits_wf (bits_and a b).
Proof using HW. intros Ha Hb. apply bits_and_spec; assumption. Qed.
Lemma bits_or_wf a b : bits_wf a -> bits_wf b -> bits_wf (bits_or a b).
Proof using HW. intros Ha Hb. apply bits_or_spec; assumption. Qed.
Lemma bits_xor_wf a b : bits_wf a -> bits_wf b -> bits_wf (bits_xor a b).
Proof using HW. intros Ha Hb. apply bits_xor_spec; assumption. Qed.
Lemma ones_wf : bits_wf (ones W).
Proof using HW. apply ones_spec. Qed.
Lemma zero_wf : bits_wf (bits_of_word W 0).
Proof using HW. apply zero_spec. Qed.
Lemma bits_add_wf a b : bits_wf a -> bits_wf b -> bits_wf (bits_add a b).
Proof using HW. intros Ha Hb. apply bits_add_spec; assumption. Qed.
Lemma bits_sub_wf a b : bits_wf a -> bits_wf b -> bits_wf (bits_sub a b).
Proof using HW. intros Ha Hb. apply bits_sub_spec; assumption. Qed.
Lemma bits_mul_wf a b : bits_wf a -> bits_wf b -> bits_wf (bits_mul a b).
Proof using HW. intros Ha Hb. apply bits_mul_spec; assumption. Qed.
Lemma udiv_wf a b : bits_wf a -> bits_wf b -> bits_wf (udiv a b).
Proof using HW. intros Ha Hb. apply udiv_spec; assumption. Qed.
Lemma urem_wf a b : bits_wf a -> bits_wf b -> bits_wf (urem a b).
Proof using HW. intros Ha Hb. apply urem_spec; assumption. Qed.

Lemma bits_and_tb a b n : bits_wf a -> bits_wf b ->
  Z.testbit (bval (bits_and a b)) n = Z.testbit (bval a) n && Z.testbit (bval b) n.
Proof using HW. intros Ha Hb. rewrite (proj2 (bits_and_spec a b Ha Hb)). apply Z.land_spec. Qed.
Lemma bits_or_tb a b n : bits_wf a -> bits_wf b ->
  Z.testbit (bval (bits_or a b)) n = Z.testbit (bval a) n || Z.testbit (bval b) n.
Proof using HW. intros Ha Hb. rewrite (proj2 (bits_or_spec a b Ha Hb)). apply Z.lor_spec. Qed.
Lemma bits_xor_tb a b n : bits_wf a -> bits_wf b ->
  Z.testbit (bval (bits_xor a b)) n = xorb (Z.testbit (bval a) n) (Z.testbit (bval b) n).
Proof using HW. intros Ha Hb. rewrite (proj2 (bits_xor_spec a b Ha Hb)). apply Z.lxor_spec. Qed.
Lemma bits_not_tb v n : bits_wf v -> 0 <= n < W ->
  Z.testbit (bval (bits_not v)) n = negb (Z.testbit (bval v) n).
Proof using HW.
  intros Hv Hn. rewrite bits_not_testbit by (assumption || lia).
  destruct (Z.ltb_spec n W); [reflexivity | lia].
Qed.
Lemma ones_tb n : 0 <= n < W -> Z.testbit (bval (ones W)) n = true.
Proof using HW. intros Hn. rewrite (proj2 ones_spec). apply Z.ones_spec_low. lia. Qed.
Lemma zero_tb n : Z.testbit (bval (bits_of_word W 0)) n = false.
Proof using HW. rewrite (proj2 zero_spec). apply Z.bits_0. Qed.
Lemma shl_tb v k n : bits_wf v -> 0 <= k -> 0 <= n < W ->
  Z.testbit (bval (shl v k)) n = Z.testbit (bval v) (n - k).
Proof using HW.
  intros Hv Hk Hn. rewrite shl_testbit by (assumption || lia).
  destruct (Z.ltb_spec n W); [reflexivity | lia].
Qed.
Lemma lshr_tb v k n : bits_wf v -> 0 <= k -> 0 <= n ->
  Z.testbit (bval (lshr v k)) n = Z.testbit (bval v) (n + k).
Proof using HW. apply lshr_testbit. Qed.
End Rules.

Section WidthRules.
Context {A B : Z} `{HA : PosWidth A} `{HB : PosWidth B}.
Implicit Types v : Bits A.

Lemma zext_wf v : bits_wf v -> A <= B -> bits_wf (zext B v).
Proof using HA HB. intros Hv H. apply zext_spec; assumption. Qed.
Lemma trunc_wf v : bits_wf v -> bits_wf (trunc B v).
Proof using HA HB. intros Hv. apply trunc_spec; assumption. Qed.
Lemma extract_wf v k : bits_wf v -> 0 <= k -> bits_wf (extract B v k).
Proof using HA HB. intros Hv H. apply extract_spec; assumption. Qed.
Lemma zext_tb v n : bits_wf v -> A <= B -> Z.testbit (bval (zext B v)) n = Z.testbit (bval v) n.
Proof using HA HB. intros Hv H. rewrite (proj2 (zext_spec v Hv H)). reflexivity. Qed.
Lemma trunc_tb v n : bits_wf v -> 0 <= n < B ->
  Z.testbit (bval (trunc B v)) n = Z.testbit (bval v) n.
Proof using HA HB.
  intros Hv Hn. rewrite (proj2 (trunc_spec v Hv)), Z.testbit_mod_pow2 by lia.
  destruct (Z.ltb_spec n B); [reflexivity | lia].
Qed.
Lemma extract_tb v k n : bits_wf v -> 0 <= k -> 0 <= n < B ->
  Z.testbit (bval (extract B v k)) n = Z.testbit (bval v) (n + k).
Proof using HA HB.
  intros Hv Hk Hn. rewrite (proj2 (extract_spec v k Hv Hk)), Z.testbit_mod_pow2 by lia.
  rewrite Z.div_pow2_bits by lia. destruct (Z.ltb_spec n B); [reflexivity | lia].
Qed.
Lemma concat_wf (a : Bits A) (b : Bits B) : bits_wf a -> bits_wf b -> bits_wf (concat a b).
Proof using HA HB. intros Ha Hb. apply concat_spec; assumption. Qed.
Lemma concat_tb (a : Bits A) (b : Bits B) n : bits_wf a -> bits_wf b -> 0 <= n ->
  Z.testbit (bval (concat a b)) n =
  if n <? B then Z.testbit (bval b) n else Z.testbit (bval a) (n - B).
Proof using HA HB.
  intros Ha Hb Hn. rewrite (proj2 (concat_spec a b Ha Hb)).
  rewrite Z.add_comm, (Z.mul_comm (bval a)). unfold PosWidth in *.
  apply testbit_add_mul; [lia | apply bval_range, Hb | exact Hn].
Qed.
End WidthRules.

#[export] Hint Resolve bits_and_wf bits_or_wf bits_xor_wf ones_wf zero_wf bits_add_wf bits_sub_wf
  bits_mul_wf udiv_wf urem_wf trunc_wf concat_wf ashr_wf : bits.
#[export] Hint Extern 2 (bits_wf (zext _ _)) => (apply zext_wf; [|lia]) : bits.
#[export] Hint Extern 2 (bits_wf (extract _ _ _)) => (apply extract_wf; [|lia]) : bits.
#[export] Hint Extern 2 (_ <= _) => lia : bits.
