(* ===== verification/BitsTheorems.v ===== *)
(** * The arithmetic of [Bits]

    What the multi-word operators of [bits.h] compute, stated on the unsigned
    value [bval] and the two's-complement value [sval] of an operand. *)

From Stdlib Require Import ZArith Lia String.
From stdpp Require Import base list numbers.
From S2P Require Import Prelude Bits BitsLogic BitsShift BitsArith.

(** [+], [-] and [*] on any width, across word boundaries, are addition,
    subtraction and multiplication modulo [2^W], and keep the unused bits of
    the top word zero. *)
Theorem bits_ring_arithmetic {W} `{HW : PosWidth W} (a b : Bits W) :
  bits_wf a -> bits_wf b ->
  (bits_wf (bits_add a b) /\ bval (bits_add a b) = (bval a + bval b) mod 2 ^ W) /\
  (bits_wf (bits_sub a b) /\ bval (bits_sub a b) = (bval a - bval b) mod 2 ^ W) /\
  (bits_wf (bits_mul a b) /\ bval (bits_mul a b) = (bval a * bval b) mod 2 ^ W).
Proof. intros Ha Hb. auto using bits_add_spec, bits_sub_spec, bits_mul_spec. Qed.

(** C37: division by long division.  Unsigned quotient and remainder are those
    of the integers; signed ones truncate towards zero and the remainder has
    the sign of the dividend; division by zero gives zero and the one
    overflowing signed quotient wraps to the dividend. *)
Theorem bits_division {W} `{HW : PosWidth W} (a b : Bits W) :
  bits_wf a -> bits_wf b ->
  bval (udiv a b) = (if bval b =? 0 then 0 else bval a / bval b) /\
  bval (urem a b) = (if bval b =? 0 then 0 else bval a mod bval b) /\
  sval (sdiv a b) = (if sval b =? 0 then 0
                     else if (sval a =? - 2 ^ (W - 1)) && (sval b =? -1) then sval a
                     else Z.quot (sval a) (sval b)) /\
  sval (srem a b) = (if sval b =? 0 then 0 else Z.rem (sval a) (sval b)) /\
  bits_wf (udiv a b) /\ bits_wf (urem a b) /\ bits_wf (sdiv a b) /\ bits_wf (srem a b).
Proof.
  intros Ha Hb. destruct (udiv_spec a b Ha Hb), (urem_spec a b Ha Hb), (sdiv_spec a b Ha Hb), (srem_spec a b Ha Hb).
  auto 10.
Qed.

(** Shifts by any amount, the width and beyond included: left shift is
    multiplication modulo [2^W], logical right shift the floor of the
    quotient, arithmetic right shift the floor of the signed quotient. *)
Theorem bits_shifts {W} `{HW : PosWidth W} (v : Bits W) k :
  bits_wf v -> 0 <= k ->
  bval (shl v k) = (bval v * 2 ^ k) mod 2 ^ W /\ bval (lshr v k) = bval v / 2 ^ k /\
  sval (ashr v k) = sval v / 2 ^ k /\ bits_wf (shl v k) /\ bits_wf (lshr v k) /\ bits_wf (ashr v k).
Proof. intros Hv Hk. auto 10 using shl_spec, lshr_spec, ashr_spec, shl_wf, lshr_wf, ashr_wf. Qed.

(** The comparison operators decide equality, the unsigned and the signed
    order of the values. *)
Theorem bits_comparisons {W} `{HW : PosWidth W} (a b : Bits W) :
  bits_wf a -> bits_wf b ->
  (bits_eq a b = true <-> bval a = bval b) /\
  bits_lt a b = (bval a <? bval b) /\ bits_ge a b = (bval b <=? bval a) /\ slt a b = (sval a <? sval b).
Proof.
  intros Ha Hb. split; [|auto using bits_lt_spec, bits_ge_spec, slt_spec].
  rewrite bits_eq_spec by assumption. split; [intros ->; reflexivity|].
  intros E. apply bits_inj_testbit; [assumption..|]. intros n _. rewrite E. reflexivity.
Qed.

(** Bitwise operators are those of the integers on the value. *)
Theorem bits_bitwise {W} `{HW : PosWidth W} (a b : Bits W) :
  bits_wf a -> bits_wf b ->
  bval (bits_and a b) = Z.land (bval a) (bval b) /\ bval (bits_or a b) = Z.lor (bval a) (bval b) /\
  bval (bits_xor a b) = Z.lxor (bval a) (bval b) /\ bval (bits_not a) = 2 ^ W - 1 - bval a.
Proof.
  intros Ha Hb. destruct (bits_and_spec a b Ha Hb), (bits_or_spec a b Ha Hb), (bits_xor_spec a b Ha Hb).
  auto using bits_not_spec.
Qed.

(** Width changes.  Truncation and extraction are remainders, zero
    extension and concatenation keep the parts, and sign extension keeps the
    signed value when the operand's width is not a multiple of the word size
    or the operand is not negative. *)
Theorem bits_width_changes {A B} `{HA : PosWidth A} `{HB : PosWidth B} (v : Bits A) (w : Bits B) lsb :
  bits_wf v -> bits_wf w -> 0 <= lsb ->
  bval (trunc B v) = bval v mod 2 ^ B /\ bval (extract B v lsb) = (bval v / 2 ^ lsb) mod 2 ^ B /\
  bval (concat v w) = bval v * 2 ^ B + bval w /\
  (A <= B -> bval (zext B v) = bval v) /\
  (A <= B -> A mod 64 <> 0 \/ 0 <= sval v -> sval (sext B v) = sval v).
Proof.
  intros Hv Hw Hl. destruct (trunc_spec (B:=B) v Hv), (extract_spec (B:=B) v lsb Hv Hl), (concat_spec v w Hv Hw).
  split; [assumption|]. split; [assumption|]. split; [assumption|].
  split; intros Hab; [apply (zext_spec v Hv Hab)|]. intros Hc. apply sext_spec; [exact Hv | exact Hab|].
  destruct Hc as [Hc|Hc]; [left; exact Hc | right].
  destruct (Z.testbit (bval v) (A - 1)) eqn:E; [|reflexivity]. unfold sval in Hc. rewrite E in Hc.
  destruct Hv as (_ & _ & Hr). lia.
Qed.


Module BitsWitness.
Definition a : Bits 70 := bits_of_list 70 [2 ^ 64 - 1; 5].
Definition b : Bits 70 := bits_of_list 70 [3; 60].
Lemma a_wf : bits_wf a.
Proof. apply bits_wfb_sound. vm_compute. reflexivity. Qed.
Lemma b_wf : bits_wf b.
Proof. apply bits_wfb_sound. vm_compute. reflexivity. Qed.

Lemma bits_ring_arithmetic_witness : bval (bits_add a b) = (bval a + bval b) mod 2 ^ 70.
Proof. exact (proj2 (proj1 (bits_ring_arithmetic a b a_wf b_wf))). Defined.

Lemma bits_division_witness : bval (udiv b a) = bval b / bval a.
Proof. exact (proj1 (bits_division b a b_wf a_wf)). Defined.

Lemma bits_shifts_witness : sval (ashr b 66) = sval b / 2 ^ 66.
Proof. exact (proj1 (proj2 (proj2 (bits_shifts b 66 b_wf ltac:(lia))))). Defined.

(** [b] is negative, so the two orders differ. *)
Lemma bits_comparisons_witness : bits_lt a b = true /\ slt b a = true.
Proof.
  destruct (bits_comparisons a b a_wf b_wf) as (_ & H1 & _). destruct (bits_comparisons b a b_wf a_wf) as (_ & _ & _ & H2).
  rewrite H1, H2. split; vm_compute; reflexivity.
Defined.

Lemma bits_bitwise_witness : bval (bits_xor a b) = Z.lxor (bval a) (bval b).
Proof. exact (proj1 (proj2 (proj2 (bits_bitwise a b a_wf b_wf)))). Defined.

Definition c : Bits 130 := bits_of_list 130 [1; 2; 3].
Lemma c_wf : bits_wf c.
Proof. apply bits_wfb_sound. vm_compute. reflexivity. Qed.

Lemma bits_width_changes_witness : sval (sext 130 b) = sval b.
Proof.
  destruct (bits_width_changes b c 0 b_wf c_wf ltac:(lia)) as (_ & _ & _ & _ & H).
  apply H; [lia | left; discriminate].
Defined.
End BitsWitness.
