(* ===== verification/BitsSimd.v ===== *)
(** * The vector paths and variadic concatenation of [include/gfsim/bits.h]

    On 64-bit ARM the bitwise operators, equality and [mux] of multi-word
    values process two words per iteration with NEON registers and finish
    with a scalar tail.  A [uint64x2_t] register is a pair of words; the
    intrinsics act on each lane.  The last part is [concat] over a parameter
    pack. *)

From Stdlib Require Import ZArith Lia.
From stdpp Require Import base list numbers.
From S2P Require Import Prelude Bits BitsLogic BitsShift BitsArith.

(** ** Registers and intrinsics *)

Definition uint64x2_t : Type := Z * Z.
Definition vld1q_u64 (a : list Z) (i : Z) : uint64x2_t := (a.[i], a.[i + 1]).
Definition vst1q_u64 (dst : list Z) (i : Z) (v : uint64x2_t) : list Z := (dst.[i := fst v]).[i + 1 := snd v].
Definition lanewise2 (f : Z -> Z -> Z) (x y : uint64x2_t) : uint64x2_t := (f (fst x) (fst y), f (snd x) (snd y)).
Definition vandq_u64 := lanewise2 Z.land.
Definition vorrq_u64 := lanewise2 Z.lor.
Definition veorq_u64 := lanewise2 Z.lxor.
(** [vmvnq_u8] under the reinterpretations: all bits inverted. *)
Definition vmvnq (x : uint64x2_t) : uint64x2_t := (u64_not (fst x), u64_not (snd x)).
Definition vceqq_u64 := lanewise2 (fun a b => if a =? b then u64_not 0 else 0).
Definition vdupq_n_u64 (x : Z) : uint64x2_t := (x, x).
(** Bitwise select: bits of [a] where the mask is one, of [b] elsewhere. *)
Definition vbslq_u64 (m a b : uint64x2_t) : uint64x2_t :=
  (Z.lor (Z.land (fst a) (fst m)) (Z.land (fst b) (u64_not (fst m))),
   Z.lor (Z.land (snd a) (snd m)) (Z.land (snd b) (u64_not (snd m)))).

(** [for (; i + 2 <= nWords; i += 2) vec(i)] followed by
    [for (; i < nWords; i++) tail(i)]. *)
Definition simd_loop (nWords : nat) (vec tail : Z -> list Z -> list Z) (dst : list Z) : list Z :=
  let pairs := Nat.div2 nWords in
  let dst := for_range pairs 0 (fun k dst => vec (2 * k) dst) dst in
  for_range (nWords - 2 * pairs) (Z.of_nat (2 * pairs)) tail dst.

Module simd.
Definition bitwise_and (dst a b : list Z) (nWords : nat) : list Z :=
  simd_loop nWords
    (fun i dst => vst1q_u64 dst i (vandq_u64 (vld1q_u64 a i) (vld1q_u64 b i)))
    (fun i dst => dst.[i := Z.land a.[i] b.[i]]) dst.

Definition bitwise_or (dst a b : list Z) (nWords : nat) : list Z :=
  simd_loop nWords
    (fun i dst => vst1q_u64 dst i (vorrq_u64 (vld1q_u64 a i) (vld1q_u64 b i)))
    (fun i dst => dst.[i := Z.lor a.[i] b.[i]]) dst.

Definition bitwise_xor (dst a b : list Z) (nWords : nat) : list Z :=
  simd_loop nWords
    (fun i dst => vst1q_u64 dst i (veorq_u64 (vld1q_u64 a i) (vld1q_u64 b i)))
    (fun i dst => dst.[i := Z.lxor a.[i] b.[i]]) dst.

Definition bitwise_not (dst a : list Z) (nWords : nat) : list Z :=
  simd_loop nWords
    (fun i dst => vst1q_u64 dst i (vmvnq (vld1q_u64 a i)))
    (fun i dst => dst.[i := u64_not a.[i]]) dst.

Definition bitwise_eq (a b : list Z) (nWords : nat) : bool :=
  let pairs := Nat.div2 nWords in
  if all_range pairs 0 (fun k =>
       let cmp := vceqq_u64 (vld1q_u64 a (2 * k)) (vld1q_u64 b (2 * k)) in
       negb (negb (fst cmp =? u64_not 0) || negb (snd cmp =? u64_not 0)))
  then all_range (nWords - 2 * pairs) (Z.of_nat (2 * pairs)) (fun i => a.[i] =? b.[i])
  else false.

Definition bitwise_sel (dst mask a b : list Z) (nWords : nat) : list Z :=
  simd_loop nWords
    (fun i dst => vst1q_u64 dst i (vbslq_u64 (vld1q_u64 mask i) (vld1q_u64 a i) (vld1q_u64 b i)))
    (fun i dst => dst.[i := Z.lor (Z.land a.[i] mask.[i]) (Z.land b.[i] (u64_not mask.[i]))]) dst.
End simd.

(** ** The operators as compiled with NEON *)

Section Neon.
Context {Width : Z}.
Implicit Types a b : Bits Width.

(** The value-initialised destination [Bits out]. *)
#[local] Abbreviation out := (replicate (nWords Width) 0).

Definition neon_and a b : Bits Width :=
  if 2 <=? kWords Width then maskTop (mkBits (simd.bitwise_and out (words_ a) (words_ b) (nWords Width)))
  else bits_and a b.
Definition neon_or a b : Bits Width :=
  if 2 <=? kWords Width then maskTop (mkBits (simd.bitwise_or out (words_ a) (words_ b) (nWords Width)))
  else bits_or a b.
Definition neon_xor a b : Bits Width :=
  if 2 <=? kWords Width then maskTop (mkBits (simd.bitwise_xor out (words_ a) (words_ b) (nWords Width)))
  else bits_xor a b.
Definition neon_not a : Bits Width :=
  if 2 <=? kWords Width then maskTop (mkBits (simd.bitwise_not out (words_ a) (nWords Width)))
  else bits_not a.
Definition neon_eq a b : bool :=
  if 2 <=? kWords Width then simd.bitwise_eq (words_ a) (words_ b) (nWords Width) else bits_eq a b.

Definition neon_mux (sel : Bits 1) a b : Bits Width :=
  if 2 <=? kWords Width then
    let smask := if toBool sel then u64_not 0 else 0 in
    let vm := vdupq_n_u64 smask in
    mkBits (simd_loop (nWords Width)
      (fun i po => vst1q_u64 po i (vbslq_u64 vm (vld1q_u64 (words_ a) i) (vld1q_u64 (words_ b) i)))
      (fun i po => po.[i := if toBool sel then (words_ a).[i] else (words_ b).[i]]) out)
  else if toBool sel then a else b.
End Neon.

(** ** The paired loop visits every word once *)

Lemma for_range_split {St} n m i (f : Z -> St -> St) s :
  for_range (n + m) i f s = for_range m (i + Z.of_nat n) f (for_range n i f s).
Proof.
  revert i s. induction n as [|n IH]; intros i s; cbn [Nat.add for_range].
  - f_equal. lia.
  - rewrite IH. f_equal. lia.
Qed.

Lemma for_range_pairs {St} m : forall k (g h : Z -> St -> St) s,
  (forall k s, 0 <= k -> h k s = g (2 * k + 1) (g (2 * k) s)) -> 0 <= k ->
  for_range m k h s = for_range (2 * m) (2 * k) g s.
Proof.
  induction m as [|m IH]; intros k g h s H Hk; [reflexivity|].
  replace (2 * S m)%nat with (S (S (2 * m))) by lia. cbn [for_range].
  rewrite (IH _ g) by (assumption || lia). rewrite H by exact Hk. f_equal; lia.
Qed.

Lemma pairs_and_tail n : n = (2 * Nat.div2 n + (n - 2 * Nat.div2 n))%nat.
Proof. pose proof (Nat.div2_odd n). destruct (Nat.odd n); cbn [Nat.b2n] in *; lia. Qed.

Lemma simd_loop_eq n (f : Z -> Z) vec tail dst :
  (forall i s, 0 <= i -> vec i s = (s.[i := f i]).[i + 1 := f (i + 1)]) ->
  (forall i s, 0 <= i -> tail i s = s.[i := f i]) ->
  simd_loop n vec tail dst = for_range n 0 (fun i s => s.[i := f i]) dst.
Proof.
  intros Hv Ht. unfold simd_loop.
  rewrite (for_range_pairs _ 0 (fun i s => s.[i := f i])); [|intros k s Hk; apply Hv; lia | lia].
  rewrite (for_range_ext (n - 2 * Nat.div2 n) (Z.of_nat (2 * Nat.div2 n)) tail (fun i s => s.[i := f i]))
    by (intros k t Hk; apply Ht; eapply Z.le_trans; [apply Nat2Z.is_nonneg | apply Hk]).
  symmetry. rewrite (pairs_and_tail n) at 1. apply for_range_split.
Qed.

Lemma all_range_split n m i p : all_range (n + m) i p = all_range n i p && all_range m (i + Z.of_nat n) p.
Proof.
  revert i. induction n as [|n IH]; intros i; cbn [Nat.add all_range].
  - cbn [andb]. f_equal. lia.
  - destruct (p i); [|reflexivity]. rewrite IH. do 2 f_equal. lia.
Qed.

Lemma all_range_pairs m : forall k p q,
  (forall k, 0 <= k -> q k = p (2 * k) && p (2 * k + 1)) -> 0 <= k ->
  all_range m k q = all_range (2 * m) (2 * k) p.
Proof.
  induction m as [|m IH]; intros k p q H Hk; [reflexivity|].
  replace (2 * S m)%nat with (S (S (2 * m))) by lia. cbn [all_range]. rewrite H by exact Hk.
  destruct (p (2 * k)), (p (2 * k + 1)); cbn [andb]; try reflexivity.
  rewrite (IH _ p) by (assumption || lia). f_equal. lia.
Qed.

Lemma vceqq_lane x y : ((if x =? y then u64_not 0 else 0) =? u64_not 0) = (x =? y).
Proof. destruct (x =? y); reflexivity. Qed.

(** Selecting with an all-ones or an all-zeros mask. *)
Lemma select_mask (s : bool) x y : is_u 64 x -> is_u 64 y ->
  Z.lor (Z.land x (if s then u64_not 0 else 0)) (Z.land y (u64_not (if s then u64_not 0 else 0))) =
  if s then x else y.
Proof.
  intros Hx Hy. assert (E : u64_not (u64_not 0) = 0) by reflexivity. destruct s; rewrite ?E, ?u64_not_0, ?Z.land_0_r.
  - rewrite Z.lor_0_r, Z.land_ones by lia. apply Z.mod_small, Hx.
  - rewrite Z.lor_0_l, Z.land_ones by lia. apply Z.mod_small, Hy.
Qed.

Lemma word_u64 {W} (v : Bits W) i : bits_wf v -> is_u 64 (words_ v).[i].
Proof.
  intros (_ & Hf & _). destruct (decide (Z.to_nat i < length (words_ v))%nat) as [Hlt|Hge].
  - apply (Forall_lookup_total_1 _ _ _ Hf), Hlt.
  - rewrite list_lookup_total_alt, lookup_ge_None_2 by lia. unfold is_u. cbn. lia.
Qed.

(** C38: the vector paths compute the same values as the portable loops.  For
    every width the NEON variants of [&], [|], [^], [~] and [==] agree with
    the word loops, odd word counts included, and the branch-free [mux]
    agrees with the selection. *)
Theorem neon_equivalence {W} `{HW : PosWidth W} (sel : Bits 1) (a b : Bits W) :
  bits_wf a -> bits_wf b ->
  neon_and a b = bits_and a b /\ neon_or a b = bits_or a b /\ neon_xor a b = bits_xor a b /\
  neon_not a = bits_not a /\ neon_eq a b = bits_eq a b /\ neon_mux sel a b = mux sel a b.
Proof.
  intros Ha Hb. unfold neon_and, neon_or, neon_xor, neon_not, neon_eq, neon_mux, mux.
  destruct (2 <=? kWords W); [|tauto].
  repeat split.
  1-4: unfold bits_and, bits_or, bits_xor, bits_not, map_words; do 2 f_equal; apply simd_loop_eq; reflexivity.
  - unfold simd.bitwise_eq, bits_eq.
    rewrite (all_range_pairs _ 0 (fun i => (words_ a).[i] =? (words_ b).[i])).
    + symmetry. rewrite (pairs_and_tail (nWords W)) at 1. rewrite all_range_split.
      destruct (all_range (2 * Nat.div2 (nWords W)) _ _); reflexivity.
    + intros k Hk. cbn [fst snd vceqq_u64 lanewise2 vld1q_u64]. rewrite !vceqq_lane, negb_orb, !negb_involutive. reflexivity.
    + lia.
  - rewrite (simd_loop_eq _ (fun i => if toBool sel then (words_ a).[i] else (words_ b).[i])).
    + assert (Hl : forall v : Bits W, bits_wf v -> mkBits (for_range (nWords W) 0 (fun i s => s.[i := (words_ v).[i]])
                     (replicate (nWords W) 0)) = v).
      { intros v Hv. destruct v as [ws]. f_equal. destruct Hv as (Hl & _). cbn [words_] in Hl |- *.
        rewrite (array_loop _ (fun i => ws.[i])) by apply length_replicate. rewrite <- Hl. apply tabulate_self. }
      destruct (toBool sel); apply Hl; assumption.
    + intros i s Hi. unfold vst1q_u64, vbslq_u64, vdupq_n_u64, vld1q_u64. cbn [fst snd].
      rewrite !select_mask by (apply word_u64; assumption). reflexivity.
    + reflexivity.
Qed.

(** ** Variadic concatenation *)

Definition AnyBits : Type := {W : Z & Bits W}.
Definition width_of (v : AnyBits) : Z := projT1 v.

Fixpoint SumWidth (ws : list Z) : Z :=
  match ws with
  | [] => 0
  | w :: rest => w + SumWidth rest
  end.

(** [concat(a)], [concat(a, b)] and [concat(a, concat(b, c, rest...))]. *)
Fixpoint concat_pack (a : AnyBits) (rest : list AnyBits) : AnyBits :=
  match rest with
  | [] => a
  | b :: rest' =>
    let t := concat_pack b rest' in existT (projT1 a + projT1 t) (concat (projT2 a) (projT2 t))
  end.

(** The value of a sequence, first operand most significant. *)
Fixpoint pack_value (vs : list AnyBits) : Z :=
  match vs with
  | [] => 0
  | v :: rest => bval (projT2 v) * 2 ^ SumWidth (width_of <$> rest) + pack_value rest
  end.

Definition any_wf (v : AnyBits) : Prop := PosWidth (projT1 v) /\ bits_wf (projT2 v).

Lemma concat_pack_spec rest : forall a, any_wf a -> Forall any_wf rest ->
  let r := concat_pack a rest in
  any_wf r /\ projT1 r = SumWidth (width_of <$> a :: rest) /\ bval (projT2 r) = pack_value (a :: rest).
Proof.
  induction rest as [|b rest IH]; intros a [Ha Hwa] Hr; cbn zeta.
  - cbn [concat_pack fmap list_fmap SumWidth pack_value]. split; [split; assumption|]. split; [unfold width_of; lia|].
    change (2 ^ 0) with 1. lia.
  - inversion Hr as [|? ? Hb Hrest]; subst. destruct (IH b Hb Hrest) as ([Ht Hwt] & Et & Vt).
    cbn [concat_pack projT1 projT2]. set (t := concat_pack b rest) in *.
    destruct (concat_spec (projT2 a) (projT2 t) Hwa Hwt) as [Hwf Hv]. split; [|split].
    + split; [cbn [projT1]; unfold PosWidth in *; lia | exact Hwf].
    + rewrite Et. reflexivity.
    + rewrite Hv, Vt, Et. reflexivity.
Qed.

Module SimdWitness.
Definition a : Bits 200 := bits_of_list 200 [1; 2 ^ 64 - 1; 7; 255].
Definition b : Bits 200 := bits_of_list 200 [3; 5; 2 ^ 63; 129].
Definition s : Bits 1 := bits_of_word 1 1.

Lemma neon_equivalence_witness : neon_mux s a b = a /\ neon_eq a b = false.
Proof.
  destruct (neon_equivalence s a b) as (_ & _ & _ & _ & E & M); [apply bits_wfb_sound; vm_compute; reflexivity..|].
  rewrite E, M. split; vm_compute; reflexivity.
Defined.
End SimdWitness.
