(* ===== verification/FourState.v ===== *)
(** * FourState: value, known and Z planes of [include/gfsim/four_state.h]

    A four-state value has three [Bits] planes with [(known & z) == 0].  The
    private constructor checks that condition and throws; every operator is
    [noexcept], so a violation would call [std::terminate].  The operators
    are specified lane by lane against the four-valued logic of Verilog. *)

From Stdlib Require Import ZArith Lia String.
From stdpp Require Import base list numbers.
From S2P Require Import Prelude Bits BitsLogic BitsShift BitsArith.

Record FourState (Width : Z) := mkFS {
  value_ : Bits Width;
  knownMask_ : Bits Width;
  zMask_ : Bits Width;
}.
Arguments mkFS {Width} value_ knownMask_ zMask_.
Arguments value_ {Width} _.
Arguments knownMask_ {Width} _.
Arguments zMask_ {Width} _.

Inductive ComparePredicate :=
| EQ | NE | ULT | ULE | UGT | UGE | SLT | SLE | SGT | SGE | CASE_EQ.

Module FS.
Section Class.
Context {W : Z}.

Definition invariantHolds (x : FourState W) : bool :=
  bits_eq (bits_and (knownMask_ x) (zMask_ x)) (bits_of_word W 0).

(** The private constructor. *)
Definition make (value knownMask zMask : Bits W) : outcome (FourState W) :=
  let x := mkFS value knownMask zMask in
  if negb (invariantHolds x)
  then Throw (InvalidArgument "four-state masks require (known & z) == 0")
  else Ret x.

Definition known (v : Bits W) : outcome (FourState W) :=
  make v (ones W) (bits_of_word W 0).
Definition unknown (v : Bits W) : outcome (FourState W) :=
  make v (bits_of_word W 0) (bits_of_word W 0).
Definition highImpedance (v : Bits W) : outcome (FourState W) :=
  make v (bits_of_word W 0) (ones W).
Definition fromMasks (v knownMask zMask : Bits W) : outcome (FourState W) :=
  make v knownMask zMask.

Definition isFullyKnown (x : FourState W) : bool :=
  bits_eq (knownMask_ x) (ones W) && bits_eq (zMask_ x) (bits_of_word W 0).

Definition parityEquivalent (x other : FourState W) : bool :=
  if negb (invariantHolds x) || negb (invariantHolds other) ||
     bits_ne (knownMask_ x) (knownMask_ other) || bits_ne (zMask_ x) (zMask_ other)
  then false
  else bits_eq (bits_and (bits_xor (value_ x) (value_ other)) (knownMask_ x))
               (bits_of_word W 0).

(** The [update] lambda of [assignSlice] on one plane. *)
Definition slice_update {N} (target : Bits W) (input : Bits N)
    (position count destinationWord destinationOffset bits mask : Z) : Bits W :=
  let sourceOffset := position mod 64 in
  let w := u64_shr (word input (position / 64)) sourceOffset in
  let w := if negb (sourceOffset =? 0) && (64 <? sourceOffset + count)
           then Z.lor w (u64_shl (word input (position / 64 + 1)) (64 - sourceOffset))
           else w in
  setWord target destinationWord
    (Z.lor (Z.land (word target destinationWord) (u64_not mask))
           (u64_shl (Z.land w bits) destinationOffset)).

(** The [while (position < N)] loop; each round advances [position] by at
    least one, so [N] rounds of fuel suffice. *)
Fixpoint assign_loop {N} (fuel : nat) (low : Z) (source : FourState N) (position : Z)
    (x : FourState W) : FourState W :=
  match fuel with
  | O => x
  | S fuel' =>
    if position <? N then
      let destinationBit := low + position in
      let destinationWord := destinationBit / 64 in
      let destinationOffset := destinationBit mod 64 in
      let count := N - position in
      let count := if 64 - destinationOffset <? count then 64 - destinationOffset else count in
      let bits := if count =? 64 then u64_not 0 else u64_sub (u64_shl 1 count) 1 in
      let mask := u64_shl bits destinationOffset in
      let update target input :=
        slice_update target input position count destinationWord destinationOffset bits mask in
      let x := mkFS (update (value_ x) (value_ source))
                    (update (knownMask_ x) (knownMask_ source))
                    (update (zMask_ x) (zMask_ source)) in
      assign_loop fuel' low source (position + count) x
    else x
  end.

Definition assignSlice {N} (x : FourState W) (low : Z) (source : FourState N) : FourState W :=
  if W - N <? low then x else assign_loop (Z.to_nat N) low source 0 x.
End Class.

Section Operators.
Context {W : Z}.
Implicit Types lhs rhs : FourState W.

Definition bit_not (x : FourState W) : outcome (FourState W) :=
  noexcept (fromMasks (bits_not (value_ x)) (knownMask_ x) (bits_of_word W 0)).

Definition bit_and lhs rhs : outcome (FourState W) :=
  let zero := bits_or (bits_and (knownMask_ lhs) (bits_not (value_ lhs)))
                      (bits_and (knownMask_ rhs) (bits_not (value_ rhs))) in
  let one := bits_and (bits_and (bits_and (knownMask_ lhs) (value_ lhs)) (knownMask_ rhs))
                      (value_ rhs) in
  noexcept (fromMasks (bits_and (value_ lhs) (value_ rhs)) (bits_or zero one) (bits_of_word W 0)).

Definition bit_or lhs rhs : outcome (FourState W) :=
  let one := bits_or (bits_and (knownMask_ lhs) (value_ lhs))
                     (bits_and (knownMask_ rhs) (value_ rhs)) in
  let zero := bits_and (bits_and (bits_and (knownMask_ lhs) (bits_not (value_ lhs)))
                                 (knownMask_ rhs)) (bits_not (value_ rhs)) in
  noexcept (fromMasks (bits_or (value_ lhs) (value_ rhs)) (bits_or zero one) (bits_of_word W 0)).

Definition bit_xor lhs rhs : outcome (FourState W) :=
  noexcept (fromMasks (bits_xor (value_ lhs) (value_ rhs))
                      (bits_and (knownMask_ lhs) (knownMask_ rhs)) (bits_of_word W 0)).

Definition add lhs rhs : outcome (FourState W) :=
  noexcept (if negb (isFullyKnown lhs) || negb (isFullyKnown rhs)
            then unknown (bits_of_word W 0)
            else known (bits_add (value_ lhs) (value_ rhs))).
Definition sub lhs rhs : outcome (FourState W) :=
  noexcept (if negb (isFullyKnown lhs) || negb (isFullyKnown rhs)
            then unknown (bits_of_word W 0)
            else known (bits_sub (value_ lhs) (value_ rhs))).
Definition mul lhs rhs : outcome (FourState W) :=
  noexcept (if negb (isFullyKnown lhs) || negb (isFullyKnown rhs)
            then unknown (bits_of_word W 0)
            else known (bits_mul (value_ lhs) (value_ rhs))).
Definition fs_udiv lhs rhs : outcome (FourState W) :=
  noexcept (if negb (isFullyKnown lhs) || negb (isFullyKnown rhs) ||
               bits_eq (value_ rhs) (bits_of_word W 0)
            then unknown (bits_of_word W 0)
            else known (udiv (value_ lhs) (value_ rhs))).
Definition fs_urem lhs rhs : outcome (FourState W) :=
  noexcept (if negb (isFullyKnown lhs) || negb (isFullyKnown rhs) ||
               bits_eq (value_ rhs) (bits_of_word W 0)
            then unknown (bits_of_word W 0)
            else known (urem (value_ lhs) (value_ rhs))).

(** The relational part of [compare]. *)
Definition relation (p : ComparePredicate) (a b : Bits W) : bool :=
  match p with
  | ULT => bits_lt a b
  | ULE => bits_le a b
  | UGT => bits_gt a b
  | UGE => bits_ge a b
  | SLT => slt a b
  | SLE => negb (slt b a)
  | SGT => slt b a
  | SGE => negb (slt a b)
  | _ => false
  end.

Definition flag (b : bool) : Bits 1 := bits_of_word 1 (if b then 1 else 0).

Definition compare (p : ComparePredicate) lhs rhs : outcome (FourState 1) :=
  noexcept
    match p with
    | CASE_EQ => known (flag (parityEquivalent lhs rhs))
    | EQ | NE =>
      let difference :=
        bits_and (bits_and (bits_xor (value_ lhs) (value_ rhs)) (knownMask_ lhs))
                 (knownMask_ rhs) in
      if bits_ne difference (bits_of_word W 0)
      then known (flag match p with NE => true | _ => false end)
      else if negb (isFullyKnown lhs) || negb (isFullyKnown rhs)
      then unknown (bits_of_word 1 0)
      else known (flag match p with EQ => true | _ => false end)
    | _ =>
      if negb (isFullyKnown lhs) || negb (isFullyKnown rhs)
      then unknown (bits_of_word 1 0)
      else known (flag (relation p (value_ lhs) (value_ rhs)))
    end.

Definition select (condition : FourState 1) (whenTrue whenFalse : FourState W)
  : outcome (FourState W) :=
  noexcept
    (if isFullyKnown condition
     then Ret (if toBool (value_ condition) then whenTrue else whenFalse)
     else
       let commonKnown :=
         bits_and (bits_and (knownMask_ whenTrue) (knownMask_ whenFalse))
                  (bits_not (bits_xor (value_ whenTrue) (value_ whenFalse))) in
       let commonZ := bits_and (zMask_ whenTrue) (zMask_ whenFalse) in
       fromMasks (value_ whenTrue) commonKnown commonZ).
End Operators.

Section Width.
Context (Out : Z) {In : Z}.

Definition zero_extend (x : FourState In) : outcome (FourState Out) :=
  let inputMask := zext Out (ones In) in
  noexcept (fromMasks (zext Out (value_ x))
                      (bits_or (zext Out (knownMask_ x)) (bits_not inputMask))
                      (zext Out (zMask_ x))).

Definition truncate (x : FourState In) : outcome (FourState Out) :=
  noexcept (fromMasks (trunc Out (value_ x)) (trunc Out (knownMask_ x)) (trunc Out (zMask_ x))).

Definition sign_extend (x : FourState In) : outcome (FourState Out) :=
  noexcept (fromMasks (sext Out (value_ x)) (sext Out (knownMask_ x)) (sext Out (zMask_ x))).

Definition fs_extract (x : FourState In) (low : Z) : outcome (FourState Out) :=
  noexcept (if (In <? Out) || (In - Out <? low) then unknown (bits_of_word Out 0)
            else fromMasks (extract Out (value_ x) low) (extract Out (knownMask_ x) low)
                           (extract Out (zMask_ x) low)).
End Width.

Definition fs_concat {High Low} (high : FourState High) (low : FourState Low)
  : outcome (FourState (High + Low)) :=
  noexcept (fromMasks (concat (value_ high) (value_ low))
                      (concat (knownMask_ high) (knownMask_ low))
                      (concat (zMask_ high) (zMask_ low))).

Section Shifts.
Context {W AmountWidth : Z}.

Definition boundedShift (amount : FourState AmountWidth) : Z :=
  if all_range (nWords AmountWidth - 1) 1 (fun i => word (value_ amount) i =? 0)
  then (if W <=? value (value_ amount) then W else value (value_ amount))
  else W.

Definition fs_shl (x : FourState W) (amount : FourState AmountWidth) : outcome (FourState W) :=
  noexcept
    (if negb (isFullyKnown amount) then unknown (bits_of_word W 0)
     else
       let count := boundedShift amount in
       let fill := bits_not (shl (ones W) count) in
       fromMasks (shl (value_ x) count) (bits_or (shl (knownMask_ x) count) fill)
                 (shl (zMask_ x) count)).

Definition fs_lshr (x : FourState W) (amount : FourState AmountWidth) : outcome (FourState W) :=
  noexcept
    (if negb (isFullyKnown amount) then unknown (bits_of_word W 0)
     else
       let count := boundedShift amount in
       let fill := bits_not (lshr (ones W) count) in
       fromMasks (lshr (value_ x) count) (bits_or (lshr (knownMask_ x) count) fill)
                 (lshr (zMask_ x) count)).

Definition fs_ashr (x : FourState W) (amount : FourState AmountWidth) : outcome (FourState W) :=
  noexcept
    (if negb (isFullyKnown amount) then unknown (bits_of_word W 0)
     else
       let count := boundedShift amount in
       fromMasks (ashr (value_ x) count) (ashr (knownMask_ x) count) (ashr (zMask_ x) count)).
End Shifts.
End FS.
