(* ===== verification/FourStateSpec.v ===== *)
(** * Lane-wise specification of the four-state operators

    [lane x n] reads bit [n] of the three planes as one of the four Verilog
    values.  Each operator returns (its internal [fromMasks] check never
    fires) and computes the four-valued truth table on every lane. *)

From Stdlib Require Import ZArith Lia String.
From stdpp Require Import base list numbers.
From S2P Require Import Prelude Bits BitsLogic BitsShift BitsArith FourState.

Inductive V4 := V0 | V1 | VX | VZ.

#[export] Instance V4_eq_dec : EqDecision V4.
Proof. solve_decision. Defined.

(** IEEE 1364 truth tables; a Z operand counts as X. *)
Definition not4 (a : V4) : V4 := match a with V0 => V1 | V1 => V0 | _ => VX end.
Definition and4 (a b : V4) : V4 :=
  match a, b with V0, _ | _, V0 => V0 | V1, V1 => V1 | _, _ => VX end.
Definition or4 (a b : V4) : V4 :=
  match a, b with V1, _ | _, V1 => V1 | V0, V0 => V0 | _, _ => VX end.
Definition xor4 (a b : V4) : V4 :=
  match a, b with
  | V0, V0 | V1, V1 => V0
  | V0, V1 | V1, V0 => V1
  | _, _ => VX
  end.
(** Conditional operator with an unknown condition: agreeing lanes survive. *)
Definition merge4 (a b : V4) : V4 := if decide (a = b) then a else VX.

Definition known4 (a : V4) : bool := match a with V0 | V1 => true | _ => false end.

Definition lane {W} (x : FourState W) (n : Z) : V4 :=
  if Z.testbit (bval (knownMask_ x)) n then
    (if Z.testbit (bval (value_ x)) n then V1 else V0)
  else if Z.testbit (bval (zMask_ x)) n then VZ else VX.

(** The class invariant: well-formed planes with [(known & z) == 0]. *)
Definition fs_wf {W} (x : FourState W) : Prop :=
  bits_wf (value_ x) /\ bits_wf (knownMask_ x) /\ bits_wf (zMask_ x) /\
  forall n, 0 <= n < W ->
    Z.testbit (bval (knownMask_ x)) n && Z.testbit (bval (zMask_ x)) n = false.

(** Syntax-directed proof of [bits_wf]. *)
Ltac wf :=
  repeat first
    [ assumption
    | match goal with
      | |- bits_wf (bits_and _ _) => apply bits_and_wf
      | |- bits_wf (bits_or _ _) => apply bits_or_wf
      | |- bits_wf (bits_xor _ _) => apply bits_xor_wf
      | |- bits_wf (bits_not _) => apply bits_not_wf
      | |- bits_wf (bits_add _ _) => apply bits_add_wf
      | |- bits_wf (bits_sub _ _) => apply bits_sub_wf
      | |- bits_wf (bits_mul _ _) => apply bits_mul_wf
      | |- bits_wf (udiv _ _) => apply udiv_wf
      | |- bits_wf (urem _ _) => apply urem_wf
      | |- bits_wf (ones _) => apply ones_wf
      | |- bits_wf (bits_of_word _ 0) => apply zero_wf
      | |- bits_wf (shl _ _) => apply shl_wf; [|lia]
      | |- bits_wf (lshr _ _) => apply lshr_wf; [|lia]
      | |- bits_wf (ashr _ _) => apply ashr_wf; [|lia]
      | |- bits_wf (zext _ _) => apply zext_wf; [|lia]
      | |- bits_wf (trunc _ _) => apply trunc_wf
      | |- bits_wf (sext _ _) => apply sext_wf; [|lia]
      | |- bits_wf (extract _ _ _) => apply extract_wf; [|lia]
      | |- bits_wf (concat _ _) => apply concat_wf
      | H : fs_wf ?x |- bits_wf (value_ ?x) => apply (proj1 H)
      | H : fs_wf ?x |- bits_wf (knownMask_ ?x) => apply (proj1 (proj2 H))
      | H : fs_wf ?x |- bits_wf (zMask_ ?x) => apply (proj1 (proj2 (proj2 H)))
      end ].
Ltac wf_side := first [ assumption | lia | solve [wf] | solve [unfold PosWidth in *; lia] ].

Create Rewrite HintDb tb.
#[export] Hint Rewrite @bits_and_tb @bits_or_tb @bits_xor_tb @bits_not_tb @ones_tb @zero_tb
  using (solve [wf_side]) : tb.

Section Wf.
Context {W : Z} `{HW : PosWidth W}.
Implicit Types x y : FourState W.

Lemma fs_wf_value x : fs_wf x -> bits_wf (value_ x).
Proof. intros H. apply H. Qed.
Lemma fs_wf_known x : fs_wf x -> bits_wf (knownMask_ x).
Proof. intros H. apply H. Qed.
Lemma fs_wf_z x : fs_wf x -> bits_wf (zMask_ x).
Proof. intros H. apply H. Qed.
Lemma fs_wf_disjoint x n : fs_wf x -> 0 <= n < W ->
  Z.testbit (bval (knownMask_ x)) n && Z.testbit (bval (zMask_ x)) n = false.
Proof. intros H. apply H. Qed.

(** The constructor check is exactly plane disjointness. *)
Lemma make_ok (v k z : Bits W) :
  bits_wf v -> bits_wf k -> bits_wf z ->
  (forall n, 0 <= n < W -> Z.testbit (bval k) n && Z.testbit (bval z) n = false) ->
  FS.make v k z = Ret (mkFS v k z) /\ fs_wf (mkFS v k z).
Proof using HW.
  intros Hv Hk Hz Hd. unfold FS.make, FS.invariantHolds. cbn [knownMask_ zMask_].
  assert (E : bits_and k z = bits_of_word W 0).
  { apply bits_inj_testbit; [wf | wf |]. intros n Hn. autorewrite with tb. apply Hd. exact Hn. }
  rewrite (proj2 (bits_eq_spec _ _ (bits_and_wf k z Hk Hz) zero_wf) E). cbn [negb].
  split; [reflexivity|]. unfold fs_wf. auto.
Qed.

Lemma make_throws (v k z : Bits W) n :
  bits_wf k -> bits_wf z -> 0 <= n < W ->
  Z.testbit (bval k) n = true -> Z.testbit (bval z) n = true ->
  exists e, FS.make v k z = Throw e.
Proof using HW.
  intros Hk Hz Hn Tk Tz. unfold FS.make, FS.invariantHolds. cbn [knownMask_ zMask_].
  destruct (bits_eq _ _) eqn:E; [|eexists; reflexivity].
  apply bits_eq_spec in E; [|wf | wf].
  assert (Z.testbit (bval (bits_and k z)) n = true) by (autorewrite with tb; rewrite Tk, Tz; reflexivity).
  rewrite E, zero_tb in H. discriminate.
Qed.

(** Deciding the invariant on concrete planes. *)
Lemma fs_wfb_sound x :
  bits_wfb (value_ x) && bits_wfb (knownMask_ x) && bits_wfb (zMask_ x) && FS.invariantHolds x = true -> fs_wf x.
Proof using HW.
  intros H. apply andb_prop in H as [H Hi]. apply andb_prop in H as [H Hz]. apply andb_prop in H as [Hv Hk].
  apply bits_wfb_sound in Hv, Hk, Hz. unfold FS.invariantHolds in Hi. apply bits_eq_spec in Hi; [|wf | wf].
  split; [exact Hv|]. split; [exact Hk|]. split; [exact Hz|]. intros n Hn.
  rewrite <- bits_and_tb, Hi, zero_tb by (assumption || lia). reflexivity.
Qed.

Definition fs_of (v : Bits W) : FourState W := mkFS v (ones W) (bits_of_word W 0).
Definition fs_x (v : Bits W) : FourState W := mkFS v (bits_of_word W 0) (bits_of_word W 0).

Lemma known_ok v : bits_wf v -> FS.known v = Ret (fs_of v) /\ fs_wf (fs_of v).
Proof using HW.
  intros Hv. apply make_ok; [exact Hv | wf | wf |]. intros n Hn. autorewrite with tb. reflexivity.
Qed.

Lemma unknown_ok v : bits_wf v -> FS.unknown v = Ret (fs_x v) /\ fs_wf (fs_x v).
Proof using HW.
  intros Hv. apply make_ok; [exact Hv | wf | wf |]. intros n Hn. autorewrite with tb. reflexivity.
Qed.

Lemma lane_fs_of v n : 0 <= n < W -> lane (fs_of v) n = if Z.testbit (bval v) n then V1 else V0.
Proof using HW. intros Hn. unfold lane, fs_of, fs_x. cbn [value_ knownMask_ zMask_]. rewrite ones_tb by exact Hn. reflexivity. Qed.

Lemma lane_fs_x v n : lane (fs_x v) n = VX.
Proof using HW. unfold lane, fs_of, fs_x. cbn [value_ knownMask_ zMask_]. rewrite !zero_tb. reflexivity. Qed.

Lemma known4_lane x n : known4 (lane x n) = Z.testbit (bval (knownMask_ x)) n.
Proof using. unfold lane. repeat case_match; reflexivity. Qed.

(** [isFullyKnown] holds exactly when no lane is X or Z. *)
Lemma isFullyKnown_spec x :
  fs_wf x -> FS.isFullyKnown x = true <-> forall n, 0 <= n < W -> known4 (lane x n) = true.
Proof using HW.
  intros (Hv & Hk & Hz & Hd). unfold FS.isFullyKnown. rewrite andb_true_iff.
  rewrite !bits_eq_spec by wf_side. split.
  - intros [E _] n Hn. rewrite known4_lane, E. apply ones_tb. exact Hn.
  - intros H. split.
    + apply bits_inj_testbit; [wf | wf |]. intros n Hn. rewrite ones_tb by exact Hn.
      rewrite <- known4_lane. apply H. exact Hn.
    + apply bits_inj_testbit; [wf | wf |]. intros n Hn. rewrite zero_tb.
      specialize (Hd n Hn). specialize (H n Hn). rewrite known4_lane in H. rewrite H in Hd. exact Hd.
Qed.

Lemma isFullyKnown_eq x : fs_wf x -> FS.isFullyKnown x = true -> x = fs_of (value_ x).
Proof using HW.
  intros (Hv & Hk & Hz & Hd) H. unfold FS.isFullyKnown in H. apply andb_prop in H as [E1 E2].
  apply bits_eq_spec in E1; [|wf..]. apply bits_eq_spec in E2; [|wf..].
  destruct x as [v k z]. cbn in *. subst. reflexivity.
Qed.

Lemma fs_of_fullyKnown v : FS.isFullyKnown (fs_of v) = true.
Proof using HW.
  unfold FS.isFullyKnown, fs_of. cbn [value_ knownMask_ zMask_].
  rewrite !bits_eq_refl. reflexivity.
Qed.

Lemma fs_x_unknown v : FS.isFullyKnown (fs_x v) = false.
Proof using HW.
  unfold FS.isFullyKnown, fs_x. cbn [value_ knownMask_ zMask_].
  destruct (bits_eq (bits_of_word W 0) (ones W)) eqn:E; [|reflexivity].
  apply bits_eq_spec in E; [|wf..]. pose proof (W_pos (W:=W)).
  pose proof (ones_tb (W:=W) 0 ltac:(lia)) as H1. rewrite <- E, zero_tb in H1. discriminate.
Qed.
End Wf.


(** An operator that returns a well-formed value with the given lanes. *)
Definition returns {W} (m : outcome (FourState W)) (spec : Z -> V4) : Prop :=
  exists r, m = Ret r /\ fs_wf r /\ forall n, 0 <= n < W -> lane r n = spec n.

Lemma returns_make {W} `{PosWidth W} (v k z : Bits W) spec :
  bits_wf v -> bits_wf k -> bits_wf z ->
  (forall n, 0 <= n < W ->
     Z.testbit (bval k) n && Z.testbit (bval z) n = false /\ lane (mkFS v k z) n = spec n) ->
  returns (noexcept (FS.fromMasks v k z)) spec.
Proof.
  intros Hv Hk Hz Hn. unfold FS.fromMasks.
  destruct (make_ok v k z Hv Hk Hz) as [E Hwf]; [intros n Hn'; apply Hn; exact Hn'|].
  rewrite E. exists (mkFS v k z). split; [reflexivity|]. split; [exact Hwf|].
  intros n Hn'. apply Hn. exact Hn'.
Qed.

(** Case analysis on the planes of a lane. *)
Ltac lane_cases :=
  unfold lane; cbn [value_ knownMask_ zMask_]; autorewrite with tb;
  repeat match goal with
         | |- context [Z.testbit ?x ?n] => destruct (Z.testbit x n) eqn:?
         end; cbn in *; try (split; reflexivity); try congruence; auto.

Section Operators.
Context {W : Z} `{HW : PosWidth W}.
Implicit Types x y : FourState W.

Lemma bit_not_spec x : fs_wf x -> returns (FS.bit_not x) (fun n => not4 (lane x n)).
Proof using HW.
  intros Hx. apply returns_make; [wf.. |]. intros n Hn. lane_cases.
Qed.

Lemma bit_and_spec x y :
  fs_wf x -> fs_wf y -> returns (FS.bit_and x y) (fun n => and4 (lane x n) (lane y n)).
Proof using HW.
  intros Hx Hy. lazy beta zeta delta [FS.bit_and FS.bit_or FS.bit_xor]. apply returns_make; [wf.. |]. intros n Hn. lane_cases.
Qed.

Lemma bit_or_spec x y :
  fs_wf x -> fs_wf y -> returns (FS.bit_or x y) (fun n => or4 (lane x n) (lane y n)).
Proof using HW.
  intros Hx Hy. lazy beta zeta delta [FS.bit_and FS.bit_or FS.bit_xor]. apply returns_make; [wf.. |]. intros n Hn. lane_cases.
Qed.

Lemma bit_xor_spec x y :
  fs_wf x -> fs_wf y -> returns (FS.bit_xor x y) (fun n => xor4 (lane x n) (lane y n)).
Proof using HW.
  intros Hx Hy. lazy beta zeta delta [FS.bit_and FS.bit_or FS.bit_xor]. apply returns_make; [wf.. |]. intros n Hn. lane_cases.
Qed.
End Operators.

(** ** Word-level operators: X-pessimistic *)

Section Pessimistic.
Context {W : Z} `{HW : PosWidth W}.
Implicit Types x y : FourState W.

Definition both_known x y : bool := FS.isFullyKnown x && FS.isFullyKnown y.

Lemma pessimistic_ok x y (c : bool) (r : Bits W) :
  bits_wf r ->
  noexcept (if negb (FS.isFullyKnown x) || negb (FS.isFullyKnown y) || c
            then FS.unknown (bits_of_word W 0) else FS.known r) =
  Ret (if both_known x y && negb c then fs_of r else fs_x (bits_of_word W 0)).
Proof using HW.
  intros Hr. unfold both_known.
  destruct (FS.isFullyKnown x), (FS.isFullyKnown y), c; cbn [negb orb andb];
    rewrite ?(proj1 (known_ok r Hr)), ?(proj1 (unknown_ok (bits_of_word W 0) zero_wf)); reflexivity.
Qed.

Ltac pess := intros Hx Hy; rewrite <- pessimistic_ok by wf; rewrite ?orb_false_r; reflexivity.

Lemma fs_add_spec x y : fs_wf x -> fs_wf y ->
  FS.add x y = Ret (if both_known x y && negb false then fs_of (bits_add (value_ x) (value_ y))
                    else fs_x (bits_of_word W 0)).
Proof using HW. pess. Qed.
Lemma fs_sub_spec x y : fs_wf x -> fs_wf y ->
  FS.sub x y = Ret (if both_known x y && negb false then fs_of (bits_sub (value_ x) (value_ y))
                    else fs_x (bits_of_word W 0)).
Proof using HW. pess. Qed.
Lemma fs_mul_spec x y : fs_wf x -> fs_wf y ->
  FS.mul x y = Ret (if both_known x y && negb false then fs_of (bits_mul (value_ x) (value_ y))
                    else fs_x (bits_of_word W 0)).
Proof using HW. pess. Qed.
Lemma fs_udiv_spec x y : fs_wf x -> fs_wf y ->
  FS.fs_udiv x y = Ret (if both_known x y && negb (bits_eq (value_ y) (bits_of_word W 0))
                        then fs_of (udiv (value_ x) (value_ y)) else fs_x (bits_of_word W 0)).
Proof using HW. pess. Qed.
Lemma fs_urem_spec x y : fs_wf x -> fs_wf y ->
  FS.fs_urem x y = Ret (if both_known x y && negb (bits_eq (value_ y) (bits_of_word W 0))
                        then fs_of (urem (value_ x) (value_ y)) else fs_x (bits_of_word W 0)).
Proof using HW. pess. Qed.
End Pessimistic.

(** ** Comparison and selection *)

(** One-bit results. *)
Definition fs_bool (b : bool) : FourState 1 := fs_of (FS.flag b).

Lemma flag_wf b : bits_wf (FS.flag b).
Proof. destruct b; [apply (proj1 (one_spec (W:=1))) | apply zero_wf]. Qed.

Lemma flag_toBool b : toBool (FS.flag b) = b.
Proof. destruct b; reflexivity. Qed.

Section Compare.
Context {W : Z} `{HW : PosWidth W}.
Implicit Types x y : FourState W.

(** A lane on which both operands are known and differ. *)
Definition differ x y (n : Z) : bool :=
  match lane x n, lane y n with V0, V1 | V1, V0 => true | _, _ => false end.

Lemma difference_spec x y :
  fs_wf x -> fs_wf y ->
  bits_ne (bits_and (bits_and (bits_xor (value_ x) (value_ y)) (knownMask_ x)) (knownMask_ y))
          (bits_of_word W 0) = true <-> exists n, 0 <= n < W /\ differ x y n = true.
Proof using HW.
  intros Hx Hy. unfold bits_ne.
  assert (Hd : forall n, 0 <= n < W -> differ x y n =
    Z.testbit (bval (bits_and (bits_and (bits_xor (value_ x) (value_ y)) (knownMask_ x)) (knownMask_ y))) n).
  { intros n Hn. unfold differ. lane_cases. }
  set (d := bits_and _ (knownMask_ y)) in *. assert (Hw : bits_wf d) by (unfold d; wf). clearbody d.
  rewrite negb_true_iff. split.
  - intros E. pose proof (W_pos (W:=W)).
    destruct (all_range (Z.to_nat W) 0 (fun n => negb (Z.testbit (bval d) n))) eqn:A.
    + exfalso. rewrite all_range_true in A.
      rewrite (proj2 (bits_eq_spec d (bits_of_word W 0) Hw zero_wf)) in E; [discriminate|].
      apply bits_inj_testbit; [wf..|]. intros n Hn. rewrite zero_tb. apply negb_true_iff, A. lia.
    + apply all_range_false in A as (n & Hn & T). exists n. split; [lia|].
      rewrite Hd by lia. apply negb_false_iff. exact T.
  - intros (n & Hn & T). rewrite Hd in T by exact Hn.
    destruct (bits_eq d (bits_of_word W 0)) eqn:E; [|reflexivity].
    apply bits_eq_spec in E; [|wf..]. rewrite E, zero_tb in T. discriminate.
Qed.

(** The result of an equality comparison: a known differing lane decides,
    otherwise any unknown lane makes the result X. *)
Definition eq4 x y : V4 :=
  if bits_ne (bits_and (bits_and (bits_xor (value_ x) (value_ y)) (knownMask_ x)) (knownMask_ y))
             (bits_of_word W 0)
  then V0 else if both_known x y then V1 else VX.

Definition fs_of_V4 (v : V4) : FourState 1 :=
  match v with V0 => fs_bool false | V1 => fs_bool true | _ => fs_x (bits_of_word 1 0) end.

Definition of_bool (b : bool) : V4 := if b then V1 else V0.

Lemma known_flag b : FS.known (FS.flag b) = Ret (fs_bool b).
Proof using. apply known_ok, flag_wf. Qed.

Lemma fs_of_V4_bool b : fs_of_V4 (of_bool b) = fs_bool b.
Proof using. destruct b; reflexivity. Qed.

Lemma pessimistic_flag x y b :
  (if negb (FS.isFullyKnown x) || negb (FS.isFullyKnown y)
   then FS.unknown (bits_of_word 1 0) else FS.known (FS.flag b)) =
  Ret (fs_of_V4 (if both_known x y then of_bool b else VX)).
Proof using.
  unfold both_known. rewrite known_flag, (proj1 (unknown_ok (W:=1) _ zero_wf)).
  destruct (FS.isFullyKnown x), (FS.isFullyKnown y); cbn [negb orb andb];
    rewrite ?fs_of_V4_bool; reflexivity.
Qed.

Lemma compare_spec p x y :
  fs_wf x -> fs_wf y ->
  FS.compare p x y = Ret (fs_of_V4
    match p with
    | CASE_EQ => of_bool (FS.parityEquivalent x y)
    | EQ => eq4 x y
    | NE => not4 (eq4 x y)
    | ULT => if both_known x y then of_bool (bval (value_ x) <? bval (value_ y)) else VX
    | ULE => if both_known x y then of_bool (bval (value_ x) <=? bval (value_ y)) else VX
    | UGT => if both_known x y then of_bool (bval (value_ y) <? bval (value_ x)) else VX
    | UGE => if both_known x y then of_bool (bval (value_ y) <=? bval (value_ x)) else VX
    | SLT => if both_known x y then of_bool (sval (value_ x) <? sval (value_ y)) else VX
    | SLE => if both_known x y then of_bool (sval (value_ x) <=? sval (value_ y)) else VX
    | SGT => if both_known x y then of_bool (sval (value_ y) <? sval (value_ x)) else VX
    | SGE => if both_known x y then of_bool (sval (value_ y) <=? sval (value_ x)) else VX
    end).
Proof using HW.
  intros Hx Hy.
  assert (Hneg : forall a b, negb (a <? b) = (b <=? a)) by (intros; lia).
  destruct p; unfold FS.compare, FS.relation, bits_gt, bits_le, bits_ge;
    rewrite ?pessimistic_flag, ?bits_lt_spec, ?slt_spec, ?Hneg by wf_side;
    cbn [noexcept]; try reflexivity.
  - unfold eq4. destruct (bits_ne _ _); rewrite ?known_flag; cbn [noexcept]; reflexivity.
  - unfold eq4. destruct (bits_ne _ _); rewrite ?known_flag; cbn [noexcept]; [reflexivity|].
    destruct (both_known x y); reflexivity.
  - rewrite known_flag, fs_of_V4_bool. reflexivity.
Qed.

(** Case equality compares all four values of every lane. *)
Lemma parityEquivalent_spec x y :
  fs_wf x -> fs_wf y ->
  FS.parityEquivalent x y = true <-> forall n, 0 <= n < W -> lane x n = lane y n.
Proof using HW.
  intros Hx Hy. unfold FS.parityEquivalent, FS.invariantHolds, bits_ne.
  assert (Hinv : forall z, fs_wf z -> bits_eq (bits_and (knownMask_ z) (zMask_ z)) (bits_of_word W 0) = true).
  { intros z Hz. apply bits_eq_spec; [wf..|]. apply bits_inj_testbit; [wf..|].
    intros n Hn. autorewrite with tb. apply (fs_wf_disjoint z n Hz Hn). }
  rewrite !Hinv by assumption. cbn [negb orb]. split.
  - intros H. destruct (bits_eq (knownMask_ x) _) eqn:E1; [|discriminate].
    destruct (bits_eq (zMask_ x) _) eqn:E2; [|discriminate]. cbn [negb orb] in H.
    apply bits_eq_spec in E1, E2, H; [|wf..]. intros n Hn. unfold lane. rewrite <- E1, <- E2.
    assert (T : Z.testbit (bval (bits_and (bits_xor (value_ x) (value_ y)) (knownMask_ x))) n = false)
      by (rewrite H; apply zero_tb).
    autorewrite with tb in T. lane_cases.
  - intros H.
    assert (Hp : forall n, 0 <= n < W ->
      Z.testbit (bval (knownMask_ x)) n = Z.testbit (bval (knownMask_ y)) n /\
      Z.testbit (bval (zMask_ x)) n = Z.testbit (bval (zMask_ y)) n /\
      Z.testbit (bval (bits_and (bits_xor (value_ x) (value_ y)) (knownMask_ x))) n = false).
    { intros n Hn. specialize (H n Hn). pose proof (fs_wf_disjoint x n Hx Hn) as D1.
      pose proof (fs_wf_disjoint y n Hy Hn) as D2. revert H D1 D2. lane_cases; intuition congruence. }
    rewrite (proj2 (bits_eq_spec (knownMask_ x) (knownMask_ y) ltac:(wf) ltac:(wf)))
      by (apply bits_inj_testbit; [wf..|]; intros n Hn; apply Hp; exact Hn).
    rewrite (proj2 (bits_eq_spec (zMask_ x) (zMask_ y) ltac:(wf) ltac:(wf)))
      by (apply bits_inj_testbit; [wf..|]; intros n Hn; apply Hp; exact Hn).
    cbn [negb orb]. apply bits_eq_spec; [wf..|]. apply bits_inj_testbit; [wf..|].
    intros n Hn. rewrite zero_tb. apply Hp. exact Hn.
Qed.

Lemma select_spec (c : FourState 1) x y :
  fs_wf c -> fs_wf x -> fs_wf y ->
  returns (FS.select c x y) (fun n =>
    match lane c 0 with V1 => lane x n | V0 => lane y n | _ => merge4 (lane x n) (lane y n) end).
Proof using HW.
  intros Hc Hx Hy. unfold FS.select. destruct (FS.isFullyKnown c) eqn:E.
  - pose proof (isFullyKnown_eq c Hc E) as Ec.
    assert (Hl : lane c 0 = if toBool (value_ c) then V1 else V0).
    { rewrite Ec, lane_fs_of by lia. rewrite <- toBool_spec by wf_side. reflexivity. }
    rewrite Hl. exists (if toBool (value_ c) then x else y). split; [reflexivity|].
    destruct (toBool (value_ c)); auto.
  - assert (Hl : known4 (lane c 0) = false).
    { destruct (known4 (lane c 0)) eqn:K; [|reflexivity]. rewrite <- E. symmetry.
      apply isFullyKnown_spec; [exact Hc|]. intros n Hn. replace n with 0 by lia. exact K. }
    apply returns_make; [wf..|]. intros n Hn.
    assert (Hm : forall a b, match lane c 0 with V1 => a | V0 => b | _ => merge4 a b end = merge4 a b).
    { intros a b. destruct (lane c 0); try reflexivity; discriminate. }
    rewrite Hm. pose proof (fs_wf_disjoint x n Hx Hn) as D1.
    pose proof (fs_wf_disjoint y n Hy Hn) as D2. revert D1 D2. lane_cases.
Qed.
End Compare.

(** ** Width changes and shifts, lane by lane *)

Section Width.
Context {Out In : Z} `{HO : PosWidth Out} `{HI : PosWidth In}.
Implicit Types x : FourState In.

Lemma zero_extend_spec x :
  fs_wf x -> In <= Out ->
  returns (FS.zero_extend Out x) (fun n => if n <? In then lane x n else V0).
Proof using HO HI.
  intros Hx Hle. unfold FS.zero_extend. cbv zeta. apply returns_make; [wf..|]. intros n Hn.
  unfold lane. cbn [value_ knownMask_ zMask_].
  rewrite bits_or_tb, bits_not_tb, !zext_tb by wf_side.
  rewrite (proj2 ones_spec), ones_testbit by (unfold PosWidth in *; lia).
  destruct (Z.ltb_spec n In).
  - cbn [negb]. rewrite orb_false_r. split; [|reflexivity]. apply fs_wf_disjoint; [exact Hx | lia].
  - rewrite !bval_testbit_high by wf_side. split; reflexivity.
Qed.

Lemma truncate_spec x :
  fs_wf x -> Out <= In -> returns (FS.truncate Out x) (fun n => lane x n).
Proof using HO HI.
  intros Hx Hle. apply returns_make; [wf..|]. intros n Hn.
  unfold lane. cbn [value_ knownMask_ zMask_]. rewrite !trunc_tb by wf_side.
  split; [|reflexivity]. apply fs_wf_disjoint; [exact Hx | lia].
Qed.

(** Lane [n] of a sign extension is the sign lane above [In], provided the
    input width is not a multiple of the 64-bit word. *)
Lemma sign_extend_spec x :
  fs_wf x -> In <= Out -> In mod 64 <> 0 ->
  returns (FS.sign_extend Out x) (fun n => lane x (Z.min n (In - 1))).
Proof using HO HI.
  intros Hx Hle Hmod. apply returns_make; [wf..|]. intros n Hn. pose proof (W_pos (W:=In)).
  assert (Hs : forall v : Bits In, bits_wf v ->
    Z.testbit (bval (sext Out v)) n = Z.testbit (bval v) (Z.min n (In - 1))).
  { intros v Hv. rewrite sext_testbit, sval_testbit by (try assumption; try lia; left; assumption).
    destruct (Z.ltb_spec n Out); [cbn [andb]|lia].
    destruct (Z.ltb_spec n In); f_equal; lia. }
  unfold lane. cbn [value_ knownMask_ zMask_]. rewrite !Hs by wf_side.
  split; [|reflexivity]. apply fs_wf_disjoint; [exact Hx | lia].
Qed.

Lemma fs_extract_spec x low :
  fs_wf x -> 0 <= low -> Out + low <= In ->
  returns (FS.fs_extract Out x low) (fun n => lane x (n + low)).
Proof using HO HI.
  intros Hx Hl Hle. unfold FS.fs_extract.
  destruct ((In <? Out) || (In - Out <? low)) eqn:E; [exfalso; lia|].
  apply returns_make; [wf..|]. intros n Hn.
  unfold lane. cbn [value_ knownMask_ zMask_]. rewrite !extract_tb by wf_side.
  split; [|reflexivity]. apply fs_wf_disjoint; [exact Hx | lia].
Qed.

(** An invalid static slice is all X, without any out-of-range access. *)
Lemma fs_extract_invalid x low :
  In < Out \/ In - Out < low -> FS.fs_extract Out x low = Ret (fs_x (bits_of_word Out 0)).
Proof using HO.
  intros Hbad. unfold FS.fs_extract.
  replace ((In <? Out) || (In - Out <? low)) with true by lia.
  rewrite (proj1 (unknown_ok _ zero_wf)). reflexivity.
Qed.
End Width.

Section ConcatShift.
Lemma fs_concat_spec {High Low} `{PosWidth High} `{PosWidth Low}
    (high : FourState High) (low : FourState Low) :
  fs_wf high -> fs_wf low ->
  returns (FS.fs_concat high low) (fun n => if n <? Low then lane low n else lane high (n - Low)).
Proof.
  intros Hh Hl. assert (PosWidth (High + Low)) by (unfold PosWidth in *; lia).
  apply returns_make; [wf..|]. intros n Hn.
  unfold lane. cbn [value_ knownMask_ zMask_]. rewrite !concat_tb by wf_side.
  destruct (Z.ltb_spec n Low); (split; [|reflexivity]); apply fs_wf_disjoint; (assumption || lia).
Qed.

Context {W AW : Z} `{HW : PosWidth W} `{HA : PosWidth AW}.
Implicit Types x : FourState W.
Implicit Types amount : FourState AW.

(** The shift count saturates at the width. *)
Lemma boundedShift_spec amount :
  W < 2 ^ 32 -> fs_wf amount -> FS.boundedShift (W:=W) amount = Z.min (bval (value_ amount)) W.
Proof using HW HA.
  intros HW32 Ha. assert (Hv : bits_wf (value_ amount)) by wf. set (v := value_ amount) in *.
  unfold FS.boundedShift. fold v. rewrite value_spec by exact Hv.
  pose proof (W_pos (W:=W)). pose proof (nWords_kWords (W:=AW)) as Hn. pose proof (kWords_pos (W:=AW)).
  pose proof (bval_range v Hv) as [R0 _].
  destruct (all_range _ _ _) eqn:E.
  - rewrite all_range_true in E.
    assert (Hsmall : bval v mod 2 ^ 64 = bval v).
    { apply Z.bits_inj'. intros n Hn'. rewrite Z.testbit_mod_pow2 by lia.
      destruct (Z.ltb_spec n 64); [reflexivity|]. cbn [andb]. symmetry.
      rewrite bval_testbit by assumption.
      assert (1 <= n / 64) by (apply Z.div_le_lower_bound; lia).
      destruct (Z.ltb_spec (n / 64) (kWords AW)).
      - specialize (E (n / 64) ltac:(lia)). apply Z.eqb_eq in E. rewrite E. apply Z.bits_0.
      - rewrite word_beyond by lia. apply Z.bits_0. }
    rewrite Hsmall. destruct (Z.leb_spec W (bval v)); lia.
  - apply all_range_false in E as (k & Hk & E). apply Z.eqb_neq in E.
    assert (2 ^ 64 <= bval v) as Hbig.
    { destruct (Z.le_gt_cases (2 ^ 64) (bval v)) as [|Hlt]; [assumption|]. exfalso. apply E.
      apply Z.bits_inj'. intros n Hn'. rewrite Z.bits_0.
      destruct (Z.ltb_spec n 64).
      - rewrite bval_testbit_at by (assumption || lia).
        apply (is_u_testbit 64); [lia | unfold is_u; lia | lia].
      - apply word_testbit_high; [assumption | lia..]. }
    lia.
Qed.

Lemma shift_unknown (f : Z -> outcome (FourState W)) amount :
  FS.isFullyKnown amount = false ->
  noexcept (if negb (FS.isFullyKnown amount) then FS.unknown (bits_of_word W 0)
            else f (FS.boundedShift (W:=W) amount)) = Ret (fs_x (bits_of_word W 0)).
Proof using HW. intros ->. cbn [negb]. rewrite (proj1 (unknown_ok _ zero_wf)). reflexivity. Qed.

Lemma fs_shl_spec x amount :
  W < 2 ^ 32 -> fs_wf x -> fs_wf amount ->
  returns (FS.fs_shl x amount) (fun n =>
    if FS.isFullyKnown amount then
      (if n <? bval (value_ amount) then V0 else lane x (n - bval (value_ amount)))
    else VX).
Proof using HW HA.
  intros H32 Hx Ha. unfold FS.fs_shl. destruct (FS.isFullyKnown amount); cbn [negb].
  2:{ exists (fs_x (bits_of_word W 0)). rewrite (proj1 (unknown_ok _ zero_wf)).
      split; [reflexivity|]. split; [apply unknown_ok, zero_wf|]. intros. apply lane_fs_x. }
  cbv zeta. rewrite boundedShift_spec by assumption. set (k := bval (value_ amount)).
  assert (Hk : 0 <= k) by (apply (bval_range (value_ amount)); wf). pose proof (W_pos (W:=W)).
  apply returns_make; [wf..|]. intros n Hn. unfold lane. cbn [value_ knownMask_ zMask_].
  rewrite bits_or_tb, bits_not_tb, !shl_tb by wf_side.
  destruct (Z.ltb_spec n k).
  - rewrite !(Z.testbit_neg_r _ (n - Z.min k W)) by lia. split; reflexivity.
  - replace (Z.min k W) with k by lia. rewrite ones_tb by lia. cbn [negb]. rewrite orb_false_r.
    split; [|reflexivity]. apply fs_wf_disjoint; [exact Hx | lia].
Qed.

Lemma fs_lshr_spec x amount :
  W < 2 ^ 32 -> fs_wf x -> fs_wf amount ->
  returns (FS.fs_lshr x amount) (fun n =>
    if FS.isFullyKnown amount then
      (if n + bval (value_ amount) <? W then lane x (n + bval (value_ amount)) else V0)
    else VX).
Proof using HW HA.
  intros H32 Hx Ha. unfold FS.fs_lshr. destruct (FS.isFullyKnown amount); cbn [negb].
  2:{ exists (fs_x (bits_of_word W 0)). rewrite (proj1 (unknown_ok _ zero_wf)).
      split; [reflexivity|]. split; [apply unknown_ok, zero_wf|]. intros. apply lane_fs_x. }
  cbv zeta. rewrite boundedShift_spec by assumption. set (k := bval (value_ amount)).
  assert (Hk : 0 <= k) by (apply (bval_range (value_ amount)); wf). pose proof (W_pos (W:=W)).
  apply returns_make; [wf..|]. intros n Hn. unfold lane. cbn [value_ knownMask_ zMask_].
  rewrite bits_or_tb, bits_not_tb, !lshr_tb by wf_side.
  destruct (Z.ltb_spec (n + k) W).
  - replace (Z.min k W) with k by lia. rewrite ones_tb by lia. cbn [negb]. rewrite orb_false_r.
    split; [|reflexivity]. apply fs_wf_disjoint; [exact Hx | lia].
  - rewrite !bval_testbit_high by wf_side. split; reflexivity.
Qed.

Lemma fs_ashr_spec x amount :
  W < 2 ^ 32 -> fs_wf x -> fs_wf amount ->
  returns (FS.fs_ashr x amount) (fun n =>
    if FS.isFullyKnown amount then lane x (Z.min (n + bval (value_ amount)) (W - 1)) else VX).
Proof using HW HA.
  intros H32 Hx Ha. unfold FS.fs_ashr. destruct (FS.isFullyKnown amount); cbn [negb].
  2:{ exists (fs_x (bits_of_word W 0)). rewrite (proj1 (unknown_ok _ zero_wf)).
      split; [reflexivity|]. split; [apply unknown_ok, zero_wf|]. intros. apply lane_fs_x. }
  cbv zeta. rewrite boundedShift_spec by assumption. set (k := bval (value_ amount)).
  assert (Hk : 0 <= k) by (apply (bval_range (value_ amount)); wf). pose proof (W_pos (W:=W)).
  apply returns_make; [wf..|]. intros n Hn.
  assert (Hs : forall v : Bits W, bits_wf v ->
    Z.testbit (bval (ashr v (Z.min k W))) n = Z.testbit (bval v) (Z.min (n + k) (W - 1))).
  { intros v Hv. rewrite ashr_testbit, sval_testbit by (assumption || lia).
    destruct (Z.ltb_spec n W); [cbn [andb]|lia].
    destruct (Z.ltb_spec (n + Z.min k W) W); f_equal; lia. }
  unfold lane. cbn [value_ knownMask_ zMask_]. rewrite !Hs by wf_side.
  split; [|reflexivity]. apply fs_wf_disjoint; [exact Hx | lia].
Qed.
End ConcatShift.

(** ** Field assignment *)

Section AssignSlice.
Context {W N : Z} `{HW : PosWidth W} `{HN : PosWidth N}.

(** The bits gathered from the source for one destination word. *)
Lemma slice_word_testbit (input : Bits N) p c r :
  bits_wf input -> 0 <= p -> 1 <= c <= 64 -> 0 <= r < c ->
  let so := p mod 64 in
  let w := u64_shr (word input (p / 64)) so in
  let w := if negb (so =? 0) && (64 <? so + c)
           then Z.lor w (u64_shl (word input (p / 64 + 1)) (64 - so)) else w in
  Z.testbit w r = Z.testbit (bval input) (p + r).
Proof using HN.
  intros Hi Hp Hc Hr so w w'. unfold w', w, so, u64_shr, u64_shl. clear w' w so.
  assert (0 <= p / 64) by (apply Z.div_pos; lia). split_index p q s Ep Hs.
  destruct (negb (s =? 0) && (64 <? s + c)) eqn:E.
  - rewrite Z.lor_spec, Z.shiftr_spec, u64_testbit, Z.shiftl_spec by lia.
    destruct (Z.ltb_spec r 64); [|lia]. cbn [andb]. destruct (Z.ltb_spec (r + s) 64).
    + rewrite (Z.testbit_neg_r (word input (q + 1))) by lia. rewrite orb_false_r.
      rewrite bval_testbit_at by (assumption || lia). f_equal. lia.
    + rewrite word_testbit_high by (assumption || lia). cbn [orb].
      rewrite bval_testbit_at by (assumption || lia). f_equal. lia.
  - rewrite Z.shiftr_spec by lia. destruct (Z.ltb_spec (r + s) 64).
    + rewrite bval_testbit_at by (assumption || lia). f_equal. lia.
    + exfalso. lia.
Qed.

Lemma bits_ones_count c :
  1 <= c <= 64 -> (if c =? 64 then u64_not 0 else u64_sub (u64_shl 1 c) 1) = Z.ones c.
Proof using.
  intros Hc. destruct (Z.eqb_spec c 64) as [->|]; [reflexivity|].
  unfold u64_sub, u64_shl. rewrite Z.shiftl_1_l.
  assert (1 <= 2 ^ c < 2 ^ 64).
  { split; [apply (Z.pow_le_mono_r 2 0); lia | apply Z.pow_lt_mono_r; lia]. }
  rewrite (u64_id (2 ^ c)) by (unfold is_u; lia). rewrite u64_id by (unfold is_u; lia).
  rewrite Z.ones_equiv. lia.
Qed.

(** One chunk of the copy. *)
Lemma slice_update_spec (t : Bits W) (input : Bits N) p c low :
  bits_wf t -> bits_wf input -> 0 <= p -> 0 <= low -> 1 <= c <= 64 - (low + p) mod 64 ->
  low + p + c <= W ->
  let r := FS.slice_update t input p c ((low + p) / 64) ((low + p) mod 64)
             (Z.ones c) (u64_shl (Z.ones c) ((low + p) mod 64)) in
  bits_wf r /\ forall n, 0 <= n < W ->
    Z.testbit (bval r) n =
    if (low + p <=? n) && (n <? low + p + c) then Z.testbit (bval input) (n - low)
    else Z.testbit (bval t) n.
Proof using HW HN.
  intros Ht Hi Hp Hl Hc Hle r. unfold r, FS.slice_update. clear r. cbv zeta.
  pose proof (Z.mod_pos_bound (low + p) 64 ltac:(lia)) as Hm64.
  set (w := if negb _ && _ then _ else _).
  assert (Hw : forall b, 0 <= b < c -> Z.testbit w b = Z.testbit (bval input) (p + b)).
  { intros b Hb. unfold w. apply (slice_word_testbit input p c b); (assumption || lia). }
  clearbody w. pose proof (kWords_bounds (W:=W)) as Hk.
  pose proof (word_index (W:=W) (low + p) ltac:(lia)) as Hdw.
  split_index (low + p) dw dof Ed Hdof.
  set (nw := Z.lor _ _).
  assert (Hnw : is_u 64 nw).
  { unfold nw. apply is_u_lor; [lia | | apply u64_range].
    apply is_u_land; [lia | apply word_range; [assumption | lia] | apply u64_range]. }
  assert (Tnw : forall b, 0 <= b < 64 -> Z.testbit nw b =
            if (dof <=? b) && (b <? dof + c) then Z.testbit (bval input) (p + (b - dof))
            else Z.testbit (word t dw) b).
  { intros b Hb. unfold nw, u64_not, u64_shl.
    rewrite Z.lor_spec, Z.land_spec, !u64_testbit, Z.lnot_spec, u64_testbit, !Z.shiftl_spec by lia.
    destruct (Z.ltb_spec b 64); [cbn [andb] | lia].
    destruct (Z.leb_spec dof b); cbn [andb].
    - rewrite ones_testbit by lia. destruct (Z.ltb_spec b (dof + c)).
      + destruct (Z.ltb_spec (b - dof) c); [|lia]. cbn [negb]. rewrite andb_false_r. cbn [orb].
        rewrite Z.land_spec, Hw, ones_testbit by lia.
        destruct (Z.ltb_spec (b - dof) c); [apply andb_true_r | lia].
      + destruct (Z.ltb_spec (b - dof) c); [lia|]. cbn [negb]. rewrite andb_true_r.
        rewrite Z.land_spec, ones_testbit by lia.
        destruct (Z.ltb_spec (b - dof) c); [lia|]. rewrite andb_false_r. apply orb_false_r.
    - rewrite !(Z.testbit_neg_r _ (b - dof)) by lia. cbn [negb]. rewrite andb_true_r. apply orb_false_r. }
  split; [apply setWord_wf; assumption|].
  intros n Hn. rewrite setWord_testbit by assumption.
  split_index n q b En Hb.
  destruct (Z.eqb_spec q dw) as [->|].
  - rewrite Tnw by lia.
    replace (low + p <=? n) with (dof <=? b) by lia. replace (n <? low + p + c) with (b <? dof + c) by lia.
    destruct ((dof <=? b) && (b <? dof + c)); [f_equal; lia|].
    rewrite bval_testbit_at by (assumption || lia). f_equal. lia.
  - replace ((low + p <=? n) && (n <? low + p + c)) with false; [reflexivity|].
    symmetry. apply andb_false_iff. destruct (Z.leb_spec (low + p) n); [right | left; reflexivity].
    apply Z.ltb_ge. lia.
Qed.

Lemma assign_loop_spec (source : FourState N) low fuel : forall p (x : FourState W),
  fs_wf source -> fs_wf x -> 0 <= low -> 0 <= p -> low + N <= W -> N - p <= Z.of_nat fuel ->
  let r := FS.assign_loop fuel low source p x in
  fs_wf r /\ forall n, 0 <= n < W ->
    lane r n = if (low + p <=? n) && (n <? low + N) then lane source (n - low) else lane x n.
Proof using HW HN.
  induction fuel as [|fuel IH]; intros p x Hs Hx Hl Hp Hle Hfuel; cbn [FS.assign_loop].
  - split; [exact Hx|]. intros n Hn.
    replace ((low + p <=? n) && (n <? low + N)) with false by lia. reflexivity.
  - destruct (Z.ltb_spec p N) as [Hlt|Hge].
    2:{ split; [exact Hx|]. intros n Hn.
        replace ((low + p <=? n) && (n <? low + N)) with false by lia. reflexivity. }
    set (c := if 64 - (low + p) mod 64 <? N - p then 64 - (low + p) mod 64 else N - p).
    pose proof (Z.mod_pos_bound (low + p) 64 ltac:(lia)) as Hm.
    assert (Hc : 1 <= c <= 64 - (low + p) mod 64 /\ c <= N - p).
    { unfold c. destruct (Z.ltb_spec (64 - (low + p) mod 64) (N - p)); lia. }
    rewrite bits_ones_count by lia.
    assert (Hup : forall (t : Bits W) (i : Bits N), bits_wf t -> bits_wf i ->
      bits_wf (FS.slice_update t i p c ((low + p) / 64) ((low + p) mod 64)
                 (Z.ones c) (u64_shl (Z.ones c) ((low + p) mod 64))) /\
      forall n, 0 <= n < W ->
        Z.testbit (bval (FS.slice_update t i p c ((low + p) / 64) ((low + p) mod 64)
                 (Z.ones c) (u64_shl (Z.ones c) ((low + p) mod 64)))) n =
        if (low + p <=? n) && (n <? low + p + c) then Z.testbit (bval i) (n - low)
        else Z.testbit (bval t) n).
    { intros t i Ht Hi. apply slice_update_spec; (assumption || lia). }
    destruct (Hup (value_ x) (value_ source)) as [Wv Tv]; [wf..|].
    destruct (Hup (knownMask_ x) (knownMask_ source)) as [Wk Tk]; [wf..|].
    destruct (Hup (zMask_ x) (zMask_ source)) as [Wz Tz]; [wf..|].
    set (v' := FS.slice_update (value_ x) _ _ _ _ _ _ _) in *.
    set (k' := FS.slice_update (knownMask_ x) _ _ _ _ _ _ _) in *.
    set (z' := FS.slice_update (zMask_ x) _ _ _ _ _ _ _) in *. clearbody v' k' z'.
    assert (Hx' : fs_wf (mkFS v' k' z')).
    { split; [exact Wv|]. split; [exact Wk|]. split; [exact Wz|]. cbn [knownMask_ zMask_].
      intros n Hn. rewrite Tk, Tz by exact Hn.
      destruct ((low + p <=? n) && (n <? low + p + c)) eqn:E;
        apply fs_wf_disjoint; (assumption || lia). }
    destruct (IH (p + c) (mkFS v' k' z') Hs Hx') as [Hr Lr]; [lia..|].
    split; [exact Hr|]. intros n Hn. rewrite Lr by exact Hn.
    unfold lane at 2. cbn [value_ knownMask_ zMask_]. rewrite Tv, Tk, Tz by exact Hn.
    destruct ((low + (p + c) <=? n) && (n <? low + N)) eqn:E1,
             ((low + p <=? n) && (n <? low + p + c)) eqn:E2,
             ((low + p <=? n) && (n <? low + N)) eqn:E3; try reflexivity; exfalso; lia.
Qed.

(** [assignSlice] replaces exactly the addressed lanes and keeps the
    invariant; an out-of-range position changes nothing. *)
Lemma assignSlice_spec (x : FourState W) (source : FourState N) low :
  fs_wf x -> fs_wf source -> 0 <= low -> N <= W ->
  let r := FS.assignSlice x low source in
  fs_wf r /\ forall n, 0 <= n < W ->
    lane r n = if (low + N <=? W) && (low <=? n) && (n <? low + N)
               then lane source (n - low) else lane x n.
Proof using HW HN.
  intros Hx Hs Hl HNW r. unfold r, FS.assignSlice.
  destruct (Z.ltb_spec (W - N) low).
  - split; [exact Hx|]. intros n Hn. destruct (Z.leb_spec (low + N) W); [lia | reflexivity].
  - pose proof (W_pos (W:=N)).
    destruct (assign_loop_spec source low (Z.to_nat N) 0 x Hs Hx) as [Hr Lr]; [lia..|].
    split; [exact Hr|]. intros n Hn. rewrite Lr by exact Hn. rewrite Z.add_0_r.
    destruct (Z.leb_spec (low + N) W); [reflexivity | lia].
Qed.
End AssignSlice.
