(* ===== verification/FourStateTheorems.v ===== *)
(** * The four-state operators against the four-valued logic

    Every operator of [four_state.h] returns a value that satisfies the class
    invariant, and computes the logic of Verilog on each lane. *)

From Stdlib Require Import ZArith Lia String.
From stdpp Require Import base list numbers.
From S2P Require Import Prelude Bits BitsLogic BitsShift BitsArith FourState FourStateSpec.

(** [~], [&], [|] and [^] are the IEEE 1364 truth tables on every lane,
    with Z counted as X; in particular a known zero absorbs in [&] and a
    known one in [|].  The constructor check inside never fires. *)
Theorem four_state_logic {W} `{HW : PosWidth W} (x y : FourState W) :
  fs_wf x -> fs_wf y ->
  returns (FS.bit_not x) (fun n => not4 (lane x n)) /\
  returns (FS.bit_and x y) (fun n => and4 (lane x n) (lane y n)) /\
  returns (FS.bit_or x y) (fun n => or4 (lane x n) (lane y n)) /\
  returns (FS.bit_xor x y) (fun n => xor4 (lane x n) (lane y n)).
Proof. intros Hx Hy. auto using bit_not_spec, bit_and_spec, bit_or_spec, bit_xor_spec. Qed.

(** Arithmetic is pessimistic.  With both operands fully known the result
    is the known value of the two-state operator; with any unknown bit, or a
    zero divisor, every bit of the result is X. *)
Theorem four_state_arithmetic {W} `{HW : PosWidth W} (x y : FourState W) :
  fs_wf x -> fs_wf y ->
  let pessimistic (ok : bool) r := if both_known x y && ok then fs_of r else fs_x (bits_of_word W 0) in
  let divides := negb (bits_eq (value_ y) (bits_of_word W 0)) in
  FS.add x y = Ret (pessimistic true (bits_add (value_ x) (value_ y))) /\
  FS.sub x y = Ret (pessimistic true (bits_sub (value_ x) (value_ y))) /\
  FS.mul x y = Ret (pessimistic true (bits_mul (value_ x) (value_ y))) /\
  FS.fs_udiv x y = Ret (pessimistic divides (udiv (value_ x) (value_ y))) /\
  FS.fs_urem x y = Ret (pessimistic divides (urem (value_ x) (value_ y))).
Proof.
  intros Hx Hy. cbn zeta.
  rewrite fs_add_spec, fs_sub_spec, fs_mul_spec, fs_udiv_spec, fs_urem_spec by assumption. auto.
Qed.

(** Comparison.  Case equality is two-valued and compares all four
    levels of every lane.  Equality is zero as soon as one lane differs on
    known bits, X when none does but some bit is unknown, and one otherwise.
    The orders are X when any bit is unknown and otherwise those of the
    unsigned or signed values. *)
Theorem four_state_compare {W} `{HW : PosWidth W} (x y : FourState W) :
  fs_wf x -> fs_wf y ->
  let ordered b := Ret (if both_known x y then fs_bool b else fs_x (bits_of_word 1 0)) in
  let u := fun v : FourState W => bval (value_ v) in
  let s := fun v : FourState W => sval (value_ v) in
  (FS.compare CASE_EQ x y = Ret (fs_bool true) <-> forall n, 0 <= n < W -> lane x n = lane y n) /\
  ((exists n, 0 <= n < W /\ differ x y n = true) ->
   FS.compare EQ x y = Ret (fs_bool false) /\ FS.compare NE x y = Ret (fs_bool true)) /\
  ((forall n, 0 <= n < W -> differ x y n = false) ->
   FS.compare EQ x y = ordered true /\ FS.compare NE x y = ordered false) /\
  FS.compare ULT x y = ordered (u x <? u y) /\ FS.compare ULE x y = ordered (u x <=? u y) /\
  FS.compare UGT x y = ordered (u y <? u x) /\ FS.compare UGE x y = ordered (u y <=? u x) /\
  FS.compare SLT x y = ordered (s x <? s y) /\ FS.compare SLE x y = ordered (s x <=? s y) /\
  FS.compare SGT x y = ordered (s y <? s x) /\ FS.compare SGE x y = ordered (s y <=? s x).
Proof.
  intros Hx Hy. cbn zeta. rewrite !compare_spec by assumption. rewrite <- parityEquivalent_spec by assumption.
  assert (Hv : forall b c : bool, fs_of_V4 (if b then of_bool c else VX) = if b then fs_bool c else fs_x (bits_of_word 1 0))
    by (intros [] c; [apply fs_of_V4_bool | reflexivity]).
  rewrite !Hv. pose proof (difference_spec x y Hx Hy) as Hd. unfold eq4.
  split; [rewrite fs_of_V4_bool; destruct (FS.parityEquivalent x y); split; intros H; try reflexivity; discriminate|].
  split; [intros H; rewrite (proj2 Hd H); auto|]. split; [|auto 10].
  intros H. destruct (bits_ne _ _) eqn:E; [|destruct (both_known x y); auto].
  destruct (proj1 Hd eq_refl) as (n & Hn & Hdn). rewrite H in Hdn by exact Hn. discriminate.
Qed.

(** A conditional with a known condition picks that side; with an unknown
    condition the lanes on which the two sides agree survive and the others
    are X. *)
Theorem four_state_select {W} `{HW : PosWidth W} (c : FourState 1) (x y : FourState W) :
  fs_wf c -> fs_wf x -> fs_wf y ->
  returns (FS.select c x y) (fun n =>
    match lane c 0 with V1 => lane x n | V0 => lane y n | _ => merge4 (lane x n) (lane y n) end).
Proof. intros Hc Hx Hy. apply select_spec; assumption. Qed.

(** Width changes move lanes and invent none: zero extension adds known
    zeros, truncation and extraction select, concatenation joins, and sign
    extension repeats the top lane when the operand's width is not a multiple
    of the word size.  An extraction out of range is all X. *)
Theorem four_state_width_changes {In Out} `{HI : PosWidth In} `{HO : PosWidth Out} (x : FourState In)
    (y : FourState Out) low :
  fs_wf x -> fs_wf y -> 0 <= low ->
  (In <= Out -> returns (FS.zero_extend Out x) (fun n => if n <? In then lane x n else V0)) /\
  (Out <= In -> returns (FS.truncate Out x) (fun n => lane x n)) /\
  (In <= Out -> In mod 64 <> 0 -> returns (FS.sign_extend Out x) (fun n => lane x (Z.min n (In - 1)))) /\
  (if Out + low <=? In then returns (FS.fs_extract Out x low) (fun n => lane x (n + low))
   else FS.fs_extract Out x low = Ret (fs_x (bits_of_word Out 0))) /\
  returns (FS.fs_concat x y) (fun n => if n <? Out then lane y n else lane x (n - Out)).
Proof.
  intros Hx Hy Hl. split; [|split; [|split; [|split]]].
  - intros H. apply zero_extend_spec; assumption.
  - intros H. apply truncate_spec; assumption.
  - intros H1 H2. apply sign_extend_spec; assumption.
  - destruct (Z.leb_spec (Out + low) In); [apply fs_extract_spec; assumption | apply fs_extract_invalid; lia].
  - apply fs_concat_spec; assumption.
Qed.

(** Shifts by a four-state amount move lanes, fill with zeros or with the
    top lane, saturate at any amount above the width, and give X on every
    lane when the amount is not known. *)
Theorem four_state_shifts {W A} `{HW : PosWidth W} `{HA : PosWidth A} (x : FourState W) (amount : FourState A) :
  W < 2 ^ 32 -> fs_wf x -> fs_wf amount ->
  let k := bval (value_ amount) in
  let known v := if FS.isFullyKnown amount then v else VX in
  returns (FS.fs_shl x amount) (fun n => known (if n <? k then V0 else lane x (n - k))) /\
  returns (FS.fs_lshr x amount) (fun n => known (if n + k <? W then lane x (n + k) else V0)) /\
  returns (FS.fs_ashr x amount) (fun n => known (lane x (Z.min (n + k) (W - 1)))).
Proof.
  intros HW32 Hx Ha. cbn zeta.
  split; [apply fs_shl_spec | split; [apply fs_lshr_spec | apply fs_ashr_spec]]; assumption.
Qed.

(** [assignSlice] replaces exactly the addressed lanes, across word
    boundaries, keeps the invariant, and does nothing when the slice does not
    fit. *)
Theorem four_state_assign_slice {W N} `{HW : PosWidth W} `{HN : PosWidth N} (x : FourState W) (source : FourState N) low :
  fs_wf x -> fs_wf source -> 0 <= low -> N <= W ->
  let r := FS.assignSlice x low source in
  fs_wf r /\ forall n, 0 <= n < W ->
    lane r n = if (low + N <=? W) && (low <=? n) && (n <? low + N) then lane source (n - low) else lane x n.
Proof. intros Hx Hs Hl HNW. apply assignSlice_spec; assumption. Qed.

(** A well-formed 64-bit value: bit 63 known, bit 0 high impedance. *)
Definition z_and_known : FourState 64 := mkFS (bits_of_word 64 0) (bits_of_word 64 (2 ^ 63)) (bits_of_word 64 1).

(** Sign extension from a whole number of words can end the process.  The
    two-state defect smears the known plane over the sign word, where it
    collides with the Z plane; the constructor check throws inside a
    [noexcept] function. *)
Theorem four_state_sign_extend_terminates :
  fs_wf z_and_known /\ FS.sign_extend 128 z_and_known = Terminate.
Proof. split; [apply fs_wfb_sound; vm_compute; reflexivity | vm_compute; reflexivity]. Qed.

Module FourStateWitness.
Definition x : FourState 70 := mkFS (bits_of_list 70 [5; 2]) (bits_of_list 70 [7; 6]) (bits_of_list 70 [8; 1]).
Definition y : FourState 70 := fs_of (bits_of_list 70 [2 ^ 64 - 2; 33]).
Lemma x_wf : fs_wf x.
Proof. apply fs_wfb_sound. vm_compute. reflexivity. Qed.
Lemma y_wf : fs_wf y.
Proof. apply fs_wfb_sound. vm_compute. reflexivity. Qed.
Definition c : FourState 1 := fs_x (bits_of_word 1 0).
Lemma cond_wf : fs_wf c.
Proof. apply fs_wfb_sound. vm_compute. reflexivity. Qed.
Definition amount : FourState 8 := fs_of (bits_of_word 8 66).
Lemma amount_wf : fs_wf amount.
Proof. apply fs_wfb_sound. vm_compute. reflexivity. Qed.

Lemma four_state_logic_witness : returns (FS.bit_and x y) (fun n => and4 (lane x n) (lane y n)).
Proof. exact (proj1 (proj2 (four_state_logic x y x_wf y_wf))). Defined.

Lemma four_state_arithmetic_witness :
  FS.add x y = Ret (fs_x (bits_of_word 70 0)) /\ FS.add y y = Ret (fs_of (bits_add (value_ y) (value_ y))).
Proof. exact (conj (proj1 (four_state_arithmetic x y x_wf y_wf)) (proj1 (four_state_arithmetic y y y_wf y_wf))). Defined.

Lemma four_state_compare_witness : FS.compare CASE_EQ x x = Ret (fs_bool true).
Proof. apply (proj1 (four_state_compare x x x_wf x_wf)). intros n _. reflexivity. Defined.

Lemma four_state_select_witness :
  returns (FS.select c x y) (fun n => merge4 (lane x n) (lane y n)).
Proof. exact (four_state_select c x y cond_wf x_wf y_wf). Defined.

Lemma four_state_width_changes_witness :
  returns (FS.sign_extend 70 amount) (fun n => lane amount (Z.min n 7)).
Proof.
  destruct (four_state_width_changes amount x 0 amount_wf x_wf ltac:(lia)) as (_ & _ & H & _).
  apply H; [lia | discriminate].
Defined.

Lemma four_state_shifts_witness :
  returns (FS.fs_lshr x amount) (fun n => if n + 66 <? 70 then lane x (n + 66) else V0).
Proof. exact (proj1 (proj2 (four_state_shifts x amount ltac:(lia) x_wf amount_wf))). Defined.

Lemma four_state_assign_slice_witness : fs_wf (FS.assignSlice x 60 amount) /\ lane (FS.assignSlice x 60 amount) 66 = V1.
Proof.
  destruct (four_state_assign_slice x amount 60 x_wf amount_wf ltac:(lia) ltac:(lia)) as [H1 H2].
  exact (conj H1 (H2 66 ltac:(lia))).
Defined.
End FourStateWitness.
