(* ===== verification/Wire.v ===== *)
(** * Wire: packed payloads and signals of [include/gfsim/wire.h]

    [hardware_traits<T>] is the class [HardwareTraits]: a finite width with a
    packing and an unpacking function.  The specialisations of the header
    ([Bits], [table], [hardware_struct_traits]) are its instances.
    [wire<T>] is the class [Wire] with a scalar instance (one four-state value)
    and a table instance (one scalar signal per element). *)

From Stdlib Require Import ZArith Lia.
From stdpp Require Import base list numbers.
From S2P Require Import Prelude Bits FourState.

(** ** hardware_traits *)

Class HardwareTraits (T : Type) := {
  hw_width : Z;
  hw_pack : T -> Bits hw_width;
  hw_unpack : Bits hw_width -> T;
}.
Arguments hw_width T {_}.

#[export] Instance bits_traits (Width : Z) : HardwareTraits (Bits Width) := {
  hw_width := Width;
  hw_pack v := v;
  hw_unpack v := v;
}.

(** ** Static table descriptors

    A payload type is a scalar leaf or a table of payloads with its extents. *)
Inductive payload :=
| Leaf
| Table (element : payload) (extents : list Z).

Definition i64_max : Z := 2 ^ 63 - 1.

Module table_payload.
Fixpoint rank (p : payload) : Z :=
  match p with
  | Leaf => 0
  | Table element extents => Z.of_nat (length extents) + rank element
  end.

Fixpoint shape (p : payload) : list Z :=
  match p with
  | Leaf => []
  | Table element extents => extents ++ shape element
  end.

(** The counting loop; [0] reports an empty extent or an overflow of the
    positive signed 64-bit range. *)
Fixpoint count_extents (count : Z) (extents : list Z) : Z :=
  match extents with
  | [] => count
  | extent :: rest =>
    if (extent =? 0) || (i64_max / extent <? count) then 0
    else count_extents (u64_mul count extent) rest
  end.

Fixpoint size (p : payload) : Z :=
  match p with
  | Leaf => 1
  | Table element extents => count_extents (size element) extents
  end.
End table_payload.

(** The storage of [table<T, Extents...>] with [size] leaf elements. *)
Record table (T : Type) (size : Z) := mkTable { elements : list T }.
Arguments mkTable {T size} elements.
Arguments elements {T size} _.

(** The row-major accumulation loop shared by the table packers:
    element [ordinal] lands at [(size - 1 - ordinal) * width]. *)
Definition lane_offset (size width ordinal : Z) : Z := wrapu 32 ((size - 1 - ordinal) * width).

Definition pack_lanes {E : Z} (W size : Z) (lane : Z -> Bits E) : Bits W :=
  for_range (Z.to_nat size) 0
    (fun ordinal result =>
       bits_or result (shl (zext W (lane ordinal)) (lane_offset size E ordinal)))
    (bits_default W).

Section TableTraits.
Context {T : Type} `{HT : HardwareTraits T} `{IT : Inhabited T} (size : Z).

Definition table_width : Z := size * hw_width T.

Definition table_pack (value : table T size) : Bits table_width :=
  pack_lanes table_width size (fun ordinal => hw_pack (elements value).[ordinal]).

Definition table_unpack (value : Bits table_width) : table T size :=
  mkTable (for_range (Z.to_nat size) 0
    (fun ordinal result =>
       result.[ordinal :=
         hw_unpack (extract (hw_width T) value (lane_offset size (hw_width T) ordinal))])
    (replicate (Z.to_nat size) inhabitant)).

#[export] Instance table_traits : HardwareTraits (table T size) := {
  hw_width := table_width;
  hw_pack := table_pack;
  hw_unpack := table_unpack;
}.
End TableTraits.

(** ** hardware_struct_traits

    A data-member pointer of [T]: the field type with its own layout, the
    read [value.*Member] and the assignment [result.*Member = x]. *)
Record member (T : Type) := Member {
  field_type : Type;
  field_traits : HardwareTraits field_type;
  field_get : T -> field_type;
  field_set : field_type -> T -> T;
}.
Arguments Member {T field_type field_traits} field_get field_set.
Arguments field_type {T} _.
Arguments field_traits {T} _.
Arguments field_get {T} _ _.
Arguments field_set {T} _ _ _.
#[export] Existing Instance field_traits.

Section StructTraits.
Context {T : Type} (members : list (member T)) (T_default : T).

Definition totalWidth (ms : list (member T)) : Z :=
  foldr (fun m acc => hw_width (field_type m) + acc) 0 ms.

Definition struct_width : Z := totalWidth members.

Definition packField (value : T) (st : Bits struct_width * Z) (m : member T)
  : Bits struct_width * Z :=
  let '(result, offset) := st in
  let offset := offset - hw_width (field_type m) in
  (bits_or result (shl (zext struct_width (hw_pack (field_get m value))) offset), offset).

Definition struct_pack (value : T) : Bits struct_width :=
  fst (foldl (packField value) (bits_default struct_width, struct_width) members).

Definition unpackField (value : Bits struct_width) (st : T * Z) (m : member T) : T * Z :=
  let '(result, offset) := st in
  let offset := offset - hw_width (field_type m) in
  (field_set m (hw_unpack (extract (hw_width (field_type m)) value offset)) result, offset).

Definition struct_unpack (value : Bits struct_width) : T :=
  fst (foldl (unpackField value) (T_default, struct_width) members).

Definition hardware_struct_traits : HardwareTraits T := {|
  hw_width := struct_width;
  hw_pack := struct_pack;
  hw_unpack := struct_unpack;
|}.
End StructTraits.

(** ** wire

    The operations of [wire<T>].  [noexcept] functions that build a four-state
    value return an [outcome]. *)
Class Wire (T : Type) `{HT : HardwareTraits T} := {
  wire : Type;
  wire_unknown : outcome wire;
  wire_known : T -> outcome wire;
  fromPacked : FourState (hw_width T) -> outcome wire;
  packed : wire -> outcome (FourState (hw_width T));
  wire_isFullyKnown : wire -> bool;
  wire_value : wire -> T;
}.
Arguments wire T {_ _}.
Arguments wire_unknown T {_ _}.

Section ScalarWire.
Context {T : Type} `{HT : HardwareTraits T}.

(** The member initialiser [packed_ = packed_type::unknown()]. *)
Definition scalar_unknown : outcome (FourState (hw_width T)) :=
  noexcept (FS.unknown (bits_of_word (hw_width T) 0)).
Definition scalar_known (v : T) : outcome (FourState (hw_width T)) :=
  noexcept (FS.known (hw_pack v)).
Definition scalar_value (w : FourState (hw_width T)) : T := hw_unpack (value_ w).
Definition scalar_assignSlice {N} (w : FourState (hw_width T)) (low : Z) (v : FourState N)
  : FourState (hw_width T) := FS.assignSlice w low v.

Instance scalar_wire : Wire T := {
  wire := FourState (hw_width T);
  wire_unknown := scalar_unknown;
  wire_known := scalar_known;
  fromPacked := Ret;
  packed := Ret;
  wire_isFullyKnown := FS.isFullyKnown;
  wire_value := scalar_value;
}.
End ScalarWire.

(** [wire<Bits<W>>], the type of every control and address pin. *)
#[export] Instance bits_wire (W : Z) : Wire (Bits W) := scalar_wire.

Section TableWire.
Context {T : Type} `{HT : HardwareTraits T} `{IT : Inhabited T} (size : Z).

#[local] Abbreviation E := (hw_width T).
#[local] Abbreviation TW := (table_width (T:=T) size).

Definition fs_default (W : Z) : FourState W :=
  mkFS (bits_of_word W 0) (bits_of_word W 0) (bits_of_word W 0).
#[local] Instance fs_inhabited W : Inhabited (FourState W) := populate (fs_default W).

(** [std::array<wire<element_type>, size> elements_{}] *)
Definition twire_default : outcome (list (FourState E)) :=
  u <- scalar_unknown (T:=T) ;; Ret (replicate (Z.to_nat size) u).

Definition twire_known (v : table T size) : outcome (list (FourState E)) :=
  noexcept
    (result <- twire_default ;;
     ofor_range (Z.to_nat size) 0
       (fun i result => w <- scalar_known (elements v).[i] ;; Ret (result.[i := w])) result).

Definition twire_fromPacked (v : FourState TW) : outcome (list (FourState E)) :=
  noexcept
    (result <- twire_default ;;
     ofor_range (Z.to_nat size) 0
       (fun i result =>
          w <- FS.fs_extract E v (lane_offset size E i) ;; Ret (result.[i := w])) result).

Definition twire_isFullyKnown (w : list (FourState E)) : bool :=
  all_range (Z.to_nat size) 0 (fun i => FS.isFullyKnown w.[i]).

Definition twire_value (w : list (FourState E)) : table T size :=
  mkTable (for_range (Z.to_nat size) 0
    (fun i result => result.[i := scalar_value w.[i]])
    (replicate (Z.to_nat size) inhabitant)).

Definition twire_packed (w : list (FourState E)) : outcome (FourState TW) :=
  let '(values, known, z) :=
    for_range (Z.to_nat size) 0
      (fun i '(values, known, z) =>
         let lane := w.[i] in
         let offset := lane_offset size E i in
         (bits_or values (shl (zext TW (value_ lane)) offset),
          bits_or known (shl (zext TW (knownMask_ lane)) offset),
          bits_or z (shl (zext TW (zMask_ lane)) offset)))
      (bits_default TW, bits_default TW, bits_default TW) in
  noexcept (FS.fromMasks values known z).

#[export] Instance table_wire : Wire (table T size) := {
  wire := list (FourState E);
  wire_unknown := twire_default;
  wire_known := twire_known;
  fromPacked := twire_fromPacked;
  packed := twire_packed;
  wire_isFullyKnown := twire_isFullyKnown;
  wire_value := twire_value;
}.
End TableWire.
