(* ===== verification/WireSpec.v ===== *)
(** * Laws of payload layouts and signals

    [HardwareLaws] states what a layout promises to its clients: packing is
    injective onto the well-formed values of the declared width and unpacking
    inverts it.  The instances of [Wire.v] (plain bits, row-major tables,
    structures) satisfy it.  [WireLaws] states what a signal promises to the
    storage kernels; the scalar and the table signal satisfy it. *)

From Stdlib Require Import ZArith Lia.
From stdpp Require Import base list numbers.
From S2P Require Import Prelude Bits BitsLogic BitsShift BitsArith FourState FourStateSpec Wire.

Class HardwareLaws (T : Type) `{HT : HardwareTraits T} := {
  hw_ok : T -> Prop;
  hw_pos :: PosWidth (hw_width T);
  hw_pack_wf : forall x, hw_ok x -> bits_wf (hw_pack x);
  hw_unpack_ok : forall b, bits_wf b -> hw_ok (hw_unpack b);
  hw_unpack_pack : forall x, hw_ok x -> hw_unpack (hw_pack x) = x;
  hw_pack_unpack : forall b, bits_wf b -> hw_pack (hw_unpack b) = b;
}.

#[export] Program Instance bits_laws (W : Z) `{HW : PosWidth W} : HardwareLaws (Bits W) := {
  hw_ok := bits_wf;
}.
Solve All Obligations with auto.

(** ** Table descriptors *)

Definition extents_product (l : list Z) : Z := foldr Z.mul 1 l.

Lemma extents_product_app l k : extents_product (l ++ k) = extents_product l * extents_product k.
Proof.
  induction l as [|e l IH]; unfold extents_product in *; cbn [app foldr]; [ring|].
  rewrite IH. ring.
Qed.

Lemma extents_product_nonneg l : Forall (fun e => 0 <= e) l -> 0 <= extents_product l.
Proof. induction 1 as [|e l He _ IH]; unfold extents_product in *; cbn [foldr]; [lia|nia]. Qed.

Lemma extents_product_ge1 l : Forall (fun e => 1 <= e) l -> 1 <= extents_product l.
Proof. induction 1 as [|e l He _ IH]; unfold extents_product in *; cbn [foldr]; [lia|nia]. Qed.

(** The counting loop computes the product, or [0] when the product is zero
    or leaves the positive signed 64-bit range. *)
Lemma count_extents_spec extents : forall count,
  0 <= count <= i64_max -> Forall (fun e => 0 <= e) extents ->
  table_payload.count_extents count extents =
  if count * extents_product extents <=? i64_max then count * extents_product extents else 0.
Proof.
  induction extents as [|e l IH]; intros count Hc Hl; cbn [table_payload.count_extents].
  - unfold extents_product. cbn [foldr]. rewrite Z.mul_1_r.
    destruct (Z.leb_spec count i64_max); [reflexivity | lia].
  - inversion Hl as [|? ? He Hl']; subst. unfold extents_product. cbn [foldr]. fold (extents_product l).
    pose proof (extents_product_nonneg l Hl') as Hp.
    destruct (Z.eqb_spec e 0) as [->|Hne]; cbn [orb].
    { rewrite Z.mul_0_l, Z.mul_0_r. reflexivity. }
    pose proof (Z.mul_div_le i64_max e ltac:(lia)) as Hd.
    pose proof (Z.mul_succ_div_gt i64_max e ltac:(lia)) as Hd'.
    destruct (Z.ltb_spec (i64_max / e) count) as [Hov|Hok].
    + destruct (Z.leb_spec (count * (e * extents_product l)) i64_max) as [Hle|]; [|reflexivity].
      assert (i64_max < count * e) by nia.
      assert (extents_product l = 0) as -> by nia. rewrite !Z.mul_0_r. reflexivity.
    + assert (Hce : 0 <= count * e <= i64_max) by nia.
      unfold u64_mul. rewrite u64_id by (unfold is_u; unfold i64_max in Hce; lia).
      rewrite IH by assumption. rewrite Z.mul_assoc. reflexivity.
Qed.

Fixpoint extents_ok (p : payload) : Prop :=
  match p with
  | Leaf => True
  | Table element extents => Forall (fun e => 0 <= e) extents /\ extents_ok element
  end.

Lemma shape_nonneg p : extents_ok p -> Forall (fun e => 0 <= e) (table_payload.shape p).
Proof.
  induction p as [|element IH extents]; cbn; [constructor|]. intros [H1 H2].
  apply Forall_app. auto.
Qed.

(** The descriptor of a nested table: rank is the length of the concatenated
    shape, size its product unless that leaves the signed 64-bit range. *)
Lemma table_rank_spec p : table_payload.rank p = Z.of_nat (length (table_payload.shape p)).
Proof.
  induction p as [|element IH extents]; cbn [table_payload.rank table_payload.shape]; [reflexivity|].
  rewrite IH, length_app. lia.
Qed.

Lemma table_size_range p : extents_ok p -> 0 <= table_payload.size p <= i64_max.
Proof.
  induction p as [|element IH extents]; cbn [table_payload.size extents_ok]; [unfold i64_max; lia|].
  intros [H1 H2]. specialize (IH H2). rewrite count_extents_spec by assumption.
  pose proof (extents_product_nonneg extents H1).
  destruct (Z.leb_spec (table_payload.size element * extents_product extents) i64_max);
    [nia | unfold i64_max; lia].
Qed.

Lemma table_size_spec p :
  extents_ok p -> Forall (fun e => 1 <= e) (table_payload.shape p) ->
  table_payload.size p =
  let n := extents_product (table_payload.shape p) in if n <=? i64_max then n else 0.
Proof.
  induction p as [|element IH extents]; cbn [table_payload.size table_payload.shape extents_ok];
    [reflexivity|].
  intros [H1 H2] Hpos. apply Forall_app in Hpos as [He Hs]. specialize (IH H2 Hs).
  pose proof (table_size_range element H2) as Hr. cbn zeta in *.
  pose proof (extents_product_ge1 _ He). pose proof (extents_product_ge1 _ Hs).
  rewrite count_extents_spec by assumption. rewrite extents_product_app, IH.
  destruct (Z.leb_spec (extents_product (table_payload.shape element)) i64_max).
  - rewrite (Z.mul_comm (extents_product extents)). reflexivity.
  - rewrite Z.mul_0_l. cbn. destruct (Z.leb_spec (extents_product extents *
      extents_product (table_payload.shape element)) i64_max); [nia | reflexivity].
Qed.

(** ** Placing one field *)

Section Put.
Context {W w : Z} `{HW : PosWidth W} `{Hw : PosWidth w}.

Definition put (r : Bits W) (x : Bits w) (offset : Z) : Bits W :=
  bits_or r (shl (zext W x) offset).

Lemma put_wf r x offset :
  bits_wf r -> bits_wf x -> 0 <= offset -> w <= W -> bits_wf (put r x offset).
Proof using HW Hw.
  intros Hr Hx Ho Hle. unfold put. apply bits_or_wf; [exact Hr|]. apply shl_wf; [|exact Ho].
  apply zext_wf; assumption.
Qed.

Lemma put_tb r x offset n :
  bits_wf r -> bits_wf x -> 0 <= offset -> w <= W -> 0 <= n < W ->
  Z.testbit (bval (put r x offset)) n =
  Z.testbit (bval r) n || Z.testbit (bval x) (n - offset).
Proof using HW Hw.
  intros Hr Hx Ho Hle Hn. unfold put.
  assert (bits_wf (zext W x)) by (apply zext_wf; assumption).
  rewrite bits_or_tb, shl_tb, zext_tb by (assumption || apply shl_wf; assumption). reflexivity.
Qed.
End Put.

(** ** Row-major lanes *)

Section Lanes.
Context {E : Z} `{HE : PosWidth E} (size : Z) (Hsize : 0 < size) (Hfit : size * E < 2 ^ 32).
#[local] Abbreviation TW := (size * E).

Lemma TW_pos : PosWidth TW.
Proof using HE Hsize. unfold PosWidth in *. nia. Qed.
#[local] Existing Instance TW_pos.

Lemma lane_offset_spec i : 0 <= i < size -> lane_offset size E i = (size - 1 - i) * E.
Proof using HE Hsize Hfit.
  intros Hi. unfold lane_offset, wrapu. apply Z.mod_small. unfold PosWidth in HE. nia.
Qed.

Lemma pack_lanes_spec (lane : Z -> Bits E) :
  (forall i, 0 <= i < size -> bits_wf (lane i)) ->
  bits_wf (pack_lanes TW size lane) /\
  forall n, 0 <= n < TW ->
    Z.testbit (bval (pack_lanes TW size lane)) n =
    Z.testbit (bval (lane (size - 1 - n / E))) (n mod E).
Proof using HE Hsize Hfit.
  intros Hl. pose proof HE as HE'. unfold PosWidth in HE'. unfold pack_lanes.
  match goal with |- context [for_range ?m ?i ?b ?s] =>
    pose proof (for_range_inv (fun k (r : Bits TW) => bits_wf r /\ forall n, 0 <= n < TW ->
      Z.testbit (bval r) n =
      if (size - k) * E <=? n then Z.testbit (bval (lane (size - 1 - n / E))) (n mod E) else false)
      m i b s) as H end.
  rewrite Z2Nat.id, Z.add_0_l in H by lia. destruct H as [Hwf Htb].
  - rewrite bits_default_zero. split; [apply zero_wf|]. intros n Hn. rewrite zero_tb.
    destruct (Z.leb_spec ((size - 0) * E) n); [lia | reflexivity].
  - intros k r Hk [Hr Hb]. rewrite lane_offset_spec by lia.
    assert (Hle : E <= TW) by nia. assert (Ho : 0 <= (size - 1 - k) * E) by nia.
    change (bits_or r (shl (zext TW (lane k)) ((size - 1 - k) * E)))
      with (put r (lane k) ((size - 1 - k) * E)).
    assert (Hk' : bits_wf (lane k)) by (apply Hl; lia).
    split; [apply put_wf; assumption|]. intros n Hn. rewrite put_tb, Hb by assumption.
    destruct (Z.leb_spec ((size - k) * E) n) as [H1|H1];
      destruct (Z.leb_spec ((size - (k + 1)) * E) n) as [H2|H2]; try nia.
    + rewrite (bval_testbit_high (lane k)) by (assumption || nia). apply orb_false_r.
    + assert (Eq : n / E = size - 1 - k) by (symmetry; apply (Z.div_unique n E _ (n - (size - 1 - k) * E)); nia).
      rewrite Zmod_eq_full, Eq by lia. cbn [orb].
      replace (size - 1 - (size - 1 - k)) with k by lia. reflexivity.
    + apply Z.testbit_neg_r. nia.
  - split; [exact Hwf|]. intros n Hn. rewrite Htb by exact Hn.
    destruct (Z.leb_spec ((size - size) * E) n); [reflexivity | lia].
Qed.

(** The addressed field of a packed table is the element. *)
Lemma lane_bit i n : 0 <= i < size -> 0 <= n < E ->
  0 <= n + lane_offset size E i < TW /\
  size - 1 - (n + lane_offset size E i) / E = i /\ (n + lane_offset size E i) mod E = n.
Proof using HE Hsize Hfit.
  intros Hi Hn. rewrite lane_offset_spec by exact Hi. unfold PosWidth in HE.
  rewrite Z.div_add, Z.mod_add, Z.div_small, Z.mod_small by lia. nia.
Qed.

Lemma extract_pack_lanes (lane : Z -> Bits E) i :
  (forall i, 0 <= i < size -> bits_wf (lane i)) -> 0 <= i < size ->
  extract E (pack_lanes TW size lane) (lane_offset size E i) = lane i.
Proof using HE Hsize Hfit.
  intros Hl Hi. destruct (pack_lanes_spec lane Hl) as [Hp Tp].
  assert (Ho : 0 <= lane_offset size E i) by (rewrite lane_offset_spec by exact Hi; unfold PosWidth in HE; nia).
  apply bits_inj_testbit; [apply extract_wf; assumption | apply Hl, Hi |].
  intros n Hn. rewrite extract_tb by assumption.
  destruct (lane_bit i n Hi Hn) as (H1 & H2 & H3). rewrite Tp, H2, H3 by exact H1. reflexivity.
Qed.

Lemma pack_lanes_extract (b : Bits TW) (lane : Z -> Bits E) :
  bits_wf b -> (forall i, 0 <= i < size -> lane i = extract E b (lane_offset size E i)) ->
  pack_lanes TW size lane = b.
Proof using HE Hsize Hfit.
  intros Hb El. unfold PosWidth in HE.
  assert (Ho : forall i, 0 <= i < size -> 0 <= lane_offset size E i)
    by (intros i Hi; rewrite lane_offset_spec by exact Hi; nia).
  destruct (pack_lanes_spec lane) as [Hp Tp].
  { intros i Hi. rewrite El by exact Hi. apply extract_wf; [exact Hb | apply Ho, Hi]. }
  apply bits_inj_testbit; [assumption..|]. intros n Hn. rewrite Tp by exact Hn.
  pose proof (Z.mod_pos_bound n E ltac:(lia)) as Hm.
  pose proof (Z.div_pos n E ltac:(lia) ltac:(lia)). pose proof (Z.div_lt_upper_bound n E size ltac:(lia) ltac:(lia)).
  rewrite El by lia. rewrite extract_tb by (assumption || apply Ho; lia). f_equal.
  rewrite lane_offset_spec by lia. rewrite (Z.div_mod n E) at 3 by lia. lia.
Qed.
End Lanes.

(** ** Tables *)

Class TableFits (size E : Z) : Prop := table_fits : 0 < size /\ size * E < 2 ^ 32.

Section TableLaws.
Context {T : Type} `{HL : HardwareLaws T} `{IT : Inhabited T} (size : Z).
Context `{HF : TableFits size (hw_width T)}.

Definition table_ok (t : table T size) : Prop :=
  length (elements t) = Z.to_nat size /\ Forall hw_ok (elements t).

Lemma table_unpack_elements b :
  elements (table_unpack size b) =
  tabulate (Z.to_nat size)
    (fun i => hw_unpack (extract (hw_width T) b (lane_offset size (hw_width T) i))).
Proof using. unfold table_unpack. cbn [elements]. apply array_loop, length_replicate. Qed.

Lemma table_lane_ok t i : table_ok t -> 0 <= i < size -> hw_ok (elements t).[i].
Proof using. intros [Hl Hf] Hi. apply Forall_at; [exact Hf | lia]. Qed.

#[export] Program Instance table_laws : HardwareLaws (table T size) := {
  hw_ok := table_ok;
}.
Next Obligation. destruct HF. apply TW_pos. assumption. Qed.
Next Obligation.
  intros t Ht. destruct HF as [Hs Hw].
  change (bits_wf (pack_lanes (size * hw_width T) size (fun i => hw_pack (elements t).[i]))).
  apply (pack_lanes_spec size Hs Hw (fun i => hw_pack (elements t).[i])). intros i Hi. apply hw_pack_wf, table_lane_ok; assumption.
Qed.
Next Obligation.
  intros b Hb. destruct HF as [Hs Hw]. split.
  - change (hw_unpack b) with (table_unpack size b). rewrite table_unpack_elements. apply length_tabulate.
  - change (hw_unpack b) with (table_unpack size b). rewrite table_unpack_elements.
    apply Forall_tabulate. intros i Hi. apply hw_unpack_ok.
    assert (HP : PosWidth (size * hw_width T)) by (apply TW_pos; assumption).
    apply (extract_wf (A := size * hw_width T)); [exact Hb|].
    rewrite lane_offset_spec by (assumption || lia). pose proof (W_pos (W:=hw_width T)). nia.
Qed.
Next Obligation.
  intros t Ht. destruct HF as [Hs Hw]. change (table_unpack size (table_pack size t) = t).
  destruct t as [l]. pose proof Ht as [Hl Hf]. cbn [elements] in Hl, Hf.
  destruct (table_unpack size (table_pack size (mkTable l))) as [l'] eqn:E.
  f_equal. change l' with (elements (mkTable (size:=size) l')). rewrite <- E, table_unpack_elements, <- Hl.
  transitivity (tabulate (length l) (fun i => l.[i])); [|apply tabulate_self].
  apply tabulate_ext. intros i Hi. unfold table_pack, table_width.
  rewrite (extract_pack_lanes size Hs Hw).
  - apply hw_unpack_pack. apply (table_lane_ok (mkTable l)); [exact Ht | lia].
  - intros k Hk. apply hw_pack_wf, table_lane_ok; assumption.
  - lia.
Qed.
Next Obligation.
  intros b Hb. destruct HF as [Hs Hw]. change (table_pack size (table_unpack size b) = b).
  assert (HP : PosWidth (size * hw_width T)) by (apply TW_pos; assumption).
  unfold table_pack. apply (pack_lanes_extract size Hs Hw); [exact Hb|]. intros i Hi.
  rewrite table_unpack_elements, tabulate_at by lia. apply hw_pack_unpack.
  apply (extract_wf (A := size * hw_width T)); [exact Hb|].
  rewrite lane_offset_spec by assumption. pose proof (W_pos (W:=hw_width T)). nia.
Qed.
End TableLaws.

(** ** Structures

    A structure layout lists every field once: reading a field after an
    assignment sees exactly that assignment, and the fields determine the
    value. *)
Record lawful_member (T : Type) := LawfulMember {
  lm :> member T;
  lm_laws :: HardwareLaws (field_type lm);
}.
Arguments LawfulMember {T} lm lm_laws.
Arguments lm {T} _.

Class StructLayout {T : Type} (members : list (lawful_member T)) : Prop := {
  layout_nonempty : members <> [];
  layout_get_set : forall (m : lawful_member T) v x, m ∈ members -> field_get m (field_set m v x) = v;
  layout_get_other : forall i j (m k : lawful_member T) v x,
    i <> j -> members !! i = Some m -> members !! j = Some k ->
    field_get k (field_set m v x) = field_get k x;
  layout_ext : forall x y, (forall m : lawful_member T, m ∈ members -> field_get m x = field_get m y) -> x = y;
}.

Section StructLaws.
Context {T : Type} (members : list (lawful_member T)) (T_default : T).
Context `{HLay : !StructLayout members}.
Implicit Types ms pre suf : list (lawful_member T).

#[local] Abbreviation mem := (lm <$> members).
#[local] Abbreviation wd m := (hw_width (field_type (lm m))).

Definition tw (ms : list (lawful_member T)) : Z := totalWidth (lm <$> ms).

Lemma tw_cons m ms : tw (m :: ms) = wd m + tw ms.
Proof using. reflexivity. Qed.

Lemma tw_nonneg ms : 0 <= tw ms.
Proof using.
  induction ms as [|m ms IH]; [cbn; lia|]. rewrite tw_cons. pose proof (W_pos (W:=wd m)). lia.
Qed.

Lemma tw_app pre suf : tw (pre ++ suf) = tw pre + tw suf.
Proof using.
  induction pre as [|m pre IH]; [reflexivity|]. cbn [app]. rewrite !tw_cons, IH. lia.
Qed.

Lemma struct_pos : PosWidth (struct_width mem).
Proof using HLay.
  unfold struct_width, PosWidth. pose proof layout_nonempty. destruct members as [|m ms]; [congruence|].
  change (0 < wd m + tw ms). pose proof (W_pos (W:=wd m)). pose proof (tw_nonneg ms). lia.
Qed.
#[local] Existing Instance struct_pos.

(** Bit [n] of the layout: the first field is the most significant. *)
Fixpoint struct_bit (ms : list (lawful_member T)) (x : T) (n : Z) : bool :=
  match ms with
  | [] => false
  | m :: ms' =>
    Z.testbit (bval (hw_pack (field_get m x))) (n - tw ms') || struct_bit ms' x n
  end.

Definition struct_ok (x : T) : Prop := forall m, m ∈ members -> hw_ok (field_get (lm m) x).

Lemma packField_loop x ms : forall (r : Bits (struct_width mem)),
  (forall m, m ∈ ms -> hw_ok (field_get (lm m) x)) -> tw ms <= struct_width mem -> bits_wf r ->
  let '(r', o') := foldl (packField mem x) (r, tw ms) (lm <$> ms) in
  bits_wf r' /\ o' = 0 /\ forall n, 0 <= n < struct_width mem ->
    Z.testbit (bval r') n = Z.testbit (bval r) n || struct_bit ms x n.
Proof using HLay.
  induction ms as [|m ms IH]; intros r Hok Hle Hr.
  - cbn. split; [exact Hr|]. split; [reflexivity|]. intros n _. symmetry. apply orb_false_r.
  - rewrite fmap_cons. cbn [foldl]. unfold packField at 2.
    rewrite tw_cons in Hle |- *. replace (wd m + tw ms - wd m) with (tw ms) by lia.
    pose proof (tw_nonneg ms). pose proof (W_pos (W:=wd m)).
    assert (Hm : bits_wf (hw_pack (field_get m x))) by (apply hw_pack_wf, Hok; left).
    specialize (IH (put r (hw_pack (field_get m x)) (tw ms))).
    change (bits_or r _) with (put r (hw_pack (field_get m x)) (tw ms)).
    destruct (foldl (packField mem x) _ _) as [r' o'].
    destruct IH as (Hr' & Ho' & Tr'); [intros k Hk; apply Hok; right; exact Hk | lia | apply put_wf; (assumption || lia) |].
    split; [exact Hr'|]. split; [exact Ho'|]. intros n Hn. rewrite Tr', put_tb by (assumption || lia).
    cbn [struct_bit]. rewrite orb_assoc. reflexivity.
Qed.

Lemma struct_pack_spec x :
  struct_ok x ->
  bits_wf (struct_pack mem x) /\
  forall n, 0 <= n < struct_width mem -> Z.testbit (bval (struct_pack mem x)) n = struct_bit members x n.
Proof using HLay.
  intros Hx. unfold struct_pack. rewrite bits_default_zero.
  pose proof (packField_loop x members (bits_of_word _ 0) Hx (Z.le_refl _) zero_wf) as H.
  unfold struct_width in *. destruct (foldl _ _ _) as [r o]. cbn [fst]. destruct H as (Hr & _ & Tr).
  split; [exact Hr|]. intros n Hn. rewrite Tr, zero_tb by exact Hn. reflexivity.
Qed.

Lemma struct_bit_high ms x n :
  (forall m, m ∈ ms -> hw_ok (field_get (lm m) x)) -> tw ms <= n -> struct_bit ms x n = false.
Proof using.
  induction ms as [|m ms IH]; intros Hok Hn; [reflexivity|]. cbn [struct_bit].
  rewrite tw_cons in Hn. pose proof (W_pos (W:=wd m)).
  rewrite bval_testbit_high by (try (apply hw_pack_wf, Hok; left); lia).
  apply IH; [intros k Hk; apply Hok; right; exact Hk | lia].
Qed.

Lemma struct_bit_at pre m suf x n :
  (forall k, k ∈ pre ++ m :: suf -> hw_ok (field_get (lm k) x)) -> 0 <= n < wd m ->
  struct_bit (pre ++ m :: suf) x (n + tw suf) = Z.testbit (bval (hw_pack (field_get m x))) n.
Proof using.
  revert n. induction pre as [|p pre IH]; intros n Hok Hn; cbn [app struct_bit].
  - rewrite struct_bit_high, orb_false_r by
      (try lia; intros k Hk; apply Hok; right; exact Hk). f_equal. lia.
  - rewrite IH by (try exact Hn; intros k Hk; apply Hok; right; exact Hk).
    rewrite Z.testbit_neg_r; [reflexivity|]. rewrite tw_app, tw_cons. pose proof (tw_nonneg pre). lia.
Qed.
(** The unpacking loop writes the remaining fields and keeps the others. *)
Lemma unpackField_loop (b : Bits (struct_width mem)) suf : forall pre x,
  members = pre ++ suf ->
  let '(r, o) := foldl (unpackField mem b) (x, tw suf) (lm <$> suf) in
  (forall m, m ∈ pre -> field_get (lm m) r = field_get (lm m) x) /\
  forall p m s, suf = p ++ m :: s -> field_get (lm m) r = hw_unpack (extract (wd m) b (tw s)).
Proof using HLay.
  induction suf as [|m suf IH]; intros pre x Hms.
  - cbn. split; [reflexivity|]. intros p m s E. destruct p; discriminate.
  - rewrite fmap_cons. cbn [foldl]. unfold unpackField at 2. rewrite tw_cons.
    replace (wd m + tw suf - wd m) with (tw suf) by lia.
    set (x' := field_set m _ x).
    assert (Hms' : members = (pre ++ [m]) ++ suf) by (rewrite <- app_assoc; exact Hms).
    specialize (IH (pre ++ [m]) x' Hms').
    destruct (foldl (unpackField mem b) _ _) as [r o]. destruct IH as [Hkeep Hset]. split.
    + intros k Hk. rewrite Hkeep by (apply elem_of_app; left; exact Hk).
      apply list_elem_of_lookup in Hk as [i Hi]. pose proof (lookup_lt_Some _ _ _ Hi).
      apply (layout_get_other (length pre) i m k); [lia | |].
      * rewrite Hms, lookup_app_r, Nat.sub_diag by lia. reflexivity.
      * rewrite Hms, lookup_app_l by lia. exact Hi.
    + intros p k s E. destruct p as [|p0 p]; injection E as <- E2.
      * rewrite Hkeep, <- E2 by (apply elem_of_app; right; left). apply layout_get_set.
        rewrite Hms. apply elem_of_app. right. left.
      * apply (Hset p), E2.
Qed.

Lemma struct_unpack_get b pre m suf :
  members = pre ++ m :: suf ->
  field_get (lm m) (struct_unpack mem T_default b) = hw_unpack (extract (wd m) b (tw suf)).
Proof using HLay.
  intros E. pose proof (unpackField_loop b members [] T_default eq_refl) as H.
  unfold struct_unpack, struct_width. fold (tw members).
  destruct (foldl _ _ _) as [r o]. destruct H as [_ H]. apply (H pre), E.
Qed.

(** Every bit of the layout lies in one field. *)
Lemma struct_field_of_bit ms n :
  0 <= n < tw ms -> exists pre m suf, ms = pre ++ m :: suf /\ tw suf <= n < tw suf + wd m.
Proof using.
  induction ms as [|m ms IH]; [cbn; lia|]. rewrite tw_cons. intros Hn.
  destruct (Z.ltb_spec n (tw ms)) as [Hlt|Hge].
  - destruct IH as (pre & k & suf & -> & Hk); [lia|]. exists (m :: pre), k, suf. auto.
  - exists [], m, ms. split; [reflexivity | lia].
Qed.

Lemma struct_field_range pre m suf : members = pre ++ m :: suf ->
  0 <= tw suf /\ tw suf + wd m <= struct_width mem.
Proof using.
  intros E. unfold struct_width. fold (tw members). rewrite E, tw_app, tw_cons.
  pose proof (tw_nonneg pre). pose proof (tw_nonneg suf). lia.
Qed.

Lemma struct_unpack_ok b : bits_wf b -> struct_ok (struct_unpack mem T_default b).
Proof using HLay.
  intros Hb m Hm. apply list_elem_of_split in Hm as (pre & suf & E).
  destruct (struct_field_range _ _ _ E). rewrite (struct_unpack_get b _ _ _ E).
  apply hw_unpack_ok, (extract_wf (A := struct_width mem)); assumption.
Qed.

Lemma struct_extract_field x pre m suf :
  struct_ok x -> members = pre ++ m :: suf ->
  extract (wd m) (struct_pack mem x) (tw suf) = hw_pack (field_get (lm m) x).
Proof using HLay.
  intros Hx E. destruct (struct_field_range _ _ _ E). destruct (struct_pack_spec x Hx) as [Hp Tp].
  assert (Hm : m ∈ members) by (rewrite E; apply elem_of_app; right; left).
  apply bits_inj_testbit; [apply (extract_wf (A := struct_width mem)); assumption | apply hw_pack_wf, Hx, Hm |].
  intros n Hn. rewrite (extract_tb (A := struct_width mem)) by assumption. rewrite Tp by lia. rewrite E.
  apply struct_bit_at; [rewrite <- E; exact Hx | exact Hn].
Qed.

Lemma struct_unpack_pack x : struct_ok x -> struct_unpack mem T_default (struct_pack mem x) = x.
Proof using HLay.
  intros Hx. apply layout_ext. intros m Hm. pose proof (Hx m Hm) as Hok.
  apply list_elem_of_split in Hm as (pre & suf & E).
  rewrite (struct_unpack_get _ _ _ _ E), (struct_extract_field x _ _ _ Hx E).
  apply hw_unpack_pack, Hok.
Qed.

Lemma struct_pack_unpack b : bits_wf b -> struct_pack mem (struct_unpack mem T_default b) = b.
Proof using HLay.
  intros Hb. pose proof (struct_unpack_ok b Hb) as Hok. destruct (struct_pack_spec _ Hok) as [Hp Tp].
  apply bits_inj_testbit; [assumption..|]. intros n Hn. rewrite Tp by exact Hn.
  destruct (struct_field_of_bit members n Hn) as (pre & m & suf & E & Hm).
  destruct (struct_field_range _ _ _ E). replace n with ((n - tw suf) + tw suf) at 1 by lia.
  rewrite E at 1. rewrite struct_bit_at by (try lia; rewrite <- E; exact Hok).
  rewrite (struct_unpack_get _ _ _ _ E), hw_pack_unpack
    by (apply (extract_wf (A := struct_width mem)); assumption).
  rewrite (extract_tb (A := struct_width mem)) by (assumption || lia). f_equal. lia.
Qed.

Definition struct_laws : @HardwareLaws T (hardware_struct_traits mem T_default) :=
  @Build_HardwareLaws T (hardware_struct_traits mem T_default) struct_ok struct_pos
    (fun x Hx => proj1 (struct_pack_spec x Hx)) struct_unpack_ok struct_unpack_pack struct_pack_unpack.
End StructLaws.

(** ** Signals *)

Class WireLaws (T : Type) `{HL : HardwareLaws T} `{HWire : !Wire T} := {
  wire_wf : wire T -> Prop;
  wire_planes : wire T -> FourState (hw_width T);
  packed_ret : forall w, wire_wf w -> packed w = Ret (wire_planes w) /\ fs_wf (wire_planes w);
  wire_planes_inj : forall w v, wire_wf w -> wire_wf v -> wire_planes w = wire_planes v -> w = v;
  fromPacked_ret : forall v, fs_wf v ->
    exists w, fromPacked v = Ret w /\ wire_wf w /\ wire_planes w = v;
  wire_known_ret : forall x, hw_ok x ->
    exists w, wire_known x = Ret w /\ wire_wf w /\ wire_planes w = fs_of (hw_pack x);
  wire_unknown_ret :
    exists w, wire_unknown T = Ret w /\ wire_wf w /\ wire_planes w = fs_x (bits_of_word _ 0);
  wire_isFullyKnown_planes : forall w, wire_wf w ->
    wire_isFullyKnown w = FS.isFullyKnown (wire_planes w);
  wire_value_planes : forall w, wire_wf w -> wire_value w = hw_unpack (value_ (wire_planes w));
}.

Section ScalarLaws.
Context {T : Type} `{HL : HardwareLaws T}.

#[export] Program Instance scalar_wire_laws : @WireLaws T _ HL scalar_wire := {
  wire_wf (w : @wire T _ scalar_wire) := fs_wf (w : FourState (hw_width T));
  wire_planes w := w;
}.
Solve All Obligations with cbn; eauto.
Next Obligation.
  intros x Hx. exists (fs_of (hw_pack x)). cbn. unfold scalar_known.
  destruct (known_ok (hw_pack x)) as [-> Hwf]; [apply hw_pack_wf, Hx|]. auto.
Qed.
Next Obligation.
  exists (fs_x (bits_of_word (hw_width T) 0)). cbn. unfold scalar_unknown.
  destruct (unknown_ok (bits_of_word (hw_width T) 0)) as [-> Hwf]; [apply zero_wf|]. auto.
Qed.
End ScalarLaws.

#[export] Instance bits_wire_laws W `{HW : PosWidth W} : WireLaws (Bits W) := scalar_wire_laws.

(** A well-formed value passes the constructor check unchanged. *)
Lemma fromMasks_wf {W} `{PosWidth W} (x : FourState W) :
  fs_wf x -> FS.fromMasks (value_ x) (knownMask_ x) (zMask_ x) = Ret x.
Proof. intros (Hv & Hk & Hz & Hd). destruct x. apply make_ok; assumption. Qed.

(** An in-range extraction selects the same slice of the three planes. *)
Lemma fs_extract_eq {In Out} `{PosWidth In} `{PosWidth Out} (v : FourState In) low :
  fs_wf v -> 0 <= low -> Out + low <= In ->
  let r := mkFS (extract Out (value_ v) low) (extract Out (knownMask_ v) low) (extract Out (zMask_ v) low) in
  FS.fs_extract Out v low = Ret r /\ fs_wf r.
Proof.
  intros Hv Hl Hle r. unfold FS.fs_extract.
  replace ((In <? Out) || (In - Out <? low)) with false by lia.
  destruct (make_ok (W:=Out) (value_ r) (knownMask_ r) (zMask_ r)) as [E Hr]; cbn [r value_ knownMask_ zMask_].
  - wf.
  - wf.
  - wf.
  - intros n Hn. rewrite !extract_tb by wf_side. apply (fs_wf_disjoint (W:=In)); [exact Hv | lia].
  - unfold FS.fromMasks. cbn [r value_ knownMask_ zMask_] in E. rewrite E. auto.
Qed.

Section TableWireLaws.
Context {T : Type} `{HL : HardwareLaws T} `{IT : Inhabited T} (size : Z).
Context `{HF : TableFits size (hw_width T)}.
#[local] Abbreviation E := (hw_width T).
#[local] Abbreviation TW := (size * hw_width T).
#[local] Existing Instance fs_inhabited.
#[local] Instance TW_posw : PosWidth TW := TW_pos size (proj1 HF).
Implicit Types w : list (FourState E).

Definition twire_wf w : Prop := length w = Z.to_nat size /\ Forall fs_wf w.

Definition twire_planes w : FourState TW :=
  mkFS (pack_lanes TW size (fun i => value_ w.[i])) (pack_lanes TW size (fun i => knownMask_ w.[i]))
       (pack_lanes TW size (fun i => zMask_ w.[i])).

Lemma twire_at w i : twire_wf w -> 0 <= i < size -> fs_wf w.[i].
Proof using. intros [Hl Hf] Hi. apply Forall_at; [exact Hf | lia]. Qed.

Lemma twire_plane_spec (plane : FourState E -> Bits E) w :
  twire_wf w -> (forall x, fs_wf x -> bits_wf (plane x)) ->
  bits_wf (pack_lanes TW size (fun i => plane w.[i])) /\
  forall n, 0 <= n < TW ->
    0 <= size - 1 - n / E < size /\ 0 <= n mod E < E /\
    Z.testbit (bval (pack_lanes TW size (fun i => plane w.[i]))) n =
    Z.testbit (bval (plane w.[size - 1 - n / E])) (n mod E).
Proof using HF HL.
  intros Hw Hp. destruct HF as [Hs Hfit].
  destruct (pack_lanes_spec size Hs Hfit (fun i => plane w.[i])) as [Hwf Htb].
  { intros i Hi. apply Hp, twire_at; assumption. }
  split; [exact Hwf|]. intros n Hn. pose proof (W_pos (W:=E)) as HE.
  pose proof (Z.mod_pos_bound n E HE). pose proof (Z.div_pos n E (proj1 Hn) HE).
  assert (n / E < size) by (apply Z.div_lt_upper_bound; lia).
  split; [lia|]. split; [lia|]. apply Htb, Hn.
Qed.

Lemma twire_planes_wf w : twire_wf w -> fs_wf (twire_planes w).
Proof using HF HL.
  intros Hw. destruct (twire_plane_spec value_ w Hw fs_wf_value) as [Hv _].
  destruct (twire_plane_spec knownMask_ w Hw fs_wf_known) as [Hk Tk].
  destruct (twire_plane_spec zMask_ w Hw fs_wf_z) as [Hz Tz].
  split; [exact Hv|]. split; [exact Hk|]. split; [exact Hz|]. cbn [twire_planes knownMask_ zMask_].
  intros n Hn. destruct (Tk n Hn) as (Hi & Hr & ->). destruct (Tz n Hn) as (_ & _ & ->).
  apply fs_wf_disjoint; [apply twire_at; assumption | exact Hr].
Qed.

(** The three accumulations of [packed()] are three packed planes. *)
Lemma twire_packed_loop w n i (a b c : Bits TW) :
  for_range n i
    (fun i '(values, known, z) =>
       let lane := w.[i] in
       let offset := lane_offset size E i in
       (bits_or values (shl (zext TW (value_ lane)) offset),
        bits_or known (shl (zext TW (knownMask_ lane)) offset),
        bits_or z (shl (zext TW (zMask_ lane)) offset))) (a, b, c) =
  (for_range n i (fun k r => bits_or r (shl (zext TW (value_ w.[k])) (lane_offset size E k))) a,
   for_range n i (fun k r => bits_or r (shl (zext TW (knownMask_ w.[k])) (lane_offset size E k))) b,
   for_range n i (fun k r => bits_or r (shl (zext TW (zMask_ w.[k])) (lane_offset size E k))) c).
Proof using.
  revert i a b c. induction n as [|n IH]; intros i a b c; [reflexivity|]. cbn [for_range]. apply IH.
Qed.

Lemma twire_packed_ret w : twire_wf w -> twire_packed size w = Ret (twire_planes w).
Proof using HF HL.
  intros Hw. unfold twire_packed, table_width. rewrite twire_packed_loop.
  exact (f_equal noexcept (fromMasks_wf (twire_planes w) (twire_planes_wf w Hw))).
Qed.
Lemma twire_default_ret :
  twire_default (T:=T) size = Ret (replicate (Z.to_nat size) (fs_x (bits_of_word E 0))).
Proof using HL.
  unfold twire_default, scalar_unknown.
  destruct (unknown_ok (W:=E) (bits_of_word E 0)) as [-> _]; [apply zero_wf | reflexivity].
Qed.

(** A loop that writes element [i] from [f i]. *)
Lemma twire_build (f : Z -> outcome (FourState E)) (g : Z -> FourState E) :
  (forall i, 0 <= i < size -> f i = Ret (g i)) ->
  noexcept (result <- twire_default (T:=T) size ;;
            ofor_range (Z.to_nat size) 0 (fun i result => w <- f i ;; Ret (result.[i := w])) result) =
  Ret (tabulate (Z.to_nat size) g).
Proof using HL.
  intros Hf. rewrite twire_default_ret. cbn [obind].
  rewrite (ofor_range_ret _ _ _ (fun i result => result.[i := g i])).
  - rewrite array_loop by apply length_replicate. reflexivity.
  - intros k t Hk. rewrite Hf by lia. reflexivity.
Qed.

Lemma twire_tabulate_wf (g : Z -> FourState E) :
  (forall i, 0 <= i < size -> fs_wf (g i)) -> twire_wf (tabulate (Z.to_nat size) g).
Proof using.
  intros Hg. split; [apply length_tabulate|]. apply Forall_tabulate. intros i Hi. apply Hg. lia.
Qed.

Lemma planes_tabulate (g : Z -> FourState E) (x : FourState TW) :
  pack_lanes TW size (fun i => value_ (g i)) = value_ x ->
  pack_lanes TW size (fun i => knownMask_ (g i)) = knownMask_ x ->
  pack_lanes TW size (fun i => zMask_ (g i)) = zMask_ x ->
  twire_planes (tabulate (Z.to_nat size) g) = x.
Proof using.
  assert (Hp : forall plane : FourState E -> Bits E,
    pack_lanes TW size (fun i => plane (tabulate (Z.to_nat size) g).[i]) =
    pack_lanes TW size (fun i => plane (g i))).
  { intros plane. unfold pack_lanes. apply for_range_ext. intros k t Hk.
    rewrite tabulate_at by lia. reflexivity. }
  intros Ev Ek Ez. unfold twire_planes. rewrite !Hp, Ev, Ek, Ez. destruct x; reflexivity.
Qed.

Lemma lane_offset_range i : 0 <= i < size ->
  0 <= lane_offset size E i /\ E + lane_offset size E i <= TW.
Proof using HF HL.
  intros Hi. destruct HF as [Hs Hfit]. rewrite lane_offset_spec by assumption.
  pose proof (W_pos (W:=E)). nia.
Qed.

Lemma twire_fromPacked_ret (v : FourState TW) :
  fs_wf v -> exists w, twire_fromPacked size v = Ret w /\ twire_wf w /\ twire_planes w = v.
Proof using HF HL.
  intros Hv. destruct HF as [Hs Hfit].
  set (g i := let o := lane_offset size E i in
    mkFS (extract E (value_ v) o) (extract E (knownMask_ v) o) (extract E (zMask_ v) o)).
  assert (Hg : forall i, 0 <= i < size ->
    FS.fs_extract E v (lane_offset size E i) = Ret (g i) /\ fs_wf (g i)).
  { intros i Hi. destruct (lane_offset_range i Hi). apply fs_extract_eq; assumption. }
  exists (tabulate (Z.to_nat size) g). split; [|split].
  - apply twire_build. intros i Hi. apply Hg, Hi.
  - apply twire_tabulate_wf. intros i Hi. apply Hg, Hi.
  - apply planes_tabulate; apply (pack_lanes_extract size Hs Hfit); (wf || reflexivity).
Qed.

Lemma pack_lanes_const (c : Bits E) (x : Bits TW) (b : bool) :
  bits_wf c -> bits_wf x -> (forall n, 0 <= n < E -> Z.testbit (bval c) n = b) ->
  (forall n, 0 <= n < TW -> Z.testbit (bval x) n = b) -> pack_lanes TW size (fun _ => c) = x.
Proof using HF HL.
  intros Hc Hx Bc Bx. destruct HF as [Hs Hfit].
  destruct (pack_lanes_spec size Hs Hfit (fun _ => c)) as [Hp Tp]; [auto|].
  apply bits_inj_testbit; [assumption..|]. intros n Hn. rewrite Tp, Bx by exact Hn.
  apply Bc, Z.mod_pos_bound, (W_pos (W:=E)).
Qed.

Lemma pack_lanes_ones : pack_lanes TW size (fun _ => ones E) = ones TW.
Proof using HF HL.
  exact (pack_lanes_const (ones E) (ones TW) true ones_wf ones_wf
           (fun n Hn => ones_tb n Hn) (fun n Hn => ones_tb n Hn)).
Qed.

Lemma pack_lanes_zero : pack_lanes TW size (fun _ => bits_of_word E 0) = bits_of_word TW 0.
Proof using HF HL.
  exact (pack_lanes_const (bits_of_word E 0) (bits_of_word TW 0) false zero_wf zero_wf
           (fun n _ => zero_tb n) (fun n _ => zero_tb n)).
Qed.

Lemma twire_known_ret (x : table T size) :
  table_ok size x ->
  exists w, twire_known size x = Ret w /\ twire_wf w /\ twire_planes w = fs_of (table_pack size x).
Proof using HF HL.
  intros Hx. exists (tabulate (Z.to_nat size) (fun i => fs_of (hw_pack (elements x).[i]))).
  assert (Hi : forall i, 0 <= i < size -> scalar_known (elements x).[i] = Ret (fs_of (hw_pack (elements x).[i])) /\
    fs_wf (fs_of (hw_pack (elements x).[i]))).
  { intros i Hi. unfold scalar_known. destruct (known_ok (hw_pack (elements x).[i])) as [-> Hwf].
    - apply hw_pack_wf, table_lane_ok; assumption.
    - auto. }
  split; [|split].
  - apply twire_build. intros i Hi'. apply Hi, Hi'.
  - apply twire_tabulate_wf. intros i Hi'. apply Hi, Hi'.
  - apply planes_tabulate; [reflexivity | |].
    + exact pack_lanes_ones.
    + exact pack_lanes_zero.
Qed.

Lemma twire_default_wf :
  let w := replicate (Z.to_nat size) (fs_x (bits_of_word E 0)) in
  twire_wf w /\ twire_planes w = fs_x (bits_of_word TW 0).
Proof using HF HL.
  assert (Ew : replicate (Z.to_nat size) (fs_x (bits_of_word E 0)) =
               tabulate (Z.to_nat size) (fun _ => fs_x (bits_of_word E 0))).
  { apply array_ext; [rewrite length_tabulate; apply length_replicate|]. intros i Hi.
    rewrite length_replicate in Hi. rewrite tabulate_at by exact Hi.
    apply lookup_total_replicate_2. lia. }
  cbn zeta. rewrite Ew. split.
  - apply twire_tabulate_wf. intros i _. apply (unknown_ok (W:=E)), zero_wf.
  - apply planes_tabulate; exact pack_lanes_zero.
Qed.

Lemma twire_planes_inj w v : twire_wf w -> twire_wf v -> twire_planes w = twire_planes v -> w = v.
Proof using HF HL.
  intros Hw Hv E0. destruct HF as [Hs Hfit]. 
  pose proof (f_equal value_ E0) as Ev. pose proof (f_equal knownMask_ E0) as Ek.
  pose proof (f_equal zMask_ E0) as Ez. cbn [twire_planes value_ knownMask_ zMask_] in Ev, Ek, Ez.
  destruct Hw as [Lw Fw], Hv as [Lv Fv].
  apply array_ext; [congruence|]. intros i Hi. rewrite Lw in Hi.
  assert (Hp : forall plane : FourState E -> Bits E, (forall x, fs_wf x -> bits_wf (plane x)) ->
    pack_lanes TW size (fun i => plane w.[i]) = pack_lanes TW size (fun i => plane v.[i]) ->
    plane w.[i] = plane v.[i]).
  { intros plane Hp Epl. pose proof (extract_pack_lanes size Hs Hfit (fun i => plane w.[i]) i) as H1.
    pose proof (extract_pack_lanes size Hs Hfit (fun i => plane v.[i]) i) as H2. cbn beta in H1, H2.
    rewrite <- H1, <- H2, Epl; [reflexivity | | lia | | lia];
      intros k Hk; apply Hp, Forall_at; (assumption || lia). }
  pose proof (Hp value_ fs_wf_value Ev). pose proof (Hp knownMask_ fs_wf_known Ek).
  pose proof (Hp zMask_ fs_wf_z Ez). destruct w.[i], v.[i]. cbn in *. congruence.
Qed.

Lemma twire_isFullyKnown_planes w :
  twire_wf w -> twire_isFullyKnown size w = FS.isFullyKnown (twire_planes w).
Proof using HF HL.
  intros Hw. pose proof (W_pos (W:=E)) as HE. apply eq_true_iff_eq. unfold twire_isFullyKnown.
  rewrite all_range_true, isFullyKnown_spec by (apply twire_planes_wf, Hw).
  destruct (twire_plane_spec knownMask_ w Hw fs_wf_known) as [_ Tk]. split; intros H.
  - intros n Hn. rewrite known4_lane. destruct (Tk n Hn) as (Hi & Hr & Et).
    cbn [twire_planes knownMask_]. rewrite Et, <- known4_lane.
    apply isFullyKnown_spec; [apply twire_at | apply H | ]; (assumption || lia).
  - intros i Hi. apply isFullyKnown_spec; [apply twire_at; (assumption || lia)|].
    intros n Hn. destruct HF as [Hs Hfit].
    destruct (lane_bit size Hs Hfit i n ltac:(lia) Hn) as (H1 & H2 & H3).
    specialize (H _ H1). rewrite (known4_lane (twire_planes w)) in H. cbn [twire_planes knownMask_] in H.
    destruct (Tk _ H1) as (_ & _ & Et). rewrite Et, H2, H3 in H. rewrite known4_lane. exact H.
Qed.

Lemma twire_value_planes w :
  twire_wf w -> twire_value size w = table_unpack size (value_ (twire_planes w)).
Proof using HF HL.
  intros Hw. destruct HF as [Hs Hfit]. unfold twire_value, table_unpack. f_equal.
  rewrite !array_loop by apply length_replicate. apply tabulate_ext. intros i Hi.
  unfold scalar_value. f_equal. cbn [twire_planes value_]. symmetry.
  apply (extract_pack_lanes size Hs Hfit (fun i => value_ w.[i])); [|lia].
  intros k Hk. apply fs_wf_value, twire_at; assumption.
Qed.

#[export] Instance table_wire_laws :
  @WireLaws (table T size) _ (table_laws size) (table_wire size) :=
  @Build_WireLaws (table T size) _ (table_laws size) (table_wire size) twire_wf twire_planes
    (fun w Hw => conj (twire_packed_ret w Hw) (twire_planes_wf w Hw))
    twire_planes_inj twire_fromPacked_ret twire_known_ret
    (ex_intro _ _ (conj twire_default_ret twire_default_wf))
    twire_isFullyKnown_planes twire_value_planes.
End TableWireLaws.
