(* ===== verification/SampledClock.v ===== *)
(** * Sampled clocks: [include/gfsim/sampled_clock.h]

    Interpretation of the reset pin and evaluation of a sampled clock, with
    the edge and fault classification the storage kernels rely on. *)

From Stdlib Require Import ZArith Lia.
From stdpp Require Import base list numbers.
From S2P Require Import Prelude Bits BitsLogic BitsShift BitsArith FourState FourStateSpec Wire.
From S2P Require Import WireSpec.

(** A one-bit pin, [wire<Bits<1>>]. *)
Abbreviation pin := (wire (Bits 1)).

Definition pin_isFullyKnown (w : pin) : bool := wire_isFullyKnown (T:=Bits 1) w.
Definition pin_toBool (w : pin) : bool := toBool (wire_value (T:=Bits 1) w).

Inductive ResetSemantics := Strict | IfOne.

Definition interpretReset_fs (raw : FourState 1) (semantics : ResetSemantics)
  : outcome (FourState 1) :=
  noexcept
    match semantics with
    | Strict => Ret raw
    | IfOne =>
      FS.known (bits_of_word 1 (if FS.isFullyKnown raw && toBool (value_ raw) then 1 else 0))
    end.

Definition interpretReset (raw : pin) (semantics : ResetSemantics) : outcome pin :=
  noexcept (p <- packed (T:=Bits 1) raw ;; r <- interpretReset_fs p semantics ;; fromPacked (T:=Bits 1) r).

Inductive SampledClockFault := NoFault | UnknownClock | UnknownReset.

Record SampledClockEvaluation := mkEval {
  nextClock : bool;
  rising : bool;
  resetActive : bool;
  fault : SampledClockFault;
}.

Definition evaluateSampledClock (previous : bool) (clock rawReset : pin) (semantics : ResetSemantics)
  : outcome SampledClockEvaluation :=
  noexcept
    (if negb (pin_isFullyKnown clock) then Ret (mkEval previous false false UnknownClock)
     else
       let next := pin_toBool clock in
       if previous || negb next then Ret (mkEval next false false NoFault)
       else
         reset <- interpretReset rawReset semantics ;;
         if negb (pin_isFullyKnown reset) then Ret (mkEval previous true false UnknownReset)
         else Ret (mkEval next true (pin_toBool reset) NoFault)).

(** ** Specification

    The logic level of a pin. *)
Definition level (w : pin) : V4 := lane (w : FourState 1) 0.

Definition pin_wf (w : pin) : Prop := fs_wf (w : FourState 1).

Definition is1 (v : V4) : bool := match v with V1 => true | _ => false end.

Lemma pin_isFullyKnown_level w : pin_wf w -> pin_isFullyKnown w = known4 (level w).
Proof.
  intros Hw. apply eq_true_iff_eq. unfold pin_isFullyKnown. cbn [wire_isFullyKnown bits_wire scalar_wire].
  rewrite (isFullyKnown_spec (W:=1)) by exact Hw. split; [intros H; apply H; cbn; lia|].
  intros H n Hn. cbn in Hn. replace n with 0 by lia. exact H.
Qed.

Lemma pin_toBool_level w : pin_wf w -> known4 (level w) = true -> pin_toBool w = is1 (level w).
Proof.
  intros Hw Hk. unfold level in *. rewrite (known4_lane (W:=1)) in Hk. unfold pin_toBool, lane.
  rewrite Hk. cbn [wire_value bits_wire scalar_wire]. unfold scalar_value. cbn [hw_unpack bits_traits].
  rewrite (toBool_spec (W:=1)) by apply Hw.
  match goal with |- ?x = is1 (if ?y then _ else _) => change y with x; destruct x; reflexivity end.
Qed.

Lemma interpretReset_strict raw : interpretReset raw Strict = Ret raw.
Proof. reflexivity. Qed.

Lemma interpretReset_ifOne raw :
  pin_wf raw -> interpretReset raw IfOne = Ret (fs_bool (is1 (level raw))).
Proof.
  intros Hr. unfold interpretReset. cbn [packed fromPacked bits_wire scalar_wire obind].
  unfold interpretReset_fs.
  assert (E : FS.isFullyKnown (W:=1) raw && toBool (value_ (Width:=1) raw) = is1 (level raw)).
  { change (pin_isFullyKnown raw && pin_toBool raw = is1 (level raw)).
    rewrite pin_isFullyKnown_level by exact Hr. destruct (known4 (level raw)) eqn:E; cbn [andb].
    - apply pin_toBool_level; assumption.
    - destruct (level raw); try discriminate; reflexivity. }
  rewrite E. change (bits_of_word 1 _) with (FS.flag (is1 (level raw))). rewrite known_flag. reflexivity.
Qed.

(** The reset level as the owner interprets it. *)
Definition reset_level (raw : pin) (semantics : ResetSemantics) : V4 :=
  match semantics with Strict => level raw | IfOne => of_bool (is1 (level raw)) end.

Lemma level_fs_bool b : level (fs_bool b) = of_bool b.
Proof. destruct b; reflexivity. Qed.

Lemma fs_bool_wf b : pin_wf (fs_bool b).
Proof. apply (known_ok (W:=1)), flag_wf. Qed.

Lemma interpretReset_level raw semantics :
  pin_wf raw ->
  exists r, interpretReset raw semantics = Ret r /\ pin_wf r /\ level r = reset_level raw semantics.
Proof.
  intros Hr. destruct semantics.
  - exists raw. auto using interpretReset_strict.
  - exists (fs_bool (is1 (level raw))). rewrite interpretReset_ifOne by exact Hr.
    auto using fs_bool_wf, level_fs_bool.
Qed.

(** What a sample of the pins means, as a function of the levels only. *)
Definition sample_spec (previous : bool) (clk rst : V4) : SampledClockEvaluation :=
  match clk with
  | V0 => mkEval false false false NoFault
  | V1 =>
    if previous then mkEval true false false NoFault
    else match rst with
         | V0 => mkEval true true false NoFault
         | V1 => mkEval true true true NoFault
         | _ => mkEval false true false UnknownReset
         end
  | _ => mkEval previous false false UnknownClock
  end.

Lemma evaluateSampledClock_spec previous clock rawReset semantics :
  pin_wf clock -> pin_wf rawReset ->
  evaluateSampledClock previous clock rawReset semantics =
  Ret (sample_spec previous (level clock) (reset_level rawReset semantics)).
Proof.
  intros Hc Hr. unfold evaluateSampledClock. rewrite pin_isFullyKnown_level by exact Hc.
  destruct (known4 (level clock)) eqn:Ek; cbn [negb];
    [rewrite (pin_toBool_level clock Hc Ek) | destruct (level clock); try discriminate; reflexivity].
  destruct (interpretReset_level rawReset semantics Hr) as (r & -> & Hrw & <-). cbn [obind].
  rewrite pin_isFullyKnown_level by exact Hrw.
  destruct (level clock), previous; try discriminate; cbn [is1 negb orb]; try reflexivity.
  destruct (known4 (level r)) eqn:Er; cbn [negb];
    [rewrite (pin_toBool_level r Hrw Er)|]; destruct (level r); try discriminate; reflexivity.
Qed.
