(* ===== verification/Kernel.v ===== *)
(** * The storage-kernel interface

    Every storage leaf ([dff.h], [sync_mem.h], [byte_mem.h], [fifo.h]) is a
    kernel of four static functions over plain state: [discard], [work],
    [xfer] and [reset].  [Work] only prepares [Pending]; [Xfer] commits it.
    [KernelLaws] is the two-phase contract the owners rely on. *)

From Stdlib Require Import ZArith Lia String.
From stdpp Require Import base list numbers.
From S2P Require Import Prelude.

Class Kernel (Current Pending Inputs Outputs : Type) := {
  k_discard : Current -> Pending -> Pending;
  k_work : Current -> Inputs -> ST (Pending * Outputs) unit;
  k_xfer : Current -> Pending -> Outputs -> outcome (Current * Pending * Outputs);
  k_reset : Current -> Inputs -> Pending -> outcome Pending;
}.

(** Assignment to the pending half of the working state. *)
Definition on_pending {P O} (f : P -> P) : P * O -> P * O := fun '(p, o) => (f p, o).

Definition st_when {S} (b : bool) (m : ST S unit) : ST S unit := if b then m else st_ret tt.

(** [discard(current, pending); try { body } catch (...) { discard; throw; }] *)
Definition guarded_work {P O} (discard : P -> P) (body : ST (P * O) unit) : ST (P * O) unit :=
  do_ st_modify (on_pending discard) ;; try_rethrow body (on_pending discard).

(** The contract.  [k_idle c p]: nothing is staged for commit; [k_ok] is the
    invariant of the committed state, [k_staged c p] that of a pending
    transaction prepared from it, [k_pins_ok] and [k_outs_ok] those of the
    borrowed pins and destinations. *)
Class KernelLaws (Current Pending Inputs Outputs : Type)
    `{HK : Kernel Current Pending Inputs Outputs} := {
  k_ok : Current -> Prop;
  k_pins_ok : Inputs -> Prop;
  k_outs_ok : Outputs -> Prop;
  k_idle : Current -> Pending -> Prop;
  k_staged : Current -> Pending -> Prop;
  k_idle_staged : forall c p, k_idle c p -> k_staged c p;
  k_discard_idle : forall c p, k_ok c -> k_staged c p -> k_idle c (k_discard c p);
  k_work_cases : forall c i p o,
    k_ok c -> k_pins_ok i -> k_outs_ok o -> k_staged c p ->
    exists r p' o', k_work c i (p, o) = (r, (p', o')) /\ k_outs_ok o' /\
      match r with Ret _ => k_staged c p' | Throw _ => k_idle c p' | Terminate => False end;
  k_xfer_idle : forall c p o, k_idle c p -> k_xfer c p o = Ret (c, p, o);
  k_xfer_commits : forall c p o, k_ok c -> k_outs_ok o -> k_staged c p ->
    exists c' p' o', k_xfer c p o = Ret (c', p', o') /\ k_ok c' /\ k_idle c' p' /\ k_outs_ok o';
  k_reset_staged : forall c i p, k_ok c -> k_pins_ok i -> k_staged c p ->
    exists p', k_reset c i p = Ret p' /\ k_staged c p';
}.

Lemma guarded_work_ret {P O} (d : P -> P) (body : ST (P * O) unit) p o s :
  body (d p, o) = (Ret tt, s) -> guarded_work d body (p, o) = (Ret tt, s).
Proof. intros H. unfold guarded_work, st_bind, st_modify, try_rethrow. cbn. rewrite H. reflexivity. Qed.

Lemma guarded_work_throw {P O} (d : P -> P) (body : ST (P * O) unit) p o e s :
  body (d p, o) = (Throw e, s) -> guarded_work d body (p, o) = (Throw e, on_pending d s).
Proof. intros H. unfold guarded_work, st_bind, st_modify, try_rethrow. cbn. rewrite H. reflexivity. Qed.

(** One guard of a work function. *)
Lemma st_bind_ret {S A B} (m : ST S A) (k : A -> ST S B) s a s' :
  m s = (Ret a, s') -> st_bind m k s = k a s'.
Proof. intros H. unfold st_bind. rewrite H. reflexivity. Qed.

Lemma st_bind_throw {S A B} (m : ST S A) (k : A -> ST S B) s e s' :
  m s = (Throw e, s') -> st_bind m k s = (Throw e, s').
Proof. intros H. unfold st_bind. rewrite H. reflexivity. Qed.
