(* ===== verification/Dff.v ===== *)
(** * Registers: [include/gfsim/dff.h]

    The enabled register kernel, the register kernel built on it and the two
    module classes.  The payload signal is only copied, so the kernels are
    parametric in its type. *)

From Stdlib Require Import ZArith Lia String.
From stdpp Require Import base list numbers.
From S2P Require Import Prelude Bits BitsLogic BitsShift BitsArith FourState FourStateSpec Wire.
From S2P Require Import WireSpec SampledClock Kernel.

Module dffe_kernel.
Section Kernel.
Context {D : Type}.

Record Current := mkCurrent { q : D; clock : bool }.
Record Pending := mkPending { p_q : D; p_clock : bool; p_valid : bool }.
Record Inputs := mkInputs { clk : pin; rst : pin; en : pin; d : D; init : D }.
(** [struct Outputs { wire<T> &q; }]: the bound output signal. *)
Definition Outputs : Type := D.

Definition discard (c : Current) (p : Pending) : Pending := mkPending (q c) (clock c) false.

Definition work_body (c : Current) (i : Inputs) : ST (Pending * Outputs) unit :=
  do ck <- st_lift (evaluateSampledClock (clock c) (clk i) (rst i) Strict) ;;
  match fault ck with
  | UnknownClock => st_throw (FourStateViolation "dffe clock must be known")
  | UnknownReset => st_throw (FourStateViolation "dffe reset must be known at posedge")
  | NoFault =>
    do_ st_modify (on_pending (fun p => mkPending (p_q p) (nextClock ck) true)) ;;
    if negb (rising ck) then st_ret tt
    else if resetActive ck
    then st_modify (on_pending (fun p => mkPending (init i) (p_clock p) (p_valid p)))
    else if negb (pin_isFullyKnown (en i))
    then st_throw (FourStateViolation "dffe enable must be known at posedge")
    else st_when (pin_toBool (en i))
           (st_modify (on_pending (fun p => mkPending (d i) (p_clock p) (p_valid p))))
  end.

Definition work (c : Current) (i : Inputs) : ST (Pending * Outputs) unit :=
  guarded_work (discard c) (work_body c i).

Definition xfer (c : Current) (p : Pending) (o : Outputs) : Current * Pending * Outputs :=
  if negb (p_valid p) then (c, p, o)
  else let c := mkCurrent (p_q p) (p_clock p) in (c, discard c p, q c).

Definition reset (c : Current) (i : Inputs) (p : Pending) : Pending := mkPending (init i) false true.
End Kernel.
Arguments Current : clear implicits.
Arguments Pending : clear implicits.
Arguments Inputs : clear implicits.
Arguments Outputs : clear implicits.
End dffe_kernel.

Module dff_kernel.
Section Kernel.
Context {D : Type}.
Record Inputs := mkInputs { clk : pin; rst : pin; d : D; init : D }.

Definition discard (c : dffe_kernel.Current D) (p : dffe_kernel.Pending D)
  : dffe_kernel.Pending D := dffe_kernel.discard c p.

Definition enabled : outcome pin := wire_known (T:=Bits 1) (bits_of_word 1 1).

Definition work (c : dffe_kernel.Current D) (i : Inputs)
  : ST (dffe_kernel.Pending D * dffe_kernel.Outputs D) unit :=
  do e <- st_lift enabled ;;
  dffe_kernel.work c (dffe_kernel.mkInputs (clk i) (rst i) e (d i) (init i)).

Definition xfer (c : dffe_kernel.Current D) (p : dffe_kernel.Pending D)
  (o : dffe_kernel.Outputs D) := dffe_kernel.xfer c p o.

Definition reset (c : dffe_kernel.Current D) (i : Inputs) (p : dffe_kernel.Pending D)
  : outcome (dffe_kernel.Pending D) :=
  noexcept
    (e <- enabled ;;
     Ret (dffe_kernel.reset c (dffe_kernel.mkInputs (clk i) (rst i) e (d i) (init i)) p)).
End Kernel.
Arguments Inputs : clear implicits.
End dff_kernel.

(** ** The module classes

    Pins, the output and both halves of the state are members. *)
Module dffe.
Section Module_.
Context {D : Type}.
Import dffe_kernel.

Record t := mk {
  pins : Inputs D;
  out_q : D;
  current_ : Current D;
  pending_ : Pending D;
}.

Definition Work (m : t) : outcome unit * t :=
  let '(r, (p, o)) := work (current_ m) (pins m) (pending_ m, out_q m) in
  (r, mk (pins m) o (current_ m) p).
Definition Xfer (m : t) : t :=
  let '(c, p, o) := xfer (current_ m) (pending_ m) (out_q m) in mk (pins m) o c p.
Definition DiscardNext (m : t) : t :=
  mk (pins m) (out_q m) (current_ m) (discard (current_ m) (pending_ m)).
Definition Reset (m : t) : t :=
  mk (pins m) (out_q m) (current_ m) (reset (current_ m) (pins m) (pending_ m)).
Definition HasWork (m : t) : bool := true.
End Module_.
Arguments t : clear implicits.
End dffe.

Module dff.
Section Module_.
Context {D : Type}.

Record t := mk {
  pins : dff_kernel.Inputs D;
  out_q : D;
  current_ : dffe_kernel.Current D;
  pending_ : dffe_kernel.Pending D;
}.

Definition Work (m : t) : outcome unit * t :=
  let '(r, (p, o)) := dff_kernel.work (current_ m) (pins m) (pending_ m, out_q m) in
  (r, mk (pins m) o (current_ m) p).
Definition Xfer (m : t) : t :=
  let '(c, p, o) := dff_kernel.xfer (current_ m) (pending_ m) (out_q m) in mk (pins m) o c p.
Definition DiscardNext (m : t) : t :=
  mk (pins m) (out_q m) (current_ m) (dff_kernel.discard (current_ m) (pending_ m)).
Definition Reset (m : t) : outcome t :=
  p <- dff_kernel.reset (current_ m) (pins m) (pending_ m) ;;
  Ret (mk (pins m) (out_q m) (current_ m) p).
Definition HasWork (m : t) : bool := true.
End Module_.
Arguments t : clear implicits.
End dff.

(** ** Specification *)

Section Spec.
Context {D : Type}.
Import dffe_kernel.
Implicit Types (c : Current D) (p : Pending D) (i : Inputs D).

Definition dffe_pins_ok i : Prop := pin_wf (clk i) /\ pin_wf (rst i) /\ pin_wf (en i).

(** The register transition as a function of pin levels: the next state, or
    the pin that is not known when it matters. *)
Definition dffe_next c i : string + Current D :=
  match level (clk i) with
  | V0 => inr (mkCurrent (q c) false)
  | V1 =>
    if clock c then inr (mkCurrent (q c) true)
    else match level (rst i) with
         | V1 => inr (mkCurrent (init i) true)
         | V0 =>
           match level (en i) with
           | V1 => inr (mkCurrent (d i) true)
           | V0 => inr (mkCurrent (q c) true)
           | _ => inl "dffe enable must be known at posedge"%string
           end
         | _ => inl "dffe reset must be known at posedge"%string
         end
  | _ => inl "dffe clock must be known"%string
  end.

Lemma dffe_work_spec c i p o :
  dffe_pins_ok i ->
  work c i (p, o) =
  match dffe_next c i with
  | inr c' => (Ret tt, (mkPending (q c') (clock c') true, o))
  | inl e => (Throw (FourStateViolation e), (discard c p, o))
  end.
Proof.
  intros (Hc & Hr & He). unfold work, guarded_work, work_body, st_bind, st_modify, try_rethrow, st_lift.
  cbn [on_pending]. rewrite evaluateSampledClock_spec by assumption. cbn [reset_level].
  unfold dffe_next. destruct (level (clk i)) eqn:Ec; cbn; try reflexivity;
    destruct (clock c) eqn:Ek; cbn; try reflexivity.
  destruct (level (rst i)); cbn; try reflexivity.
  rewrite pin_isFullyKnown_level by exact He. destruct (known4 (level (en i))) eqn:E; cbn [negb].
  - rewrite pin_toBool_level by assumption. destruct (level (en i)); try discriminate; reflexivity.
  - destruct (level (en i)); try discriminate; reflexivity.
Qed.

(** One whole cycle of the module: [Work], then [Xfer] when it returned and
    [DiscardNext] when it threw. *)
Definition dffe_cycle (m : dffe.t D) : outcome unit * dffe.t D :=
  match dffe.Work m with
  | (Ret _, m') => (Ret tt, dffe.Xfer m')
  | (r, m') => (r, dffe.DiscardNext m')
  end.

(** One sample of an enabled register.  The outcome is a function of the
    pin levels: a rising edge loads the initial value under reset, otherwise
    the data when enabled and otherwise keeps the register; any other sample
    keeps it; the output follows the committed register.  An unknown clock,
    reset or enable that matters throws and leaves register and output as
    they were. *)
Theorem dffe_cycle_spec (m : dffe.t D) :
  dffe_pins_ok (dffe.pins m) ->
  match dffe_next (dffe.current_ m) (dffe.pins m) with
  | inr c' => dffe_cycle m =
      (Ret tt, dffe.mk (dffe.pins m) (q c') c' (discard c' (dffe.pending_ m)))
  | inl e => dffe_cycle m = (Throw (FourStateViolation e), dffe.DiscardNext m)
  end.
Proof.
  intros Hp. unfold dffe_cycle, dffe.Work. rewrite dffe_work_spec by exact Hp.
  destruct (dffe_next _ _) as [e|c']; [reflexivity|]. destruct c'. reflexivity.
Qed.

#[export] Instance dffe_is_kernel : Kernel (Current D) (Pending D) (Inputs D) (Outputs D) := {
  k_discard := discard;
  k_work := work;
  k_xfer c p o := Ret (xfer c p o);
  k_reset c i p := Ret (reset c i p);
}.

#[export] Program Instance dffe_laws : KernelLaws (Current D) (Pending D) (Inputs D) (Outputs D) := {
  k_ok _ := True;
  k_pins_ok := dffe_pins_ok;
  k_outs_ok _ := True;
  k_idle c p := p_valid p = false;
  k_staged _ _ := True;
}.
Solve All Obligations with cbn; auto.
Next Obligation.
  intros c i p o _ Hi _ _. unfold k_work, dffe_is_kernel. rewrite dffe_work_spec by exact Hi.
  destruct (dffe_next c i) as [e|c']; do 3 eexists; (split; [reflexivity|]); split; (exact I || reflexivity).
Qed.
Next Obligation. cbn. intros c p o H. unfold xfer. rewrite H. reflexivity. Qed.
Next Obligation.
  cbn. intros c p o _ _ _. unfold xfer. destruct (p_valid p) eqn:E; cbn [negb]; eauto 10.
Qed.
Next Obligation. cbn. eauto. Qed.
End Spec.

Lemma enabled_ok : dff_kernel.enabled = Ret (fs_bool true).
Proof. exact (f_equal noexcept (known_flag true)). Qed.

(** A plain register is an enabled register whose enable is one. *)
Lemma dff_work_spec {D} (c : dffe_kernel.Current D) (i : dff_kernel.Inputs D) s :
  dff_kernel.work c i s =
  dffe_kernel.work c (dffe_kernel.mkInputs (dff_kernel.clk i) (dff_kernel.rst i) (fs_bool true)
                        (dff_kernel.d i) (dff_kernel.init i)) s.
Proof. unfold dff_kernel.work. erewrite st_bind_ret; [reflexivity|]. unfold st_lift. rewrite enabled_ok. reflexivity. Qed.

Section DffLaws.
Context {D : Type}.

#[export] Instance dff_is_kernel :
  Kernel (dffe_kernel.Current D) (dffe_kernel.Pending D) (dff_kernel.Inputs D) (dffe_kernel.Outputs D) := {
  k_discard := dff_kernel.discard;
  k_work := dff_kernel.work;
  k_xfer c p o := Ret (dff_kernel.xfer c p o);
  k_reset := dff_kernel.reset;
}.

#[export] Program Instance dff_laws :
  KernelLaws (dffe_kernel.Current D) (dffe_kernel.Pending D) (dff_kernel.Inputs D) (dffe_kernel.Outputs D) := {
  k_ok _ := True;
  k_pins_ok i := pin_wf (dff_kernel.clk i) /\ pin_wf (dff_kernel.rst i);
  k_outs_ok _ := True;
  k_idle c p := dffe_kernel.p_valid p = false;
  k_staged _ _ := True;
}.
Solve All Obligations with cbn; auto.
Next Obligation.
  intros c i p o _ [Hc Hr] _ _. unfold k_work, dff_is_kernel. rewrite dff_work_spec.
  apply (k_work_cases (KernelLaws := dffe_laws)); cbn; auto using fs_bool_wf.
  split; [exact Hc|]. split; [exact Hr | apply fs_bool_wf].
Qed.
Next Obligation. apply (k_xfer_idle (KernelLaws := dffe_laws)). Qed.
Next Obligation. apply (k_xfer_commits (KernelLaws := dffe_laws)). Qed.
Next Obligation. cbn. intros. unfold dff_kernel.reset. rewrite enabled_ok. cbn. eauto. Qed.
End DffLaws.
