(* ===== verification/Collection.v ===== *)
(** * Bulk owners: [include/gfsim/collection.h]

    [collection_storage] owns a family of kernel states.  It is written
    against the [Kernel] interface, and its all-or-nothing commit is proved
    from [KernelLaws] alone. *)

From Stdlib Require Import ZArith Lia String.
From stdpp Require Import base list numbers.
From S2P Require Import Prelude Kernel.

Section Collection.
Context {Current Pending Inputs Outputs : Type}.
Context `{HK : Kernel Current Pending Inputs Outputs}.
Context `{IC : Inhabited Current} `{IP : Inhabited Pending} `{IO : Inhabited Outputs}.

Record collection_storage := mkCollection {
  current_ : list Current;
  pending_ : list Pending;
  completed_ : list bool;
  completedCount_ : Z;
}.
Implicit Types s : collection_storage.

Definition size s : Z := Z.of_nat (length (current_ s)).

Definition discard s : collection_storage :=
  let '(pending, completed) :=
    for_range (length (current_ s)) 0
      (fun lane '(pending, completed) =>
         (pending.[lane := k_discard (current_ s).[lane] pending.[lane]],
          completed.[lane := false]))
      (pending_ s, completed_ s) in
  mkCollection (current_ s) pending completed 0.

(** The constructor, with the kernel's default states. *)
Definition construct (c0 : Current) (p0 : Pending) (count : Z) : outcome collection_storage :=
  let n := Z.to_nat count in
  let s := mkCollection (replicate n c0) (replicate n p0) (replicate n false) 0 in
  if count =? 0 then Throw (InvalidArgument "collection size must be positive")
  else Ret (discard s).

Definition current s (lane : Z) : outcome Current :=
  if lane <? size s then Ret (current_ s).[lane] else Throw (OutOfRange "vector::at").

(** [work(lane, inputs, outputs)]; the state is the owner and the borrowed
    destination. *)
Definition work (lane : Z) (inputs : Inputs) : ST (collection_storage * Outputs) unit :=
  try_rethrow
    (fun '(s, o) =>
       if size s <=? lane then (Throw (OutOfRange "collection lane out of range"), (s, o))
       else
         match k_work (current_ s).[lane] inputs ((pending_ s).[lane], o) with
         | (r, (p, o')) =>
           let s := mkCollection (current_ s) ((pending_ s).[lane := p]) (completed_ s) (completedCount_ s) in
           match r with
           | Ret _ =>
             let s :=
               if negb (completed_ s).[lane]
               then mkCollection (current_ s) (pending_ s) ((completed_ s).[lane := true])
                                 (completedCount_ s + 1)
               else s in
             (Ret tt, (s, o'))
           | Throw e => (Throw e, (s, o'))
           | Terminate => (Terminate, (s, o'))
           end
         end)
    (fun '(s, o) => (discard s, o)).

(** [xfer(outputs)]: [outs] holds the destinations of all lanes. *)
Definition xfer (outs : list Outputs) s : outcome (collection_storage * list Outputs) :=
  if negb (completedCount_ s =? size s) then Ret (discard s, outs)
  else
    noexcept
      (r <- ofor_range (length (current_ s)) 0
         (fun lane '(cur, pend, outs) =>
            r <- k_xfer cur.[lane] pend.[lane] outs.[lane] ;;
            let '(c, p, o) := r in
            Ret (cur.[lane := c], pend.[lane := p], outs.[lane := o]))
         (current_ s, pending_ s, outs) ;;
       let '(cur, pend, outs) := r in
       Ret (discard (mkCollection cur pend (completed_ s) (completedCount_ s)), outs)).

Definition reset (inputs : Z -> Inputs) s : outcome collection_storage :=
  let s := discard s in
  noexcept
    (r <- ofor_range (length (current_ s)) 0
       (fun lane '(pend, completed) =>
          p <- k_reset (current_ s).[lane] (inputs lane) pend.[lane] ;;
          Ret (pend.[lane := p], completed.[lane := true]))
       (pending_ s, completed_ s) ;;
     let '(pend, completed) := r in
     Ret (mkCollection (current_ s) pend completed (size s))).
End Collection.
Arguments collection_storage : clear implicits.

(** ** The all-or-nothing contract *)

Section Laws.
Context {Current Pending Inputs Outputs : Type}.
Context `{HL : KernelLaws Current Pending Inputs Outputs}.
Context `{IC : Inhabited Current} `{IP : Inhabited Pending} `{IO : Inhabited Outputs}.
Implicit Types s : collection_storage Current Pending.

Definition count_true (l : list bool) : Z := foldr (fun b n => Z.b2z b + n) 0 l.

Definition lanes_idle (cur : list Current) (pend : list Pending) : Prop :=
  forall i, 0 <= i < Z.of_nat (length cur) -> k_idle cur.[i] pend.[i].

Record coll_inv s : Prop := {
  inv_pending : length (pending_ s) = length (current_ s);
  inv_completed : length (completed_ s) = length (current_ s);
  inv_count : completedCount_ s = count_true (completed_ s);
  inv_ok : forall i, 0 <= i < size s -> k_ok (current_ s).[i];
  inv_staged : forall i, 0 <= i < size s -> k_staged (current_ s).[i] (pending_ s).[i];
  inv_idle : forall i, 0 <= i < size s ->
    (completed_ s).[i] = false -> k_idle (current_ s).[i] (pending_ s).[i];
}.

Lemma discard_loop s n (pend : list Pending) (comp : list bool) i :
  for_range n i
    (fun lane '(pending, completed) =>
       (pending.[lane := k_discard (current_ s).[lane] pending.[lane]], completed.[lane := false]))
    (pend, comp) =
  (for_range n i (fun lane out => out.[lane := k_discard (current_ s).[lane] out.[lane]]) pend,
   for_range n i (fun lane out => out.[lane := false]) comp).
Proof using. revert i pend comp. induction n as [|n IH]; intros i pend comp; [reflexivity | apply IH]. Qed.

Lemma discard_eq s :
  length (pending_ s) = length (current_ s) -> length (completed_ s) = length (current_ s) ->
  discard s = mkCollection (current_ s)
    (tabulate (length (current_ s)) (fun i => k_discard (current_ s).[i] (pending_ s).[i]))
    (tabulate (length (current_ s)) (fun _ => false)) 0.
Proof using.
  intros Hp Hc. unfold discard. rewrite discard_loop.
  rewrite (array_update_loop _ (fun i p => k_discard (current_ s).[i] p)) by exact Hp.
  rewrite (array_loop _ (fun _ => false)) by exact Hc. reflexivity.
Qed.

Lemma count_true_false n : count_true (tabulate n (fun _ => false)) = 0.
Proof using.
  unfold count_true, tabulate. induction (seq 0 n) as [|k l IH]; [reflexivity|].
  cbn. exact IH.
Qed.

(** [discard] re-establishes the invariant with nothing staged. *)
Lemma discard_inv s :
  length (pending_ s) = length (current_ s) -> length (completed_ s) = length (current_ s) ->
  (forall i, 0 <= i < size s -> k_ok (current_ s).[i]) ->
  (forall i, 0 <= i < size s -> k_staged (current_ s).[i] (pending_ s).[i]) ->
  coll_inv (discard s) /\ current_ (discard s) = current_ s /\
  lanes_idle (current_ s) (pending_ (discard s)).
Proof using.
  intros Hp Hc Hok Hst. rewrite discard_eq by assumption.
  assert (Hidle : lanes_idle (current_ s) (tabulate (length (current_ s))
            (fun i => k_discard (current_ s).[i] (pending_ s).[i]))).
  { intros i Hi. rewrite tabulate_at by exact Hi. apply k_discard_idle; auto. }
  split; [|split; [reflexivity | exact Hidle]].
  constructor; cbn [current_ pending_ completed_ completedCount_]; rewrite ?length_tabulate; try reflexivity.
  - rewrite count_true_false. reflexivity.
  - exact Hok.
  - intros i Hi. apply k_idle_staged, Hidle, Hi.
  - intros i Hi _. apply Hidle, Hi.
Qed.

Lemma coll_discard_inv s :
  coll_inv s -> coll_inv (discard s) /\ current_ (discard s) = current_ s /\
    lanes_idle (current_ s) (pending_ (discard s)).
Proof using. intros [Hp Hc Hn Hok Hst Hid]. apply discard_inv; assumption. Qed.

Lemma count_true_set l i : 0 <= i < Z.of_nat (length l) -> l.[i] = false ->
  count_true (l.[i := true]) = count_true l + 1.
Proof using.
  intros Hi. assert (Hn : (Z.to_nat i < length l)%nat) by lia. revert Hn.
  generalize (Z.to_nat i) as k. clear Hi i.
  induction l as [|b l IH]; intros [|k] Hk; cbn [length] in Hk; try lia; intros E.
  - cbn in E. subst b. unfold count_true. cbn [insert list_insert foldr Z.b2z]. lia.
  - specialize (IH k ltac:(lia) E).
    change (Z.b2z b + count_true (<[k := true]> l) = Z.b2z b + count_true l + 1). lia.
Qed.

(** A lane's [Work] either completes the lane, leaving every other lane
    alone, or throws and drops everything staged in this cycle. *)
Lemma coll_work_spec lane i s o :
  coll_inv s -> 0 <= lane -> k_pins_ok i -> (lane < size s -> k_outs_ok o) ->
  exists r s' o', work lane i (s, o) = (r, (s', o')) /\
    (lane < size s -> k_outs_ok o') /\ coll_inv s' /\ current_ s' = current_ s /\
    match r with
    | Ret _ => lane < size s /\ (completed_ s').[lane] = true /\
        (forall j, 0 <= j < size s -> j <> lane ->
           (completed_ s').[j] = (completed_ s).[j] /\ (pending_ s').[j] = (pending_ s).[j])
    | Throw _ => completedCount_ s' = 0 /\ lanes_idle (current_ s) (pending_ s')
    | Terminate => False
    end.
Proof using.
  intros Hinv Hl Hi Hoo. unfold work, try_rethrow. destruct (Z.leb_spec (size s) lane) as [Hout|Hin].
  { destruct (coll_discard_inv s Hinv) as (H1 & H2 & H3). do 3 eexists. split; [reflexivity|].
    cbn iota. split; [lia|]. split; [exact H1|]. split; [exact H2|]. split; [|exact H3].
    rewrite discard_eq by apply Hinv. reflexivity. }
  pose proof Hinv as [Hp Hc Hn Hok Hst Hid].
  destruct (k_work_cases (current_ s).[lane] i (pending_ s).[lane] o) as (r & p' & o' & -> & Ho' & Hr); auto.
  set (s1 := mkCollection (current_ s) ((pending_ s).[lane := p']) (completed_ s) (completedCount_ s)).
  assert (Hst1 : k_staged (current_ s).[lane] p' ->
    forall j, 0 <= j < size s -> k_staged (current_ s).[j] (pending_ s1).[j]).
  { intros Hp' j Hj. cbn [s1 pending_]. rewrite array_get_set by (unfold size in *; lia).
    destruct (Z.eqb_spec j lane) as [->|]; auto. }
  destruct r as [u|e|]; [| |contradiction].
  - do 3 eexists. split; [reflexivity|]. split; [auto|].
    destruct (completed_ s1).[lane] eqn:Ec; cbn [negb]; cbn [s1 current_ pending_ completed_ completedCount_] in *.
    + split; [|split; [reflexivity|]].
      * constructor; cbn; rewrite ?length_insert; auto. intros j Hj Ej.
        rewrite array_get_set by (unfold size in *; lia).
        destruct (Z.eqb_spec j lane) as [->|]; [congruence | auto].
      * split; [exact Hin|]. split; [exact Ec|]. intros j Hj Hne.
        rewrite array_get_set_ne by lia. auto.
    + split; [|split; [reflexivity|]].
      * constructor; cbn; rewrite ?length_insert; auto.
        -- rewrite count_true_set, Hn by (unfold size in *; (assumption || lia)). reflexivity.
        -- intros j Hj. rewrite !array_get_set by (unfold size in *; lia).
           destruct (Z.eqb_spec j lane) as [->|]; [discriminate | auto].
      * split; [exact Hin|]. rewrite array_get_set_eq by (unfold size in *; lia).
        split; [reflexivity|]. intros j Hj Hne. rewrite !array_get_set_ne by lia. auto.
  - destruct (discard_inv s1) as (H1 & H2 & H3); cbn [s1 current_ pending_ completed_]; rewrite ?length_insert; auto.
    { apply Hst1, k_idle_staged, Hr. }
    do 3 eexists. split; [reflexivity|]. split; [auto|].
    split; [exact H1|]. split; [exact H2|]. split; [|exact H3].
    rewrite discard_eq by (cbn; rewrite ?length_insert; assumption). reflexivity.
Qed.
Lemma count_true_le l : 0 <= count_true l <= Z.of_nat (length l).
Proof using.
  induction l as [|b l IH]; [cbn; lia|].
  change (count_true (b :: l)) with (Z.b2z b + count_true l). cbn [length]. destruct b; cbn [Z.b2z]; lia.
Qed.

Lemma count_true_all l :
  count_true l = Z.of_nat (length l) <-> forall i, 0 <= i < Z.of_nat (length l) -> l.[i] = true.
Proof using.
  induction l as [|b l IH]; [split; [intros _ i Hi; cbn in Hi; lia | reflexivity]|].
  change (count_true (b :: l)) with (Z.b2z b + count_true l). pose proof (count_true_le l). cbn [length].
  split.
  - intros E. destruct b; cbn [Z.b2z] in E; [|lia]. intros i Hi.
    destruct (Z.eq_dec i 0) as [->|]; [reflexivity|].
    replace (Z.to_nat i) with (S (Z.to_nat (i - 1))) by lia. apply IH; lia.
  - intros Hall. assert (E0 : b = true) by exact (Hall 0 ltac:(lia)). subst b.
    assert (E : count_true l = Z.of_nat (length l)).
    { apply IH. intros i Hi. specialize (Hall (i + 1) ltac:(lia)).
      replace (Z.to_nat (i + 1)) with (S (Z.to_nat i)) in Hall by lia. exact Hall. }
    cbn [Z.b2z]. lia.
Qed.

(** The commit loop visits every lane once. *)
Lemma xfer_loop s outs :
  coll_inv s -> length outs = length (current_ s) -> Forall k_outs_ok outs ->
  exists cur pend outs',
    ofor_range (length (current_ s)) 0
      (fun lane '(cur, pend, outs) =>
         r <- k_xfer cur.[lane] pend.[lane] outs.[lane] ;;
         let '(c, p, o) := r in
         Ret (cur.[lane := c], pend.[lane := p], outs.[lane := o]))
      (current_ s, pending_ s, outs) = Ret (cur, pend, outs') /\
    length cur = length (current_ s) /\ length pend = length (current_ s) /\
    length outs' = length (current_ s) /\
    forall i, 0 <= i < size s ->
      k_ok cur.[i] /\ k_idle cur.[i] pend.[i] /\
      k_xfer (current_ s).[i] (pending_ s).[i] outs.[i] = Ret (cur.[i], pend.[i], outs'.[i]).
Proof using.
  intros [Hp Hc Hn Hok Hst Hid] Ho Hoo. unfold size in *.
  match goal with |- context [ofor_range ?m ?i ?b ?st] =>
    destruct (ofor_range_inv (fun k '(cur, pend, outs') =>
      length cur = length (current_ s) /\ length pend = length (current_ s) /\
      length outs' = length (current_ s) /\
      forall j, 0 <= j < Z.of_nat (length (current_ s)) ->
        if j <? k then k_ok cur.[j] /\ k_idle cur.[j] pend.[j] /\
          k_xfer (current_ s).[j] (pending_ s).[j] outs.[j] = Ret (cur.[j], pend.[j], outs'.[j])
        else cur.[j] = (current_ s).[j] /\ pend.[j] = (pending_ s).[j] /\ outs'.[j] = outs.[j])
      m i b st) as ([[cur pend] outs'] & E & L1 & L2 & L3 & Hall) end.
  - repeat split; auto. intros j Hj. destruct (Z.ltb_spec j 0); [lia | auto].
  - intros k [[cur pend] outs'] Hk (L1 & L2 & L3 & Hall).
    pose proof (Hall k ltac:(lia)) as Hkk. rewrite Z.ltb_irrefl in Hkk. destruct Hkk as (-> & -> & ->).
    destruct (k_xfer_commits (current_ s).[k] (pending_ s).[k] outs.[k]) as (c' & p' & o' & Ex & Hc' & Hi' & _);
      [apply Hok; lia | apply Forall_at; [exact Hoo | lia] | apply Hst; lia|].
    rewrite Ex. cbn [obind]. eexists. split; [reflexivity|]. cbn beta iota. rewrite !length_insert. split; [exact L1|].
    split; [exact L2|]. split; [exact L3|]. intros j Hj.
    rewrite !array_get_set by lia. specialize (Hall j Hj).
    destruct (Z.eqb_spec j k) as [Hjk|Hne], (Z.ltb_spec j (k + 1)), (Z.ltb_spec j k); try lia; auto.
    subst j. auto.
  - exists cur, pend, outs'. rewrite E. split; [reflexivity|]. do 3 (split; [assumption|]).
    intros i Hi. specialize (Hall i Hi). destruct (Z.ltb_spec i (0 + Z.of_nat (length (current_ s)))); [exact Hall | lia].
Qed.

Lemma coll_xfer_spec outs s :
  coll_inv s -> length outs = length (current_ s) -> Forall k_outs_ok outs ->
  exists s' outs', xfer outs s = Ret (s', outs') /\ coll_inv s' /\
    length (current_ s') = length (current_ s) /\
    lanes_idle (current_ s') (pending_ s') /\
    if completedCount_ s =? size s
    then forall i, 0 <= i < size s -> exists p,
           k_xfer (current_ s).[i] (pending_ s).[i] outs.[i] = Ret ((current_ s').[i], p, outs'.[i])
    else current_ s' = current_ s /\ outs' = outs.
Proof using.
  intros Hinv Ho Hoo. unfold xfer. destruct (Z.eqb_spec (completedCount_ s) (size s)) as [Heq|Hne]; cbn [negb].
  - destruct (xfer_loop s outs Hinv Ho Hoo) as (cur & pend & outs' & -> & L1 & L2 & L3 & Hall). cbn [obind noexcept].
    destruct (discard_inv (mkCollection cur pend (completed_ s) (completedCount_ s))) as (H1 & H2 & H3).
    + cbn. congruence.
    + cbn. rewrite L1. apply Hinv.
    + unfold size. cbn. rewrite L1. intros i Hi. apply Hall, Hi.
    + unfold size. cbn. rewrite L1. intros i Hi. apply k_idle_staged, Hall, Hi.
    + do 2 eexists. split; [reflexivity|]. split; [exact H1|]. rewrite H2. split; [exact L1|].
      split; [exact H3|]. intros i Hi. exists pend.[i]. apply Hall, Hi.
  - destruct (coll_discard_inv s Hinv) as (H1 & H2 & H3). do 2 eexists. split; [reflexivity|].
    rewrite H2. auto.
Qed.

(** The works of one cycle, in order; an exception ends the sequence. *)
Fixpoint run_works (calls : list (Z * Inputs)) : ST (collection_storage Current Pending * list Outputs) unit :=
  fun '(s, outs) =>
    match calls with
    | [] => (Ret tt, (s, outs))
    | (lane, i) :: rest =>
      match work lane i (s, outs.[lane]) with
      | (Ret _, (s', o)) => run_works rest (s', outs.[lane := o])
      | (r, (s', o)) => (r, (s', outs.[lane := o]))
      end
    end.

Definition calls_ok (calls : list (Z * Inputs)) : Prop :=
  Forall (fun '(lane, i) => 0 <= lane /\ k_pins_ok i) calls.

Lemma run_works_spec calls : forall s outs,
  coll_inv s -> calls_ok calls -> length outs = length (current_ s) -> Forall k_outs_ok outs ->
  exists r s' outs', run_works calls (s, outs) = (r, (s', outs')) /\
    coll_inv s' /\ current_ s' = current_ s /\ length outs' = length outs /\ Forall k_outs_ok outs' /\
    match r with
    | Ret _ => forall i, 0 <= i < size s ->
        (completed_ s').[i] = true <-> (completed_ s).[i] = true \/ i ∈ calls.*1
    | Throw _ => completedCount_ s' = 0
    | Terminate => False
    end.
Proof using.
  induction calls as [|[lane i] calls IH]; intros s outs Hinv Hcalls Ho Hoo; cbn [run_works].
  - do 3 eexists. split; [reflexivity|]. split; [exact Hinv|]. split; [reflexivity|].
    split; [reflexivity|]. split; [exact Hoo|]. intros j Hj. cbn [fmap list_fmap]. rewrite elem_of_nil. tauto.
  - inversion Hcalls as [|? ? Hhead Hrest]; subst. cbn beta iota in Hhead. destruct Hhead as [Hl Hi].
    destruct (coll_work_spec lane i s outs.[lane] Hinv Hl Hi) as (r & s1 & o1 & -> & Ho1 & Hinv1 & Hcur & Hr).
    { intros Hlt. apply Forall_at; [exact Hoo | unfold size in *; lia]. }
    assert (Hoo1 : Forall k_outs_ok (outs.[lane := o1])).
    { destruct (Z_lt_le_dec lane (size s)); [apply Forall_insert; auto|].
      rewrite list_insert_ge by (unfold size in *; lia). exact Hoo. }
    destruct r as [u|e|]; [| |contradiction].
    + destruct Hr as (Hin & Hdone & Hother).
      destruct (IH s1 (outs.[lane := o1]) Hinv1 Hrest) as (r & s2 & o2 & -> & Hinv2 & Hcur2 & Hlen & Hoo2 & Hr2); [|exact Hoo1|].
      { rewrite length_insert. congruence. }
      rewrite length_insert in Hlen. do 3 eexists. split; [reflexivity|].
      split; [exact Hinv2|]. split; [congruence|]. split; [exact Hlen|]. split; [exact Hoo2|].
      destruct r as [u'|e|]; [|exact Hr2 | contradiction].
      intros j Hj. unfold size in *. rewrite Hr2 by (rewrite Hcur; exact Hj).
      rewrite fmap_cons, elem_of_cons. cbn [fst].
      destruct (Z.eq_dec j lane) as [->|Hne]; [tauto|].
      destruct (Hother j Hj Hne) as [-> _]. tauto.
    + do 3 eexists. split; [reflexivity|]. rewrite length_insert. tauto.
Qed.
(** A bounded search for a lane outside a list. *)
Lemma not_all_not_ex_range n (l : list Z) :
  ~ (forall i, 0 <= i < Z.of_nat n -> i ∈ l) -> exists i, 0 <= i < Z.of_nat n /\ i ∉ l.
Proof using.
  intros H. destruct (all_range n 0 (fun i => bool_decide (i ∈ l))) eqn:E.
  - exfalso. apply H. rewrite all_range_true in E. intros i Hi.
    specialize (E i ltac:(lia)). apply bool_decide_eq_true in E. exact E.
  - apply all_range_false in E as (i & Hi & Hb). exists i. split; [lia|].
    apply bool_decide_eq_false in Hb. exact Hb.
Qed.

Lemma completed_count s : coll_inv s ->
  completedCount_ s = size s <-> forall i, 0 <= i < size s -> (completed_ s).[i] = true.
Proof using.
  intros [Hp Hc Hn _ _ _]. unfold size. rewrite Hn, <- Hc. apply count_true_all.
Qed.

Lemma fresh_incomplete s i :
  coll_inv s -> completedCount_ s = 0 -> 0 <= i < size s -> (completed_ s).[i] = false.
Proof using.
  intros [Hp Hc Hn _ _ _] H0 Hi. rewrite H0 in Hn. unfold size in Hi. rewrite <- Hc in Hi.
  revert i Hi Hn. clear. induction (completed_ s) as [|b l IH]; intros i Hi Hn; cbn [length] in Hi; [lia|].
  change (0 = Z.b2z b + count_true l) in Hn. pose proof (count_true_le l).
  destruct b; cbn [Z.b2z] in Hn; [lia|]. destruct (Z.eq_dec i 0) as [->|]; [reflexivity|].
  replace (Z.to_nat i) with (S (Z.to_nat (i - 1))) by lia. apply (IH (i - 1)); lia.
Qed.

End Laws.
