(* ===== verification/Fifo.v ===== *)
(** * Queues: [include/gfsim/fifo.h]

    The queue kernel: a ring buffer with a ready policy and, for a latency
    above one, per-slot availability deadlines on a wrapping clock.  The
    specification file [FifoSpec.v] relates it to a plain list of tokens with
    remaining waiting times. *)

From Stdlib Require Import ZArith Lia String.
From stdpp Require Import base list numbers.
From S2P Require Import Prelude Bits FourState Wire SampledClock Kernel.

Inductive QueueReadyPolicy := LocalOccupancy | DownstreamPop.

(** [std::bit_width] *)
Definition bit_width (x : Z) : Z := if x =? 0 then 0 else Z.log2 x + 1.

Module fifo_kernel.
Section Kernel.
Context {T : Type} `{HT : HardwareTraits T} `{HWire : !Wire T} `{ID : Inhabited (wire T)}.
Context (Depth : Z) (Policy : QueueReadyPolicy) (AvailabilityLatency : Z).

(** [DelayedTiming]; with a latency of one the source uses the empty
    [EmptyTiming] and never reads or writes these members. *)
Record Timing := mkTiming {
  deadline : list Z;
  tick : Z;
  mature_ptr : Z;
  eligible_count : Z;
}.

Definition TimestampWidth : Z := bit_width (AvailabilityLatency - 1).

Record Current := mkCurrent {
  storage : list (wire T);
  rd : Z;
  wr : Z;
  count : Z;
  initialized : bool;
  clock : bool;
  timing : Timing;
}.
Record Pending := mkPending {
  token : wire T;
  p_valid : bool;
  p_clock : bool;
  p_reset : bool;
  p_push : bool;
  p_pop : bool;
  advance_time : bool;
  mature : bool;
}.
Record Inputs := mkInputs {
  clk : pin;
  rst : pin;
  in_valid : pin;
  in_data : wire T;
  out_ready : pin;
}.
(** The bound destinations; [work] and [xfer] do not write them. *)
Record Outputs := mkOutputs { o_in_ready : pin; o_out_valid : pin; o_out_data : wire T }.

Definition wrapTick (v : Z) : Z :=
  if TimestampWidth =? 64 then v
  else Z.land v (u64_sub (u64_shl 1 TimestampWidth) 1).

Definition eligibleCount (c : Current) : Z :=
  if AvailabilityLatency =? 1 then count c else eligible_count (timing c).

Definition bit1 (b : bool) : Bits 1 := bits_of_word 1 (if b then 1 else 0).

Definition readValid (c : Current) : outcome pin :=
  if negb (initialized c) then wire_unknown (Bits 1)
  else wire_known (T:=Bits 1) (bit1 (negb (eligibleCount c =? 0))).

Definition readData (c : Current) : outcome (wire T) :=
  noexcept
    (if negb (initialized c) then wire_unknown T
     else if negb (eligibleCount c =? 0) then Ret (storage c).[rd c]
     else k <- FS.known (bits_default (hw_width T)) ;; fromPacked k).

Definition readReady (c : Current) (outReady : pin) : outcome pin :=
  noexcept
    (if negb (initialized c) then wire_unknown (Bits 1)
     else
       capacity <- FS.known (bit1 (count c <? Depth)) ;;
       match Policy with
       | LocalOccupancy => fromPacked (T:=Bits 1) capacity
       | DownstreamPop =>
         valid <- readValid c ;;
         valid <- packed (T:=Bits 1) valid ;;
         ready <- packed (T:=Bits 1) outReady ;;
         pop <- FS.bit_and valid ready ;;
         r <- FS.bit_or capacity pop ;;
         fromPacked (T:=Bits 1) r
       end).

Definition discard (c : Current) (p : Pending) : Pending :=
  mkPending (token p) false (clock c) false false false false false.

Definition next_tick (c : Current) : Z := wrapTick (u64_add (tick (timing c)) 1).

Definition set_valid_clock (v k : bool) (p : Pending) : Pending :=
  mkPending (token p) v k (p_reset p) (p_push p) (p_pop p) (advance_time p) (mature p).

Definition work_body (c : Current) (i : Inputs) : ST (Pending * Outputs) unit :=
  if negb (pin_isFullyKnown (clk i))
  then st_throw (FourStateViolation "fifo clock must be known")
  else
    let ck := pin_toBool (clk i) in
    do_ st_modify (on_pending (set_valid_clock true ck)) ;;
    if clock c || negb ck then st_ret tt
    else if negb (pin_isFullyKnown (rst i))
    then st_throw (FourStateViolation "fifo reset must be known at posedge")
    else if pin_toBool (rst i)
    then st_modify (on_pending (fun p =>
           mkPending (token p) (p_valid p) (p_clock p) true (p_push p) (p_pop p)
                     (advance_time p) (mature p)))
    else
      do valid <- st_lift (readValid c) ;;
      do valid <- st_lift (packed (T:=Bits 1) valid) ;;
      do ready <- st_lift (packed (T:=Bits 1) (out_ready i)) ;;
      do pop <- st_lift (FS.bit_and valid ready) ;;
      do inValid <- st_lift (packed (T:=Bits 1) (in_valid i)) ;;
      do rdy <- st_lift (readReady c (out_ready i)) ;;
      do rdy <- st_lift (packed (T:=Bits 1) rdy) ;;
      do push <- st_lift (FS.bit_and inValid rdy) ;;
      if negb (FS.isFullyKnown push) || negb (FS.isFullyKnown pop)
      then st_throw (FourStateViolation "fifo effective transfers must be known")
      else
        do_ st_modify (on_pending (fun p =>
              let push := toBool (value_ push) in
              mkPending (if push then in_data i else token p) (p_valid p) (p_clock p) (p_reset p)
                        push (toBool (value_ pop)) (advance_time p) (mature p))) ;;
        st_when ((1 <? AvailabilityLatency) && initialized c)
          (st_modify (on_pending (fun p =>
             mkPending (token p) (p_valid p) (p_clock p) (p_reset p) (p_push p) (p_pop p) true
               ((eligible_count (timing c) <? count c) &&
                ((deadline (timing c)).[mature_ptr (timing c)] =? next_tick c))))).

Definition work (c : Current) (i : Inputs) : ST (Pending * Outputs) unit :=
  guarded_work (discard c) (work_body c i).

(** [ptr == Depth - 1 ? 0 : ptr + 1] *)
Definition bump (ptr : Z) : Z := if ptr =? Depth - 1 then 0 else u64_add ptr 1.

(** [if (up != down) { if (up) ++n; else --n; }] *)
Definition adjust (up down : bool) (n : Z) : Z :=
  if negb (Bool.eqb up down) then (if up then u64_add n 1 else u64_sub n 1) else n.

Definition xfer_timing (p : Pending) (wr_ : Z) (t : Timing) : Timing :=
  let tick' := if advance_time p then wrapTick (u64_add (tick t) 1) else tick t in
  let mature_ptr' := if mature p then bump (mature_ptr t) else mature_ptr t in
  let eligible' := adjust (mature p) (p_pop p) (eligible_count t) in
  let deadline' :=
    if p_push p
    then (deadline t).[wr_ := wrapTick (u64_add tick' (AvailabilityLatency - 1))]
    else deadline t in
  mkTiming deadline' tick' mature_ptr' eligible'.

Definition xfer (c : Current) (p : Pending) (o : Outputs) : Current * Pending * Outputs :=
  if negb (p_valid p) then (c, p, o)
  else
    let c :=
      if p_reset p then
        mkCurrent (storage c) 0 0 0 true (p_clock p)
          (if 1 <? AvailabilityLatency then mkTiming (deadline (timing c)) 0 0 0 else timing c)
      else if initialized c then
        mkCurrent
          (if p_push p then (storage c).[wr c := token p] else storage c)
          (if p_pop p then bump (rd c) else rd c)
          (if p_push p then bump (wr c) else wr c)
          (adjust (p_push p) (p_pop p) (count c))
          true (p_clock p)
          (if 1 <? AvailabilityLatency then xfer_timing p (wr c) (timing c) else timing c)
      else mkCurrent (storage c) (rd c) (wr c) (count c) false (p_clock p) (timing c) in
    (c, discard c p, o).

Definition reset (c : Current) (i : Inputs) (p : Pending) : Pending :=
  let p := discard c p in
  mkPending (token p) true false true (p_push p) (p_pop p) (advance_time p) (mature p).

(** The default member initialisers. *)
Definition initial (blank : wire T) : Current :=
  mkCurrent (replicate (Z.to_nat Depth) blank) 0 0 0 false false
    (mkTiming (replicate (Z.to_nat Depth) 0) 0 0 0).
End Kernel.
Arguments Current T {_ _}.
Arguments Pending T {_ _}.
Arguments Inputs T {_ _}.
Arguments Outputs T {_ _}.
End fifo_kernel.
