(* ===== verification/FifoSpec.v ===== *)
(** * The queue kernel refines a list of waiting tokens

    The abstract queue is a list of tokens, each with the number of clock
    edges until it may leave; [None] is the queue before its first reset.
    The theorems relate the ring buffer, its pointers and its wrapping
    deadlines to that list for every depth, policy and latency. *)

From Stdlib Require Import ZArith Lia String.
From stdpp Require Import base list numbers.
From S2P Require Import Prelude Bits BitsLogic BitsShift BitsArith FourState FourStateSpec Wire.
From S2P Require Import WireSpec SampledClock Kernel Fifo.

(** ** Pins through the four-state operators *)

(** A pin is a four-state value of width one. *)
Ltac pin_width := change (@hw_width (Bits 1) (bits_traits 1)) with 1 in *.

Lemma pin_of_returns (m : outcome (FourState 1)) f :
  returns m f -> exists r : pin, m = Ret r /\ pin_wf r /\ level r = f 0.
Proof. intros (r & -> & Hr & Hl). exists r. split; [reflexivity|]. split; [exact Hr | apply Hl; lia]. Qed.

Lemma pin_and (x y : pin) : pin_wf x -> pin_wf y ->
  exists r : pin, FS.bit_and (W:=1) x y = Ret r /\ pin_wf r /\ level r = and4 (level x) (level y).
Proof. intros Hx Hy. exact (pin_of_returns _ _ (bit_and_spec (W:=1) x y Hx Hy)). Qed.

Lemma pin_or (x y : pin) : pin_wf x -> pin_wf y ->
  exists r : pin, FS.bit_or (W:=1) x y = Ret r /\ pin_wf r /\ level r = or4 (level x) (level y).
Proof. intros Hx Hy. exact (pin_of_returns _ _ (bit_or_spec (W:=1) x y Hx Hy)). Qed.

Lemma known_bit1 b : FS.known (fifo_kernel.bit1 b) = Ret (fs_bool b).
Proof. apply known_flag. Qed.

Lemma wire_known_bit1 b : wire_known (T:=Bits 1) (fifo_kernel.bit1 b) = Ret (fs_bool b).
Proof. exact (f_equal noexcept (known_flag b)). Qed.

Lemma wire_unknown_pin : exists r : pin, wire_unknown (Bits 1) = Ret r /\ pin_wf r /\ level r = VX.
Proof.
  destruct (unknown_ok (W:=1) (bits_of_word 1 0) zero_wf) as [E Hwf].
  exists (fs_x (bits_of_word 1 0)). split; [exact (f_equal noexcept E)|]. split; [exact Hwf | reflexivity].
Qed.

(** ** The abstract queue *)

Abbreviation queue A := (list (A * Z)).

Section Abstract.
Context {A : Type} (Depth : Z) (Policy : QueueReadyPolicy) (Latency : Z).

Definition q_valid (s : queue A) : bool := match s with (_, r) :: _ => r =? 0 | [] => false end.

Definition q_age (s : queue A) : queue A := (fun '(x, r) => (x, Z.max 0 (r - 1))) <$> s.

Definition q_transfer (push pop : bool) (x : A) (s : queue A) : queue A :=
  q_age (if pop then tail s else s) ++ (if push then [(x, Latency - 1)] else []).

Definition q_valid4 (s : option (queue A)) : V4 :=
  match s with Some s => of_bool (q_valid s) | None => VX end.

Definition q_ready4 (s : option (queue A)) (outReady : V4) : V4 :=
  match s with
  | None => VX
  | Some l =>
    let capacity := of_bool (Z.of_nat (length l) <? Depth) in
    match Policy with
    | LocalOccupancy => capacity
    | DownstreamPop => or4 capacity (and4 (q_valid4 s) outReady)
    end
  end.

(** What one sample of the pins does: hold, reset, or transfer. *)
Inductive fifo_op := Hold (ck : bool) | DoReset | Transfer (push pop : bool).

Definition fifo_decide (prev : bool) (valid4 : V4) (ready4 : V4 -> V4)
    (clk rst in_valid out_ready : V4) : string + fifo_op :=
  match clk with
  | V0 => inr (Hold false)
  | V1 =>
    if prev then inr (Hold true)
    else match rst with
         | V1 => inr DoReset
         | V0 =>
           let pop := and4 valid4 out_ready in
           let push := and4 in_valid (ready4 out_ready) in
           if known4 push && known4 pop then inr (Transfer (is1 push) (is1 pop))
           else inl "fifo effective transfers must be known"%string
         | _ => inl "fifo reset must be known at posedge"%string
         end
  | _ => inl "fifo clock must be known"%string
  end.

Definition op_clock (op : fifo_op) : bool := match op with Hold ck => ck | _ => true end.

Definition q_apply (op : fifo_op) (x : A) (s : option (queue A)) : option (queue A) :=
  match op with
  | Hold _ => s
  | DoReset => Some []
  | Transfer push pop => q_transfer push pop x <$> s
  end.
End Abstract.

(** ** The kernel's decision and commit *)

Section Kernel.
Context {T : Type} `{HT : HardwareTraits T} `{HWire : !Wire T} `{ID : Inhabited (wire T)}.
Context (Depth : Z) (Policy : QueueReadyPolicy) (L : Z).
Import fifo_kernel.
Implicit Types (c : Current T) (p : Pending T) (i : Inputs T).

Definition fifo_pins_ok i : Prop :=
  pin_wf (clk i) /\ pin_wf (rst i) /\ pin_wf (in_valid i) /\ pin_wf (out_ready i).

Definition c_valid4 c : V4 :=
  if initialized c then of_bool (negb (eligibleCount L c =? 0)) else VX.

Definition c_ready4 c (outReady : V4) : V4 :=
  if initialized c then
    match Policy with
    | LocalOccupancy => of_bool (count c <? Depth)
    | DownstreamPop => or4 (of_bool (count c <? Depth)) (and4 (c_valid4 c) outReady)
    end
  else VX.

Lemma readValid_level c :
  exists r, readValid L c = Ret r /\ pin_wf r /\ level r = c_valid4 c.
Proof using.
  unfold readValid, c_valid4. destruct (initialized c); cbn [negb]; [|apply wire_unknown_pin].
  rewrite wire_known_bit1. eexists. split; [reflexivity|]. auto using fs_bool_wf, level_fs_bool.
Qed.

Lemma readReady_level c outReady :
  pin_wf outReady ->
  exists r, readReady Depth Policy L c outReady = Ret r /\ pin_wf r /\
    level r = c_ready4 c (level outReady).
Proof using.
  intros Ho. unfold readReady, c_ready4. destruct (initialized c) eqn:Ei; cbn [negb].
  2:{ destruct wire_unknown_pin as (r & -> & H). exists r. auto. }
  rewrite known_bit1. cbn [obind]. destruct Policy.
  - eexists. split; [reflexivity|]. auto using fs_bool_wf, level_fs_bool.
  - destruct (readValid_level c) as (v & -> & Hv & Ev). cbn [obind packed bits_wire scalar_wire]. pin_width.
    destruct (pin_and v outReady Hv Ho) as (pop & -> & Hp & Ep). cbn [obind].
    destruct (pin_or (fs_bool (count c <? Depth)) pop (fs_bool_wf _) Hp) as (r & -> & Hr & Er).
    exists r. split; [reflexivity|]. split; [exact Hr|]. rewrite Er, Ep, Ev, level_fs_bool. reflexivity.
Qed.

Definition c_decide c i : string + fifo_op :=
  fifo_decide (clock c) (c_valid4 c) (c_ready4 c)
    (level (clk i)) (level (rst i)) (level (in_valid i)) (level (out_ready i)).

(** The head of the delayed suffix becomes available at this edge. *)
Definition c_mature c : bool :=
  (eligible_count (timing c) <? count c) &&
  ((deadline (timing c)).[mature_ptr (timing c)] =? next_tick L c).

Definition staged c i p (op : fifo_op) : Pending T :=
  match op with
  | Hold ck => mkPending (token p) true ck false false false false false
  | DoReset => mkPending (token p) true true true false false false false
  | Transfer push pop =>
    let timed := (1 <? L) && initialized c in
    mkPending (if push then in_data i else token p) true true false push pop timed (timed && c_mature c)
  end.

Lemma fifo_work_spec c i p o :
  fifo_pins_ok i ->
  work Depth Policy L c i (p, o) =
  match c_decide c i with
  | inr op => (Ret tt, (staged c i p op, o))
  | inl e => (Throw (FourStateViolation e), (discard c p, o))
  end.
Proof using.
  intros (Hc & Hr & Hv & Ho). unfold work, guarded_work, work_body, c_decide, fifo_decide.
  unfold st_bind at 1, st_modify at 1. cbn [on_pending]. unfold try_rethrow.
  rewrite !pin_isFullyKnown_level by assumption.
  destruct (known4 (level (clk i))) eqn:Ek; cbn [negb];
    [rewrite (pin_toBool_level _ Hc Ek) | destruct (level (clk i)); try discriminate; reflexivity].
  unfold st_bind at 1, st_modify at 1. cbn [on_pending].
  destruct (level (clk i)), (clock c) eqn:Ec; try discriminate; cbn [is1 negb orb]; try reflexivity.
  destruct (known4 (level (rst i))) eqn:Er; cbn [negb];
    [rewrite (pin_toBool_level _ Hr Er) | destruct (level (rst i)); try discriminate; reflexivity].
  destruct (level (rst i)) eqn:Els; try discriminate; cbn [is1]; [|unfold st_modify, discard, set_valid_clock; cbn; rewrite ?Ec; reflexivity].
  destruct (readValid_level c) as (v & Ev & Hvw & Lv).
  destruct (pin_and v (out_ready i) Hvw Ho) as (pop & Ep & Hpw & Lp).
  destruct (readReady_level c (out_ready i) Ho) as (rdy & Erd & Hrw & Lr).
  destruct (pin_and (in_valid i) rdy Hv Hrw) as (push & Epu & Hpuw & Lpu).
  unfold st_bind, st_lift. cbn [packed bits_wire scalar_wire]. pin_width. rewrite Ev. cbv beta iota.
  rewrite Ep, Erd. cbv beta iota. rewrite Epu. cbv beta iota.
  change (FS.isFullyKnown (W:=1) push) with (pin_isFullyKnown push).
  change (FS.isFullyKnown (W:=1) pop) with (pin_isFullyKnown pop).
  rewrite Lv in Lp. rewrite Lr in Lpu. rewrite !pin_isFullyKnown_level, <- Lp, <- Lpu by assumption.
  destruct (known4 (level push)) eqn:K1, (known4 (level pop)) eqn:K2; cbn [negb orb andb]; try reflexivity.
  change (toBool (value_ (Width:=1) push)) with (pin_toBool push).
  change (toBool (value_ (Width:=1) pop)) with (pin_toBool pop).
  rewrite !pin_toBool_level by assumption. unfold st_modify, st_when, staged, set_valid_clock, discard. cbn.
  destruct ((1 <? L) && initialized c); reflexivity.
Qed.
End Kernel.

(** ** Timestamps *)

Section Timestamps.
Context (L : Z) (HL : 1 < L < 2 ^ 64).
Import fifo_kernel.
#[local] Abbreviation w := (TimestampWidth L).

Lemma timestamp_width : 1 <= w <= 64 /\ L - 1 < 2 ^ w.
Proof using HL.
  unfold TimestampWidth, bit_width. destruct (Z.eqb_spec (L - 1) 0); [lia|].
  pose proof (Z.log2_spec (L - 1) ltac:(lia)) as [_ H]. pose proof (Z.log2_nonneg (L - 1)).
  assert (Z.log2 (L - 1) < 64) by (apply Z.log2_lt_pow2; lia).
  rewrite Z.add_1_r in *. lia.
Qed.

Lemma wrapTick_spec v : is_u 64 v -> wrapTick L v = v mod 2 ^ w.
Proof using HL.
  intros Hv. pose proof timestamp_width as [Hw _]. unfold wrapTick.
  destruct (Z.eqb_spec w 64) as [->|]; [symmetry; apply Z.mod_small, Hv|].
  unfold u64_sub, u64_shl. rewrite Z.shiftl_1_l.
  assert (2 ^ w < 2 ^ 64) by (apply Z.pow_lt_mono_r; lia).
  assert (0 < 2 ^ w) by (apply Z.pow_pos_nonneg; lia).
  rewrite (u64_id (2 ^ w)), u64_id by (unfold is_u; lia).
  rewrite <- Z.land_ones, Z.ones_equiv by lia. reflexivity.
Qed.

Lemma wrapTick_add a b : wrapTick L (u64_add a b) = (a + b) mod 2 ^ w.
Proof using HL.
  pose proof timestamp_width as [Hw _]. rewrite wrapTick_spec by apply u64_range.
  unfold u64_add, u64, wrapu. apply (mod_of_eq _ _ w 64); [lia|]. apply Z.mod_mod. lia.
Qed.

(** Waiting times below the latency never alias on the wrapped clock. *)
Lemma deadline_unique t r : 1 <= r <= L - 1 -> ((t + r) mod 2 ^ w =? (t + 1) mod 2 ^ w) = (r =? 1).
Proof using HL.
  intros Hr. pose proof timestamp_width as [Hw Hlt].
  destruct (Z.eqb_spec r 1) as [->|Hne]; [apply Z.eqb_refl|]. apply Z.eqb_neq. intros E.
  assert (E' : (r - 1) mod 2 ^ w = 0).
  { replace (r - 1) with ((t + r) - (t + 1)) by lia. rewrite Zminus_mod, E, Z.sub_diag.
    apply Z.mod_0_l. apply Z.pow_nonzero; lia. }
  rewrite Z.mod_small in E' by lia. lia.
Qed.
End Timestamps.

(** ** Ring indices *)

Section Ring.
Context (Depth : Z) (HD : 0 < Depth < 2 ^ 64).
Import fifo_kernel.

Definition slot (base i : Z) : Z := (base + i) mod Depth.

Lemma slot_range base i : 0 <= slot base i < Depth.
Proof using HD. apply Z.mod_pos_bound. lia. Qed.

Lemma slot_slot base a b : slot (slot base a) b = slot base (a + b).
Proof using HD. unfold slot. rewrite Zplus_mod_idemp_l. f_equal. lia. Qed.

Lemma slot_0 base : 0 <= base < Depth -> slot base 0 = base.
Proof using HD. intros H. unfold slot. rewrite Z.add_0_r. apply Z.mod_small, H. Qed.

Lemma bump_slot p : 0 <= p < Depth -> bump Depth p = slot p 1.
Proof using HD.
  intros Hp. unfold bump, slot. destruct (Z.eqb_spec p (Depth - 1)) as [->|].
  - replace (Depth - 1 + 1) with Depth by lia. symmetry. apply Z.mod_same. lia.
  - unfold u64_add. rewrite u64_id by (unfold is_u; lia). symmetry. apply Z.mod_small. lia.
Qed.

Lemma slot_ne base a b : a < b < a + Depth -> slot base a <> slot base b.
Proof using HD.
  intros Hab E. unfold slot in E.
  assert (E' : (b - a) mod Depth = 0).
  { replace (b - a) with ((base + b) - (base + a)) by lia. rewrite Zminus_mod, E, Z.sub_diag.
    apply Z.mod_0_l. lia. }
  rewrite Z.mod_small in E' by lia. lia.
Qed.

(** A pointer advanced or not. *)
Lemma bump_if base i (b : bool) :
  (if b then bump Depth (slot base i) else slot base i) = slot base (i + Z.b2z b).
Proof using HD.
  destruct b; cbn [Z.b2z]; [|f_equal; lia]. rewrite bump_slot, slot_slot by apply slot_range. reflexivity.
Qed.
End Ring.

Lemma adjust_spec up down n :
  0 <= n < 2 ^ 64 -> 0 <= n + Z.b2z up - Z.b2z down < 2 ^ 64 ->
  fifo_kernel.adjust up down n = n + Z.b2z up - Z.b2z down.
Proof.
  intros Hn Hr. unfold fifo_kernel.adjust, u64_add, u64_sub.
  destruct up, down; cbn [Z.b2z Bool.eqb negb] in *; rewrite ?u64_id by (unfold is_u; lia); lia.
Qed.

(** ** The refinement relation *)

Section Refinement.
Context {T : Type} `{HT : HardwareTraits T} `{HWire : !Wire T} `{ID : Inhabited (wire T)}.
Context (Depth : Z) (Policy : QueueReadyPolicy) (L : Z).
Context (HD : 0 < Depth < 2 ^ 64) (HL : 1 <= L < 2 ^ 64).
Import fifo_kernel.
Implicit Types (c : Current T) (p : Pending T) (i : Inputs T) (s : queue (wire T)).

#[local] Abbreviation sl := (slot Depth).
Definition tok s (k : Z) : wire T := fst s.[k].
Definition wait s (k : Z) : Z := snd s.[k].
Definition qlen s : Z := Z.of_nat (length s).

Record ring_rel c s : Prop := {
  rr_storage : length (storage c) = Z.to_nat Depth;
  rr_count : count c = qlen s;
  rr_cap : qlen s <= Depth;
  rr_rd : 0 <= rd c < Depth;
  rr_wr : wr c = sl (rd c) (qlen s);
  rr_tokens : forall k, 0 <= k < qlen s -> (storage c).[sl (rd c) k] = tok s k;
}.

(** The first [e] tokens are available; the others wait, in order. *)
Record wait_rel s (e : Z) : Prop := {
  wr_e : 0 <= e <= qlen s;
  wr_zero : forall k, 0 <= k < e -> wait s k = 0;
  wr_wait : forall k, e <= k < qlen s -> 1 <= wait s k <= L - 1;
  wr_mono : forall j k, e <= j < k -> k < qlen s -> wait s j < wait s k;
}.

Record clock_rel c s (e : Z) : Prop := {
  cr_deadline : length (deadline (timing c)) = Z.to_nat Depth;
  cr_mature : mature_ptr (timing c) = sl (rd c) e;
  cr_slots : forall k, e <= k < qlen s ->
    (deadline (timing c)).[sl (rd c) k] = (tick (timing c) + wait s k) mod 2 ^ TimestampWidth L;
}.

Record fifo_rel c s : Prop := {
  fr_init : initialized c = true;
  fr_ring : ring_rel c s;
  fr_wait : wait_rel s (eligibleCount L c);
  fr_clock : 1 < L -> clock_rel c s (eligibleCount L c);
}.

(** The abstraction of a state: [None] until the first reset. *)
Definition refines c (a : option (queue (wire T))) : Prop :=
  match a with
  | Some s => fifo_rel c s
  | None => initialized c = false /\ length (storage c) = Z.to_nat Depth /\
            length (deadline (timing c)) = Z.to_nat Depth
  end.

Lemma q_valid_wait s e : wait_rel s e -> q_valid s = negb (e =? 0).
Proof using.
  intros [He Hz Hw _]. unfold qlen, wait in *. destruct s as [|[x r] s]; cbn [length q_valid] in *.
  - destruct (Z.eqb_spec e 0); [reflexivity | lia].
  - destruct (Z.eqb_spec e 0) as [->|]; cbn [negb].
    + assert (1 <= r <= L - 1) by exact (Hw 0 ltac:(lia)). destruct (Z.eqb_spec r 0); [lia | reflexivity].
    + assert (E : r = 0) by exact (Hz 0 ltac:(lia)). subst r. reflexivity.
Qed.

(** Validity and readiness seen on the pins are those of the list. *)
Lemma refines_valid c a : refines c a -> c_valid4 L c = q_valid4 a.
Proof using.
  unfold c_valid4. destruct a as [s|]; cbn [refines q_valid4].
  - intros [-> _ Hw _]. rewrite (q_valid_wait _ _ Hw). reflexivity.
  - intros [-> _]. reflexivity.
Qed.

Lemma refines_ready c a r : refines c a -> c_ready4 Depth Policy L c r = q_ready4 Depth Policy a r.
Proof using.
  intros H. pose proof (refines_valid c a H) as Hv. unfold c_ready4, q_ready4. rewrite Hv.
  destruct a as [s|]; cbn [refines] in H.
  - destruct H as [-> Hr _ _]. rewrite (rr_count _ _ Hr). reflexivity.
  - destruct H as [-> _]. reflexivity.
Qed.

Lemma refines_decide c a i :
  refines c a ->
  c_decide Depth Policy L c i =
  fifo_decide (clock c) (q_valid4 a) (q_ready4 Depth Policy a)
    (level (clk i)) (level (rst i)) (level (in_valid i)) (level (out_ready i)).
Proof using.
  intros H. unfold c_decide, fifo_decide. rewrite (refines_valid c a H), (refines_ready c a _ H). reflexivity.
Qed.
(** *** The list after one transfer *)

Lemma qlen_tail s : 0 < qlen s -> qlen (tail s) = qlen s - 1.
Proof using. unfold qlen. destruct s; cbn [length tail]; lia. Qed.

Lemma q_age_at s k : 0 <= k < qlen s ->
  tok (q_age s) k = tok s k /\ wait (q_age s) k = Z.max 0 (wait s k - 1).
Proof using.
  intros Hk. unfold qlen, tok, wait in *.
  assert (E : (q_age s).[k] = (fst s.[k], Z.max 0 (snd s.[k] - 1))).
  { apply list_lookup_total_correct. unfold q_age. rewrite list_lookup_fmap.
    rewrite (list_lookup_lookup_total_lt s) by lia. cbn. destruct (s.[k]). reflexivity. }
  rewrite E. auto.
Qed.

Lemma tail_at s k : 0 <= k -> (tail s).[k] = s.[k + 1].
Proof using.
  intros Hk. replace (Z.to_nat (k + 1)) with (S (Z.to_nat k)) by lia.
  destruct s; [|reflexivity]. cbn [tail]. rewrite !list_lookup_total_alt, !lookup_nil. reflexivity.
Qed.

Lemma q_transfer_spec push pop x s :
  (pop = true -> 0 < qlen s) ->
  let s' := q_transfer L push pop x s in
  let n := qlen s - Z.b2z pop in
  qlen s' = n + Z.b2z push /\
  (forall k, 0 <= k < n ->
     tok s' k = tok s (k + Z.b2z pop) /\ wait s' k = Z.max 0 (wait s (k + Z.b2z pop) - 1)) /\
  (push = true -> tok s' n = x /\ wait s' n = L - 1).
Proof using.
  intros Hpop s' n. set (t := if pop then tail s else s).
  assert (Ht : qlen t = n).
  { unfold t, n. destruct pop; cbn [Z.b2z]; [apply qlen_tail; auto | lia]. }
  assert (Ha : qlen (q_age t) = n) by (rewrite <- Ht; unfold qlen, q_age; rewrite length_fmap; reflexivity).
  assert (Hs' : s' = q_age t ++ (if push then [(x, L - 1)] else [])) by reflexivity.
  split; [|split].
  - rewrite Hs', <- Ha. unfold qlen. rewrite length_app. destruct push; cbn [length Z.b2z]; lia.
  - intros k Hk. assert (E : s'.[k] = (q_age t).[k]).
    { rewrite Hs', !list_lookup_total_alt, lookup_app_l by (unfold qlen in Ha; lia). reflexivity. }
    unfold tok, wait. rewrite E. destruct (q_age_at t k) as [E1 E2]; [lia|].
    unfold tok, wait in E1, E2. rewrite E1, E2.
    assert (Et : t.[k] = s.[k + Z.b2z pop]).
    { unfold t. destruct pop; cbn [Z.b2z]; [apply tail_at; lia | rewrite Z.add_0_r; reflexivity]. }
    rewrite Et. auto.
  - intros ->. assert (E : s'.[n] = (x, L - 1)).
    { apply list_lookup_total_correct. rewrite Hs', lookup_app_r by (unfold qlen in Ha; lia).
      replace (Z.to_nat n - length (q_age t))%nat with 0%nat by (unfold qlen in Ha; lia). reflexivity. }
    unfold tok, wait. rewrite E. auto.
Qed.

(** *** The committed state after one transfer *)

Definition transfer_ok c (push pop : bool) : Prop :=
  (pop = true -> eligibleCount L c <> 0) /\ (push = true -> count c < Depth \/ pop = true).

Lemma decide_transfer_ok c i push pop :
  initialized c = true -> c_decide Depth Policy L c i = inr (Transfer push pop) -> transfer_ok c push pop.
Proof using.
  intros Hi. unfold c_decide, fifo_decide, c_ready4, c_valid4, transfer_ok. rewrite Hi.
  destruct (level (clk i)); try discriminate; destruct (clock c); try discriminate.
  destruct (level (rst i)); try discriminate. cbv zeta.
  destruct (Z.eqb_spec (eligibleCount L c) 0), (Z.ltb_spec (count c) Depth); cbn [negb of_bool];
    destruct Policy, (level (in_valid i)), (level (out_ready i)); cbn; intros E; try discriminate E;
    injection E as <- <-; split; intros Hp; try discriminate Hp; auto.
Qed.

Definition transferred c i p (push pop : bool) : Current T :=
  fst (fst (xfer Depth L c (staged L c i p (Transfer push pop)) (mkOutputs (fs_bool false) (fs_bool false) (token p)))).

Lemma transferred_eq c i p push pop :
  initialized c = true ->
  transferred c i p push pop =
  mkCurrent
    (if push then (storage c).[wr c := in_data i] else storage c)
    (if pop then bump Depth (rd c) else rd c)
    (if push then bump Depth (wr c) else wr c)
    (adjust push pop (count c)) true true
    (if 1 <? L then xfer_timing Depth L (staged L c i p (Transfer push pop)) (wr c) (timing c) else timing c).
Proof using.
  intros Hi. unfold transferred, xfer. cbn [staged p_valid negb p_reset p_push p_pop p_clock token].
  rewrite Hi. destruct push; reflexivity.
Qed.

Lemma transfer_ring c s i p push pop :
  fifo_rel c s -> transfer_ok c push pop ->
  ring_rel (transferred c i p push pop) (q_transfer L push pop (in_data i) s).
Proof using HD.
  intros [Hi Hr Hw _] [Hpop Hpush]. rewrite transferred_eq by exact Hi.
  pose proof (wr_e _ _ Hw) as He. destruct Hr as [Rs Rc Rcap Rrd Rwr Rt].
  assert (Hlen : pop = true -> 0 < qlen s) by (intros E; specialize (Hpop E); lia).
  destruct (q_transfer_spec push pop (in_data i) s Hlen) as (El & Eo & En).
  set (s' := q_transfer L push pop (in_data i) s) in *. cbn zeta in El, Eo, En.
  assert (Hb : qlen s - Z.b2z pop + Z.b2z push <= Depth).
  { destruct push, pop; cbn [Z.b2z]; lia. }
  assert (Erd : (if pop then bump Depth (rd c) else rd c) = sl (rd c) (Z.b2z pop)).
  { pose proof (bump_if Depth HD (rd c) 0 pop) as E0. rewrite (slot_0 Depth HD) in E0 by exact Rrd. exact E0. }
  constructor; cbn [storage count rd wr]; rewrite ?Erd, ?El.
  - destruct push; rewrite ?length_insert; exact Rs.
  - rewrite adjust_spec, Rc by (destruct push, pop; cbn [Z.b2z] in *; try specialize (Hlen eq_refl); lia). lia.
  - lia.
  - apply (slot_range Depth HD).
  - rewrite Rwr, (bump_if Depth HD), (slot_slot Depth HD). f_equal. lia.
  - intros k Hk. rewrite (slot_slot Depth HD).
    destruct (Z.eq_dec k (qlen s - Z.b2z pop)) as [->|Hne].
    + destruct push; cbn [Z.b2z] in Hk; [|lia]. rewrite (proj1 (En eq_refl)), Rwr.
      replace (Z.b2z pop + (qlen s - Z.b2z pop)) with (qlen s) by lia.
      apply array_get_set_eq. pose proof (slot_range Depth HD (rd c) (qlen s)). lia.
    + destruct (Eo k) as [-> _]; [destruct push; cbn [Z.b2z] in Hk; lia|].
      rewrite (Z.add_comm k). rewrite <- Rt by (destruct push, pop; cbn [Z.b2z] in *; lia).
      destruct push; [|reflexivity]. rewrite array_get_set_ne; [reflexivity | | |].
      * rewrite Rwr. apply (slot_range Depth HD).
      * apply (slot_range Depth HD).
      * rewrite Rwr. apply not_eq_sym, (slot_ne Depth HD). specialize (Hpush eq_refl).
        destruct pop; cbn [Z.b2z] in *; [lia|]. destruct Hpush; [lia | discriminate].
Qed.
Definition matures s (e : Z) : bool := (e <? qlen s) && (wait s e =? 1).

Lemma c_mature_spec c s : 1 < L -> fifo_rel c s -> c_mature L c = matures s (eligibleCount L c).
Proof using HL.
  intros HL1 [Hi Hr Hw Hc]. specialize (Hc HL1). unfold c_mature, matures.
  assert (Ee : eligible_count (timing c) = eligibleCount L c)
    by (unfold eligibleCount; destruct (Z.eqb_spec L 1); [lia | reflexivity]).
  rewrite Ee, (rr_count _ _ Hr). destruct (Z.ltb_spec (eligibleCount L c) (qlen s)) as [Hlt|]; [|reflexivity].
  cbn [andb]. rewrite (cr_mature _ _ _ Hc), (cr_slots _ _ _ Hc) by lia.
  unfold next_tick. rewrite wrapTick_add by lia. apply deadline_unique; [lia|].
  pose proof (wr_e _ _ Hw). apply (wr_wait _ _ Hw). lia.
Qed.

(** Ageing moves at most the head of the waiting suffix to the front. *)
Lemma wait_transfer s e x push pop :
  1 < L -> wait_rel s e -> (pop = true -> e <> 0) ->
  wait_rel (q_transfer L push pop x s) (e + Z.b2z (matures s e) - Z.b2z pop).
Proof using.
  intros HL1 [He Hz Hw Hm] Hpop.
  assert (Hlen : pop = true -> 0 < qlen s) by (intros E; specialize (Hpop E); lia).
  destruct (q_transfer_spec push pop x s Hlen) as (El & Eo & En).
  set (s' := q_transfer L push pop x s) in *. cbn zeta in El, Eo, En.
  set (n := qlen s - Z.b2z pop) in *.
  assert (Hp : 0 <= Z.b2z pop <= 1 /\ Z.b2z pop <= e) by (destruct pop; cbn [Z.b2z]; lia).
  assert (Hmat : 0 <= Z.b2z (matures s e) <= 1 /\ e + Z.b2z (matures s e) <= qlen s /\
    (Z.b2z (matures s e) = 1 -> wait s e = 1) /\
    (Z.b2z (matures s e) = 0 -> e < qlen s -> 2 <= wait s e)).
  { unfold matures. destruct (Z.ltb_spec e (qlen s)); cbn [andb Z.b2z]; [|lia].
    pose proof (Hw e ltac:(lia)). destruct (Z.eqb_spec (wait s e) 1); cbn [Z.b2z]; lia. }
  destruct Hmat as (M1 & M2 & M3 & M4). set (m := Z.b2z (matures s e)) in *. clearbody m.
  assert (Hlate : forall j, e + m <= j < qlen s -> 2 <= wait s j).
  { intros j Hj. destruct (Z.eq_dec j e) as [->|]; [apply M4; lia|].
    pose proof (Hm e j ltac:(lia) ltac:(lia)). pose proof (Hw e ltac:(lia)). lia. }
  assert (Hpush : 0 <= Z.b2z push <= 1) by (destruct push; cbn; lia).
  assert (Hlast : forall k, k < qlen s' -> ~ k < n -> push = true /\ k = n).
  { intros k Hk Hk'. destruct push; cbn [Z.b2z] in El; split; (reflexivity || lia). }
  constructor.
  - lia.
  - intros k Hk. destruct (Eo k) as [_ ->]; [lia|].
    destruct (Z.eq_dec (k + Z.b2z pop) e) as [Heq|]; [rewrite Heq, M3 by lia; reflexivity|]. rewrite Hz by lia. lia.
  - intros k Hk. destruct (Z_lt_dec k n) as [Hlt|Hge].
    + destruct (Eo k) as [_ ->]; [lia|]. pose proof (Hlate (k + Z.b2z pop) ltac:(lia)).
      pose proof (Hw (k + Z.b2z pop) ltac:(lia)). lia.
    + destruct (Hlast k ltac:(lia) Hge) as [Ep ->]. rewrite (proj2 (En Ep)). lia.
  - intros j k Hj Hk. destruct (Eo j) as [_ ->]; [destruct push; cbn [Z.b2z] in El; lia|].
    assert (Hjw : e <= j + Z.b2z pop < qlen s) by (destruct push; cbn [Z.b2z] in El; lia).
    pose proof (Hlate (j + Z.b2z pop) ltac:(lia)). pose proof (Hw (j + Z.b2z pop) Hjw).
    destruct (Z_lt_dec k n) as [Hlt|Hge].
    + destruct (Eo k) as [_ ->]; [lia|]. pose proof (Hm (j + Z.b2z pop) (k + Z.b2z pop) ltac:(lia) ltac:(lia)). lia.
    + destruct (Hlast k ltac:(lia) Hge) as [Ep ->]. rewrite (proj2 (En Ep)). lia.
Qed.

(** With a latency of one every stored token is available. *)
Lemma wait_transfer_1 s x push pop :
  L = 1 -> wait_rel s (qlen s) -> (pop = true -> 0 < qlen s) ->
  wait_rel (q_transfer L push pop x s) (qlen (q_transfer L push pop x s)).
Proof using HL.
  intros HL1 [He Hz Hw Hm] Hlen. destruct (q_transfer_spec push pop x s Hlen) as (El & Eo & En).
  set (s' := q_transfer L push pop x s) in *. cbn zeta in El, Eo, En.
  assert (Hp : 0 <= Z.b2z pop <= 1) by (destruct pop; cbn; lia).
  constructor; try lia; [unfold qlen in *; lia|]. intros k Hk.
  destruct (Z_lt_dec k (qlen s - Z.b2z pop)) as [Hlt|Hge].
  - destruct (Eo k) as [_ ->]; [lia|]. rewrite Hz by lia. lia.
  - destruct push; cbn [Z.b2z] in El; [|lia]. replace k with (qlen s - Z.b2z pop) by lia.
    rewrite (proj2 (En eq_refl)). lia.
Qed.
Lemma transferred_eligible c s i p push pop :
  fifo_rel c s -> transfer_ok c push pop ->
  eligibleCount L (transferred c i p push pop) =
  if L =? 1 then qlen (q_transfer L push pop (in_data i) s)
  else eligibleCount L c + Z.b2z (matures s (eligibleCount L c)) - Z.b2z pop.
Proof using HD HL.
  intros H Hok. pose proof (transfer_ring c s i p push pop H Hok) as Hring.
  unfold eligibleCount at 1. destruct (Z.eqb_spec L 1) as [E1|Hne]; [apply (rr_count _ _ Hring)|].
  assert (Hm := c_mature_spec c s ltac:(lia) H). destruct H as [Hi Hr Hw _].
  pose proof (wr_e _ _ Hw) as He. pose proof (rr_cap _ _ Hr). destruct Hok as [Hpop _].
  rewrite transferred_eq by exact Hi. cbn [timing]. destruct (Z.ltb_spec 1 L); [|lia].
  cbn [xfer_timing eligible_count staged mature p_pop]. rewrite Hi, Hm.
  destruct (Z.ltb_spec 1 L); [|lia]. cbn [andb].
  assert (Ee : eligible_count (timing c) = eligibleCount L c)
    by (unfold eligibleCount; destruct (Z.eqb_spec L 1); [lia | reflexivity]).
  rewrite Ee. apply adjust_spec; [lia|].
  unfold matures. destruct (Z.ltb_spec (eligibleCount L c) (qlen s)), (wait s _ =? 1), pop;
    cbn [andb Z.b2z]; try specialize (Hpop eq_refl); lia.
Qed.

Lemma transfer_clock c s i p push pop :
  1 < L -> fifo_rel c s -> transfer_ok c push pop ->
  clock_rel (transferred c i p push pop) (q_transfer L push pop (in_data i) s)
    (eligibleCount L c + Z.b2z (matures s (eligibleCount L c)) - Z.b2z pop).
Proof using HD HL.
  intros HL1 H Hok. assert (Hm := c_mature_spec c s HL1 H). destruct H as [Hi Hr Hw Hc].
  specialize (Hc HL1). set (e := eligibleCount L c) in *. set (m := matures s e) in *.
  pose proof (wait_transfer s e (in_data i) push pop HL1 Hw (proj1 Hok)) as Hw'.
  pose proof (wr_e _ _ Hw) as He. destruct Hr as [Rs Rc Rcap Rrd Rwr Rt]. destruct Hc as [Cd Cm Cs].
  destruct Hok as [Hpop Hpush].
  assert (Hlen : pop = true -> 0 < qlen s) by (intros E; specialize (Hpop E); lia).
  destruct (q_transfer_spec push pop (in_data i) s Hlen) as (El & Eo & En).
  set (s' := q_transfer L push pop (in_data i) s) in *. cbn zeta in El, Eo, En. fold m in Hw'.
  rewrite transferred_eq by exact Hi. unfold xfer_timing. cbn [staged advance_time mature p_pop p_push].
  rewrite Hi, Hm. destruct (Z.ltb_spec 1 L); [|lia]. cbn [andb].
  assert (Erd : (if pop then bump Depth (rd c) else rd c) = sl (rd c) (Z.b2z pop)).
  { pose proof (bump_if Depth HD (rd c) 0 pop) as E0. rewrite (slot_0 Depth HD) in E0 by exact Rrd. exact E0. }
  constructor; cbn [timing deadline mature_ptr rd tick]; rewrite ?Erd.
  - destruct push; rewrite ?length_insert; exact Cd.
  - rewrite Cm, (bump_if Depth HD), (slot_slot Depth HD). f_equal. lia.
  - intros k Hk. rewrite (slot_slot Depth HD), !wrapTick_add by lia.
    destruct (Z.eq_dec k (qlen s - Z.b2z pop)) as [->|Hne].
    + destruct push; cbn [Z.b2z] in El; [|lia]. rewrite (proj2 (En eq_refl)), Rwr.
      replace (Z.b2z pop + (qlen s - Z.b2z pop)) with (qlen s) by lia.
      apply array_get_set_eq. pose proof (slot_range Depth HD (rd c) (qlen s)). lia.
    + pose proof (wr_e _ _ Hw') as He'. pose proof (wr_wait _ _ Hw' k ltac:(lia)) as Hwk.
      destruct (Eo k) as [_ Ew]; [destruct push; cbn [Z.b2z] in El; lia|].
      rewrite Ew in Hwk |- *.
      assert (Hold : e <= Z.b2z pop + k < qlen s) by (destruct push, m; cbn [Z.b2z] in *; lia).
      rewrite (Zplus_mod_idemp_l (tick (timing c) + 1) (Z.max _ _)).
      replace (tick (timing c) + 1 + Z.max 0 (wait s (k + Z.b2z pop) - 1))
        with (tick (timing c) + wait s (Z.b2z pop + k)) by (rewrite (Z.add_comm k) in *; lia).
      rewrite <- Cs by exact Hold.
      destruct push; [|reflexivity]. rewrite array_get_set_ne; [reflexivity | | |].
      * rewrite Rwr. apply (slot_range Depth HD).
      * apply (slot_range Depth HD).
      * rewrite Rwr. apply not_eq_sym, (slot_ne Depth HD). specialize (Hpush eq_refl).
        destruct pop; cbn [Z.b2z] in *; [lia|]. destruct Hpush; [lia | discriminate].
Qed.

Lemma transfer_rel c s i p push pop :
  fifo_rel c s -> transfer_ok c push pop ->
  fifo_rel (transferred c i p push pop) (q_transfer L push pop (in_data i) s).
Proof using HD HL.
  intros H Hok. pose proof (transferred_eligible c s i p push pop H Hok) as Ee.
  pose proof (transfer_ring c s i p push pop H Hok) as Hr.
  constructor; [rewrite transferred_eq by apply H; reflexivity | exact Hr | |]; rewrite Ee.
  - pose proof H as [_ Hr0 Hw _]. destruct (Z.eqb_spec L 1) as [E1|].
    + assert (E : eligibleCount L c = qlen s)
        by (unfold eligibleCount; rewrite E1; apply (rr_count _ _ Hr0)).
      rewrite E in Hw. apply wait_transfer_1; [exact E1 | exact Hw|].
      destruct Hok as [Hpop _]. intros Ep. specialize (Hpop Ep). pose proof (wr_e _ _ Hw). lia.
    + apply wait_transfer; [lia | exact Hw | apply Hok].
  - intros HL1. destruct (Z.eqb_spec L 1); [lia|]. apply transfer_clock; assumption.
Qed.
(** *** Every sample of the pins *)

Definition committed c i p op : Current T :=
  fst (fst (xfer Depth L c (staged L c i p op) (mkOutputs (fs_bool false) (fs_bool false) (token p)))).

Lemma xfer_staged c i p op o :
  xfer Depth L c (staged L c i p op) o =
  (committed c i p op, discard (committed c i p op) (staged L c i p op), o).
Proof using. unfold committed, xfer. destruct op; reflexivity. Qed.

Lemma reset_rel c ck : length (storage c) = Z.to_nat Depth -> length (deadline (timing c)) = Z.to_nat Depth ->
  fifo_rel (mkCurrent (storage c) 0 0 0 true ck
    (if 1 <? L then mkTiming (deadline (timing c)) 0 0 0 else timing c)) [].
Proof using HD HL.
  intros Hs Hd.
  assert (Ee : eligibleCount L (mkCurrent (storage c) 0 0 0 true ck
    (if 1 <? L then mkTiming (deadline (timing c)) 0 0 0 else timing c)) = 0).
  { unfold eligibleCount. cbn [count timing].
    destruct (Z.eqb_spec L 1), (Z.ltb_spec 1 L); try lia; reflexivity. }
  constructor; [reflexivity | | |].
  - constructor; cbn [storage count rd wr]; unfold qlen; cbn [length]; try lia.
    rewrite (slot_0 Depth HD); lia.
  - rewrite Ee. constructor; unfold qlen; cbn [length]; lia.
  - intros HL1. rewrite Ee. destruct (Z.ltb_spec 1 L); [|lia].
    constructor; unfold qlen; cbn [timing deadline mature_ptr rd length]; try lia.
    rewrite (slot_0 Depth HD); lia.
Qed.

(** The clock sample does not occur in the relation. *)
Lemma refines_clock c a ck :
  refines c a ->
  refines (mkCurrent (storage c) (rd c) (wr c) (count c) (initialized c) ck (timing c)) a.
Proof using.
  destruct a as [s|]; cbn [refines initialized storage timing]; [|exact (fun H => H)].
  intros [Hi [R1 R2 R3 R4 R5 R6] Hw Hc]. constructor; [exact Hi | constructor; assumption | exact Hw |].
  intros HL1. destruct (Hc HL1) as [C1 C2 C3]. constructor; assumption.
Qed.

(** Both arrays have the declared size and the timing array is present. *)
Definition shaped c : Prop :=
  length (storage c) = Z.to_nat Depth /\ length (deadline (timing c)) = Z.to_nat Depth.

Lemma committed_shaped c i p op : shaped c -> shaped (committed c i p op).
Proof using.
  unfold shaped, committed, xfer. intros [Hs Hd].
  destruct op as [ck| |push pop]; cbn; destruct (initialized c); cbn; try (split; assumption);
    destruct (1 <? L); cbn; try destruct push; cbn; rewrite ?length_insert; split; assumption.
Qed.

Lemma refines_step c a i p op :
  shaped c -> refines c a -> c_decide Depth Policy L c i = inr op ->
  refines (committed c i p op) (q_apply L op (in_data i) a) /\
  clock (committed c i p op) = op_clock op.
Proof using HD HL.
  intros [Hs Hd] H Hdec. destruct op as [ck| |push pop]; cbn [q_apply op_clock].
  - assert (E : committed c i p (Hold ck) =
      mkCurrent (storage c) (rd c) (wr c) (count c) (initialized c) ck (timing c)).
    { unfold committed, xfer. cbn [staged p_valid negb p_reset p_push p_pop p_clock adjust Bool.eqb fst].
      destruct (initialized c); [|reflexivity]. destruct (1 <? L); [|reflexivity]. destruct (timing c). reflexivity. }
    rewrite E. split; [apply refines_clock, H | reflexivity].
  - split; [apply (reset_rel c true); assumption | reflexivity].
  - destruct a as [s|]; cbn [refines fmap option_fmap option_map] in *.
    + change (committed c i p (Transfer push pop)) with (transferred c i p push pop).
      split; [apply transfer_rel; [exact H|] | rewrite transferred_eq by apply H; reflexivity].
      apply (decide_transfer_ok c i); [apply H | exact Hdec].
    + destruct H as (Hi & _). unfold committed, xfer. cbn [staged p_valid negb p_reset]. rewrite Hi. auto.
Qed.

(** *** Runs *)

(** What a neighbour sees before the edge: valid, ready and data. *)
Definition olevel (m : outcome pin) : option V4 := match m with Ret r => Some (level r) | _ => None end.
Definition observation : Type := option V4 * option V4 * outcome (wire T).

Definition kernel_observe c i : observation :=
  (olevel (readValid L c), olevel (readReady Depth Policy L c (out_ready i)), readData L c).

Fixpoint kernel_run c p (o : Outputs T) (ins : list (Inputs T)) : list observation * outcome unit :=
  match ins with
  | [] => ([], Ret tt)
  | i :: rest =>
    match work Depth Policy L c i (p, o) with
    | (Ret _, (p', o')) =>
      let '(c', p'', o'') := xfer Depth L c p' o' in
      let '(obs, r) := kernel_run c' p'' o'' rest in (kernel_observe c i :: obs, r)
    | (r, _) => ([kernel_observe c i], r)
    end
  end.

Definition q_data (a : option (queue (wire T))) : outcome (wire T) :=
  noexcept
    match a with
    | None => wire_unknown T
    | Some ((x, 0) :: _) => Ret x
    | Some _ => k <- FS.known (bits_default (hw_width T)) ;; fromPacked k
    end.

Definition queue_observe (a : option (queue (wire T))) i : observation :=
  (Some (q_valid4 a), Some (q_ready4 Depth Policy a (level (out_ready i))), q_data a).

Fixpoint queue_run (prev : bool) (a : option (queue (wire T))) (ins : list (Inputs T))
  : list observation * outcome unit :=
  match ins with
  | [] => ([], Ret tt)
  | i :: rest =>
    match fifo_decide prev (q_valid4 a) (q_ready4 Depth Policy a)
            (level (clk i)) (level (rst i)) (level (in_valid i)) (level (out_ready i)) with
    | inr op =>
      let '(obs, r) := queue_run (op_clock op) (q_apply L op (in_data i) a) rest in
      (queue_observe a i :: obs, r)
    | inl e => ([queue_observe a i], Throw (FourStateViolation e))
    end
  end.

Lemma refines_data c a : refines c a -> readData L c = q_data a.
Proof using HD.
  unfold readData, q_data. intros H. f_equal. destruct a as [s|]; cbn [refines] in H.
  - destruct H as [-> Hr Hw _]. cbn [negb]. rewrite <- (q_valid_wait _ _ Hw).
    destruct s as [|[x r] s]; [reflexivity|]. cbn [q_valid].
    destruct (Z.eqb_spec r 0) as [->|Hne]; [|destruct r; [lia | reflexivity..]].
    pose proof (rr_tokens _ _ Hr 0) as Ht. rewrite (slot_0 Depth HD) in Ht by apply Hr.
    rewrite Ht; [reflexivity|]. unfold qlen. cbn [length]. lia.
  - destruct H as [-> _]. reflexivity.
Qed.

Lemma refines_observe c a i :
  refines c a -> pin_wf (out_ready i) -> kernel_observe c i = queue_observe a i.
Proof using HD.
  intros H Ho. unfold kernel_observe, queue_observe. rewrite (refines_data c a H).
  destruct (readValid_level L c) as (v & -> & _ & Ev).
  destruct (readReady_level Depth Policy L c (out_ready i) Ho) as (r & -> & _ & Er).
  cbn [olevel]. rewrite Ev, Er, (refines_valid c a H), (refines_ready c a _ H). reflexivity.
Qed.

Lemma kernel_run_refines ins : forall c p o a,
  shaped c -> refines c a -> Forall fifo_pins_ok ins ->
  kernel_run c p o ins = queue_run (clock c) a ins.
Proof using HD HL.
  induction ins as [|i ins IH]; intros c p o a Hsh H Hins; [reflexivity|]. cbn [kernel_run queue_run].
  inversion Hins as [|? ? Hpins Hrest]; subst.
  rewrite fifo_work_spec, (refines_decide c a i H) by exact Hpins.
  rewrite (refines_observe c a i H) by apply Hpins.
  destruct (fifo_decide _ _ _ _ _ _ _) as [e|op] eqn:Ed; [reflexivity|].
  rewrite xfer_staged. rewrite <- (refines_decide c a i H) in Ed.
  destruct (refines_step c a i p op Hsh H Ed) as [H' Hck]. rewrite <- Hck.
  rewrite (IH _ _ _ (q_apply L op (in_data i) a)); [reflexivity | | exact H' | exact Hrest].
  apply committed_shaped, Hsh.
Qed.

Lemma initial_refines blank : shaped (initial Depth blank) /\ refines (initial Depth blank) None.
Proof using.
  unfold shaped, refines, initial. cbn [storage timing deadline initialized]. rewrite !length_replicate. auto.
Qed.

(** C5: the queue kernel implements a list of waiting tokens.  From the
    power-up state, for every depth, ready policy and availability latency
    and every sequence of well-formed pin samples, the sequence of valid,
    ready and data outputs and the error that ends the run, if any, are
    those of the abstract queue: tokens leave in order, each exactly
    [AvailabilityLatency] edges after it entered or later, and no timestamp
    wrap or pointer wrap is visible. *)
Theorem fifo_refines_queue blank p o ins :
  Forall fifo_pins_ok ins ->
  kernel_run (initial Depth blank) p o ins = queue_run false None ins.
Proof using HD HL.
  intros Hins. destruct (initial_refines blank) as [Hs Hr].
  exact (kernel_run_refines ins (initial Depth blank) p o None Hs Hr Hins).
Qed.
End Refinement.

(** ** The two-phase contract *)

Section FifoLaws.
Context {T : Type} `{HT : HardwareTraits T} `{HWire : !Wire T} `{ID : Inhabited (wire T)}.
Context (Depth : Z) (Policy : QueueReadyPolicy) (L : Z).
Import fifo_kernel.

Definition fifo_is_kernel : Kernel (Current T) (Pending T) (Inputs T) (Outputs T) := {|
  k_discard := discard;
  k_work := work Depth Policy L;
  k_xfer c p o := Ret (xfer Depth L c p o);
  k_reset c i p := Ret (reset c i p);
|}.
#[local] Existing Instance fifo_is_kernel.

#[export] Program Instance fifo_laws : @KernelLaws _ _ _ _ fifo_is_kernel := {
  k_ok _ := True;
  k_pins_ok := fifo_pins_ok;
  k_outs_ok _ := True;
  k_idle _ p := p_valid p = false;
  k_staged _ _ := True;
}.
Solve All Obligations with cbn; auto.
Next Obligation.
  intros c i p o _ Hi _ _. unfold k_work, fifo_is_kernel. rewrite fifo_work_spec by exact Hi.
  destruct (c_decide Depth Policy L c i) as [e|op]; do 3 eexists; (split; [reflexivity|]); split; (exact I || reflexivity).
Qed.
Next Obligation. cbn. intros c p o H. unfold xfer. rewrite H. reflexivity. Qed.
Next Obligation. cbn. intros c p o _ _ _. unfold xfer. destruct (p_valid p) eqn:E; cbn [negb]; eauto 10. Qed.
Next Obligation. cbn. eauto. Qed.
End FifoLaws.

(** The power-on or explicit [reset] of a queue, once committed, leaves
    the empty queue with a low clock sample, whatever state it was in. *)
Theorem fifo_reset_empties {T} `{HT : HardwareTraits T} `{HWire : !Wire T} `{ID : Inhabited (wire T)}
    Depth L (c : fifo_kernel.Current T) i p o :
  0 < Depth < 2 ^ 64 -> 1 <= L < 2 ^ 64 -> shaped Depth c ->
  let '(c', p', _) := fifo_kernel.xfer Depth L c (fifo_kernel.reset c i p) o in
  refines Depth L c' (Some []) /\ fifo_kernel.clock c' = false /\ fifo_kernel.p_valid p' = false.
Proof.
  intros HD HL [Hs Hd]. cbn. split; [|auto]. apply (reset_rel Depth L HD HL c false); assumption.
Qed.

(** *** Witnesses *)

Module FifoWitness.
#[local] Instance inh : Inhabited (wire (Bits 8)) := populate (fs_x (bits_of_word 8 0)).

Definition sample (ck rs iv : bool) (x : Z) (rdy : bool) : fifo_kernel.Inputs (Bits 8) :=
  fifo_kernel.mkInputs (fs_bool ck : pin) (fs_bool rs) (fs_bool iv)
    (fs_of (bits_of_word 8 x) : wire (Bits 8)) (fs_bool rdy).

(** Reset, then push 1, 2, 3 and pop when available. *)
Definition samples : list (fifo_kernel.Inputs (Bits 8)) :=
  [sample true true false 0 false; sample false false false 0 false;
   sample true false true 1 false; sample false false false 0 false;
   sample true false true 2 true; sample false false false 0 false;
   sample true false true 3 true; sample false false false 0 false;
   sample true false false 0 true].

Definition blank : wire (Bits 8) := fs_x (bits_of_word 8 0).
Definition idle : fifo_kernel.Pending (Bits 8) :=
  fifo_kernel.mkPending blank false false false false false false false.
Definition outs : fifo_kernel.Outputs (Bits 8) :=
  fifo_kernel.mkOutputs (fs_bool false : pin) (fs_bool false) blank.

Lemma sample_ok ck rs iv x rdy : fifo_pins_ok (sample ck rs iv x rdy).
Proof. repeat split; apply fs_bool_wf. Qed.

Lemma fifo_refines_queue_witness :
  Forall fifo_pins_ok samples /\
  kernel_run 2 DownstreamPop 3 (fifo_kernel.initial 2 blank) idle outs samples =
    queue_run 2 DownstreamPop 3 false None samples.
Proof.
  assert (H : Forall fifo_pins_ok samples)
    by (repeat (apply Forall_cons_2; [apply sample_ok|]); apply Forall_nil_2).
  split; [exact H|]. apply (fifo_refines_queue 2 DownstreamPop 3); [lia | lia | exact H].
Defined.

Lemma fifo_reset_empties_witness :
  let '(c', p', _) := fifo_kernel.xfer 2 3 (fifo_kernel.initial 2 blank)
    (fifo_kernel.reset (fifo_kernel.initial 2 blank) (sample false false false 0 false) idle) outs in
  refines 2 3 c' (Some []) /\ fifo_kernel.clock c' = false /\ fifo_kernel.p_valid p' = false.
Proof. apply (fifo_reset_empties 2 3); [lia | lia | split; reflexivity]. Defined.
End FifoWitness.
