(* ===== verification/SyncMem.v ===== *)
(** * Synchronous memories: [memory_detail.h] and [sync_mem.h]

    Address conversion, byte strobes, the one- and two-port read kernel and
    the module classes over it. *)

From Stdlib Require Import ZArith Lia String.
From stdpp Require Import base list numbers.
From S2P Require Import Prelude Bits FourState Wire SampledClock Kernel.

(** ** memory_detail.h *)

(** [sizeof(std::size_t) * 8u] *)
Definition hostBits : Z := 64.

Definition memory_index {Width} (addr : Bits Width) : Z :=
  if Width <=? hostBits then value addr
  else
    match first_range (Z.to_nat (Width - hostBits)) hostBits
            (fun b => if bit addr b then Some u64_max else None) with
    | Some r => r
    | None =>
      for_range (Z.to_nat hostBits) 0
        (fun b result => if bit addr b then Z.lor result (u64_shl 1 b) else result) 0
    end.

Definition memory_strobe {Width StrobeWidth} (oldValue newValue : Bits Width)
    (strobe : Bits StrobeWidth) : Bits Width :=
  let mask :=
    for_range (Z.to_nat StrobeWidth) 0
      (fun lane mask =>
         if negb (bit strobe lane) then mask
         else
           let low := lane * 8 in
           for_range (Z.to_nat (Z.min 8 (wrapu 32 (Width - low)))) 0
             (fun b mask => bits_or mask (shl (bits_of_word Width 1) (low + b))) mask)
      (bits_default Width) in
  bits_or (bits_and oldValue (bits_not mask)) (bits_and newValue mask).

(** ** sync_mem_kernel *)

Module sync_mem_kernel.
Section Kernel.
Context {T : Type} `{HT : HardwareTraits T} `{HWire : !Wire T} `{ID : Inhabited (wire T)}.
Context (ADDR_WIDTH DEPTH READ_PORTS : Z).

(** [static constexpr unsigned DATA_BITS = hardware_traits<T>::width] *)
#[local] Abbreviation DATA_BITS := (hw_width T).
Definition STRB_WIDTH : Z := DATA_BITS / 8 + (if DATA_BITS mod 8 =? 0 then 0 else 1).

#[local] Instance word_inhabited : Inhabited (Bits DATA_BITS) := populate (bits_default DATA_BITS).
#[local] Instance addr_inhabited : Inhabited (wire (Bits ADDR_WIDTH)) :=
  populate (fs_default ADDR_WIDTH).
#[local] Instance pin_inhabited : Inhabited pin := populate (fs_default 1).

Record Current := mkCurrent {
  memory : list (Bits DATA_BITS);
  q : list (wire T);
  live : list bool;
  idle : list Z;
  clock : bool;
}.
Record Pending := mkPending {
  p_q : list (wire T);
  p_read : list bool;
  p_invalidate : list bool;
  p_idle : list Z;
  p_data : Bits DATA_BITS;
  p_address : Z;
  p_write : bool;
  p_clock : bool;
  p_valid : bool;
}.
Record Inputs := mkInputs {
  clk : pin;
  rst : pin;
  ren : list pin;
  raddr : list (wire (Bits ADDR_WIDTH));
  wvalid : pin;
  waddr : wire (Bits ADDR_WIDTH);
  wdata : wire T;
  wstrb : wire (Bits STRB_WIDTH);
}.
(** Destinations; a null [rlive] pointer is [None]. *)
Record Outputs := mkOutputs { rdata : list (wire T); rlive : list (option pin) }.

Definition nPorts : nat := Z.to_nat READ_PORTS.

Definition discard (c : Current) (p : Pending) : Pending :=
  mkPending (p_q p) (replicate nPorts false) (replicate nPorts false) (idle c) (p_data p)
            (p_address p) false (clock c) false.

Definition invalidate (p : Pending) : outcome Pending :=
  u <- wire_unknown T ;;
  Ret (mkPending (replicate nPorts u) (p_read p) (replicate nPorts true) (replicate nPorts 0)
                 (p_data p) (p_address p) (p_write p) (p_clock p) (p_valid p)).

Definition set_clock_valid (ck v : bool) (p : Pending) : Pending :=
  mkPending (p_q p) (p_read p) (p_invalidate p) (p_idle p) (p_data p) (p_address p) (p_write p) ck v.

Definition reset (c : Current) (i : Inputs) (p : Pending) : outcome Pending :=
  noexcept (invalidate (set_clock_valid false true (discard c p))).

(** The two message texts of every check. *)
Definition msg (single dual : string) : exn :=
  FourStateViolation (if READ_PORTS =? 1 then single else dual).

Definition set_write (address : Z) (data : Bits DATA_BITS) (write : bool) (p : Pending) : Pending :=
  mkPending (p_q p) (p_read p) (p_invalidate p) (p_idle p) data address write (p_clock p) (p_valid p).

Definition stage_write (c : Current) (i : Inputs) : ST (Pending * Outputs) unit :=
  if negb (pin_toBool (wvalid i)) then st_ret tt
  else if negb (wire_isFullyKnown (T:=Bits ADDR_WIDTH) (waddr i)) || negb (wire_isFullyKnown (wdata i)) ||
          negb (wire_isFullyKnown (T:=Bits STRB_WIDTH) (wstrb i))
  then st_throw (msg "sync_mem enabled write address/data/strobe must be known"
                     "sync_mem_dp enabled write address/data/strobe must be known")
  else
    let address := memory_index (wire_value (T:=Bits ADDR_WIDTH) (waddr i)) in
    do_ st_modify (on_pending (fun p => set_write address (p_data p) (p_write p) p)) ;;
    st_when (address <? DEPTH)
      (do d <- st_lift (packed (wdata i)) ;;
       st_modify (on_pending (set_write address
         (memory_strobe (memory c).[address] (value_ d) (wire_value (T:=Bits STRB_WIDTH) (wstrb i))) true))).

Definition stage_read (c : Current) (i : Inputs) (port : Z) : ST (Pending * Outputs) unit :=
  if pin_toBool (ren i).[port] then
    if negb (wire_isFullyKnown (T:=Bits ADDR_WIDTH) (raddr i).[port])
    then st_throw (msg "sync_mem enabled read address must be known"
                       "sync_mem_dp enabled read address must be known")
    else
      let address := memory_index (wire_value (T:=Bits ADDR_WIDTH) (raddr i).[port]) in
      do k <- st_lift (FS.known (if address <? DEPTH then (memory c).[address]
                                 else bits_of_word DATA_BITS 0)) ;;
      do w <- st_lift (fromPacked k) ;;
      st_modify (on_pending (fun p =>
        mkPending ((p_q p).[port := w]) ((p_read p).[port := true]) (p_invalidate p)
          ((p_idle p).[port := 0]) (p_data p) (p_address p) (p_write p) (p_clock p) (p_valid p)))
  else
    st_when (live c).[port]
      (do_ st_modify (on_pending (fun p =>
         mkPending (p_q p) (p_read p) (p_invalidate p)
           ((p_idle p).[port := wrapu 32 ((p_idle p).[port] + 1)])
           (p_data p) (p_address p) (p_write p) (p_clock p) (p_valid p))) ;;
       do po <- st_get ;;
       st_when (2 <=? (p_idle (fst po)).[port])
         (do u <- st_lift (wire_unknown T) ;;
          st_modify (on_pending (fun p =>
            mkPending ((p_q p).[port := u]) (p_read p) ((p_invalidate p).[port := true])
              (p_idle p) (p_data p) (p_address p) (p_write p) (p_clock p) (p_valid p))))).

Definition work_body (c : Current) (i : Inputs) : ST (Pending * Outputs) unit :=
  if negb (pin_isFullyKnown (clk i))
  then st_throw (FourStateViolation "memory clock must be known")
  else
    let ck := pin_toBool (clk i) in
    do_ st_modify (on_pending (set_clock_valid ck true)) ;;
    if clock c || negb ck then st_ret tt
    else if negb (pin_isFullyKnown (rst i))
    then st_throw (msg "sync_mem reset must be known at posedge"
                       "sync_mem_dp reset must be known at posedge")
    else if pin_toBool (rst i)
    then fun '(p, o) => match invalidate p with
                        | Ret p' => (Ret tt, (p', o))
                        | Throw e => (Throw e, (p, o))
                        | Terminate => (Terminate, (p, o))
                        end
    else if negb (pin_isFullyKnown (wvalid i))
    then st_throw (msg "sync_mem controls must be known at posedge"
                       "sync_mem_dp controls must be known at posedge")
    else if negb (all_range nPorts 0 (fun k => pin_isFullyKnown (ren i).[k]))
    then st_throw (msg "sync_mem controls must be known at posedge"
                       "sync_mem_dp controls must be known at posedge")
    else
      do_ stage_write c i ;;
      st_for nPorts 0 (stage_read c i).

Definition work (c : Current) (i : Inputs) : ST (Pending * Outputs) unit :=
  guarded_work (discard c) (work_body c i).

(** One round of the port loop of [xfer]. *)
Definition commit_port (p : Pending) (port : Z) (st : list (wire T) * list bool * Outputs)
  : outcome (list (wire T) * list bool * Outputs) :=
  let '(qs, lives, o) := st in
  let '(qs, lives, o) :=
    if (p_read p).[port] || (p_invalidate p).[port] then
      let qs := qs.[port := (p_q p).[port]] in
      (qs, lives.[port := (p_read p).[port]], mkOutputs ((rdata o).[port := qs.[port]]) (rlive o))
    else (qs, lives, o) in
  match ((rlive o).[port] : option pin) with
  | Some _ =>
    l <- wire_known (T:=Bits 1) (bits_of_word 1 (if (lives.[port] : bool) then 1 else 0)) ;;
    Ret (qs, lives, mkOutputs (rdata o) ((rlive o).[port := Some (l : pin)]))
  | None => Ret (qs, lives, o)
  end.

Definition xfer (c : Current) (p : Pending) (o : Outputs) : outcome (Current * Pending * Outputs) :=
  if negb (p_valid p) then Ret (c, p, o)
  else
    let memory' := if p_write p then (memory c).[p_address p := p_data p] else memory c in
    noexcept
      (r <- ofor_range nPorts 0 (commit_port p) (q c, live c, o) ;;
       let '(qs, lives, o) := r in
       let c := mkCurrent memory' qs lives (p_idle p) (p_clock p) in
       Ret (c, discard c p, o)).
End Kernel.
Arguments Current T {_ _}.
Arguments Pending T {_ _}.
Arguments Inputs T {_ _} ADDR_WIDTH.
Arguments Outputs T {_ _}.
End sync_mem_kernel.

(** ** The module classes *)

Module sync_mem.
Section Module_.
Context {T : Type} `{HT : HardwareTraits T} `{HWire : !Wire T} `{ID : Inhabited (wire T)}.
Context (ADDR_WIDTH DEPTH : Z).
Import sync_mem_kernel.
#[local] Existing Instance pin_inhabited.
#[local] Existing Instance word_inhabited.

Record t := mk {
  clk : pin; rst : pin; ren : pin;
  raddr : wire (Bits ADDR_WIDTH);
  rdata : wire T;
  rlive : pin;
  wvalid : pin;
  waddr : wire (Bits ADDR_WIDTH);
  wdata : wire T;
  wstrb : wire (Bits (STRB_WIDTH (T:=T)));
  current_ : Current T;
  pending_ : Pending T;
}.

Definition pins (m : t) : Inputs T ADDR_WIDTH :=
  mkInputs ADDR_WIDTH (clk m) (rst m) [ren m] [raddr m] (wvalid m) (waddr m) (wdata m) (wstrb m).

Definition outputs (m : t) : Outputs T := mkOutputs [rdata m] [Some (rlive m)].

(** The state after the kernel wrote through the bound references. *)
Definition store (m : t) (c : Current T) (p : Pending T) (o : Outputs T) : t :=
  mk (clk m) (rst m) (ren m) (raddr m) (sync_mem_kernel.rdata o).[0]
    (match (sync_mem_kernel.rlive o).[0] with Some l => l | None => rlive m end)
    (wvalid m) (waddr m) (wdata m) (wstrb m) c p.

Definition Work (m : t) : outcome unit * t :=
  let '(r, (p, o)) := work ADDR_WIDTH DEPTH 1 (current_ m) (pins m) (pending_ m, outputs m) in
  (r, store m (current_ m) p o).
Definition Xfer (m : t) : outcome t :=
  r <- xfer 1 (current_ m) (pending_ m) (outputs m) ;;
  let '(c, p, o) := r in Ret (store m c p o).
Definition DiscardNext (m : t) : t :=
  store m (current_ m) (discard 1 (current_ m) (pending_ m)) (outputs m).
Definition Reset (m : t) : outcome t :=
  p <- reset ADDR_WIDTH 1 (current_ m) (pins m) (pending_ m) ;; Ret (store m (current_ m) p (outputs m)).
Definition pokeEntry (address : Z) (v : T) (m : t) : t :=
  if address <? DEPTH then
    let c := current_ m in
    store m (mkCurrent ((memory c).[address := hw_pack v]) (q c) (live c) (idle c) (clock c))
          (pending_ m) (outputs m)
  else m.
Definition peekEntry (address : Z) (m : t) : T :=
  hw_unpack (if address <? DEPTH then (memory (current_ m)).[address] else bits_of_word _ 0).
Definition HasWork (m : t) : bool := true.
End Module_.
End sync_mem.

Module sync_mem_dp.
Section Module_.
Context {T : Type} `{HT : HardwareTraits T} `{HWire : !Wire T} `{ID : Inhabited (wire T)}.
Context (ADDR_WIDTH DEPTH : Z).
Import sync_mem_kernel.
#[local] Existing Instance pin_inhabited.
#[local] Existing Instance word_inhabited.

Record t := mk {
  clk : pin; rst : pin; ren0 : pin; ren1 : pin;
  raddr0 : wire (Bits ADDR_WIDTH);
  raddr1 : wire (Bits ADDR_WIDTH);
  rdata0 : wire T;
  rdata1 : wire T;
  rlive0 : pin;
  rlive1 : pin;
  wvalid : pin;
  waddr : wire (Bits ADDR_WIDTH);
  wdata : wire T;
  wstrb : wire (Bits (STRB_WIDTH (T:=T)));
  current_ : Current T;
  pending_ : Pending T;
}.

Definition pins (m : t) : Inputs T ADDR_WIDTH :=
  mkInputs ADDR_WIDTH (clk m) (rst m) [ren0 m; ren1 m] [raddr0 m; raddr1 m]
    (wvalid m) (waddr m) (wdata m) (wstrb m).

Definition outputs (m : t) : Outputs T :=
  mkOutputs [rdata0 m; rdata1 m] [Some (rlive0 m); Some (rlive1 m)].

Definition store (m : t) (c : Current T) (p : Pending T) (o : Outputs T) : t :=
  mk (clk m) (rst m) (ren0 m) (ren1 m) (raddr0 m) (raddr1 m)
    (sync_mem_kernel.rdata o).[0] (sync_mem_kernel.rdata o).[1]
    (match (sync_mem_kernel.rlive o).[0] with Some l => l | None => rlive0 m end)
    (match (sync_mem_kernel.rlive o).[1] with Some l => l | None => rlive1 m end)
    (wvalid m) (waddr m) (wdata m) (wstrb m) c p.

Definition Work (m : t) : outcome unit * t :=
  let '(r, (p, o)) := work ADDR_WIDTH DEPTH 2 (current_ m) (pins m) (pending_ m, outputs m) in
  (r, store m (current_ m) p o).
Definition Xfer (m : t) : outcome t :=
  r <- xfer 2 (current_ m) (pending_ m) (outputs m) ;;
  let '(c, p, o) := r in Ret (store m c p o).
Definition DiscardNext (m : t) : t :=
  store m (current_ m) (discard 2 (current_ m) (pending_ m)) (outputs m).
Definition Reset (m : t) : outcome t :=
  p <- reset ADDR_WIDTH 2 (current_ m) (pins m) (pending_ m) ;; Ret (store m (current_ m) p (outputs m)).
Definition pokeEntry (address : Z) (v : T) (m : t) : t :=
  if address <? DEPTH then
    let c := current_ m in
    store m (mkCurrent ((memory c).[address := hw_pack v]) (q c) (live c) (idle c) (clock c))
          (pending_ m) (outputs m)
  else m.
Definition peekEntry (address : Z) (m : t) : T :=
  hw_unpack (if address <? DEPTH then (memory (current_ m)).[address] else bits_of_word _ 0).
Definition HasWork (m : t) : bool := true.
End Module_.
End sync_mem_dp.
