(* ===== verification/SyncMemSpec.v ===== *)
(** * Specification of synchronous memories

    Addresses convert without aliasing, strobes select whole bytes, and the
    kernel's two phases implement the read-first memory with expiring read
    registers described by [mem_next]. *)

From Stdlib Require Import ZArith Lia String.
From stdpp Require Import base list numbers.
From S2P Require Import Prelude Bits BitsLogic BitsShift BitsArith FourState FourStateSpec Wire.
From S2P Require Import WireSpec SampledClock Kernel SyncMem.

(** ** Addresses *)

Lemma low_bits_step v b :
  0 <= b -> (if Z.testbit v b then Z.lor (v mod 2 ^ b) (2 ^ b) else v mod 2 ^ b) = v mod 2 ^ (b + 1).
Proof.
  intros Hb. apply Z.bits_inj'. intros n Hn. rewrite Z.testbit_mod_pow2 by lia.
  assert (E : Z.testbit (if Z.testbit v b then Z.lor (v mod 2 ^ b) (2 ^ b) else v mod 2 ^ b) n =
              ((n <? b) && Z.testbit v n) || (Z.testbit v b && (b =? n))).
  { destruct (Z.testbit v b); [rewrite Z.lor_spec, Z.pow2_bits_eqb by lia|];
      rewrite Z.testbit_mod_pow2 by lia; [reflexivity | symmetry; apply orb_false_r]. }
  rewrite E. destruct (Z.eq_dec n b) as [->|Hne].
  - rewrite Z.eqb_refl, Z.ltb_irrefl. replace (b <? b + 1) with true by lia.
    cbn [andb orb]. apply andb_true_r.
  - replace (b =? n) with false by lia. replace (n <? b + 1) with (n <? b) by lia.
    rewrite andb_false_r. apply orb_false_r.
Qed.

(** All address bits count: an address beyond the host range saturates and
    never aliases a low one. *)
Lemma memory_index_spec {W} `{PosWidth W} (addr : Bits W) :
  bits_wf addr -> memory_index addr = Z.min (bval addr) u64_max.
Proof.
  intros Ha. unfold memory_index, hostBits. pose proof (bval_range addr Ha) as Hr. unfold is_u in Hr.
  destruct (Z.leb_spec W 64) as [Hle|Hgt].
  - rewrite value_small by assumption. assert (2 ^ W <= 2 ^ 64) by (apply Z.pow_le_mono_r; lia).
    unfold u64_max. lia.
  - match goal with |- context [first_range ?n ?i ?f] => pose proof (first_range_spec n i f) as Hf end.
    destruct (first_range _ _ _) as [r|].
    + destruct Hf as (b & Hb & Ef & _). destruct (bit addr b) eqn:Eb; [|discriminate]. injection Ef as <-.
      rewrite bit_spec in Eb by (assumption || lia).
      assert (2 ^ 64 <= bval addr); [|unfold u64_max; lia].
      destruct (Z_lt_le_dec (bval addr) (2 ^ 64)) as [Hlt|]; [exfalso|assumption].
      rewrite (is_u_testbit 64) in Eb; [discriminate | lia | unfold is_u; lia | lia].
    + assert (Hlt : is_u 64 (bval addr)).
      { apply is_u_of_testbit; [lia | lia|]. intros n Hn. destruct (Z_lt_le_dec n W).
        - specialize (Hf n ltac:(lia)). rewrite bit_spec in Hf by (assumption || lia).
          destruct (Z.testbit (bval addr) n); [discriminate | reflexivity].
        - apply bval_testbit_high; assumption. }
      match goal with |- for_range ?m ?i ?b ?s = _ =>
        pose proof (for_range_inv (fun k r => r = bval addr mod 2 ^ k) m i b s) as Hl end.
      rewrite Hl.
      * change (0 + Z.of_nat (Z.to_nat 64)) with 64. rewrite Z.mod_small by exact Hlt.
        unfold u64_max, is_u in *. lia.
      * symmetry. apply Z.mod_1_r.
      * intros k r Hk ->. rewrite bit_spec by (assumption || lia).
        unfold u64_shl. rewrite Z.shiftl_1_l, u64_id, low_bits_step; [reflexivity | lia|].
        split; [apply Z.pow_nonneg; lia | apply Z.pow_lt_mono_r; lia].
Qed.

(** ** Strobes *)

Section Strobe.
Context {W S : Z} `{HW : PosWidth W} `{HS : PosWidth S}.
Context (Hfit : 8 * (S - 1) < W <= 8 * S) (H32 : W < 2 ^ 32).

Lemma one_shl_tb k n : 0 <= k < W -> 0 <= n < W ->
  bits_wf (shl (bits_of_word W 1) k) /\ Z.testbit (bval (shl (bits_of_word W 1) k)) n = (n =? k).
Proof using HW.
  intros Hk Hn. destruct (one_spec (W:=W)) as [H1 E1]. split; [apply shl_wf; [assumption | lia]|].
  rewrite shl_tb, E1 by (assumption || lia). destruct (Z.eqb_spec n k) as [->|].
  - rewrite Z.sub_diag. reflexivity.
  - destruct (Z_lt_le_dec (n - k) 0); [apply Z.testbit_neg_r; assumption|].
    change 1 with (2 ^ 0). apply Z.pow2_bits_false. lia.
Qed.

Lemma strobe_lane_spec low m mask0 :
  bits_wf mask0 -> 0 <= low -> low + Z.of_nat m <= W ->
  let r := for_range m 0 (fun b mask => bits_or mask (shl (bits_of_word W 1) (low + b))) mask0 in
  bits_wf r /\ forall n, 0 <= n < W ->
    Z.testbit (bval r) n = Z.testbit (bval mask0) n || ((low <=? n) && (n <? low + Z.of_nat m)).
Proof using HW.
  intros H0 Hl Hm.
  match goal with |- context [for_range ?m ?i ?b ?s] =>
    pose proof (for_range_inv (fun k (r : Bits W) => bits_wf r /\ forall n, 0 <= n < W ->
      Z.testbit (bval r) n = Z.testbit (bval mask0) n || ((low <=? n) && (n <? low + k))) m i b s) as H end.
  rewrite Z.add_0_l in H. apply H.
  - split; [exact H0|]. intros n Hn. replace ((low <=? n) && (n <? low + 0)) with false by lia.
    symmetry. apply orb_false_r.
  - intros k r Hk [Hr Tr]. split.
    + apply bits_or_wf; [exact Hr|]. apply (one_shl_tb (low + k) 0); lia.
    + intros n Hn. destruct (one_shl_tb (low + k) n) as [Hw Tw]; [lia | exact Hn|].
      rewrite bits_or_tb, Tr, Tw by assumption. destruct (Z.testbit (bval mask0) n); [reflexivity|].
      cbn [orb]. lia.
Qed.

Lemma memory_strobe_spec (old new : Bits W) (strobe : Bits S) :
  bits_wf old -> bits_wf new -> bits_wf strobe ->
  bits_wf (memory_strobe old new strobe) /\
  forall n, 0 <= n < W ->
    Z.testbit (bval (memory_strobe old new strobe)) n =
    if Z.testbit (bval strobe) (n / 8) then Z.testbit (bval new) n else Z.testbit (bval old) n.
Proof using HW HS Hfit H32.
  intros Ho Hn Hs. unfold memory_strobe. pose proof (W_pos (W:=S)) as HSp.
  match goal with |- context [for_range ?m ?i ?b ?s] =>
    pose proof (for_range_inv (fun k (r : Bits W) => bits_wf r /\ forall n, 0 <= n < W ->
      Z.testbit (bval r) n = (n / 8 <? k) && Z.testbit (bval strobe) (n / 8)) m i b s) as H;
    set (mask := for_range m i b s) in * end.
  rewrite Z2Nat.id, Z.add_0_l in H by lia. destruct H as [Hm Tm].
  - rewrite bits_default_zero. split; [apply zero_wf|]. intros n Hb. rewrite zero_tb.
    pose proof (Z.div_pos n 8 ltac:(lia) ltac:(lia)). destruct (Z.ltb_spec (n / 8) 0); [lia | reflexivity].
  - intros k r Hk [Hr Tr]. rewrite bit_spec by (assumption || lia).
    destruct (Z.testbit (bval strobe) k) eqn:Ek; cbn [negb].
    + unfold wrapu. rewrite (Z.mod_small (W - k * 8)) by lia.
      assert (Hmin : 0 <= Z.min 8 (W - k * 8)) by lia.
      destruct (strobe_lane_spec (k * 8) (Z.to_nat (Z.min 8 (W - k * 8))) r Hr) as [Hr' Tr']; [lia | lia|].
      split; [exact Hr'|]. intros n Hb. rewrite Tr', Tr, Z2Nat.id by assumption.
      pose proof (Z.div_mod n 8 ltac:(lia)) as Hdm. pose proof (Z.mod_pos_bound n 8 ltac:(lia)) as Hmb.
      destruct (Z.eq_dec (n / 8) k) as [Heq|Hne].
      * rewrite Heq, Ek, andb_true_r. replace (k <? k) with false by lia. cbn [orb].
        replace (k <? k + 1) with true by lia. cbn [andb]. lia.
      * replace ((k * 8 <=? n) && (n <? k * 8 + Z.min 8 (W - k * 8))) with false by lia.
        rewrite orb_false_r. f_equal. lia.
    + split; [exact Hr|]. intros n Hb. rewrite Tr by exact Hb.
      destruct (Z.eq_dec (n / 8) k) as [Heq|Hne]; [rewrite Heq, Ek, !andb_false_r; reflexivity|].
      f_equal. lia.
  - assert (Hnm : bits_wf (bits_not mask)) by (apply bits_not_wf, Hm).
    split; [apply bits_or_wf; apply bits_and_wf; assumption|]. intros n Hb.
    rewrite bits_or_tb, !bits_and_tb, bits_not_tb, Tm by (assumption || apply bits_and_wf; assumption).
    assert (Hd : (n / 8 <? S) = true) by (apply Z.ltb_lt, Z.div_lt_upper_bound; lia). rewrite Hd. cbn [andb].
    destruct (Z.testbit (bval strobe) (n / 8)); cbn [negb]; rewrite ?andb_false_r, ?andb_true_r, ?orb_false_r; reflexivity.
Qed.
End Strobe.

(** ** The memory transition *)

Section MemorySpec.
Context {T : Type} `{HL : HardwareLaws T} `{HWire : !Wire T} `{HWL : !WireLaws T} `{ID : Inhabited (wire T)}.
Context (AW DEPTH P : Z) `{HAW : PosWidth AW}.
Context (HP : 0 < P) (HDepth : 0 < DEPTH < 2 ^ 64) (H32 : hw_width T < 2 ^ 32).
Import sync_mem_kernel.
#[local] Existing Instances word_inhabited addr_inhabited pin_inhabited.
#[local] Abbreviation DB := (hw_width T).
#[local] Abbreviation SW := (STRB_WIDTH (T:=T)).
Implicit Types (c : Current T) (p : Pending T) (i : Inputs T AW) (o : Outputs T).

Record mem_ok c : Prop := {
  mo_memory : length (memory c) = Z.to_nat DEPTH;
  mo_words : Forall bits_wf (memory c);
  mo_q : length (q c) = Z.to_nat P;
  mo_live : length (live c) = Z.to_nat P;
  mo_idle : length (idle c) = Z.to_nat P;
  mo_expiry : forall k, 0 <= k < P -> 0 <= (idle c).[k] /\ ((live c).[k] = true -> (idle c).[k] <= 1);
}.

Record mem_pins_ok i : Prop := {
  mp_clk : pin_wf (clk _ i);
  mp_rst : pin_wf (rst _ i);
  mp_ren : forall k, 0 <= k < P -> pin_wf (ren _ i).[k];
  mp_raddr : forall k, 0 <= k < P -> fs_wf ((raddr _ i).[k] : FourState AW);
  mp_wvalid : pin_wf (wvalid _ i);
  mp_waddr : fs_wf (waddr _ i : FourState AW);
  mp_wdata : wire_wf (wdata _ i);
  mp_wstrb : fs_wf (wstrb _ i : FourState SW);
}.

(** The stored word; beyond the depth reads give zero. *)
Definition mem_at c (address : Z) : Bits DB :=
  if address <? DEPTH then (memory c).[address] else bits_of_word DB 0.

Definition addr_known (a : wire (Bits AW)) : bool := FS.isFullyKnown (a : FourState AW).
Definition addr_index (a : wire (Bits AW)) : Z := memory_index (value_ (a : FourState AW)).

(** The memory after the edge. *)
Definition mem_write c i : list (Bits DB) :=
  if is1 (level (wvalid _ i)) then
    let a := addr_index (waddr _ i) in
    if a <? DEPTH then
      (memory c).[a := memory_strobe (memory c).[a] (value_ (wire_planes (wdata _ i)))
                         (value_ (wstrb _ i : FourState SW))]
    else memory c
  else memory c.

(** One read port at the edge. *)
Definition port_rd i (k : Z) : bool := is1 (level (ren _ i).[k]).
Definition port_expire c i (k : Z) : bool :=
  negb (port_rd i k) && (live c).[k] && (2 <=? (idle c).[k] + 1).
Definition port_idle c i (k : Z) : Z :=
  if port_rd i k then 0 else if ((live c).[k] : bool) then (idle c).[k] + 1 else (idle c).[k].
Definition port_live c i (k : Z) : bool :=
  port_rd i k || ((live c).[k] && negb (port_expire c i k)).
Definition port_planes c i (k : Z) : FourState DB :=
  if port_rd i k then fs_of (mem_at c (addr_index (raddr _ i).[k])) else fs_x (bits_of_word DB 0).

Inductive mem_op := MHold (ck : bool) | MReset (ck : bool) | MAccess.

Definition mem_text (single dual : string) : string := if P =? 1 then single else dual.

Definition operands_known i : bool :=
  addr_known (waddr _ i) && FS.isFullyKnown (wire_planes (wdata _ i)) &&
  FS.isFullyKnown (wstrb _ i : FourState SW).

Definition reads_known i : bool :=
  all_range (Z.to_nat P) 0 (fun k => negb (port_rd i k) || addr_known (raddr _ i).[k]).

Definition mem_decide c i : string + mem_op :=
  match level (clk _ i) with
  | V0 => inr (MHold false)
  | V1 =>
    if clock c then inr (MHold true)
    else match level (rst _ i) with
         | V1 => inr (MReset true)
         | V0 =>
           if negb (known4 (level (wvalid _ i)) &&
                    all_range (Z.to_nat P) 0 (fun k => known4 (level (ren _ i).[k])))
           then inl (mem_text "sync_mem controls must be known at posedge"
                              "sync_mem_dp controls must be known at posedge")
           else if is1 (level (wvalid _ i)) && negb (operands_known i)
           then inl (mem_text "sync_mem enabled write address/data/strobe must be known"
                              "sync_mem_dp enabled write address/data/strobe must be known")
           else if negb (reads_known i)
           then inl (mem_text "sync_mem enabled read address must be known"
                              "sync_mem_dp enabled read address must be known")
           else inr MAccess
         | _ => inl (mem_text "sync_mem reset must be known at posedge"
                              "sync_mem_dp reset must be known at posedge")
         end
  | _ => inl "memory clock must be known"%string
  end.

(** What [Xfer] must leave. *)
Definition mem_post c i (op : mem_op) c' : Prop :=
  match op with
  | MHold ck => c' = mkCurrent (memory c) (q c) (live c) (idle c) ck
  | MReset ck =>
    memory c' = memory c /\ clock c' = ck /\
    forall k, 0 <= k < P -> (live c').[k] = false /\ (idle c').[k] = 0 /\
      wire_planes (q c').[k] = fs_x (bits_of_word DB 0)
  | MAccess =>
    memory c' = mem_write c i /\ clock c' = true /\
    forall k, 0 <= k < P ->
      (live c').[k] = port_live c i k /\ (idle c').[k] = port_idle c i k /\
      if port_rd i k || port_expire c i k then wire_planes (q c').[k] = port_planes c i k
      else (q c').[k] = (q c).[k]
  end.

Lemma SW_fits : PosWidth SW /\ 8 * (SW - 1) < DB <= 8 * SW.
Proof.
  pose proof (W_pos (W:=DB)) as HD. unfold STRB_WIDTH, PosWidth.
  pose proof (Z.div_mod DB 8 ltac:(lia)). pose proof (Z.mod_pos_bound DB 8 ltac:(lia)).
  destruct (Z.eqb_spec (DB mod 8) 0); lia.
Qed.

Lemma mem_at_wf c a : mem_ok c -> 0 <= a -> bits_wf (mem_at c a).
Proof.
  intros Hc Ha. unfold mem_at. destruct (Z.ltb_spec a DEPTH); [|apply zero_wf].
  apply Forall_at; [apply Hc|]. rewrite (mo_memory _ Hc). lia.
Qed.

Lemma addr_index_nonneg (a : wire (Bits AW)) : fs_wf (a : FourState AW) -> 0 <= addr_index a.
Proof.
  intros Ha. unfold addr_index. rewrite memory_index_spec by apply Ha.
  pose proof (bval_range _ (fs_wf_value _ Ha)) as Hr. unfold is_u, u64_max in *. lia.
Qed.

(** *** The staged transaction *)

Record pend_shape p : Prop := {
  ps_q : length (p_q p) = Z.to_nat P;
  ps_read : length (p_read p) = Z.to_nat P;
  ps_inv : length (p_invalidate p) = Z.to_nat P;
  ps_idle : length (p_idle p) = Z.to_nat P;
}.

(** Port [k] of a pending access. *)
Definition port_staged c i p (k : Z) : Prop :=
  (p_read p).[k] = port_rd i k /\ (p_invalidate p).[k] = port_expire c i k /\
  (p_idle p).[k] = port_idle c i k /\
  (port_rd i k || port_expire c i k = true ->
     wire_wf (p_q p).[k] /\ wire_planes (p_q p).[k] = port_planes c i k).

Definition port_clear c p (k : Z) : Prop :=
  (p_read p).[k] = false /\ (p_invalidate p).[k] = false /\ (p_idle p).[k] = (idle c).[k].

(** The write half, once staged. *)
Definition write_staged c i p : Prop :=
  (if p_write p then (memory c).[p_address p := p_data p] else memory c) = mem_write c i /\
  (p_write p = true -> 0 <= p_address p < DEPTH /\ bits_wf (p_data p)).

Lemma stage_write_spec c i p o :
  mem_ok c -> mem_pins_ok i -> known4 (level (wvalid _ i)) = true -> pend_shape p -> p_write p = false ->
  if is1 (level (wvalid _ i)) && negb (operands_known i)
  then stage_write AW DEPTH P c i (p, o) =
         (Throw (msg P "sync_mem enabled write address/data/strobe must be known"
                       "sync_mem_dp enabled write address/data/strobe must be known"), (p, o))
  else exists a d w, stage_write AW DEPTH P c i (p, o) = (Ret tt, (set_write a d w p, o)) /\
         write_staged c i (set_write a d w p).
Proof.
  intros Hc Hi Hk Hp Hw0. unfold stage_write, write_staged, mem_write.
  rewrite pin_toBool_level by (apply Hi || exact Hk).
  destruct (is1 (level (wvalid _ i))) eqn:E1; cbn [negb andb].
  2:{ exists (p_address p), (p_data p), (p_write p). destruct p. cbn in *. subst. split; [reflexivity|].
      cbn. split; [reflexivity | discriminate]. }
  unfold operands_known. rewrite (wire_isFullyKnown_planes (wdata _ i) (mp_wdata _ Hi)).
  change (wire_isFullyKnown (T:=Bits AW) (waddr _ i)) with (addr_known (waddr _ i)).
  change (wire_isFullyKnown (T:=Bits SW) (wstrb _ i)) with (FS.isFullyKnown (wstrb _ i : FourState SW)).
  change (wire_value (T:=Bits AW) (waddr _ i)) with (value_ (waddr _ i : FourState AW)).
  change (wire_value (T:=Bits SW) (wstrb _ i)) with (value_ (wstrb _ i : FourState SW)).
  fold (addr_index (waddr _ i)).
  destruct (addr_known (waddr _ i)), (FS.isFullyKnown (wire_planes (wdata _ i))),
    (FS.isFullyKnown (wstrb _ i : FourState SW)); cbn [negb orb andb]; try reflexivity.
  set (a := addr_index (waddr _ i)). destruct SW_fits as [HSW Hfit].
  assert (Ha : 0 <= a) by (apply addr_index_nonneg, Hi).
  unfold st_bind, st_modify, st_when, st_lift, st_ret. cbn [on_pending].
  destruct (Z.ltb_spec a DEPTH) as [Hlt|Hge].
  - destruct (packed_ret (wdata _ i) (mp_wdata _ Hi)) as [-> Hd].
    do 3 eexists. split; [reflexivity|]. cbn [set_write p_write p_address p_data].
    split; [reflexivity|]. intros _. split; [lia|].
    apply (memory_strobe_spec Hfit H32); [|apply Hd | apply (mp_wstrb _ Hi)].
    apply Forall_at; [apply Hc|]. rewrite (mo_memory _ Hc). lia.
  - do 3 eexists. split; [reflexivity|]. cbn [set_write p_write p_address p_data]. rewrite Hw0.
    split; [reflexivity | discriminate].
Qed.

Definition same_write p p' : Prop :=
  p_data p' = p_data p /\ p_address p' = p_address p /\ p_write p' = p_write p /\
  p_clock p' = p_clock p /\ p_valid p' = p_valid p.

Lemma port_lookup_set {A} `{Inhabited A} (l : list A) k j x :
  length l = Z.to_nat P -> 0 <= k < P -> 0 <= j < P ->
  (l.[k := x]).[j] = if j =? k then x else l.[j].
Proof. intros Hl Hk Hj. apply array_get_set; lia. Qed.

(** Port [k] is staged, and nothing else changes. *)
Lemma stage_read_spec c i k p o :
  mem_ok c -> mem_pins_ok i -> 0 <= k < P -> known4 (level (ren _ i).[k]) = true ->
  pend_shape p -> port_clear c p k ->
  if port_rd i k && negb (addr_known (raddr _ i).[k])
  then stage_read AW DEPTH P c i k (p, o) =
         (Throw (msg P "sync_mem enabled read address must be known"
                       "sync_mem_dp enabled read address must be known"), (p, o))
  else exists p', stage_read AW DEPTH P c i k (p, o) = (Ret tt, (p', o)) /\
         pend_shape p' /\ same_write p p' /\ port_staged c i p' k /\
         forall j, 0 <= j < P -> j <> k ->
           (p_q p').[j] = (p_q p).[j] /\ (p_read p').[j] = (p_read p).[j] /\
           (p_invalidate p').[j] = (p_invalidate p).[j] /\ (p_idle p').[j] = (p_idle p).[j].
Proof.
  intros Hc Hi Hk Hkn [Lq Lr Lv Li] (Cr & Cv & Ci). unfold stage_read.
  rewrite pin_toBool_level by (apply Hi, Hk || exact Hkn). fold (port_rd i k).
  unfold port_staged, port_expire, port_idle, port_planes.
  destruct (port_rd i k) eqn:Er; cbn [negb andb orb].
  - change (wire_isFullyKnown (T:=Bits AW) (raddr _ i).[k]) with (addr_known (raddr _ i).[k]).
    destruct (addr_known (raddr _ i).[k]); cbn [negb]; [|reflexivity].
    change (memory_index _) with (addr_index (raddr _ i).[k]).
    set (a := addr_index (raddr _ i).[k]). fold (mem_at c a).
    assert (Hm : bits_wf (mem_at c a)) by (apply mem_at_wf; [exact Hc | apply addr_index_nonneg, Hi, Hk]).
    destruct (known_ok _ Hm) as [Ek Hkw]. destruct (fromPacked_ret (fs_of (mem_at c a)) Hkw) as (w & Ew & Hw & Pw).
    unfold st_bind, st_lift, st_modify. rewrite Ek. cbv beta iota. rewrite Ew. cbn [on_pending].
    eexists. split; [reflexivity|]. cbn [p_q p_read p_invalidate p_idle].
    split; [constructor; cbn; rewrite ?length_insert; assumption|].
    split; [repeat split|]. split.
    + rewrite !port_lookup_set, Z.eqb_refl by assumption. auto.
    + intros j Hj Hne. rewrite !port_lookup_set by assumption. destruct (Z.eqb_spec j k); [contradiction | auto].
  - unfold st_when. destruct (live c).[k] eqn:El; cbn [andb].
    2:{ eexists. split; [reflexivity|]. split; [constructor; assumption|]. split; [repeat split|].
        split; [|auto]. repeat split; (assumption || discriminate). }
    pose proof (mo_expiry _ Hc k Hk) as [Hi0 Hi1]. specialize (Hi1 El).
    unfold st_bind, st_modify, st_get, st_lift. cbn [on_pending fst p_idle].
    rewrite Ci, port_lookup_set, Z.eqb_refl by assumption.
    assert (Hwr : wrapu 32 ((idle c).[k] + 1) = (idle c).[k] + 1) by (apply Z.mod_small; lia).
    rewrite Hwr. destruct (2 <=? (idle c).[k] + 1) eqn:E2.
    + destruct wire_unknown_ret as (u & Eu & Hu & Pu). rewrite Eu. cbn [on_pending].
      eexists. split; [reflexivity|]. cbn [p_q p_read p_invalidate p_idle].
      split; [constructor; cbn; rewrite ?length_insert; assumption|]. split; [repeat split|].
      split; [rewrite !port_lookup_set, Z.eqb_refl by assumption; auto|].
      intros j Hj Hne. rewrite !port_lookup_set by assumption. destruct (Z.eqb_spec j k); [contradiction | auto].
    + eexists. split; [reflexivity|]. cbn [p_q p_read p_invalidate p_idle].
      split; [constructor; cbn; rewrite ?length_insert; assumption|]. split; [repeat split|].
      split; [rewrite !port_lookup_set, Z.eqb_refl by assumption; repeat split; (assumption || discriminate)|].
      intros j Hj Hne. rewrite !port_lookup_set by assumption. destruct (Z.eqb_spec j k); [contradiction | auto].
Qed.

Definition rens_known i : Prop := forall k, 0 <= k < P -> known4 (level (ren _ i).[k]) = true.

Lemma stage_reads_spec c i p o :
  mem_ok c -> mem_pins_ok i -> rens_known i -> pend_shape p ->
  (forall k, 0 <= k < P -> port_clear c p k) ->
  if reads_known i
  then exists p', st_for (Z.to_nat P) 0 (stage_read AW DEPTH P c i) (p, o) = (Ret tt, (p', o)) /\
         pend_shape p' /\ same_write p p' /\ forall k, 0 <= k < P -> port_staged c i p' k
  else exists p', st_for (Z.to_nat P) 0 (stage_read AW DEPTH P c i) (p, o) =
         (Throw (msg P "sync_mem enabled read address must be known"
                       "sync_mem_dp enabled read address must be known"), (p', o)) /\ pend_shape p'.
Proof.
  intros Hc Hi Hkn Hp Hclear.
  pose proof (st_for_inv
    (fun k '(p', o') => o' = o /\ pend_shape p' /\ same_write p p' /\
       (forall j, 0 <= j < k -> port_staged c i p' j /\ port_rd i j && negb (addr_known (raddr _ i).[j]) = false) /\
       (forall j, k <= j < P -> port_clear c p' j))
    (fun e '(p', o') => o' = o /\ pend_shape p' /\ reads_known i = false /\
       e = msg P "sync_mem enabled read address must be known"
                 "sync_mem_dp enabled read address must be known")
    (Z.to_nat P) 0 (stage_read AW DEPTH P c i) (p, o)) as H.
  assert (Hreads : forall k, 0 <= k < P -> port_rd i k && negb (addr_known (raddr _ i).[k]) = true ->
    reads_known i = false).
  { intros k Hk E. apply all_range_false. exists k. split; [lia|].
    destruct (port_rd i k), (addr_known (raddr _ i).[k]); cbn in *; congruence. }
  destruct (st_for _ _ _ _) as [r [p' o']]. rewrite Z2Nat.id, Z.add_0_l in H by lia.
  lapply H; [clear H; intros H | split; [reflexivity|]; split; [exact Hp|]; split; [repeat split|];
    split; [intros; lia | intros; apply Hclear; lia]].
  lapply H; [clear H; intros H |].
  - destruct r as [[]|e|]; [| |contradiction].
    + destruct H as (-> & Hp' & Hs & Hst & _).
      assert (E : reads_known i = true).
      { apply all_range_true. intros k Hk. destruct (Hst k ltac:(lia)) as [_ E].
        destruct (port_rd i k), (addr_known (raddr _ i).[k]); cbn in *; congruence. }
      rewrite E. exists p'. split; [reflexivity|]. split; [exact Hp'|]. split; [exact Hs|].
      intros k Hk. apply Hst, Hk.
    + destruct H as (-> & Hp' & E & ->). rewrite E. eauto.
  - intros k [p1 o1] Hk (-> & Hp1 & Hs1 & Hst1 & Hcl1).
    pose proof (stage_read_spec c i k p1 o Hc Hi ltac:(lia) (Hkn k ltac:(lia)) Hp1 (Hcl1 k ltac:(lia))) as Hb.
    destruct (port_rd i k && negb (addr_known (raddr _ i).[k])) eqn:E.
    + rewrite Hb. eauto.
    + destruct Hb as (p2 & -> & Hp2 & Hs2 & Hst2 & Hrest). split; [reflexivity|]. split; [exact Hp2|].
      split; [destruct Hs1 as (?&?&?&?&?), Hs2 as (?&?&?&?&?); repeat split; congruence|]. split.
      * intros j Hj. destruct (Z.eq_dec j k) as [->|Hne]; [auto|].
        destruct (Hst1 j ltac:(lia)) as [(S1 & S2 & S3 & S4) E']. split; [|exact E'].
        destruct (Hrest j ltac:(lia) Hne) as (R1 & R2 & R3 & R4). unfold port_staged.
        rewrite R1, R2, R3, R4. auto.
      * intros j Hj. destruct (Hcl1 j ltac:(lia)) as (C1 & C2 & C3).
        destruct (Hrest j ltac:(lia) ltac:(lia)) as (_ & R2 & R3 & R4). unfold port_clear.
        rewrite R2, R3, R4. auto.
Qed.

(** *** Commit *)

Definition live_pin (b : bool) : pin := fs_bool b.

(** Port [k] after the commit loop passed it. *)
Definition port_committed c p o (qs : list (wire T)) (lives : list bool) o' (k : Z) : Prop :=
  let hit := (p_read p).[k] || (p_invalidate p).[k] in
  qs.[k] = (if hit then (p_q p).[k] else (q c).[k]) /\
  lives.[k] = (if hit then (p_read p).[k] else (live c).[k]) /\
  (rdata o').[k] = (if hit then (p_q p).[k] else (rdata o).[k]) /\
  (rlive o').[k] = ((fun _ => live_pin lives.[k]) <$> (rlive o).[k]).

Definition commit_inv c p o (k : Z) (st : list (wire T) * list bool * Outputs T) : Prop :=
  let '(qs, lives, o') := st in
  (length qs = Z.to_nat P /\ length lives = Z.to_nat P /\
   length (rdata o') = Z.to_nat P /\ length (rlive o') = Z.to_nat P) /\
  forall j, 0 <= j < P ->
    if j <? k then port_committed c p o qs lives o' j
    else qs.[j] = (q c).[j] /\ lives.[j] = (live c).[j] /\
         (rdata o').[j] = (rdata o).[j] /\ (rlive o').[j] = (rlive o).[j].

Lemma live_known (b : bool) :
  wire_known (T:=Bits 1) (bits_of_word 1 (if b then 1 else 0)) = Ret (live_pin b).
Proof. exact (f_equal noexcept (known_flag b)). Qed.

Lemma set_if_spec {A} `{Inhabited A} (b : bool) (l : list A) k x j :
  length l = Z.to_nat P -> 0 <= k < P -> 0 <= j < P ->
  length (if b then l.[k := x] else l) = Z.to_nat P /\
  (if b then l.[k := x] else l).[j] = if b && (j =? k) then x else l.[j].
Proof.
  intros Hl Hk Hj. destruct b; cbn [andb]; [|auto]. rewrite length_insert, array_get_set by lia. auto.
Qed.

Lemma commit_ports c p o :
  mem_ok c -> pend_shape p -> length (rdata o) = Z.to_nat P -> length (rlive o) = Z.to_nat P ->
  exists st, ofor_range (Z.to_nat P) 0 (commit_port p) (q c, live c, o) = Ret st /\ commit_inv c p o P st.
Proof.
  intros Hc Hp Lo Ll.
  destruct (ofor_range_inv (commit_inv c p o) (Z.to_nat P) 0 (commit_port p) (q c, live c, o))
    as (st & E & Hst).
  - split; [repeat split; (apply Hc || assumption)|]. intros j Hj. replace (j <? 0) with false by lia. auto.
  - intros k [[qs lives] o1] Hk [(L1 & L2 & L3 & L4) Hall]. assert (Hk' : 0 <= k < P) by lia.
    pose proof (Hall k ltac:(lia)) as Hk0. rewrite Z.ltb_irrefl in Hk0. destruct Hk0 as (Eq & El & Ed & Ev).
    set (hit := (p_read p).[k] || (p_invalidate p).[k]).
    set (qs1 := if hit then qs.[k := (p_q p).[k]] else qs).
    set (lives1 := if hit then lives.[k := (p_read p).[k]] else lives).
    set (rd1 := if hit then (rdata o1).[k := (p_q p).[k]] else rdata o1).
    set (rl1 := match (rlive o1).[k] with Some _ => (rlive o1).[k := Some (live_pin lives1.[k])] | None => rlive o1 end).
    assert (Estep : commit_port p k (qs, lives, o1) = Ret (qs1, lives1, mkOutputs rd1 rl1)).
    { unfold commit_port. fold hit. unfold qs1, lives1, rd1, rl1.
      destruct hit; cbn [rlive rdata]; destruct (rlive o1).[k] eqn:Er; rewrite ?live_known; cbn [obind];
        rewrite ?(array_get_set_eq qs) by lia; destruct o1; reflexivity. }
    exists (qs1, lives1, mkOutputs rd1 rl1). split; [exact Estep|].
    assert (Hrl : length rl1 = Z.to_nat P /\ forall j, 0 <= j < P ->
      rl1.[j] = if j =? k then (fun _ => live_pin lives1.[k]) <$> (rlive o).[k] else (rlive o1).[j]).
    { unfold rl1. rewrite <- Ev. destruct ((rlive o1).[k]) as [x|] eqn:Er; cbn [fmap option_fmap option_map];
        rewrite ?length_insert; (split; [exact L4|]); intros j Hj.
      - apply array_get_set; lia.
      - destruct (Z.eqb_spec j k) as [Hjk|]; [rewrite Hjk; exact Er | reflexivity]. }
    split.
    + unfold qs1, lives1, rd1. cbn [rdata rlive]. rewrite (proj1 (set_if_spec hit qs k (p_q p).[k] k L1 Hk' Hk')),
        (proj1 (set_if_spec hit lives k (p_read p).[k] k L2 Hk' Hk')),
        (proj1 (set_if_spec hit (rdata o1) k (p_q p).[k] k L3 Hk' Hk')). tauto.
    + intros j Hj. cbn [rdata rlive]. rewrite (proj2 Hrl j Hj).
      pose proof (proj2 (set_if_spec hit qs k (p_q p).[k] j L1 Hk' Hj)) as H1. fold qs1 in H1. rewrite H1.
      pose proof (proj2 (set_if_spec hit lives k (p_read p).[k] j L2 Hk' Hj)) as H2. fold lives1 in H2.
      pose proof (proj2 (set_if_spec hit (rdata o1) k (p_q p).[k] j L3 Hk' Hj)) as H3. fold rd1 in H3. rewrite H3.
      specialize (Hall j Hj). destruct (Z.eqb_spec j k) as [Hjk|Hne].
      * subst j. replace (k <? k + 1) with true by lia. unfold port_committed. fold hit. cbn [rdata rlive]. rewrite (proj2 Hrl k Hk'), Z.eqb_refl, H1, H2, H3.
        rewrite andb_true_r. rewrite Eq, El, Ed. auto.
      * rewrite andb_false_r in H1, H2, H3. replace (j <? k + 1) with (j <? k) by lia.
        pose proof (proj2 Hrl j Hj) as H4. replace (j =? k) with false in H4 by lia.
        unfold port_committed in *. cbn [rdata rlive]. rewrite H1, H2, H3, H4, ?andb_false_r. exact Hall.
  - exists st. rewrite Z2Nat.id, Z.add_0_l in Hst by lia. auto.
Qed.

(** *** Work *)

Definition op_clock (op : mem_op) : bool := match op with MHold ck | MReset ck => ck | MAccess => true end.

Definition mem_staged c i (op : mem_op) p : Prop :=
  pend_shape p /\ p_valid p = true /\ p_clock p = op_clock op /\
  match op with
  | MHold _ => p_write p = false /\ forall k, 0 <= k < P -> port_clear c p k
  | MReset _ => p_write p = false /\ forall k, 0 <= k < P ->
      (p_read p).[k] = false /\ (p_invalidate p).[k] = true /\ (p_idle p).[k] = 0 /\
      wire_wf (p_q p).[k] /\ wire_planes (p_q p).[k] = fs_x (bits_of_word DB 0)
  | MAccess => write_staged c i p /\ forall k, 0 <= k < P -> port_staged c i p k
  end.

Definition q_shape p : Prop := length (p_q p) = Z.to_nat P.

Lemma discard_shape c p : mem_ok c -> q_shape p ->
  pend_shape (discard P c p) /\ forall k, 0 <= k < P -> port_clear c (discard P c p) k.
Proof.
  intros Hc Hq. unfold discard, nPorts. split.
  - constructor; cbn; rewrite ?length_replicate; try reflexivity; [exact Hq | apply Hc].
  - intros k Hk. unfold port_clear. cbn [p_read p_invalidate p_idle].
    rewrite lookup_total_replicate_2 by lia. auto.
Qed.

Lemma invalidate_spec p : pend_shape p -> (forall k, 0 <= k < P -> (p_read p).[k] = false) ->
  exists p', invalidate P p = Ret p' /\ pend_shape p' /\ same_write p p' /\
    forall k, 0 <= k < P ->
      (p_read p').[k] = false /\ (p_invalidate p').[k] = true /\ (p_idle p').[k] = 0 /\
      wire_wf (p_q p').[k] /\ wire_planes (p_q p').[k] = fs_x (bits_of_word DB 0).
Proof.
  intros Hp Hr. unfold invalidate, nPorts. destruct wire_unknown_ret as (u & -> & Hu & Pu). cbn [obind].
  eexists. split; [reflexivity|]. split; [constructor; cbn; rewrite ?length_replicate; try reflexivity; apply Hp|].
  split; [repeat split|]. intros k Hk. cbn [p_q p_read p_invalidate p_idle].
  rewrite !lookup_total_replicate_2 by lia. auto.
Qed.

(** A failed check: the handler discards what was staged. *)
Lemma mem_throw c p o body e p' :
  body (discard P c p, o) = (Throw e, (p', o)) -> q_shape p' ->
  exists p'', guarded_work (discard P c) body (p, o) = (Throw e, (p'', o)) /\
    q_shape p'' /\ p_valid p'' = false.
Proof.
  intros E Hq. rewrite (guarded_work_throw _ _ _ _ _ _ E). cbn [on_pending].
  eexists. split; [reflexivity|]. split; [exact Hq | reflexivity].
Qed.

Lemma msg_text single dual : msg P single dual = FourStateViolation (mem_text single dual).
Proof. reflexivity. Qed.

Lemma set_clock_valid_shape ck v p : pend_shape p -> pend_shape (set_clock_valid ck v p).
Proof. intros [H1 H2 H3 H4]. constructor; assumption. Qed.

Lemma mem_access_spec c i p o :
  mem_ok c -> mem_pins_ok i -> known4 (level (wvalid _ i)) = true -> rens_known i ->
  pend_shape p -> p_write p = false -> (forall k, 0 <= k < P -> port_clear c p k) ->
  let body := (do_ stage_write AW DEPTH P c i ;; st_for (nPorts P) 0 (stage_read AW DEPTH P c i)) in
  match
    if is1 (level (wvalid _ i)) && negb (operands_known i)
    then inl (mem_text "sync_mem enabled write address/data/strobe must be known"
                       "sync_mem_dp enabled write address/data/strobe must be known")
    else if negb (reads_known i)
    then inl (mem_text "sync_mem enabled read address must be known"
                       "sync_mem_dp enabled read address must be known")
    else inr tt
  with
  | inl e => exists p', body (p, o) = (Throw (FourStateViolation e), (p', o)) /\ q_shape p'
  | inr _ => exists p', body (p, o) = (Ret tt, (p', o)) /\ pend_shape p' /\
      p_clock p' = p_clock p /\ p_valid p' = p_valid p /\
      write_staged c i p' /\ forall k, 0 <= k < P -> port_staged c i p' k
  end.
Proof.
  intros Hc Hi Hk Hr Hp Hw0 Hcl body. unfold body, nPorts.
  pose proof (stage_write_spec c i p o Hc Hi Hk Hp Hw0) as Hsw.
  destruct (is1 (level (wvalid _ i)) && negb (operands_known i)).
  { exists p. split; [|apply Hp]. erewrite st_bind_throw by exact Hsw. reflexivity. }
  destruct Hsw as (a & d & w & Esw & Hws).
  assert (Hp1 : pend_shape (set_write a d w p)) by (destruct Hp; constructor; assumption).
  pose proof (stage_reads_spec c i (set_write a d w p) o Hc Hi Hr Hp1 Hcl) as Hsr.
  destruct (reads_known i); cbn [negb].
  - destruct Hsr as (p' & Esr & Hp' & Hrest). exists p'. erewrite st_bind_ret by exact Esw. split; [exact Esr|]. split; [exact Hp'|].
    destruct Hrest as [(S1 & S2 & S3 & S4 & S5) Hst]. cbn in S1, S2, S3, S4, S5.
    split; [exact S4|]. split; [exact S5|]. split; [|exact Hst].
    unfold write_staged in *. rewrite S1, S2, S3. exact Hws.
  - destruct Hsr as (p' & Esr & Hp'). exists p'. erewrite st_bind_ret by exact Esw.
    split; [exact Esr | apply Hp'].
Qed.

Lemma mem_work_spec c i p o :
  mem_ok c -> mem_pins_ok i -> q_shape p ->
  match mem_decide c i with
  | inl e => exists p', work AW DEPTH P c i (p, o) = (Throw (FourStateViolation e), (p', o)) /\
      q_shape p' /\ p_valid p' = false
  | inr op => exists p', work AW DEPTH P c i (p, o) = (Ret tt, (p', o)) /\ mem_staged c i op p'
  end.
Proof.
  intros Hc Hi Hq. destruct (discard_shape c p Hc Hq) as [Hs0 Hc0]. unfold work, mem_decide, work_body.
  set (p0 := discard P c p) in *. assert (Hq0 : q_shape p0) by exact Hq.
  rewrite !pin_isFullyKnown_level by apply Hi.
  destruct (known4 (level (clk _ i))) eqn:Ek; cbn [negb];
    [|destruct (level (clk _ i)); try discriminate; (eapply mem_throw; [reflexivity | exact Hq0])].
  rewrite (pin_toBool_level _ (mp_clk _ Hi) Ek).
  assert (Hhold : forall ck, exists p', guarded_work (discard P c)
      (do_ st_modify (on_pending (set_clock_valid ck true)) ;; st_ret tt) (p, o) = (Ret tt, (p', o)) /\
      mem_staged c i (MHold ck) p').
  { intros ck. erewrite guarded_work_ret by reflexivity. eexists. split; [reflexivity|].
    split; [apply set_clock_valid_shape, Hs0|]. split; [reflexivity|]. split; [reflexivity|].
    split; [reflexivity | exact Hc0]. }
  destruct (level (clk _ i)), (clock c); try discriminate; cbn [is1 negb orb]; try apply Hhold.
  set (p1 := set_clock_valid true true p0). assert (Hs1 : pend_shape p1) by apply set_clock_valid_shape, Hs0.
  destruct (known4 (level (rst _ i))) eqn:Er; cbn [negb];
    [|destruct (level (rst _ i)); try discriminate; (eapply mem_throw; [reflexivity | exact Hq0])].
  rewrite (pin_toBool_level _ (mp_rst _ Hi) Er).
  destruct (level (rst _ i)) eqn:Els; try discriminate; cbn [is1].
  2:{ destruct (invalidate_spec p1 Hs1) as (p' & Einv & Hp' & (_ & _ & S3 & S4 & S5) & Hports);
        [intros k Hk; apply Hc0, Hk|].
      exists p'. split.
      - apply guarded_work_ret. unfold st_bind, st_modify. cbn [on_pending].
        change (set_clock_valid true true (discard P c p)) with p1. rewrite Einv. reflexivity.
      - split; [exact Hp'|]. rewrite S4, S5, S3. auto. }
  destruct (known4 (level (wvalid _ i))) eqn:Ew; cbn [negb andb]; [|eapply mem_throw; [reflexivity | exact Hq0]].
  assert (Eren : all_range (nPorts P) 0 (fun k => pin_isFullyKnown (ren _ i).[k]) =
                 all_range (Z.to_nat P) 0 (fun k => known4 (level (ren _ i).[k]))).
  { apply eq_true_iff_eq. rewrite !all_range_true. unfold nPorts.
    split; intros H k Hk; specialize (H k Hk); rewrite pin_isFullyKnown_level in * by (apply Hi; lia); exact H. }
  rewrite Eren. destruct (all_range (Z.to_nat P) 0 _) eqn:Ea; cbn [negb];
    [|eapply mem_throw; [reflexivity | exact Hq0]].
  assert (Hrens : rens_known i) by (intros k Hk; rewrite all_range_true in Ea; apply Ea; lia).
  pose proof (mem_access_spec c i p1 o Hc Hi Ew Hrens Hs1 eq_refl Hc0) as Ha. cbn zeta in Ha.
  destruct (is1 (level (wvalid _ i)) && negb (operands_known i));
    [|destruct (negb (reads_known i))].
  - destruct Ha as (p' & E & Hp'). eapply mem_throw; [exact E | exact Hp'].
  - destruct Ha as (p' & E & Hp'). eapply mem_throw; [exact E | exact Hp'].
  - destruct Ha as (p' & E & Hp' & Ck & Vl & Hws & Hst). exists p'. split; [apply guarded_work_ret, E|].
    split; [exact Hp'|]. rewrite Ck, Vl. auto.
Qed.

(** *** Xfer *)

Definition outs_shape o : Prop :=
  length (rdata o) = Z.to_nat P /\ length (rlive o) = Z.to_nat P.

(** Read data follows the read register, the status pin its liveness. *)
Definition outs_follow c c' o o' (k : Z) : Prop :=
  (rlive o').[k] = ((fun _ => live_pin (live c').[k]) <$> (rlive o).[k]) /\
  ((rdata o').[k] = (q c').[k] \/ ((rdata o').[k] = (rdata o).[k] /\ (q c').[k] = (q c).[k])).

(** A commit that leaves every port alone keeps the registers. *)
Lemma staged_memory c i op p : mem_ok c -> mem_staged c i op p ->
  let m := if p_write p then (memory c).[p_address p := p_data p] else memory c in
  length m = Z.to_nat DEPTH /\ Forall bits_wf m /\
  m = match op with MAccess => mem_write c i | _ => memory c end.
Proof.
  intros Hc (_ & _ & _ & Hop). destruct op.
  1-2: destruct Hop as [-> _]; split; [apply Hc|]; split; [apply Hc | reflexivity].
  destruct Hop as [[Em Hw] _]. cbn zeta. split; [|split; [|exact Em]].
  - destruct (p_write p); rewrite ?length_insert; apply Hc.
  - destruct (p_write p); [|apply Hc]. destruct (Hw eq_refl). apply Forall_insert; [apply Hc | assumption].
Qed.

Definition staged_hit c i op (k : Z) : bool :=
  match op with MHold _ => false | MReset _ => true | MAccess => port_rd i k || port_expire c i k end.

Lemma staged_port c i op p k : mem_ok c -> 0 <= k < P -> mem_staged c i op p ->
  (p_read p).[k] || (p_invalidate p).[k] = staged_hit c i op k /\
  0 <= (p_idle p).[k] /\
  ((if staged_hit c i op k then (p_read p).[k] else (live c).[k]) = true -> (p_idle p).[k] <= 1).
Proof.
  intros Hc Hk (_ & _ & _ & Hop). pose proof (mo_expiry _ Hc k Hk) as [Hi0 Hi1].
  destruct op; destruct Hop as [_ Hop]; specialize (Hop k Hk); cbn [staged_hit].
  - destruct Hop as (-> & -> & ->). auto.
  - destruct Hop as (-> & -> & -> & _). split; [reflexivity|]. split; [lia | discriminate].
  - destruct Hop as (-> & -> & -> & _). split; [reflexivity|]. unfold port_idle, port_expire in *.
    destruct (port_rd i k); cbn [negb andb orb]; [lia|]. destruct (live c).[k]; cbn [andb] in *; [|split; [lia | discriminate]].
    specialize (Hi1 eq_refl). destruct (Z.leb_spec 2 ((idle c).[k] + 1)); split; (lia || discriminate).
Qed.

Lemma mem_xfer_spec c i op p o :
  mem_ok c -> mem_staged c i op p -> outs_shape o ->
  exists c' o', xfer P c p o = Ret (c', discard P c' p, o') /\
    mem_ok c' /\ mem_post c i op c' /\ outs_shape o' /\
    forall k, 0 <= k < P -> outs_follow c c' o o' k.
Proof.
  intros Hc Hst [Ho1 Ho2]. pose proof Hst as (Hp & Hv & Hck & Hop).
  destruct (staged_memory c i op p Hc Hst) as (Lm & Fm & Em).
  destruct (commit_ports c p o Hc Hp Ho1 Ho2) as ([[qs lives] o'] & Ecp & (L1 & L2 & L3 & L4) & Hall).
  assert (Hports : forall k, 0 <= k < P -> port_committed c p o qs lives o' k).
  { intros k Hk. specialize (Hall k Hk). replace (k <? P) with true in Hall by lia. exact Hall. }
  unfold xfer. rewrite Hv. cbn [negb]. unfold nPorts. rewrite Ecp. cbn [obind noexcept].
  set (m := if p_write p then _ else _) in *. do 2 eexists. split; [reflexivity|].
  split; [|split; [|split; [split; assumption|]]].
  - constructor; cbn [memory q live idle]; try assumption; [apply Hp|]. intros k Hk.
    destruct (Hports k Hk) as (_ & -> & _). destruct (staged_port c i op p k Hc Hk Hst) as (-> & H0 & H1). auto.
  - destruct op; cbn [mem_post]; cbn [memory q live idle clock].
    + rewrite Hck, Em. destruct Hop as [_ Hop].
      assert (Eh : forall k, 0 <= k < P -> (p_read p).[k] || (p_invalidate p).[k] = false)
        by (intros k Hk; destruct (Hop k Hk) as (-> & -> & _); reflexivity).
      f_equal; apply array_ext; try (rewrite ?L1, ?L2, ?(ps_idle _ Hp); symmetry; apply Hc);
        intros k Hk; rewrite ?L1, ?L2, ?(ps_idle _ Hp) in Hk; destruct (Hports k ltac:(lia)) as (E1 & E2 & _);
        rewrite (Eh k) in E1, E2 by lia; try assumption. apply Hop. lia.
    + split; [exact Em|]. split; [exact Hck|]. destruct Hop as [_ Hop]. intros k Hk.
      destruct (Hports k Hk) as (E1 & E2 & _). destruct (Hop k Hk) as (R & V & I & _ & Pl).
      rewrite R, V in E1, E2. cbn [orb] in E1, E2. rewrite E1, E2. auto.
    + split; [exact Em|]. split; [exact Hck|]. destruct Hop as [_ Hop]. intros k Hk.
      destruct (Hports k Hk) as (E1 & E2 & _). destruct (Hop k Hk) as (R & V & I & Q).
      rewrite R, V in E1, E2. rewrite E1, E2. split; [|split; [exact I|]].
      * unfold port_live, port_expire. destruct (port_rd i k), (live c).[k]; cbn [negb andb orb];
          try reflexivity; destruct (2 <=? (idle c).[k] + 1); reflexivity.
      * destruct (port_rd i k || port_expire c i k) eqn:E; [apply Q; reflexivity | reflexivity].
  - intros k Hk. destruct (Hports k Hk) as (E1 & E2 & E3 & E4). split; [exact E4|]. cbn [q].
    rewrite E1, E3. destruct ((p_read p).[k] || (p_invalidate p).[k]); auto.
Qed.

(** The two-phase contract. *)
Definition sync_mem_is_kernel : Kernel (Current T) (Pending T) (Inputs T AW) (Outputs T) := {|
  k_discard := discard P;
  k_work := work AW DEPTH P;
  k_xfer := xfer P;
  k_reset := reset AW P;
|}.

Definition mem_k_staged c p : Prop :=
  q_shape p /\ (p_valid p = true -> exists i op, mem_staged c i op p).

Lemma mem_reset_spec c i p :
  mem_ok c -> q_shape p ->
  exists p', reset AW P c i p = Ret p' /\ mem_staged c i (MReset false) p'.
Proof.
  intros Hc Hq. destruct (discard_shape c p Hc Hq) as [Hs0 Hc0]. unfold reset.
  destruct (invalidate_spec (set_clock_valid false true (discard P c p))) as (p' & -> & Hp' & (_ & _ & S3 & S4 & S5) & Hports);
    [apply set_clock_valid_shape, Hs0 | intros k Hk; apply Hc0, Hk|].
  exists p'. split; [reflexivity|]. split; [exact Hp'|]. rewrite S3, S4, S5. auto.
Qed.

#[local] Existing Instance sync_mem_is_kernel.
Definition sync_mem_laws : KernelLaws (Current T) (Pending T) (Inputs T AW) (Outputs T).
Proof.
  refine {|
    k_ok := mem_ok; k_pins_ok := mem_pins_ok; k_outs_ok := outs_shape;
    k_idle c p := q_shape p /\ p_valid p = false; k_staged := mem_k_staged |}.
  - intros c p [Hq Hv]. split; [exact Hq | rewrite Hv; discriminate].
  - intros c p Hc [Hq _]. split; [exact Hq | reflexivity].
  - intros c i p o Hc Hi Ho [Hq _]. pose proof (mem_work_spec c i p o Hc Hi Hq) as H.
    destruct (mem_decide c i) as [e|op]; destruct H as (p' & E & H); do 3 eexists;
      (split; [exact E | split; [exact Ho|]]); [exact H|]. split; [apply H | eauto].
  - intros c p o [_ Hv]. cbn. unfold xfer. rewrite Hv. reflexivity.
  - intros c p o Hc Ho [Hq Hst]. destruct (p_valid p) eqn:Ev.
    + destruct (Hst eq_refl) as (i & op & Hs).
      destruct (mem_xfer_spec c i op p o Hc Hs Ho) as (c' & o' & E & Hc' & _ & Ho' & _).
      do 3 eexists. split; [exact E|]. split; [exact Hc'|]. split; [split; [exact Hq | reflexivity] | exact Ho'].
    + exists c, p, o. cbn. unfold xfer. rewrite Ev. auto.
  - intros c i p Hc Hi [Hq _]. destruct (mem_reset_spec c i p Hc Hq) as (p' & E & Hs).
    exists p'. split; [exact E|]. split; [apply Hs | eauto].
Defined.

(** One whole cycle: [work], then [xfer] or [discard]. *)
Definition mem_cycle c i p o : outcome unit * (Current T * Pending T * Outputs T) :=
  match work AW DEPTH P c i (p, o) with
  | (Ret _, (p', o')) =>
    match xfer P c p' o' with
    | Ret s => (Ret tt, s)
    | Throw e => (Throw e, (c, p', o'))
    | Terminate => (Terminate, (c, p', o'))
    end
  | (r, (p', o')) => (r, (c, discard P c p', o'))
  end.

End MemorySpec.
