(* ===== verification/ByteMem.v ===== *)
(** * Byte-addressed memories: [include/gfsim/byte_mem.h]

    Combinational little-endian reads of the committed bytes and
    edge-triggered strobed writes. *)

From Stdlib Require Import ZArith Lia String.
From stdpp Require Import base list numbers.
From S2P Require Import Prelude Bits BitsLogic BitsShift BitsArith FourState FourStateSpec Wire.
From S2P Require Import WireSpec SampledClock Kernel SyncMem SyncMemSpec.

Module byte_mem_kernel.
Section Kernel.
Context {T : Type} `{HT : HardwareTraits T} `{HWire : !Wire T}.
Context (ADDR_WIDTH DEPTH : Z).
#[local] Abbreviation DATA_BITS := (hw_width T).

(** [DATA_BITS / 8]; the header requires whole bytes. *)
Definition STRB_WIDTH : Z := hw_width T / 8.

Record Current := mkCurrent { memory : list Z; clock : bool }.
Record Pending := mkPending {
  bytes : list Z;
  lanes : list bool;
  address : Z;
  p_clock : bool;
  p_valid : bool;
}.
Record Inputs := mkInputs {
  clk : pin;
  rst : pin;
  raddr : wire (Bits ADDR_WIDTH);
  wvalid : pin;
  waddr : wire (Bits ADDR_WIDTH);
  wdata : wire T;
  wstrb : wire (Bits STRB_WIDTH);
}.
(** [struct Outputs { wire<T> &rdata; }] *)
Definition Outputs : Type := wire T.

Definition nLanes : nat := Z.to_nat STRB_WIDTH.

Definition discard (c : Current) (p : Pending) : Pending :=
  mkPending (bytes p) (replicate nLanes false) (address p) (clock c) false.

Definition reset (c : Current) (i : Inputs) (p : Pending) : Pending :=
  let p := discard c p in mkPending (bytes p) (lanes p) (address p) false true.

Definition peekByteAt (c : Current) (base lane : Z) : Z :=
  if (DEPTH <=? base) || (DEPTH - base <=? lane) then 0 else (memory c).[base + lane].

Definition read_value (c : Current) (readBase : Z) : Bits DATA_BITS :=
  for_range nLanes 0
    (fun lane readValue =>
       bits_or readValue
         (shl (zext DATA_BITS (bits_of_word 8 (peekByteAt c readBase lane))) (8 * lane)))
    (bits_default DATA_BITS).

Definition read (c : Current) (addr : wire (Bits ADDR_WIDTH)) : outcome Outputs :=
  noexcept
    (if negb (wire_isFullyKnown (T:=Bits ADDR_WIDTH) addr) then wire_unknown T
     else
       k <- FS.known (read_value c (memory_index (wire_value (T:=Bits ADDR_WIDTH) addr))) ;;
       fromPacked k).

(** The lane loop of an enabled write. *)
Definition stage_lanes (i : Inputs) (d : FourState DATA_BITS) (p : Pending) : Pending :=
  let '(bs, ls) :=
    for_range nLanes 0
      (fun lane '(bs, ls) =>
         if (lane <? DEPTH - address p) && bit (wire_value (T:=Bits STRB_WIDTH) (wstrb i)) lane
         then (bs.[lane := wrapu 8 (value (extract 8 (value_ d) (8 * lane)))], ls.[lane := true])
         else (bs, ls))
      (bytes p, lanes p) in
  mkPending bs ls (address p) (p_clock p) (p_valid p).

Definition work_body (c : Current) (i : Inputs) : ST (Pending * Outputs) unit :=
  if negb (wire_isFullyKnown (T:=Bits ADDR_WIDTH) (raddr i))
  then st_throw (FourStateViolation "byte_mem read address must be known")
  else
    do r <- st_lift (read c (raddr i)) ;;
    do_ st_modify (fun '(p, _) => (p, r)) ;;
    if negb (pin_isFullyKnown (clk i))
    then st_throw (FourStateViolation "byte_mem clock must be known")
    else
      let ck := pin_toBool (clk i) in
      do_ st_modify (on_pending (fun p => mkPending (bytes p) (lanes p) (address p) ck true)) ;;
      if clock c || negb ck then st_ret tt
      else if negb (pin_isFullyKnown (rst i))
      then st_throw (FourStateViolation "byte_mem reset must be known at posedge")
      else if pin_toBool (rst i) then st_ret tt
      else if negb (pin_isFullyKnown (wvalid i))
      then st_throw (FourStateViolation "byte_mem write control must be known at posedge")
      else if negb (pin_toBool (wvalid i)) then st_ret tt
      else if negb (wire_isFullyKnown (T:=Bits ADDR_WIDTH) (waddr i)) ||
              negb (wire_isFullyKnown (wdata i)) ||
              negb (wire_isFullyKnown (T:=Bits STRB_WIDTH) (wstrb i))
      then st_throw (FourStateViolation "byte_mem enabled write address/data/strobe must be known")
      else
        let a := memory_index (wire_value (T:=Bits ADDR_WIDTH) (waddr i)) in
        do_ st_modify (on_pending (fun p => mkPending (bytes p) (lanes p) a (p_clock p) (p_valid p))) ;;
        if DEPTH <=? a then st_ret tt
        else
          do d <- st_lift (packed (wdata i)) ;;
          st_modify (on_pending (stage_lanes i d)).

Definition work (c : Current) (i : Inputs) : ST (Pending * Outputs) unit :=
  guarded_work (discard c) (work_body c i).

Definition xfer (c : Current) (p : Pending) (o : Outputs) : Current * Pending * Outputs :=
  if negb (p_valid p) then (c, p, o)
  else
    let memory' :=
      for_range nLanes 0
        (fun lane m => if ((lanes p).[lane] : bool) then m.[address p + lane := (bytes p).[lane]] else m)
        (memory c) in
    let c := mkCurrent memory' (p_clock p) in (c, discard c p, o).
End Kernel.
Arguments Inputs T {_ _} ADDR_WIDTH.
Arguments Outputs T {_ _}.
End byte_mem_kernel.

Module byte_mem.
Section Module_.
Context {T : Type} `{HT : HardwareTraits T} `{HWire : !Wire T}.
Context (ADDR_WIDTH DEPTH : Z).
Import byte_mem_kernel.

Record t := mk {
  pins : Inputs T ADDR_WIDTH;
  rdata : wire T;
  current_ : Current;
  pending_ : Pending;
}.

Definition Work (m : t) : outcome unit * t :=
  let '(r, (p, o)) := work ADDR_WIDTH DEPTH (current_ m) (pins m) (pending_ m, rdata m) in
  (r, mk (pins m) o (current_ m) p).
Definition Xfer (m : t) : t :=
  let '(c, p, o) := xfer (current_ m) (pending_ m) (rdata m) in mk (pins m) o c p.
Definition DiscardNext (m : t) : t :=
  mk (pins m) (rdata m) (current_ m) (discard (T:=T) (current_ m) (pending_ m)).
Definition Reset (m : t) : t :=
  mk (pins m) (rdata m) (current_ m) (reset ADDR_WIDTH (current_ m) (pins m) (pending_ m)).
Definition pokeByte (a v : Z) (m : t) : t :=
  if a <? DEPTH
  then mk (pins m) (rdata m) (mkCurrent ((memory (current_ m)).[a := v]) (clock (current_ m))) (pending_ m)
  else m.
Definition peekByte (a : Z) (m : t) : Z := peekByteAt DEPTH (current_ m) a 0.
Definition peek32 (a : Z) (m : t) : Z :=
  for_range 4 0
    (fun lane v => Z.lor v (wrapu 32 (Z.shiftl (peekByteAt DEPTH (current_ m) a lane) (8 * lane)))) 0.
Definition HasWork (m : t) : bool := true.
End Module_.
End byte_mem.
