(* ===== verification/ByteMemSpec.v ===== *)
(** * Specification of byte-addressed memories

    Reads assemble the little-endian word at the address from the committed
    bytes; a write commits exactly the strobed bytes below the depth. *)

From Stdlib Require Import ZArith Lia String.
From stdpp Require Import base list numbers.
From S2P Require Import Prelude Bits BitsLogic BitsShift BitsArith FourState FourStateSpec Wire.
From S2P Require Import WireSpec SampledClock Kernel SyncMem SyncMemSpec ByteMem.

Section ByteSpec.
Context {T : Type} `{HL : HardwareLaws T} `{HWire : !Wire T} `{HWL : !WireLaws T}.
Context (AW DEPTH : Z) `{HAW : PosWidth AW}.
Context (HDepth : 0 < DEPTH < 2 ^ 64) (H8 : hw_width T mod 8 = 0).
Import byte_mem_kernel.
#[local] Abbreviation DB := (hw_width T).
#[local] Abbreviation SW := (STRB_WIDTH (T:=T)).
Implicit Types (c : Current) (p : Pending) (i : Inputs T AW) (o : Outputs T).

Record bm_ok c : Prop := {
  bo_memory : length (memory c) = Z.to_nat DEPTH;
  bo_bytes : Forall (is_u 8) (memory c);
}.

Record bm_shape p : Prop := {
  bs_bytes : length (bytes p) = Z.to_nat SW;
  bs_lanes : length (lanes p) = Z.to_nat SW;
}.

Record bm_pins_ok i : Prop := {
  bp_clk : pin_wf (clk _ i);
  bp_rst : pin_wf (rst _ i);
  bp_raddr : fs_wf (raddr _ i : FourState AW);
  bp_wvalid : pin_wf (wvalid _ i);
  bp_waddr : fs_wf (waddr _ i : FourState AW);
  bp_wdata : wire_wf (wdata _ i);
  bp_wstrb : fs_wf (wstrb _ i : FourState SW);
}.

Lemma SW_spec : 0 < SW /\ DB = 8 * SW.
Proof.
  pose proof (W_pos (W:=DB)). unfold STRB_WIDTH. pose proof (Z.div_mod DB 8 ltac:(lia)). lia.
Qed.

(** The byte stored at an address, zero beyond the depth. *)
Definition byte_at c (a : Z) : Z := if a <? DEPTH then (memory c).[a] else 0.

Lemma peekByteAt_spec c base lane : 0 <= base -> 0 <= lane -> peekByteAt DEPTH c base lane = byte_at c (base + lane).
Proof.
  intros Hb Hl. unfold peekByteAt, byte_at.
  replace ((DEPTH <=? base) || (DEPTH - base <=? lane)) with (negb (base + lane <? DEPTH)) by lia.
  destruct (base + lane <? DEPTH); reflexivity.
Qed.

Lemma byte_at_range c a : bm_ok c -> 0 <= a -> is_u 8 (byte_at c a).
Proof.
  intros Hc Ha. unfold byte_at. destruct (Z.ltb_spec a DEPTH); [|unfold is_u; lia].
  apply Forall_at; [apply Hc|]. rewrite (bo_memory _ Hc). lia.
Qed.

(** The little-endian word at [base]. *)
Lemma read_value_spec c base : bm_ok c -> 0 <= base ->
  bits_wf (read_value DEPTH c base) /\
  forall n, 0 <= n < DB ->
    Z.testbit (bval (read_value (T:=T) DEPTH c base)) n = Z.testbit (byte_at c (base + n / 8)) (n mod 8).
Proof.
  intros Hc Hb. destruct SW_spec as [HS HD]. unfold read_value, nLanes.
  match goal with |- context [for_range ?m ?i ?b ?s] =>
    pose proof (for_range_inv (fun k (r : Bits DB) => bits_wf r /\ forall n, 0 <= n < DB ->
      Z.testbit (bval r) n = if n <? 8 * k then Z.testbit (byte_at c (base + n / 8)) (n mod 8) else false)
      m i b s) as H end.
  rewrite Z2Nat.id, Z.add_0_l in H by lia. destruct H as [Hwf Htb].
  - rewrite bits_default_zero. split; [apply zero_wf|]. intros n Hn. rewrite zero_tb.
    replace (n <? 8 * 0) with false by lia. reflexivity.
  - intros k r Hk [Hr Tr]. rewrite peekByteAt_spec by lia.
    pose proof (byte_at_range c (base + k) Hc ltac:(lia)) as Hu.
    destruct (bits_of_word_spec (W:=8) (byte_at c (base + k))) as [Hw Ew]; [unfold is_u in *; lia|].
    rewrite (Z.mod_small _ (2 ^ 8)) in Ew by exact Hu.
    change (bits_or r _) with (put r (bits_of_word 8 (byte_at c (base + k))) (8 * k)).
    split; [apply put_wf; (assumption || lia)|]. intros n Hn.
    rewrite put_tb, Tr, Ew by (assumption || lia).
    pose proof (Z.div_mod n 8 ltac:(lia)) as Hdm. pose proof (Z.mod_pos_bound n 8 ltac:(lia)) as Hmb.
    destruct (Z.ltb_spec n (8 * k)); [|destruct (Z.ltb_spec n (8 * (k + 1)))].
    + replace (n <? 8 * (k + 1)) with true by lia. rewrite (Z.testbit_neg_r _ (n - 8 * k)) by lia. apply orb_false_r.
    + replace (n / 8) with k by lia. cbn [orb]. f_equal. lia.
    + cbn [orb]. apply (is_u_testbit 8); [lia | exact Hu | lia].
  - split; [exact Hwf|]. intros n Hn. rewrite Htb by exact Hn.
    replace (n <? 8 * SW) with true by lia. reflexivity.
Qed.

(** *** Staging the lanes *)

Definition strobe_at i (k : Z) : bool := Z.testbit (bval (value_ (wstrb _ i : FourState SW))) k.
Definition data_byte i (k : Z) : Z := (bval (value_ (wire_planes (wdata _ i))) / 2 ^ (8 * k)) mod 2 ^ 8.
Definition lane_on i a (k : Z) : bool := (k <? DEPTH - a) && strobe_at i k.

Lemma SW_pos : PosWidth SW.
Proof. apply SW_spec. Qed.
#[local] Existing Instance SW_pos.

Lemma stage_lanes_spec i p :
  bm_pins_ok i -> length (bytes p) = Z.to_nat SW -> lanes p = replicate (Z.to_nat SW) false ->
  let p' := stage_lanes AW DEPTH i (wire_planes (wdata _ i)) p in
  bm_shape p' /\ address p' = address p /\ p_clock p' = p_clock p /\ p_valid p' = p_valid p /\
  forall k, 0 <= k < SW ->
    (lanes p').[k] = lane_on i (address p) k /\
    (lane_on i (address p) k = true -> (bytes p').[k] = data_byte i k).
Proof.
  intros Hi Lb Ll. destruct SW_spec as [HS HD]. unfold stage_lanes, nLanes.
  match goal with |- context [for_range ?m ?i0 ?b ?s] =>
    pose proof (for_range_inv (fun k (st : list Z * list bool) => let '(bs, ls) := st in
      length bs = Z.to_nat SW /\ length ls = Z.to_nat SW /\ forall j, 0 <= j < SW ->
        ls.[j] = (if j <? k then lane_on i (address p) j else false) /\
        (j < k -> lane_on i (address p) j = true -> bs.[j] = data_byte i j)) m i0 b s) as H;
    destruct (for_range m i0 b s) as [bs ls] end.
  rewrite Z2Nat.id, Z.add_0_l in H by lia. lapply H; [clear H; intros H|].
  2:{ rewrite Ll, length_replicate. split; [exact Lb|]. split; [reflexivity|]. intros j Hj.
      replace (j <? 0) with false by lia. rewrite lookup_total_replicate_2 by lia. split; [reflexivity | lia]. }
  lapply H; [clear H; intros (L1 & L2 & Hall) |].
  - cbn [lanes bytes address p_clock p_valid]. split; [constructor; assumption|]. do 3 (split; [reflexivity|]).
    intros k Hk. destruct (Hall k Hk) as [E1 E2]. replace (k <? SW) with true in E1 by lia.
    split; [exact E1 | apply E2; lia].
  - intros k [bs0 ls0] Hk (L1 & L2 & Hall).
    assert (Ebit : bit (wire_value (T:=Bits SW) (wstrb _ i)) k = strobe_at i k)
      by (apply bit_spec; [apply (bp_wstrb _ Hi) | lia]).
    rewrite Ebit. fold (lane_on i (address p) k). destruct (lane_on i (address p) k) eqn:El.
    + rewrite !length_insert. split; [exact L1|]. split; [exact L2|]. intros j Hj.
      rewrite !array_get_set by lia. destruct (Hall j Hj) as [E1 E2].
      destruct (Z.eqb_spec j k) as [Hjk|Hne].
      * rewrite Hjk. replace (k <? k + 1) with true by lia. split; [symmetry; exact El|]. intros _ _.
        assert (Hd : bits_wf (value_ (wire_planes (wdata _ i)))) by (apply packed_ret, (bp_wdata _ Hi)).
        destruct (extract_spec (A:=DB) (B:=8) (value_ (wire_planes (wdata _ i))) (8 * k) Hd) as [Hw Ew]; [lia|].
        rewrite value_small, Ew by (assumption || lia). apply Z.mod_mod. lia.
      * split; [rewrite E1; replace (j <? k + 1) with (j <? k) by lia; reflexivity | intros; apply E2; (assumption || lia)].
    + split; [exact L1|]. split; [exact L2|]. intros j Hj. destruct (Hall j Hj) as [E1 E2].
      destruct (Z.eq_dec j k) as [Hjk|Hne].
      * rewrite Hjk in *. replace (k <? k + 1) with true by lia. rewrite El. split; [|discriminate].
        rewrite E1. replace (k <? k) with false by lia. reflexivity.
      * split; [rewrite E1; replace (j <? k + 1) with (j <? k) by lia; reflexivity | intros; apply E2; (assumption || lia)].
Qed.

(** *** The commit loop *)

Lemma commit_lanes_spec (m : list Z) a (ls : list bool) (bs : list Z) n :
  0 <= a -> length m = Z.to_nat DEPTH ->
  (forall k, 0 <= k < Z.of_nat n -> ls.[k] = true -> k < DEPTH - a) ->
  let m' := for_range n 0 (fun lane m => if (ls.[lane] : bool) then m.[a + lane := bs.[lane]] else m) m in
  length m' = Z.to_nat DEPTH /\
  forall x, 0 <= x < DEPTH ->
    m'.[x] = if (a <=? x) && (x - a <? Z.of_nat n) && ls.[x - a] then bs.[x - a] else m.[x].
Proof.
  intros Ha Lm Hin.
  match goal with |- context [for_range ?m0 ?i ?b ?s] =>
    pose proof (for_range_inv (fun k m' => length m' = Z.to_nat DEPTH /\ forall x, 0 <= x < DEPTH ->
      m'.[x] = if (a <=? x) && (x - a <? k) && ls.[x - a] then bs.[x - a] else m.[x]) m0 i b s) as H end.
  rewrite Z.add_0_l in H. apply H.
  - split; [exact Lm|]. intros x Hx. replace ((a <=? x) && (x - a <? 0)) with false by lia. reflexivity.
  - intros k m1 Hk [L1 H1]. destruct (ls.[k]) eqn:El.
    + specialize (Hin k ltac:(lia) El). rewrite length_insert. split; [exact L1|]. intros x Hx.
      rewrite array_get_set by lia. rewrite H1 by exact Hx. destruct (Z.eqb_spec x (a + k)) as [->|Hne].
      * replace (a + k - a) with k by lia. rewrite El.
        replace ((a <=? a + k) && (k <? k + 1) && true) with true by lia. reflexivity.
      * replace (x - a <? k + 1) with (x - a <? k) by lia. reflexivity.
    + split; [exact L1|]. intros x Hx. rewrite H1 by exact Hx. destruct (Z.eq_dec (x - a) k) as [->|Hne].
      * rewrite El, !andb_false_r. reflexivity.
      * replace (x - a <? k + 1) with (x - a <? k) by lia. reflexivity.
Qed.

(** *** One sample of the pins *)

Definition bm_addr (a : wire (Bits AW)) : Z := memory_index (value_ (a : FourState AW)).
Definition bm_addr_known (a : wire (Bits AW)) : bool := FS.isFullyKnown (a : FourState AW).
Definition bm_operands_known i : bool :=
  bm_addr_known (waddr _ i) && FS.isFullyKnown (wire_planes (wdata _ i)) &&
  FS.isFullyKnown (wstrb _ i : FourState SW).

(** The clock sample and whether a write is enabled. *)
Definition bm_decide c i : string + (bool * bool) :=
  match level (clk _ i) with
  | V0 => inr (false, false)
  | V1 =>
    if clock c then inr (true, false)
    else match level (rst _ i) with
         | V1 => inr (true, false)
         | V0 =>
           match level (wvalid _ i) with
           | V0 => inr (true, false)
           | V1 => if bm_operands_known i then inr (true, true)
                   else inl "byte_mem enabled write address/data/strobe must be known"%string
           | _ => inl "byte_mem write control must be known at posedge"%string
           end
         | _ => inl "byte_mem reset must be known at posedge"%string
         end
  | _ => inl "byte_mem clock must be known"%string
  end.

(** Byte [x] after the commit. *)
Definition bm_next c i (w : bool) (x : Z) : Z :=
  let a := bm_addr (waddr _ i) in
  if w && ((a <=? x) && (x - a <? SW) && strobe_at i (x - a)) then data_byte i (x - a) else (memory c).[x].

(** Every staged lane lies below the depth. *)
Definition lanes_inv p : Prop :=
  0 <= address p /\ forall k, 0 <= k < SW -> (lanes p).[k] = true -> k < DEPTH - address p /\ is_u 8 (bytes p).[k].

Definition bm_staged i p (ck w : bool) : Prop :=
  bm_shape p /\ p_valid p = true /\ p_clock p = ck /\
  if w && (bm_addr (waddr _ i) <? DEPTH)
  then address p = bm_addr (waddr _ i) /\ forall k, 0 <= k < SW ->
         (lanes p).[k] = lane_on i (address p) k /\
         (lane_on i (address p) k = true -> (bytes p).[k] = data_byte i k)
  else forall k, 0 <= k < SW -> (lanes p).[k] = false.

Lemma bm_addr_nonneg (a : wire (Bits AW)) : fs_wf (a : FourState AW) -> 0 <= bm_addr a.
Proof.
  intros Ha. unfold bm_addr. rewrite memory_index_spec by apply Ha.
  pose proof (bval_range _ (fs_wf_value _ Ha)) as Hr. unfold is_u, u64_max in *. lia.
Qed.

Definition b_shape p : Prop := length (bytes p) = Z.to_nat SW.

Lemma bm_discard_shape c p : b_shape p -> bm_shape (discard (T:=T) c p).
Proof. intros Hb. constructor; [exact Hb|]. cbn. apply length_replicate. Qed.

Lemma read_spec c (a : wire (Bits AW)) : bm_ok c -> fs_wf (a : FourState AW) ->
  exists w, read AW DEPTH c a = Ret w /\ wire_wf w /\
    wire_planes w = if bm_addr_known a then fs_of (read_value DEPTH c (bm_addr a)) else fs_x (bits_of_word DB 0).
Proof.
  intros Hc Ha. unfold read. change (wire_isFullyKnown (T:=Bits AW) a) with (bm_addr_known a).
  destruct (bm_addr_known a); cbn [negb].
  - destruct (read_value_spec c (bm_addr a) Hc (bm_addr_nonneg a Ha)) as [Hv _].
    destruct (known_ok _ Hv) as [Ek Hk].
    change (memory_index (wire_value (T:=Bits AW) a)) with (bm_addr a). rewrite Ek. cbn [obind].
    destruct (fromPacked_ret _ Hk) as (w & -> & Hw & Pw). exists w. auto.
  - destruct wire_unknown_ret as (w & -> & Hw & Pw). exists w. auto.
Qed.

(** The state in which an enabled write is staged. *)
Lemma stage_write_lanes i p ck o :
  bm_pins_ok i -> b_shape p -> lanes p = replicate (Z.to_nat SW) false -> p_clock p = ck -> p_valid p = true ->
  let a := bm_addr (waddr _ i) in
  exists p',
    (do_ st_modify (on_pending (fun p => mkPending (bytes p) (lanes p) a (p_clock p) (p_valid p))) ;;
     if DEPTH <=? a then st_ret tt
     else do d <- st_lift (packed (wdata _ i)) ;; st_modify (on_pending (stage_lanes AW DEPTH i d)))
      (p, o) = (Ret tt, (p', o : Outputs T)) /\ bm_staged i p' ck true.
Proof.
  intros Hi Hb Hl Hck Hv a. unfold st_bind, st_modify. cbn [on_pending].
  set (p1 := mkPending (bytes p) (lanes p) a (p_clock p) (p_valid p)).
  unfold bm_staged. fold a. replace (a <? DEPTH) with (negb (DEPTH <=? a)) by lia.
  destruct (DEPTH <=? a); cbn [negb andb].
  - exists p1. split; [reflexivity|]. split; [constructor; [exact Hb|]; cbn; rewrite Hl; apply length_replicate|].
    split; [exact Hv|]. split; [exact Hck|]. intros k Hk. cbn [p1 lanes]. rewrite Hl.
    apply lookup_total_replicate_2. lia.
  - destruct (packed_ret (wdata _ i) (bp_wdata _ Hi)) as [Ep _]. unfold st_lift. rewrite Ep. cbn [on_pending].
    destruct (stage_lanes_spec i p1 Hi Hb Hl) as (Hs & Ea & Ec & Ev & Hall).
    eexists. split; [reflexivity|]. split; [exact Hs|]. rewrite Ev, Ec, Ea. auto.
Qed.

Lemma bm_work_spec c i p o :
  bm_ok c -> bm_pins_ok i -> b_shape p ->
  if bm_addr_known (raddr _ i) then
    exists o', wire_wf o' /\ wire_planes o' = fs_of (read_value DEPTH c (bm_addr (raddr _ i))) /\
      match bm_decide c i with
      | inl e => exists p', work AW DEPTH c i (p, o) = (Throw (FourStateViolation e), (p', o')) /\
          bm_shape p' /\ p_valid p' = false
      | inr (ck, w) => exists p', work AW DEPTH c i (p, o) = (Ret tt, (p', o')) /\ bm_staged i p' ck w
      end
  else work AW DEPTH c i (p, o) =
    (Throw (FourStateViolation "byte_mem read address must be known"), (discard (T:=T) c p, o)).
Proof.
  intros Hc Hi Hb. unfold work, work_body.
  change (wire_isFullyKnown (T:=Bits AW) (raddr _ i)) with (bm_addr_known (raddr _ i)).
  destruct (bm_addr_known (raddr _ i)) eqn:Er; cbn [negb]; [|reflexivity].
  destruct (read_spec c (raddr _ i) Hc (bp_raddr _ Hi)) as (o' & Eo & Ho & Po). rewrite Er in Po.
  exists o'. split; [exact Ho|]. split; [exact Po|].
  pose proof (bm_discard_shape c p Hb) as Hs0. unfold bm_decide.
  assert (Hthrow : forall e p', bm_shape p' ->
    exists p'', (Throw e, on_pending (discard (T:=T) c) (p', o')) = (Throw (A:=unit) e, (p'', o')) /\
      bm_shape p'' /\ p_valid p'' = false).
  { intros e p' Hp'. eexists. split; [reflexivity|]. split; [apply bm_discard_shape, Hp' | reflexivity]. }
  unfold guarded_work. unfold st_bind at 1, st_modify at 1, try_rethrow. cbn [on_pending].
  set (p0 := discard c p) in *. unfold st_bind at 1, st_lift at 1. rewrite Eo.
  unfold st_bind at 1, st_modify at 1. rewrite !pin_isFullyKnown_level by apply Hi.
  destruct (known4 (level (clk _ i))) eqn:Ek; cbn [negb];
    [|destruct (level (clk _ i)); try discriminate; apply Hthrow, Hs0].
  rewrite (pin_toBool_level _ (bp_clk _ Hi) Ek). unfold st_bind at 1, st_modify at 1. cbn [on_pending].
  set (p1 ck := mkPending (bytes p0) (lanes p0) (address p0) ck true).
  assert (Hs1 : forall ck, bm_shape (p1 ck)) by (intros ck; destruct Hs0; constructor; assumption).
  assert (Hhold : forall ck, exists p', (Ret tt, (p1 ck, o')) = (Ret tt, (p', o')) /\ bm_staged i p' ck false).
  { intros ck. eexists. split; [reflexivity|]. split; [apply Hs1|]. split; [reflexivity|]. split; [reflexivity|].
    cbn [andb]. intros k Hk. cbn. apply lookup_total_replicate_2. unfold nLanes. lia. }
  fold (p1 (is1 (level (clk _ i)))).
  destruct (level (clk _ i)), (clock c); try discriminate; cbn [is1 negb orb]; try apply Hhold.
  destruct (known4 (level (rst _ i))) eqn:Ers; cbn [negb];
    [|destruct (level (rst _ i)); try discriminate; apply Hthrow, Hs1].
  rewrite (pin_toBool_level _ (bp_rst _ Hi) Ers).
  destruct (level (rst _ i)); try discriminate; cbn [is1]; [|apply Hhold].
  destruct (known4 (level (wvalid _ i))) eqn:Ew; cbn [negb];
    [|destruct (level (wvalid _ i)); try discriminate; apply Hthrow, Hs1].
  rewrite (pin_toBool_level _ (bp_wvalid _ Hi) Ew).
  destruct (level (wvalid _ i)); try discriminate; cbn [is1 negb]; [apply Hhold|].
  unfold bm_operands_known. rewrite (wire_isFullyKnown_planes (wdata _ i) (bp_wdata _ Hi)).
  change (wire_isFullyKnown (T:=Bits AW) (waddr _ i)) with (bm_addr_known (waddr _ i)).
  change (wire_isFullyKnown (T:=Bits SW) (wstrb _ i)) with (FS.isFullyKnown (wstrb _ i : FourState SW)).
  destruct (bm_addr_known (waddr _ i)), (FS.isFullyKnown (wire_planes (wdata _ i))),
    (FS.isFullyKnown (wstrb _ i : FourState SW)); cbn [negb orb andb]; try apply Hthrow, Hs1.
  destruct (stage_write_lanes i (p1 true) true o' Hi Hb eq_refl eq_refl eq_refl) as (p' & E & Hp').
  exists p'. split; [|exact Hp'].
  exact (guarded_work_ret (discard c) _ _ _ _ E).
Qed.

Lemma data_byte_range i k : is_u 8 (data_byte i k).
Proof. apply Z.mod_pos_bound. lia. Qed.

Lemma bm_staged_inv i p ck w : bm_pins_ok i -> bm_staged i p ck w ->
  forall k, 0 <= k < SW -> (lanes p).[k] = true ->
    0 <= address p /\ k < DEPTH - address p /\ is_u 8 (bytes p).[k].
Proof.
  intros Hi (Hs & _ & _ & Hop) k Hk El. destruct (w && (bm_addr (waddr _ i) <? DEPTH)).
  - destruct Hop as [Ea Hop]. destruct (Hop k Hk) as [E1 E2]. rewrite El in E1. symmetry in E1.
    specialize (E2 E1). rewrite E2, Ea. split; [apply bm_addr_nonneg, (bp_waddr _ Hi)|].
    unfold lane_on in E1. rewrite Ea in E1. split; [lia | apply data_byte_range].
  - rewrite Hop in El by exact Hk. discriminate.
Qed.

(** Committing staged lanes writes exactly them. *)
Lemma commit_bytes_spec c p :
  bm_ok c -> (forall k, 0 <= k < SW -> (lanes p).[k] = true ->
    0 <= address p /\ k < DEPTH - address p /\ is_u 8 (bytes p).[k]) ->
  let m := for_range (Z.to_nat SW) 0
    (fun lane m => if ((lanes p).[lane] : bool) then m.[address p + lane := (bytes p).[lane]] else m) (memory c) in
  bm_ok (mkCurrent m (p_clock p)) /\
  forall x, 0 <= x < DEPTH ->
    m.[x] = if (address p <=? x) && (x - address p <? SW) && (lanes p).[x - address p]
            then (bytes p).[x - address p] else (memory c).[x].
Proof.
  intros Hc Hinv. destruct SW_spec as [HS _].
  destruct (all_range (Z.to_nat SW) 0 (fun k => negb (lanes p).[k])) eqn:E.
  - rewrite all_range_true in E.
    assert (Eid : forall n (j : Z) (m0 : list Z), 0 <= j -> j + Z.of_nat n <= SW -> for_range n j
      (fun lane m => if ((lanes p).[lane] : bool) then m.[address p + lane := (bytes p).[lane]] else m) m0 = m0).
    { intros n. induction n as [|n IH]; intros j m0 Hj Hn; [reflexivity|]. cbn [for_range].
      assert (El : (lanes p).[j] = false) by (apply negb_true_iff, E; lia). rewrite El. apply IH; lia. }
    cbn zeta. rewrite Eid by lia. split; [destruct Hc; constructor; assumption|]. intros x Hx.
    destruct ((address p <=? x) && (x - address p <? SW)) eqn:Er; cbn [andb]; [|reflexivity].
    assert (El : (lanes p).[x - address p] = false) by (apply negb_true_iff, E; lia). rewrite El. reflexivity.
  - apply all_range_false in E as (k0 & Hk0 & El0). apply negb_false_iff in El0.
    destruct (Hinv k0 ltac:(lia) El0) as (Ha & _).
    destruct (commit_lanes_spec (memory c) (address p) (lanes p) (bytes p) (Z.to_nat SW) Ha (bo_memory _ Hc)) as [Lm Hm].
    { intros k Hk El. apply Hinv; [lia | exact El]. }
    rewrite Z2Nat.id in Hm by lia. split; [|exact Hm]. constructor; [exact Lm|].
    cbn [memory]. set (m := for_range _ _ _ _) in *. rewrite <- (tabulate_self m). apply Forall_tabulate.
    intros x Hx. rewrite Lm in Hx. rewrite Hm by lia.
    destruct ((address p <=? x) && (x - address p <? SW) && (lanes p).[x - address p]) eqn:Er.
    + apply andb_prop in Er as [Er El]. apply Hinv; [lia | exact El].
    + apply Forall_at; [apply Hc|]. rewrite (bo_memory _ Hc). lia.
Qed.

Lemma bm_xfer_spec c i p ck w o :
  bm_ok c -> bm_pins_ok i -> bm_staged i p ck w ->
  exists c', xfer (T:=T) c p o = (c', discard (T:=T) c' p, o) /\ bm_ok c' /\ clock c' = ck /\
    forall x, 0 <= x < DEPTH -> (memory c').[x] = bm_next c i w x.
Proof.
  intros Hc Hi Hst. destruct (commit_bytes_spec c p Hc (bm_staged_inv i p ck w Hi Hst)) as [Hok Hm].
  pose proof Hst as (Hs & Hv & Hck & Hop). unfold xfer, nLanes. rewrite Hv. cbn [negb].
  eexists. split; [reflexivity|]. split; [exact Hok|]. split; [exact Hck|]. cbn [memory].
  intros x Hx. rewrite Hm by exact Hx. unfold bm_next. destruct w; cbn [andb] in Hop |- *.
  - destruct (Z.ltb_spec (bm_addr (waddr _ i)) DEPTH) as [Hlt|Hge].
    + destruct Hop as [Ea Hop]. rewrite Ea in *.
      destruct ((bm_addr (waddr _ i) <=? x) && (x - bm_addr (waddr _ i) <? SW)) eqn:Er; cbn [andb]; [|reflexivity].
      destruct (Hop (x - bm_addr (waddr _ i)) ltac:(lia)) as [-> E2]. unfold lane_on in *.
      replace (x - bm_addr (waddr _ i) <? DEPTH - bm_addr (waddr _ i)) with true in * by lia. cbn [andb] in *.
      destruct (strobe_at i (x - bm_addr (waddr _ i))); [apply E2; reflexivity | reflexivity].
    + replace ((bm_addr (waddr _ i) <=? x)) with false by lia. cbn [andb].
      destruct ((address p <=? x) && (x - address p <? SW)) eqn:Er; cbn [andb]; [|reflexivity].
      rewrite Hop by lia. reflexivity.
  - destruct ((address p <=? x) && (x - address p <? SW)) eqn:Er; cbn [andb]; [|reflexivity].
    rewrite Hop by lia. reflexivity.
Qed.

(** One cycle: [work], then [xfer] or [discard]. *)
Definition bm_cycle c i p o : outcome unit * (Current * Pending * Outputs T) :=
  match work AW DEPTH c i (p, o) with
  | (Ret _, (p', o')) => (Ret tt, xfer (T:=T) c p' o')
  | (r, (p', o')) => (r, (c, discard (T:=T) c p', o'))
  end.

(** One sample of a byte memory.  An unknown read address throws and
    changes nothing.  Otherwise the read data is combinationally the
    little-endian word of the committed bytes, with zeros beyond the depth,
    whether or not a later check throws; the cycle throws exactly when a pin
    that matters is unknown and then keeps the memory; otherwise an enabled
    write at a rising edge out of reset replaces exactly the strobed bytes
    that lie below the depth. *)
Theorem byte_mem_cycle_spec c i p o :
  bm_ok c -> bm_pins_ok i -> b_shape p ->
  if bm_addr_known (raddr _ i) then
    exists o', wire_wf o' /\ wire_planes o' = fs_of (read_value DEPTH c (bm_addr (raddr _ i))) /\
      (forall n, 0 <= n < DB ->
         Z.testbit (bval (value_ (wire_planes o'))) n =
         Z.testbit (byte_at c (bm_addr (raddr _ i) + n / 8)) (n mod 8)) /\
      match bm_decide c i with
      | inl e => exists p', bm_cycle c i p o = (Throw (FourStateViolation e), (c, p', o')) /\ p_valid p' = false
      | inr (ck, w) => exists c' p', bm_cycle c i p o = (Ret tt, (c', p', o')) /\
          bm_ok c' /\ clock c' = ck /\ p_valid p' = false /\
          forall x, 0 <= x < DEPTH -> (memory c').[x] = bm_next c i w x
      end
  else exists p', bm_cycle c i p o =
    (Throw (FourStateViolation "byte_mem read address must be known"), (c, p', o)) /\ p_valid p' = false.
Proof.
  intros Hc Hi Hb. pose proof (bm_work_spec c i p o Hc Hi Hb) as H. unfold bm_cycle.
  destruct (bm_addr_known (raddr _ i)).
  2:{ rewrite H. eexists. split; [reflexivity | reflexivity]. }
  destruct H as (o' & Ho & Po & H). exists o'. split; [exact Ho|]. split; [exact Po|]. split.
  - rewrite Po. apply (read_value_spec c (bm_addr (raddr _ i)) Hc), bm_addr_nonneg, (bp_raddr _ Hi).
  - destruct (bm_decide c i) as [e|[ck w]]; destruct H as (p' & -> & Hp').
    + eexists. split; [reflexivity | reflexivity].
    + destruct (bm_xfer_spec c i p' ck w o' Hc Hi Hp') as (c' & -> & Hc' & Hck & Hm).
      do 2 eexists. split; [reflexivity|]. auto.
Qed.

(** The two-phase contract. *)
Definition byte_mem_is_kernel : Kernel Current Pending (Inputs T AW) (Outputs T) := {|
  k_discard := discard (T:=T);
  k_work := work AW DEPTH;
  k_xfer c p o := Ret (xfer (T:=T) c p o);
  k_reset c i p := Ret (reset AW c i p);
|}.
#[local] Existing Instance byte_mem_is_kernel.

Definition bm_k_staged (c : Current) p : Prop :=
  b_shape p /\ (p_valid p = true -> forall k, 0 <= k < SW -> (lanes p).[k] = true ->
    0 <= address p /\ k < DEPTH - address p /\ is_u 8 (bytes p).[k]).

Definition byte_mem_laws : KernelLaws Current Pending (Inputs T AW) (Outputs T).
Proof.
  refine {|
    k_ok := bm_ok; k_pins_ok := bm_pins_ok; k_outs_ok _ := True;
    k_idle c p := b_shape p /\ p_valid p = false; k_staged := bm_k_staged |}.
  - intros c p [Hb Hv]. split; [exact Hb | rewrite Hv; discriminate].
  - intros c p Hc [Hb _]. split; [exact Hb | reflexivity].
  - intros c i p o Hc Hi _ [Hb _]. pose proof (bm_work_spec c i p o Hc Hi Hb) as H.
    destruct (bm_addr_known (raddr _ i)).
    + destruct H as (o' & _ & _ & H). destruct (bm_decide c i) as [e|[ck w]]; destruct H as (p' & E & Hp');
        do 3 eexists; (split; [exact E | split; [exact I|]]).
      * split; [apply Hp' | apply Hp'].
      * split; [apply Hp' |]. intros _. apply (bm_staged_inv i p' ck w Hi Hp').
    + do 3 eexists. split; [exact H | split; [exact I|]]. split; [exact Hb | reflexivity].
  - intros c p o [_ Hv]. cbn. unfold xfer. rewrite Hv. reflexivity.
  - intros c p o Hc _ [Hb Hst]. cbn. unfold xfer. destruct (p_valid p) eqn:Ev; cbn [negb].
    + destruct (commit_bytes_spec c p Hc (Hst eq_refl)) as [Hok _].
      do 3 eexists. split; [reflexivity|]. split; [exact Hok|]. split; [split; [exact Hb | reflexivity] | exact I].
    + exists c, p, o. auto.
  - intros c i p Hc Hi [Hb _]. eexists. split; [reflexivity|]. split; [exact Hb|]. intros _ k Hk El. cbn in El.
    unfold nLanes in El. rewrite lookup_total_replicate_2 in El by lia. discriminate.
Defined.
End ByteSpec.
