(* ===== verification/StorageTheorems.v ===== *)
(** * Layout theorems and storage witnesses

    The round trips of structure layouts and table signals, stated once over
    the laws of [WireSpec.v], and concrete instances of the storage contracts
    of [Dff.v], [Collection.v], [SyncMemSpec.v] and [ByteMemSpec.v]. *)

From Stdlib Require Import ZArith Lia String.
From stdpp Require Import base list numbers.
From S2P Require Import Prelude Bits BitsLogic BitsShift BitsArith FourState FourStateSpec Wire.
From S2P Require Import WireSpec SampledClock Kernel Dff Collection SyncMem SyncMemSpec ByteMem.
From S2P Require Import ByteMemSpec.

Section Structures.
Context {T : Type} (members : list (lawful_member T)) (T_default : T).
Context `{HLay : !StructLayout members}.

(** C39: structure layouts.  For a structure whose members each have a lawful
    layout, packing a valid value gives a well-formed word in which every
    member occupies its own slice, the first member in the most significant
    bits; unpacking inverts packing on valid values and packing inverts
    unpacking on well-formed words. *)
Theorem struct_layout_roundtrip :
  (forall x, struct_ok members x ->
     bits_wf (struct_pack (lm <$> members) x) /\
     struct_unpack (lm <$> members) T_default (struct_pack (lm <$> members) x) = x /\
     forall pre (m : lawful_member T) suf, members = pre ++ m :: suf ->
       extract (hw_width (field_type m)) (struct_pack (lm <$> members) x) (totalWidth (lm <$> suf)) =
       hw_pack (field_get m x)) /\
  (forall b, bits_wf b ->
     struct_ok members (struct_unpack (lm <$> members) T_default b) /\
     struct_pack (lm <$> members) (struct_unpack (lm <$> members) T_default b) = b).
Proof using HLay.
  split.
  - intros x Hx. split; [apply (struct_pack_spec members x Hx)|].
    split; [exact (struct_unpack_pack members T_default x Hx)|]. intros pre m suf E. exact (struct_extract_field members x pre m suf Hx E).
  - intros b Hb. split; [exact (struct_unpack_ok members T_default b Hb) | exact (struct_pack_unpack members T_default b Hb)].
Qed.
End Structures.

Section TableSignals.
Context {T : Type} `{HL : HardwareLaws T} `{IT : Inhabited T} (size : Z).
Context `{HF : TableFits size (hw_width T)}.
#[local] Existing Instance fs_inhabited.

(** Table signals.  Packing a table of element signals and slicing the
    packed value again are inverse to each other in both directions, without
    the mask check ever failing; a table signal made from a valid table is
    fully known and reads back that table. *)
Theorem table_signal_roundtrip :
  (forall w, twire_wf size w -> exists v : FourState (size * hw_width T),
     twire_packed size w = Ret v /\ fs_wf v /\ twire_fromPacked size v = Ret w) /\
  (forall v : FourState (size * hw_width T), fs_wf v -> exists w,
     twire_fromPacked size v = Ret w /\ twire_wf size w /\ twire_packed size w = Ret v) /\
  (forall t, table_ok size t -> exists w,
     twire_known size t = Ret w /\ twire_wf size w /\ twire_isFullyKnown size w = true /\ twire_value size w = t).
Proof using HF.
  pose proof (TW_pos size (proj1 HF)) as HTW.
  split; [|split].
  - intros w Hw. exists (twire_planes size w). split; [exact (twire_packed_ret size w Hw)|].
    pose proof (twire_planes_wf size w Hw) as Hp. split; [exact Hp|].
    destruct (twire_fromPacked_ret size (twire_planes size w) Hp) as (w' & -> & Hw' & E).
    f_equal. apply (twire_planes_inj size); assumption.
  - intros v Hv. destruct (twire_fromPacked_ret size v Hv) as (w & E & Hw & Ep).
    exists w. split; [exact E|]. split; [exact Hw|]. rewrite <- Ep. exact (twire_packed_ret size w Hw).
  - intros t Ht. destruct (twire_known_ret size t Ht) as (w & E & Hw & Ep).
    exists w. split; [exact E|]. split; [exact Hw|].
    pose proof (twire_isFullyKnown_planes size w Hw) as Ek. pose proof (twire_value_planes size w Hw) as Ev.
    rewrite Ep in Ek, Ev. split; [rewrite Ek; apply (fs_of_fullyKnown (W := size * hw_width T))|].
    etransitivity; [exact Ev|]. exact (hw_unpack_pack (T := table T size) t Ht).
Qed.
End TableSignals.

(** ** Concrete instances *)

Module StorageWitness.
(** A packet: a 4-bit tag, a table of three bytes and a 70-bit payload. *)
Record packet := mkPacket { tag : Bits 4; path : table (Bits 8) 3; body : Bits 70 }.

#[local] Instance byte_inhabited : Inhabited (Bits 8) := populate (bits_of_word 8 0).
#[local] Instance path_fits : TableFits 3 (hw_width (Bits 8)).
Proof. split; [reflexivity | reflexivity]. Qed.
#[local] Instance pos4 : PosWidth 4 := eq_refl.
#[local] Instance pos70 : PosWidth 70 := eq_refl.

Definition members : list (lawful_member packet) :=
  [LawfulMember (Member tag (fun v x => mkPacket v (path x) (body x))) (bits_laws 4);
   LawfulMember (Member path (fun v x => mkPacket (tag x) v (body x))) (table_laws 3);
   LawfulMember (Member body (fun v x => mkPacket (tag x) (path x) v)) (bits_laws 70)].

Lemma packet_layout : StructLayout members.
Proof.
  constructor.
  - discriminate.
  - intros m v x Hm. apply list_elem_of_In in Hm.
    destruct Hm as [<-|[<-|[<-|[]]]]; reflexivity.
  - intros i j m k v x Hij Hi Hj.
    destruct i as [|[|[|i]]]; cbn in Hi; try discriminate; injection Hi as <-;
      destruct j as [|[|[|j]]]; cbn in Hj; try discriminate; injection Hj as <-; try congruence; reflexivity.
  - intros [t1 p1 b1] [t2 p2 b2] H.
    pose proof (H _ (list_elem_of_here _ _)) as H1. cbn in H1.
    pose proof (H _ (list_elem_of_further _ _ _ (list_elem_of_here _ _))) as H2. cbn in H2.
    pose proof (H _ (list_elem_of_further _ _ _ (list_elem_of_further _ _ _ (list_elem_of_here _ _)))) as H3. cbn in H3.
    subst. reflexivity.
Qed.

Definition sample_packet : packet :=
  mkPacket (bits_of_word 4 5) (mkTable [bits_of_word 8 1; bits_of_word 8 2; bits_of_word 8 255])
    (bits_not (bits_of_word 70 0)).

Lemma sample_packet_ok : struct_ok members sample_packet.
Proof.
  intros m Hm. apply list_elem_of_In in Hm. destruct Hm as [<-|[<-|[<-|[]]]].
  - apply bits_wfb_sound. reflexivity.
  - split; [reflexivity|]. repeat (apply Forall_cons_2; [apply bits_wfb_sound; reflexivity|]). apply Forall_nil_2.
  - apply bits_wfb_sound. vm_compute. reflexivity.
Qed.

Lemma struct_layout_roundtrip_witness :
  struct_unpack (lm <$> members) sample_packet (struct_pack (lm <$> members) sample_packet) = sample_packet.
Proof.
  pose proof (struct_layout_roundtrip members sample_packet (HLay := packet_layout)) as [P _].
  destruct (P sample_packet sample_packet_ok) as (_ & E & _). exact E.
Defined.

Definition sample_table : table (Bits 8) 3 := mkTable [bits_of_word 8 7; bits_of_word 8 0; bits_of_word 8 128].

Lemma table_signal_roundtrip_witness :
  exists w, twire_known 3 sample_table = Ret w /\ twire_isFullyKnown 3 w = true /\ twire_value 3 w = sample_table.
Proof.
  pose proof (table_signal_roundtrip (T := Bits 8) 3) as (_ & _ & P).
  destruct (P sample_table) as (w & E & _ & K & V).
  - split; [reflexivity|]. repeat (apply Forall_cons_2; [apply bits_wfb_sound; reflexivity|]). apply Forall_nil_2.
  - exists w. auto.
Defined.

(** A register at a rising edge with its enable high takes its data pin. *)
Definition register : dffe.t Z :=
  dffe.mk (dffe_kernel.mkInputs (fs_bool true : pin) (fs_bool false) (fs_bool true) 9 0) 4
    (dffe_kernel.mkCurrent 4 false) (dffe_kernel.mkPending 4 false false).

Lemma dffe_cycle_spec_witness :
  dffe_cycle register =
  (Ret tt, dffe.mk (dffe.pins register) 9 (dffe_kernel.mkCurrent 9 true) (dffe_kernel.mkPending 9 true false)).
Proof.
  pose proof (dffe_cycle_spec register) as P. cbn in P. apply P.
  split; [apply fs_bool_wf|]. split; apply fs_bool_wf.
Defined.

(** A collection of two registers, both visited in one cycle. *)
#[local] Instance cur_inhabited : Inhabited (dffe_kernel.Current Z) := populate (dffe_kernel.mkCurrent 0 false).
#[local] Instance pend_inhabited : Inhabited (dffe_kernel.Pending Z) := populate (dffe_kernel.mkPending 0 false false).

Definition edge (x : Z) : dffe_kernel.Inputs Z :=
  dffe_kernel.mkInputs (fs_bool true : pin) (fs_bool false) (fs_bool true) x 0.
Definition bank : collection_storage (dffe_kernel.Current Z) (dffe_kernel.Pending Z) :=
  mkCollection (replicate 2 (dffe_kernel.mkCurrent 0 false)) (replicate 2 (dffe_kernel.mkPending 0 false false))
    [false; false] 0.

Lemma bank_inv : coll_inv (HL := dffe_laws) bank.
Proof.
  constructor; try reflexivity; intros i Hi; change (0 <= i < 2) in Hi;
    (assert (E : i = 0 \/ i = 1) by lia; destruct E as [-> | ->]); cbn; auto.
Qed.


(** A two-port memory of three 16-bit words at a write-and-read edge. *)
#[local] Instance pos2 : PosWidth 2 := eq_refl.
#[local] Instance pos16 : PosWidth 16 := eq_refl.
#[local] Instance word16_inhabited : Inhabited (wire (Bits 16)) := populate (fs_x (bits_of_word 16 0)).

Definition word16 (x : Z) : wire (Bits 16) := fs_of (bits_of_word 16 x).
Definition addr2 (x : Z) : wire (Bits 2) := fs_of (bits_of_word 2 x).
Definition mem_current : sync_mem_kernel.Current (Bits 16) :=
  sync_mem_kernel.mkCurrent (T := Bits 16) (replicate 3 (bits_of_word 16 257))
    (replicate 2 (word16 0)) [true; false] [1; 0] false.
Definition mem_pending : sync_mem_kernel.Pending (Bits 16) :=
  sync_mem_kernel.mkPending (T := Bits 16) (replicate 2 (word16 0)) [false; false] [false; false] [1; 0]
    (bits_of_word 16 0) 0 false false false.
Definition mem_pins : sync_mem_kernel.Inputs (Bits 16) 2 :=
  sync_mem_kernel.mkInputs (T := Bits 16) 2 (fs_bool true) (fs_bool false) [fs_bool false; fs_bool true]
    [addr2 0; addr2 1] (fs_bool true) (addr2 1) (word16 65535) (addr2 2).
Definition mem_outs : sync_mem_kernel.Outputs (Bits 16) :=
  sync_mem_kernel.mkOutputs (T := Bits 16) (replicate 2 (word16 0)) [Some (fs_bool true); None].


(** A byte memory of five bytes: a 16-bit access at the last byte, whose
    second lane lies beyond the depth. *)
#[local] Instance pos3 : PosWidth 3 := eq_refl.
Definition addr3 (x : Z) : wire (Bits 3) := fs_of (bits_of_word 3 x).
Definition bm_current : byte_mem_kernel.Current := byte_mem_kernel.mkCurrent [1; 2; 3; 4; 5] false.
Definition bm_pending : byte_mem_kernel.Pending := byte_mem_kernel.mkPending [0; 0] [false; false] 0 false false.
Definition bm_pins : byte_mem_kernel.Inputs (Bits 16) 3 :=
  byte_mem_kernel.mkInputs (T := Bits 16) 3 (fs_bool true) (fs_bool false) (addr3 4) (fs_bool true)
    (addr3 4) (word16 513) (addr2 3).

Lemma byte_mem_cycle_spec_witness :
  exists o' c' p', bm_cycle 3 5 bm_current bm_pins bm_pending (word16 0) = (Ret tt, (c', p', o')) /\
    forall x, 0 <= x < 5 ->
      (byte_mem_kernel.memory c').[x] = bm_next 3 bm_current bm_pins true x.
Proof.
  pose proof (byte_mem_cycle_spec (T := Bits 16) 3 5) as P.
  specialize (P ltac:(lia) ltac:(reflexivity) bm_current bm_pins bm_pending (word16 0)).
  assert (E : bm_addr_known 3 (byte_mem_kernel.raddr 3 bm_pins) = true) by (vm_compute; reflexivity).
  assert (D : bm_decide 3 bm_current bm_pins = inr (true, true)) by (vm_compute; reflexivity).
  rewrite E, D in P. destruct P as (o' & _ & _ & _ & c' & p' & Ec & _ & _ & _ & Hm).
  - constructor; [reflexivity|]. repeat (apply Forall_cons_2; [unfold is_u; lia|]). apply Forall_nil_2.
  - constructor; try apply fs_bool_wf; apply fs_wfb_sound; vm_compute; reflexivity.
  - reflexivity.
  - exists o', c', p'. split; [exact Ec | exact Hm].
Defined.
End StorageWitness.
