(* ===== verification/Observations.v ===== *)
(** * Observation slots: [include/gfsim/ObservationSlot.h]

    Slots staged by rules during evaluation, checked as groups and committed
    at the transfer barrier as events and gauges.  A [SlotValue] of four-state
    kind borrows its words, so spans are references: to a caller's buffer or
    into one of the two plane arrays the slots own. *)

From Stdlib Require Import ZArith Lia String.
From stdpp Require Import base list numbers.
From S2P Require Import Prelude Bits FourState.

Inductive SlotValueKind := KBool | KSigned | KUnsigned | KBits4.
#[export] Instance SlotValueKind_eq_dec : EqDecision SlotValueKind.
Proof. solve_decision. Defined.

(** [std::span<const std::uint64_t>]: an external buffer, or a window of the
    pending or committed plane storage. *)
Inductive span :=
| Borrowed (ws : list Z)
| PendingAt (offset size : Z)
| CommittedAt (offset size : Z).

Record SlotValue := mkSlotValue {
  sv_kind : SlotValueKind;
  sv_bits : Z;
  sv_width : Z;
  valueWords : span;
  knownWords : span;
  zWords : span;
}.

Module SlotVal.
Definition empty : span := Borrowed [].
Definition default : SlotValue := mkSlotValue KUnsigned 0 0 empty empty empty.
Definition Bool (v : bool) : SlotValue := mkSlotValue KBool (if v then 1 else 0) 0 empty empty empty.
Definition Signed (v : Z) : SlotValue := mkSlotValue KSigned (u64 v) 0 empty empty empty.
Definition Unsigned (v : Z) : SlotValue := mkSlotValue KUnsigned v 0 empty empty empty.
Definition Bits4 (width : Z) (v known z : span) : SlotValue := mkSlotValue KBits4 0 width v known z.
End SlotVal.

(** [width / 64 + (width % 64 != 0)] *)
Definition plane_words (width : Z) : Z := width / 64 + (if width mod 64 =? 0 then 0 else 1).

Section Spans.
Context (pending committed : list Z).

Definition span_size (s : span) : Z :=
  match s with
  | Borrowed ws => Z.of_nat (length ws)
  | PendingAt _ n | CommittedAt _ n => n
  end.

Definition span_at (s : span) (i : Z) : Z :=
  match s with
  | Borrowed ws => ws.[i]
  | PendingAt o _ => pending.[o + i]
  | CommittedAt o _ => committed.[o + i]
  end.

Definition span_words (s : span) : list Z := tabulate (Z.to_nat (span_size s)) (span_at s).

Definition isCanonicalBits4 (v : SlotValue) : bool :=
  let width := sv_width v in
  let words := plane_words width in
  if negb (bool_decide (sv_kind v = KBits4)) || (width =? 0) ||
     negb (span_size (valueWords v) =? words) || negb (span_size (knownWords v) =? words) ||
     negb (span_size (zWords v) =? words)
  then false
  else
    all_range (Z.to_nat words) 0 (fun index =>
      let mask := if (index + 1 =? words) && negb (width mod 64 =? 0)
                  then u64_sub (u64_shl 1 (width mod 64)) 1 else u64_not 0 in
      let v_ := span_at (valueWords v) index in
      let k := span_at (knownWords v) index in
      let z := span_at (zWords v) index in
      negb (negb (Z.land k z =? 0) || negb (Z.land v_ (u64_not k) =? 0) ||
            negb (Z.land (Z.lor (Z.lor v_ k) z) (u64_not mask) =? 0))).

(** [SlotValue::operator==] compares the words, not the references. *)
Definition slot_value_eq (a b : SlotValue) : bool :=
  if negb (bool_decide (sv_kind a = sv_kind b)) || negb (sv_bits a =? sv_bits b) ||
     negb (sv_width a =? sv_width b)
  then false
  else
    bool_decide (span_words (valueWords a) = span_words (valueWords b)) &&
    bool_decide (span_words (knownWords a) = span_words (knownWords b)) &&
    bool_decide (span_words (zWords a) = span_words (zWords b)).
End Spans.

(** An enumerator of [ObservationKind] or another value of its storage. *)
Inductive ObservationKind := Event | Gauge | OtherKind (raw : Z).
#[export] Instance ObservationKind_eq_dec : EqDecision ObservationKind.
Proof. solve_decision. Defined.

Definition kind_code (k : ObservationKind) : Z :=
  match k with Event => 0 | Gauge => 1 | OtherKind raw => raw end.

Record ObservationDescriptor := mkDescriptor {
  stableOrdinal : Z;
  ownerKey : Z;
  registrationKey : Z;
  siteKey : Z;
  d_kind : ObservationKind;
  groupIndex : Z;
  groupSize : Z;
  payloadWidth : Z;
}.
#[export] Instance descriptor_inhabited : Inhabited ObservationDescriptor :=
  populate (mkDescriptor 0 0 0 0 Event 0 0 0).

Record ObservationSlot := mkSlot {
  s_pending : bool;
  s_value : SlotValue;
  s_valid : bool;
  s_path : bool;
  evaluationEpoch : Z;
}.
Definition slot_default : ObservationSlot := mkSlot false SlotVal.default false false 0.
#[export] Instance slot_inhabited : Inhabited ObservationSlot := populate slot_default.

Record CommittedEventSlot := mkEvent {
  epoch : Z;
  e_descriptor : ObservationDescriptor;
  e_value : SlotValue;
}.

Record GaugeSnapshot := mkGauge {
  g_stableOrdinal : Z;
  g_value : SlotValue;
  lastUpdate : Z;
}.
#[export] Instance gauge_inhabited : Inhabited GaugeSnapshot :=
  populate (mkGauge 0 (SlotVal.Unsigned 0) 0).

Record ObservationSlots := mkObservations {
  configured_ : bool;
  eventCapacity_ : Z;
  payloadOffsets_ : list Z;
  pendingPlanes_ : list Z;
  committedPlanes_ : list Z;
  descriptors_ : list ObservationDescriptor;
  slots_ : list ObservationSlot;
  gaugeIndexBySlot_ : list Z;
  events_ : list CommittedEventSlot;
  gauges_ : list GaugeSnapshot;
}.

Module Obs.
Definition construct : ObservationSlots := mkObservations false 0 [] [] [] [] [] [] [] [].

(** [std::numeric_limits<std::size_t>::max()] *)
Definition kNoGauge : Z := u64_max.

(** ** Descriptors *)

Definition key (d : ObservationDescriptor) : list Z :=
  [ownerKey d; registrationKey d; siteKey d; stableOrdinal d; kind_code (d_kind d)].

(** [std::tuple] comparison. *)
Fixpoint key_lt (a b : list Z) : bool :=
  match a, b with
  | x :: a', y :: b' => if x <? y then true else if y <? x then false else key_lt a' b'
  | _, _ => false
  end.

Definition check_order (ds : list ObservationDescriptor) : bool :=
  all_range (length ds) 0 (fun index =>
    let current := ds.[index] in
    if negb (bool_decide (d_kind current = Event)) && negb (bool_decide (d_kind current = Gauge)) then false
    else if negb (index =? 0) && negb (key_lt (key ds.[index - 1]) (key current)) then false
    else all_range (Z.to_nat index) 0 (fun previous =>
           negb (stableOrdinal ds.[previous] =? stableOrdinal current))).

Definition group_member_ok (ds : list ObservationDescriptor) (begin size member : Z) : bool :=
  let first := ds.[begin] in
  let d := ds.[begin + member] in
  negb (negb (groupIndex d =? member) || negb (groupSize d =? size) ||
        negb (ownerKey d =? ownerKey first) || negb (registrationKey d =? registrationKey first) ||
        negb (siteKey d =? siteKey first) || negb (bool_decide (d_kind d = d_kind first))).

(** The group scan; a group has at least one member, so one round per
    descriptor suffices. *)
Fixpoint check_groups_from (fuel : nat) (ds : list ObservationDescriptor) (begin : Z) : bool :=
  match fuel with
  | O => true
  | S fuel' =>
    if begin <? Z.of_nat (length ds) then
      let first := ds.[begin] in
      let size := groupSize first in
      if negb (groupIndex first =? 0) || (size =? 0) || (Z.of_nat (length ds) - begin <? size) ||
         (bool_decide (d_kind first = Gauge) && negb (size =? 1))
      then false
      else if all_range (Z.to_nat size) 0 (group_member_ok ds begin size)
      then check_groups_from fuel' ds (begin + size)
      else false
    else true
  end.

(** The payload-capacity loop: the total, or [None] on overflow. *)
Fixpoint count_payload (capacity : Z) (ds : list ObservationDescriptor) (payloadWords : Z) : option Z :=
  match ds with
  | [] => Some payloadWords
  | d :: rest =>
    let words := plane_words (payloadWidth d) in
    if u64_sub (capacity / 6) payloadWords <? words then None
    else count_payload capacity rest (u64_add payloadWords words)
  end.

Fixpoint payload_offsets (back : Z) (ds : list ObservationDescriptor) : list Z :=
  match ds with
  | [] => []
  | d :: rest =>
    let next := u64_add back (plane_words (payloadWidth d)) in next :: payload_offsets next rest
  end.

(** The gauge table: index per slot and initial snapshots. *)
Definition build_gauges (ds : list ObservationDescriptor) : list Z * list GaugeSnapshot :=
  for_range (length ds) 0
    (fun index '(idx, gs) =>
       if bool_decide (d_kind ds.[index] = Gauge)
       then (idx.[index := Z.of_nat (length gs)],
             gs ++ [mkGauge (stableOrdinal ds.[index]) (SlotVal.Unsigned 0) 0])
       else (idx, gs))
    (replicate (length ds) kNoGauge, []).

(** [Configure]; [max_size] is [std::vector<std::uint64_t>::max_size()]. *)
Definition Configure (max_size : Z) (ds : list ObservationDescriptor) (eventCapacity : Z)
    (o : ObservationSlots) : bool * ObservationSlots :=
  if configured_ o then (false, o)
  else if negb (check_order ds) then (false, o)
  else if negb (check_groups_from (length ds) ds 0) then (false, o)
  else
    let capacity := Z.min max_size ((2 ^ 63 - 1) / 8) in
    match count_payload capacity ds 0 with
    | None => (false, o)
    | Some payloadWords =>
      let '(gaugeIndex, gauges) := build_gauges ds in
      (true, mkObservations true eventCapacity (0 :: payload_offsets 0 ds)
               (replicate (Z.to_nat (payloadWords * 3)) 0) (replicate (Z.to_nat (payloadWords * 3)) 0)
               ds (replicate (length ds) slot_default) gaugeIndex [] gauges)
    end.

(** ** Planes *)

Definition with_pending (o : ObservationSlots) (planes : list Z) : ObservationSlots :=
  mkObservations (configured_ o) (eventCapacity_ o) (payloadOffsets_ o) planes (committedPlanes_ o)
    (descriptors_ o) (slots_ o) (gaugeIndexBySlot_ o) (events_ o) (gauges_ o).
Definition with_slots (o : ObservationSlots) (slots : list ObservationSlot) : ObservationSlots :=
  mkObservations (configured_ o) (eventCapacity_ o) (payloadOffsets_ o) (pendingPlanes_ o)
    (committedPlanes_ o) (descriptors_ o) slots (gaugeIndexBySlot_ o) (events_ o) (gauges_ o).

Definition slot_words (o : ObservationSlots) (slot : Z) : Z :=
  (payloadOffsets_ o).[slot + 1] - (payloadOffsets_ o).[slot].
Definition slot_offset (o : ObservationSlots) (slot : Z) : Z := 3 * (payloadOffsets_ o).[slot].

(** [planeView(storage, slot, width)] for a storage given by its window
    constructor. *)
Definition planeView (window : Z -> Z -> span) (o : ObservationSlots) (slot width : Z) : SlotValue :=
  let words := slot_words o slot in
  let start := slot_offset o slot in
  SlotVal.Bits4 width (window start words) (window (start + words) words) (window (start + 2 * words) words).

(** The copying loop of [copyBits4]: the source is read through its spans
    after every write, as the loop does when it aliases the storage. *)
Definition copy_to_pending (v : SlotValue) (slot : Z) (o : ObservationSlots) : ObservationSlots :=
  let words := span_size (valueWords v) in
  let offset := slot_offset o slot in
  with_pending o
    (for_range (Z.to_nat words) 0
       (fun index storage =>
          let storage := storage.[offset + index := span_at storage (committedPlanes_ o) (valueWords v) index] in
          let storage := storage.[offset + words + index :=
                                    span_at storage (committedPlanes_ o) (knownWords v) index] in
          storage.[offset + 2 * words + index := span_at storage (committedPlanes_ o) (zWords v) index])
       (pendingPlanes_ o)).

Definition copy_to_committed (pending : list Z) (v : SlotValue) (offset : Z) (committed : list Z) : list Z :=
  let words := span_size (valueWords v) in
  for_range (Z.to_nat words) 0
    (fun index storage =>
       let storage := storage.[offset + index := span_at pending storage (valueWords v) index] in
       let storage := storage.[offset + words + index := span_at pending storage (knownWords v) index] in
       storage.[offset + 2 * words + index := span_at pending storage (zWords v) index])
    committed.

(** ** Staging *)

Definition set_slot (o : ObservationSlots) (slot : Z) (s : ObservationSlot) : ObservationSlots :=
  with_slots o ((slots_ o).[slot := s]).

Definition Stage (slot : Z) (v : SlotValue) (valid path : bool) (ep : Z) (o : ObservationSlots)
  : bool * ObservationSlots :=
  if negb (configured_ o) || (Z.of_nat (length (slots_ o)) <=? slot) || s_pending (slots_ o).[slot]
  then (false, o)
  else if bool_decide (sv_kind v = KBits4) then
    if negb (isCanonicalBits4 (pendingPlanes_ o) (committedPlanes_ o) v) ||
       negb (payloadWidth (descriptors_ o).[slot] =? sv_width v)
    then (false, o)
    else
      let o := copy_to_pending v slot o in
      (true, set_slot o slot (mkSlot true (planeView PendingAt o slot (sv_width v)) valid path ep))
  else (true, set_slot o slot (mkSlot true v valid path ep)).

(** The plane-writing loop of [StagePacked]. *)
Definition write_planes {Width} (v : FourState Width) (offset words : Z) (planes : list Z) : list Z :=
  for_range (Z.to_nat words) 0
    (fun index planes =>
       let known := word (knownMask_ v) index in
       let planes := planes.[offset + index := Z.land (word (value_ v) index) known] in
       let planes := planes.[offset + words + index := known] in
       planes.[offset + 2 * words + index := word (zMask_ v) index])
    planes.

Definition StagePacked {Width} (slot : Z) (v : FourState Width) (eventBool valid path : bool) (ep : Z)
    (o : ObservationSlots) : bool * ObservationSlots :=
  if negb (configured_ o) || (Z.of_nat (length (slots_ o)) <=? slot) || s_pending (slots_ o).[slot] ||
     negb (payloadWidth (descriptors_ o).[slot] =? Width)
  then (false, o)
  else if (Width <=? 64) && FS.isFullyKnown v
  then Stage slot (if eventBool then SlotVal.Bool (toBool (value_ v)) else SlotVal.Unsigned (value (value_ v)))
         valid path ep o
  else
    let packed := planeView PendingAt o slot Width in
    let o := with_pending o (write_planes v (slot_offset o slot) (span_size (valueWords packed)) (pendingPlanes_ o)) in
    Stage slot packed valid path ep o.

(** ** Group checks *)

(** One group [begin, end): [None] rejects, [Some n] continues with [n]
    additions. *)
Definition check_group (o : ObservationSlots) (ep : option Z) (begin additions : Z) : option Z :=
  let d := (descriptors_ o).[begin] in
  let n := Z.to_nat (groupSize d) in
  let slot i := (slots_ o).[i] in
  let anyPending := negb (all_range n begin (fun i => negb (s_pending (slot i)))) in
  let allPending := all_range n begin (fun i => s_pending (slot i)) in
  if negb anyPending then Some additions
  else if negb allPending then None
  else
    let first := slot begin in
    if negb (all_range n begin (fun i =>
         negb ((match ep with Some e => negb (evaluationEpoch (slot i) =? e) | None => false end) ||
               negb (Bool.eqb (s_path (slot i)) (s_path first)))))
    then None
    else if negb (s_path first) then Some additions
    else if negb (all_range n begin (fun i => Bool.eqb (s_valid (slot i)) (s_valid first))) then None
    else if negb (s_valid first) then Some additions
    else
      for_range n begin
        (fun i acc =>
           match acc with
           | None => None
           | Some additions =>
             let v := s_value (slot i) in
             if bool_decide (d_kind d = Gauge) then
               if negb (bool_decide (sv_kind v = KUnsigned)) || ((gaugeIndexBySlot_ o).[i] =? kNoGauge)
               then None else Some additions
             else if negb (bool_decide (sv_kind v = KBool)) && negb (bool_decide (sv_kind v = KSigned)) &&
                     negb (bool_decide (sv_kind v = KUnsigned)) &&
                     (negb (bool_decide (sv_kind v = KBits4)) ||
                      negb (isCanonicalBits4 (pendingPlanes_ o) (committedPlanes_ o) v))
             then None
             else if additions =? eventCapacity_ o then None
             else Some (additions + 1)
           end)
        (Some additions).

Fixpoint check_from (fuel : nat) (o : ObservationSlots) (ep : option Z) (begin additions : Z) : bool :=
  match fuel with
  | O => true
  | S fuel' =>
    if begin <? Z.of_nat (length (slots_ o)) then
      match check_group o ep begin additions with
      | None => false
      | Some additions' => check_from fuel' o ep (begin + groupSize (descriptors_ o).[begin]) additions'
      end
    else true
  end.

Definition checkGroups (ep : option Z) (o : ObservationSlots) : bool :=
  if negb (configured_ o) then false else check_from (length (slots_ o)) o ep 0 0.

Definition Check (o : ObservationSlots) : bool := checkGroups None o.
Definition Precommit (ep : Z) (o : ObservationSlots) : bool := checkGroups (Some ep) o.

(** ** Commit *)

Definition DiscardNext (o : ObservationSlots) : ObservationSlots :=
  with_slots o (replicate (length (slots_ o)) slot_default).

Definition slot_active (s : ObservationSlot) (committedEpoch : Z) : bool :=
  s_pending s && s_valid s && s_path s && negb (evaluationEpoch s =? u64_max) &&
  (u64_add (evaluationEpoch s) 1 =? committedEpoch).

Definition commit_slot (committedEpoch index : Z) (o : ObservationSlots) : ObservationSlots :=
  let s := (slots_ o).[index] in
  let d := (descriptors_ o).[index] in
  let '(committed, events, gauges) :=
    if slot_active s committedEpoch then
      if bool_decide (d_kind d = Event) then
        if Z.of_nat (length (events_ o)) <? eventCapacity_ o then
          if bool_decide (sv_kind (s_value s) = KBits4)
          then (copy_to_committed (pendingPlanes_ o) (s_value s) (slot_offset o index) (committedPlanes_ o),
                events_ o ++ [mkEvent committedEpoch d (planeView CommittedAt o index (sv_width (s_value s)))],
                gauges_ o)
          else (committedPlanes_ o, events_ o ++ [mkEvent committedEpoch d (s_value s)], gauges_ o)
        else (committedPlanes_ o, events_ o, gauges_ o)
      else
        let g := (gaugeIndexBySlot_ o).[index] in
        (committedPlanes_ o, events_ o,
         (gauges_ o).[g := mkGauge (g_stableOrdinal (gauges_ o).[g]) (s_value s) committedEpoch])
    else (committedPlanes_ o, events_ o, gauges_ o) in
  mkObservations (configured_ o) (eventCapacity_ o) (payloadOffsets_ o) (pendingPlanes_ o) committed
    (descriptors_ o) ((slots_ o).[index := slot_default]) (gaugeIndexBySlot_ o) events gauges.

Definition clear_events (o : ObservationSlots) : ObservationSlots :=
  mkObservations (configured_ o) (eventCapacity_ o) (payloadOffsets_ o) (pendingPlanes_ o)
    (committedPlanes_ o) (descriptors_ o) (slots_ o) (gaugeIndexBySlot_ o) [] (gauges_ o).

Definition Xfer (committedEpoch : Z) (o : ObservationSlots) : ObservationSlots :=
  for_range (length (slots_ o)) 0 (commit_slot committedEpoch) (clear_events o).

Definition Reset (o : ObservationSlots) : ObservationSlots :=
  let o := clear_events (DiscardNext o) in
  mkObservations (configured_ o) (eventCapacity_ o) (payloadOffsets_ o) (pendingPlanes_ o)
    (committedPlanes_ o) (descriptors_ o) (slots_ o) (gaugeIndexBySlot_ o) (events_ o)
    ((fun g => mkGauge (g_stableOrdinal g) (SlotVal.Unsigned 0) 0) <$> gauges_ o).

(** Copy assignment: spans of the source object are foreign until they are
    rebound to this object's planes.  [rebase] is what a copied span refers
    to: the other object's storage. *)
Definition rebase (other : ObservationSlots) (s : span) : span :=
  Borrowed (span_words (pendingPlanes_ other) (committedPlanes_ other) s).
Definition rebase_value (other : ObservationSlots) (v : SlotValue) : SlotValue :=
  mkSlotValue (sv_kind v) (sv_bits v) (sv_width v) (rebase other (valueWords v))
    (rebase other (knownWords v)) (rebase other (zWords v)).

(** [std::find_if] over the descriptors by stable ordinal. *)
Definition find_descriptor (ds : list ObservationDescriptor) (ordinal : Z) : Z :=
  match first_range (length ds) 0
          (fun i => if stableOrdinal ds.[i] =? ordinal then Some i else None) with
  | Some i => i
  | None => Z.of_nat (length ds)
  end.

Definition copy (other : ObservationSlots) : ObservationSlots :=
  let o := mkObservations (configured_ other) (eventCapacity_ other) (payloadOffsets_ other)
             (pendingPlanes_ other) (committedPlanes_ other) (descriptors_ other)
             ((fun s => mkSlot (s_pending s) (rebase_value other (s_value s)) (s_valid s) (s_path s)
                          (evaluationEpoch s)) <$> slots_ other)
             (gaugeIndexBySlot_ other)
             ((fun e => mkEvent (epoch e) (e_descriptor e) (rebase_value other (e_value e))) <$> events_ other)
             ((fun g => mkGauge (g_stableOrdinal g) (rebase_value other (g_value g)) (lastUpdate g)) <$>
                gauges_ other) in
  let slots :=
    for_range (length (slots_ o)) 0
      (fun index slots =>
         let s := slots.[index] in
         if bool_decide (sv_kind (s_value s) = KBits4)
         then slots.[index := mkSlot (s_pending s) (planeView PendingAt o index (sv_width (s_value s)))
                                (s_valid s) (s_path s) (evaluationEpoch s)]
         else slots)
      (slots_ o) in
  let events :=
    (fun e =>
       if bool_decide (sv_kind (e_value e) = KBits4)
       then mkEvent (epoch e) (e_descriptor e)
              (planeView CommittedAt o (find_descriptor (descriptors_ o) (stableOrdinal (e_descriptor e)))
                 (sv_width (e_value e)))
       else e) <$> events_ o in
  mkObservations (configured_ o) (eventCapacity_ o) (payloadOffsets_ o) (pendingPlanes_ o)
    (committedPlanes_ o) (descriptors_ o) slots (gaugeIndexBySlot_ o) events (gauges_ o).
End Obs.
