(* ===== verification/ObservationsSpec.v ===== *)
(** * Specification of observation slots

    The invariant of a configured owner, what staging stores, what the commit
    publishes, and that an accepted commit loses no event. *)

From Stdlib Require Import ZArith Lia String.
From stdpp Require Import base list numbers.
From S2P Require Import Prelude Bits BitsLogic BitsShift BitsArith FourState FourStateSpec.
From S2P Require Import Observations.

Implicit Types o : ObservationSlots.

Definition nslots o : Z := Z.of_nat (length (slots_ o)).

(** Slot [i] of four-state kind views its own pending window. *)
Definition slot_view_ok o (i : Z) : Prop :=
  sv_kind (s_value (slots_ o).[i]) = KBits4 ->
  s_value (slots_ o).[i] = Obs.planeView PendingAt o i (sv_width (s_value (slots_ o).[i])).

(** The unsigned fields of a descriptor. *)
Definition descriptor_wf (d : ObservationDescriptor) : Prop := 0 <= payloadWidth d /\ 0 <= groupSize d.

Record obs_inv o : Prop := {
  oi_configured : configured_ o = true;
  oi_descriptors : length (descriptors_ o) = length (slots_ o);
  oi_gaugeIndex : length (gaugeIndexBySlot_ o) = length (slots_ o);
  oi_offsets : length (payloadOffsets_ o) = S (length (slots_ o));
  oi_first : (payloadOffsets_ o).[0] = 0;
  oi_step : forall i, 0 <= i < nslots o ->
    (payloadOffsets_ o).[i + 1] = (payloadOffsets_ o).[i] + plane_words (payloadWidth (descriptors_ o).[i]);
  oi_widths : Forall descriptor_wf (descriptors_ o);
  oi_pending : Z.of_nat (length (pendingPlanes_ o)) = 3 * (payloadOffsets_ o).[nslots o];
  oi_committed : Z.of_nat (length (committedPlanes_ o)) = 3 * (payloadOffsets_ o).[nslots o];
  oi_views : forall i, 0 <= i < nslots o -> slot_view_ok o i;
  oi_capacity : 0 <= eventCapacity_ o;
  oi_groups : Obs.check_groups_from (length (descriptors_ o)) (descriptors_ o) 0 = true;
}.

Lemma plane_words_kWords w : 0 < w -> plane_words w = kWords w.
Proof.
  intros Hw. unfold plane_words, kWords, kWordBits.
  pose proof (Z.div_mod w 64 ltac:(lia)). pose proof (Z.mod_pos_bound w 64 ltac:(lia)).
  pose proof (Z.div_mod (w - 1) 64 ltac:(lia)). pose proof (Z.mod_pos_bound (w - 1) 64 ltac:(lia)).
  destruct (Z.eqb_spec (w mod 64) 0); lia.
Qed.

Lemma plane_words_nonneg w : 0 <= w -> 0 <= plane_words w.
Proof.
  intros Hw. unfold plane_words. pose proof (Z.div_pos w 64 Hw ltac:(lia)). destruct (w mod 64 =? 0); lia.
Qed.

Section Layout.
Context o (Hinv : obs_inv o).

Lemma width_nonneg i : 0 <= i < nslots o -> 0 <= payloadWidth (descriptors_ o).[i].
Proof.
  intros Hi. apply (Forall_at descriptor_wf (descriptors_ o)); [apply Hinv|].
  rewrite (oi_descriptors _ Hinv). exact Hi.
Qed.

Lemma slot_words_eq i : 0 <= i < nslots o ->
  Obs.slot_words o i = plane_words (payloadWidth (descriptors_ o).[i]).
Proof. intros Hi. unfold Obs.slot_words. rewrite (oi_step _ Hinv i Hi). lia. Qed.

Lemma offsets_mono i j : 0 <= i <= j -> j <= nslots o ->
  0 <= (payloadOffsets_ o).[i] <= (payloadOffsets_ o).[j].
Proof.
  intros Hij. replace j with (i + Z.of_nat (Z.to_nat (j - i))) by lia. generalize (Z.to_nat (j - i)) as n.
  assert (Hbase : forall n, 0 <= Z.of_nat n <= nslots o -> 0 <= (payloadOffsets_ o).[Z.of_nat n]).
  { intros n. induction n as [|n IH]; intros Hn; [change (Z.of_nat 0) with 0; rewrite (oi_first _ Hinv); lia|].
    rewrite Nat2Z.inj_succ, <- Z.add_1_r, (oi_step _ Hinv) by lia.
    pose proof (plane_words_nonneg _ (width_nonneg (Z.of_nat n) ltac:(lia))). specialize (IH ltac:(lia)). lia. }
  intros n. induction n as [|n IH]; intros Hn.
  - rewrite Z.add_0_r. replace i with (Z.of_nat (Z.to_nat i)) by lia.
    specialize (Hbase (Z.to_nat i) ltac:(lia)). lia.
  - specialize (IH ltac:(lia)).
    replace (i + Z.of_nat (S n)) with (i + Z.of_nat n + 1) by lia. rewrite (oi_step _ Hinv) by lia.
    pose proof (plane_words_nonneg _ (width_nonneg (i + Z.of_nat n) ltac:(lia))). lia.
Qed.

(** The window of slot [i] in either plane array. *)
Definition win i : Z := Obs.slot_offset o i.
Definition wlen i : Z := Obs.slot_words o i.

Lemma window_range i : 0 <= i < nslots o ->
  0 <= wlen i /\ 0 <= win i /\ win i + 3 * wlen i <= Z.of_nat (length (pendingPlanes_ o)) /\
  Z.of_nat (length (committedPlanes_ o)) = Z.of_nat (length (pendingPlanes_ o)).
Proof.
  intros Hi. unfold win, wlen, Obs.slot_offset, Obs.slot_words.
  rewrite (oi_pending _ Hinv), (oi_committed _ Hinv).
  pose proof (offsets_mono i (i + 1) ltac:(lia) ltac:(lia)).
  pose proof (offsets_mono (i + 1) (nslots o) ltac:(lia) ltac:(lia)). lia.
Qed.

Lemma window_disjoint i j : 0 <= i -> i < j -> j < nslots o -> win i + 3 * wlen i <= win j.
Proof.
  intros Hi Hij Hj. unfold win, wlen, Obs.slot_offset, Obs.slot_words.
  pose proof (offsets_mono (i + 1) j ltac:(lia) ltac:(lia)). lia.
Qed.
End Layout.

(** ** The three-plane copy loop *)

(** Writing word [k] of three planes of [n] words at [base]; the body may
    read what earlier rounds have not written. *)
Definition unwritten (base n k x : Z) : Prop :=
  forall j, 0 <= j < k -> x <> base + j /\ x <> base + n + j /\ x <> base + 2 * n + j.

Lemma planes_loop (a b c : Z -> Z) (n : nat) base (l : list Z) body :
  0 <= base -> base + 3 * Z.of_nat n <= Z.of_nat (length l) ->
  (forall k t, 0 <= k < Z.of_nat n -> length t = length l ->
     (forall x, 0 <= x -> unwritten base (Z.of_nat n) k x -> t.[x] = l.[x]) ->
     body k t = ((t.[base + k := a k]).[base + Z.of_nat n + k := b k]).[base + 2 * Z.of_nat n + k := c k]) ->
  let r := for_range n 0 body l in
  length r = length l /\
  (forall k, 0 <= k < Z.of_nat n ->
     r.[base + k] = a k /\ r.[base + Z.of_nat n + k] = b k /\ r.[base + 2 * Z.of_nat n + k] = c k) /\
  (forall x, 0 <= x -> x < base \/ base + 3 * Z.of_nat n <= x -> r.[x] = l.[x]).
Proof.
  intros Hb Hlen Hbody r.
  pose proof (for_range_inv
    (fun k t => length t = length l /\
       (forall j, 0 <= j < k -> t.[base + j] = a j /\ t.[base + Z.of_nat n + j] = b j /\ t.[base + 2 * Z.of_nat n + j] = c j) /\
       (forall x, 0 <= x -> unwritten base (Z.of_nat n) k x -> t.[x] = l.[x])) n 0 body l) as H.
  assert (Hr : length r = length l /\
    (forall j, 0 <= j < 0 + Z.of_nat n -> r.[base + j] = a j /\ r.[base + Z.of_nat n + j] = b j /\ r.[base + 2 * Z.of_nat n + j] = c j) /\
    (forall x, 0 <= x -> unwritten base (Z.of_nat n) (0 + Z.of_nat n) x -> r.[x] = l.[x])).
  { apply H; clear H.
    - split; [reflexivity|]. split; [lia | auto].
    - intros k t Hk (Lt & Ht & Hout). rewrite Hbody by (assumption || lia). rewrite !length_insert.
      split; [exact Lt|]. split.
      + intros j Hj. rewrite !array_get_set by (rewrite ?length_insert; lia).
        replace (base + j =? base + 2 * Z.of_nat n + k) with false by lia.
        replace (base + j =? base + Z.of_nat n + k) with false by lia.
        replace (base + Z.of_nat n + j =? base + 2 * Z.of_nat n + k) with false by lia.
        replace (base + Z.of_nat n + j =? base + k) with false by lia.
        replace (base + 2 * Z.of_nat n + j =? base + Z.of_nat n + k) with false by lia.
        replace (base + 2 * Z.of_nat n + j =? base + k) with false by lia.
        replace (base + j =? base + k) with (j =? k) by lia.
        replace (base + Z.of_nat n + j =? base + Z.of_nat n + k) with (j =? k) by lia.
        replace (base + 2 * Z.of_nat n + j =? base + 2 * Z.of_nat n + k) with (j =? k) by lia.
        destruct (Z.eqb_spec j k) as [->|]; [auto | apply Ht; lia].
      + intros x Hx Hx'. destruct (Hx' k ltac:(lia)) as (N1 & N2 & N3).
        rewrite !array_get_set by (rewrite ?length_insert; lia).
        replace (x =? base + 2 * Z.of_nat n + k) with false by lia.
        replace (x =? base + Z.of_nat n + k) with false by lia.
        replace (x =? base + k) with false by lia. apply Hout; [exact Hx|]. intros j Hj. apply Hx'. lia. }
  destruct Hr as (H1 & H2 & H3). split; [exact H1|]. split; [intros k Hk; apply H2; lia|].
  intros x Hx Hx'. apply H3; [exact Hx|]. intros j Hj. lia.
Qed.

(** ** Staging a packed value *)

(** Three planes of [n] words at [base] hold the canonical words of [v]. *)
Definition holds_planes {W} (planes : list Z) (base n : Z) (v : FourState W) : Prop :=
  forall k, 0 <= k < n ->
    planes.[base + k] = Z.land (word (value_ v) k) (word (knownMask_ v) k) /\
    planes.[base + n + k] = word (knownMask_ v) k /\
    planes.[base + 2 * n + k] = word (zMask_ v) k.

(** The logic level stored at bit [b] of such planes. *)
Definition plane_lane (planes : list Z) (base n b : Z) : V4 :=
  if Z.testbit planes.[base + n + b / 64] (b mod 64)
  then (if Z.testbit planes.[base + b / 64] (b mod 64) then V1 else V0)
  else if Z.testbit planes.[base + 2 * n + b / 64] (b mod 64) then VZ else VX.

Lemma plane_lane_spec {W} `{HW : PosWidth W} planes base (v : FourState W) b :
  fs_wf v -> holds_planes planes base (kWords W) v -> 0 <= b < W ->
  plane_lane planes base (kWords W) b = lane v b.
Proof.
  intros Hv Hp Hb. unfold plane_lane, lane.
  assert (Hk : 0 <= b / 64 < kWords W).
  { unfold kWords, kWordBits. pose proof (Z.div_pos b 64 ltac:(lia) ltac:(lia)).
    pose proof (Z.div_le_mono b (W - 1) 64 ltac:(lia) ltac:(lia)). lia. }
  destruct (Hp (b / 64) Hk) as (-> & -> & ->).
  rewrite Z.land_spec, <- !bval_testbit by (wf || lia).
  destruct (Z.testbit (bval (knownMask_ v)) b); [rewrite andb_true_r|]; reflexivity.
Qed.

Lemma canonical_word {W} `{HW : PosWidth W} (v : FourState W) i :
  fs_wf v -> 0 <= i < kWords W ->
  let mask := if (i + 1 =? kWords W) && negb (W mod 64 =? 0)
              then u64_sub (u64_shl 1 (W mod 64)) 1 else u64_not 0 in
  let a := Z.land (word (value_ v) i) (word (knownMask_ v) i) in
  let k := word (knownMask_ v) i in
  let z := word (zMask_ v) i in
  Z.land k z = 0 /\ Z.land a (u64_not k) = 0 /\ Z.land (Z.lor (Z.lor a k) z) (u64_not mask) = 0.
Proof.
  intros Hv Hi mask a k z. pose proof (W_pos (W:=W)) as HWp.
  assert (Hbit : forall (p : Bits W) n, bits_wf p -> 0 <= n -> 64 <= n \/ W <= 64 * i + n -> Z.testbit (word p i) n = false).
  { intros p n Hp Hn [H|H].
    - apply (is_u_testbit 64); [lia | apply word_range; [exact Hp | lia] | exact H].
    - destruct (Z_lt_le_dec n 64).
      + rewrite bval_testbit_at by (assumption || lia). apply bval_testbit_high; assumption.
      + apply (is_u_testbit 64); [lia | apply word_range; [exact Hp | lia] | assumption]. }
  assert (Hkw : bits_wf (knownMask_ v)) by wf. assert (Hzw : bits_wf (zMask_ v)) by wf.
  assert (Hvw : bits_wf (value_ v)) by wf.
  split; [|split]; apply Z.bits_inj'; intros n Hn; rewrite Z.bits_0, Z.land_spec.
  - unfold k, z. destruct (Z_lt_le_dec n 64) as [Hlt|]; [|rewrite (Hbit (knownMask_ v)) by (assumption || lia); reflexivity].
    destruct (Z_lt_le_dec (64 * i + n) W); [|rewrite (Hbit (knownMask_ v)) by (assumption || lia); reflexivity].
    rewrite !bval_testbit_at by (assumption || lia). apply fs_wf_disjoint; [exact Hv | lia].
  - unfold a, k, u64_not. rewrite Z.land_spec, u64_testbit, Z.lnot_spec by exact Hn.
    destruct (Z.testbit (word (knownMask_ v) i) n); cbn [negb]; rewrite ?andb_false_r; reflexivity.
  - unfold u64_not at 1. rewrite u64_testbit, Z.lnot_spec by exact Hn.
    destruct (Z.ltb_spec n 64) as [Hlt|]; cbn [andb]; [|apply andb_false_r].
    unfold mask. destruct ((i + 1 =? kWords W) && negb (W mod 64 =? 0)) eqn:E.
    + assert (Hm : u64_sub (u64_shl 1 (W mod 64)) 1 = Z.ones (W mod 64)).
      { pose proof (Z.mod_pos_bound W 64 ltac:(lia)). unfold u64_sub, u64_shl. rewrite Z.shiftl_1_l.
        assert (2 ^ (W mod 64) < 2 ^ 64) by (apply Z.pow_lt_mono_r; lia).
        assert (0 < 2 ^ (W mod 64)) by (apply Z.pow_pos_nonneg; lia).
        rewrite !u64_id by (unfold is_u; rewrite ?u64_id by (unfold is_u; lia); lia).
        rewrite Z.ones_equiv. lia. }
      pose proof (Z.mod_pos_bound W 64 ltac:(lia)) as Hmb. rewrite Hm, ones_testbit by lia.
      destruct (Z.ltb_spec n (W mod 64)) as [|Hge]; cbn [negb]; [apply andb_false_r|].
      assert (Hhi : W <= 64 * i + n).
      { apply andb_prop in E as [E1 E2]. unfold kWords, kWordBits in E1.
        pose proof (Z.div_mod W 64 ltac:(lia)). pose proof (Z.div_mod (W - 1) 64 ltac:(lia)).
        pose proof (Z.mod_pos_bound (W - 1) 64 ltac:(lia)). lia. }
      unfold a, k, z. rewrite !Z.lor_spec, Z.land_spec, !Hbit by (assumption || lia). reflexivity.
    + rewrite u64_not_0, ones_testbit by lia. replace (n <? 64) with true by lia. apply andb_false_r.
Qed.

Lemma holds_planes_canonical {W} `{HW : PosWidth W} pending committed base (v : FourState W) :
  fs_wf v -> holds_planes pending base (kWords W) v -> 0 <= base ->
  isCanonicalBits4 pending committed
    (SlotVal.Bits4 W (PendingAt base (kWords W)) (PendingAt (base + kWords W) (kWords W))
       (PendingAt (base + 2 * kWords W) (kWords W))) = true.
Proof.
  intros Hv Hp Hb. pose proof (W_pos (W:=W)) as HWp. unfold isCanonicalBits4.
  cbn [sv_kind sv_width valueWords knownWords zWords SlotVal.Bits4 span_size span_at].
  rewrite bool_decide_eq_true_2 by reflexivity. rewrite (plane_words_kWords W HWp), Z.eqb_refl.
  replace (W =? 0) with false by lia. cbn [negb orb].
  apply all_range_true. intros i Hi. pose proof (kWords_pos (W:=W)).
  destruct (Hp i ltac:(lia)) as (-> & -> & ->).
  destruct (canonical_word v i Hv ltac:(lia)) as (E1 & E2 & E3). cbn zeta in *. rewrite E1, E2, E3. reflexivity.
Qed.

Section Stage.
Context o (Hinv : obs_inv o) (slot : Z) (Hslot : 0 <= slot < nslots o).

Lemma view_ext o' i w :
  payloadOffsets_ o' = payloadOffsets_ o -> Obs.planeView PendingAt o' i w = Obs.planeView PendingAt o i w.
Proof. intros E. unfold Obs.planeView, Obs.slot_words, Obs.slot_offset. rewrite E. reflexivity. Qed.

(** Replacing the pending planes and one slot keeps the invariant. *)
Lemma obs_inv_stage planes s :
  length planes = length (pendingPlanes_ o) ->
  (sv_kind (s_value s) = KBits4 -> s_value s = Obs.planeView PendingAt o slot (sv_width (s_value s))) ->
  obs_inv (Obs.set_slot (Obs.with_pending o planes) slot s).
Proof.
  intros Hl Hs. pose proof Hinv as [H1 H2 H3 H4 H5 H6 H7 H8 H9 H10 H11 H12].
  unfold nslots in *. constructor; unfold nslots in *; cbn [Obs.set_slot Obs.with_pending Obs.with_slots configured_ descriptors_ gaugeIndexBySlot_ payloadOffsets_ pendingPlanes_ committedPlanes_ slots_];
    rewrite ?length_insert, ?Hl; try assumption.
  intros i Hi. unfold slot_view_ok. cbn [Obs.set_slot Obs.with_slots Obs.with_pending slots_].
  rewrite array_get_set by lia. destruct (Z.eqb_spec i slot) as [->|]; [exact Hs|].
  exact (H10 i Hi).
Qed.

Lemma write_planes_spec {W} `{HW : PosWidth W} (v : FourState W) :
  wlen o slot = kWords W ->
  let r := Obs.write_planes v (win o slot) (kWords W) (pendingPlanes_ o) in
  length r = length (pendingPlanes_ o) /\ holds_planes r (win o slot) (kWords W) v /\
  forall x, 0 <= x -> x < win o slot \/ win o slot + 3 * kWords W <= x -> r.[x] = (pendingPlanes_ o).[x].
Proof.
  intros Hw. destruct (window_range o Hinv slot Hslot) as (W1 & W2 & W3 & _). pose proof (kWords_pos (W:=W)).
  unfold Obs.write_planes. set (n := Z.to_nat (kWords W)). assert (En : Z.of_nat n = kWords W) by lia.
  rewrite <- En. apply (planes_loop (fun k => Z.land (word (value_ v) k) (word (knownMask_ v) k))
    (fun k => word (knownMask_ v) k) (fun k => word (zMask_ v) k)); [exact W2 | lia|].
  intros k t Hk _ _. reflexivity.
Qed.

(** Copying a window onto itself changes nothing. *)
Lemma copy_self width :
  let view := Obs.planeView PendingAt o slot width in
  forall planes, length planes = length (pendingPlanes_ o) ->
  let o1 := Obs.copy_to_pending view slot (Obs.with_pending o planes) in
  payloadOffsets_ o1 = payloadOffsets_ o /\ length (pendingPlanes_ o1) = length planes /\
  forall x, 0 <= x -> (pendingPlanes_ o1).[x] = planes.[x].
Proof.
  intros view planes Hl. destruct (window_range o Hinv slot Hslot) as (W1 & W2 & W3 & _).
  unfold Obs.copy_to_pending. cbn [Obs.with_pending payloadOffsets_ pendingPlanes_ committedPlanes_].
  split; [reflexivity|].
  change (Obs.slot_offset (Obs.with_pending o planes) slot) with (win o slot).
  cbn [view Obs.planeView SlotVal.Bits4 valueWords knownWords zWords span_size span_at].
  change (Obs.slot_offset o slot) with (win o slot). change (Obs.slot_words o slot) with (wlen o slot).
  set (n := Z.to_nat (wlen o slot)). assert (En : Z.of_nat n = wlen o slot) by lia. rewrite <- En.
  destruct (planes_loop (fun k => planes.[win o slot + k]) (fun k => planes.[win o slot + Z.of_nat n + k])
    (fun k => planes.[win o slot + 2 * Z.of_nat n + k]) n (win o slot) planes
    (fun k storage =>
       let storage := storage.[win o slot + k := storage.[win o slot + k]] in
       let storage := storage.[win o slot + Z.of_nat n + k := storage.[win o slot + Z.of_nat n + k]] in
       storage.[win o slot + 2 * Z.of_nat n + k := storage.[win o slot + 2 * Z.of_nat n + k]])) as (L & Hin & Hout);
    [exact W2 | lia | |].
  - intros k t Hk Lt Ht. cbn zeta. rewrite !array_get_set by (rewrite ?length_insert; lia).
    replace (win o slot + Z.of_nat n + k =? win o slot + k) with false by lia.
    replace (win o slot + 2 * Z.of_nat n + k =? win o slot + Z.of_nat n + k) with false by lia.
    replace (win o slot + 2 * Z.of_nat n + k =? win o slot + k) with false by lia.
    rewrite !Ht by (try lia; intros j Hj; lia). reflexivity.
  - split; [exact L|]. intros x Hx.
    destruct (Z_lt_le_dec x (win o slot)); [apply Hout; lia|].
    destruct (Z_lt_le_dec x (win o slot + 3 * Z.of_nat n)); [|apply Hout; lia].
    destruct (Z_lt_le_dec x (win o slot + Z.of_nat n)).
    { replace x with (win o slot + (x - win o slot)) by lia. apply Hin. lia. }
    destruct (Z_lt_le_dec x (win o slot + 2 * Z.of_nat n)).
    { replace x with (win o slot + Z.of_nat n + (x - win o slot - Z.of_nat n)) by lia. apply Hin. lia. }
    replace x with (win o slot + 2 * Z.of_nat n + (x - win o slot - 2 * Z.of_nat n)) by lia. apply Hin. lia.
Qed.

Definition packed_scalar {W} (v : FourState W) (eventBool : bool) : SlotValue :=
  if eventBool then SlotVal.Bool (toBool (value_ v)) else SlotVal.Unsigned (value (value_ v)).

Definition stored_as {W} (v : FourState W) (eventBool : bool) : SlotValue :=
  if (W <=? 64) && FS.isFullyKnown v then packed_scalar v eventBool
  else Obs.planeView PendingAt o slot W.

(** [StagePacked] of a well-formed value on a free slot of its width
    succeeds: the slot refers to the canonical planes of the value in its
    own window and nothing outside that window changes. *)
Lemma StagePacked_spec {W} `{HW : PosWidth W} (v : FourState W) eventBool valid path ep :
  fs_wf v -> s_pending (slots_ o).[slot] = false -> payloadWidth (descriptors_ o).[slot] = W ->
  exists planes,
    Obs.StagePacked slot v eventBool valid path ep o =
      (true, Obs.set_slot (Obs.with_pending o planes) slot
               (mkSlot true (stored_as v eventBool) valid path ep)) /\
    length planes = length (pendingPlanes_ o) /\
    (forall x, 0 <= x -> x < win o slot \/ win o slot + 3 * kWords W <= x -> planes.[x] = (pendingPlanes_ o).[x]) /\
    ((W <=? 64) && FS.isFullyKnown v = false -> holds_planes planes (win o slot) (kWords W) v).
Proof.
  intros Hv Hfree Hwidth. pose proof (W_pos (W:=W)) as HWp.
  assert (Hlen : wlen o slot = kWords W).
  { unfold wlen. rewrite (slot_words_eq o Hinv slot Hslot), Hwidth. apply plane_words_kWords, HWp. }
  assert (Hguard : negb (configured_ o) || (Z.of_nat (length (slots_ o)) <=? slot) = false).
  { rewrite (oi_configured _ Hinv). unfold nslots in Hslot. cbn [negb orb]. lia. }
  unfold Obs.StagePacked, stored_as. rewrite Hguard, Hfree, Hwidth, Z.eqb_refl. cbn [orb negb].
  destruct ((W <=? 64) && FS.isFullyKnown v).
  - exists (pendingPlanes_ o). split; [|split; [reflexivity | split; [reflexivity | discriminate]]].
    unfold Obs.Stage. rewrite Hguard, Hfree. cbn [orb].
    unfold packed_scalar. destruct eventBool; cbn [SlotVal.Bool SlotVal.Unsigned sv_kind];
      rewrite bool_decide_eq_false_2 by discriminate; destruct o; reflexivity.
  - destruct (write_planes_spec v Hlen) as (L1 & H1 & O1).
    assert (Hsz : span_size (valueWords (Obs.planeView PendingAt o slot W)) = kWords W) by exact Hlen.
    cbn zeta. rewrite Hsz. change (Obs.slot_offset o slot) with (win o slot) in *.
    set (planes1 := Obs.write_planes v (win o slot) (kWords W) (pendingPlanes_ o)) in *.
    set (view := SlotVal.Bits4 W (PendingAt (win o slot) (kWords W)) (PendingAt (win o slot + kWords W) (kWords W))
                   (PendingAt (win o slot + 2 * kWords W) (kWords W))).
    assert (Hview : Obs.planeView PendingAt o slot W = view).
    { unfold Obs.planeView. fold (win o slot). fold (wlen o slot). rewrite Hlen. reflexivity. }
    destruct (copy_self W planes1 L1) as (E1 & E2 & E3).
    set (o1 := Obs.copy_to_pending (Obs.planeView PendingAt o slot W) slot (Obs.with_pending o planes1)) in *.
    exists (pendingPlanes_ o1). split; [|split; [congruence|split]].
    + unfold Obs.Stage. cbn [Obs.with_pending configured_ slots_ descriptors_ pendingPlanes_ committedPlanes_].
      rewrite Hguard, Hfree. cbn [orb].
      change (sv_kind (Obs.planeView PendingAt o slot W)) with KBits4.
      change (sv_width (Obs.planeView PendingAt o slot W)) with W.
      rewrite bool_decide_eq_true_2 by reflexivity. rewrite Hwidth, Z.eqb_refl.
      rewrite Hview at 1. unfold view at 1.
      rewrite (holds_planes_canonical _ _ _ v) by (assumption || apply (window_range o Hinv slot Hslot)).
      reflexivity.
    + intros x Hx Hx'. rewrite E3 by exact Hx. apply O1; assumption.
    + intros _ k Hk. destruct (window_range o Hinv slot Hslot) as (_ & W2 & _).
      rewrite !E3 by lia. apply H1, Hk.
Qed.
End Stage.

(** ** Commit *)

Section Commit.
Context o (Hinv : obs_inv o) (E : Z).

Definition is_event (i : Z) : Prop :=
  Obs.slot_active (slots_ o).[i] E = true /\ d_kind (descriptors_ o).[i] = Event.
#[local] Instance is_event_dec i : Decision (is_event i).
Proof. unfold is_event. apply _. Defined.

(** The active event slots below [k], in slot order. *)
Definition actives (k : nat) : list Z := filter is_event (Z.of_nat <$> seq 0 k).

Definition published (i : Z) : CommittedEventSlot :=
  let v := s_value (slots_ o).[i] in
  mkEvent E (descriptors_ o).[i]
    (if bool_decide (sv_kind v = KBits4) then Obs.planeView CommittedAt o i (sv_width v) else v).

Definition kept (k : nat) : list Z := take (Z.to_nat (eventCapacity_ o)) (actives k).

(** The committed window of slot [i] equals its pending window. *)
Definition copied (committed : list Z) (i : Z) : Prop :=
  sv_kind (s_value (slots_ o).[i]) = KBits4 ->
  forall x, win o i <= x < win o i + 3 * wlen o i -> committed.[x] = (pendingPlanes_ o).[x].

Record commit_inv (k : nat) o' : Prop := {
  ci_config : configured_ o' = configured_ o /\ eventCapacity_ o' = eventCapacity_ o /\
    payloadOffsets_ o' = payloadOffsets_ o /\ pendingPlanes_ o' = pendingPlanes_ o /\
    descriptors_ o' = descriptors_ o /\ gaugeIndexBySlot_ o' = gaugeIndexBySlot_ o;
  ci_committed : length (committedPlanes_ o') = length (committedPlanes_ o);
  ci_slots : length (slots_ o') = length (slots_ o) /\ forall i, 0 <= i < nslots o ->
    (slots_ o').[i] = if i <? Z.of_nat k then slot_default else (slots_ o).[i];
  ci_events : events_ o' = published <$> kept k;
  ci_copied : forall i, i ∈ kept k -> copied (committedPlanes_ o') i;
}.

Lemma actives_S k : actives (S k) = actives k ++ (if decide (is_event (Z.of_nat k)) then [Z.of_nat k] else []).
Proof.
  unfold actives. rewrite seq_S, fmap_app, list.filter_app. cbn [fmap list_fmap plus].
  rewrite list.filter_cons, list.filter_nil. reflexivity.
Qed.

Lemma actives_lt k i : i ∈ actives k -> 0 <= i < Z.of_nat k.
Proof.
  intros H. apply list_elem_of_filter in H as [_ H]. apply list_elem_of_fmap in H as (n & -> & Hn).
  apply elem_of_seq in Hn. lia.
Qed.

Lemma kept_lt k i : i ∈ kept k -> 0 <= i < Z.of_nat k.
Proof.
  intros H. apply actives_lt. apply elem_of_take in H as (n & Hn & _). exact (list_elem_of_lookup_2 _ _ _ Hn).
Qed.

Lemma kept_0 : kept (Z.to_nat 0) = [].
Proof. apply take_nil. Qed.

Lemma kept_S k :
  kept (S k) =
  if decide (is_event (Z.of_nat k))
  then (if Z.of_nat (length (kept k)) <? eventCapacity_ o then kept k ++ [Z.of_nat k] else kept k)
  else kept k.
Proof.
  unfold kept. rewrite actives_S. destruct (decide (is_event (Z.of_nat k))); [|rewrite app_nil_r; reflexivity].
  rewrite length_take. destruct (Z.ltb_spec (Z.of_nat (Z.to_nat (eventCapacity_ o) `min` length (actives k))) (eventCapacity_ o)).
  - rewrite take_app_ge, (take_ge (actives k)) by lia.
    replace (Z.to_nat (eventCapacity_ o) - length (actives k))%nat
      with (S (Z.to_nat (eventCapacity_ o) - length (actives k) - 1)) by lia.
    cbn [take]. rewrite take_nil. reflexivity.
  - rewrite take_app_le by lia. reflexivity.
Qed.

Lemma copy_committed_spec i (committed : list Z) :
  0 <= i < nslots o -> sv_kind (s_value (slots_ o).[i]) = KBits4 ->
  length committed = length (committedPlanes_ o) ->
  let r := Obs.copy_to_committed (pendingPlanes_ o) (s_value (slots_ o).[i]) (win o i) committed in
  length r = length committed /\
  (forall x, win o i <= x < win o i + 3 * wlen o i -> r.[x] = (pendingPlanes_ o).[x]) /\
  (forall x, 0 <= x -> x < win o i \/ win o i + 3 * wlen o i <= x -> r.[x] = committed.[x]).
Proof.
  intros Hi Hk Hl. destruct (window_range o Hinv i Hi) as (W1 & W2 & W3 & W4).
  rewrite (oi_views _ Hinv i Hi Hk). unfold Obs.copy_to_committed.
  cbn [Obs.planeView SlotVal.Bits4 valueWords knownWords zWords span_size span_at].
  change (Obs.slot_offset o i) with (win o i). change (Obs.slot_words o i) with (wlen o i).
  set (n := Z.to_nat (wlen o i)). assert (En : Z.of_nat n = wlen o i) by lia. rewrite <- En.
  destruct (planes_loop (fun k => (pendingPlanes_ o).[win o i + k]) (fun k => (pendingPlanes_ o).[win o i + Z.of_nat n + k])
    (fun k => (pendingPlanes_ o).[win o i + 2 * Z.of_nat n + k]) n (win o i) committed
    (fun k storage =>
       let storage := storage.[win o i + k := (pendingPlanes_ o).[win o i + k]] in
       let storage := storage.[win o i + Z.of_nat n + k := (pendingPlanes_ o).[win o i + Z.of_nat n + k]] in
       storage.[win o i + 2 * Z.of_nat n + k := (pendingPlanes_ o).[win o i + 2 * Z.of_nat n + k]])) as (L & Hin & Hout);
    [exact W2 | lia | reflexivity |].
  split; [exact L|]. split; [|exact Hout]. intros x Hx.
  destruct (Z_lt_le_dec x (win o i + Z.of_nat n)).
  { replace x with (win o i + (x - win o i)) by lia. apply Hin. lia. }
  destruct (Z_lt_le_dec x (win o i + 2 * Z.of_nat n)).
  { replace x with (win o i + Z.of_nat n + (x - win o i - Z.of_nat n)) by lia. apply Hin. lia. }
  replace x with (win o i + 2 * Z.of_nat n + (x - win o i - 2 * Z.of_nat n)) by lia. apply Hin. lia.
Qed.

Lemma commit_slot_inv k o' :
  Z.of_nat k < nslots o -> commit_inv k o' -> commit_inv (S k) (Obs.commit_slot E (Z.of_nat k) o').
Proof.
  intros Hk [(C1 & C2 & C3 & C4 & C5 & C6) Hcl [Hsl Hs] Hev Hcp].
  assert (Ek : (slots_ o').[Z.of_nat k] = (slots_ o).[Z.of_nat k])
    by (rewrite Hs by lia; replace (Z.of_nat k <? Z.of_nat k) with false by lia; reflexivity).
  remember (Z.of_nat k) as i eqn:Hi. set (v := s_value (slots_ o).[i]).
  set (act := Obs.slot_active (slots_ o).[i] E).
  set (room := Z.of_nat (length (kept k)) <? eventCapacity_ o).
  assert (Hroom : (Z.of_nat (length (events_ o')) <? eventCapacity_ o') = room)
    by (rewrite Hev, C2, length_fmap; reflexivity).
  assert (Hsl' : forall committed events gauges,
    let r := mkObservations (configured_ o') (eventCapacity_ o') (payloadOffsets_ o') (pendingPlanes_ o') committed
      (descriptors_ o') ((slots_ o').[i := slot_default]) (gaugeIndexBySlot_ o') events gauges in
    length committed = length (committedPlanes_ o) -> events = published <$> kept (S k) ->
    (forall j, j ∈ kept (S k) -> copied committed j) -> commit_inv (S k) r).
  { intros committed events gauges r Hc He Hcp'. constructor; cbn [r configured_ eventCapacity_ payloadOffsets_ pendingPlanes_ descriptors_ gaugeIndexBySlot_ committedPlanes_ slots_ events_];
      [tauto | exact Hc | | exact He | exact Hcp'].
    rewrite length_insert. split; [exact Hsl|]. intros j Hj. unfold nslots in *.
      rewrite array_get_set, Hs by lia. destruct (Z.eqb_spec j i); [rewrite (proj2 (Z.ltb_lt j (Z.of_nat (S k)))) by lia; reflexivity|].
      destruct (Z.ltb_spec j i), (Z.ltb_spec j (Z.of_nat (S k))); (reflexivity || lia). }
  unfold Obs.commit_slot. rewrite Ek. fold v act. rewrite C5 in Hsl' |- *. rewrite Hroom. pose proof (kept_S k) as HkS. rewrite <- Hi in HkS. fold room in HkS.
  destruct act eqn:Ea; [|apply Hsl'; [exact Hcl | |]; rewrite HkS, decide_False by (unfold is_event; fold act; rewrite Ea; intros [H _]; discriminate); assumption].
  destruct (bool_decide (d_kind (descriptors_ o).[i] = Event)) eqn:Ed.
  2:{ apply bool_decide_eq_false in Ed. apply Hsl'; [exact Hcl | |]; rewrite HkS, decide_False by (intros [_ H]; contradiction); assumption. }
  apply bool_decide_eq_true in Ed. rewrite decide_True in HkS by (split; assumption).
  destruct room; [|apply Hsl'; [exact Hcl | |]; rewrite HkS; assumption].
  assert (Hpub : events_ o' ++ [published i] = published <$> kept (S k)) by (rewrite HkS, fmap_app, Hev; reflexivity).
  destruct (bool_decide (sv_kind v = KBits4)) eqn:Eb.
  - apply bool_decide_eq_true in Eb. rewrite C4.
    assert (Eoff : Obs.slot_offset o' i = win o i) by (unfold win, Obs.slot_offset; rewrite C3; reflexivity). rewrite Eoff.
    destruct (copy_committed_spec i (committedPlanes_ o') ltac:(unfold nslots in *; lia) Eb Hcl) as (L & Hin & Hout). fold v in L, Hin, Hout.
    rewrite C4 in Hsl'. apply Hsl'; [congruence | |].
    + rewrite <- Hpub. unfold published. fold v. rewrite bool_decide_eq_true_2 by exact Eb.
      do 3 f_equal. unfold Obs.planeView, Obs.slot_words, Obs.slot_offset. rewrite C3. reflexivity.
    + intros j Hj. rewrite HkS in Hj. apply elem_of_app in Hj as [Hj|Hj].
      * intros Hjb x Hx. pose proof (kept_lt k j Hj) as Hlt. rewrite Hout; [apply (Hcp j Hj Hjb), Hx | |].
        -- destruct (window_range o Hinv j) as (_ & ? & _); [lia | lia].
        -- left. pose proof (window_disjoint o Hinv j i ltac:(lia) ltac:(lia) ltac:(lia)). lia.
      * apply list_elem_of_singleton in Hj as ->. intros _. exact Hin.
  - apply Hsl'; [exact Hcl | |].
    + rewrite <- Hpub. unfold published. fold v. rewrite Eb. reflexivity.
    + intros j Hj. rewrite HkS in Hj. apply elem_of_app in Hj as [Hj|Hj]; [apply Hcp, Hj|].
      apply list_elem_of_singleton in Hj as ->. intros Hb. apply bool_decide_eq_false in Eb. contradiction.
Qed.

Lemma Xfer_inv : commit_inv (length (slots_ o)) (Obs.Xfer E o).
Proof.
  unfold Obs.Xfer.
  pose proof (for_range_inv (fun k o' => commit_inv (Z.to_nat k) o') (length (slots_ o)) 0
    (Obs.commit_slot E) (Obs.clear_events o)) as H.
  rewrite Z.add_0_l, Nat2Z.id in H. apply H; clear H.
  - constructor; cbn [Obs.clear_events configured_ eventCapacity_ payloadOffsets_ pendingPlanes_ committedPlanes_ descriptors_ slots_ gaugeIndexBySlot_ events_]; auto 10.
    + split; [reflexivity|]. intros i Hi. change (Z.of_nat (Z.to_nat 0)) with 0.
      destruct (Z.ltb_spec i 0); [lia | reflexivity].
    + rewrite kept_0. reflexivity.
    + intros i Hi. rewrite kept_0 in Hi. apply elem_of_nil in Hi. contradiction.
  - intros k t Hk Ht. replace (Z.to_nat (k + 1)) with (S (Z.to_nat k)) by lia.
    replace (Obs.commit_slot E k t) with (Obs.commit_slot E (Z.of_nat (Z.to_nat k)) t) by (f_equal; lia).
    apply commit_slot_inv; [unfold nslots; lia | exact Ht].
Qed.
End Commit.

(** ** An accepted commit loses no event *)

Section Precommit.
Context o (Hinv : obs_inv o) (ep : Z) (Hep : 0 <= ep < u64_max).
#[local] Abbreviation E := (ep + 1).
#[local] Existing Instance is_event_dec.

Definition span_events (a : Z) (n : nat) : nat :=
  length (filter (is_event o E) ((fun k => a + Z.of_nat k) <$> seq 0 n)).

Lemma span_events_le a n : (span_events a n <= n)%nat.
Proof. unfold span_events. etransitivity; [apply length_filter|]. rewrite length_fmap, length_seq. lia. Qed.

Lemma span_events_0 a n : (forall i, a <= i < a + Z.of_nat n -> ~ is_event o E i) -> span_events a n = 0%nat.
Proof.
  intros H. unfold span_events. induction n as [|n IH]; [reflexivity|].
  rewrite seq_S, fmap_app, list.filter_app, length_app, IH by (intros i Hi; apply H; lia).
  cbn [fmap list_fmap plus]. rewrite filter_cons_False by (apply H; lia). reflexivity.
Qed.

Lemma actives_span k : length (actives o E k) = span_events 0 k.
Proof. reflexivity. Qed.

Lemma span_events_app n m : span_events 0 (n + m) = (span_events 0 n + span_events (Z.of_nat n) m)%nat.
Proof.
  unfold span_events. rewrite List.seq_app, fmap_app, list.filter_app, length_app.
  replace ((fun k => 0 + Z.of_nat k) <$> seq (0 + n) m) with ((fun k => Z.of_nat n + Z.of_nat k) <$> seq 0 m);
    [reflexivity|].
  symmetry. change (0 + n)%nat with n. rewrite <- (Nat.add_0_r n) at 1.
  rewrite <- (fmap_add_seq n 0 m), <- list_fmap_compose. apply list_fmap_ext. intros i x Hx. cbn. lia.
Qed.

Lemma inactive_slot i :
  s_pending (slots_ o).[i] = false \/ s_valid (slots_ o).[i] = false \/ s_path (slots_ o).[i] = false ->
  ~ is_event o E i.
Proof.
  intros H [Ha _]. unfold Obs.slot_active in Ha. destruct H as [H|[H|H]]; rewrite H in Ha;
    rewrite ?andb_false_r in Ha; discriminate.
Qed.

(** One accepted group: the counter covers the group's active events. *)
Lemma group_sound begin additions additions' :
  0 <= begin -> 0 <= groupSize (descriptors_ o).[begin] -> additions <= eventCapacity_ o ->
  all_range (Z.to_nat (groupSize (descriptors_ o).[begin])) 0
    (Obs.group_member_ok (descriptors_ o) begin (groupSize (descriptors_ o).[begin])) = true ->
  Obs.check_group o (Some ep) begin additions = Some additions' ->
  additions + Z.of_nat (span_events begin (Z.to_nat (groupSize (descriptors_ o).[begin]))) <= additions' <=
    eventCapacity_ o.
Proof.
  intros Hb Hg Hcap Hmem. unfold Obs.check_group. set (d := (descriptors_ o).[begin]) in *.
  set (n := Z.to_nat (groupSize d)) in *.
  assert (Hzero : (forall i, begin <= i < begin + Z.of_nat n -> ~ is_event o E i) ->
    Some additions = Some additions' -> additions + Z.of_nat (span_events begin n) <= additions' <= eventCapacity_ o).
  { intros H [= <-]. rewrite (span_events_0 begin n H). lia. }
  destruct (all_range n begin (fun i => negb (s_pending (slots_ o).[i]))) eqn:Ep; cbn [negb].
  { apply Hzero. intros i Hi. apply inactive_slot. left. rewrite all_range_true in Ep.
    specialize (Ep i Hi). destruct (s_pending (slots_ o).[i]); [discriminate | reflexivity]. }
  destruct (all_range n begin (fun i => s_pending (slots_ o).[i])); cbn [negb]; [|discriminate].
  match goal with |- context [negb (all_range n begin ?f)] => destruct (all_range n begin f) eqn:Epath end;
    cbn [negb]; [|discriminate].
  rewrite all_range_true in Epath.
  destruct (s_path (slots_ o).[begin]) eqn:Efp; cbn [negb].
  2:{ apply Hzero. intros i Hi. apply inactive_slot. right; right. specialize (Epath i Hi).
      destruct (s_path (slots_ o).[i]); [|reflexivity]. rewrite orb_true_r in Epath. discriminate. }
  match goal with |- context [negb (all_range n begin ?f)] => destruct (all_range n begin f) eqn:Evalid end;
    cbn [negb]; [|discriminate].
  rewrite all_range_true in Evalid.
  destruct (s_valid (slots_ o).[begin]) eqn:Efv; cbn [negb].
  2:{ apply Hzero. intros i Hi. apply inactive_slot. right; left. specialize (Evalid i Hi).
      destruct (s_valid (slots_ o).[i]); [discriminate | reflexivity]. }
  match goal with |- for_range n begin ?f ?s = _ -> _ =>
    pose proof (for_range_inv (fun k acc => match acc with
      | None => True
      | Some a => a = additions + (if bool_decide (d_kind d = Gauge) then 0 else k - begin) /\ a <= eventCapacity_ o
      end) n begin f s) as H; destruct (for_range n begin f s) as [a|] end; [|discriminate].
  intros [= <-]. destruct H as [Ha Hle].
  - split; [destruct (bool_decide _); lia | exact Hcap].
  - intros k [t|] Hk Ht; [|exact I].
    destruct (bool_decide (d_kind d = Gauge)).
    + destruct (_ || _); [exact I | exact Ht].
    + destruct (_ && _); [exact I|]. destruct (Z.eqb_spec t (eventCapacity_ o)); [exact I | lia].
  - destruct (bool_decide (d_kind d = Gauge)) eqn:Eg.
    + rewrite span_events_0; [lia|]. intros i Hi [_ Hk]. apply bool_decide_eq_true in Eg.
      rewrite all_range_true in Hmem. specialize (Hmem (i - begin) ltac:(lia)). unfold Obs.group_member_ok in Hmem.
      replace (begin + (i - begin)) with i in Hmem by lia. fold d in Hmem. rewrite Hk, Eg in Hmem.
      rewrite (bool_decide_eq_false_2 (Event = Gauge)) in Hmem by discriminate.
      rewrite !orb_true_r in Hmem. discriminate.
    + pose proof (span_events_le begin n). lia.
Qed.

Lemma groups_sound fuel : forall begin additions,
  0 <= begin -> nslots o - begin <= Z.of_nat fuel ->
  Obs.check_groups_from fuel (descriptors_ o) begin = true ->
  Obs.check_from fuel o (Some ep) begin additions = true ->
  Z.of_nat (span_events 0 (Z.to_nat begin)) <= additions <= eventCapacity_ o ->
  begin <= nslots o ->
  Z.of_nat (span_events 0 (length (slots_ o))) <= eventCapacity_ o.
Proof.
  assert (Hdone : forall begin additions, nslots o <= begin <= nslots o ->
    Z.of_nat (span_events 0 (Z.to_nat begin)) <= additions <= eventCapacity_ o ->
    Z.of_nat (span_events 0 (length (slots_ o))) <= eventCapacity_ o).
  { intros begin additions Hb H. replace (length (slots_ o)) with (Z.to_nat begin) by (unfold nslots in Hb; lia). lia. }
  induction fuel as [|fuel IH]; intros begin additions Hb Hf Hg Hc Ha Hle;
    [apply (Hdone begin additions); [lia | exact Ha]|].
  cbn [Obs.check_groups_from Obs.check_from] in Hg, Hc. rewrite (oi_descriptors _ Hinv) in Hg.
  fold (nslots o) in Hg, Hc. destruct (Z.ltb_spec begin (nslots o)) as [Hlt|];
    [|apply (Hdone begin additions); [lia | exact Ha]].
  assert (Hsz : 0 <= groupSize (descriptors_ o).[begin]).
  { apply (Forall_at descriptor_wf (descriptors_ o)); [apply Hinv|]. rewrite (oi_descriptors _ Hinv). unfold nslots in Hlt. lia. }
  set (size := groupSize (descriptors_ o).[begin]) in *.
  destruct (negb (groupIndex _ =? 0) || (size =? 0) || (nslots o - begin <? size) || _) eqn:Eg; [discriminate|].
  apply orb_false_elim in Eg as [Eg _]. apply orb_false_elim in Eg as [Eg E3]. apply orb_false_elim in Eg as [_ E2].
  apply Z.eqb_neq in E2. apply Z.ltb_ge in E3.
  destruct (all_range _ 0 _) eqn:Hmem in Hg; [|discriminate].
  destruct (Obs.check_group o (Some ep) begin additions) as [a'|] eqn:Ec; [|discriminate].
  destruct (group_sound begin additions a' Hb Hsz ltac:(lia) Hmem Ec) as [Hs1 Hs2]. fold size in Hs1.
  apply (IH (begin + size) a'); [lia | lia | exact Hg | exact Hc | | lia].
  replace (Z.to_nat (begin + size)) with (Z.to_nat begin + Z.to_nat size)%nat by lia.
  rewrite span_events_app, Z2Nat.id by lia. lia.
Qed.

Lemma Precommit_capacity :
  Obs.Precommit ep o = true -> Z.of_nat (length (actives o E (length (slots_ o)))) <= eventCapacity_ o.
Proof.
  unfold Obs.Precommit, Obs.checkGroups. rewrite (oi_configured _ Hinv). cbn [negb]. intros Hc.
  rewrite actives_span. pose proof (oi_groups _ Hinv) as Hg. rewrite (oi_descriptors _ Hinv) in Hg.
  apply (groups_sound (length (slots_ o)) 0 0); [lia | unfold nslots; lia | exact Hg | exact Hc | | unfold nslots; lia].
  change (span_events 0 (Z.to_nat 0)) with 0%nat. pose proof (oi_capacity _ Hinv). lia.
Qed.
End Precommit.


(** The level a slot value carries at bit [b]. *)
Definition slot_lane (pending committed : list Z) (v : SlotValue) (b : Z) : V4 :=
  match sv_kind v with
  | KBits4 =>
    if Z.testbit (span_at pending committed (knownWords v) (b / 64)) (b mod 64)
    then (if Z.testbit (span_at pending committed (valueWords v) (b / 64)) (b mod 64) then V1 else V0)
    else if Z.testbit (span_at pending committed (zWords v) (b / 64)) (b mod 64) then VZ else VX
  | _ => if Z.testbit (sv_bits v) b then V1 else V0
  end.

Lemma fully_known_lane {W} `{HW : PosWidth W} (v : FourState W) b :
  fs_wf v -> FS.isFullyKnown v = true -> 0 <= b < W ->
  lane v b = if Z.testbit (bval (value_ v)) b then V1 else V0.
Proof.
  intros Hv Hk Hb. pose proof (proj1 (isFullyKnown_spec v Hv) Hk b Hb) as H. revert H. unfold lane.
  destruct (Z.testbit (bval (knownMask_ v)) b); [reflexivity|].
  destruct (Z.testbit (bval (zMask_ v)) b); discriminate.
Qed.

Lemma actives_elem o E n i : is_event o E i -> 0 <= i < Z.of_nat n -> i ∈ actives o E n.
Proof.
  intros He Hi. apply list_elem_of_filter. split; [exact He|]. apply list_elem_of_fmap.
  exists (Z.to_nat i). split; [lia | apply elem_of_seq; lia].
Qed.

(** A published active slot of four-state kind shows the pending planes the
    slot viewed at the commit. *)
Lemma published_lane o E i b :
  obs_inv o -> i ∈ kept o E (length (slots_ o)) -> 0 <= b ->
  (sv_kind (s_value (slots_ o).[i]) = KBits4 -> b / 64 < wlen o i) ->
  slot_lane (pendingPlanes_ (Obs.Xfer E o)) (committedPlanes_ (Obs.Xfer E o)) (e_value (published o E i)) b =
  slot_lane (pendingPlanes_ o) (committedPlanes_ o) (s_value (slots_ o).[i]) b.
Proof.
  intros Hinv Hi Hb Hw. destruct (Xfer_inv o Hinv E) as [_ _ _ _ Hcp].
  pose proof (kept_lt _ _ _ _ Hi) as Hlt. specialize (Hcp i Hi). unfold copied in Hcp.
  unfold published. cbn [e_value]. set (v := s_value (slots_ o).[i]) in *.
  destruct (bool_decide_reflect (sv_kind v = KBits4)) as [Ek|Ek].
  2:{ unfold slot_lane. destruct (sv_kind v); congruence. }
  specialize (Hcp Ek). specialize (Hw Ek). pose proof (oi_views _ Hinv i Hlt Ek) as Hview. fold v in Hview.
  unfold slot_lane. rewrite Ek, Hview.
  cbn [Obs.planeView SlotVal.Bits4 sv_kind knownWords valueWords zWords span_at].
  change (Obs.slot_offset o i) with (win o i). change (Obs.slot_words o i) with (wlen o i).
  pose proof (Z.div_pos b 64 Hb ltac:(lia)). rewrite !Hcp by lia. reflexivity.
Qed.

(** A well-formed four-state value of the slot's width staged with
    [StagePacked] on a free event slot is accepted, and if the owner then
    passes [Precommit], the transfer publishes an event of that slot whose
    payload reads back, bit by bit, the four-state value staged. *)
Theorem staged_event_roundtrip o slot W `{HW : PosWidth W} (v : FourState W) ep :
  obs_inv o -> 0 <= slot < nslots o -> fs_wf v -> 0 <= ep < u64_max ->
  s_pending (slots_ o).[slot] = false -> payloadWidth (descriptors_ o).[slot] = W ->
  d_kind (descriptors_ o).[slot] = Event ->
  exists o1, Obs.StagePacked slot v false true true ep o = (true, o1) /\ obs_inv o1 /\
    (Obs.Precommit ep o1 = true ->
     let o2 := Obs.Xfer (ep + 1) o1 in
     exists e, e ∈ events_ o2 /\ epoch e = ep + 1 /\ e_descriptor e = (descriptors_ o).[slot] /\
       forall b, 0 <= b < W ->
         slot_lane (pendingPlanes_ o2) (committedPlanes_ o2) (e_value e) b = lane v b).
Proof.
  intros Hinv Hslot Hv Hep Hfree Hwidth Hkind. pose proof (W_pos (W:=W)) as HWp.
  destruct (StagePacked_spec o Hinv slot Hslot v false true true ep Hv Hfree Hwidth) as (planes & Eq & Hlen & _ & Hheld).
  eexists. split; [exact Eq|].
  set (s := mkSlot true (stored_as o slot v false) true true ep) in *.
  assert (Hinv1 : obs_inv (Obs.set_slot (Obs.with_pending o planes) slot s)).
  { apply obs_inv_stage; [exact Hinv | exact Hslot | exact Hlen|]. unfold s, stored_as. cbn [s_value].
    destruct (_ && _); [discriminate | intros _; reflexivity]. }
  split; [exact Hinv1|]. set (o1 := Obs.set_slot _ slot s) in *. intros Hp o2.
  assert (Es : (slots_ o1).[slot] = s) by (cbn; apply array_get_set_eq; unfold nslots in Hslot; lia).
  assert (Hev : is_event o1 (ep + 1) slot).
  { split; [|exact Hkind]. rewrite Es. unfold Obs.slot_active. cbn [s s_pending s_valid s_path evaluationEpoch].
    unfold u64_add. rewrite u64_id by (unfold is_u, u64_max in *; lia). unfold u64_max in Hep. cbn [andb].
    unfold u64_max. rewrite Z.eqb_refl. lia. }
  assert (Hkept : slot ∈ kept o1 (ep + 1) (length (slots_ o1))).
  { unfold kept. rewrite take_ge by (pose proof (Precommit_capacity o1 Hinv1 ep Hp); lia).
    apply actives_elem; [exact Hev|]. cbn. rewrite length_insert. exact Hslot. }
  exists (published o1 (ep + 1) slot). split; [|split; [reflexivity | split; [reflexivity|]]].
  { unfold o2. rewrite (ci_events _ _ _ _ (Xfer_inv o1 Hinv1 (ep + 1))). apply list_elem_of_fmap. eauto. }
  assert (Hwl : wlen o1 slot = kWords W).
  { change (wlen o1 slot) with (wlen o slot). unfold wlen. rewrite (slot_words_eq o Hinv slot Hslot), Hwidth.
    apply plane_words_kWords, HWp. }
  intros b Hb. unfold o2. rewrite published_lane; [| exact Hinv1 | exact Hkept | lia |].
  2:{ intros _. rewrite Hwl. unfold kWords, kWordBits.
      pose proof (Z.div_le_mono b (W - 1) 64 ltac:(lia) ltac:(lia)). lia. }
  rewrite Es. unfold s, stored_as. cbn [s_value].
  destruct ((W <=? 64) && FS.isFullyKnown v) eqn:Ef.
  - apply andb_prop in Ef as [Ew Ek]. rewrite (fully_known_lane v b Hv Ek Hb). unfold slot_lane, packed_scalar.
    cbn [SlotVal.Unsigned sv_kind sv_bits]. rewrite value_small by (wf || lia). reflexivity.
  - rewrite <- (plane_lane_spec planes (win o slot) v b Hv (Hheld eq_refl) Hb).
    unfold slot_lane, plane_lane. cbn [Obs.planeView SlotVal.Bits4 sv_kind knownWords valueWords zWords span_at].
    change (Obs.slot_words o slot) with (wlen o1 slot). rewrite Hwl. reflexivity.
Qed.

(** ** Configuration *)

Definition total_words (ds : list ObservationDescriptor) : Z :=
  foldr (fun d acc => plane_words (payloadWidth d) + acc) 0 ds.

Lemma total_words_nonneg ds : Forall descriptor_wf ds -> 0 <= total_words ds.
Proof.
  induction 1 as [|d ds [Hw _] _ IH]; cbn [total_words foldr]; [lia|].
  pose proof (plane_words_nonneg _ Hw). unfold total_words in IH. lia.
Qed.

Lemma count_payload_spec capacity ds : forall p total,
  Forall descriptor_wf ds -> 0 <= p <= capacity / 6 -> capacity / 6 < 2 ^ 63 ->
  Obs.count_payload capacity ds p = Some total -> total = p + total_words ds /\ total <= capacity / 6.
Proof.
  induction ds as [|d ds IH]; intros p total Hds Hp Hc; cbn [Obs.count_payload total_words foldr].
  - intros [= <-]. lia.
  - inversion Hds as [|? ? [Hw _] Hds']; subst. pose proof (plane_words_nonneg _ Hw) as Hpw.
    unfold u64_sub. rewrite u64_id by (unfold is_u; lia).
    destruct (Z.ltb_spec (capacity / 6 - p) (plane_words (payloadWidth d))) as [|Hle]; [discriminate|].
    unfold u64_add. rewrite u64_id by (unfold is_u; lia). intros H.
    apply IH in H; [|exact Hds' | lia | exact Hc]. unfold total_words in H. lia.
Qed.

Lemma payload_offsets_spec ds : forall back,
  Forall descriptor_wf ds -> 0 <= back -> back + total_words ds < 2 ^ 64 ->
  length (back :: Obs.payload_offsets back ds) = S (length ds) /\
  (forall i, 0 <= i < Z.of_nat (length ds) ->
     (back :: Obs.payload_offsets back ds).[i + 1] =
     (back :: Obs.payload_offsets back ds).[i] + plane_words (payloadWidth ds.[i])) /\
  (back :: Obs.payload_offsets back ds).[Z.of_nat (length ds)] = back + total_words ds.
Proof.
  induction ds as [|d ds IH]; intros back Hds Hb Ht; cbn [Obs.payload_offsets total_words foldr length].
  - split; [reflexivity|]. split; [lia|]. change (back = back + 0). lia.
  - inversion Hds as [|? ? [Hw _] Hds']; subst. pose proof (plane_words_nonneg _ Hw) as Hpw.
    cbn [total_words foldr] in Ht. fold (total_words ds) in Ht |- *. pose proof (total_words_nonneg ds Hds').
    unfold u64_add. rewrite u64_id by (unfold is_u; lia).
    destruct (IH (back + plane_words (payloadWidth d)) Hds' ltac:(lia) ltac:(lia)) as (L & Hstep & Hlast).
    split; [cbn [length] in *; lia|]. split.
    + intros i Hi. destruct (Z.eq_dec i 0) as [->|]; [reflexivity|].
      specialize (Hstep (i - 1) ltac:(lia)).
      replace (Z.to_nat (i + 1)) with (S (Z.to_nat (i - 1 + 1))) by lia.
      replace (Z.to_nat i) with (S (Z.to_nat (i - 1))) by lia. exact Hstep.
    + replace (Z.to_nat (Z.of_nat (S (length ds)))) with (S (Z.to_nat (Z.of_nat (length ds)))) by lia.
      etransitivity; [exact Hlast | lia].
Qed.

Lemma build_gauges_length ds : length (fst (Obs.build_gauges ds)) = length ds.
Proof.
  unfold Obs.build_gauges.
  apply (for_range_inv (fun _ r => length (fst r) = length ds)).
  - apply length_replicate.
  - intros k [idx gs] _ H. cbn [fst] in *. destruct (bool_decide _); cbn [fst]; [rewrite length_insert|]; exact H.
Qed.

Lemma Configure_inv max_size ds cap o :
  Forall descriptor_wf ds -> 0 <= cap -> 0 <= max_size ->
  Obs.Configure max_size ds cap Obs.construct = (true, o) ->
  obs_inv o /\ descriptors_ o = ds /\ eventCapacity_ o = cap.
Proof.
  intros Hds Hcap Hmax. unfold Obs.Configure. cbn [Obs.construct configured_].
  destruct (Obs.check_order ds) eqn:Eo; cbn [negb]; [|discriminate].
  destruct (Obs.check_groups_from (length ds) ds 0) eqn:Eg; cbn [negb]; [|discriminate].
  set (capacity := Z.min max_size ((2 ^ 63 - 1) / 8)).
  assert (Hc : 0 <= capacity / 6 < 2 ^ 61).
  { change ((2 ^ 63 - 1) / 8) with 1152921504606846975 in capacity.
    split; [apply Z.div_pos; lia | apply Z.div_lt_upper_bound; lia]. }
  destruct (Obs.count_payload capacity ds 0) as [total|] eqn:Ec; [|discriminate].
  apply count_payload_spec in Ec as [-> Ht]; [| exact Hds | lia | lia].
  rewrite Z.add_0_l in *. pose proof (total_words_nonneg ds Hds) as Hpos.
  destruct (payload_offsets_spec ds 0 Hds ltac:(lia) ltac:(lia)) as (L & Hstep & Hlast).
  pose proof (build_gauges_length ds) as Hgl. destruct (Obs.build_gauges ds) as [idx gs]. cbn [fst] in Hgl.
  intros [= <-]. split; [|split; reflexivity].
  constructor; unfold nslots; cbn [configured_ descriptors_ slots_ gaugeIndexBySlot_ payloadOffsets_ pendingPlanes_ committedPlanes_ eventCapacity_];
    rewrite ?length_replicate; try assumption; try reflexivity; try (rewrite Hlast; lia).
  intros i Hi. unfold slot_view_ok. cbn [slots_].
  rewrite lookup_total_replicate_2 by lia. discriminate.
Qed.

Lemma Configure_rejects max_size ds cap o :
  fst (Obs.Configure max_size ds cap o) = false -> snd (Obs.Configure max_size ds cap o) = o.
Proof.
  unfold Obs.Configure. destruct (configured_ o); [reflexivity|].
  destruct (negb _); [reflexivity|]. destruct (negb _); [reflexivity|].
  destruct (Obs.count_payload _ _ _); [|reflexivity]. destruct (Obs.build_gauges ds). discriminate.
Qed.

(** A successful [Configure] of a fresh owner establishes the invariant
    the other operations rely on: plane windows of the declared widths laid
    out back to back without overflow inside both plane arrays, complete
    groups, free slots.  A rejected one changes nothing, and a configured
    owner cannot be configured again. *)
Theorem configure_establishes_inv max_size ds cap :
  Forall descriptor_wf ds -> 0 <= cap -> 0 <= max_size ->
  let '(ok, o) := Obs.Configure max_size ds cap Obs.construct in
  if ok
  then obs_inv o /\ descriptors_ o = ds /\ eventCapacity_ o = cap /\
       forall max_size' ds' cap', Obs.Configure max_size' ds' cap' o = (false, o)
  else o = Obs.construct.
Proof.
  intros Hds Hcap Hmax. pose proof (Configure_inv max_size ds cap) as H.
  pose proof (Configure_rejects max_size ds cap Obs.construct) as Hr.
  destruct (Obs.Configure max_size ds cap Obs.construct) as [[] o]; [|apply Hr; reflexivity].
  destruct (H o Hds Hcap Hmax eq_refl) as (H1 & H2 & H3). repeat (split; [assumption|]).
  intros. unfold Obs.Configure. rewrite (oi_configured _ H1). reflexivity.
Qed.

(** ** A concrete owner *)

Module ObservationsWitness.
(** Two events of one group, the second wider than a word, and a gauge. *)
Definition ds : list ObservationDescriptor :=
  [mkDescriptor 0 1 1 1 Event 0 2 4; mkDescriptor 1 1 1 1 Event 1 2 70; mkDescriptor 2 1 1 2 Gauge 0 1 8].
Definition owner : ObservationSlots := snd (Obs.Configure (2 ^ 60) ds 4 Obs.construct).

Lemma ds_wf : Forall descriptor_wf ds.
Proof. repeat constructor; cbn; lia. Qed.

Lemma configure_establishes_inv_witness :
  Forall descriptor_wf ds /\ obs_inv owner.
Proof.
  split; [exact ds_wf|].
  exact (proj1 (configure_establishes_inv (2 ^ 60) ds 4 ds_wf ltac:(lia) ltac:(lia))).
Defined.

Lemma owner_inv : obs_inv owner.
Proof. apply (Configure_inv (2 ^ 60) ds 4); [exact ds_wf | lia | lia | vm_compute; reflexivity]. Qed.

(** Known, Z and X bits on both sides of the word boundary. *)
Definition wide : FourState 70 :=
  mkFS (bits_of_list 70 [5; 2]) (bits_of_list 70 [7; 6]) (bits_of_list 70 [8; 1]).

Lemma wide_wf : fs_wf wide.
Proof. apply fs_wfb_sound. vm_compute. reflexivity. Qed.

Lemma staged_event_roundtrip_witness :
  exists o1, Obs.StagePacked 1 wide false true true 7 owner = (true, o1) /\ obs_inv o1.
Proof.
  destruct (staged_event_roundtrip owner 1 70 wide 7 owner_inv) as (o1 & E & Hi & _);
    [vm_compute; split; [discriminate | reflexivity] | exact wide_wf | unfold u64_max; lia |
     vm_compute; reflexivity | vm_compute; reflexivity | vm_compute; reflexivity |].
  exact (ex_intro _ o1 (conj E Hi)).
Defined.

Definition staged : ObservationSlots :=
  snd (Obs.Stage 0 (SlotVal.Unsigned 5) true true 7
         (snd (Obs.StagePacked 1 wide false true true 7 owner))).

Lemma staged_inv : obs_inv staged.
Proof.
  destruct (StagePacked_spec owner owner_inv 1 ltac:(vm_compute; split; [discriminate | reflexivity]) wide
    false true true 7 wide_wf eq_refl eq_refl) as (planes & Eq & Hlen & _ & _).
  assert (Hi : obs_inv (snd (Obs.StagePacked 1 wide false true true 7 owner))).
  { rewrite Eq. apply obs_inv_stage; [exact owner_inv | vm_compute; split; [discriminate | reflexivity] | exact Hlen|].
    intros _. vm_compute. reflexivity. }
  exact (obs_inv_stage _ Hi 0 ltac:(vm_compute; split; [discriminate | reflexivity]) _
    (mkSlot true (SlotVal.Unsigned 5) true true 7) eq_refl ltac:(discriminate)).
Qed.

End ObservationsWitness.
