(* ===== verification/SimSystem.v ===== *)
(** * The system: [include/gfsim/SimObj.h], [SimModule.h] and [SimSystem.h]

    A system owns a list of root modules, an optional observation owner and a
    lifecycle state.  Modules are virtual objects in a shared heap [H]: a
    module is an identity [M] and its callbacks act on the heap, so that
    aliasing between roots, nested children and the observation owner is
    whatever the heap says.  The callbacks declared [noexcept] are total
    functions, the others may throw. *)

From Stdlib Require Import ZArith Lia String.
From stdpp Require Import base list numbers strings.
From S2P Require Import Prelude Kernel Observations.

(** [SimObj]: the lifecycle of a module. *)
Class SimObj (H M : Type) := {
  m_Build : M -> ST H unit;
  m_Work : M -> ST H unit;
  m_Xfer : M -> H -> H;
  m_DiscardNext : M -> H -> H;
  m_Reset : M -> H -> H;
  m_ReportStat : M -> ST H unit;
  m_HasWork : M -> H -> bool;
}.

(** [SimModule]: the concrete empty module. *)
Definition SimModule (H : Type) : SimObj H unit := {|
  m_Build _ := st_ret tt;
  m_Work _ := st_ret tt;
  m_Xfer _ h := h;
  m_DiscardNext _ h := h;
  m_Reset _ h := h;
  m_ReportStat _ := st_ret tt;
  m_HasWork _ _ := false;
|}.

Inductive SimSystemState := PreBuild | Built | Ready | Failed.
#[export] Instance SimSystemState_eq_dec : EqDecision SimSystemState.
Proof. solve_decision. Defined.

Inductive SimStepResult := StepInvalidState | StepRunning | StepQuiescent | StepFailed.
#[export] Instance SimStepResult_eq_dec : EqDecision SimStepResult.
Proof. solve_decision. Defined.

Inductive SimFailurePhase := PhaseNone | PhaseBuild | PhaseEvaluate | PhaseCheck | PhaseDrive | PhaseXfer.

Record SimFailureInfo := mkFailure {
  phase : SimFailurePhase;
  code : list Z;
  message : list Z;
  instance : list Z;
  sourceJson : list Z;
  checkIdJson : list Z;
}.
Definition no_failure : SimFailureInfo := mkFailure PhaseNone [] [] [] [] [].

(** The default [DescribeFailure]. *)
Definition DescribeFailure_default (phase : SimFailurePhase) : SimFailureInfo :=
  match phase with
  | PhaseBuild => mkFailure phase (lit "runtime_failure") (lit "model Build failed") [] [] []
  | PhaseEvaluate => mkFailure phase (lit "runtime_failure") (lit "model evaluation failed") [] [] []
  | PhaseCheck => mkFailure phase (lit "runtime_failure") (lit "model check failed") [] [] []
  | PhaseDrive => mkFailure phase (lit "runtime_failure") (lit "model drive failed") [] [] []
  | PhaseXfer => mkFailure phase (lit "runtime_failure") (lit "model transfer failed") [] [] []
  | PhaseNone => no_failure
  end.

(** The virtual hooks of a derived system, and the observation owners [O] of
    the heap. *)
Class SystemHooks (H O : Type) := {
  FinalizeBuild : H -> bool * H;
  Precheck : H -> bool * H;
  DescribeFailure : SimFailurePhase -> H -> SimFailureInfo;
  obs_at : O -> H -> ObservationSlots;
  obs_set : O -> ObservationSlots -> H -> H;
}.

(** [for (SimModule *module : roots_) module->f();] *)
Fixpoint st_each {S A} (f : A -> ST S unit) (l : list A) : ST S unit :=
  match l with
  | [] => st_ret tt
  | x :: l' => do_ f x ;; st_each f l'
  end.
Definition each {S A} (f : A -> S -> S) (l : list A) (s : S) : S := foldl (fun s x => f x s) s l.

Record SimSystem (M O : Type) := mkSystem {
  roots_ : list M;
  observations_ : option O;
  state_ : SimSystemState;
  cycle_ : Z;
  buildCompleted_ : bool;
  failureInfo_ : SimFailureInfo;
}.
Arguments mkSystem {M O} _ _ _ _ _ _.
Arguments roots_ {M O} _.
Arguments observations_ {M O} _.
Arguments state_ {M O} _.
Arguments cycle_ {M O} _.
Arguments buildCompleted_ {M O} _.
Arguments failureInfo_ {M O} _.

Module Sys.
Section System.
Context {H M O : Type} `{HM : SimObj H M} `{HS : SystemHooks H O} `{EM : EqDecision M} `{EO : EqDecision O}.
Implicit Types (sys : SimSystem M O) (h : H).

Definition construct : SimSystem M O := mkSystem [] None PreBuild 0 false no_failure.

Definition set_state sys st : SimSystem M O :=
  mkSystem (roots_ sys) (observations_ sys) st (cycle_ sys) (buildCompleted_ sys) (failureInfo_ sys).
Definition set_failure sys f : SimSystem M O :=
  mkSystem (roots_ sys) (observations_ sys) (state_ sys) (cycle_ sys) (buildCompleted_ sys) f.

Definition AttachObservations (o : O) sys : bool * SimSystem M O :=
  if negb (bool_decide (state_ sys = PreBuild)) || bool_decide (is_Some (observations_ sys))
  then (false, sys)
  else (true, mkSystem (roots_ sys) (Some o) (state_ sys) (cycle_ sys) (buildCompleted_ sys) (failureInfo_ sys)).

Definition HasObservations (o : O) sys : bool := bool_decide (observations_ sys = Some o).

Definition AddModule (m : M) sys : bool * SimSystem M O :=
  if negb (bool_decide (state_ sys = PreBuild)) || bool_decide (m ∈ roots_ sys)
  then (false, sys)
  else (true, mkSystem (roots_ sys ++ [m]) (observations_ sys) (state_ sys) (cycle_ sys)
                (buildCompleted_ sys) (failureInfo_ sys)).

Definition on_obs (f : ObservationSlots -> ObservationSlots) sys h : H :=
  match observations_ sys with
  | Some o => obs_set o (f (obs_at o h)) h
  | None => h
  end.

Definition discardAll sys h : H := on_obs Obs.DiscardNext sys (each m_DiscardNext (roots_ sys) h).

Definition fail (phase : SimFailurePhase) sys h : SimSystem M O * H :=
  let h := discardAll sys h in
  (set_state (set_failure sys (DescribeFailure phase h)) Failed, h).

Definition Build : ST (SimSystem M O * H) unit := fun '(sys, h) =>
  if negb (bool_decide (state_ sys = PreBuild)) then (Ret tt, (sys, h))
  else
    match st_each m_Build (roots_ sys) h with
    | (Ret _, h) =>
      let '(finalized, h) := FinalizeBuild h in
      if negb finalized then (Ret tt, fail PhaseBuild sys h)
      else (Ret tt, (mkSystem (roots_ sys) (observations_ sys) Built (cycle_ sys) true (failureInfo_ sys), h))
    | (Throw _, h) => (Ret tt, fail PhaseBuild sys h)
    | (Terminate, h) => (Terminate, (sys, h))
    end.

(** The private [Xfer]. *)
Definition Xfer sys h : bool * (SimSystem M O * H) :=
  if bool_decide (state_ sys = Failed) then (false, (sys, discardAll sys h))
  else
    let '(accepted, h) := Precheck h in
    let accepted :=
      match observations_ sys with
      | Some o => accepted && Obs.Precommit (cycle_ sys) (obs_at o h)
      | None => accepted
      end in
    if negb accepted then
      let h := discardAll sys h in
      (false, (set_state (set_failure sys (DescribeFailure PhaseCheck h)) Failed, h))
    else
      let h := each m_Xfer (roots_ sys) h in
      let cycle := u64_add (cycle_ sys) 1 in
      let sys := mkSystem (roots_ sys) (observations_ sys) (state_ sys) cycle (buildCompleted_ sys)
                   (failureInfo_ sys) in
      (true, (sys, on_obs (Obs.Xfer cycle) sys h)).

Definition Step : ST (SimSystem M O * H) SimStepResult := fun '(sys, h) =>
  if bool_decide (state_ sys = Failed) then (Ret StepFailed, (sys, h))
  else if negb (bool_decide (state_ sys = Ready)) then (Ret StepInvalidState, (sys, h))
  else
    let hasWork := foldl (fun acc m => acc || m_HasWork m h) false (roots_ sys) in
    if negb hasWork then (Ret StepQuiescent, (sys, h))
    else if cycle_ sys =? u64_max then (Ret StepFailed, fail PhaseEvaluate sys h)
    else
      match st_each m_Work (roots_ sys) h with
      | (Terminate, h) => (Terminate, (sys, h))
      | (r, h) =>
        let sys :=
          match r with
          | Throw _ => set_state (set_failure sys (DescribeFailure PhaseEvaluate h)) Failed
          | _ => sys
          end in
        let '(ok, s) := Xfer sys h in
        (Ret (if ok then StepRunning else StepFailed), s)
      end.

Definition Reset sys h : SimSystem M O * H :=
  if negb (bool_decide (state_ sys = Built)) && negb (bool_decide (state_ sys = Ready)) &&
     negb (bool_decide (state_ sys = Failed) && buildCompleted_ sys)
  then (sys, h)
  else
    let h := discardAll sys h in
    let h := each m_Reset (roots_ sys) h in
    let h := each m_Xfer (roots_ sys) h in
    let h := on_obs Obs.Reset sys h in
    (mkSystem (roots_ sys) (observations_ sys) Ready 0 (buildCompleted_ sys) no_failure, h).

Definition ReportStat : ST (SimSystem M O * H) unit := fun '(sys, h) =>
  let '(r, h) := st_each m_ReportStat (roots_ sys) h in (r, (sys, h)).
End System.
End Sys.
