(* ===== verification/SimSystemSpec.v ===== *)
(** * Specification of the system

    The lifecycle as a transition relation with its invariant, the step as a
    transaction, and the two-phase contract of storage kernels discharged
    against the module interface. *)

From Stdlib Require Import ZArith Lia String.
From stdpp Require Import base list numbers strings.
From S2P Require Import Prelude Kernel Observations SimSystem.

(** What a committed observation owner shows. *)
Definition obs_view (o : ObservationSlots) : list CommittedEventSlot * list GaugeSnapshot * list Z :=
  (events_ o, gauges_ o, committedPlanes_ o).

(** The contract of a module: evaluation and discarding, the system checks
    included, leave the committed view of the heap alone, also when they
    throw; observation owners are separate cells of the heap. *)
Class SystemLaws (H M O : Type) `{HM : SimObj H M} `{HS : SystemHooks H O} := {
  view_t : Type;
  view : H -> view_t;
  work_view : forall m h, view (snd (m_Work m h)) = view h;
  discard_view : forall m h, view (m_DiscardNext m h) = view h;
  precheck_view : forall h, view (snd (Precheck h)) = view h;
  obs_set_view : forall o x h, view (obs_set o x h) = view h;
  obs_at_set : forall o x h, obs_at o (obs_set o x h) = x;
  work_obs : forall m o h, obs_view (obs_at o (snd (m_Work m h))) = obs_view (obs_at o h);
  discard_obs : forall m o h, obs_at o (m_DiscardNext m h) = obs_at o h;
  precheck_obs : forall o h, obs_at o (snd (Precheck h)) = obs_at o h;
}.

Section Loops.
Context {S A : Type}.

Lemma each_preserves {B} (p : S -> B) (f : A -> S -> S) l s :
  (forall x s, p (f x s) = p s) -> p (each f l s) = p s.
Proof.
  intros Hf. unfold each. revert s. induction l as [|x l IH]; intros s; [reflexivity|].
  cbn [foldl]. rewrite IH. apply Hf.
Qed.

Lemma st_each_preserves {B} (p : S -> B) (f : A -> ST S unit) l s :
  (forall x s, p (snd (f x s)) = p s) -> p (snd (st_each f l s)) = p s.
Proof.
  intros Hf. revert s. induction l as [|x l IH]; intros s; [reflexivity|].
  cbn [st_each]. unfold st_bind. specialize (Hf x s). destruct (f x s) as [[u|e|] s']; cbn [snd] in *;
    [rewrite IH|..]; exact Hf.
Qed.
End Loops.

Lemma has_work_exists {A} (p : A -> bool) l :
  foldl (fun acc m => acc || p m) false l = true -> exists m, m ∈ l /\ p m = true.
Proof.
  induction l as [|x l IH] using rev_ind; [discriminate|]. rewrite foldl_app. cbn [foldl].
  intros H. apply orb_prop in H as [H|H].
  - destruct (IH H) as (m & Hm & Hp). exists m. split; [apply elem_of_app; left; exact Hm | exact Hp].
  - exists x. split; [apply elem_of_app; right; apply list_elem_of_singleton; reflexivity | exact H].
Qed.

Section Steps.
Context {H M O : Type} `{HM : SimObj H M} `{HS : SystemHooks H O} `{EM : EqDecision M} `{EO : EqDecision O}.
Implicit Types (sys : SimSystem M O) (h : H).

(** ** The lifecycle *)

(** One public call. *)
Inductive call : SimSystem M O * H -> SimSystem M O * H -> Prop :=
| call_attach o sys h : call (sys, h) (snd (Sys.AttachObservations o sys), h)
| call_add m sys h : call (sys, h) (snd (Sys.AddModule m sys), h)
| call_build s s' : Sys.Build s = (Ret tt, s') -> call s s'
| call_step s s' r : Sys.Step s = (Ret r, s') -> call s s'
| call_reset sys h : call (sys, h) (Sys.Reset sys h)
| call_report s s' r : Sys.ReportStat s = (r, s') -> call s s'
(** whatever other code does to the heap between calls *)
| call_heap sys h h' : call (sys, h) (sys, h').

Inductive reachable : SimSystem M O * H -> Prop :=
| reach_init h : reachable (Sys.construct, h)
| reach_call s s' : reachable s -> call s s' -> reachable s'.

Record sys_inv sys : Prop := {
  si_roots : NoDup (roots_ sys);
  si_cycle : is_u 64 (cycle_ sys);
  si_built : state_ sys = Built \/ state_ sys = Ready -> buildCompleted_ sys = true;
  si_prebuild : state_ sys = PreBuild -> buildCompleted_ sys = false;
  si_fresh : state_ sys <> Ready -> state_ sys <> Failed -> cycle_ sys = 0 /\ failureInfo_ sys = no_failure;
  si_unbuilt : buildCompleted_ sys = false -> cycle_ sys = 0;
  si_ready : state_ sys = Ready -> failureInfo_ sys = no_failure;
}.

Lemma construct_inv : sys_inv Sys.construct.
Proof. constructor; cbn; try constructor; try (intros [|]); try discriminate; try reflexivity; lia. Qed.

Lemma fail_spec phase sys h :
  exists f, fst (Sys.fail phase sys h) =
    mkSystem (roots_ sys) (observations_ sys) Failed (cycle_ sys) (buildCompleted_ sys) f.
Proof. eexists. reflexivity. Qed.

Lemma failed_inv sys f :
  sys_inv sys ->
  sys_inv (mkSystem (roots_ sys) (observations_ sys) Failed (cycle_ sys) (buildCompleted_ sys) f).
Proof. intros []. constructor; cbn; intros; try assumption; try tauto; (intuition discriminate). Qed.

(** What the four outcomes of a step do to the system object. *)
Inductive step_effect sys : SimStepResult -> SimSystem M O -> Prop :=
| eff_failed_already : state_ sys = Failed -> step_effect sys StepFailed sys
| eff_invalid : state_ sys = PreBuild \/ state_ sys = Built -> step_effect sys StepInvalidState sys
| eff_quiescent : state_ sys = Ready -> step_effect sys StepQuiescent sys
| eff_failed f : state_ sys = Ready -> step_effect sys StepFailed
    (mkSystem (roots_ sys) (observations_ sys) Failed (cycle_ sys) (buildCompleted_ sys) f)
| eff_running : state_ sys = Ready -> cycle_ sys <> u64_max -> step_effect sys StepRunning
    (mkSystem (roots_ sys) (observations_ sys) Ready (u64_add (cycle_ sys) 1) (buildCompleted_ sys) (failureInfo_ sys)).

Lemma Step_effect sys h r sys' h' : Sys.Step (sys, h) = (Ret r, (sys', h')) -> step_effect sys r sys'.
Proof.
  unfold Sys.Step. destruct (bool_decide_reflect (state_ sys = Failed)) as [Ef|Ef].
  { intros [= <- <- _]. constructor. exact Ef. }
  destruct (bool_decide_reflect (state_ sys = Ready)) as [Er|Er]; cbn [negb].
  2:{ intros [= <- <- _]. constructor. destruct (state_ sys); auto; contradiction. }
  destruct (foldl _ _ _); cbn [negb]; [|intros [= <- <- _]; constructor; exact Er].
  destruct (Z.eqb_spec (cycle_ sys) u64_max) as [|Hc].
  { intros [= <- <- _]. exact (eff_failed sys _ Er). }
  destruct (st_each m_Work (roots_ sys) h) as [[u|e|] h1]; [| |discriminate].
  - unfold Sys.Xfer. rewrite bool_decide_eq_false_2 by exact Ef. destruct (Precheck h1) as [acc h2].
    destruct (negb _); intros [= <- <- _]; [exact (eff_failed sys _ Er)|]. rewrite Er.
    apply eff_running; assumption.
  - unfold Sys.Xfer. cbn [Sys.set_state state_]. rewrite bool_decide_eq_true_2 by reflexivity.
    intros [= <- <- _]. exact (eff_failed sys _ Er).
Qed.

Lemma step_effect_inv sys r sys' : sys_inv sys -> step_effect sys r sys' -> sys_inv sys'.
Proof.
  intros Hi Heff. destruct Heff as [| | |f Er|Er Hc]; try exact Hi; [apply failed_inv, Hi|].
  destruct Hi as [H1 H2 H3 H4 H5 H6 H7].
  assert (E : u64_add (cycle_ sys) 1 = cycle_ sys + 1).
  { unfold u64_add. apply u64_id. unfold is_u, u64_max in *. lia. }
  constructor; cbn; intros; try assumption; try discriminate; try tauto.
  - rewrite E. unfold is_u, u64_max in *. lia.
  - destruct (state_ sys); try discriminate; rewrite H3 in * by auto; discriminate.
Qed.

Lemma Build_inv sys h sys' h' :
  sys_inv sys -> Sys.Build (sys, h) = (Ret tt, (sys', h')) ->
  sys_inv sys' /\ roots_ sys' = roots_ sys /\
  (state_ sys <> PreBuild -> sys' = sys) /\ state_ sys' <> PreBuild.
Proof.
  intros Hi. unfold Sys.Build. destruct (bool_decide_reflect (state_ sys = PreBuild)) as [E|E]; cbn [negb].
  2:{ intros [= <- _]. auto. }
  assert (Hfail : forall h1, sys_inv (fst (Sys.fail PhaseBuild sys h1))) by (intros; apply (failed_inv sys _ Hi)).
  destruct (st_each m_Build (roots_ sys) h) as [[u|e|] h1]; [| |discriminate].
  - destruct (FinalizeBuild h1) as [fin h2]. destruct fin; cbn [negb]; intros [= <- _].
    + split; [|repeat split; (discriminate || contradiction)]. destruct Hi as [H1 H2 H3 H4 H5 H6 H7].
      constructor; cbn; intros; try assumption; try reflexivity; try discriminate.
      apply H5; rewrite E; discriminate.
    + split; [apply (Hfail h2)|]. repeat split; (discriminate || contradiction).
  - intros [= <- _]. split; [apply (Hfail h1)|]. repeat split; (discriminate || contradiction).
Qed.

Lemma Reset_inv sys h : sys_inv sys -> sys_inv (fst (Sys.Reset sys h)).
Proof.
  intros Hi. unfold Sys.Reset. destruct (_ && _) eqn:E; [exact Hi|].
  assert (Hb : buildCompleted_ sys = true).
  { destruct Hi as [_ _ H3 _ _ _ _]. destruct (state_ sys) eqn:Es; auto.
    - discriminate E.
    - destruct (buildCompleted_ sys); [reflexivity | discriminate E]. }
  destruct Hi. constructor; cbn; intros; try assumption; try discriminate; try tauto; try reflexivity.
  unfold is_u. lia.
Qed.

Lemma call_inv s s' : sys_inv (fst s) -> call s s' -> sys_inv (fst s').
Proof.
  intros Hi Hc. destruct Hc as [o sys h | m sys h | [sys h] [sys' h'] E | [sys h] [sys' h'] r E | sys h | [sys h] [sys' h'] r E | sys h h']; cbn [fst snd] in *.
  - unfold Sys.AttachObservations. destruct (_ || _); [exact Hi|]. destruct Hi. constructor; assumption.
  - unfold Sys.AddModule. destruct (_ || _) eqn:E; [exact Hi|]. apply orb_false_elim in E as [_ E].
    apply bool_decide_eq_false in E. destruct Hi. constructor; try assumption. cbn.
    apply NoDup_app. repeat split; [assumption | | apply NoDup_singleton].
    intros x Hx Hx'. apply list_elem_of_singleton in Hx' as ->. contradiction.
  - apply (Build_inv _ _ _ _ Hi E).
  - apply (step_effect_inv _ _ _ Hi (Step_effect _ _ _ _ _ E)).
  - apply Reset_inv, Hi.
  - unfold Sys.ReportStat in E. destruct (st_each m_ReportStat (roots_ sys) h). injection E as <- <- <-. exact Hi.
  - exact Hi.
Qed.
End Steps.


(** A failed build is final.  No public call brings a system whose build
    failed back: each leaves the system object as it is and a step reports
    the failure. *)
Theorem failed_build_is_final {H M O : Type} `{HM : SimObj H M} `{HS : SystemHooks H O} `{EM : EqDecision M}
    `{EO : EqDecision O} (sys : SimSystem M O) (h : H) s' :
  state_ sys = Failed -> buildCompleted_ sys = false -> call (sys, h) s' ->
  fst s' = sys /\ fst (Sys.Step s') = Ret StepFailed.
Proof.
  intros Ef Eb Hc.
  assert (E : fst s' = sys).
  { remember (sys, h) as s eqn:Es. destruct Hc as [o sys0 h0 | m sys0 h0 | s0 [sys' h'] E | s0 [sys' h'] r E | sys0 h0 | s0 [sys' h'] r E | sys0 h0 h'];
      first [injection Es as -> -> | subst s0]; cbn [fst snd].
    - unfold Sys.AttachObservations. rewrite bool_decide_eq_false_2 by congruence. reflexivity.
    - unfold Sys.AddModule. rewrite bool_decide_eq_false_2 by congruence. reflexivity.
    - unfold Sys.Build in E. rewrite bool_decide_eq_false_2 in E by congruence. injection E. congruence.
    - unfold Sys.Step in E. rewrite bool_decide_eq_true_2 in E by congruence. injection E. congruence.
    - unfold Sys.Reset. rewrite Ef, Eb. reflexivity.
    - unfold Sys.ReportStat in E. destruct (st_each m_ReportStat (roots_ sys) h). injection E. congruence.
    - reflexivity. }
  split; [exact E|]. destruct s' as [sys' h']. cbn [fst] in E. subst sys'. unfold Sys.Step.
  rewrite bool_decide_eq_true_2 by exact Ef. reflexivity.
Qed.

(** ** The step as a transaction *)

Section Transaction.
Context {H M O : Type} `{HL : SystemLaws H M O} `{EM : EqDecision M} `{EO : EqDecision O}.
Implicit Types (sys : SimSystem M O) (h : H).

Definition attached_view sys h :=
  match observations_ sys with Some o => Some (obs_view (obs_at o h)) | None => None end.

Lemma discardAll_view sys h : view (Sys.discardAll sys h) = view h.
Proof.
  unfold Sys.discardAll, Sys.on_obs.
  assert (E : view (each m_DiscardNext (roots_ sys) h) = view h) by (apply each_preserves, discard_view).
  destruct (observations_ sys); [rewrite obs_set_view|]; exact E.
Qed.

Lemma discardAll_obs sys h : attached_view sys (Sys.discardAll sys h) = attached_view sys h.
Proof.
  unfold attached_view, Sys.discardAll, Sys.on_obs. destruct (observations_ sys) as [o|]; [|reflexivity].
  rewrite obs_at_set. f_equal. change (obs_view (Obs.DiscardNext ?x)) with (obs_view x). f_equal.
  apply (each_preserves (obs_at o)). intros. apply discard_obs.
Qed.

Lemma discardAll_clears sys h o :
  observations_ sys = Some o -> Forall (eq slot_default) (slots_ (obs_at o (Sys.discardAll sys h))).
Proof.
  intros E. unfold Sys.discardAll, Sys.on_obs. rewrite E, obs_at_set. apply Forall_forall. intros x Hx.
  apply elem_of_replicate in Hx as [-> _]. reflexivity.
Qed.

Lemma works_view sys h : view (snd (st_each m_Work (roots_ sys) h)) = view h.
Proof. apply st_each_preserves, work_view. Qed.

Lemma works_obs sys h : attached_view sys (snd (st_each m_Work (roots_ sys) h)) = attached_view sys h.
Proof.
  unfold attached_view. destruct (observations_ sys) as [o|]; [|reflexivity]. f_equal.
  apply (st_each_preserves (fun h => obs_view (obs_at o h))). intros. apply work_obs.
Qed.

Lemma precheck_attached sys h : attached_view sys (snd (Precheck h)) = attached_view sys h.
Proof. unfold attached_view. destruct (observations_ sys); [rewrite precheck_obs|]; reflexivity. Qed.

(** What a caller sees of the committed state. *)
Definition committed sys h := (view h, attached_view sys h, cycle_ sys).

Lemma Xfer_rejected sys h s' :
  Sys.Xfer sys h = (false, s') ->
  view (snd s') = view h /\ attached_view sys (snd s') = attached_view sys h /\ state_ (fst s') = Failed /\
  cycle_ (fst s') = cycle_ sys /\ observations_ (fst s') = observations_ sys /\
  forall o, observations_ sys = Some o -> Forall (eq slot_default) (slots_ (obs_at o (snd s'))).
Proof.
  unfold Sys.Xfer. destruct (bool_decide_reflect (state_ sys = Failed)) as [Ef|Ef].
  { intros [= <-]. cbn [fst snd]. rewrite discardAll_view, discardAll_obs.
    repeat split; try reflexivity; [exact Ef | intros; apply discardAll_clears; assumption]. }
  pose proof (precheck_view h) as Hv. pose proof (precheck_attached sys h) as Ho.
  destruct (Precheck h) as [acc h2]. cbn [snd] in Hv, Ho.
  destruct (negb _); [|discriminate]. intros [= <-]. cbn [fst snd]. rewrite discardAll_view, discardAll_obs.
  repeat split; try assumption; intros; apply discardAll_clears; assumption.
Qed.
End Transaction.

(** C3: a step is a transaction.  When a ready system's step fails, by an
    exception of any module's work, by the system check, by the observation
    check or by cycle exhaustion, the committed view of all modules, the
    published events and gauges and the cycle counter are what they were,
    every staged observation is dropped, and the system is failed. *)
Theorem failed_step_commits_nothing {H M O : Type} `{HL : SystemLaws H M O} `{EM : EqDecision M}
    `{EO : EqDecision O} (sys : SimSystem M O) (h : H) sys' h' :
  state_ sys = Ready -> Sys.Step (sys, h) = (Ret StepFailed, (sys', h')) ->
  committed sys' h' = committed sys h /\ state_ sys' = Failed /\
  (forall o, observations_ sys = Some o -> Forall (eq slot_default) (slots_ (obs_at o h'))) /\
  fst (Sys.Step (sys', h')) = Ret StepFailed.
Proof.
  intros Er E.
  assert (G : committed sys' h' = committed sys h /\ state_ sys' = Failed /\
    (forall o, observations_ sys = Some o -> Forall (eq slot_default) (slots_ (obs_at o h')))).
  { unfold Sys.Step in E. rewrite Er in E. cbn [bool_decide decide_rel negb] in E.
    rewrite (bool_decide_eq_false_2 (Ready = Failed)), (bool_decide_eq_true_2 (Ready = Ready)) in E
      by (reflexivity || discriminate). cbn [negb] in E.
    destruct (foldl _ _ _); cbn [negb] in E; [|discriminate].
    destruct (cycle_ sys =? u64_max).
    { injection E as <- <-. unfold committed. rewrite discardAll_view. cbn [cycle_ Sys.set_state Sys.set_failure].
      change (attached_view (mkSystem ?r ?o ?s ?c ?b ?f)) with (attached_view (mkSystem r o s c b f)).
      split; [|split; [reflexivity | intros; apply discardAll_clears; assumption]].
      f_equal. f_equal. apply (discardAll_obs sys h). }
    pose proof (works_view sys h) as Hv. pose proof (works_obs sys h) as Ho.
    destruct (st_each m_Work (roots_ sys) h) as [[u|e|] h1]; cbn [snd] in Hv, Ho; [| |discriminate].
    - destruct (Sys.Xfer sys h1) as [ok s] eqn:Ex. destruct ok; [discriminate|]. injection E as ->.
      apply Xfer_rejected in Ex as (V & A & S & C & Ob & Cl). cbn [fst snd] in *. unfold committed.
      split; [|split; assumption]. rewrite V, Hv, C. f_equal. f_equal.
      unfold attached_view in *. rewrite Ob. congruence.
    - match type of E with context [Sys.Xfer ?s1 h1] => set (sys1 := s1) in E end.
      destruct (Sys.Xfer sys1 h1) as [ok s] eqn:Ex. destruct ok; [discriminate|]. injection E as ->.
      apply Xfer_rejected in Ex as (V & A & S & C & Ob & Cl). cbn [fst snd] in *. unfold committed.
      split; [|split; assumption]. rewrite V, Hv, C. f_equal. f_equal.
      change (attached_view sys1) with (attached_view sys) in A.
      change (observations_ sys1) with (observations_ sys) in Ob. unfold attached_view in *. rewrite Ob. congruence. }
  destruct G as (G1 & G2 & G3). split; [exact G1|]. split; [exact G2|]. split; [exact G3|].
  unfold Sys.Step. rewrite bool_decide_eq_true_2 by exact G2. reflexivity.
Qed.

(** The path of a running step. *)
Lemma step_running_cases {H M O : Type} `{HM : SimObj H M} `{HS : SystemHooks H O} `{EM : EqDecision M}
    `{EO : EqDecision O} (sys : SimSystem M O) (h : H) sys' h' :
  Sys.Step (sys, h) = (Ret StepRunning, (sys', h')) ->
  exists h1 h2, st_each m_Work (roots_ sys) h = (Ret tt, h1) /\ Precheck h1 = (true, h2) /\
    (exists m, m ∈ roots_ sys /\ m_HasWork m h = true) /\
    match observations_ sys with
    | Some o => Obs.Precommit (cycle_ sys) (obs_at o h2) = true /\
        h' = let h3 := each m_Xfer (roots_ sys) h2 in obs_set o (Obs.Xfer (u64_add (cycle_ sys) 1) (obs_at o h3)) h3
    | None => h' = each m_Xfer (roots_ sys) h2
    end.
Proof.
  intros E. pose proof (Step_effect _ _ _ _ _ E) as Eff. inversion Eff as [| | | | Er Hn Eq]; subst. clear Eff.
  unfold Sys.Step in E. rewrite Er in E.
  rewrite (bool_decide_eq_false_2 (Ready = Failed)), (bool_decide_eq_true_2 (Ready = Ready)) in E
    by (reflexivity || discriminate). cbn [negb] in E.
  destruct (foldl _ _ _) eqn:Ew; cbn [negb] in E; [|discriminate].
  destruct (cycle_ sys =? u64_max); [discriminate|].
  destruct (st_each m_Work (roots_ sys) h) as [[[]|e|] h1] eqn:Es; [| |discriminate].
  2:{ unfold Sys.Xfer in E. cbn [Sys.set_state state_] in E. rewrite bool_decide_eq_true_2 in E by reflexivity. discriminate. }
  unfold Sys.Xfer in E. rewrite bool_decide_eq_false_2 in E by congruence.
  destruct (Precheck h1) as [acc h2] eqn:Ep. exists h1, h2.
  destruct (observations_ sys) as [o|] eqn:Eo; (destruct acc; cbn [andb negb] in E; [|discriminate]).
  - destruct (Obs.Precommit (cycle_ sys) (obs_at o h2)) eqn:Epc; cbn [negb] in E; [|discriminate].
    injection E as _ Eh. rewrite <- Eh. repeat (split; [first [assumption | reflexivity | apply has_work_exists, Ew]|]); try assumption; reflexivity.
  - injection E as _ Eh. rewrite <- Eh. repeat (split; [first [assumption | reflexivity | apply has_work_exists, Ew]|]); try assumption; reflexivity.
Qed.

(** What a running step did.  Every root's work returned, in order, the
    system check and the observation check of the current cycle accepted the
    result, every root was transferred, the counter advanced by exactly one
    without wrapping, and the observations were committed at the new cycle. *)
Theorem running_step_spec {H M O : Type} `{HM : SimObj H M} `{HS : SystemHooks H O} `{EM : EqDecision M}
    `{EO : EqDecision O} (sys : SimSystem M O) (h : H) sys' h' :
  is_u 64 (cycle_ sys) ->
  Sys.Step (sys, h) = (Ret StepRunning, (sys', h')) ->
  exists h1 h2,
    (exists m, m ∈ roots_ sys /\ m_HasWork m h = true) /\
    st_each m_Work (roots_ sys) h = (Ret tt, h1) /\ Precheck h1 = (true, h2) /\
    state_ sys = Ready /\ state_ sys' = Ready /\ cycle_ sys' = cycle_ sys + 1 /\ is_u 64 (cycle_ sys') /\
    match observations_ sys with
    | Some o => Obs.Precommit (cycle_ sys) (obs_at o h2) = true /\
        h' = let h3 := each m_Xfer (roots_ sys) h2 in obs_set o (Obs.Xfer (cycle_ sys + 1) (obs_at o h3)) h3
    | None => h' = each m_Xfer (roots_ sys) h2
    end.
Proof.
  intros Hc E. pose proof (Step_effect _ _ _ _ _ E) as Eff.
  destruct (step_running_cases _ _ _ _ E) as (h1 & h2 & Ew & Ep & Hw & Eh).
  inversion Eff as [| | | | Er Hn Eq]; subst. clear Eff.
  assert (Ec : u64_add (cycle_ sys) 1 = cycle_ sys + 1).
  { unfold u64_add. apply u64_id. unfold is_u, u64_max in *. lia. }
  exists h1, h2. rewrite Ec in *. cbn [cycle_ state_].
  repeat (split; [first [assumption | reflexivity | unfold is_u, u64_max in *; lia]|]). exact Eh.
Qed.
