(* ===== verification/KernelSystem.v ===== *)
(** * Systems of storage kernels

    The storage kernels behind the module interface: a heap of kernel states
    whose modules evaluate on pins wired to the committed states.  The
    two-phase contract of [SystemLaws] holds for every kernel by its type,
    and a running step is a synchronous update: every register moves on the
    values all registers had before the step, in whatever order the roots
    were registered. *)

From Stdlib Require Import ZArith Lia String.
From stdpp Require Import base list numbers strings.
From S2P Require Import Prelude Bits FourState FourStateSpec Wire WireSpec SampledClock Kernel Dff.
From S2P Require Import Observations SimSystem SimSystemSpec.

Section KernelSystem.
Context {C P I Out : Type} `{HK : Kernel C P I Out}.
(** The wiring of module [i], and the system check of the derived class. *)
Context (pins : nat -> list C -> I) (check : list C -> bool).

Record cell := mkCell { cell_current : C; cell_pending : P; cell_out : Out }.
Record kheap := mkHeap { cells : list cell; k_obs : ObservationSlots }.
Implicit Types h : kheap.

Definition currents (cs : list cell) : list C := cell_current <$> cs.
Definition with_cells h cs : kheap := mkHeap cs (k_obs h).
Definition update (f : cell -> cell) (i : nat) h : kheap := with_cells h (alter f i (cells h)).

Definition cell_work (i : nat) : ST kheap unit := fun h =>
  match cells h !! i with
  | None => (Ret tt, h)
  | Some c =>
    let '(r, (p, o)) := k_work (cell_current c) (pins i (currents (cells h))) (cell_pending c, cell_out c) in
    (r, update (fun c => mkCell (cell_current c) p o) i h)
  end.

(** A [noexcept] transfer returns; [KernelLaws] excludes the other cases. *)
Definition cell_commit (c : cell) : cell :=
  match k_xfer (cell_current c) (cell_pending c) (cell_out c) with
  | Ret (c', p', o') => mkCell c' p' o'
  | _ => c
  end.
Definition cell_discard (c : cell) : cell :=
  mkCell (cell_current c) (k_discard (cell_current c) (cell_pending c)) (cell_out c).
Definition cell_reset (pin : I) (c : cell) : cell :=
  match k_reset (cell_current c) pin (cell_pending c) with
  | Ret p => mkCell (cell_current c) p (cell_out c)
  | _ => c
  end.

#[export] Instance kernel_modules : SimObj kheap nat := {|
  m_Build _ := st_ret tt;
  m_Work := cell_work;
  m_Xfer := update cell_commit;
  m_DiscardNext := update cell_discard;
  m_Reset i h := update (cell_reset (pins i (currents (cells h)))) i h;
  m_ReportStat _ := st_ret tt;
  m_HasWork _ _ := true;
|}.

#[export] Instance kernel_hooks : SystemHooks kheap unit := {|
  FinalizeBuild h := (true, h);
  Precheck h := (check (currents (cells h)), h);
  DescribeFailure phase _ := DescribeFailure_default phase;
  obs_at _ := k_obs;
  obs_set _ x h := mkHeap (cells h) x;
|}.

Lemma currents_update f i h :
  (forall c, cell_current (f c) = cell_current c) -> currents (cells (update f i h)) = currents (cells h).
Proof.
  intros Hf. unfold currents, update, with_cells. cbn [cells]. apply list_eq. intros j.
  rewrite !list_lookup_fmap. destruct (decide (i = j)) as [->|].
  - rewrite list_lookup_alter_eq. destruct (cells h !! j); cbn; [rewrite Hf|]; reflexivity.
  - rewrite list_lookup_alter_ne by assumption. reflexivity.
Qed.

Lemma cell_work_currents i h : currents (cells (snd (cell_work i h))) = currents (cells h).
Proof.
  unfold cell_work. destruct (cells h !! i) as [c|]; [|reflexivity].
  destruct (k_work _ _ _) as [r [p o]]. apply currents_update. reflexivity.
Qed.

Lemma cell_work_obs i h : k_obs (snd (cell_work i h)) = k_obs h.
Proof.
  unfold cell_work. destruct (cells h !! i) as [c|]; [|reflexivity].
  destruct (k_work _ _ _) as [r [p o]]. reflexivity.
Qed.

#[export] Program Instance kernel_system_laws : SystemLaws kheap nat unit := {|
  view h := currents (cells h);
|}.
Solve All Obligations with cbn; auto.
Next Obligation. intros. apply cell_work_currents. Qed.
Next Obligation. intros. apply currents_update. reflexivity. Qed.
Next Obligation. cbn. intros. rewrite cell_work_obs. reflexivity. Qed.

(** ** Synchronous semantics *)

(** The cell a step makes of [c]: evaluate on the old committed states,
    then commit. *)
Definition cell_next (old : list C) (i : nat) (c : cell) : cell :=
  let '(_, (p, o)) := k_work (cell_current c) (pins i old) (cell_pending c, cell_out c) in
  cell_commit (mkCell (cell_current c) p o).

Definition cell_evaluated (old : list C) (i : nat) (c : cell) : cell :=
  let '(_, (p, o)) := k_work (cell_current c) (pins i old) (cell_pending c, cell_out c) in
  mkCell (cell_current c) p o.

Lemma works_cells l : forall h h',
  NoDup l -> st_each m_Work l h = (Ret tt, h') ->
  currents (cells h') = currents (cells h) /\
  forall i, cells h' !! i =
    if decide (i ∈ l) then cell_evaluated (currents (cells h)) i <$> cells h !! i else cells h !! i.
Proof.
  induction l as [|j l IH]; intros h h' Hnd E.
  { injection E as <-. split; [reflexivity|]. intros i. destruct (decide _) as [Hi|]; [|reflexivity].
    apply elem_of_nil in Hi. contradiction. }
  apply NoDup_cons in Hnd as [Hj Hnd]. cbn [st_each] in E. unfold st_bind in E.
  pose proof (cell_work_currents j h) as Hc. cbn [m_Work kernel_modules] in E.
  destruct (cell_work j h) as [r h1] eqn:Ew. cbn [snd] in Hc. destruct r as [[]|e|]; [|discriminate..].
  destruct (IH h1 h' Hnd E) as [Hc' Hl]. split; [congruence|]. intros i. rewrite Hl, Hc.
  assert (Hi1 : cells h1 !! i = if decide (i = j) then cell_evaluated (currents (cells h)) i <$> cells h !! i else cells h !! i).
  { unfold cell_work in Ew. destruct (cells h !! j) as [c|] eqn:Ec.
    - destruct (k_work _ _ _) as [r [p o]] eqn:Ek. injection Ew as _ <-. cbn [update with_cells cells].
      destruct (decide (i = j)) as [->|]; [|apply list_lookup_alter_ne; congruence].
      rewrite list_lookup_alter_eq, Ec. cbn. unfold cell_evaluated. rewrite Ek. reflexivity.
    - injection Ew as <-. destruct (decide (i = j)) as [->|]; [rewrite Ec|]; reflexivity. }
  rewrite Hi1. destruct (decide (i = j)) as [->|Hne].
  - rewrite decide_False by exact Hj. rewrite decide_True by (apply elem_of_cons; auto). reflexivity.
  - destruct (decide (i ∈ l)); [rewrite decide_True by (apply elem_of_cons; auto); reflexivity|].
    rewrite decide_False by (rewrite elem_of_cons; tauto). reflexivity.
Qed.

Lemma xfers_cells l : forall h,
  NoDup l -> forall i, cells (each m_Xfer l h) !! i =
    if decide (i ∈ l) then cell_commit <$> cells h !! i else cells h !! i.
Proof.
  induction l as [|j l IH]; intros h Hnd i.
  { destruct (decide _) as [Hi|]; [|reflexivity]. apply elem_of_nil in Hi. contradiction. }
  apply NoDup_cons in Hnd as [Hj Hnd]. change (each m_Xfer (j :: l) h) with (each m_Xfer l (update cell_commit j h)).
  rewrite (IH _ Hnd). cbn [update with_cells cells]. destruct (decide (i = j)) as [->|Hne].
  - rewrite decide_False by exact Hj. rewrite decide_True by (apply elem_of_cons; auto).
    apply list_lookup_alter_eq.
  - rewrite list_lookup_alter_ne by congruence.
    destruct (decide (i ∈ l)); [rewrite decide_True by (apply elem_of_cons; auto); reflexivity|].
    rewrite decide_False by (rewrite elem_of_cons; tauto). reflexivity.
Qed.
End KernelSystem.
Arguments cell : clear implicits.
Arguments kheap : clear implicits.

(** C4: synchronous semantics.  A running step of a system of storage kernels
    moves every registered register to the state its kernel computes from the
    committed states all registers had before the step; registers that are
    not registered keep their cells.  The registration order of the roots
    does not occur in the result. *)
Theorem kernel_step_synchronous {C P I Out} `{HK : Kernel C P I Out} (pins : nat -> list C -> I)
    (check : list C -> bool) (sys : SimSystem nat unit) (h : kheap C P Out) sys' h' :
  sys_inv sys ->
  @Sys.Step _ _ _ (kernel_modules pins) (kernel_hooks check) (sys, h) = (Ret StepRunning, (sys', h')) ->
  forall i, cells h' !! i =
    if decide (i ∈ roots_ sys) then cell_next pins (currents (cells h)) i <$> cells h !! i else cells h !! i.
Proof.
  intros Hi E i. destruct (step_running_cases _ _ _ _ E) as (h1 & h2 & Ew & Ep & _ & Eh).
  destruct (works_cells pins (roots_ sys) h h1 (si_roots _ Hi) Ew) as [_ Hl].
  injection Ep as _ <-. replace (cells h') with (cells (each (m_Xfer (SimObj := kernel_modules pins)) (roots_ sys) h1)).
  2:{ destruct (observations_ sys); [destruct Eh as [_ ->] | rewrite Eh]; reflexivity. }
  rewrite (xfers_cells pins (roots_ sys) h1 (si_roots _ Hi)), Hl. destruct (decide _); [|reflexivity].
  rewrite <- option_fmap_compose. apply option_fmap_ext. intros c. unfold compose, cell_next, cell_evaluated.
  destruct (k_work _ _ _) as [r [p o]]. reflexivity.
Qed.

(** ** Two registers that exchange their values *)

Module SwapSystem.
Import dffe_kernel.
#[local] Existing Instance dffe_is_kernel.

Definition pins (clk : pin) (i : nat) (cs : list (Current Z)) : Inputs Z :=
  mkInputs clk (fs_bool false) (fs_bool true)
    (match cs !! (1 - i)%nat with Some c => q c | None => 0 end) 0.
Definition high : pin := fs_bool true.
Definition unknown_clk : pin := fs_x (bits_of_word 1 0).
Definition check (_ : list (Current Z)) : bool := true.

#[local] Abbreviation heap := (kheap (Current Z) (Pending Z) (Outputs Z)).
Definition start : heap :=
  mkHeap [mkCell (mkCurrent 1 false) (mkPending 1 false false) 1;
          mkCell (mkCurrent 2 false) (mkPending 2 false false) 2] Obs.construct.

Section On.
Context (clk : pin) (checks : list (Current Z) -> bool).
#[local] Instance mods : SimObj heap nat := kernel_modules (pins clk).
#[local] Instance hooks : SystemHooks heap unit := kernel_hooks checks.

(** Both registers added, built and reset without transfer of a clock. *)
Definition added : SimSystem nat unit := snd (Sys.AddModule 1%nat (snd (Sys.AddModule 0%nat Sys.construct))).
Definition built := snd (Sys.Build (added, start)).
Definition ready : SimSystem nat unit := fst (Sys.Reset (fst built) (snd built)).
Definition step := Sys.Step (ready, start).
End On.

Lemma ready_inv clk checks : sys_inv (ready clk checks).
Proof.
  constructor; cbn; intros; try discriminate; try reflexivity; try tauto.
  - apply (bool_decide_unpack _). vm_compute. exact I.
  - vm_compute. split; [discriminate | reflexivity].
Qed.

(** The values are exchanged, which no sequential update in either order
    would do. *)
Lemma kernel_step_synchronous_witness :
  fst (step high check) = Ret StepRunning /\
  (q <$> (cell_current <$> cells (snd (snd (step high check))) !! 0%nat)) = Some 2 /\
  (q <$> (cell_current <$> cells (snd (snd (step high check))) !! 1%nat)) = Some 1.
Proof.
  assert (E : step high check = (Ret StepRunning, snd (step high check))) by (vm_compute; reflexivity).
  split; [rewrite E; reflexivity|].
  rewrite !(kernel_step_synchronous (pins high) check (ready high check) start _ _ (ready_inv high check)
    (eq_trans E (f_equal (pair _) (surjective_pairing _)))). split; vm_compute; reflexivity.
Defined.

Lemma running_step_spec_witness :
  cycle_ (fst (snd (step high check))) = 1 /\ is_u 64 (cycle_ (fst (snd (step high check)))).
Proof.
  assert (E : step high check = (Ret StepRunning, snd (step high check))) by (vm_compute; reflexivity).
  destruct (@running_step_spec _ _ _ (mods high) (hooks check) _ _ (ready high check) start _ _
    (si_cycle _ (ready_inv high check)) (eq_trans E (f_equal (pair _) (surjective_pairing _))))
    as (h1 & h2 & _ & _ & _ & _ & _ & H1 & H2 & _).
  exact (conj H1 H2).
Defined.

(** An unknown clock fails the step; a failing check does too.  The
    registers keep their values. *)
Lemma failed_step_commits_nothing_witness :
  fst (step unknown_clk check) = Ret StepFailed /\
  fst (step high (fun _ => false)) = Ret StepFailed /\
  currents (cells (snd (snd (step high (fun _ => false))))) = currents (cells start).
Proof.
  split; [vm_compute; reflexivity|].
  assert (E : step high (fun _ => false) = (Ret StepFailed, snd (step high (fun _ => false)))) by (vm_compute; reflexivity).
  split; [rewrite E; reflexivity|].
  exact (f_equal (fun x => fst (fst x))
    (proj1 (failed_step_commits_nothing (HL := kernel_system_laws (pins high) (fun _ => false))
       (ready high (fun _ => false)) start _ _ eq_refl
       (eq_trans E (f_equal (pair _) (surjective_pairing _)))))).
Defined.


(** A system whose build failed stays failed after a reset. *)
Definition broken : SimSystem nat unit := mkSystem [0%nat] None Failed 0 false no_failure.

Lemma failed_build_is_final_witness :
  fst (@Sys.Reset _ _ _ (mods high) (hooks check) broken start) = broken.
Proof.
  exact (proj1 (@failed_build_is_final _ _ _ (mods high) (hooks check) _ _ broken start _ eq_refl eq_refl
    (call_reset broken start))).
Defined.
End SwapSystem.
