(* ===== verification/WorkExecutor.v ===== *)
(** * The work executor: [include/gfsim/WorkExecutor.h]

    Serial execution, and the worker pool as a machine whose moves are the
    critical sections of [workerLoop] and the unlocked calls of the work
    callbacks: a schedule picks the worker that moves next.  A callback acts
    on the shared heap [H]. *)

From Stdlib Require Import ZArith Lia String.
From stdpp Require Import base list numbers strings.
From S2P Require Import Prelude.

Section Executor.
Context {H : Type}.

(** [struct WorkItem { void *instance; void (*work)(void *); }]: the
    callback applied to its instance, or a null callback. *)
Definition WorkItem : Type := option (ST H unit).

Definition call_item (item : WorkItem) : ST H unit :=
  match item with Some work => work | None => fun h => (Terminate, h) end.

Definition rethrow (error : option exn) : outcome unit :=
  match error with Some e => Throw e | None => Ret tt end.

(** ** [runSerial] *)
Fixpoint serial_loop (items : list WorkItem) (first : option exn) : ST H unit := fun h =>
  match items with
  | [] => (rethrow first, h)
  | item :: rest =>
    match call_item item h with
    | (Ret _, h) => serial_loop rest first h
    | (Throw e, h) => serial_loop rest (match first with None => Some e | Some _ => first end) h
    | (Terminate, h) => (Terminate, h)
    end
  end.
Definition runSerial (items : list WorkItem) : ST H unit := serial_loop items None.

(** ** The pool *)

(** Where a worker thread is in [workerLoop]. *)
Inductive worker :=
| Waiting
| Claimed (index : nat)
| Returned (index : nat) (error : option exn)
| Exited.

Record pool := mkPool {
  heap : H;
  next_ : nat;
  pending_ : nat;
  errors_ : list (option exn);
  stop_ : bool;
  threads_ : list worker;
}.

Definition with_threads (p : pool) (ws : list worker) : pool :=
  mkPool (heap p) (next_ p) (pending_ p) (errors_ p) (stop_ p) ws.

(** One move of worker [w]; [None] when it is blocked, has exited, or its
    callback terminates the program. *)
Definition pool_step (items : list WorkItem) (w : nat) (p : pool) : option pool :=
  match threads_ p !! w with
  | Some Waiting =>
    if stop_ p then Some (with_threads p (<[w := Exited]> (threads_ p)))
    else if Nat.ltb (next_ p) (length items)
    then Some (mkPool (heap p) (S (next_ p)) (pending_ p) (errors_ p) (stop_ p)
                 (<[w := Claimed (next_ p)]> (threads_ p)))
    else None
  | Some (Claimed index) =>
    match items !! index with
    | None => None
    | Some item =>
      match call_item item (heap p) with
      | (Terminate, _) => None
      | (r, h) =>
        let error := match r with Throw e => Some e | _ => None end in
        Some (mkPool h (next_ p) (pending_ p) (errors_ p) (stop_ p)
                (<[w := Returned index error]> (threads_ p)))
      end
    end
  | Some (Returned index error) =>
    Some (mkPool (heap p) (next_ p) (Nat.pred (pending_ p)) (<[index := error]> (errors_ p)) (stop_ p)
            (<[w := Waiting]> (threads_ p)))
  | Some Exited | None => None
  end.

(** The batch set up by [run] for [workers] waiting threads. *)
Definition pool_start (workers : nat) (items : list WorkItem) (h : H) : pool :=
  mkPool h 0 (length items) (replicate (length items) None) false (replicate workers Waiting).

Inductive pool_steps (items : list WorkItem) : pool -> pool -> Prop :=
| steps_refl p : pool_steps items p p
| steps_move p w p' p'' :
    pool_step items w p = Some p' -> pool_steps items p' p'' -> pool_steps items p p''.

(** Running a given schedule. *)
Fixpoint run_schedule (items : list WorkItem) (ws : list nat) (p : pool) : option pool :=
  match ws with
  | [] => Some p
  | w :: ws' => match pool_step items w p with Some p' => run_schedule items ws' p' | None => None end
  end.

(** The caller's part of [run] once [pending_ == 0]. *)
Fixpoint first_error (errors : list (option exn)) : option exn :=
  match errors with
  | [] => None
  | Some e :: _ => Some e
  | None :: rest => first_error rest
  end.
Definition pool_result (p : pool) : outcome unit := rethrow (first_error (errors_ p)).

(** ** [run] *)

(** The branches of [run]: a rejected batch, a serial batch, an empty batch,
    or a batch for the pool, for which any completed schedule answers. *)
Inductive run_plan :=
| Reject (e : exn)
| Serial
| Nothing
| Pool.

Definition plan (nested : bool) (workers : nat) (items : list WorkItem) : run_plan :=
  if negb (forallb (fun item => match item with Some _ => true | None => false end) items)
  then Reject (InvalidArgument "WorkExecutor task needs a Work callback")
  else if nested then Serial
  else if Nat.eqb workers 1 then Serial
  else match items with [] => Nothing | _ => Pool end.

Inductive run (nested : bool) (workers : nat) (items : list WorkItem) (h : H) : outcome unit -> H -> Prop :=
| run_reject e : plan nested workers items = Reject e -> run nested workers items h (Throw e) h
| run_serial r h' : plan nested workers items = Serial -> runSerial items h = (r, h') ->
    run nested workers items h r h'
| run_nothing : plan nested workers items = Nothing -> run nested workers items h (Ret tt) h
| run_pool p : plan nested workers items = Pool ->
    pool_steps items (pool_start workers items h) p -> pending_ p = 0%nat ->
    run nested workers items h (pool_result p) (heap p).
End Executor.
Arguments WorkItem : clear implicits.
Arguments pool : clear implicits.

(** The constructor's argument check. *)
Definition check_workers (workers : nat) : outcome nat :=
  if Nat.eqb workers 0 then Throw (InvalidArgument "WorkExecutor workers must be positive") else Ret workers.

(** [stopAndJoin] raises the flag; the workers leave at their next wait. *)
Definition request_stop {H} (p : pool H) : pool H :=
  mkPool (heap p) (next_ p) (pending_ p) (errors_ p) true (threads_ p).
