(* ===== verification/WorkExecutorSpec.v ===== *)
(** * Specification of the work executor

    Serial execution runs every item; a pool of workers neither loses nor
    repeats an item, always makes progress, stops, and for items that do not
    interfere answers like the serial execution under every schedule. *)

From Stdlib Require Import ZArith Lia String.
From stdpp Require Import base list numbers strings.
From S2P Require Import Prelude WorkExecutor.

Section Spec.
Context {H : Type} (items : list (WorkItem H)) (h0 : H).
#[local] Abbreviation n := (length items).

Definition item_at (i : nat) : ST H unit :=
  match items !! i with Some item => call_item item | None => fun h => (Ret tt, h) end.

Definition error_of (r : outcome unit) : option exn := match r with Throw e => Some e | _ => None end.

(** Executing the items [l] in that order. *)
Definition execs (l : list nat) (h : H) : H := foldl (fun h i => snd (item_at i h)) h l.

(** No callback is null or ends the program. *)
Hypothesis returns : forall i h, fst (item_at i h) <> Terminate.

(** ** Progress and termination: every move lowers the measure *)

Definition stage (w : worker) : nat :=
  match w with Waiting => 1 | Claimed _ => 3 | Returned _ _ => 2 | Exited => 0 end.
Definition measure (p : pool H) : nat := 3 * (n - next_ p) + sum_list_with stage (threads_ p).

Lemma sum_insert (f : worker -> nat) (ws : list worker) w x y :
  ws !! w = Some x -> (sum_list_with f (<[w := y]> ws) + f x = sum_list_with f ws + f y)%nat.
Proof.
  revert w. induction ws as [|a ws IH]; intros [|w] E; try discriminate.
  - injection E as <-. cbn [insert list_insert sum_list_with]. lia.
  - specialize (IH w E). change (<[S w := y]> (a :: ws)) with (a :: <[w := y]> ws). cbn [sum_list_with]. lia.
Qed.

Lemma pool_step_measure w p p' : pool_step items w p = Some p' -> (measure p' < measure p)%nat.
Proof.
  unfold pool_step. destruct (threads_ p !! w) as [[|i|i e|]|] eqn:E; try discriminate.
  - destruct (stop_ p).
    { intros [= <-]. unfold measure. cbn [threads_ next_ with_threads]. pose proof (sum_insert stage _ _ _ Exited E). cbn [stage] in *. lia. }
    destruct (Nat.ltb_spec (next_ p) n); [|discriminate]. intros [= <-].
    unfold measure. cbn [threads_ next_]. pose proof (sum_insert stage _ _ _ (Claimed (next_ p)) E). cbn [stage] in *. lia.
  - destruct (items !! i) as [item|]; [|discriminate]. destruct (call_item item (heap p)) as [[u|e|] h]; try discriminate;
      intros [= <-]; unfold measure; cbn [threads_ next_];
      match goal with |- context [<[w := ?y]> _] => pose proof (sum_insert stage _ _ _ y E) end; cbn [stage] in *; lia.
  - intros [= <-]. unfold measure. cbn [threads_ next_]. pose proof (sum_insert stage _ _ _ Waiting E). cbn [stage] in *. lia.
Qed.

(** ** The pool invariant *)

Definition held (ws : list worker) (i : nat) : Prop :=
  exists w, ws !! w = Some (Claimed i) \/ exists e, ws !! w = Some (Returned i e).
Definition busy (w : worker) : nat := match w with Claimed _ | Returned _ _ => 1 | _ => 0 end.
Definition index_of (w : worker) : option nat :=
  match w with Claimed i | Returned i _ => Some i | _ => None end.

Record pool_inv (p : pool H) (done : list nat) : Prop := {
  pi_heap : heap p = execs done h0;
  pi_nodup : NoDup done;
  pi_next : (next_ p <= n)%nat;
  pi_errors : length (errors_ p) = n;
  pi_pending : pending_ p = (n - next_ p + sum_list_with busy (threads_ p))%nat;
  pi_held : forall w x i, threads_ p !! w = Some x -> index_of x = Some i -> (i < next_ p)%nat;
  pi_distinct : forall w w' x x' i, threads_ p !! w = Some x -> threads_ p !! w' = Some x' ->
    index_of x = Some i -> index_of x' = Some i -> w = w';
  pi_claimed : forall w i, threads_ p !! w = Some (Claimed i) -> i ∉ done;
  pi_returned : forall w i e, threads_ p !! w = Some (Returned i e) ->
    i ∈ done /\ exists l1 l2, done = l1 ++ i :: l2 /\ e = error_of (fst (item_at i (execs l1 h0)));
  pi_done : forall i, i ∈ done -> (i < next_ p)%nat;
  pi_finished : forall i, (i < next_ p)%nat -> held (threads_ p) i \/
    exists l1 l2, done = l1 ++ i :: l2 /\ errors_ p !! i = Some (error_of (fst (item_at i (execs l1 h0))));
}.

Lemma pool_start_inv workers : pool_inv (pool_start workers items h0) [].
Proof.
  assert (Hw : forall w x, replicate workers Waiting !! w = Some x -> x = Waiting)
    by (intros w x E; apply lookup_replicate in E as [-> _]; reflexivity).
  constructor; cbn [pool_start heap next_ pending_ errors_ threads_]; try (intros; lia).
  - reflexivity.
  - constructor.
  - apply length_replicate.
  - assert (E : sum_list_with busy (replicate workers Waiting) = 0%nat)
      by (induction workers as [|k IH]; [reflexivity | apply IH; intros; apply lookup_replicate in H0 as [-> _]; reflexivity]).
    rewrite E. lia.
  - intros w x i E Ei. rewrite (Hw _ _ E) in Ei. discriminate.
  - intros w w' x x' i E E' Ei. rewrite (Hw _ _ E) in Ei. discriminate.
  - intros w i E. apply Hw in E. discriminate.
  - intros w i e E. apply Hw in E. discriminate.
  - intros i Hi. apply elem_of_nil in Hi. contradiction.
Qed.

Lemma insert_cases (ws : list worker) w y w' x :
  <[w := y]> ws !! w' = Some x -> (w' = w /\ x = y) \/ (w' <> w /\ ws !! w' = Some x).
Proof. intros E. apply list_lookup_insert_Some in E as [(<- & <- & _)|[? E]]; auto. Qed.

(** A move that changes one worker's index set only as [index_of] says. *)
Lemma held_insert ws w x y i :
  ws !! w = Some x -> held ws i -> index_of x <> Some i -> held (<[w := y]> ws) i.
Proof.
  intros Ex (w0 & Hw) Hi. assert (w0 <> w).
  { intros ->. destruct Hw as [Hw|[e Hw]]; rewrite Ex in Hw; injection Hw as ->; apply Hi; reflexivity. }
  exists w0. rewrite !list_lookup_insert_ne by congruence. exact Hw.
Qed.

Lemma held_self ws w x i : ws !! w = Some x -> index_of x = Some i -> held ws i.
Proof. intros Ex Ei. exists w. destruct x; cbn in Ei; simplify_eq; eauto. Qed.

Ltac cases E := apply insert_cases in E as [[? ?]|[? E]]; simplify_eq/=.

Lemma claim_inv w p done :
  pool_inv p done -> threads_ p !! w = Some Waiting -> (next_ p < n)%nat ->
  pool_inv (mkPool (heap p) (S (next_ p)) (pending_ p) (errors_ p) (stop_ p)
              (<[w := Claimed (next_ p)]> (threads_ p))) done.
Proof.
  intros [] Ew Hlt. constructor; cbn [heap next_ pending_ errors_ threads_]; try assumption; try lia.
  - pose proof (sum_insert busy _ _ _ (Claimed (next_ p)) Ew). cbn [busy] in *. lia.
  - intros w' x i E Ei. cases E; [lia|]. specialize (pi_held0 _ _ _ E Ei). lia.
  - intros w1 w2 x x' i E E' Ei Ei'. cases E; cases E'; [reflexivity | | | eauto].
    + specialize (pi_held0 _ _ _ E' Ei'). lia.
    + specialize (pi_held0 _ _ _ E Ei). lia.
  - intros w' i E. cases E; [|eauto]. intros Hi. specialize (pi_done0 _ Hi). lia.
  - intros w' i e E. cases E. eauto.
  - intros i Hi. specialize (pi_done0 _ Hi). lia.
  - intros i Hi. destruct (decide (i = next_ p)) as [->|].
    + left. apply (held_self _ w (Claimed (next_ p))); [|reflexivity].
      apply list_lookup_insert_eq, (lookup_lt_Some _ _ _ Ew).
    + destruct (pi_finished0 i ltac:(lia)) as [Hh|Hf]; [|right; exact Hf].
      left. apply (held_insert _ _ _ _ _ Ew Hh). discriminate.
Qed.

Lemma execute_inv w i p done :
  pool_inv p done -> threads_ p !! w = Some (Claimed i) -> (i < n)%nat ->
  pool_inv (mkPool (snd (item_at i (heap p))) (next_ p) (pending_ p) (errors_ p) (stop_ p)
              (<[w := Returned i (error_of (fst (item_at i (heap p))))]> (threads_ p))) (done ++ [i]).
Proof.
  intros [] Ew Hlt. pose proof (pi_claimed0 _ _ Ew) as Hnew.
  assert (Hsnoc : forall j l1 l2, done = l1 ++ j :: l2 -> done ++ [i] = l1 ++ j :: (l2 ++ [i])).
  { intros j l1 l2 ->. rewrite <- app_assoc. reflexivity. }
  constructor; cbn [heap next_ pending_ errors_ threads_]; try assumption; try lia.
  - unfold execs. rewrite foldl_app. cbn [foldl]. rewrite pi_heap0. reflexivity.
  - apply NoDup_app. repeat split; [assumption | | apply NoDup_singleton].
    intros x Hx Hx'. apply list_elem_of_singleton in Hx' as ->. contradiction.
  - match goal with |- context [<[w := ?y]> _] => pose proof (sum_insert busy _ _ _ y Ew) end. cbn [busy] in *. lia.
  - intros w' x j E Ej. cases E; eauto.
  - intros w1 w2 x x' j E E' Ej Ej'. cases E; cases E'; [reflexivity | | | eauto].
    + exact (pi_distinct0 _ _ _ _ _ Ew E' eq_refl Ej').
    + exact (pi_distinct0 _ _ _ _ _ E Ew Ej eq_refl).
  - intros w' j E. cases E. rewrite elem_of_app, list_elem_of_singleton. intros [Hj| ->]; [exact (pi_claimed0 _ _ E Hj)|].
    match goal with Hne : w' <> w |- _ => apply Hne end. exact (pi_distinct0 _ _ _ _ _ E Ew eq_refl eq_refl).
  - intros w' j e E. cases E.
    + split; [apply elem_of_app; right; apply list_elem_of_singleton; reflexivity|].
      exists done, []. split; [reflexivity | rewrite pi_heap0; reflexivity].
    + destruct (pi_returned0 _ _ _ E) as (Hj & l1 & l2 & Hd & He).
      split; [apply elem_of_app; left; exact Hj|]. exists l1, (l2 ++ [i]). split; [apply Hsnoc, Hd | exact He].
  - intros j Hj. apply elem_of_app in Hj as [Hj|Hj]; [eauto|]. apply list_elem_of_singleton in Hj as ->.
    exact (pi_held0 _ _ _ Ew eq_refl).
  - intros j Hj. destruct (decide (j = i)) as [->|Hne].
    + left. eapply held_self; [apply list_lookup_insert_eq, (lookup_lt_Some _ _ _ Ew) | reflexivity].
    + destruct (pi_finished0 j Hj) as [Hh|(l1 & l2 & Hd & He)].
      * left. apply (held_insert _ _ _ _ _ Ew Hh). cbn. congruence.
      * right. exists l1, (l2 ++ [i]). split; [apply Hsnoc, Hd | exact He].
Qed.

Lemma return_inv w i e p done :
  pool_inv p done -> threads_ p !! w = Some (Returned i e) ->
  pool_inv (mkPool (heap p) (next_ p) (Nat.pred (pending_ p)) (<[i := e]> (errors_ p)) (stop_ p)
              (<[w := Waiting]> (threads_ p))) done.
Proof.
  intros [] Ew. pose proof (pi_held0 _ _ _ Ew eq_refl) as Hi.
  constructor; cbn [heap next_ pending_ errors_ threads_]; try assumption; try lia.
  - rewrite length_insert. assumption.
  - pose proof (sum_insert busy _ _ _ Waiting Ew). cbn [busy] in *. lia.
  - intros w' x j E Ej. cases E; eauto.
  - intros w1 w2 x x' j E E' Ej Ej'. cases E; cases E'; eauto.
  - intros w' j E. cases E; eauto.
  - intros w' j e' E. cases E; eauto.
  - intros j Hj. destruct (decide (j = i)) as [->|Hne].
    + right. destruct (pi_returned0 _ _ _ Ew) as (_ & l1 & l2 & Hd & He). exists l1, l2. split; [exact Hd|].
      rewrite list_lookup_insert_eq by lia. f_equal. exact He.
    + destruct (pi_finished0 j Hj) as [Hh|(l1 & l2 & Hd & He)].
      * left. apply (held_insert _ _ _ _ _ Ew Hh). cbn. congruence.
      * right. exists l1, l2. split; [exact Hd|]. rewrite list_lookup_insert_ne by congruence. exact He.
Qed.

Lemma exit_inv w p done :
  pool_inv p done -> threads_ p !! w = Some Waiting ->
  pool_inv (with_threads p (<[w := Exited]> (threads_ p))) done.
Proof.
  intros [] Ew. constructor; cbn [with_threads heap next_ pending_ errors_ threads_]; try assumption; try lia.
  - pose proof (sum_insert busy _ _ _ Exited Ew). cbn [busy] in *. lia.
  - intros w' x j E Ej. cases E; eauto.
  - intros w1 w2 x x' j E E' Ej Ej'. cases E; cases E'; eauto.
  - intros w' j E. cases E; eauto.
  - intros w' j e' E. cases E; eauto.
  - intros j Hj. destruct (pi_finished0 j Hj) as [Hh|Hf]; [left | right; exact Hf].
    apply (held_insert _ _ _ _ _ Ew Hh). discriminate.
Qed.

Lemma pool_step_inv w p p' done :
  pool_inv p done -> pool_step items w p = Some p' -> exists done', pool_inv p' done'.
Proof.
  intros Hi E. unfold pool_step in E. destruct (threads_ p !! w) as [[|i|i e|]|] eqn:Ew; try discriminate.
  - destruct (stop_ p) eqn:Es; [injection E as <-; eauto using exit_inv|].
    destruct (Nat.ltb_spec (next_ p) n) as [Hlt|]; [|discriminate]. injection E as <-.
    pose proof (claim_inv w p done Hi Ew Hlt) as Hc. rewrite Es in Hc. eauto.
  - destruct (items !! i) as [item|] eqn:Ei; [|discriminate].
    pose proof (execute_inv w i p done Hi Ew (lookup_lt_Some _ _ _ Ei)) as Hx. unfold item_at in Hx. rewrite Ei in Hx.
    destruct (call_item item (heap p)) as [[u|e|] h]; [| |discriminate]; injection E as <-; eauto.
  - injection E as <-. eauto using return_inv.
Qed.

Lemma pool_steps_inv p p' : pool_steps items p p' -> forall done, pool_inv p done -> exists done', pool_inv p' done'.
Proof.
  induction 1 as [|p w p1 p' E _ IH]; intros done Hi; [eauto|].
  destruct (pool_step_inv w p p1 done Hi E) as [done1 H1]. exact (IH done1 H1).
Qed.

Lemma busy_exists (ws : list worker) :
  (0 < sum_list_with busy ws)%nat -> exists w x, ws !! w = Some x /\ busy x = 1%nat.
Proof.
  induction ws as [|x ws IH]; cbn [sum_list_with]; [lia|]. intros Hs. destruct (busy x) as [|[|k]] eqn:E.
  - destruct (IH ltac:(lia)) as (w & y & Ey & Hy). exists (S w), y. auto.
  - exists 0%nat, x. auto.
  - destruct x; discriminate.
Qed.

(** A worker can move as long as work is pending. *)
Lemma pool_progress p done :
  pool_inv p done -> stop_ p = false -> (0 < length (threads_ p))%nat ->
  (forall w, threads_ p !! w <> Some Exited) -> (0 < pending_ p)%nat ->
  exists w p', pool_step items w p = Some p'.
Proof.
  intros Hi Hs Hw Hx Hp. rewrite (pi_pending _ _ Hi) in Hp.
  destruct (decide (0 < sum_list_with busy (threads_ p))%nat) as [Hb|Hb].
  - destruct (busy_exists _ Hb) as (w & x & E & Hx1). exists w. unfold pool_step. rewrite E.
    destruct x as [|i|i e|]; try discriminate; [|eauto].
    pose proof (pi_held _ _ Hi _ _ _ E eq_refl). pose proof (pi_next _ _ Hi).
    destruct (lookup_lt_is_Some_2 items i) as [item Ei]; [lia|]. rewrite Ei.
    pose proof (returns i (heap p)) as Hr. unfold item_at in Hr. rewrite Ei in Hr.
    destruct (call_item item (heap p)) as [[u|e|] h]; cbn [fst] in Hr; [eauto | eauto | contradiction].
  - destruct (lookup_lt_is_Some_2 (threads_ p) 0%nat Hw) as [x E]. exists 0%nat. unfold pool_step. rewrite E.
    assert (Hz : busy x = 0%nat).
    { pose proof (sum_insert busy _ _ _ Waiting E). cbn [busy] in *. lia. }
    destruct x; try discriminate; [|exfalso; exact (Hx _ E)]. rewrite Hs.
    destruct (Nat.ltb_spec (next_ p) n); [eauto | lia].
Qed.

(** ** A completed batch *)

Lemma completed p done :
  pool_inv p done -> pending_ p = 0%nat ->
  done ≡ₚ seq 0 n /\ (forall w x, threads_ p !! w = Some x -> x = Waiting \/ x = Exited) /\
  forall i, (i < n)%nat ->
    exists l1 l2, done = l1 ++ i :: l2 /\ errors_ p !! i = Some (error_of (fst (item_at i (execs l1 h0)))).
Proof.
  intros Hi Hp. rewrite (pi_pending _ _ Hi) in Hp. pose proof (pi_next _ _ Hi) as Hn.
  assert (Hw : forall w x, threads_ p !! w = Some x -> busy x = 0%nat).
  { intros w x E. pose proof (sum_insert busy _ _ _ Waiting E). cbn [busy] in *. lia. }
  assert (Hf : forall i, (i < n)%nat ->
    exists l1 l2, done = l1 ++ i :: l2 /\ errors_ p !! i = Some (error_of (fst (item_at i (execs l1 h0))))).
  { intros i Hlt. destruct (pi_finished _ _ Hi i ltac:(lia)) as [(w & [E|[e E]])|Hf]; [| |exact Hf];
      apply Hw in E; discriminate. }
  split; [|split; [|exact Hf]].
  - apply NoDup_Permutation; [apply Hi | apply NoDup_seq |]. intros i. rewrite elem_of_seq. split; intros Hx.
    + pose proof (pi_done _ _ Hi i Hx). lia.
    + destruct (Hf i ltac:(lia)) as (l1 & l2 & -> & _). apply elem_of_app. right. apply elem_of_cons. auto.
  - intros w x E. apply Hw in E. destruct x; (discriminate || auto).
Qed.

(** ** Termination *)

Lemma schedule_length ws : forall p p', run_schedule items ws p = Some p' -> (length ws + measure p' <= measure p)%nat.
Proof.
  induction ws as [|w ws IH]; intros p p' E; cbn [run_schedule length] in *.
  - injection E as <-. lia.
  - destruct (pool_step items w p) as [p1|] eqn:E1; [|discriminate]. pose proof (pool_step_measure w p p1 E1).
    specialize (IH _ _ E). lia.
Qed.

(** A batch in progress: the workers are alive and not told to stop. *)
Definition live (p : pool H) : Prop :=
  stop_ p = false /\ (0 < length (threads_ p))%nat /\ forall w, threads_ p !! w <> Some Exited.

Lemma live_start workers : (0 < workers)%nat -> live (pool_start workers items h0).
Proof.
  intros Hw. split; [reflexivity|]. cbn [pool_start threads_]. rewrite length_replicate. split; [exact Hw|].
  intros w E. apply lookup_replicate in E as [[=] _].
Qed.

Lemma live_step w p p' : live p -> pool_step items w p = Some p' -> live p'.
Proof.
  intros (Hs & Hl & Hx) E.
  assert (Hx' : forall y, threads_ p' = <[w := y]> (threads_ p) -> y <> Exited -> stop_ p' = stop_ p -> live p').
  { intros y Et Hy Es. split; [congruence|]. rewrite Et, length_insert. split; [exact Hl|].
    intros w' E'. cases E'. exact (Hx _ E'). }
  unfold pool_step in E. destruct (threads_ p !! w) as [[|i|i e|]|]; try discriminate.
  - rewrite Hs in E. destruct (Nat.ltb _ _); [|discriminate]. injection E as <-.
    eapply Hx'; [reflexivity | discriminate | symmetry; exact Hs].
  - destruct (items !! i) as [item|]; [|discriminate].
    destruct (call_item item (heap p)) as [[u|e|] h]; try discriminate; injection E as <-;
      (eapply Hx'; [reflexivity | discriminate | reflexivity]).
  - injection E as <-. eapply Hx'; [reflexivity | discriminate | reflexivity].
Qed.

Lemma live_steps p p' : pool_steps items p p' -> live p -> live p'.
Proof. induction 1 as [|p w p1 p' E _ IH]; [auto|]. intros Hl. exact (IH (live_step w p p1 Hl E)). Qed.

Lemma completes p done : pool_inv p done -> live p -> exists p', pool_steps items p p' /\ pending_ p' = 0%nat.
Proof.
  remember (measure p) as m eqn:Em. revert p done Em. induction m as [m IH] using lt_wf_ind.
  intros p done Em Hi Hl. destruct (decide (pending_ p = 0%nat)) as [E|Hne]; [exists p; split; [constructor | exact E]|].
  destruct (pool_progress p done Hi (proj1 Hl) (proj1 (proj2 Hl)) (proj2 (proj2 Hl)) ltac:(lia)) as (w & p1 & E1).
  destruct (pool_step_inv w p p1 done Hi E1) as [done1 Hi1].
  destruct (IH (measure p1) ltac:(subst m; apply (pool_step_measure w p p1 E1)) p1 done1 eq_refl Hi1 (live_step w p p1 Hl E1))
    as (p' & Hp & Hz).
  exists p'. split; [econstructor; eauto | exact Hz].
Qed.

(** ** Serial execution *)

Definition errors_along (l : list nat) (h : H) : list (option exn) :=
  (fun i => error_of (fst (item_at i (execs (seq 0 i) h)))) <$> l.

Lemma execs_app l1 l2 h : execs (l1 ++ l2) h = execs l2 (execs l1 h).
Proof. unfold execs. apply foldl_app. Qed.

Lemma serial_loop_spec k : forall i first,
  (i + k = n)%nat ->
  serial_loop (drop i items) first (execs (seq 0 i) h0) =
  (rethrow (first_error (first :: errors_along (seq i k) h0)), execs (seq 0 n) h0).
Proof.
  induction k as [|k IH]; intros i first Hk.
  - rewrite drop_ge by lia. cbn. replace i with n by lia. destruct first; reflexivity.
  - destruct (lookup_lt_is_Some_2 items i ltac:(lia)) as [item Ei]. rewrite (drop_S _ _ _ Ei).
    cbn [serial_loop seq errors_along fmap list_fmap]. fold (errors_along (seq (S i) k) h0).
    pose proof (returns i (execs (seq 0 i) h0)) as Hr.
    assert (Ea : item_at i = call_item item) by (unfold item_at; rewrite Ei; reflexivity). rewrite Ea in *.
    assert (En : execs (seq 0 (S i)) h0 = snd (call_item item (execs (seq 0 i) h0)))
      by (rewrite seq_S, execs_app; cbn; rewrite Ea; reflexivity).
    destruct (call_item item (execs (seq 0 i) h0)) as [[u|e|] h1] eqn:Ec; cbn [fst snd error_of] in *; [| |contradiction];
      subst h1; rewrite IH by lia; f_equal; destruct first; reflexivity.
Qed.

Lemma runSerial_spec :
  runSerial items h0 = (rethrow (first_error (errors_along (seq 0 n) h0)), execs (seq 0 n) h0).
Proof. exact (serial_loop_spec n 0 None eq_refl). Qed.

(** ** Items that do not interfere *)

Definition independent : Prop := forall i j h, i <> j ->
  fst (item_at j (snd (item_at i h))) = fst (item_at j h) /\
  snd (item_at j (snd (item_at i h))) = snd (item_at i (snd (item_at j h))).

Lemma independent_fst l j h : independent -> j ∉ l -> fst (item_at j (execs l h)) = fst (item_at j h).
Proof.
  intros Hind. revert h. induction l as [|i l IH]; intros h Hj; [reflexivity|].
  apply not_elem_of_cons in Hj as [Hne Hj]. change (execs (i :: l) h) with (execs l (snd (item_at i h))).
  rewrite IH by exact Hj. apply Hind. congruence.
Qed.

Lemma independent_perm l1 l2 h : independent -> l1 ≡ₚ l2 -> NoDup l1 -> execs l1 h = execs l2 h.
Proof.
  intros Hind Hp. revert h. induction Hp as [|x l l' _ IH|x y l|l l' l'' Hp1 IH1 Hp2 IH2]; intros h Hnd.
  - reflexivity.
  - apply NoDup_cons in Hnd as [_ Hnd]. apply IH, Hnd.
  - apply NoDup_cons in Hnd as [Hy _]. apply not_elem_of_cons in Hy as [Hne _].
    change (execs l (snd (item_at x (snd (item_at y h)))) = execs l (snd (item_at y (snd (item_at x h))))).
    f_equal. apply Hind. congruence.
  - rewrite IH1 by exact Hnd. apply IH2. rewrite <- Hp1. exact Hnd.
Qed.
End Spec.


(** A completed batch ran every item exactly once.  Whatever the
    schedule, the heap is that of running a permutation of all items one
    after the other, every worker is back at its wait, and the error slot of
    each item holds what that item threw in that run. *)
Theorem pool_runs_each_item_once {H} (items : list (WorkItem H)) (h0 : H) workers p :
  pool_steps items (pool_start workers items h0) p -> pending_ p = 0%nat ->
  exists order, order ≡ₚ seq 0 (length items) /\ heap p = execs items order h0 /\
    (forall w x, threads_ p !! w = Some x -> x = Waiting \/ x = Exited) /\
    forall i, (i < length items)%nat -> exists before after, order = before ++ i :: after /\
      errors_ p !! i = Some (error_of (fst (item_at items i (execs items before h0)))).
Proof.
  intros Hp Hz. destruct (pool_steps_inv items h0 _ _ Hp _ (pool_start_inv items h0 workers)) as [done Hi].
  destruct (completed items h0 p done Hi Hz) as (H1 & H2 & H3). exists done.
  split; [exact H1|]. split; [apply Hi|]. split; [exact H2 | exact H3].
Qed.

(** C6: the pool refines serial execution.  When the callbacks do not
    interfere, every completed schedule of every number of workers leaves the
    heap and answers with the exception that [runSerial] does: the one of the
    first failing item in batch order. *)
Theorem pool_refines_serial {H} (items : list (WorkItem H)) (h0 : H) workers p :
  (forall i h, fst (item_at items i h) <> Terminate) -> independent items ->
  pool_steps items (pool_start workers items h0) p -> pending_ p = 0%nat ->
  (pool_result p, heap p) = runSerial items h0.
Proof.
  intros Hr Hind Hp Hz. destruct (pool_steps_inv items h0 _ _ Hp _ (pool_start_inv items h0 workers)) as [done Hi].
  destruct (completed items h0 p done Hi Hz) as (Hperm & _ & Herr).
  rewrite (runSerial_spec items h0 Hr). unfold pool_result. f_equal; [do 2 f_equal|].
  - apply list_eq. intros i. unfold errors_along. rewrite list_lookup_fmap.
    destruct (decide (i < length items)%nat) as [Hlt|Hge].
    + rewrite lookup_seq_lt by exact Hlt. cbn [fmap option_fmap option_map plus].
      destruct (Herr i Hlt) as (l1 & l2 & Hd & ->). do 2 f_equal.
      rewrite !independent_fst; [reflexivity | exact Hind | rewrite elem_of_seq; lia | exact Hind |].
      pose proof (pi_nodup _ _ _ _ Hi) as Hnd. rewrite Hd in Hnd. apply NoDup_app in Hnd as (_ & Hnd & _).
      intros Hin. apply (Hnd i Hin), elem_of_cons. auto.
    + rewrite (lookup_ge_None_2 (errors_ p)) by (rewrite (pi_errors _ _ _ _ Hi); lia).
      rewrite (lookup_ge_None_2 (seq _ _)) by (rewrite length_seq; lia). reflexivity.
  - rewrite (pi_heap _ _ _ _ Hi). apply independent_perm; [exact Hind | exact Hperm | apply Hi].
Qed.

(** ** Two counters on a pool of two workers *)

Module PoolWitness.
(** The first item throws after its update; the second throws as well. *)
Definition left_item : WorkItem (Z * Z) := Some (fun '(a, b) => (Throw (RuntimeError "left"), (a + 1, b))).
Definition right_item : WorkItem (Z * Z) := Some (fun '(a, b) => (Throw (RuntimeError "right"), (a, b * 2))).
Definition batch := [left_item; right_item].

Lemma batch_returns i h : fst (item_at batch i h) <> Terminate.
Proof. destruct h as [a b], i as [|[|i]]; discriminate. Qed.

Lemma batch_independent : independent batch.
Proof. intros i j [a b] Hne. destruct i as [|[|i]], j as [|[|j]]; (contradiction || split; reflexivity). Qed.

(** Worker 1 claims item 0, worker 0 claims item 1 and finishes first. *)
Definition schedule : list nat := [1; 0; 0; 0; 1; 1]%nat.
Definition final : pool (Z * Z) :=
  mkPool (1, 10) 2 0 [Some (RuntimeError "left"); Some (RuntimeError "right")] false [Waiting; Waiting].

Lemma schedule_runs ws p p' :
  run_schedule batch ws p = Some p' -> pool_steps batch p p'.
Proof.
  revert p. induction ws as [|w ws IH]; intros p; cbn [run_schedule].
  - intros [= <-]. constructor.
  - destruct (pool_step batch w p) as [p1|] eqn:E; [|discriminate]. intros Hr. econstructor; [exact E | apply IH, Hr].
Qed.

Lemma final_reached : pool_steps batch (pool_start 2 batch (0, 5)) final.
Proof. apply (schedule_runs schedule). reflexivity. Qed.

Lemma pool_refines_serial_witness :
  runSerial batch (0, 5) = (Throw (RuntimeError "left"), (1, 10)).
Proof. exact (eq_sym (pool_refines_serial batch (0, 5) 2 final batch_returns batch_independent final_reached eq_refl)). Defined.

Lemma pool_runs_each_item_once_witness :
  exists order, order ≡ₚ [0; 1]%nat /\ heap final = execs batch order (0, 5).
Proof.
  destruct (pool_runs_each_item_once batch (0, 5) 2 final final_reached eq_refl) as (order & Hp & Hh & _).
  exact (ex_intro _ order (conj Hp Hh)).
Defined.

End PoolWitness.
