(* ===== verification/ModelInput.v ===== *)
(** * Model configuration: [runtime/model_input.cpp] and [model_input.h]

    The UTF-8 check, the JSON scanner, the canonical printer and the parser
    of the runtime limits.  Text is a list of bytes; the scanner's cursor is
    the suffix of the input it has not consumed. *)

From Stdlib Require Import ZArith Lia String.
From stdpp Require Import base list numbers strings.
From S2P Require Import Prelude.

Definition is_byte (b : Z) : Prop := 0 <= b < 256.

(** ** [isValidUtf8] *)

(** The continuation bytes of one code point. *)
Fixpoint continuation (count : nat) (codePoint : Z) (input : list Z) : option (Z * list Z) :=
  match count with
  | O => Some (codePoint, input)
  | S count' =>
    match input with
    | [] => None
    | c :: rest =>
      if negb (Z.land c 192 =? 128) then None
      else continuation count' (Z.lor (wrapu 32 (Z.shiftl codePoint 6)) (Z.land c 63)) rest
    end
  end.

(** The class of a lead byte: continuation count, initial bits, minimum. *)
Definition lead_class (lead : Z) : option (nat * Z * Z) :=
  if Z.land lead 224 =? 192 then Some (1%nat, Z.land lead 31, 128)
  else if Z.land lead 240 =? 224 then Some (2%nat, Z.land lead 15, 2048)
  else if Z.land lead 248 =? 240 then Some (3%nat, Z.land lead 7, 65536)
  else None.

(** One round of the loop: the code point of [lead] and what is left. *)
Definition code_point (lead : Z) (rest : list Z) : option (Z * list Z) :=
  if lead <? 128 then Some (lead, rest)
  else
    match lead_class lead with
    | None => None
    | Some (count, bits, minimum) =>
      if Nat.ltb (length rest) count then None
      else
        match continuation count bits rest with
        | None => None
        | Some (codePoint, rest') =>
          if (codePoint <? minimum) || (1114111 <? codePoint) ||
             ((55296 <=? codePoint) && (codePoint <=? 57343))
          then None
          else Some (codePoint, rest')
        end
    end.

(** The loop; every round consumes a byte, so the length is enough fuel. *)
Fixpoint utf8_loop (fuel : nat) (input : list Z) : bool :=
  match fuel, input with
  | _, [] => true
  | O, _ => false
  | S fuel', lead :: rest =>
    match code_point lead rest with
    | None => false
    | Some (_, rest') => utf8_loop fuel' rest'
    end
  end.

Definition isValidUtf8 (input : list Z) : bool := utf8_loop (length input) input.

(** ** [class Parser] *)

Fixpoint take_token (token input : list Z) : option (list Z) :=
  match token, input with
  | [], _ => Some input
  | t :: token', c :: input' => if t =? c then take_token token' input' else None
  | _ :: _, [] => None
  end.

Definition parse_null (input : list Z) : option (list Z) := take_token (lit "null") input.

Definition is_digit (c : Z) : bool := (48 <=? c) && (c <=? 57).

(** The digit run at the cursor and what follows it. *)
Fixpoint digits (input : list Z) : list Z * list Z :=
  match input with
  | c :: rest => if is_digit c then let '(ds, r) := digits rest in (c :: ds, r) else ([], input)
  | [] => ([], [])
  end.

(** [std::from_chars] of a digit run into a [uint64_t]. *)
Definition decimal (ds : list Z) : Z := foldl (fun acc c => 10 * acc + (c - 48)) 0 ds.
Definition from_chars (ds : list Z) : option Z :=
  let v := decimal ds in if v <? 2 ^ 64 then Some v else None.

Definition unsignedInteger (input : list Z) : option (Z * list Z) :=
  let '(ds, rest) := digits input in
  match ds with
  | [] => None
  | d :: more =>
    if Nat.ltb 1 (length ds) && (d =? 48) then None
    else match from_chars ds with Some v => Some (v, rest) | None => None end
  end.

(** The character an escape letter stands for. *)
Definition unescape (c : Z) : option Z :=
  if c =? 34 then Some 34
  else if c =? 92 then Some 92
  else if c =? 47 then Some 47
  else if c =? 98 then Some 8
  else if c =? 102 then Some 12
  else if c =? 110 then Some 10
  else if c =? 114 then Some 13
  else if c =? 116 then Some 9
  else None.

Fixpoint string_body (result input : list Z) : option (list Z * list Z) :=
  match input with
  | [] => None
  | c :: rest =>
    if c =? 34 then Some (result, rest)
    else if c <? 32 then None
    else if negb (c =? 92) then string_body (result ++ [c]) rest
    else
      match rest with
      | [] => None
      | e :: rest' =>
        match unescape e with
        | Some x => string_body (result ++ [x]) rest'
        | None => None
        end
      end
  end.

Definition parse_string (input : list Z) : option (list Z * list Z) :=
  match take_token [34] input with
  | Some rest => string_body [] rest
  | None => None
  end.

(** ** Printing *)

(** [quote]: the bytes of one character, [None] for a control character it
    refuses. *)
Definition quote_char (c : Z) : option (list Z) :=
  if c =? 34 then Some [92; 34]
  else if c =? 92 then Some [92; 92]
  else if c =? 8 then Some [92; 98]
  else if c =? 12 then Some [92; 102]
  else if c =? 10 then Some [92; 110]
  else if c =? 13 then Some [92; 114]
  else if c =? 9 then Some [92; 116]
  else if c <? 32 then None
  else Some [c].

Fixpoint quote_body (value : list Z) : option (list Z) :=
  match value with
  | [] => Some []
  | c :: rest =>
    match quote_char c with
    | None => None
    | Some bs => match quote_body rest with Some more => Some (bs ++ more) | None => None end
    end
  end.

Definition quote (value : list Z) : list Z :=
  match quote_body value with
  | Some body => 34 :: body ++ [34]
  | None => []
  end.

(** [output << value] for a [uint64_t]: at most twenty digits. *)
Fixpoint print_decimal (fuel : nat) (v : Z) : list Z :=
  match fuel with
  | O => []
  | S fuel' => if v <? 10 then [48 + v] else print_decimal fuel' (v / 10) ++ [48 + v mod 10]
  end.
Definition print_u64 (v : Z) : list Z := print_decimal 20 v.

(** ** The limits *)

(** [maxDomainCycles] is a [std::map]: entries in key order. *)
Record RuntimeLimits := mkLimits {
  deadlockWindow : option Z;
  maxTicks : option Z;
  maxDomainCycles : list (list Z * Z);
}.
Definition no_limits : RuntimeLimits := mkLimits None None [].

(** [std::string] order: unsigned bytes, then length. *)
Fixpoint bytes_lt (a b : list Z) : bool :=
  match a, b with
  | _, [] => false
  | [], _ :: _ => true
  | x :: a', y :: b' => if x <? y then true else if y <? x then false else bytes_lt a' b'
  end.

(** [std::map::emplace] *)
Fixpoint emplace (name : list Z) (value : Z) (m : list (list Z * Z)) : list (list Z * Z) :=
  match m with
  | [] => [(name, value)]
  | (k, v) :: rest =>
    if bytes_lt name k then (name, value) :: m
    else if bytes_lt k name then (k, v) :: emplace name value rest
    else m
  end.

Definition print_optional (v : option Z) : list Z :=
  match v with Some x => print_u64 x | None => lit "null" end.

Fixpoint print_domains (first : bool) (m : list (list Z * Z)) : list Z :=
  match m with
  | [] => []
  | (name, value) :: rest =>
    (if first then [] else lit ",") ++ quote name ++ lit ":" ++ print_u64 value ++ print_domains false rest
  end.

Definition canonicalConfig (l : RuntimeLimits) : list Z :=
  lit "{'deadlock_window':" ++ print_optional (deadlockWindow l) ++
  lit ",'max_domain_cycles':{" ++ print_domains true (maxDomainCycles l) ++
  lit "},'max_ticks':" ++ print_optional (maxTicks l) ++
  lit ",'schema':'pycircuit-model-config','version':'1'}".

(** ** [parseModelConfigJson] *)

Definition optionalUnsigned (input : list Z) : option (option Z * list Z) :=
  match parse_null input with
  | Some rest => Some (None, rest)
  | None => match unsignedInteger input with Some (v, rest) => Some (Some v, rest) | None => None end
  end.

(** One [name : value] entry above [prior]. *)
Definition domain_entry (prior input : list Z) : option (list Z * Z * list Z) :=
  match parse_string input with
  | None => None
  | Some (name, rest) =>
    if bool_decide (name = []) || negb (bytes_lt prior name) then None
    else
      match take_token (lit ":") rest with
      | None => None
      | Some rest =>
        match unsignedInteger rest with
        | None => None
        | Some (value, rest) => Some (name, value, rest)
        end
      end
  end.

(** The [while (true)] loop; every round consumes input. *)
Fixpoint domains_loop (fuel : nat) (prior : list Z) (m : list (list Z * Z)) (input : list Z)
  : string + list (list Z * Z) * list Z :=
  match fuel with
  | O => inl "model config max_domain_cycles is not canonical"%string
  | S fuel' =>
    match domain_entry prior input with
    | None => inl "model config max_domain_cycles is not canonical"%string
    | Some (name, value, rest) =>
      let m := emplace name value m in
      match take_token (lit "}") rest with
      | Some rest => inr (m, rest)
      | None =>
        match take_token (lit ",") rest with
        | Some rest => domains_loop fuel' name m rest
        | None => inl "model config max_domain_cycles is malformed"%string
        end
      end
    end
  end.

Definition parse_domains (input : list Z) : string + list (list Z * Z) * list Z :=
  match take_token (lit "}") input with
  | Some rest => inr ([], rest)
  | None => domains_loop (length input) [] [] input
  end.

Definition parse_head (input : list Z) : option (option Z * list Z) :=
  match take_token (lit "{'deadlock_window':") input with
  | None => None
  | Some rest =>
    match optionalUnsigned rest with
    | None => None
    | Some (window, rest) =>
      match take_token (lit ",'max_domain_cycles':{") rest with
      | None => None
      | Some rest => Some (window, rest)
      end
    end
  end.

Definition parse_tail (input : list Z) : option (option Z) :=
  match take_token (lit ",'max_ticks':") input with
  | None => None
  | Some rest =>
    match optionalUnsigned rest with
    | None => None
    | Some (ticks, rest) =>
      match take_token (lit ",'schema':'pycircuit-model-config','version':'1'}") rest with
      | None => None
      | Some rest => if bool_decide (rest = []) then Some ticks else None
      end
    end
  end.

Definition parseModelConfigJson (input : list Z) : string + RuntimeLimits :=
  if negb (isValidUtf8 input) then inl "model config is not valid UTF-8"%string
  else if bool_decide (input = lit "{}") then inr no_limits
  else
    match parse_head input with
    | None => inl "model config is malformed or has unknown fields"%string
    | Some (window, rest) =>
      match parse_domains rest with
      | inl error => inl error
      | inr (domains, rest) =>
        match parse_tail rest with
        | None => inl "model config is not canonical v1 JSON"%string
        | Some ticks =>
          let limits := mkLimits window ticks domains in
          if negb (bool_decide (canonicalConfig limits = input))
          then inl "model config is not canonical v1 JSON"%string
          else inr limits
        end
      end
    end.
