(* ===== verification/ModelInputSpec.v ===== *)
(** * Specification of the model configuration parser

    The UTF-8 check accepts exactly the encodings of Unicode scalar values;
    the parser accepts exactly the canonical texts and is inverse to the
    canonical printer. *)

From Stdlib Require Import ZArith Lia String.
From stdpp Require Import base list numbers strings.
From S2P Require Import Prelude ModelInput.

(** ** UTF-8 *)

Definition scalar (cp : Z) : Prop := 0 <= cp <= 1114111 /\ ~ (55296 <= cp <= 57343).

(** The encoding of the Unicode standard, by ranges. *)
Definition encode (cp : Z) : list Z :=
  if cp <? 128 then [cp]
  else if cp <? 2048 then [192 + cp / 64; 128 + cp mod 64]
  else if cp <? 65536 then [224 + cp / 4096; 128 + (cp / 64) mod 64; 128 + cp mod 64]
  else [240 + cp / 262144; 128 + (cp / 4096) mod 64; 128 + (cp / 64) mod 64; 128 + cp mod 64].

Lemma byte_cases (p : Z -> bool) : forallb p (Z.of_nat <$> seq 0 256) = true -> forall b, is_byte b -> p b = true.
Proof.
  intros H b Hb. rewrite forallb_forall in H. apply H, list_elem_of_In, list_elem_of_fmap.
  exists (Z.to_nat b). unfold is_byte in Hb. split; [lia | apply elem_of_seq; lia].
Qed.

Definition lead_range (b : Z) : option (nat * Z * Z) :=
  if (192 <=? b) && (b <? 224) then Some (1%nat, b - 192, 128)
  else if (224 <=? b) && (b <? 240) then Some (2%nat, b - 224, 2048)
  else if (240 <=? b) && (b <? 248) then Some (3%nat, b - 240, 65536)
  else None.

Lemma lead_class_spec b : is_byte b -> lead_class b = lead_range b.
Proof.
  set (agrees := fun b => bool_decide (lead_class b = lead_range b)).
  assert (Hall : forallb agrees (Z.of_nat <$> seq 0 256) = true) by (vm_compute; reflexivity).
  intros Hb. exact (bool_decide_eq_true_1 _ (byte_cases agrees Hall b Hb)).
Qed.

Lemma continuation_bits b : is_byte b ->
  (Z.land b 192 =? 128) = ((128 <=? b) && (b <? 192)) /\ (128 <= b < 192 -> Z.land b 63 = b - 128).
Proof.
  intros Hb.
  assert (H : (Bool.eqb (Z.land b 192 =? 128) ((128 <=? b) && (b <? 192))) &&
    (if (128 <=? b) && (b <? 192) then Z.land b 63 =? b - 128 else true) = true).
  { apply (byte_cases (fun b => (Bool.eqb (Z.land b 192 =? 128) ((128 <=? b) && (b <? 192))) &&
      (if (128 <=? b) && (b <? 192) then Z.land b 63 =? b - 128 else true))); [vm_compute; reflexivity | exact Hb]. }
  apply andb_prop in H as [H1 H2]. split; [apply Bool.eqb_prop, H1|]. intros Hr.
  replace ((128 <=? b) && (b <? 192)) with true in H2 by lia. lia.
Qed.

Lemma push_bits cp x : 0 <= cp < 2 ^ 26 -> 0 <= x < 64 -> Z.lor (wrapu 32 (Z.shiftl cp 6)) x = 64 * cp + x.
Proof.
  intros Hc Hx. unfold wrapu. rewrite Z.shiftl_mul_pow2, Z.mod_small by lia.
  rewrite <- Z.add_nocarry_lor; [lia|]. apply Z.bits_inj'. intros k Hk.
  rewrite Z.land_spec, Z.bits_0. destruct (Z.ltb_spec k 6).
  - rewrite Z.mul_pow2_bits_low by lia. reflexivity.
  - rewrite (is_u_testbit 6 x) by (unfold is_u; lia). apply andb_false_r.
Qed.

Definition is_continuation (c : Z) : Prop := 128 <= c < 192.

(** The continuation loop shifts in six bits per byte. *)
Lemma continuation_spec count : forall cp input,
  Forall is_byte input -> 0 <= cp -> (cp + 1) * 64 ^ Z.of_nat count <= 2 ^ 26 ->
  continuation count cp input =
  if bool_decide (Forall is_continuation (take count input)) && (Nat.leb count (length input))
  then Some (foldl (fun a c => 64 * a + (c - 128)) cp (take count input), drop count input) else None.
Proof.
  induction count as [|count IH]; intros cp input Hin Hcp Hb; [reflexivity|].
  destruct input as [|c input]; cbn [continuation take drop length Nat.leb].
  { rewrite andb_false_r. reflexivity. }
  inversion Hin as [|? ? Hc Hin']; subst. destruct (continuation_bits c Hc) as [-> Hx].
  rewrite Nat2Z.inj_succ, Z.pow_succ_r in Hb by lia.
  destruct ((128 <=? c) && (c <? 192)) eqn:E; cbn [negb].
  - assert (Hr : 128 <= c < 192) by lia. rewrite (Hx Hr).
    assert (0 < 64 ^ Z.of_nat count) by (apply Z.pow_pos_nonneg; lia).
    rewrite push_bits by (lia || nia). rewrite IH by (assumption || nia || lia). cbn [foldl].
    replace (bool_decide (Forall is_continuation (c :: take count input)))
      with (bool_decide (Forall is_continuation (take count input))); [reflexivity|].
    apply bool_decide_ext. rewrite Forall_cons. unfold is_continuation at 2. tauto.
  - rewrite bool_decide_eq_false_2; [reflexivity|]. rewrite Forall_cons. intros [Hr _]. unfold is_continuation in Hr. lia.
Qed.

Lemma div64 a x : 0 <= x < 64 -> (64 * a + x) / 64 = a /\ (64 * a + x) mod 64 = x.
Proof. intros Hx. split; [symmetry; apply (Z.div_unique _ 64 a x) | symmetry; apply (Z.mod_unique _ 64 a x)]; lia. Qed.

(** The encoding with its bytes named. *)
Lemma encode2 a x : 0 <= x < 64 -> 128 <= 64 * a + x < 2048 -> encode (64 * a + x) = [192 + a; 128 + x].
Proof.
  intros Hx Hr. unfold encode. destruct (div64 a x Hx) as [-> ->].
  destruct (Z.ltb_spec (64 * a + x) 128); [lia|]. destruct (Z.ltb_spec (64 * a + x) 2048); [reflexivity | lia].
Qed.

Lemma encode3 a x y : 0 <= x < 64 -> 0 <= y < 64 -> 2048 <= 64 * (64 * a + x) + y < 65536 ->
  encode (64 * (64 * a + x) + y) = [224 + a; 128 + x; 128 + y].
Proof.
  intros Hx Hy Hr. unfold encode. change 4096 with (64 * 64). rewrite <- Z.div_div by lia.
  destruct (div64 (64 * a + x) y Hy) as [-> ->]. destruct (div64 a x Hx) as [-> ->].
  set (cp := 64 * (64 * a + x) + y) in *. replace (cp <? 128) with false by lia.
  replace (cp <? 2048) with false by lia. replace (cp <? 65536) with true by lia. reflexivity.
Qed.

Lemma encode4 a x y z : 0 <= x < 64 -> 0 <= y < 64 -> 0 <= z < 64 -> 65536 <= 64 * (64 * (64 * a + x) + y) + z ->
  encode (64 * (64 * (64 * a + x) + y) + z) = [240 + a; 128 + x; 128 + y; 128 + z].
Proof.
  intros Hx Hy Hz Hr. unfold encode. change 262144 with (64 * (64 * 64)). change 4096 with (64 * 64).
  rewrite <- !Z.div_div by lia. destruct (div64 (64 * (64 * a + x) + y) z Hz) as [-> ->].
  destruct (div64 (64 * a + x) y Hy) as [-> ->]. destruct (div64 a x Hx) as [-> ->].
  set (cp := 64 * (64 * (64 * a + x) + y) + z) in *. replace (cp <? 128) with false by lia.
  replace (cp <? 2048) with false by lia. replace (cp <? 65536) with false by lia. reflexivity.
Qed.

Ltac byte_lia := unfold is_byte, scalar, is_continuation in *; lia.

Lemma code_point_sound lead rest cp rest' :
  Forall is_byte (lead :: rest) -> code_point lead rest = Some (cp, rest') -> scalar cp /\ lead :: rest = encode cp ++ rest'.
Proof.
  intros Hb. inversion Hb as [|? ? Hl Hr]; subst. unfold code_point. destruct (Z.ltb_spec lead 128) as [Hlt|Hge].
  { intros [= <- <-]. split; [byte_lia|]. unfold encode. rewrite (proj2 (Z.ltb_lt _ _) Hlt). reflexivity. }
  rewrite (lead_class_spec lead Hl). unfold lead_range.
  destruct ((192 <=? lead) && (lead <? 224)) eqn:E1; [|destruct ((224 <=? lead) && (lead <? 240)) eqn:E2;
    [|destruct ((240 <=? lead) && (lead <? 248)) eqn:E3; [|discriminate]]];
    (match goal with |- context [Nat.ltb (length rest) ?k] => destruct (Nat.ltb_spec (length rest) k) as [|Hlen] end; [discriminate|]);
    rewrite continuation_spec by (exact Hr || cbn; lia);
    (match goal with |- context [take ?k rest] => destruct (bool_decide_reflect (Forall is_continuation (take k rest))) as [Hc|] end; [|discriminate]);
    cbn [andb]; (destruct (Nat.leb _ _); [|discriminate]).
  - destruct rest as [|c1 rest]; [cbn in Hlen; lia|]. cbn [take drop foldl] in *. rewrite take_0 in *. cbn [foldl].
    inversion Hc as [|? ? H1 _]; subst. destruct (_ || _) eqn:Ec; [discriminate|]. intros [= <- <-].
    rewrite drop_0. split; [byte_lia|]. rewrite encode2 by byte_lia.
    cbn [app]. f_equal; [lia | f_equal; lia].
  - destruct rest as [|c1 [|c2 rest]]; [cbn in Hlen; lia..|]. cbn [take drop foldl] in *. rewrite take_0 in *. cbn [foldl].
    inversion Hc as [|? ? H1 Hc2]; subst. inversion Hc2 as [|? ? H2 _]; subst.
    destruct (_ || _) eqn:Ec; [discriminate|]. intros [= <- <-]. rewrite drop_0. split; [byte_lia|]. rewrite encode3 by byte_lia.
    cbn [app]. f_equal; [lia|]. f_equal; [lia|]. f_equal; lia.
  - destruct rest as [|c1 [|c2 [|c3 rest]]]; [cbn in Hlen; lia..|]. cbn [take drop foldl] in *. rewrite take_0 in *. cbn [foldl].
    inversion Hc as [|? ? H1 Hc2]; subst. inversion Hc2 as [|? ? H2 Hc3]; subst. inversion Hc3 as [|? ? H3 _]; subst.
    destruct (_ || _) eqn:Ec; [discriminate|]. intros [= <- <-]. rewrite drop_0. split; [byte_lia|].
    rewrite encode4 by byte_lia. cbn [app]. f_equal; [lia|]. f_equal; [lia|]. f_equal; [lia|]. f_equal; lia.
Qed.

Ltac divmod64 v q r :=
  pose proof (Z.div_mod v 64 ltac:(lia)); pose proof (Z.mod_pos_bound v 64 ltac:(lia));
  set (q := v / 64) in *; set (r := v mod 64) in *.

Lemma continuations_ok l rest count cp :
  length l = count -> Forall is_continuation l -> Forall is_byte rest -> 0 <= cp ->
  (cp + 1) * 64 ^ Z.of_nat count <= 2 ^ 26 ->
  continuation count cp (l ++ rest) = Some (foldl (fun a c => 64 * a + (c - 128)) cp l, rest).
Proof.
  intros <- Hl Hr Hc Hb. rewrite continuation_spec; [|apply Forall_app; split; [|exact Hr] | exact Hc | exact Hb].
  - rewrite take_app_length, drop_app_length, bool_decide_eq_true_2 by exact Hl.
    rewrite length_app, (proj2 (Nat.leb_le _ _)) by lia. reflexivity.
  - eapply Forall_impl; [exact Hl|]. intros c. byte_lia.
Qed.

(** One round consumes exactly one encoded scalar value. *)
Lemma code_point_encode cp rest :
  scalar cp -> Forall is_byte rest ->
  exists lead tail, encode cp = lead :: tail /\ code_point lead (tail ++ rest) = Some (cp, rest) /\ Forall is_byte (lead :: tail).
Proof.
  intros Hs Hr. unfold encode. destruct (Z.ltb_spec cp 128) as [Hlt|H1].
  { exists cp, []. unfold code_point. rewrite (proj2 (Z.ltb_lt _ _) Hlt). repeat constructor; byte_lia. }
  assert (Hgo : forall lead tail count bits minimum,
    128 <= lead -> is_byte lead -> lead_range lead = Some (count, bits, minimum) -> length tail = count ->
    Forall is_continuation tail -> 0 <= bits -> (bits + 1) * 64 ^ Z.of_nat count <= 2 ^ 26 ->
    foldl (fun a c => 64 * a + (c - 128)) bits tail = cp -> minimum <= cp ->
    code_point lead (tail ++ rest) = Some (cp, rest) /\ Forall is_byte (lead :: tail)).
  { intros lead tail count bits minimum H128 Hl Hc Hlen Ht Hb0 Hb Hf Hm. split.
    - unfold code_point. destruct (Z.ltb_spec lead 128); [lia|]. rewrite (lead_class_spec lead Hl), Hc.
      rewrite length_app, (proj2 (Nat.ltb_ge _ _)) by lia. rewrite continuations_ok, Hf by assumption.
      replace ((cp <? minimum) || (1114111 <? cp) || ((55296 <=? cp) && (cp <=? 57343))) with false by byte_lia.
      reflexivity.
    - constructor; [exact Hl|]. eapply Forall_impl; [exact Ht|]. intros c. byte_lia. }
  destruct (Z.ltb_spec cp 2048) as [Hlt2|H2]; [|destruct (Z.ltb_spec cp 65536) as [Hlt3|H3]].
  - divmod64 cp q r. eexists _, _. split; [reflexivity|]. apply (Hgo _ _ 1%nat q 128);
      [lia | byte_lia | | reflexivity | repeat constructor; byte_lia | lia | cbn; lia | cbn [foldl]; lia | lia].
    unfold lead_range. replace ((192 <=? 192 + q) && (192 + q <? 224)) with true by lia. do 3 f_equal. lia.
  - change 4096 with (64 * 64). rewrite <- Z.div_div by lia. divmod64 cp q r. divmod64 q q1 r1.
    eexists _, _. split; [reflexivity|]. apply (Hgo _ _ 2%nat q1 2048);
      [lia | byte_lia | | reflexivity | repeat constructor; byte_lia | lia | cbn; lia | cbn [foldl]; lia | lia].
    unfold lead_range. replace ((192 <=? 224 + q1) && (224 + q1 <? 224)) with false by lia.
    replace ((224 <=? 224 + q1) && (224 + q1 <? 240)) with true by lia. do 3 f_equal. lia.
  - change 262144 with (64 * (64 * 64)). change 4096 with (64 * 64). rewrite <- !Z.div_div by lia.
    divmod64 cp q r. divmod64 q q1 r1. divmod64 q1 q2 r2.
    eexists _, _. split; [reflexivity|]. apply (Hgo _ _ 3%nat q2 65536);
      [lia | byte_lia | | reflexivity | repeat constructor; byte_lia | lia | cbn; byte_lia | cbn [foldl]; lia | lia].
    unfold lead_range. replace ((192 <=? 240 + q2) && (240 + q2 <? 224)) with false by lia.
    replace ((224 <=? 240 + q2) && (240 + q2 <? 240)) with false by lia.
    replace ((240 <=? 240 + q2) && (240 + q2 <? 248)) with true by byte_lia. do 3 f_equal. lia.
Qed.

Definition encode_all (cps : list Z) : list Z := concat (encode <$> cps).

Lemma utf8_loop_sound fuel : forall input,
  Forall is_byte input -> utf8_loop fuel input = true -> exists cps, Forall scalar cps /\ input = encode_all cps.
Proof.
  induction fuel as [|fuel IH]; intros [|lead rest] Hb H; try discriminate; [exists []; split; [constructor | reflexivity]..|].
  cbn [utf8_loop] in H. destruct (code_point lead rest) as [[cp rest']|] eqn:E; [|discriminate].
  destruct (code_point_sound lead rest cp rest' Hb E) as (Hcp & Eq). rewrite Eq in Hb |- *.
  apply Forall_app in Hb as [_ Hb]. destruct (IH rest' Hb H) as (cps & Hcps & ->).
  exists (cp :: cps). split; [constructor; assumption | reflexivity].
Qed.

Lemma encode_all_bytes cps : Forall scalar cps -> Forall is_byte (encode_all cps).
Proof.
  induction 1 as [|cp cps Hcp _ IH]; [constructor|]. apply Forall_app. split; [|exact IH].
  destruct (code_point_encode cp [] Hcp (Forall_nil_2 _)) as (lead & tail & -> & _ & Hb). exact Hb.
Qed.

Lemma utf8_loop_complete cps rest : forall fuel,
  Forall scalar cps -> Forall is_byte rest -> (length (encode_all cps ++ rest) <= fuel)%nat ->
  (forall fuel', (length rest <= fuel')%nat -> utf8_loop fuel' rest = true) ->
  utf8_loop fuel (encode_all cps ++ rest) = true.
Proof.
  induction cps as [|cp cps IH]; intros fuel Hc Hr Hf Hrest; [apply Hrest, Hf|].
  inversion Hc as [|? ? Hcp Hcps]; subst.
  assert (Hb : Forall is_byte (encode_all cps ++ rest)) by (apply Forall_app; split; [apply encode_all_bytes|]; assumption).
  destruct (code_point_encode cp _ Hcp Hb) as (lead & tail & Eq & Hcode & _).
  change (encode_all (cp :: cps)) with (encode cp ++ encode_all cps) in *. rewrite <- app_assoc, Eq in *.
  cbn [app] in *. destruct fuel as [|fuel]; [cbn in Hf; lia|]. cbn [utf8_loop]. rewrite Hcode.
  apply IH; [exact Hcps | exact Hr | | exact Hrest]. cbn [length] in Hf. rewrite length_app in Hf. lia.
Qed.

(** [isValidUtf8] accepts exactly the UTF-8 encodings of sequences of
    Unicode scalar values: overlong forms, surrogates, values above U+10FFFF,
    stray and missing continuation bytes are all rejected. *)
Theorem utf8_exact input :
  Forall is_byte input ->
  (isValidUtf8 input = true <-> exists cps, Forall scalar cps /\ input = encode_all cps).
Proof.
  intros Hb. split.
  - apply utf8_loop_sound, Hb.
  - intros (cps & Hc & ->). unfold isValidUtf8. rewrite <- (app_nil_r (encode_all cps)) at 2.
    apply utf8_loop_complete; [exact Hc | constructor | rewrite app_nil_r; lia | intros [|f] _; reflexivity].
Qed.

(** The text [A, e-acute, euro sign, U+1F600]. *)
Lemma utf8_exact_witness :
  Forall is_byte [65; 195; 169; 226; 130; 172; 240; 159; 152; 128] /\
  isValidUtf8 [65; 195; 169; 226; 130; 172; 240; 159; 152; 128] = true.
Proof.
  assert (Hb : Forall is_byte [65; 195; 169; 226; 130; 172; 240; 159; 152; 128]) by (repeat constructor; discriminate).
  split; [exact Hb|]. apply (utf8_exact _ Hb). exists [65; 233; 8364; 128512].
  split; [repeat constructor; unfold scalar; lia | reflexivity].
Defined.
