(* ===== verification/ConfigSpec.v ===== *)
(** * The configuration parser is inverse to the canonical printer *)

From Stdlib Require Import ZArith Lia String.
From stdpp Require Import base list numbers strings.
From S2P Require Import Prelude ModelInput ModelInputSpec.

(** ** Tokens *)

Lemma take_token_app t r : take_token t (t ++ r) = Some r.
Proof. induction t as [|x t IH]; [destruct r; reflexivity|]. cbn. rewrite Z.eqb_refl. exact IH. Qed.

Lemma take_token_Some t : forall i r, take_token t i = Some r -> i = t ++ r.
Proof.
  induction t as [|x t IH]; intros [|c i] r E; cbn in E; try discriminate; [injection E as <-; reflexivity..|].
  destruct (Z.eqb_spec x c) as [->|]; [|discriminate]. rewrite (IH _ _ E). reflexivity.
Qed.

(** ** Numbers *)

Definition digit_free (r : list Z) : Prop := match r with c :: _ => is_digit c = false | [] => True end.

Lemma print_decimal_digits fuel v : 0 <= v -> Forall (fun c => is_digit c = true) (print_decimal fuel v).
Proof.
  revert v. induction fuel as [|fuel IH]; intros v Hv; cbn [print_decimal]; [constructor|].
  destruct (Z.ltb_spec v 10).
  - repeat constructor. unfold is_digit. lia.
  - apply Forall_app. split; [apply IH, Z.div_pos; lia|]. repeat constructor. unfold is_digit.
    pose proof (Z.mod_pos_bound v 10 ltac:(lia)). lia.
Qed.

Lemma decimal_app ds c : decimal (ds ++ [c]) = 10 * decimal ds + (c - 48).
Proof. unfold decimal. rewrite foldl_app. reflexivity. Qed.

Lemma print_decimal_spec fuel : forall v, 0 <= v < 10 ^ Z.of_nat fuel -> (0 < fuel)%nat ->
  decimal (print_decimal fuel v) = v /\
  exists d more, print_decimal fuel v = d :: more /\ (v <> 0 -> d <> 48) /\ (more = [] \/ v <> 0).
Proof.
  induction fuel as [|fuel IH]; intros v Hv Hf; [lia|]. cbn [print_decimal].
  destruct (Z.ltb_spec v 10) as [Hlt|Hge].
  - split; [unfold decimal; cbn; lia|]. exists (48 + v), []. split; [reflexivity|]. split; [lia | auto].
  - rewrite Nat2Z.inj_succ, Z.pow_succ_r in Hv by lia. pose proof (Z.div_mod v 10 ltac:(lia)).
    pose proof (Z.mod_pos_bound v 10 ltac:(lia)).
    destruct (IH (v / 10)) as (Hd & d & more & E & H1 & H2); [lia| |].
    { destruct fuel; [cbn in Hv; lia | lia]. }
    rewrite decimal_app, Hd. split; [lia|]. rewrite E. exists d, (more ++ [48 + v mod 10]).
    split; [reflexivity|]. split; [intros _; apply H1; lia | right; lia].
Qed.

Lemma digits_app ds r : Forall (fun c => is_digit c = true) ds -> digit_free r -> digits (ds ++ r) = (ds, r).
Proof.
  intros H Hr. induction H as [|c ds Hc _ IH]; cbn [app digits].
  - destruct r as [|c r]; [reflexivity|]. cbn. cbn in Hr. rewrite Hr. reflexivity.
  - rewrite Hc, IH. reflexivity.
Qed.

Lemma unsignedInteger_print v r : is_u 64 v -> digit_free r -> unsignedInteger (print_u64 v ++ r) = Some (v, r).
Proof.
  intros Hv Hr. unfold unsignedInteger, print_u64. rewrite digits_app by (try assumption; apply print_decimal_digits, Hv).
  destruct (print_decimal_spec 20 v) as (Hd & d & more & E & H1 & H2); [unfold is_u in Hv; lia | lia|].
  rewrite E. unfold from_chars. rewrite <- E, Hd.
  replace (Nat.ltb 1 (length (print_decimal 20 v)) && (d =? 48)) with false.
  - destruct (Z.ltb_spec v (2 ^ 64)); [reflexivity | unfold is_u in Hv; lia].
  - rewrite E. destruct H2 as [->|H2]; [reflexivity|]. symmetry. apply andb_false_intro2, Z.eqb_neq, H1, H2.
Qed.

Lemma unsignedInteger_range i v r : unsignedInteger i = Some (v, r) -> is_u 64 v.
Proof.
  unfold unsignedInteger.
  assert (Hds : forall i, Forall (fun c => is_digit c = true) (fst (digits i))).
  { induction i0 as [|c i0 IH]; cbn [digits]; [constructor|]. destruct (is_digit c) eqn:E; [|constructor].
    destruct (digits i0) as [ds rest]. constructor; [exact E | exact IH]. }
  assert (Hpos : forall ds acc, 0 <= acc -> Forall (fun c => is_digit c = true) ds ->
    0 <= foldl (fun acc c => 10 * acc + (c - 48)) acc ds).
  { intros ds acc Ha H. revert acc Ha. induction H as [|c ds Hc _ IH]; intros acc Ha; cbn [foldl]; [exact Ha|].
    apply IH. unfold is_digit in Hc. lia. }
  specialize (Hds i). destruct (digits i) as [ds rest]. cbn [fst] in Hds. destruct ds as [|d more] eqn:Eds; [discriminate|].
  rewrite <- Eds in *. destruct (_ && _); [discriminate|]. unfold from_chars.
  destruct (Z.ltb_spec (decimal ds) (2 ^ 64)); [|discriminate]. intros [= <- _]. split; [|lia].
  apply Hpos; [lia | exact Hds].
Qed.

Lemma print_u64_head v : is_u 64 v -> exists d more, print_u64 v = d :: more /\ is_digit d = true.
Proof.
  intros Hv. destruct (print_decimal_spec 20 v) as (_ & d & more & E & _); [unfold is_u in Hv; lia | lia|].
  exists d, more. split; [exact E|]. pose proof (print_decimal_digits 20 v ltac:(apply Hv)) as H. rewrite E in H.
  inversion H; assumption.
Qed.

Lemma optional_print o r : (forall v, o = Some v -> is_u 64 v) -> digit_free r ->
  optionalUnsigned (print_optional o ++ r) = Some (o, r).
Proof.
  intros Ho Hr. unfold optionalUnsigned, parse_null. destruct o as [v|]; cbn [print_optional].
  - specialize (Ho v eq_refl). rewrite unsignedInteger_print by assumption.
    destruct (print_u64_head v Ho) as (d & more & -> & Hd).
    replace (take_token (lit "null") ((d :: more) ++ r)) with (@None (list Z)); [reflexivity|].
    change (lit "null") with [110; 117; 108; 108]. cbn [app take_token]. destruct (Z.eqb_spec 110 d) as [<-|]; [discriminate | reflexivity].
  - rewrite take_token_app. reflexivity.
Qed.

Lemma optional_range i o r : optionalUnsigned i = Some (o, r) -> forall v, o = Some v -> is_u 64 v.
Proof.
  unfold optionalUnsigned. destruct (parse_null i); [intros [= <- _]; discriminate|].
  destruct (unsignedInteger i) as [[v0 r0]|] eqn:E; [|discriminate]. intros [= <- _] v [= <-].
  exact (unsignedInteger_range _ _ _ E).
Qed.

(** ** Strings *)

Definition quotable (s : list Z) : Prop := exists body, quote_body s = Some body.

Lemma quote_char_unescape c bs acc rest :
  quote_char c = Some bs ->
  string_body acc (bs ++ rest) = string_body (acc ++ [c]) rest.
Proof.
  unfold quote_char. intros E.
  repeat match type of E with (if ?c =? ?k then _ else _) = _ =>
    destruct (Z.eqb_spec c k) as [->|]; [injection E as <-; reflexivity|] end.
  destruct (Z.ltb_spec c 32); [discriminate|]. injection E as <-. cbn [app string_body].
  rewrite (proj2 (Z.eqb_neq c 34)), (proj2 (Z.eqb_neq c 92)), (proj2 (Z.ltb_ge c 32)) by assumption. reflexivity.
Qed.

Lemma string_body_quote s : forall body acc rest,
  quote_body s = Some body -> string_body acc (body ++ 34 :: rest) = Some (acc ++ s, rest).
Proof.
  induction s as [|c s IH]; intros body acc rest E; cbn [quote_body] in E.
  - injection E as <-. cbn. rewrite app_nil_r. reflexivity.
  - destruct (quote_char c) as [bs|] eqn:Ec; [|discriminate]. destruct (quote_body s) as [more|]; [|discriminate].
    injection E as <-. rewrite <- app_assoc, (quote_char_unescape _ _ _ _ Ec), (IH more _ _ eq_refl), <- app_assoc. reflexivity.
Qed.

Lemma parse_string_quote s rest : quotable s -> parse_string (quote s ++ rest) = Some (s, rest).
Proof.
  intros [body E]. unfold parse_string, quote. rewrite E. cbn [app take_token]. rewrite Z.eqb_refl.
  rewrite <- app_assoc. exact (string_body_quote s body [] rest E).
Qed.

(** The scanner only produces characters the printer can write back. *)
Lemma quotable_snoc s c bs : quotable s -> quote_char c = Some bs -> quotable (s ++ [c]).
Proof.
  intros [body E] Ec. revert body E. induction s as [|x s IH]; intros body E; cbn [app].
  - exists (bs ++ []). cbn. rewrite Ec. reflexivity.
  - cbn [quote_body] in E. destruct (quote_char x) as [bx|] eqn:Ex; [|discriminate].
    destruct (quote_body s) as [more|] eqn:Em; [|discriminate]. destruct (IH more eq_refl) as [body' E'].
    exists (bx ++ body'). cbn. rewrite Ex, E'. reflexivity.
Qed.

Lemma unescape_quotable e x : unescape e = Some x -> exists bs, quote_char x = Some bs.
Proof.
  unfold unescape. intros E.
  repeat match type of E with (if ?c =? ?k then _ else _) = _ =>
    destruct (c =? k); [injection E as <-; eexists; reflexivity|] end. discriminate.
Qed.

Lemma string_body_quotable i : forall acc s r,
  quotable acc -> string_body acc i = Some (s, r) -> quotable s /\ (length r < length i)%nat.
Proof.
  induction i as [i IH] using (induction_ltof1 _ (@length Z)). unfold ltof in IH.
  intros acc s r Ha E. destruct i as [|c i]; [discriminate|]. cbn [string_body] in E.
  destruct (Z.eqb_spec c 34) as [|H34]; [injection E as <- <-; split; [exact Ha | cbn; lia]|].
  destruct (Z.ltb_spec c 32) as [|H32]; [discriminate|].
  destruct (Z.eqb_spec c 92) as [E92|H92]; cbn [negb] in E.
  - destruct i as [|e i]; [discriminate|]. destruct (unescape e) as [x|] eqn:Ex; [|discriminate].
    destruct (unescape_quotable e x Ex) as [bs Hbs].
    destruct (IH i ltac:(cbn; lia) _ _ _ (quotable_snoc acc x bs Ha Hbs) E) as [H1 H2]. split; [exact H1 | cbn; lia].
  - assert (Hq : quote_char c = Some [c]).
    { unfold quote_char. repeat match goal with |- context [c =? ?k] => rewrite (proj2 (Z.eqb_neq c k)) by lia end.
      rewrite (proj2 (Z.ltb_ge c 32)) by lia. reflexivity. }
    destruct (IH i ltac:(cbn; lia) _ _ _ (quotable_snoc acc c [c] Ha Hq) E) as [H1 H2]. split; [exact H1 | cbn; lia].
Qed.

(** ** Key order *)

Lemma bytes_lt_trans a : forall b c, bytes_lt a b = true -> bytes_lt b c = true -> bytes_lt a c = true.
Proof.
  induction a as [|x a IH]; intros [|y b] [|z c] H1 H2; cbn in *; try discriminate; [reflexivity|].
  destruct (Z.ltb_spec x y), (Z.ltb_spec y z), (Z.ltb_spec x z); try reflexivity; try lia;
    destruct (Z.ltb_spec y x), (Z.ltb_spec z y); try discriminate; try lia.
  destruct (Z.ltb_spec z x); [lia|]. eapply IH; eassumption.
Qed.

Lemma bytes_lt_asym a : forall b, bytes_lt a b = true -> bytes_lt b a = false.
Proof.
  induction a as [|x a IH]; intros [|y b] H; cbn in *; try discriminate; [reflexivity|].
  destruct (Z.ltb_spec x y), (Z.ltb_spec y x); try lia; try discriminate. apply IH, H.
Qed.

Lemma emplace_last name v m :
  Forall (fun kv => bytes_lt kv.1 name = true) m -> emplace name v m = m ++ [(name, v)].
Proof.
  induction 1 as [|[k w] m Hk _ IH]; [reflexivity|]. cbn [fst] in Hk. cbn [emplace app].
  rewrite (bytes_lt_asym _ _ Hk), Hk, IH. reflexivity.
Qed.

(** ** Domains *)

(** Entries as [std::map] keeps them and the parser admits them: keys
    ascending above [prior], not empty and printable, values of 64 bits. *)
Fixpoint domains_ok (prior : list Z) (ds : list (list Z * Z)) : Prop :=
  match ds with
  | [] => True
  | (k, v) :: rest => bytes_lt prior k = true /\ k <> [] /\ quotable k /\ is_u 64 v /\ domains_ok k rest
  end.

Lemma domain_entry_print prior k v rest :
  bytes_lt prior k = true -> k <> [] -> quotable k -> is_u 64 v -> digit_free rest ->
  domain_entry prior (quote k ++ lit ":" ++ print_u64 v ++ rest) = Some (k, v, rest).
Proof.
  intros Hp Hk Hq Hv Hr. unfold domain_entry. rewrite parse_string_quote by exact Hq.
  rewrite bool_decide_eq_false_2 by exact Hk. rewrite Hp. cbn [negb orb].
  rewrite take_token_app, unsignedInteger_print by assumption. reflexivity.
Qed.

Lemma domain_entry_sound prior i k v rest :
  domain_entry prior i = Some (k, v, rest) ->
  bytes_lt prior k = true /\ k <> [] /\ quotable k /\ is_u 64 v.
Proof.
  unfold domain_entry. destruct (parse_string i) as [[name r]|] eqn:Es; [|discriminate].
  destruct (bool_decide_reflect (name = [])); [discriminate|]. cbn [orb].
  destruct (bytes_lt prior name) eqn:Ep; cbn [negb]; [|discriminate].
  destruct (take_token (lit ":") r) as [r1|]; [|discriminate].
  destruct (unsignedInteger r1) as [[v1 r2]|] eqn:Eu; [|discriminate]. intros [= -> -> _].
  split; [exact Ep|]. split; [assumption|]. split; [|exact (unsignedInteger_range _ _ _ Eu)].
  unfold parse_string in Es. destruct (take_token [34] i) as [r0|]; [|discriminate].
  apply (string_body_quotable _ [] _ _ (ex_intro _ [] eq_refl) Es).
Qed.

Definition below (m : list (list Z * Z)) (name : list Z) : Prop := Forall (fun kv => bytes_lt kv.1 name = true) m.

Lemma below_snoc m k v k2 : below m k -> bytes_lt k k2 = true -> below (m ++ [(k, v)]) k2.
Proof.
  intros Hb Hlt. apply Forall_app. split; [|repeat constructor; exact Hlt].
  eapply Forall_impl; [exact Hb|]. intros kv H. exact (bytes_lt_trans _ _ _ H Hlt).
Qed.

Lemma domains_loop_print ds : forall k v fuel prior m rest,
  domains_ok prior ((k, v) :: ds) -> (length ds < fuel)%nat -> below m k ->
  domains_loop fuel prior m (print_domains true ((k, v) :: ds) ++ lit "}" ++ rest) = inr (m ++ (k, v) :: ds, rest).
Proof.
  induction ds as [|[k2 v2] ds IH]; intros k v fuel prior m rest (Hp & Hk & Hq & Hv & Hds) Hf Hb;
    (destruct fuel as [|fuel]; [cbn in Hf; lia|]); cbn [domains_loop].
  - cbn [print_domains]. rewrite app_nil_l, app_nil_r, <- !app_assoc.
    rewrite domain_entry_print by (assumption || reflexivity).
    rewrite (emplace_last k v m Hb). rewrite take_token_app. reflexivity.
  - change (print_domains true ((k, v) :: (k2, v2) :: ds))
      with (quote k ++ lit ":" ++ print_u64 v ++ lit "," ++ print_domains true ((k2, v2) :: ds)).
    rewrite <- !app_assoc. rewrite domain_entry_print by (assumption || reflexivity).
    rewrite (emplace_last k v m Hb). change (take_token (lit "}") (lit "," ++ ?x)) with (@None (list Z)).
    rewrite take_token_app. rewrite (IH k2 v2 fuel k (m ++ [(k, v)]) rest).
    + rewrite <- app_assoc. reflexivity.
    + exact Hds.
    + cbn in Hf. lia.
    + apply below_snoc; [exact Hb | apply Hds].
Qed.

Lemma domains_loop_sound fuel : forall prior m i ds rest,
  (m = [] \/ below m prior \/ exists m0 v, m = m0 ++ [(prior, v)] /\ below m0 prior) ->
  domains_loop fuel prior m i = inr (ds, rest) ->
  exists more, ds = m ++ more /\ domains_ok prior more.
Proof.
  induction fuel as [|fuel IH]; intros prior m i ds rest Hm E; [discriminate|]. cbn [domains_loop] in E.
  destruct (domain_entry prior i) as [[[k v] r]|] eqn:Ed; [|discriminate].
  destruct (domain_entry_sound _ _ _ _ _ Ed) as (Hp & Hk & Hq & Hv).
  assert (Hb : below m k).
  { destruct Hm as [->|[Hm|(m0 & v0 & -> & Hm)]]; [constructor | | apply below_snoc; assumption].
    eapply Forall_impl; [exact Hm|]. intros kv H. exact (bytes_lt_trans _ _ _ H Hp). }
  rewrite (emplace_last k v m Hb) in E. destruct (take_token (lit "}") r) as [r1|].
  - injection E as <- <-. exists [(k, v)]. split; [reflexivity|]. cbn. auto.
  - destruct (take_token (lit ",") r) as [r1|]; [|discriminate].
    destruct (IH k (m ++ [(k, v)]) r1 ds rest) as (more & -> & Hok); [right; right; eauto | exact E|].
    exists ((k, v) :: more). rewrite <- app_assoc. split; [reflexivity|]. cbn. auto.
Qed.

Lemma parse_domains_print ds rest :
  domains_ok [] ds -> parse_domains (print_domains true ds ++ lit "}" ++ rest) = inr (ds, rest).
Proof.
  intros Hok. unfold parse_domains. destruct ds as [|[k v] ds].
  - cbn [print_domains]. rewrite app_nil_l, take_token_app. reflexivity.
  - replace (take_token (lit "}") (print_domains true ((k, v) :: ds) ++ lit "}" ++ rest)) with (@None (list Z)).
    2:{ destruct Hok as (_ & _ & [body Hq] & _). cbn [print_domains]. unfold quote. rewrite Hq. reflexivity. }
    rewrite (domains_loop_print ds k v); [reflexivity | exact Hok | | constructor].
    assert (Hlen : forall b ds, (length ds <= length (print_domains b ds))%nat).
    { intros b l. revert b. induction l as [|[k0 v0] l IHl]; intros b; cbn [print_domains length]; [lia|].
      specialize (IHl false). rewrite !length_app. cbn [length lit]. change (length (lit ":")) with 1%nat. lia. }
    cbn [print_domains]. rewrite !length_app. specialize (Hlen false ds). change (length (lit ":")) with 1%nat. lia.
Qed.

(** ** The configuration *)

Definition limits_ok (l : RuntimeLimits) : Prop :=
  (forall v, deadlockWindow l = Some v -> is_u 64 v) /\ (forall v, maxTicks l = Some v -> is_u 64 v) /\
  domains_ok [] (maxDomainCycles l).

Lemma canonical_not_empty l : canonicalConfig l <> lit "{}".
Proof. discriminate. Qed.

Lemma parse_sound input l :
  parseModelConfigJson input = inr l ->
  isValidUtf8 input = true /\
  ((input = lit "{}" /\ l = no_limits) \/ (input = canonicalConfig l /\ limits_ok l)).
Proof.
  unfold parseModelConfigJson. destruct (isValidUtf8 input); cbn [negb]; [|discriminate].
  destruct (bool_decide_reflect (input = lit "{}")) as [E|_]; [intros [= <-]; auto|].
  destruct (parse_head input) as [[window r1]|] eqn:Eh; [|discriminate].
  destruct (parse_domains r1) as [e|[ds r2]] eqn:Ed; [discriminate|].
  destruct (parse_tail r2) as [ticks|] eqn:Et; [|discriminate].
  destruct (bool_decide_reflect (canonicalConfig (mkLimits window ticks ds) = input)) as [Ec|]; [|discriminate].
  intros [= <-]. split; [reflexivity|]. right. split; [symmetry; exact Ec|]. split; [|split]; cbn.
  - unfold parse_head in Eh. destruct (take_token _ input) as [r|]; [|discriminate].
    destruct (optionalUnsigned r) as [[w r']|] eqn:Eo; [|discriminate].
    destruct (take_token _ r'); [|discriminate]. injection Eh as -> _. exact (optional_range _ _ _ Eo).
  - unfold parse_tail in Et. destruct (take_token _ r2) as [r|]; [|discriminate].
    destruct (optionalUnsigned r) as [[w r']|] eqn:Eo; [|discriminate].
    destruct (take_token _ r') as [r''|]; [|discriminate].
    destruct (bool_decide (r'' = [])); [|discriminate]. injection Et as ->. exact (optional_range _ _ _ Eo).
  - unfold parse_domains in Ed. destruct (take_token _ r1); [injection Ed as <- _; exact I|].
    destruct (domains_loop_sound _ _ _ _ _ _ (or_introl eq_refl) Ed) as (more & -> & Hok). exact Hok.
Qed.

Lemma parse_limits_ok input l : parseModelConfigJson input = inr l -> limits_ok l.
Proof.
  intros E. destruct (parse_sound input l E) as [_ [[_ ->]|[_ Hl]]]; [|exact Hl].
  split; [discriminate | split; [discriminate | exact I]].
Qed.

(** C9: the parser is exact.  [parseModelConfigJson] accepts [{}] as no
    limits, and otherwise exactly the canonical text of limits with 64-bit
    values and ascending, printable, non-empty domain names, returning those
    limits: printing and parsing are inverse, and no limits have two
    accepted texts besides [{}]. *)
Theorem config_parser_exact input l :
  parseModelConfigJson input = inr l <->
  isValidUtf8 input = true /\
  ((input = lit "{}" /\ l = no_limits) \/ (input = canonicalConfig l /\ limits_ok l)).
Proof.
  split.
  - apply parse_sound.
  - intros [Hu [[-> ->]|[-> (Hw & Ht & Hd)]]]; unfold parseModelConfigJson; rewrite Hu; cbn [negb].
    + rewrite bool_decide_eq_true_2 by reflexivity. reflexivity.
    + rewrite bool_decide_eq_false_2 by apply canonical_not_empty.
      assert (Eh : parse_head (canonicalConfig l) = Some (deadlockWindow l, print_domains true (maxDomainCycles l) ++
        lit "}" ++ (lit ",'max_ticks':" ++ print_optional (maxTicks l) ++
          lit ",'schema':'pycircuit-model-config','version':'1'}"))).
      { unfold parse_head, canonicalConfig. rewrite take_token_app, optional_print by (assumption || reflexivity).
        rewrite take_token_app. reflexivity. }
      rewrite Eh, parse_domains_print by exact Hd. unfold parse_tail.
      rewrite take_token_app, optional_print by (assumption || reflexivity).
      replace (take_token _ (lit ",'schema':'pycircuit-model-config','version':'1'}")) with (Some ([] : list Z)) by reflexivity.
      rewrite bool_decide_eq_true_2 by reflexivity. destruct l as [w t ds]. cbn [deadlockWindow maxTicks maxDomainCycles].
      rewrite bool_decide_eq_true_2 by reflexivity. reflexivity.
Qed.
