(* ===== verification/SimExecutor.v ===== *)
(** * The executor behind the model API: [include/gfsim/SimExecutor.h],
    [model_api.h] and [runtime/sim_executor.cpp]

    The executor owns a system and mirrors its lifecycle as the C API's
    states and status codes.  Each call holds [callLock_] for its whole body,
    so the calls are atomic and the lock itself is not part of the state.
    Exhaustion of memory is not modelled. *)

From Stdlib Require Import ZArith Lia String.
From stdpp Require Import base list numbers strings.
From S2P Require Import Prelude Observations SimSystem ModelInput.

(** ** Status codes and results of [model_api.h] *)

Inductive Status := OK | INVALID_ARGUMENT | ABI_MISMATCH | INVALID_STATE | RUNTIME_FAILURE.
#[export] Instance Status_eq_dec : EqDecision Status.
Proof. solve_decision. Defined.
Definition status_code (s : Status) : Z :=
  match s with OK => 0 | INVALID_ARGUMENT => 1 | ABI_MISMATCH => 2 | INVALID_STATE => 3 | RUNTIME_FAILURE => 4 end.

Inductive StepState := STEP_RUNNING | STEP_QUIESCENT | STEP_TERMINATED | STEP_FAILED.
#[export] Instance StepState_eq_dec : EqDecision StepState.
Proof. solve_decision. Defined.

Record StepResult := mkStepResult {
  struct_size : Z;
  r_state : StepState;
  epoch_time : Z;
  epoch_delta : Z;
  reserved : Z;
}.
Definition sizeof_StepResult : Z := 24.

(** [PycircuitModelBufferV1]: a null pointer or the bytes, and the size. *)
Record Buffer := mkBuffer { b_data : option (list Z); b_size : Z }.

(** ** JSON text *)

Definition hex_digit (d : Z) : Z := if d <? 10 then 48 + d else 87 + d.

Definition escape_char (c : Z) : list Z :=
  if c =? 92 then [92; 92]
  else if c =? 34 then [92; 34]
  else if c =? 8 then [92; 98]
  else if c =? 12 then [92; 102]
  else if c =? 10 then [92; 110]
  else if c =? 13 then [92; 114]
  else if c =? 9 then [92; 116]
  else if c <? 32 then [92; 117; 48; 48; hex_digit (Z.shiftr c 4); hex_digit (Z.land c 15)]
  else [c].
Definition escapeJson (value : list Z) : list Z := concat (escape_char <$> value).

Definition appendString (output value : list Z) : list Z := output ++ [34] ++ escapeJson value ++ [34].

Definition appendStatistic (output : list Z) (first : bool) (objectPath name kind : list Z) (value lastUpdate : Z)
  : list Z :=
  let output := if first then output else output ++ lit "," in
  let output := output ++ lit "{'buckets':[],'count':0,'kind':" in
  let output := appendString output kind in
  let output := output ++ lit ",'last_update':{'delta':0,'time':" ++ print_u64 lastUpdate ++
                  lit "},'maximum':0,'minimum':0,'name':" in
  let output := appendString output name in
  let output := output ++ lit ",'object_path':" in
  let output := appendString output objectPath in
  output ++ lit ",'sum':0,'value':" ++ print_u64 value ++ lit "}".

Definition phaseName (p : SimFailurePhase) : list Z :=
  match p with
  | PhaseBuild => lit "api"
  | PhaseEvaluate => lit "evaluate"
  | PhaseCheck => lit "check"
  | PhaseDrive => lit "drive"
  | PhaseXfer => lit "xfer"
  | PhaseNone => lit "api"
  end.

Definition kFallbackError : list Z :=
  lit "{'code':'runtime_failure','message':'runtime failure','phase':'api','instance':null,'source':null,'check_id':null}".

(** The object [setError] writes. *)
Definition error_json (code message phase instance sourceJson checkIdJson : list Z) : list Z :=
  let output := lit "{'code':" in
  let output := appendString output code in
  let output := output ++ lit ",'message':" in
  let output := appendString output message in
  let output := output ++ lit ",'phase':" in
  let output := appendString output phase in
  let output := output ++ lit ",'instance':" in
  let output := if bool_decide (instance = []) then output ++ lit "null" else appendString output instance in
  output ++ lit ",'source':" ++ (if bool_decide (sourceJson = []) then lit "null" else sourceJson) ++
    lit ",'check_id':" ++ (if bool_decide (checkIdJson = []) then lit "null" else checkIdJson) ++ lit "}".

(** ** The executor *)

Record ReportGaugeDescriptor := mkReport {
  rg_stableOrdinal : Z;
  rg_objectPath : list Z;
  rg_name : list Z;
}.
#[export] Instance report_inhabited : Inhabited ReportGaugeDescriptor := populate (mkReport 0 [] []).

Inductive SimExecutorState := ExCreated | ExConfigured | ExReady | ExCompleted | ExFailed.
#[export] Instance SimExecutorState_eq_dec : EqDecision SimExecutorState.
Proof. solve_decision. Defined.

Inductive StopReason := StopNone | StopMaxTicks | StopMaxDomainCycles.
Definition stop_code (r : StopReason) : Z :=
  match r with StopNone => 0 | StopMaxTicks => 1 | StopMaxDomainCycles => 2 end.

Record SimExecutor := mkExecutor {
  reports_ : list ReportGaugeDescriptor;
  gaugeSnapshots_ : list GaugeSnapshot;
  ex_state : SimExecutorState;
  maxTicks_ : option Z;
  maxDomainCycles_ : option Z;
  stopReason_ : StopReason;
  stopReasonUpdate_ : Z;
  committedCycles_ : Z;
  statistics_ : list Z;
  lastError_ : list Z;
  fallbackError_ : bool;
  executionFailureLatched_ : bool;
}.

Module Ex.
Implicit Types e : SimExecutor.

Definition set_state e s := mkExecutor (reports_ e) (gaugeSnapshots_ e) s (maxTicks_ e) (maxDomainCycles_ e)
  (stopReason_ e) (stopReasonUpdate_ e) (committedCycles_ e) (statistics_ e) (lastError_ e) (fallbackError_ e)
  (executionFailureLatched_ e).
Definition set_text e text fallback := mkExecutor (reports_ e) (gaugeSnapshots_ e) (ex_state e) (maxTicks_ e)
  (maxDomainCycles_ e) (stopReason_ e) (stopReasonUpdate_ e) (committedCycles_ e) (statistics_ e) text fallback
  (executionFailureLatched_ e).
Definition set_latch e b := mkExecutor (reports_ e) (gaugeSnapshots_ e) (ex_state e) (maxTicks_ e)
  (maxDomainCycles_ e) (stopReason_ e) (stopReasonUpdate_ e) (committedCycles_ e) (statistics_ e) (lastError_ e)
  (fallbackError_ e) b.
Definition set_limits e ticks domain := mkExecutor (reports_ e) (gaugeSnapshots_ e) (ex_state e) ticks domain
  (stopReason_ e) (stopReasonUpdate_ e) (committedCycles_ e) (statistics_ e) (lastError_ e) (fallbackError_ e)
  (executionFailureLatched_ e).
Definition set_progress e reason update cycles snapshots := mkExecutor (reports_ e) snapshots (ex_state e)
  (maxTicks_ e) (maxDomainCycles_ e) reason update cycles (statistics_ e) (lastError_ e) (fallbackError_ e)
  (executionFailureLatched_ e).
Definition set_statistics e text := mkExecutor (reports_ e) (gaugeSnapshots_ e) (ex_state e) (maxTicks_ e)
  (maxDomainCycles_ e) (stopReason_ e) (stopReasonUpdate_ e) (committedCycles_ e) text (lastError_ e)
  (fallbackError_ e) (executionFailureLatched_ e).

Definition clearError e : SimExecutor := set_text e [] false.

Definition setError (code message phase instance sourceJson checkIdJson : list Z) (replace : bool) e : SimExecutor :=
  if executionFailureLatched_ e && negb replace then e
  else set_text e (error_json code message phase instance sourceJson checkIdJson) false.

Definition api_error (code message phase : string) e : SimExecutor :=
  setError (lit code) (lit message) (lit phase) [] [] [] false e.

Definition setBuffer (storage : list Z) : Buffer :=
  mkBuffer (if bool_decide (storage = []) then None else Some storage) (Z.of_nat (length storage)).

(** ** Reports *)

Definition reportsAreValid e : bool :=
  let reports := reports_ e in
  if negb (Nat.eqb (length reports) (length (gaugeSnapshots_ e))) then false
  else
    all_range (length reports) 0 (fun index =>
      let report := reports.[index] in
      if bool_decide (rg_objectPath report = []) || bool_decide (rg_name report = []) then false
      else if negb (all_range (Z.to_nat index) 0 (fun previous =>
             negb ((rg_stableOrdinal reports.[previous] =? rg_stableOrdinal report) ||
                   (bool_decide (rg_objectPath reports.[previous] = rg_objectPath report) &&
                    bool_decide (rg_name reports.[previous] = rg_name report)))))
      then false
      else existsb (fun g => g_stableOrdinal g =? rg_stableOrdinal report) (gaugeSnapshots_ e)).

Record Row := mkRow { row_path : list Z; row_name : list Z; row_kind : list Z; row_value : Z; row_update : Z }.

Definition row_lt (a b : Row) : bool :=
  if bytes_lt (row_path a) (row_path b) then true
  else if bytes_lt (row_path b) (row_path a) then false
  else bytes_lt (row_name a) (row_name b).

(** [std::sort] by the comparison above: any sort; here by insertion. *)
Fixpoint insert_row (r : Row) (rows : list Row) : list Row :=
  match rows with
  | [] => [r]
  | x :: rest => if row_lt r x then r :: rows else x :: insert_row r rest
  end.
Definition sort_rows (rows : list Row) : list Row := foldl (fun acc r => insert_row r acc) [] rows.

(** One row per report, [None] when its gauge is missing or not unsigned. *)
Fixpoint report_rows (gauges : list GaugeSnapshot) (reports : list ReportGaugeDescriptor) : option (list Row) :=
  match reports with
  | [] => Some []
  | r :: rest =>
    match List.find (fun g => g_stableOrdinal g =? rg_stableOrdinal r) gauges with
    | None => None
    | Some g =>
      if negb (bool_decide (sv_kind (g_value g) = KUnsigned)) then None
      else match report_rows gauges rest with
           | Some rows =>
             Some (mkRow (rg_objectPath r) (rg_name r) (lit "gauge") (sv_bits (g_value g)) (lastUpdate g) :: rows)
           | None => None
           end
    end
  end.

Definition runtime_rows e : list Row :=
  [mkRow (lit "@runtime") (lit "cycles") (lit "counter") (committedCycles_ e) (committedCycles_ e);
   mkRow (lit "@runtime") (lit "stop_reason") (lit "gauge") (stop_code (stopReason_ e)) (stopReasonUpdate_ e)].

Fixpoint print_rows (output : list Z) (first : bool) (rows : list Row) : list Z :=
  match rows with
  | [] => output
  | r :: rest =>
    print_rows (appendStatistic output first (row_path r) (row_name r) (row_kind r) (row_value r) (row_update r))
      false rest
  end.

Definition buildStatistics e : bool * SimExecutor :=
  if negb (reportsAreValid e) then (false, e)
  else
    match report_rows (gaugeSnapshots_ e) (reports_ e) with
    | None => (false, e)
    | Some rows =>
      let rows := sort_rows (runtime_rows e ++ rows) in
      (true, set_statistics e (print_rows (lit "[") true rows ++ lit "]" ++ [10]))
    end.

(** [std::copy(Gauges().begin(), Gauges().end(), gaugeSnapshots_.begin())] *)
Definition copy_gauges (o : ObservationSlots) (snapshots : list GaugeSnapshot) : list GaugeSnapshot :=
  gauges_ o ++ drop (length (gauges_ o)) snapshots.

Section Api.
Context {H M O : Type} `{HM : SimObj H M} `{HS : SystemHooks H O} `{EM : EqDecision M} `{EO : EqDecision O}.
(** The observation owner the executor refers to. *)
Context (observations : O).

(** The executor, its system and the heap. *)
Definition world : Type := SimExecutor * SimSystem M O * H.

Definition fresh (reports : list ReportGaugeDescriptor) (gauges : list GaugeSnapshot) : SimExecutor :=
  mkExecutor reports gauges ExFailed None None StopNone 0 0 [] [] false false.

(** The constructor. *)
Definition construct (reports : list ReportGaugeDescriptor) (sys : SimSystem M O) (h : H) : outcome world :=
  let e := fresh reports (gauges_ (obs_at observations h)) in
  if negb (Sys.HasObservations observations sys) || negb (reportsAreValid e)
  then Ret (api_error "runtime_failure" "report gauge metadata is invalid" "api" e, sys, h)
  else
    match Sys.Build (sys, h) with
    | (Ret _, (sys, h)) =>
      if negb (bool_decide (state_ sys = Built))
      then Ret (api_error "runtime_failure" "model Build failed" "api" e, sys, h)
      else Ret (clearError (set_state e ExCreated), sys, h)
    | _ => Terminate
    end.

Definition created (w : world) : bool := bool_decide (ex_state (fst (fst w)) = ExCreated).
Definition cycles (w : world) : Z := committedCycles_ (fst (fst w)).

(** [ConfigureJson]; [None] is a null pointer. *)
Definition ConfigureJson (data : option (list Z)) e : Status * SimExecutor :=
  if negb (bool_decide (ex_state e = ExCreated))
  then (INVALID_STATE, api_error "invalid_state" "configure requires Created state" "configure" e)
  else
    match data with
    | None | Some [] => (INVALID_ARGUMENT, api_error "invalid_argument" "model config buffer is invalid" "configure" e)
    | Some bytes =>
      let json := if bool_decide (last bytes = Some 10) then take (length bytes - 1) bytes else bytes in
      match parseModelConfigJson json with
      | inl error =>
        (INVALID_ARGUMENT, setError (lit "invalid_argument") (lit error) (lit "configure") [] [] [] false e)
      | inr candidate =>
        if bool_decide (is_Some (deadlockWindow candidate))
        then (INVALID_ARGUMENT,
              api_error "invalid_argument" "deadlock_window is unavailable in the foundation runtime" "configure" e)
        else if bool_decide (maxTicks candidate = Some 0) || Nat.ltb 1 (length (maxDomainCycles candidate)) ||
                match maxDomainCycles candidate with
                | [] => false
                | (name, limit) :: _ => negb (bool_decide (name = lit "default")) || (limit =? 0)
                end
        then (INVALID_ARGUMENT,
              api_error "invalid_argument" "runtime limits are outside the foundation profile" "configure" e)
        else
          let domain := match maxDomainCycles candidate with [] => None | (_, limit) :: _ => Some limit end in
          (OK, clearError (set_state (set_limits e (maxTicks candidate) domain) ExConfigured))
      end
    end.

Definition Reset : world -> Status * world := fun '(e, sys, h) =>
  if negb (bool_decide (ex_state e = ExConfigured)) && negb (bool_decide (ex_state e = ExReady)) &&
     negb (bool_decide (ex_state e = ExCompleted)) && negb (bool_decide (ex_state e = ExFailed))
  then (INVALID_STATE, (api_error "invalid_state" "reset requires a configured model" "reset" e, sys, h))
  else
    let '(sys, h) := Sys.Reset sys h in
    if negb (bool_decide (state_ sys = Ready)) then
      let e := setError (lit "reset_failed") (lit "model reset failed") (lit "reset") [] [] [] true
                 (set_state e ExFailed) in
      (RUNTIME_FAILURE, (set_latch e true, sys, h))
    else
      let e := set_progress e StopNone 0 0 (copy_gauges (obs_at observations h) (gaugeSnapshots_ e)) in
      (OK, (clearError (set_latch (set_state e ExReady) false), sys, h)).

(** [failure.code.empty() ? fallback : failure.code] *)
Definition or_default (text : list Z) (fallback : string) : list Z :=
  if bool_decide (text = []) then lit fallback else text.

Definition step_result (s : StepState) (cycle : Z) : StepResult := mkStepResult sizeof_StepResult s cycle 0 0.

(** [Step(result)]: [None] is a null pointer, otherwise the caller's
    record; the answer is the status and the record after the call. *)
Definition Step (result : option StepResult) : ST world (Status * option StepResult) := fun '(e, sys, h) =>
  match result with
  | None =>
    (Ret (INVALID_ARGUMENT, None), (api_error "invalid_argument" "step result is null" "api" e, sys, h))
  | Some r =>
    if negb (struct_size r =? sizeof_StepResult)
    then (Ret (ABI_MISMATCH, result),
          (api_error "abi_mismatch" "step result layout is incompatible" "api" e, sys, h))
    else if negb (bool_decide (ex_state e = ExReady)) then
      let e := if negb (bool_decide (ex_state e = ExFailed))
               then api_error "invalid_state" "step requires Ready state" "api" e else e in
      (Ret (INVALID_STATE, result), (e, sys, h))
    else if cycle_ sys =? u64_max then
      let e := setError (lit "counter_overflow") (lit "cycle counter would overflow") (lit "evaluate") [] [] [] true
                 (set_state e ExFailed) in
      (Ret (RUNTIME_FAILURE, Some (step_result STEP_FAILED (cycle_ sys))), (set_latch e true, sys, h))
    else
      match Sys.Step (sys, h) with
      | (Ret StepQuiescent, (sys, h)) =>
        (Ret (OK, Some (step_result STEP_QUIESCENT (cycle_ sys))), (clearError e, sys, h))
      | (Ret StepRunning, (sys, h)) =>
        let committed := cycle_ sys in
        let snapshots := copy_gauges (obs_at observations h) (gaugeSnapshots_ e) in
        let reached limit := match limit with Some n => n <=? committed | None => false end in
        let ticksReached := reached (maxTicks_ e) in
        let domainReached := reached (maxDomainCycles_ e) in
        if ticksReached || domainReached then
          let e := set_progress e (if ticksReached then StopMaxTicks else StopMaxDomainCycles) committed
                     committed snapshots in
          (Ret (OK, Some (step_result STEP_TERMINATED committed)), (clearError (set_state e ExCompleted), sys, h))
        else
          let e := set_progress e (stopReason_ e) (stopReasonUpdate_ e) committed snapshots in
          (Ret (OK, Some (step_result STEP_RUNNING committed)), (clearError e, sys, h))
      | (Ret _, (sys, h)) =>
        let f := failureInfo_ sys in
        let e := setError (or_default (code f) "runtime_failure") (or_default (message f) "model step failed")
                   (phaseName (phase f)) (instance f) (sourceJson f) (checkIdJson f) true (set_state e ExFailed) in
        (Ret (RUNTIME_FAILURE, Some (step_result STEP_FAILED (committedCycles_ e))), (set_latch e true, sys, h))
      | (_, (sys, h)) => (Terminate, (e, sys, h))
      end
  end.

Definition StatisticsJson (result : option Buffer) e : Status * option Buffer * SimExecutor :=
  match result with
  | None => (INVALID_ARGUMENT, None, api_error "invalid_argument" "statistics result is null" "statistics" e)
  | Some _ =>
    if negb (bool_decide (ex_state e = ExReady)) && negb (bool_decide (ex_state e = ExCompleted)) &&
       negb (bool_decide (ex_state e = ExFailed))
    then (INVALID_STATE, result, api_error "invalid_state" "statistics require an initialized model" "statistics" e)
    else
      let '(ok, e) := buildStatistics e in
      if negb ok
      then (RUNTIME_FAILURE, result, api_error "statistics_failure" "statistics snapshot failed" "statistics" e)
      else (OK, Some (setBuffer (statistics_ e)), e)
  end.

Definition LastError (result : option Buffer) e : Status * option Buffer * SimExecutor :=
  match result with
  | None => (INVALID_ARGUMENT, None, api_error "invalid_argument" "last_error result is null" "api" e)
  | Some _ =>
    (OK, Some (if fallbackError_ e then mkBuffer (Some kFallbackError) (Z.of_nat (length kFallbackError))
               else setBuffer (lastError_ e)), e)
  end.
End Api.
End Ex.
