(* ===== verification/SimExecutorSpec.v ===== *)
(** * Specification of the executor

    The API state machine and its invariant, run limits, the failure latch,
    and the text the executor produces. *)

From Stdlib Require Import ZArith Lia String Sorted.
From stdpp Require Import base list numbers strings.
From S2P Require Import Prelude Observations SimSystem SimSystemSpec ModelInput ModelInputSpec.
From S2P Require Import ConfigSpec SimExecutor.

Section Api.
Context {H M O : Type} `{HM : SimObj H M} `{HS : SystemHooks H O} `{EM : EqDecision M} `{EO : EqDecision O}.
Context (observations : O).
Implicit Types (e : SimExecutor) (sys : SimSystem M O) (h : H).
#[local] Abbreviation world := (SimExecutor * SimSystem M O * H)%type.

(** The configured limits. *)
Definition limits e : list Z := option_list (maxTicks_ e) ++ option_list (maxDomainCycles_ e).

Record ex_inv e sys : Prop := {
  xi_sys : sys_inv sys;
  xi_limits : Forall (fun n => 0 < n) (limits e);
  xi_before : ex_state e = ExCreated \/ ex_state e = ExConfigured -> state_ sys = Built;
  xi_ready : ex_state e = ExReady ->
    state_ sys = Ready /\ committedCycles_ e = cycle_ sys /\ Forall (fun n => cycle_ sys < n) (limits e);
  xi_completed : ex_state e = ExCompleted ->
    state_ sys = Ready /\ committedCycles_ e = cycle_ sys /\ stopReasonUpdate_ e = cycle_ sys /\
    Forall (fun n => cycle_ sys <= n) (limits e) /\ cycle_ sys ∈ limits e;
  xi_latch : executionFailureLatched_ e = true -> ex_state e = ExFailed;
}.

Lemma ex_inv_text e sys text fb : ex_inv e sys -> ex_inv (Ex.set_text e text fb) sys.
Proof. intros []. constructor; assumption. Qed.

Lemma setError_inv e sys c m p i s k b : ex_inv e sys -> ex_inv (Ex.setError c m p i s k b e) sys.
Proof. intros Hi. unfold Ex.setError. destruct (_ && _); [exact Hi | apply ex_inv_text, Hi]. Qed.

Lemma api_error_inv e sys c m p : ex_inv e sys -> ex_inv (Ex.api_error c m p e) sys.
Proof. apply setError_inv. Qed.

Lemma failed_inv_ex e sys e' :
  ex_inv e sys -> ex_state e' = ExFailed -> limits e' = limits e ->
  forall sys', sys_inv sys' -> ex_inv e' sys'.
Proof.
  intros Hi Es El sys' Hs. constructor; rewrite ?Es; try discriminate; try assumption; try (intros [|]; discriminate).
  - rewrite El. apply Hi.
  - reflexivity.
Qed.

Lemma setError_replace e c m p i s k :
  Ex.setError c m p i s k true e = Ex.set_text e (error_json c m p i s k) false.
Proof. unfold Ex.setError. rewrite andb_false_r. reflexivity. Qed.

Lemma setError_cases e c m p i s k b :
  (exists t f, Ex.setError c m p i s k b e = Ex.set_text e t f) \/ Ex.setError c m p i s k b e = e.
Proof. unfold Ex.setError. destruct (_ && _); eauto. Qed.

Lemma ConfigureJson_inv data e sys : ex_inv e sys -> ex_inv (snd (Ex.ConfigureJson data e)) sys.
Proof.
  intros Hi. unfold Ex.ConfigureJson. destruct (bool_decide_reflect (ex_state e = ExCreated)) as [Ec|]; cbn [negb];
    [|apply api_error_inv, Hi].
  destruct data as [[|b bytes]|]; try apply api_error_inv, Hi.
  destruct (parseModelConfigJson _) as [err|cand] eqn:Ep; [apply setError_inv, Hi|].
  destruct (bool_decide (is_Some (deadlockWindow cand))); [apply api_error_inv, Hi|].
  destruct (_ || _ || _) eqn:El; [apply api_error_inv, Hi|].
  apply ex_inv_text. destruct Hi as [H1 H2 H3 H4 H5 H6].
  apply orb_false_elim in El as [El Ed]. apply orb_false_elim in El as [Et _]. apply bool_decide_eq_false in Et.
  constructor; cbn; try assumption; try discriminate.
  - destruct (parse_limits_ok _ _ Ep) as (_ & Ht & Hd). unfold limits. cbn. apply Forall_app. split.
    + destruct (maxTicks cand) as [t|]; [|constructor]. repeat constructor. specialize (Ht t eq_refl). unfold is_u in Ht.
      assert (t <> 0) by congruence. lia.
    + destruct (maxDomainCycles cand) as [|[name lim] rest]; [constructor|]. repeat constructor.
      destruct Hd as (_ & _ & _ & Hl & _). unfold is_u in Hl. apply orb_false_elim in Ed as [_ Ed]. lia.
  - auto.
  - intros E. rewrite (H6 E) in Ec. discriminate.
Qed.

Lemma Reset_inv_ex e sys h : ex_inv e sys ->
  let '(_, (e', sys', _)) := Ex.Reset observations (e, sys, h) in ex_inv e' sys'.
Proof.
  intros Hi. unfold Ex.Reset. destruct (_ && _ && _ && _); [apply api_error_inv, Hi|].
  pose proof (Reset_inv sys h (xi_sys _ _ Hi)) as Hs. destruct (Sys.Reset sys h) as [sys' h'] eqn:Er. cbn [fst] in Hs.
  destruct (bool_decide_reflect (state_ sys' = Ready)) as [Es|]; cbn [negb].
  - apply ex_inv_text. assert (Ec : cycle_ sys' = 0).
    { unfold Sys.Reset in Er. destruct (_ && _) eqn:Eg in Er; [|injection Er as <- _; reflexivity].
      injection Er as <- _. rewrite Es in Eg. discriminate. }
    pose proof (xi_limits _ _ Hi) as Hl.
    constructor; cbn [Ex.set_latch Ex.set_state Ex.set_progress ex_state executionFailureLatched_ committedCycles_]; try assumption; try discriminate.
    + intros [|]; discriminate.
    + intros _. rewrite Ec. auto.
  - rewrite setError_replace. apply (failed_inv_ex e sys); [exact Hi | reflexivity | reflexivity | exact Hs].
Qed.

(** What a step of the executor does, by status and reported state. *)
Inductive exec_effect e sys : Status -> option StepState -> SimExecutor -> SimSystem M O -> Prop :=
| xe_rejected st e' : st = INVALID_ARGUMENT \/ st = ABI_MISMATCH \/ (st = INVALID_STATE /\ ex_state e <> ExReady) ->
    (exists t b, e' = Ex.set_text e t b) \/ e' = e -> exec_effect e sys st None e' sys
| xe_quiescent : ex_state e = ExReady -> exec_effect e sys OK (Some STEP_QUIESCENT) (Ex.clearError e) sys
| xe_failed e' sys' : ex_state e = ExReady -> sys_inv sys' -> ex_state e' = ExFailed -> limits e' = limits e ->
    executionFailureLatched_ e' = true -> committedCycles_ e' = committedCycles_ e ->
    exec_effect e sys RUNTIME_FAILURE (Some STEP_FAILED) e' sys'
| xe_running sys' snaps : ex_state e = ExReady -> sys_inv sys' -> state_ sys' = Ready -> cycle_ sys' = cycle_ sys + 1 ->
    Forall (fun n => cycle_ sys' < n) (limits e) ->
    exec_effect e sys OK (Some STEP_RUNNING)
      (Ex.clearError (Ex.set_progress e (stopReason_ e) (stopReasonUpdate_ e) (cycle_ sys') snaps)) sys'
| xe_terminated sys' snaps reason : ex_state e = ExReady -> sys_inv sys' -> state_ sys' = Ready ->
    cycle_ sys' = cycle_ sys + 1 -> Exists (fun n => n <= cycle_ sys') (limits e) ->
    reason = (if match maxTicks_ e with Some n => n <=? cycle_ sys' | None => false end then StopMaxTicks else StopMaxDomainCycles) ->
    exec_effect e sys OK (Some STEP_TERMINATED)
      (Ex.clearError (Ex.set_state (Ex.set_progress e reason (cycle_ sys') (cycle_ sys') snaps) ExCompleted)) sys'.

Lemma reached_limits e c :
  (match maxTicks_ e with Some n => n <=? c | None => false end) ||
  (match maxDomainCycles_ e with Some n => n <=? c | None => false end) =
  bool_decide (Exists (fun n => n <= c) (limits e)).
Proof.
  symmetry. destruct (_ || _) eqn:E.
  - apply bool_decide_eq_true_2. unfold limits. rewrite Exists_app. apply orb_prop in E as [E|E].
    + left. destruct (maxTicks_ e); [|discriminate]. constructor. lia.
    + right. destruct (maxDomainCycles_ e); [|discriminate]. constructor. lia.
  - apply bool_decide_eq_false_2. unfold limits. rewrite Exists_app. apply orb_false_elim in E as [E1 E2].
    intros [Hx|Hx].
    + destruct (maxTicks_ e); cbn in Hx; inversion Hx; subst; [lia | inversion H1].
    + destruct (maxDomainCycles_ e); cbn in Hx; inversion Hx; subst; [lia | inversion H1].
Qed.

Lemma Step_exec_effect r e sys h st r' e' sys' h' :
  ex_inv e sys -> Ex.Step observations r (e, sys, h) = (Ret (st, r'), (e', sys', h')) ->
  exists s, exec_effect e sys st s e' sys' /\ (forall x, s = Some x -> option_map r_state r' = Some x) /\
    (s = None -> r' = r).
Proof.
  intros Hi. unfold Ex.Step. destruct r as [r|].
  2:{ intros [= <- <- <- <- <-]. exists None. split; [|split; [discriminate | auto]].
      apply xe_rejected; [auto | apply setError_cases]. }
  destruct (negb (struct_size r =? sizeof_StepResult)).
  { intros [= <- <- <- <- <-]. exists None. split; [|split; [discriminate | auto]].
    apply xe_rejected; [auto | apply setError_cases]. }
  destruct (bool_decide_reflect (ex_state e = ExReady)) as [Er|Er]; cbn [negb].
  2:{ intros [= <- <- <- <- <-]. exists None. split; [|split; [discriminate | auto]].
      apply xe_rejected; [auto|]. destruct (negb _); [apply setError_cases | auto]. }
  destruct (Z.eqb_spec (cycle_ sys) u64_max) as [|Hc].
  { intros [= <- <- <- <- <-]. exists (Some STEP_FAILED). split; [|split; [intros x [= <-]; reflexivity | discriminate]].
    rewrite setError_replace. apply xe_failed; (reflexivity || exact Er || apply Hi). }
  destruct (Sys.Step (sys, h)) as [[sr| |] [sys1 h1]] eqn:Es; [|discriminate|discriminate].
  pose proof (Step_effect _ _ _ _ _ Es) as Eff. pose proof (step_effect_inv _ _ _ (xi_sys _ _ Hi) Eff) as Hs1.
  destruct (xi_ready _ _ Hi Er) as (Hr1 & Hr2 & Hr3). destruct sr.
  - inversion Eff as [|[E|E]| | |]; subst; rewrite Hr1 in E; discriminate.
  - inversion Eff as [| | | |_ _ Eq]; subst.
    set (sys2 := mkSystem _ _ _ _ _ _) in *.
    assert (Ec : cycle_ sys2 = cycle_ sys + 1).
    { unfold sys2, u64_add. cbn [cycle_]. apply u64_id. pose proof (si_cycle _ (xi_sys _ _ Hi)). unfold is_u, u64_max in *. lia. }
    pose proof (reached_limits e (cycle_ sys2)) as Hl.
    destruct (_ || _).
    + intros [= <- <- <- <- <-]. exists (Some STEP_TERMINATED). split; [|split; [intros x [= <-]; reflexivity | discriminate]].
      exact (xe_terminated e sys sys2 _ _ Er Hs1 eq_refl Ec (bool_decide_eq_true_1 _ (eq_sym Hl)) eq_refl).
    + intros [= <- <- <- <- <-]. exists (Some STEP_RUNNING). split; [|split; [intros x [= <-]; reflexivity | discriminate]].
      refine (xe_running e sys sys2 _ Er Hs1 eq_refl Ec _).
      symmetry in Hl. apply bool_decide_eq_false in Hl. apply not_Exists_Forall in Hl; [|intros x; apply _].
      eapply Forall_impl; [exact Hl|]. intros n. cbn. lia.
  - inversion Eff; subst. intros [= <- <- <- <- <-]. exists (Some STEP_QUIESCENT).
    split; [|split; [intros x [= <-]; reflexivity | discriminate]]. apply xe_quiescent, Er.
  - intros [= <- <- <- <- <-]. exists (Some STEP_FAILED). split; [|split; [intros x [= <-]; reflexivity | discriminate]].
    rewrite setError_replace. apply xe_failed; (reflexivity || assumption).
Qed.

Lemma exec_effect_inv e sys st s e' sys' : ex_inv e sys -> exec_effect e sys st s e' sys' -> ex_inv e' sys'.
Proof.
  intros Hi Heff. destruct Heff as [st e' _ [(t & b & ->)| ->] | Er | e' sys' Er Hs Ee El _ _ | sys' snaps Er Hs Hst Hc Hl | sys' snaps reason Er Hs Hst Hc Hl _].
  - apply ex_inv_text, Hi.
  - exact Hi.
  - apply ex_inv_text, Hi.
  - apply (failed_inv_ex e sys); assumption.
  - apply ex_inv_text. pose proof (xi_limits _ _ Hi). pose proof (xi_latch _ _ Hi) as Hla.
    constructor; cbn [Ex.set_progress ex_state executionFailureLatched_ committedCycles_ stopReasonUpdate_]; rewrite ?Er; try assumption; try discriminate; auto.
    + intros [|]; discriminate.
    + rewrite Er in Hla. exact Hla.
  - apply ex_inv_text. pose proof (xi_limits _ _ Hi). pose proof (xi_latch _ _ Hi) as Hla. rewrite Er in Hla.
    destruct (xi_ready _ _ Hi Er) as (Hr1 & Hr2 & Hr3).
    assert (Hle : Forall (fun n => cycle_ sys' <= n) (limits e)) by (eapply Forall_impl; [exact Hr3|]; cbn; lia).
    constructor; cbn [Ex.set_progress Ex.set_state ex_state executionFailureLatched_ committedCycles_ stopReasonUpdate_]; try assumption; try discriminate.
    + intros [|]; discriminate.
    + intros _. repeat (split; [first [assumption | reflexivity]|]).
      apply Exists_exists in Hl as (n & Hn & Hle'). rewrite Forall_forall in Hle. specialize (Hle n Hn).
      replace (cycle_ sys') with n by lia. exact Hn.
    + intros E. specialize (Hla E). discriminate.
Qed.

(** ** Reachable worlds *)

Inductive api_call : world -> world -> Prop :=
| ac_configure data e sys h : api_call (e, sys, h) (snd (Ex.ConfigureJson data e), sys, h)
| ac_reset w : api_call w (snd (Ex.Reset observations w))
| ac_step r w a w' : Ex.Step observations r w = (Ret a, w') -> api_call w w'
| ac_statistics r e sys h : api_call (e, sys, h) (snd (Ex.StatisticsJson r e), sys, h)
| ac_last_error r e sys h : api_call (e, sys, h) (snd (Ex.LastError r e), sys, h)
(** the host drives the pins between calls *)
| ac_heap e sys h h' : api_call (e, sys, h) (e, sys, h').

Inductive api_reachable : world -> Prop :=
| ar_init reports sys h w :
    sys_inv sys -> Ex.construct observations reports sys h = Ret w -> api_reachable w
| ar_call w w' : api_reachable w -> api_call w w' -> api_reachable w'.

Lemma construct_inv_ex reports sys h e sys' h' :
  sys_inv sys -> Ex.construct observations reports sys h = Ret (e, sys', h') -> ex_inv e sys'.
Proof.
  intros Hs. unfold Ex.construct.
  set (e0 := Ex.fresh reports (gauges_ (obs_at observations h))).
  assert (H0 : forall s', sys_inv s' -> ex_inv e0 s').
  { intros s' Hs'. constructor; cbn; try assumption; try discriminate; [constructor | intros [|]; discriminate]. }
  destruct (_ || _); [intros [= <- <- _]; apply api_error_inv, H0, Hs|].
  destruct (Sys.Build (sys, h)) as [[[]| |] [sys1 h1]] eqn:Eb; [|discriminate..].
  destruct (Build_inv _ _ _ _ Hs Eb) as (Hs1 & _).
  destruct (bool_decide_reflect (state_ sys1 = Built)) as [E|]; cbn [negb]; intros [= <- <- _];
    [|apply api_error_inv, H0, Hs1].
  apply ex_inv_text. constructor; cbn; try assumption; try discriminate; [constructor | auto].
Qed.

Lemma buildStatistics_same e : exists t, snd (Ex.buildStatistics e) = Ex.set_statistics e t.
Proof.
  unfold Ex.buildStatistics. destruct (negb _); [exists (statistics_ e); destruct e; reflexivity|].
  destruct (Ex.report_rows _ _); [eexists; reflexivity | exists (statistics_ e); destruct e; reflexivity].
Qed.

Lemma ex_inv_statistics e sys t : ex_inv e sys -> ex_inv (Ex.set_statistics e t) sys.
Proof. intros []. constructor; assumption. Qed.

Lemma StatisticsJson_inv r e sys : ex_inv e sys -> ex_inv (snd (Ex.StatisticsJson r e)) sys.
Proof.
  intros Hi. unfold Ex.StatisticsJson. destruct r as [r|]; [|apply api_error_inv, Hi].
  destruct (_ && _ && _); [apply api_error_inv, Hi|].
  destruct (buildStatistics_same e) as [t Et]. destruct (Ex.buildStatistics e) as [ok e1]. cbn [snd] in Et. subst e1.
  destruct (negb ok); [apply api_error_inv|]; apply ex_inv_statistics, Hi.
Qed.

Lemma api_call_inv w w' : ex_inv (fst (fst w)) (snd (fst w)) -> api_call w w' -> ex_inv (fst (fst w')) (snd (fst w')).
Proof.
  intros Hi Hc. destruct Hc as [data e sys h | [[e sys] h] | r [[e sys] h] [st r'] [[e' sys'] h'] E | r e sys h | r e sys h | e sys h h'];
    cbn [fst snd] in *.
  - apply ConfigureJson_inv, Hi.
  - pose proof (Reset_inv_ex e sys h Hi) as Hr. destruct (Ex.Reset observations (e, sys, h)) as [st [[e' sys'] h']]. exact Hr.
  - destruct (Step_exec_effect _ _ _ _ _ _ _ _ _ Hi E) as (s & Heff & _). exact (exec_effect_inv _ _ _ _ _ _ Hi Heff).
  - apply StatisticsJson_inv, Hi.
  - unfold Ex.LastError. destruct r; [exact Hi | apply api_error_inv, Hi].
  - exact Hi.
Qed.

Lemma api_reachable_inv w : api_reachable w -> ex_inv (fst (fst w)) (snd (fst w)).
Proof.
  induction 1 as [reports sys h [[e sys'] h'] Hs E | w w' _ IH Hc]; [exact (construct_inv_ex _ _ _ _ _ _ Hs E)|].
  exact (api_call_inv _ _ IH Hc).
Qed.
End Api.

Section Claims.
Context {H M O : Type} `{HM : SimObj H M} `{HS : SystemHooks H O} `{EM : EqDecision M} `{EO : EqDecision O}.

(** [k] consecutive steps that all report [RUNNING]. *)
Inductive running_steps (observations : O) : nat -> SimExecutor * SimSystem M O * H -> SimExecutor * SimSystem M O * H -> Prop :=
| rs_zero w : running_steps observations 0 w w
| rs_step k r r' w w' w'' :
    Ex.Step observations (Some r) w = (Ret (OK, Some r'), w') -> r_state r' = STEP_RUNNING ->
    running_steps observations k w' w'' -> running_steps observations (S k) w w''.

Lemma running_step_effect observations r r' (e : SimExecutor) (sys : SimSystem M O) (h : H) e' sys' h' :
  ex_inv e sys -> Ex.Step observations (Some r) (e, sys, h) = (Ret (OK, Some r'), (e', sys', h')) ->
  r_state r' = STEP_RUNNING ->
  limits e' = limits e /\ committedCycles_ e' = committedCycles_ e + 1 /\
  Forall (fun n => committedCycles_ e' < n) (limits e).
Proof.
  intros Hi E Er. destruct (Step_exec_effect observations _ _ _ _ _ _ _ _ _ Hi E) as (s & Heff & Hs & _).
  inversion Heff as [st e1 Hst | Hr | | sys1 snaps Hr | sys1 snaps reason Hr]; subst.
  - destruct Hst as [?|[?|[? _]]]; discriminate.
  - specialize (Hs _ eq_refl). cbn in Hs. congruence.
  - destruct (xi_ready _ _ Hi Hr) as (_ & Hc & _). cbn. split; [reflexivity|]. split; [congruence | assumption].
  - specialize (Hs _ eq_refl). cbn in Hs. congruence.
Qed.

(** C36: run limits are exact.  In every reachable world a step that returns
    [OK] either reports [RUNNING] after one more cycle that is still below
    every configured limit, or [TERMINATED] at the first cycle that equals
    a limit, completing the executor with the reason that limit names, or
    [QUIESCENT] without a cycle. *)
Theorem executor_step_limits (observations : O) (e : SimExecutor) (sys : SimSystem M O) (h : H) r r' e' sys' h' :
  api_reachable observations (e, sys, h) ->
  Ex.Step observations (Some r) (e, sys, h) = (Ret (OK, Some r'), (e', sys', h')) ->
  match r_state r' with
  | STEP_RUNNING => committedCycles_ e' = committedCycles_ e + 1 /\ cycle_ sys' = committedCycles_ e' /\
      Forall (fun n => committedCycles_ e' < n) (limits e) /\ ex_state e' = ExReady
  | STEP_TERMINATED => committedCycles_ e' = committedCycles_ e + 1 /\ committedCycles_ e' ∈ limits e /\
      Forall (fun n => committedCycles_ e' <= n) (limits e) /\ ex_state e' = ExCompleted /\
      stopReason_ e' = (if bool_decide (maxTicks_ e = Some (committedCycles_ e')) then StopMaxTicks else StopMaxDomainCycles)
  | STEP_QUIESCENT => sys' = sys /\ committedCycles_ e' = committedCycles_ e /\ ex_state e' = ExReady
  | STEP_FAILED => False
  end.
Proof.
  intros Hr E. pose proof (api_reachable_inv _ _ Hr) as Hi. cbn [fst snd] in Hi.
  destruct (Step_exec_effect observations _ _ _ _ _ _ _ _ _ Hi E) as (s & Heff & Hs & _).
  pose proof (exec_effect_inv _ _ _ _ _ _ Hi Heff) as Hi'.
  inversion Heff as [st e1 Hst | Hrd | | sys1 snaps Hrd | sys1 snaps reason Hrd Hsi Hst Hc Hl Hreason]; subst.
  - destruct Hst as [?|[?|[? _]]]; discriminate.
  - specialize (Hs _ eq_refl). cbn in Hs. injection Hs as ->. auto.
  - specialize (Hs _ eq_refl). cbn in Hs. injection Hs as ->. destruct (xi_ready _ _ Hi Hrd) as (_ & Hc & _).
    cbn in *. repeat split; (congruence || assumption).
  - specialize (Hs _ eq_refl). cbn in Hs. injection Hs as ->. destruct (xi_ready _ _ Hi Hrd) as (_ & Hcc & Hlt).
    destruct (xi_completed _ _ Hi' eq_refl) as (_ & _ & _ & Hle & Hin). cbn in *.
    split; [congruence|]. split; [exact Hin|]. split; [exact Hle|]. split; [reflexivity|].
    unfold limits in Hle. cbn in Hle. apply Forall_app in Hle as [Hle _].
    destruct (maxTicks_ e) as [n|]; [|reflexivity]. inversion Hle as [|? ? Hn _]; subst.
    destruct (Z.leb_spec n (cycle_ sys')); [rewrite bool_decide_eq_true_2 by (f_equal; lia); reflexivity|].
    rewrite bool_decide_eq_false_2 by (intros [= ->]; lia). reflexivity.
Qed.

(** A limited run ends.  From a reachable world, [k] steps in a row
    that report [RUNNING] advance the cycle by [k] and stay below every
    limit, so a configured limit bounds the length of any run. *)
Theorem limited_run_is_bounded (observations : O) k (w w' : SimExecutor * SimSystem M O * H) :
  api_reachable observations w -> running_steps observations k w w' ->
  committedCycles_ (fst (fst w')) = committedCycles_ (fst (fst w)) + Z.of_nat k /\
  ((0 < k)%nat -> Forall (fun n => committedCycles_ (fst (fst w)) + Z.of_nat k < n) (limits (fst (fst w)))).
Proof.
  intros Hr Hs. revert Hr. induction Hs as [w | k r r' [[e sys] h] [[e' sys'] h'] w'' E Er Hs IH]; intros Hr.
  { split; [lia | lia]. }
  pose proof (api_reachable_inv _ _ Hr) as Hi. cbn [fst snd] in *.
  destruct (running_step_effect observations r r' e sys h e' sys' h' Hi E Er) as (Hl & Hc & Hlt).
  destruct (IH (ar_call _ _ _ Hr (ac_step _ _ _ _ _ E))) as [H1 H2]. split; [lia|]. intros _.
  destruct k as [|k]; [eapply Forall_impl; [exact Hlt|]; cbn; lia|].
  specialize (H2 ltac:(lia)). rewrite Hl in H2. eapply Forall_impl; [exact H2|]. cbn. lia.
Qed.

(** An execution failure is latched.  Once a step has failed, every
    call but a reset leaves the failure text, the latch, the failed state,
    the system and the heap alone; a step answers [INVALID_STATE] and
    [LastError] returns the text of the failure. *)
Theorem failure_is_latched (observations : O) (e : SimExecutor) (sys : SimSystem M O) (h : H) w' :
  executionFailureLatched_ e = true -> ex_state e = ExFailed ->
  (exists data, w' = (snd (Ex.ConfigureJson data e), sys, h)) \/
  (exists r a, Ex.Step observations r (e, sys, h) = (Ret a, w')) \/
  (exists r, w' = (snd (Ex.StatisticsJson r e), sys, h)) \/
  (exists r, w' = (snd (Ex.LastError r e), sys, h)) ->
  let e' := fst (fst w') in
  lastError_ e' = lastError_ e /\ fallbackError_ e' = fallbackError_ e /\ executionFailureLatched_ e' = true /\
  ex_state e' = ExFailed /\ committedCycles_ e' = committedCycles_ e /\ snd (fst w') = sys /\ snd w' = h.
Proof.
  intros Hl Hf.
  assert (Hset : forall c m p i s k, Ex.setError c m p i s k false e = e).
  { intros. unfold Ex.setError. rewrite Hl. reflexivity. }
  assert (Hapi : forall c m p, Ex.api_error c m p e = e) by (intros; apply Hset).
  intros [(data & ->)|[(r & a & E)|[(r & ->)|(r & ->)]]].
  - unfold Ex.ConfigureJson. rewrite Hf. rewrite bool_decide_eq_false_2 by discriminate. cbn. rewrite Hapi. auto 10.
  - unfold Ex.Step in E. destruct r as [r|]; [|injection E as _ <-; cbn; rewrite Hapi; auto 10].
    destruct (negb _); [injection E as _ <-; cbn; rewrite Hapi; auto 10|]. rewrite Hf in E.
    rewrite bool_decide_eq_false_2, bool_decide_eq_true_2 in E by (discriminate || reflexivity).
    injection E as _ <-. cbn. auto 10.
  - unfold Ex.StatisticsJson. destruct r as [r|]; [|cbn; rewrite Hapi; auto 10]. rewrite Hf. cbn [negb andb].
    rewrite (bool_decide_eq_true_2 (ExFailed = ExFailed)) by reflexivity. rewrite andb_false_r.
    destruct (buildStatistics_same e) as [t Et]. destruct (Ex.buildStatistics e) as [ok e1]. cbn [snd] in Et. subst e1.
    destruct (negb ok); cbn [snd fst]; [|cbn; auto 10]. unfold Ex.api_error, Ex.setError. cbn. rewrite Hl. cbn. auto 10.
  - unfold Ex.LastError. destruct r as [r|]; cbn; [auto 10 | rewrite Hapi; auto 10].
Qed.
End Claims.
