(* ===== verification/ExecutorTextSpec.v ===== *)
(** * The executor's text: JSON strings and the statistics report *)

From Stdlib Require Import ZArith Lia String Sorted.
From stdpp Require Import base list numbers strings sorting.
From S2P Require Import Prelude Observations ModelInput ModelInputSpec ConfigSpec SimExecutor.

(** ** JSON strings *)

Definition hex_value (c : Z) : option Z :=
  if is_digit c then Some (c - 48) else if (97 <=? c) && (c <=? 102) then Some (c - 87) else None.

(** A reader of JSON string contents: raw control characters and quotes are
    errors, [\u00xy] is the byte [xy]. *)
Fixpoint json_chars (input : list Z) : option (list Z) :=
  match input with
  | [] => Some []
  | c :: rest =>
    if (c <? 32) || (c =? 34) then None
    else if negb (c =? 92) then (fun r => c :: r) <$> json_chars rest
    else
      match rest with
      | 117 :: 48 :: 48 :: a :: b :: rest' =>
        match hex_value a, hex_value b with
        | Some x, Some y => (fun r => 16 * x + y :: r) <$> json_chars rest'
        | _, _ => None
        end
      | e :: rest' =>
        match unescape e with
        | Some x => (fun r => x :: r) <$> json_chars rest'
        | None => None
        end
      | [] => None
      end
  end.

Lemma escape_char_read c rest : is_byte c -> json_chars (escape_char c ++ rest) = (fun r => c :: r) <$> json_chars rest.
Proof.
  intros Hc. unfold escape_char.
  repeat match goal with |- context [if c =? ?k then _ else _] =>
    destruct (Z.eqb_spec c k) as [->|]; [reflexivity|] end.
  destruct (Z.ltb_spec c 32) as [Hlt|Hge].
  - assert (Hh : hex_value (hex_digit (Z.shiftr c 4)) = Some (c / 16) /\ hex_value (hex_digit (Z.land c 15)) = Some (c mod 16)).
    { rewrite Z.shiftr_div_pow2 by lia. change 15 with (Z.ones 4). rewrite Z.land_ones by lia. change (2 ^ 4) with 16.
      pose proof (Z.mod_pos_bound c 16 ltac:(lia)). pose proof (Z.div_mod c 16 ltac:(lia)). unfold is_byte in Hc.
      unfold hex_digit, hex_value, is_digit. split.
      - destruct (Z.ltb_spec (c / 16) 10); [|lia]. replace ((48 <=? 48 + c / 16) && (48 + c / 16 <=? 57)) with true by lia. f_equal. lia.
      - destruct (Z.ltb_spec (c mod 16) 10).
        + replace ((48 <=? 48 + c mod 16) && (48 + c mod 16 <=? 57)) with true by lia. f_equal. lia.
        + replace ((48 <=? 87 + c mod 16) && (87 + c mod 16 <=? 57)) with false by lia.
          replace ((97 <=? 87 + c mod 16) && (87 + c mod 16 <=? 102)) with true by lia. f_equal. lia. }
    destruct Hh as [H1 H2]. generalize dependent (hex_digit (Z.shiftr c 4)).
    generalize dependent (hex_digit (Z.land c 15)). intros b Hb a Ha.
    cbn [app json_chars]. change ((92 <? 32) || (92 =? 34)) with false. change (negb (92 =? 92)) with false. cbn iota.
    rewrite Ha, Hb. replace (16 * (c / 16) + c mod 16) with c; [reflexivity|].
    pose proof (Z.div_mod c 16 ltac:(lia)). lia.
  - cbn [app json_chars]. rewrite (proj2 (Z.ltb_ge c 32)), (proj2 (Z.eqb_neq c 34)), (proj2 (Z.eqb_neq c 92)) by assumption.
    reflexivity.
Qed.

(** JSON text round trip.  Every byte string, control characters, quotes
    and backslashes included, is read back from [escapeJson] by a JSON string
    reader; in particular the escaped text has no raw control character and
    no quote that would end the string early. *)
Theorem escapeJson_roundtrip value : Forall is_byte value -> json_chars (escapeJson value) = Some value.
Proof.
  induction 1 as [|c value Hc _ IH]; [reflexivity|].
  change (escapeJson (c :: value)) with (escape_char c ++ escapeJson value).
  rewrite escape_char_read, IH by exact Hc. reflexivity.
Qed.

Lemma escapeJson_roundtrip_witness :
  Forall is_byte [34; 92; 10; 31; 65; 255] /\ json_chars (escapeJson [34; 92; 10; 31; 65; 255]) = Some [34; 92; 10; 31; 65; 255].
Proof.
  assert (Hb : Forall is_byte [34; 92; 10; 31; 65; 255]) by (repeat constructor; discriminate).
  split; [exact Hb | exact (escapeJson_roundtrip _ Hb)].
Defined.

(** ** Statistics *)

Definition row_le (a b : Ex.Row) : Prop := Ex.row_lt b a = false.

Lemma row_lt_asym a b : Ex.row_lt a b = true -> Ex.row_lt b a = false.
Proof.
  unfold Ex.row_lt. destruct (bytes_lt (Ex.row_path a) (Ex.row_path b)) eqn:E1.
  - intros _. rewrite (bytes_lt_asym _ _ E1). reflexivity.
  - destruct (bytes_lt (Ex.row_path b) (Ex.row_path a)) eqn:E2; [discriminate|]. apply bytes_lt_asym.
Qed.

Lemma insert_row_perm r rows : Ex.insert_row r rows ≡ₚ r :: rows.
Proof.
  induction rows as [|x rows IH]; [reflexivity|]. cbn [Ex.insert_row]. destruct (Ex.row_lt r x); [reflexivity|].
  rewrite IH. apply Permutation_swap.
Qed.

Lemma insert_row_sorted r rows : Sorted row_le rows -> Sorted row_le (Ex.insert_row r rows).
Proof.
  induction 1 as [|x rows Hs IH Hx]; cbn [Ex.insert_row]; [repeat constructor|].
  destruct (Ex.row_lt r x) eqn:E.
  - constructor; [constructor; assumption|]. constructor. apply row_lt_asym, E.
  - constructor; [exact IH|]. destruct rows as [|y rows]; cbn [Ex.insert_row]; [constructor; exact E|].
    destruct (Ex.row_lt r y); constructor; [exact E|]. inversion Hx; assumption.
Qed.

Lemma sort_rows_spec rows : Ex.sort_rows rows ≡ₚ rows /\ Sorted row_le (Ex.sort_rows rows).
Proof.
  assert (G : forall acc, Sorted row_le acc -> foldl (fun acc r => Ex.insert_row r acc) acc rows ≡ₚ rows ++ acc /\
    Sorted row_le (foldl (fun acc r => Ex.insert_row r acc) acc rows)).
  { induction rows as [|r rows IH]; intros acc Ha; [split; [reflexivity | exact Ha]|].
    cbn [foldl app]. destruct (IH _ (insert_row_sorted r acc Ha)) as [H1 H2]. split; [|exact H2].
    rewrite H1, insert_row_perm. symmetry. apply Permutation_middle. }
  destruct (G [] (Sorted_nil _)) as [H1 H2]. rewrite app_nil_r in H1. auto.
Qed.

(** The row of a report shows the gauge of its ordinal. *)
Definition row_of (gauges : list GaugeSnapshot) (r : ReportGaugeDescriptor) (row : Ex.Row) : Prop :=
  Ex.row_path row = rg_objectPath r /\ Ex.row_name row = rg_name r /\ Ex.row_kind row = lit "gauge" /\
  exists g, g ∈ gauges /\ g_stableOrdinal g = rg_stableOrdinal r /\
    Ex.row_value row = sv_bits (g_value g) /\ Ex.row_update row = lastUpdate g.

Lemma report_rows_total gauges reports :
  Forall (fun g => sv_kind (g_value g) = KUnsigned) gauges ->
  Forall (fun r => existsb (fun g => g_stableOrdinal g =? rg_stableOrdinal r) gauges = true) reports ->
  exists rows, Ex.report_rows gauges reports = Some rows /\ Forall2 (row_of gauges) reports rows.
Proof.
  intros Hg. induction 1 as [|r reports Hr _ IH]; [exists []; split; [reflexivity | constructor]|].
  destruct IH as (rows & E & Hf). cbn [Ex.report_rows].
  destruct (List.find _ gauges) as [g|] eqn:Ef.
  2:{ apply existsb_exists in Hr as (g & Hin & Hg'). pose proof (List.find_none _ _ Ef g Hin) as Hn. cbn in Hn. congruence. }
  apply List.find_some in Ef as [Hin Ho]. apply list_elem_of_In in Hin. rewrite Forall_forall in Hg.
  rewrite (bool_decide_eq_true_2 (sv_kind (g_value g) = KUnsigned)) by (apply Hg, Hin). cbn [negb]. rewrite E.
  eexists. split; [reflexivity|]. constructor; [|exact Hf]. repeat split. exists g. repeat split; [exact Hin | lia].
Qed.

Lemma reports_have_gauges e :
  Ex.reportsAreValid e = true ->
  Forall (fun r => existsb (fun g => g_stableOrdinal g =? rg_stableOrdinal r) (gaugeSnapshots_ e) = true) (reports_ e).
Proof.
  unfold Ex.reportsAreValid. destruct (negb _); [discriminate|]. rewrite all_range_true. intros Hall.
  apply Forall_lookup. intros i r Hi. pose proof (lookup_lt_Some _ _ _ Hi) as Hlt. specialize (Hall (Z.of_nat i) ltac:(lia)).
  rewrite Nat2Z.id, (list_lookup_total_correct _ _ _ Hi) in Hall. cbn zeta in Hall.
  destruct (_ || _); [discriminate|]. destruct (negb _); [discriminate | exact Hall].
Qed.

(** The statistics report is complete and ordered.  For an initialised
    executor with valid reports whose gauges carry unsigned values,
    [StatisticsJson] succeeds: the text lists, ordered by object path and
    name, exactly the two runtime rows and one row per report with the value
    and update cycle of the gauge of its ordinal. *)
Theorem statistics_complete e b :
  ex_state e = ExReady \/ ex_state e = ExCompleted \/ ex_state e = ExFailed ->
  Ex.reportsAreValid e = true -> Forall (fun g => sv_kind (g_value g) = KUnsigned) (gaugeSnapshots_ e) ->
  exists rows reported e',
    Ex.StatisticsJson (Some b) e =
      (OK, Some (mkBuffer (Some (Ex.print_rows (lit "[") true rows ++ lit "]" ++ [10]))
                   (Z.of_nat (length (Ex.print_rows (lit "[") true rows ++ lit "]" ++ [10])))), e') /\
    rows ≡ₚ Ex.runtime_rows e ++ reported /\ Sorted row_le rows /\
    Forall2 (row_of (gaugeSnapshots_ e)) (reports_ e) reported.
Proof.
  intros Hst Hv Hg. destruct (report_rows_total _ _ Hg (reports_have_gauges e Hv)) as (reported & Er & Hf).
  destruct (sort_rows_spec (Ex.runtime_rows e ++ reported)) as [Hp Hs].
  exists (Ex.sort_rows (Ex.runtime_rows e ++ reported)), reported. eexists. split; [|auto].
  unfold Ex.StatisticsJson.
  replace (negb (bool_decide (ex_state e = ExReady)) && negb (bool_decide (ex_state e = ExCompleted)) &&
           negb (bool_decide (ex_state e = ExFailed))) with false
    by (destruct Hst as [->|[->| ->]]; reflexivity).
  unfold Ex.buildStatistics. rewrite Hv. cbn [negb]. rewrite Er. cbn [negb]. unfold Ex.setBuffer. cbn [Ex.set_statistics statistics_].
  rewrite bool_decide_eq_false_2; [reflexivity|]. intros E. apply app_eq_nil in E as [_ E]. discriminate.
Qed.

(** A ready executor with two reports. *)
Module StatisticsWitness.
Definition gauges : list GaugeSnapshot := [mkGauge 7 (SlotVal.Unsigned 42) 3; mkGauge 9 (SlotVal.Unsigned 1) 5].
Definition reports : list ReportGaugeDescriptor :=
  [mkReport 9 (lit "top.b") (lit "depth"); mkReport 7 (lit "top.a") (lit "count")].
Definition executor : SimExecutor := Ex.set_state (Ex.fresh reports gauges) ExReady.

Lemma statistics_complete_witness :
  exists rows reported e', Ex.StatisticsJson (Some (mkBuffer None 0)) executor =
    (OK, Some (mkBuffer (Some (Ex.print_rows (lit "[") true rows ++ lit "]" ++ [10]))
                 (Z.of_nat (length (Ex.print_rows (lit "[") true rows ++ lit "]" ++ [10])))), e') /\
    rows ≡ₚ Ex.runtime_rows executor ++ reported.
Proof.
  destruct (statistics_complete executor (mkBuffer None 0) (or_introl eq_refl) ltac:(vm_compute; reflexivity)
    ltac:(repeat constructor)) as (rows & reported & e' & E & Hp & _).
  exact (ex_intro _ rows (ex_intro _ reported (ex_intro _ e' (conj E Hp)))).
Defined.
End StatisticsWitness.
