(* ===== verification/ExecutorWitness.v ===== *)
(** * A run of the whole runtime

    Two registers that exchange their values, an observation owner, the
    executor configured from JSON text with a limit of two ticks: created,
    configured, reset and stepped to completion; and one whose clock is
    unknown, which fails and latches. *)

From Stdlib Require Import ZArith Lia String.
From stdpp Require Import base list numbers strings.
From S2P Require Import Prelude Bits FourState FourStateSpec Wire WireSpec SampledClock Kernel Dff.
From S2P Require Import Observations ObservationsSpec SimSystem SimSystemSpec KernelSystem.
From S2P Require Import ModelInput ModelInputSpec ConfigSpec SimExecutor SimExecutorSpec.

Module RunWitness.
Import dffe_kernel.
#[local] Existing Instance dffe_is_kernel.
#[local] Abbreviation heap := (kheap (Current Z) (Pending Z) (Outputs Z)).

Definition reports : list ReportGaugeDescriptor := [mkReport 2 (lit "top") (lit "level")].
Definition start : heap := mkHeap (cells SwapSystem.start) ObservationsWitness.owner.
Definition config : list Z :=
  canonicalConfig (mkLimits None (Some 2) []) ++ [10].

Section On.
Context (clk : pin).
#[local] Instance mods : SimObj heap nat := kernel_modules (SwapSystem.pins clk).
#[local] Instance hooks : SystemHooks heap unit := kernel_hooks SwapSystem.check.

Definition sys0 : SimSystem nat unit :=
  snd (Sys.AttachObservations tt (snd (Sys.AddModule 1%nat (snd (Sys.AddModule 0%nat Sys.construct))))).

Definition wcreated : SimExecutor * SimSystem nat unit * heap :=
  match Ex.construct tt reports sys0 start with Ret w => w | _ => (Ex.fresh [] [], sys0, start) end.
Definition wconfigured : SimExecutor * SimSystem nat unit * heap :=
  (snd (Ex.ConfigureJson (Some config) (fst (fst wcreated))), snd (fst wcreated), snd wcreated).
Definition wready := snd (Ex.Reset tt wconfigured).
Definition blank : StepResult := mkStepResult 24 STEP_RUNNING 0 0 0.
Definition wstep w := Ex.Step tt (Some blank) w.

Lemma sys0_inv : sys_inv sys0.
Proof.
  pose proof (call_inv (Sys.construct, start) _ construct_inv (call_add 0%nat _ _)) as H1.
  pose proof (call_inv _ _ H1 (call_add 1%nat _ _)) as H2.
  exact (call_inv _ _ H2 (call_attach tt _ _)).
Qed.

Lemma wready_reachable :
  Ex.construct tt reports sys0 start = Ret wcreated -> api_reachable tt wready.
Proof.
  intros E. eapply ar_call; [|apply ac_reset]. eapply ar_call; [exact (ar_init tt reports sys0 start _ sys0_inv E)|].
  unfold wconfigured. destruct wcreated as [[e sys] h]. apply ac_configure.
Qed.
End On.

(** The parts of a world. *)
#[local] Abbreviation ex w := (fst (fst w)).
#[local] Abbreviation sy w := (snd (fst w)).
Lemma parts {A B C} (w : A * B * C) : w = (fst (fst w), snd (fst w), snd w).
Proof. destruct w as [[a b] c]. reflexivity. Qed.

Definition w0 := wready SwapSystem.high.
Definition w1 := snd (wstep SwapSystem.high w0).

Lemma w0_reachable : api_reachable (HM := mods SwapSystem.high) (HS := hooks) tt (ex w0, sy w0, snd w0).
Proof. rewrite <- parts. apply wready_reachable. vm_compute. reflexivity. Qed.

Lemma first_step :
  Ex.Step (HM := mods SwapSystem.high) (HS := hooks) tt (Some blank) (ex w0, sy w0, snd w0) =
  (Ret (OK, Some (mkStepResult 24 STEP_RUNNING 1 0 0)), (ex w1, sy w1, snd w1)).
Proof. vm_compute. reflexivity. Qed.

(** The first step runs, the second one terminates at the limit. *)
Lemma executor_step_limits_witness :
  committedCycles_ (ex w1) = committedCycles_ (ex w0) + 1 /\
  fst (wstep SwapSystem.high w1) = Ret (OK, Some (mkStepResult 24 STEP_TERMINATED 2 0 0)).
Proof.
  split; [|vm_compute; reflexivity].
  pose proof (executor_step_limits (HM := mods SwapSystem.high) (HS := hooks) tt (ex w0) (sy w0) (snd w0)
    blank (mkStepResult 24 STEP_RUNNING 1 0 0) (ex w1) (sy w1) (snd w1) w0_reachable first_step) as P.
  cbn [r_state] in P. destruct P as (P & _). exact P.
Defined.

Lemma w0_reachable' : api_reachable (HM := mods SwapSystem.high) (HS := hooks) tt w0.
Proof. rewrite (parts w0). exact w0_reachable. Qed.

Lemma one_running : running_steps (HM := mods SwapSystem.high) (HS := hooks) tt 1 w0 w1.
Proof.
  rewrite (parts w0), (parts w1).
  refine (rs_step (HM := mods SwapSystem.high) (HS := hooks) tt 0 blank (mkStepResult 24 STEP_RUNNING 1 0 0)
    (ex w0, sy w0, snd w0) (ex w1, sy w1, snd w1) (ex w1, sy w1, snd w1) first_step eq_refl _).
  apply rs_zero.
Qed.

Lemma limited_run_is_bounded_witness :
  committedCycles_ (ex w1) = committedCycles_ (ex w0) + Z.of_nat 1.
Proof.
  pose proof (limited_run_is_bounded (HM := mods SwapSystem.high) (HS := hooks) tt 1 w0 w1 w0_reachable' one_running) as P.
  destruct P as [P _]. exact P.
Defined.

(** An unknown clock: the failed executor keeps its failure text through a
    rejected step. *)
Definition wfailed := snd (wstep SwapSystem.unknown_clk (wready SwapSystem.unknown_clk)).

Lemma rejected_step :
  Ex.Step (HM := mods SwapSystem.unknown_clk) (HS := hooks) tt (Some blank) (ex wfailed, sy wfailed, snd wfailed) =
  (Ret (INVALID_STATE, Some blank), wfailed).
Proof. vm_compute. reflexivity. Qed.

Lemma failure_is_latched_witness :
  executionFailureLatched_ (ex wfailed) = true /\ lastError_ (ex wfailed) <> [] /\
  lastError_ (ex wfailed) = lastError_ (ex wfailed).
Proof.
  split; [vm_compute; reflexivity|]. split; [vm_compute; discriminate|].
  pose proof (failure_is_latched (HM := mods SwapSystem.unknown_clk) (HS := hooks) tt (ex wfailed) (sy wfailed)
    (snd wfailed) wfailed ltac:(vm_compute; reflexivity) ltac:(vm_compute; reflexivity)
    (or_intror (or_introl (ex_intro _ (Some blank) (ex_intro _ _ rejected_step))))) as P.
  destruct P as (P & _). exact P.
Defined.
End RunWitness.
