(* ===== verification/SystemRunner.v ===== *)
(** * The command-line runner: [include/gfsim/SystemRunner.h] and
    [runtime/system_runner.cpp]

    Option parsing and configuration checks of the constructor, the event and
    result records, and [Run], which drives an executor and publishes the
    committed observations of every step.  The operating system is a
    parameter: opening and reading the configuration file, creating the event
    file, and what [fwrite] and [fflush] report. *)

From Stdlib Require Import ZArith Lia String.
From stdpp Require Import base list numbers strings.
From S2P Require Import Prelude Observations SimSystem ModelInput SimExecutor.

Record RunnerObservation := mkRunnerObservation {
  ro_stableOrdinal : Z;
  ro_kind : list Z;
  ro_instance : list Z;
  ro_registration : list Z;
  ro_site : list Z;
  ro_specJson : list Z;
  ro_hasValue : bool;
  ro_reportName : list Z;
  ro_groupIndex : Z;
  ro_groupSize : Z;
}.
#[export] Instance RunnerObservation_eq_dec : EqDecision RunnerObservation.
Proof. solve_decision. Defined.
#[export] Instance RunnerObservation_inhabited : Inhabited RunnerObservation :=
  populate (mkRunnerObservation 0 [] [] [] [] [] false [] 0 1).

(** Host callbacks act on the heap, which holds their context and the pins
    they drive; a null pointer is [None]. *)
Record RunnerCallbacks (H : Type) := mkCallbacks {
  initialize : option (ST H unit);
  drive : option (Z -> ST H bool);
  sample : option (Z -> ST H unit);
  resetSemantics : list Z;
  expectedEpochs : Z;
}.
Arguments mkCallbacks {H} _ _ _ _ _.
Arguments initialize {H} _.
Arguments drive {H} _.
Arguments sample {H} _.
Arguments resetSemantics {H} _.
Arguments expectedEpochs {H} _.

Inductive EventFile := Stdout | Opened (path : list Z).

Record SystemRunner := mkRunner {
  configJson_ : list Z;
  eventFile_ : option EventFile;
  ownsEventFile_ : bool;
  ready_ : bool;
  hasDomainLimit_ : bool;
  workers_ : Z;
}.

(** What the process leaves behind: the bytes of [std::cerr], the bytes
    accepted by the event stream, and the paths it unlinked. *)
Record Host := mkHost { cerr_ : list Z; events_out : list Z; unlinked_ : list (list Z) }.

(** [std::exception::what] *)
Definition what (e : exn) : list Z :=
  match e with
  | FourStateViolation s | InvalidArgument s | OutOfRange s | RuntimeError s => lit s
  end.

(** ** Records *)

Module Rec.
Definition escapeJson (value : list Z) : list Z :=
  concat ((fun character =>
    if character =? 92 then [92; 92]
    else if character =? 34 then [92; 34]
    else if character =? 8 then [92; 98]
    else if character =? 12 then [92; 102]
    else if character =? 10 then [92; 110]
    else if character =? 13 then [92; 114]
    else if character =? 9 then [92; 116]
    else if character <? 32
    then [92; 117; 48; 48; hex_digit (Z.shiftr character 4); hex_digit (Z.land character 15)]
    else [character]) <$> value).

Definition appendString (output value : list Z) : list Z := output ++ [34] ++ escapeJson value ++ [34].

(** [std::to_string(std::bit_cast<std::int64_t>(bits))] *)
Definition signedDecimal (bits : Z) : list Z :=
  let v := to_i64 bits in if v <? 0 then 45 :: print_u64 (- v) else print_u64 v.

Definition planeHex (words : list Z) (width : Z) : list Z :=
  let size := width / 4 + (if width mod 4 =? 0 then 0 else 1) in
  for_range (Z.to_nat size) 0
    (fun nibble text =>
       text.[size - 1 - nibble :=
         hex_digit (Z.land (u64_shr words.[nibble / 16] (4 * (nibble mod 16))) 15)])
    (replicate (Z.to_nat size) 48).

Section Values.
(** The plane storage the spans of a value refer to. *)
Context (pending committed : list Z).

Definition appendValue (output : list Z) (value : SlotValue) : outcome (list Z) :=
  match sv_kind value with
  | KBits4 =>
    if negb (isCanonicalBits4 pending committed value)
    then Throw (RuntimeError "observation has malformed Bits4 planes")
    else
      let words s := span_words pending committed s in
      let output := output ++ lit "{'kind':'bits4','width':" ++ print_u64 (sv_width value) ++ lit ",'value':" in
      let output := appendString output (planeHex (words (valueWords value)) (sv_width value)) in
      let output := output ++ lit ",'known':" in
      let output := appendString output (planeHex (words (knownWords value)) (sv_width value)) in
      let output := output ++ lit ",'z':" in
      let output := appendString output (planeHex (words (zWords value)) (sv_width value)) in
      Ret (output ++ lit "}")
  | KBool => Ret (output ++ lit "{'kind':'bool','value':" ++
                  (if negb (sv_bits value =? 0) then lit "true" else lit "false") ++ lit "}")
  | kind =>
    let output := output ++ lit "{'kind':'integer','value':" in
    let output := appendString output
      (if bool_decide (kind = KSigned) then signedDecimal (sv_bits value) else print_u64 (sv_bits value)) in
    Ret (output ++ lit "}")
  end.

(** [OutputItem]: its event or its gauge pointer is set, never both. *)
Inductive item_source := FromEvent (event : CommittedEventSlot) | FromGauge (gauge : GaugeSnapshot).
Record OutputItem := mkItem { descriptorOrder : Z; item_metadata : RunnerObservation; source : item_source }.

Definition observationEpoch (item : OutputItem) : Z :=
  match source item with FromEvent event => epoch event | FromGauge gauge => lastUpdate gauge end.

Definition item_value (item : OutputItem) : SlotValue :=
  match source item with FromEvent event => e_value event | FromGauge gauge => g_value gauge end.

(** The value list; every enumerator of [SlotValueKind] is supported. *)
Fixpoint append_values (output : list Z) (hasValue : bool) (group : list OutputItem) : outcome (list Z) :=
  match group with
  | [] => Ret output
  | lane :: rest =>
    if negb (ro_hasValue (item_metadata lane)) then append_values output hasValue rest
    else
      let output := if hasValue then output ++ lit "," else output in
      output <- appendValue output (item_value lane) ;;
      append_values output true rest
  end.

(** [eventRecord(group)]; [item] is [group.front()]. *)
Definition eventRecord (item : OutputItem) (group : list OutputItem) : outcome (list Z) :=
  let metadata := item_metadata item in
  let committedEpoch := observationEpoch item in
  let evaluationEpoch := if committedEpoch =? 0 then 0 else committedEpoch - 1 in
  let output := lit "{'kind':" in
  let output := appendString output (ro_kind metadata) in
  let output := output ++ lit ",'instance':" in
  let output := appendString output (ro_instance metadata) in
  let output := output ++ lit ",'registration':" in
  let output := appendString output (ro_registration metadata) in
  let output := output ++ lit ",'site':" in
  let output := appendString output (ro_site metadata) in
  let output := output ++ lit ",'evaluation_epoch':" in
  let output := appendString output (print_u64 evaluationEpoch) in
  let output := output ++ lit ",'commit_epoch':" in
  let output := appendString output (print_u64 committedEpoch) in
  let output := output ++ lit ",'spec':" ++ ro_specJson metadata ++ lit ",'values':[" in
  output <- append_values output false group ;;
  Ret (output ++ lit "]}" ++ [10]).
End Values.

Definition resultRecord (status : list Z) (epoch : Z) (statistics errorJson resetSemantics : list Z) : list Z :=
  let output := lit "{'kind':'result','status':" in
  let output := appendString output status in
  let output := output ++ lit ",'epoch_time':" in
  let output := appendString output (print_u64 epoch) in
  let output := output ++ lit ",'statistics':" ++ statistics ++ lit ",'error':" in
  let output := output ++ (if bool_decide (errorJson = []) then lit "null" else errorJson) in
  let output := output ++ lit ",'reset_semantics':" in
  let output := appendString output resetSemantics in
  output ++ lit "}" ++ [10].

(** ** Metadata *)

Definition sameObservationGroup (first entry : RunnerObservation) (index : Z) : bool :=
  (ro_groupIndex entry =? index) && (ro_groupSize entry =? ro_groupSize first) &&
  bool_decide (ro_kind entry = ro_kind first) && bool_decide (ro_instance entry = ro_instance first) &&
  bool_decide (ro_registration entry = ro_registration first) && bool_decide (ro_site entry = ro_site first) &&
  bool_decide (ro_specJson entry = ro_specJson first) && bool_decide (ro_reportName entry = ro_reportName first).

Definition is_report (entry : RunnerObservation) : bool := bool_decide (ro_kind entry = lit "report").

(** The state of the first loop: [seen], [ordered] and [reports]. *)
Definition match_state : Type := list bool * list (option RunnerObservation) * list ReportGaugeDescriptor.

Definition match_entry (descriptors : list ObservationDescriptor) (entry : RunnerObservation) (st : match_state)
  : option match_state :=
  let '(seen, ordered, reports) := st in
  if bool_decide (ro_instance entry = []) || bool_decide (ro_registration entry = []) ||
     bool_decide (ro_site entry = []) || bool_decide (ro_specJson entry = [])
  then None
  else
    let index := Obs.find_descriptor descriptors (ro_stableOrdinal entry) in
    if index =? Z.of_nat (length descriptors) then None
    else if (seen.[index] : bool) then None
    else
      let seen := seen.[index := true] in
      let ordered := ordered.[index := Some entry] in
      let descriptor := descriptors.[index] in
      let isReport := is_report entry in
      if (negb isReport && negb (bool_decide (ro_kind entry = lit "print")) &&
          negb (bool_decide (ro_kind entry = lit "log"))) ||
         negb (Bool.eqb isReport (bool_decide (d_kind descriptor = Gauge))) ||
         negb (groupIndex descriptor =? ro_groupIndex entry) ||
         negb (groupSize descriptor =? ro_groupSize entry) ||
         (isReport && negb (ro_hasValue entry))
      then None
      else if isReport then
        if bool_decide (ro_reportName entry = []) then None
        else Some (seen, ordered, reports ++ [mkReport (ro_stableOrdinal entry) (ro_instance entry) (ro_reportName entry)])
      else if negb (bool_decide (ro_reportName entry = [])) then None
      else Some (seen, ordered, reports).

Fixpoint match_entries (descriptors : list ObservationDescriptor) (metadata : list RunnerObservation) (st : match_state)
  : option match_state :=
  match metadata with
  | [] => Some st
  | entry :: rest =>
    match match_entry descriptors entry st with
    | None => None
    | Some st => match_entries descriptors rest st
    end
  end.

Definition deref (p : option RunnerObservation) : RunnerObservation :=
  match p with Some entry => entry | None => inhabitant end.

Definition group_entry_ok (descriptors : list ObservationDescriptor) (ordered : list (option RunnerObservation))
    (begin index : Z) : bool :=
  let first := deref ordered.[begin] in
  let entry := deref ordered.[begin + index] in
  let descriptor := descriptors.[begin + index] in
  let groupDescriptor := descriptors.[begin] in
  negb (negb (sameObservationGroup first entry index) ||
        negb (ownerKey descriptor =? ownerKey groupDescriptor) ||
        negb (registrationKey descriptor =? registrationKey groupDescriptor) ||
        negb (siteKey descriptor =? siteKey groupDescriptor) ||
        negb (bool_decide (d_kind descriptor = d_kind groupDescriptor)) ||
        ((1 <? ro_groupSize first) && negb (ro_hasValue entry))).

(** The group scan; a group has at least one member. *)
Fixpoint match_groups (fuel : nat) (descriptors : list ObservationDescriptor)
    (ordered : list (option RunnerObservation)) (begin : Z) : bool :=
  match fuel with
  | O => true
  | S fuel' =>
    if begin <? Z.of_nat (length ordered) then
      let first := deref ordered.[begin] in
      if negb (ro_groupIndex first =? 0) || (ro_groupSize first =? 0) ||
         (Z.of_nat (length ordered) - begin <? ro_groupSize first) ||
         (is_report first && negb (ro_groupSize first =? 1))
      then false
      else if all_range (Z.to_nat (ro_groupSize first)) 0 (group_entry_ok descriptors ordered begin)
      then match_groups fuel' descriptors ordered (begin + ro_groupSize first)
      else false
    else true
  end.

(** [metadataMatches]: the reports when the metadata matches. *)
Definition metadataMatches (metadata : list RunnerObservation) (descriptors : list ObservationDescriptor)
  : option (list ReportGaugeDescriptor) :=
  if negb (Nat.eqb (length metadata) (length descriptors)) then None
  else
    let n := length metadata in
    match match_entries descriptors metadata (replicate n false, replicate n None, []) with
    | None => None
    | Some (seen, ordered, reports) =>
      if negb (match_groups n descriptors ordered 0) then None
      else if forallb (fun value => value) seen then Some reports else None
    end.
End Rec.

(** ** The runner *)

Module Runner.
Import Rec.

Definition set_ready (b : bool) (r : SystemRunner) : SystemRunner :=
  mkRunner (configJson_ r) (eventFile_ r) (ownsEventFile_ r) b (hasDomainLimit_ r) (workers_ r).
Definition set_workers (w : Z) (r : SystemRunner) : SystemRunner :=
  mkRunner (configJson_ r) (eventFile_ r) (ownsEventFile_ r) (ready_ r) (hasDomainLimit_ r) w.
Definition set_config (json : list Z) (r : SystemRunner) : SystemRunner :=
  mkRunner json (eventFile_ r) (ownsEventFile_ r) (ready_ r) (hasDomainLimit_ r) (workers_ r).
Definition set_domain_limit (b : bool) (r : SystemRunner) : SystemRunner :=
  mkRunner (configJson_ r) (eventFile_ r) (ownsEventFile_ r) (ready_ r) b (workers_ r).
Definition set_event_file (f : EventFile) (owns : bool) (r : SystemRunner) : SystemRunner :=
  mkRunner (configJson_ r) (Some f) owns (ready_ r) (hasDomainLimit_ r) (workers_ r).

(** The member initialisers. *)
Definition initial : SystemRunner := mkRunner [] None false false false 1.

Definition fail (message : list Z) (s : SystemRunner * Host) : SystemRunner * Host :=
  let '(r, host) := s in
  (set_ready false r,
   mkHost (cerr_ host ++ lit "pycircuit_system: " ++ message ++ [10]) (events_out host) (unlinked_ host)).

(** *** Options *)

Record Options := mkOptions {
  configPath : list Z;
  eventPath : list Z;
  hasConfig : bool;
  hasEvents : bool;
  hasWorkers : bool;
  workers : Z;
}.
Definition no_options : Options := mkOptions [] [] false false false 1.

Definition is_option_name (text : list Z) : bool :=
  bool_decide (text = lit "--config") || bool_decide (text = lit "--events") || bool_decide (text = lit "--workers").

(** The [--workers] value: the new [workers_] and whether it is accepted.
    [std::from_chars] stores a value only when it is in range. *)
Definition parse_workers (value : list Z) (old : Z) : bool * Z :=
  let '(ds, rest) := digits value in
  let parsed := match ds with [] => None | _ => from_chars ds end in
  let workers := match parsed with Some v => v | None => old end in
  (forallb is_digit value && bool_decide (is_Some parsed) && bool_decide (rest = []) && negb (workers =? 0), workers).

(** The argument loop over [argv[1..]]; a null argument is [None].  The
    answer is the failure message, if any, and the options so far. *)
Fixpoint parse_options (args : list (option (list Z))) (o : Options) : option string * Options :=
  match args with
  | [] => (None, o)
  | None :: _ => (Some "invalid command-line argument"%string, o)
  | Some option :: rest =>
    let configOption := bool_decide (option = lit "--config") in
    let eventsOption := bool_decide (option = lit "--events") in
    let workersOption := bool_decide (option = lit "--workers") in
    if negb configOption && negb eventsOption && negb workersOption
    then (Some "unknown option or positional argument"%string, o)
    else if (configOption && hasConfig o) || (eventsOption && hasEvents o) || (workersOption && hasWorkers o)
    then (Some "repeated command-line option"%string, o)
    else
      let expected :=
        if configOption then "expected --config PATH"%string
        else if workersOption then "expected --workers N"%string
        else "expected --events PATH or --events -"%string in
      match rest with
      | Some value :: rest' =>
        if bool_decide (value = []) || is_option_name value then (Some expected, o)
        else if configOption
        then parse_options rest' (mkOptions value (eventPath o) true (hasEvents o) (hasWorkers o) (workers o))
        else if eventsOption
        then parse_options rest' (mkOptions (configPath o) value (hasConfig o) true (hasWorkers o) (workers o))
        else
          let '(ok, w) := parse_workers value (workers o) in
          let o' b := mkOptions (configPath o) (eventPath o) (hasConfig o) (hasEvents o) b w in
          if negb ok then (Some "workers must be a positive decimal integer"%string, o' (hasWorkers o))
          else parse_options rest' (o' true)
      | _ => (Some expected, o)
      end
  end.

Section Os.
(** Reading a file: [None] when it cannot be opened, otherwise the bytes and
    [bad()]. *)
Context (read_file : list Z -> option (list Z * bool)).
(** [open] with [O_CREAT | O_EXCL], [fstat] of a regular file, [fdopen]. *)
Context (os_open os_regular os_fdopen : list Z -> bool).

Definition unlink (path : list Z) (host : Host) : Host :=
  mkHost (cerr_ host) (events_out host) (unlinked_ host ++ [path]).

(** The POSIX branch of [exclusiveCreate]. *)
Definition exclusiveCreate (path : list Z) (host : Host) : bool * Host :=
  if negb (os_open path) then (false, host)
  else if negb (os_regular path) then (false, unlink path host)
  else if negb (os_fdopen path) then (false, unlink path host)
  else (true, host).

Definition openEventSink (path : list Z) (s : SystemRunner * Host) : bool * (SystemRunner * Host) :=
  let '(r, host) := s in
  let '(ok, host) := exclusiveCreate path host in
  if negb ok then (false, fail (lit "events path must be a new regular file") (r, host))
  else (true, (set_event_file (Opened path) true r, host)).

(** [view.ends_with('\n')] and [remove_suffix(1)] *)
Definition strip_newline (bytes : list Z) : list Z :=
  if bool_decide (last bytes = Some 10) then take (length bytes - 1) bytes else bytes.

(** The checks on the parsed limits: the failure message, if any. *)
Definition check_limits (limits : RuntimeLimits) : option string :=
  let domainLimit := List.find (fun entry => bool_decide (fst entry = lit "default")) (maxDomainCycles limits) in
  if bool_decide (is_Some (deadlockWindow limits))
  then Some "deadlock_window is unavailable in the foundation runtime"%string
  else if match maxTicks limits with None => true | Some n => n =? 0 end &&
          match domainLimit with None => true | Some (_, n) => n =? 0 end
  then Some "config requires a finite positive max_ticks or default domain limit"%string
  else if match domainLimit with None => false | Some (_, n) => n =? 0 end
  then Some "default domain limit must be positive"%string
  else if existsb (fun '(name, value) => negb (bool_decide (name = lit "default")) || (value =? 0)) (maxDomainCycles limits)
  then Some "runtime limits are outside the foundation profile"%string
  else if bool_decide (maxTicks limits = Some 0) then Some "max_ticks must be positive"%string
  else None.

(** What follows the argument loop. *)
Definition configure (embeddedConfig : list Z) (o : Options) (s : SystemRunner * Host) : SystemRunner * Host :=
  let '(r, host) := s in
  if negb (hasConfig o) && bool_decide (embeddedConfig = [])
  then fail (lit "expected exactly one --config PATH") (r, host)
  else
    let loaded :=
      if hasConfig o then
        match read_file (configPath o) with
        | None => (Some "cannot open config file"%string, r)
        | Some (bytes, bad) =>
          (if bad : bool then Some "cannot read config file"%string else None, set_config bytes r)
        end
      else (None, set_config embeddedConfig r) in
    match loaded with
    | (Some error, r) => fail (lit error) (r, host)
    | (None, r) =>
      match parseModelConfigJson (strip_newline (configJson_ r)) with
      | inl error => fail (lit (if String.eqb error "" then "invalid model config" else error)) (r, host)
      | inr limits =>
        let r' := set_domain_limit (negb (bool_decide (maxDomainCycles limits = []))) r in
        match check_limits limits with
        | Some error => fail (lit error) (if bool_decide (is_Some (deadlockWindow limits)) then r else r', host)
        | None =>
          if bool_decide (eventPath o = []) then (set_ready true r', host)
          else if bool_decide (eventPath o = lit "-") then (set_ready true (set_event_file Stdout (ownsEventFile_ r') r'), host)
          else
            let '(ok, (r'', host)) := openEventSink (eventPath o) (r', host) in
            if negb ok then (r'', host) else (set_ready true r'', host)
        end
      end
    end.

(** The constructor; [None] is a null [argv], the list holds [argc] entries. *)
Definition construct (argv : option (list (option (list Z)))) (embeddedConfig : list Z) (host : Host)
  : SystemRunner * Host :=
  match argv with
  | None | Some [] => fail (lit "usage: pycircuit_system --config PATH [--events PATH| -] [--workers N]") (initial, host)
  | Some (_ :: args) =>
    match parse_options args no_options with
    | (Some error, o) => fail (lit error) (set_workers (workers o) initial, host)
    | (None, o) => configure embeddedConfig o (set_workers (workers o) initial, host)
    end
  end.

(** The two-argument constructor delegates with an empty configuration. *)
Definition construct_default (argv : option (list (option (list Z)))) (host : Host) : SystemRunner * Host :=
  construct argv [] host.
End Os.

(** *** Run *)

Section Run.
(** How many bytes of a record the stream accepts after the given output,
    and whether the flush succeeds. *)
Context (fwrite : list Z -> list Z -> Z) (fflush : list Z -> bool).
Context {H M O : Type} `{HM : SimObj H M} `{HS : SystemHooks H O} `{EM : EqDecision M} `{EO : EqDecision O}.
Context (observations : O) (metadata : list RunnerObservation) (callbacks : RunnerCallbacks H).

(** The runner and the host; with the executor of a run, its system and the
    heap. *)
Definition base_state : Type := SystemRunner * Host.
Definition run_state : Type := base_state * (SimExecutor * SimSystem M O * H).

Definition writeRecord (record : list Z) (s : base_state) : bool * base_state :=
  let '(r, host) := s in
  match eventFile_ r with
  | None => (true, s)
  | Some _ =>
    let written := fwrite (events_out host) record in
    let out := events_out host ++ take (Z.to_nat written) record in
    ((written =? Z.of_nat (length record)) && fflush out, (r, mkHost (cerr_ host) out (unlinked_ host)))
  end.

(** A step of [Run]: go on with a value, or return an exit code. *)
Inductive control (A : Type) := Go (a : A) | Return (code : Z).
Arguments Go {A} a.
Arguments Return {A} code.

Definition bail {A} (message : string) (code : Z) : ST run_state (control A) :=
  fun '(b, w) => (Ret (Return code), (fail (lit message) b, w)).

(** A callback on the heap. *)
Definition on_heap {A} (m : ST H A) : ST run_state A := fun '(b, (e, sys, h)) =>
  let '(r, h) := m h in (r, (b, (e, sys, h))).

Definition descriptors (h : H) : list ObservationDescriptor := descriptors_ (obs_at observations h).

Definition findMetadata (ordinal : Z) : option RunnerObservation :=
  List.find (fun entry => ro_stableOrdinal entry =? ordinal) metadata.

(** The event loop: the items, or the failure. *)
Fixpoint collect_events (ds : list ObservationDescriptor) (events : list CommittedEventSlot) (items : list OutputItem)
  : string + list OutputItem :=
  match events with
  | [] => inr items
  | event :: rest =>
    let ordinal := stableOrdinal (e_descriptor event) in
    match findMetadata ordinal with
    | None => inl "event slot has no matching event metadata"%string
    | Some entry =>
      if is_report entry then inl "event slot has no matching event metadata"%string
      else
        let order := Obs.find_descriptor ds ordinal in
        if order =? Z.of_nat (length ds) then inl "event slot has no matching observation descriptor"%string
        else collect_events ds rest (items ++ [mkItem order entry (FromEvent event)])
    end
  end.

Fixpoint collect_gauges (ds : list ObservationDescriptor) (committedEpoch : Z) (gauges : list GaugeSnapshot)
    (items : list OutputItem) : string + list OutputItem :=
  match gauges with
  | [] => inr items
  | gauge :: rest =>
    if negb (lastUpdate gauge =? committedEpoch) then collect_gauges ds committedEpoch rest items
    else
      match findMetadata (g_stableOrdinal gauge) with
      | None => inl "active gauge has no matching report metadata"%string
      | Some entry =>
        if negb (is_report entry) then inl "active gauge has no matching report metadata"%string
        else
          let order := Obs.find_descriptor ds (g_stableOrdinal gauge) in
          if order =? Z.of_nat (length ds) then inl "active gauge has no matching observation descriptor"%string
          else collect_gauges ds committedEpoch rest (items ++ [mkItem order entry (FromGauge gauge)])
      end
  end.

(** [std::sort] by descriptor order: any sort; here by insertion. *)
Fixpoint insert_item (item : OutputItem) (items : list OutputItem) : list OutputItem :=
  match items with
  | [] => [item]
  | x :: rest => if descriptorOrder item <? descriptorOrder x then item :: items else x :: insert_item item rest
  end.
Definition sort_items (items : list OutputItem) : list OutputItem := foldl (fun acc i => insert_item i acc) [] items.

(** The members of the group that starts with [first]. *)
Definition group_consistent (committedEpoch : Z) (first : OutputItem) (group : list OutputItem) : bool :=
  forallb (fun '(index, entry) =>
    negb (negb (sameObservationGroup (item_metadata first) (item_metadata entry) index) ||
          negb (descriptorOrder entry =? descriptorOrder first + index) ||
          negb (observationEpoch entry =? committedEpoch)))
    (zip (Z.of_nat <$> seq 0 (length group)) group).

(** The record loop over the sorted items: the records, a failure, or the
    exception of a malformed value.  A group has at least one member. *)
Fixpoint build_records (fuel : nat) (planes : ObservationSlots) (committedEpoch : Z) (items : list OutputItem)
    (records : list (list Z)) : outcome (string + list (list Z)) :=
  match fuel with
  | 0%nat => Ret (inr records)
  | S fuel' =>
    match items with
    | [] => Ret (inr records)
    | first :: _ =>
      let count := ro_groupSize (item_metadata first) in
      if negb (ro_groupIndex (item_metadata first) =? 0) || (count =? 0) || (Z.of_nat (length items) <? count)
      then Ret (inl "observation group is incomplete"%string)
      else
        let group := take (Z.to_nat count) items in
        if negb (group_consistent committedEpoch first group)
        then Ret (inl "observation group is incomplete or inconsistent"%string)
        else
          record <- eventRecord (pendingPlanes_ planes) (committedPlanes_ planes) first group ;;
          build_records fuel' planes committedEpoch (drop (Z.to_nat count) items) (records ++ [record])
    end
  end.

(** Writing the records in order: stops at the first failure. *)
Fixpoint write_records (records : list (list Z)) (s : base_state) : bool * base_state :=
  match records with
  | [] => (true, s)
  | record :: rest =>
    let '(ok, s) := writeRecord record s in
    if ok then write_records rest s else (false, s)
  end.

(** Publishing the observations of a committed step. *)
Definition publish (ds : list ObservationDescriptor) (committedEpoch : Z) : ST run_state (control unit) :=
  fun '(b, (e, sys, h)) =>
    let slots := obs_at observations h in
    match collect_events ds (events_ slots) [] with
    | inl error => bail error 2 (b, (e, sys, h))
    | inr items =>
      match collect_gauges ds committedEpoch (gauges_ slots) items with
      | inl error => bail error 2 (b, (e, sys, h))
      | inr items =>
        match build_records (length items) slots committedEpoch (sort_items items) [] with
        | Throw x => (Throw x, (b, (e, sys, h)))
        | Terminate => (Terminate, (b, (e, sys, h)))
        | Ret (inl error) => bail error 2 (b, (e, sys, h))
        | Ret (inr records) =>
          let '(ok, b) := write_records records b in
          if negb ok then bail "events sink write failed" 1 (b, (e, sys, h))
          else (Ret (Go tt), (b, (e, sys, h)))
        end
      end
    end.

(** How the loop ends: [finalStatus], [resultCode], [incompleteSchedule]. *)
Record final := mkFinal { finalStatus : list Z; resultCode : Z; incompleteSchedule : bool }.
Inductive round := Again | Break (f : final) | Exit (code : Z).

Definition step_record : StepResult := mkStepResult sizeof_StepResult STEP_RUNNING 0 0 0.

Definition drive_round : ST run_state bool := fun s =>
  match drive callbacks with
  | Some d => on_heap (d (Ex.cycles (snd s))) s
  | None => (Ret true, s)
  end.

Definition sample_round (committedEpoch : Z) : ST run_state unit :=
  match sample callbacks with
  | Some f => on_heap (f committedEpoch)
  | None => st_ret tt
  end.

Definition exec_step : ST run_state (Status * option StepResult) := fun '(b, w) =>
  let '(r, w) := Ex.Step observations (Some step_record) w in (r, (b, w)).

(** One iteration of [while (true)]. *)
Definition one_round (ds : list ObservationDescriptor) : ST run_state round :=
  do driven <- drive_round ;;
  if negb driven then st_ret (Break (mkFinal (lit "TERMINATED") 0 false))
  else
    do s <- st_get ;;
    if negb (expectedEpochs callbacks =? 0) && (expectedEpochs callbacks <=? Ex.cycles (snd s))
    then st_ret (Break (mkFinal (lit "FAILED") 1 true))
    else
      do stepped <- exec_step ;;
      let '(status, step) := stepped in
      let state := match step with Some r => r_state r | None => STEP_RUNNING end in
      if negb (bool_decide (status = OK)) || bool_decide (state = STEP_FAILED)
      then st_ret (Break (mkFinal (lit "FAILED") 1 false))
      else
        do s <- st_get ;;
        let committedEpoch := Ex.cycles (snd s) in
        let active := negb (bool_decide (state = STEP_QUIESCENT)) in
        do_ (if active then sample_round committedEpoch else st_ret tt) ;;
        do c <- (if active then publish ds committedEpoch else st_ret (Go tt)) ;;
        match c with
        | Return code => st_ret (Exit code)
        | Go _ =>
          st_ret
            (match state with
             | STEP_TERMINATED => Break (mkFinal (lit "TERMINATED") 0 false)
             | STEP_QUIESCENT => Break (mkFinal (lit "QUIESCENT") 0 false)
             | STEP_RUNNING => Again
             | STEP_FAILED => Break (mkFinal (lit "FAILED") 1 false)
             end)
        end.

(** [while (true)]; [None] when the fuel runs out. *)
Fixpoint rounds (fuel : nat) (ds : list ObservationDescriptor) : ST run_state (option (control final)) :=
  match fuel with
  | 0%nat => st_ret None
  | S fuel' =>
    do r <- one_round ds ;;
    match r with
    | Again => rounds fuel' ds
    | Break f => st_ret (Some (Go f))
    | Exit code => st_ret (Some (Return code))
    end
  end.

Definition incomplete_schedule_error (expected committed : Z) : list Z :=
  lit "{'code':'incomplete_schedule','message':'finite System sample schedule incomplete: expected " ++
  print_u64 expected ++ lit " sampling epochs, committed " ++ print_u64 committed ++
  lit "','phase':'runner','instance':null,'source':null,'check_id':null}".

(** From the end of the loop to the exit code. *)
Definition finish (f : final) : ST run_state Z := fun '(b, (e, sys, h)) =>
  let f :=
    if (resultCode f =? 0) && negb (expectedEpochs callbacks =? 0) &&
       negb (committedCycles_ e =? expectedEpochs callbacks)
    then mkFinal (lit "FAILED") 1 true else f in
  let '(status, statistics, e) := Ex.StatisticsJson (Some (mkBuffer None 0)) e in
  let data := match statistics with Some buffer => b_data buffer | None => None end in
  let size := match statistics with Some buffer => b_size buffer | None => 0 end in
  match data with
  | Some bytes =>
    if negb (bool_decide (status = OK)) || (size =? 0)
    then (Ret 1, (fail (lit "cannot obtain final statistics") b, (e, sys, h)))
    else
      let statisticsJson := strip_newline bytes in
      let '(status, lastError, e) := Ex.LastError (Some (mkBuffer None 0)) e in
      if negb (bool_decide (status = OK))
      then (Ret 1, (fail (lit "cannot obtain final error status") b, (e, sys, h)))
      else
        let errorJson :=
          match lastError with
          | Some (mkBuffer (Some text) n) => if n =? 0 then [] else text
          | _ => []
          end in
        let errorJson :=
          if incompleteSchedule f then incomplete_schedule_error (expectedEpochs callbacks) (committedCycles_ e)
          else errorJson in
        let record := resultRecord (finalStatus f) (committedCycles_ e) statisticsJson errorJson
                        (resetSemantics callbacks) in
        let '(ok, b) := match eventFile_ (fst b) with
                        | None => (true, b)
                        | Some _ => writeRecord record b
                        end in
        if negb ok then (Ret 1, (fail (lit "events sink write failed") b, (e, sys, h)))
        else (Ret (resultCode f), (b, (e, sys, h)))
  | None => (Ret 1, (fail (lit "cannot obtain final statistics") b, (e, sys, h)))
  end.

(** The body of the [try] block after the executor was made. *)
Definition run_executor (fuel : nat) : ST run_state (option Z) := fun '(b, (e, sys, h)) =>
  if negb (Ex.created (e, sys, h)) then (Ret (Some 2), (fail (lit "model Build failed") b, (e, sys, h)))
  else
    let '(status, e) := Ex.ConfigureJson (Some (configJson_ (fst b))) e in
    if negb (bool_decide (status = OK))
    then (Ret (Some 2), (fail (lit "model configuration or reset failed") b, (e, sys, h)))
    else
      (do_ (match initialize callbacks with Some f => on_heap f | None => st_ret tt end) ;;
       fun '(b, w) =>
         let '(status, w) := Ex.Reset observations w in
         if negb (bool_decide (status = OK))
         then (Ret (Some 2), (fail (lit "model configuration or reset failed") b, w))
         else
           (do exit <- rounds fuel (descriptors (snd w)) ;;
            match exit with
            | None => st_ret None
            | Some (Return code) => st_ret (Some code)
            | Some (Go f) => do code <- finish f ;; st_ret (Some code)
            end) (b, w)) (b, (e, sys, h)).

(** [Run]: the exit code, [None] when the fuel of the loop runs out. *)
Definition Run (fuel : nat) (b : base_state) (sys : SimSystem M O) (h : H)
  : outcome (option Z) * (base_state * SimSystem M O * H) :=
  if negb (ready_ (fst b)) then (Ret (Some 2), (b, sys, h))
  else if (negb (bool_decide (resetSemantics callbacks = lit "strict")) &&
           negb (bool_decide (resetSemantics callbacks = lit "if_one"))) ||
          (negb (expectedEpochs callbacks =? 0) && negb (bool_decide (is_Some (drive callbacks))))
  then (Ret (Some 2),
        (fail (lit "runner requires validated root policy and a finite-schedule driver") b, sys, h))
  else if bool_decide (is_Some (drive callbacks)) && hasDomainLimit_ (fst b)
  then (Ret (Some 2),
        (fail (lit "driven runner requires max_ticks in sampling epochs; max_domain_cycles needs a clock-domain driver") b,
         sys, h))
  else
    match metadataMatches metadata (descriptors h) with
    | None => (Ret (Some 2), (fail (lit "observation metadata does not match configured slots") b, sys, h))
    | Some reports =>
      match Ex.construct observations reports sys h with
      | Ret (e, sys, h) =>
        match run_executor fuel (b, (e, sys, h)) with
        | (Ret code, (b, (_, sys, h))) => (Ret code, (b, sys, h))
        | (Throw x, (b, (_, sys, h))) => (Ret (Some 1), (fail (what x) b, sys, h))
        | (Terminate, (b, (_, sys, h))) => (Terminate, (b, sys, h))
        end
      | Throw x => (Ret (Some 1), (fail (what x) b, sys, h))
      | Terminate => (Terminate, (b, sys, h))
      end
    end.
End Run.
Arguments Go {A} a.
Arguments Return {A} code.
End Runner.
