(* ===== verification/SystemRunnerSpec.v ===== *)
(** * Specification of the runner

    What a ready runner guarantees to the executor it drives, that a run
    always ends, and what an exit code of zero means. *)

From Stdlib Require Import ZArith Lia String.
From stdpp Require Import base list numbers strings.
From S2P Require Import Prelude Observations SimSystem SimSystemSpec ModelInput ModelInputSpec.
From S2P Require Import ConfigSpec SimExecutor SimExecutorSpec SystemRunner.

(** ** The constructor *)

Section Construct.
Context (read_file : list Z -> option (list Z * bool)) (os_open os_regular os_fdopen : list Z -> bool).

(** The limits the executor derives from accepted runtime limits. *)
Definition profile (l : RuntimeLimits) : Prop :=
  deadlockWindow l = None /\ maxTicks l <> Some 0 /\
  (maxDomainCycles l = [] \/ exists n, maxDomainCycles l = [(lit "default", n)] /\ n <> 0) /\
  (maxTicks l <> None \/ maxDomainCycles l <> []).

Lemma check_limits_profile l : limits_ok l -> Runner.check_limits l = None -> profile l.
Proof.
  intros (_ & _ & Hd). unfold Runner.check_limits, profile. set (dflt := lit "default") in *.
  destruct (bool_decide_reflect (is_Some (deadlockWindow l))) as [|Hdl]; [discriminate|].
  destruct (_ && _) eqn:E1; [discriminate|].
  destruct (match List.find _ _ with None => false | Some (_, n) => n =? 0 end) eqn:E2; [discriminate|].
  destruct (existsb _ _) eqn:E3; [discriminate|].
  destruct (bool_decide_reflect (maxTicks l = Some 0)) as [|Ht]; [discriminate|]. intros _.
  split; [destruct (deadlockWindow l); [exfalso; eauto | reflexivity]|]. split; [exact Ht|].
  destruct (maxDomainCycles l) as [|[k1 v1] rest].
  - split; [left; reflexivity|]. left. cbn in E1. rewrite andb_true_r in E1. destruct (maxTicks l); congruence.
  - split; [right | right; discriminate]. cbn [existsb] in E3. apply orb_false_elim in E3 as [E3 E4].
    apply orb_false_elim in E3 as [Ek Ev]. apply negb_false_iff, bool_decide_eq_true in Ek. subst k1.
    destruct rest as [|[k2 v2] rest]; [exists v1; split; [reflexivity | lia]|]. exfalso.
    cbn [existsb] in E4. apply orb_false_elim in E4 as [E4 _]. apply orb_false_elim in E4 as [Ek _].
    apply negb_false_iff, bool_decide_eq_true in Ek. subst k2.
    destruct Hd as (_ & _ & _ & _ & Hlt & _). pose proof (bytes_lt_asym _ _ Hlt). congruence.
Qed.

(** What a ready runner holds. *)
Record runner_ok (r : SystemRunner) : Prop := {
  rk_workers : 0 < workers_ r;
  rk_config : exists l, parseModelConfigJson (Runner.strip_newline (configJson_ r)) = inr l /\ profile l /\
    hasDomainLimit_ r = negb (bool_decide (maxDomainCycles l = []));
}.

Lemma digits_nonneg input : Forall (fun c => 48 <= c) (fst (digits input)).
Proof.
  induction input as [|c rest IH]; cbn [digits]; [constructor|].
  destruct (is_digit c) eqn:E; [|constructor]. destruct (digits rest) as [ds r]. cbn [fst] in *.
  constructor; [|exact IH]. unfold is_digit in E. lia.
Qed.

Lemma decimal_nonneg ds : Forall (fun c => 48 <= c) ds -> 0 <= decimal ds.
Proof.
  induction ds as [|c ds IH] using rev_ind; [reflexivity|]. rewrite Forall_app, decimal_app.
  intros [H1 H2]. specialize (IH H1). inversion H2; subst. lia.
Qed.

Lemma parse_workers_pos value old w : Runner.parse_workers value old = (true, w) -> 0 < old -> 0 < w.
Proof.
  unfold Runner.parse_workers. pose proof (digits_nonneg value) as Hd. destruct (digits value) as [ds rest].
  cbn [fst] in Hd. apply decimal_nonneg in Hd. intros E Ho. injection E as E <-.
  apply andb_prop in E as [_ Hw]. apply negb_true_iff, Z.eqb_neq in Hw. revert Hw.
  destruct ds as [|d ds]; [intros _; exact Ho|]. unfold from_chars. destruct (_ <? _); [|intros _; exact Ho]. lia.
Qed.

Lemma parse_options_workers args : forall o o',
  Runner.parse_options args o = (None, o') -> 0 < Runner.workers o -> 0 < Runner.workers o'.
Proof.
  induction args as [args IH] using (well_founded_induction (well_founded_ltof _ (@length _))).
  unfold ltof in IH. intros o o'. destruct args as [|[opt|] rest]; cbn [Runner.parse_options]; [congruence| |discriminate].
  destruct (_ && _ && _); [discriminate|]. destruct (_ || _ || _); [discriminate|].
  destruct rest as [|[value|] rest]; [discriminate| |discriminate].
  destruct (_ || _); [discriminate|]. assert (Hlt : (length rest < length (Some opt :: Some value :: rest))%nat) by (cbn; lia).
  destruct (bool_decide _); [intros E Hw; apply (IH _ Hlt _ _ E), Hw|].
  destruct (bool_decide _); [intros E Hw; apply (IH _ Hlt _ _ E), Hw|].
  destruct (Runner.parse_workers value (Runner.workers o)) as [ok w] eqn:Ew. destruct ok; [|discriminate].
  cbn [negb]. intros E Hw. apply (IH _ Hlt _ _ E). exact (parse_workers_pos _ _ _ Ew Hw).
Qed.

Lemma fail_not_ready m s : ready_ (fst (Runner.fail m s)) = false.
Proof. destruct s. reflexivity. Qed.

Lemma configure_ok embedded o r host :
  0 < workers_ r -> ready_ (fst (Runner.configure read_file os_open os_regular os_fdopen embedded o (r, host))) = true ->
  runner_ok (fst (Runner.configure read_file os_open os_regular os_fdopen embedded o (r, host))).
Proof.
  intros Hw. unfold Runner.configure. destruct (_ && _); [rewrite fail_not_ready; discriminate|].
  cbv zeta.
  match goal with |- context [if Runner.hasConfig o then ?a else ?b] =>
    set (loaded := if Runner.hasConfig o then a else b) end.
  assert (Hl : workers_ (snd loaded) = workers_ r).
  { unfold loaded. destruct (Runner.hasConfig o); [|reflexivity].
    destruct (read_file _) as [[bytes bad]|]; reflexivity. }
  destruct loaded as [[error|] r1]; cbn [snd] in Hl; [rewrite fail_not_ready; discriminate|].
  destruct (parseModelConfigJson _) as [error|l] eqn:Ep; [rewrite fail_not_ready; discriminate|].
  pose proof (parse_limits_ok _ _ Ep) as Hok. pose proof (check_limits_profile l Hok) as Hp.
  destruct (Runner.check_limits l) as [error|]; [rewrite fail_not_ready; discriminate|]. specialize (Hp eq_refl).
  assert (G : forall f own rd, runner_ok (mkRunner (configJson_ r1) f own rd
                (negb (bool_decide (maxDomainCycles l = []))) (workers_ r1))).
  { intros f own rd. constructor; cbn [workers_ configJson_ hasDomainLimit_]; [lia | eauto]. }
  destruct (bool_decide (Runner.eventPath o = [])); [intros _; exact (G _ _ _)|].
  destruct (bool_decide (Runner.eventPath o = lit "-")); [intros _; exact (G _ _ _)|].
  unfold Runner.openEventSink. destruct (Runner.exclusiveCreate _ _ _ _ _) as [ok host'].
  destruct ok; cbn [negb]; intros _; exact (G _ _ _).
Qed.

Lemma construct_ok argv embedded host r host' :
  Runner.construct read_file os_open os_regular os_fdopen argv embedded host = (r, host') ->
  ready_ r = true -> runner_ok r.
Proof.
  unfold Runner.construct. destruct argv as [[|argv0 args]|]; try (intros [= <- _]; discriminate).
  destruct (Runner.parse_options args Runner.no_options) as [[error|] o] eqn:Eo; [intros [= <- _]; discriminate|].
  intros E Hr. pose proof (configure_ok embedded o (Runner.set_workers (Runner.workers o) Runner.initial) host) as H.
  rewrite E in H. apply H; [|exact Hr]. cbn. apply (parse_options_workers _ _ _ Eo). reflexivity.
Qed.

(** The executor takes the configuration of a ready runner. *)
Lemma configure_accepts r e l :
  parseModelConfigJson (Runner.strip_newline (configJson_ r)) = inr l -> profile l -> ex_state e = ExCreated ->
  exists e', Ex.ConfigureJson (Some (configJson_ r)) e = (OK, e') /\ ex_state e' = ExConfigured /\
    limits e' = option_list (maxTicks l) ++ (maxDomainCycles l).*2 /\
    limits e' <> [] /\ Forall (fun n => 0 < n) (limits e').
Proof.
  intros Ep (Hdl & Ht & Hd & Hne) Ec. unfold Ex.ConfigureJson.
  rewrite bool_decide_eq_true_2 by exact Ec. cbn [negb].
  destruct (configJson_ r) as [|c json] eqn:Ej; [vm_compute in Ep; discriminate|].
  fold (Runner.strip_newline (c :: json)). rewrite Ep, Hdl.
  rewrite bool_decide_eq_false_2 by (intros [? ?]; discriminate).
  rewrite (bool_decide_eq_false_2 (maxTicks l = Some 0)) by exact Ht.
  destruct (parse_limits_ok _ _ Ep) as (_ & Hut & Hud).
  assert (Hpos : Forall (fun n => 0 < n) (option_list (maxTicks l))).
  { destruct (maxTicks l) as [n|]; [|constructor]. specialize (Hut n eq_refl). unfold is_u in Hut.
    repeat constructor. assert (n <> 0) by congruence. lia. }
  destruct Hd as [Hd|(n & Hd & Hn)]; rewrite Hd in *.
  - cbn [length Nat.ltb Nat.leb orb]. eexists. split; [reflexivity|]. split; [reflexivity|].
    unfold limits. cbn. rewrite app_nil_r. split; [reflexivity|]. split; [|exact Hpos].
    destruct Hne as [Hne|Hne]; [|congruence]. destruct (maxTicks l); [discriminate | congruence].
  - rewrite (bool_decide_eq_true_2 (lit "default" = lit "default")) by reflexivity.
    cbn [length Nat.ltb Nat.leb orb negb]. replace (n =? 0) with false by lia. eexists. split; [reflexivity|].
    split; [reflexivity|]. unfold limits. cbn. split; [reflexivity|]. split; [destruct (maxTicks l); discriminate|].
    apply Forall_app. split; [exact Hpos|]. destruct Hud as (_ & _ & _ & Hu & _). unfold is_u in Hu. repeat constructor. lia.
Qed.
End Construct.

(** The runner admits only configurations its executor takes.  A runner
    that is ready after construction, whatever the command line, the
    embedded configuration and the operating system's answers, has a
    positive worker count and a configuration that a created executor
    accepts, after which the executor has at least one limit and every
    limit is positive. *)
Theorem ready_runner_is_configurable read_file os_open os_regular os_fdopen argv embedded host r host' e :
  Runner.construct read_file os_open os_regular os_fdopen argv embedded host = (r, host') ->
  ready_ r = true -> ex_state e = ExCreated ->
  0 < workers_ r /\
  exists e', Ex.ConfigureJson (Some (configJson_ r)) e = (OK, e') /\ ex_state e' = ExConfigured /\
    limits e' <> [] /\ Forall (fun n => 0 < n) (limits e').
Proof.
  intros E Hr Ec. pose proof (construct_ok _ _ _ _ _ _ _ _ _ E Hr) as Hok.
  split; [apply Hok|]. destruct Hok as [_ (l & Ep & Hp & _)].
  destruct (configure_accepts r e l Ep Hp Ec) as (e' & H1 & H2 & _ & H3). eauto.
Qed.

(** ** Runs *)

Section Runs.
Context (fwrite : list Z -> list Z -> Z) (fflush : list Z -> bool).
Context {H M O : Type} `{HM : SimObj H M} `{HS : SystemHooks H O} `{EM : EqDecision M} `{EO : EqDecision O}.
Context (observations : O) (metadata : list RunnerObservation) (callbacks : RunnerCallbacks H).
Implicit Types (b : SystemRunner * Host) (e : SimExecutor) (sys : SimSystem M O) (h : H).
#[local] Abbreviation rstate := (SystemRunner * Host * (SimExecutor * SimSystem M O * H))%type.

Lemma bind_ret {S A B} (m : ST S A) (k : A -> ST S B) s r s' :
  st_bind m k s = (Ret r, s') -> exists a s1, m s = (Ret a, s1) /\ k a s1 = (Ret r, s').
Proof. unfold st_bind. destruct (m s) as [[a|x|] s1]; [eauto | discriminate..]. Qed.

(** Callbacks touch the heap only, publishing the runner and host only. *)
Lemma on_heap_frame {A} (m : ST H A) b e sys h r (s' : rstate) :
  Runner.on_heap m (b, (e, sys, h)) = (r, s') -> exists h', s' = (b, (e, sys, h')).
Proof. unfold Runner.on_heap. destruct (m h) as [r0 h']. intros [= <- <-]. eauto. Qed.

Lemma drive_frame b e sys h r (s' : rstate) :
  Runner.drive_round callbacks (b, (e, sys, h)) = (r, s') -> exists h', s' = (b, (e, sys, h')).
Proof.
  unfold Runner.drive_round. destruct (drive callbacks); [apply on_heap_frame|]. intros [= <- <-]. eauto.
Qed.

Lemma sample_frame ep b e sys h r (s' : rstate) :
  Runner.sample_round callbacks ep (b, (e, sys, h)) = (r, s') -> exists h', s' = (b, (e, sys, h')).
Proof.
  unfold Runner.sample_round. destruct (sample callbacks); [apply on_heap_frame|]. intros [= <- <-]. eauto.
Qed.

(** *** What is written *)

(** A serialised group of consistent observations. *)
Definition is_event_record (record : list Z) : Prop :=
  exists pending committed ep first group,
    Runner.group_consistent ep first group = true /\ Rec.eventRecord pending committed first group = Ret record.

Definition emits (b b' : SystemRunner * Host) (records : list (list Z)) : Prop :=
  fst b' = fst b /\ cerr_ (snd b') = cerr_ (snd b) /\ unlinked_ (snd b') = unlinked_ (snd b) /\
  events_out (snd b') = events_out (snd b) ++ match eventFile_ (fst b) with None => [] | Some _ => concat records end.

Lemma emits_nil b : emits b b [].
Proof. repeat split. destruct (eventFile_ (fst b)); symmetry; apply app_nil_r. Qed.

Lemma emits_trans b1 b2 b3 l1 l2 : emits b1 b2 l1 -> emits b2 b3 l2 -> emits b1 b3 (l1 ++ l2).
Proof.
  intros (E1 & C1 & U1 & V1) (E2 & C2 & U2 & V2). rewrite E1 in *. repeat split; try congruence.
  rewrite V2, V1, <- app_assoc. f_equal. destruct (eventFile_ (fst b1)); [|reflexivity].
  rewrite concat_app. reflexivity.
Qed.

Lemma writeRecord_ok record b b' : Runner.writeRecord fwrite fflush record b = (true, b') -> emits b b' [record].
Proof.
  destruct b as [r host]. unfold Runner.writeRecord, emits. destruct (eventFile_ r) eqn:Ef.
  - intros E. injection E as E <-. apply andb_prop in E as [E _]. apply Z.eqb_eq in E. cbn [fst snd cerr_ unlinked_ events_out].
    repeat split. rewrite Ef, E, Nat2Z.id, take_ge by lia. cbn. rewrite app_nil_r. reflexivity.
  - intros [= <-]. cbn. rewrite Ef, app_nil_r. auto.
Qed.

Lemma write_records_ok records : forall b b',
  Runner.write_records fwrite fflush records b = (true, b') -> emits b b' records.
Proof.
  induction records as [|record rest IH]; intros b b'; cbn [Runner.write_records].
  - intros [= <-]. apply emits_nil.
  - destruct (Runner.writeRecord fwrite fflush record b) as [[|] b1] eqn:E; [|discriminate].
    intros Er. exact (emits_trans _ _ _ [record] rest (writeRecord_ok _ _ _ E) (IH _ _ Er)).
Qed.

Lemma build_records_ok planes ep fuel : forall items acc records,
  Runner.build_records fuel planes ep items acc = Ret (inr records) ->
  Forall is_event_record acc -> Forall is_event_record records.
Proof.
  induction fuel as [|fuel IH]; intros items acc records; cbn [Runner.build_records]; [congruence|].
  destruct items as [|first rest]; [congruence|].
  destruct (_ || _ || _) eqn:Eg; [discriminate|].
  set (group := take _ (first :: rest)). destruct (Runner.group_consistent ep first group) eqn:Ec; [|discriminate].
  cbn [negb]. destruct (Rec.eventRecord _ _ first group) as [record| |] eqn:Er; [|discriminate..]. cbn [obind].
  intros E Ha. apply (IH _ _ _ E). apply Forall_app. split; [exact Ha|]. apply Forall_singleton.
  repeat eexists; eassumption.
Qed.

Lemma publish_spec ds ep b w r (s' : rstate) :
  Runner.publish fwrite fflush observations metadata ds ep (b, w) = (Ret r, s') ->
  exists b', s' = (b', w) /\
  match r with
  | Runner.Go _ => exists records, emits b b' records /\ Forall is_event_record records
  | Runner.Return code => code = 1 \/ code = 2
  end.
Proof.
  destruct w as [[e sys] h]. unfold Runner.publish, Runner.bail.
  destruct (Runner.collect_events _ _ _ _) as [x|items]; [intros [= <- <-]; eauto|].
  destruct (Runner.collect_gauges _ _ _ _ _) as [x|items2]; [intros [= <- <-]; eauto|].
  destruct (Runner.build_records _ _ _ _ _) as [[x|records]|x|] eqn:Eb; [intros [= <- <-]; eauto | | discriminate..].
  destruct (Runner.write_records _ _ _ _) as [[|] b1] eqn:Ew; cbn [negb]; intros [= <- <-]; [|eauto].
  eexists. split; [reflexivity|]. exists records. split; [exact (write_records_ok _ _ _ Ew)|].
  exact (build_records_ok _ _ _ _ _ _ Eb (Forall_nil_2 _)).
Qed.

(** *** One round *)

Definition text_clear e : Prop := lastError_ e = [] /\ fallbackError_ e = false.

Definition good_final (f : Runner.final) e : Prop :=
  Runner.resultCode f = 0 -> Runner.incompleteSchedule f = false /\ text_clear e /\
  (Runner.finalStatus f = lit "TERMINATED" \/ Runner.finalStatus f = lit "QUIESCENT").

(** A step that answered [OK]. *)
Lemma exec_step_ok e sys h st r e' sys' h' :
  ex_inv e sys ->
  Ex.Step observations (Some Runner.step_record) (e, sys, h) = (Ret (st, r), (e', sys', h')) ->
  ex_inv e' sys' /\
  (st = OK -> text_clear e' /\ exists r', r = Some r' /\
    (r_state r' = STEP_RUNNING -> limits e' = limits e /\ committedCycles_ e' = committedCycles_ e + 1 /\
       Forall (fun n => committedCycles_ e' < n) (limits e))).
Proof.
  intros Hi E. destruct (Step_exec_effect observations _ _ _ _ _ _ _ _ _ Hi E) as (x & Heff & Hs & _).
  split; [exact (exec_effect_inv _ _ _ _ _ _ Hi Heff)|]. intros ->.
  assert (Hc : text_clear e').
  { inversion Heff as [st e1 Hst | | | |]; subst; try (split; reflexivity).
    destruct Hst as [?|[?|[? _]]]; discriminate. }
  split; [exact Hc|]. destruct r as [r|].
  - exists r. split; [reflexivity|]. intros Er. exact (running_step_effect observations _ _ _ _ _ _ _ _ Hi E Er).
  - exfalso. inversion Heff as [st e1 Hst | | | |]; subst; try (specialize (Hs _ eq_refl); discriminate).
    destruct Hst as [?|[?|[? _]]]; discriminate.
Qed.

Definition round_post b b' e e' (r : Runner.round) : Prop :=
  match r with
  | Runner.Again => limits e' = limits e /\ committedCycles_ e' = committedCycles_ e + 1 /\
      Forall (fun n => committedCycles_ e' < n) (limits e) /\ text_clear e' /\
      exists records, emits b b' records /\ Forall is_event_record records
  | Runner.Break f => good_final f e' /\ exists records, emits b b' records /\ Forall is_event_record records
  | Runner.Exit code => code = 1 \/ code = 2
  end.

Lemma one_round_spec ds b e sys h r (s' : rstate) :
  ex_inv e sys -> text_clear e ->
  Runner.one_round fwrite fflush observations metadata callbacks ds (b, (e, sys, h)) = (Ret r, s') ->
  exists b' e' sys' h', s' = (b', (e', sys', h')) /\ ex_inv e' sys' /\ round_post b b' e e' r.
Proof.
  intros Hi Ht E. unfold Runner.one_round in E. apply bind_ret in E as (driven & s1 & Ed & E).
  apply drive_frame in Ed as (h1 & ->).
  assert (Hend : forall f, (Ret (Runner.Break f), (b, (e, sys, h1))) = (Ret r, s') -> good_final f e ->
    exists b' e' sys' h', s' = (b', (e', sys', h')) /\ ex_inv e' sys' /\ round_post b b' e e' r).
  { intros f [= <- <-] Hf. do 4 eexists. split; [reflexivity|]. split; [exact Hi|]. split; [exact Hf|].
    exists []. split; [apply emits_nil | constructor]. }
  destruct driven; cbn [negb] in E.
  2:{ apply (Hend _ E). intros _. split; [reflexivity | split; [exact Ht | left; reflexivity]]. }
  unfold st_get in E at 1. cbn [st_bind] in E. unfold st_bind in E at 1. cbn [snd] in E.
  destruct (_ && _); [apply (Hend _ E); intros Hc; discriminate|].
  apply bind_ret in E as ([st step] & s1 & Es & E). unfold Runner.exec_step in Es.
  destruct (Ex.Step observations (Some Runner.step_record) (e, sys, h1)) as [o [[e2 sys2] h2]] eqn:Ex.
  injection Es as -> <-. destruct (exec_step_ok _ _ _ _ _ _ _ _ Hi Ex) as [Hi2 Hok].
  assert (Hend2 : forall b2 h3 f recs, emits b b2 recs -> Forall is_event_record recs ->
    (Ret (Runner.Break f), (b2, (e2, sys2, h3))) = (Ret r, s') -> good_final f e2 ->
    exists b' e' sys' h', s' = (b', (e', sys', h')) /\ ex_inv e' sys' /\ round_post b b' e e' r).
  { intros b2 h3 f recs He Hr [= <- <-] Hf. do 4 eexists. split; [reflexivity|]. split; [exact Hi2|].
    split; [exact Hf | eauto]. }
  destruct (bool_decide_reflect (st = OK)) as [Est|]; cbn [negb orb] in E.
  2:{ apply (Hend2 _ _ _ _ (emits_nil b) (Forall_nil_2 _) E). intros Hc; discriminate. }
  destruct (Hok Est) as (Ht2 & r' & -> & Hrun). set (state := r_state r') in *.
  destruct (bool_decide (state = STEP_FAILED)).
  { apply (Hend2 _ _ _ _ (emits_nil b) (Forall_nil_2 _) E). intros Hc; discriminate. }
  unfold st_get in E at 1. unfold st_bind in E at 1. cbn [snd] in E.
  apply bind_ret in E as (u & s1 & Esm & E).
  assert (Hs1 : exists h3, s1 = (b, (e2, sys2, h3))).
  { destruct (negb _) in Esm; [exact (sample_frame _ _ _ _ _ _ _ Esm)|]. injection Esm as _ <-. eauto. }
  destruct Hs1 as (h3 & ->). apply bind_ret in E as (c & s1 & Ep & E).
  assert (Hs1 : exists b3, s1 = (b3, (e2, sys2, h3)) /\ match c with
     | Runner.Go _ => exists records, emits b b3 records /\ Forall is_event_record records
     | Runner.Return code => code = 1 \/ code = 2 end).
  { destruct (negb _) in Ep; [exact (publish_spec _ _ _ _ _ _ Ep)|]. injection Ep as <- <-.
    eexists. split; [reflexivity|]. exists []. split; [apply emits_nil | constructor]. }
  destruct Hs1 as (b3 & -> & Hc). destruct c as [u'|code].
  2:{ injection E as <- <-. do 4 eexists. split; [reflexivity|]. split; [exact Hi2 | exact Hc]. }
  destruct Hc as (recs & He & Hr). fold state in Hrun. destruct state.
  - injection E as <- <-. destruct (Hrun eq_refl) as (G1 & G2 & G3). do 4 eexists. split; [reflexivity|].
    split; [exact Hi2|]. repeat (split; [assumption|]). eauto.
  - apply (Hend2 _ _ _ _ He Hr E). intros _. split; [reflexivity | split; [exact Ht2 | right; reflexivity]].
  - apply (Hend2 _ _ _ _ He Hr E). intros _. split; [reflexivity | split; [exact Ht2 | left; reflexivity]].
  - apply (Hend2 _ _ _ _ He Hr E). intros Hc; discriminate.
Qed.

(** *** The loop *)

Lemma rounds_total n ds : forall fuel b e sys h,
  ex_inv e sys -> text_clear e -> n ∈ limits e -> committedCycles_ e < n ->
  n - committedCycles_ e <= Z.of_nat fuel ->
  fst (Runner.rounds fwrite fflush observations metadata callbacks fuel ds (b, (e, sys, h))) <> Ret None.
Proof.
  induction fuel as [|fuel IH]; intros b e sys h Hi Ht Hn Hlt Hf; [lia|]. cbn [Runner.rounds].
  unfold st_bind. destruct (Runner.one_round _ _ _ _ _ _ _) as [[r|x|] s'] eqn:E; [|discriminate..].
  destruct (one_round_spec _ _ _ _ _ _ _ Hi Ht E) as (b' & e' & sys' & h' & -> & Hi' & Hr).
  destruct r as [|f|code]; [|discriminate..]. destruct Hr as (H1 & H2 & H3 & Ht' & _).
  rewrite Forall_forall in H3. specialize (H3 n Hn). apply IH; try assumption; [rewrite H1; exact Hn | lia].
Qed.

Lemma rounds_spec ds : forall fuel b e sys h r (s' : rstate),
  ex_inv e sys -> text_clear e ->
  Runner.rounds fwrite fflush observations metadata callbacks fuel ds (b, (e, sys, h)) = (Ret (Some r), s') ->
  exists b' e' sys' h', s' = (b', (e', sys', h')) /\ ex_inv e' sys' /\
    match r with
    | Runner.Go f => good_final f e' /\ exists records, emits b b' records /\ Forall is_event_record records
    | Runner.Return code => code = 1 \/ code = 2
    end.
Proof.
  induction fuel as [|fuel IH]; intros b e sys h r s' Hi Ht E; cbn [Runner.rounds] in E; [discriminate|].
  apply bind_ret in E as (rd & s1 & Eo & E).
  destruct (one_round_spec _ _ _ _ _ _ _ Hi Ht Eo) as (b1 & e1 & sys1 & h1 & -> & Hi1 & Hr).
  destruct rd as [|f|code]; [|injection E as <- <-; do 4 eexists; split; [reflexivity | split; [exact Hi1 | exact Hr]]..].
  destruct Hr as (_ & _ & _ & Ht1 & recs & He & Hrec).
  destruct (IH _ _ _ _ _ _ Hi1 Ht1 E) as (b' & e' & sys' & h' & -> & Hi' & Hpost).
  do 4 eexists. split; [reflexivity|]. split; [exact Hi'|]. destruct r as [f|code]; [|exact Hpost].
  destruct Hpost as (Hf & recs' & He' & Hrec'). split; [exact Hf|]. exists (recs ++ recs').
  split; [exact (emits_trans _ _ _ _ _ He He') | apply Forall_app; auto].
Qed.

(** *** The end of a run *)

Lemma finish_spec f b e sys h (s' : rstate) :
  good_final f e ->
  Runner.finish fwrite fflush callbacks f (b, (e, sys, h)) = (Ret 0, s') ->
  (expectedEpochs callbacks = 0 \/ committedCycles_ e = expectedEpochs callbacks) /\
  exists b' w' status statistics, s' = (b', w') /\
    (status = lit "TERMINATED" \/ status = lit "QUIESCENT") /\
    emits b b' [Rec.resultRecord status (committedCycles_ e) statistics [] (resetSemantics callbacks)].
Proof.
  intros Hf E. unfold Runner.finish in E. cbv zeta in E.
  match type of E with context [if ?c then Runner.mkFinal _ _ _ else f] =>
    set (f' := if c then Runner.mkFinal (lit "FAILED") 1 true else f) in E;
    assert (Hf' : Runner.resultCode f' = 0 -> f' = f /\ (expectedEpochs callbacks = 0 \/
       committedCycles_ e = expectedEpochs callbacks)) end.
  { unfold f'. destruct (_ && _ && _) eqn:Ec; [discriminate|]. intros Hr. split; [reflexivity|]. rewrite Hr in Ec.
    destruct (Z.eqb_spec (expectedEpochs callbacks) 0); [left; assumption | right]. cbn in Ec. lia. }
  destruct (buildStatistics_same e) as [t Et].
  unfold Ex.StatisticsJson in E. destruct (_ && _ && _) in E.
  { cbn in E. discriminate. }
  destruct (Ex.buildStatistics e) as [ok e1]. cbn [snd] in Et. subst e1.
  destruct ok; cbn [negb] in E; [|cbn in E; discriminate].
  cbn [b_data b_size Ex.setBuffer statistics_ Ex.set_statistics] in E.
  destruct (bool_decide (t = [])) in E; [discriminate|]. destruct (_ || _) in E; [discriminate|].
  cbn [Ex.LastError negb bool_decide] in E. rewrite bool_decide_eq_true_2 in E by reflexivity. cbn [negb] in E.
  cbn [lastError_ fallbackError_ committedCycles_ Ex.set_statistics] in E.
  match type of E with context [match eventFile_ (fst b) with Some _ => Runner.writeRecord _ _ ?rec _ | None => _ end] =>
    set (record := rec) in E end.
  assert (Hw : forall ok b', match eventFile_ (fst b) with Some _ => Runner.writeRecord fwrite fflush record b
      | None => (true, b) end = (ok, b') -> ok = true -> emits b b' [record]).
  { intros ok b' Eb ->. destruct (eventFile_ (fst b)) eqn:Ef; [exact (writeRecord_ok _ _ _ Eb)|].
    injection Eb as <-. repeat split. rewrite Ef. symmetry. apply app_nil_r. }
  destruct (match eventFile_ (fst b) with Some _ => _ | None => _ end) as [ok b'] eqn:Eb.
  specialize (Hw _ _ eq_refl). destruct ok; cbn [negb] in E; [|discriminate]. injection E as Er <-.
  destruct (Hf' Er) as [Ef Hexp]. rewrite Ef in Er. destruct (Hf Er) as (Hinc & [Hl Hfb] & Hst).
  split; [exact Hexp|]. do 4 eexists. split; [reflexivity|]. split; [exact Hst|].
  specialize (Hw eq_refl). unfold record in Hw. rewrite Ef, Hinc, Hfb, Hl in Hw. exact Hw.
Qed.

Lemma Reset_ok e sys h e' sys' h' :
  Ex.Reset observations (e, sys, h) = (OK, (e', sys', h')) ->
  limits e' = limits e /\ committedCycles_ e' = 0 /\ text_clear e'.
Proof.
  unfold Ex.Reset. destruct (_ && _ && _ && _); [discriminate|]. destruct (Sys.Reset sys h) as [s1 h1].
  destruct (negb _); [discriminate|]. intros [= <- _ _]. repeat split.
Qed.

(** The executor part of a run with a configured runner. *)
Lemma run_executor_cases fuel r host e sys h l n :
  parseModelConfigJson (Runner.strip_newline (configJson_ r)) = inr l -> profile l ->
  n ∈ option_list (maxTicks l) ++ (maxDomainCycles l).*2 -> ex_inv e sys ->
  let out := Runner.run_executor fwrite fflush observations metadata callbacks fuel (r, host, (e, sys, h)) in
  (n <= Z.of_nat fuel -> fst out <> Ret None) /\
  (fst out = Ret (Some 0) -> exists b' w' status cycles statistics records, snd out = (b', w') /\
     (expectedEpochs callbacks = 0 \/ cycles = expectedEpochs callbacks) /\
     (status = lit "TERMINATED" \/ status = lit "QUIESCENT") /\ Forall is_event_record records /\
     emits (r, host) b' (records ++ [Rec.resultRecord status cycles statistics [] (resetSemantics callbacks)])).
Proof.
  intros Ep Hp Hn Hi out. destruct out as [res s'] eqn:E. unfold out in E. clear out. cbn [fst snd].
  unfold Runner.run_executor in E.
  destruct (Ex.created (e, sys, h)) eqn:Ec; cbn [negb] in E; [|cbn beta iota in E; injection E as <- <-; split; [intros _ [=] | intros [=]]].
  apply bool_decide_eq_true in Ec. cbn [fst] in Ec.
  destruct (configure_accepts r e l Ep Hp Ec) as (e1 & E1 & _ & El & _ & Hpos). cbn [fst] in E.
  pose proof (ConfigureJson_inv (Some (configJson_ r)) e sys Hi) as Hi1. rewrite E1 in *. cbn [snd] in Hi1.
  rewrite bool_decide_eq_true_2 in E by reflexivity. cbn [negb] in E. unfold st_bind in E at 1.
  match type of E with (let (_, _) := ?t in _) = _ => destruct t as [[u|x|] s1] eqn:Ei end; [|cbn beta iota in E; injection E as <- <-; split; [intros _ [=] | intros [=]]..].
  assert (Hs1 : exists h1, s1 = (r, host, (e1, sys, h1))).
  { destruct (initialize callbacks); [exact (on_heap_frame _ _ _ _ _ _ _ Ei)|]. injection Ei as _ <-. eauto. }
  destruct Hs1 as (h1 & ->). pose proof (Reset_inv_ex observations e1 sys h1 Hi1) as Hi2.
  destruct (Ex.Reset observations (e1, sys, h1)) as [st [[e2 sys2] h2]] eqn:Er.
  destruct (bool_decide_reflect (st = OK)) as [->|]; cbn [negb] in E; [|cbn beta iota in E; injection E as <- <-; split; [intros _ [=] | intros [=]]].
  destruct (Reset_ok _ _ _ _ _ _ Er) as (El2 & Ec2 & Ht2).
  assert (Hn2 : n ∈ limits e2) by (rewrite El2, El; exact Hn).
  assert (Hpn : 0 < n) by (rewrite Forall_forall in Hpos; apply Hpos; rewrite El; exact Hn).
  unfold st_bind in E at 1. set (ds := Runner.descriptors observations (snd (e2, sys2, h2))) in E.
  pose proof (rounds_total n ds fuel (r, host) e2 sys2 h2 Hi2 Ht2 Hn2) as Htot.
  destruct (Runner.rounds _ _ _ _ _ fuel ds _) as [[exit|x|] s2] eqn:Ero; cbn [fst] in Htot;
    [|cbn beta iota in E; injection E as <- <-; split; [intros _ [=] | intros [=]]..].
  destruct exit as [[f|code]|].
  - destruct (rounds_spec _ _ _ _ _ _ _ _ Hi2 Ht2 Ero) as (b3 & e3 & sys3 & h3 & -> & _ & Hf & recs & He & Hrec).
    unfold st_bind in E. destruct (Runner.finish _ _ _ f _) as [[c|x|] s4] eqn:Ef;
      cbn beta iota in E; injection E as <- <-; (split; [intros _ [=]|]); [|intros [=]..]. intros [= ->].
    destruct (finish_spec _ _ _ _ _ _ Hf Ef) as (Hexp & b' & w' & status & stats & -> & Hst & He').
    do 6 eexists. split; [reflexivity|]. split; [exact Hexp|]. split; [exact Hst|]. split; [exact Hrec|].
    exact (emits_trans _ _ _ _ _ He He').
  - destruct (rounds_spec _ _ _ _ _ _ _ _ Hi2 Ht2 Ero) as (b3 & e3 & sys3 & h3 & -> & _ & Hcode).
    cbn beta iota in E. injection E as <- <-. split; [intros _ [=]|]. intros [= ->]. lia.
  - cbn beta iota in E. injection E as <- <-. split; [|intros [=]]. intros Hf. exfalso. apply Htot; [lia | lia | reflexivity].
Qed.
End Runs.

(** C2: every run ends.  A ready runner's configuration names a positive
    limit [n], and with any metadata, callbacks, modules, host answers and
    initial heap, [Run] reaches its end within [n] rounds of the step loop:
    with that much fuel it never runs out. *)
Theorem run_terminates {H M O : Type} `{HM : SimObj H M} `{HS : SystemHooks H O} `{EM : EqDecision M}
    `{EO : EqDecision O} read_file os_open os_regular os_fdopen argv embedded host r host' :
  Runner.construct read_file os_open os_regular os_fdopen argv embedded host = (r, host') -> ready_ r = true ->
  exists l n, parseModelConfigJson (Runner.strip_newline (configJson_ r)) = inr l /\
    (maxTicks l = Some n \/ maxDomainCycles l = [(lit "default", n)]) /\ 0 < n /\
    forall fuel fwrite fflush (observations : O) metadata (callbacks : RunnerCallbacks H) (sys : SimSystem M O) (h : H),
      n <= Z.of_nat fuel -> sys_inv sys ->
      fst (Runner.Run fwrite fflush observations metadata callbacks fuel (r, host') sys h) <> Ret None.
Proof.
  intros E Hr. destruct (construct_ok _ _ _ _ _ _ _ _ _ E Hr) as [_ (l & Ep & Hp & _)].
  destruct (parse_limits_ok _ _ Ep) as (_ & Hut & Hud). pose proof Hp as (_ & Ht & Hd & Hne).
  assert (Hl : exists n, (maxTicks l = Some n \/ maxDomainCycles l = [(lit "default", n)]) /\ 0 < n /\
    n ∈ option_list (maxTicks l) ++ (maxDomainCycles l).*2).
  { destruct (maxTicks l) as [n|].
    - exists n. split; [left; reflexivity|]. specialize (Hut n eq_refl). unfold is_u in Hut.
      split; [assert (n <> 0) by congruence; lia | left].
    - destruct Hd as [Hd|(n & Hd & Hn)]; [destruct Hne; congruence|]. exists n. rewrite Hd in *.
      split; [right; reflexivity|]. destruct Hud as (_ & _ & _ & Hu & _). unfold is_u in Hu. split; [lia | left]. }
  destruct Hl as (n & Hcase & Hpos & Hn). exists l, n. do 3 (split; [assumption|]).
  intros fuel fwrite fflush observations metadata callbacks sys h Hf Hs. unfold Runner.Run.
  destruct (negb _); [discriminate|]. destruct (_ || _); [discriminate|]. destruct (_ && _); [discriminate|].
  destruct (Rec.metadataMatches _ _) as [reports|]; [|discriminate].
  destruct (Ex.construct observations reports sys h) as [[[e sys1] h1]|x|] eqn:Ec; [|discriminate..].
  pose proof (construct_inv_ex observations _ _ _ _ _ _ Hs Ec) as Hi.
  destruct (run_executor_cases fwrite fflush observations metadata callbacks fuel r host' e sys1 h1 l n Ep Hp Hn Hi)
    as [Htot _].
  destruct (Runner.run_executor _ _ _ _ _ _ _) as [[code|x|] [b' [[e' sys'] h']]]; [|discriminate..].
  cbn [fst] in *. intros [= ->]. exact (Htot Hf eq_refl).
Qed.

