(* ===== verification/RunnerWitness.v ===== *)
(** * A run of the command-line runner

    The system of [ExecutorWitness.v] under the runner: command line
    [--config cfg --events - --workers 4], a configuration of two ticks, and
    a host driver that stages the two events of one group in every epoch. *)

From Stdlib Require Import ZArith Lia String.
From stdpp Require Import base list numbers strings.
From S2P Require Import Prelude Bits FourState FourStateSpec Wire WireSpec SampledClock Kernel Dff.
From S2P Require Import Observations ObservationsSpec SimSystem SimSystemSpec KernelSystem.
From S2P Require Import ModelInput ModelInputSpec ConfigSpec SimExecutor SimExecutorSpec.
From S2P Require Import ExecutorWitness SystemRunner SystemRunnerSpec.

Module RunnerWitness.
Import dffe_kernel.
#[local] Existing Instance dffe_is_kernel.
#[local] Abbreviation heap := (kheap (Current Z) (Pending Z) (Outputs Z)).
#[local] Instance mods : SimObj heap nat := RunWitness.mods SwapSystem.high.
#[local] Instance hooks : SystemHooks heap unit := RunWitness.hooks.

Definition read_file (path : list Z) : option (list Z * bool) :=
  if bool_decide (path = lit "cfg") then Some (RunWitness.config, false) else None.
Definition none (_ : list Z) : bool := false.
Definition host : Host := mkHost [] [] [].

Definition argv : option (list (option (list Z))) :=
  Some (Some <$> [lit "system"; lit "--workers"; lit "4"; lit "--config"; lit "cfg"; lit "--events"; lit "-"]).

Definition runner : SystemRunner := mkRunner RunWitness.config (Some Stdout) false true false 4.

Lemma runner_constructed : Runner.construct read_file none none none argv [] host = (runner, host).
Proof. vm_compute. reflexivity. Qed.

Lemma ready_runner_is_configurable_witness :
  0 < workers_ runner /\
  exists e', Ex.ConfigureJson (Some (configJson_ runner)) (Ex.set_state (Ex.fresh [] []) ExCreated) = (OK, e') /\
    ex_state e' = ExConfigured /\ limits e' <> [] /\ Forall (fun n => 0 < n) (limits e').
Proof.
  exact (ready_runner_is_configurable read_file none none none argv [] host runner host
    (Ex.set_state (Ex.fresh [] []) ExCreated) runner_constructed eq_refl eq_refl).
Defined.

(** One log site of two values and one report. *)
Definition metadata : list RunnerObservation :=
  [mkRunnerObservation 0 (lit "log") (lit "top") (lit "r") (lit "s") (lit "{}") true [] 0 2;
   mkRunnerObservation 1 (lit "log") (lit "top") (lit "r") (lit "s") (lit "{}") true [] 1 2;
   mkRunnerObservation 2 (lit "report") (lit "top") (lit "r") (lit "t") (lit "{}") true (lit "level") 0 1].

(** The driver stages both events for the epoch it drives. *)
Definition stage (ep : Z) : ST heap bool := fun h =>
  let o := snd (Obs.StagePacked 1 ObservationsWitness.wide false true true ep (k_obs h)) in
  let o := snd (Obs.Stage 0 (SlotVal.Unsigned 5) true true ep o) in
  (Ret true, mkHeap (cells h) o).
Definition callbacks : RunnerCallbacks heap := mkCallbacks None (Some stage) None (lit "strict") 2.

Definition fwrite (_ record : list Z) : Z := Z.of_nat (length record).
Definition fflush (_ : list Z) : bool := true.

Definition sys0 := RunWitness.sys0.
Definition run (fuel : nat) :=
  Runner.Run fwrite fflush tt metadata callbacks fuel (runner, host) sys0 RunWitness.start.

Lemma run_terminates_witness : exists n, 0 < n /\ forall fuel, n <= Z.of_nat fuel -> fst (run fuel) <> Ret None.
Proof.
  destruct (run_terminates (HM := mods) (HS := hooks) read_file none none none argv [] host runner host
    runner_constructed eq_refl) as (l & n & _ & _ & Hn & P).
  exists n. split; [exact Hn|]. intros fuel Hf.
  exact (P fuel fwrite fflush tt metadata callbacks sys0 RunWitness.start Hf (RunWitness.sys0_inv SwapSystem.high)).
Defined.

(** The run exits with zero after two event records and the result. *)
Lemma run_exit : fst (run 2) = Ret (Some 0).
Proof. vm_compute. reflexivity. Qed.

Lemma run_two_events :
  length (List.filter (fun c => c =? 10) (events_out (snd (fst (fst (snd (run 2))))))) = 3%nat.
Proof. vm_compute. reflexivity. Qed.

Definition final_base : SystemRunner * Host := fst (fst (snd (run 2))).
Definition final_sys : SimSystem nat unit := snd (fst (snd (run 2))).
Definition final_heap : heap := snd (snd (run 2)).

Lemma run_ends :
  Runner.Run fwrite fflush tt metadata callbacks 2 (runner, host) sys0 RunWitness.start =
  (Ret (Some 0), (final_base, final_sys, final_heap)).
Proof. vm_compute. reflexivity. Qed.

End RunnerWitness.
