(* ===== verification/CompilerPrelude.v ===== *)
(** * Shared definitions of the compiler's numeric code

    [FailureOr] results, the number of bits an integer needs, two's complement
    patterns and the decimal spelling of an integer. *)

From Stdlib Require Import ZArith Lia String.
From stdpp Require Import base list numbers strings.
From S2P Require Import Prelude ModelInput ConfigSpec.

(** ** [FailureOr<T>]: a diagnostic or a value *)

Definition FailureOr (A : Type) : Type := string + A.

Definition failure {A} (message : string) : FailureOr A := inl message.
Definition success {A} (a : A) : FailureOr A := inr a.

Definition fbind {A B} (m : FailureOr A) (k : A -> FailureOr B) : FailureOr B :=
  match m with inl e => inl e | inr a => k a end.

Notation "'let!' x := m 'in' k" := (fbind m (fun x => k))
  (at level 10, x name, m at level 200, k at level 200) : gfsim_scope.

Lemma fbind_inr {A B} (m : FailureOr A) (k : A -> FailureOr B) b :
  fbind m k = inr b -> exists a, m = inr a /\ k a = inr b.
Proof. destruct m; cbn; [discriminate|eauto]. Qed.

(** ** Bits of an integer *)

(** Position of the highest set bit plus one. *)
Definition bit_length (z : Z) : Z := if z =? 0 then 0 else Z.log2 z + 1.

Lemma bit_length_nonneg z : 0 <= bit_length z.
Proof. unfold bit_length. pose proof (Z.log2_nonneg z). destruct (z =? 0); lia. Qed.

Lemma bit_length_le z n : 0 <= z -> 0 <= n -> bit_length z <= n <-> z < 2 ^ n.
Proof.
  intros Hz Hn. unfold bit_length. destruct (Z.eqb_spec z 0) as [->|Hne].
  - pose proof (Z.pow_pos_nonneg 2 n). lia.
  - rewrite (Z.log2_lt_pow2 z n) by lia. lia.
Qed.

Lemma bit_length_lt_pow z : 0 <= z -> z < 2 ^ bit_length z.
Proof. intros Hz. apply bit_length_le; [lia|apply bit_length_nonneg|lia]. Qed.

Lemma bit_length_mono a b : 0 <= a <= b -> bit_length a <= bit_length b.
Proof.
  intros H. apply bit_length_le; [lia|apply bit_length_nonneg|]. pose proof (bit_length_lt_pow b ltac:(lia)). lia.
Qed.

(** ** Two's complement *)

(** The signed reading of a [w]-bit pattern. *)
Definition signed (w v : Z) : Z := if 2 * v <? 2 ^ w then v else v - 2 ^ w.

(** The integers a [w]-bit two's complement pattern holds. *)
Definition fits_signed (w z : Z) : Prop := - 2 ^ w <= 2 * z < 2 ^ w.

(** The least such [w] above zero. *)
Definition signed_bits (z : Z) : Z := bit_length (if z <? 0 then - z - 1 else z) + 1.

Lemma signed_bits_pos z : 1 <= signed_bits z.
Proof. unfold signed_bits. pose proof (bit_length_nonneg (if z <? 0 then - z - 1 else z)). lia. Qed.

Lemma signed_bits_abs z : signed_bits z <= bit_length (Z.abs z) + 1.
Proof. unfold signed_bits. apply Z.add_le_mono_r, bit_length_mono. destruct (Z.ltb_spec z 0); lia. Qed.

Lemma fits_signed_bits w z : 1 <= w -> fits_signed w z <-> signed_bits z <= w.
Proof.
  intros Hw. unfold fits_signed, signed_bits.
  assert (Hp : 2 ^ w = 2 * 2 ^ (w - 1)) by (rewrite <- Z.pow_succ_r by lia; f_equal; lia).
  pose proof (bit_length_le (if z <? 0 then - z - 1 else z) (w - 1)) as Hb.
  destruct (Z.ltb_spec z 0); lia.
Qed.

Lemma fits_signed_mono w w' z : 0 <= w <= w' -> fits_signed w z -> fits_signed w' z.
Proof. unfold fits_signed. intros Hw. pose proof (Z.pow_le_mono_r 2 w w'). lia. Qed.

Lemma signed_range w v : 0 < w -> 0 <= v < 2 ^ w -> fits_signed w (signed w v).
Proof. intros Hw Hv. unfold signed, fits_signed. destruct (Z.ltb_spec (2 * v) (2 ^ w)); lia. Qed.

Lemma signed_mod w z : 0 < w -> fits_signed w z -> signed w (z mod 2 ^ w) = z.
Proof.
  intros Hw [Hl Hu]. pose proof (Z.pow_pos_nonneg 2 w) as Hp. unfold signed.
  destruct (Z.ltb_spec z 0).
  - rewrite <- (Z.mod_unique z (2 ^ w) (-1) (z + 2 ^ w)) by lia.
    destruct (Z.ltb_spec (2 * (z + 2 ^ w)) (2 ^ w)); lia.
  - rewrite Z.mod_small by lia. destruct (Z.ltb_spec (2 * z) (2 ^ w)); lia.
Qed.

Lemma mod_signed w v : 0 < w -> 0 <= v < 2 ^ w -> signed w v mod 2 ^ w = v.
Proof.
  intros Hw Hv. unfold signed. destruct (2 * v <? 2 ^ w); [apply Z.mod_small; lia|].
  symmetry. apply (Z.mod_unique _ _ (-1)); lia.
Qed.

(** Arithmetic on patterns agrees with arithmetic on what they mean. *)
Lemma signed_congr w a b : 0 < w -> 0 <= a < 2 ^ w -> fits_signed w b -> a = b mod 2 ^ w -> signed w a = b.
Proof. intros Hw Ha Hb ->. apply signed_mod; assumption. Qed.

(** Bitwise operators keep the precision. *)
Lemma fits_signed_shiftr w z : 0 < w -> fits_signed w z <-> Z.shiftr z (w - 1) = 0 \/ Z.shiftr z (w - 1) = -1.
Proof.
  intros Hw. unfold fits_signed. rewrite Z.shiftr_div_pow2 by lia.
  assert (Hp : 2 ^ w = 2 * 2 ^ (w - 1)) by (rewrite <- Z.pow_succ_r by lia; f_equal; lia).
  pose proof (Z.pow_pos_nonneg 2 (w - 1)). rewrite Hp. split.
  - intros Hz. destruct (Z.ltb_spec z 0).
    + right. symmetry. apply (Z.div_unique _ _ _ (z + 2 ^ (w - 1))); lia.
    + left. apply Z.div_small. lia.
  - pose proof (Z.div_mod z (2 ^ (w - 1))). pose proof (Z.mod_pos_bound z (2 ^ (w - 1))). intros [E|E]; nia.
Qed.

Lemma fits_signed_land w a b : 0 < w -> fits_signed w a -> fits_signed w b -> fits_signed w (Z.land a b).
Proof.
  intros Hw. rewrite !fits_signed_shiftr, Z.shiftr_land by lia.
  intros [-> | ->] [-> | ->]; rewrite ?Z.land_0_l, ?Z.land_0_r, ?Z.land_m1_l; auto.
Qed.

Lemma fits_signed_lor w a b : 0 < w -> fits_signed w a -> fits_signed w b -> fits_signed w (Z.lor a b).
Proof.
  intros Hw. rewrite !fits_signed_shiftr, Z.shiftr_lor by lia.
  intros [-> | ->] [-> | ->]; rewrite ?Z.lor_0_l, ?Z.lor_0_r, ?Z.lor_m1_l; auto.
Qed.

Lemma fits_signed_lxor w a b : 0 < w -> fits_signed w a -> fits_signed w b -> fits_signed w (Z.lxor a b).
Proof.
  intros Hw. rewrite !fits_signed_shiftr, Z.shiftr_lxor by lia.
  intros [-> | ->] [-> | ->]; rewrite ?Z.lxor_0_l, ?Z.lxor_0_r, ?Z.lxor_m1_l; auto.
Qed.

Lemma land_mod_pow2 w a b : 0 <= w -> Z.land (a mod 2 ^ w) (b mod 2 ^ w) = Z.land a b mod 2 ^ w.
Proof.
  intros Hw. rewrite <- !Z.land_ones by lia. apply Z.bits_inj'. intros n Hn. rewrite !Z.land_spec.
  destruct (Z.testbit a n), (Z.testbit b n), (Z.testbit (Z.ones w) n); reflexivity.
Qed.

Lemma lor_mod_pow2 w a b : 0 <= w -> Z.lor (a mod 2 ^ w) (b mod 2 ^ w) = Z.lor a b mod 2 ^ w.
Proof. intros Hw. rewrite <- !Z.land_ones by lia. symmetry. apply Z.land_lor_distr_l. Qed.

Lemma lxor_mod_pow2 w a b : 0 <= w -> Z.lxor (a mod 2 ^ w) (b mod 2 ^ w) = Z.lxor a b mod 2 ^ w.
Proof.
  intros Hw. rewrite <- !Z.land_ones by lia. apply Z.bits_inj'. intros n Hn. rewrite !Z.lxor_spec, !Z.land_spec, Z.lxor_spec.
  destruct (Z.testbit a n), (Z.testbit b n), (Z.testbit (Z.ones w) n); reflexivity.
Qed.

(** ** Decimal spelling

    The canonical spelling of an integer: a minus sign for a negative one and
    the digits of the magnitude without leading zeroes. *)
Definition spell_fuel (v : Z) : nat := Z.to_nat (Z.log2 v + 1).
Definition spell_magnitude (v : Z) : list Z := print_decimal (spell_fuel v) v.
Definition spell (z : Z) : list Z := if z <? 0 then 45 :: spell_magnitude (- z) else spell_magnitude z.

Lemma spell_fuel_enough v : 0 <= v -> v < 10 ^ Z.of_nat (spell_fuel v) /\ (0 < spell_fuel v)%nat.
Proof.
  intros Hv. unfold spell_fuel. pose proof (Z.log2_nonneg v). split; [|lia]. rewrite Z2Nat.id by lia.
  destruct (Z.eq_dec v 0) as [->|Hne]; [reflexivity|]. apply Z.lt_le_trans with (2 ^ (Z.log2 v + 1)).
  - apply Z.log2_spec. lia.
  - apply Z.pow_le_mono_l. lia.
Qed.

Lemma spell_magnitude_spec v : 0 <= v ->
  decimal (spell_magnitude v) = v /\ Forall (fun c => is_digit c = true) (spell_magnitude v) /\
  exists d more, spell_magnitude v = d :: more /\ (v <> 0 -> d <> 48) /\ (more = [] \/ v <> 0).
Proof.
  intros Hv. destruct (spell_fuel_enough v Hv) as [Hlt Hf]. unfold spell_magnitude.
  destruct (print_decimal_spec (spell_fuel v) v) as [Hd Hs]; [lia|exact Hf|].
  split; [exact Hd|]. split; [apply print_decimal_digits, Hv|exact Hs].
Qed.

(** A run of digits is worth less than the power of ten of its length, and at
    least that of its length less one when it does not begin with a zero. *)
Lemma decimal_bound ds : Forall (fun c => is_digit c = true) ds -> 0 <= decimal ds < 10 ^ Z.of_nat (length ds).
Proof.
  induction ds as [|c ds IH] using rev_ind; intros H; [cbn; lia|].
  apply Forall_app in H as [H1 H2]. apply Forall_inv in H2. unfold is_digit in H2.
  rewrite decimal_app, length_app. cbn [length]. rewrite Nat2Z.inj_add, Z.pow_add_r by lia.
  specialize (IH H1). lia.
Qed.

Lemma decimal_lower ds : Forall (fun c => is_digit c = true) ds ->
  match ds with [] => True | d :: _ => d <> 48 -> 10 ^ (Z.of_nat (length ds) - 1) <= decimal ds end.
Proof.
  destruct ds as [|d ds]; [trivial|]. intros H Hd. revert H.
  induction ds as [|c ds IH] using rev_ind; intros H.
  - apply Forall_inv in H. unfold is_digit in H. unfold decimal. cbn. lia.
  - rewrite app_comm_cons in *. apply Forall_app in H as [H1 H2]. apply Forall_inv in H2. unfold is_digit in H2.
    rewrite decimal_app, length_app. cbn [length] in *. specialize (IH H1).
    replace (Z.of_nat (S (length ds) + 1) - 1) with (Z.succ (Z.of_nat (S (length ds)) - 1)) by lia.
    rewrite Z.pow_succ_r by lia. lia.
Qed.
