(* ===== verification/ApInt.v ===== *)
(** * The arbitrary-precision integers the compiler computes with

    LLVM's [APInt] (a bit pattern of a fixed width) and [APSInt] (a pattern
    with a signedness) are not part of the repository.  [ApLib] lists the
    operations the modelled code calls, [ApLaws] what their documentation
    says of them; the theorems of the compiler files hold for every library
    that satisfies the laws.  [Reference] is one, for the witnesses. *)

From Stdlib Require Import ZArith Lia String.
From stdpp Require Import base list numbers strings.
From S2P Require Import Prelude ModelInput ConfigSpec CompilerPrelude.

Class ApLib := {
  APInt : Type;
  getBitWidth : APInt -> Z;
  (** the pattern read as an unsigned number: [getZExtValue], and the words of [getRawData] *)
  ap_bits : APInt -> Z;
  (** [APInt(numBits, val)], [APInt(numBits, digits, 10)] *)
  ap_of : Z -> Z -> APInt;
  ap_of_digits : Z -> list Z -> APInt;
  getActiveBits : APInt -> Z;
  getSignificantBits : APInt -> Z;
  ap_isZero : APInt -> bool;
  ap_isNegative : APInt -> bool;
  isPowerOf2 : APInt -> bool;
  zextOrTrunc : APInt -> Z -> APInt;
  sextOrTrunc : APInt -> Z -> APInt;
  ap_neg : APInt -> APInt;
  ap_not : APInt -> APInt;
  ap_add : APInt -> APInt -> APInt;
  ap_sub : APInt -> APInt -> APInt;
  ap_mul : APInt -> APInt -> APInt;
  ap_and : APInt -> APInt -> APInt;
  ap_or : APInt -> APInt -> APInt;
  ap_xor : APInt -> APInt -> APInt;
  ap_eq : APInt -> APInt -> bool;
  ap_ne : APInt -> APInt -> bool;
  ap_slt : APInt -> APInt -> bool;
  ap_sle : APInt -> APInt -> bool;
  ap_sgt : APInt -> APInt -> bool;
  ap_sge : APInt -> APInt -> bool;
  ap_ugt : APInt -> APInt -> bool;
  ap_ashr : APInt -> Z -> APInt;
  ap_lshr : APInt -> Z -> APInt;
  ap_shl : APInt -> Z -> APInt;
  ap_setBit : APInt -> Z -> APInt;
  ap_uge : APInt -> APInt -> bool;
  ap_srem : APInt -> APInt -> APInt;
  sdivrem : APInt -> APInt -> APInt * APInt;
  udivrem : APInt -> APInt -> APInt * APInt;
  uadd_ov : APInt -> APInt -> APInt * bool;
  APSInt : Type;
  (** [APSInt(APInt, isUnsigned)] and its parts *)
  aps : APInt -> bool -> APSInt;
  aps_int : APSInt -> APInt;
  isUnsigned : APSInt -> bool;
  aps_isNegative : APSInt -> bool;
  compareValues : APSInt -> APSInt -> Z;
  isSameValue : APSInt -> APSInt -> bool;
  (** [APSInt::get(int64_t)], [APSInt::getUnsigned(uint64_t)] *)
  aps_get : Z -> APSInt;
  aps_getUnsigned : Z -> APSInt;
  (** [APSInt(StringRef)], [toString(_, 10)] *)
  aps_of_string : list Z -> APSInt;
  aps_toString : APSInt -> list Z;
  (** [getExtValue()] as an [int64_t] *)
  aps_getExtValue : APSInt -> Z;
}.

(** The signed reading of a pattern and the number an [APSInt] stands for. *)
Definition ap_signed `{ApLib} (a : APInt) : Z := signed (getBitWidth a) (ap_bits a).
Definition aps_value `{ApLib} (s : APSInt) : Z :=
  if isUnsigned s then ap_bits (aps_int s) else ap_signed (aps_int s).

(** A pattern of width [w] that is the residue of [z]. *)
Definition ap_is `{ApLib} (a : APInt) (w z : Z) : Prop := getBitWidth a = w /\ ap_bits a = z mod 2 ^ w.

(** The documented behaviour.  Widths are positive 32-bit numbers; binary
    operations need operands of one width. *)
Class ApLaws (L : ApLib) : Prop := {
  ap_width_range a : 0 < getBitWidth a < 2 ^ 32;
  ap_bits_range a : 0 <= ap_bits a < 2 ^ getBitWidth a;
  ap_of_law w v : 0 < w < 2 ^ 32 -> is_u 64 v -> ap_is (ap_of w v) w v;
  ap_of_digits_law w ds :
    0 < w < 2 ^ 32 -> ds <> [] -> Forall (fun c => is_digit c = true) ds -> decimal ds < 2 ^ w ->
    ap_is (ap_of_digits w ds) w (decimal ds);
  getActiveBits_law a : getActiveBits a = bit_length (ap_bits a);
  getSignificantBits_law a : getSignificantBits a = signed_bits (ap_signed a);
  ap_isZero_law a : ap_isZero a = (ap_bits a =? 0);
  ap_isNegative_law a : ap_isNegative a = (ap_signed a <? 0);
  isPowerOf2_law a : isPowerOf2 a = true <-> exists k, 0 <= k /\ ap_bits a = 2 ^ k;
  zextOrTrunc_law a w : 0 < w < 2 ^ 32 -> ap_is (zextOrTrunc a w) w (ap_bits a);
  sextOrTrunc_law a w : 0 < w < 2 ^ 32 -> ap_is (sextOrTrunc a w) w (ap_signed a);
  ap_neg_law a : ap_is (ap_neg a) (getBitWidth a) (- ap_bits a);
  ap_not_law a : ap_is (ap_not a) (getBitWidth a) (Z.lnot (ap_bits a));
  ap_add_law a b : getBitWidth a = getBitWidth b -> ap_is (ap_add a b) (getBitWidth a) (ap_bits a + ap_bits b);
  ap_sub_law a b : getBitWidth a = getBitWidth b -> ap_is (ap_sub a b) (getBitWidth a) (ap_bits a - ap_bits b);
  ap_mul_law a b : getBitWidth a = getBitWidth b -> ap_is (ap_mul a b) (getBitWidth a) (ap_bits a * ap_bits b);
  ap_and_law a b : getBitWidth a = getBitWidth b -> ap_is (ap_and a b) (getBitWidth a) (Z.land (ap_bits a) (ap_bits b));
  ap_or_law a b : getBitWidth a = getBitWidth b -> ap_is (ap_or a b) (getBitWidth a) (Z.lor (ap_bits a) (ap_bits b));
  ap_xor_law a b : getBitWidth a = getBitWidth b -> ap_is (ap_xor a b) (getBitWidth a) (Z.lxor (ap_bits a) (ap_bits b));
  ap_eq_law a b : getBitWidth a = getBitWidth b -> ap_eq a b = (ap_bits a =? ap_bits b);
  ap_slt_law a b : getBitWidth a = getBitWidth b -> ap_slt a b = (ap_signed a <? ap_signed b);
  ap_ne_law a b : getBitWidth a = getBitWidth b -> ap_ne a b = negb (ap_bits a =? ap_bits b);
  ap_sle_law a b : getBitWidth a = getBitWidth b -> ap_sle a b = (ap_signed a <=? ap_signed b);
  ap_sgt_law a b : getBitWidth a = getBitWidth b -> ap_sgt a b = (ap_signed b <? ap_signed a);
  ap_sge_law a b : getBitWidth a = getBitWidth b -> ap_sge a b = (ap_signed b <=? ap_signed a);
  ap_ugt_law a b : getBitWidth a = getBitWidth b -> ap_ugt a b = (ap_bits b <? ap_bits a);
  ap_ashr_law a n : 0 <= n < getBitWidth a -> ap_is (ap_ashr a n) (getBitWidth a) (ap_signed a / 2 ^ n);
  ap_lshr_law a n : 0 <= n <= getBitWidth a -> ap_is (ap_lshr a n) (getBitWidth a) (ap_bits a / 2 ^ n);
  ap_shl_law a n : 0 <= n <= getBitWidth a -> ap_is (ap_shl a n) (getBitWidth a) (ap_bits a * 2 ^ n);
  ap_setBit_law a n : 0 <= n < getBitWidth a -> ap_is (ap_setBit a n) (getBitWidth a) (Z.lor (ap_bits a) (2 ^ n));
  ap_uge_law a b : getBitWidth a = getBitWidth b -> ap_uge a b = (ap_bits b <=? ap_bits a);
  ap_srem_law a b : getBitWidth a = getBitWidth b -> ap_bits b <> 0 ->
    ap_is (ap_srem a b) (getBitWidth a) (Z.rem (ap_signed a) (ap_signed b));
  sdivrem_law a b : getBitWidth a = getBitWidth b -> ap_bits b <> 0 ->
    ap_is (fst (sdivrem a b)) (getBitWidth a) (Z.quot (ap_signed a) (ap_signed b)) /\
    ap_is (snd (sdivrem a b)) (getBitWidth a) (Z.rem (ap_signed a) (ap_signed b));
  udivrem_law a b : getBitWidth a = getBitWidth b -> ap_bits b <> 0 ->
    ap_is (fst (udivrem a b)) (getBitWidth a) (ap_bits a / ap_bits b) /\
    ap_is (snd (udivrem a b)) (getBitWidth a) (ap_bits a mod ap_bits b);
  uadd_ov_law a b : getBitWidth a = getBitWidth b ->
    ap_is (fst (uadd_ov a b)) (getBitWidth a) (ap_bits a + ap_bits b) /\
    snd (uadd_ov a b) = (2 ^ getBitWidth a <=? ap_bits a + ap_bits b);
  aps_parts a u : aps_int (aps a u) = a /\ isUnsigned (aps a u) = u;
  aps_isNegative_law s : aps_isNegative s = (aps_value s <? 0);
  compareValues_law s t :
    compareValues s t = match Z.compare (aps_value s) (aps_value t) with Lt => -1 | Eq => 0 | Gt => 1 end;
  isSameValue_law s t : isSameValue s t = (aps_value s =? aps_value t);
  aps_get_law z : - 2 ^ 63 <= z < 2 ^ 63 -> aps_value (aps_get z) = z;
  aps_getUnsigned_law z : is_u 64 z -> aps_value (aps_getUnsigned z) = z;
  aps_of_string_law z : Z.of_nat (length (spell z)) <= 2 ^ 30 -> aps_value (aps_of_string (spell z)) = z;
  aps_toString_law s : aps_toString s = spell (aps_value s);
  aps_getExtValue_law s : - 2 ^ 63 <= aps_value s < 2 ^ 63 -> aps_getExtValue s = aps_value s;
}.

(** ** A library that satisfies the laws

    A pattern is a width and a number; a width out of range counts as one. *)
Module Reference.
Definition clamp (w : Z) : Z := if (0 <? w) && (w <? 2 ^ 32) then w else 1.
Definition pattern : Type := Z * Z.
Definition width (a : pattern) : Z := clamp (fst a).
Definition pbits (a : pattern) : Z := snd a mod 2 ^ width a.
Definition psigned (a : pattern) : Z := signed (width a) (pbits a).
Definition op1 (f : Z -> Z) (a : pattern) : pattern := (fst a, f (pbits a)).
Definition op2 (f : Z -> Z -> Z) (a b : pattern) : pattern := (fst a, f (pbits a) (pbits b)).
Definition sop2 (f : Z -> Z -> Z) (a b : pattern) : pattern := (fst a, f (psigned a) (psigned b)).
Definition number : Type := pattern * bool.
Definition nvalue (s : number) : Z := if snd s then pbits (fst s) else psigned (fst s).
Definition number_of (z : Z) : number := ((signed_bits z, z), false).
Definition read (s : list Z) : Z := match s with 45 :: ds => - decimal ds | ds => decimal ds end.
Definition power_of_two (v : Z) : bool := (0 <? v) && (v =? 2 ^ Z.log2 v).

#[export] Instance lib : ApLib := {|
  APInt := pattern; getBitWidth := width; ap_bits := pbits;
  ap_of w v := (w, v); ap_of_digits w ds := (w, decimal ds);
  getActiveBits a := bit_length (pbits a); getSignificantBits a := signed_bits (psigned a);
  ap_isZero a := pbits a =? 0; ap_isNegative a := psigned a <? 0; isPowerOf2 a := power_of_two (pbits a);
  zextOrTrunc a w := (w, pbits a); sextOrTrunc a w := (w, psigned a);
  ap_neg := op1 Z.opp; ap_not := op1 Z.lnot;
  ap_add := op2 Z.add; ap_sub := op2 Z.sub; ap_mul := op2 Z.mul;
  ap_and := op2 Z.land; ap_or := op2 Z.lor; ap_xor := op2 Z.lxor;
  ap_eq a b := pbits a =? pbits b; ap_ne a b := negb (pbits a =? pbits b);
  ap_slt a b := psigned a <? psigned b; ap_sle a b := psigned a <=? psigned b;
  ap_sgt a b := psigned b <? psigned a; ap_sge a b := psigned b <=? psigned a;
  ap_ugt a b := pbits b <? pbits a;
  ap_ashr a n := (fst a, psigned a / 2 ^ n); ap_lshr a n := (fst a, pbits a / 2 ^ n); ap_shl a n := (fst a, pbits a * 2 ^ n);
  ap_setBit a n := (fst a, Z.lor (pbits a) (2 ^ n));
  ap_uge a b := pbits b <=? pbits a; ap_srem := sop2 Z.rem;
  sdivrem a b := (sop2 Z.quot a b, sop2 Z.rem a b); udivrem a b := (op2 Z.div a b, op2 Z.modulo a b);
  uadd_ov a b := (op2 Z.add a b, 2 ^ width a <=? pbits a + pbits b);
  APSInt := number; aps a u := (a, u); aps_int := fst; isUnsigned := snd;
  aps_isNegative s := nvalue s <? 0;
  compareValues s t := match Z.compare (nvalue s) (nvalue t) with Lt => -1 | Eq => 0 | Gt => 1 end;
  isSameValue s t := nvalue s =? nvalue t;
  aps_get := number_of; aps_getUnsigned := number_of;
  aps_of_string s := number_of (read s); aps_toString s := spell (nvalue s); aps_getExtValue s := nvalue s;
|}.

Lemma clamp_range w : 0 < clamp w < 2 ^ 32.
Proof. unfold clamp. destruct (Z.ltb_spec 0 w), (Z.ltb_spec w (2 ^ 32)); cbn [andb]; lia. Qed.

Lemma clamp_id w : 0 < w < 2 ^ 32 -> clamp w = w.
Proof. intros H. unfold clamp. destruct (Z.ltb_spec 0 w), (Z.ltb_spec w (2 ^ 32)); cbn [andb]; lia. Qed.

Lemma nvalue_number z : signed_bits z < 2 ^ 32 -> nvalue (number_of z) = z.
Proof.
  intros Hz. pose proof (signed_bits_pos z) as Hp. unfold nvalue, number_of. cbn [fst snd].
  unfold psigned, pbits, width. cbn [fst snd]. rewrite clamp_id by lia.
  apply signed_mod; [lia|]. apply fits_signed_bits; lia.
Qed.

Lemma number_64 z : - 2 ^ 64 <= z < 2 ^ 64 -> signed_bits z < 2 ^ 32.
Proof.
  intros Hz. assert (signed_bits z <= 65); [|lia]. apply fits_signed_bits; [lia|]. unfold fits_signed. lia.
Qed.

Lemma read_spell z : read (spell z) = z.
Proof.
  unfold spell. destruct (Z.ltb_spec z 0); cbn [read].
  - destruct (spell_magnitude_spec (- z)) as [-> _]; lia.
  - destruct (spell_magnitude_spec z) as (Hd & Hf & d & more & E & _); [lia|]. unfold read. rewrite E in *.
    apply Forall_inv in Hf. unfold is_digit in Hf. rewrite <- Hd.
    repeat (match goal with |- context [match ?x with _ => _ end] => is_var x; destruct x end); try reflexivity; lia.
Qed.

Lemma pow10_bits n : 0 <= n -> 10 ^ n < 2 ^ (10 * (n / 3 + 1)).
Proof.
  intros Hn. pose proof (Z.div_pos n 3 ltac:(lia) ltac:(lia)). rewrite Z.pow_mul_r by lia.
  apply Z.le_lt_trans with ((10 ^ 3) ^ (n / 3 + 1)).
  - rewrite <- Z.pow_mul_r by lia. apply Z.pow_le_mono_r; [lia|]. pose proof (Z.div_mod n 3). pose proof (Z.mod_pos_bound n 3). lia.
  - apply Z.pow_lt_mono_l; lia.
Qed.

Lemma spell_bits z : Z.of_nat (length (spell z)) <= 2 ^ 30 -> signed_bits z < 2 ^ 32.
Proof.
  intros Hl. assert (Hm : Z.of_nat (length (spell_magnitude (Z.abs z))) <= 2 ^ 30).
  { unfold spell in Hl. destruct (Z.ltb_spec z 0); [rewrite Z.abs_neq by lia; cbn [length] in Hl; lia|].
    rewrite Z.abs_eq by lia. exact Hl. }
  destruct (spell_magnitude_spec (Z.abs z)) as (Hd & Hf & _); [lia|].
  pose proof (decimal_bound _ Hf) as [_ Hb]. rewrite Hd in Hb.
  set (n := Z.of_nat (length (spell_magnitude (Z.abs z)))) in *. pose proof (pow10_bits n ltac:(lia)) as H10.
  set (k := 10 * (n / 3 + 1)) in *. assert (Hk : 0 <= k < 2 ^ 32 - 1).
  { unfold k. pose proof (Z.div_pos n 3 ltac:(lia) ltac:(lia)). pose proof (Z.div_mod n 3). pose proof (Z.mod_pos_bound n 3). lia. }
  apply Z.le_lt_trans with (k + 1); [|lia]. apply fits_signed_bits; [lia|]. unfold fits_signed.
  rewrite Z.pow_add_r by lia. change (2 ^ 1) with 2. clearbody k n. lia.
Qed.

Lemma power_of_two_spec v : power_of_two v = true <-> exists k, 0 <= k /\ v = 2 ^ k.
Proof.
  unfold power_of_two. split.
  - intros H. exists (Z.log2 v). pose proof (Z.log2_nonneg v). lia.
  - intros (k & Hk & ->). rewrite Z.log2_pow2 by lia. pose proof (Z.pow_pos_nonneg 2 k). lia.
Qed.

#[export] Instance laws : ApLaws lib.
Proof.
  constructor; intros; cbn; unfold ap_is, ap_signed, op1, op2, sop2, pbits, width in *;
    cbn [getBitWidth ap_bits lib fst snd] in *; unfold pbits, width in *; cbn [fst snd] in *;
    rewrite ?(clamp_id w) by assumption; try solve [auto using Z.mod_mod, eq_sym].
  - apply clamp_range.
  - pose proof (clamp_range (fst a)). apply Z.mod_pos_bound. apply Z.pow_pos_nonneg; lia.
  - apply power_of_two_spec.
  - unfold aps_value. cbn [isUnsigned aps_int lib]. apply nvalue_number, number_64. lia.
  - unfold aps_value, is_u in *. cbn [isUnsigned aps_int lib]. apply nvalue_number, number_64. lia.
  - unfold aps_value. cbn [isUnsigned aps_int lib]. rewrite read_spell. apply nvalue_number, spell_bits. assumption.
Qed.
End Reference.
