(* ===== verification/ValueSemantics.v ===== *)
(** * Evaluation of source constants: [compiler/lib/Dialect/ACIR/SourceValueSemantics.cpp]

    The compiler evaluates mathematical integers and booleans of the source
    with arbitrary precision.  An integer attribute holds its canonical
    decimal spelling ([ACIRAttributes.td], [ACIRSourceContracts.cpp]); every
    operation computes in a pattern just wide enough for its result. *)

From Stdlib Require Import ZArith Lia String.
From stdpp Require Import base list numbers strings.
From S2P Require Import Prelude ModelInput ConfigSpec CompilerPrelude ApInt.

Open Scope string_scope.
Open Scope Z_scope.

(** ** Opcodes ([SourceValueSemantics.h]) *)

Inductive ValueOpcode :=
| Neg | Invert | Not | ToInt | Add | Sub | Mul | FloorDiv | Mod | AndBits | OrBits | XorBits
| Shl | Shr | Eq | Ne | Lt | Le | Gt | Ge | AndBool | OrBool.
#[export] Instance ValueOpcode_eq_dec : EqDecision ValueOpcode.
Proof. solve_decision. Defined.

Inductive ValueKind := KindBoolean | KindInteger.
#[export] Instance ValueKind_eq_dec : EqDecision ValueKind.
Proof. solve_decision. Defined.

Inductive ValueKindConstraint := OnlyBoolean | OnlyInteger | BooleanOrInteger.
#[export] Instance ValueKindConstraint_eq_dec : EqDecision ValueKindConstraint.
Proof. solve_decision. Defined.

Inductive ValueEvaluation := Strict | AndShortCircuit | OrShortCircuit.
#[export] Instance ValueEvaluation_eq_dec : EqDecision ValueEvaluation.
Proof. solve_decision. Defined.

Record ValueOpcodeInfo := mkInfo {
  arity : nat;
  info_operands : ValueKindConstraint * ValueKindConstraint;
  info_result : ValueKind;
  evaluation : ValueEvaluation;
  mayCheck : bool;
}.

(** The enumeration is closed, so the source's [std::nullopt] is not reached. *)
Definition opcodeInfo (opcode : ValueOpcode) : ValueOpcodeInfo :=
  match opcode with
  | Neg | Invert => mkInfo 1 (OnlyInteger, BooleanOrInteger) KindInteger Strict false
  | Not => mkInfo 1 (OnlyBoolean, BooleanOrInteger) KindBoolean Strict false
  | ToInt => mkInfo 1 (BooleanOrInteger, BooleanOrInteger) KindInteger Strict false
  | Add | Sub | Mul | AndBits | OrBits | XorBits =>
    mkInfo 2 (OnlyInteger, OnlyInteger) KindInteger Strict false
  | FloorDiv | Mod | Shl | Shr => mkInfo 2 (OnlyInteger, OnlyInteger) KindInteger Strict true
  | Eq | Ne | Lt | Le | Gt | Ge => mkInfo 2 (OnlyInteger, OnlyInteger) KindBoolean Strict false
  | AndBool => mkInfo 2 (OnlyBoolean, OnlyBoolean) KindBoolean AndShortCircuit false
  | OrBool => mkInfo 2 (OnlyBoolean, OnlyBoolean) KindBoolean OrShortCircuit false
  end.

Definition getValueOpcodeInfo (opcode : ValueOpcode) : ValueOpcodeInfo := opcodeInfo opcode.

Definition parseValueOpcode (spelling : string) : option ValueOpcode :=
  if decide (spelling = "neg") then Some Neg
  else if decide (spelling = "invert") then Some Invert
  else if decide (spelling = "not") then Some Not
  else if decide (spelling = "to_int") then Some ToInt
  else if decide (spelling = "add") then Some Add
  else if decide (spelling = "sub") then Some Sub
  else if decide (spelling = "mul") then Some Mul
  else if decide (spelling = "floordiv") then Some FloorDiv
  else if decide (spelling = "mod") then Some Mod
  else if decide (spelling = "and_bits") then Some AndBits
  else if decide (spelling = "or_bits") then Some OrBits
  else if decide (spelling = "xor_bits") then Some XorBits
  else if decide (spelling = "shl") then Some Shl
  else if decide (spelling = "shr") then Some Shr
  else if decide (spelling = "eq") then Some Eq
  else if decide (spelling = "ne") then Some Ne
  else if decide (spelling = "lt") then Some Lt
  else if decide (spelling = "le") then Some Le
  else if decide (spelling = "gt") then Some Gt
  else if decide (spelling = "ge") then Some Ge
  else if decide (spelling = "and_bool") then Some AndBool
  else if decide (spelling = "or_bool") then Some OrBool
  else None.

(** ** Attributes *)

(** [OtherAttr] is every other attribute, the null one included. *)
Inductive Attribute := BoolAttr (b : bool) | MathIntAttr (spelling : list Z) | OtherAttr.

Section Evaluate.
Context `{L : ApLib}.

(** [MathIntAttr::get(context, value)] *)
Definition mathIntAttr (value : APSInt) : Attribute := MathIntAttr (aps_toString value).

Definition u32_max : Z := 2 ^ 32 - 1.

(** [consume_front("-")]: whether the sign was there, and the rest. *)
Definition consume_minus (spelling : list Z) : bool * list Z :=
  match spelling with
  | c :: rest => if c =? 45 then (true, rest) else (false, spelling)
  | [] => (false, spelling)
  end.

Definition parseCanonicalMathInt (spelling : list Z) : FailureOr APSInt :=
  if bool_decide (spelling = []) then failure "mathematical integer must not be empty"
  else
    let '(negative, spelling) := consume_minus spelling in
    let size := Z.of_nat (length spelling) in
    if (size =? 0) || bool_decide (head spelling = Some 43)
    then failure "mathematical integer must use canonical signed decimal"
    else if (1 <? size) && bool_decide (head spelling = Some 48)
    then failure "mathematical integer must not have leading zeroes"
    else if negb (forallb is_digit spelling)
    then failure "mathematical integer must use canonical signed decimal"
    else if negative && bool_decide (spelling = [48])
    then failure "mathematical integer must not use negative zero"
    else if (u32_max - 1) / 4 <? size then failure "mathematical integer spelling is too large"
    else
      let bits := ap_of_digits (wrapu 32 (size * 4 + 1)) spelling in
      success (aps (if negative then ap_neg bits else bits) (negb negative)).

Definition parseMathIntAttr (spelling : list Z) : FailureOr Attribute :=
  let! value := parseCanonicalMathInt spelling in success (mathIntAttr value).

Definition decodeInteger (spelling : list Z) : FailureOr APSInt :=
  let! checked := parseMathIntAttr spelling in success (aps_of_string spelling).

(** ** Widths *)

Definition checkedWidth (width : Z) : FailureOr Z :=
  if (width =? 0) || (u32_max <? width)
  then failure "mathematical value precision exceeds compiler APInt capacity"
  else success width.

Definition signedWidth (value : APSInt) : Z :=
  if aps_isNegative value then getSignificantBits (aps_int value)
  else u64_add (getActiveBits (aps_int value)) 1.

Definition signedBits (value : APSInt) (width : Z) : APInt :=
  if isUnsigned value then zextOrTrunc (aps_int value) width else sextOrTrunc (aps_int value) width.

Definition integer (bits : APInt) : Attribute := mathIntAttr (aps bits false).

(** ** Operations *)

Definition shift (opcode : ValueOpcode) (value count : APSInt) : FailureOr Attribute :=
  if aps_isNegative count then failure "mathematical shift count must be nonnegative"
  else if ap_isZero (aps_int value) then success (mathIntAttr (aps_get 0))
  else
    let precision := signedWidth value in
    if bool_decide (opcode = Shr) then
      let limit := aps_getUnsigned precision in
      if 0 <=? compareValues count limit
      then success (mathIntAttr (aps_get (if aps_isNegative value then -1 else 0)))
      else
        let! width := checkedWidth precision in
        let amount := wrapu 32 (ap_bits (aps_int count)) in
        success (integer (ap_ashr (signedBits value width) amount))
    else
      let! baseWidth := checkedWidth precision in
      let available := u64_sub u32_max precision in
      if 0 <? compareValues count (aps_getUnsigned available)
      then failure "mathematical left shift result exceeds compiler APInt capacity"
      else
        let amount := ap_bits (aps_int count) in
        let! width := checkedWidth (u64_add precision amount) in
        success (integer (ap_shl (signedBits value width) (wrapu 32 amount))).

(** The precision computed before the operation. *)
Definition operation_precision (opcode : ValueOpcode) (lhs : APSInt) (rhs : option APSInt) : Z :=
  match rhs with
  | None => if bool_decide (opcode = Neg) then u64_add (signedWidth lhs) 1 else signedWidth lhs
  | Some rhs =>
    let precision := Z.max (signedWidth lhs) (signedWidth rhs) in
    match opcode with
    | Neg | Add | Sub | FloorDiv | Mod => u64_add precision 1
    | Mul => u64_add (signedWidth lhs) (signedWidth rhs)
    | _ => precision
    end
  end.

(** The quotient and remainder of [FloorDiv] and [Mod]. *)
Definition floor_divrem (width : Z) (a b : APInt) : APInt * APInt :=
  let '(quotient, remainder) := sdivrem a b in
  if negb (ap_isZero remainder) && negb (Bool.eqb (ap_isNegative a) (ap_isNegative b))
  then (ap_sub quotient (ap_of width 1), ap_add remainder b)
  else (quotient, remainder).

Definition binary_operation (opcode : ValueOpcode) (width : Z) (a b : APInt) : FailureOr Attribute :=
  match opcode with
  | Add => success (integer (ap_add a b))
  | Sub => success (integer (ap_sub a b))
  | Mul => success (integer (ap_mul a b))
  | AndBits => success (integer (ap_and a b))
  | OrBits => success (integer (ap_or a b))
  | XorBits => success (integer (ap_xor a b))
  | Eq => success (BoolAttr (ap_eq a b))
  | Ne => success (BoolAttr (ap_ne a b))
  | Lt => success (BoolAttr (ap_slt a b))
  | Le => success (BoolAttr (ap_sle a b))
  | Gt => success (BoolAttr (ap_sgt a b))
  | Ge => success (BoolAttr (ap_sge a b))
  | FloorDiv | Mod =>
    if ap_isZero b then failure "mathematical division/remainder divisor must be nonzero"
    else
      let '(quotient, remainder) := floor_divrem width a b in
      success (integer (if bool_decide (opcode = FloorDiv) then quotient else remainder))
  | _ => failure "invalid mathematical integer value opcode"
  end.

(** [values] has one or two elements. *)
Definition integerOperation (opcode : ValueOpcode) (lhs : APSInt) (rhs : option APSInt) : FailureOr Attribute :=
  match rhs with
  | Some count =>
    if bool_decide (opcode = Shl) || bool_decide (opcode = Shr) then shift opcode lhs count
    else
      let! width := checkedWidth (operation_precision opcode lhs rhs) in
      binary_operation opcode width (signedBits lhs width) (signedBits count width)
  | None =>
    let! width := checkedWidth (operation_precision opcode lhs rhs) in
    let a := signedBits lhs width in
    if bool_decide (opcode = Neg) then success (integer (ap_neg a)) else success (integer (ap_not a))
  end.

(** ** [evaluateValue] *)

Definition constraint_at (info : ValueOpcodeInfo) (index : nat) : ValueKindConstraint :=
  match index with 0%nat => fst (info_operands info) | _ => snd (info_operands info) end.

(** The loop that checks the operands and decodes the integers. *)
Fixpoint decode_operands (info : ValueOpcodeInfo) (index : nat) (operands : list Attribute)
  : FailureOr (list APSInt) :=
  match operands with
  | [] => success []
  | operand :: rest =>
    let constraint := constraint_at info index in
    match operand with
    | BoolAttr _ =>
      if bool_decide (constraint = OnlyInteger) then failure "value operand has incompatible bool/integer kind"
      else decode_operands info (S index) rest
    | MathIntAttr spelling =>
      if bool_decide (constraint = OnlyBoolean) then failure "value operand has incompatible bool/integer kind"
      else
        let! decoded := decodeInteger spelling in
        let! more := decode_operands info (S index) rest in
        success (decoded :: more)
    | OtherAttr => failure "value operand has incompatible bool/integer kind"
    end
  end.

Definition evaluateValue (opcode : ValueOpcode) (operands : list Attribute) : FailureOr Attribute :=
  let info := opcodeInfo opcode in
  if negb (Nat.eqb (length operands) (arity info)) then failure "value opcode requires its operands"
  else
    let! integers := decode_operands info 0 operands in
    match opcode, operands with
    | ToInt, BoolAttr b :: _ => success (mathIntAttr (aps_get (if b then 1 else 0)))
    | ToInt, operand :: _ => success operand
    | Not, BoolAttr b :: _ => success (BoolAttr (negb b))
    | AndBool, [BoolAttr lhs; BoolAttr rhs] => success (BoolAttr (lhs && rhs))
    | OrBool, [BoolAttr lhs; BoolAttr rhs] => success (BoolAttr (lhs || rhs))
    | _, _ =>
      match integers with
      | [lhs] => integerOperation opcode lhs None
      | [lhs; rhs] => integerOperation opcode lhs (Some rhs)
      | _ => failure "invalid mathematical integer value opcode"
      end
    end.
End Evaluate.
