(* ===== verification/ValueSemanticsSpec.v ===== *)
(** * Source constants are evaluated exactly

    The reference semantics is integer arithmetic with floor division, as the
    source language has it.  [evaluateValue] is sound and complete for it up
    to the capacity of the precision counters. *)

From Stdlib Require Import ZArith Lia String.
From stdpp Require Import base list numbers strings.
From S2P Require Import Prelude ModelInput ConfigSpec CompilerPrelude ApInt ValueSemantics.

(** ** Reference semantics *)

Inductive sval := VBool (b : bool) | VInt (z : Z).

Definition attr_of (v : sval) : Attribute :=
  match v with VBool b => BoolAttr b | VInt z => MathIntAttr (spell z) end.

Definition int_op (op : ValueOpcode) (a b : Z) : option sval :=
  match op with
  | Add => Some (VInt (a + b))
  | Sub => Some (VInt (a - b))
  | Mul => Some (VInt (a * b))
  | FloorDiv => if b =? 0 then None else Some (VInt (a / b))
  | Mod => if b =? 0 then None else Some (VInt (a mod b))
  | AndBits => Some (VInt (Z.land a b))
  | OrBits => Some (VInt (Z.lor a b))
  | XorBits => Some (VInt (Z.lxor a b))
  | Shl => if b <? 0 then None else Some (VInt (a * 2 ^ b))
  | Shr => if b <? 0 then None else Some (VInt (a / 2 ^ b))
  | Eq => Some (VBool (a =? b))
  | Ne => Some (VBool (negb (a =? b)))
  | Lt => Some (VBool (a <? b))
  | Le => Some (VBool (a <=? b))
  | Gt => Some (VBool (b <? a))
  | Ge => Some (VBool (b <=? a))
  | _ => None
  end.

Definition value_spec (op : ValueOpcode) (vs : list sval) : option sval :=
  match op, vs with
  | Neg, [VInt a] => Some (VInt (- a))
  | Invert, [VInt a] => Some (VInt (Z.lnot a))
  | Not, [VBool b] => Some (VBool (negb b))
  | ToInt, [VBool b] => Some (VInt (if b then 1 else 0))
  | ToInt, [VInt a] => Some (VInt a)
  | AndBool, [VBool a; VBool b] => Some (VBool (a && b))
  | OrBool, [VBool a; VBool b] => Some (VBool (a || b))
  | _, [VInt a; VInt b] => int_op op a b
  | _, _ => None
  end.

(** ** Spelling *)

Lemma print_decimal_unique ds : forall fuel,
  Forall (fun c => is_digit c = true) ds -> ds <> [] -> (head ds = Some 48 -> length ds = 1%nat) ->
  decimal ds < 10 ^ Z.of_nat fuel -> (0 < fuel)%nat -> print_decimal fuel (decimal ds) = ds.
Proof.
  induction ds as [|c ds IH] using rev_ind; intros fuel H Hne Hz Hlt Hf; [congruence|].
  apply Forall_app in H as [H1 H2]. apply Forall_inv in H2. unfold is_digit in H2. rewrite decimal_app in *.
  destruct fuel as [|fuel]; [lia|]. cbn [print_decimal]. destruct ds as [|d ds'].
  - cbn in *. unfold decimal in *. cbn [foldl] in *. destruct (Z.ltb_spec (10 * 0 + (c - 48)) 10); [|lia]. f_equal. lia.
  - set (ds := d :: ds') in *. assert (Hd : d <> 48).
    { intros ->. specialize (Hz eq_refl). rewrite length_app in Hz. cbn in Hz. lia. }
    pose proof (decimal_lower ds H1) as Hlow. cbn beta iota delta [ds] in Hlow. specialize (Hlow Hd). fold ds in Hlow.
    assert (1 <= decimal ds) by (pose proof (Z.pow_pos_nonneg 10 (Z.of_nat (length ds) - 1)); cbn [length ds] in *; lia).
    destruct (Z.ltb_spec (10 * decimal ds + (c - 48)) 10); [lia|].
    rewrite Nat2Z.inj_succ, Z.pow_succ_r in Hlt by lia.
    replace ((10 * decimal ds + (c - 48)) / 10) with (decimal ds) by (apply (Z.div_unique _ _ _ (c - 48)); lia).
    replace ((10 * decimal ds + (c - 48)) mod 10) with (c - 48) by (apply (Z.mod_unique _ _ (decimal ds)); lia).
    f_equal; [|f_equal; lia]. destruct fuel as [|fuel]; [change (10 ^ Z.of_nat 0) with 1 in Hlt; lia|].
    apply IH; [exact H1|discriminate| |lia|lia]. intros [= E]. congruence.
Qed.

(** A canonical digit run is the spelling of its value. *)
Lemma spell_magnitude_unique ds :
  Forall (fun c => is_digit c = true) ds -> ds <> [] -> (head ds = Some 48 -> length ds = 1%nat) ->
  spell_magnitude (decimal ds) = ds.
Proof.
  intros H Hne Hz. destruct (decimal_bound ds H) as [Hp _]. destruct (spell_fuel_enough _ Hp).
  apply print_decimal_unique; assumption.
Qed.

(** Thirty-one bits of precision spell in far fewer than [2^30] digits. *)
Definition small (z : Z) : Prop := bit_length (Z.abs z) <= 2 ^ 31 - 2.

Lemma digits_bound v B : 0 < v -> 0 <= B -> bit_length v <= B -> 3 * (Z.of_nat (length (spell_magnitude v)) - 1) < B.
Proof.
  intros Hv HB Hb. destruct (spell_magnitude_spec v) as (Hd & Hf & d & more & E & H1 & H2); [lia|].
  pose proof (decimal_lower _ Hf) as Hl. rewrite E in Hl. rewrite <- E, Hd in Hl. specialize (Hl (H1 ltac:(lia))).
  set (n := Z.of_nat (length (spell_magnitude v)) - 1) in *.
  assert (Hn : 0 <= n) by (unfold n; rewrite E; cbn [length]; lia).
  apply bit_length_le in Hb; [|lia|lia]. apply (Z.pow_lt_mono_r_iff 2); [lia|lia|].
  rewrite Z.pow_mul_r by lia. apply Z.le_lt_trans with (10 ^ n); [apply Z.pow_le_mono_l; lia|lia].
Qed.

Lemma small_digits z : small z -> Z.of_nat (length (spell_magnitude (Z.abs z))) <= 2 ^ 30 - 1.
Proof.
  intros Hb. unfold small in Hb. destruct (Z.eq_dec z 0) as [->|Hne]; [vm_compute; discriminate|].
  pose proof (digits_bound (Z.abs z) (2 ^ 31 - 2) ltac:(lia) ltac:(lia) Hb). lia.
Qed.

Section Exact.
Context `{L : ApLib} {HL : ApLaws L}.

(** ** Patterns that stand for an integer *)

Lemma ap_is_signed a w z : ap_is a w z -> fits_signed w z -> ap_signed a = z.
Proof.
  intros [Hw Hb] Hf. pose proof (ap_width_range a). unfold ap_signed. rewrite Hw, Hb in *. apply signed_mod; [lia|exact Hf].
Qed.

Lemma ap_is_self a : ap_is a (getBitWidth a) (ap_signed a).
Proof.
  split; [reflexivity|]. unfold ap_signed. rewrite mod_signed; [reflexivity|apply ap_width_range|apply ap_bits_range].
Qed.

Lemma ap_is_congr a w z z' : ap_is a w z -> z mod 2 ^ w = z' mod 2 ^ w -> ap_is a w z'.
Proof. intros [Hw Hb] E. split; congruence. Qed.

Lemma ap_is_unop (f : APInt -> APInt) (g : Z -> Z) a w z :
  (forall a, ap_is (f a) (getBitWidth a) (g (ap_bits a))) ->
  (g (z mod 2 ^ w) mod 2 ^ w = g z mod 2 ^ w) -> ap_is a w z -> ap_is (f a) w (g z).
Proof. intros Hf Hg [<- Hb]. eapply ap_is_congr; [apply Hf|]. rewrite Hb. exact Hg. Qed.

Lemma ap_is_binop (f : APInt -> APInt -> APInt) (g : Z -> Z -> Z) a b w x y :
  (forall a b, getBitWidth a = getBitWidth b -> ap_is (f a b) (getBitWidth a) (g (ap_bits a) (ap_bits b))) ->
  (g (x mod 2 ^ w) (y mod 2 ^ w) mod 2 ^ w = g x y mod 2 ^ w) ->
  ap_is a w x -> ap_is b w y -> ap_is (f a b) w (g x y).
Proof.
  intros Hf Hg [Ha Hx] [Hb Hy]. assert (Hw : getBitWidth a = getBitWidth b) by congruence.
  eapply ap_is_congr; [rewrite <- Ha; apply (Hf a b Hw)|]. rewrite Hx, Hy. exact Hg.
Qed.

Lemma ap_add_is a b w x y : ap_is a w x -> ap_is b w y -> ap_is (ap_add a b) w (x + y).
Proof. apply ap_is_binop; [exact ap_add_law|]. symmetry. apply Zplus_mod. Qed.
Lemma ap_sub_is a b w x y : ap_is a w x -> ap_is b w y -> ap_is (ap_sub a b) w (x - y).
Proof. apply ap_is_binop; [exact ap_sub_law|]. symmetry. apply Zminus_mod. Qed.
Lemma ap_mul_is a b w x y : ap_is a w x -> ap_is b w y -> ap_is (ap_mul a b) w (x * y).
Proof. apply ap_is_binop; [exact ap_mul_law|]. symmetry. apply Zmult_mod. Qed.

Lemma ap_bitwise_is f g a b w x y : 0 <= w ->
  (forall a b, getBitWidth a = getBitWidth b -> ap_is (f a b) (getBitWidth a) (g (ap_bits a) (ap_bits b))) ->
  (forall x y, g (x mod 2 ^ w) (y mod 2 ^ w) = g x y mod 2 ^ w) ->
  ap_is a w x -> ap_is b w y -> ap_is (f a b) w (g x y).
Proof. intros Hw Hf Hg. apply ap_is_binop; [exact Hf|]. rewrite Hg. apply Zmod_mod. Qed.

Lemma ap_neg_is a w x : ap_is a w x -> ap_is (ap_neg a) w (- x).
Proof.
  apply ap_is_unop; [exact ap_neg_law|]. rewrite <- (Z.sub_0_l x), <- (Z.sub_0_l (x mod _)), Zminus_mod, Zmod_mod.
  symmetry. apply Zminus_mod.
Qed.
Lemma ap_not_is a w x : ap_is a w x -> ap_is (ap_not a) w (Z.lnot x).
Proof.
  apply ap_is_unop; [exact ap_not_law|]. unfold Z.lnot. rewrite <- !Z.sub_1_r.
  replace (- x - 1) with (-1 - x) by lia. replace (- (x mod 2 ^ w) - 1) with (-1 - x mod 2 ^ w) by lia.
  rewrite Zminus_mod, Zmod_mod. symmetry. apply Zminus_mod.
Qed.
Lemma ap_shl_is a w x n : 0 <= n <= w -> ap_is a w x -> ap_is (ap_shl a n) w (x * 2 ^ n).
Proof.
  intros Hn Ha. assert (Hn' : 0 <= n <= getBitWidth a) by (destruct Ha; lia).
  eapply ap_is_congr; [destruct Ha as [<- _]; apply (ap_shl_law a n Hn')|]. destruct Ha as [_ ->].
  rewrite Zmult_mod, Zmod_mod. symmetry. apply Zmult_mod.
Qed.

(** Widening to a width that holds the value keeps it. *)
Lemma aps_value_nonneg s : 0 <= aps_value s -> aps_value s = ap_bits (aps_int s).
Proof.
  unfold aps_value, ap_signed, signed. pose proof (ap_bits_range (aps_int s)).
  destruct (isUnsigned s); [lia|]. destruct (_ <? _); lia.
Qed.

Lemma aps_value_neg s : aps_value s < 0 -> aps_value s = ap_signed (aps_int s).
Proof. unfold aps_value. pose proof (ap_bits_range (aps_int s)). destruct (isUnsigned s); lia. Qed.

Lemma active_bits_range a : 0 <= getActiveBits a < 2 ^ 32.
Proof.
  rewrite getActiveBits_law. split; [apply bit_length_nonneg|]. pose proof (ap_width_range a). pose proof (ap_bits_range a).
  assert (bit_length (ap_bits a) <= getBitWidth a); [|lia]. apply bit_length_le; lia.
Qed.

Lemma signedWidth_spec s : signedWidth s = signed_bits (aps_value s).
Proof.
  unfold signedWidth. rewrite aps_isNegative_law. destruct (Z.ltb_spec (aps_value s) 0) as [Hn|Hn].
  - rewrite getSignificantBits_law, aps_value_neg by exact Hn. reflexivity.
  - pose proof (active_bits_range (aps_int s)). unfold u64_add, u64, wrapu.
    rewrite Z.mod_small by lia. rewrite getActiveBits_law, <- aps_value_nonneg by exact Hn.
    unfold signed_bits. destruct (Z.ltb_spec (aps_value s) 0); [lia|reflexivity].
Qed.

Lemma signed_bits_u s : 1 <= signed_bits (aps_value s) <= 2 ^ 32.
Proof.
  split; [apply signed_bits_pos|]. pose proof (ap_width_range (aps_int s)). pose proof (ap_bits_range (aps_int s)).
  destruct (Z.ltb_spec (aps_value s) 0) as [Hn|Hn].
  - rewrite aps_value_neg by exact Hn. transitivity (getBitWidth (aps_int s)); [|lia].
    apply fits_signed_bits; [lia|]. apply signed_range; lia.
  - transitivity (getBitWidth (aps_int s) + 1); [|lia]. apply fits_signed_bits; [lia|].
    rewrite aps_value_nonneg by exact Hn. unfold fits_signed. rewrite Z.pow_add_r by lia. lia.
Qed.

Lemma signedBits_spec s w : 0 < w < 2 ^ 32 -> ap_is (signedBits s w) w (aps_value s).
Proof. intros Hw. unfold signedBits, aps_value. destruct (isUnsigned s); [apply zextOrTrunc_law|apply sextOrTrunc_law]; exact Hw. Qed.

Lemma mathIntAttr_spec s : mathIntAttr s = attr_of (VInt (aps_value s)).
Proof. unfold mathIntAttr. rewrite aps_toString_law. reflexivity. Qed.

Lemma integer_spec a w z : ap_is a w z -> fits_signed w z -> integer a = attr_of (VInt z).
Proof.
  intros Ha Hf. unfold integer. rewrite mathIntAttr_spec. unfold aps_value.
  destruct (aps_parts a false) as [-> ->]. rewrite (ap_is_signed _ _ _ Ha Hf). reflexivity.
Qed.

(** ** Decoding *)

Lemma forallb_digits ds : forallb is_digit ds = true <-> Forall (fun c => is_digit c = true) ds.
Proof. induction ds as [|c ds IH]; cbn; [split; constructor|]. rewrite andb_true_iff, Forall_cons, IH. reflexivity. Qed.

(** The spelling less its sign. *)
Definition magnitude_of (sp : list Z) : list Z := snd (consume_minus sp).

(** What the checks of [parseCanonicalMathInt] let through. *)
Definition canonical (sp : list Z) : Prop :=
  let ds := magnitude_of sp in
  Forall (fun c => is_digit c = true) ds /\ ds <> [] /\ (head ds = Some 48 -> length ds = 1%nat) /\
  (fst (consume_minus sp) = true -> ds <> [48]) /\ Z.of_nat (length ds) <= 2 ^ 30 - 1.

Lemma parse_canonical sp s : parseCanonicalMathInt sp = inr s -> canonical sp.
Proof.
  unfold parseCanonicalMathInt, canonical, magnitude_of. case_bool_decide; [discriminate|].
  destruct (consume_minus sp) as [negative ds]. cbn [fst snd].
  destruct (_ || _) eqn:E1; [discriminate|]. destruct (_ && bool_decide (head ds = Some 48)) eqn:E2; [discriminate|].
  destruct (forallb is_digit ds) eqn:E3; cbn [negb]; [|discriminate]. destruct (negative && _) eqn:E4; [discriminate|].
  destruct (Z.ltb_spec ((u32_max - 1) / 4) (Z.of_nat (length ds))) as [|Hl]; [discriminate|]. intros _.
  change ((u32_max - 1) / 4) with 1073741823 in Hl. apply orb_false_iff in E1 as [E1 _]. apply Z.eqb_neq in E1.
  split; [apply forallb_digits, E3|]. split; [intros ->; apply E1; reflexivity|]. split; [|split; [|lia]].
  - intros Hh. rewrite Hh in E2. rewrite bool_decide_eq_true_2, andb_true_r in E2 by reflexivity.
    apply Z.ltb_ge in E2. lia.
  - intros -> ->. rewrite bool_decide_eq_true_2 in E4 by reflexivity. discriminate.
Qed.

Lemma canonical_parse sp : canonical sp -> exists s, parseCanonicalMathInt sp = inr s.
Proof.
  unfold canonical, magnitude_of, parseCanonicalMathInt. intros (Hf & Hne & Hz & Hn & Hl).
  rewrite (bool_decide_eq_false_2 (sp = [])) by (intros ->; apply Hne; reflexivity).
  destruct (consume_minus sp) as [negative ds]. cbn [fst snd] in *. destruct ds as [|d ds]; [congruence|].
  assert (Hd : is_digit d = true) by (apply Forall_inv in Hf; exact Hf). unfold is_digit in Hd.
  destruct (Z.eqb_spec (Z.of_nat (length (d :: ds))) 0); [cbn in *; lia|]. cbn [orb head].
  rewrite (bool_decide_eq_false_2 (Some d = Some 43)) by (intros [= ->]; discriminate Hd).
  replace ((1 <? Z.of_nat (length (d :: ds))) && bool_decide (Some d = Some 48)) with false.
  2: { symmetry. apply andb_false_iff. case_bool_decide as E; [|auto]. left. apply Z.ltb_ge.
       rewrite (Hz E). lia. }
  apply forallb_digits in Hf. rewrite Hf. cbn [negb].
  replace (negative && bool_decide (d :: ds = [48])) with false.
  2: { symmetry. apply andb_false_iff. destruct negative; [right; apply bool_decide_eq_false_2; auto|auto]. }
  destruct (Z.ltb_spec ((u32_max - 1) / 4) (Z.of_nat (length (d :: ds)))) as [Hbig|_]; [|eauto].
  change ((u32_max - 1) / 4) with 1073741823 in Hbig. lia.
Qed.

(** The value a canonical spelling stands for. *)
Lemma canonical_spell sp : canonical sp -> exists z, sp = spell z /\ Z.of_nat (length (spell z)) <= 2 ^ 30.
Proof.
  unfold canonical, magnitude_of. intros (Hf & Hne & Hz & Hn & Hl). pose proof (decimal_bound _ Hf) as [Hp _].
  pose proof (spell_magnitude_unique _ Hf Hne Hz) as Hu. destruct sp as [|c sp]; [cbn in Hne; congruence|].
  cbn [consume_minus] in *. destruct (Z.eqb_spec c 45) as [->|Hc]; cbn [fst snd] in *.
  - exists (- decimal sp). assert (decimal sp <> 0).
    { intros E. rewrite E in Hu. apply (Hn eq_refl). rewrite <- Hu. reflexivity. }
    assert (E : spell (- decimal sp) = 45 :: sp).
    { unfold spell. destruct (Z.ltb_spec (- decimal sp) 0); [|lia]. rewrite Z.opp_involutive, Hu. reflexivity. }
    rewrite E. split; [reflexivity|]. cbn [length]. lia.
  - exists (decimal (c :: sp)). assert (E : spell (decimal (c :: sp)) = c :: sp).
    { unfold spell. destruct (Z.ltb_spec (decimal (c :: sp)) 0); [lia|exact Hu]. }
    rewrite E. split; [reflexivity|]. lia.
Qed.

Lemma consume_minus_spell z : consume_minus (spell z) = (z <? 0, spell_magnitude (Z.abs z)).
Proof.
  unfold spell. destruct (Z.ltb_spec z 0); [rewrite Z.abs_neq by lia; reflexivity|]. rewrite Z.abs_eq by lia.
  destruct (spell_magnitude_spec z) as (_ & Hf & d & more & E & _); [lia|]. rewrite E in *.
  apply Forall_inv in Hf. unfold is_digit in Hf. cbn [consume_minus]. destruct (Z.eqb_spec d 45); [lia|reflexivity].
Qed.

(** The parser reads the integer that is spelled. *)
Lemma parse_value sp s : parseCanonicalMathInt sp = inr s -> sp = spell (aps_value s).
Proof.
  intros H. pose proof (parse_canonical _ _ H) as Hc. destruct (canonical_spell _ Hc) as (z & Ez & _). rewrite Ez. f_equal.
  destruct Hc as (Hf & Hne & _ & _ & Hl). pose proof (decimal_bound _ Hf) as [Hp Hb]. unfold magnitude_of in *. revert H. unfold parseCanonicalMathInt.
  case_bool_decide; [discriminate|]. destruct (consume_minus sp) as [negative ds] eqn:Em. cbn [fst snd] in *.
  destruct (_ || _); [discriminate|]. destruct (_ && _); [discriminate|]. destruct (negb _); [discriminate|]. destruct (negative && _); [discriminate|]. destruct (_ <? _); [discriminate|].
  intros [= <-]. set (n := Z.of_nat (length ds)) in *. assert (Hn : 0 <= n) by (unfold n; lia).
  assert (Hw : wrapu 32 (n * 4 + 1) = n * 4 + 1) by (unfold wrapu; apply Z.mod_small; lia). rewrite Hw.
  assert (Hpow : decimal ds < 2 ^ (n * 4)).
  { eapply Z.lt_le_trans; [exact Hb|]. rewrite Z.mul_comm, Z.pow_mul_r by lia. change (2 ^ 4) with 16. apply Z.pow_le_mono_l. lia. }
  assert (Hpow' : 2 ^ (n * 4 + 1) = 2 * 2 ^ (n * 4)) by (rewrite Z.pow_add_r by lia; lia).
  destruct (ap_of_digits_law (n * 4 + 1) ds ltac:(lia) Hne Hf ltac:(lia)) as [Ew Eb]. rewrite Z.mod_small in Eb by lia.
  assert (Ev : z = if negative then - decimal ds else decimal ds).
  { rewrite Ez, consume_minus_spell in Em. injection Em as <- <-. destruct (spell_magnitude_spec (Z.abs z)) as (-> & _); [lia|]. destruct (Z.ltb_spec z 0); lia. }
  rewrite Ev. unfold aps_value. destruct negative; cbn [negb].
  - destruct (aps_parts (ap_neg (ap_of_digits (n * 4 + 1) ds)) false) as [-> ->]. unfold ap_signed. destruct (ap_neg_law (ap_of_digits (n * 4 + 1) ds)) as [-> ->].
    rewrite Ew, Eb. symmetry. apply signed_mod; [lia|]. unfold fits_signed. lia.
  - destruct (aps_parts (ap_of_digits (n * 4 + 1) ds) true) as [-> ->]. rewrite Eb. reflexivity.
Qed.

Lemma spell_canonical z : small z -> canonical (spell z).
Proof.
  intros Hz. pose proof (small_digits z Hz) as Hl. unfold canonical, magnitude_of. rewrite consume_minus_spell.
  cbn [fst snd]. destruct (spell_magnitude_spec (Z.abs z)) as (Hd & Hf & d & more & E & H1 & H2); [lia|].
  split; [exact Hf|]. rewrite E in *. split; [discriminate|]. split; [|split; [|exact Hl]].
  - intros [= ->]. destruct H2 as [->|H2]; [reflexivity|]. exfalso. apply H1; [exact H2|reflexivity].
  - intros Hneg [= -> ->]. apply H1; [lia|reflexivity].
Qed.

Lemma decodeInteger_sound sp s : decodeInteger sp = inr s -> sp = spell (aps_value s).
Proof.
  unfold decodeInteger, parseMathIntAttr. intros H. apply fbind_inr in H as (x & H & E).
  apply fbind_inr in H as (y & H & _). apply parse_canonical, canonical_spell in H as (z & -> & Hl).
  injection E as <-. rewrite aps_of_string_law by exact Hl. reflexivity.
Qed.

Lemma decodeInteger_spell z : small z -> exists s, decodeInteger (spell z) = inr s /\ aps_value s = z.
Proof.
  intros Hz. pose proof (spell_canonical z Hz) as Hc. destruct (canonical_parse _ Hc) as (p & Ep).
  unfold decodeInteger, parseMathIntAttr. rewrite Ep. cbn [fbind success]. eexists. split; [reflexivity|].
  apply aps_of_string_law. destruct Hc as (_ & _ & _ & _ & Hl). unfold magnitude_of in Hl.
  rewrite consume_minus_spell in Hl. cbn [snd] in Hl. unfold spell. destruct (Z.ltb_spec z 0).
  - rewrite Z.abs_neq in Hl by lia. cbn [length]. lia.
  - rewrite Z.abs_eq in Hl by lia. lia.
Qed.

Lemma spell_inj a b : spell a = spell b -> a = b.
Proof.
  intros E. assert (Hs : consume_minus (spell a) = consume_minus (spell b)) by congruence.
  rewrite !consume_minus_spell in Hs. injection Hs as H1 H2.
  destruct (spell_magnitude_spec (Z.abs a)) as [Ha _]; [lia|]. destruct (spell_magnitude_spec (Z.abs b)) as [Hb _]; [lia|].
  rewrite H2, Hb in Ha. lia.
Qed.

(** ** Operations *)

Lemma ap_is_zero a w z : ap_is a w z -> fits_signed w z -> ap_isZero a = (z =? 0).
Proof.
  intros Ha Hf. pose proof (ap_is_signed _ _ _ Ha Hf) as Hs. destruct Ha as [Hw Hb]. rewrite ap_isZero_law, Hb.
  pose proof (ap_width_range a). unfold fits_signed in Hf. destruct (Z.eqb_spec z 0) as [->|Hne]; [reflexivity|].
  apply Z.eqb_neq. intros E. apply Hne. unfold ap_signed, signed in Hs. rewrite Hb, E in Hs.
  pose proof (Z.pow_pos_nonneg 2 (getBitWidth a)). destruct (Z.ltb_spec (2 * 0) (2 ^ getBitWidth a)); lia.
Qed.

Lemma ap_is_eq a b w x y : ap_is a w x -> ap_is b w y -> fits_signed w x -> fits_signed w y ->
  (ap_bits a =? ap_bits b) = (x =? y).
Proof.
  intros Ha Hb Hx Hy. pose proof (ap_is_signed _ _ _ Ha Hx) as Ea. pose proof (ap_is_signed _ _ _ Hb Hy) as Eb.
  destruct Ha as [Hwa Hba], Hb as [Hwb Hbb]. destruct (Z.eqb_spec x y) as [->|Hne].
  - apply Z.eqb_eq. congruence.
  - apply Z.eqb_neq. intros E. apply Hne. rewrite <- Ea, <- Eb. unfold ap_signed. congruence.
Qed.

Lemma floor_unique x y q r : 0 <= r < y \/ y < r <= 0 -> x = y * q + r -> x / y = q /\ x mod y = r.
Proof. intros Hr E. split; symmetry; [apply (Z.div_unique _ _ _ r)|apply (Z.mod_unique _ _ q)]; assumption. Qed.

Lemma quot_floor x y : y <> 0 ->
  let q := Z.quot x y in let r := Z.rem x y in
  if negb (r =? 0) && negb (Bool.eqb (x <? 0) (y <? 0)) then x / y = q - 1 /\ x mod y = r + y
  else x / y = q /\ x mod y = r.
Proof.
  intros Hy q r. pose proof (Z.quot_rem' x y) as Hqr. fold q r in Hqr.
  pose proof (Z.rem_bound_abs x y Hy) as Hab. fold r in Hab.
  assert (Hs : r = 0 \/ (x < 0 /\ r < 0) \/ (0 <= x /\ 0 < r)).
  { destruct (Z.ltb_spec x 0).
    - pose proof (Z.rem_nonpos x y Hy ltac:(lia)). fold r in H0. lia.
    - pose proof (Z.rem_nonneg x y Hy ltac:(lia)). fold r in H0. lia. }
  destruct (Z.eqb_spec r 0), (Z.ltb_spec x 0), (Z.ltb_spec y 0); cbn [negb andb Bool.eqb]; apply floor_unique; lia.
Qed.

Lemma floor_size x y : y <> 0 -> Z.abs (x / y) <= Z.abs x /\ Z.abs (x mod y) <= Z.abs y.
Proof.
  intros Hy. pose proof (Z.div_mod x y Hy). split.
  - destruct (Z.ltb_spec 0 y).
    + pose proof (Z.mod_pos_bound x y ltac:(lia)). nia.
    + pose proof (Z.mod_neg_bound x y ltac:(lia)). nia.
  - destruct (Z.ltb_spec 0 y).
    + pose proof (Z.mod_pos_bound x y ltac:(lia)). lia.
    + pose proof (Z.mod_neg_bound x y ltac:(lia)). lia.
Qed.

Lemma floor_divrem_spec w a b x y : 0 < w < 2 ^ 32 -> ap_is a w x -> ap_is b w y -> y <> 0 ->
  fits_signed (w - 1) x -> fits_signed (w - 1) y ->
  ap_is (fst (floor_divrem w a b)) w (x / y) /\ ap_is (snd (floor_divrem w a b)) w (x mod y).
Proof.
  intros Hw Ha Hb Hy Hfx Hfy. pose proof (fits_signed_mono (w - 1) w x ltac:(lia) Hfx) as Hx.
  pose proof (fits_signed_mono (w - 1) w y ltac:(lia) Hfy) as Hy'.
  pose proof (ap_is_signed _ _ _ Ha Hx) as Ea. pose proof (ap_is_signed _ _ _ Hb Hy') as Eb.
  assert (Hwd : getBitWidth a = getBitWidth b) by (destruct Ha, Hb; congruence).
  assert (Hnz : ap_bits b <> 0) by (pose proof (ap_is_zero _ _ _ Hb Hy') as E; rewrite ap_isZero_law in E; lia).
  destruct (sdivrem_law a b Hwd Hnz) as [Hq Hr]. rewrite Ea, Eb in Hq, Hr. destruct Ha as [Hwa _]. rewrite Hwa in Hq, Hr.
  unfold floor_divrem. destruct (sdivrem a b) as [q r]. cbn [fst snd] in Hq, Hr.
  assert (Hfr : fits_signed w (Z.rem x y)).
  { unfold fits_signed in *. pose proof (Z.rem_bound_abs x y Hy).
    assert (2 ^ w = 2 * 2 ^ (w - 1)) by (rewrite <- Z.pow_succ_r by lia; f_equal; lia). lia. }
  rewrite (ap_is_zero _ _ _ Hr Hfr), !ap_isNegative_law, Ea, Eb.
  pose proof (quot_floor x y Hy) as Hfl. cbv zeta in Hfl.
  destruct (negb (Z.rem x y =? 0) && _); destruct Hfl as [-> ->]; cbn [fst snd]; [|auto].
  split; [apply ap_sub_is; [exact Hq|apply ap_of_law; [lia|unfold is_u; lia]]|apply ap_add_is; assumption].
Qed.

(** The width each operation needs. *)
Definition needs (op : ValueOpcode) (x y : Z) : Z :=
  match op with
  | Add | Sub | FloorDiv | Mod => Z.max (signed_bits x) (signed_bits y) + 1
  | Mul => signed_bits x + signed_bits y
  | _ => Z.max (signed_bits x) (signed_bits y)
  end.

Definition is_binary (op : ValueOpcode) : Prop :=
  match op with
  | Add | Sub | Mul | FloorDiv | Mod | AndBits | OrBits | XorBits | Eq | Ne | Lt | Le | Gt | Ge => True
  | _ => False
  end.

(** A result that is sound, and complete under [cap]. *)
Definition answers (cap : Prop) (r : FailureOr Attribute) (v : option sval) : Prop :=
  match r with inr a => exists v', v = Some v' /\ a = attr_of v' | inl _ => cap -> v = None end.

Lemma answers_int cap a w z : ap_is a w z -> fits_signed w z -> answers cap (success (integer a)) (Some (VInt z)).
Proof. intros Ha Hf. exists (VInt z). split; [reflexivity|]. apply (integer_spec a w z Ha Hf). Qed.

Lemma answers_bool cap b b' : b = b' -> answers cap (success (BoolAttr b)) (Some (VBool b')).
Proof. intros ->. exists (VBool b'). auto. Qed.

Lemma mul_fits p q x y : 1 <= p -> 1 <= q -> fits_signed p x -> fits_signed q y -> fits_signed (p + q) (x * y).
Proof.
  unfold fits_signed. intros Hp Hq Hx Hy. rewrite Z.pow_add_r by lia.
  pose proof (Z.pow_pos_nonneg 2 p). pose proof (Z.pow_pos_nonneg 2 q).
  assert (Z.abs (2 * x) <= 2 ^ p) by lia. assert (Z.abs (2 * y) <= 2 ^ q) by lia.
  assert (Z.abs (2 * x) * Z.abs (2 * y) <= 2 ^ p * 2 ^ q) by (apply Z.mul_le_mono_nonneg; lia).
  rewrite <- Z.abs_mul in *. nia.
Qed.

Lemma binary_operation_spec cap op w a b x y : is_binary op -> 0 < w < 2 ^ 32 -> needs op x y <= w ->
  ap_is a w x -> ap_is b w y -> answers cap (binary_operation op w a b) (int_op op x y).
Proof.
  intros Hop Hw Hn Ha Hb. pose proof (signed_bits_pos x) as Hpx. pose proof (signed_bits_pos y) as Hpy.
  assert (Hfx : fits_signed w x) by (apply fits_signed_bits; [lia|destruct op; cbn [needs] in Hn; lia]).
  assert (Hfy : fits_signed w y) by (apply fits_signed_bits; [lia|destruct op; cbn [needs] in Hn; lia]).
  assert (Hwd : getBitWidth a = getBitWidth b) by (destruct Ha, Hb; congruence).
  pose proof (ap_is_signed _ _ _ Ha Hfx) as Ea. pose proof (ap_is_signed _ _ _ Hb Hfy) as Eb.
  assert (Hhalf : forall z, Z.max (signed_bits x) (signed_bits y) + 1 <= w -> signed_bits z <= w - 1 ->
                  fits_signed (w - 1) z) by (intros z H1 H2; apply fits_signed_bits; lia).
  assert (Hpow : 2 ^ w = 2 * 2 ^ (w - 1)) by (rewrite <- Z.pow_succ_r by lia; f_equal; lia).
  destruct op; cbn [is_binary needs binary_operation int_op] in *; try contradiction.
  - apply (answers_int _ _ w); [apply ap_add_is; assumption|].
    pose proof (Hhalf x Hn ltac:(lia)). pose proof (Hhalf y Hn ltac:(lia)). unfold fits_signed in *. lia.
  - apply (answers_int _ _ w); [apply ap_sub_is; assumption|].
    pose proof (Hhalf x Hn ltac:(lia)). pose proof (Hhalf y Hn ltac:(lia)). unfold fits_signed in *. lia.
  - apply (answers_int _ _ w); [apply ap_mul_is; assumption|].
    apply (fits_signed_mono (signed_bits x + signed_bits y)); [lia|]. apply mul_fits; [lia|lia| |]; apply fits_signed_bits; lia.
  - rewrite (ap_is_zero _ _ _ Hb Hfy). destruct (Z.eqb_spec y 0) as [->|Hy]; [intros _; reflexivity|].
    destruct (floor_divrem_spec w a b x y Hw Ha Hb Hy (Hhalf x Hn ltac:(lia)) (Hhalf y Hn ltac:(lia))) as [Hq _].
    destruct (floor_divrem w a b) as [q r]. cbn [fst] in Hq. rewrite bool_decide_eq_true_2 by reflexivity.
    apply (answers_int _ _ w); [exact Hq|]. pose proof (floor_size x y Hy). pose proof (Hhalf x Hn ltac:(lia)).
    unfold fits_signed in *. lia.
  - rewrite (ap_is_zero _ _ _ Hb Hfy). destruct (Z.eqb_spec y 0) as [->|Hy]; [intros _; reflexivity|].
    destruct (floor_divrem_spec w a b x y Hw Ha Hb Hy (Hhalf x Hn ltac:(lia)) (Hhalf y Hn ltac:(lia))) as [_ Hr].
    destruct (floor_divrem w a b) as [q r]. cbn [snd] in Hr. rewrite bool_decide_eq_false_2 by discriminate.
    apply (answers_int _ _ w); [exact Hr|]. pose proof (floor_size x y Hy). pose proof (Hhalf y Hn ltac:(lia)).
    unfold fits_signed in *. lia.
  - apply (answers_int _ _ w); [|apply fits_signed_land; [lia|assumption..]].
    apply ap_bitwise_is; [lia|exact ap_and_law|intros; apply land_mod_pow2; lia|assumption..].
  - apply (answers_int _ _ w); [|apply fits_signed_lor; [lia|assumption..]].
    apply ap_bitwise_is; [lia|exact ap_or_law|intros; apply lor_mod_pow2; lia|assumption..].
  - apply (answers_int _ _ w); [|apply fits_signed_lxor; [lia|assumption..]].
    apply ap_bitwise_is; [lia|exact ap_xor_law|intros; apply lxor_mod_pow2; lia|assumption..].
  - apply answers_bool. rewrite ap_eq_law by exact Hwd. apply (ap_is_eq _ _ w); assumption.
  - apply answers_bool. rewrite ap_ne_law by exact Hwd. f_equal. apply (ap_is_eq _ _ w); assumption.
  - apply answers_bool. rewrite ap_slt_law, Ea, Eb by exact Hwd. reflexivity.
  - apply answers_bool. rewrite ap_sle_law, Ea, Eb by exact Hwd. reflexivity.
  - apply answers_bool. rewrite ap_sgt_law, Ea, Eb by exact Hwd. reflexivity.
  - apply answers_bool. rewrite ap_sge_law, Ea, Eb by exact Hwd. reflexivity.
Qed.

Lemma checkedWidth_ok w : 1 <= w <= 2 ^ 32 - 1 -> checkedWidth w = inr w.
Proof.
  intros Hw. unfold checkedWidth, u32_max. destruct (Z.eqb_spec w 0), (Z.ltb_spec (2 ^ 32 - 1) w); try lia; reflexivity.
Qed.

Lemma checkedWidth_cases w : 1 <= w -> (w <= 2 ^ 32 - 1 /\ checkedWidth w = inr w) \/
  (2 ^ 32 - 1 < w /\ exists e, checkedWidth w = inl e).
Proof.
  intros Hw. destruct (Z.leb_spec w (2 ^ 32 - 1)); [left; split; [lia|apply checkedWidth_ok; lia]|right].
  split; [lia|]. unfold checkedWidth, u32_max. destruct (Z.eqb_spec w 0), (Z.ltb_spec (2 ^ 32 - 1) w); try lia. eexists. reflexivity.
Qed.

(** ** Shifts *)

Lemma signed_bits_small z : small z -> signed_bits z <= 2 ^ 31 - 1.
Proof. unfold small. pose proof (signed_bits_abs z). lia. Qed.

Lemma compareValues_spec s t :
  (0 <=? compareValues s t) = (aps_value t <=? aps_value s) /\ (0 <? compareValues s t) = (aps_value t <? aps_value s) /\
  (compareValues s t <? 0) = (aps_value s <? aps_value t).
Proof.
  rewrite compareValues_law. destruct (Z.compare_spec (aps_value s) (aps_value t)) as [E|E|E];
    destruct (Z.leb_spec (aps_value t) (aps_value s)), (Z.ltb_spec (aps_value t) (aps_value s)),
      (Z.ltb_spec (aps_value s) (aps_value t)); try lia; auto.
Qed.

Lemma div_pow_fits w x c : 0 < w -> 0 <= c -> fits_signed w x -> fits_signed w (x / 2 ^ c).
Proof.
  intros Hw Hc. unfold fits_signed. intros Hf. pose proof (Z.pow_pos_nonneg 2 c ltac:(lia) Hc).
  pose proof (floor_size x (2 ^ c) ltac:(lia)). pose proof (Z.div_mod x (2 ^ c)). pose proof (Z.mod_pos_bound x (2 ^ c)). nia.
Qed.

Lemma overshift x w c : fits_signed w x -> 0 < w <= c -> x / 2 ^ c = if x <? 0 then -1 else 0.
Proof.
  unfold fits_signed. intros Hf Hc. pose proof (Z.pow_le_mono_r 2 w c). pose proof (Z.pow_pos_nonneg 2 w).
  destruct (Z.ltb_spec x 0); [symmetry; apply (Z.div_unique _ _ _ (x + 2 ^ c)); lia|apply Z.div_small; lia].
Qed.

Lemma shift_left_fits w x c : 0 < w -> 0 <= c -> fits_signed w x -> fits_signed (w + c) (x * 2 ^ c).
Proof.
  intros Hw Hc. unfold fits_signed. rewrite Z.pow_add_r by lia. pose proof (Z.pow_pos_nonneg 2 c). intros Hf. nia.
Qed.

Definition shift_capacity (op : ValueOpcode) (x c : Z) : Prop :=
  signed_bits x <= 2 ^ 32 - 1 /\ (op = Shl -> signed_bits x + c <= 2 ^ 32 - 1).

Lemma small_count s n : 0 <= aps_value s < n -> n <= 2 ^ 32 ->
  ap_bits (aps_int s) = aps_value s /\ wrapu 32 (ap_bits (aps_int s)) = aps_value s.
Proof. intros H Hn. rewrite <- aps_value_nonneg by lia. unfold wrapu. rewrite Z.mod_small by lia. auto. Qed.

Lemma getUnsigned_width x : aps_value (aps_getUnsigned (signed_bits (aps_value x))) = signed_bits (aps_value x).
Proof. pose proof (signed_bits_u x). apply aps_getUnsigned_law. unfold is_u. lia. Qed.

Lemma shift_right_spec value count : 0 <= aps_value count ->
  answers (shift_capacity Shr (aps_value value) (aps_value count))
    (if 0 <=? compareValues count (aps_getUnsigned (signed_bits (aps_value value)))
     then success (mathIntAttr (aps_get (if aps_isNegative value then -1 else 0)))
     else
       let! width := checkedWidth (signed_bits (aps_value value)) in
       success (integer (ap_ashr (signedBits value width) (wrapu 32 (ap_bits (aps_int count))))))
    (Some (VInt (aps_value value / 2 ^ aps_value count))).
Proof.
  intros Hc. pose proof (signed_bits_u value) as Hp.
  assert (Hfx : fits_signed (signed_bits (aps_value value)) (aps_value value)) by (apply fits_signed_bits; lia).
  destruct (compareValues_spec count (aps_getUnsigned (signed_bits (aps_value value)))) as [-> _]. rewrite getUnsigned_width.
  destruct (Z.leb_spec (signed_bits (aps_value value)) (aps_value count)) as [Hov|Hin].
  { eexists. split; [reflexivity|]. rewrite (overshift _ _ _ Hfx) by lia. rewrite mathIntAttr_spec, aps_isNegative_law.
    destruct (_ <? 0); rewrite aps_get_law by lia; reflexivity. }
  destruct (checkedWidth_cases (signed_bits (aps_value value)) ltac:(lia)) as [[Hle ->]|[Hbig [e ->]]];
    cbn [fbind]; [|intros [Hcap _]; lia].
  destruct (small_count count (signed_bits (aps_value value))) as [_ ->]; [lia|lia|].
  pose proof (signedBits_spec value (signed_bits (aps_value value)) ltac:(lia)) as Hb.
  pose proof (ap_is_signed _ _ _ Hb Hfx) as Es. destruct Hb as [Hw _].
  apply (answers_int _ _ (signed_bits (aps_value value))); [|apply div_pow_fits; [lia|lia|exact Hfx]].
  rewrite <- Es at 3. rewrite <- Hw at 2. apply ap_ashr_law. lia.
Qed.

Lemma shift_left_spec value count : 0 <= aps_value count ->
  answers (shift_capacity Shl (aps_value value) (aps_value count))
    (let! baseWidth := checkedWidth (signed_bits (aps_value value)) in
     if 0 <? compareValues count (aps_getUnsigned (u64_sub u32_max (signed_bits (aps_value value))))
     then failure "mathematical left shift result exceeds compiler APInt capacity"
     else
       let! width := checkedWidth (u64_add (signed_bits (aps_value value)) (ap_bits (aps_int count))) in
       success (integer (ap_shl (signedBits value width) (wrapu 32 (ap_bits (aps_int count))))))
    (Some (VInt (aps_value value * 2 ^ aps_value count))).
Proof.
  intros Hc. pose proof (signed_bits_u value) as Hp.
  assert (Hfx : fits_signed (signed_bits (aps_value value)) (aps_value value)) by (apply fits_signed_bits; lia).
  destruct (checkedWidth_cases (signed_bits (aps_value value)) ltac:(lia)) as [[Hle ->]|[Hbig [e ->]]];
    cbn [fbind]; [|intros [Hcap _]; lia].
  destruct (compareValues_spec count (aps_getUnsigned (u64_sub u32_max (signed_bits (aps_value value))))) as (_ & -> & _).
  assert (Hsub : u64_sub u32_max (signed_bits (aps_value value)) = 2 ^ 32 - 1 - signed_bits (aps_value value))
    by (unfold u64_sub, u64, wrapu, u32_max; apply Z.mod_small; lia).
  rewrite Hsub, aps_getUnsigned_law by (unfold is_u; lia).
  destruct (Z.ltb_spec (2 ^ 32 - 1 - signed_bits (aps_value value)) (aps_value count)) as [Hov|Hin].
  { intros [_ Hcap]. specialize (Hcap eq_refl). lia. }
  destruct (small_count count (2 ^ 32)) as [Hcb ->]; [lia|lia|]. rewrite Hcb.
  assert (Hadd : u64_add (signed_bits (aps_value value)) (aps_value count) = signed_bits (aps_value value) + aps_value count)
    by (unfold u64_add, u64, wrapu; apply Z.mod_small; lia).
  rewrite Hadd, checkedWidth_ok by lia. cbn [fbind].
  apply (answers_int _ _ (signed_bits (aps_value value) + aps_value count)).
  - apply ap_shl_is; [lia|]. apply signedBits_spec. lia.
  - apply shift_left_fits; [lia|lia|exact Hfx].
Qed.

Lemma aps_isZero_value s : ap_isZero (aps_int s) = (aps_value s =? 0).
Proof.
  rewrite ap_isZero_law. pose proof (ap_bits_range (aps_int s)). destruct (Z.ltb_spec (aps_value s) 0) as [Hn|Hn].
  - pose proof (aps_value_neg s Hn) as E. unfold ap_signed, signed in E. destruct (Z.ltb_spec (2 * ap_bits (aps_int s)) (2 ^ getBitWidth (aps_int s))); lia.
  - rewrite aps_value_nonneg by exact Hn. reflexivity.
Qed.

Lemma shift_spec op value count : op = Shl \/ op = Shr ->
  answers (shift_capacity op (aps_value value) (aps_value count)) (shift op value count)
    (int_op op (aps_value value) (aps_value count)).
Proof.
  intros Hop. unfold shift. rewrite aps_isNegative_law, signedWidth_spec, aps_isZero_value.
  destruct (Z.ltb_spec (aps_value count) 0) as [Hc|Hc].
  { intros _. destruct Hop as [-> | ->]; cbn [int_op]; apply Z.ltb_lt in Hc; rewrite Hc; reflexivity. }
  assert (Hn : (aps_value count <? 0) = false) by (apply Z.ltb_ge; lia).
  destruct (Z.eqb_spec (aps_value value) 0) as [Hx|Hx].
  { exists (VInt 0). split; [|rewrite mathIntAttr_spec, aps_get_law by lia; reflexivity].
    destruct Hop as [-> | ->]; cbn [int_op]; rewrite Hn, Hx; [reflexivity|]. rewrite Z.div_0_l; [reflexivity|].
    apply Z.pow_nonzero; lia. }
  destruct Hop as [-> | ->]; cbn [int_op]; rewrite Hn.
  - rewrite bool_decide_eq_false_2 by discriminate. apply shift_left_spec, Hc.
  - rewrite bool_decide_eq_true_2 by reflexivity. apply shift_right_spec, Hc.
Qed.

(** ** The evaluator *)

Lemma precision_spec op s t : is_binary op ->
  operation_precision op s (Some t) = needs op (aps_value s) (aps_value t).
Proof.
  intros Hop. unfold operation_precision. rewrite !signedWidth_spec.
  pose proof (signed_bits_u s). pose proof (signed_bits_u t).
  destruct op; cbn [is_binary needs] in *; try contradiction; unfold u64_add, u64, wrapu;
    rewrite ?Z.mod_small by lia; reflexivity.
Qed.

Lemma needs_pos op x y : 1 <= needs op x y.
Proof. pose proof (signed_bits_pos x). pose proof (signed_bits_pos y). destruct op; cbn [needs]; lia. Qed.

Lemma integer_binary_spec op s t : is_binary op ->
  answers (needs op (aps_value s) (aps_value t) <= 2 ^ 32 - 1) (integerOperation op s (Some t))
    (int_op op (aps_value s) (aps_value t)).
Proof.
  intros Hop. unfold integerOperation. rewrite (precision_spec op s t Hop).
  replace (bool_decide (op = Shl) || bool_decide (op = Shr)) with false
    by (destruct op; cbn [is_binary] in Hop; try contradiction; reflexivity).
  pose proof (needs_pos op (aps_value s) (aps_value t)).
  destruct (checkedWidth_cases (needs op (aps_value s) (aps_value t)) ltac:(lia)) as [[Hle ->]|[Hbig [e ->]]];
    cbn [fbind]; [|intros Hcap; lia].
  apply binary_operation_spec; [exact Hop|lia|lia|apply signedBits_spec; lia|apply signedBits_spec; lia].
Qed.

Lemma integer_unary_spec op s : op = Neg \/ op = Invert ->
  answers (signed_bits (aps_value s) + 1 <= 2 ^ 32 - 1) (integerOperation op s None)
    (Some (VInt (if bool_decide (op = Neg) then - aps_value s else Z.lnot (aps_value s)))).
Proof.
  intros Hop. pose proof (signed_bits_u s) as Hp. unfold integerOperation, operation_precision.
  rewrite signedWidth_spec. replace (u64_add (signed_bits (aps_value s)) 1) with (signed_bits (aps_value s) + 1)
    by (unfold u64_add, u64, wrapu; rewrite Z.mod_small; lia).
  set (p := if bool_decide (op = Neg) then signed_bits (aps_value s) + 1 else signed_bits (aps_value s)).
  assert (Hps : signed_bits (aps_value s) <= p <= signed_bits (aps_value s) + 1) by (unfold p; destruct (bool_decide _); lia).
  destruct (checkedWidth_cases p ltac:(lia)) as [[Hle ->]|[Hbig [e ->]]]; cbn [fbind]; [|intros Hcap; lia].
  pose proof (signedBits_spec s p ltac:(lia)) as Hb.
  assert (Hfx : fits_signed (signed_bits (aps_value s)) (aps_value s)) by (apply fits_signed_bits; lia).
  case_bool_decide as Hn; unfold p in *.
  - apply (answers_int _ _ (signed_bits (aps_value s) + 1)); [apply ap_neg_is, Hb|].
    unfold fits_signed in *. rewrite Z.pow_add_r by lia. lia.
  - apply (answers_int _ _ (signed_bits (aps_value s))); [apply ap_not_is, Hb|].
    pose proof (Z.add_lnot_diag (aps_value s)). unfold fits_signed in *.
    replace (signed_bits (aps_value s)) with (Z.succ (signed_bits (aps_value s) - 1)) in * by lia.
    rewrite Z.pow_succ_r in * by lia. lia.
Qed.

(** Operands within half the capacity, so that no precision counter runs
    over; a left shift is by at most [2^31]. *)
Definition within_capacity (op : ValueOpcode) (vs : list sval) : Prop :=
  Forall (fun v => match v with VInt z => small z | VBool _ => True end) vs /\
  (op = Shl -> match vs with [_; VInt c] => c <= 2 ^ 31 | _ => True end).

Definition typed (constraint : ValueKindConstraint) (v : sval) : Prop :=
  match v with VBool _ => constraint <> OnlyInteger | VInt _ => constraint <> OnlyBoolean end.

Definition int_of (v : sval) : list Z := match v with VInt z => [z] | VBool _ => [] end.

Lemma decode_sound info n attrs l : decode_operands info n attrs = inr l ->
  exists vs, attrs = attr_of <$> vs /\ aps_value <$> l = vs ≫= int_of /\
    forall i v, vs !! i = Some v -> typed (constraint_at info (n + i)) v.
Proof.
  revert n l. induction attrs as [|a attrs IH]; intros n l; cbn [decode_operands].
  { intros [= <-]. exists []. split; [reflexivity|]. split; [reflexivity|]. intros i v. rewrite lookup_nil. discriminate. }
  assert (Hshift : forall vs (v0 : sval), typed (constraint_at info n) v0 ->
            (forall i v, vs !! i = Some v -> typed (constraint_at info (S n + i)) v) ->
            forall i v, (v0 :: vs) !! i = Some v -> typed (constraint_at info (n + i)) v).
  { intros vs v0 H0 Hr [|i] v; cbn [lookup list_lookup]; [intros [= <-]; rewrite Nat.add_0_r; exact H0|].
    intros E. rewrite Nat.add_succ_r. apply (Hr i v E). }
  destruct a as [b|sp|]; [| |discriminate].
  - case_bool_decide as Hk; [discriminate|]. intros H. destruct (IH (S n) l H) as (vs & -> & El & Ht).
    exists (VBool b :: vs). split; [reflexivity|]. split; [exact El|]. apply Hshift; [exact Hk|exact Ht].
  - case_bool_decide as Hk; [discriminate|]. intros H. apply fbind_inr in H as (s & Es & H).
    apply fbind_inr in H as (more & Em & [= <-]). destruct (IH (S n) more Em) as (vs & -> & El & Ht).
    exists (VInt (aps_value s) :: vs). split; [cbn; rewrite (decodeInteger_sound sp s Es); reflexivity|].
    split; [cbn; rewrite El; reflexivity|]. apply Hshift; [exact Hk|exact Ht].
Qed.

Lemma decode_complete info n vs :
  Forall (fun v => match v with VInt z => small z | VBool _ => True end) vs ->
  (forall i v, vs !! i = Some v -> typed (constraint_at info (n + i)) v) ->
  exists l, decode_operands info n (attr_of <$> vs) = inr l /\ aps_value <$> l = vs ≫= int_of.
Proof.
  revert n. induction vs as [|v vs IH]; intros n Hs Ht; [exists []; auto|].
  apply Forall_cons in Hs as [Hv Hs]. destruct (IH (S n) Hs) as (l & El & Ev).
  { intros i w Hw. replace (S n + i)%nat with (n + S i)%nat by lia. apply Ht. exact Hw. }
  pose proof (Ht 0%nat v eq_refl) as H0. rewrite Nat.add_0_r in H0.
  destruct v as [b|z]; cbn [fmap list_fmap attr_of decode_operands typed] in *.
  - rewrite bool_decide_eq_false_2 by exact H0. eauto.
  - rewrite bool_decide_eq_false_2 by exact H0. destruct (decodeInteger_spell z Hv) as (s & -> & <-). cbn [fbind].
    rewrite El. cbn [fbind]. exists (s :: l). split; [reflexivity|]. cbn. rewrite Ev. reflexivity.
Qed.

(** What [evaluateValue] does once its operands are decoded. *)
Definition evaluate_decoded (op : ValueOpcode) (vs : list sval) (l : list APSInt) : FailureOr Attribute :=
  match op, attr_of <$> vs with
  | ToInt, BoolAttr b :: _ => success (mathIntAttr (aps_get (if b then 1 else 0)))
  | ToInt, operand :: _ => success operand
  | Not, BoolAttr b :: _ => success (BoolAttr (negb b))
  | AndBool, [BoolAttr lhs; BoolAttr rhs] => success (BoolAttr (lhs && rhs))
  | OrBool, [BoolAttr lhs; BoolAttr rhs] => success (BoolAttr (lhs || rhs))
  | _, _ =>
    match l with
    | [lhs] => integerOperation op lhs None
    | [lhs; rhs] => integerOperation op lhs (Some rhs)
    | _ => failure "invalid mathematical integer value opcode"
    end
  end.

Lemma small_needs op x y : small x -> small y -> needs op x y <= 2 ^ 32 - 1.
Proof.
  intros Hx Hy. apply signed_bits_small in Hx, Hy. destruct op; cbn [needs]; lia.
Qed.

Lemma answers_weaken (c c' : Prop) r v : (c' -> c) -> answers c r v -> answers c' r v.
Proof. intros H. destruct r; cbn; auto. Qed.

(** The operand shapes an opcode admits. *)
Definition shaped (op : ValueOpcode) (vs : list sval) : Prop :=
  length vs = arity (opcodeInfo op) /\ forall i v, vs !! i = Some v -> typed (constraint_at (opcodeInfo op) i) v.

Lemma evaluate_decoded_spec op vs l : shaped op vs -> aps_value <$> l = vs ≫= int_of ->
  answers (within_capacity op vs) (evaluate_decoded op vs l) (value_spec op vs).
Proof.
  intros [Hlen Ht] El. assert (H0 := Ht 0%nat). assert (H1 := Ht 1%nat). clear Ht.
  assert (Hbin : forall a b, vs = [VInt a; VInt b] -> is_binary op \/ op = Shl \/ op = Shr ->
    exists s t, l = [s; t] /\
      answers (within_capacity op vs) (integerOperation op s (Some t)) (int_op op a b)).
  { intros a b -> Hop. destruct l as [|s [|t [|u l]]]; try discriminate El. injection El as <- <-. exists s, t. split; [reflexivity|].
    destruct Hop as [Hop|Hop].
    - eapply answers_weaken; [|apply integer_binary_spec, Hop]. intros [Hs _]. rewrite !Forall_cons in Hs.
      apply small_needs; apply Hs.
    - unfold integerOperation. replace (bool_decide (op = Shl) || bool_decide (op = Shr)) with true
        by (destruct Hop as [-> | ->]; reflexivity).
      eapply answers_weaken; [|apply shift_spec, Hop]. intros [Hs Hc]. rewrite !Forall_cons in Hs. destruct Hs as (Hs & _).
      apply signed_bits_small in Hs. split; [lia|]. intros E. specialize (Hc E). lia. }
  destruct vs as [|v [|w [|x vs]]]; [destruct op; discriminate Hlen| | |destruct op; discriminate Hlen].
  - specialize (H0 v eq_refl). destruct op; try discriminate Hlen; destruct v as [b|z]; try (exfalso; apply H0; reflexivity).
    + destruct l as [|s [|t l]]; try discriminate El. injection El as <-. cbn [evaluate_decoded value_spec fmap list_fmap attr_of].
      eapply answers_weaken; [|apply (integer_unary_spec Neg); auto]. intros [Hs _]. apply Forall_inv in Hs.
      apply signed_bits_small in Hs. lia.
    + destruct l as [|s [|t l]]; try discriminate El. injection El as <-. cbn [evaluate_decoded value_spec fmap list_fmap attr_of].
      eapply answers_weaken; [|apply (integer_unary_spec Invert); auto]. intros [Hs _]. apply Forall_inv in Hs.
      apply signed_bits_small in Hs. lia.
    + eexists. split; reflexivity.
    + eexists. split; [reflexivity|]. cbn. rewrite mathIntAttr_spec. destruct b; rewrite aps_get_law by lia; reflexivity.
    + eexists. split; reflexivity.
  - specialize (H0 v eq_refl). specialize (H1 w eq_refl).
    destruct op; try discriminate Hlen; destruct v as [a|a]; try (exfalso; apply H0; reflexivity);
      destruct w as [b|b]; try (exfalso; apply H1; reflexivity);
      try (eexists; split; reflexivity);
      (destruct (Hbin a b eq_refl) as (s & t & -> & Ha); [cbn [is_binary]; auto|exact Ha]).
Qed.

Lemma value_spec_shaped op vs v : value_spec op vs = Some v -> shaped op vs.
Proof.
  assert (Hty : forall info a b, typed (constraint_at info 0) a -> typed (constraint_at info 1) b ->
    forall i w, [a; b] !! i = Some w -> typed (constraint_at info i) w).
  { intros info a b Ha Hb [|[|i]] w; cbn; [intros [= <-]; exact Ha|intros [= <-]; exact Hb|discriminate]. }
  assert (Hty1 : forall info a, typed (constraint_at info 0) a ->
    forall i w, [a] !! i = Some w -> typed (constraint_at info i) w).
  { intros info a Ha [|i] w; cbn; [intros [= <-]; exact Ha|discriminate]. }
  intros E. destruct op, vs as [|[a|a] [|[b|b] [|x vs]]]; try discriminate E;
    (split; [reflexivity|]); (apply Hty || apply Hty1); cbn; discriminate.
Qed.

Lemma evaluateValue_shape op attrs r : evaluateValue op attrs = inr r ->
  exists vs l, attrs = attr_of <$> vs /\ shaped op vs /\ aps_value <$> l = vs ≫= int_of /\ evaluate_decoded op vs l = inr r.
Proof.
  unfold evaluateValue. destruct (Nat.eqb_spec (length attrs) (arity (opcodeInfo op))) as [Hlen|]; cbn [negb]; [|discriminate].
  intros H. apply fbind_inr in H as (l & Ed & Er). destruct (decode_sound _ _ _ _ Ed) as (vs & -> & El & Ht).
  exists vs, l. split; [reflexivity|]. split; [split; [rewrite <- Hlen, length_fmap; reflexivity|exact Ht]|].
  split; [exact El|exact Er].
Qed.

Lemma evaluateValue_decoded op vs :
  shaped op vs -> Forall (fun v => match v with VInt z => small z | VBool _ => True end) vs ->
  exists l, aps_value <$> l = vs ≫= int_of /\ evaluateValue op (attr_of <$> vs) = evaluate_decoded op vs l.
Proof.
  intros [Hlen Ht] Hs. destruct (decode_complete (opcodeInfo op) 0 vs Hs Ht) as (l & El & Ev). exists l. split; [exact Ev|].
  unfold evaluateValue. rewrite length_fmap, Hlen, Nat.eqb_refl. cbn [negb]. rewrite El. reflexivity.
Qed.
Lemma evaluateValue_sound op attrs r : evaluateValue op attrs = inr r ->
  exists vs v, attrs = attr_of <$> vs /\ value_spec op vs = Some v /\ r = attr_of v.
Proof.
  intros H. destruct (evaluateValue_shape op attrs r H) as (vs & l & -> & Hsh & El & Er).
  pose proof (evaluate_decoded_spec op vs l Hsh El) as Ha. rewrite Er in Ha. destruct Ha as (v & Ev & ->). eauto.
Qed.

Lemma evaluateValue_complete op vs v : value_spec op vs = Some v -> within_capacity op vs ->
  evaluateValue op (attr_of <$> vs) = inr (attr_of v).
Proof.
  intros Ev Hcap. pose proof (value_spec_shaped op vs v Ev) as Hsh.
  destruct (evaluateValue_decoded op vs Hsh (proj1 Hcap)) as (l & El & ->).
  pose proof (evaluate_decoded_spec op vs l Hsh El) as Ha. destruct (evaluate_decoded op vs l) as [e|r].
  - specialize (Ha Hcap). congruence.
  - destruct Ha as (v' & Ev' & ->). congruence.
Qed.
End Exact.

(** C11: source constants are evaluated exactly.  Whatever attributes
    [evaluateValue] accepts are canonical spellings of integers or booleans of
    the kinds the opcode admits, and its answer is the spelling of the exact
    result, with floor division and unbounded shifts; conversely every
    defined operation on operands within the precision capacity is answered.
    Zero divisors, negative shift counts, wrong kinds and other attributes are
    errors. *)
Theorem evaluateValue_exact `{L : ApLib} {HL : ApLaws L} op attrs :
  (forall r, evaluateValue op attrs = inr r ->
     exists vs v, attrs = attr_of <$> vs /\ value_spec op vs = Some v /\ r = attr_of v) /\
  (forall vs v, attrs = attr_of <$> vs -> value_spec op vs = Some v -> within_capacity op vs ->
     evaluateValue op attrs = inr (attr_of v)).
Proof.
  split; [apply evaluateValue_sound|]. intros vs v -> Ev Hcap. apply evaluateValue_complete; assumption.
Qed.

Module ValueWitness.
(** [-7 floordiv 2], evaluated by the reference library. *)
Lemma evaluateValue_exact_witness :
  evaluateValue (L := Reference.lib) FloorDiv (attr_of <$> [VInt (-7); VInt 2]) = inr (attr_of (VInt (-4))).
Proof.
  apply (proj2 (evaluateValue_exact (HL := Reference.laws) FloorDiv _) [VInt (-7); VInt 2]); [reflexivity|reflexivity|].
  split; [|discriminate]. repeat constructor; vm_compute; discriminate.
Defined.
End ValueWitness.
