(* ===== verification/HardwareTypes.v ===== *)
(** * Static expressions and hardware types of the IR

    The attributes and types of the [acir] dialect that carry widths:
    [StaticExprAttr] (its tree's [kind] is the constructor), [BitsType],
    [StructType], [EnumType], [TableType] and [TypeParamType], with the
    comparison of types without source provenance and the substitution of
    bound parameters ([HardwareAnalysis.cpp]). *)

From Stdlib Require Import ZArith Lia String.
From stdpp Require Import base list numbers strings gmap.
From S2P Require Import Prelude ModelInput ConfigSpec CompilerPrelude ApInt ValueSemantics.

Open Scope string_scope.
Open Scope Z_scope.

(** The origin and location dictionaries of a node, by identity. *)
Definition Provenance := positive.

(** [Literal] holds the attribute of the tree's value; [Unresolved] is a tree
    of a kind the evaluator does not know. *)
Inductive StaticExpr :=
| Reference (at_ : Provenance) (owner name : string)
| Literal (at_ : Provenance) (value : Attribute)
| TypeWidth (at_ : Provenance) (type : HwType)
| Select (at_ : Provenance) (condition yes no : StaticExpr)
| Unary (at_ : Provenance) (operator : string) (operand : StaticExpr)
| Binary (at_ : Provenance) (operator : string) (lhs rhs : StaticExpr)
| Unresolved (at_ : Provenance) (kind : string)
with HwType :=
| BitsType (width : StaticExpr)
| StructType (name : string)
| EnumType (name : string)
| TableType (shape : list StaticExpr) (element : HwType)
| TypeParamType (owner name : string)
| OtherType (id : positive).

#[export] Instance Attribute_eq_dec : EqDecision Attribute.
Proof. solve_decision. Defined.

Fixpoint StaticExpr_dec (a b : StaticExpr) {struct a} : {a = b} + {a <> b}
with HwType_dec (a b : HwType) {struct a} : {a = b} + {a <> b}.
Proof.
  - decide equality; (apply String.string_dec || apply Pos.eq_dec || apply Attribute_eq_dec).
  - decide equality; (apply String.string_dec || apply Pos.eq_dec || apply (List.list_eq_dec StaticExpr_dec)).
Defined.
#[export] Instance StaticExpr_eq_dec : EqDecision StaticExpr := StaticExpr_dec.
#[export] Instance HwType_eq_dec : EqDecision HwType := HwType_dec.

(** [semantic]: the tree without [origin] and [location].  A type inside is an
    opaque attribute. *)
Fixpoint semantic (e : StaticExpr) : StaticExpr :=
  match e with
  | Reference _ owner name => Reference 1%positive owner name
  | Literal _ value => Literal 1%positive value
  | TypeWidth _ type => TypeWidth 1%positive type
  | Select _ c y n => Select 1%positive (semantic c) (semantic y) (semantic n)
  | Unary _ op x => Unary 1%positive op (semantic x)
  | Binary _ op l r => Binary 1%positive op (semantic l) (semantic r)
  | Unresolved _ kind => Unresolved 1%positive kind
  end.

Fixpoint areEquivalentHardwareTypes (lhs rhs : HwType) : bool :=
  bool_decide (lhs = rhs) ||
  match lhs, rhs with
  | TableType ls le, TableType rs re =>
    bool_decide (semantic <$> ls = semantic <$> rs) && areEquivalentHardwareTypes le re
  | BitsType l, BitsType r => bool_decide (semantic l = semantic r)
  | _, _ => false
  end.

(** The grammar fixes the operand count of an operator
    ([ACIRStaticContracts.cpp]). *)
Definition isUnary (op : string) : bool :=
  match parseValueOpcode op with Some opcode => Nat.eqb (arity (getValueOpcodeInfo opcode)) 1 | None => false end.
Definition isBinary (op : string) : bool :=
  match parseValueOpcode op with Some opcode => Nat.eqb (arity (getValueOpcodeInfo opcode)) 2 | None => false end.

(** ** Bindings *)

Inductive Bound := BoundExpr (e : StaticExpr) | BoundValue (value : Attribute).

(** [owner] is the definition's symbol name; symbol names are unique. *)
Record HardwareBindings := mkBindings {
  b_owner : option string;
  b_integers : gmap string Bound;
  b_types : gmap string HwType;
}.

Definition no_bindings : HardwareBindings := mkBindings None ∅ ∅.

Definition bound_integer (b : HardwareBindings) (owner name : string) : option Bound :=
  if decide (b_owner b = Some owner) then b_integers b !! name else None.

Fixpoint substitute (b : HardwareBindings) (e : StaticExpr) : StaticExpr :=
  match e with
  | Reference at_ owner name =>
    match bound_integer b owner name with
    | Some (BoundExpr v) => v
    | Some (BoundValue value) => Literal at_ value
    | None => e
    end
  | Literal _ _ | TypeWidth _ _ | Unresolved _ _ => e
  | Select at_ c y n => Select at_ (substitute b c) (substitute b y) (substitute b n)
  | Unary at_ op x => Unary at_ op (substitute b x)
  | Binary at_ op l r => Binary at_ op (substitute b l) (substitute b r)
  end.

(** Number of nodes. *)
Fixpoint expr_size (e : StaticExpr) : nat :=
  match e with
  | Select _ c y n => S (expr_size c + expr_size y + expr_size n)
  | Unary _ _ x => S (expr_size x)
  | Binary _ _ l r => S (expr_size l + expr_size r)
  | _ => 1
  end.

Lemma areEquivalent_refl t : areEquivalentHardwareTypes t t = true.
Proof. destruct t; cbn; rewrite bool_decide_eq_true_2 by reflexivity; reflexivity. Qed.

Lemma areEquivalent_spec t u : areEquivalentHardwareTypes t u = true ->
  match t, u with
  | BitsType l, BitsType r => semantic l = semantic r
  | TableType ls le, TableType rs re => semantic <$> ls = semantic <$> rs /\ areEquivalentHardwareTypes le re = true
  | _, _ => t = u
  end.
Proof.
  destruct t, u; cbn; rewrite ?orb_false_r, ?orb_true_iff, ?andb_true_iff, ?bool_decide_eq_true; try tauto; try (intuition congruence).
  intros [[= -> ->]|[H1 H2]]; [split; [reflexivity|apply areEquivalent_refl]|auto].
Qed.

#[export] Instance areEquivalent_equivalence : Equivalence (fun t u => areEquivalentHardwareTypes t u = true).
Proof.
  split.
  - exact areEquivalent_refl.
  - intros t. induction t; intros u H; apply areEquivalent_spec in H; destruct u; try discriminate H;
      try (rewrite H; apply areEquivalent_refl); cbn; rewrite orb_true_iff; right.
    + apply bool_decide_eq_true. congruence.
    + destruct H as [H1 H2]. apply andb_true_iff. split; [apply bool_decide_eq_true; congruence|]. apply IHt, H2.
  - intros t. induction t; intros u v H1 H2; apply areEquivalent_spec in H1, H2; destruct u; try discriminate H1;
      destruct v; try discriminate H2; try (rewrite H1, <- H2; apply areEquivalent_refl); cbn; rewrite orb_true_iff; right.
    + apply bool_decide_eq_true. congruence.
    + destruct H1 as [H1 H1'], H2 as [H2 H2']. apply andb_true_iff. split; [apply bool_decide_eq_true; congruence|]. eapply IHt; eassumption.
Qed.
