(* ===== verification/HardwareAnalysis.v ===== *)
(** * Static evaluation and packed layout: [compiler/lib/Dialect/ACIR/HardwareAnalysis.cpp]

    The analysis evaluates static expressions, resolves types under the
    bindings of an occurrence and lays packed types out.  The functions call
    one another; [fuel] bounds the depth of their calls and [None] is a depth
    that was not enough.  [stack] is the member [activeStatic], which every
    function leaves as it found it.  The cache of layouts is not modelled: it
    holds what the same call would compute again. *)

From Stdlib Require Import ZArith Lia String Ascii.
From stdpp Require Import base list numbers strings gmap.
From S2P Require Import Prelude ModelInput ConfigSpec CompilerPrelude ApInt ValueSemantics HardwareTypes.

Open Scope string_scope.
Open Scope Z_scope.

(** A call that may not have had the depth it needs. *)
Definition Run (A : Type) : Type := option (FailureOr A).
Definition rbind {A B} (m : Run A) (k : A -> Run B) : Run B :=
  match m with None => None | Some (inl e) => Some (inl e) | Some (inr a) => k a end.
Notation "'let?' x := m 'in' k" := (rbind m (fun x => k))
  (at level 10, x name, m at level 200, k at level 200) : gfsim_scope.
Definition rfail {A} (message : string) : Run A := Some (inl message).
Definition rdone {A} (a : A) : Run A := Some (inr a).

(** Loops over a list that stop at the first failure. *)
Fixpoint rmap {A B} (f : A -> Run B) (l : list A) : Run (list B) :=
  match l with
  | [] => rdone []
  | a :: rest => let? x := f a in let? more := rmap f rest in rdone (x :: more)
  end.
Fixpoint rfold {A S} (f : S -> A -> Run S) (s : S) (l : list A) : Run S :=
  match l with
  | [] => rdone s
  | a :: rest => let? next := f s a in rfold f next rest
  end.
(** Conjunction in order, with early exit. *)
Definition and_then (a : option bool) (k : option bool) : option bool :=
  match a with None => None | Some false => Some false | Some true => k end.
Fixpoint rall {A} (f : A -> option bool) (l : list A) : option bool :=
  match l with [] => Some true | a :: rest => and_then (f a) (rall f rest) end.

(** ** Enumerations ([ACIREnumOps.cpp]) *)

(** A member attribute: a dictionary with its number of entries, or
    something else. *)
Record RawMember := mkRaw { rm_size : nat; rm_name : option string; rm_code : option (list Z) }.

Record EnumDecl := mkEnumDecl {
  inPackage : bool;
  sym_name : option string;
  enum_width : option (list Z);
  encoding : option string;
  enum_members : list (option RawMember);
}.

Record EnumDefinitionView := mkView {
  view_width : Z;
  view_encoding : string;
  view_members : list (string * list Z);
}.

(** A name that is empty or contains a null character. *)
Fixpoint contains_nul (s : string) : bool :=
  match s with EmptyString => false | String c rest => Ascii.eqb c zero || contains_nul rest end.
Definition bad_name (name : option string) : bool :=
  match name with None => true | Some s => bool_decide (s = "") || contains_nul s end.

(** ** Symbols of a package *)

Inductive Symbol :=
| ModuleSym (type_parameters : option (list string))
| StructSym (fields : list (option (string * HwType)))
| EnumSym (declaration : EnumDecl)
| OtherSym.

Definition Package := list (string * Symbol).

Fixpoint lookupDefinition (package : Package) (name : string) : option Symbol :=
  match package with
  | [] => None
  | (key, symbol) :: rest => if decide (key = name) then Some symbol else lookupDefinition rest name
  end.

Definition lookupStruct (package : Package) (name : string) : option (list (option (string * HwType))) :=
  match lookupDefinition package name with Some (StructSym fields) => Some fields | _ => None end.

Definition lookupEnum (package : Package) (name : string) : option EnumDecl :=
  match lookupDefinition package name with Some (EnumSym d) => Some d | _ => None end.

Definition type_parameters_of (package : Package) (owner : string) : option (list string) :=
  match lookupDefinition package owner with Some (ModuleSym names) => names | _ => None end.

Record PackedLeaf := mkLeaf { leaf_path : list string; leaf_type : HwType; leaf_low : Z; leaf_width : Z }.

(** The attributes under examination by [evaluable]. *)
Inductive ActiveKey := KExpr (e : StaticExpr) | KType (t : HwType) | KArray (es : list StaticExpr).
#[export] Instance ActiveKey_eq_dec : EqDecision ActiveKey.
Proof. solve_decision. Defined.

Definition provenance (e : StaticExpr) : Provenance :=
  match e with
  | Reference p _ _ | Literal p _ | TypeWidth p _ | Select p _ _ _ | Unary p _ _ | Binary p _ _ _ | Unresolved p _ => p
  end.

Definition u64_limit : Z := 2 ^ 64 - 1.
Definition int64_limit : Z := 2 ^ 63 - 1.

Section Analysis.
Context `{L : ApLib}.

(** ** Enumerations *)

(** The code derived from the ordinal, when the encoding derives one. *)
Definition derived_matches (kind : string) (ordinal : Z) (value : APSInt) : bool :=
  if decide (kind = "binary_one_hot") then
    if getBitWidth (aps_int value) <=? ordinal then false
    else isSameValue value (aps (ap_shl (ap_of (getBitWidth (aps_int value)) 1) ordinal) true)
  else
    let expected := ap_of 65 ordinal in
    let expected := if decide (kind = "gray_sequential") then ap_xor expected (ap_lshr expected 1) else expected in
    isSameValue value (aps expected true).

(** The loop over the members; [names] and [codes] have been seen. *)
Fixpoint validate_members (width : Z) (kind : string) (ordinal : Z) (names : list string) (codes : list (list Z))
    (members : list (option RawMember)) : FailureOr (list (string * list Z)) :=
  match members with
  | [] => success []
  | raw :: rest =>
    match raw with
    | Some (mkRaw 2 (Some name) (Some code)) =>
      if bad_name (Some name)
      then failure "enum members require exactly a nonempty name and mathematical integer code"
      else if bool_decide (name ∈ names) then failure "enum member names must be unique"
      else
        let value := aps_of_string code in
        if aps_isNegative value then failure "enum member code must be nonnegative"
        else if width <? getActiveBits (aps_int value) then failure "enum member code does not fit declared width"
        else if bool_decide (code ∈ codes) then failure "enum member codes must be unique"
        else if negb (bool_decide (kind = "explicit")) && negb (derived_matches kind ordinal value)
        then failure "enum member code does not match derived encoding"
        else
          let! more := validate_members width kind (ordinal + 1) (name :: names) (code :: codes) rest in
          success ((name, code) :: more)
    | _ => failure "enum members require exactly a nonempty name and mathematical integer code"
    end
  end.

Definition encodings : list string := ["explicit"; "binary_sequential"; "binary_one_hot"; "gray_sequential"].

Definition validateEnum (declaration : EnumDecl) : FailureOr EnumDefinitionView :=
  if negb (inPackage declaration) then failure "enum requires package placement"
  else if bad_name (sym_name declaration) then failure "enum declaration requires a nonempty nominal name"
  else
    match enum_width declaration with
    | None => failure "enum width must be a mathematical integer"
    | Some spelling =>
      let width := aps_of_string spelling in
      if aps_isNegative width || ap_isZero (aps_int width) || (64 <? getActiveBits (aps_int width))
      then failure "enum width must be positive and fit u64"
      else
        match encoding declaration with
        | Some kind =>
          if negb (bool_decide (kind ∈ encodings)) then failure "unknown enum encoding"
          else if bool_decide (enum_members declaration = []) then failure "enum requires at least one member"
          else
            let! members := validate_members (ap_bits (aps_int width)) kind 0 [] [] (enum_members declaration) in
            success (mkView (ap_bits (aps_int width)) kind members)
        | None => failure "unknown enum encoding"
        end
    end.

Variable package : Package.

Definition resolveEnum (name : string) : FailureOr EnumDefinitionView :=
  match lookupEnum package name with
  | None => failure "cannot resolve nominal enum declaration"
  | Some declaration => validateEnum declaration
  end.

(** ** Numbers *)

Definition natural (attr : Attribute) (positive : bool) : FailureOr Z :=
  match attr with
  | MathIntAttr spelling =>
    let value := aps_of_string spelling in
    if aps_isNegative value || (positive && ap_isZero (aps_int value)) || (64 <? getActiveBits (aps_int value))
    then failure "hardware static value must fit u64"
    else success (ap_bits (aps_int value))
  | _ => failure "hardware static value must be a mathematical integer"
  end.

(** The literal extents of a shape are positive and their product fits. *)
Fixpoint shape_schema_from (product : Z) (shape : list StaticExpr) : FailureOr unit :=
  match shape with
  | [] => success tt
  | Literal _ (MathIntAttr spelling) :: rest =>
    let n := aps_of_string spelling in
    if aps_isNegative n || ap_isZero (aps_int n) || (63 <? getActiveBits (aps_int n))
    then failure "table extent must be positive and fit signed 64 bits"
    else if int64_limit / ap_bits (aps_int n) <? product then failure "table element count exceeds signed 64 bits"
    else shape_schema_from (product * ap_bits (aps_int n)) rest
  | _ :: rest => shape_schema_from product rest
  end.

Definition shapeSchema (shape : list StaticExpr) : FailureOr unit :=
  if bool_decide (shape = []) then failure "table shape requires positive rank" else shape_schema_from 1 shape.

Definition product (shape : list Z) : Z := foldl u64_mul 1 shape.

(** An extent joined to those before it. *)
Definition join_extent (n : Z) (value : Attribute) : FailureOr Z :=
  match value with
  | MathIntAttr spelling =>
    let v := aps_of_string spelling in
    if aps_isNegative v || ap_isZero (aps_int v) || (63 <? getActiveBits (aps_int v))
    then failure "table extent must be positive and fit signed 64 bits"
    else if int64_limit / ap_bits (aps_int v) <? n then failure "table element count exceeds signed 64 bits"
    else success (ap_bits (aps_int v))
  | _ => failure "table extent requires integer"
  end.

(** [type_width] attributes: [APSInt(APInt(65, width), false)]. *)
Definition width_attr (width : Z) : Attribute := mathIntAttr (aps (ap_of 65 width) false).

(** The operand of a short-circuit operator decides the result. *)
Definition short_circuits (evaluation : ValueEvaluation) (b : bool) : bool :=
  match evaluation with AndShortCircuit => negb b | OrShortCircuit => b | Strict => false end.

(** ** Type parameters *)

(** The loop that follows the bindings of type parameters. *)
Fixpoint resolve_param (fuel : nat) (b : HardwareBindings) (aliases : list HwType) (type : HwType) : Run HwType :=
  match fuel with
  | O => None
  | S fuel =>
    match type with
    | TypeParamType owner name =>
      match type_parameters_of package owner with
      | Some names =>
        if negb (bool_decide (name ∈ names)) then rfail "unknown hardware type parameter"
        else if negb (bool_decide (b_owner b = Some owner)) then rdone type
        else if bool_decide (type ∈ aliases) then rfail "cyclic type parameter binding"
        else
          match b_types b !! name with
          | None => rdone type
          | Some (OtherType _) => rfail "hardware type parameter requires a finite hardware binding"
          | Some found => resolve_param fuel b (type :: aliases) found
          end
      | None => rfail "unknown hardware type parameter"
      end
    | EnumType name => let? view := Some (resolveEnum name) in rdone type
    | _ => rdone type
    end
  end.

(** ** Expressions, types and layouts *)

(** After the first operand: a short-circuit operator needs a boolean and may
    answer with it. *)
Definition after_first (evaluation : ValueEvaluation) (lhs : Attribute) (k : Run Attribute) : Run Attribute :=
  match evaluation with
  | Strict => k
  | _ =>
    match lhs with
    | BoolAttr v => if short_circuits evaluation v then rdone lhs else k
    | _ => rfail "static boolean operator requires bool"
    end
  end.

(** [resolveShape] with the evaluator of its extents. *)
Definition resolve_shape_with (evaluate : StaticExpr -> Run Attribute) (shape : list StaticExpr) : Run (list Z) :=
  let? ok := Some (shapeSchema shape) in
  let? r := rfold (fun st e =>
      let? value := evaluate e in
      let? extent := Some (join_extent (fst st) value) in
      rdone (fst st * extent, (snd st ++ [extent])%list)) (1, []) shape in
  rdone (snd r).

(** The sum of the leaves' widths. *)
Fixpoint sum_widths (width : Z) (leaves : list PackedLeaf) : FailureOr Z :=
  match leaves with
  | [] => success width
  | leaf :: rest =>
    if u64_limit - leaf_width leaf <? width then failure "packed width overflow"
    else sum_widths (width + leaf_width leaf) rest
  end.

(** An evaluable width or extent becomes a literal of its value. *)
Definition literal_if (evaluates : bool) (evaluate : Run Attribute) (e : StaticExpr) : Run StaticExpr :=
  if evaluates then
    let? value := evaluate in
    let? checked := Some (natural value true) in
    rdone (Literal (provenance e) value)
  else rdone e.

Definition Stack := list (StaticExpr * option string).

Fixpoint evaluateStatic (fuel : nat) (stack : Stack) (b : HardwareBindings) (e : StaticExpr) {struct fuel} : Run Attribute :=
  match fuel with
  | O => None
  | S fuel =>
    let e := substitute b e in
    if bool_decide ((e, b_owner b) ∈ stack) then rfail "cyclic demanded hardware static expression"
    else
      let stack := (e, b_owner b) :: stack in
      match e with
      | Reference _ owner name =>
        match bound_integer b owner name with
        | None => rfail "unresolved hardware static expression"
        | Some _ => evaluateStatic fuel stack b e
        end
      | Literal _ value =>
        match value with OtherAttr => rfail "hardware static literal requires integer or bool" | _ => rdone value end
      | TypeWidth _ type => let? width := getPackedWidth fuel stack b type in rdone (width_attr width)
      | Select _ condition yes no =>
        let? c := evaluateStatic fuel stack b condition in
        match c with
        | BoolAttr v => evaluateStatic fuel stack b (if v then yes else no)
        | _ => rfail "static select requires bool condition"
        end
      | Unary _ operator operand =>
        match parseValueOpcode operator with
        | None => rfail "unknown static operator"
        | Some opcode =>
          let? lhs := evaluateStatic fuel stack b operand in
          after_first (evaluation (getValueOpcodeInfo opcode)) lhs (Some (evaluateValue opcode [lhs]))
        end
      | Binary _ operator l r =>
        match parseValueOpcode operator with
        | None => rfail "unknown static operator"
        | Some opcode =>
          let? lhs := evaluateStatic fuel stack b l in
          after_first (evaluation (getValueOpcodeInfo opcode)) lhs
            (let? rhs := evaluateStatic fuel stack b r in Some (evaluateValue opcode [lhs; rhs]))
        end
      | Unresolved _ _ => rfail "unresolved hardware static expression"
      end
  end
with evaluable (fuel : nat) (stack : Stack) (active : list ActiveKey) (b : HardwareBindings) (e : StaticExpr) {struct fuel}
  : option bool :=
  match fuel with
  | O => None
  | S fuel =>
    if bool_decide (KExpr e ∈ active) then Some true
    else
      let active := KExpr e :: active in
      (* the selector is evaluated without diagnostics *)
      let demanded (selector : StaticExpr) (k : bool -> option bool) :=
        and_then (evaluable fuel stack active b selector)
          (match evaluateStatic fuel stack b selector with
           | None => None
           | Some (inr (BoolAttr v)) => k v
           | Some _ => Some true
           end) in
      match e with
      | Reference _ owner name =>
        match bound_integer b owner name with
        | None => Some false
        | Some (BoundExpr v) => evaluable fuel stack active b (substitute b v)
        | Some (BoundValue _) => Some true
        end
      | TypeWidth _ type => evaluableWidth fuel stack active b type
      | Select _ condition yes no => demanded condition (fun v => evaluable fuel stack active b (if v then yes else no))
      | Unary _ _ x => evaluable fuel stack active b x
      | Binary _ operator l r =>
        let evaluation := match parseValueOpcode operator with
                          | Some opcode => evaluation (getValueOpcodeInfo opcode)
                          | None => Strict
                          end in
        match evaluation with
        | Strict => and_then (evaluable fuel stack active b l) (evaluable fuel stack active b r)
        | _ => demanded l (fun v => if short_circuits evaluation v then Some true else evaluable fuel stack active b r)
        end
      | Literal _ _ | Unresolved _ _ => Some true
      end
  end
with evaluableWidth (fuel : nat) (stack : Stack) (active : list ActiveKey) (b : HardwareBindings) (type : HwType) {struct fuel}
  : option bool :=
  match fuel with
  | O => None
  | S fuel =>
    if bool_decide (KType type ∈ active) then Some true
    else
      let active := KType type :: active in
      match type with
      | TypeParamType owner name =>
        if negb (bool_decide (b_owner b = Some owner)) then Some false
        else match b_types b !! name with
             | None => Some false
             | Some found => evaluableWidth fuel stack active b found
             end
      | BitsType width => evaluable fuel stack active b (substitute b width)
      | TableType shape element =>
        let shape := substitute b <$> shape in
        and_then
          (if bool_decide (KArray shape ∈ active) then Some true
           else rall (evaluable fuel stack (KArray shape :: active) b) shape)
          (evaluableWidth fuel stack active b element)
      | StructType _ | EnumType _ => Some true
      | OtherType _ => Some false
      end
  end
with resolveType (fuel : nat) (stack : Stack) (b : HardwareBindings) (type : HwType) {struct fuel} : Run HwType :=
  match fuel with
  | O => None
  | S fuel =>
    let literal (e : StaticExpr) : Run StaticExpr :=
      let e := substitute b e in
      match evaluable fuel stack [] b e with
      | None => None
      | Some evaluates => literal_if evaluates (evaluateStatic fuel stack b e) e
      end in
    match type with
    | TableType shape element =>
      let? shape := rmap literal shape in
      let? element := resolveType fuel stack b element in
      rdone (TableType shape element)
    | TypeParamType _ _ => resolve_param fuel b [] type
    | BitsType width => let? width := literal width in rdone (BitsType width)
    | StructType name =>
      match lookupStruct package name with
      | None => rfail "unresolved nominal hardware struct"
      | Some _ => rdone type
      end
    | EnumType name => let? view := Some (resolveEnum name) in rdone type
    | OtherType _ => rfail "expected bits, packed struct, enum or declared type parameter"
    end
  end
with visitPackedLayout (fuel : nat) (stack : Stack) (b : HardwareBindings) (active : list HwType) (path : list string)
    (leaves : list PackedLeaf) (low : Z) (type : HwType) {struct fuel} : Run (list PackedLeaf * Z) :=
  match fuel with
  | O => None
  | S fuel =>
    let? type := resolveType fuel stack b type in
    if bool_decide (type ∈ active) then rfail "recursive packed struct layout"
    else
      let active := type :: active in
      let place (width : Z) : Run (list PackedLeaf * Z) :=
        if u64_limit - width <? low then rfail "packed width overflow"
        else rdone ((leaves ++ [mkLeaf path type low width])%list, low + width) in
      match type with
      | BitsType width =>
        let? value := evaluateStatic fuel stack b width in
        let? width := Some (natural value true) in
        place width
      | EnumType name => let? view := Some (resolveEnum name) in place (view_width view)
      | TableType _ element =>
        let? count := getTableSize fuel stack b type in
        let? inner := visitPackedLayout fuel stack b active [] [] 0 element in
        if u64_limit / count <? snd inner then rfail "table packed width overflow"
        else place (count * snd inner)
      | StructType name =>
        match lookupStruct package name with
        | None => rfail "unresolved nominal hardware struct"
        | Some fields =>
          rfold (fun st field =>
              match field with
              | None => rfail "invalid struct field"
              | Some (name, type) => visitPackedLayout fuel stack b active (path ++ [name])%list (fst st) (snd st) type
              end) (leaves, low) (rev fields)
        end
      | _ => rfail "unresolved type parameter in finite hardware layout"
      end
  end
with getLeaves (fuel : nat) (stack : Stack) (b : HardwareBindings) (type : HwType) {struct fuel} : Run (list PackedLeaf) :=
  match fuel with
  | O => None
  | S fuel =>
    let? type := resolveType fuel stack b type in
    let? r := visitPackedLayout fuel stack b [] [] [] 0 type in
    rdone (rev (fst r))
  end
with getPackedWidth (fuel : nat) (stack : Stack) (b : HardwareBindings) (type : HwType) {struct fuel} : Run Z :=
  match fuel with
  | O => None
  | S fuel => let? leaves := getLeaves fuel stack b type in Some (sum_widths 0 leaves)
  end
with getTableShape (fuel : nat) (stack : Stack) (b : HardwareBindings) (type : HwType) {struct fuel} : Run (list Z) :=
  match fuel with
  | O => None
  | S fuel =>
    let? resolved := resolveType fuel stack b type in
    match resolved with
    | TableType shape _ => resolve_shape_with (evaluateStatic fuel stack b) shape
    | _ => rfail "requires a table"
    end
  end
with getTableSize (fuel : nat) (stack : Stack) (b : HardwareBindings) (type : HwType) {struct fuel} : Run Z :=
  match fuel with
  | O => None
  | S fuel => let? shape := getTableShape fuel stack b type in rdone (product shape)
  end.

Definition isStaticEvaluable (fuel : nat) (b : HardwareBindings) (e : StaticExpr) : option bool :=
  evaluable fuel [] [] b (substitute b e).
End Analysis.
