(* ===== verification/HardwareAnalysisSpec.v ===== *)
(** * What static evaluation and packed layout guarantee

    Expressions over bound integers have a big-step meaning ([meaning]), with
    branches and short-circuit operands demanded only where the evaluator
    demands them; layouts tile the packed vector. *)

From Stdlib Require Import ZArith Lia String.
From stdpp Require Import base list numbers strings gmap.
From S2P Require Import Prelude ModelInput ConfigSpec CompilerPrelude ApInt ValueSemantics ValueSemanticsSpec HardwareTypes HardwareAnalysis.

Open Scope Z_scope.

(** ** Meaning of expressions *)

Section Meaning.
(** Which operations count. *)
Variable admitted : ValueOpcode -> list sval -> Prop.
Variable b : HardwareBindings.

Definition strictness (o : ValueOpcode) : ValueEvaluation := evaluation (opcodeInfo o).

Inductive meaning : StaticExpr -> sval -> Prop :=
| M_reference at_ owner name v :
    bound_integer b owner name = Some (BoundValue (attr_of v)) -> meaning (Reference at_ owner name) v
| M_literal at_ v : meaning (Literal at_ (attr_of v)) v
| M_select at_ c yes no d v :
    meaning c (VBool d) -> meaning (if d then yes else no) v -> meaning (Select at_ c yes no) v
| M_unary at_ op o x a v :
    parseValueOpcode op = Some o -> meaning x a -> admitted o [a] -> value_spec o [a] = Some v ->
    meaning (Unary at_ op x) v
| M_binary at_ op o l r x y v :
    parseValueOpcode op = Some o -> meaning l x ->
    (strictness o = Strict \/ exists d, x = VBool d /\ short_circuits (strictness o) d = false) ->
    meaning r y -> admitted o [x; y] -> value_spec o [x; y] = Some v -> meaning (Binary at_ op l r) v
| M_short at_ op o l r d :
    parseValueOpcode op = Some o -> meaning l (VBool d) -> short_circuits (strictness o) d = true ->
    meaning (Binary at_ op l r) (VBool d).
End Meaning.

(** Expressions without type widths whose literals are canonical, and
    bindings to canonical values. *)
Fixpoint plain (e : StaticExpr) : Prop :=
  match e with
  | Literal _ a => a = OtherAttr \/ exists v, a = attr_of v
  | TypeWidth _ _ => False
  | Select _ c y n => plain c /\ plain y /\ plain n
  | Unary _ op x => isUnary op = true /\ plain x
  | Binary _ op l r => isBinary op = true /\ plain l /\ plain r
  | Reference _ _ _ | Unresolved _ _ => True
  end.

Definition closed (b : HardwareBindings) : Prop :=
  forall name v, b_integers b !! name = Some v -> exists u, v = BoundValue (attr_of u).

Lemma closed_bound b owner name v : closed b -> bound_integer b owner name = Some v -> exists u, v = BoundValue (attr_of u).
Proof. unfold bound_integer. intros Hc. destruct (decide _); [|discriminate]. apply Hc. Qed.

Lemma substitute_idem b e : closed b -> substitute b (substitute b e) = substitute b e.
Proof.
  intros Hc. induction e; cbn [substitute]; try congruence. destruct (bound_integer b owner name) as [v|] eqn:E.
  - destruct (closed_bound _ _ _ _ Hc E) as [u ->]. reflexivity.
  - cbn [substitute]. rewrite E. reflexivity.
Qed.

Lemma substitute_size b e : closed b -> expr_size (substitute b e) = expr_size e.
Proof.
  intros Hc. induction e; cbn [substitute expr_size]; try congruence. destruct (bound_integer b owner name) as [v|] eqn:E.
  - destruct (closed_bound _ _ _ _ Hc E) as [u ->]. reflexivity.
  - reflexivity.
Qed.

Lemma expr_size_pos e : (1 <= expr_size e)%nat.
Proof. destruct e; cbn; lia. Qed.

Section Evaluate.
Context `{L : ApLib} {HL : ApLaws L}.
Variable package : Package.
#[local] Abbreviation evaluateStatic := (evaluateStatic package).

(** One step of the evaluator. *)
Definition evaluate_node (fuel : nat) (stack : Stack) (b : HardwareBindings) (e : StaticExpr) : Run Attribute :=
  match e with
  | Reference _ owner name =>
    match bound_integer b owner name with
    | None => rfail "unresolved hardware static expression"
    | Some _ => evaluateStatic fuel stack b e
    end
  | Literal _ value =>
    match value with OtherAttr => rfail "hardware static literal requires integer or bool" | _ => rdone value end
  | TypeWidth _ type => let? width := getPackedWidth package fuel stack b type in rdone (width_attr width)
  | Select _ condition yes no =>
    let? c := evaluateStatic fuel stack b condition in
    match c with
    | BoolAttr v => evaluateStatic fuel stack b (if v then yes else no)
    | _ => rfail "static select requires bool condition"
    end
  | Unary _ operator operand =>
    match parseValueOpcode operator with
    | None => rfail "unknown static operator"
    | Some opcode =>
      let? lhs := evaluateStatic fuel stack b operand in
      after_first (strictness opcode) lhs (Some (evaluateValue opcode [lhs]))
    end
  | Binary _ operator l r =>
    match parseValueOpcode operator with
    | None => rfail "unknown static operator"
    | Some opcode =>
      let? lhs := evaluateStatic fuel stack b l in
      after_first (strictness opcode) lhs
        (let? rhs := evaluateStatic fuel stack b r in Some (evaluateValue opcode [lhs; rhs]))
    end
  | Unresolved _ _ => rfail "unresolved hardware static expression"
  end.

Lemma evaluateStatic_S fuel stack b e :
  evaluateStatic (S fuel) stack b e =
  if bool_decide ((substitute b e, b_owner b) ∈ stack) then rfail "cyclic demanded hardware static expression"
  else evaluate_node fuel ((substitute b e, b_owner b) :: stack) b (substitute b e).
Proof. reflexivity. Qed.

Lemma evaluateStatic_substitute fuel stack b e : closed b ->
  evaluateStatic fuel stack b (substitute b e) = evaluateStatic fuel stack b e.
Proof. intros Hc. destruct fuel; [reflexivity|]. rewrite !evaluateStatic_S, substitute_idem by exact Hc. reflexivity. Qed.

Lemma rbind_inr {A B} (m : Run A) (k : A -> Run B) r : rbind m k = Some (inr r) -> exists a, m = Some (inr a) /\ k a = Some (inr r).
Proof. destruct m as [[e|a]|]; cbn; [discriminate|eauto|discriminate]. Qed.

Lemma attr_of_bool u v : BoolAttr u = attr_of v -> v = VBool u.
Proof. destruct v; [intros [= ->]; reflexivity|discriminate]. Qed.

Lemma attr_of_inj u v : attr_of u = attr_of v -> u = v.
Proof.
  destruct u, v; cbn; try discriminate; [intros [= ->]; reflexivity|]. intros [= E]. f_equal.
  rewrite <- (Reference.read_spell z), <- (Reference.read_spell z0), E. reflexivity.
Qed.

Lemma fmap_attr_inj (vs ws : list sval) : attr_of <$> vs = attr_of <$> ws -> vs = ws.
Proof.
  revert ws. induction vs as [|u vs IH]; intros [|w ws]; cbn; try discriminate; [reflexivity|]. intros [= E1 E2].
  apply attr_of_inj in E1. apply IH in E2. congruence.
Qed.

(** ** Soundness *)

(** Unary operators are strict. *)
Lemma unary_strict o lhs k : Nat.eqb (arity (getValueOpcodeInfo o)) 1 = true -> after_first (strictness o) lhs k = k.
Proof. destruct o; (discriminate || reflexivity). Qed.

Lemma after_first_inr ev lhs k r : after_first ev lhs k = Some (inr r) ->
  (exists d, BoolAttr d = lhs /\ short_circuits ev d = true /\ r = lhs) \/
  ((ev = Strict \/ exists d, BoolAttr d = lhs /\ short_circuits ev d = false) /\ k = Some (inr r)).
Proof.
  unfold after_first. destruct ev; [auto| |]; (destruct lhs as [d|sp|]; [|discriminate..]); destruct d; cbn;
    first [intros [= <-]; left; eexists; split; [reflexivity|split; reflexivity]
          |intros H; right; split; [right; eexists; split; reflexivity|exact H]].
Qed.

Lemma evaluateStatic_sound fuel b : closed b -> forall stack e r, plain e ->
  evaluateStatic fuel stack b e = Some (inr r) -> exists v, r = attr_of v /\ meaning (fun _ _ => True) b e v.
Proof.
  intros Hc. induction fuel as [|fuel IH]; intros stack e r Hp; [discriminate|]. rewrite evaluateStatic_S.
  case_bool_decide; [discriminate|]. set (stack' := _ :: stack).
  assert (Hval : forall o attrs vs r, evaluateValue o attrs = inr r -> attrs = attr_of <$> vs ->
            exists v, r = attr_of v /\ value_spec o vs = Some v).
  { intros o attrs vs r' E ->. destruct (evaluateValue_sound o _ r' E) as (ws & v & Ew & Ev & ->). apply fmap_attr_inj in Ew as ->. eauto. }
  destruct e as [p owner name|p a|p t|p c y n|p op x|p op l rr|p k]; cbn [plain substitute evaluate_node] in *.
  - destruct (bound_integer b owner name) as [v|] eqn:E; [|cbn [evaluate_node]; rewrite E; discriminate].
    destruct (closed_bound _ _ _ _ Hc E) as [u ->]. cbn [evaluate_node]. intros H1. exists u.
    split; [destruct u; cbn [attr_of] in H1; injection H1 as <-; reflexivity|]. apply M_reference, E.
  - destruct Hp as [-> | [v ->]]; [discriminate|]. intros H1. exists v. split; [destruct v; cbn [attr_of] in H1; injection H1 as <-; reflexivity|constructor].
  - contradiction.
  - destruct Hp as (Hpc & Hpy & Hpn). intros H1. apply rbind_inr in H1 as (cv & Ec & H1). rewrite evaluateStatic_substitute in Ec by exact Hc.
    destruct (IH _ _ _ Hpc Ec) as (vc & -> & Mc). destruct vc as [d|z]; cbn [attr_of] in H1; [|discriminate].
    assert (Hb : evaluateStatic fuel stack' b (if d then y else n) = Some (inr r)).
    { destruct d; rewrite evaluateStatic_substitute in H1 by exact Hc; exact H1. }
    destruct (IH _ _ _ (if d as d return plain (if d then y else n) then Hpy else Hpn) Hb) as (v & -> & Mv).
    exists v. split; [reflexivity|]. eapply M_select; eassumption.
  - destruct Hp as [Hu Hp]. unfold isUnary in Hu. destruct (parseValueOpcode op) as [o|] eqn:Eo; [|discriminate].
    intros H1. apply rbind_inr in H1 as (av & Ea & H1). rewrite evaluateStatic_substitute in Ea by exact Hc.
    destruct (IH _ _ _ Hp Ea) as (va & -> & Ma). rewrite unary_strict in H1 by exact Hu. injection H1 as Hk.
    destruct (Hval o _ [va] r Hk eq_refl) as (v & -> & Ev).
    exists v. split; [reflexivity|]. eapply M_unary; [exact Eo|exact Ma|exact I|exact Ev].
  - destruct Hp as (Hu & Hpl & Hpr). destruct (parseValueOpcode op) as [o|] eqn:Eo; [|discriminate].
    intros H1. apply rbind_inr in H1 as (av & Ea & H1). rewrite evaluateStatic_substitute in Ea by exact Hc.
    destruct (IH _ _ _ Hpl Ea) as (va & -> & Ma). apply after_first_inr in H1 as [(d & E1 & Hs & ->)|[Hk H1]].
    + exists va. split; [reflexivity|]. apply attr_of_bool in E1 as ->. eapply M_short; eassumption.
    + apply rbind_inr in H1 as (bv & Eb & H1). rewrite evaluateStatic_substitute in Eb by exact Hc.
      destruct (IH _ _ _ Hpr Eb) as (vb & -> & Mb). injection H1 as H1.
      destruct (Hval o _ [va; vb] r H1 eq_refl) as (v & -> & Ev). exists v. split; [reflexivity|].
      eapply M_binary; [exact Eo|exact Ma| |exact Mb|exact I|exact Ev].
      destruct Hk as [Hk|(d & E1 & Hs)]; [left; exact Hk|right]. apply attr_of_bool in E1 as ->. eauto.
  - discriminate.
Qed.

(** ** Completeness and termination *)

(** Every expression under evaluation is larger than [e]. *)
Definition above (stack : Stack) (e : StaticExpr) : Prop := Forall (fun k => (expr_size e < expr_size (fst k))%nat) stack.

Lemma above_fresh b stack e : closed b -> above stack e -> (substitute b e, b_owner b) ∉ stack.
Proof.
  intros Hc Ha Hin. unfold above in Ha. rewrite Forall_forall in Ha. specialize (Ha _ Hin). cbn [fst] in Ha.
  rewrite substitute_size in Ha by exact Hc. lia.
Qed.

Lemma above_child b stack e x : closed b -> above stack e -> (expr_size x < expr_size e)%nat ->
  above ((substitute b e, b_owner b) :: stack) x.
Proof.
  intros Hc Ha Hx. apply Forall_cons. cbn [fst]. rewrite substitute_size by exact Hc. split; [exact Hx|].
  eapply Forall_impl; [exact Ha|]. cbn. intros k. lia.
Qed.

Lemma evaluateStatic_complete b e v : closed b -> plain e -> meaning within_capacity b e v ->
  forall fuel stack, (expr_size e <= fuel)%nat -> above stack e -> evaluateStatic fuel stack b e = Some (inr (attr_of v)).
Proof.
  intros Hc Hp M. revert Hp.
  induction M as [p owner name v Hb|p v|p c y n d v Mc IHc Mv IHv|p op o x a v Eo Mx IHx Hcap Ev
                 |p op o l r x y v Eo Ml IHl Hs Mr IHr Hcap Ev|p op o l r d Eo Ml IHl Hs];
    intros Hp fuel stack Hf Ha; (destruct fuel as [|fuel]; [cbn in Hf; lia|]);
    rewrite evaluateStatic_S, bool_decide_eq_false_2 by (apply above_fresh; assumption);
    cbn [substitute evaluate_node plain expr_size] in *.
  - rewrite Hb. cbn [evaluate_node]. destruct v; reflexivity.
  - destruct v; reflexivity.
  - destruct Hp as (Hpc & Hpy & Hpn). rewrite evaluateStatic_substitute by exact Hc.
    rewrite IHc; [|exact Hpc|lia|apply (above_child b stack (Select p c y n)); cbn; [exact Hc|exact Ha|lia]]. cbn [rbind attr_of].
    destruct d; rewrite evaluateStatic_substitute by exact Hc;
      (apply IHv; [assumption|lia|apply (above_child b stack (Select p c y n)); cbn; [exact Hc|exact Ha|lia]]).
  - destruct Hp as [Hu Hp]. unfold isUnary in Hu. rewrite Eo in *. rewrite evaluateStatic_substitute by exact Hc.
    rewrite IHx; [|exact Hp|lia|apply (above_child b stack (Unary p op x)); cbn; [exact Hc|exact Ha|lia]]. cbn [rbind].
    rewrite unary_strict by exact Hu. f_equal. apply (evaluateValue_complete o [a] v Ev Hcap).
  - destruct Hp as (Hu & Hpl & Hpr). rewrite Eo, evaluateStatic_substitute by exact Hc.
    rewrite IHl; [|exact Hpl|lia|apply (above_child b stack (Binary p op l r)); cbn; [exact Hc|exact Ha|lia]]. cbn [rbind].
    assert (Hr : evaluateStatic fuel ((Binary p op (substitute b l) (substitute b r), b_owner b) :: stack) b (substitute b r) = Some (inr (attr_of y))).
    { rewrite evaluateStatic_substitute by exact Hc. apply IHr; [exact Hpr|lia|].
      apply (above_child b stack (Binary p op l r)); cbn; [exact Hc|exact Ha|lia]. }
    rewrite Hr. cbn [rbind]. pose proof (evaluateValue_complete o [x; y] v Ev Hcap) as E. cbn [fmap list_fmap] in E. rewrite E.
    destruct Hs as [-> | (d & -> & Hs)]; [reflexivity|]. unfold after_first. cbn [attr_of]. rewrite Hs. destruct (strictness o); reflexivity.
  - destruct Hp as (Hu & Hpl & Hpr). rewrite Eo, evaluateStatic_substitute by exact Hc.
    rewrite IHl; [|exact Hpl|lia|apply (above_child b stack (Binary p op l r)); cbn; [exact Hc|exact Ha|lia]]. cbn [rbind attr_of].
    unfold after_first. rewrite Hs. destruct (strictness o); (discriminate Hs || reflexivity).
Qed.

Lemma evaluateStatic_terminates b e : closed b -> plain e ->
  forall fuel stack, (expr_size e <= fuel)%nat -> evaluateStatic fuel stack b e <> None.
Proof.
  intros Hc. assert (Hbind : forall A B (m : Run A) (k : A -> Run B), m <> None -> (forall a, k a <> None) -> rbind m k <> None).
  { intros A B [[e'|a]|] k Hm Hk; cbn; [discriminate|apply Hk|congruence]. }
  assert (Hafter : forall ev lhs k, k <> None -> after_first ev lhs k <> None).
  { intros [] [[]| |] k Hk; cbn; (discriminate || exact Hk). }
  induction e as [p owner name|p a|p t|p c IHc y IHy n IHn|p op x IHx|p op l IHl r IHr|p k]; intros Hp fuel stack Hf;
    (destruct fuel as [|fuel]; [cbn in Hf; lia|]); rewrite evaluateStatic_S; (case_bool_decide; [discriminate|]);
    cbn [substitute evaluate_node plain expr_size] in *.
  - destruct (bound_integer b owner name) as [v|] eqn:E; [|cbn [evaluate_node]; rewrite E; discriminate].
    destruct (closed_bound _ _ _ _ Hc E) as [u ->]. destruct u; discriminate.
  - destruct a; discriminate.
  - contradiction.
  - destruct Hp as (Hpc & Hpy & Hpn). rewrite evaluateStatic_substitute by exact Hc. apply Hbind; [apply IHc; [exact Hpc|lia]|].
    intros [[]| |]; try discriminate; rewrite evaluateStatic_substitute by exact Hc; [apply IHy|apply IHn]; (assumption || lia).
  - destruct Hp as [_ Hp]. destruct (parseValueOpcode op); [|discriminate]. rewrite evaluateStatic_substitute by exact Hc.
    apply Hbind; [apply IHx; [exact Hp|lia]|]. intros a. apply Hafter. discriminate.
  - destruct Hp as (_ & Hpl & Hpr). destruct (parseValueOpcode op); [|discriminate]. rewrite evaluateStatic_substitute by exact Hc.
    apply Hbind; [apply IHl; [exact Hpl|lia]|]. intros a. apply Hafter. rewrite evaluateStatic_substitute by exact Hc.
    apply Hbind; [apply IHr; [exact Hpr|lia]|]. discriminate.
  - discriminate.
Qed.

(** ** Cyclic bindings *)

(** [k] negations of the reference. *)
Fixpoint negations (p : Provenance) (k : nat) (e : StaticExpr) : StaticExpr :=
  match k with O => e | S k => Unary p "neg" (negations p k e) end.

Lemma negations_size p k e : expr_size (negations p k e) = (k + expr_size e)%nat.
Proof. induction k; cbn; lia. Qed.

Definition bind_one (owner name : string) (v : Bound) : HardwareBindings := mkBindings (Some owner) {[ name := v ]} ∅.

Lemma bound_one owner name v : bound_integer (bind_one owner name v) owner name = Some v.
Proof. unfold bound_integer. cbn [b_owner b_integers bind_one]. rewrite decide_True by reflexivity. apply lookup_singleton_eq. Qed.

Lemma substitute_negations p owner name k m :
  substitute (bind_one owner name (BoundExpr (negations p m (Reference p owner name)))) (negations p k (Reference p owner name)) =
  negations p (k + m) (Reference p owner name).
Proof. induction k; cbn [negations substitute Nat.add]; [rewrite bound_one; reflexivity|]. rewrite IHk. reflexivity. Qed.

(** A binding to more than one negation of itself is never found cyclic: each
    level substitutes a larger tree. *)
Lemma negations_diverge p owner name m fuel : (2 <= m)%nat -> forall k stack,
  Forall (fun key => (expr_size (fst key) < k + m + 1)%nat) stack ->
  evaluateStatic fuel stack (bind_one owner name (BoundExpr (negations p m (Reference p owner name))))
    (negations p k (Reference p owner name)) = None.
Proof.
  intros Hm. induction fuel as [|fuel IH]; intros k stack Hs; [reflexivity|]. rewrite evaluateStatic_S, substitute_negations.
  rewrite bool_decide_eq_false_2.
  2: { intros Hin. rewrite Forall_forall in Hs. specialize (Hs _ Hin). cbn [fst] in Hs. rewrite negations_size in Hs. cbn in Hs. lia. }
  destruct (k + m)%nat as [|j] eqn:E; [lia|]. cbn [negations evaluate_node].
  change (parseValueOpcode "neg") with (Some Neg). cbn beta iota.
  rewrite IH; [reflexivity|]. apply Forall_cons. split.
  - cbn [fst expr_size]. rewrite negations_size. cbn. lia.
  - eapply Forall_impl; [exact Hs|]. intros key. cbn. lia.
Qed.

(** A direct cycle is found. *)
Lemma direct_cycle_found p owner name fuel :
  evaluateStatic (S (S fuel)) [] (bind_one owner name (BoundExpr (negations p 1 (Reference p owner name)))) (Reference p owner name) =
  rfail "cyclic demanded hardware static expression".
Proof.
  pose proof (substitute_negations p owner name 0 1) as E. cbn [negations Nat.add] in E.
  rewrite evaluateStatic_S. cbn [negations]. rewrite E, bool_decide_eq_false_2 by apply not_elem_of_nil.
  cbn [evaluate_node]. change (parseValueOpcode "neg") with (Some Neg). cbn beta iota.
  rewrite evaluateStatic_S, E, bool_decide_eq_true_2 by left. reflexivity.
Qed.
End Evaluate.
