(* ===== verification/HardwareLayoutSpec.v ===== *)
(** * Packed layouts and enumerations

    The leaves of a packed type tile its vector: field zero of a structure is
    the most significant, every bit belongs to one leaf, and the packed width
    is the number of bits.  An enumeration is accepted exactly when its
    members satisfy the declared encoding. *)

From Stdlib Require Import ZArith Lia String.
From stdpp Require Import base list numbers strings gmap.
From S2P Require Import Prelude ModelInput ConfigSpec CompilerPrelude ApInt ValueSemantics ValueSemanticsSpec HardwareTypes HardwareAnalysis HardwareAnalysisSpec.

Open Scope Z_scope.
Open Scope list_scope.

(** ** Tilings *)

(** The leaves occupy [low, high) one after the other. *)
Fixpoint tiles (low : Z) (leaves : list PackedLeaf) (high : Z) : Prop :=
  match leaves with
  | [] => low = high
  | leaf :: rest => leaf_low leaf = low /\ 0 <= leaf_width leaf /\ tiles (low + leaf_width leaf) rest high
  end.

Lemma tiles_app low a mid b high : tiles low a mid -> tiles mid b high -> tiles low (a ++ b) high.
Proof.
  revert low. induction a as [|x a IH]; intros low; cbn; [intros ->; auto|]. intros (H1 & H2 & H3) Hb. eauto.
Qed.

Lemma tiles_le low a high : tiles low a high -> low <= high.
Proof. revert low. induction a as [|x a IH]; intros low; cbn; [lia|]. intros (H1 & H2 & H3). apply IH in H3. lia. Qed.

Definition covers (leaf : PackedLeaf) (p : Z) : Prop := leaf_low leaf <= p < leaf_low leaf + leaf_width leaf.

Lemma tiles_bounds low a high leaf : tiles low a high -> leaf ∈ a -> low <= leaf_low leaf /\ leaf_low leaf + leaf_width leaf <= high.
Proof.
  revert low. induction a as [|x a IH]; intros low; cbn; [intros _ H; apply elem_of_nil in H; contradiction|].
  intros (H1 & H2 & H3) Hin. apply elem_of_cons in Hin as [-> | Hin].
  - apply tiles_le in H3. lia.
  - specialize (IH _ H3 Hin). lia.
Qed.

(** Every position is in the leaf of one index. *)
Lemma tiles_unique low a high p : tiles low a high -> low <= p < high ->
  exists i leaf, a !! i = Some leaf /\ covers leaf p /\ forall j other, a !! j = Some other -> covers other p -> j = i.
Proof.
  revert low. induction a as [|x a IH]; intros low; cbn; [intros -> Hp; lia|]. intros (H1 & H2 & H3) Hp.
  destruct (Z.ltb_spec p (low + leaf_width x)).
  - exists 0%nat, x. split; [reflexivity|]. split; [unfold covers; lia|]. intros [|j] other; cbn; [reflexivity|].
    intros Ho Hc. destruct (tiles_bounds _ _ _ other H3) as [Hb _]; [eapply list_elem_of_lookup_2; exact Ho|]. unfold covers in Hc. lia.
  - destruct (IH _ H3 ltac:(lia)) as (i & leaf & Hi & Hc & Hu). exists (S i), leaf. split; [exact Hi|]. split; [exact Hc|].
    intros [|j] other; cbn; [intros [= ->] Hco; unfold covers in Hco; lia|]. intros Ho Hco. f_equal. eapply Hu; eassumption.
Qed.

Fixpoint total_width (leaves : list PackedLeaf) : Z :=
  match leaves with [] => 0 | leaf :: rest => leaf_width leaf + total_width rest end.

Lemma tiles_total low a high : tiles low a high -> high = low + total_width a.
Proof. revert low. induction a as [|x a IH]; intros low; cbn; [lia|]. intros (_ & _ & H). apply IH in H. lia. Qed.

Lemma total_width_app a c : total_width (a ++ c) = total_width a + total_width c.
Proof. induction a as [|x a IH]; cbn; [reflexivity|]. lia. Qed.

Lemma total_width_rev a : total_width (rev a) = total_width a.
Proof. induction a as [|x a IH]; cbn; [reflexivity|]. rewrite total_width_app, IH. cbn. lia. Qed.

Lemma sum_widths_spec w leaves : Forall (fun l => 0 <= leaf_width l) leaves -> 0 <= w -> w + total_width leaves <= u64_limit ->
  sum_widths w leaves = inr (w + total_width leaves).
Proof.
  revert w. induction leaves as [|x l IH]; intros w Hf Hw Hb; cbn [sum_widths total_width] in *; [rewrite Z.add_0_r; reflexivity|].
  apply Forall_cons in Hf as [Hx Hf].
  assert (0 <= total_width l) by (clear - Hf; induction Hf; cbn; lia).
  destruct (Z.ltb_spec (u64_limit - leaf_width x) w); [lia|]. rewrite IH by (assumption || lia). f_equal. lia.
Qed.

Section Layout.
Context `{L : ApLib} {HL : ApLaws L}.
Variable package : Package.
#[local] Abbreviation visitPackedLayout := (visitPackedLayout package).

(** A type with a width of its own. *)
Definition scalar (t : HwType) : Prop :=
  match t with BitsType _ | EnumType _ | TableType _ _ => True | _ => False end.

(** What a visit adds to the leaves. *)
Definition extends_layout (path : list string) (leaves : list PackedLeaf) (low : Z) (r : list PackedLeaf * Z) : Prop :=
  exists new, fst r = leaves ++ new /\ tiles low new (snd r) /\ (low <= u64_limit -> snd r <= u64_limit) /\
    Forall (fun leaf => scalar (leaf_type leaf) /\ path `prefix_of` leaf_path leaf) new.

Lemma natural_range a z : natural a true = inr z -> 0 < z <= u64_limit.
Proof.
  destruct a as [|sp|]; cbn [natural]; try discriminate. set (s := aps_of_string sp). rewrite aps_isNegative_law, aps_isZero_value.
  destruct (Z.ltb_spec (aps_value s) 0); [discriminate|]. destruct (Z.eqb_spec (aps_value s) 0); [discriminate|]. cbn [andb orb].
  destruct (Z.ltb_spec 64 (getActiveBits (aps_int s))) as [|Hb]; [discriminate|]. intros [= <-].
  rewrite <- aps_value_nonneg by lia. rewrite getActiveBits_law, <- aps_value_nonneg in Hb by lia.
  apply bit_length_le in Hb; [|lia|lia]. unfold u64_limit. lia.
Qed.

Lemma validateEnum_width d view : validateEnum d = inr view -> 0 < view_width view <= u64_limit.
Proof.
  unfold validateEnum. destruct (negb _); [discriminate|]. destruct (bad_name _); [discriminate|].
  destruct (enum_width d) as [sp|]; [|discriminate]. cbv zeta. set (s := aps_of_string sp). rewrite aps_isNegative_law, aps_isZero_value.
  destruct (Z.ltb_spec (aps_value s) 0); [discriminate|]. destruct (Z.eqb_spec (aps_value s) 0); [discriminate|].
  destruct (Z.ltb_spec 64 (getActiveBits (aps_int s))) as [|Hb]; [discriminate|]. cbn [orb].
  destruct (encoding d) as [kind|]; [|discriminate]. destruct (negb _); [discriminate|]. destruct (bool_decide _); [discriminate|].
  intros H1. apply fbind_inr in H1 as (m & _ & [= <-]). cbn [view_width].
  rewrite <- aps_value_nonneg by lia. rewrite getActiveBits_law, <- aps_value_nonneg in Hb by lia.
  apply bit_length_le in Hb; [|lia|lia]. unfold u64_limit. lia.
Qed.

Lemma place_extends path leaves low type width r : scalar type -> 0 <= width ->
  (if u64_limit - width <? low then rfail "packed width overflow"
   else rdone (leaves ++ [mkLeaf path type low width], low + width)) = Some (inr r) ->
  extends_layout path leaves low r.
Proof.
  intros Hs Hw. destruct (Z.ltb_spec (u64_limit - width) low); [discriminate|]. intros [= <-].
  eexists. split; [reflexivity|]. cbn [snd tiles leaf_low leaf_width]. split; [auto|]. split; [lia|].
  constructor; [|constructor]. cbn. auto.
Qed.

(** The loop over the fields of a structure. *)
Lemma fields_extend (f : list PackedLeaf * Z -> option (string * HwType) -> Run (list PackedLeaf * Z)) path fields :
  (forall st field r, f st field = Some (inr r) -> extends_layout path (fst st) (snd st) r) ->
  forall st r, rfold f st fields = Some (inr r) -> extends_layout path (fst st) (snd st) r.
Proof.
  intros Hf. induction fields as [|x l IH]; intros st r; cbn [rfold].
  - intros [= <-]. exists []. rewrite app_nil_r. cbn. auto.
  - intros H1. apply rbind_inr in H1 as (mid & Em & H1). destruct (Hf _ _ _ Em) as (n1 & E1 & T1 & B1 & F1).
    destruct (IH _ _ H1) as (n2 & E2 & T2 & B2 & F2). exists (n1 ++ n2). rewrite E2, E1, app_assoc.
    split; [reflexivity|]. split; [eapply tiles_app; eassumption|]. split; [tauto|]. apply Forall_app. auto.
Qed.

(** ** Table shapes *)

Definition zprod (shape : list Z) : Z := foldr Z.mul 1 shape.

Lemma zprod_snoc l x : zprod (l ++ [x]) = zprod l * x.
Proof. unfold zprod. induction l as [|y l IH]; cbn; [lia|]. rewrite IH. lia. Qed.

Lemma zprod_pos l : Forall (fun x => 0 < x) l -> 0 < zprod l.
Proof. unfold zprod. induction 1; cbn; [lia|]. nia. Qed.

(** Extents that fit signed 64 bits together. *)
Definition sized (shape : list Z) : Prop := Forall (fun x => 0 < x) shape /\ zprod shape <= int64_limit.

Lemma product_zprod shape : sized shape -> product shape = zprod shape.
Proof.
  unfold sized, product. assert (H : forall acc, 0 < acc -> Forall (fun x => 0 < x) shape -> acc * zprod shape <= int64_limit ->
    foldl u64_mul acc shape = acc * zprod shape).
  { induction shape as [|x l IH]; intros acc Ha Hf Hb; cbn [foldl zprod foldr] in *; [lia|]. apply Forall_cons in Hf as [Hx Hf].
    fold (zprod l) in *. pose proof (zprod_pos l Hf). assert (acc * x <= int64_limit) by nia.
    assert (E : u64_mul acc x = acc * x) by (unfold u64_mul, u64, wrapu; apply Z.mod_small; unfold int64_limit in *; nia).
    rewrite E. rewrite IH; [lia|nia|exact Hf|]. rewrite <- Z.mul_assoc. exact Hb. }
  intros [Hf Hb]. rewrite H; [lia|lia|exact Hf|lia].
Qed.

Lemma join_extent_spec n v x : 0 < n -> join_extent n v = inr x -> 0 < x /\ n * x <= int64_limit.
Proof.
  intros Hn. destruct v as [|sp|]; cbn [join_extent]; try discriminate. set (s := aps_of_string sp). rewrite aps_isNegative_law, aps_isZero_value.
  destruct (Z.ltb_spec (aps_value s) 0); [discriminate|]. destruct (Z.eqb_spec (aps_value s) 0); [discriminate|]. cbn [orb].
  destruct (63 <? _); [discriminate|]. rewrite <- aps_value_nonneg by lia.
  destruct (Z.ltb_spec (int64_limit / aps_value s) n) as [|Hb]; [discriminate|]. intros [= <-]. split; [lia|].
  pose proof (Z.mul_div_le int64_limit (aps_value s) ltac:(lia)). nia.
Qed.

Lemma resolve_shape_sized evaluate shape extents : resolve_shape_with evaluate shape = Some (inr extents) ->
  sized extents /\ length extents = length shape.
Proof.
  unfold resolve_shape_with. intros H. apply rbind_inr in H as (ok & _ & H). apply rbind_inr in H as (r & Er & [= <-]).
  assert (Hloop : forall shape st r, fst st = zprod (snd st) -> sized (snd st) ->
    rfold (fun st e => let? value := evaluate e in let? extent := Some (join_extent (fst st) value) in
             rdone (fst st * extent, snd st ++ [extent])) st shape = Some (inr r) ->
    sized (snd r) /\ length (snd r) = (length (snd st) + length shape)%nat).
  { clear - HL. induction shape as [|e l IH]; intros st r Hz Hs; cbn [rfold length].
    - intros [= <-]. split; [exact Hs|lia].
    - intros H. apply rbind_inr in H as (next & En & H). apply rbind_inr in En as (value & _ & En). apply rbind_inr in En as (x & Ex & [= <-]).
      injection Ex as Ex. pose proof (zprod_pos _ (proj1 Hs)). apply join_extent_spec in Ex as [Hx Hb]; [|lia].
      apply IH in H; cbn [fst snd] in *.
      + destruct H as [H1 H2]. split; [exact H1|]. rewrite H2, length_app. cbn. lia.
      + rewrite zprod_snoc. congruence.
      + destruct Hs as [Hf _]. split; [apply Forall_app; auto|]. rewrite zprod_snoc, <- Hz. exact Hb. }
  apply (Hloop shape (1, [])); [reflexivity|split; [constructor|vm_compute; discriminate]|exact Er].
Qed.

Lemma getTableShape_sized fuel stack b t shape : getTableShape package fuel stack b t = Some (inr shape) -> sized shape.
Proof.
  destruct fuel as [|fuel]; [discriminate|]. cbn [getTableShape]. intros H. apply rbind_inr in H as (r & _ & H).
  destruct r; try discriminate. apply resolve_shape_sized in H as [H _]. exact H.
Qed.

Lemma getTableSize_pos fuel stack b t n : getTableSize package fuel stack b t = Some (inr n) -> 0 < n <= int64_limit.
Proof.
  destruct fuel as [|fuel]; [discriminate|]. cbn [getTableSize]. intros H. apply rbind_inr in H as (shape & Es & [= <-]).
  apply getTableShape_sized in Es. rewrite product_zprod by exact Es. destruct Es as [Hf Hb]. split; [apply zprod_pos, Hf|exact Hb].
Qed.

Lemma visit_extends fuel : forall stack b active path leaves low type r,
  visitPackedLayout fuel stack b active path leaves low type = Some (inr r) -> extends_layout path leaves low r.
Proof.
  induction fuel as [|fuel IH]; intros stack b active path leaves low type r; [discriminate|]. cbn [HardwareAnalysis.visitPackedLayout].
  intros H1. apply rbind_inr in H1 as (t & _ & H1). case_bool_decide; [discriminate|]. destruct t as [w|name|name|shape element|o n|id]; try discriminate.
  - apply rbind_inr in H1 as (value & _ & H1). apply rbind_inr in H1 as (width & Ew & H1). injection Ew as Ew. apply natural_range in Ew.
    refine (place_extends _ _ _ _ _ _ _ _ H1); [exact I|lia].
  - destruct (lookupStruct package name) as [fields|]; [|discriminate]. eapply fields_extend in H1; [exact H1|].
    intros st [[fname ft]|] r'; [|discriminate]. intros H2. apply IH in H2 as (new & E & T & B & F). exists new. split; [exact E|].
    split; [exact T|]. split; [exact B|]. eapply Forall_impl; [exact F|]. intros leaf [Hs Hp]. split; [exact Hs|].
    etransitivity; [|exact Hp]. apply prefix_app_r. reflexivity.
  - apply rbind_inr in H1 as (view & Ev & H1). injection Ev as Ev. unfold resolveEnum in Ev.
    destruct (lookupEnum package name); [|discriminate]. apply validateEnum_width in Ev.
    refine (place_extends _ _ _ _ _ _ _ _ H1); [exact I|lia].
  - apply rbind_inr in H1 as (count & Ec & H1). apply rbind_inr in H1 as (inner & Ei & H1).
    destruct (_ <? _); [discriminate|]. apply getTableSize_pos in Ec. apply IH in Ei as (new & _ & T & _). apply tiles_le in T.
    refine (place_extends _ _ _ _ _ _ _ _ H1); [exact I|nia].
Qed.

(** ** The layout of a type *)

Lemma getPackedWidth_S fuel stack b t :
  getPackedWidth package (S fuel) stack b t = let? leaves := getLeaves package fuel stack b t in Some (sum_widths 0 leaves).
Proof. reflexivity. Qed.

Lemma getLeaves_layout fuel stack b t leaves : getLeaves package fuel stack b t = Some (inr leaves) ->
  exists width, 0 <= width <= u64_limit /\ tiles 0 (rev leaves) width /\
    Forall (fun leaf => scalar (leaf_type leaf)) leaves /\
    getPackedWidth package (S fuel) stack b t = Some (inr width).
Proof.
  intros Hl. rewrite getPackedWidth_S, Hl. cbn [rbind]. destruct fuel as [|fuel]; [discriminate|]. cbn [getLeaves] in Hl.
  apply rbind_inr in Hl as (rt & _ & Hl). apply rbind_inr in Hl as (r & Er & Hl). injection Hl as <-.
  apply visit_extends in Er as (new & E & T & B & F). cbn [app] in E. rewrite E, rev_involutive. exists (snd r).
  pose proof (tiles_le _ _ _ T). specialize (B ltac:(unfold u64_limit; lia)). split; [lia|]. split; [exact T|]. split.
  - apply Forall_rev. eapply Forall_impl; [exact F|]. cbn. tauto.
  - assert (Hw : Forall (fun l => 0 <= leaf_width l) (rev new)).
    { apply Forall_rev. clear -T. revert T. generalize 0 at 1. induction new as [|x l IH]; intros low; [constructor|].
      cbn. intros (_ & H2 & H3). constructor; [exact H2|]. eapply IH, H3. }
    pose proof (tiles_total _ _ _ T) as Et. f_equal. rewrite sum_widths_spec; [|exact Hw|lia|]; rewrite total_width_rev; [f_equal; lia|lia].
Qed.
End Layout.

(** ** Enumerations *)

(** The code an encoding derives from the position. *)
Definition derived (kind : string) (i : Z) : Z :=
  if decide (kind = "binary_one_hot"%string) then 2 ^ i
  else if decide (kind = "gray_sequential"%string) then Z.lxor i (i / 2) else i.

Definition raw_member (m : string * Z) : option RawMember := Some (mkRaw 2 (Some (fst m)) (Some (spell (snd m)))).
Definition declare (name : string) (w : Z) (kind : string) (ms : list (string * Z)) : EnumDecl :=
  mkEnumDecl true (Some name) (Some (spell w)) (Some kind) (raw_member <$> ms).
Definition view_of (w : Z) (kind : string) (ms : list (string * Z)) : EnumDefinitionView :=
  mkView w kind ((fun m => (fst m, spell (snd m))) <$> ms).

(** The members of a well-formed enumeration of width [w]. *)
Record enum_ok (w : Z) (kind : string) (ms : list (string * Z)) : Prop := {
  enum_nonempty : ms <> [];
  enum_names : Forall (fun m => bad_name (Some (fst m)) = false) ms;
  enum_unique_names : NoDup (fst <$> ms);
  enum_unique_codes : NoDup (snd <$> ms);
  enum_fit : Forall (fun m => 0 <= snd m < 2 ^ w) ms;
  enum_derived : kind = "explicit"%string \/ forall i m, ms !! i = Some m -> snd m = derived kind (Z.of_nat i);
}.

(** Integer attributes hold canonical spellings. *)
Definition canonical_int (spelling : list Z) : Prop := exists z, spelling = spell z /\ small z.
Definition canonical_decl (d : EnumDecl) : Prop :=
  (forall s, enum_width d = Some s -> canonical_int s) /\
  Forall (fun raw => forall m s, raw = Some m -> rm_code m = Some s -> canonical_int s) (enum_members d).

Section Enum.
Context `{L : ApLib} {HL : ApLaws L}.


Lemma parse_spell z : small z -> aps_value (aps_of_string (spell z)) = z.
Proof.
  intros Hz. apply aps_of_string_law. apply small_digits in Hz. unfold spell. destruct (Z.ltb_spec z 0).
  - rewrite Z.abs_neq in Hz by lia. cbn [length]. lia.
  - rewrite Z.abs_eq in Hz by lia. lia.
Qed.

Lemma active_fits s w : 0 <= aps_value s -> 0 <= w -> (w <? getActiveBits (aps_int s)) = negb (aps_value s <? 2 ^ w).
Proof.
  intros Hs Hw. rewrite getActiveBits_law, <- aps_value_nonneg by exact Hs. pose proof (bit_length_le (aps_value s) w Hs Hw).
  destruct (Z.ltb_spec w (bit_length (aps_value s))), (Z.ltb_spec (aps_value s) (2 ^ w)); (reflexivity || lia).
Qed.

Lemma unsigned_value a w z : ap_is a w z -> 0 <= z < 2 ^ w -> aps_value (aps a true) = z.
Proof.
  intros [Hw Hb] Hz. unfold aps_value. destruct (aps_parts a true) as [-> ->]. rewrite Hb. apply Z.mod_small, Hz.
Qed.

Lemma derived_matches_spec kind i s : 0 <= i < 2 ^ 64 -> 0 <= aps_value s ->
  derived_matches kind i s = (aps_value s =? derived kind i).
Proof.
  intros Hi Hs. unfold derived_matches, derived. destruct (decide (kind = _)) as [_|_].
  - pose proof (ap_width_range (aps_int s)) as Hw. pose proof (ap_bits_range (aps_int s)) as Hb. rewrite aps_value_nonneg by exact Hs.
    set (bw := getBitWidth (aps_int s)) in *. destruct (Z.leb_spec bw i) as [Hge|Hlt].
    + symmetry. apply Z.eqb_neq. pose proof (Z.pow_le_mono_r 2 bw i). lia.
    + rewrite isSameValue_law, aps_value_nonneg by exact Hs. f_equal. pose proof (ap_of_law bw 1 ltac:(lia) ltac:(unfold is_u; lia)) as H1.
      apply (unsigned_value _ bw).
      * pose proof (ap_shl_is _ bw 1 i ltac:(lia) H1) as H2. rewrite Z.mul_1_l in H2. exact H2.
      * split; [apply Z.pow_nonneg; lia|]. apply Z.pow_lt_mono_r; lia.
  - rewrite isSameValue_law. f_equal. pose proof (ap_of_law 65 i ltac:(lia) Hi) as H1. destruct (decide (kind = _)) as [_|_].
    + assert (H2 : ap_is (ap_lshr (ap_of 65 i) 1) 65 (i / 2)).
      { destruct H1 as [Hw Hb]. destruct (ap_lshr_law (ap_of 65 i) 1 ltac:(rewrite Hw; lia)) as [Hw' Hb']. split; [congruence|].
        rewrite Hb', Hb, Hw. change (2 ^ 1) with 2. rewrite (Z.mod_small i) by lia. reflexivity. }
      apply (unsigned_value _ 65).
      * apply (ap_bitwise_is ap_xor Z.lxor); [lia|exact ap_xor_law| |exact H1|exact H2]. intros x y. apply lxor_mod_pow2. lia.
      * assert (Hh : 0 <= i / 2 < 2 ^ 64) by (pose proof (Z.div_mod i 2); pose proof (Z.mod_pos_bound i 2); lia).
        assert (Hx : Z.lxor i (i / 2) = Z.lxor i (i / 2) mod 2 ^ 64).
        { rewrite <- lxor_mod_pow2, !Z.mod_small by lia. reflexivity. }
        rewrite Hx. pose proof (Z.mod_pos_bound (Z.lxor i (i / 2)) (2 ^ 64)). lia.
    + apply (unsigned_value _ 65); [exact H1|lia].
Qed.

(** What the loop has checked of the members, with the names and codes before them. *)
Fixpoint members_ok (w : Z) (kind : string) (i : Z) (names : list string) (codes : list Z) (ms : list (string * Z)) : Prop :=
  match ms with
  | [] => True
  | (n, c) :: rest =>
    bad_name (Some n) = false /\ (n ∉ names) /\ 0 <= c < 2 ^ w /\ (c ∉ codes) /\
    (kind = "explicit"%string \/ c = derived kind i) /\ members_ok w kind (i + 1) (n :: names) (c :: codes) rest
  end.

Lemma member_code_seen c (codes : list Z) : (spell c ∈ (spell <$> codes)) <-> (c ∈ codes).
Proof. split; [|apply list_elem_of_fmap_2]. intros H. apply list_elem_of_fmap_1 in H as (y & E & Hy). apply spell_inj in E as ->. exact Hy. Qed.

Lemma validate_members_spec w kind raws : 0 <= w ->
  Forall (fun raw => forall m s, raw = Some m -> rm_code m = Some s -> canonical_int s) raws ->
  forall i names codes out, 0 <= i -> i + Z.of_nat (length raws) <= 2 ^ 64 ->
  validate_members w kind i names (spell <$> codes) raws = inr out <->
  exists ms, raws = raw_member <$> ms /\ members_ok w kind i names codes ms /\ out = (fun m => (fst m, spell (snd m))) <$> ms.
Proof.
  intros Hw Hcan. induction raws as [|raw raws IH]; intros i names codes out Hi Hlen; cbn [validate_members].
  - split; [intros [= <-]; exists []; split; [reflexivity|split; [exact I|reflexivity]]|]. intros (ms & E & _ & ->). destruct ms; [reflexivity|discriminate E].
  - apply Forall_cons in Hcan as [Hc Hcan]. specialize (IH Hcan).
    assert (Hbad : (forall n c, raw <> raw_member (n, c)) ->
      ~ exists ms, raw :: raws = raw_member <$> ms /\ members_ok w kind i names codes ms /\ out = (fun m => (fst m, spell (snd m))) <$> ms).
    { intros Hne (ms & E & _). destruct ms as [|[n c] ms]; [discriminate E|]. injection E as E _. exact (Hne n c E). }
    destruct raw as [[[|[|[|size]]] [name|] [code|]]|];
      try (split; [discriminate|intros Hx; exfalso; revert Hx; apply Hbad; intros n c; discriminate]).
    destruct (Hc _ code eq_refl eq_refl) as (z & -> & Hz). pose proof (parse_spell z Hz) as Ez. cbv zeta.
    rewrite aps_isNegative_law, Ez. cbn [length] in Hlen.
    assert (Hred : (exists ms, Some (mkRaw 2 (Some name) (Some (spell z))) :: raws = raw_member <$> ms /\ members_ok w kind i names codes ms /\
        out = (fun m => (fst m, spell (snd m))) <$> ms) <->
      (bad_name (Some name) = false /\ (name ∉ names) /\ 0 <= z < 2 ^ w /\ (z ∉ codes) /\ (kind = "explicit"%string \/ z = derived kind i)) /\
      exists more, validate_members w kind (i + 1) (name :: names) (spell <$> z :: codes) raws = inr more /\ out = (name, spell z) :: more).
    { split.
      - intros (ms & E & Hok & ->). destruct ms as [|[n c] ms]; [discriminate E|]. injection E as -> Ecs Er. apply spell_inj in Ecs as ->.
        cbn [members_ok fst snd] in Hok. destruct Hok as (H1 & H2 & H3 & H4 & H5 & H6). split; [auto|]. eexists. split; [|reflexivity].
        apply IH; [lia|lia|]. exists ms. auto.
      - intros ((H1 & H2 & H3 & H4 & H5) & more & Em & ->). apply IH in Em as (ms & -> & H6 & ->); [|lia|lia].
        exists ((name, z) :: ms). cbn. auto 10. }
    rewrite Hred. clear Hred Hbad IH.
    destruct (bad_name (Some name)) eqn:E1; [split; [discriminate|intros ((Hx & _) & _); discriminate]|].
    case_bool_decide as E2; [split; [discriminate|intros ((_ & Hx & _) & _); contradiction]|].
    destruct (Z.ltb_spec z 0); [split; [discriminate|intros ((_ & _ & Hx & _) & _); lia]|].
    rewrite active_fits, Ez by lia. destruct (Z.ltb_spec z (2 ^ w)); cbn [negb]; [|split; [discriminate|intros ((_ & _ & H' & _) & _); lia]].
    rewrite (bool_decide_ext _ _ (member_code_seen z codes)).
    case_bool_decide as E3; [split; [discriminate|intros ((_ & _ & _ & H' & _) & _); contradiction]|].
    rewrite derived_matches_spec, Ez by lia.
    assert (Hcond : negb (bool_decide (kind = "explicit"%string)) && negb (z =? derived kind i) = false <-> kind = "explicit"%string \/ z = derived kind i).
    { case_bool_decide; cbn; [tauto|]. destruct (Z.eqb_spec z (derived kind i)); cbn; intuition congruence. }
    destruct (negb _ && negb _) eqn:E4; [split; [discriminate|intros ((_ & _ & _ & _ & H') & _); apply Hcond in H'; discriminate]|].
    split.
    + intros H'. apply fbind_inr in H' as (more & Em & [= <-]). split; [tauto|]. exists more. split; [exact Em|reflexivity].
    + intros (_ & more & Em & ->). cbn [fmap list_fmap] in Em. rewrite Em. reflexivity.
Qed.

Lemma members_ok_spec w kind ms : forall i names codes,
  members_ok w kind i names codes ms <->
  Forall (fun m => bad_name (Some (fst m)) = false) ms /\ NoDup (fst <$> ms) /\ NoDup (snd <$> ms) /\
  Forall (fun m => (fst m ∉ names) /\ (snd m ∉ codes)) ms /\ Forall (fun m => 0 <= snd m < 2 ^ w) ms /\
  (kind = "explicit"%string \/ forall j m, ms !! j = Some m -> snd m = derived kind (i + Z.of_nat j)).
Proof.
  induction ms as [|[n c] ms IH]; intros i names codes; cbn [members_ok].
  - split; [|auto]. intros _. cbn. do 5 (split; [constructor|]). right. intros j m. rewrite lookup_nil. discriminate.
  - rewrite IH. cbn [fmap list_fmap fst snd]. rewrite !Forall_cons, !NoDup_cons. cbn [fst snd].
    assert (Hsplit : Forall (fun m => (fst m ∉ (n :: names)) /\ (snd m ∉ (c :: codes))) ms <->
      (n ∉ (fst <$> ms)) /\ (c ∉ (snd <$> ms)) /\ Forall (fun m => (fst m ∉ names) /\ (snd m ∉ codes)) ms).
    { rewrite !Forall_forall. split.
      - intros H. split_and!.
        + intros Hin. apply list_elem_of_fmap_1 in Hin as (m & -> & Hm). apply (proj1 (H m Hm)). left.
        + intros Hin. apply list_elem_of_fmap_1 in Hin as (m & -> & Hm). apply (proj2 (H m Hm)). left.
        + intros m Hm. destruct (H m Hm). split; intros Hx; [apply H0|apply H1]; right; exact Hx.
      - intros (H1 & H2 & H3) m Hm. destruct (H3 m Hm). split; intros Hx; apply elem_of_cons in Hx as [E|Hx]; try contradiction.
        + apply H1. rewrite <- E. apply list_elem_of_fmap_2, Hm.
        + apply H2. rewrite <- E. apply list_elem_of_fmap_2, Hm. }
    assert (Hder : (kind = "explicit"%string \/ (forall j m, ((n, c) :: ms) !! j = Some m -> snd m = derived kind (i + Z.of_nat j))) <->
      (kind = "explicit"%string \/ c = derived kind i) /\
      (kind = "explicit"%string \/ (forall j m, ms !! j = Some m -> snd m = derived kind (i + 1 + Z.of_nat j)))).
    { split.
      - intros [H|H]; [auto|]. split; right.
        + specialize (H 0%nat (n, c) eq_refl). cbn in H. rewrite Z.add_0_r in H. exact H.
        + intros j m Hj. specialize (H (S j) m Hj). rewrite H. f_equal. lia.
      - intros [[H|H] [H'|H']]; auto. right. intros [|j] m; cbn; [intros [= <-]; cbn; rewrite Z.add_0_r; exact H|].
        intros Hj. rewrite (H' j m Hj). f_equal. lia. }
    rewrite Hsplit, Hder. split; intros H; destruct_and? H; split_and!; assumption.
Qed.

Lemma validateEnum_spec d view : canonical_decl d -> Z.of_nat (length (enum_members d)) < 2 ^ 64 ->
  validateEnum d = inr view <->
  exists name w kind ms, d = declare name w kind ms /\ view = view_of w kind ms /\
    bad_name (Some name) = false /\ 0 < w < 2 ^ 64 /\ kind ∈ encodings /\ enum_ok w kind ms.
Proof.
  intros [Hcw Hcm] Hlen. destruct d as [placed name width enc raws]. cbn [enum_width enum_members] in *. unfold validateEnum.
  cbn [inPackage sym_name enum_width encoding enum_members].
  destruct placed; cbn [negb]; [|split; [discriminate|intros (? & ? & ? & ? & [=] & _)]].
  destruct name as [name|]; [|split; [discriminate|intros (? & ? & ? & ? & [=] & _)]].
  destruct (bad_name (Some name)) eqn:En; [split; [discriminate|intros (? & ? & ? & ? & [= <- _ _ _] & _ & H & _); congruence]|].
  destruct width as [sp|]; [|split; [discriminate|intros (? & ? & ? & ? & [=] & _)]].
  destruct (Hcw sp eq_refl) as (w & -> & Hw). pose proof (parse_spell w Hw) as Ew. cbv zeta. rewrite aps_isNegative_law, aps_isZero_value, Ew.
  assert (Hwid : ((w <? 0) || (w =? 0) || (64 <? getActiveBits (aps_int (aps_of_string (spell w))))) = false <-> 0 < w < 2 ^ 64).
  { destruct (Z.ltb_spec w 0); [cbn; intuition (discriminate || lia)|]. destruct (Z.eqb_spec w 0); [cbn; intuition (discriminate || lia)|].
    cbn [orb]. rewrite active_fits, Ew by lia. destruct (Z.ltb_spec w (2 ^ 64)); cbn; intuition (discriminate || lia). }
  destruct (_ || _ || _); [split; [discriminate|intros (? & ? & ? & ? & [= _ E _ _] & _ & _ & H & _); apply spell_inj in E as <-; apply Hwid in H; discriminate]|].
  destruct Hwid as [Hwid _]. specialize (Hwid eq_refl). rewrite <- aps_value_nonneg by lia. rewrite Ew.
  destruct enc as [kind|]; [|split; [discriminate|intros (? & ? & ? & ? & [=] & _)]].
  case_bool_decide as Ek; cbn [negb]; [|split; [discriminate|intros (? & ? & ? & ? & [= _ _ <- _] & _ & _ & _ & H & _); contradiction]].
  case_bool_decide as Em.
  { split; [discriminate|]. intros (? & ? & ? & ms & [= _ _ _ E] & _ & _ & _ & _ & H). apply enum_nonempty in H. destruct ms; [congruence|]. rewrite Em in E. discriminate. }
  pose proof (validate_members_spec w kind raws ltac:(lia) Hcm 0 [] []) as Hm. cbn [fmap list_fmap] in Hm. split.
  - intros H. apply fbind_inr in H as (members & E & [= <-]). apply Hm in E as (ms & -> & Hok & ->); [|lia|lia].
    apply members_ok_spec in Hok as (H1 & H2 & H3 & _ & H5 & H6). exists name, w, kind, ms. split; [reflexivity|]. split; [reflexivity|].
    split; [exact En|]. split; [exact Hwid|]. split; [exact Ek|]. constructor; try assumption. intros ->. apply Em. reflexivity.
  - intros (name' & w' & kind' & ms & [= <- Ew' <- ->] & -> & _ & _ & _ & [H0 H1 H2 H3 H4 H5]). apply spell_inj in Ew' as <-.
    rewrite (proj2 (Hm ((fun m => (fst m, spell (snd m))) <$> ms) ltac:(lia) ltac:(lia))); [reflexivity|]. exists ms. split; [reflexivity|]. split; [|reflexivity].
    apply members_ok_spec. split_and!; try assumption. apply Forall_true. intros m. split; apply not_elem_of_nil.
Qed.
End Enum.
