(* ===== verification/HardwareAnalysisTheorems.v ===== *)
(** * Theorems on static evaluation, packed layouts and enumerations *)

From Stdlib Require Import ZArith Lia String.
From stdpp Require Import base list numbers strings gmap.
From S2P Require Import Prelude ModelInput ConfigSpec CompilerPrelude ApInt ValueSemantics ValueSemanticsSpec HardwareTypes HardwareAnalysis HardwareAnalysisSpec HardwareLayoutSpec.

Open Scope Z_scope.
Open Scope list_scope.


(** C33: the guard against cyclic bindings misses some cycles.  A parameter
    bound to its own negation is reported as cyclic, but bound to two or more
    nested negations of itself its evaluation never ends, whatever depth is
    allowed: every call substitutes again and looks for a larger tree. *)
Theorem cyclic_binding_diverges `{L : ApLib} package p owner name :
  (forall fuel, evaluateStatic package (S (S fuel)) [] (bind_one owner name (BoundExpr (negations p 1 (Reference p owner name))))
     (Reference p owner name) = rfail "cyclic demanded hardware static expression") /\
  (forall m fuel, (2 <= m)%nat ->
     evaluateStatic package fuel [] (bind_one owner name (BoundExpr (negations p m (Reference p owner name))))
       (Reference p owner name) = None).
Proof.
  split; [intros fuel; apply direct_cycle_found|]. intros m fuel Hm. apply (negations_diverge package p owner name m fuel Hm 0). constructor.
Qed.

(** C13: the leaves of a packed type partition its vector.  Whenever a layout
    is computed, the leaves are bits, enumerations or tables, they occupy the
    vector from its top bit down without gap or overlap, every bit lies in
    exactly one of them, and the packed width is the number of bits, below
    [2^64]. *)
Theorem packed_layout_partition `{L : ApLib} {HL : ApLaws L} package fuel stack b t leaves :
  getLeaves package fuel stack b t = Some (inr leaves) ->
  exists width, 0 <= width < 2 ^ 64 /\ getPackedWidth package (S fuel) stack b t = Some (inr width) /\
    tiles 0 (rev leaves) width /\ Forall (fun leaf => scalar (leaf_type leaf)) leaves /\
    forall p, 0 <= p < width ->
      exists i leaf, rev leaves !! i = Some leaf /\ covers leaf p /\
        forall j other, rev leaves !! j = Some other -> covers other p -> j = i.
Proof.
  intros H. destruct (getLeaves_layout package fuel stack b t leaves H) as (width & Hw & Ht & Hs & Ep). exists width.
  split; [unfold u64_limit in Hw; lia|]. split; [exact Ep|]. split; [exact Ht|]. split; [exact Hs|].
  intros p Hp. apply (tiles_unique _ _ _ p Ht Hp).
Qed.

(** An enumeration is accepted exactly when it is well formed: a name, a
    width that fits 64 bits, a known encoding, and at least one member, with
    distinct nonempty names and distinct codes that fit the width and, unless
    the encoding is explicit, are the ones it derives from their positions
    (sequential, one-hot or Gray). *)
Theorem enum_validation_exact `{L : ApLib} {HL : ApLaws L} d view :
  canonical_decl d -> Z.of_nat (length (enum_members d)) < 2 ^ 64 ->
  validateEnum d = inr view <->
  exists name w kind ms, d = declare name w kind ms /\ view = view_of w kind ms /\
    bad_name (Some name) = false /\ 0 < w < 2 ^ 64 /\ kind ∈ encodings /\ enum_ok w kind ms.
Proof. apply validateEnum_spec. Qed.

Module AnalysisWitness.
#[local] Existing Instance Reference.lib.
#[local] Existing Instance Reference.laws.
Definition lit (z : Z) : StaticExpr := Literal 1%positive (MathIntAttr (spell z)).
Definition ref (name : string) : StaticExpr := Reference 2%positive "M" name.
Definition bindings : HardwareBindings := bind_one "M" "N" (BoundValue (MathIntAttr (spell 12))).

(** [N // 5 + 1 if N > 8 else 1 // 0] *)
Definition guarded : StaticExpr :=
  Select 3%positive (Binary 3%positive "gt" (ref "N") (lit 8))
    (Binary 3%positive "add" (Binary 3%positive "floordiv" (ref "N") (lit 5)) (lit 1))
    (Binary 3%positive "floordiv" (lit 1) (lit 0)).

Lemma bindings_closed : closed bindings.
Proof. intros name v. cbn. intros H. apply lookup_singleton_Some in H as [_ <-]. exists (VInt 12). reflexivity. Qed.

Lemma plain_lit z : plain (lit z).
Proof. right. exists (VInt z). reflexivity. Qed.

Lemma guarded_plain : plain guarded.
Proof. repeat split; try reflexivity; apply plain_lit. Qed.

Lemma guarded_meaning : meaning within_capacity bindings guarded (VInt 3).
Proof.
  assert (HN : meaning within_capacity bindings (ref "N") (VInt 12)) by (apply M_reference; reflexivity).
  assert (Hlit : forall z, meaning within_capacity bindings (lit z) (VInt z)) by (intros z; apply (M_literal _ _ _ (VInt z))).
  assert (Hcap : forall o x y, o <> Shl -> small x -> small y -> within_capacity o [VInt x; VInt y]).
  { intros o x y Ho Hx Hy. split; [repeat constructor; assumption|congruence]. }
  apply (M_select _ _ _ _ _ _ true).
  - eapply (M_binary _ _ _ _ Gt); [reflexivity|exact HN|left; reflexivity|apply Hlit| |reflexivity].
    apply Hcap; [discriminate|vm_compute; discriminate|vm_compute; discriminate].
  - eapply (M_binary _ _ _ _ Add _ _ (VInt 2)); [reflexivity| |left; reflexivity|apply Hlit| |reflexivity].
    + eapply (M_binary _ _ _ _ FloorDiv); [reflexivity|exact HN|left; reflexivity|apply Hlit| |reflexivity].
      apply Hcap; [discriminate|vm_compute; discriminate|vm_compute; discriminate].
    + apply Hcap; [discriminate|vm_compute; discriminate|vm_compute; discriminate].
Qed.


(** A structure of a flag, a table of three nibbles and a state. *)
Definition state : EnumDecl := declare "State" 2 "gray_sequential" [("idle"%string, 0); ("run"%string, 1); ("stop"%string, 3)].
Definition record : Package :=
  [("State"%string, EnumSym state);
   ("R"%string, StructSym [Some ("flag"%string, BitsType (lit 1)); Some ("nibbles"%string, TableType [lit 3] (BitsType (lit 4)));
                           Some ("state"%string, EnumType "State")])].

Lemma packed_layout_partition_witness :
  exists leaves, getLeaves record 20 [] no_bindings (StructType "R") = Some (inr leaves) /\
    (fun leaf => (leaf_low leaf, leaf_width leaf)) <$> leaves = [(14, 1); (2, 12); (0, 2)] /\
    exists width, getPackedWidth record 21 [] no_bindings (StructType "R") = Some (inr width) /\ tiles 0 (rev leaves) width.
Proof.
  eexists. split; [vm_compute; reflexivity|]. split; [reflexivity|].
  edestruct (packed_layout_partition (HL := Reference.laws) record 20 [] no_bindings (StructType "R")) as (width & _ & H1 & H2 & _);
    [vm_compute; reflexivity|]. exists width. split; [exact H1|exact H2].
Defined.

Lemma state_canonical : canonical_decl state.
Proof.
  assert (Hc : forall z, 0 <= z < 4 -> canonical_int (spell z)).
  { intros z Hz. exists z. split; [reflexivity|]. unfold small. transitivity 2; [|lia]. apply bit_length_le; lia. }
  split.
  - intros s [= <-]. apply Hc. lia.
  - repeat constructor; intros m s [= <-] [= <-]; apply Hc; lia.
Qed.

Lemma enum_validation_exact_witness :
  let view := view_of 2 "gray_sequential" [("idle"%string, 0); ("run"%string, 1); ("stop"%string, 3)] in
  validateEnum state = inr view /\ exists w kind ms, view = view_of w kind ms /\ enum_ok w kind ms.
Proof.
  intros view. assert (E : validateEnum state = inr view) by (vm_compute; reflexivity). split; [exact E|].
  destruct (proj1 (enum_validation_exact (HL := Reference.laws) state view state_canonical ltac:(vm_compute; reflexivity)) E)
    as (name & w & kind & ms & _ & Hv & _ & _ & _ & Hok). exists w, kind, ms. split; [exact Hv|exact Hok].
Defined.
End AnalysisWitness.
