(* ===== verification/HardwareIr.v ===== *)
(** * Bit-vector operations of the hardware IR and what they compute

    The lowering functions create operations of the [acir] dialect.  A
    [Value] is the tree of operations behind an SSA value.  [eval] is the C++
    expression that [HardwareEmitCppDefinition.cpp] emits for it: each
    operation becomes the [gfsim] function of the runtime. *)

From Stdlib Require Import ZArith Lia String.
From stdpp Require Import base list numbers strings.
From S2P Require Import Prelude ModelInput ConfigSpec CompilerPrelude ApInt ValueSemantics HardwareTypes.
From S2P Require Import Bits FourState.

Open Scope string_scope.
Open Scope Z_scope.

(** [Argument] is a block argument or the result of an operation that the
    lowering does not create. *)
Inductive Value :=
| Argument (id : positive) (type : HwType)
| BitsConstantOp (value : StaticExpr) (type : HwType)
| BitsResizeOp (mode : string) (input : Value) (type : HwType)
| BitsBinaryOp (opcode : string) (lhs rhs : Value) (type : HwType)
| BitsSelectOp (condition whenTrue whenFalse : Value) (type : HwType)
| BitsExtractOp (low : StaticExpr) (input : Value) (type : HwType)
| BitsUnaryOp (input : Value) (type : HwType)
| BitsCompareOp (predicate : string) (lhs rhs : Value) (type : HwType)
| BitsConcatOp (operands : list Value) (type : HwType).

Definition getType (v : Value) : HwType :=
  match v with
  | Argument _ t | BitsConstantOp _ t | BitsResizeOp _ _ t | BitsBinaryOp _ _ _ t | BitsSelectOp _ _ _ t
  | BitsExtractOp _ _ t | BitsUnaryOp _ t | BitsCompareOp _ _ _ t | BitsConcatOp _ t => t
  end.

Definition AnyState : Type := {W : Z & FourState W}.
Definition any_state {W} (x : FourState W) : AnyState := existT W x.

Definition at_width (W : Z) (x : AnyState) : option (FourState W) :=
  match decide (projT1 x = W) with
  | left E => Some (eq_rect (projT1 x) FourState (projT2 x) W E)
  | right _ => None
  end.

Definition returned {A} (m : outcome A) : option A := match m with Ret a => Some a | _ => None end.

Section Eval.
Context `{L : ApLib}.

(** What [HardwareAnalysis::evaluateStatic] of the value's package says of an
    expression; [None] when there is no package or [isStaticEvaluable] does
    not hold. *)
Variable evaluateStatic : StaticExpr -> option (FailureOr Attribute).

(** [knownInteger] of NumericLowering.cpp. *)
Definition knownInteger (expression : StaticExpr) : FailureOr APSInt :=
  let missing := failure "integer lowering requires a proven static integer" in
  match expression with
  | Literal _ (MathIntAttr spelling) => success (aps_of_string spelling)
  | _ =>
    match evaluateStatic expression with
    | None => missing
    | Some value =>
      let! value := value in
      match value with MathIntAttr spelling => success (aps_of_string spelling) | _ => missing end
    end
  end.

Definition widthOf (type : HwType) : FailureOr Z :=
  match type with
  | BitsType expression =>
    let! width := knownInteger expression in
    if aps_isNegative width || ap_isZero (aps_int width) || (32 <? getActiveBits (aps_int width))
    then failure "integer width exceeds compiler representation capacity"
    else success (wrapu 32 (ap_bits (aps_int width)))
  | _ => failure "integer lowering requires a bits value"
  end.

(** ** Emission *)

(** [knownInteger] of the emitter: the literal's words, least significant
    first. *)
Definition literal_words (n : APSInt) : list Z :=
  let active := getActiveBits (aps_int n) in
  let wordCount := Z.max 1 (active / 64 + (if active mod 64 =? 0 then 0 else 1)) in
  (fun i => Z.shiftr (ap_bits (aps_int n)) (64 * Z.of_nat i) mod 2 ^ 64) <$> seq 0 (Z.to_nat wordCount).

Definition emit_constant (W : Z) (n : APSInt) : option AnyState :=
  match returned (FS.known (bits_of_list W (literal_words n))) with
  | Some x => Some (any_state x)
  | None => None
  end.

(** The [gfsim] function named by the opcode. *)
Definition emit_binary {W} (opcode : string) (a b : FourState W) : option (FourState W) :=
  if decide (opcode = "and") then returned (FS.bit_and a b)
  else if decide (opcode = "or") then returned (FS.bit_or a b)
  else if decide (opcode = "xor") then returned (FS.bit_xor a b)
  else if decide (opcode = "add") then returned (FS.add a b)
  else if decide (opcode = "sub") then returned (FS.sub a b)
  else if decide (opcode = "mul") then returned (FS.mul a b)
  else if decide (opcode = "udiv") then returned (FS.fs_udiv a b)
  else if decide (opcode = "urem") then returned (FS.fs_urem a b)
  else None.

Definition emit_resize (mode : string) (W : Z) {In} (x : FourState In) : option (FourState W) :=
  if decide (mode = "trunc") then returned (FS.truncate W x)
  else if decide (mode = "zext") then returned (FS.zero_extend W x)
  else if decide (mode = "sext") then returned (FS.sign_extend W x)
  else None.

(** The [ComparePredicate] an attribute names. *)
Definition emit_predicate (predicate : string) : option ComparePredicate :=
  if decide (predicate = "eq") then Some EQ
  else if decide (predicate = "ne") then Some NE
  else if decide (predicate = "case_eq") then Some CASE_EQ
  else if decide (predicate = "ult") then Some ULT
  else if decide (predicate = "ule") then Some ULE
  else if decide (predicate = "ugt") then Some UGT
  else if decide (predicate = "uge") then Some UGE
  else if decide (predicate = "slt") then Some SLT
  else if decide (predicate = "sle") then Some SLE
  else if decide (predicate = "sgt") then Some SGT
  else if decide (predicate = "sge") then Some SGE
  else None.

(** [gfsim::concat] of the text so far and one more operand. *)
Definition emit_concat (text operand : option AnyState) : option AnyState :=
  match text, operand with
  | Some high, Some low => any_state <$> returned (FS.fs_concat (projT2 high) (projT2 low))
  | _, _ => None
  end.

Definition type_width (t : HwType) : option Z := match widthOf t with inr w => Some w | inl _ => None end.

Definition static_number (e : StaticExpr) : option APSInt := match knownInteger e with inr n => Some n | inl _ => None end.

(** [env] gives the arguments; [None] is an expression that does not compile
    or that ends the process. *)
Fixpoint eval (env : positive -> option AnyState) (v : Value) : option AnyState :=
  match v with
  | Argument id _ => env id
  | BitsConstantOp e t =>
    match type_width t, static_number e with
    | Some W, Some n => emit_constant W n
    | _, _ => None
    end
  | BitsResizeOp mode input t =>
    match type_width t, eval env input with
    | Some W, Some x => any_state <$> emit_resize mode W (projT2 x)
    | _, _ => None
    end
  | BitsBinaryOp opcode lhs rhs t =>
    match eval env lhs, eval env rhs with
    | Some a, Some b =>
      match at_width (projT1 a) b with
      | Some b => any_state <$> emit_binary opcode (projT2 a) b
      | None => None
      end
    | _, _ => None
    end
  | BitsSelectOp condition whenTrue whenFalse t =>
    match eval env condition, eval env whenTrue, eval env whenFalse with
    | Some c, Some a, Some b =>
      match at_width 1 c, at_width (projT1 a) b with
      | Some c, Some b => any_state <$> returned (FS.select c (projT2 a) b)
      | _, _ => None
      end
    | _, _, _ => None
    end
  | BitsExtractOp low input t =>
    match type_width t, static_number low, eval env input with
    | Some W, Some n, Some x => any_state <$> returned (FS.fs_extract W (projT2 x) (ap_bits (aps_int n)))
    | _, _, _ => None
    end
  | BitsUnaryOp input _ =>
    match eval env input with
    | Some x => any_state <$> returned (FS.bit_not (projT2 x))
    | None => None
    end
  | BitsCompareOp predicate lhs rhs _ =>
    match eval env lhs, eval env rhs, emit_predicate predicate with
    | Some a, Some b, Some p =>
      match at_width (projT1 a) b with
      | Some b => any_state <$> returned (FS.compare p (projT2 a) b)
      | None => None
      end
    | _, _, _ => None
    end
  | BitsConcatOp operands _ =>
    match eval env <$> operands with
    | [] => None
    | first :: rest => foldl emit_concat first rest
    end
  end.
End Eval.
