(* ===== verification/HardwareIrSpec.v ===== *)
(** * Emitted expressions on known integers

    [carries x z]: every bit of the four-state value [x] is known and is that
    of the integer [z], so [x] is [z] modulo [2^W].  The emitted functions
    compute with such values as integer arithmetic does. *)

From Stdlib Require Import ZArith Lia String.
From stdpp Require Import base list numbers strings.
From S2P Require Import Prelude ModelInput ConfigSpec CompilerPrelude ApInt ValueSemantics ValueSemanticsSpec HardwareTypes HardwareIr.
From S2P Require Import Bits BitsLogic BitsShift BitsArith FourState FourStateSpec.

Open Scope Z_scope.

Definition carries {W} (x : FourState W) (z : Z) : Prop :=
  fs_wf x /\ forall n, 0 <= n < W -> lane x n = of_bool (Z.testbit z n).

Lemma known4_of_bool b : known4 (of_bool b) = true.
Proof. destruct b; reflexivity. Qed.

Section Width.
Context {W : Z} {HW : PosWidth W}.

Lemma carries_known (x : FourState W) z :
  carries x z <-> fs_wf x /\ FS.isFullyKnown x = true /\ bval (value_ x) = z mod 2 ^ W.
Proof using HW.
  unfold carries. split.
  - intros [Hwf Hl]. split; [exact Hwf|]. assert (Hk : FS.isFullyKnown x = true).
    { apply isFullyKnown_spec; [exact Hwf|]. intros n Hn. rewrite Hl by exact Hn. apply known4_of_bool. }
    split; [exact Hk|]. pose proof (isFullyKnown_eq x Hwf Hk) as E. apply Z.bits_inj'. intros n Hn.
    rewrite Z.testbit_mod_pow2 by (unfold PosWidth in HW; lia). destruct (Z.ltb_spec n W); cbn [andb].
    + specialize (Hl n ltac:(lia)). rewrite E, lane_fs_of in Hl by lia. destruct (Z.testbit z n), (Z.testbit (bval (value_ x)) n); (reflexivity || discriminate).
    + apply bval_testbit_high; [apply Hwf|lia].
  - intros (Hwf & Hk & Hv). split; [exact Hwf|]. intros n Hn. rewrite (isFullyKnown_eq x Hwf Hk), lane_fs_of by lia.
    rewrite Hv, Z.testbit_mod_pow2 by lia. destruct (Z.ltb_spec n W); [|lia]. cbn [andb]. destruct (Z.testbit z n); reflexivity.
Qed.

Lemma carries_mod (x : FourState W) z z' : carries x z -> z mod 2 ^ W = z' mod 2 ^ W -> carries x z'.
Proof using HW. rewrite !carries_known. intros (H1 & H2 & H3) <-. auto. Qed.

Lemma carries_fs_of (v : Bits W) z : bits_wf v -> bval v = z mod 2 ^ W -> carries (fs_of v) z.
Proof using HW. intros Hv E. apply carries_known. split; [apply known_ok, Hv|]. split; [apply fs_of_fullyKnown|exact E]. Qed.

Lemma carries_value (x : FourState W) z : carries x z -> 0 <= z < 2 ^ W -> bval (value_ x) = z.
Proof using HW. rewrite carries_known. intros (_ & _ & ->) Hz. apply Z.mod_small, Hz. Qed.
End Width.

(** The function returns a value that carries [z]. *)
Definition gives {W} (m : outcome (FourState W)) (z : Z) : Prop := exists r, m = Ret r /\ carries r z.

Lemma gives_returns {W} (m : outcome (FourState W)) spec z :
  returns m spec -> (forall n, 0 <= n < W -> spec n = of_bool (Z.testbit z n)) -> gives m z.
Proof. intros (r & E & Hwf & Hl) Hs. exists r. split; [exact E|]. split; [exact Hwf|]. intros n Hn. rewrite Hl, Hs by exact Hn. reflexivity. Qed.

(** ** Operators of one width *)

Section Operators.
Context {W : Z} {HW : PosWidth W}.
Implicit Types x y : FourState W.

Lemma carries_both x y a b : carries x a -> carries y b ->
  both_known x y = true /\ bval (value_ x) = a mod 2 ^ W /\ bval (value_ y) = b mod 2 ^ W.
Proof using HW. rewrite !carries_known. intros (_ & E1 & V1) (_ & E2 & V2). unfold both_known. rewrite E1, E2. auto. Qed.

(** A pessimistic operator of known operands. *)
Lemma gives_known (m : outcome (FourState W)) x y a b (ok : bool) (r : Bits W) z :
  carries x a -> carries y b ->
  m = Ret (if both_known x y && ok then fs_of r else fs_x (bits_of_word W 0)) -> ok = true ->
  bits_wf r -> bval r = z mod 2 ^ W -> gives m z.
Proof using HW.
  intros Ha Hb -> -> Hr Er. destruct (carries_both x y a b Ha Hb) as (-> & _). cbn [andb].
  eexists. split; [reflexivity|]. apply carries_fs_of; assumption.
Qed.

Lemma gives_add x y a b : carries x a -> carries y b -> gives (FS.add x y) (a + b).
Proof using HW.
  intros Ha Hb. destruct (carries_both x y a b Ha Hb) as (_ & Ex & Ey). pose proof (proj1 Ha). pose proof (proj1 Hb).
  destruct (bits_add_spec (value_ x) (value_ y)) as [Hw Hv]; [apply fs_wf_value; assumption..|].
  eapply gives_known; [exact Ha|exact Hb|apply fs_add_spec; assumption|reflexivity|exact Hw|].
  rewrite Hv, Ex, Ey. symmetry. apply Zplus_mod.
Qed.

Lemma gives_sub x y a b : carries x a -> carries y b -> gives (FS.sub x y) (a - b).
Proof using HW.
  intros Ha Hb. destruct (carries_both x y a b Ha Hb) as (_ & Ex & Ey). pose proof (proj1 Ha). pose proof (proj1 Hb).
  destruct (bits_sub_spec (value_ x) (value_ y)) as [Hw Hv]; [apply fs_wf_value; assumption..|].
  eapply gives_known; [exact Ha|exact Hb|apply fs_sub_spec; assumption|reflexivity|exact Hw|].
  rewrite Hv, Ex, Ey. symmetry. apply Zminus_mod.
Qed.

Lemma gives_mul x y a b : carries x a -> carries y b -> gives (FS.mul x y) (a * b).
Proof using HW.
  intros Ha Hb. destruct (carries_both x y a b Ha Hb) as (_ & Ex & Ey). pose proof (proj1 Ha). pose proof (proj1 Hb).
  destruct (bits_mul_spec (value_ x) (value_ y)) as [Hw Hv]; [apply fs_wf_value; assumption..|].
  eapply gives_known; [exact Ha|exact Hb|apply fs_mul_spec; assumption|reflexivity|exact Hw|].
  rewrite Hv, Ex, Ey. symmetry. apply Zmult_mod.
Qed.

Lemma gives_and x y a b : carries x a -> carries y b -> gives (FS.bit_and x y) (Z.land a b).
Proof using HW.
  intros [Hx Lx] [Hy Ly]. eapply gives_returns; [apply bit_and_spec; assumption|]. intros n Hn. cbn beta.
  rewrite Lx, Ly, Z.land_spec by exact Hn. destruct (Z.testbit a n), (Z.testbit b n); reflexivity.
Qed.

Lemma gives_select (c : FourState 1) x y (b : bool) z1 z2 :
  carries c (Z.b2z b) -> carries x z1 -> carries y z2 -> gives (FS.select c x y) (if b then z1 else z2).
Proof using HW.
  intros [Hc Lc] [Hx Lx] [Hy Ly]. eapply gives_returns; [apply select_spec; assumption|]. intros n Hn. cbn beta.
  rewrite (Lc 0) by lia. destruct b; cbn; [apply Lx|apply Ly]; exact Hn.
Qed.
End Operators.

(** ** Changes of width *)

Section Resize.
Context {In Out : Z} {HI : PosWidth In} {HO : PosWidth Out}.
Implicit Type x : FourState In.

Lemma gives_zext x z : carries x z -> In <= Out -> 0 <= z < 2 ^ In -> gives (FS.zero_extend Out x) z.
Proof using HI HO.
  intros [Hx Lx] Hle Hz. unfold PosWidth in *. eapply gives_returns; [apply zero_extend_spec; assumption|]. intros n Hn. cbn beta.
  destruct (Z.ltb_spec n In); [apply Lx; lia|]. rewrite (is_u_testbit In z n) by (unfold is_u; lia). reflexivity.
Qed.

Lemma fits_signed_testbit w z n : 0 < w -> fits_signed w z -> w - 1 <= n -> Z.testbit z n = Z.testbit z (w - 1).
Proof.
  intros Hw Hf Hn. assert (E : forall m, w - 1 <= m -> Z.testbit z m = Z.testbit (Z.shiftr z (w - 1)) (m - (w - 1))).
  { intros m Hm. rewrite Z.shiftr_spec by lia. f_equal. lia. }
  rewrite (E n), (E (w - 1)) by lia. apply fits_signed_shiftr in Hf; [|exact Hw]. destruct Hf as [-> | ->].
  - rewrite !Z.bits_0. reflexivity.
  - rewrite !Z.bits_m1 by lia. reflexivity.
Qed.

Lemma gives_sext x z : carries x z -> In <= Out -> In mod 64 <> 0 -> fits_signed In z -> gives (FS.sign_extend Out x) z.
Proof using HI HO.
  intros [Hx Lx] Hle Hm Hz. unfold PosWidth in *. eapply gives_returns; [apply sign_extend_spec; assumption|]. intros n Hn. cbn beta.
  rewrite Lx by lia. f_equal. destruct (Z.ltb_spec n (In - 1)); [f_equal; lia|].
  replace (Z.min n (In - 1)) with (In - 1) by lia. symmetry. apply fits_signed_testbit; [lia|exact Hz|lia].
Qed.

Lemma gives_trunc x z : carries x z -> Out <= In -> gives (FS.truncate Out x) z.
Proof using HI HO.
  intros [Hx Lx] Hle. unfold PosWidth in *. eapply gives_returns; [apply truncate_spec; assumption|]. intros n Hn. cbn beta.
  apply Lx. lia.
Qed.

Lemma gives_extract x z low : carries x z -> 0 <= low -> Out + low <= In -> gives (FS.fs_extract Out x low) (z / 2 ^ low).
Proof using HI HO.
  intros [Hx Lx] Hl Hle. unfold PosWidth in *. eapply gives_returns; [apply fs_extract_spec; assumption|]. intros n Hn. cbn beta.
  rewrite Lx, <- Z.shiftr_div_pow2, Z.shiftr_spec by lia. reflexivity.
Qed.
End Resize.

(** ** Constants *)

Lemma init_words_spec n init : forall i ws, length ws = n ->
  init_words n (Z.of_nat i) init ws = take n (take i ws ++ init ++ drop (i + length init) ws).
Proof.
  induction init as [|w init IH]; intros i ws Hl; cbn [init_words length].
  - rewrite Nat.add_0_r. cbn [app]. rewrite take_drop, firstn_all2 by lia. reflexivity.
  - destruct (Z.leb_spec (Z.of_nat n) (Z.of_nat i)) as [Hge|Hlt].
    + rewrite firstn_app, firstn_all2 with (n := i) by lia. rewrite Hl, Nat.sub_diag. cbn [take].
      rewrite app_nil_r, firstn_all2 by lia. reflexivity.
    + replace (Z.of_nat i + 1) with (Z.of_nat (S i)) by lia. rewrite Nat2Z.id.
      rewrite IH by (rewrite length_insert; exact Hl). f_equal.
      rewrite (take_S_r _ i w) by (apply list_lookup_insert_eq; lia).
      rewrite take_insert_ge, drop_insert_lt by lia. rewrite <- app_assoc. cbn [app]. f_equal. f_equal. f_equal. f_equal. lia.
Qed.

Section Constant.
Context {W : Z} {HW : PosWidth W}.

Lemma bits_of_list_spec init : Forall (is_u 64) init ->
  bits_wf (bits_of_list W init) /\ bval (bits_of_list W init) = words_to_Z init mod 2 ^ W.
Proof using HW.
  intros Hf. set (ws := init_words (nWords W) 0 init (replicate (nWords W) 0)).
  pose proof (kWords_bounds (W := W)) as Hb. pose proof (nWords_kWords (W := W)) as Hn.
  assert (Ews : ws = take (nWords W) (init ++ replicate (nWords W - length init) 0)).
  { unfold ws. change 0 with (Z.of_nat 0) at 1. rewrite init_words_spec by apply length_replicate. cbn [take app Nat.add].
    rewrite drop_replicate. reflexivity. }
  assert (Hfs : Forall (is_u 64) (init ++ replicate (nWords W - length init) 0)).
  { apply Forall_app. split; [exact Hf|]. apply Forall_replicate. unfold is_u. lia. }
  assert (Hl : length ws = nWords W).
  { rewrite Ews, length_take, length_app, length_replicate. lia. }
  assert (Hfw : Forall (is_u 64) ws) by (rewrite Ews; apply Forall_take, Hfs).
  destruct (maskTop_spec (W := W) ws Hl Hfw) as [Hwf Hv]. split; [exact Hwf|].
  unfold bits_of_list. fold ws. rewrite Hv. apply Z.bits_inj'. intros n Hn0.
  rewrite !Z.testbit_mod_pow2 by (unfold PosWidth in HW; lia). destruct (Z.ltb_spec n W) as [Hlt|]; [|reflexivity]. cbn [andb].
  rewrite !words_to_Z_testbit by assumption. rewrite Ews.
  assert (n / 64 < kWords W) by (apply Z.div_lt_upper_bound; lia). assert (0 <= n / 64) by (apply Z.div_pos; lia).
  rewrite lookup_take_lt by lia. destruct (decide (Z.to_nat (n / 64) < length init)%nat) as [Hi|Hi].
  - rewrite lookup_app_l by exact Hi. reflexivity.
  - rewrite lookup_app_r, lookup_replicate_2, (lookup_ge_None_2 init) by lia. apply Z.bits_0.
Qed.
End Constant.

(** ** Literals and widths *)

Section Literals.
Context `{L : ApLib} {HL : ApLaws L}.
Variable evaluateStatic : StaticExpr -> option (FailureOr Attribute).
#[local] Abbreviation widthOf := (widthOf evaluateStatic).
#[local] Abbreviation eval := (eval evaluateStatic).

Lemma small_spelling z : small z -> Z.of_nat (length (spell z)) <= 2 ^ 30.
Proof.
  intros Hz. apply small_digits in Hz. unfold spell. destruct (Z.ltb_spec z 0).
  - rewrite Z.abs_neq in Hz by lia. cbn [length]. lia.
  - rewrite Z.abs_eq in Hz by lia. lia.
Qed.

Lemma small_u z : 0 <= z < 2 ^ 64 -> small z.
Proof. intros Hz. unfold small. transitivity 64; [|lia]. apply bit_length_le; lia. Qed.

Lemma respell s : small (aps_value s) -> aps_value (aps_of_string (aps_toString s)) = aps_value s.
Proof. intros Hs. rewrite aps_toString_law. apply aps_of_string_law, small_spelling, Hs. Qed.

Lemma knownInteger_literal at_ s : small (aps_value s) ->
  exists n, knownInteger evaluateStatic (Literal at_ (mathIntAttr s)) = inr n /\ aps_value n = aps_value s.
Proof. intros Hs. eexists. split; [reflexivity|]. apply respell, Hs. Qed.

Lemma aps_active s : 0 <= aps_value s -> getActiveBits (aps_int s) = bit_length (aps_value s).
Proof. intros Hs. rewrite getActiveBits_law, aps_value_nonneg by exact Hs. reflexivity. Qed.

(** The width of a type whose expression is a literal of an accepted width. *)
Lemma widthOf_literal at_ w : 0 < w <= u32_max -> widthOf (BitsType (Literal at_ (mathIntAttr (aps_getUnsigned w)))) = inr w.
Proof.
  intros Hw. unfold u32_max in Hw. assert (Hv : aps_value (aps_getUnsigned w) = w) by (apply aps_getUnsigned_law; unfold is_u; lia).
  unfold HardwareIr.widthOf. destruct (knownInteger_literal at_ (aps_getUnsigned w)) as (n & -> & En).
  { rewrite Hv. apply small_u. lia. }
  rewrite Hv in En. cbn [fbind]. rewrite aps_isNegative_law, aps_isZero_value, aps_active, En by lia.
  assert (bit_length w <= 32) by (apply bit_length_le; lia).
  destruct (Z.ltb_spec w 0), (Z.eqb_spec w 0), (Z.ltb_spec 32 (bit_length w)); try lia. cbn [orb].
  unfold success, wrapu. rewrite <- aps_value_nonneg, En, Z.mod_small by lia. reflexivity.
Qed.

Lemma widthOf_range t w : widthOf t = inr w -> 0 < w <= u32_max.
Proof.
  destruct t as [e| | | | |]; try discriminate. unfold HardwareIr.widthOf. intros H. apply fbind_inr in H as (n & _ & H).
  rewrite aps_isNegative_law, aps_isZero_value in H. destruct (Z.ltb_spec (aps_value n) 0); [discriminate|].
  destruct (Z.eqb_spec (aps_value n) 0); [discriminate|]. rewrite aps_active in H by lia.
  destruct (Z.ltb_spec 32 (bit_length (aps_value n))) as [|Hb]; [discriminate|]. injection H as <-.
  apply bit_length_le in Hb; [|lia|lia]. unfold wrapu, u32_max. rewrite <- aps_value_nonneg, Z.mod_small by lia. lia.
Qed.

(** ** Evaluation of expressions *)

(** The emitted expression is a [W]-bit value that carries [z]. *)
Definition evals (env : positive -> option AnyState) (v : Value) (W z : Z) : Prop :=
  exists x : FourState W, eval env v = Some (any_state x) /\ carries x z.

Lemma at_width_same {W} (x : FourState W) : at_width W (any_state x) = Some x.
Proof.
  unfold at_width. cbn [projT1 projT2 any_state]. destruct (decide (W = W)) as [E|]; [|congruence].
  rewrite (Eqdep_dec.UIP_dec Z.eq_dec E eq_refl). reflexivity.
Qed.

Lemma evals_gives {W} env v (m : outcome (FourState W)) z :
  eval env v = any_state <$> returned m -> gives m z -> evals env v W z.
Proof. intros E (r & -> & Hr). exists r. split; [exact E|exact Hr]. Qed.

Lemma type_width_some t w : widthOf t = inr w -> type_width evaluateStatic t = Some w.
Proof. unfold type_width. intros ->. reflexivity. Qed.

Lemma evals_binary env op a b W x y t z (f : FourState W -> FourState W -> outcome (FourState W)) :
  0 < W -> (forall p q : FourState W, emit_binary op p q = returned (f p q)) ->
  (forall p q, carries p x -> carries q y -> gives (f p q) z) ->
  evals env a W x -> evals env b W y -> evals env (BitsBinaryOp op a b t) W z.
Proof.
  intros HW He Hf (p & Ep & Hp) (q & Eq & Hq). eapply evals_gives; [|apply (Hf p q Hp Hq)].
  cbn [HardwareIr.eval]. rewrite Ep, Eq. cbn [projT1 projT2 any_state]. fold (any_state q). rewrite at_width_same, He. reflexivity.
Qed.

Lemma evals_resize env mode a In W x t z (f : FourState In -> outcome (FourState W)) :
  widthOf t = inr W -> (forall p : FourState In, emit_resize mode W p = returned (f p)) ->
  (forall p, carries p x -> gives (f p) z) -> evals env a In x -> evals env (BitsResizeOp mode a t) W z.
Proof.
  intros Ht He Hf (p & Ep & Hp). eapply evals_gives; [|apply (Hf p Hp)].
  cbn [HardwareIr.eval]. rewrite (type_width_some t W Ht), Ep. cbn [projT1 projT2 any_state]. rewrite He. reflexivity.
Qed.

Lemma evals_select env c a b W (d : bool) x y t : 0 < W ->
  evals env c 1 (Z.b2z d) -> evals env a W x -> evals env b W y ->
  evals env (BitsSelectOp c a b t) W (if d then x else y).
Proof.
  intros HW (r & Er & Hr) (p & Ep & Hp) (q & Eq & Hq).
  eapply evals_gives; [|apply (gives_select (HW := HW) r p q d x y Hr Hp Hq)].
  cbn [HardwareIr.eval]. rewrite Er, Ep, Eq. cbn [projT1 projT2 any_state]. fold (any_state r) (any_state q).
  rewrite !at_width_same. reflexivity.
Qed.

Lemma literal_words_value n : Forall (is_u 64) (literal_words n) /\ words_to_Z (literal_words n) = ap_bits (aps_int n).
Proof.
  pose proof (ap_bits_range (aps_int n)) as Hr. unfold literal_words. rewrite getActiveBits_law. set (v := ap_bits (aps_int n)) in *.
  set (k := Z.max 1 _). assert (Hf : Forall (is_u 64) ((fun i => Z.shiftr v (64 * Z.of_nat i) mod 2 ^ 64) <$> seq 0 (Z.to_nat k))).
  { apply Forall_fmap, Forall_true. intros i. apply Z.mod_pos_bound. lia. }
  split; [exact Hf|]. assert (Hk : v < 2 ^ (64 * k)).
  { apply bit_length_le; [lia|lia|]. pose proof (Z.div_mod (bit_length v) 64 ltac:(lia)). pose proof (Z.mod_pos_bound (bit_length v) 64 ltac:(lia)).
    unfold k. destruct (Z.eqb_spec (bit_length v mod 64) 0); lia. }
  apply Z.bits_inj'. intros m Hm. rewrite words_to_Z_testbit by assumption. rewrite list_lookup_fmap.
  pose proof (Z.div_mod m 64 ltac:(lia)). pose proof (Z.mod_pos_bound m 64 ltac:(lia)). pose proof (Z.div_pos m 64 ltac:(lia) ltac:(lia)).
  destruct (Z.ltb_spec (m / 64) k).
  - rewrite lookup_seq_lt by lia. cbn. rewrite Z.testbit_mod_pow2, Z.shiftr_spec by lia.
    destruct (Z.ltb_spec (m mod 64) 64); [|lia]. cbn [andb]. f_equal. lia.
  - rewrite lookup_seq_ge by lia. cbn. symmetry. apply (is_u_testbit (64 * k)); [lia|unfold is_u; lia|lia].
Qed.

Lemma evals_constant env e t W n : 0 < W -> widthOf t = inr W -> knownInteger evaluateStatic e = inr n ->
  evals env (BitsConstantOp e t) W (ap_bits (aps_int n)).
Proof.
  intros HW Ht He. destruct (literal_words_value n) as [Hf Hv]. destruct (bits_of_list_spec (HW := HW) _ Hf) as [Hwf Eb].
  exists (fs_of (bits_of_list W (literal_words n))). split.
  - cbn [HardwareIr.eval]. rewrite (type_width_some t W Ht). unfold static_number. rewrite He. unfold emit_constant.
    rewrite (proj1 (known_ok (HW := HW) _ Hwf)). reflexivity.
  - apply (carries_fs_of (HW := HW)); [exact Hwf|]. rewrite Eb, Hv. reflexivity.
Qed.

Lemma evals_extract env e a In t W n x : 0 < W -> 0 < In -> widthOf t = inr W -> knownInteger evaluateStatic e = inr n ->
  0 <= aps_value n -> W + aps_value n <= In -> evals env a In x ->
  evals env (BitsExtractOp e a t) W (x / 2 ^ aps_value n).
Proof.
  intros HW HI Ht He Hn Hle (p & Ep & Hp).
  eapply evals_gives; [|apply (gives_extract (HI := HI) (HO := HW) p x (aps_value n) Hp Hn Hle)].
  cbn [HardwareIr.eval]. rewrite (type_width_some t W Ht), Ep. unfold static_number. rewrite He, <- aps_value_nonneg by exact Hn. reflexivity.
Qed.
End Literals.
