(* ===== verification/NumericLowering.v ===== *)
(** * Lowering of mathematical integers: [compiler/lib/Compiler/NumericLowering.cpp]

    A source integer is carried by a bit vector and an interval it is known to
    lie in; the vector is two's complement when the interval has negative
    numbers and plain binary otherwise.  Each function computes the interval
    of its result, a width that holds operands and result, and creates the
    operations. *)

From Stdlib Require Import ZArith Lia String.
From stdpp Require Import base list numbers strings.
From S2P Require Import Prelude ModelInput ConfigSpec CompilerPrelude ApInt ValueSemantics HardwareTypes HardwareIr.

Open Scope string_scope.
Open Scope Z_scope.

(** [verifySite]: what the checks of the site's origin and source span say. *)
Record NumericLoweringSite := mkSite { site_provenance : Provenance; verifySite : FailureOr unit }.

Section Lowering.
Context `{L : ApLib}.
Variable evaluateStatic : StaticExpr -> option (FailureOr Attribute).
#[local] Abbreviation widthOf := (widthOf evaluateStatic).
#[local] Abbreviation knownInteger := (knownInteger evaluateStatic).

(** [lower, upper) *)
Record IntegerInterval := mkInterval { lower : APSInt; upper : APSInt }.

Record NumericValue := mkNumeric {
  nv_value : option Value;
  sourceKind : option ValueKind;
  interval : option IntegerInterval;
  closedSourceConstant : option Attribute;
}.

(** The integer of a result attribute. *)
Definition calculate (opcode : ValueOpcode) (lhs rhs : APSInt) : FailureOr APSInt :=
  let! value := evaluateValue opcode [mathIntAttr lhs; mathIntAttr rhs] in
  match value with
  | MathIntAttr spelling => success (aps_of_string spelling)
  | _ => failure "integer operation did not produce an integer"
  end.

Definition intervalWidth (i : IntegerInterval) : FailureOr Z :=
  if 0 <=? compareValues (lower i) (upper i) then failure "integer interval must be nonempty"
  else
    let! maximum := calculate Sub (upper i) (aps_getUnsigned 1) in
    let width :=
      if aps_isNegative (lower i) then Z.max (signedWidth (lower i)) (signedWidth maximum)
      else Z.max 1 (getActiveBits (aps_int maximum)) in
    if u32_max <? width then failure "integer interval exceeds compiler representation capacity"
    else success width.

(** The SSA value, its interval and its width. *)
Definition checkValue (v : NumericValue) : FailureOr (Value * IntegerInterval * Z) :=
  match nv_value v, sourceKind v, interval v with
  | Some value, Some KindInteger, Some i =>
    let! width := widthOf (getType value) in
    let! required := intervalWidth i in
    if width <? required then failure "integer interval does not fit its SSA representation"
    else success (value, i, width)
  | _, _, _ => failure "mathematical arithmetic requires known Integer kind and finite interval"
  end.

Definition integerExpression (site : NumericLoweringSite) (integer : APSInt) : StaticExpr :=
  Literal (site_provenance site) (mathIntAttr integer).

Definition bitsType (site : NumericLoweringSite) (width : Z) : HwType :=
  BitsType (integerExpression site (aps_getUnsigned width)).

Definition widen (site : NumericLoweringSite) (value : Value) (i : IntegerInterval) (current width : Z) : Value :=
  if current =? width then value
  else BitsResizeOp (if aps_isNegative (lower i) then "sext" else "zext") value (bitsType site width).

Definition literalMask (value : Value) (i : IntegerInterval) : option APSInt :=
  match value with
  | BitsConstantOp e t =>
    match knownInteger e, widthOf t with
    | inr integer, inr width =>
      if aps_isNegative integer || (width <? getActiveBits (aps_int integer)) then None
      else
        let integer :=
          if aps_isNegative (lower i) then aps (zextOrTrunc (aps_int integer) width) false else integer in
        if (compareValues integer (lower i) <? 0) || (0 <=? compareValues integer (upper i)) then None
        else Some integer
    | _, _ => None
    end
  | _ => None
  end.

Definition nonnegative_mask (mask : option APSInt) : option APSInt :=
  match mask with Some m => if aps_isNegative m then None else Some m | None => None end.

(** [std::min_element] and [std::max_element] with [compareValues]. *)
Definition min_element (first : APSInt) (rest : list APSInt) : APSInt :=
  foldl (fun best x => if compareValues x best <? 0 then x else best) first rest.
Definition max_element (first : APSInt) (rest : list APSInt) : APSInt :=
  foldl (fun best x => if compareValues best x <? 0 then x else best) first rest.

(** The interval of the result and the opcode, by source opcode. *)
Definition and_interval (lv : Value) (li : IntegerInterval) (rv : Value) (ri : IntegerInterval)
  : FailureOr (IntegerInterval * string) :=
  let mask :=
    match nonnegative_mask (literalMask rv ri) with
    | Some m => Some m
    | None => nonnegative_mask (literalMask lv li)
    end in
  match mask with
  | None => failure "mathematical AND requires an actual known nonnegative integer constant mask"
  | Some m =>
    let! up := calculate Add m (aps_getUnsigned 1) in
    success (mkInterval (aps_getUnsigned 0) up, "and")
  end.

Definition mul_interval (li ri : IntegerInterval) : FailureOr (IntegerInterval * string) :=
  let! leftMax := calculate Sub (upper li) (aps_getUnsigned 1) in
  let! rightMax := calculate Sub (upper ri) (aps_getUnsigned 1) in
  let! ll := calculate Mul (lower li) (lower ri) in
  let! lr := calculate Mul (lower li) rightMax in
  let! rl := calculate Mul leftMax (lower ri) in
  let! rr := calculate Mul leftMax rightMax in
  let! up := calculate Add (max_element ll [lr; rl; rr]) (aps_getUnsigned 1) in
  success (mkInterval (min_element ll [lr; rl; rr]) up, "mul").

Definition add_interval (li ri : IntegerInterval) : FailureOr (IntegerInterval * string) :=
  let! low := calculate Add (lower li) (lower ri) in
  let! up := calculate Add (upper li) (upper ri) in
  let! adjusted := calculate Sub up (aps_getUnsigned 1) in
  success (mkInterval low adjusted, "add").

Definition sub_interval (li ri : IntegerInterval) : FailureOr (IntegerInterval * string) :=
  let! low := calculate Sub (lower li) (upper ri) in
  let! up := calculate Sub (upper li) (lower ri) in
  let! adjusted := calculate Add low (aps_getUnsigned 1) in
  success (mkInterval adjusted up, "sub").

(** A width for the result and both operands; an unsigned operand of a signed
    operation needs one more bit. *)
Definition common_width (resultWidth : Z) (li : IntegerInterval) (leftWidth : Z)
    (ri : IntegerInterval) (rightWidth : Z) : Z :=
  let signedOperands := aps_isNegative (lower li) || aps_isNegative (lower ri) in
  let room (i : IntegerInterval) := if signedOperands && negb (aps_isNegative (lower i)) then 1 else 0 in
  Z.max resultWidth (Z.max (u64_add leftWidth (room li)) (u64_add rightWidth (room ri))).

(** An operand of the full width already has the normalised type. *)
Definition normalized (site : NumericLoweringSite) (value : Value) (width fullWidth : Z) : bool :=
  negb ((width =? fullWidth) && negb (areEquivalentHardwareTypes (getType value) (bitsType site fullWidth))).

Definition lowerExactIntegerBinary (site : NumericLoweringSite) (opcode : ValueOpcode) (lhs rhs : NumericValue)
  : FailureOr NumericValue :=
  let! ok := verifySite site in
  match opcode with
  | Add | Sub | Mul | AndBits =>
    let! left := checkValue lhs in
    let! right := checkValue rhs in
    let '(lv, li, leftWidth) := left in
    let '(rv, ri, rightWidth) := right in
    let! shape :=
      match opcode with
      | AndBits => and_interval lv li rv ri
      | Mul => mul_interval li ri
      | Add => add_interval li ri
      | _ => sub_interval li ri
      end in
    let '(result, spelling) := shape in
    let! resultWidth := intervalWidth result in
    let fullWidth := common_width resultWidth li leftWidth ri rightWidth in
    if u32_max <? fullWidth then failure "integer operation exceeds compiler representation capacity"
    else if negb (normalized site lv leftWidth fullWidth && normalized site rv rightWidth fullWidth)
    then failure "integer representation proof requires normalized equal-width types"
    else
      let value := BitsBinaryOp spelling (widen site lv li leftWidth fullWidth) (widen site rv ri rightWidth fullWidth)
                     (bitsType site fullWidth) in
      success (mkNumeric (Some value) (Some KindInteger) (Some result) None)
  | _ => failure "unsupported exact integer binary operation"
  end.

(** ** Selection *)

Inductive SelectArm := Then | Else.

Record PreparedIntegerSelect := mkPrepared {
  whenTrue : Value * IntegerInterval;
  whenFalse : Value * IntegerInterval;
  resultType : HwType;
  resultInterval : IntegerInterval;
  trueWidth : Z;
  falseWidth : Z;
  resultWidth : Z;
}.

Definition hull (a b : IntegerInterval) : IntegerInterval :=
  mkInterval (if compareValues (lower a) (lower b) <? 0 then lower a else lower b)
             (if 0 <? compareValues (upper a) (upper b) then upper a else upper b).

Definition prepareExactIntegerSelect (site : NumericLoweringSite) (condition yes no : NumericValue)
  : FailureOr PreparedIntegerSelect :=
  let! ok := verifySite site in
  match nv_value condition with
  | Some c =>
    if negb (bool_decide (sourceKind condition = Some KindBoolean))
    then failure "integer select requires authoritative Boolean condition kind"
    else if negb (areEquivalentHardwareTypes (getType c) (bitsType site 1))
    then failure "integer select condition requires canonical one-bit Bits"
    else
      let! t := checkValue yes in
      let! f := checkValue no in
      let '(tv, ti, tw) := t in
      let '(fv, fi, fw) := f in
      let result := hull ti fi in
      let! required := intervalWidth result in
      let fullWidth := common_width required ti tw fi fw in
      if u32_max <? fullWidth then failure "integer select exceeds compiler representation capacity"
      else if negb (normalized site tv tw fullWidth && normalized site fv fw fullWidth)
      then failure "integer select representation proof requires normalized equal-width types"
      else success (mkPrepared (tv, ti) (fv, fi) (bitsType site fullWidth) result tw fw fullWidth)
  | None => failure "integer select requires authoritative Boolean condition kind"
  end.

Definition materializeExactIntegerSelectArm (site : NumericLoweringSite) (p : PreparedIntegerSelect)
    (arm : SelectArm) : FailureOr Value :=
  let! ok := verifySite site in
  match arm with
  | Then => success (widen site (fst (whenTrue p)) (snd (whenTrue p)) (trueWidth p) (resultWidth p))
  | Else => success (widen site (fst (whenFalse p)) (snd (whenFalse p)) (falseWidth p) (resultWidth p))
  end.

Definition lowerExactIntegerSelect (site : NumericLoweringSite) (condition yes no : NumericValue)
  : FailureOr NumericValue :=
  let! p := prepareExactIntegerSelect site condition yes no in
  let! y := materializeExactIntegerSelectArm site p Then in
  let! n := materializeExactIntegerSelectArm site p Else in
  match nv_value condition with
  | Some c =>
    success (mkNumeric (Some (BitsSelectOp c y n (resultType p))) (Some KindInteger) (Some (resultInterval p)) None)
  | None => failure "integer select requires authoritative Boolean condition kind"
  end.

(** ** Right shift by a constant *)

Definition lowerExactIntegerShiftRight (site : NumericLoweringSite) (input : NumericValue) (count : APSInt)
  : FailureOr NumericValue :=
  let! ok := verifySite site in
  if aps_isNegative count then failure "integer right-shift count must be nonnegative"
  else
    let! checked := checkValue input in
    let '(value, i, inputWidth) := checked in
    if aps_isNegative (lower i)
    then failure "integer right shift requires a proven nonnegative input interval"
    else
      let! low := calculate Shr (lower i) count in
      let! maximum := calculate Sub (upper i) (aps_getUnsigned 1) in
      let! shiftedMaximum := calculate Shr maximum count in
      let! up := calculate Add shiftedMaximum (aps_getUnsigned 1) in
      let shifted := mkInterval low up in
      let! requiredWidth := intervalWidth shifted in
      let overshift := 0 <=? compareValues count (aps_getUnsigned inputWidth) in
      let amount := if overshift then 0 else wrapu 32 (ap_bits (aps_int count)) in
      let width := if overshift then 1 else wrapu 32 (inputWidth - amount) in
      if width <? requiredWidth then failure "integer right-shift interval does not fit its result width"
      else
        let result :=
          if overshift then BitsConstantOp (integerExpression site (aps_getUnsigned 0)) (bitsType site width)
          else BitsExtractOp (integerExpression site count) value
                 (if amount =? 0 then getType value else bitsType site width) in
        success (mkNumeric (Some result) (Some KindInteger) (Some shifted) None).

(** ** Return to a bit vector of a given type *)

Definition lowerExactIntegerBoundary (site : NumericLoweringSite) (v : NumericValue) (destination : HwType)
  : FailureOr Value :=
  let! ok := verifySite site in
  let! checked := checkValue v in
  let '(value, i, sourceWidth) := checked in
  let! targetWidth := widthOf destination in
  if targetWidth =? u32_max then failure "integer boundary exceeds compiler representation capacity"
  else
    let limit := aps (ap_setBit (ap_of (targetWidth + 1) 0) targetWidth) true in
    if aps_isNegative (lower i) || (0 <? compareValues (upper i) limit)
    then failure "integer interval is not proven within destination bounds"
    else if sourceWidth =? targetWidth
    then if negb (areEquivalentHardwareTypes (getType value) destination)
         then failure "integer boundary representation proof requires normalized equal-width types"
         else success value
    else success (BitsResizeOp (if targetWidth <? sourceWidth then "trunc" else "zext") value destination).

(** ** Interval of an arm chosen by an unsigned comparison *)

(** [value + 1], when the evaluator's precision for it fits. *)
Definition increment (value : APSInt) : option APSInt :=
  let precision := Z.max (u64_add (getActiveBits (aps_int value)) 1) 2 in
  if u32_max <=? precision then None
  else match calculate Add value (aps_getUnsigned 1) with inr r => Some r | inl _ => None end.

(** The predicate that holds when the arm is taken. *)
Definition arm_predicate (predicate : string) (selectedWhenTrue : bool) : option string :=
  if negb (bool_decide (predicate ∈ ["ult"; "ule"; "ugt"; "uge"; "eq"])) then None
  else if selectedWhenTrue then Some predicate
  else if decide (predicate = "eq") then None
  else if decide (predicate = "ult") then Some "uge"
  else if decide (predicate = "ule") then Some "ugt"
  else if decide (predicate = "ugt") then Some "ule"
  else Some "ult".

Definition original_ok (original : option IntegerInterval) (literalWidth : Z) : bool :=
  match original with
  | None => true
  | Some o =>
    let active := getActiveBits (aps_int (upper o)) in
    negb (aps_isNegative (lower o) || aps_isNegative (upper o) || (0 <=? compareValues (lower o) (upper o)) ||
          negb ((active <=? literalWidth) || (isPowerOf2 (aps_int (upper o)) && (active - 1 <=? literalWidth))))
  end.

Definition lower_to (upper : option APSInt) (bound : APSInt) : option APSInt :=
  match upper with
  | None => Some bound
  | Some u => if compareValues bound u <? 0 then Some bound else Some u
  end.
Definition raise_to (low bound : APSInt) : APSInt := if compareValues low bound <? 0 then bound else low.

(** The bounds after the comparison with the constant. *)
Definition refine_bounds (predicate : string) (low : APSInt) (up : option APSInt) (constant : APSInt)
  : option (APSInt * option APSInt) :=
  if bool_decide (predicate ∈ ["ule"; "ugt"; "eq"]) then
    match increment constant with
    | None => None
    | Some next =>
      let '(low, up) := if decide (predicate = "ugt") then (raise_to low next, up) else (low, lower_to up next) in
      Some (if decide (predicate = "eq") then raise_to low constant else low, up)
    end
  else if decide (predicate = "ult") then Some (low, lower_to up constant)
  else Some (if decide (predicate = "uge") then raise_to low constant else low, up).

Definition refineUnsignedSelectInterval (predicate : string) (selectedWhenTrue : bool)
    (original : option IntegerInterval) (literalWidth : Z) (comparisonConstant fallbackConstant : APSInt)
  : option IntegerInterval :=
  if (literalWidth =? 0) || aps_isNegative comparisonConstant || aps_isNegative fallbackConstant ||
     (literalWidth <? getActiveBits (aps_int comparisonConstant)) ||
     (literalWidth <? getActiveBits (aps_int fallbackConstant)) then None
  else if negb (original_ok original literalWidth) then None
  else
    match arm_predicate predicate selectedWhenTrue with
    | None => None
    | Some predicate =>
      let low := match original with Some o => lower o | None => aps_getUnsigned 0 end in
      let up := match original with Some o => Some (upper o) | None => None end in
      match refine_bounds predicate low up comparisonConstant with
      | Some (low, Some up) =>
        if 0 <=? compareValues low up then None
        else
          match increment fallbackConstant with
          | None => None
          | Some fallbackUpper =>
            Some (mkInterval (if compareValues low fallbackConstant <? 0 then low else fallbackConstant)
                             (if 0 <? compareValues up fallbackUpper then up else fallbackUpper))
          end
      | _ => None
      end
    end.
End Lowering.
