(* ===== verification/NumericLoweringSpec.v ===== *)
(** * Lowered integer arithmetic is exact

    [holds env n W z]: the numeric value [n] has a [W]-bit expression whose
    emitted code computes the integer [z], which lies in the interval of [n].
    The lowering functions keep this, so that the interval of every result is
    sound and the emitted bit-vector code computes the source integer. *)

From Stdlib Require Import ZArith Lia String.
From stdpp Require Import base list numbers strings.
From S2P Require Import Prelude ModelInput ConfigSpec CompilerPrelude ApInt ValueSemantics ValueSemanticsSpec HardwareTypes HardwareIr HardwareIrSpec NumericLowering.
From S2P Require Import Bits FourState FourStateSpec.

Open Scope Z_scope.

Lemma small_pow z k : 0 <= k <= 2 ^ 31 - 2 -> Z.abs z < 2 ^ k -> small z.
Proof. intros Hk Hz. unfold small. transitivity k; [|lia]. apply bit_length_le; lia. Qed.

Lemma small_signed_bits z : small z -> signed_bits z <= 2 ^ 31 - 1.
Proof. unfold small. intros H. pose proof (signed_bits_abs z). lia. Qed.

Lemma land_mask m x : 0 <= m -> 0 <= Z.land m x <= m.
Proof.
  intros Hm. split; [apply Z.land_nonneg; auto|]. assert (E : m - Z.land m x = Z.ldiff m (Z.land m x)).
  { apply Z.sub_nocarry_ldiff, Z.bits_inj'. intros n Hn. rewrite Z.ldiff_spec, Z.land_spec, Z.bits_0.
    destruct (Z.testbit m n), (Z.testbit x n); reflexivity. }
  pose proof (proj2 (Z.ldiff_nonneg m (Z.land m x)) (or_introl Hm)). lia.
Qed.

(** The extremes of a product are at the corners of its box. *)
Lemma product_corners a al ah b bl bh : al <= a <= ah -> bl <= b <= bh ->
  Z.min (Z.min (Z.min (al * bl) (al * bh)) (ah * bl)) (ah * bh) <= a * b <=
  Z.max (Z.max (Z.max (al * bl) (al * bh)) (ah * bl)) (ah * bh).
Proof.
  intros Ha Hb. assert (Hline : forall c x l h, l <= x <= h -> Z.min (c * l) (c * h) <= c * x <= Z.max (c * l) (c * h)).
  { intros c x l h Hx. destruct (Z.le_ge_cases 0 c); nia. }
  pose proof (Hline b a al ah Ha). pose proof (Hline al b bl bh Hb). pose proof (Hline ah b bl bh Hb). lia.
Qed.

Section Spec.
Context `{L : ApLib} {HL : ApLaws L}.
Variable evaluateStatic : StaticExpr -> option (FailureOr Attribute).
#[local] Abbreviation widthOf := (widthOf evaluateStatic).
#[local] Abbreviation evals := (evals evaluateStatic).
#[local] Abbreviation checkValue := (checkValue evaluateStatic).

(** ** Interval arithmetic *)

Lemma calculate_exact op a b z :
  small (aps_value a) -> small (aps_value b) -> small z -> op <> Shl ->
  int_op op (aps_value a) (aps_value b) = Some (VInt z) ->
  exists r, calculate op a b = inr r /\ aps_value r = z.
Proof.
  intros Ha Hb Hz Hop E. unfold calculate. rewrite !mathIntAttr_spec.
  change [attr_of (VInt (aps_value a)); attr_of (VInt (aps_value b))]
    with (attr_of <$> [VInt (aps_value a); VInt (aps_value b)]).
  assert (Hv : value_spec op [VInt (aps_value a); VInt (aps_value b)] = Some (VInt z)).
  { destruct op; exact E || discriminate E. }
  rewrite (evaluateValue_complete op _ _ Hv) by (split; [repeat constructor; assumption|congruence]).
  cbn [fbind attr_of]. eexists. split; [reflexivity|]. apply aps_of_string_law, small_spelling, Hz.
Qed.

Lemma getUnsigned_value z : 0 <= z < 2 ^ 64 -> aps_value (aps_getUnsigned z) = z.
Proof. intros Hz. apply aps_getUnsigned_law. exact Hz. Qed.

Lemma one_small : small (aps_value (aps_getUnsigned 1)).
Proof. rewrite getUnsigned_value by lia. apply small_u. lia. Qed.

(** The bits the integers of [lo, hi) need. *)
Definition interval_bits (lo hi : Z) : Z :=
  if lo <? 0 then Z.max (signed_bits lo) (signed_bits (hi - 1)) else Z.max 1 (bit_length (hi - 1)).

#[local] Abbreviation lo i := (aps_value (lower i)).
#[local] Abbreviation hi i := (aps_value (upper i)).

Lemma interval_bits_pos l h : 1 <= interval_bits l h.
Proof. unfold interval_bits. pose proof (signed_bits_pos l). destruct (l <? 0); lia. Qed.

Lemma interval_bits_nonneg l h w : 0 <= l -> l < h -> 1 <= w -> interval_bits l h <= w <-> h <= 2 ^ w.
Proof.
  intros Hl Hh Hw. unfold interval_bits. destruct (Z.ltb_spec l 0); [lia|].
  pose proof (bit_length_le (h - 1) w). lia.
Qed.

Lemma interval_bits_neg l h w : l < 0 -> l < h -> 1 <= w -> interval_bits l h <= w <-> - 2 ^ w <= 2 * l /\ 2 * (h - 1) < 2 ^ w.
Proof.
  intros Hl Hh Hw. unfold interval_bits. destruct (Z.ltb_spec l 0); [|lia].
  rewrite Z.max_lub_iff, <- !fits_signed_bits by lia. unfold fits_signed. pose proof (Z.pow_pos_nonneg 2 w). lia.
Qed.

(** Both bounds are within [2^w] of zero. *)
Lemma interval_bits_abs l h w : l < h -> 1 <= w -> interval_bits l h <= w -> - 2 ^ w <= l /\ h <= 2 ^ w.
Proof.
  intros Hh Hw. pose proof (Z.pow_pos_nonneg 2 w). destruct (Z.ltb_spec l 0) as [Hl|Hl].
  - rewrite interval_bits_neg by lia. assert (2 <= 2 ^ w) by (change 2 with (2 ^ 1) at 1; apply Z.pow_le_mono_r; lia). lia.
  - rewrite interval_bits_nonneg by lia. lia.
Qed.

Lemma interval_bits_small l h : small l -> small h -> l < h -> interval_bits l h <= 2 ^ 31.
Proof.
  intros Hl Hh Hlt. unfold interval_bits. apply small_signed_bits in Hl as Hsl.
  assert (Hm : bit_length (Z.abs (h - 1)) <= 2 ^ 31 - 1).
  { unfold small in Hh. set (k := 2 ^ 31 - 2) in *. replace (2 ^ 31 - 1) with (k + 1) by reflexivity.
    apply bit_length_le in Hh; [|lia|unfold k; lia]. apply bit_length_le; [lia|unfold k; lia|].
    rewrite Z.pow_add_r by (unfold k; lia). pose proof (Z.pow_pos_nonneg 2 k ltac:(lia) ltac:(unfold k; lia)). clearbody k. lia. }
  pose proof (signed_bits_abs (h - 1)). destruct (Z.ltb_spec l 0); [lia|].
  rewrite Z.abs_eq in Hm by lia. lia.
Qed.

Lemma intervalWidth_spec i : small (lo i) -> small (hi i) -> small (hi i - 1) -> lo i < hi i ->
  intervalWidth i = inr (interval_bits (lo i) (hi i)).
Proof.
  intros Hl Hh Hm Hlt. unfold intervalWidth. rewrite compareValues_law. destruct (Z.compare_spec (lo i) (hi i)); try lia.
  change (0 <=? -1) with false. cbn beta iota.
  destruct (calculate_exact Sub (upper i) (aps_getUnsigned 1) (hi i - 1)) as (r & -> & Er);
    [exact Hh|apply one_small|exact Hm|discriminate|cbn; rewrite getUnsigned_value by lia; reflexivity|].
  cbn [fbind]. rewrite !signedWidth_spec, aps_isNegative_law, Er. pose proof (interval_bits_small _ _ Hl Hh Hlt) as Hb.
  assert (E : (if lo i <? 0 then Z.max (signed_bits (lo i)) (signed_bits (hi i - 1))
               else Z.max 1 (getActiveBits (aps_int r))) = interval_bits (lo i) (hi i)).
  { unfold interval_bits. destruct (Z.ltb_spec (lo i) 0); [reflexivity|]. rewrite aps_active, Er by lia. reflexivity. }
  rewrite E. unfold u32_max. destruct (Z.ltb_spec (2 ^ 32 - 1) (interval_bits (lo i) (hi i))); [lia|reflexivity].
Qed.

(** ** Numeric values *)

(** An interval that [w] bits carry. *)
Definition fits (i : IntegerInterval) (w : Z) : Prop := lo i < hi i /\ interval_bits (lo i) (hi i) <= w.

Definition holds (env : positive -> option AnyState) (n : NumericValue) (W z : Z) : Prop :=
  exists v i, nv_value n = Some v /\ sourceKind n = Some KindInteger /\ interval n = Some i /\
    widthOf (getType v) = inr W /\ fits i W /\ lo i <= z < hi i /\ evals env v W z.

(** Widths for which no precision counter runs over. *)
Definition moderate (w : Z) : Prop := 0 < w < 2 ^ 29.

Lemma pow_le_small z w : 0 <= w <= 2 ^ 31 - 4 -> Z.abs z <= 2 ^ w -> small z.
Proof.
  intros Hw Hz. apply (small_pow z (w + 1)); [lia|]. rewrite Z.pow_add_r by lia. pose proof (Z.pow_pos_nonneg 2 w). lia.
Qed.

Lemma fits_small i w : moderate w -> fits i w -> small (lo i) /\ small (hi i) /\ small (hi i - 1).
Proof.
  intros Hw [Hlt Hb]. unfold moderate in Hw. destruct (interval_bits_abs _ _ w Hlt ltac:(lia) Hb).
  assert (Hp : 0 < 2 ^ w) by (apply Z.pow_pos_nonneg; lia).
  split; [|split]; (apply (pow_le_small _ w); lia).
Qed.

Lemma checkValue_holds env n W z : moderate W -> holds env n W z ->
  exists v i, checkValue n = inr (v, i, W) /\ nv_value n = Some v /\ interval n = Some i /\
    widthOf (getType v) = inr W /\ fits i W /\ lo i <= z < hi i /\ evals env v W z.
Proof.
  intros HW (v & i & E1 & E2 & E3 & Ew & Hf & Hz & He). exists v, i. split; [|auto 8].
  destruct (fits_small i W HW Hf) as (Hl & Hh & Hm). unfold NumericLowering.checkValue. rewrite E1, E2, E3, Ew.
  cbn [fbind]. rewrite intervalWidth_spec by (assumption || apply Hf). cbn [fbind].
  destruct (Z.ltb_spec W (interval_bits (lo i) (hi i))); [|reflexivity]. destruct Hf; lia.
Qed.

(** ** Widening *)

Lemma bitsType_width site w : 0 < w <= u32_max -> widthOf (bitsType site w) = inr w.
Proof. apply widthOf_literal. Qed.

(** The runtime sign-extends wrongly from a whole number of words. *)
Definition extends (i : IntegerInterval) (w full : Z) : Prop := 0 <= lo i \/ w mod 64 <> 0 \/ w = full.

Lemma fits_range i w z : 0 < w -> fits i w -> lo i <= z < hi i ->
  (0 <= lo i -> 0 <= z < 2 ^ w) /\ (lo i < 0 -> fits_signed w z).
Proof.
  intros Hw [Hlt Hb] Hz. split; intros Hl.
  - apply interval_bits_nonneg in Hb; lia.
  - apply interval_bits_neg in Hb; [|lia..]. unfold fits_signed. lia.
Qed.

Lemma widen_evals env site v i w full z : 0 < w <= full -> full <= u32_max -> fits i w -> lo i <= z < hi i -> extends i w full ->
  evals env v w z -> evals env (widen site v i w full) full z.
Proof.
  intros Hw Hfull Hf Hz Hx He. unfold widen. destruct (Z.eqb_spec w full) as [->|Hne]; [exact He|].
  destruct (fits_range i w z ltac:(lia) Hf Hz) as [Hp Hn]. rewrite aps_isNegative_law.
  assert (HI : PosWidth w) by (unfold PosWidth; lia). assert (HO : PosWidth full) by (unfold PosWidth; lia).
  destruct (Z.ltb_spec (lo i) 0) as [Hl|Hl].
  - eapply evals_resize; [apply bitsType_width; lia|reflexivity| |exact He]. intros p Cp.
    apply gives_sext; [exact Cp|lia|unfold extends in Hx; lia|apply Hn, Hl].
  - eapply evals_resize; [apply bitsType_width; lia|reflexivity| |exact He]. intros p Cp.
    apply gives_zext; [exact Cp|lia|apply Hp, Hl].
Qed.

(** ** The intervals of results *)

Lemma moderate_u32 w : moderate w -> 0 < w <= u32_max.
Proof. unfold moderate, u32_max. lia. Qed.

(** What is known of the operands of a lowering. *)
Record operand (i : IntegerInterval) (w z : Z) : Prop := {
  op_moderate : moderate w;
  op_fits : fits i w;
  op_in : lo i <= z < hi i;
}.

(** The bounds of two operands in one power of two. *)
Lemma operand_bounds i wi a j wj b : operand i wi a -> operand j wj b ->
  exists k, moderate k /\ - 2 ^ k <= lo i < hi i /\ hi i <= 2 ^ k /\ - 2 ^ k <= lo j < hi j /\ hi j <= 2 ^ k.
Proof.
  intros [Hwi [Hi Bi] _] [Hwj [Hj Bj] _]. unfold moderate in *. exists (Z.max wi wj). split; [lia|].
  pose proof (interval_bits_abs _ _ (Z.max wi wj) Hi ltac:(lia) ltac:(lia)).
  pose proof (interval_bits_abs _ _ (Z.max wi wj) Hj ltac:(lia) ltac:(lia)). lia.
Qed.

Lemma calculate_within op a b z k :
  0 <= k <= 2 ^ 31 - 4 -> Z.abs (aps_value a) <= 2 ^ k -> Z.abs (aps_value b) <= 2 ^ k -> Z.abs z <= 2 ^ k -> op <> Shl ->
  int_op op (aps_value a) (aps_value b) = Some (VInt z) ->
  exists r, calculate op a b = inr r /\ aps_value r = z.
Proof. intros Hk Ha Hb Hz. apply calculate_exact; eapply pow_le_small; eassumption. Qed.

(** A result interval with a moderate number of bits. *)
Definition result_interval (shape : FailureOr (IntegerInterval * string)) (l h : Z) (spelling : string) : Prop :=
  exists i, shape = inr (i, spelling) /\ lo i = l /\ hi i = h.

Ltac calc_step k v :=
  match goal with
  | |- context [calculate ?op ?a ?b] =>
    let r := fresh "r" in let E := fresh "E" in let V := fresh "V" in
    destruct (calculate_within op a b v k) as (r & E & V);
    [lia|try lia|try lia|try lia|discriminate|cbn [int_op]; repeat f_equal; try lia|rewrite E; clear E; cbn [fbind]]
  end.

Lemma add_interval_spec i wi a j wj b : operand i wi a -> operand j wj b ->
  result_interval (add_interval i j) (lo i + lo j) (hi i + hi j - 1) "add".
Proof.
  intros Hi Hj. destruct (operand_bounds i wi a j wj b Hi Hj) as (k & Hk & Bi & Bi' & Bj & Bj'). unfold moderate in Hk.
  assert (Hp : 2 ^ (k + 2) = 4 * 2 ^ k) by (rewrite Z.pow_add_r by lia; lia). pose proof (Z.pow_pos_nonneg 2 k).
  pose proof (getUnsigned_value 1 ltac:(lia)) as H1. unfold add_interval.
  calc_step (k + 2) (lo i + lo j). calc_step (k + 2) (hi i + hi j). calc_step (k + 2) (hi i + hi j - 1).
  eexists. split; [reflexivity|]. split; assumption.
Qed.

Lemma sub_interval_spec i wi a j wj b : operand i wi a -> operand j wj b ->
  result_interval (sub_interval i j) (lo i - hi j + 1) (hi i - lo j) "sub".
Proof.
  intros Hi Hj. destruct (operand_bounds i wi a j wj b Hi Hj) as (k & Hk & Bi & Bi' & Bj & Bj'). unfold moderate in Hk.
  assert (Hp : 2 ^ (k + 2) = 4 * 2 ^ k) by (rewrite Z.pow_add_r by lia; lia). pose proof (Z.pow_pos_nonneg 2 k).
  pose proof (getUnsigned_value 1 ltac:(lia)) as H1. unfold sub_interval.
  calc_step (k + 2) (lo i - hi j). calc_step (k + 2) (hi i - lo j). calc_step (k + 2) (lo i - hi j + 1).
  eexists. split; [reflexivity|]. split; assumption.
Qed.

Lemma min_element_value x l : aps_value (min_element x l) = foldl (fun m y => Z.min m (aps_value y)) (aps_value x) l.
Proof.
  unfold min_element. revert x. induction l as [|y l IH]; intros x; cbn [foldl]; [reflexivity|]. rewrite IH. f_equal.
  rewrite compareValues_law. destruct (Z.compare_spec (aps_value y) (aps_value x)); cbn; lia.
Qed.

Lemma max_element_value x l : aps_value (max_element x l) = foldl (fun m y => Z.max m (aps_value y)) (aps_value x) l.
Proof.
  unfold max_element. revert x. induction l as [|y l IH]; intros x; cbn [foldl]; [reflexivity|]. rewrite IH. f_equal.
  rewrite compareValues_law. destruct (Z.compare_spec (aps_value x) (aps_value y)); cbn; lia.
Qed.

Definition min4 (a b c d : Z) : Z := Z.min (Z.min (Z.min a b) c) d.
Definition max4 (a b c d : Z) : Z := Z.max (Z.max (Z.max a b) c) d.

Lemma max4_abs a b c d q : Z.abs a <= q -> Z.abs b <= q -> Z.abs c <= q -> Z.abs d <= q -> Z.abs (max4 a b c d) <= q.
Proof. unfold max4. lia. Qed.

Lemma min4_abs a b c d q : Z.abs a <= q -> Z.abs b <= q -> Z.abs c <= q -> Z.abs d <= q -> Z.abs (min4 a b c d) <= q.
Proof. unfold min4. lia. Qed.

Lemma abs_product x y q : Z.abs x <= q -> Z.abs y <= q -> Z.abs (x * y) <= q * q.
Proof. intros Hx Hy. rewrite Z.abs_mul. apply Z.mul_le_mono_nonneg; [apply Z.abs_nonneg|exact Hx|apply Z.abs_nonneg|exact Hy]. Qed.

Lemma abs_twice v q : 0 < q -> Z.abs v <= q * q -> Z.abs v <= 2 * (q * q) /\ Z.abs (v + 1) <= 2 * (q * q).
Proof. intros Hq Hv. assert (1 <= q * q) by nia. lia. Qed.

(** Every number of a product of intervals is moderate. *)
Lemma product_bounds i wi a j wj b : operand i wi a -> operand j wj b ->
  let m := hi i - 1 in let n := hi j - 1 in
  let bottom := min4 (lo i * lo j) (lo i * n) (m * lo j) (m * n) in
  let top := max4 (lo i * lo j) (lo i * n) (m * lo j) (m * n) in
  exists K, 0 <= K <= 2 ^ 31 - 4 /\
    Forall (fun v => Z.abs v <= 2 ^ K)
      [1; lo i; hi i; m; lo j; hi j; n; lo i * lo j; lo i * n; m * lo j; m * n; bottom; top; top + 1].
Proof.
  intros Hi Hj m n bottom top. destruct (operand_bounds i wi a j wj b Hi Hj) as (k & Hk & Bi & Bi' & Bj & Bj').
  unfold moderate in Hk. exists (2 * k + 1). split; [lia|].
  pose proof (Z.pow_pos_nonneg 2 k ltac:(lia) ltac:(lia)) as Hq.
  replace (2 ^ (2 * k + 1)) with (2 * (2 ^ k * 2 ^ k))
    by (replace (2 * k + 1) with (1 + (k + k)) by lia; rewrite !Z.pow_add_r by lia; reflexivity).
  clear Hi Hj Hk. generalize dependent (2 ^ k). intros q Bi Bi' Bj Bj' Hq.
  assert (Hli : Z.abs (lo i) <= q) by lia. assert (Hlj : Z.abs (lo j) <= q) by lia.
  assert (Hmi : Z.abs m <= q) by (unfold m; lia). assert (Hnj : Z.abs n <= q) by (unfold n; lia).
  pose proof (abs_product _ _ _ Hli Hlj) as P1. pose proof (abs_product _ _ _ Hli Hnj) as P2.
  pose proof (abs_product _ _ _ Hmi Hlj) as P3. pose proof (abs_product _ _ _ Hmi Hnj) as P4.
  pose proof (max4_abs _ _ _ _ _ P1 P2 P3 P4) as P5. pose proof (min4_abs _ _ _ _ _ P1 P2 P3 P4) as P6.
  assert (Hsq : forall v, Z.abs v <= q -> Z.abs v <= 2 * (q * q)) by (clear; intros v Hv; pose proof (Z.abs_nonneg v); nia).
  assert (Hb : forall v, Z.abs v <= q * q -> Z.abs v <= 2 * (q * q)) by (intros v Hv; apply (abs_twice v q Hq Hv)).
  repeat first [apply List.Forall_cons | apply List.Forall_nil]; try (apply Hb; assumption); try (apply Hsq; first [assumption|clear - Bi Bi' Bj Bj' Hq; lia]).
  apply abs_twice; assumption.
Qed.

Ltac known_values := repeat match goal with V : aps_value ?r = _ |- context [aps_value ?r] => rewrite V end.

(** One computation whose operands and result are among the bounded numbers. *)
Ltac calc_bounded K v :=
  match goal with
  | |- context [calculate ?op ?a ?b] =>
    let r := fresh "r" in let E := fresh "E" in let V := fresh "V" in
    destruct (calculate_within op a b v K) as (r & E & V);
    [assumption|known_values; assumption|known_values; assumption|assumption|discriminate
    |cbn [int_op]; known_values; reflexivity|rewrite E; clear E; cbn [fbind]]
  end.

Lemma mul_interval_spec i wi a j wj b : operand i wi a -> operand j wj b ->
  let m := hi i - 1 in let n := hi j - 1 in
  result_interval (mul_interval i j) (min4 (lo i * lo j) (lo i * n) (m * lo j) (m * n))
    (max4 (lo i * lo j) (lo i * n) (m * lo j) (m * n) + 1) "mul".
Proof.
  intros Hi Hj m n. destruct (product_bounds i wi a j wj b Hi Hj) as (K & HK & HF). rewrite !Forall_cons in HF.
  fold m n in HF. destruct HF as (? & ? & ? & ? & ? & ? & ? & ? & ? & ? & ? & ? & ? & ? & _).
  pose proof (getUnsigned_value 1 ltac:(lia)) as H1'. unfold mul_interval. calc_bounded K m. calc_bounded K n.
  calc_bounded K (lo i * lo j). calc_bounded K (lo i * n). calc_bounded K (m * lo j). calc_bounded K (m * n).
  assert (Emax : aps_value (max_element r1 [r2; r3; r4]) = max4 (lo i * lo j) (lo i * n) (m * lo j) (m * n)).
  { rewrite max_element_value. cbn [foldl]. rewrite V1, V2, V3, V4. reflexivity. }
  calc_bounded K (max4 (lo i * lo j) (lo i * n) (m * lo j) (m * n) + 1).
  eexists. split; [reflexivity|]. cbn [lower upper]. split; [|assumption].
  rewrite min_element_value. cbn [foldl]. rewrite V1, V2, V3, V4. reflexivity.
Qed.

(** A mask that [literalMask] finds is the value of the constant. *)
Lemma literalMask_value env v i w z m : operand i w z -> widthOf (getType v) = inr w -> evals env v w z ->
  literalMask evaluateStatic v i = Some m -> aps_value m = z.
Proof.
  intros [Hw Hf Hz] Ew (x & Ex & Cx) Hm. unfold moderate in Hw. destruct v as [| e t | | | | | | |]; try discriminate Hm.
  cbn [literalMask getType] in *. destruct (knownInteger evaluateStatic e) as [|n] eqn:En; [discriminate|]. rewrite Ew in Hm.
  destruct (evals_constant evaluateStatic env e t w n ltac:(lia) Ew En) as (y & Ey & Cy). rewrite Ex in Ey.
  apply (inj Some) in Ey. apply (Eqdep_dec.inj_pair2_eq_dec _ Z.eq_dec) in Ey as <-.
  assert (HW : PosWidth w) by (unfold PosWidth; lia). rewrite carries_known in Cx, Cy.
  assert (E : ap_bits (aps_int n) mod 2 ^ w = z mod 2 ^ w) by (destruct Cx as (_ & _ & <-), Cy as (_ & _ & <-); reflexivity).
  clear Cx Cy Ex. rewrite !aps_isNegative_law in Hm. destruct (Z.ltb_spec (aps_value n) 0) as [|Hn]; [discriminate|]. cbn [orb] in Hm.
  rewrite aps_active in Hm by exact Hn. destruct (Z.ltb_spec w (bit_length (aps_value n))) as [|Hb]; [discriminate|].
  apply bit_length_le in Hb; [|lia|lia]. rewrite <- aps_value_nonneg in E by exact Hn.
  rewrite (Z.mod_small (aps_value n)) in E by lia. destruct (fits_range i w z ltac:(lia) Hf Hz) as [Hp Hs].
  destruct (Z.ltb_spec (lo i) 0) as [Hl|Hl].
  - destruct (_ || _) in Hm; [discriminate|]. injection Hm as <-. unfold aps_value.
    destruct (aps_parts (zextOrTrunc (aps_int n) w) false) as [-> ->]. unfold u32_max in *.
    apply (ap_is_signed _ w); [|apply Hs, Hl]. eapply ap_is_congr; [apply zextOrTrunc_law; lia|].
    rewrite <- aps_value_nonneg by exact Hn. rewrite E. apply Zmod_mod.
  - destruct (_ || _) in Hm; [discriminate|]. injection Hm as <-. rewrite (Z.mod_small z) in E by (apply Hp, Hl). exact E.
Qed.

Lemma and_interval_spec env lv li wl a rv ri wr b shape :
  operand li wl a -> operand ri wr b -> widthOf (getType lv) = inr wl -> widthOf (getType rv) = inr wr ->
  evals env lv wl a -> evals env rv wr b -> and_interval evaluateStatic lv li rv ri = inr shape ->
  exists m, result_interval (inr shape) 0 (m + 1) "and" /\ 0 <= Z.land a b <= m /\ (m = a \/ m = b).
Proof.
  intros Ha Hb Wl Wr El Er. unfold and_interval.
  set (mask := match nonnegative_mask (literalMask evaluateStatic rv ri) with Some m => Some m | None => nonnegative_mask (literalMask evaluateStatic lv li) end).
  destruct mask as [m|] eqn:Em; [|discriminate].
  assert (Hm : 0 <= aps_value m /\ (aps_value m = a \/ aps_value m = b)).
  { assert (Hnn : forall o, nonnegative_mask o = Some m -> o = Some m /\ 0 <= aps_value m).
    { intros [x|]; [|discriminate]. unfold nonnegative_mask. rewrite aps_isNegative_law. destruct (Z.ltb_spec (aps_value x) 0); [discriminate|].
      intros [= ->]. auto. }
    unfold mask in Em. destruct (nonnegative_mask (literalMask evaluateStatic rv ri)) as [m'|] eqn:E1.
    - injection Em as <-. destruct (Hnn _ E1) as [E2 Hp]. split; [exact Hp|]. right. eapply literalMask_value; eassumption.
    - destruct (Hnn _ Em) as [E2 Hp]. split; [exact Hp|]. left. eapply literalMask_value; eassumption. }
  destruct Hm as [Hp Hab]. destruct (operand_bounds _ _ _ _ _ _ Ha Hb) as (k & Hk & Bi & Bi' & Bj & Bj'). unfold moderate in Hk.
  pose proof (op_in _ _ _ Ha). pose proof (op_in _ _ _ Hb). pose proof (Z.pow_pos_nonneg 2 k ltac:(lia) ltac:(lia)).
  pose proof (getUnsigned_value 1 ltac:(lia)) as Hone. assert (Hkk : 2 ^ (k + 1) = 2 * 2 ^ k) by (rewrite Z.pow_add_r by lia; lia).
  calc_step (k + 1) (aps_value m + 1). intros [= <-]. exists (aps_value m). split; [|split; [|exact Hab]].
  - eexists. split; [reflexivity|]. cbn [lower upper]. rewrite getUnsigned_value by lia. auto.
  - destruct Hab as [<- | <-]; [|rewrite Z.land_comm]; apply land_mask; exact Hp.
Qed.

(** ** Binary operations *)

Lemma common_width_spec rw li wl ri wr : moderate wl -> moderate wr -> rw <= 2 ^ 31 ->
  rw <= common_width rw li wl ri wr /\ wl <= common_width rw li wl ri wr /\ wr <= common_width rw li wl ri wr /\
  common_width rw li wl ri wr <= 2 ^ 31.
Proof.
  unfold moderate. intros Hl Hr Hw. unfold common_width, u64_add, u64, wrapu.
  set (s := aps_isNegative (lower li) || aps_isNegative (lower ri)).
  assert (Hroom : forall i w, 0 < w < 2 ^ 29 -> w <= (w + (if s && negb (aps_isNegative (lower i)) then 1 else 0)) mod 2 ^ 64 <= 2 ^ 30).
  { intros i w Hwd. rewrite Z.mod_small by (destruct (_ && _); lia). destruct (_ && _); lia. }
  pose proof (Hroom li wl Hl). pose proof (Hroom ri wr Hr). lia.
Qed.

(** The operation on the carried integers and its interval. *)
Definition arithmetic (op : ValueOpcode) (a b : Z) : Z :=
  match op with Add => a + b | Sub => a - b | Mul => a * b | _ => Z.land a b end.

Definition spelling_of (op : ValueOpcode) : string :=
  match op with Add => "add" | Sub => "sub" | Mul => "mul" | _ => "and" end.

Definition lowered (op : ValueOpcode) : Prop := op = Add \/ op = Sub \/ op = Mul \/ op = AndBits.

Lemma evals_arithmetic env op lv rv W a b t : 0 < W -> lowered op ->
  evals env lv W a -> evals env rv W b -> evals env (BitsBinaryOp (spelling_of op) lv rv t) W (arithmetic op a b).
Proof.
  intros HW Hop Hl Hr. destruct Hop as [-> | [-> | [-> | ->]]]; cbn [arithmetic spelling_of];
    (eapply evals_binary; [exact HW|reflexivity| |exact Hl|exact Hr]); intros p q Hp Hq.
  - apply (gives_add (HW := HW)); assumption.
  - apply (gives_sub (HW := HW)); assumption.
  - apply (gives_mul (HW := HW)); assumption.
  - apply (gives_and (HW := HW)); assumption.
Qed.

(** The shape chosen for an opcode: its interval holds the result. *)
Definition shape_of (op : ValueOpcode) lv li rv ri : FailureOr (IntegerInterval * string) :=
  match op with
  | AndBits => and_interval evaluateStatic lv li rv ri
  | Mul => mul_interval li ri
  | Add => add_interval li ri
  | _ => sub_interval li ri
  end.

Lemma shape_of_ring op lv li wl a rv ri wr b : op = Add \/ op = Sub \/ op = Mul ->
  operand li wl a -> operand ri wr b ->
  exists i, shape_of op lv li rv ri = inr (i, spelling_of op) /\ lo i <= arithmetic op a b < hi i /\
    small (lo i) /\ small (hi i) /\ small (hi i - 1).
Proof.
  intros Hop Ha Hb. pose proof (op_in _ _ _ Ha) as Ia. pose proof (op_in _ _ _ Hb) as Ib.
  destruct (operand_bounds _ _ _ _ _ _ Ha Hb) as (k & Hk & Bi & Bi' & Bj & Bj'). unfold moderate in Hk.
  pose proof (Z.pow_pos_nonneg 2 k ltac:(lia) ltac:(lia)) as Hp.
  assert (H2 : 2 ^ (k + 2) = 4 * 2 ^ k) by (rewrite Z.pow_add_r by lia; lia).
  destruct Hop as [-> | [-> | ->]]; cbn [shape_of arithmetic].
  - destruct (add_interval_spec _ _ _ _ _ _ Ha Hb) as (i & -> & El & Eh). exists i. rewrite El, Eh.
    split; [reflexivity|]. split; [lia|]. split_and!; apply (pow_le_small _ (k + 2)); lia.
  - destruct (sub_interval_spec _ _ _ _ _ _ Ha Hb) as (i & -> & El & Eh). exists i. rewrite El, Eh.
    split; [reflexivity|]. split; [lia|]. split_and!; apply (pow_le_small _ (k + 2)); lia.
  - destruct (mul_interval_spec _ _ _ _ _ _ Ha Hb) as (i & -> & El & Eh). exists i. rewrite El, Eh.
    split; [reflexivity|].
    pose proof (product_corners a (lo li) (hi li - 1) b (lo ri) (hi ri - 1) ltac:(lia) ltac:(lia)) as Hc.
    split; [unfold min4, max4; lia|]. destruct (product_bounds _ _ _ _ _ _ Ha Hb) as (K & HK & HF). rewrite !Forall_cons in HF.
    destruct HF as (_ & _ & _ & _ & _ & _ & _ & _ & _ & _ & _ & Hbot & Htop & Htop' & _).
    split_and!; [exact (pow_le_small _ K HK Hbot)|exact (pow_le_small _ K HK Htop')|].
    apply (pow_le_small _ K HK). rewrite Z.add_simpl_r. exact Htop.
Qed.

Lemma shape_of_and env lv li wl a rv ri wr b shape :
  operand li wl a -> operand ri wr b -> widthOf (getType lv) = inr wl -> widthOf (getType rv) = inr wr ->
  evals env lv wl a -> evals env rv wr b -> shape_of AndBits lv li rv ri = inr shape ->
  snd shape = spelling_of AndBits /\ lo (fst shape) <= Z.land a b < hi (fst shape) /\
  small (lo (fst shape)) /\ small (hi (fst shape)) /\ small (hi (fst shape) - 1).
Proof.
  intros Ha Hb Wl Wr El Er E. destruct (and_interval_spec env _ _ _ _ _ _ _ _ shape Ha Hb Wl Wr El Er E) as (m & (i & [= ->] & Lo & Hi) & Hm & Hab).
  cbn [fst snd]. rewrite Lo, Hi. destruct (operand_bounds _ _ _ _ _ _ Ha Hb) as (k & Hk & Bi & Bi' & Bj & Bj'). unfold moderate in Hk.
  pose proof (op_in _ _ _ Ha) as Ia. pose proof (op_in _ _ _ Hb) as Ib. pose proof (Z.pow_pos_nonneg 2 k ltac:(lia) ltac:(lia)).
  assert (H2 : 2 ^ (k + 2) = 4 * 2 ^ k) by (rewrite Z.pow_add_r by lia; lia).
  split; [reflexivity|]. split; [lia|]. split_and!; apply (pow_le_small _ (k + 2)); lia.
Qed.

(** The tail of [lowerExactIntegerBinary], from the chosen interval. *)
Definition finish site lv li leftWidth rv ri rightWidth (shape : IntegerInterval * string) : FailureOr NumericValue :=
  let '(result, spelling) := shape in
  let! resultWidth := intervalWidth result in
  let fullWidth := common_width resultWidth li leftWidth ri rightWidth in
  if u32_max <? fullWidth then failure "integer operation exceeds compiler representation capacity"
  else if negb (normalized site lv leftWidth fullWidth && normalized site rv rightWidth fullWidth)
  then failure "integer representation proof requires normalized equal-width types"
  else
    success (mkNumeric (Some (BitsBinaryOp spelling (widen site lv li leftWidth fullWidth) (widen site rv ri rightWidth fullWidth)
                               (bitsType site fullWidth))) (Some KindInteger) (Some result) None).

Lemma lower_binary_unfold site op lhs rhs : lowered op ->
  lowerExactIntegerBinary evaluateStatic site op lhs rhs =
  (let! ok := verifySite site in
   let! left := checkValue lhs in
   let! right := checkValue rhs in
   let '(lv, li, wl) := left in
   let '(rv, ri, wr) := right in
   let! shape := shape_of op lv li rv ri in finish site lv li wl rv ri wr shape).
Proof. intros [-> | [-> | [-> | ->]]]; reflexivity. Qed.

(** A canonical type for the width. *)
Definition canonical (t : HwType) (w : Z) : Prop := exists site, t = bitsType site w.
Definition canonical_type (n : NumericValue) (w : Z) : Prop := exists v, nv_value n = Some v /\ canonical (getType v) w.

Lemma canonical_equivalent t site w : canonical t w -> areEquivalentHardwareTypes t (bitsType site w) = true.
Proof. intros [site' ->]. cbn. rewrite orb_true_iff. right. apply bool_decide_eq_true. reflexivity. Qed.

Lemma normalized_canonical site v w full : canonical (getType v) w -> normalized site v w full = true.
Proof.
  intros E. unfold normalized. destruct (Z.eqb_spec w full) as [->|]; [|reflexivity].
  rewrite canonical_equivalent by exact E. reflexivity.
Qed.

Lemma finish_holds env site op lv li wl a rv ri wr b i : lowered op ->
  operand li wl a -> operand ri wr b -> evals env lv wl a -> evals env rv wr b ->
  lo i <= arithmetic op a b < hi i -> small (lo i) -> small (hi i) -> small (hi i - 1) ->
  (0 <= lo li \/ wl mod 64 <> 0) -> (0 <= lo ri \/ wr mod 64 <> 0) ->
  (forall r, finish site lv li wl rv ri wr (i, spelling_of op) = inr r ->
     exists W, W <= 2 ^ 31 /\ holds env r W (arithmetic op a b) /\ canonical_type r W) /\
  (canonical (getType lv) wl -> canonical (getType rv) wr -> exists r, finish site lv li wl rv ri wr (i, spelling_of op) = inr r).
Proof.
  intros Hop Ha Hb El Er Hz Hs1 Hs2 Hs3 Xl Xr. unfold finish. rewrite intervalWidth_spec by (assumption || lia). cbn [fbind].
  pose proof (op_moderate _ _ _ Ha) as Ml. pose proof (op_moderate _ _ _ Hb) as Mr.
  destruct (common_width_spec (interval_bits (lo i) (hi i)) li wl ri wr Ml Mr) as (H1 & H2 & H3 & H4);
    [apply interval_bits_small; (assumption || lia)|].
  set (full := common_width (interval_bits (lo i) (hi i)) li wl ri wr) in *. unfold moderate in Ml, Mr. unfold u32_max.
  destruct (Z.ltb_spec (2 ^ 32 - 1) full); [lia|]. split.
  - intros r. destruct (normalized site lv wl full && normalized site rv wr full); cbn [negb]; [|discriminate]. intros [= <-].
    exists full. split; [lia|]. split; [|eexists; split; [reflexivity|eexists; reflexivity]]. eexists _, i. repeat (split; [reflexivity|]).
    split; [apply bitsType_width; unfold u32_max; lia|]. split; [split; lia|]. split; [exact Hz|].
    apply evals_arithmetic; [lia|exact Hop| |].
    + apply widen_evals; [lia|unfold u32_max; lia|apply Ha|apply Ha|unfold extends; lia|exact El].
    + apply widen_evals; [lia|unfold u32_max; lia|apply Hb|apply Hb|unfold extends; lia|exact Er].
  - intros Tl Tr. rewrite !normalized_canonical by assumption. eauto.
Qed.

(** An operand whose sign the runtime extends correctly. *)
Definition sign_safe (n : NumericValue) (w : Z) : Prop :=
  forall i, interval n = Some i -> 0 <= lo i \/ w mod 64 <> 0.

Lemma arithmetic_int_op op a b : lowered op -> int_op op a b = Some (VInt (arithmetic op a b)).
Proof. intros [-> | [-> | [-> | ->]]]; reflexivity. Qed.

Lemma lowered_operand env n w z : moderate w -> holds env n w z -> sign_safe n w ->
  exists v i, nv_value n = Some v /\ checkValue n = inr (v, i, w) /\ widthOf (getType v) = inr w /\ operand i w z /\
    evals env v w z /\ (0 <= lo i \/ w mod 64 <> 0).
Proof.
  intros Hw Hh Hs. destruct (checkValue_holds env n w z Hw Hh) as (v & i & Ec & Ev & Ei & Ew & Hf & Hz & He).
  exists v, i. split; [exact Ev|]. split; [exact Ec|]. split; [exact Ew|]. split; [constructor; assumption|].
  split; [exact He|apply Hs, Ei].
Qed.

Lemma lower_binary_spec env site op lhs rhs wl wr a b :
  lowered op -> moderate wl -> moderate wr -> holds env lhs wl a -> holds env rhs wr b ->
  sign_safe lhs wl -> sign_safe rhs wr ->
  (forall r, lowerExactIntegerBinary evaluateStatic site op lhs rhs = inr r ->
     exists W, W <= 2 ^ 31 /\ holds env r W (arithmetic op a b) /\ canonical_type r W) /\
  (op <> AndBits -> verifySite site = inr tt -> canonical_type lhs wl -> canonical_type rhs wr ->
     exists r, lowerExactIntegerBinary evaluateStatic site op lhs rhs = inr r).
Proof.
  intros Hop Ml Mr Hl Hr Sl Sr. destruct (lowered_operand env lhs wl a Ml Hl Sl) as (lv & li & Nl & Cl & Wl & Ol & El & Xl).
  destruct (lowered_operand env rhs wr b Mr Hr Sr) as (rv & ri & Nr & Cr & Wr & Or & Er & Xr).
  rewrite lower_binary_unfold, Cl, Cr by exact Hop. cbn [fbind]. destruct (decide (op = AndBits)) as [->|Hne].
  - split; [|congruence]. intros r H. apply fbind_inr in H as (ok & _ & H). apply fbind_inr in H as (shape & Es & H).
    destruct (shape_of_and env _ _ _ _ _ _ _ _ shape Ol Or Wl Wr El Er Es) as (Esp & Hz & S1 & S2 & S3).
    destruct shape as [i sp]. cbn [fst snd] in *. subst sp. eapply (finish_holds env site AndBits); eassumption.
  - destruct (shape_of_ring op lv li wl a rv ri wr b) as (i & Es & Hz & S1 & S2 & S3); [unfold lowered in Hop; tauto|assumption..|].
    destruct (finish_holds env site op lv li wl a rv ri wr b i) as [Hsnd Hcmp]; try assumption. rewrite Es. cbn [fbind]. split.
    + intros r H. apply fbind_inr in H as (ok & _ & H). apply Hsnd, H.
    + intros _ Hsite (v1 & E1 & T1) (v2 & E2 & T2). rewrite Hsite. cbn [fbind]. rewrite Nl in E1. rewrite Nr in E2. injection E1 as <-. injection E2 as <-. apply Hcmp; assumption.
Qed.

(** ** Selection *)

Lemma hull_spec i j : lo (hull i j) = Z.min (lo i) (lo j) /\ hi (hull i j) = Z.max (hi i) (hi j).
Proof.
  unfold hull. cbn [lower upper]. rewrite !compareValues_law.
  destruct (Z.compare_spec (lo i) (lo j)), (Z.compare_spec (hi i) (hi j)); cbn; lia.
Qed.

(** A condition: a Boolean with a canonical one-bit expression. *)
Definition decides (env : positive -> option AnyState) (n : NumericValue) (d : bool) : Prop :=
  exists c, nv_value n = Some c /\ sourceKind n = Some KindBoolean /\ canonical (getType c) 1 /\ evals env c 1 (Z.b2z d).

Lemma lower_select_spec env site condition d yes no wt wf a b :
  decides env condition d -> moderate wt -> moderate wf -> holds env yes wt a -> holds env no wf b ->
  sign_safe yes wt -> sign_safe no wf ->
  (forall r, lowerExactIntegerSelect evaluateStatic site condition yes no = inr r ->
     exists W, W <= 2 ^ 31 /\ holds env r W (if d then a else b) /\ canonical_type r W) /\
  (verifySite site = inr tt -> canonical_type yes wt -> canonical_type no wf ->
     exists r, lowerExactIntegerSelect evaluateStatic site condition yes no = inr r).
Proof.
  intros (c & Ec & Ek & Et & Ev) Ml Mr Hl Hr Sl Sr.
  destruct (lowered_operand env yes wt a Ml Hl Sl) as (tv & ti & Nt & Ct & Wt & Ot & Evt & Xt).
  destruct (lowered_operand env no wf b Mr Hr Sr) as (fv & fi & Nf & Cf & Wf & Of & Evf & Xf).
  unfold lowerExactIntegerSelect, prepareExactIntegerSelect. rewrite Ec, Ek, Ct, Cf.
  rewrite bool_decide_eq_true_2 by reflexivity. rewrite canonical_equivalent by exact Et. cbn [negb fbind].
  destruct (hull_spec ti fi) as [Elo Ehi]. destruct (operand_bounds _ _ _ _ _ _ Ot Of) as (k & Hk & Bi & Bi' & Bj & Bj').
  unfold moderate in Hk. pose proof (Z.pow_pos_nonneg 2 k ltac:(lia) ltac:(lia)).
  assert (S1 : small (lo (hull ti fi))) by (apply (pow_le_small _ k); lia).
  assert (S2 : small (hi (hull ti fi))) by (apply (pow_le_small _ k); lia).
  rewrite intervalWidth_spec by (assumption || lia || (apply (pow_le_small _ k); lia)). cbn [fbind].
  destruct (common_width_spec (interval_bits (lo (hull ti fi)) (hi (hull ti fi))) ti wt fi wf Ml Mr) as (H1 & H2 & H3 & H4);
    [apply interval_bits_small; (assumption || lia)|].
  set (full := common_width _ ti wt fi wf) in *. unfold moderate in Ml, Mr. unfold u32_max.
  destruct (Z.ltb_spec (2 ^ 32 - 1) full); [lia|]. pose proof (op_in _ _ _ Ot). pose proof (op_in _ _ _ Of). split.
  - intros r Hr'. apply fbind_inr in Hr' as (p & Hp & Hr'). apply fbind_inr in Hp as (ok & Hok & Hp).
    destruct (normalized site tv wt full && normalized site fv wf full); cbn [negb] in Hp; [|discriminate]. injection Hp as <-.
    unfold materializeExactIntegerSelectArm in Hr'. rewrite Hok in Hr'. cbn [fbind fst snd whenTrue whenFalse trueWidth falseWidth resultWidth resultType resultInterval success] in Hr'.
    injection Hr' as <-. exists full. split; [lia|]. split; [|eexists; split; [reflexivity|eexists; reflexivity]].
    eexists _, (hull ti fi). repeat (split; [reflexivity|]).
    split; [apply bitsType_width; unfold u32_max; lia|]. split; [split; lia|]. split; [destruct d; lia|].
    apply evals_select; [lia|exact Ev| |].
    + apply widen_evals; [lia|unfold u32_max; lia|apply Ot|apply Ot|unfold extends; lia|exact Evt].
    + apply widen_evals; [lia|unfold u32_max; lia|apply Of|apply Of|unfold extends; lia|exact Evf].
  - intros Hsite (v1 & E1 & T1) (v2 & E2 & T2). rewrite Hsite. cbn [fbind].
    rewrite Nt in E1. rewrite Nf in E2. injection E1 as <-. injection E2 as <-. rewrite !normalized_canonical by assumption. cbn [negb andb]. unfold materializeExactIntegerSelectArm. rewrite Hsite. cbn [fbind success]. eauto.
Qed.

(** ** Right shift *)

Lemma shr_exact a count : small (aps_value a) -> small (aps_value count) -> 0 <= aps_value a -> 0 <= aps_value count ->
  exists r, calculate Shr a count = inr r /\ aps_value r = aps_value a / 2 ^ aps_value count.
Proof.
  intros Ha Hc Hp Hn. assert (Hq : 0 <= aps_value a / 2 ^ aps_value count <= aps_value a).
  { pose proof (Z.pow_pos_nonneg 2 (aps_value count) ltac:(lia) Hn). split; [apply Z.div_pos; lia|].
    apply Z.div_le_upper_bound; nia. }
  apply calculate_exact; [exact Ha|exact Hc| |discriminate|].
  - unfold small in *. transitivity (bit_length (Z.abs (aps_value a))); [|exact Ha]. apply bit_length_mono. lia.
  - cbn [int_op]. destruct (Z.ltb_spec (aps_value count) 0); [lia|reflexivity].
Qed.

Lemma shift_bits l h c w : 0 <= l -> l < h -> 0 <= c -> 1 <= w -> h <= 2 ^ w ->
  l / 2 ^ c < (h - 1) / 2 ^ c + 1 /\
  (c < w -> interval_bits (l / 2 ^ c) ((h - 1) / 2 ^ c + 1) <= w - c) /\ (w <= c -> (h - 1) / 2 ^ c = 0).
Proof.
  intros Hl Hh Hc Hw Hb. pose proof (Z.pow_pos_nonneg 2 c ltac:(lia) Hc) as Hp.
  assert (l / 2 ^ c <= (h - 1) / 2 ^ c) by (apply Z.div_le_mono; lia). assert (0 <= l / 2 ^ c) by (apply Z.div_pos; lia).
  split; [lia|]. split; intros Hcw.
  - apply interval_bits_nonneg; [lia|lia|lia|]. assert ((h - 1) / 2 ^ c < 2 ^ (w - c)); [|lia].
    apply Z.div_lt_upper_bound; [lia|]. rewrite <- Z.pow_add_r by lia. replace (c + (w - c)) with w by lia. lia.
  - apply Z.div_small. pose proof (Z.pow_le_mono_r 2 w c). lia.
Qed.

(** The bounds the shift computes. *)
Lemma shift_interval_exact i w count : moderate w -> fits i w -> 0 <= lo i -> small (aps_value count) -> 0 <= aps_value count ->
  let c := aps_value count in
  exists low mx sm up, calculate Shr (lower i) count = inr low /\ calculate Sub (upper i) (aps_getUnsigned 1) = inr mx /\
    calculate Shr mx count = inr sm /\ calculate Add sm (aps_getUnsigned 1) = inr up /\
    aps_value low = lo i / 2 ^ c /\ aps_value up = (hi i - 1) / 2 ^ c + 1 /\
    intervalWidth (mkInterval low up) = inr (interval_bits (lo i / 2 ^ c) ((hi i - 1) / 2 ^ c + 1)).
Proof.
  intros Hw Hf Hlo Hsc Hc c. destruct (fits_small i w Hw Hf) as (Sl & Sh & Sm). destruct Hf as [Hlt _].
  destruct (shr_exact (lower i) count Sl Hsc Hlo Hc) as (low & E1 & Elow). fold c in Elow.
  destruct (calculate_exact Sub (upper i) (aps_getUnsigned 1) (hi i - 1)) as (mx & E2 & Emx);
    [exact Sh|apply one_small|exact Sm|discriminate|cbn; rewrite getUnsigned_value by lia; reflexivity|].
  destruct (shr_exact mx count) as (sm & E3 & Esm); [rewrite Emx; exact Sm|exact Hsc|lia|exact Hc|]. fold c in Esm. rewrite Emx in Esm.
  pose proof (Z.pow_pos_nonneg 2 c ltac:(lia) Hc) as Hp.
  assert (Hq : forall x, 0 <= x -> 0 <= x / 2 ^ c <= x) by (intros x Hx; split; [apply Z.div_pos; lia|apply Z.div_le_upper_bound; nia]).
  pose proof (Hq (hi i - 1) ltac:(lia)). pose proof (Hq (lo i) Hlo). pose proof (Z.div_le_mono (lo i) (hi i - 1) (2 ^ c) Hp ltac:(lia)).
  assert (Smono : forall x, 0 <= x <= hi i -> small x).
  { intros x Hx. unfold small in *. transitivity (bit_length (Z.abs (hi i))); [|exact Sh]. apply bit_length_mono. lia. }
  destruct (calculate_exact Add sm (aps_getUnsigned 1) ((hi i - 1) / 2 ^ c + 1)) as (up & E4 & Eup);
    [rewrite Esm; apply Smono; lia|apply one_small|apply Smono; lia|discriminate|cbn; rewrite getUnsigned_value, Esm by lia; reflexivity|].
  exists low, mx, sm, up. do 6 (split; [assumption|]). rewrite <- Elow, <- Eup.
  apply (intervalWidth_spec (mkInterval low up)); cbn [lower upper]; rewrite ?Elow, ?Eup; (lia || (apply Smono; lia)).
Qed.

(** Shifted past its width the value is the constant zero. *)
Lemma overshift_holds env site low up : aps_value low = 0 -> aps_value up = 1 ->
  holds env (mkNumeric (Some (BitsConstantOp (integerExpression site (aps_getUnsigned 0)) (bitsType site 1))) (Some KindInteger)
               (Some (mkInterval low up)) None) 1 0.
Proof.
  intros El Eu. eexists _, (mkInterval low up). repeat (split; [reflexivity|]). split; [apply bitsType_width; unfold u32_max; lia|].
  unfold fits. cbn [lower upper]. rewrite El, Eu. split; [split; [lia|reflexivity]|]. split; [lia|].
  destruct (knownInteger_literal evaluateStatic (site_provenance site) (aps_getUnsigned 0)) as (n0 & En & Vn); [rewrite getUnsigned_value by lia; apply small_u; lia|].
  rewrite getUnsigned_value in Vn by lia. rewrite aps_value_nonneg in Vn by lia.
  pose proof (evals_constant evaluateStatic env (integerExpression site (aps_getUnsigned 0)) (bitsType site 1) 1 n0 ltac:(lia)) as H. rewrite Vn in H.
  apply H; [apply bitsType_width; unfold u32_max; lia|exact En].
Qed.

(** Otherwise the upper bits are extracted. *)
Lemma extract_holds env site v t i w z count : moderate w -> small (aps_value count) -> 0 <= aps_value count < w ->
  widthOf t = inr (w - aps_value count) -> fits i (w - aps_value count) ->
  lo i <= z / 2 ^ aps_value count < hi i -> evals env v w z ->
  holds env (mkNumeric (Some (BitsExtractOp (integerExpression site count) v t)) (Some KindInteger) (Some i) None)
    (w - aps_value count) (z / 2 ^ aps_value count).
Proof.
  unfold moderate. intros Hw Hs Hc Ht Hf Hz He. eexists _, i. repeat (split; [reflexivity|]). split; [exact Ht|]. split; [exact Hf|]. split; [exact Hz|].
  destruct (knownInteger_literal evaluateStatic (site_provenance site) count Hs) as (n0 & En & Vn). rewrite <- Vn in *.
  apply (evals_extract evaluateStatic env _ v w); [lia|lia|exact Ht|exact En|lia|lia|exact He].
Qed.

Lemma lower_shift_spec env site n w z count : moderate w -> holds env n w z -> small (aps_value count) ->
  verifySite site = inr tt ->
  (forall i, interval n = Some i -> 0 <= lo i) -> 0 <= aps_value count ->
  exists r W, lowerExactIntegerShiftRight evaluateStatic site n count = inr r /\ W <= w /\
    holds env r W (z / 2 ^ aps_value count) /\ (canonical_type n w -> canonical_type r W).
Proof.
  intros Hw Hh Hsc Hsite Hlo Hc. destruct (checkValue_holds env n w z Hw Hh) as (v & i & Ec & Ev & Ei & Ew & Hf & Hz & He).
  specialize (Hlo i Ei). set (c := aps_value count) in *.
  destruct (shift_interval_exact i w count Hw Hf Hlo Hsc Hc) as (low & mx & sm & up & E1 & E2 & E3 & E4 & El & Eu & Eb). fold c in El, Eu, Eb.
  unfold lowerExactIntegerShiftRight. rewrite Hsite, Ec. cbn [fbind]. rewrite !aps_isNegative_law. fold c.
  destruct (Z.ltb_spec c 0); [lia|]. destruct (Z.ltb_spec (lo i) 0); [lia|].
  rewrite E1, E2. cbn [fbind]. rewrite E3. cbn [fbind]. rewrite E4. cbn [fbind]. rewrite Eb. cbn [fbind]. clear E1 E2 E3 E4 Eb.
  destruct Hf as [Hlt Hb]. pose proof Hw as Hw'. unfold moderate in Hw'. apply interval_bits_nonneg in Hb; [|lia..].
  destruct (shift_bits (lo i) (hi i) c w ltac:(lia) Hlt Hc ltac:(lia) Hb) as (B1 & B2 & B3).
  assert (Hzin : lo i / 2 ^ c <= z / 2 ^ c <= (hi i - 1) / 2 ^ c).
  { pose proof (Z.pow_pos_nonneg 2 c ltac:(lia) Hc). pose proof (Z.div_le_mono (lo i) z (2 ^ c)). pose proof (Z.div_le_mono z (hi i - 1) (2 ^ c)). lia. }
  assert (Hl : 0 <= lo i / 2 ^ c) by (pose proof (Z.pow_pos_nonneg 2 c ltac:(lia) Hc); apply Z.div_pos; lia).
  rewrite compareValues_law, getUnsigned_value by lia. fold c. destruct (Z.leb_spec w c) as [Hover|Hunder].
  - replace (0 <=? _) with true by (destruct (Z.compare_spec c w); (reflexivity || lia)). rewrite (B3 Hover) in *.
    replace (lo i / 2 ^ c) with 0 in * by lia. replace (z / 2 ^ c) with 0 in * by lia.
    change (1 <? interval_bits 0 (0 + 1)) with false. cbn beta iota. eexists _, 1. split; [reflexivity|]. split; [lia|].
    split; [apply overshift_holds; assumption|]. intros _. eexists. split; [reflexivity|eexists; reflexivity].
  - replace (0 <=? _) with false by (destruct (Z.compare_spec c w); (reflexivity || lia)).
    replace (wrapu 32 (ap_bits (aps_int count))) with c by (rewrite <- aps_value_nonneg by exact Hc; symmetry; apply Z.mod_small; fold c; lia).
    replace (wrapu 32 (w - c)) with (w - c) by (symmetry; apply Z.mod_small; lia). specialize (B2 Hunder).
    destruct (Z.ltb_spec (w - c) (interval_bits (lo i / 2 ^ c) ((hi i - 1) / 2 ^ c + 1))); [lia|].
    eexists _, (w - c). split; [reflexivity|]. split; [lia|]. split.
    + apply extract_holds; fold c; unfold fits; cbn [lower upper]; rewrite ?El, ?Eu; try assumption; try lia.
      destruct (Z.eqb_spec c 0) as [->|]; [rewrite Z.sub_0_r; exact Ew|apply bitsType_width; unfold u32_max; lia].
    + intros (v' & Ev' & Tv'). eexists. split; [reflexivity|]. cbn [getType].
      destruct (Z.eqb_spec c 0) as [->|]; [rewrite Z.sub_0_r; congruence|eexists; reflexivity].
Qed.

(** ** Boundary *)

Lemma boundary_limit w : 0 < w < u32_max -> aps_value (aps (ap_setBit (ap_of (w + 1) 0) w) true) = 2 ^ w.
Proof.
  unfold u32_max. intros Hw. unfold aps_value. destruct (aps_parts (ap_setBit (ap_of (w + 1) 0) w) true) as [-> ->].
  destruct (ap_of_law (w + 1) 0 ltac:(lia) ltac:(unfold is_u; lia)) as [Ew Eb].
  destruct (ap_setBit_law (ap_of (w + 1) 0) w ltac:(rewrite Ew; lia)) as [_ ->]. rewrite Eb, Ew, Z.mod_0_l by (apply Z.pow_nonzero; lia).
  rewrite Z.lor_0_l, Z.mod_small; [reflexivity|]. pose proof (Z.pow_lt_mono_r 2 w (w + 1)). pose proof (Z.pow_pos_nonneg 2 w). lia.
Qed.

Lemma lower_boundary_spec env site n w z destination tw i :
  moderate w -> holds env n w z -> interval n = Some i -> widthOf destination = inr tw -> tw < u32_max ->
  (forall v, lowerExactIntegerBoundary evaluateStatic site n destination = inr v ->
     0 <= z < 2 ^ tw /\ evals env v tw z) /\
  (verifySite site = inr tt -> canonical_type n w -> canonical destination tw -> 0 <= lo i -> hi i <= 2 ^ tw ->
     exists v, lowerExactIntegerBoundary evaluateStatic site n destination = inr v) /\
  (lo i < 0 \/ 2 ^ tw < hi i -> exists e, lowerExactIntegerBoundary evaluateStatic site n destination = inl e).
Proof.
  intros Hw Hh Hi Ht Htw. destruct (checkValue_holds env n w z Hw Hh) as (v & i' & Ec & Ev & Ei & Ew & Hf & Hz & He).
  rewrite Hi in Ei. injection Ei as <-. pose proof (widthOf_range _ _ _ Ht) as Hr. unfold moderate in Hw.
  unfold lowerExactIntegerBoundary. rewrite Ec, Ht. cbn [fbind]. destruct (Z.eqb_spec tw u32_max); [lia|].
  rewrite aps_isNegative_law, compareValues_law, boundary_limit by lia.
  replace (0 <? _) with (2 ^ tw <? hi i) by (destruct (Z.compare_spec (hi i) (2 ^ tw)), (Z.ltb_spec (2 ^ tw) (hi i)); (reflexivity || lia)).
  assert (HI : PosWidth w) by (unfold PosWidth; lia). assert (HO : PosWidth tw) by (unfold PosWidth; lia). split; [|split].
  - intros r H. apply fbind_inr in H as (ok & _ & H). destruct (Z.ltb_spec (lo i) 0); [discriminate|].
    destruct (Z.ltb_spec (2 ^ tw) (hi i)); [discriminate|]. cbn [orb] in H. split; [lia|].
    destruct (fits_range i w z ltac:(lia) Hf Hz) as [Hp _]. specialize (Hp ltac:(lia)). destruct (Z.eqb_spec w tw) as [->|Hne].
    + destruct (negb _) in H; [discriminate|]. injection H as <-. exact He.
    + injection H as <-. destruct (Z.ltb_spec tw w).
      * eapply evals_resize; [exact Ht|reflexivity| |exact He]. intros p Cp. apply gives_trunc; [exact Cp|lia].
      * eapply evals_resize; [exact Ht|reflexivity| |exact He]. intros p Cp. apply gives_zext; [exact Cp|lia|exact Hp].
  - intros -> (v' & Ev' & Tv') Td Hlo Hhi. cbn [fbind]. destruct (Z.ltb_spec (lo i) 0); [lia|]. destruct (Z.ltb_spec (2 ^ tw) (hi i)); [lia|].
    cbn [orb]. destruct (Z.eqb_spec w tw) as [->|]; [|eauto]. destruct Td as [site' ->].
    rewrite canonical_equivalent by congruence. eauto.
  - intros Hbad. destruct (verifySite site); cbn [fbind]; [eauto|].
    destruct (Z.ltb_spec (lo i) 0), (Z.ltb_spec (2 ^ tw) (hi i)); cbn [orb]; (lia || (eexists; reflexivity)).
Qed.

(** ** Refinement by a comparison *)

Definition compare_unsigned (predicate : string) (x c : Z) : bool :=
  if decide (predicate = "ult") then x <? c
  else if decide (predicate = "ule") then x <=? c
  else if decide (predicate = "ugt") then c <? x
  else if decide (predicate = "uge") then c <=? x
  else x =? c.

Lemma increment_value s r : small (aps_value s) -> small (aps_value s + 1) -> increment s = Some r -> aps_value r = aps_value s + 1.
Proof.
  intros Hs Hs'. unfold increment. destruct (_ <=? _); [discriminate|].
  destruct (calculate_exact Add s (aps_getUnsigned 1) (aps_value s + 1)) as (x & -> & Ex);
    [exact Hs|apply one_small|exact Hs'|discriminate|cbn; rewrite getUnsigned_value by lia; reflexivity|]. intros [= <-]. exact Ex.
Qed.

(** The arm is taken exactly when the predicate found holds. *)
Lemma arm_predicate_spec p sel q x c : arm_predicate p sel = Some q ->
  Bool.eqb (compare_unsigned p x c) sel = compare_unsigned q x c /\ q ∈ ["ult"; "ule"; "ugt"; "uge"; "eq"]%string.
Proof.
  unfold arm_predicate. case_bool_decide as Hin; cbn [negb]; [|discriminate]. destruct sel.
  - intros [= <-]. split; [destruct (compare_unsigned p x c); reflexivity|exact Hin].
  - rewrite !elem_of_cons, elem_of_nil in Hin. destruct Hin as [->|[->|[->|[->|[->|[]]]]]]; cbn; try discriminate;
      intros [= <-]; (split; [|repeat constructor]); unfold compare_unsigned; cbn;
      repeat (match goal with |- context [?a <? ?b] => destruct (Z.ltb_spec a b) | |- context [?a <=? ?b] => destruct (Z.leb_spec a b) end); (reflexivity || lia).
Qed.

(** [x] lies between the bounds. *)
Definition between (low : APSInt) (up : option APSInt) (x : Z) : Prop :=
  aps_value low <= x /\ match up with Some u => x < aps_value u | None => True end.

Lemma lower_to_spec low up bound x : between low up x -> x < aps_value bound -> between low (lower_to up bound) x.
Proof.
  intros [Hl Hu] Hb. split; [exact Hl|]. destruct up as [u|]; cbn [lower_to]; [|exact Hb].
  rewrite compareValues_law. destruct (Z.compare_spec (aps_value bound) (aps_value u)); cbn; lia.
Qed.

Lemma raise_to_spec low up bound x : between low up x -> aps_value bound <= x -> between (raise_to low bound) up x.
Proof.
  intros [Hl Hu] Hb. split; [|exact Hu]. unfold raise_to. destruct (_ <? 0); assumption.
Qed.

Lemma refine_bounds_spec q low up c low' up' x :
  q ∈ ["ult"; "ule"; "ugt"; "uge"; "eq"]%string -> small (aps_value c) -> small (aps_value c + 1) ->
  compare_unsigned q x (aps_value c) = true -> between low up x ->
  refine_bounds q low up c = Some (low', up') -> between low' up' x.
Proof.
  intros Hq Hs Hs' Hp Hb. rewrite !elem_of_cons, elem_of_nil in Hq. destruct Hq as [->|[->|[->|[->|[->|[]]]]]].
  - change (refine_bounds "ult" low up c) with (Some (low, lower_to up c)). change ((x <? aps_value c) = true) in Hp.
    intros [= <- <-]. apply lower_to_spec; [exact Hb|lia].
  - change (refine_bounds "ule" low up c) with (match increment c with None => None | Some next => Some (low, lower_to up next) end).
    change ((x <=? aps_value c) = true) in Hp. destruct (increment c) as [next|] eqn:En; [|discriminate].
    apply increment_value in En; [|assumption..]. intros [= <- <-]. apply lower_to_spec; [exact Hb|lia].
  - change (refine_bounds "ugt" low up c) with (match increment c with None => None | Some next => Some (raise_to low next, up) end).
    change ((aps_value c <? x) = true) in Hp. destruct (increment c) as [next|] eqn:En; [|discriminate].
    apply increment_value in En; [|assumption..]. intros [= <- <-]. apply raise_to_spec; [exact Hb|lia].
  - change (refine_bounds "uge" low up c) with (Some (raise_to low c, up)). change ((aps_value c <=? x) = true) in Hp.
    intros [= <- <-]. apply raise_to_spec; [exact Hb|lia].
  - change (refine_bounds "eq" low up c) with (match increment c with None => None | Some next => Some (raise_to low c, lower_to up next) end).
    change ((x =? aps_value c) = true) in Hp. destruct (increment c) as [next|] eqn:En; [|discriminate].
    apply increment_value in En; [|assumption..]. intros [= <- <-]. apply raise_to_spec; [|lia]. apply lower_to_spec; [exact Hb|lia].
Qed.

(** The value the select yields. *)
Definition selected (p : string) (sel : bool) (x c f : Z) : Z := if Bool.eqb (compare_unsigned p x c) sel then x else f.

Lemma active_small s w : 0 <= aps_value s -> getActiveBits (aps_int s) <= w -> w <= 2 ^ 31 - 4 ->
  small (aps_value s) /\ small (aps_value s + 1).
Proof.
  intros Hs Ha Hw. rewrite aps_active in Ha by exact Hs. pose proof (bit_length_nonneg (aps_value s)).
  assert (Hw0 : 0 <= w) by lia. apply bit_length_le in Ha; [|lia|lia]. pose proof (Z.pow_pos_nonneg 2 w ltac:(lia) Hw0).
  split; apply (pow_le_small _ w); lia.
Qed.

Lemma refine_spec p sel original lw c f i x : lw <= 2 ^ 31 - 4 ->
  refineUnsignedSelectInterval p sel original lw c f = Some i ->
  0 <= x -> (forall o, original = Some o -> lo o <= x < hi o) ->
  lo i <= selected p sel x (aps_value c) (aps_value f) < hi i.
Proof.
  intros Hlw H Hx Ho. unfold refineUnsignedSelectInterval in H. rewrite !aps_isNegative_law in H.
  destruct (Z.ltb_spec (aps_value c) 0) as [|Hc]; [rewrite ?orb_true_r in H; discriminate|].
  destruct (Z.ltb_spec (aps_value f) 0) as [|Hf]; [rewrite ?orb_true_r in H; discriminate|].
  destruct (Z.ltb_spec lw (getActiveBits (aps_int c))) as [|Bc]; [rewrite ?orb_true_r in H; discriminate|].
  destruct (Z.ltb_spec lw (getActiveBits (aps_int f))) as [|Bf]; [rewrite ?orb_true_r in H; discriminate|].
  destruct (lw =? 0); [discriminate|]. cbn [orb] in H. destruct (original_ok original lw); cbn [negb] in H; [|discriminate].
  destruct (arm_predicate p sel) as [q|] eqn:Eq; [|discriminate]. destruct (arm_predicate_spec p sel q x (aps_value c) Eq) as [Hsel Hin].
  destruct (active_small c lw Hc Bc Hlw) as [Sc Sc']. destruct (active_small f lw Hf Bf Hlw) as [Sf Sf'].
  set (low := match original with Some o => lower o | None => aps_getUnsigned 0 end) in H.
  set (up := match original with Some o => Some (upper o) | None => None end) in H.
  assert (Hb : between low up x).
  { unfold low, up. destruct original as [o|]; [apply (Ho o eq_refl)|]. split; [rewrite getUnsigned_value by lia; lia|exact I]. }
  destruct (refine_bounds q low up c) as [[low' [up'|]]|] eqn:Er; try discriminate.
  rewrite compareValues_law in H. destruct (increment f) as [fu|] eqn:Ef; [|destruct (0 <=? _) in H; discriminate].
  apply increment_value in Ef; [|assumption..]. destruct (0 <=? _) in H; [discriminate|]. injection H as <-. cbn [lower upper].
  rewrite !compareValues_law. unfold selected. rewrite Hsel. destruct (compare_unsigned q x (aps_value c)) eqn:Ecmp.
  - destruct (refine_bounds_spec q low up c low' (Some up') x Hin Sc Sc' Ecmp Hb Er) as [Hl Hu].
    destruct (Z.compare_spec (aps_value low') (aps_value f)), (Z.compare_spec (aps_value up') (aps_value fu)); cbn; lia.
  - destruct (Z.compare_spec (aps_value low') (aps_value f)), (Z.compare_spec (aps_value up') (aps_value fu)); cbn; lia.
Qed.
End Spec.
