(* ===== verification/NumericLoweringTheorems.v ===== *)
(** * Theorems on the lowering of mathematical integers

    Each takes operands that carry integers of their intervals ([holds]) and
    says which integer the emitted expression computes. *)

From Stdlib Require Import ZArith Lia String.
From stdpp Require Import base list numbers strings.
From S2P Require Import Prelude ModelInput ConfigSpec CompilerPrelude ApInt ValueSemantics ValueSemanticsSpec HardwareTypes HardwareIr HardwareIrSpec NumericLowering NumericLoweringSpec.
From S2P Require Import Bits BitsLogic FourState FourStateSpec.

Open Scope Z_scope.


(** A select of two lowered integers computes the chosen one, in the hull
    of the two intervals, whatever the widths and signs of the arms; it
    succeeds on canonical arms. *)
Theorem lowered_select_exact `{L : ApLib} {HL : ApLaws L} es env site condition d yes no wt wf a b :
  decides es env condition d -> moderate wt -> moderate wf -> holds es env yes wt a -> holds es env no wf b ->
  sign_safe yes wt -> sign_safe no wf ->
  (forall r, lowerExactIntegerSelect es site condition yes no = inr r ->
     exists W, W <= 2 ^ 31 /\ holds es env r W (if d then a else b) /\ canonical_type r W) /\
  (verifySite site = inr tt -> canonical_type yes wt -> canonical_type no wf ->
     exists r, lowerExactIntegerSelect es site condition yes no = inr r).
Proof. apply lower_select_spec. Qed.

(** A right shift of a nonnegative integer by any constant count, past
    the width included, always succeeds and computes the floor of the quotient
    by the power of two, in the interval it announces and with no more bits
    than its operand. *)
Theorem lowered_shift_exact `{L : ApLib} {HL : ApLaws L} es env site n w z count :
  moderate w -> holds es env n w z -> small (aps_value count) -> verifySite site = inr tt ->
  (forall i, interval n = Some i -> 0 <= aps_value (lower i)) -> 0 <= aps_value count ->
  exists r W, lowerExactIntegerShiftRight es site n count = inr r /\ W <= w /\
    holds es env r W (z / 2 ^ aps_value count) /\ (canonical_type n w -> canonical_type r W).
Proof. apply lower_shift_spec. Qed.

(** At a boundary a lowered integer becomes a bit vector of the
    destination width.  It is accepted only when its interval lies within the
    destination's range, and then the vector is the integer itself; an
    interval that reaches outside is an error, and one inside is accepted for
    canonical types. *)
Theorem lowered_boundary_exact `{L : ApLib} {HL : ApLaws L} es env site n w z destination tw i :
  moderate w -> holds es env n w z -> interval n = Some i -> widthOf es destination = inr tw -> tw < u32_max ->
  (forall v, lowerExactIntegerBoundary es site n destination = inr v -> 0 <= z < 2 ^ tw /\ evals es env v tw z) /\
  (verifySite site = inr tt -> canonical_type n w -> canonical destination tw ->
   0 <= aps_value (lower i) -> aps_value (upper i) <= 2 ^ tw ->
     exists v, lowerExactIntegerBoundary es site n destination = inr v) /\
  (aps_value (lower i) < 0 \/ 2 ^ tw < aps_value (upper i) ->
     exists e, lowerExactIntegerBoundary es site n destination = inl e).
Proof. apply lower_boundary_spec. Qed.

(** The interval refined by an unsigned comparison is sound.  Whenever
    [refineUnsignedSelectInterval] answers, the select that yields the
    compared value in the given arm and the fallback constant in the other
    lies in its interval, for every value of the original interval. *)
Theorem refined_interval_sound `{L : ApLib} {HL : ApLaws L} p sel original lw c f i x :
  lw <= 2 ^ 31 - 4 -> refineUnsignedSelectInterval p sel original lw c f = Some i ->
  0 <= x -> (forall o, original = Some o -> aps_value (lower o) <= x < aps_value (upper o)) ->
  aps_value (lower i) <= selected p sel x (aps_value c) (aps_value f) < aps_value (upper i).
Proof. apply refine_spec. Qed.

Module LoweringWitness.
#[local] Existing Instance Reference.lib.
#[local] Existing Instance Reference.laws.
Definition num (z : Z) : APSInt := Reference.number_of z.
Definition es : StaticExpr -> option (FailureOr Attribute) := fun _ => None.
Definition site : NumericLoweringSite := mkSite 7%positive (inr tt).
Definition arg (id : positive) (w l h : Z) : NumericValue :=
  mkNumeric (Some (Argument id (bitsType site w))) (Some KindInteger) (Some (mkInterval (num l) (num h))) None.
Definition condition : NumericValue := mkNumeric (Some (Argument 3 (bitsType site 1))) (Some KindBoolean) None None.

(** -5 in eight bits, 200 in eight bits, true, and two words. *)
Definition env : positive -> option AnyState := fun id =>
  match id with
  | 1%positive => Some (any_state (fs_of (bits_of_word 8 251)))
  | 2%positive => Some (any_state (fs_of (bits_of_word 8 200)))
  | 3%positive => Some (any_state (fs_of (bits_of_word 1 1)))
  | 4%positive => Some (any_state (fs_of (bits_of_word 64 (2 ^ 64 - 2))))
  | _ => Some (any_state (fs_of (bits_of_word 64 0)))
  end.

(** What the emitted expression of a successful lowering computes. *)
Definition emitted (r : FailureOr NumericValue) : option AnyState :=
  match r with
  | inr n => match nv_value n with Some v => eval es env v | None => None end
  | inl _ => None
  end.

Lemma constant_carries W v z : 0 < W -> is_u 64 v -> v mod 2 ^ W = z mod 2 ^ W -> carries (fs_of (bits_of_word W v)) z.
Proof.
  intros HW Hv E. destruct (bits_of_word_spec (HW := HW) v Hv) as [Hwf Hb].
  apply (carries_fs_of (HW := HW)); [exact Hwf|]. rewrite Hb. exact E.
Qed.

Lemma minus5 : holds es env (arg 1 8 (-128) 128) 8 (-5).
Proof.
  eexists _, _. repeat (split; [reflexivity|]). split; [split; vm_compute; [reflexivity|discriminate]|]. split; [vm_compute; intuition discriminate|].
  eexists. split; [reflexivity|]. apply constant_carries; [lia|unfold is_u; lia|reflexivity].
Qed.

Lemma two_hundred : holds es env (arg 2 8 0 256) 8 200.
Proof.
  eexists _, _. repeat (split; [reflexivity|]). split; [split; vm_compute; [reflexivity|discriminate]|]. split; [vm_compute; intuition discriminate|].
  eexists. split; [reflexivity|]. apply constant_carries; [lia|unfold is_u; lia|reflexivity].
Qed.

Lemma word_value id z : id = 4%positive /\ z = -2 \/ id = 5%positive /\ z = 0 ->
  holds es env (arg id 64 (- 2 ^ 63) (2 ^ 63)) 64 z.
Proof.
  intros Hz. eexists _, _. repeat (split; [reflexivity|]). split; [split; vm_compute; [reflexivity|discriminate]|].
  destruct Hz as [[-> ->]|[-> ->]]; (split; [vm_compute; intuition discriminate|]); (eexists; split; [reflexivity|]);
    (apply constant_carries; [lia|unfold is_u; lia|reflexivity]).
Qed.


Lemma lowered_select_exact_witness :
  exists r W, lowerExactIntegerSelect es site condition (arg 1 8 (-128) 128) (arg 2 8 0 256) = inr r /\ holds es env r W (-5).
Proof.
  destruct (lowered_select_exact (HL := Reference.laws) es env site condition true (arg 1 8 (-128) 128) (arg 2 8 0 256) 8 8 (-5) 200) as [H1 H2];
    [|unfold moderate; lia|unfold moderate; lia|exact minus5|exact two_hundred|intros i _; right; discriminate|intros i _; right; discriminate|].
  - eexists. do 2 (split; [reflexivity|]). split; [exists site; reflexivity|]. eexists. split; [reflexivity|]. apply constant_carries; [lia|unfold is_u; lia|reflexivity].
  - destruct H2 as [r Er]; [reflexivity|eexists; split; [reflexivity|exists site; reflexivity]|eexists; split; [reflexivity|exists site; reflexivity]|].
    destruct (H1 r Er) as (W & _ & Hh & _). exists r, W. split; [exact Er|exact Hh].
Defined.

Lemma lowered_shift_exact_witness :
  exists r W, lowerExactIntegerShiftRight es site (arg 2 8 0 256) (num 3) = inr r /\ holds es env r W 25.
Proof.
  destruct (lowered_shift_exact (HL := Reference.laws) es env site (arg 2 8 0 256) 8 200 (num 3)) as (r & W & Er & _ & Hh & _);
    [unfold moderate; lia|exact two_hundred|vm_compute; discriminate|reflexivity|intros i [= <-]; vm_compute; discriminate|vm_compute; discriminate|].
  exists r, W. split; [exact Er|exact Hh].
Defined.

Lemma lowered_boundary_exact_witness :
  exists v, lowerExactIntegerBoundary es site (arg 2 8 0 256) (bitsType site 16) = inr v /\ evals es env v 16 200.
Proof.
  destruct (lowered_boundary_exact (HL := Reference.laws) es env site (arg 2 8 0 256) 8 200 (bitsType site 16) 16 (mkInterval (num 0) (num 256)))
    as (H1 & H2 & _); [unfold moderate; lia|exact two_hundred|reflexivity|reflexivity|unfold u32_max; lia|].
  destruct H2 as [v Ev]; [reflexivity|eexists; split; [reflexivity|exists site; reflexivity]|exists site; reflexivity|vm_compute; discriminate|vm_compute; discriminate|].
  exists v. split; [exact Ev|apply (H1 v Ev)].
Defined.

Lemma refined_interval_sound_witness :
  exists i, refineUnsignedSelectInterval "ult" true None 8 (num 10) (num 20) = Some i /\
    aps_value (lower i) <= selected "ult" true 7 10 20 < aps_value (upper i).
Proof.
  eexists. split; [reflexivity|].
  apply (refined_interval_sound (HL := Reference.laws) "ult" true None 8 (num 10) (num 20)); [lia|reflexivity|lia|discriminate].
Defined.
End LoweringWitness.

(** A lowered addition of negative 64-bit integers is wrong.  Both
    operands carry integers of their intervals, the lowering succeeds, and the
    code it emits for [-2 + 0] computes [-1]: the runtime's [sext] sets every
    bit of the sign word when the source width is a whole number of words. *)
Theorem lowered_word_addition_defect :
  let lhs := LoweringWitness.arg 4 64 (- 2 ^ 63) (2 ^ 63) in
  let rhs := LoweringWitness.arg 5 64 (- 2 ^ 63) (2 ^ 63) in
  holds LoweringWitness.es LoweringWitness.env lhs 64 (-2) /\ holds LoweringWitness.es LoweringWitness.env rhs 64 0 /\
  LoweringWitness.emitted (lowerExactIntegerBinary LoweringWitness.es LoweringWitness.site Add lhs rhs) =
    Some (any_state (fs_of (ones 65))) /\
  carries (fs_of (ones 65)) (-1).
Proof.
  cbn zeta. split; [apply LoweringWitness.word_value; auto|]. split; [apply LoweringWitness.word_value; auto|].
  split; [vm_compute; reflexivity|]. assert (HW : PosWidth 65) by (unfold PosWidth; lia).
  apply carries_fs_of; [apply ones_spec|vm_compute; reflexivity].
Qed.
