(* ===== verification/DivRemLowering.v ===== *)
(** * Division by a constant: [compiler/lib/Compiler/FixedUnsignedDivRemLowering.cpp]

    An unsigned quotient or remainder by a constant is lowered to a product
    with a reciprocal and an extraction; no division is emitted. *)

From Stdlib Require Import ZArith Lia String.
From stdpp Require Import base list numbers strings.
From S2P Require Import Bits BitsLogic FourState FourStateSpec.
From S2P Require Import Prelude ModelInput ConfigSpec CompilerPrelude ApInt ValueSemantics ValueSemanticsSpec HardwareTypes HardwareAnalysis HardwareAnalysisSpec HardwareLayoutSpec.
From S2P Require Import HardwareIr HardwareIrSpec NumericLowering NumericLoweringSpec.

Open Scope string_scope.
Open Scope Z_scope.

Inductive FixedUnsignedDivRemResult := Quotient | Remainder.
#[export] Instance FixedUnsignedDivRemResult_eq_dec : EqDecision FixedUnsignedDivRemResult.
Proof. solve_decision. Defined.

(** The checks of the surroundings: the contexts of location, origin, span,
    package and numerator; the insertion block; the numerator's producer. *)
Record DivRemSite := mkDivRemSite {
  contextsAgree : bool;
  insertionInPackage : bool;
  producerInPackage : bool;
}.

Section Lowering.
Context `{L : ApLib}.

(** The reciprocal [ceil(2^low / divisor)] in [productWidth] bits. *)
Definition reciprocal_of (productWidth low : Z) (divisor : APSInt) : FailureOr APInt :=
  let power := ap_setBit (ap_of productWidth 0) low in
  let denominator := zextOrTrunc (aps_int divisor) productWidth in
  let '(reciprocal, residual) := udivrem power denominator in
  let! reciprocal :=
    if negb (ap_isZero residual) then
      let '(sum, overflow) := uadd_ov reciprocal (ap_of productWidth 1) in
      if overflow then failure "unsigned division/remainder reciprocal exceeds its proven representation"
      else success sum
    else success reciprocal in
  if ap_ugt reciprocal power
  then failure "unsigned division/remainder reciprocal exceeds its proven representation"
  else success reciprocal.

(** The operations created once every check has passed. *)
Definition divrem_value (site : NumericLoweringSite) (numerator : Value) (productWidth low : Z) (reciprocal : APInt)
    (divisor : APSInt) (resultKind : FixedUnsignedDivRemResult) : Value :=
  let wideType := bitsType site productWidth in
  let originalType := getType numerator in
  let wide := BitsResizeOp "zext" numerator wideType in
  let constant := BitsConstantOp (integerExpression site (aps reciprocal true)) wideType in
  let product := BitsBinaryOp "mul" wide constant wideType in
  let quotient := BitsExtractOp (integerExpression site (aps_getUnsigned low)) product originalType in
  if decide (resultKind = Quotient) then quotient
  else
    let originalDivisor := BitsConstantOp (integerExpression site divisor) originalType in
    let scaled := BitsBinaryOp "mul" quotient originalDivisor originalType in
    BitsBinaryOp "sub" numerator scaled originalType.

(** [packedWidth] is the answer of [HardwareAnalysis::getPackedWidth]. *)
Definition lowerFixedUnsignedDivRem (packedWidth : HwType -> Run Z) (surroundings : DivRemSite) (site : NumericLoweringSite)
    (numerator : NumericValue) (authoritativeUnsigned : bool) (divisor : APSInt) (resultKind : FixedUnsignedDivRemResult)
  : Run Value :=
  if negb (contextsAgree surroundings) then rfail "unsigned division/remainder context mismatch"
  else
    let? ok := Some (verifySite site) in
    if negb (insertionInPackage surroundings) then rfail "unsigned division/remainder requires a valid insertion point"
    else
      match nv_value numerator with
      | None => rfail "unsigned division/remainder requires authoritative unsigned bits"
      | Some value =>
        if negb authoritativeUnsigned || bool_decide (sourceKind numerator = Some KindBoolean) ||
           negb (match getType value with BitsType _ => true | _ => false end)
        then rfail "unsigned division/remainder requires authoritative unsigned bits"
        else if negb (producerInPackage surroundings) then rfail "unsigned division/remainder context mismatch"
        else
          let? width := packedWidth (getType value) in
          if width =? 0 then rfail "unsigned division/remainder requires a positive resolved input width"
          else if aps_isNegative divisor || ap_isZero (aps_int divisor)
          then rfail "unsigned division/remainder divisor must be positive"
          else if width <? getActiveBits (aps_int divisor)
          then rfail "unsigned division/remainder divisor must fit input width"
          else
            let capacity := u32_max in
            let logarithm := u64_sub (getActiveBits (aps_int divisor)) (if isPowerOf2 (aps_int divisor) then 1 else 0) in
            if (capacity <? width) || (capacity - width <? logarithm)
            then rfail "unsigned division/remainder geometry exceeds compiler representation capacity"
            else
              let shift := width + logarithm in
              if (shift =? capacity) || (capacity - shift <? width)
              then rfail "unsigned division/remainder geometry exceeds compiler representation capacity"
              else
                let productWidth := wrapu 32 (width + shift) in
                let low := wrapu 32 shift in
                let? reciprocal := Some (reciprocal_of productWidth low divisor) in
                rdone (divrem_value site value productWidth low reciprocal divisor resultKind)
      end.
End Lowering.

(** ** The reciprocal *)

Definition ceil_div (a d : Z) : Z := (a + d - 1) / d.

(** A numerator below [2^w] times the reciprocal, shifted back, is its
    quotient by a divisor of at most [l] bits. *)
Lemma reciprocal_quotient n d w l : 0 < d <= 2 ^ l -> 0 <= w -> 0 <= l -> 0 <= n < 2 ^ w ->
  n * ceil_div (2 ^ (w + l)) d / 2 ^ (w + l) = n / d.
Proof.
  intros Hd Hw Hl Hn. set (S := 2 ^ (w + l)). assert (HS : S = 2 ^ w * 2 ^ l) by (apply Z.pow_add_r; lia).
  pose proof (Z.pow_pos_nonneg 2 w ltac:(lia) Hw). pose proof (Z.pow_pos_nonneg 2 l ltac:(lia) Hl).
  unfold ceil_div. set (m := (S + d - 1) / d). pose proof (Z.div_mod (S + d - 1) d ltac:(lia)) as Em. fold m in Em.
  pose proof (Z.mod_pos_bound (S + d - 1) d ltac:(lia)) as Hr. set (e := d * m - S). assert (He : 0 <= e < d) by (unfold e; lia).
  pose proof (Z.div_mod n d ltac:(lia)) as En. pose proof (Z.mod_pos_bound n d ltac:(lia)) as Hm.
  set (q := n / d) in *. set (r := n mod d) in *. symmetry. apply (Z.div_unique _ _ _ (r * m + q * e)); [left|].
  - assert (Hq : 0 <= q) by (unfold q; apply Z.div_pos; lia). split; [nia|].
    assert (Hdr : d * (r * m + q * e) < d * S); [|nia].
    assert (d * m = S + e) by (unfold e; lia). assert (n * e < S) by nia.
    replace (d * (r * m + q * e)) with (r * (d * m) + (d * q) * e) by ring. rewrite H1. replace (d * q) with (n - r) by lia. nia.
  - assert (d * m = S + e) by (unfold e; lia). rewrite En at 1. replace ((d * q + r) * m) with (q * (d * m) + r * m) by ring. rewrite H1. ring.
Qed.

Lemma ceil_div_le d s : 0 < d -> 0 < s -> 0 < ceil_div s d <= s.
Proof.
  intros Hd Hs. unfold ceil_div. split; [apply Z.div_str_pos; lia|]. apply Z.div_le_upper_bound; nia.
Qed.

Section Spec.
Context `{L : ApLib} {HL : ApLaws L}.
Variable es : StaticExpr -> option (FailureOr Attribute).

(** The least [l] with [divisor <= 2^l]. *)
Definition ceil_log (s : APSInt) : Z := getActiveBits (aps_int s) - (if isPowerOf2 (aps_int s) then 1 else 0).

Lemma ceil_log_spec s : 0 < aps_value s -> 0 <= ceil_log s <= bit_length (aps_value s) /\ aps_value s <= 2 ^ ceil_log s.
Proof.
  intros Hs. unfold ceil_log. rewrite aps_active by lia. pose proof (bit_length_lt_pow (aps_value s) ltac:(lia)) as Hb.
  pose proof (bit_length_nonneg (aps_value s)) as H0. destruct (isPowerOf2 (aps_int s)) eqn:E.
  - apply isPowerOf2_law in E as (k & Hk & E). rewrite <- aps_value_nonneg in E by lia.
    assert (Ek : bit_length (aps_value s) = k + 1).
    { unfold bit_length. destruct (Z.eqb_spec (aps_value s) 0); [lia|]. rewrite E, Z.log2_pow2 by lia. reflexivity. }
    rewrite Ek. replace (k + 1 - 1) with k by lia. lia.
  - rewrite Z.sub_0_r. lia.
Qed.

Lemma reciprocal_of_spec W low divisor : 0 < W < 2 ^ 32 -> 0 <= low < W -> 0 < aps_value divisor < 2 ^ W ->
  exists r, reciprocal_of W low divisor = inr r /\ ap_is r W (ceil_div (2 ^ low) (aps_value divisor)) /\
    0 < ceil_div (2 ^ low) (aps_value divisor) <= 2 ^ low.
Proof.
  intros HW Hl Hd. set (d := aps_value divisor) in *. pose proof (Z.pow_pos_nonneg 2 low ltac:(lia) ltac:(lia)) as Hp.
  pose proof (Z.pow_lt_mono_r 2 low W ltac:(lia) ltac:(lia) ltac:(lia)) as Hlt.
  pose proof (ceil_div_le d (2 ^ low) ltac:(lia) Hp) as Hc.
  destruct (ap_of_law W 0 HW ltac:(unfold is_u; lia)) as [W0 B0].
  assert (Hpow : ap_is (ap_setBit (ap_of W 0) low) W (2 ^ low)).
  { destruct (ap_setBit_law (ap_of W 0) low ltac:(rewrite W0; lia)) as [W1 B1]. split; [congruence|].
    rewrite B1, B0, W0, Z.mod_0_l by (apply Z.pow_nonzero; lia). rewrite Z.lor_0_l. reflexivity. }
  assert (Hden : ap_is (zextOrTrunc (aps_int divisor) W) W d).
  { unfold d. rewrite aps_value_nonneg by (fold d; lia). apply zextOrTrunc_law, HW. }
  unfold reciprocal_of. set (power := ap_setBit _ _) in *. set (den := zextOrTrunc _ _) in *.
  assert (Bp : ap_bits power = 2 ^ low) by (destruct Hpow as [_ ->]; apply Z.mod_small; lia).
  assert (Bd : ap_bits den = d) by (destruct Hden as [_ ->]; apply Z.mod_small; lia).
  destruct (udivrem_law power den) as [[Wq Bq] [Wr Br]]; [destruct Hpow, Hden; congruence|rewrite Bd; lia|].
  rewrite Bp, Bd in *. replace (getBitWidth power) with W in * by (destruct Hpow; congruence).
  destruct (udivrem power den) as [q r]. cbn [fst snd] in *. rewrite ap_isZero_law.
  pose proof (Z.div_mod (2 ^ low) d ltac:(lia)) as Edm. pose proof (Z.mod_pos_bound (2 ^ low) d ltac:(lia)) as Hmd.
  assert (Hq : 0 <= 2 ^ low / d <= 2 ^ low) by (split; [apply Z.div_pos; lia|apply Z.div_le_upper_bound; nia]).
  rewrite Z.mod_small in Bq by lia. rewrite (Z.mod_small (2 ^ low mod d)) in Br by lia. rewrite Br.
  assert (Hfin : forall x, ap_is x W (ceil_div (2 ^ low) d) -> ap_ugt x power = false).
  { intros x [Wx Bx]. rewrite ap_ugt_law by (destruct Hpow; congruence). rewrite Bp, Bx, Z.mod_small by lia. apply Z.ltb_ge. lia. }
  destruct (Z.eqb_spec (2 ^ low mod d) 0) as [E|E]; cbn [negb].
  - assert (Hx : ap_is q W (ceil_div (2 ^ low) d)).
    { split; [exact Wq|]. rewrite Bq, Z.mod_small by lia. unfold ceil_div. apply (Z.div_unique _ _ _ (d - 1)); lia. }
    unfold success. cbn [fbind]. rewrite (Hfin q Hx). exists q. auto.
  - assert (Hx : 2 ^ low / d + 1 = ceil_div (2 ^ low) d) by (unfold ceil_div; apply (Z.div_unique _ _ _ (2 ^ low mod d - 1)); lia).
    destruct (ap_of_law W 1 HW ltac:(unfold is_u; lia)) as [W1 B1]. assert (1 < 2 ^ W) by (apply Z.pow_gt_1; lia).
    rewrite Z.mod_small in B1 by lia. destruct (uadd_ov_law q (ap_of W 1)) as [[Ws Bs] Ov]; [congruence|]. rewrite B1, Bq, Wq in *.
    destruct (uadd_ov q (ap_of W 1)) as [sum overflow]. cbn [fst snd] in *. rewrite Hx in *. rewrite Ov.
    destruct (Z.leb_spec (2 ^ W) (ceil_div (2 ^ low) d)); [lia|]. unfold success. cbn [fbind].
    assert (Hs : ap_is sum W (ceil_div (2 ^ low) d)) by (split; congruence). rewrite (Hfin sum Hs). exists sum. auto.
Qed.

(** A constant operation of a literal evaluates to it. *)
Lemma evals_literal env site t W s : 0 < W -> widthOf es t = inr W -> 0 <= aps_value s -> small (aps_value s) ->
  evals es env (BitsConstantOp (integerExpression site s) t) W (aps_value s).
Proof.
  intros HW Ht Hs Hsm. destruct (knownInteger_literal es (site_provenance site) s Hsm) as (k & Ek & Vk).
  rewrite <- Vk, aps_value_nonneg by lia. apply evals_constant; assumption.
Qed.

Lemma evals_quotient env site v w l n m d r : moderate w -> 0 <= l <= w -> evals es env v w n -> 0 <= n < 2 ^ w ->
  widthOf es (getType v) = inr w -> ap_is r (w + (w + l)) m -> 0 < m <= 2 ^ (w + l) ->
  evals es env (divrem_value site v (w + (w + l)) (w + l) r d Quotient) w (n * m / 2 ^ (w + l)).
Proof.
  unfold moderate. intros Hw Hl He Hn Ht Hr Hm. unfold divrem_value. rewrite decide_True by reflexivity. cbn zeta.
  set (P := w + (w + l)) in *. assert (HP : 0 < P <= u32_max) by (unfold P, u32_max; lia). pose proof (bitsType_width es site P HP) as HtP.
  assert (HPw : PosWidth P) by (unfold PosWidth; lia). assert (Hww : PosWidth w) by (unfold PosWidth; lia).
  assert (HmP : m < 2 ^ P) by (pose proof (Z.pow_lt_mono_r 2 (w + l) P); lia).
  pose proof (unsigned_value r P m Hr ltac:(lia)) as Vm.
  destruct (knownInteger_literal es (site_provenance site) (aps_getUnsigned (w + l))) as (k & Ek & Vk);
    [rewrite getUnsigned_value by lia; apply small_u; lia|]. rewrite getUnsigned_value in Vk by lia.
  match goal with |- HardwareIrSpec.evals _ _ (BitsExtractOp ?e ?a ?t) _ _ =>
    pose proof (evals_extract es env e a P t w k (n * m)) as Hx end.
  rewrite Vk in Hx. apply Hx; [lia|lia|exact Ht|exact Ek|lia|lia|]. clear Hx.
  eapply evals_binary; [lia|reflexivity| | |].
  - intros p q Hp Hq. apply (gives_mul (HW := HPw)); eassumption.
  - eapply evals_resize; [exact HtP|reflexivity| |exact He]. intros p Cp. apply gives_zext; [exact Cp|lia|exact Hn].
  - rewrite <- Vm. apply evals_literal; [lia|exact HtP|lia|]. rewrite Vm. apply (pow_le_small m (w + l)); lia.
Qed.

Lemma evals_divrem env site v w n d kind : moderate w -> evals es env v w n -> 0 <= n < 2 ^ w ->
  widthOf es (getType v) = inr w -> 0 < aps_value d < 2 ^ w ->
  let l := ceil_log d in
  exists r, reciprocal_of (w + (w + l)) (w + l) d = inr r /\
    evals es env (divrem_value site v (w + (w + l)) (w + l) r d kind) w
      (match kind with Quotient => n / aps_value d | Remainder => n mod aps_value d end).
Proof.
  intros Hw He Hn Ht Hd l. destruct (ceil_log_spec d ltac:(lia)) as [Hl Hle]. fold l in Hl, Hle. pose proof Hw as Hw'. unfold moderate in Hw'.
  assert (Hlw : l <= w) by (transitivity (bit_length (aps_value d)); [lia|apply bit_length_le; lia]).
  pose proof (Z.pow_le_mono_r 2 w (w + (w + l)) ltac:(lia) ltac:(lia)).
  destruct (reciprocal_of_spec (w + (w + l)) (w + l) d) as (r & Er & Hr & Hm); [lia|lia|lia|]. exists r. split; [exact Er|].
  pose proof (evals_quotient env site v w l n _ d r Hw ltac:(lia) He Hn Ht Hr Hm) as Hq.
  rewrite reciprocal_quotient in Hq by lia. destruct kind; [exact Hq|]. unfold divrem_value in *.
  rewrite decide_True in Hq by reflexivity. rewrite decide_False by discriminate. cbn zeta in *.
  assert (Hww : PosWidth w) by (unfold PosWidth; lia). rewrite Z.mod_eq, (Z.mul_comm (aps_value d)) by lia.
  eapply evals_binary; [lia|reflexivity| |exact He|]; [intros p q Hp Hq'; apply (gives_sub (HW := Hww)); eassumption|].
  eapply evals_binary; [lia|reflexivity| |exact Hq|]; [intros p q Hp Hq'; apply (gives_mul (HW := Hww)); eassumption|].
  apply evals_literal; [lia|exact Ht|lia|]. apply (pow_le_small _ w); lia.
Qed.

(** The surroundings and the numerator pass the checks. *)
Definition admissible (surroundings : DivRemSite) (site : NumericLoweringSite) (numerator : NumericValue) (v : Value) : Prop :=
  surroundings = mkDivRemSite true true true /\ verifySite site = inr tt /\ nv_value numerator = Some v /\
  sourceKind numerator <> Some KindBoolean /\ exists width, getType v = BitsType width.

Lemma lower_divrem_unfold packedWidth surroundings site numerator v w d kind :
  admissible surroundings site numerator v -> packedWidth (getType v) = Some (inr w) -> 0 < w ->
  lowerFixedUnsignedDivRem packedWidth surroundings site numerator true d kind =
  if aps_isNegative d || ap_isZero (aps_int d) then rfail "unsigned division/remainder divisor must be positive"
  else if w <? getActiveBits (aps_int d) then rfail "unsigned division/remainder divisor must fit input width"
  else
    let logarithm := u64_sub (getActiveBits (aps_int d)) (if isPowerOf2 (aps_int d) then 1 else 0) in
    if (u32_max <? w) || (u32_max - w <? logarithm)
    then rfail "unsigned division/remainder geometry exceeds compiler representation capacity"
    else if (w + logarithm =? u32_max) || (u32_max - (w + logarithm) <? w)
    then rfail "unsigned division/remainder geometry exceeds compiler representation capacity"
    else let? reciprocal := Some (reciprocal_of (wrapu 32 (w + (w + logarithm))) (wrapu 32 (w + logarithm)) d) in
         rdone (divrem_value site v (wrapu 32 (w + (w + logarithm))) (wrapu 32 (w + logarithm)) reciprocal d kind).
Proof.
  intros (-> & Hs & Hv & Hk & width & Ht) Hp Hw. unfold lowerFixedUnsignedDivRem. cbn [contextsAgree insertionInPackage producerInPackage negb].
  rewrite Hs, Hv. cbn [rbind]. rewrite bool_decide_eq_false_2 by exact Hk. rewrite Ht in *. cbn [negb orb]. rewrite Hp. cbn [rbind].
  destruct (Z.eqb_spec w 0); [lia|]. reflexivity.
Qed.

Lemma lower_divrem_spec packedWidth env surroundings site numerator v w n d kind :
  admissible surroundings site numerator v -> packedWidth (getType v) = Some (inr w) -> widthOf es (getType v) = inr w ->
  moderate w -> evals es env v w n -> 0 <= n < 2 ^ w ->
  let result := lowerFixedUnsignedDivRem packedWidth surroundings site numerator true d kind in
  (0 < aps_value d < 2 ^ w -> exists r, result = Some (inr r) /\
     evals es env r w (match kind with Quotient => n / aps_value d | Remainder => n mod aps_value d end)) /\
  (aps_value d <= 0 \/ 2 ^ w <= aps_value d -> exists e, result = Some (inl e)).
Proof.
  intros Ha Hp Ht Hw He Hn result. unfold result. pose proof Hw as Hw'. unfold moderate in Hw'.
  rewrite (lower_divrem_unfold packedWidth surroundings site numerator v w d kind Ha Hp) by lia.
  rewrite aps_isNegative_law, aps_isZero_value. split.
  - intros Hd. destruct (Z.ltb_spec (aps_value d) 0); [lia|]. destruct (Z.eqb_spec (aps_value d) 0); [lia|]. cbn [orb].
    destruct (ceil_log_spec d ltac:(lia)) as [Hl Hle]. destruct (evals_divrem env site v w n d kind Hw He Hn Ht Hd) as (r & Er & Hr).
    assert (Hb : getActiveBits (aps_int d) = bit_length (aps_value d)) by (apply aps_active; lia).
    assert (Hbw : bit_length (aps_value d) <= w) by (apply bit_length_le; lia). rewrite Hb.
    destruct (Z.ltb_spec w (bit_length (aps_value d))); [lia|].
    assert (El : u64_sub (bit_length (aps_value d)) (if isPowerOf2 (aps_int d) then 1 else 0) = ceil_log d).
    { unfold ceil_log in *. rewrite Hb in *. unfold u64_sub, u64, wrapu. apply Z.mod_small. lia. }
    cbn zeta. rewrite El. unfold u32_max. destruct (Z.ltb_spec (2 ^ 32 - 1) w); [lia|].
    destruct (Z.ltb_spec (2 ^ 32 - 1 - w) (ceil_log d)); [lia|]. cbn [orb].
    destruct (Z.eqb_spec (w + ceil_log d) (2 ^ 32 - 1)); [lia|]. destruct (Z.ltb_spec (2 ^ 32 - 1 - (w + ceil_log d)) w); [lia|]. cbn [orb].
    unfold wrapu. rewrite !Z.mod_small by lia. rewrite Er. cbn [rbind]. eauto.
  - intros [Hd|Hd].
    + destruct (Z.ltb_spec (aps_value d) 0); [eexists; reflexivity|]. destruct (Z.eqb_spec (aps_value d) 0); [eexists; reflexivity|lia].
    + pose proof (Z.pow_pos_nonneg 2 w ltac:(lia) ltac:(lia)). destruct (_ || _); [eexists; reflexivity|].
      rewrite aps_active by lia. pose proof (bit_length_le (aps_value d) w ltac:(lia) ltac:(lia)).
      destruct (Z.ltb_spec w (bit_length (aps_value d))); [eexists; reflexivity|lia].
Qed.
End Spec.


Module DivRemWitness.
#[local] Existing Instance Reference.lib.
#[local] Existing Instance Reference.laws.
Definition es : StaticExpr -> option (FailureOr Attribute) := fun _ => None.
Definition site : NumericLoweringSite := mkSite 7%positive (inr tt).
Definition numerator : Value := Argument 1 (bitsType site 8).
Definition value : NumericValue := mkNumeric (Some numerator) None None None.
Definition env : positive -> option AnyState := fun _ => Some (any_state (fs_of (bits_of_word 8 200))).
Definition width : HwType -> Run Z := getPackedWidth [] 9 [] no_bindings.

Lemma numerator_evals : evals es env numerator 8 200.
Proof.
  assert (HW : PosWidth 8) by (unfold PosWidth; lia). destruct (bits_of_word_spec 200) as [Hwf Hb]; [unfold is_u; lia|].
  eexists. split; [reflexivity|]. apply carries_fs_of; [exact Hwf|exact Hb].
Qed.

End DivRemWitness.
