(* ===== verification/TableViews.v ===== *)
(** * Views of tables ([ACIRCollectionOps.cpp])

    A view presents a table under another shape without moving its elements:
    it reshapes, slices, transposes or rotates.  The verifier checks the
    parameters and the result shape ([viewSchema], [viewShape]); the emitters
    ask [getViewSourceOrdinal] which element of the input an element of the
    result is.  A physical layout is a chain of such steps. *)

From Stdlib Require Import ZArith Lia String.
From stdpp Require Import base list numbers strings gmap.
From S2P Require Import Prelude ModelInput CompilerPrelude ApInt ValueSemantics HardwareTypes HardwareAnalysis.

Open Scope string_scope.
Open Scope Z_scope.

(** A view parameter: a static expression, an array of attributes, of which
    those that are static expressions are [Some], or another attribute. *)
Inductive ViewParam := ExprParam (e : StaticExpr) | ArrayParam (xs : list (option StaticExpr)) | OtherParam.

(** The dictionary of parameters, in the order of the names. *)
Definition ViewParams := list (string * ViewParam).

Fixpoint get (p : ViewParams) (name : string) : option ViewParam :=
  match p with
  | [] => None
  | (key, value) :: rest => if decide (key = name) then Some value else get rest name
  end.

Record TableViewOp := mkTableView {
  view_kind : string;
  parameters : ViewParams;
  input_shape : list StaticExpr;
  input_element : HwType;
  result_shape : list StaticExpr;
  result_element : HwType;
}.

(** Two calls of which neither is skipped when the other fails. *)
Definition rboth {A B} (a : Run A) (b : Run B) : Run (A * B) :=
  match a, b with
  | None, _ | _, None => None
  | Some (inl m), _ => Some (inl m)
  | _, Some (inl m) => Some (inl m)
  | Some (inr x), Some (inr y) => rdone (x, y)
  end.

Definition view_names (kind : string) : option (list string) :=
  if decide (kind = "reshape") then Some ["shape"]
  else if decide (kind = "slice") then Some ["offsets"; "sizes"; "strides"]
  else if decide (kind = "transpose") then Some ["axes"]
  else if decide (kind = "rotate") then Some ["axis"; "offset"]
  else None.

(** One parameter.  A static expression of the model satisfies the grammar
    that [StaticExprAttr::verify] checks. *)
Definition schema_entry (kind : string) (p : ViewParams) (rank : nat) (name : string) : FailureOr unit :=
  match get p name with
  | None => failure "missing table view parameter"
  | Some raw =>
    if decide (kind = "rotate") then
      match raw with ExprParam _ => success tt | _ => failure "view parameter requires StaticExpr" end
    else
      match raw with
      | ArrayParam xs =>
        if (negb (bool_decide (kind = "reshape")) && negb (bool_decide (length xs = rank))) || bool_decide (xs = [])
        then failure "view parameter rank mismatch"
        else if bool_decide (None ∈ xs) then failure "view parameter requires StaticExpr"
        else success tt
      | _ => failure "view parameter rank mismatch"
      end
  end.

Fixpoint schema_entries (kind : string) (p : ViewParams) (rank : nat) (names : list string) : FailureOr unit :=
  match names with
  | [] => success tt
  | name :: rest => let! _ := schema_entry kind p rank name in schema_entries kind p rank rest
  end.

Definition viewSchema (kind : string) (p : ViewParams) (rank : nat) : FailureOr unit :=
  match view_names kind with
  | None => failure "unknown table view kind"
  | Some names =>
    if negb (bool_decide (length p = length names)) then failure "view parameter inventory mismatch"
    else schema_entries kind p rank names
  end.

(** ** Ordinals *)

(** The loop that takes the last coordinate first. *)
Fixpoint split_ordinal (extents : list Z) (ordinal : Z) : list Z :=
  match extents with
  | [] => []
  | extent :: rest => ordinal mod extent :: split_ordinal rest (ordinal / extent)
  end.

Definition coordinates (shape : list Z) (ordinal : Z) : list Z := rev (split_ordinal (rev shape) ordinal).

(** The loop [n = n * extent + coordinate] in 64 bits. *)
Fixpoint join_ordinal (n : Z) (shape source : list Z) : option Z :=
  match shape, source with
  | [], _ => Some n
  | extent :: shape, c :: source => join_ordinal (u64_add (u64_mul n extent) c) shape source
  | _ :: _, [] => None
  end.

(** Reading past the end of a vector; the verifier excludes it. *)
Definition past_end {A} : FailureOr A := failure "index out of range".
Definition checked {A} (o : option A) : FailureOr A := match o with Some a => success a | None => past_end end.

Section Views.
Context `{L : ApLib}.

(** ** Parameters *)

Variable package : Package.
Variable fuel : nat.
Variable b : HardwareBindings.
#[local] Abbreviation evaluateStatic := (evaluateStatic package fuel [] b).
#[local] Abbreviation resolveShape := (resolve_shape_with evaluateStatic).

Definition integerStatic (raw : option StaticExpr) : Run APSInt :=
  match raw with
  | None => rfail "view parameter requires StaticExpr"
  | Some expr =>
    let? value := evaluateStatic expr in
    match value with
    | MathIntAttr spelling => rdone (aps_of_string spelling)
    | _ => rfail "view parameter requires integer"
    end
  end.

Definition signedStatic (raw : option StaticExpr) : Run Z :=
  let? n := integerStatic raw in
  if 64 <? getSignificantBits (aps_int n) then rfail "view parameter exceeds signed 64 bits"
  else rdone (aps_getExtValue n).

Definition signedIntegerWidth (value : APSInt) : Z :=
  wrapu 32 (getBitWidth (aps_int value) + (if isUnsigned value then 1 else 0)).

Definition extendInteger (value : APSInt) (bits : Z) : APInt :=
  if isUnsigned value then zextOrTrunc (aps_int value) bits else sextOrTrunc (aps_int value) bits.

(** The expression a single parameter holds. *)
Definition expr_of (raw : option ViewParam) : option StaticExpr :=
  match raw with Some (ExprParam e) => Some e | _ => None end.

Definition rotateOffset (raw : option ViewParam) (extent : Z) : Run Z :=
  let? n := integerStatic (expr_of raw) in
  let bits := Z.max 65 (signedIntegerWidth n) in
  let modulus := ap_of bits extent in
  let remainder := ap_srem (extendInteger n bits) modulus in
  let remainder := if ap_isNegative remainder then ap_add remainder modulus else remainder in
  rdone (ap_bits remainder).

Definition exactVector (raw : option ViewParam) : Run (list APSInt) :=
  match raw with
  | Some (ArrayParam xs) => rmap integerStatic xs
  | _ => rfail "view parameter requires StaticExpr array"
  end.

Definition vectorStatic (raw : option ViewParam) : Run (list Z) :=
  match raw with
  | Some (ArrayParam xs) => rmap signedStatic xs
  | _ => rfail "view parameter requires StaticExpr array"
  end.

(** ** The shape of a view *)

(** One axis of a slice. *)
Definition slice_extent (extent : Z) (offset size stride : APSInt) : FailureOr Z :=
  if aps_isNegative offset || aps_isNegative size || ap_isZero (aps_int size) || aps_isNegative stride ||
     ap_isZero (aps_int stride)
  then failure "slice requires nonnegative offsets and positive sizes/strides"
  else
    let widest := Z.max (Z.max (getBitWidth (aps_int offset)) (getBitWidth (aps_int size)))
                        (Z.max (getBitWidth (aps_int stride)) 65) in
    let bits := wrapu 32 (widest * 2 + 1) in
    let last := ap_add (extendInteger offset bits)
                  (ap_mul (ap_sub (extendInteger size bits) (ap_of bits 1)) (extendInteger stride bits)) in
    if ap_uge last (ap_of bits extent) then failure "slice exceeds table extent"
    else success (ap_bits (aps_int size)).

Fixpoint slice_shape (extents : list Z) (offsets sizes strides : list APSInt) : FailureOr (list Z) :=
  match extents, offsets, sizes, strides with
  | [], _, _, _ => success []
  | extent :: extents, offset :: offsets, size :: sizes, stride :: strides =>
    let! n := slice_extent extent offset size stride in
    let! rest := slice_shape extents offsets sizes strides in
    success (n :: rest)
  | _, _, _, _ => past_end
  end.

(** [count] axes remain; [seen] marks the axes taken. *)
Fixpoint transpose_shape (shape : list Z) (seen : list bool) (count : nat) (axes : list Z) : FailureOr (list Z) :=
  match count with
  | O => success []
  | S count =>
    match axes with
    | [] => past_end
    | axis :: axes =>
      if (axis <? 0) || (Z.of_nat (length shape) <=? axis) || default false (seen !! Z.to_nat axis)
      then failure "transpose axes must be a rank permutation"
      else
        let! extent := checked (shape !! Z.to_nat axis) in
        let! rest := transpose_shape shape (<[Z.to_nat axis := true]> seen) count axes in
        success (extent :: rest)
    end
  end.

(** The expressions of an array parameter that passed the schema. *)
Definition exprs_of (raw : option ViewParam) : list StaticExpr :=
  match raw with Some (ArrayParam xs) => omap id xs | _ => [] end.

Definition viewShape (kind : string) (p : ViewParams) (shape : list Z) : Run (list Z) :=
  if decide (kind = "reshape") then
    let? result := resolveShape (exprs_of (get p "shape")) in
    if negb (product result =? product shape) then rfail "reshape must preserve element count" else rdone result
  else if decide (kind = "slice") then
    let? vectors := rboth (exactVector (get p "offsets")) (rboth (exactVector (get p "sizes")) (exactVector (get p "strides"))) in
    let '(offsets, (sizes, strides)) := vectors in
    Some (slice_shape shape offsets sizes strides)
  else if decide (kind = "transpose") then
    let? axes := vectorStatic (get p "axes") in
    Some (transpose_shape shape (replicate (length shape) false) (length shape) axes)
  else if decide (kind = "rotate") then
    let? axis := signedStatic (expr_of (get p "axis")) in
    if (axis <? 0) || (Z.of_nat (length shape) <=? axis) then rfail "rotate axis out of range"
    else
      let? extent := Some (checked (shape !! Z.to_nat axis)) in
      let? _ := rotateOffset (get p "offset") extent in
      rdone shape
  else rdone shape.

(** ** The element behind an element of a view *)

(** One coordinate of a slice. *)
Definition slice_coordinate (c : Z) (offset stride : APSInt) : Z :=
  let bits := Z.max 65 (wrapu 32 (Z.max (getBitWidth (aps_int offset)) (getBitWidth (aps_int stride)) + 64)) in
  ap_bits (ap_add (extendInteger offset bits) (ap_mul (ap_of bits c) (extendInteger stride bits))).

Fixpoint slice_source (source : list Z) (offsets strides : list APSInt) : FailureOr (list Z) :=
  match source, offsets, strides with
  | [], _, _ => success []
  | c :: source, offset :: offsets, stride :: strides =>
    let! rest := slice_source source offsets strides in
    success (slice_coordinate c offset stride :: rest)
  | _, _, _ => past_end
  end.

(** The assignments [source[axes[i]] = coords[i]]. *)
Fixpoint transpose_source (source axes coords : list Z) : FailureOr (list Z) :=
  match coords, axes with
  | [], _ => success source
  | c :: coords, axis :: axes =>
    let! _ := checked (if axis <? 0 then None else source !! Z.to_nat axis) in
    transpose_source (<[Z.to_nat axis := c]> source) axes coords
  | _, [] => past_end
  end.

Definition rotate_source (source : list Z) (axis shift extent : Z) : FailureOr (list Z) :=
  let! c := checked (source !! Z.to_nat axis) in
  success (<[Z.to_nat axis := u64_add c shift mod extent]> source).

(** The coordinates in the input of an element with coordinates [coords] in
    the result, except for a reshape. *)
Definition source_coordinates (kind : string) (p : ViewParams) (shape coords : list Z) : Run (list Z) :=
  if decide (kind = "slice") then
    let? vectors := rboth (exactVector (get p "offsets")) (exactVector (get p "strides")) in
    Some (slice_source coords (fst vectors) (snd vectors))
  else if decide (kind = "transpose") then
    let? axes := vectorStatic (get p "axes") in Some (transpose_source coords axes coords)
  else if decide (kind = "rotate") then
    let? axis := signedStatic (expr_of (get p "axis")) in
    if (axis <? 0) || (Z.of_nat (length shape) <=? axis) then rfail "rotate axis out of range"
    else
      let? extent := Some (checked (shape !! Z.to_nat axis)) in
      let? shift := rotateOffset (get p "offset") extent in
      Some (rotate_source coords axis shift extent)
  else rdone coords.

Definition getViewSourceOrdinal (view : TableViewOp) (ordinal : Z) : Run Z :=
  let? shapes := rboth (getTableShape package fuel [] b (TableType (input_shape view) (input_element view)))
                       (getTableShape package fuel [] b (TableType (result_shape view) (result_element view))) in
  let '(shape, out) := shapes in
  if product out <=? ordinal then rfail "view output ordinal out of range"
  else
    let coords := coordinates out ordinal in
    if decide (view_kind view = "reshape") then Some (checked (join_ordinal 0 out coords))
    else
      let? source := source_coordinates (view_kind view) (parameters view) shape coords in
      Some (checked (join_ordinal 0 shape source)).

(** ** Verification *)

(** [isStaticEvaluable] of an array of expressions and of the parameters. *)
Definition evaluable_array (shape : list StaticExpr) : option bool :=
  let shape := substitute b <$> shape in rall (evaluable package fuel [] [KArray shape] b) shape.

Definition evaluable_param (value : ViewParam) : option bool :=
  match value with
  | ExprParam e => evaluable package fuel [] [] b (substitute b e)
  | ArrayParam xs => evaluable_array (omap id xs)
  | OtherParam => Some true
  end.

Definition evaluable_params (p : ViewParams) : option bool := rall (fun entry => evaluable_param (snd entry)) p.

(** Run the check when the operation is closed. *)
Definition when_closed (requireResolved : bool) (evaluable : option bool) (check : Run unit) : Run unit :=
  if requireResolved then check
  else match evaluable with None => None | Some true => check | Some false => rdone tt end.

Definition check_shape (requireResolved : bool) (shape : list StaticExpr) : Run unit :=
  let? _ := Some (shapeSchema shape) in
  when_closed requireResolved (evaluable_array shape) (let? _ := resolveShape shape in rdone tt).

Definition equal_types (x y : HwType) : Run unit :=
  let? both := rboth (resolveType package fuel [] b x) (resolveType package fuel [] b y) in
  if areEquivalentHardwareTypes (fst both) (snd both) then rdone tt else rfail "table payload type mismatch".

(** The branch of [verifyCollectionOperation] for [TableViewOp]. *)
Definition verifyTableView (requireResolved : bool) (view : TableViewOp) : Run unit :=
  let? _ := check_shape requireResolved (input_shape view) in
  let? _ := check_shape requireResolved (result_shape view) in
  let? _ := equal_types (input_element view) (result_element view) in
  let? _ := Some (viewSchema (view_kind view) (parameters view) (length (input_shape view))) in
  when_closed requireResolved
    (and_then (evaluable_array (input_shape view))
       (and_then (evaluable_array (result_shape view)) (evaluable_params (parameters view))))
    (let? shapes := rboth (getTableShape package fuel [] b (TableType (input_shape view) (input_element view)))
                          (getTableShape package fuel [] b (TableType (result_shape view) (result_element view))) in
     let? expected := viewShape (view_kind view) (parameters view) (fst shapes) in
     if bool_decide (expected = snd shapes) then rdone tt else rfail "table.view result shape mismatch").

(** ** Physical layouts *)

(** The concrete walk over the steps of a [CollectionOp]'s layout. *)
Definition layout_walk (shape : list Z) (steps : list (string * ViewParams)) : Run (list Z) :=
  rfold (fun current step => viewShape (fst step) (snd step) current) shape steps.

(** The loop that checks each step against the declared shape. *)
Fixpoint layout_steps (requireResolved : bool) (current : list StaticExpr) (steps : list (string * ViewParams)) : Run unit :=
  match steps with
  | [] => rdone tt
  | (kind, p) :: rest =>
    if negb (bool_decide (kind ∈ ["reshape"; "transpose"; "rotate"]))
    then rfail "physical layout accepts only reshape, transpose and rotate steps"
    else
      let? _ := Some (viewSchema kind p (length current)) in
      let? _ := when_closed requireResolved (and_then (evaluable_array current) (evaluable_params p))
                  (let? shape := resolveShape current in let? _ := viewShape kind p shape in rdone tt) in
      layout_steps requireResolved (if decide (kind = "reshape") then exprs_of (get p "shape") else current) rest
  end.

Definition verify_layout (requireResolved : bool) (shape : list StaticExpr) (steps : list (string * ViewParams)) : Run unit :=
  let? _ := layout_steps requireResolved shape steps in
  when_closed requireResolved (rall (fun step => evaluable_params (snd step)) steps)
    (let? current := resolveShape shape in let? _ := layout_walk current steps in rdone tt).
End Views.
