(* ===== verification/TableViewsSpec.v ===== *)
(** * Views of tables address their input correctly

    Row-major ordinals and coordinates are inverse to each other; a verified
    view maps the coordinates of every result element to the coordinates the
    view's meaning gives, inside the input, and no two result elements to the
    same input element. *)

From Stdlib Require Import ZArith Lia String.
From stdpp Require Import base list numbers strings gmap.
From S2P Require Import Prelude ModelInput ConfigSpec CompilerPrelude ApInt ValueSemantics ValueSemanticsSpec HardwareTypes HardwareAnalysis HardwareAnalysisSpec HardwareLayoutSpec TableViews.

Open Scope Z_scope.
Open Scope list_scope.

(** ** Row-major ordinals *)

(** The coordinates lie in the shape. *)
Definition inside (shape coords : list Z) : Prop := Forall2 (fun extent c => 0 <= c < extent) shape coords.

(** The position of an element in row-major order. *)
Fixpoint position (shape coords : list Z) : Z :=
  match shape, coords with
  | _ :: shape, c :: coords => c * zprod shape + position shape coords
  | _, _ => 0
  end.

Lemma inside_pos shape coords : inside shape coords -> Forall (fun x => 0 < x) shape.
Proof. induction 1; constructor; [lia|assumption]. Qed.

Lemma zprod_cons x l : zprod (x :: l) = x * zprod l.
Proof. reflexivity. Qed.

Lemma position_range shape coords : inside shape coords -> 0 <= position shape coords < zprod shape.
Proof.
  induction 1 as [|x c shape coords Hc H IH]; [cbn; lia|]. rewrite zprod_cons. cbn [position].
  pose proof (zprod_pos shape (inside_pos _ _ H)). nia.
Qed.

Lemma position_inj shape u v : inside shape u -> inside shape v -> position shape u = position shape v -> u = v.
Proof.
  intros Hu. revert v. induction Hu as [|x c shape u Hc Hu IH]; intros v Hv E.
  - apply Forall2_nil_inv_l in Hv. congruence.
  - apply Forall2_cons_inv_l in Hv as (d & v' & Hd & Hv & ->). cbn [position] in E.
    pose proof (position_range _ _ Hu). pose proof (position_range _ _ Hv). assert (c = d) as -> by nia.
    f_equal. apply IH; [exact Hv|lia].
Qed.

Lemma position_snoc shape coords x c : length shape = length coords ->
  position (shape ++ [x]) (coords ++ [c]) = position shape coords * x + c.
Proof.
  revert coords. induction shape as [|y shape IH]; intros [|d coords]; try discriminate; cbn [length app position]; [cbn; lia|].
  intros [= E]. rewrite IH by exact E. rewrite zprod_snoc. lia.
Qed.

Lemma coordinates_snoc shape x n : coordinates (shape ++ [x]) n = coordinates shape (n / x) ++ [n mod x].
Proof. unfold coordinates. rewrite rev_unit. reflexivity. Qed.

(** Splitting an ordinal gives coordinates of the shape at that position. *)
Lemma coordinates_spec shape : Forall (fun x => 0 < x) shape -> forall n, 0 <= n < zprod shape ->
  inside shape (coordinates shape n) /\ position shape (coordinates shape n) = n.
Proof.
  intros Hp. induction shape as [|x shape IH] using rev_ind; intros n Hn; [cbn in *; split; [constructor|lia]|].
  apply Forall_app in Hp as [Hp Hx]. apply Forall_cons in Hx as [Hx _]. rewrite zprod_snoc in Hn.
  assert (Hq : 0 <= n / x < zprod shape) by (split; [apply Z.div_pos; lia|apply Z.div_lt_upper_bound; lia]).
  destruct (IH Hp _ Hq) as [Hi Hpos]. rewrite coordinates_snoc. split.
  - apply Forall2_app; [exact Hi|]. repeat constructor; apply Z.mod_pos_bound; lia.
  - rewrite position_snoc by (eapply Forall2_length; exact Hi). rewrite Hpos. pose proof (Z.div_mod n x). lia.
Qed.

Lemma coordinates_position shape coords : inside shape coords -> coordinates shape (position shape coords) = coords.
Proof.
  intros H. pose proof (coordinates_spec shape (inside_pos _ _ H) _ (position_range _ _ H)) as [Hi Hp].
  eapply position_inj; eassumption.
Qed.

(** The 64-bit loop computes the position. *)
Lemma join_ordinal_position shape coords : inside shape coords -> forall n, 0 <= n -> (n + 1) * zprod shape <= int64_limit ->
  join_ordinal n shape coords = Some (n * zprod shape + position shape coords).
Proof.
  induction 1 as [|x c shape coords Hc H IH]; intros n Hn Hb; [cbn; f_equal; lia|]. rewrite zprod_cons in *.
  pose proof (zprod_pos shape (inside_pos _ _ H)) as Hz. cbn [join_ordinal position]. unfold int64_limit in *.
  assert (E : u64_add (u64_mul n x) c = n * x + c).
  { unfold u64_add, u64_mul. assert (n * x + x <= 2 ^ 63) by nia. rewrite (u64_id (n * x)) by (unfold is_u; nia).
    apply u64_id. unfold is_u. nia. }
  rewrite E, IH by nia. f_equal. lia.
Qed.

Corollary join_ordinal_spec shape coords : sized shape -> inside shape coords ->
  join_ordinal 0 shape coords = Some (position shape coords).
Proof. intros [_ Hb] Hi. rewrite (join_ordinal_position shape coords Hi 0) by lia. f_equal. Qed.

Lemma zprod_elem shape x : Forall (fun x => 0 < x) shape -> x ∈ shape -> 0 < x <= zprod shape.
Proof.
  induction 1 as [|y shape Hy H IH]; intros Hin; [apply elem_of_nil in Hin; contradiction|]. rewrite zprod_cons.
  pose proof (zprod_pos shape H). apply elem_of_cons in Hin as [-> | Hin]; [nia|]. specialize (IH Hin). nia.
Qed.

Lemma sized_elem shape x : sized shape -> x ∈ shape -> 0 < x <= int64_limit.
Proof. intros [Hp Hb] Hin. pose proof (zprod_elem shape x Hp Hin). lia. Qed.

Section Views.
Context `{L : ApLib} {HL : ApLaws L}.
Variable package : Package.
Variable fuel : nat.
Variable b : HardwareBindings.
#[local] Abbreviation integerStatic := (integerStatic package fuel b).
#[local] Abbreviation signedStatic := (signedStatic package fuel b).
#[local] Abbreviation rotateOffset := (rotateOffset package fuel b).
#[local] Abbreviation exactVector := (exactVector package fuel b).
#[local] Abbreviation vectorStatic := (vectorStatic package fuel b).
#[local] Abbreviation viewShape := (viewShape package fuel b).
#[local] Abbreviation source_coordinates := (source_coordinates package fuel b).

(** ** Numbers *)

(** A number of at most [2^30] bits, so that no 32-bit precision wraps. *)
Definition narrow (n : APSInt) : Prop := getBitWidth (aps_int n) <= 2 ^ 30.

Lemma extendInteger_is v bits : 0 < bits < 2 ^ 32 -> ap_is (extendInteger v bits) bits (aps_value v).
Proof.
  intros Hb. unfold extendInteger, aps_value. destruct (isUnsigned v); [apply zextOrTrunc_law|apply sextOrTrunc_law]; exact Hb.
Qed.

Lemma ap_is_bits a w z : ap_is a w z -> 0 <= z < 2 ^ w -> ap_bits a = z.
Proof. intros [_ ->] Hz. apply Z.mod_small. exact Hz. Qed.

Lemma aps_value_width n : 0 <= aps_value n -> aps_value n < 2 ^ getBitWidth (aps_int n).
Proof. intros H. rewrite aps_value_nonneg by exact H. apply ap_bits_range. Qed.

Lemma pow_split w v : 0 <= v < 2 ^ w -> 0 <= w -> forall m, w <= m -> v < 2 ^ m.
Proof. intros Hv Hw m Hm. pose proof (Z.pow_le_mono_r 2 w m). lia. Qed.

(** The bounds of one axis of a slice. *)
Definition slice_fits (extent : Z) (offset size stride : APSInt) : Prop :=
  0 <= aps_value offset /\ 0 < aps_value size /\ 0 < aps_value stride /\
  aps_value offset + (aps_value size - 1) * aps_value stride < extent.

Lemma last_bound o s t m : 0 <= m -> 0 <= o < 2 ^ m -> 0 < s < 2 ^ m -> 0 < t < 2 ^ m ->
  0 <= o + (s - 1) * t < 2 ^ (m * 2 + 1).
Proof.
  intros Hm Ho Hs Ht. replace (m * 2 + 1) with (1 + (m + m)) by lia. rewrite !Z.pow_add_r by lia. change (2 ^ 1) with 2.
  generalize dependent (2 ^ m). intros q Ho Hs Ht. nia.
Qed.

Lemma slice_extent_spec extent offset size stride n :
  narrow offset -> narrow size -> narrow stride -> 0 < extent <= int64_limit ->
  slice_extent extent offset size stride = inr n -> slice_fits extent offset size stride /\ n = aps_value size.
Proof.
  unfold slice_extent, narrow, int64_limit. intros No Ns Nt He. rewrite !aps_isNegative_law, !aps_isZero_value.
  destruct (Z.ltb_spec (aps_value offset) 0) as [|Ho]; [discriminate|]. destruct (Z.ltb_spec (aps_value size) 0) as [|Hs]; [discriminate|].
  destruct (Z.eqb_spec (aps_value size) 0) as [|Hs']; [discriminate|]. destruct (Z.ltb_spec (aps_value stride) 0) as [|Ht]; [discriminate|].
  destruct (Z.eqb_spec (aps_value stride) 0) as [|Ht']; [discriminate|]. cbn [orb]. cbv zeta.
  set (m := Z.max (Z.max _ _) (Z.max _ _)). assert (Hm : 65 <= m <= 2 ^ 30) by lia.
  pose proof (ap_width_range (aps_int offset)). pose proof (ap_width_range (aps_int size)). pose proof (ap_width_range (aps_int stride)).
  unfold wrapu. rewrite (Z.mod_small (m * 2 + 1)) by lia.
  assert (Hw : 0 < m * 2 + 1 < 2 ^ 32) by lia.
  pose proof (pow_split _ _ (conj Ho (aps_value_width _ Ho)) ltac:(lia) m ltac:(lia)) as Bo.
  pose proof (pow_split _ _ (conj Hs (aps_value_width _ Hs)) ltac:(lia) m ltac:(lia)) as Bs.
  pose proof (pow_split _ _ (conj Ht (aps_value_width _ Ht)) ltac:(lia) m ltac:(lia)) as Bt.
  pose proof (last_bound (aps_value offset) (aps_value size) (aps_value stride) m ltac:(lia) ltac:(lia) ltac:(lia) ltac:(lia)) as Bl.
  assert (I1 : ap_is (ap_of (m * 2 + 1) 1) (m * 2 + 1) 1) by (apply ap_of_law; [exact Hw|unfold is_u; lia]).
  assert (Ie : ap_is (ap_of (m * 2 + 1) extent) (m * 2 + 1) extent) by (apply ap_of_law; [exact Hw|unfold is_u; lia]).
  pose proof (ap_add_is _ _ _ _ _ (extendInteger_is offset _ Hw)
    (ap_mul_is _ _ _ _ _ (ap_sub_is _ _ _ _ _ (extendInteger_is size _ Hw) I1) (extendInteger_is stride _ Hw))) as Il.
  assert (Hex : 0 <= extent < 2 ^ (m * 2 + 1)) by (split; [lia|]; apply (pow_split 63); lia).
  set (last := ap_add _ _) in *. rewrite ap_uge_law by (destruct Il as [-> _], Ie as [-> _]; reflexivity).
  rewrite (ap_is_bits _ _ _ Il Bl), (ap_is_bits _ _ _ Ie Hex). destruct (Z.leb_spec extent (aps_value offset + (aps_value size - 1) * aps_value stride)); [discriminate|].
  intros [= <-]. rewrite <- aps_value_nonneg by lia. unfold slice_fits. lia.
Qed.

Lemma slice_coordinate_spec extent offset size stride c :
  narrow offset -> narrow stride -> extent <= int64_limit -> slice_fits extent offset size stride -> 0 <= c < aps_value size ->
  slice_coordinate c offset stride = aps_value offset + c * aps_value stride /\ 0 <= slice_coordinate c offset stride < extent.
Proof.
  unfold slice_fits, slice_coordinate, narrow, int64_limit. intros No Nt He (Ho & Hs & Ht & Hl) Hc. cbv zeta. set (w := Z.max 65 _).
  pose proof (ap_width_range (aps_int offset)). pose proof (ap_width_range (aps_int stride)).
  assert (Hw : 65 <= w < 2 ^ 32) by (unfold w, wrapu; rewrite Z.mod_small by lia; lia). clearbody w.
  assert (Hb : 0 <= aps_value offset + c * aps_value stride < extent) by nia.
  assert (Hc' : c < 2 ^ 63) by nia. assert (Hw' : 0 < w < 2 ^ 32) by lia.
  assert (Ic : ap_is (ap_of w c) w c) by (apply ap_of_law; [exact Hw'|unfold is_u; lia]).
  pose proof (ap_add_is _ _ _ _ _ (extendInteger_is offset w Hw') (ap_mul_is _ _ _ _ _ Ic (extendInteger_is stride w Hw'))) as I.
  rewrite (ap_is_bits _ _ _ I); [split; [reflexivity|exact Hb]|]. split; [lia|]. apply (pow_split 63); lia.
Qed.

Lemma rem_mod v e : 0 < e -> (if Z.rem v e <? 0 then Z.rem v e + e else Z.rem v e) = v mod e.
Proof.
  intros He. destruct (Z.leb_spec 0 v) as [Hv|Hv].
  - rewrite Z.rem_mod_nonneg by lia. pose proof (Z.mod_pos_bound v e He). destruct (Z.ltb_spec (v mod e) 0); lia.
  - pose proof (Z.quot_rem' v e) as Hq. pose proof (Z.rem_bound_pos_neg v e ltac:(lia) ltac:(lia)) as Hr.
    destruct (Z.ltb_spec (Z.rem v e) 0).
    + apply (Z.mod_unique v e (Z.quot v e - 1)); [left; lia|nia].
    + apply (Z.mod_unique v e (Z.quot v e)); [left; lia|lia].
Qed.

Lemma rotateOffset_spec raw extent k n : 0 < extent <= int64_limit -> narrow n ->
  integerStatic (expr_of raw) = Some (inr n) -> rotateOffset raw extent = Some (inr k) -> k = aps_value n mod extent.
Proof.
  unfold TableViews.rotateOffset, narrow, int64_limit. intros He Nn -> H. cbn [rbind] in H. cbv zeta in H.
  pose proof (ap_width_range (aps_int n)) as Hn. set (w := Z.max 65 _) in H.
  assert (Hw : 65 <= w < 2 ^ 32 /\ getBitWidth (aps_int n) + (if isUnsigned n then 1 else 0) <= w).
  { unfold w, signedIntegerWidth, wrapu. rewrite Z.mod_small by (destruct (isUnsigned n); lia). destruct (isUnsigned n); lia. }
  clearbody w. destruct Hw as [Hw Hnw]. assert (Hw' : 0 < w < 2 ^ 32) by lia.
  assert (Hfit : fits_signed w (aps_value n)).
  { unfold fits_signed, aps_value, ap_signed, signed. pose proof (ap_bits_range (aps_int n)) as Hr.
    destruct (isUnsigned n).
    - pose proof (Z.pow_le_mono_r 2 (getBitWidth (aps_int n) + 1) w ltac:(lia) ltac:(lia)) as Hp. rewrite Z.pow_add_r in Hp by lia. lia.
    - pose proof (Z.pow_le_mono_r 2 (getBitWidth (aps_int n)) w ltac:(lia) ltac:(lia)) as Hp. destruct (Z.ltb_spec (2 * ap_bits (aps_int n)) (2 ^ getBitWidth (aps_int n))); lia. }
  assert (H65 : 2 ^ 65 <= 2 ^ w) by (apply Z.pow_le_mono_r; lia).
  pose proof (extendInteger_is n w Hw') as In.
  assert (Ie : ap_is (ap_of w extent) w extent) by (apply ap_of_law; [exact Hw'|unfold is_u; lia]).
  assert (Fe : fits_signed w extent) by (unfold fits_signed; lia).
  assert (Be : ap_bits (ap_of w extent) = extent) by (apply (ap_is_bits _ w); [exact Ie|lia]).
  pose proof (ap_srem_law (extendInteger n w) (ap_of w extent) ltac:(destruct In as [-> _], Ie as [-> _]; reflexivity) ltac:(rewrite Be; lia)) as Ir.
  rewrite (ap_is_signed _ _ _ In Hfit), (ap_is_signed _ _ _ Ie Fe), (proj1 In) in Ir.
  set (r := Z.rem (aps_value n) extent) in *. assert (Hr : - extent < r < extent).
  { unfold r. pose proof (Z.rem_bound_abs (aps_value n) extent ltac:(lia)). lia. }
  rewrite ap_isNegative_law, (ap_is_signed _ _ _ Ir) in H by (unfold fits_signed; lia).
  rewrite <- (rem_mod (aps_value n) extent) by lia. fold r. injection H as <-. destruct (Z.ltb_spec r 0).
  - apply (ap_is_bits _ w); [apply ap_add_is; assumption|lia].
  - apply (ap_is_bits _ w); [exact Ir|lia].
Qed.

(** ** Parameters *)

Lemma rmap_inr {A B} (f : A -> Run B) xs ys : rmap f xs = Some (inr ys) -> Forall2 (fun x y => f x = Some (inr y)) xs ys.
Proof.
  revert ys. induction xs as [|x xs IH]; intros ys; cbn [rmap]; [intros [= <-]; constructor|].
  intros H. apply rbind_inr in H as (y & Ey & H). apply rbind_inr in H as (zs & Ez & [= <-]). constructor; [exact Ey|apply IH, Ez].
Qed.

Lemma rboth_inr {A B} (x : Run A) (y : Run B) r : rboth x y = Some (inr r) -> x = Some (inr (fst r)) /\ y = Some (inr (snd r)).
Proof. destruct x as [[m|u]|], y as [[m'|v]|]; cbn; try discriminate. intros [= <-]. auto. Qed.

Lemma checked_inr {A} (o : option A) a : checked o = inr a -> o = Some a.
Proof. destruct o; cbn; [intros [= ->]; reflexivity|discriminate]. Qed.

(** The expressions of a parameter. *)
Definition param_expr (raw : option ViewParam) (e : StaticExpr) : Prop :=
  match raw with Some (ExprParam e') => e = e' | Some (ArrayParam xs) => Some e ∈ xs | _ => False end.

Definition narrow_params (p : ViewParams) : Prop :=
  forall name e n, param_expr (get p name) e -> integerStatic (Some e) = Some (inr n) -> narrow n.

Lemma exactVector_spec p name ns : narrow_params p -> exactVector (get p name) = Some (inr ns) -> Forall narrow ns.
Proof.
  intros Hp H. unfold TableViews.exactVector in H. specialize (Hp name). destruct (get p name) as [[e|xs|]|]; try discriminate.
  apply rmap_inr in H. cbn [param_expr] in Hp. assert (Hx : forall x, x ∈ xs -> forall n, integerStatic x = Some (inr n) -> narrow n).
  { intros [e|] Hin n; [apply Hp; exact Hin|discriminate]. }
  clear Hp. induction H as [|x n xs ns E H IH]; constructor; [apply (Hx x); [left|exact E]|]. apply IH. intros y Hy. apply Hx. right. exact Hy.
Qed.

Lemma schema_rank kind p rank name : schema_entry kind p rank name = inr tt -> kind <> "reshape"%string -> kind <> "rotate"%string ->
  exists xs, get p name = Some (ArrayParam xs) /\ length xs = rank.
Proof.
  unfold schema_entry. destruct (get p name) as [raw|]; [|discriminate]. intros H Hr Ht. rewrite decide_False in H by exact Ht.
  destruct raw as [e|xs|]; try discriminate. exists xs. split; [reflexivity|]. rewrite bool_decide_false in H by exact Hr. cbn [negb andb] in H.
  case_bool_decide; [assumption|discriminate].
Qed.

(** ** Slices *)

Fixpoint slice_map (offsets strides : list APSInt) (coords : list Z) : list Z :=
  match offsets, strides, coords with
  | o :: offsets, s :: strides, c :: coords => aps_value o + c * aps_value s :: slice_map offsets strides coords
  | _, _, _ => []
  end.

Lemma slice_source_spec shape : sized shape -> forall offsets sizes strides out,
  Forall narrow offsets -> Forall narrow sizes -> Forall narrow strides ->
  slice_shape shape offsets sizes strides = inr out ->
  (forall coords, inside out coords ->
     slice_source coords offsets strides = inr (slice_map offsets strides coords) /\ inside shape (slice_map offsets strides coords)) /\
  (forall u v, inside out u -> inside out v -> slice_map offsets strides u = slice_map offsets strides v -> u = v).
Proof.
  intros Hs. assert (He : Forall (fun x => 0 < x <= int64_limit) shape) by (apply Forall_forall; intros x; apply sized_elem, Hs).
  clear Hs. induction He as [|x shape Hx He IH]; intros offsets sizes strides out No Ns Nt; cbn [slice_shape].
  - intros [= <-]. split; [intros coords H; apply Forall2_nil_inv_l in H as ->; cbn; destruct offsets, strides; split; constructor|].
    intros u v Hu Hv _. apply Forall2_nil_inv_l in Hu as ->. apply Forall2_nil_inv_l in Hv as ->. reflexivity.
  - destruct offsets as [|o offsets]; [discriminate|]. destruct sizes as [|s sizes]; [discriminate|]. destruct strides as [|t strides]; [discriminate|].
    apply Forall_cons in No as [No No']. apply Forall_cons in Ns as [Ns Ns']. apply Forall_cons in Nt as [Nt Nt'].
    intros H. apply fbind_inr in H as (n & En & H). apply fbind_inr in H as (rest & Er & [= <-]).
    apply slice_extent_spec in En as [Hf ->]; try assumption. destruct (IH _ _ _ _ No' Ns' Nt' Er) as [IH1 IH2]. split.
    + intros coords H. apply Forall2_cons_inv_l in H as (c & cs & Hc & H & ->). destruct (IH1 cs H) as [E I]. cbn [slice_source slice_map].
      rewrite E. cbn [fbind]. destruct (slice_coordinate_spec x o s t c No Nt ltac:(lia) Hf Hc) as [<- Hr]. split; [reflexivity|].
      constructor; assumption.
    + intros u v Hu Hv E. apply Forall2_cons_inv_l in Hu as (c & cs & Hc & Hu & ->). apply Forall2_cons_inv_l in Hv as (d & ds & Hd & Hv & ->).
      cbn [slice_map] in E. injection E as E1 E2. unfold slice_fits in Hf. f_equal; [nia|]. apply IH2; assumption.
Qed.

(** ** Transposes *)

(** The axes a transpose accepts and the extents it gives. *)
Lemma transpose_shape_spec shape count : forall seen axes out, length seen = length shape ->
  transpose_shape shape seen count axes = inr out ->
  length out = count /\ (count <= length axes)%nat /\
  Forall (fun axis => 0 <= axis < Z.of_nat (length shape) /\ seen !! Z.to_nat axis = Some false) (take count axes) /\
  NoDup (Z.to_nat <$> take count axes) /\
  forall i axis, take count axes !! i = Some axis -> out !! i = shape !! Z.to_nat axis.
Proof.
  induction count as [|count IH]; intros seen axes out Hl; cbn [transpose_shape].
  - intros [= <-]. repeat split; [lia|constructor|constructor|]. intros i axis. rewrite take_0, lookup_nil. discriminate.
  - destruct axes as [|a axes]; [discriminate|]. destruct (Z.ltb_spec a 0) as [|Ha]; [discriminate|].
    destruct (Z.leb_spec (Z.of_nat (length shape)) a) as [|Hb]; [discriminate|]. cbn [orb].
    destruct (lookup_lt_is_Some_2 seen (Z.to_nat a)) as [s Es]; [lia|]. rewrite Es. cbn [default]. destruct s; [discriminate|].
    intros H. apply fbind_inr in H as (x & Ex & H). apply checked_inr in Ex. apply fbind_inr in H as (rest & Er & [= <-]).
    apply IH in Er; [|rewrite length_insert; exact Hl]. destruct Er as (L1 & L2 & F & N & Hout). cbn [take length fmap list_fmap].
    split; [lia|]. split; [lia|]. rewrite Forall_forall in F. split; [|split].
    + constructor; [split; [lia|exact Es]|]. apply Forall_forall. intros c Hc. destruct (F c Hc) as [F1 F2]. split; [exact F1|].
      destruct (decide (Z.to_nat a = Z.to_nat c)) as [E|E]; [rewrite E, list_lookup_insert_eq in F2 by lia; discriminate|].
      rewrite list_lookup_insert_ne in F2 by exact E. exact F2.
    + apply NoDup_cons. split; [|exact N]. intros Hin. apply list_elem_of_fmap_1 in Hin as (c & E & Hc). destruct (F c Hc) as [_ F2].
      rewrite E, list_lookup_insert_eq in F2 by lia. discriminate.
    + intros [|i] axis; cbn; [intros [= <-]; symmetry; exact Ex|apply Hout].
Qed.

(** The assignments give each named axis its coordinate. *)
Lemma transpose_source_spec axes : forall coords source, (length coords <= length axes)%nat ->
  Forall (fun axis => 0 <= axis < Z.of_nat (length source)) (take (length coords) axes) ->
  NoDup (Z.to_nat <$> take (length coords) axes) ->
  exists result, transpose_source source axes coords = inr result /\ length result = length source /\
    (forall i axis c, axes !! i = Some axis -> coords !! i = Some c -> result !! Z.to_nat axis = Some c) /\
    (forall j, j ∉ (Z.to_nat <$> take (length coords) axes) -> result !! j = source !! j).
Proof.
  induction axes as [|a axes IH]; intros [|c coords] source Hl F N; cbn [transpose_source length take] in *; try lia.
  - exists source. repeat split; auto. intros i axis c. rewrite lookup_nil. discriminate.
  - exists source. repeat split; auto. intros i axis c _. rewrite lookup_nil. discriminate.
  - apply Forall_cons in F as [Ha F]. cbn [fmap list_fmap] in N. apply NoDup_cons in N as [Na N].
    destruct (Z.ltb_spec a 0); [lia|]. destruct (lookup_lt_is_Some_2 source (Z.to_nat a)) as [old Eo]; [lia|].
    change (0%nat) with 0%nat. destruct (IH coords (<[Z.to_nat a := c]> source)) as (result & Er & Hlen & Hin & Hout);
      [lia|rewrite length_insert; exact F|exact N|]. exists result. rewrite Eo. cbn [checked fbind].
    split; [exact Er|]. rewrite length_insert in Hlen. split; [exact Hlen|]. split.
    + intros [|i] axis d; cbn; [|apply Hin]. intros [= <-] [= <-]. rewrite Hout by exact Na. apply list_lookup_insert_eq. lia.
    + intros j Hj. cbn [fmap list_fmap] in Hj. apply not_elem_of_cons in Hj as [Hj1 Hj2]. rewrite Hout by exact Hj2.
      apply list_lookup_insert_ne. congruence.
Qed.

(** Distinct numbers below [n], [n] of them, are all the numbers below [n]. *)
Lemma permutation_surjective (l : list nat) n : NoDup l -> length l = n -> Forall (fun x => (x < n)%nat) l ->
  forall j, (j < n)%nat -> exists i, l !! i = Some j.
Proof.
  intros N Hl F j Hj. apply list_elem_of_lookup. assert (P : l ≡ₚ seq 0 n).
  { apply submseteq_length_Permutation; [|rewrite length_seq; lia]. apply NoDup_submseteq; [exact N|].
    intros x Hx. rewrite Forall_forall in F. apply elem_of_seq. specialize (F x Hx). lia. }
  rewrite P. apply elem_of_seq. lia.
Qed.

(** A relation that gives every number below [n] a number of its own below
    [n] reaches every number below [n]. *)
Lemma injection_onto (R : Z -> Z -> Prop) n : (forall i, 0 <= i < n -> exists j, 0 <= j < n /\ R i j) ->
  (forall i i' j, 0 <= i < n -> 0 <= i' < n -> R i j -> R i' j -> i = i') ->
  forall j, 0 <= j < n -> exists i, 0 <= i < n /\ R i j.
Proof.
  intros Ht Hi j Hj. assert (Hlist : forall k, Z.of_nat k <= n -> exists l, length l = k /\
    forall i x, l !! i = Some x -> (x < Z.to_nat n)%nat /\ R (Z.of_nat i) (Z.of_nat x)).
  { induction k as [|k IH]; intros Hk; [exists []; split; [reflexivity|intros i x; rewrite lookup_nil; discriminate]|].
    destruct (IH ltac:(lia)) as (l & Hl & Hx). destruct (Ht (Z.of_nat k) ltac:(lia)) as (x & Hxr & Hr).
    exists (l ++ [Z.to_nat x]). split; [rewrite length_app; cbn; lia|]. intros i y Hy. apply lookup_app_Some in Hy as [Hy | [Hge Hy]]; [apply Hx, Hy|].
    apply list_lookup_singleton_Some in Hy as [Hz <-]. assert (i = k) as -> by lia. rewrite Z2Nat.id by lia. split; [lia|exact Hr]. }
  destruct (Hlist (Z.to_nat n) ltac:(lia)) as (l & Hl & Hx).
  destruct (permutation_surjective l (Z.to_nat n)) with (j := Z.to_nat j) as [i Ei]; [|exact Hl| |lia|].
  - apply NoDup_alt. intros i i' x Ei Ei'. apply Nat2Z.inj. destruct (Hx i x Ei) as [_ R1], (Hx i' x Ei') as [_ R2].
    apply lookup_lt_Some in Ei, Ei'. apply (Hi _ _ (Z.of_nat x)); [lia|lia|exact R1|exact R2].
  - apply Forall_lookup. intros i x Ei. apply (Hx i x Ei).
  - exists (Z.of_nat i). destruct (Hx i _ Ei) as [_ R1]. rewrite Z2Nat.id in R1 by lia. apply lookup_lt_Some in Ei. split; [lia|exact R1].
Qed.

Definition transposes (axes coords source : list Z) : Prop :=
  forall i axis c, axes !! i = Some axis -> coords !! i = Some c -> source !! Z.to_nat axis = Some c.

Lemma transpose_view shape axes out : length axes = length shape ->
  transpose_shape shape (replicate (length shape) false) (length shape) axes = inr out ->
  (forall coords, inside out coords ->
     exists source, transpose_source coords axes coords = inr source /\ inside shape source /\ transposes axes coords source) /\
  (forall u v source, inside out u -> inside out v -> transposes axes u source -> transposes axes v source -> u = v) /\
  zprod out = zprod shape.
Proof.
  intros Hl H. apply transpose_shape_spec in H; [|apply length_replicate]. destruct H as (L1 & _ & F & N & Hout).
  assert (Et : take (length shape) axes = axes) by (apply take_ge; lia). rewrite Et in *.
  assert (Hsurj : forall j, (j < length shape)%nat -> exists i axis, axes !! i = Some axis /\ Z.to_nat axis = j).
  { intros j Hj. destruct (permutation_surjective _ (length shape) N) with (j := j) as [i Ei]; [rewrite length_fmap; exact Hl| |exact Hj|].
    - apply Forall_fmap. eapply Forall_impl; [exact F|]. cbn. intros a [Ha _]. lia.
    - apply list_lookup_fmap_Some in Ei as (axis & -> & Ea). eauto. }
  split; [|split].
  - intros coords Hi. pose proof (Forall2_length _ _ _ Hi) as Hlc.
    destruct (transpose_source_spec axes coords coords) as (source & Es & Hls & Hin & _); [lia| | |].
    + rewrite take_ge by lia. eapply Forall_impl; [exact F|]. cbn. intros a [Ha _]. lia.
    + rewrite take_ge by lia. exact N.
    + exists source. split; [exact Es|]. split; [|exact Hin]. apply Forall2_same_length_lookup_2; [lia|].
      intros j x c Ex Ec. destruct (Hsurj j) as (i & axis & Ea & <-); [apply lookup_lt_Some in Ex; exact Ex|].
      rewrite <- (Hout i axis Ea) in Ex. destruct (lookup_lt_is_Some_2 coords i) as [d Ed]; [apply lookup_lt_Some in Ex; lia|].
      rewrite (Hin i axis d Ea Ed) in Ec. injection Ec as ->. exact (Forall2_lookup_lr _ _ _ _ _ _ Hi Ex Ed).
  - intros u v source Hu Hv Tu Tv. pose proof (Forall2_length _ _ _ Hu). pose proof (Forall2_length _ _ _ Hv).
    apply (list_eq_same_length _ _ (length shape)); [lia|lia|]. intros i x y Hi Ex Ey.
    destruct (lookup_lt_is_Some_2 axes i) as [axis Ea]; [lia|]. pose proof (Tu _ _ _ Ea Ex). pose proof (Tv _ _ _ Ea Ey). congruence.
  - assert (P : out ≡ₚ shape); [|clear - P; induction P; rewrite ?zprod_cons; lia].
    apply Permutation_inj. split; [exact L1|]. exists (fun i => match axes !! i with Some a => Z.to_nat a | None => i end).
    assert (Hr : forall i a, axes !! i = Some a -> (Z.to_nat a < length shape)%nat).
    { intros i a Ea. rewrite Forall_lookup in F. destruct (F i a Ea) as [Ha _]. lia. }
    split.
    + intros i j. destruct (axes !! i) as [a|] eqn:Ea, (axes !! j) as [c|] eqn:Ec; intros E; [|exfalso|exfalso|exact E].
      * apply (NoDup_lookup (Z.to_nat <$> axes) i j (Z.to_nat a)); [exact N|rewrite list_lookup_fmap, Ea; reflexivity|].
        rewrite list_lookup_fmap, Ec, E. reflexivity.
      * apply lookup_ge_None in Ec. specialize (Hr i a Ea). lia.
      * apply lookup_ge_None in Ea. specialize (Hr j c Ec). lia.
    + intros i. destruct (axes !! i) as [a|] eqn:Ea; [apply Hout, Ea|]. apply lookup_ge_None in Ea.
      rewrite !lookup_ge_None_2 by lia. reflexivity.
Qed.

(** ** Rotations *)

Definition rotated (axis shift extent : Z) (coords source : list Z) : Prop :=
  source = alter (fun c => (c + shift) mod extent) (Z.to_nat axis) coords.

Lemma mod_shift_inj e k c d : 0 <= c < e -> 0 <= d < e -> (c + k) mod e = (d + k) mod e -> c = d.
Proof.
  intros Hc Hd E. assert (E' : (c + k - k) mod e = (d + k - k) mod e) by (rewrite Zminus_mod, E, <- Zminus_mod; reflexivity).
  rewrite !Z.add_simpl_r, !Z.mod_small in E' by assumption. exact E'.
Qed.

Lemma rotate_view shape axis extent n : sized shape -> 0 <= axis -> shape !! Z.to_nat axis = Some extent ->
  (forall coords, inside shape coords ->
     exists source, rotate_source coords axis (n mod extent) extent = inr source /\ inside shape source /\ rotated axis n extent coords source) /\
  (forall u v source, inside shape u -> inside shape v -> rotated axis n extent u source -> rotated axis n extent v source -> u = v).
Proof.
  intros Hs Ha Ee. assert (He : 0 < extent <= int64_limit) by (eapply sized_elem; [exact Hs|eapply list_elem_of_lookup_2; exact Ee]).
  assert (Hlook : forall coords, inside shape coords -> exists c, coords !! Z.to_nat axis = Some c /\ 0 <= c < extent).
  { intros coords Hi. destruct (Forall2_lookup_l _ _ _ _ _ Hi Ee) as (c & Ec & Hc). eauto. }
  pose proof (Z.mod_pos_bound n extent ltac:(lia)) as Hk. split.
  - intros coords Hi. destruct (Hlook coords Hi) as (c & Ec & Hc). unfold rotate_source. rewrite Ec. cbn [checked fbind].
    eexists. split; [reflexivity|]. unfold u64_add, int64_limit in *. rewrite u64_id by (unfold is_u; lia). rewrite Zplus_mod_idemp_r. split.
    + rewrite <- (list_insert_id shape (Z.to_nat axis) extent Ee). apply Forall2_insert; [exact Hi|apply Z.mod_pos_bound; lia].
    + unfold rotated. apply list_eq. intros j. rewrite list_lookup_alter. destruct (decide (Z.to_nat axis = j)) as [<-|E].
      * rewrite list_lookup_insert_eq by (apply lookup_lt_Some in Ec; exact Ec). rewrite Ec. reflexivity.
      * rewrite list_lookup_insert_ne by exact E. reflexivity.
  - unfold rotated. intros u v source Hu Hv Eu Ev. rewrite Ev in Eu. clear Ev. apply list_eq. intros j.
    pose proof (f_equal (lookup j) Eu) as E. rewrite !list_lookup_alter in E. destruct (decide (Z.to_nat axis = j)) as [<-|_]; [|symmetry; exact E].
    destruct (Hlook u Hu) as (c & Ec & Hc), (Hlook v Hv) as (d & Ed & Hd). rewrite Ec, Ed in *. cbn in E. injection E as E.
    f_equal. symmetry. exact (mod_shift_inj extent n d c Hd Hc E).
Qed.

(** ** Views *)

(** The element of the input, by its coordinates, that a view shows at
    [coords]: a reshape keeps the row-major position, a slice multiplies by
    the stride and adds the offset, a transpose moves coordinate [i] to axis
    [axes[i]], a rotation adds its offset modulo the extent. *)
Inductive view_source (kind : string) (p : ViewParams) (shape out coords source : list Z) : Prop :=
| source_reshape : kind = "reshape"%string -> position shape source = position out coords ->
    view_source kind p shape out coords source
| source_slice offsets strides : kind = "slice"%string ->
    exactVector (get p "offsets") = Some (inr offsets) -> exactVector (get p "strides") = Some (inr strides) ->
    source = slice_map offsets strides coords -> view_source kind p shape out coords source
| source_transpose axes : kind = "transpose"%string -> vectorStatic (get p "axes") = Some (inr axes) ->
    transposes axes coords source -> view_source kind p shape out coords source
| source_rotate axis extent n : kind = "rotate"%string -> signedStatic (expr_of (get p "axis")) = Some (inr axis) -> 0 <= axis ->
    shape !! Z.to_nat axis = Some extent -> integerStatic (expr_of (get p "offset")) = Some (inr n) ->
    rotated axis (aps_value n) extent coords source -> view_source kind p shape out coords source.

(** What a step of the given kind does to coordinates. *)
Record view_ok (kind : string) (p : ViewParams) (shape out : list Z) : Prop := {
  view_total coords : inside out coords -> kind <> "reshape"%string ->
    exists source, source_coordinates kind p shape coords = Some (inr source) /\ inside shape source /\
      view_source kind p shape out coords source;
  view_inj u v source : inside out u -> inside out v -> view_source kind p shape out u source -> view_source kind p shape out v source -> u = v;
  view_count : kind <> "slice"%string -> zprod out = zprod shape;
  view_sized : sized out;
}.

Lemma schema_entry_in kind p rank name names : schema_entries kind p rank names = inr tt -> name ∈ names -> schema_entry kind p rank name = inr tt.
Proof.
  induction names as [|x names IH]; intros H Hin; [apply elem_of_nil in Hin; contradiction|]. cbn [schema_entries] in H.
  apply fbind_inr in H as ([] & E & H). apply elem_of_cons in Hin as [-> | Hin]; [exact E|apply IH; assumption].
Qed.

Lemma viewSchema_entries kind p rank names : viewSchema kind p rank = inr tt -> view_names kind = Some names -> schema_entries kind p rank names = inr tt.
Proof. unfold viewSchema. intros H E. rewrite E in H. destruct (negb _); [discriminate|exact H]. Qed.

Ltac kinds := repeat first [rewrite decide_True by reflexivity | rewrite decide_False by discriminate].

Lemma reshape_ok p shape out : sized shape -> viewShape "reshape" p shape = Some (inr out) -> view_ok "reshape" p shape out.
Proof.
  intros Hs H. unfold TableViews.viewShape in H. rewrite decide_True in H by reflexivity. apply rbind_inr in H as (r & Er & H).
  apply resolve_shape_sized in Er as [Hr _]. rewrite !product_zprod in H by assumption.
  destruct (Z.eqb_spec (zprod r) (zprod shape)) as [E|]; [|discriminate]. injection H as <-. constructor.
  - intros coords _ Hk. contradiction.
  - intros u v source Hu Hv Su Sv. destruct Su; try discriminate. destruct Sv; try discriminate. eapply position_inj; [eassumption..|congruence].
  - auto.
  - exact Hr.
Qed.

Lemma slice_sized shape : Forall (fun x => 0 < x <= int64_limit) shape -> forall offsets sizes strides out,
  Forall narrow offsets -> Forall narrow sizes -> Forall narrow strides ->
  slice_shape shape offsets sizes strides = inr out -> Forall (fun x => 0 < x) out /\ zprod out <= zprod shape.
Proof.
  induction 1 as [|x shape Hx H IH]; intros offsets sizes strides out No Ns Nt; cbn [slice_shape].
  - intros [= <-]. split; [constructor|lia].
  - destruct offsets as [|o offsets]; [discriminate|]. destruct sizes as [|s sizes]; [discriminate|]. destruct strides as [|t strides]; [discriminate|].
    apply Forall_cons in No as [No No']. apply Forall_cons in Ns as [Ns Ns']. apply Forall_cons in Nt as [Nt Nt'].
    intros E. apply fbind_inr in E as (n & En & E). apply fbind_inr in E as (rest & Er & [= <-]).
    apply slice_extent_spec in En as [(F1 & F2 & F3 & F4) ->]; try assumption. destruct (IH _ _ _ _ No' Ns' Nt' Er) as [Hp Hz].
    split; [constructor; assumption|]. rewrite !zprod_cons. pose proof (zprod_pos rest Hp). assert (aps_value s <= x) by nia. nia.
Qed.

Lemma slice_ok p shape out : narrow_params p -> sized shape -> viewShape "slice" p shape = Some (inr out) -> view_ok "slice" p shape out.
Proof.
  intros Hn Hs H. unfold TableViews.viewShape in H. rewrite decide_False, decide_True in H by (discriminate || reflexivity).
  apply rbind_inr in H as ([offsets [sizes strides]] & Ev & H). apply rboth_inr in Ev as [Eo Ev]. apply rboth_inr in Ev as [Es Et]. cbn [fst snd] in *.
  injection H as H. pose proof (exactVector_spec _ _ _ Hn Eo) as No. pose proof (exactVector_spec _ _ _ Hn Es) as Ns.
  pose proof (exactVector_spec _ _ _ Hn Et) as Nt. destruct (slice_source_spec shape Hs _ _ _ _ No Ns Nt H) as [H1 H2]. constructor.
  - intros coords Hi _. destruct (H1 coords Hi) as [E I]. exists (slice_map offsets strides coords). split; [|split; [exact I|eapply source_slice; eauto]].
    unfold TableViews.source_coordinates. kinds. rewrite Eo, Et. cbn [rboth rbind fst snd rdone]. rewrite E. reflexivity.
  - intros u v source Hu Hv Su Sv. destruct Su as [| o1 t1 _ Eo1 Et1 Eu | |]; try discriminate. destruct Sv as [| o2 t2 _ Eo2 Et2 Ev | |]; try discriminate.
    assert (o1 = offsets) by congruence. assert (t1 = strides) by congruence. assert (o2 = offsets) by congruence. assert (t2 = strides) by congruence.
    subst. apply H2; assumption.
  - contradiction.
  - assert (He : Forall (fun x => 0 < x <= int64_limit) shape) by (apply Forall_forall; intros x; apply sized_elem, Hs).
    destruct (slice_sized shape He _ _ _ _ No Ns Nt H) as [Hp Hz]. split; [exact Hp|]. destruct Hs. lia.
Qed.

Lemma inside_zprod_pos shape out : zprod out = zprod shape -> sized shape -> Forall (fun x => 0 < x) out -> sized out.
Proof. intros E [_ Hb] Hp. split; [exact Hp|lia]. Qed.

Lemma transpose_ok p shape out : sized shape -> viewSchema "transpose" p (length shape) = inr tt ->
  viewShape "transpose" p shape = Some (inr out) -> view_ok "transpose" p shape out.
Proof.
  intros Hs Hp H. unfold TableViews.viewShape in H. rewrite !decide_False, decide_True in H by (discriminate || reflexivity).
  apply rbind_inr in H as (axes & Ea & H). injection H as H.
  assert (Hl : length axes = length shape).
  { pose proof (viewSchema_entries _ _ _ ["axes"%string] Hp eq_refl) as Hn.
    destruct (schema_rank "transpose" p (length shape) "axes") as (xs & Ex & <-); [|discriminate|discriminate|].
    - apply (schema_entry_in _ _ _ _ _ Hn). left.
    - unfold TableViews.vectorStatic in Ea. rewrite Ex in Ea. apply rmap_inr in Ea. symmetry. eapply Forall2_length. exact Ea. }
  destruct (transpose_view shape axes out Hl H) as (H1 & H2 & H3). constructor.
  - intros coords Hi _. destruct (H1 coords Hi) as (source & E & I & T). exists source. split; [|split; [exact I|eapply source_transpose; eauto]].
    unfold TableViews.source_coordinates. kinds. rewrite Ea. cbn [rbind]. rewrite E. reflexivity.
  - intros u v source Hu Hv Su Sv. destruct Su as [| | a1 _ E1 Tu |]; try discriminate. destruct Sv as [| | a2 _ E2 Tv |]; try discriminate.
    assert (a1 = axes) by congruence. assert (a2 = axes) by congruence. subst. eapply H2; eassumption.
  - intros _. exact H3.
  - apply (inside_zprod_pos shape out H3 Hs). apply transpose_shape_spec in H; [|apply length_replicate]. destruct H as (L1 & L2 & F & _ & Hout).
    apply Forall_lookup. intros i x Ex. destruct (lookup_lt_is_Some_2 (take (length shape) axes) i) as [axis Ei].
    { rewrite length_take. apply lookup_lt_Some in Ex. lia. }
    rewrite (Hout i axis Ei) in Ex. eapply sized_elem; [exact Hs|eapply list_elem_of_lookup_2; exact Ex].
Qed.

Lemma rotate_ok p shape out : narrow_params p -> sized shape -> viewShape "rotate" p shape = Some (inr out) -> view_ok "rotate" p shape out.
Proof.
  intros Hn Hs H. unfold TableViews.viewShape in H. rewrite !decide_False, decide_True in H by (discriminate || reflexivity).
  apply rbind_inr in H as (axis & Ea & H). destruct (Z.ltb_spec axis 0) as [|H0]; [discriminate|].
  destruct (Z.leb_spec (Z.of_nat (length shape)) axis) as [|Hb]; [discriminate|]. cbn [orb] in H.
  apply rbind_inr in H as (extent & Ee & H). injection Ee as Ee. apply rbind_inr in H as (shift & Er & H). injection H as <-.
  pose proof (checked_inr _ _ Ee) as Ee'. assert (He : 0 < extent <= int64_limit) by (eapply sized_elem; [exact Hs|eapply list_elem_of_lookup_2; exact Ee']).
  destruct (integerStatic (expr_of (get p "offset"))) as [[m|n]|] eqn:En; try (unfold TableViews.rotateOffset in Er; rewrite En in Er; discriminate).
  assert (Nn : narrow n).
  { destruct (get p "offset") as [[e|xs|]|] eqn:Ep; try discriminate En. apply (Hn "offset"%string e n); [rewrite Ep; reflexivity|exact En]. }
  pose proof (rotateOffset_spec _ _ _ _ He Nn En Er) as ->. destruct (rotate_view shape axis extent (aps_value n) Hs H0 Ee') as [H1 H2]. constructor.
  - intros coords Hi _. destruct (H1 coords Hi) as (source & E & I & R). exists source.
    split; [|split; [exact I|apply (source_rotate _ _ _ _ _ _ axis extent n); auto]].
    unfold TableViews.source_coordinates. kinds. rewrite Ea. cbn [rbind]. destruct (Z.ltb_spec axis 0); [lia|].
    destruct (Z.leb_spec (Z.of_nat (length shape)) axis); [lia|]. cbn [orb]. rewrite Ee. cbn [rbind]. rewrite Er. cbn [rbind]. rewrite E. reflexivity.
  - intros u v source Hu Hv Su Sv. destruct Su as [| | | a1 e1 n1 _ A1 _ X1 N1 R1]; try discriminate.
    destruct Sv as [| | | a2 e2 n2 _ A2 _ X2 N2 R2]; try discriminate.
    assert (a1 = axis) by congruence. assert (a2 = axis) by congruence. assert (n1 = n) by congruence. assert (n2 = n) by congruence. subst.
    assert (e1 = extent) by congruence. assert (e2 = extent) by congruence. subst. eapply H2; eassumption.
  - reflexivity.
  - exact Hs.
Qed.

Lemma view_ok_of kind p shape out : narrow_params p -> sized shape -> viewSchema kind p (length shape) = inr tt ->
  viewShape kind p shape = Some (inr out) -> view_ok kind p shape out.
Proof.
  intros Hn Hs Hp H. assert (Hk : view_names kind <> None) by (intros E; unfold viewSchema in Hp; rewrite E in Hp; discriminate).
  unfold view_names in Hk. repeat case_decide; subst; try contradiction.
  - apply reshape_ok; assumption.
  - apply slice_ok; assumption.
  - apply transpose_ok; assumption.
  - apply rotate_ok; assumption.
Qed.

(** Every element of a view has a source. *)
Lemma view_exists kind p shape out coords : sized shape -> view_ok kind p shape out -> inside out coords ->
  exists source, inside shape source /\ view_source kind p shape out coords source.
Proof.
  intros [Hp _] Hv Hi. destruct (decide (kind = "reshape"%string)) as [E|E].
  - pose proof (position_range _ _ Hi) as Hr. rewrite (view_count _ _ _ _ Hv) in Hr by (rewrite E; discriminate).
    destruct (coordinates_spec shape Hp _ Hr) as [I Ep]. exists (coordinates shape (position out coords)). split; [exact I|].
    apply source_reshape; assumption.
  - destruct (view_total _ _ _ _ Hv coords Hi E) as (source & _ & I & S). eauto.
Qed.

Lemma getTableShape_length shape element out :
  getTableShape package fuel [] b (TableType shape element) = Some (inr out) -> length out = length shape.
Proof.
  destruct fuel as [|[|f]]; [discriminate|discriminate|]. cbn [getTableShape]. intros H. apply rbind_inr in H as (t & Et & H).
  cbn [resolveType] in Et. apply rbind_inr in Et as (s & Es & Et). apply rbind_inr in Et as (e & _ & [= <-]).
  apply rmap_inr, Forall2_length in Es. apply resolve_shape_sized in H as [_ H]. congruence.
Qed.

(** What the verifier of a closed view establishes. *)
Lemma verifyTableView_inr view : verifyTableView package fuel b true view = Some (inr tt) ->
  exists shape out, getTableShape package fuel [] b (TableType (input_shape view) (input_element view)) = Some (inr shape) /\
    getTableShape package fuel [] b (TableType (result_shape view) (result_element view)) = Some (inr out) /\
    viewSchema (view_kind view) (parameters view) (length shape) = inr tt /\ viewShape (view_kind view) (parameters view) shape = Some (inr out).
Proof.
  unfold verifyTableView. intros H. apply rbind_inr in H as ([] & _ & H). apply rbind_inr in H as ([] & _ & H).
  apply rbind_inr in H as ([] & _ & H). apply rbind_inr in H as ([] & Es & H). injection Es as Es. cbn [when_closed] in H.
  apply rbind_inr in H as ([shape out] & Eb & H). apply rboth_inr in Eb as [E1 E2]. cbn [fst snd] in *.
  apply rbind_inr in H as (expected & Ev & H). case_bool_decide; [subst|discriminate]. exists shape, out.
  rewrite (getTableShape_length _ _ _ E1). auto.
Qed.

(** The ordinal of the source is its position. *)
Lemma getViewSourceOrdinal_spec view shape out n :
  getTableShape package fuel [] b (TableType (input_shape view) (input_element view)) = Some (inr shape) ->
  getTableShape package fuel [] b (TableType (result_shape view) (result_element view)) = Some (inr out) ->
  view_ok (view_kind view) (parameters view) shape out -> 0 <= n < zprod out ->
  exists source, inside shape source /\ view_source (view_kind view) (parameters view) shape out (coordinates out n) source /\
    getViewSourceOrdinal package fuel b view n = Some (inr (position shape source)).
Proof.
  intros E1 E2 Hv Hn. pose proof (getTableShape_sized _ _ _ _ _ _ E1) as Hs. pose proof (view_sized _ _ _ _ Hv) as Ho.
  destruct (coordinates_spec out (proj1 Ho) n Hn) as [Hi Hpos]. unfold getViewSourceOrdinal. rewrite E1, E2. cbn [rboth rbind rdone].
  rewrite product_zprod by exact Ho. destruct (Z.leb_spec (zprod out) n); [lia|].
  destruct (decide (view_kind view = "reshape"%string)) as [E|E].
  - destruct (view_exists _ _ _ _ _ Hs Hv Hi) as (source & I & S). exists source. split; [exact I|]. split; [exact S|].
    rewrite join_ordinal_spec by assumption. cbn [checked]. destruct S; try congruence. rewrite H1. reflexivity.
  - destruct (view_total _ _ _ _ Hv _ Hi E) as (source & Ec & I & S). exists source. split; [exact I|]. split; [exact S|].
    rewrite Ec. cbn [rbind]. rewrite join_ordinal_spec by assumption. reflexivity.
Qed.

(** ** Physical layouts *)

(** The element of the declared shape behind an element of the final one. *)
Inductive layout_source : list (string * ViewParams) -> list Z -> list Z -> list Z -> Prop :=
| layout_done shape coords : layout_source [] shape coords coords
| layout_step kind p rest shape mid coords middle source :
    viewShape kind p shape = Some (inr mid) -> layout_source rest mid coords middle -> inside mid middle ->
    view_source kind p shape mid middle source -> layout_source ((kind, p) :: rest) shape coords source.

Definition narrow_steps (steps : list (string * ViewParams)) : Prop := Forall (fun step => narrow_params (snd step)) steps.

Lemma rotate_shape p shape out : viewShape "rotate" p shape = Some (inr out) -> out = shape.
Proof.
  intros H. unfold TableViews.viewShape in H. rewrite !decide_False, decide_True in H by (discriminate || reflexivity).
  apply rbind_inr in H as (axis & _ & H). destruct (_ || _); [discriminate|].
  apply rbind_inr in H as (extent & _ & H). apply rbind_inr in H as (shift & _ & H). injection H as <-. reflexivity.
Qed.

(** The rank the checker uses for the next step is the rank of the result. *)
Lemma next_rank kind p shape mid (current : list StaticExpr) : kind ∈ ["reshape"; "transpose"; "rotate"]%string ->
  length shape = length current -> viewSchema kind p (length current) = inr tt -> viewShape kind p shape = Some (inr mid) ->
  length mid = length (if decide (kind = "reshape"%string) then exprs_of (get p "shape") else current).
Proof.
  intros Hk Hl Hs H. apply elem_of_cons in Hk as [-> | Hk]; [|apply elem_of_cons in Hk as [-> | Hk]; [|apply list_elem_of_singleton in Hk as ->]]; kinds.
  - unfold TableViews.viewShape in H. rewrite decide_True in H by reflexivity. apply rbind_inr in H as (r & Er & H).
    apply resolve_shape_sized in Er as [_ Er]. destruct (negb _); [discriminate|]. injection H as <-. exact Er.
  - unfold TableViews.viewShape in H. rewrite !decide_False, decide_True in H by (discriminate || reflexivity). apply rbind_inr in H as (axes & _ & H).
    injection H as H. apply transpose_shape_spec in H; [|apply length_replicate]. destruct H as [-> _]. exact Hl.
  - apply rotate_shape in H as ->. exact Hl.
Qed.

Lemma layout_bijective steps : forall current shape final, narrow_steps steps -> sized shape -> length shape = length current ->
  layout_steps package fuel b true current steps = Some (inr tt) -> layout_walk package fuel b shape steps = Some (inr final) ->
  sized final /\ zprod final = zprod shape /\
  (forall coords, inside final coords -> exists source, inside shape source /\ layout_source steps shape coords source) /\
  (forall u v source, inside final u -> inside final v -> layout_source steps shape u source -> layout_source steps shape v source -> u = v).
Proof.
  induction steps as [|[kind p] steps IH]; intros current shape final Hn Hs Hl; cbn [layout_steps].
  - intros _ [= <-]. split; [exact Hs|]. split; [reflexivity|]. split; [intros coords Hi; exists coords; split; [exact Hi|constructor]|].
    intros u v source _ _ Hu Hv. inversion Hu; inversion Hv; congruence.
  - case_bool_decide as Hk; [|discriminate]. cbn [negb]. apply Forall_cons in Hn as [Hp Hn]. cbn [snd] in Hp.
    intros H W. apply rbind_inr in H as ([] & Es & H). injection Es as Es. apply rbind_inr in H as ([] & _ & H).
    unfold layout_walk in W. cbn [rfold fst snd] in W. apply rbind_inr in W as (mid & Em & W). fold (layout_walk package fuel b mid steps) in W.
    assert (Hok : view_ok kind p shape mid) by (apply view_ok_of; try assumption; rewrite Hl; exact Es).
    pose proof (view_sized _ _ _ _ Hok) as Hsm.
    destruct (IH _ _ _ Hn Hsm (next_rank _ _ _ _ _ Hk Hl Es Em) H W) as (Hf & Ez & Ht & Hi). split; [exact Hf|]. split; [|split].
    + rewrite Ez. apply (view_count _ _ _ _ Hok). intros ->. rewrite !elem_of_cons in Hk. destruct Hk as [E|[E|[E|E]]]; try discriminate.
      apply elem_of_nil in E. exact E.
    + intros coords Hc. destruct (Ht coords Hc) as (middle & Im & Lm). destruct (view_exists _ _ _ _ _ Hs Hok Im) as (source & Is & S).
      exists source. split; [exact Is|]. econstructor; eassumption.
    + intros u v source Hu Hv Su Sv. inversion Su as [|? ? ? ? m1 ? mu ? E1 Lu Iu Vu]; subst. inversion Sv as [|? ? ? ? m2 ? mv ? E2 Lv Iv Vv]; subst.
      assert (m1 = mid) by congruence. assert (m2 = mid) by congruence. subst.
      assert (mu = mv) as -> by (eapply (view_inj _ _ _ _ Hok); eassumption). eapply Hi; eassumption.
Qed.
End Views.

(** C28: a verified table view addresses its input exactly.  When the closed
    verification of a view succeeds, every ordinal of the result has a source
    ordinal inside the input, whose coordinates are the ones the view's kind
    prescribes (the same row-major position for a reshape, offset plus stride
    for a slice, permuted axes for a transpose, addition modulo the extent for
    a rotation); different ordinals have different sources, all kinds except
    the slice show every element of the input, and larger ordinals are
    rejected.
    No 64-bit or precision arithmetic wraps on the way, for parameters of at
    most [2^30] bits. *)
Theorem table_view_exact `{L : ApLib} {HL : ApLaws L} package fuel b view :
  verifyTableView package fuel b true view = Some (inr tt) -> narrow_params package fuel b (parameters view) ->
  exists shape out,
    getTableShape package fuel [] b (TableType (input_shape view) (input_element view)) = Some (inr shape) /\
    getTableShape package fuel [] b (TableType (result_shape view) (result_element view)) = Some (inr out) /\
    (forall n, 0 <= n < zprod out -> exists m, getViewSourceOrdinal package fuel b view n = Some (inr m) /\ 0 <= m < zprod shape /\
       view_source package fuel b (view_kind view) (parameters view) shape out (coordinates out n) (coordinates shape m)) /\
    (forall n n' m, 0 <= n < zprod out -> 0 <= n' < zprod out -> getViewSourceOrdinal package fuel b view n = Some (inr m) ->
       getViewSourceOrdinal package fuel b view n' = Some (inr m) -> n = n') /\
    (view_kind view <> "slice"%string -> zprod out = zprod shape /\
       forall m, 0 <= m < zprod shape -> exists n, 0 <= n < zprod out /\ getViewSourceOrdinal package fuel b view n = Some (inr m)) /\
    (forall n, zprod out <= n -> getViewSourceOrdinal package fuel b view n = rfail "view output ordinal out of range").
Proof.
  intros Hv Hn. destruct (verifyTableView_inr _ _ _ _ Hv) as (shape & out & E1 & E2 & Es & Ev). exists shape, out.
  assert (Hok : view_ok package fuel b (view_kind view) (parameters view) shape out)
    by (apply view_ok_of; try assumption; eapply getTableShape_sized; exact E1).
  pose proof (view_sized _ _ _ _ _ _ _ Hok) as Ho. split; [exact E1|]. split; [exact E2|].
  assert (Ht : forall n, 0 <= n < zprod out -> exists m, getViewSourceOrdinal package fuel b view n = Some (inr m) /\ 0 <= m < zprod shape /\
       view_source package fuel b (view_kind view) (parameters view) shape out (coordinates out n) (coordinates shape m)).
  { intros n Hr. destruct (getViewSourceOrdinal_spec _ _ _ _ _ _ n E1 E2 Hok Hr) as (source & I & S & E). exists (position shape source).
    split; [exact E|]. split; [apply position_range, I|]. rewrite coordinates_position by exact I. exact S. }
  assert (Hi : forall n n' m, 0 <= n < zprod out -> 0 <= n' < zprod out -> getViewSourceOrdinal package fuel b view n = Some (inr m) ->
       getViewSourceOrdinal package fuel b view n' = Some (inr m) -> n = n').
  { intros n n' m Hr Hr' En En'. destruct (getViewSourceOrdinal_spec _ _ _ _ _ _ n E1 E2 Hok Hr) as (u & Iu & Su & Eu).
    destruct (getViewSourceOrdinal_spec _ _ _ _ _ _ n' E1 E2 Hok Hr') as (v & Iv & Sv & Ew).
    assert (u = v) as -> by (apply (position_inj shape u v Iu Iv); congruence).
    destruct (coordinates_spec out (proj1 Ho) n Hr) as [In Pn], (coordinates_spec out (proj1 Ho) n' Hr') as [In' Pn'].
    rewrite <- Pn, <- Pn'. f_equal. eapply (view_inj _ _ _ _ _ _ _ Hok); eassumption. }
  split; [exact Ht|]. split; [exact Hi|]. split.
  - intros Hk. pose proof (view_count _ _ _ _ _ _ _ Hok Hk) as Ez. split; [exact Ez|]. intros m Hm. rewrite <- Ez in Hm, Ht.
    apply (injection_onto (fun n m => getViewSourceOrdinal package fuel b view n = Some (inr m)) (zprod out)); [|exact Hi|exact Hm].
    intros n Hr. destruct (Ht n Hr) as (x & Ex & Hx & _). eauto.
  - intros n Hr. unfold getViewSourceOrdinal. rewrite E1, E2. cbn [rboth rbind rdone]. rewrite product_zprod by exact Ho.
    destruct (Z.leb_spec (zprod out) n); [reflexivity|lia].
Qed.

(** A verified physical layout only rearranges a collection.  When the
    closed verification of the layout steps of a collection succeeds, the
    chain of reshapes, transposes and rotations maps the elements of the final
    shape one to one onto the elements of the declared shape. *)
Theorem physical_layout_bijective `{L : ApLib} {HL : ApLaws L} package fuel b shape steps :
  verify_layout package fuel b true shape steps = Some (inr tt) -> narrow_steps package fuel b steps ->
  exists declared final,
    resolve_shape_with (evaluateStatic package fuel [] b) shape = Some (inr declared) /\
    layout_walk package fuel b declared steps = Some (inr final) /\ zprod final = zprod declared /\
    (forall coords, inside final coords -> exists source, inside declared source /\ layout_source package fuel b steps declared coords source) /\
    (forall u v source, inside final u -> inside final v -> layout_source package fuel b steps declared u source ->
       layout_source package fuel b steps declared v source -> u = v) /\
    (forall source, inside declared source -> exists coords, inside final coords /\ layout_source package fuel b steps declared coords source).
Proof.
  unfold verify_layout. intros H Hn. apply rbind_inr in H as ([] & Es & H). cbn [when_closed] in H. apply rbind_inr in H as (declared & Ed & H).
  apply rbind_inr in H as (final & Ef & _). exists declared, final. destruct (resolve_shape_sized _ _ _ Ed) as [Hs Hl].
  destruct (layout_bijective package fuel b steps shape declared final Hn Hs Hl Es Ef) as (Hsf & Ez & Ht & Hi).
  split; [exact Ed|]. split; [exact Ef|]. split; [exact Ez|]. split; [exact Ht|]. split; [exact Hi|]. intros source Is.
  pose proof (position_range _ _ Is) as Hr. rewrite <- Ez in Hr.
  destruct (injection_onto (fun n m => exists s, inside declared s /\ position declared s = m /\
    layout_source package fuel b steps declared (coordinates final n) s) (zprod final)) with (j := position declared source) as (n & Hrn & s & I & P & S);
    [| |exact Hr|].
  - intros n Hrn. destruct (coordinates_spec final (proj1 Hsf) n Hrn) as [In _]. destruct (Ht _ In) as (s & I & S).
    exists (position declared s). rewrite Ez. split; [apply position_range, I|]. eauto.
  - intros n n' m Hrn Hrn' (s & I & P & S) (s' & I' & P' & S'). assert (s = s') as -> by (apply (position_inj declared); congruence).
    destruct (coordinates_spec final (proj1 Hsf) n Hrn) as [In Pn], (coordinates_spec final (proj1 Hsf) n' Hrn') as [In' Pn'].
    rewrite <- Pn, <- Pn'. f_equal. eapply Hi; eassumption.
  - apply (position_inj declared) in P as ->; try assumption. exists (coordinates final n). split; [|exact S].
    apply coordinates_spec; [exact (proj1 Hsf)|exact Hrn].
Qed.

(** ** Witnesses *)

Module ViewWitness.
Import Reference.
Definition lit (z : Z) : StaticExpr := Literal 1%positive (MathIntAttr (spell z)).
Definition lits (zs : list Z) : ViewParam := ArrayParam ((fun z => Some (lit z)) <$> zs).

Lemma get_elem p name v : get p name = Some v -> (name, v) ∈ p.
Proof.
  induction p as [|[key value] p IH]; cbn [get]; [discriminate|]. case_decide; [intros [= ->]; subst; left|]. intros H1. right. auto.
Qed.

(** Parameters written as small literals are narrow. *)
Definition small_literal (e : StaticExpr) : Prop := exists z, e = lit z /\ -100 <= z < 100.

Lemma literal_params p : Forall (fun entry => forall e, param_expr (Some (snd entry)) e -> small_literal e) p ->
  narrow_params [] 20 no_bindings p.
Proof.
  intros Hp name e n He E. destruct (get p name) as [v|] eqn:Ev; [|destruct He]. apply get_elem in Ev. rewrite Forall_forall in Hp.
  destruct (Hp _ Ev e He) as (z & -> & Hz). injection E as <-. unfold narrow. cbn [getBitWidth aps_int aps_of_string lib]. rewrite read_spell.
  unfold number_of, width. cbn [fst]. assert (signed_bits z <= 8) by (apply fits_signed_bits; [lia|unfold fits_signed; lia]).
  pose proof (signed_bits_pos z). rewrite clamp_id by lia. lia.
Qed.

Lemma literal_array zs : Forall (fun z => -100 <= z < 100) zs -> forall e, param_expr (Some (lits zs)) e -> small_literal e.
Proof.
  intros Hz e He. cbn in He. apply list_elem_of_fmap_1 in He as (z & [= ->] & Hin). rewrite Forall_forall in Hz. exists z. auto.
Qed.

(** Every second column of the odd rows of a table of four rows. *)
Definition columns : TableViewOp := mkTableView "slice"
  [("offsets"%string, lits [1; 0]); ("sizes"%string, lits [2; 3]); ("strides"%string, lits [2; 2])]
  [lit 4; lit 6] (BitsType (lit 8)) [lit 2; lit 3] (BitsType (lit 8)).

Lemma table_view_exact_witness :
  getViewSourceOrdinal [] 20 no_bindings columns 4 = Some (inr 20) /\
  exists shape out, (forall n, 0 <= n < zprod out -> exists m, getViewSourceOrdinal [] 20 no_bindings columns n = Some (inr m) /\
    0 <= m < zprod shape).
Proof.
  split; [vm_compute; reflexivity|].
  destruct (table_view_exact (HL := Reference.laws) [] 20 no_bindings columns) as (shape & out & _ & _ & H1 & _);
    [vm_compute; reflexivity| |].
  - apply literal_params. repeat constructor; apply literal_array; repeat constructor; lia.
  - exists shape, out. intros n Hn. destruct (H1 n Hn) as (m & E & Hm & _). eauto.
Defined.

(** Columns first, then flat, then shifted back by one. *)
Definition steps : list (string * ViewParams) :=
  [("transpose"%string, [("axes"%string, lits [1; 0])]); ("reshape"%string, [("shape"%string, lits [6])]);
   ("rotate"%string, [("axis"%string, ExprParam (lit 0)); ("offset"%string, ExprParam (lit (-1)))])].

Lemma physical_layout_bijective_witness :
  exists declared final, layout_walk [] 20 no_bindings declared steps = Some (inr final) /\ zprod final = zprod declared /\
    forall source, inside declared source -> exists coords, inside final coords /\ layout_source [] 20 no_bindings steps declared coords source.
Proof.
  destruct (physical_layout_bijective (HL := Reference.laws) [] 20 no_bindings [lit 2; lit 3] steps)
    as (declared & final & _ & H1 & H2 & _ & _ & H3); [vm_compute; reflexivity| |].
  - repeat constructor; apply literal_params; repeat constructor; try (apply literal_array; repeat constructor; lia);
      intros e; cbn; intros ->; eexists; (split; [reflexivity|lia]).
  - exists declared, final. auto.
Defined.
End ViewWitness.
