(* ===== verification/StaticValues.v ===== *)
(** * Static values and their types ([SourceStaticValueContracts.cpp])

    Source constants travel through the compiler as dictionaries.  This file
    models the checks that a dictionary is a type or a value, the resolution
    of nominal record types with its cycle detection and its memo, and the
    check that a value belongs to a type. *)

From Stdlib Require Import ZArith Lia String.
From stdpp Require Import base list numbers strings.
From S2P Require Import Prelude ModelInput CompilerPrelude ApInt HardwareAnalysis.

Open Scope string_scope.
Open Scope Z_scope.

(** ** Attributes *)

Inductive Signedness := Signless | SignedInt | UnsignedInt.
#[export] Instance Signedness_eq_dec : EqDecision Signedness.
Proof. solve_decision. Defined.

(** Types as far as the checks look at them. *)
Inductive MlirType := IntegerType (signedness : Signedness) (width : Z) | NominalType (name : string) | OtherMlirType (id : positive).
#[export] Instance MlirType_eq_dec : EqDecision MlirType.
Proof. solve_decision. Defined.

(** [IntegerAttribute type width bits] is an [IntegerAttr] whose value has the
    unsigned reading [bits] in [width] bits. *)
Inductive Attr :=
| Boolean (b : bool)
| MathInt (spelling : list Z)
| StringAttribute (s : string)
| SymbolRef (s : string)
| TypeAttribute (t : MlirType)
| IntegerAttribute (t : MlirType) (width bits : Z)
| ArrayAttribute (elements : list Attr)
| Dictionary (fields : list (string * Attr))
| OtherAttribute (id : positive)
| UnitAttribute.

Fixpoint Attr_dec (a b : Attr) {struct a} : {a = b} + {a <> b}.
Proof.
  decide equality; try apply Bool.bool_dec; try apply Z.eq_dec; try apply String.string_dec; try apply Pos.eq_dec; try apply MlirType_eq_dec.
  - apply (List.list_eq_dec Z.eq_dec).
  - apply (List.list_eq_dec Attr_dec).
  - apply List.list_eq_dec. intros [k v] [k' v']. destruct (String.string_dec k k') as [->|N]; [|right; congruence].
    destruct (Attr_dec v v') as [->|N]; [left; reflexivity|right; congruence].
Defined.
#[export] Instance Attr_eq_dec : EqDecision Attr := Attr_dec.

(** A field of a dictionary, through a function. *)
Definition dget_with {B} (f : Attr -> B) (name : string) : list (string * Attr) -> option B :=
  fix go fields :=
    match fields with
    | [] => None
    | (key, value) :: rest => if decide (key = name) then Some (f value) else go rest
    end.

Definition dget (name : string) (fields : list (string * Attr)) : option Attr := dget_with (fun a => a) name fields.

(** [getAs<...>]. *)
Definition get_string (name : string) (fields : list (string * Attr)) : option string :=
  match dget name fields with Some (StringAttribute s) => Some s | _ => None end.
Definition get_symbol (name : string) (fields : list (string * Attr)) : option string :=
  match dget name fields with Some (SymbolRef s) => Some s | _ => None end.
Definition get_bool (name : string) (fields : list (string * Attr)) : option bool :=
  match dget name fields with Some (Boolean b) => Some b | _ => None end.
Definition get_math (name : string) (fields : list (string * Attr)) : option (list Z) :=
  match dget name fields with Some (MathInt s) => Some s | _ => None end.
Definition get_dict (name : string) (fields : list (string * Attr)) : option (list (string * Attr)) :=
  match dget name fields with Some (Dictionary d) => Some d | _ => None end.
Definition get_array (name : string) (fields : list (string * Attr)) : option (list Attr) :=
  match dget name fields with Some (ArrayAttribute l) => Some l | _ => None end.
(** The width of a signless integer storage type. *)
Definition get_storage (fields : list (string * Attr)) : option Z :=
  match dget "storage" fields with Some (TypeAttribute (IntegerType Signless width)) => Some width | _ => None end.

(** [decodeU64]; a [BoolAttr] is an [IntegerAttr] and is rejected. *)
Definition decodeU64 (value : option Attr) : FailureOr Z :=
  match value with
  | Some (IntegerAttribute t width bits) =>
    match t with
    | IntegerType signedness _ =>
      if negb (bool_decide (signedness = UnsignedInt)) && (2 ^ width <=? 2 * bits) then failure "must be non-negative"
      else if 64 <? bit_length bits then failure "is outside the u64 range"
      else success bits
    | _ => failure "must be non-negative"
    end
  | _ => failure "must be a u64 IntegerAttr"
  end.

Definition requireExactFields (fields : list (string * Attr)) (count : nat) : FailureOr unit :=
  if bool_decide (length fields = count) then success tt else failure "must contain exactly the expected fields".

Definition recordKind (value : Attr) : FailureOr string :=
  match value with
  | Dictionary fields => match get_string "kind" fields with Some kind => success kind | None => failure "field 'kind' must be a StringAttr" end
  | _ => failure "must be a DictionaryAttr"
  end.

(** The checks of a list, one after the other. *)
Fixpoint all_ok (l : list (FailureOr unit)) : FailureOr unit :=
  match l with [] => success tt | x :: rest => let! _ := x in all_ok rest end.

Section Contracts.
Context `{L : ApLib}.

(** ** Bounds *)

Definition mathValue (spelling : list Z) : APSInt := aps_of_string spelling.
Definition compareMath (left_ right_ : APSInt) : Z := compareValues left_ right_.

Definition positivePowerOfTwo (exponent : Z) : APSInt := aps (ap_setBit (ap_of (exponent + 2) 0) exponent) true.
Definition negativePowerOfTwo (exponent : Z) : APSInt := aps (ap_neg (ap_setBit (ap_of (exponent + 2) 0) exponent)) false.

(** The loop over the widths; [count] widths from [width] on remain. *)
Fixpoint find_width (nonNegative : bool) (lower upper : APSInt) (width : Z) (count : nat) : FailureOr Z :=
  match count with
  | O => failure "LogicalType integer bounds require storage wider than 64 bits"
  | S count =>
    if 0 <? compareMath upper (positivePowerOfTwo (if nonNegative then width else width - 1))
    then find_width nonNegative lower upper (width + 1) count
    else if negb nonNegative && (compareMath lower (negativePowerOfTwo (width - 1)) <? 0)
    then find_width nonNegative lower upper (width + 1) count
    else success width
  end.

Definition zero_text : list Z := [48].

Definition requiredLogicalWidth (lower upper : APSInt) (interpretation : string) : FailureOr Z :=
  let nonNegative := 0 <=? compareMath lower (aps_of_string zero_text) in
  if negb (bool_decide (interpretation = if nonNegative then "unsigned" else "signed"))
  then failure "LogicalType integer interpretation does not fit its bounds"
  else find_width nonNegative lower upper 1 64.

Definition verifyBounds (lower upper : option (list Z)) : FailureOr unit :=
  match lower, upper with
  | Some lower, Some upper =>
    if 0 <=? compareMath (mathValue lower) (mathValue upper) then failure "requires lower < upper mathematical bounds"
    else success tt
  | _, _ => failure "bounds must both be MathInt attributes"
  end.

(** ** Types *)

Definition verifyLogicalInteger (fields : list (string * Attr)) : FailureOr unit :=
  let! _ := requireExactFields fields 5 in
  match get_storage fields with
  | None => failure "LogicalType integer storage must be signless iN"
  | Some storage =>
    if (storage =? 0) || (64 <? storage) then failure "LogicalType integer storage must be signless iN"
    else
      let! _ := verifyBounds (get_math "lower" fields) (get_math "upper" fields) in
      match get_math "lower" fields, get_math "upper" fields, get_string "interpretation" fields with
      | Some lower, Some upper, Some interpretation =>
        let! required := requiredLogicalWidth (mathValue lower) (mathValue upper) interpretation in
        if storage =? required then success tt else failure "LogicalType integer storage width must be minimal"
      | _, _, _ => failure "LogicalType integer interpretation must be a StringAttr"
      end
  end.

(** A dictionary among attributes, with the result of a check of it. *)
Definition checked_dict {B} (check : Attr -> B) (a : Attr) : option (list (string * Attr) * B) :=
  match a with Dictionary fields => Some (fields, check a) | _ => None end.

Fixpoint verifyLogicalTypeStructure (value : Attr) : FailureOr unit :=
  let! kind := recordKind value in
  match value with
  | Dictionary fields =>
    if decide (kind = "bool") then
      let! _ := requireExactFields fields 2 in
      if bool_decide (get_storage fields = Some 1) then success tt else failure "LogicalType bool storage must be signless i1"
    else if decide (kind = "integer") then verifyLogicalInteger fields
    else if decide (kind = "record") then
      let! _ := requireExactFields fields 2 in
      match get_symbol "symbol" fields with
      | Some _ => success tt
      | None => failure "LogicalType record symbol must be a FlatSymbolRefAttr"
      end
    else if decide (kind = "list") then
      let! _ := requireExactFields fields 3 in
      match dget_with (checked_dict verifyLogicalTypeStructure) "element" fields with
      | Some (Some (element, check)) =>
        let! length := decodeU64 (dget "length" fields) in
        if length =? 0 then failure "LogicalType list length must be positive"
        else
          let! _ := check in
          if bool_decide (get_string "kind" element = Some "list") then failure "LogicalType list element cannot be another list"
          else success tt
      | _ => failure "LogicalType list element must be a DictionaryAttr"
      end
    else failure "LogicalType has unknown kind"
  | _ => failure "LogicalType must be a DictionaryAttr"
  end.

Fixpoint verifyStaticTypeStructure (value : Attr) : FailureOr unit :=
  let! kind := recordKind value in
  match value with
  | Dictionary fields =>
    if decide (kind = "bool") then requireExactFields fields 1
    else if decide (kind = "integer") then
      if bool_decide (length fields = 1%nat) then success tt
      else let! _ := requireExactFields fields 3 in verifyBounds (get_math "lower" fields) (get_math "upper" fields)
    else if decide (kind = "record") then
      let! _ := requireExactFields fields 2 in
      match get_symbol "symbol" fields with
      | Some _ => success tt
      | None => failure "StaticType record symbol must be a FlatSymbolRefAttr"
      end
    else if decide (kind = "list") then
      let! _ := requireExactFields fields 3 in
      match dget_with (checked_dict verifyStaticTypeStructure) "element" fields with
      | Some (Some (element, check)) =>
        let! length := decodeU64 (dget "length" fields) in
        if length =? 0 then failure "StaticType list length must be positive" else check
      | _ => failure "StaticType list element must be a DictionaryAttr"
      end
    else failure "StaticType has unknown kind"
  | _ => failure "StaticType must be a DictionaryAttr"
  end.
End Contracts.

(** ** Values *)

(** The checks of the elements of an array. *)
Definition checked_array {B} (check : Attr -> B) (a : Attr) : option (list B) :=
  match a with ArrayAttribute l => Some (check <$> l) | _ => None end.

Fixpoint verifyStaticValueStructure (value : Attr) : FailureOr unit :=
  let! kind := recordKind value in
  match value with
  | Dictionary fields =>
    if decide (kind = "bool") then
      let! _ := requireExactFields fields 2 in
      match get_bool "value" fields with Some _ => success tt | None => failure "StaticValue bool value must be a BoolAttr" end
    else if decide (kind = "integer") then
      let! _ := requireExactFields fields 2 in
      match get_math "value" fields with Some _ => success tt | None => failure "StaticValue integer value must be a MathIntAttr" end
    else if decide (kind = "record") then
      let! _ := requireExactFields fields 3 in
      match get_symbol "symbol" fields with
      | None => failure "StaticValue record symbol must be a FlatSymbolRefAttr"
      | Some _ =>
        match dget_with (checked_array verifyStaticValueStructure) "fields" fields with
        | Some (Some checks) => all_ok checks
        | _ => failure "StaticValue record fields must be an ArrayAttr"
        end
      end
    else if decide (kind = "list") then
      let! _ := requireExactFields fields 2 in
      match dget_with (checked_array verifyStaticValueStructure) "values" fields with
      | Some (Some (first :: rest)) => all_ok (first :: rest)
      | _ => failure "StaticValue list values must be a non-empty ArrayAttr"
      end
    else failure "StaticValue has unknown kind"
  | _ => failure "StaticValue must be a DictionaryAttr"
  end.

Definition verifyDefaultStructure (value : Attr) : FailureOr unit :=
  match value with
  | Dictionary fields =>
    match get_bool "present" fields with
    | None => failure "Default field 'present' must be a BoolAttr"
    | Some false => requireExactFields fields 1
    | Some true =>
      let! _ := requireExactFields fields 2 in
      match dget "value" fields with
      | Some (Dictionary staticValue) => verifyStaticValueStructure (Dictionary staticValue)
      | _ => failure "present Default value must be a DictionaryAttr"
      end
    end
  | _ => failure "Default must be a DictionaryAttr"
  end.

(** ** Nominal records *)

Inductive ExpectedTypeKind := ExpectLogical | ExpectStatic.

Record ResolvedRecordView := mkRecordView { view_symbol : option string; fieldLogicalTypes : list Attr }.

(** The symbols being resolved and the records resolved so far.  A failed
    check discards the state. *)
Record ResolutionState := mkResolution { active : list string; resolved : list (string * list Attr) }.

Fixpoint find_record (symbol : string) (l : list (string * list Attr)) : option (list Attr) :=
  match l with
  | [] => None
  | (key, fields) :: rest => if decide (key = symbol) then Some fields else find_record symbol rest
  end.

Section Resolve.
Context `{L : ApLib}.

(** The resolver a caller passes, if any. *)
Variable resolver : option (string -> FailureOr ResolvedRecordView).

Definition structure (kind : ExpectedTypeKind) (type : Attr) : FailureOr unit :=
  match kind with ExpectLogical => verifyLogicalTypeStructure type | ExpectStatic => verifyStaticTypeStructure type end.

(** [resolveType] over the resolution of records. *)
Fixpoint resolve_type_with (resolveRecord : string -> ResolutionState -> Run (list Attr * ResolutionState))
    (kind : ExpectedTypeKind) (type : Attr) (st : ResolutionState) : Run ResolutionState :=
  let? _ := Some (structure kind type) in
  let? typeKind := Some (recordKind type) in
  match type with
  | Dictionary fields =>
    if decide (typeKind = "record") then
      match get_symbol "symbol" fields with
      | Some symbol => let? r := resolveRecord symbol st in rdone (snd r)
      | None => rfail "record symbol"
      end
    else if decide (typeKind = "list") then
      match dget_with (fun a => resolve_type_with resolveRecord kind a) "element" fields with
      | Some resolve => resolve st
      | None => rfail "list element"
      end
    else rdone st
  | _ => rfail "must be a DictionaryAttr"
  end.

(** The loop over the fields of a record. *)
Fixpoint resolve_fields (resolveRecord : string -> ResolutionState -> Run (list Attr * ResolutionState))
    (types : list Attr) (st : ResolutionState) : Run ResolutionState :=
  match types with
  | [] => rdone st
  | type :: rest =>
    let? _ := Some (verifyLogicalTypeStructure type) in
    let? st := resolve_type_with resolveRecord ExpectLogical type st in
    resolve_fields resolveRecord rest st
  end.

Definition erase (symbol : string) (l : list string) : list string := filter (fun s => s <> symbol) l.

(** [fuel] bounds the nesting of records. *)
Fixpoint resolveRecord (fuel : nat) (symbol : string) (st : ResolutionState) : Run (list Attr * ResolutionState) :=
  match fuel with
  | O => None
  | S fuel =>
    match find_record symbol (resolved st) with
    | Some fields => rdone (fields, st)
    | None =>
      if bool_decide (symbol ∈ active st) then rfail "nominal record resolution cycle"
      else
        match resolver with
        | None => rfail "nominal record resolver is unavailable"
        | Some resolver =>
          match resolver symbol with
          | inl _ => rfail "failed to resolve nominal record"
          | inr view =>
            if negb (bool_decide (view_symbol view = Some symbol)) then rfail "nominal resolver returned a mismatched symbol"
            else
              let? st := resolve_fields (resolveRecord fuel) (fieldLogicalTypes view)
                           (mkResolution (symbol :: active st) (resolved st)) in
              rdone (fieldLogicalTypes view,
                     mkResolution (erase symbol (active st)) ((symbol, fieldLogicalTypes view) :: resolved st))
          end
        end
    end
  end.

Definition resolveType (fuel : nat) := resolve_type_with (resolveRecord fuel).

(** ** Matching *)

Definition matchInteger (kind : ExpectedTypeKind) (value : list Z) (type : list (string * Attr)) : FailureOr unit :=
  if match kind with ExpectStatic => bool_decide (length type = 1%nat) | ExpectLogical => false end then success tt
  else
    match get_math "lower" type, get_math "upper" type with
    | Some lower, Some upper =>
      if (compareMath (mathValue value) (mathValue lower) <? 0) || (0 <=? compareMath (mathValue value) (mathValue upper))
      then failure "StaticValue integer is outside expected [lower, upper) bounds"
      else success tt
    | _, _ => failure "bounds must both be MathInt attributes"
    end.

(** Matching one value against a type given later. *)
Definition Matcher : Type := ExpectedTypeKind -> Attr -> ResolutionState -> Run ResolutionState.

Fixpoint match_fields (fields : list Matcher) (types : list Attr) (st : ResolutionState) : Run ResolutionState :=
  match fields, types with
  | check :: fields, type :: types => let? st := check ExpectLogical type st in match_fields fields types st
  | _, _ => rdone st
  end.

Fixpoint match_elements (kind : ExpectedTypeKind) (elements : list Matcher) (type : Attr) (st : ResolutionState) : Run ResolutionState :=
  match elements with
  | [] => rdone st
  | check :: rest => let? st := check kind type st in match_elements kind rest type st
  end.

Fixpoint match_value (fuel : nat) (value : Attr) {struct value} : Matcher := fun kind type st =>
  let? st := resolveType fuel kind type st in
  let? valueKind := Some (recordKind value) in
  let? typeKind := Some (recordKind type) in
  match value, type with
  | Dictionary value, Dictionary type =>
    if negb (bool_decide (valueKind = typeKind)) then rfail "StaticValue kind does not match expected type kind"
    else if decide (typeKind = "bool") then rdone st
    else if decide (typeKind = "integer") then
      match get_math "value" value with
      | Some number => let? _ := Some (matchInteger kind number type) in rdone st
      | None => rfail "StaticValue integer value must be a MathIntAttr"
      end
    else if decide (typeKind = "record") then
      match get_symbol "symbol" type with
      | None => rfail "record symbol"
      | Some expectedSymbol =>
        if negb (bool_decide (get_symbol "symbol" value = Some expectedSymbol))
        then rfail "StaticValue record nominal symbol does not match expected"
        else
          let? r := resolveRecord fuel expectedSymbol st in
          match dget_with (checked_array (match_value fuel)) "fields" value with
          | Some (Some fields) =>
            if negb (bool_decide (length fields = length (fst r)))
            then rfail "StaticValue record field arity does not match nominal"
            else match_fields fields (fst r) (snd r)
          | _ => rfail "StaticValue record fields must be an ArrayAttr"
          end
      end
    else
      match dget_with (checked_array (match_value fuel)) "values" value with
      | Some (Some values) =>
        let? expectedLength := Some (decodeU64 (dget "length" type)) in
        if negb (expectedLength =? Z.of_nat (length values))
        then rfail "StaticValue list length does not match expected type length"
        else
          match dget "element" type with
          | Some elementType => match_elements kind values elementType st
          | None => rfail "list element"
          end
      | _ => rfail "StaticValue list values must be a non-empty ArrayAttr"
      end
  | _, _ => rfail "must be a DictionaryAttr"
  end.

Definition no_resolution : ResolutionState := mkResolution [] [].

Definition verifyTypeResolved (fuel : nat) (kind : ExpectedTypeKind) (type : Attr) : Run unit :=
  let? _ := resolveType fuel kind type no_resolution in rdone tt.

Definition verifyStaticValueMatchesType (fuel : nat) (kind : ExpectedTypeKind) (value type : Attr) : Run unit :=
  let? _ := Some (verifyStaticValueStructure value) in
  let? _ := match_value fuel value kind type no_resolution in
  rdone tt.

Definition verifyDefaultMatchesType (fuel : nat) (kind : ExpectedTypeKind) (defaultValue type : Attr) : Run unit :=
  let? _ := Some (verifyDefaultStructure defaultValue) in
  let? st := resolveType fuel kind type no_resolution in
  match defaultValue with
  | Dictionary fields =>
    if bool_decide (get_bool "present" fields = Some false) then rdone tt
    else
      match dget "value" fields with
      | Some value => let? _ := match_value fuel value kind type st in rdone tt
      | None => rfail "present Default value must be a DictionaryAttr"
      end
  | _ => rfail "Default must be a DictionaryAttr"
  end.
End Resolve.
