(* ===== verification/StaticValuesSpec.v ===== *)
(** * Static types are canonical and values are checked exactly

    An accepted logical type is the description of a type whose integer
    storage has the least width that holds its range.  Nominal records resolve
    exactly when their declarations are complete and acyclic, and the check of
    a value against a type decides membership. *)

From Stdlib Require Import ZArith Lia String.
From stdpp Require Import base list numbers strings.
From S2P Require Import Prelude ModelInput ConfigSpec CompilerPrelude ApInt ValueSemanticsSpec HardwareAnalysis HardwareAnalysisSpec StaticValues.

Open Scope string_scope.
Open Scope Z_scope.

(** ** Induction over attributes *)

Section AttrInduction.
Variable P : Attr -> Prop.
Hypothesis Hbool : forall b, P (Boolean b).
Hypothesis Hmath : forall s, P (MathInt s).
Hypothesis Hstring : forall s, P (StringAttribute s).
Hypothesis Hsymbol : forall s, P (SymbolRef s).
Hypothesis Htype : forall t, P (TypeAttribute t).
Hypothesis Hint : forall t w b, P (IntegerAttribute t w b).
Hypothesis Harray : forall l, Forall P l -> P (ArrayAttribute l).
Hypothesis Hdict : forall fs, Forall (fun field => P (snd field)) fs -> P (Dictionary fs).
Hypothesis Hother : forall id, P (OtherAttribute id).
Hypothesis Hunit : P UnitAttribute.

Fixpoint Attr_induction (a : Attr) : P a :=
  match a with
  | Boolean b => Hbool b
  | MathInt s => Hmath s
  | StringAttribute s => Hstring s
  | SymbolRef s => Hsymbol s
  | TypeAttribute t => Htype t
  | IntegerAttribute t w b => Hint t w b
  | ArrayAttribute l =>
    Harray l ((fix go l := match l return Forall P l with
                           | [] => List.Forall_nil _
                           | x :: rest => List.Forall_cons _ _ _ (Attr_induction x) (go rest)
                           end) l)
  | Dictionary fs =>
    Hdict fs ((fix go fs := match fs return Forall (fun field => P (snd field)) fs with
                            | [] => List.Forall_nil _
                            | (k, v) :: rest => List.Forall_cons _ (k, v) _ (Attr_induction v) (go rest)
                            end) fs)
  | OtherAttribute id => Hother id
  | UnitAttribute => Hunit
  end.
End AttrInduction.

(** A field through a function is the function of the field. *)
Lemma dget_with_dget {B} (f : Attr -> B) name fields : dget_with f name fields = f <$> dget name fields.
Proof.
  unfold dget. induction fields as [|[k v] fields IH]; [reflexivity|]. cbn [dget_with]. fold (dget_with f name) (dget_with (fun a => a) name).
  case_decide; [reflexivity|exact IH].
Qed.

Lemma dget_Forall (P : Attr -> Prop) name fields a : Forall (fun field => P (snd field)) fields -> dget name fields = Some a -> P a.
Proof.
  unfold dget. induction 1 as [|[k v] fields Hv H IH]; [discriminate|]. cbn [dget_with]. fold (dget_with (fun a : Attr => a) name).
  case_decide; [intros [= <-]; exact Hv|exact IH].
Qed.

(** ** Integer storage *)

Section Widths.
Context `{L : ApLib} {HL : ApLaws L}.

(** The number a spelling stands for. *)
Definition number (spelling : list Z) : Z := aps_value (aps_of_string spelling).

(** [w] bits, signed or not, hold every number of [lower, upper). *)
Definition holds_range (lower upper w : Z) : Prop :=
  forall z, lower <= z < upper -> if 0 <=? lower then 0 <= z < 2 ^ w else - 2 ^ (w - 1) <= z < 2 ^ (w - 1).

Definition least_width (lower upper w : Z) : Prop :=
  1 <= w <= 64 /\ holds_range lower upper w /\ forall v, 1 <= v < w -> ~ holds_range lower upper v.

Lemma setBit_is e : 0 <= e <= 64 -> ap_is (ap_setBit (ap_of (e + 2) 0) e) (e + 2) (2 ^ e).
Proof.
  intros He. assert (I0 : ap_is (ap_of (e + 2) 0) (e + 2) 0) by (apply ap_of_law; [lia|unfold is_u; lia]). destruct I0 as [Hw Hb].
  pose proof (ap_setBit_law (ap_of (e + 2) 0) e ltac:(rewrite Hw; lia)) as H. rewrite Hw, Hb, Z.mod_0_l, Z.lor_0_l in H; [exact H|].
  pose proof (Z.pow_pos_nonneg 2 (e + 2)). lia.
Qed.

Lemma positivePower_value e : 0 <= e <= 64 -> aps_value (positivePowerOfTwo e) = 2 ^ e.
Proof.
  intros He. unfold aps_value, positivePowerOfTwo. destruct (aps_parts (ap_setBit (ap_of (e + 2) 0) e) true) as [-> ->].
  destruct (setBit_is e He) as [_ ->]. apply Z.mod_small. split; [lia|apply Z.pow_lt_mono_r; lia].
Qed.

Lemma negativePower_value e : 0 <= e <= 64 -> aps_value (negativePowerOfTwo e) = - 2 ^ e.
Proof.
  intros He. unfold aps_value, negativePowerOfTwo. destruct (aps_parts (ap_neg (ap_setBit (ap_of (e + 2) 0) e)) false) as [-> ->].
  apply (ap_is_signed _ (e + 2)); [apply ap_neg_is, setBit_is, He|]. unfold fits_signed. rewrite Z.pow_add_r by lia.
  pose proof (Z.pow_pos_nonneg 2 e). lia.
Qed.

Lemma compare_lt a c : (compareMath a c <? 0) = (aps_value a <? aps_value c).
Proof. unfold compareMath. rewrite compareValues_law. destruct (Z.compare_spec (aps_value a) (aps_value c)); cbn; lia. Qed.

Lemma compare_gt a c : (0 <? compareMath a c) = (aps_value c <? aps_value a).
Proof. unfold compareMath. rewrite compareValues_law. destruct (Z.compare_spec (aps_value a) (aps_value c)); cbn; lia. Qed.

Lemma compare_ge a c : (0 <=? compareMath a c) = (aps_value c <=? aps_value a).
Proof. unfold compareMath. rewrite compareValues_law. destruct (Z.compare_spec (aps_value a) (aps_value c)); cbn; lia. Qed.

Lemma holds_range_bounds lower upper w : lower < upper -> holds_range lower upper w <->
  if 0 <=? lower then upper <= 2 ^ w else - 2 ^ (w - 1) <= lower /\ upper <= 2 ^ (w - 1).
Proof.
  intros Hl. unfold holds_range. destruct (Z.leb_spec 0 lower) as [H|H]; split.
  - intros Hz. specialize (Hz (upper - 1)). lia.
  - intros Hu z Hz. lia.
  - intros Hz. pose proof (Hz lower). specialize (Hz (upper - 1)). lia.
  - intros Hu z Hz. lia.
Qed.

Lemma find_width_spec lower upper count : forall w, aps_value lower < aps_value upper -> 1 <= w -> w + Z.of_nat count <= 65 -> forall r,
  find_width (0 <=? aps_value lower) lower upper w count = inr r <->
  w <= r < w + Z.of_nat count /\ holds_range (aps_value lower) (aps_value upper) r /\
  forall v, w <= v < r -> ~ holds_range (aps_value lower) (aps_value upper) v.
Proof.
  induction count as [|count IH]; intros w Hlt Hw Hb r; [cbn; split; [discriminate|lia]|]. cbn [find_width].
  rewrite compare_gt, compare_lt, positivePower_value, negativePower_value by (destruct (0 <=? aps_value lower); lia).
  assert (Hhere : (2 ^ (if 0 <=? aps_value lower then w else w - 1) <? aps_value upper) = false /\
    (negb (0 <=? aps_value lower) && (aps_value lower <? - 2 ^ (w - 1))) = false <-> holds_range (aps_value lower) (aps_value upper) w).
  { rewrite holds_range_bounds by exact Hlt. destruct (Z.leb_spec 0 (aps_value lower)); cbn [negb andb]; lia. }
  assert (Hskip : ~ holds_range (aps_value lower) (aps_value upper) w ->
    (find_width (0 <=? aps_value lower) lower upper (w + 1) count = inr r <->
     w <= r < w + Z.of_nat (S count) /\ holds_range (aps_value lower) (aps_value upper) r /\
     forall v, w <= v < r -> ~ holds_range (aps_value lower) (aps_value upper) v)).
  { intros Hn. rewrite IH by lia. split; intros (H1 & H2 & H3); (split; [|split; [exact H2|]]).
    - lia.
    - intros v Hv. destruct (decide (v = w)) as [->|]; [exact Hn|]. apply H3. lia.
    - assert (r <> w) by (intros ->; contradiction). lia.
    - intros v Hv. apply H3. lia. }
  destruct (2 ^ _ <? _); [apply Hskip; rewrite <- Hhere; intros [? ?]; discriminate|].
  destruct (_ && _); [apply Hskip; rewrite <- Hhere; intros [? ?]; discriminate|].
  pose proof (proj1 Hhere (conj eq_refl eq_refl)) as Hr. split.
  - intros [= <-]. split; [lia|]. split; [exact Hr|]. lia.
  - intros (H1 & H2 & H3). destruct (decide (r = w)) as [->|]; [reflexivity|]. exfalso. apply (H3 w); [lia|exact Hr].
Qed.

Lemma zero_value : aps_value (aps_of_string zero_text) = 0.
Proof. change zero_text with (spell 0). apply aps_of_string_law. vm_compute. discriminate. Qed.

(** The required width is the least one, under the interpretation the lower
    bound asks for. *)
Lemma requiredLogicalWidth_spec lower upper interpretation w : aps_value lower < aps_value upper ->
  requiredLogicalWidth lower upper interpretation = inr w <->
  interpretation = (if 0 <=? aps_value lower then "unsigned" else "signed") /\ least_width (aps_value lower) (aps_value upper) w.
Proof.
  intros Hlt. unfold requiredLogicalWidth. rewrite compare_ge, zero_value. case_bool_decide as Hi; cbn [negb].
  - rewrite find_width_spec by lia. unfold least_width. split.
    + intros (H1 & H2 & H3). split; [exact Hi|]. split; [lia|]. auto.
    + intros (_ & H1 & H2 & H3). split; [lia|]. auto.
  - split; [discriminate|]. intros [H _]. contradiction.
Qed.

Lemma verifyBounds_spec lower upper : verifyBounds lower upper = inr tt <->
  exists l u, lower = Some l /\ upper = Some u /\ number l < number u.
Proof.
  unfold verifyBounds, number, mathValue. destruct lower as [l|], upper as [u|]; try (split; [discriminate|intros (? & ? & ? & ? & ?); discriminate]).
  rewrite compare_ge. destruct (Z.leb_spec (aps_value (aps_of_string u)) (aps_value (aps_of_string l))).
  - split; [discriminate|]. intros (l' & u' & [= <-] & [= <-] & H'). lia.
  - split; [|reflexivity]. intros _. eauto.
Qed.
End Widths.

(** ** Logical types *)

Inductive LogicalType :=
| LogicalBool
| LogicalInteger (lower upper width : Z)
| LogicalRecord (symbol : string)
| LogicalList (element : LogicalType) (length : Z).

Section Logical.
Context `{L : ApLib} {HL : ApLaws L}.

(** A dictionary with exactly the fields that describe a type. *)
Inductive describes : list (string * Attr) -> LogicalType -> Prop :=
| describes_bool fs : length fs = 2%nat -> get_string "kind" fs = Some "bool" -> get_storage fs = Some 1 -> describes fs LogicalBool
| describes_integer fs l u w : length fs = 5%nat -> get_string "kind" fs = Some "integer" -> get_storage fs = Some w ->
    get_math "lower" fs = Some l -> get_math "upper" fs = Some u ->
    get_string "interpretation" fs = Some (if 0 <=? number l then "unsigned" else "signed") ->
    describes fs (LogicalInteger (number l) (number u) w)
| describes_record fs s : length fs = 2%nat -> get_string "kind" fs = Some "record" -> get_symbol "symbol" fs = Some s ->
    describes fs (LogicalRecord s)
| describes_list fs e t n : length fs = 3%nat -> get_string "kind" fs = Some "list" -> dget "element" fs = Some (Dictionary e) ->
    describes e t -> decodeU64 (dget "length" fs) = inr n -> describes fs (LogicalList t n).

(** Nonempty ranges in the least storage; lists of scalars or records. *)
Fixpoint well_formed (t : LogicalType) : Prop :=
  match t with
  | LogicalBool | LogicalRecord _ => True
  | LogicalInteger lower upper w => lower < upper /\ least_width lower upper w
  | LogicalList e n => well_formed e /\ n <> 0 /\ match e with LogicalList _ _ => False | _ => True end
  end.

Lemma requireExact_spec fs n : requireExactFields fs n = inr tt <-> length fs = n.
Proof. unfold requireExactFields. case_bool_decide; split; (discriminate || congruence || auto). Qed.

Lemma fbind_tt {A} (m : FailureOr unit) (k : FailureOr A) a : fbind m (fun _ => k) = inr a <-> m = inr tt /\ k = inr a.
Proof.
  split; [intros H; apply fbind_inr in H as ([] & -> & H); auto|]. intros [-> H]. exact H.
Qed.

Lemma describes_kind fs t : describes fs t ->
  get_string "kind" fs = Some match t with LogicalBool => "bool" | LogicalInteger _ _ _ => "integer" | LogicalRecord _ => "record" | LogicalList _ _ => "list" end.
Proof. destruct 1; assumption. Qed.

Lemma verifyLogicalInteger_spec fs : get_string "kind" fs = Some "integer" ->
  verifyLogicalInteger fs = inr tt <-> exists t, describes fs t /\ well_formed t.
Proof.
  intros Hk. unfold verifyLogicalInteger. rewrite fbind_tt, requireExact_spec. split.
  - intros [Hl H]. destruct (get_storage fs) as [w|] eqn:Es; [|discriminate]. destruct (_ || _); [discriminate|].
    rewrite fbind_tt, verifyBounds_spec in H. destruct H as [(l & u & El & Eu & Hlt) H]. rewrite El, Eu in H.
    destruct (get_string "interpretation" fs) as [i|] eqn:Ei; [|discriminate]. apply fbind_inr in H as (r & Er & H).
    apply requiredLogicalWidth_spec in Er as [-> Hw]; [|exact Hlt]. destruct (Z.eqb_spec w r) as [<-|]; [|discriminate].
    exists (LogicalInteger (number l) (number u) w). split; [constructor; assumption|]. cbn. auto.
  - intros (t & Ht & Hw). pose proof (describes_kind _ _ Ht) as Hk'. rewrite Hk in Hk'. destruct Ht; try discriminate Hk'. cbn in Hw.
    destruct Hw as [Hlt Hw]. split; [assumption|]. rewrite H1. destruct Hw as (Hr & Hw). destruct (Z.eqb_spec w 0); [lia|]. destruct (Z.ltb_spec 64 w); [lia|].
    cbn [orb]. rewrite fbind_tt, verifyBounds_spec. split; [eauto|]. rewrite H2, H3, H4.
    assert (E : requiredLogicalWidth (mathValue l) (mathValue u) (if 0 <=? number l then "unsigned" else "signed") = inr w)
      by (apply requiredLogicalWidth_spec; [exact Hlt|]; split; [reflexivity|exact (conj Hr Hw)]).
    rewrite E. cbn [fbind]. rewrite Z.eqb_refl. reflexivity.
Qed.

Lemma recordKind_spec fs k : recordKind (Dictionary fs) = inr k <-> get_string "kind" fs = Some k.
Proof. cbn. destruct (get_string "kind" fs); cbn; split; congruence || (intros [= ->]; reflexivity). Qed.

Ltac by_kind Hk :=
  match goal with |- context [describes ?fs] => split; intros H; [|destruct H as (t & Ht & Hw); pose proof (describes_kind _ _ Ht) as Hk'; rewrite Hk in Hk'; destruct Ht; try discriminate Hk'] end.

Definition logical_exact (a : Attr) : Prop :=
  verifyLogicalTypeStructure a = inr tt <-> exists fs t, a = Dictionary fs /\ describes fs t /\ well_formed t.

Lemma logical_structure_spec a : logical_exact a.
Proof.
  induction a as [| | | | | | |fs IH| |] using Attr_induction; try (split; [discriminate|intros (? & ? & ? & _); discriminate]).
  assert (Hred : (exists fs' t, Dictionary fs = Dictionary fs' /\ describes fs' t /\ well_formed t) <-> exists t, describes fs t /\ well_formed t).
  { split; [intros (fs' & t & [= <-] & H); eauto|intros (t & H); eauto]. }
  unfold logical_exact at 1. rewrite Hred. clear Hred. cbn [verifyLogicalTypeStructure]. destruct (recordKind (Dictionary fs)) as [m|k] eqn:Ek.
  { split; [discriminate|]. intros (t & Ht & _). apply describes_kind in Ht. rewrite <- recordKind_spec, Ek in Ht. discriminate. }
  cbn [fbind]. apply recordKind_spec in Ek. destruct (decide (k = "bool")) as [->|N1].
  { rewrite fbind_tt, requireExact_spec. by_kind Ek.
    - destruct H as [Hl H]. case_bool_decide; [|discriminate]. exists LogicalBool. split; [constructor; assumption|exact I].
    - split; [assumption|]. rewrite bool_decide_true by assumption. reflexivity. }
  destruct (decide (k = "integer")) as [->|N2]; [apply verifyLogicalInteger_spec, Ek|].
  destruct (decide (k = "record")) as [->|N3].
  { rewrite fbind_tt, requireExact_spec. by_kind Ek.
    - destruct H as [Hl H]. destruct (get_symbol "symbol" fs) as [s|] eqn:Es; [|discriminate]. exists (LogicalRecord s).
      split; [constructor; assumption|exact I].
    - split; [assumption|]. rewrite H1. reflexivity. }
  destruct (decide (k = "list")) as [->|N4].
  2:{ split; [discriminate|]. intros (t & Ht & _). apply describes_kind in Ht. rewrite Ek in Ht. injection Ht as ->. destruct t; contradiction. }
  rewrite fbind_tt, requireExact_spec, dget_with_dget. by_kind Ek.
  - destruct H as [Hl H]. destruct (dget "element" fs) as [e|] eqn:Ee; [|discriminate]. cbn [fmap option_fmap option_map] in H.
    destruct e as [| | | | | | |e| |]; try discriminate. cbn [checked_dict] in H. apply fbind_inr in H as (n & En & H).
    destruct (Z.eqb_spec n 0) as [|Hn]; [discriminate|]. rewrite fbind_tt in H. destruct H as [He H].
    pose proof (dget_Forall logical_exact _ _ _ IH Ee) as IHe. apply IHe in He as (e' & t & [= <-] & Ht & Hw). exists (LogicalList t n).
    split; [econstructor; eassumption|]. cbn. split; [exact Hw|]. split; [exact Hn|]. destruct t; try exact I.
    apply describes_kind in Ht. rewrite bool_decide_true in H by exact Ht. discriminate.
  - split; [assumption|]. rewrite H1. cbn [fmap option_fmap option_map checked_dict]. rewrite H2. cbn [fbind]. cbn in Hw. destruct Hw as (Hw & Hn & Hnl).
    destruct (Z.eqb_spec n 0); [contradiction|]. rewrite fbind_tt. pose proof (dget_Forall logical_exact _ _ _ IH H1) as IHe. split.
    + apply IHe. eauto.
    + rewrite bool_decide_false; [reflexivity|]. rewrite (describes_kind _ _ Ht). destruct t; try discriminate. contradiction.
Qed.
End Logical.

(** Decides the comparisons of two known kinds. *)
Ltac decide_kind a c :=
  let D := fresh in destruct (decide (a = c)) as [D|D]; [first [discriminate D|clear D]|first [exfalso; exact (D eq_refl)|clear D]].
Ltac kinds_in H := repeat match type of H with context [decide (?a = ?c)] => decide_kind a c end.
Ltac kinds := repeat match goal with |- context [decide (?a = ?c)] => decide_kind a c end.

(** ** Nominal records *)

Section Resolution.
Context `{L : ApLib} {HL : ApLaws L}.
Variable resolver : option (string -> FailureOr ResolvedRecordView).
#[local] Abbreviation resolveRecord := (resolveRecord resolver).

(** The declaration of a record that the resolver gives. *)
Definition fields_of (symbol : string) : option (list Attr) :=
  match resolver with
  | Some r =>
    match r symbol with
    | inr view => if bool_decide (view_symbol view = Some symbol) then Some (fieldLogicalTypes view) else None
    | inl _ => None
    end
  | None => None
  end.

(** A type whose records satisfy [known]. *)
Fixpoint type_ok (known : string -> bool) (kind : ExpectedTypeKind) (type : Attr) : bool :=
  match structure kind type, type with
  | inr _, Dictionary fields =>
    match get_string "kind" fields with
    | Some k =>
      if decide (k = "record") then match get_symbol "symbol" fields with Some s => known s | None => false end
      else if decide (k = "list") then default false (dget_with (type_ok known kind) "element" fields)
      else true
    | None => false
    end
  | _, _ => false
  end.

(** A record whose declarations nest at most [n] deep. *)
Fixpoint resolvable (n : nat) (symbol : string) : bool :=
  match n with
  | O => false
  | S n => match fields_of symbol with Some types => forallb (type_ok (resolvable n) ExpectLogical) types | None => false end
  end.

(** All records below the type are declared, without cycles. *)
Definition type_resolves (kind : ExpectedTypeKind) (type : Attr) : Prop := exists n, type_ok (resolvable n) kind type = true.

Lemma type_ok_mono (p q : string -> bool) kind type : (forall s, p s = true -> q s = true) ->
  type_ok p kind type = true -> type_ok q kind type = true.
Proof.
  intros Hpq. induction type as [| | | | | | |fs IH| |] using Attr_induction; cbn [type_ok]; try (destruct (structure kind _); discriminate).
  destruct (structure kind _) as [|_]; [discriminate|]. destruct (get_string "kind" fs) as [k|]; [|discriminate]. case_decide.
  - destruct (get_symbol "symbol" fs); [apply Hpq|discriminate].
  - case_decide; [|auto]. rewrite !dget_with_dget. destruct (dget "element" fs) as [e|] eqn:Ee; [|discriminate]. cbn.
    exact (dget_Forall (fun e => type_ok p kind e = true -> type_ok q kind e = true) _ _ _ IH Ee).
Qed.

Lemma resolvable_mono n m s : (n <= m)%nat -> resolvable n s = true -> resolvable m s = true.
Proof.
  revert m s. induction n as [|n IH]; intros [|m] s Hm; try lia; [discriminate|discriminate|]. cbn [resolvable].
  destruct (fields_of s) as [types|]; [|discriminate]. rewrite !forallb_forall. intros H t Ht. eapply type_ok_mono; [|apply H, Ht].
  intros s'. apply IH. lia.
Qed.

Lemma type_resolves_all kind types : Forall (type_resolves kind) types -> exists n, forallb (type_ok (resolvable n) kind) types = true.
Proof.
  induction 1 as [|t types (n & Hn) H (m & IH)]; [exists 0%nat; reflexivity|]. exists (Nat.max n m). cbn [forallb]. apply andb_true_iff. split.
  - eapply type_ok_mono; [|exact Hn]. intros s. apply resolvable_mono. lia.
  - rewrite forallb_forall in *. intros x Hx. eapply type_ok_mono; [|apply IH, Hx]. intros s. apply resolvable_mono. lia.
Qed.

(** ** Running the resolution *)

(** The memo holds resolved records. *)
Definition memo_ok (st : ResolutionState) : Prop :=
  forall s fields, find_record s (resolved st) = Some fields -> fields_of s = Some fields /\ exists n, resolvable n s = true.

(** What a successful resolution keeps. *)
Definition keeps (st st' : ResolutionState) : Prop := active st' = active st /\ memo_ok st'.

Lemma erase_head s l : s ∉ l -> erase s (s :: l) = l.
Proof.
  intros Hs. unfold erase. rewrite filter_cons_False by tauto. induction l as [|x l IH]; [reflexivity|].
  apply not_elem_of_cons in Hs as [H1 H2]. rewrite filter_cons_True by congruence. f_equal. apply IH, H2.
Qed.

Lemma structure_kind kind fs u k : structure kind (Dictionary fs) = inr u -> recordKind (Dictionary fs) = inr k -> get_string "kind" fs = Some k.
Proof. intros _ H. apply recordKind_spec. exact H. Qed.

Lemma resolve_type_sound rr kind : (forall s st r, memo_ok st -> rr s st = Some (inr r) -> keeps st (snd r) /\ exists n, resolvable n s = true) ->
  forall type st st', memo_ok st -> resolve_type_with rr kind type st = Some (inr st') -> keeps st st' /\ type_resolves kind type.
Proof.
  intros Hrr type. induction type as [?|?|?|?|?|? ? ?|? Hl|fs IH|?|] using Attr_induction; intros st st' Hm H; cbn [resolve_type_with] in H;
    apply rbind_inr in H as (u & Es & H); injection Es as Es; apply rbind_inr in H as (k & Ek & H); injection Ek as Ek; try discriminate.
  unfold type_resolves. cbn [type_ok]. rewrite Es. pose proof (structure_kind _ _ _ _ Es Ek) as Ek'. rewrite Ek'. destruct (decide (k = "record")) as [E1|E1].
  - destruct (get_symbol "symbol" fs) as [s|]; [|discriminate]. apply rbind_inr in H as (r & Er & [= <-]). exact (Hrr _ _ _ Hm Er).
  - destruct (decide (k = "list")) as [E2|E2].
    + rewrite dget_with_dget in H. setoid_rewrite dget_with_dget. destruct (dget "element" fs) as [e|] eqn:Ee; [|discriminate].
      exact (dget_Forall (fun e => forall st st', memo_ok st -> resolve_type_with rr kind e st = Some (inr st') -> keeps st st' /\ type_resolves kind e)
               _ _ _ IH Ee st st' Hm H).
    + injection H as <-. split; [split; [reflexivity|exact Hm]|]. exists 0%nat. reflexivity.
Qed.

Lemma resolve_fields_sound rr : (forall s st r, memo_ok st -> rr s st = Some (inr r) -> keeps st (snd r) /\ exists n, resolvable n s = true) ->
  forall types st st', memo_ok st -> resolve_fields rr types st = Some (inr st') -> keeps st st' /\ Forall (type_resolves ExpectLogical) types.
Proof.
  intros Hrr types. induction types as [|t types IH]; intros st st' Hm H; cbn [resolve_fields] in H.
  - injection H as <-. split; [split; [reflexivity|exact Hm]|constructor].
  - apply rbind_inr in H as (u & _ & H). apply rbind_inr in H as (mid & Em & H).
    apply (resolve_type_sound rr ExpectLogical Hrr) in Em as [[Ea Hm'] Ht]; [|exact Hm].
    apply IH in H as [[Ea' Hm''] Hf]; [|exact Hm']. split; [split; [congruence|exact Hm'']|constructor; assumption].
Qed.

(** The answer for a record without a declaration. *)
Definition undeclared (symbol : string) : Run (list Attr * ResolutionState) :=
  match resolver with
  | None => rfail "nominal record resolver is unavailable"
  | Some r =>
    match r symbol with
    | inl _ => rfail "failed to resolve nominal record"
    | inr _ => rfail "nominal resolver returned a mismatched symbol"
    end
  end.

Lemma undeclared_fails s : exists m, undeclared s = Some (inl m).
Proof. unfold undeclared. destruct resolver as [r|]; [destruct (r s)|]; eexists; reflexivity. Qed.

Lemma resolveRecord_S fuel s st : resolveRecord (S fuel) s st =
  match find_record s (resolved st) with
  | Some fields => rdone (fields, st)
  | None =>
    if bool_decide (s ∈ active st) then rfail "nominal record resolution cycle"
    else
      match fields_of s with
      | None => undeclared s
      | Some types =>
        let? st' := resolve_fields (resolveRecord fuel) types (mkResolution (s :: active st) (resolved st)) in
        rdone (types, mkResolution (erase s (active st')) ((s, types) :: resolved st'))
      end
  end.
Proof.
  cbn [StaticValues.resolveRecord]. destruct (find_record s (resolved st)); [reflexivity|]. case_bool_decide; [reflexivity|].
  unfold fields_of, undeclared. destruct resolver as [r|]; [|reflexivity]. destruct (r s) as [|view]; [reflexivity|]. case_bool_decide; reflexivity.
Qed.

Lemma resolveRecord_sound fuel : forall s st r, memo_ok st -> resolveRecord fuel s st = Some (inr r) ->
  keeps st (snd r) /\ fields_of s = Some (fst r) /\ exists n, resolvable n s = true.
Proof.
  induction fuel as [|fuel IH]; intros s st r Hm H; [discriminate|]. rewrite resolveRecord_S in H.
  destruct (find_record s (resolved st)) as [fields|] eqn:Ef; [injection H as <-; destruct (Hm _ _ Ef); split; [split; auto|auto]|].
  case_bool_decide as Ha; [discriminate|]. destruct (fields_of s) as [types|] eqn:Efs; [|destruct (undeclared_fails s) as (m & E); congruence].
  apply rbind_inr in H as (st' & Est & [= <-]). cbn [fst snd].
  apply resolve_fields_sound in Est as [[Ea Hm'] Hf]; [|intros s' st1 r' H1 H2; destruct (IH _ _ _ H1 H2) as (K & _ & R); auto|exact Hm].
  destruct (type_resolves_all _ _ Hf) as (n & Hn).
  assert (Hr : resolvable (S n) s = true) by (cbn [resolvable]; rewrite Efs; exact Hn).
  split; [|split; [reflexivity|exists (S n); exact Hr]]. split; cbn [active].
  - rewrite Ea. apply erase_head, Ha.
  - intros s' fields. cbn [resolved find_record]. case_decide as E; [|apply Hm']. intros [= <-]. rewrite <- E. split; [exact Efs|exists (S n); exact Hr].
Qed.

(** No symbol being resolved nests at most [n] deep. *)
Definition above (n : nat) (st : ResolutionState) : Prop := forall s, s ∈ active st -> resolvable n s = false.

Lemma resolve_type_complete rr n kind :
  (forall s st, resolvable n s = true -> memo_ok st -> above n st -> exists r, rr s st = Some (inr r) /\ keeps st (snd r)) ->
  forall type st, type_ok (resolvable n) kind type = true -> memo_ok st -> above n st ->
  exists st', resolve_type_with rr kind type st = Some (inr st') /\ keeps st st'.
Proof.
  intros Hrr type. induction type as [?|?|?|?|?|? ? ?|? Hl|fs IH|?|] using Attr_induction; intros st Hok Hm Ha; cbn [type_ok] in Hok;
    destruct (structure kind _) as [|u] eqn:Es in Hok; try discriminate. cbn [resolve_type_with]. rewrite Es. cbn [rbind].
  destruct (get_string "kind" fs) as [k|] eqn:Ek; [|discriminate]. rewrite (proj2 (recordKind_spec fs k) Ek). cbn [rbind].
  destruct (decide (k = "record")) as [E1|E1].
  - destruct (get_symbol "symbol" fs) as [s|]; [|discriminate]. destruct (Hrr s st Hok Hm Ha) as (r & -> & Hk). cbn [rbind]. eauto.
  - destruct (decide (k = "list")) as [E2|E2]; [|exists st; split; [reflexivity|split; [reflexivity|exact Hm]]].
    rewrite dget_with_dget in Hok. rewrite dget_with_dget. destruct (dget "element" fs) as [e|] eqn:Ee; [|discriminate]. cbn in Hok |- *.
    exact (dget_Forall (fun e => forall st, type_ok (resolvable n) kind e = true -> memo_ok st -> above n st ->
             exists st', resolve_type_with rr kind e st = Some (inr st') /\ keeps st st') _ _ _ IH Ee st Hok Hm Ha).
Qed.

Lemma logical_ok_structure p type : type_ok p ExpectLogical type = true -> verifyLogicalTypeStructure type = inr tt.
Proof.
  intros H. destruct type; cbn [type_ok structure] in H; destruct (verifyLogicalTypeStructure _) as [|[]] eqn:E in H; try discriminate; exact E.
Qed.

Lemma resolve_fields_complete rr n :
  (forall s st, resolvable n s = true -> memo_ok st -> above n st -> exists r, rr s st = Some (inr r) /\ keeps st (snd r)) ->
  forall types st, forallb (type_ok (resolvable n) ExpectLogical) types = true -> memo_ok st -> above n st ->
  exists st', resolve_fields rr types st = Some (inr st') /\ keeps st st'.
Proof.
  intros Hrr types. induction types as [|t types IH]; intros st Hok Hm Ha; cbn [resolve_fields forallb] in *.
  - exists st. split; [reflexivity|split; [reflexivity|exact Hm]].
  - apply andb_true_iff in Hok as [Ht Hok]. rewrite (logical_ok_structure _ _ Ht). cbn [rbind].
    destruct (resolve_type_complete rr n ExpectLogical Hrr t st Ht Hm Ha) as (mid & -> & Ea & Hm'). cbn [rbind].
    destruct (IH mid Hok Hm') as (st' & -> & Ea' & Hm''); [unfold above; rewrite Ea; exact Ha|].
    exists st'. split; [reflexivity|]. split; [congruence|exact Hm''].
Qed.

(** Records of depth [n] resolve within [n] calls: a cycle is reported only
    where there is one. *)
Lemma resolveRecord_complete n : forall fuel s st, (n <= fuel)%nat -> resolvable n s = true -> memo_ok st -> above n st ->
  exists r, resolveRecord fuel s st = Some (inr r) /\ keeps st (snd r).
Proof.
  induction n as [|n IH]; intros fuel s st Hf Hr Hm Ha; [discriminate|]. destruct (resolvable n s) eqn:Hs.
  { apply IH; [lia|exact Hs|exact Hm|]. intros a Hin. specialize (Ha a Hin). destruct (resolvable n a) eqn:E; [|reflexivity].
    apply (resolvable_mono n (S n)) in E; [congruence|lia]. }
  destruct fuel as [|fuel]; [lia|]. rewrite resolveRecord_S.
  destruct (find_record s (resolved st)) as [fields|] eqn:Ef; [exists (fields, st); split; [reflexivity|split; [reflexivity|exact Hm]]|].
  rewrite bool_decide_false by (intros Hin; specialize (Ha s Hin); congruence). cbn [resolvable] in Hr.
  destruct (fields_of s) as [types|] eqn:Ex'; [|discriminate].
  set (st1 := mkResolution (s :: active st) (resolved st)).
  destruct (resolve_fields_complete (resolveRecord fuel) n) with (types := types) (st := st1) as (st' & E & Ea & Hm'); [|exact Hr|exact Hm| |].
  - intros s' st2 H1 H2 H3. apply (IH fuel s' st2); [lia|assumption..].
  - intros a Hin. cbn in Hin. apply elem_of_cons in Hin as [-> | Hin]; [exact Hs|]. specialize (Ha a Hin).
    destruct (resolvable n a) eqn:Ea; [|reflexivity]. apply (resolvable_mono n (S n)) in Ea; [congruence|lia].
  - rewrite E. cbn [rbind]. eexists. split; [reflexivity|]. cbn [snd]. split; cbn [active].
    + rewrite Ea. apply erase_head. intros Hin. specialize (Ha s Hin). cbn [resolvable] in Ha. rewrite Ex' in Ha. congruence.
    + intros s' fields. cbn [resolved find_record]. case_decide as Eq; [|apply Hm']. intros [= <-]. rewrite <- Eq. split; [exact Ex'|].
      exists (S n). cbn [resolvable]. rewrite Ex'. exact Hr.
Qed.

(** ** The resolution always returns *)

Variable names : list string.
Hypothesis declared : forall s, fields_of s <> None -> s ∈ names.

(** The declared records that are not being resolved. *)
Definition remaining (l : list string) : nat := length (filter (fun s => s ∉ l) names).

Lemma remaining_cons s l : s ∈ names -> s ∉ l -> (remaining (s :: l) < remaining l)%nat.
Proof.
  unfold remaining. clear declared. induction names as [|x names' IH]; intros Hn Hl; [apply elem_of_nil in Hn; contradiction|].
  assert (Hle : forall ns, (length (filter (fun y => y ∉ (s :: l)) ns) <= length (filter (fun y => y ∉ l) ns))%nat).
  { clear. induction ns as [|y ns IH]; [reflexivity|]. rewrite !filter_cons. destruct (decide (y ∉ s :: l)) as [H1|H1], (decide (y ∉ l)) as [H2|H2]; cbn; try lia.
    exfalso. apply H2. intros H. apply H1. right. exact H. }
  rewrite !filter_cons. destruct (decide (x = s)) as [->|E].
  - rewrite decide_False by (intros H; apply H; left). rewrite decide_True by exact Hl. cbn. specialize (Hle names'). lia.
  - apply elem_of_cons in Hn as [Hn|Hn]; [congruence|]. specialize (IH Hn Hl).
    destruct (decide (x ∉ s :: l)) as [H1|H1], (decide (x ∉ l)) as [H2|H2]; cbn; try lia.
    exfalso. apply H2. intros H. apply H1. right. exact H.
Qed.

Lemma resolve_type_active rr kind : (forall s st r, rr s st = Some (inr r) -> active (snd r) = active st) ->
  forall type st st', resolve_type_with rr kind type st = Some (inr st') -> active st' = active st.
Proof.
  intros Hrr type. induction type as [?|?|?|?|?|? ? ?|? Hl|fs IH|?|] using Attr_induction; intros st st' H; cbn [resolve_type_with] in H;
    apply rbind_inr in H as (u & Es & H); apply rbind_inr in H as (k & Ek & H); try discriminate. destruct (decide (k = "record")) as [E1|E1].
  - destruct (get_symbol "symbol" fs) as [s|]; [|discriminate]. apply rbind_inr in H as (r & Er & [= <-]). exact (Hrr _ _ _ Er).
  - destruct (decide (k = "list")) as [E2|E2]; [|injection H as <-; reflexivity]. rewrite dget_with_dget in H.
    destruct (dget "element" fs) as [e|] eqn:Ee; [|discriminate].
    exact (dget_Forall (fun e => forall st st', resolve_type_with rr kind e st = Some (inr st') -> active st' = active st) _ _ _ IH Ee st st' H).
Qed.

Lemma resolve_fields_active rr : (forall s st r, rr s st = Some (inr r) -> active (snd r) = active st) ->
  forall types st st', resolve_fields rr types st = Some (inr st') -> active st' = active st.
Proof.
  intros Hrr types. induction types as [|t types IH]; intros st st' H; cbn [resolve_fields] in H; [injection H as <-; reflexivity|].
  apply rbind_inr in H as (u & _ & H). apply rbind_inr in H as (mid & Em & H). apply (resolve_type_active rr ExpectLogical Hrr) in Em.
  apply IH in H. congruence.
Qed.

Lemma resolveRecord_active fuel : forall s st r, resolveRecord fuel s st = Some (inr r) -> active (snd r) = active st.
Proof.
  induction fuel as [|fuel IH]; intros s st r H; [discriminate|]. rewrite resolveRecord_S in H.
  destruct (find_record s (resolved st)); [injection H as <-; reflexivity|]. case_bool_decide as Ha; [discriminate|].
  destruct (fields_of s) as [types|]; [|destruct (undeclared_fails s) as (m & E); congruence].
  apply rbind_inr in H as (st' & Est & [= <-]). apply (resolve_fields_active _ IH) in Est. cbn [snd active] in *. rewrite Est. apply erase_head, Ha.
Qed.

Lemma rbind_returns {A B} (m : Run A) (k : A -> Run B) : m <> None -> (forall a, m = Some (inr a) -> k a <> None) -> rbind m k <> None.
Proof. destruct m as [[e|a]|]; cbn; [discriminate|auto|congruence]. Qed.

Lemma resolve_type_returns rr kind l : (forall s st, active st = l -> rr s st <> None) -> forall type st, active st = l ->
  resolve_type_with rr kind type st <> None.
Proof.
  intros Hrr type. induction type as [?|?|?|?|?|? ? ?|? Hl|fs IH|?|] using Attr_induction; intros st Ha; cbn [resolve_type_with];
    (apply rbind_returns; [discriminate|]; intros u _; apply rbind_returns; [discriminate|]; intros k _); try discriminate.
  destruct (decide (k = "record")) as [E1|E1].
  - destruct (get_symbol "symbol" fs) as [s|]; [|discriminate]. apply rbind_returns; [apply Hrr, Ha|discriminate].
  - destruct (decide (k = "list")) as [E2|E2]; [|discriminate]. rewrite dget_with_dget. destruct (dget "element" fs) as [e|] eqn:Ee; [|discriminate].
    exact (dget_Forall (fun e => forall st, active st = l -> resolve_type_with rr kind e st <> None) _ _ _ IH Ee st Ha).
Qed.

Lemma resolveRecord_returns fuel : forall s st, (remaining (active st) < fuel)%nat -> resolveRecord fuel s st <> None.
Proof.
  induction fuel as [|fuel IH]; intros s st Hf; [lia|]. rewrite resolveRecord_S. destruct (find_record s (resolved st)); [discriminate|].
  case_bool_decide as Ha; [discriminate|]. destruct (fields_of s) as [types|] eqn:Ef; [|destruct (undeclared_fails s) as (m & ->); discriminate].
  apply rbind_returns; [|discriminate]. assert (Hs : s ∈ names) by (apply declared; congruence).
  pose proof (remaining_cons s (active st) Hs Ha) as Hless. clear Ef.
  assert (Hgo : forall st', active st' = s :: active st -> resolve_fields (resolveRecord fuel) types st' <> None); [|apply Hgo; reflexivity].
  induction types as [|t types IHt]; intros st' Ha'; cbn [resolve_fields]; [discriminate|]. apply rbind_returns; [discriminate|]. intros u _.
  apply rbind_returns.
  - apply (resolve_type_returns _ _ (s :: active st)); [|exact Ha']. intros s' st2 E2. apply IH. rewrite E2. lia.
  - intros mid Em. apply IHt. apply resolve_type_active in Em; [congruence|]. apply resolveRecord_active.
Qed.

(** ** Values and membership *)

Inductive SVal := SBool (b : bool) | SInt (z : Z) | SRecord (symbol : string) (fields : list SVal) | SList (values : list SVal).
Inductive SType := TyBool | TyInt (bounds : option (Z * Z)) | TyRecord (symbol : string) | TyList (element : SType) (length : Z).

(** All values of a list of partial results. *)
Fixpoint all_some {A} (l : list (option A)) : option (list A) :=
  match l with
  | [] => Some []
  | x :: rest => match x, all_some rest with Some a, Some r => Some (a :: r) | _, _ => None end
  end.

(** The value a dictionary spells. *)
Fixpoint value_of (a : Attr) : option SVal :=
  match a with
  | Dictionary fs =>
    match get_string "kind" fs with
    | Some k =>
      if decide (k = "bool") then SBool <$> get_bool "value" fs
      else if decide (k = "integer") then (fun s => SInt (number s)) <$> get_math "value" fs
      else if decide (k = "record") then
        match get_symbol "symbol" fs, dget_with (checked_array value_of) "fields" fs with
        | Some s, Some (Some l) => SRecord s <$> all_some l
        | _, _ => None
        end
      else
        match dget_with (checked_array value_of) "values" fs with
        | Some (Some l) => SList <$> all_some l
        | _ => None
        end
    | None => None
    end
  | _ => None
  end.

(** The type a dictionary spells. *)
Fixpoint type_of (kind : ExpectedTypeKind) (a : Attr) : option SType :=
  match a with
  | Dictionary fs =>
    match get_string "kind" fs with
    | Some k =>
      if decide (k = "bool") then Some TyBool
      else if decide (k = "integer") then
        if match kind with ExpectStatic => bool_decide (length fs = 1%nat) | ExpectLogical => false end then Some (TyInt None)
        else
          match get_math "lower" fs, get_math "upper" fs with
          | Some l, Some u => Some (TyInt (Some (number l, number u)))
          | _, _ => None
          end
      else if decide (k = "record") then TyRecord <$> get_symbol "symbol" fs
      else
        match dget_with (type_of kind) "element" fs, decodeU64 (dget "length" fs) with
        | Some (Some e), inr n => Some (TyList e n)
        | _, _ => None
        end
    | None => None
    end
  | _ => None
  end.

Inductive has_type : SVal -> SType -> Prop :=
| has_bool b : has_type (SBool b) TyBool
| has_integer z : has_type (SInt z) (TyInt None)
| has_bounded z lower upper : lower <= z < upper -> has_type (SInt z) (TyInt (Some (lower, upper)))
| has_record s values types tys : fields_of s = Some types -> all_some (type_of ExpectLogical <$> types) = Some tys ->
    Forall2 has_type values tys -> has_type (SRecord s values) (TyRecord s)
| has_list values t n : Z.of_nat (length values) = n -> Forall (fun v => has_type v t) values -> has_type (SList values) (TyList t n).

(** Induction that gives the elements of the arrays of a dictionary. *)
Lemma value_induction (Q : Attr -> Prop) :
  (forall fs, (forall name l, dget name fs = Some (ArrayAttribute l) -> Forall Q l) -> Q (Dictionary fs)) ->
  (forall a, (forall fs, a <> Dictionary fs) -> Q a) -> forall a, Q a.
Proof.
  intros Hd Hn a. enough (H : Q a /\ forall l, a = ArrayAttribute l -> Forall Q l) by apply H.
  induction a as [?|?|?|?|?|? ? ?|l Hl|fs IH|?|] using Attr_induction; (split; [try (apply Hn; discriminate)|try discriminate]).
  - intros l' [= <-]. eapply Forall_impl; [exact Hl|]. intros x [Hx _]. exact Hx.
  - apply Hd. intros name l E. exact (proj2 (dget_Forall (fun a => Q a /\ forall l, a = ArrayAttribute l -> Forall Q l) _ _ _ IH E) l eq_refl).
Qed.

Lemma all_some_inr {A} (l : list (option A)) r : all_some l = Some r <-> Forall2 (fun o a => o = Some a) l r.
Proof.
  revert r. induction l as [|x l IH]; intros r; cbn.
  - split; [intros [= <-]; constructor|intros H; apply Forall2_nil_inv_l in H as ->; reflexivity].
  - split.
    + destruct x as [a|]; [|discriminate]. destruct (all_some l) as [r'|]; [|discriminate]. intros [= <-]. constructor; [reflexivity|]. apply IH. reflexivity.
    + intros H. apply Forall2_cons_inv_l in H as (a & r' & -> & H & ->). apply IH in H. rewrite H. reflexivity.
Qed.

Lemma all_ok_inr l : all_ok l = inr tt <-> Forall (fun r => r = inr tt) l.
Proof.
  induction l as [|x l IH]; cbn [all_ok]; [split; [constructor|reflexivity]|]. rewrite fbind_tt, IH, Forall_cons. reflexivity.
Qed.

Lemma checked_array_get {B} (f : Attr -> B) name fs : dget_with (checked_array f) name fs =
  match dget name fs with Some (ArrayAttribute l) => Some (Some (f <$> l)) | Some _ => Some None | None => None end.
Proof. rewrite dget_with_dget. destruct (dget name fs) as [[]|]; reflexivity. Qed.

(** A value of good structure spells a value. *)
Lemma value_structure a : verifyStaticValueStructure a = inr tt -> exists v, value_of a = Some v.
Proof.
  induction a as [fs IH|a Hn] using value_induction; [|destruct a; try discriminate; exfalso; eapply Hn; reflexivity].
  cbn [verifyStaticValueStructure value_of]. destruct (recordKind (Dictionary fs)) as [|k] eqn:Ek; [discriminate|]. cbn [fbind].
  apply recordKind_spec in Ek. rewrite Ek. assert (Hall : forall name l, dget name fs = Some (ArrayAttribute l) ->
    Forall (fun r => r = inr tt) (verifyStaticValueStructure <$> l) -> exists vs, all_some (value_of <$> l) = Some vs).
  { intros name l El Hl. specialize (IH name l El). rewrite Forall_fmap in Hl. clear El. induction IH as [|x l Hx IH IHl]; [exists []; reflexivity|].
    apply Forall_cons in Hl as [H1 H2]. destruct (Hx H1) as [v Ev]. destruct (IHl H2) as [vs Evs]. exists (v :: vs). cbn. rewrite Ev.
    cbn in Evs. rewrite Evs. reflexivity. }
  destruct (decide (k = "bool")) as [E1|E1].
  { rewrite fbind_tt. intros [_ H]. destruct (get_bool "value" fs); [eexists; reflexivity|discriminate]. }
  destruct (decide (k = "integer")) as [E2|E2].
  { rewrite fbind_tt. intros [_ H]. destruct (get_math "value" fs); [eexists; reflexivity|discriminate]. }
  destruct (decide (k = "record")) as [E3|E3].
  { rewrite fbind_tt. intros [_ H]. destruct (get_symbol "symbol" fs); [|discriminate]. rewrite !checked_array_get in *.
    destruct (dget "fields" fs) as [[]|] eqn:Ef; try discriminate. rewrite all_ok_inr in H. destruct (Hall _ _ Ef H) as [vs Evs].
    cbn in Evs |- *. rewrite Evs. eexists. reflexivity. }
  destruct (decide (k = "list")) as [E4|E4]; [|discriminate]. rewrite fbind_tt. intros [_ H]. rewrite !checked_array_get in *.
  destruct (dget "values" fs) as [[]|] eqn:Ef; try discriminate.
  assert (H' : all_ok (verifyStaticValueStructure <$> elements) = inr tt) by (destruct elements; [discriminate|exact H]).
  rewrite all_ok_inr in H'. destruct (Hall _ _ Ef H') as [vs Evs]. cbn in Evs |- *. rewrite Evs. eexists. reflexivity.
Qed.

(** ** Matching *)

#[local] Abbreviation resolveType := (resolveType resolver).
#[local] Abbreviation match_value := (match_value resolver).

Lemma resolveType_sound fuel kind type st st' : memo_ok st -> resolveType fuel kind type st = Some (inr st') -> keeps st st' /\ type_resolves kind type.
Proof. apply resolve_type_sound. intros s st1 r H1 H2. destruct (resolveRecord_sound _ _ _ _ H1 H2) as (K & _ & R). auto. Qed.

Lemma resolveType_complete n fuel kind type st : (n <= fuel)%nat -> type_ok (resolvable n) kind type = true -> memo_ok st -> active st = [] ->
  exists st', resolveType fuel kind type st = Some (inr st') /\ keeps st st'.
Proof.
  intros Hf Hok Hm Ha. apply (resolve_type_complete _ n); [|exact Hok|exact Hm|intros s; rewrite Ha; intros H; apply elem_of_nil in H; contradiction].
  intros s st1. apply resolveRecord_complete. exact Hf.
Qed.

Lemma match_active fuel value : forall kind type st st', match_value fuel value kind type st = Some (inr st') -> active st' = active st.
Proof.
  induction value as [fs IH|a Hn] using value_induction; intros kind type st st' H;
    [|destruct a; try (exfalso; eapply Hn; reflexivity); cbn [StaticValues.match_value] in H; apply rbind_inr in H as (? & _ & H); apply rbind_inr in H as (? & E & _); discriminate].
  cbn [StaticValues.match_value] in H. apply rbind_inr in H as (st1 & E1 & H). apply resolve_type_active in E1; [|apply resolveRecord_active].
  apply rbind_inr in H as (vk & _ & H). apply rbind_inr in H as (tk & _ & H). destruct type as [| | | | | | |tf| |]; try discriminate.
  destruct (negb _); [discriminate|]. destruct (decide (tk = "bool")) as [N1|N1]; [injection H as <-; exact E1|]. destruct (decide (tk = "integer")) as [N2|N2].
  { destruct (get_math "value" fs); [|discriminate]. apply rbind_inr in H as (? & _ & H). injection H as <-. exact E1. }
  destruct (decide (tk = "record")) as [N3|N3].
  - destruct (get_symbol "symbol" tf) as [s|]; [|discriminate]. destruct (negb _); [discriminate|]. apply rbind_inr in H as (r & Er & H).
    apply resolveRecord_active in Er. rewrite checked_array_get in H. destruct (dget "fields" fs) as [[| | | | | |l| | |]|] eqn:Ef; try discriminate.
    destruct (negb _); [discriminate|]. specialize (IH _ _ Ef). rewrite <- E1, <- Er. clear - IH H. destruct r as [types st1]. cbn [fst snd] in *.
    revert types st1 H. induction IH as [|x l Hx IH IHl]; intros types st1 H; [injection H as <-; reflexivity|].
    destruct types as [|t types]; [injection H as <-; reflexivity|]. cbn in H. apply rbind_inr in H as (mid & Em & H). apply Hx in Em. apply IHl in H. congruence.
  - rewrite checked_array_get in H. destruct (dget "values" fs) as [[| | | | | |l| | |]|] eqn:Ef; try discriminate. apply rbind_inr in H as (n & _ & H).
    destruct (negb _); [discriminate|]. destruct (dget "element" tf) as [e|]; [|discriminate]. specialize (IH _ _ Ef). rewrite <- E1. clear - IH H.
    revert st1 H. induction IH as [|x l Hx IH IHl]; intros st1 H; [injection H as <-; reflexivity|].
    cbn in H. apply rbind_inr in H as (mid & Em & H). apply Hx in Em. apply IHl in H. congruence.
Qed.

(** Enough fuel for every declared record: the check returns. *)
Lemma match_returns fuel value : forall kind type st, (remaining (active st) < fuel)%nat -> match_value fuel value kind type st <> None.
Proof.
  induction value as [fs IH|a Hn] using value_induction; intros kind type st Hr;
    (assert (Ht : resolveType fuel kind type st <> None) by (apply (resolve_type_returns _ _ (active st)); [intros s st1 Es; apply resolveRecord_returns; congruence|reflexivity]));
    [|destruct a; try (exfalso; eapply Hn; reflexivity); cbn [StaticValues.match_value]; (apply rbind_returns; [exact Ht|intros; discriminate])].
  cbn [StaticValues.match_value]. apply rbind_returns; [exact Ht|]. intros st1 E1. apply resolve_type_active in E1; [|apply resolveRecord_active].
  apply rbind_returns; [discriminate|]. intros vk _. apply rbind_returns; [discriminate|]. intros tk _. destruct type as [| | | | | | |tf| |]; try discriminate.
  destruct (negb _); [discriminate|]. destruct (decide (tk = "bool")) as [N1|N1]; [discriminate|]. destruct (decide (tk = "integer")) as [N2|N2].
  { destruct (get_math "value" fs); [|discriminate]. apply rbind_returns; discriminate. }
  destruct (decide (tk = "record")) as [N3|N3].
  - destruct (get_symbol "symbol" tf) as [s|]; [|discriminate]. destruct (negb _); [discriminate|].
    apply rbind_returns; [apply resolveRecord_returns; rewrite E1; exact Hr|]. intros r Er. apply resolveRecord_active in Er.
    rewrite checked_array_get. destruct (dget "fields" fs) as [[| | | | | |l| | |]|] eqn:Ef; try discriminate.
    destruct (negb _); [discriminate|]. specialize (IH _ _ Ef). rewrite <- E1, <- Er in Hr. clear - IH Hr. destruct r as [types st1]. cbn [fst snd] in *.
    revert types st1 Hr. induction IH as [|x l Hx IH IHl]; intros types st1 Hr; [discriminate|].
    destruct types as [|t types]; [discriminate|]. cbn. apply rbind_returns; [apply Hx, Hr|]. intros mid Em. apply match_active in Em. apply IHl. congruence.
  - rewrite checked_array_get. destruct (dget "values" fs) as [[| | | | | |l| | |]|] eqn:Ef; try discriminate. apply rbind_returns; [discriminate|]. intros n _.
    destruct (negb _); [discriminate|]. destruct (dget "element" tf) as [e|]; [|discriminate]. specialize (IH _ _ Ef). rewrite <- E1 in Hr. clear - IH Hr.
    revert st1 Hr. induction IH as [|x l Hx IH IHl]; intros st1 Hr; [discriminate|].
    cbn. apply rbind_returns; [apply Hx, Hr|]. intros mid Em. apply match_active in Em. apply IHl. congruence.
Qed.


(** ** More fuel does not change an answer *)

Lemma rbind_more {A B} (m m' : Run A) (k k' : A -> Run B) x : (forall y, m = Some y -> m' = Some y) ->
  (forall a, m = Some (inr a) -> k a = Some x -> k' a = Some x) -> rbind m k = Some x -> rbind m' k' = Some x.
Proof. intros Hm Hk. destruct m as [[e|a]|]; cbn; intros H; [| |discriminate]; rewrite (Hm _ eq_refl); cbn; [exact H|exact (Hk _ eq_refl H)]. Qed.

Lemma resolve_type_more rr rr' kind : (forall s st x, rr s st = Some x -> rr' s st = Some x) ->
  forall type st x, resolve_type_with rr kind type st = Some x -> resolve_type_with rr' kind type st = Some x.
Proof.
  intros Hrr type. induction type as [?|?|?|?|?|? ? ?|? Hl|fs IH|?|] using Attr_induction; intros st x; cbn [resolve_type_with];
    (apply rbind_more; [auto|]; intros u _; apply rbind_more; [auto|]; intros k _); try (intros H; exact H).
  destruct (decide (k = "record")) as [E1|E1].
  - destruct (get_symbol "symbol" fs) as [s|]; [|intros H; exact H]. apply rbind_more; [apply Hrr|auto].
  - destruct (decide (k = "list")) as [E2|E2]; [|intros H; exact H]. rewrite !dget_with_dget. destruct (dget "element" fs) as [e|] eqn:Ee; [|intros H; exact H].
    exact (dget_Forall (fun e => forall st x, resolve_type_with rr kind e st = Some x -> resolve_type_with rr' kind e st = Some x) _ _ _ IH Ee st x).
Qed.

Lemma resolve_fields_more rr rr' : (forall s st x, rr s st = Some x -> rr' s st = Some x) ->
  forall types st x, resolve_fields rr types st = Some x -> resolve_fields rr' types st = Some x.
Proof.
  intros Hrr types. induction types as [|t types IH]; intros st x; cbn [resolve_fields]; [auto|]. apply rbind_more; [auto|]. intros u _.
  apply rbind_more; [intros y; apply resolve_type_more, Hrr|]. intros mid _. apply IH.
Qed.

Lemma resolveRecord_more fuel : forall more s st x, (fuel <= more)%nat -> resolveRecord fuel s st = Some x -> resolveRecord more s st = Some x.
Proof.
  induction fuel as [|fuel IH]; intros [|more] s st x Hle; try discriminate; [lia|]. rewrite !resolveRecord_S.
  destruct (find_record s (resolved st)); [auto|]. case_bool_decide; [auto|]. destruct (fields_of s); [|auto].
  apply rbind_more; [|auto]. intros y. apply resolve_fields_more. intros s' st' x'. apply IH. lia.
Qed.

Lemma match_more fuel more value : (fuel <= more)%nat ->
  forall kind type st x, match_value fuel value kind type st = Some x -> match_value more value kind type st = Some x.
Proof.
  intros Hle. assert (Hr : forall s st x, resolveRecord fuel s st = Some x -> resolveRecord more s st = Some x) by (intros; eapply resolveRecord_more; eassumption).
  induction value as [fs IH|a Hn] using value_induction; intros kind type st x;
    [|destruct a; try (exfalso; eapply Hn; reflexivity); cbn [StaticValues.match_value]; (apply rbind_more; [intros y; apply resolve_type_more, Hr|auto])].
  cbn [StaticValues.match_value]. apply rbind_more; [intros y; apply resolve_type_more, Hr|]. intros st1 _.
  apply rbind_more; [auto|]. intros vk _. apply rbind_more; [auto|]. intros tk _. destruct type as [| | | | | | |tf| |]; try (intros H; exact H).
  destruct (negb _); [auto|]. destruct (decide (tk = "bool")); [auto|]. destruct (decide (tk = "integer")); [auto|].
  destruct (decide (tk = "record")).
  - destruct (get_symbol "symbol" tf) as [s|]; [|auto]. destruct (negb _); [auto|]. apply rbind_more; [apply Hr|]. intros r _.
    rewrite !checked_array_get. destruct (dget "fields" fs) as [[| | | | | |l| | |]|] eqn:Ef; try (intros H; exact H). rewrite !length_fmap.
    destruct (negb _); [auto|]. specialize (IH _ _ Ef). clear - IH. destruct r as [types st1]. cbn [fst snd].
    revert types st1. induction IH as [|y l Hy IH IHl]; intros types st1; [auto|]. destruct types as [|t types]; [auto|]. cbn.
    apply rbind_more; [apply Hy|]. intros mid _. apply IHl.
  - rewrite !checked_array_get. destruct (dget "values" fs) as [[| | | | | |l| | |]|] eqn:Ef; try (intros H; exact H).
    apply rbind_more; [auto|]. intros len _. rewrite !length_fmap. destruct (negb _); [auto|]. destruct (dget "element" tf) as [e|]; [|auto].
    specialize (IH _ _ Ef). clear - IH. revert st1. induction IH as [|y l Hy IH IHl]; intros st1; [auto|]. cbn.
    apply rbind_more; [apply Hy|]. intros mid _. apply IHl.
Qed.

(** ** What the dictionaries spell *)

Lemma value_inv fs v : verifyStaticValueStructure (Dictionary fs) = inr tt -> value_of (Dictionary fs) = Some v ->
  match v with
  | SBool _ => get_string "kind" fs = Some "bool"
  | SInt z => get_string "kind" fs = Some "integer" /\ exists s, get_math "value" fs = Some s /\ number s = z
  | SRecord s vs => get_string "kind" fs = Some "record" /\ get_symbol "symbol" fs = Some s /\ exists l, dget "fields" fs = Some (ArrayAttribute l) /\
      Forall (fun a => verifyStaticValueStructure a = inr tt) l /\ all_some (value_of <$> l) = Some vs
  | SList vs => get_string "kind" fs = Some "list" /\ exists l, dget "values" fs = Some (ArrayAttribute l) /\
      Forall (fun a => verifyStaticValueStructure a = inr tt) l /\ all_some (value_of <$> l) = Some vs
  end.
Proof.
  cbn [verifyStaticValueStructure value_of]. destruct (recordKind (Dictionary fs)) as [|k] eqn:Ek; [discriminate|]. cbn [fbind].
  apply recordKind_spec in Ek. rewrite Ek. destruct (decide (k = "bool")) as [->|N1].
  { intros _. destruct (get_bool "value" fs); [|discriminate]. intros [= <-]. reflexivity. }
  destruct (decide (k = "integer")) as [->|N2].
  { intros _. destruct (get_math "value" fs) as [s|]; [|discriminate]. intros [= <-]. eauto. }
  destruct (decide (k = "record")) as [->|N3].
  { rewrite fbind_tt. intros [_ H]. destruct (get_symbol "symbol" fs); [|discriminate]. rewrite !checked_array_get in *.
    destruct (dget "fields" fs) as [[| | | | | |l| | |]|] eqn:Ef; try discriminate. rewrite all_ok_inr, Forall_fmap in H.
    destruct (all_some (value_of <$> l)) as [vs|] eqn:Ev; [|discriminate]. intros [= <-]. eauto 10. }
  destruct (decide (k = "list")) as [->|N4]; [|discriminate]. rewrite fbind_tt. intros [_ H]. rewrite !checked_array_get in *.
  destruct (dget "values" fs) as [[| | | | | |l| | |]|] eqn:Ef; try discriminate.
  assert (H' : all_ok (verifyStaticValueStructure <$> l) = inr tt) by (destruct l; [discriminate|exact H]). rewrite all_ok_inr, Forall_fmap in H'.
  destruct (all_some (value_of <$> l)) as [vs|] eqn:Ev; [|discriminate]. intros [= <-]. eauto 10.
Qed.

Lemma structure_inv kind a : structure kind a = inr tt -> exists fs k, a = Dictionary fs /\ get_string "kind" fs = Some k /\
  (k = "bool" \/
   (k = "integer" /\ (match kind with ExpectStatic => bool_decide (length fs = 1%nat) | ExpectLogical => false end = true \/
      exists l u, get_math "lower" fs = Some l /\ get_math "upper" fs = Some u)) \/
   (k = "record" /\ exists s, get_symbol "symbol" fs = Some s) \/
   (k = "list" /\ exists e n, dget "element" fs = Some e /\ structure kind e = inr tt /\ decodeU64 (dget "length" fs) = inr n)).
Proof.
  destruct kind; cbn [structure].
  - intros H. apply logical_structure_spec in H as (fs & t & -> & Ht & Hw). pose proof (describes_kind _ _ Ht) as Hk. eexists fs, _.
    split; [reflexivity|]. split; [exact Hk|]. destruct Ht; [auto|right; left; eauto 10|right; right; left; eauto|].
    do 3 right. split; [reflexivity|]. exists (Dictionary e), n. split; [assumption|]. split; [|assumption]. apply logical_structure_spec.
    exists e, t. destruct Hw. auto.
  - intros H. destruct a as [| | | | | | |fs| |]; try discriminate. cbn [verifyStaticTypeStructure] in H. apply fbind_inr in H as (k & Ek & H).
    apply recordKind_spec in Ek. exists fs, k. split; [reflexivity|]. split; [exact Ek|]. destruct (decide (k = "bool")) as [->|N1]; [auto|].
    destruct (decide (k = "integer")) as [->|N2].
    { right. left. split; [reflexivity|]. case_bool_decide; [auto|]. rewrite fbind_tt, verifyBounds_spec in H. destruct H as [_ (l & u & ? & ? & _)]. eauto. }
    destruct (decide (k = "record")) as [->|N3].
    { right. right. left. rewrite fbind_tt in H. destruct H as [_ H]. destruct (get_symbol "symbol" fs); [eauto|discriminate]. }
    destruct (decide (k = "list")) as [->|N4]; [|discriminate]. do 3 right. split; [reflexivity|]. rewrite fbind_tt, dget_with_dget in H. destruct H as [_ H].
    destruct (dget "element" fs) as [e|] eqn:Ee; [|discriminate]. exists e. destruct e as [| | | | | | |e| |]; try discriminate. cbn [fmap option_fmap option_map checked_dict] in H.
    apply fbind_inr in H as (n & En & H). exists n. destruct (n =? 0); [discriminate|]. auto.
Qed.

(** A type of good structure spells a type. *)
Lemma type_structure kind a : structure kind a = inr tt -> exists t, type_of kind a = Some t.
Proof.
  induction a as [?|?|?|?|?|? ? ?|? Hl|fs IH|?|] using Attr_induction; intros H; destruct (structure_inv _ _ H) as (fs' & k & E & Ek & Hc); try discriminate E.
  injection E as <-. cbn [type_of]. rewrite Ek. destruct Hc as [->|[(-> & Hc)|[(-> & s & Hs)|(-> & e & n & He & Hse & Hn)]]].
  - eexists. reflexivity.
  - cbn. destruct (match kind with ExpectLogical => false | ExpectStatic => _ end); [eexists; reflexivity|].
    destruct Hc as [Hc|(l & u & -> & ->)]; [discriminate|eexists; reflexivity].
  - cbn. rewrite Hs. eexists. reflexivity.
  - cbn. rewrite dget_with_dget, He, Hn. cbn. destruct (dget_Forall (fun e => structure kind e = inr tt -> exists t, type_of kind e = Some t) _ _ _ IH He Hse) as [t ->].
    eexists. reflexivity.
Qed.

Lemma type_inv kind fs t : structure kind (Dictionary fs) = inr tt -> type_of kind (Dictionary fs) = Some t ->
  match t with
  | TyBool => get_string "kind" fs = Some "bool"
  | TyInt bounds => get_string "kind" fs = Some "integer" /\
      if match kind with ExpectStatic => bool_decide (length fs = 1%nat) | ExpectLogical => false end then bounds = None
      else exists l u, get_math "lower" fs = Some l /\ get_math "upper" fs = Some u /\ bounds = Some (number l, number u)
  | TyRecord s => get_string "kind" fs = Some "record" /\ get_symbol "symbol" fs = Some s
  | TyList e n => get_string "kind" fs = Some "list" /\ exists e', dget "element" fs = Some e' /\ type_of kind e' = Some e /\
      decodeU64 (dget "length" fs) = inr n
  end.
Proof.
  intros H. destruct (structure_inv _ _ H) as (fs' & k & [= <-] & Ek & Hc). cbn [type_of]. rewrite Ek.
  destruct Hc as [->|[(-> & Hc)|[(-> & s & Hs)|(-> & e & n & He & Hse & Hn)]]]; cbn.
  - intros [= <-]. reflexivity.
  - destruct (match kind with ExpectLogical => false | ExpectStatic => _ end); [intros [= <-]; auto|].
    destruct Hc as [Hc|(l & u & -> & ->)]; [discriminate|]. intros [= <-]. eauto 10.
  - rewrite Hs. intros [= <-]. auto.
  - rewrite dget_with_dget, He, Hn. cbn. destruct (type_of kind e) as [t'|] eqn:Et; [|discriminate]. intros [= <-]. eauto 10.
Qed.

Definition spelled_ok (value : Attr) : Prop := verifyStaticValueStructure value = inr tt.

(** The value of one dictionary belongs to the type of another. *)
Definition belongs (kind : ExpectedTypeKind) (value type : Attr) : Prop :=
  exists v t, value_of value = Some v /\ type_of kind type = Some t /\ has_type v t.

Definition match_sound_at (fuel : nat) (value : Attr) : Prop := forall kind type st st', spelled_ok value -> memo_ok st ->
  match_value fuel value kind type st = Some (inr st') -> keeps st st' /\ belongs kind value type.

Lemma match_fields_sound fuel l : Forall (match_sound_at fuel) l -> Forall spelled_ok l -> forall types st st', length l = length types -> memo_ok st ->
  match_fields (match_value fuel <$> l) types st = Some (inr st') ->
  keeps st st' /\ exists vs tys, all_some (value_of <$> l) = Some vs /\ all_some (type_of ExpectLogical <$> types) = Some tys /\ Forall2 has_type vs tys.
Proof.
  induction 1 as [|x l Hx Hl IH]; intros Hs types st st' Hlen Hm H; (destruct types as [|t types]; [try discriminate Hlen|try discriminate Hlen]).
  - injection H as <-. split; [split; auto|]. exists [], []. auto.
  - apply Forall_cons in Hs as [Hs1 Hs2]. cbn in H. apply rbind_inr in H as (mid & Em & H). apply Hx in Em as [[Ea Hm'] (v & ty & Ev & Et & Hv)]; [|exact Hs1|exact Hm].
    apply IH in H as [[Ea' Hm''] (vs & tys & Evs & Ets & Hvs)]; [|exact Hs2|injection Hlen; auto|exact Hm'].
    split; [split; [congruence|exact Hm'']|]. exists (v :: vs), (ty :: tys). cbn. rewrite Ev, Et. cbn in Evs, Ets. rewrite Evs, Ets. auto.
Qed.

Lemma match_elements_sound fuel kind e t l : type_of kind e = Some t -> Forall (match_sound_at fuel) l -> Forall spelled_ok l -> forall st st', memo_ok st ->
  match_elements kind (match_value fuel <$> l) e st = Some (inr st') ->
  keeps st st' /\ exists vs, all_some (value_of <$> l) = Some vs /\ Forall (fun v => has_type v t) vs.
Proof.
  intros He. induction 1 as [|x l Hx Hl IH]; intros Hs st st' Hm H.
  - injection H as <-. split; [split; auto|]. exists []. auto.
  - apply Forall_cons in Hs as [Hs1 Hs2]. cbn in H. apply rbind_inr in H as (mid & Em & H). apply Hx in Em as [[Ea Hm'] (v & ty & Ev & Et & Hv)]; [|exact Hs1|exact Hm].
    rewrite He in Et. injection Et as <-. apply IH in H as [[Ea' Hm''] (vs & Evs & Hvs)]; [|exact Hs2|exact Hm'].
    split; [split; [congruence|exact Hm'']|]. exists (v :: vs). cbn. rewrite Ev. cbn in Evs. rewrite Evs. auto.
Qed.

Lemma type_resolves_structure kind type : type_resolves kind type -> structure kind type = inr tt.
Proof. intros (n & H). destruct type; cbn [type_ok] in H; destruct (structure kind _) as [|[]] eqn:E in H; try discriminate; exact E. Qed.

Lemma matchInteger_spec kind s type : matchInteger kind s type = inr tt <->
  if match kind with ExpectStatic => bool_decide (length type = 1%nat) | ExpectLogical => false end then True
  else exists l u, get_math "lower" type = Some l /\ get_math "upper" type = Some u /\ number l <= number s < number u.
Proof.
  unfold matchInteger. destruct (match kind with ExpectLogical => false | ExpectStatic => _ end); [split; auto|]. split.
  - destruct (get_math "lower" type) as [l|]; [|discriminate]. destruct (get_math "upper" type) as [u|]; [|discriminate].
    rewrite compare_lt, compare_ge. unfold mathValue. fold (number s) (number l) (number u). destruct (_ || _) eqn:E; [discriminate|]. intros _.
    exists l, u. split; [reflexivity|]. split; [reflexivity|]. lia.
  - intros (l & u & -> & -> & H). rewrite compare_lt, compare_ge. unfold mathValue. fold (number s) (number l) (number u).
    assert (E : (number s <? number l) || (number u <=? number s) = false) by lia. rewrite E. reflexivity.
Qed.

Lemma match_sound fuel value : match_sound_at fuel value.
Proof.
  induction value as [fs IH|a Hn] using value_induction; intros kind type st st' Hs Hm H;
    [|destruct a; try discriminate Hs; exfalso; eapply Hn; reflexivity].
  cbn [StaticValues.match_value] in H. apply rbind_inr in H as (st1 & E1 & H). apply resolveType_sound in E1 as [[Ea Hm1] Hr]; [|exact Hm].
  apply type_resolves_structure in Hr. destruct (type_structure _ _ Hr) as [t Et]. destruct (value_structure _ Hs) as [v Ev].
  destruct (structure_inv _ _ Hr) as (tf & tk & -> & Ek & _). pose proof (type_inv _ _ _ Hr Et) as It. pose proof (value_inv _ _ Hs Ev) as Iv.
  assert (Hkind : get_string "kind" fs = Some tk).
  { apply rbind_inr in H as (vk & Evk & H). injection Evk as Evk. apply recordKind_spec in Evk. apply rbind_inr in H as (tk' & Etk & H).
    injection Etk as Etk. apply recordKind_spec in Etk. destruct (bool_decide_reflect (vk = tk')); [congruence|discriminate]. }
  rewrite (proj2 (recordKind_spec fs tk) Hkind), (proj2 (recordKind_spec tf tk) Ek) in H. cbn [rbind] in H. rewrite bool_decide_true in H by reflexivity. cbn [negb] in H.
  assert (Hb : forall st2, keeps st1 st2 -> has_type v t -> keeps st st2 /\ belongs kind (Dictionary fs) (Dictionary tf)).
  { intros st2 [Ea2 Hm2] Hv. split; [split; [congruence|exact Hm2]|exists v, t; auto]. }
  destruct t as [|bounds|s|e n].
  - rewrite Ek in It. injection It as ->. kinds_in H. injection H as <-. apply Hb; [split; auto|]. destruct v; [constructor|destruct Iv; congruence..].
  - destruct It as [It Ib]. rewrite Ek in It. injection It as ->. kinds_in H. destruct v as [|z| |]; [congruence| |destruct Iv; congruence..].
    destruct Iv as (_ & s & Es & <-). rewrite Es in H. destruct (matchInteger kind s tf) as [|[]] eqn:Ei; [discriminate|]. injection H as <-.
    apply matchInteger_spec in Ei. apply Hb; [split; auto|]. destruct (match kind with ExpectLogical => false | ExpectStatic => _ end).
    + rewrite Ib. constructor.
    + destruct Ib as (l & u & El & Eu & ->). destruct Ei as (l' & u' & El' & Eu' & Hz). constructor. congruence.
  - destruct It as [It Es]. rewrite Ek in It. injection It as ->. kinds_in H. destruct v as [| |s' vs|]; [congruence|destruct Iv; congruence| |destruct Iv; congruence].
    destruct Iv as (_ & Es' & l & El & Hl & Evs). rewrite Es, Es' in H. destruct (bool_decide_reflect (Some s' = Some s)) as [Heq|]; [|discriminate]. injection Heq as Heq. subst s'. cbn [negb] in H.
    apply rbind_inr in H as ((types & st2) & Er & H). apply resolveRecord_sound in Er as ([Ea2 Hm2] & Hf & _); [|exact Hm1]. cbn [fst snd] in *.
    rewrite checked_array_get, El, length_fmap in H. destruct (bool_decide_reflect (length l = length types)) as [Hlen|]; [|discriminate]. cbn [negb] in H.
    apply match_fields_sound in H as ([Ea3 Hm3] & vs' & tys & Evs' & Ety & Hv); [|exact (IH _ _ El)|exact Hl|exact Hlen|exact Hm2].
    rewrite Evs in Evs'. injection Evs' as <-. apply Hb; [split; [congruence|exact Hm3]|]. econstructor; eassumption.
  - destruct It as [It (e' & He & Ete & Hn)]. rewrite Ek in It. injection It as ->. kinds_in H.
    destruct v as [| | |vs]; [congruence|destruct Iv; congruence|destruct Iv; congruence|]. destruct Iv as (_ & l & El & Hl & Evs).
    rewrite checked_array_get, El, Hn, He, length_fmap in H. cbn [rbind] in H. destruct (Z.eqb_spec n (Z.of_nat (length l))) as [Hlen|]; [|discriminate]. cbn [negb] in H.
    apply (match_elements_sound _ _ _ _ _ Ete (IH _ _ El) Hl) in H as (K & vs' & Evs' & Hv); [|exact Hm1].
    rewrite Evs in Evs'. injection Evs' as <-. apply Hb; [exact K|]. constructor; [|exact Hv].
    apply all_some_inr, Forall2_length in Evs. rewrite length_fmap in Evs. lia.
Qed.

Definition match_complete_at (n fuel : nat) (value : Attr) : Prop := forall kind type st, spelled_ok value -> active st = [] -> memo_ok st ->
  type_ok (resolvable n) kind type = true -> belongs kind value type -> exists st', match_value fuel value kind type st = Some (inr st') /\ keeps st st'.

Lemma match_fields_complete n fuel l : Forall (match_complete_at n fuel) l -> Forall spelled_ok l -> forall types vs tys st, active st = [] -> memo_ok st ->
  forallb (type_ok (resolvable n) ExpectLogical) types = true -> all_some (value_of <$> l) = Some vs ->
  all_some (type_of ExpectLogical <$> types) = Some tys -> Forall2 has_type vs tys ->
  exists st', match_fields (match_value fuel <$> l) types st = Some (inr st') /\ keeps st st'.
Proof.
  induction 1 as [|x l Hx Hl IH]; intros Hs types vs tys st Ha Hm Hok Ev Et Hv; [exists st; split; [reflexivity|split; auto]|].
  destruct types as [|t types]; [exists st; split; [reflexivity|split; auto]|]. apply Forall_cons in Hs as [Hs1 Hs2].
  cbn [forallb] in Hok. apply andb_true_iff in Hok as [Hok1 Hok2]. rewrite all_some_inr in Ev. rewrite all_some_inr in Et.
  apply Forall2_cons_inv_l in Ev as (v & vs' & Ev & Evs & ->). apply Forall2_cons_inv_l in Et as (ty & tys' & Et & Ets & ->).
  apply Forall2_cons in Hv as [Hv Hvs]. destruct (Hx ExpectLogical t st Hs1 Ha Hm Hok1) as (mid & Em & Ea & Hm'); [exists v, ty; auto|].
  destruct (IH Hs2 types vs' tys' mid) as (st' & E & Ea' & Hm''); [congruence|exact Hm'|exact Hok2|apply all_some_inr, Evs|apply all_some_inr, Ets|exact Hvs|].
  exists st'. cbn. rewrite Em. cbn [rbind]. split; [exact E|]. split; [congruence|exact Hm''].
Qed.

Lemma match_elements_complete n fuel kind e t l : type_of kind e = Some t -> type_ok (resolvable n) kind e = true ->
  Forall (match_complete_at n fuel) l -> Forall spelled_ok l -> forall vs st, active st = [] -> memo_ok st ->
  all_some (value_of <$> l) = Some vs -> Forall (fun v => has_type v t) vs ->
  exists st', match_elements kind (match_value fuel <$> l) e st = Some (inr st') /\ keeps st st'.
Proof.
  intros Et Hok. induction 1 as [|x l Hx Hl IH]; intros Hs vs st Ha Hm Ev Hv; [exists st; split; [reflexivity|split; auto]|].
  apply Forall_cons in Hs as [Hs1 Hs2]. rewrite all_some_inr in Ev. apply Forall2_cons_inv_l in Ev as (v & vs' & Ev & Evs & ->).
  apply Forall_cons in Hv as [Hv Hvs]. destruct (Hx kind e st Hs1 Ha Hm Hok) as (mid & Em & Ea & Hm'); [exists v, t; auto|].
  destruct (IH Hs2 vs' mid) as (st' & E & Ea' & Hm''); [congruence|exact Hm'|apply all_some_inr, Evs|exact Hvs|].
  exists st'. cbn. rewrite Em. cbn [rbind]. split; [exact E|]. split; [congruence|exact Hm''].
Qed.

Lemma match_complete n fuel value : (n <= fuel)%nat -> match_complete_at n fuel value.
Proof.
  intros Hf. induction value as [fs IH|a Hn] using value_induction; intros kind type st Hs Ha Hm Hok (v & t & Ev & Et & Hv);
    [|destruct a; try discriminate Hs; exfalso; eapply Hn; reflexivity].
  cbn [StaticValues.match_value]. destruct (resolveType_complete n fuel kind type st Hf Hok Hm Ha) as (st1 & -> & Ea1 & Hm1). cbn [rbind].
  assert (Hr : structure kind type = inr tt) by (apply type_resolves_structure; exists n; exact Hok).
  destruct (structure_inv _ _ Hr) as (tf & tk & -> & Ek & _). pose proof (type_inv _ _ _ Hr Et) as It. pose proof (value_inv _ _ Hs Ev) as Iv.
  assert (Hkind : get_string "kind" fs = Some tk) by (inversion Hv; subst; cbn in It, Iv; intuition congruence).
  rewrite (proj2 (recordKind_spec fs tk) Hkind), (proj2 (recordKind_spec tf tk) Ek). cbn [rbind]. rewrite bool_decide_true by reflexivity. cbn [negb].
  cbn [type_ok] in Hok. rewrite Hr, Ek in Hok. rewrite Ha in Ea1.
  destruct Hv as [b|z|z lower upper Hz|s values types tys Hfs Htys Hvs|values t len Hlen Hvs].
  - rewrite Ek in It. injection It as ->. kinds. eexists. split; [reflexivity|split; [congruence|auto]].
  - destruct It as [It Ib]. rewrite Ek in It. injection It as ->. kinds. destruct Iv as (_ & s & Es & <-). rewrite Es.
    rewrite (proj2 (matchInteger_spec kind s tf)); [eexists; split; [reflexivity|split; [congruence|auto]]|].
    destruct (match kind with ExpectLogical => false | ExpectStatic => _ end); [exact I|]. destruct Ib as (? & ? & _ & _ & [=]).
  - destruct It as [It Ib]. rewrite Ek in It. injection It as ->. kinds. destruct Iv as (_ & s & Es & <-). rewrite Es.
    rewrite (proj2 (matchInteger_spec kind s tf)); [eexists; split; [reflexivity|split; [congruence|auto]]|].
    destruct (match kind with ExpectLogical => false | ExpectStatic => _ end); [exact I|]. destruct Ib as (l & u & El & Eu & [= -> ->]). eauto.
  - destruct It as [It Es]. rewrite Ek in It. injection It as ->. kinds_in Hok. kinds. rewrite Es in Hok |- *. destruct Iv as (_ & Es' & l & El & Hl & Evs).
    rewrite Es', bool_decide_true by reflexivity. cbn [negb].
    destruct (resolveRecord_complete n fuel s st1 Hf Hok Hm1) as ((types' & st2) & Er & Ea2 & Hm2);
      [intros a; rewrite Ea1; intros Hin; apply elem_of_nil in Hin; contradiction|]. pose proof (resolveRecord_sound _ _ _ _ Hm1 Er) as (_ & Hfs' & _).
    cbn [fst snd] in *. rewrite Hfs in Hfs'. injection Hfs' as <-. rewrite Er. cbn [rbind fst snd]. rewrite checked_array_get, El, length_fmap.
    assert (Hlen : length l = length types).
    { apply all_some_inr, Forall2_length in Evs. apply all_some_inr, Forall2_length in Htys. apply Forall2_length in Hvs. rewrite length_fmap in Evs. rewrite length_fmap in Htys. congruence. }
    rewrite bool_decide_true by exact Hlen. cbn [negb].
    assert (Hok' : forallb (type_ok (resolvable n) ExpectLogical) types = true).
    { apply (resolvable_mono n (S n)) in Hok; [|lia]. cbn [resolvable] in Hok. rewrite Hfs in Hok. exact Hok. }
    destruct (match_fields_complete n fuel l (IH _ _ El) Hl types values tys st2) as (st' & E & Ea' & Hm'); try assumption; [congruence|].
    exists st'. split; [exact E|split; [congruence|exact Hm']].
  - destruct It as [It (e & He & Ete & Hn)]. rewrite Ek in It. injection It as ->. kinds_in Hok. kinds. destruct Iv as (_ & l & El & Hl & Evs).
    rewrite checked_array_get, El, Hn, He, length_fmap. cbn [rbind]. rewrite dget_with_dget, He in Hok. cbn in Hok.
    assert (Hll : length l = length values) by (apply all_some_inr, Forall2_length in Evs; rewrite length_fmap in Evs; exact Evs).
    rewrite Hll, Hlen, Z.eqb_refl. cbn [negb].
    destruct (match_elements_complete n fuel kind e t l Ete Hok (IH _ _ El) Hl values st1) as (st' & E & Ea' & Hm'); try assumption.
    exists st'. split; [exact E|split; [congruence|exact Hm']].
Qed.

Lemma no_resolution_ok : memo_ok no_resolution.
Proof. intros s fields. discriminate. Qed.

Lemma remaining_bound l : (remaining l <= length names)%nat.
Proof. apply length_filter. Qed.

(** With fuel for every declared record, matching decides membership. *)
Lemma match_exact fuel kind value type st : (length names < fuel)%nat -> spelled_ok value -> active st = [] -> memo_ok st ->
  (exists st', match_value fuel value kind type st = Some (inr st')) <-> type_resolves kind type /\ belongs kind value type.
Proof.
  intros Hf Hs Ha Hm. split.
  - intros (st' & H). split; [|eapply match_sound; eassumption].
    destruct value as [| | | | | | |fs| |]; try discriminate Hs. cbn [StaticValues.match_value] in H. apply rbind_inr in H as (st1 & E1 & _).
    eapply resolveType_sound; eassumption.
  - intros [(n & Hn) Hb]. destruct (match_complete n (n + fuel) value ltac:(lia) kind type st Hs Ha Hm Hn Hb) as (st' & E & _).
    pose proof (remaining_bound (active st)) as Hrem.
    destruct (match_value fuel value kind type st) as [x|] eqn:Ex; [|exfalso; eapply match_returns; [|exact Ex]; lia].
    exists st'. rewrite (match_more fuel (n + fuel) value ltac:(lia) _ _ _ _ Ex) in E. congruence.
Qed.

Lemma resolveType_exact fuel kind type st : (length names < fuel)%nat -> active st = [] -> memo_ok st ->
  resolveType fuel kind type st <> None /\ ((exists st', resolveType fuel kind type st = Some (inr st') /\ keeps st st') <-> type_resolves kind type).
Proof.
  intros Hf Ha Hm. pose proof (remaining_bound (active st)) as Hrem.
  assert (Hret : resolveType fuel kind type st <> None)
    by (apply (resolve_type_returns _ _ (active st)); [intros s st1 Es; apply resolveRecord_returns; rewrite Es; lia|reflexivity]).
  split; [exact Hret|]. split; [intros (st' & E & _); eapply resolveType_sound; eassumption|]. intros (n & Hn).
  destruct (resolveType_complete n (n + fuel) kind type st ltac:(lia) Hn Hm Ha) as (st' & E & K).
  destruct (resolveType fuel kind type st) as [x|] eqn:Ex; [|contradiction]. exists st'. split; [|exact K].
  apply (resolve_type_more _ (resolveRecord (n + fuel))) in Ex; [unfold StaticValues.resolveType in E; congruence|].
  intros s st1 y. apply resolveRecord_more. lia.
Qed.

Lemma rbind_tt {A} (m : Run A) : rbind m (fun _ => rdone tt) = Some (inr tt) <-> exists a, m = Some (inr a).
Proof.
  destruct m as [[e|a]|]; cbn; split; intros H; try discriminate; try (destruct H as (? & H); discriminate); [exists a; reflexivity|reflexivity].
Qed.

Lemma value_match_exact fuel kind value type : (length names < fuel)%nat ->
  verifyStaticValueMatchesType resolver fuel kind value type <> None /\
  (verifyStaticValueMatchesType resolver fuel kind value type = Some (inr tt) <->
   verifyStaticValueStructure value = inr tt /\ type_resolves kind type /\ belongs kind value type).
Proof.
  intros Hf. unfold verifyStaticValueMatchesType. pose proof (remaining_bound (active no_resolution)) as Hrem. split.
  - apply rbind_returns; [discriminate|]. intros u _. apply rbind_returns; [apply match_returns; lia|discriminate].
  - destruct (verifyStaticValueStructure value) as [|[]] eqn:Es; cbn [rbind]; [split; [discriminate|intros [[=] _]]|]. rewrite rbind_tt.
    rewrite match_exact by (exact Hf || exact Es || reflexivity || apply no_resolution_ok). intuition.
Qed.

(** A default is absent, or present with a value of the type. *)
Lemma default_match_exact fuel kind d type : (length names < fuel)%nat ->
  verifyDefaultMatchesType resolver fuel kind d type <> None /\
  (verifyDefaultMatchesType resolver fuel kind d type = Some (inr tt) <->
   verifyDefaultStructure d = inr tt /\ type_resolves kind type /\
   exists fs, d = Dictionary fs /\ (get_bool "present" fs = Some false \/ exists value, dget "value" fs = Some value /\ belongs kind value type)).
Proof.
  intros Hf. unfold verifyDefaultMatchesType. destruct (resolveType_exact fuel kind type no_resolution Hf eq_refl no_resolution_ok) as [Hret Hex].
  destruct (verifyDefaultStructure d) as [|[]] eqn:Es; cbn [rbind]; [split; [discriminate|split; [discriminate|intros [[=] _]]]|].
  destruct (resolveType fuel kind type no_resolution) as [[m|st]|] eqn:Et; [| |contradiction]; cbn [rbind].
  - split; [discriminate|]. split; [discriminate|]. intros (_ & Hr & _). apply Hex in Hr as (? & [=] & _).
  - destruct (proj1 (resolveType_sound _ _ _ _ _ no_resolution_ok Et)) as [Ha Hm].
    assert (Hr : type_resolves kind type) by (apply (resolveType_sound _ _ _ _ _ no_resolution_ok Et)).
    destruct d as [| | | | | | |fs| |]; try discriminate Es. cbn [verifyDefaultStructure] in Es.
    destruct (get_bool "present" fs) as [present|] eqn:Ep; [|discriminate]. destruct present.
    + rewrite fbind_tt in Es. destruct Es as [_ Es]. destruct (dget "value" fs) as [value|] eqn:Ev; [|discriminate].
      rewrite bool_decide_false by discriminate. assert (Hs : spelled_ok value) by (destruct value; try discriminate; exact Es).
      pose proof (remaining_bound (active st)) as Hrem. split; [apply rbind_returns; [apply match_returns; lia|discriminate]|].
      rewrite rbind_tt, match_exact by (assumption || (rewrite Ha; reflexivity)). split.
      * intros [_ Hb]. split; [reflexivity|]. split; [exact Hr|]. exists fs. eauto.
      * intros (_ & _ & fs' & [= <-] & [H|(v & H & Hb)]); [congruence|]. rewrite Ev in H. injection H as <-. auto.
    + rewrite bool_decide_true by reflexivity. split; [discriminate|]. split; [|reflexivity]. intros _. split; [reflexivity|]. split; [exact Hr|]. eauto.
Qed.
End Resolution.

(** ** The memo while a value is matched *)

Section Views.
Context `{L : ApLib} {HL : ApLaws L}.
Variable resolver : option (string -> FailureOr ResolvedRecordView).

(** Records with a view in the memo. *)
Definition viewed (st : ResolutionState) (s : string) : bool := match find_record s (resolved st) with Some _ => true | None => false end.

(** The records below the viewed records are viewed. *)
Definition views_closed (st : ResolutionState) : Prop :=
  forall s fields, find_record s (resolved st) = Some fields -> forallb (type_ok (viewed st) ExpectLogical) fields = true.

(** The memo grows and stays closed. *)
Definition grows (st st' : ResolutionState) : Prop := (forall s, viewed st s = true -> viewed st' s = true) /\ views_closed st'.

Lemma grows_trans st1 st2 st3 : grows st1 st2 -> grows st2 st3 -> grows st1 st3.
Proof. intros [H1 _] [H2 H3]. split; auto. Qed.

Lemma type_ok_all_mono (p q : string -> bool) kind types : (forall s, p s = true -> q s = true) ->
  forallb (type_ok p kind) types = true -> forallb (type_ok q kind) types = true.
Proof. rewrite !forallb_forall. intros Hpq H t Ht. eapply type_ok_mono; [exact Hpq|apply H, Ht]. Qed.

Lemma resolve_type_views rr kind : (forall s st r, views_closed st -> rr s st = Some (inr r) -> grows st (snd r) /\ viewed (snd r) s = true) ->
  forall type st st', views_closed st -> resolve_type_with rr kind type st = Some (inr st') -> grows st st' /\ type_ok (viewed st') kind type = true.
Proof.
  intros Hrr type. induction type as [?|?|?|?|?|? ? ?|? Hl|fs IH|?|] using Attr_induction; intros st st' Hm H; cbn [resolve_type_with] in H;
    apply rbind_inr in H as (u & Es & H); injection Es as Es; apply rbind_inr in H as (k & Ek & H); injection Ek as Ek; try discriminate.
  cbn [type_ok]. rewrite Es. apply recordKind_spec in Ek. rewrite Ek. destruct (decide (k = "record")) as [E1|E1].
  - destruct (get_symbol "symbol" fs) as [s|]; [|discriminate]. apply rbind_inr in H as (r & Er & [= <-]). exact (Hrr _ _ _ Hm Er).
  - destruct (decide (k = "list")) as [E2|E2]; [|injection H as <-; split; [split; auto|reflexivity]].
    rewrite dget_with_dget in H. rewrite dget_with_dget. destruct (dget "element" fs) as [e|] eqn:Ee; [|discriminate].
    exact (dget_Forall (fun e => forall st st', views_closed st -> resolve_type_with rr kind e st = Some (inr st') ->
             grows st st' /\ type_ok (viewed st') kind e = true) _ _ _ IH Ee st st' Hm H).
Qed.

Lemma resolve_fields_views rr : (forall s st r, views_closed st -> rr s st = Some (inr r) -> grows st (snd r) /\ viewed (snd r) s = true) ->
  forall types st st', views_closed st -> resolve_fields rr types st = Some (inr st') ->
  grows st st' /\ forallb (type_ok (viewed st') ExpectLogical) types = true.
Proof.
  intros Hrr types. induction types as [|t types IH]; intros st st' Hm H; cbn [resolve_fields] in H; [injection H as <-; split; [split; auto|reflexivity]|].
  apply rbind_inr in H as (u & _ & H). apply rbind_inr in H as (mid & Em & H).
  apply (resolve_type_views rr ExpectLogical Hrr) in Em as [Hg Ht]; [|exact Hm]. apply IH in H as [Hg' Hts]; [|apply Hg].
  split; [eapply grows_trans; eassumption|]. cbn [forallb]. rewrite Hts, andb_true_r. eapply type_ok_mono; [|exact Ht]. apply Hg'.
Qed.

Lemma resolveRecord_views fuel : forall s st r, views_closed st -> resolveRecord resolver fuel s st = Some (inr r) ->
  grows st (snd r) /\ viewed (snd r) s = true.
Proof.
  induction fuel as [|fuel IH]; intros s st r Hm H; [discriminate|]. rewrite resolveRecord_S in H.
  destruct (find_record s (resolved st)) as [fields|] eqn:Ef; [injection H as <-; split; [split; auto|unfold viewed; cbn; rewrite Ef; reflexivity]|].
  case_bool_decide; [discriminate|]. destruct (fields_of resolver s) as [types|]; [|destruct (undeclared_fails resolver s); congruence].
  apply rbind_inr in H as (st' & E & [= <-]). apply (resolve_fields_views _ IH) in E as [[Hg Hc] Hts]; [|exact Hm]. cbn [fst snd].
  set (st2 := mkResolution (erase s (active st')) ((s, types) :: resolved st')).
  assert (Hv : forall x, viewed st' x = true -> viewed st2 x = true) by (intros x; unfold viewed; cbn [resolved st2 find_record]; case_decide; auto).
  split; [|unfold viewed; cbn [resolved st2 find_record]; rewrite decide_True by reflexivity; reflexivity]. split; [intros x Hx; apply Hv, Hg, Hx|].
  intros x fields. cbn [resolved st2 find_record]. case_decide as E; [intros [= <-]|intros Hx; apply Hc in Hx as ?]; eapply type_ok_all_mono; eauto.
Qed.

(** Resolving a type whose records are viewed leaves the state alone. *)
Lemma resolve_type_viewed fuel kind type : forall st r, type_ok (viewed st) kind type = true ->
  resolveType resolver fuel kind type st = Some (inr r) -> r = st.
Proof.
  unfold resolveType. induction type as [?|?|?|?|?|? ? ?|? Hl|fs IH|?|] using Attr_induction; intros st r Hok H; cbn [resolve_type_with type_ok] in *;
    destruct (structure kind _) as [|u] in Hok, H; try discriminate. cbn [rbind] in H. destruct (recordKind (Dictionary fs)) as [|k] eqn:Ek; [discriminate|].
  apply recordKind_spec in Ek. rewrite Ek in Hok. cbn [rbind] in H. destruct (decide (k = "record")) as [E1|E1].
  - destruct (get_symbol "symbol" fs) as [s|]; [|discriminate]. apply rbind_inr in H as (x & Ex & [= <-]). destruct fuel; [discriminate|]. rewrite resolveRecord_S in Ex.
    unfold viewed in Hok. destruct (find_record s (resolved st)); [injection Ex as <-; reflexivity|discriminate].
  - destruct (decide (k = "list")) as [E2|E2]; [|injection H as <-; reflexivity].
    rewrite dget_with_dget in H. rewrite dget_with_dget in Hok. destruct (dget "element" fs) as [e|] eqn:Ee; [|discriminate].
    exact (dget_Forall (fun e => forall st r, type_ok (viewed st) kind e = true -> resolve_type_with _ kind e st = Some (inr r) -> r = st) _ _ _ IH Ee st r Hok H).
Qed.

Lemma resolve_viewed_returns fuel kind type st : type_ok (viewed st) kind type = true -> resolveType resolver (S fuel) kind type st = Some (inr st).
Proof.
  unfold resolveType. induction type as [?|?|?|?|?|? ? ?|? Hl|fs IH|?|] using Attr_induction; cbn [resolve_type_with type_ok];
    destruct (structure kind _) as [|u]; try discriminate. cbn [rbind]. destruct (get_string "kind" fs) as [k|] eqn:Ek; [|discriminate].
  rewrite (proj2 (recordKind_spec fs k) Ek). cbn [rbind]. destruct (decide (k = "record")) as [E1|E1].
  - destruct (get_symbol "symbol" fs) as [s|]; [|discriminate]. rewrite resolveRecord_S. unfold viewed.
    destruct (find_record s (resolved st)); [reflexivity|discriminate].
  - destruct (decide (k = "list")) as [E2|E2]; [|reflexivity]. rewrite !dget_with_dget. destruct (dget "element" fs) as [e|] eqn:Ee; [|discriminate].
    exact (dget_Forall (fun e => type_ok (viewed st) kind e = true -> resolve_type_with _ kind e st = Some (inr st)) _ _ _ IH Ee).
Qed.

Lemma match_viewed fuel value : forall kind type st st', views_closed st -> type_ok (viewed st) kind type = true ->
  match_value resolver fuel value kind type st = Some (inr st') -> st' = st.
Proof.
  induction value as [fs IH|a Hn] using value_induction; intros kind type st st' Hc Hok H;
    [|destruct a; try (exfalso; eapply Hn; reflexivity); cbn [match_value] in H; apply rbind_inr in H as (? & _ & H); apply rbind_inr in H as (? & E & _); discriminate].
  cbn [match_value] in H. apply rbind_inr in H as (st1 & E1 & H). apply resolve_type_viewed in E1 as ->; [|exact Hok].
  apply rbind_inr in H as (vk & _ & H). apply rbind_inr in H as (tk & Etk & H). destruct type as [| | | | | | |tf| |]; try discriminate. injection Etk as Etk.
  apply recordKind_spec in Etk. cbn [type_ok] in Hok. destruct (structure kind _) as [|[]] eqn:Es; [discriminate|]. rewrite Etk in Hok.
  destruct (negb _); [discriminate|]. destruct (decide (tk = "bool")) as [N1|N1]; [injection H as <-; reflexivity|]. destruct (decide (tk = "integer")) as [N2|N2].
  { destruct (get_math "value" fs); [|discriminate]. apply rbind_inr in H as (? & _ & H). injection H as <-. reflexivity. }
  destruct (decide (tk = "record")) as [N3|N3].
  - destruct (get_symbol "symbol" tf) as [s|]; [|discriminate]. destruct (negb _); [discriminate|]. apply rbind_inr in H as (r & Er & H).
    destruct fuel; [discriminate|]. rewrite resolveRecord_S in Er. unfold viewed in Hok. destruct (find_record s (resolved st)) as [types|] eqn:Ef'; [|discriminate].
    injection Er as <-. apply Hc in Ef'. cbn [fst snd] in H. rewrite checked_array_get in H.
    destruct (dget "fields" fs) as [[| | | | | |l| | |]|] eqn:Ef; try discriminate. destruct (negb _); [discriminate|]. specialize (IH _ _ Ef). clear - IH H Ef' Hc.
    revert types H Ef'. induction IH as [|x l Hx IH IHl]; intros types H Hts; [injection H as <-; reflexivity|].
    destruct types as [|t types]; [injection H as <-; reflexivity|]. cbn [forallb] in Hts. apply andb_true_iff in Hts as [Ht Hts].
    cbn [fmap list_fmap match_fields] in H. apply rbind_inr in H as (mid & Em & H). apply Hx in Em as ->; [|exact Hc|exact Ht]. exact (IHl _ H Hts).
  - rewrite checked_array_get in H. destruct (dget "values" fs) as [[| | | | | |l| | |]|] eqn:Ef; try discriminate. apply rbind_inr in H as (n & _ & H).
    destruct (negb _); [discriminate|]. destruct (dget "element" tf) as [e|] eqn:Ee; [|discriminate]. specialize (IH _ _ Ef).
    destruct (decide (tk = "list")) as [N4|N4].
    + rewrite dget_with_dget, Ee in Hok. cbn in Hok. clear - IH H Hok Hc.
      induction IH as [|x l Hx IH IHl]; [injection H as <-; reflexivity|].
      cbn [fmap list_fmap match_elements] in H. apply rbind_inr in H as (mid & Em & H). apply Hx in Em as ->; [|exact Hc|exact Hok]. exact (IHl H).
    + destruct (structure_inv _ _ Es) as (fs' & k & [= <-] & Ek & Hk). rewrite Etk in Ek. injection Ek as ->. exfalso. intuition congruence.
Qed.
End Views.

(** ** Theorems *)

(** A dictionary is accepted as a logical type exactly when it has the
    fields of a boolean in one bit, of an integer range that is not empty in
    the least storage of at most 64 bits that holds it (signed exactly when
    the range has negative numbers), of a record, or of a non-empty list of
    such types other than lists. *)
Theorem logical_type_exact `{L : ApLib} {HL : ApLaws L} (a : Attr) :
  verifyLogicalTypeStructure a = inr tt <-> exists fs t, a = Dictionary fs /\ describes fs t /\ well_formed t.
Proof. apply logical_structure_spec. Qed.

(** Once matching has resolved the type, it inserts nothing more into the
    memo of resolved records, however deep it recurses: the record views that
    its callers hold by pointer while they walk the fields stay valid. *)
Theorem resolved_views_stable `{L : ApLib} {HL : ApLaws L} (resolver : option (string -> FailureOr ResolvedRecordView)) (fuel : nat)
    (value : Attr) (kind : ExpectedTypeKind) (type : Attr) (st st' : ResolutionState) :
  views_closed st -> match_value resolver (S fuel) value kind type st = Some (inr st') ->
  resolveType resolver (S fuel) kind type st = Some (inr st') /\ views_closed st'.
Proof.
  intros Hc H. assert (E : exists st1, resolveType resolver (S fuel) kind type st = Some (inr st1)).
  { destruct value; cbn [match_value] in H; apply rbind_inr in H as (st1 & E & _); eauto. }
  destruct E as [st1 E]. destruct (resolve_type_views _ kind (resolveRecord_views resolver (S fuel)) _ _ _ Hc E) as [[_ Hc1] Hok].
  assert (H1 : match_value resolver (S fuel) value kind type st1 = Some (inr st')).
  { revert H. destruct value; cbn [match_value]; rewrite E, (resolve_viewed_returns resolver fuel kind type st1 Hok); auto. }
  apply match_viewed in H1 as ->; [auto|exact Hc1|exact Hok].
Qed.

(** C31: The check of a constant against a type always answers, whatever cycles
    the declared records have, when its fuel exceeds the number of records; it
    accepts exactly the well-formed values whose number, fields and elements
    belong to the type, provided every record below the type is declared and
    none contains itself.  A default is accepted exactly when it is absent or
    holds such a value. *)
Theorem static_value_match_exact `{L : ApLib} {HL : ApLaws L} (resolver : option (string -> FailureOr ResolvedRecordView)) (names : list string)
    (fuel : nat) (kind : ExpectedTypeKind) (value type : Attr) :
  (forall s, fields_of resolver s <> None -> s ∈ names) -> (length names < fuel)%nat ->
  (verifyStaticValueMatchesType resolver fuel kind value type <> None /\
   (verifyStaticValueMatchesType resolver fuel kind value type = Some (inr tt) <->
    verifyStaticValueStructure value = inr tt /\ type_resolves resolver kind type /\ belongs resolver kind value type)) /\
  (verifyDefaultMatchesType resolver fuel kind value type <> None /\
   (verifyDefaultMatchesType resolver fuel kind value type = Some (inr tt) <->
    verifyDefaultStructure value = inr tt /\ type_resolves resolver kind type /\
    exists fs, value = Dictionary fs /\
      (get_bool "present" fs = Some false \/ exists v, dget "value" fs = Some v /\ belongs resolver kind v type))).
Proof. intros Hd Hf. split; [apply (value_match_exact resolver names Hd), Hf|apply (default_match_exact resolver names Hd), Hf]. Qed.

Module StaticWitness.
Import Reference.
Definition key (k : string) : string * Attr := ("kind", StringAttribute k).
Definition nibble : Attr :=
  Dictionary [("interpretation", StringAttribute "signed"); key "integer"; ("lower", MathInt [45; 56]); ("storage", TypeAttribute (IntegerType Signless 4));
              ("upper", MathInt [56])].
Definition pairs : Attr :=
  Dictionary [("element", Dictionary [key "record"; ("symbol", SymbolRef "pair")]); key "list"; ("length", IntegerAttribute (IntegerType Signless 64) 64 2)].
Definition resolver : string -> FailureOr ResolvedRecordView := fun s =>
  if decide (s = "pair") then inr (mkRecordView (Some "pair") [nibble; nibble])
  else if decide (s = "loop") then inr (mkRecordView (Some "loop") [Dictionary [key "record"; ("symbol", SymbolRef "loop")]])
  else failure "unknown record".
Definition digit (d : list Z) : Attr := Dictionary [key "integer"; ("value", MathInt d)].
Definition pair_of (x y : list Z) : Attr := Dictionary [("fields", ArrayAttribute [digit x; digit y]); key "record"; ("symbol", SymbolRef "pair")].
Definition two (x y : list Z) : Attr := Dictionary [key "list"; ("values", ArrayAttribute [pair_of x y; pair_of y x])].

(** A nibble has the least storage. *)
Lemma logical_type_exact_witness : exists fs t, nibble = Dictionary fs /\ describes fs t /\ well_formed t.
Proof. apply (logical_type_exact (HL := Reference.laws)). vm_compute. reflexivity. Defined.

(** Two pairs of nibbles belong to their type, a pair with an eight does not,
    and a record that contains itself is rejected. *)
Lemma static_value_match_exact_witness :
  belongs (L := Reference.lib) (Some resolver) ExpectLogical (two [45; 56] [55]) pairs /\
  ~ (type_resolves (L := Reference.lib) (Some resolver) ExpectLogical pairs /\ belongs (L := Reference.lib) (Some resolver) ExpectLogical (two [56] [55]) pairs) /\
  verifyTypeResolved (L := Reference.lib) (Some resolver) 3 ExpectLogical (Dictionary [key "record"; ("symbol", SymbolRef "loop")]) =
    Some (inl "nominal record resolution cycle").
Proof.
  assert (Hd : forall s, fields_of (Some resolver) s <> None -> s ∈ ["pair"; "loop"]).
  { intros s. unfold fields_of, resolver. destruct (decide (s = "pair")) as [->|]; [left|].
    destruct (decide (s = "loop")) as [->|]; [right; left|intros H; contradiction (H eq_refl)]. }
  split; [|split; [|vm_compute; reflexivity]].
  - apply (static_value_match_exact (HL := Reference.laws) (Some resolver) ["pair"; "loop"] 3 ExpectLogical (two [45; 56] [55]) pairs Hd);
      [cbn; lia|vm_compute; reflexivity].
  - intros [Hr Hb].
    pose proof (static_value_match_exact (HL := Reference.laws) (Some resolver) ["pair"; "loop"] 3 ExpectLogical (two [56] [55]) pairs Hd ltac:(cbn; lia)) as [[_ H] _].
    assert (Hs : verifyStaticValueStructure (two [56] [55]) = inr tt) by (vm_compute; reflexivity).
    pose proof (proj2 H (conj Hs (conj Hr Hb))) as E. vm_compute in E. discriminate E.
Defined.

(** Matching two pairs fills the memo once. *)
Lemma resolved_views_stable_witness :
  let st := mkResolution [] [("pair", [nibble; nibble])] in
  match_value (L := Reference.lib) (Some resolver) 3 (two [45; 56] [55]) ExpectLogical pairs no_resolution = Some (inr st) /\
  resolveType (L := Reference.lib) (Some resolver) 3 ExpectLogical pairs no_resolution = Some (inr st) /\ views_closed (L := Reference.lib) st.
Proof.
  intros st. assert (H : match_value (L := Reference.lib) (Some resolver) 3 (two [45; 56] [55]) ExpectLogical pairs no_resolution = Some (inr st))
    by (vm_compute; reflexivity).
  split; [exact H|]. apply (resolved_views_stable (HL := Reference.laws) (Some resolver) 2 (two [45; 56] [55])); [intros s fields; discriminate|exact H].
Defined.
End StaticWitness.
