(* ===== verification/RecordConstructors.v ===== *)
(** * Constructors of static records ([SourceStaticRecordConstructors.cpp])

    A static call names a helper function that builds a record.  This file
    models the declarations of a source unit, the checks of a helper and of
    its arguments, and the execution of its body on static values. *)

From Stdlib Require Import ZArith Lia String.
From stdpp Require Import base list numbers strings.
From S2P Require Import Prelude ModelInput CompilerPrelude ApInt HardwareAnalysis StaticValues.

Open Scope string_scope.
Open Scope list_scope.

(** ** Source units *)

(** The SSA values of a body, by number. *)
Definition ValueId := positive.

(** The operations a static constructor may have. *)
Inductive BodyOp :=
| StructCreateOp (result : ValueId) (type : MlirType) (values : list ValueId)
| StructGetOp (result value : ValueId) (field : string)
| ReturnOp (operands : list ValueId)
| OtherOp (id : positive).

Record Block := mkBlock { block_arguments : list ValueId; block_operations : list BodyOp }.

(** [func.func], with the attributes of helpers.  A declaration has no block. *)
Record FuncOp := mkFunc {
  sym_name : string;
  ac_helper_kind : option string;
  ac_record : option string;
  ac_parameters : option (list Attr);
  f_inputs : list MlirType;
  f_results : list MlirType;
  f_blocks : list Block;
}.

(** The symbols of the module that contains the site: records with their raw
    field dictionaries, functions, and others. *)
Inductive UnitSymbol := StructDecl (fields : list Attr) | FuncDecl (func : FuncOp) | OtherDecl.
Definition SourceFile := list (string * UnitSymbol).

Fixpoint lookupSymbolIn (file : SourceFile) (name : string) : option UnitSymbol :=
  match file with
  | [] => None
  | (key, symbol) :: rest => if decide (key = name) then Some symbol else lookupSymbolIn rest name
  end.

(** [Type::isInteger(width)]. *)
Definition isInteger (type : option MlirType) (width : Z) : bool :=
  match type with Some (IntegerType _ w) => (w =? width)%Z | _ => false end.

Definition physicalType (logical : Attr) : FailureOr MlirType :=
  match logical with
  | Dictionary fields =>
    match get_string "kind" fields with
    | None => failure "static evaluator requires a resolved logical type"
    | Some kind =>
      if decide (kind = "bool") then success (IntegerType Signless 1)
      else if decide (kind = "integer") then
        match dget "storage" fields with
        | Some (TypeAttribute storage) => success storage
        | _ => failure "source module static reset cannot physicalize this logical type"
        end
      else if decide (kind = "record") then
        match get_symbol "symbol" fields with
        | Some symbol => success (NominalType symbol)
        | None => failure "source module static reset cannot physicalize this logical type"
        end
      else failure "source module static reset cannot physicalize this logical type"
    end
  | _ => failure "static evaluator requires a resolved logical type"
  end.

(** A dictionary attribute under a name. *)
Definition get_dictionary (name : string) (fields : list (string * Attr)) : option Attr := Dictionary <$> get_dict name fields.

Section File.
Context `{L : ApLib}.
(** The module around the site, if there is one. *)
Variable file : option SourceFile.

Fixpoint field_types (fields : list Attr) : FailureOr (list Attr) :=
  match fields with
  | [] => success []
  | raw :: rest =>
    match raw with
    | Dictionary field =>
      match get_dictionary "type" field with
      | Some logical => let! types := field_types rest in success (logical :: types)
      | None => failure "static nominal record field is malformed"
      end
    | _ => failure "static nominal record field is malformed"
    end
  end.

Definition resolveSourceRecord (symbol : string) : FailureOr ResolvedRecordView :=
  match file ≫= (fun f => lookupSymbolIn f symbol) with
  | Some (StructDecl fields) => let! types := field_types fields in success (mkRecordView (Some symbol) types)
  | _ => failure "static nominal record has no unit declaration snapshot"
  end.

(** ** The helper *)

(** The loop over the parameters of a helper. *)
Fixpoint check_parameters (metadata : list Attr) (inputs : list MlirType) : FailureOr unit :=
  match metadata with
  | [] => success tt
  | raw :: rest =>
    match raw with
    | Dictionary parameter =>
      match get_dict "constraint" parameter, get_dictionary "default" parameter, get_string "name" parameter, get_string "binding" parameter with
      | Some constraint, Some default, Some _, Some _ =>
        match get_string "kind" constraint, get_dictionary "type" constraint with
        | Some kind, Some type =>
          if negb (bool_decide (kind = "logical")) then failure "static constructor parameter contract is malformed"
          else
            let! _ := verifyLogicalTypeStructure type in
            let! _ := verifyDefaultStructure default in
            let! physical := physicalType type in
            if negb (bool_decide (head inputs = Some physical))
            then failure "static constructor physical argument type is inconsistent"
            else check_parameters rest (tail inputs)
        | _, _ => failure "static constructor parameter contract is malformed"
        end
      | _, _, _, _ => failure "static constructor parameter contract is malformed"
      end
    | _ => failure "static constructor parameter contract is malformed"
    end
  end.

(** The types of a helper: its parameters and a flag to its record and a flag. *)
Definition signature_ok (helper : FuncOp) (count : nat) : bool :=
  bool_decide (length (f_inputs helper) = S count) && bool_decide (length (f_results helper) = 2%nat) &&
  isInteger (f_inputs helper !! count) 1 && isInteger (f_results helper !! 1%nat) 1.

Definition resolveSourceStaticRecordConstructor (callee : option string) : FailureOr FuncOp :=
  match callee with
  | None => failure "static constructor requires canonical callee and fixed source scope"
  | Some callee =>
    match file ≫= (fun f => lookupSymbolIn f callee) with
    | Some (FuncDecl helper) =>
      match ac_helper_kind helper, ac_record helper, ac_parameters helper, f_blocks helper with
      | Some kind, Some nominal, Some metadata, [body] =>
        if negb (bool_decide (kind = "record_constructor"))
        then failure "static initializer requires an explicit verified header-owned record constructor"
        else if negb (signature_ok helper (length metadata)) || negb (bool_decide (length (block_arguments body) = S (length metadata)))
        then failure "static constructor physical signature is inconsistent"
        else if negb (bool_decide (head (f_results helper) = Some (NominalType nominal)))
        then failure "static constructor result has wrong nominal declaration"
        else
          match resolveSourceRecord nominal with
          | inl _ => failure "static constructor result has wrong nominal declaration"
          | inr _ => let! _ := check_parameters metadata (f_inputs helper) in success helper
          end
      | _, _, _, _ => failure "static initializer requires an explicit verified header-owned record constructor"
      end
    | _ => failure "static initializer requires an explicit verified header-owned record constructor"
    end
  end.
End File.

(** ** Arguments *)

(** An argument of a call, around its expression. *)
Record Argument (E : Type) := mkArgument { arg_kind : string; arg_name : option string; arg_value : E }.
Arguments mkArgument {E}.
Arguments arg_kind {E}.
Arguments arg_name {E}.
Arguments arg_value {E}.

(** [getAs<StringAttr>] of a parameter dictionary. *)
Definition parameter_string (name : string) (parameter : Attr) : option string :=
  match parameter with Dictionary fields => get_string name fields | _ => None end.
Definition parameter_dict (name : string) (parameter : Attr) : option (list (string * Attr)) :=
  match parameter with Dictionary fields => get_dict name fields | _ => None end.

(** The search for a keyword: the first parameter of that name, unless it is
    positional only. *)
Fixpoint keyword_target (metadata : list Attr) (name : string) (index : nat) : FailureOr nat :=
  match metadata with
  | [] => failure "unknown constructor keyword"
  | parameter :: rest =>
    if decide (parameter_string "name" parameter = Some name) then
      match parameter_string "binding" parameter with
      | Some binding =>
        if decide (binding = "positional_only") then failure "positional-only constructor parameter passed by keyword"
        else success index
      | None => failure "positional-only constructor parameter passed by keyword"
      end
    else keyword_target rest name (S index)
  end.

(** The loop over the arguments, with the next position, whether a keyword was
    seen, and the parameters bound so far. *)
Fixpoint bind_arguments {E} (metadata : list Attr) (arguments : list (Argument E)) (nextPositional : nat) (keywordSeen : bool)
    (bound : list nat) : FailureOr (list nat) :=
  match arguments with
  | [] => success []
  | argument :: rest =>
    let place (target next : nat) (seen : bool) : FailureOr (list nat) :=
      if bool_decide (target ∈ bound) then failure "duplicate static constructor argument"
      else let! mapping := bind_arguments metadata rest next seen (target :: bound) in success (target :: mapping) in
    if decide (arg_kind argument = "positional") then
      if keywordSeen then failure "too many or late positional constructor arguments"
      else
        match metadata !! nextPositional with
        | None => failure "too many or late positional constructor arguments"
        | Some parameter =>
          match parameter_string "binding" parameter with
          | Some binding =>
            if decide (binding = "keyword_only") then failure "keyword-only constructor parameter passed positionally"
            else place nextPositional (S nextPositional) keywordSeen
          | None => failure "keyword-only constructor parameter passed positionally"
          end
        end
    else if decide (arg_kind argument = "keyword") then
      match arg_name argument with
      | None => failure "constructor keyword requires a name"
      | Some name => let! target := keyword_target metadata name 0 in place target nextPositional true
      end
    else failure "unsupported static constructor argument kind"
  end.

(** The parameter has a default. *)
Definition default_present (parameter : Attr) : bool :=
  match parameter_dict "default" parameter with
  | Some default => bool_decide (get_bool "present" default = Some true)
  | None => false
  end.

(** The loop over the parameters that no argument bound. *)
Fixpoint require_defaults (metadata : list Attr) (index : nat) (bound : list nat) : FailureOr unit :=
  match metadata with
  | [] => success tt
  | parameter :: rest =>
    if bool_decide (index ∈ bound) || default_present parameter then require_defaults rest (S index) bound
    else failure "missing required static constructor argument"
  end.

Definition bindStaticRecordArguments {E} (helper : FuncOp) (arguments : list (Argument E)) : FailureOr (list nat) :=
  match ac_parameters helper with
  | None => failure "static constructor requires parameter/argument arrays"
  | Some metadata =>
    let! mapping := bind_arguments metadata arguments 0 false [] in
    let! _ := require_defaults metadata 0 mapping in
    success mapping
  end.

(** ** The body *)

(** [values.lookup] and [values.try_emplace]. *)
Fixpoint value_lookup (values : list (ValueId * Attr)) (id : ValueId) : option Attr :=
  match values with
  | [] => None
  | (key, value) :: rest => if decide (key = id) then Some value else value_lookup rest id
  end.
Definition try_emplace (id : ValueId) (value : Attr) (values : list (ValueId * Attr)) : list (ValueId * Attr) :=
  match value_lookup values id with Some _ => values | None => (id, value) :: values end.

(** Dictionaries list their fields in the order of the names. *)
Definition record_value (symbol : string) (fields : list Attr) : Attr :=
  Dictionary [("fields", ArrayAttribute fields); ("kind", StringAttribute "record"); ("symbol", SymbolRef symbol)].
Definition record_type (symbol : string) : Attr := Dictionary [("kind", StringAttribute "record"); ("symbol", SymbolRef symbol)].
Definition true_value : Attr := Dictionary [("kind", StringAttribute "bool"); ("value", Boolean true)].

Fixpoint field_values (values : list (ValueId * Attr)) (operands : list ValueId) : FailureOr (list Attr) :=
  match operands with
  | [] => success []
  | operand :: rest =>
    match value_lookup values operand with
    | None => failure "static constructor uses a nonconstant field"
    | Some value => let! fields := field_values values rest in success (value :: fields)
    end
  end.

(** The position of the first field of a name. *)
Fixpoint field_index (declarations : list Attr) (field : string) (index : nat) : option nat :=
  match declarations with
  | [] => None
  | declaration :: rest =>
    if decide (parameter_string "name" declaration = Some field) then Some index else field_index rest field (S index)
  end.

(** The symbol and the fields of a record value. *)
Definition record_parts (value : Attr) : option (string * list Attr) :=
  match value with
  | Dictionary d => match get_symbol "symbol" d, get_array "fields" d with Some s, Some l => Some (s, l) | _, _ => None end
  | _ => None
  end.

Section Body.
Context `{L : ApLib}.
Variable fuel : nat.
Variable file : option SourceFile.

Definition matches (value type : Attr) : Run unit :=
  verifyStaticValueMatchesType (Some (resolveSourceRecord file)) fuel ExpectLogical value type.

Definition create_record (values : list (ValueId * Attr)) (type : MlirType) (operands : list ValueId) : Run Attr :=
  match type with
  | NominalType symbol =>
    let? fields := Some (field_values values operands) in
    let? _ := matches (record_value symbol fields) (record_type symbol) in
    rdone (record_value symbol fields)
  | _ => rfail "static constructor creates a non-record"
  end.

(** The last failure stands for the assertions of the array access and of the
    cast of the source. *)
Definition get_field (values : list (ValueId * Attr)) (value : ValueId) (field : string) : Run Attr :=
  match value_lookup values value ≫= record_parts with
  | None => rfail "static record field source is unavailable"
  | Some (symbol, fields) =>
    match file ≫= (fun f => lookupSymbolIn f symbol) with
    | Some (StructDecl declarations) =>
      match resolveSourceRecord file symbol with
      | inl _ => rfail "static record field source is unavailable"
      | inr _ =>
        match field_index declarations field 0 with
        | None => rfail "static record field does not exist"
        | Some index =>
          match fields !! index with Some (Dictionary v) => rdone (Dictionary v) | _ => rfail "assertion: field of a record" end
        end
      end
    | _ => rfail "static record field source is unavailable"
    end
  end.

Definition return_value (nominal : string) (values : list (ValueId * Attr)) (operands : list ValueId) : Run Attr :=
  match operands with
  | [data; valid] =>
    match value_lookup values data, value_lookup values valid with
    | Some data, Some (Dictionary valid) =>
      if negb (bool_decide (get_string "kind" valid = Some "bool")) || negb (bool_decide (get_bool "value" valid = Some true))
      then rfail "static constructor did not return valid data"
      else
        match data with
        | Dictionary d =>
          if bool_decide (get_symbol "symbol" d = Some nominal) then rdone data
          else rfail "static constructor returned the wrong record"
        | _ => rfail "static constructor returned the wrong record"
        end
    | _, _ => rfail "static constructor did not return valid data"
    end
  | _ => rfail "static constructor must return data and validity"
  end.

(** The loop over the operations. *)
Fixpoint run_body (nominal : string) (operations : list BodyOp) (values : list (ValueId * Attr)) : Run Attr :=
  match operations with
  | [] => rfail "static constructor has no return"
  | StructCreateOp result type operands :: rest =>
    let? created := create_record values type operands in
    run_body nominal rest (try_emplace result created values)
  | StructGetOp result value field :: rest =>
    let? found := get_field values value field in
    run_body nominal rest (try_emplace result found values)
  | ReturnOp operands :: _ => return_value nominal values operands
  | OtherOp _ :: _ => rfail "source module constant evaluator cannot execute this verified helper operation"
  end.

(** The loop that completes and checks the bound values. *)
Fixpoint check_bound (metadata : list Attr) (bound : list (option Attr)) (inputs : list MlirType) : Run (list Attr) :=
  match metadata, bound with
  | raw :: rest, given :: others =>
    match parameter_dict "constraint" raw, parameter_dict "default" raw with
    | Some constraint, Some default =>
      match get_string "kind" constraint, get_dictionary "type" constraint with
      | Some kind, Some type =>
        if negb (bool_decide (kind = "logical")) then rfail "static constructor parameter contract is malformed"
        else
          let? value :=
            match given with
            | Some value => rdone value
            | None =>
              if negb (bool_decide (get_bool "present" default = Some true)) then rfail "missing required static constructor argument"
              else match get_dictionary "value" default with
                   | Some value => rdone value
                   | None => rfail "static constructor default is malformed"
                   end
            end in
          let? physical := Some (physicalType type) in
          if negb (bool_decide (head inputs = Some physical)) then rfail "static constructor argument type or range mismatch"
          else
            let? _ := matches value type in
            let? values := check_bound rest others (tail inputs) in
            rdone (value :: values)
      | _, _ => rfail "static constructor parameter contract is malformed"
      end
    | _, _ => rfail "static constructor parameter contract is malformed"
    end
  | _, _ => rdone []
  end.

(** ** A call *)

(** The state of the evaluator, with the helpers whose bodies run. *)
Context {E St : Type}.
Variable activeConstructors : St -> list string.
Variable set_active : list string -> St -> St.
Variable evaluateChild : E -> St -> Run (Attr * St).

(** The loop that evaluates the arguments. *)
Fixpoint evaluate_arguments (arguments : list (Argument E)) (mapping : list nat) (bound : list (option Attr)) (st : St)
  : Run (list (option Attr) * St) :=
  match arguments, mapping with
  | argument :: rest, target :: targets =>
    let? r := evaluateChild (arg_value argument) st in
    evaluate_arguments rest targets (<[target := Some (fst r)]> bound) (snd r)
  | _, _ => rdone (bound, st)
  end.

Definition evaluateSourceStaticRecordConstructor (helper : FuncOp) (arguments : list (Argument E)) (st : St) : Run (Attr * St) :=
  let? mapping := Some (bindStaticRecordArguments helper arguments) in
  match ac_parameters helper, ac_record helper, f_blocks helper with
  | Some metadata, Some nominal, body :: _ =>
    let? r := evaluate_arguments arguments mapping (replicate (length metadata) None) st in
    let '(bound, st) := r in
    if negb (signature_ok helper (length metadata)) then rfail "static constructor physical signature is inconsistent"
    else
      let? values := check_bound metadata bound (f_inputs helper) in
      if negb (bool_decide (head (f_results helper) = Some (NominalType nominal)))
      then rfail "static constructor result has wrong nominal type"
      else
        let? _ := Some (resolveSourceRecord file nominal) in
        if negb (bool_decide (length (block_arguments body) = S (length metadata)))
        then rfail "static constructor body parameter count differs"
        else if bool_decide (sym_name helper ∈ activeConstructors st) then rfail "recursive static record constructor call"
        else
          let entered := set_active (sym_name helper :: activeConstructors st) st in
          let values := foldl (fun m '(id, v) => try_emplace id v m) [] (zip (block_arguments body) (values ++ [true_value])) in
          let? data := run_body nominal (block_operations body) values in
          rdone (data, set_active (erase (sym_name helper) (activeConstructors entered)) entered)
  | _, _, _ => rfail "assertion: resolved constructor"
  end.
End Body.
