(* ===== verification/RecordConstructorsSpec.v ===== *)
(** * What static record constructors guarantee

    Arguments are bound to parameters as in a call of the source language;
    every value in a running body is a value of a declared type, so field
    accesses are in range and the result is a value of the constructor's
    record. *)

From Stdlib Require Import ZArith Lia String.
From stdpp Require Import base list numbers strings.
From S2P Require Import Prelude ModelInput ConfigSpec CompilerPrelude ApInt HardwareAnalysis HardwareAnalysisSpec StaticValues StaticValuesSpec RecordConstructors.

Open Scope string_scope.
Open Scope list_scope.

(** ** Binding of arguments *)

Section Binding.
Context {E : Type}.
Variable metadata : list Attr.

(** The parameter takes a positional argument. *)
Definition by_position (index : nat) : Prop :=
  exists parameter binding, metadata !! index = Some parameter /\ parameter_string "binding" parameter = Some binding /\ binding <> "keyword_only".

(** The first parameter of a name takes a keyword argument. *)
Definition by_keyword (a : Argument E) (index : nat) : Prop :=
  arg_kind a = "keyword" /\
  exists name parameter binding, arg_name a = Some name /\ metadata !! index = Some parameter /\ parameter_string "name" parameter = Some name /\
    (forall j other, (j < index)%nat -> metadata !! j = Some other -> parameter_string "name" other <> Some name) /\
    parameter_string "binding" parameter = Some binding /\ binding <> "positional_only".

(** A call in the source language: positional arguments for the first
    parameters, then keywords, each parameter at most once, and a default for
    every parameter without argument. *)
Definition call_binding (arguments : list (Argument E)) (mapping : list nat) : Prop :=
  exists positional keywords targets, arguments = positional ++ keywords /\ mapping = seq 0 (length positional) ++ targets /\
    Forall (fun a => arg_kind a = "positional") positional /\ (forall i, (i < length positional)%nat -> by_position i) /\
    Forall2 by_keyword keywords targets /\ NoDup mapping /\
    forall i parameter, metadata !! i = Some parameter -> i ∉ mapping -> default_present parameter = true.

Lemma keyword_target_spec name l : forall index target, keyword_target l name index = inr target <->
  exists k parameter binding, target = (index + k)%nat /\ l !! k = Some parameter /\ parameter_string "name" parameter = Some name /\
    (forall j other, (j < k)%nat -> l !! j = Some other -> parameter_string "name" other <> Some name) /\
    parameter_string "binding" parameter = Some binding /\ binding <> "positional_only".
Proof.
  induction l as [|p l IH]; intros index target; cbn [keyword_target]; [split; [discriminate|intros (k & ? & ? & _ & H & _); rewrite lookup_nil in H; discriminate]|].
  destruct (decide (parameter_string "name" p = Some name)) as [E1|E1].
  - split.
    + destruct (parameter_string "binding" p) as [b|] eqn:Eb; [|discriminate]. destruct (decide (b = "positional_only")) as [|Nb]; [discriminate|].
      intros [= <-]. exists 0%nat, p, b. repeat split; try assumption; [lia|intros; lia].
    + intros (k & q & b & -> & Hk & Hn & Hf & Hb & Nb). destruct k as [|k]; [|exfalso; exact (Hf 0%nat p ltac:(lia) eq_refl E1)].
      injection Hk as <-. rewrite Hb. destruct (decide (b = "positional_only")); [contradiction|]. f_equal. lia.
  - rewrite IH. split.
    + intros (k & q & b & -> & Hk & Hn & Hf & Hb & Nb). exists (S k), q, b. repeat split; try assumption; [lia|].
      intros [|j] other Hj Ho; [injection Ho as <-; exact E1|apply (Hf j); [lia|exact Ho]].
    + intros (k & q & b & -> & Hk & Hn & Hf & Hb & Nb). destruct k as [|k]; [injection Hk as <-; contradiction|].
      exists k, q, b. repeat split; try assumption; [lia|]. intros j other Hj Ho. apply (Hf (S j)); [lia|exact Ho].
Qed.

(** The part of a call that the loop over the arguments checks. *)
Definition binds_from (arguments : list (Argument E)) (next : nat) (seen : bool) (bound mapping : list nat) : Prop :=
  exists positional keywords targets, arguments = positional ++ keywords /\ mapping = seq next (length positional) ++ targets /\
    (seen = true -> positional = []) /\
    Forall (fun a => arg_kind a = "positional") positional /\ (forall i, (next <= i < next + length positional)%nat -> by_position i) /\
    Forall2 by_keyword keywords targets /\ NoDup mapping /\ (forall i, i ∈ mapping -> i ∉ bound).

Lemma by_keyword_target a name target : arg_kind a = "keyword" -> arg_name a = Some name ->
  keyword_target metadata name 0 = inr target <-> by_keyword a target.
Proof.
  intros Hk Hn. rewrite keyword_target_spec. split.
  - intros (k & p & b & -> & H). split; [exact Hk|]. exists name, p, b. split; [exact Hn|exact H].
  - intros (_ & name' & p & b & Hn' & H). rewrite Hn in Hn'. injection Hn' as <-. exists target, p, b. split; [reflexivity|exact H].
Qed.

Lemma bind_arguments_spec arguments : forall next seen bound mapping,
  bind_arguments metadata arguments next seen bound = inr mapping <-> binds_from arguments next seen bound mapping.
Proof.
  induction arguments as [|a arguments IH]; intros next seen bound mapping; cbn [bind_arguments].
  { split.
    - intros [= <-]. exists [], [], []. repeat split; try constructor; try (intros; cbn in *; lia). intros i Hi. apply elem_of_nil in Hi. contradiction.
    - intros (ps & ks & ts & E0 & -> & _ & _ & _ & Hk & _). symmetry in E0. apply app_nil in E0 as [-> ->]. apply Forall2_nil_inv_l in Hk as ->. reflexivity. }
  destruct (decide (arg_kind a = "positional")) as [E1|E1].
  - split.
    + destruct seen; [discriminate|]. destruct (metadata !! next) as [p|] eqn:Ep; [|discriminate].
      destruct (parameter_string "binding" p) as [b|] eqn:Eb; [|discriminate]. destruct (decide (b = "keyword_only")) as [|Nb]; [discriminate|].
      case_bool_decide as Hb; [discriminate|]. intros H. apply fbind_inr in H as (m & Em & [= <-]).
      apply IH in Em as (ps & ks & ts & -> & -> & _ & Hp & Hi & Hk & Hn & Hd). exists (a :: ps), ks, ts. split; [reflexivity|]. split; [reflexivity|].
      split; [discriminate|]. split; [constructor; assumption|]. split.
      { intros i Hlt. cbn [length] in Hlt. destruct (decide (i = next)) as [->|]; [exists p, b; auto|apply Hi; lia]. }
      split; [exact Hk|]. split.
      * apply NoDup_cons. split; [|exact Hn]. intros Hin. apply Hd in Hin. apply Hin. left.
      * intros i Hin. apply elem_of_cons in Hin as [-> |Hin]; [exact Hb|]. apply Hd in Hin. intros Hx. apply Hin. right. exact Hx.
    + intros (ps & ks & ts & Ea & -> & Hs & Hp & Hi & Hk & Hn & Hd). destruct ps as [|a' ps].
      { cbn in Ea. subst ks. apply Forall2_cons_inv_l in Hk as (t & ts' & [Hk _] & _). rewrite E1 in Hk. discriminate. }
      injection Ea as <- ->. destruct seen; [discriminate (Hs eq_refl)|].
      destruct (Hi next) as (p & b & -> & -> & Nb); [cbn; lia|]. destruct (decide (b = "keyword_only")); [contradiction|].
      cbn [length seq app] in Hn, Hd |- *. apply NoDup_cons in Hn as [Hn1 Hn2].
      rewrite bool_decide_false by (apply Hd; left). apply Forall_cons in Hp as [_ Hp].
      rewrite (proj2 (IH (S next) false (next :: bound) (seq (S next) (length ps) ++ ts))); [reflexivity|].
      exists ps, ks, ts. repeat split; try assumption; [discriminate|intros i Hlt; apply Hi; cbn; lia|].
      intros i Hin Hx. apply elem_of_cons in Hx as [-> |Hx]; [contradiction|]. exact (Hd i ltac:(right; exact Hin) Hx).
  - split.
    + destruct (decide (arg_kind a = "keyword")) as [E2|E2]; [|discriminate]. destruct (arg_name a) as [name|] eqn:En; [|discriminate].
      intros H. apply fbind_inr in H as (t & Et & H). case_bool_decide as Hb; [discriminate|]. apply fbind_inr in H as (m & Em & [= <-]).
      apply IH in Em as (ps & ks & ts & -> & -> & Hs & Hp & Hi & Hk & Hn & Hd). specialize (Hs eq_refl). subst ps.
      exists [], (a :: ks), (t :: ts). repeat split; try constructor; try assumption; try (intros; cbn in *; lia).
      * apply (by_keyword_target a name); assumption.
      * intros Hin. apply Hd in Hin. apply Hin. left.
      * intros i Hin. apply elem_of_cons in Hin as [-> |Hin]; [exact Hb|]. apply Hd in Hin. intros Hx. apply Hin. right. exact Hx.
    + intros (ps & ks & ts & Ea & -> & Hs & Hp & Hi & Hk & Hn & Hd). destruct ps as [|a' ps]; [|injection Ea as <- ->; apply Forall_cons in Hp as [Hp _]; contradiction].
      cbn in Ea. subst ks. apply Forall2_cons_inv_l in Hk as (t & ts' & Ht & Hk & ->). cbn [length seq app] in Hn, Hd |- *.
      pose proof Ht as (Ek & name & _ & _ & En & _). rewrite Ek, decide_True by reflexivity. rewrite En.
      rewrite (proj2 (by_keyword_target a name t Ek En) Ht). cbn [fbind]. apply NoDup_cons in Hn as [Hn1 Hn2].
      rewrite bool_decide_false by (apply Hd; left). rewrite (proj2 (IH next true (t :: bound) ts')); [reflexivity|].
      exists [], arguments, ts'. repeat split; try constructor; try assumption; try (intros; cbn in *; lia).
      intros i Hin Hx. apply elem_of_cons in Hx as [-> |Hx]; [contradiction|]. exact (Hd i ltac:(right; exact Hin) Hx).
Qed.

Lemma require_defaults_spec bound l : forall index, require_defaults l index bound = inr tt <->
  forall k parameter, l !! k = Some parameter -> (index + k)%nat ∉ bound -> default_present parameter = true.
Proof.
  induction l as [|p l IH]; intros index; cbn [require_defaults]; [split; [intros _ k q H; rewrite lookup_nil in H; discriminate|reflexivity]|].
  destruct (bool_decide (index ∈ bound) || default_present p) eqn:E0.
  - rewrite IH. split.
    + intros H [|k] q Hk Hn; [injection Hk as <-|apply (H k q Hk); replace (S index + k)%nat with (index + S k)%nat by lia; exact Hn].
      rewrite Nat.add_0_r in Hn. rewrite bool_decide_false in E0 by exact Hn. exact E0.
    + intros H k q Hk Hn. apply (H (S k) q Hk). replace (index + S k)%nat with (S index + k)%nat by lia. exact Hn.
  - apply orb_false_iff in E0 as [E1 E2]. apply bool_decide_eq_false in E1. split; [discriminate|]. intros H.
    specialize (H 0%nat p eq_refl). rewrite Nat.add_0_r in H. rewrite (H E1) in E2. discriminate.
Qed.
End Binding.

Lemma bindStatic_spec {E} (helper : FuncOp) metadata (arguments : list (Argument E)) mapping : ac_parameters helper = Some metadata ->
  bindStaticRecordArguments helper arguments = inr mapping <-> call_binding metadata arguments mapping.
Proof.
  intros Hm. unfold bindStaticRecordArguments. rewrite Hm. split.
  - intros H. apply fbind_inr in H as (m & Em & H). apply fbind_inr in H as ([] & Ed & [= <-]).
    apply bind_arguments_spec in Em as (ps & ks & ts & -> & -> & _ & Hp & Hi & Hk & Hn & _).
    exists ps, ks, ts. repeat split; try assumption; [intros i Hlt; apply Hi; lia|]. intros i p Hp' Hni.
    exact (proj1 (require_defaults_spec _ _ 0) Ed i p Hp' Hni).
  - intros (ps & ks & ts & -> & -> & Hp & Hi & Hk & Hn & Hd).
    rewrite (proj2 (bind_arguments_spec metadata (ps ++ ks) 0 false [] (seq 0 (length ps) ++ ts))).
    + cbn [fbind]. rewrite (proj2 (require_defaults_spec _ _ 0)); [reflexivity|]. intros k p Hk' Hni. exact (Hd k p Hk' Hni).
    + exists ps, ks, ts. repeat split; try assumption; [discriminate|intros i Hlt; apply Hi; lia|intros i _ H; apply elem_of_nil in H; contradiction].
Qed.

(** ** Typed values *)

Section Typed.
Context `{L : ApLib} {HL : ApLaws L}.
Variable fuel : nat.
Variable file : option SourceFile.

#[local] Abbreviation resolver := (Some (resolveSourceRecord file)).

(** A well-formed value of a logical type whose records are declared. *)
Definition typed (value type : Attr) : Prop :=
  verifyStaticValueStructure value = inr tt /\ type_resolves resolver ExpectLogical type /\ belongs resolver ExpectLogical value type.

Lemma matches_typed value type : matches fuel file value type = Some (inr tt) -> typed value type.
Proof.
  unfold matches, verifyStaticValueMatchesType. intros H. apply rbind_inr in H as ([] & Es & H). injection Es as Es.
  apply rbind_inr in H as (st & Em & _). pose proof (match_sound resolver fuel value ExpectLogical type _ _ Es (no_resolution_ok resolver) Em) as [_ Hb].
  split; [exact Es|]. split; [|exact Hb]. destruct value as [| | | | | | |fs| |]; try discriminate Es. cbn [match_value] in Em.
  apply rbind_inr in Em as (st1 & E1 & _). eapply resolveType_sound; [apply no_resolution_ok|exact E1].
Qed.

(** The fields of the record that resolves. *)
Lemma field_types_length l types : field_types l = inr types -> length types = length l.
Proof.
  revert types. induction l as [|x l IH]; intros types; cbn [field_types]; [intros [= <-]; reflexivity|].
  destruct x as [| | | | | | |f| |]; try discriminate. destruct (get_dictionary "type" f); [|discriminate]. intros H. apply fbind_inr in H as (ts & Et & [= <-]).
  cbn. f_equal. apply IH, Et.
Qed.

Lemma fields_of_file symbol types : fields_of resolver symbol = Some types ->
  exists declarations, file ≫= (fun f => lookupSymbolIn f symbol) = Some (StructDecl declarations) /\ field_types declarations = inr types.
Proof.
  unfold fields_of, resolveSourceRecord. destruct (file ≫= _) as [[declarations| |]|]; try discriminate.
  destruct (field_types declarations) as [|ts] eqn:E; [discriminate|]. cbn. rewrite bool_decide_true by reflexivity. intros [= <-]. eauto.
Qed.

(** Two fields are not three. *)
Lemma two_fields (fs : list (string * Attr)) n1 n2 n3 a b c : length fs = 2%nat -> n1 <> n2 -> n1 <> n3 -> n2 <> n3 ->
  dget n1 fs = Some a -> dget n2 fs = Some b -> dget n3 fs = Some c -> False.
Proof.
  destruct fs as [|[k1 v1] [|[k2 v2] [|]]]; try discriminate. intros _ N1 N2 N3. unfold dget, dget_with.
  repeat case_decide; congruence.
Qed.

(** A well-formed value with a symbol is a record. *)
Lemma symbol_record fs s v : verifyStaticValueStructure (Dictionary fs) = inr tt -> get_symbol "symbol" fs = Some s ->
  value_of (Dictionary fs) = Some v -> exists vs, v = SRecord s vs.
Proof.
  intros Hs Hsym Hv. pose proof (value_inv _ _ Hs Hv) as Hi.
  assert (Hd : dget "symbol" fs = Some (SymbolRef s)) by (unfold get_symbol in Hsym; destruct (dget "symbol" fs) as [[]|]; congruence).
  assert (Hn : forall k name a, get_string "kind" fs = Some k -> name <> "symbol" -> name <> "kind" -> length fs = 2%nat -> dget name fs = Some a -> False).
  { intros k name a Hk N1 N2 Hl Ha. unfold get_string in Hk. destruct (dget "kind" fs) as [x|] eqn:Ek; [|discriminate].
    eapply (two_fields fs name "kind" "symbol"); eauto. }
  cbn [verifyStaticValueStructure] in Hs. destruct v as [b|z|s' vs|vs].
  - unfold recordKind in Hs. rewrite Hi in Hs. cbn in Hs. kinds_in Hs. rewrite fbind_tt, requireExact_spec in Hs. destruct Hs as [Hl Hb].
    destruct (get_bool "value" fs) eqn:Eb; [|discriminate]. unfold get_bool in Eb. destruct (dget "value" fs) eqn:Ev; [|discriminate].
    destruct (Hn _ "value" _ Hi ltac:(discriminate) ltac:(discriminate) Hl Ev).
  - destruct Hi as (Hk & t & Ht & _). unfold recordKind in Hs. rewrite Hk in Hs. cbn in Hs. kinds_in Hs. rewrite fbind_tt, requireExact_spec in Hs. destruct Hs as [Hl _].
    unfold get_math in Ht. destruct (dget "value" fs) eqn:Ev; [|discriminate]. destruct (Hn _ "value" _ Hk ltac:(discriminate) ltac:(discriminate) Hl Ev).
  - destruct Hi as (_ & Hs' & _). rewrite Hsym in Hs'. injection Hs' as ->. eauto.
  - destruct Hi as (Hk & l & Hl' & _). unfold recordKind in Hs. rewrite Hk in Hs. cbn in Hs. kinds_in Hs. rewrite fbind_tt, requireExact_spec in Hs. destruct Hs as [Hl _].
    destruct (Hn _ "values" _ Hk ltac:(discriminate) ltac:(discriminate) Hl Hl').
Qed.

Lemma record_type_ok p s : type_ok p ExpectLogical (record_type s) = p s.
Proof. reflexivity. Qed.

(** A typed value with the symbol of a record is a value of that record. *)
Lemma typed_record fs s t : typed (Dictionary fs) t -> get_symbol "symbol" fs = Some s -> typed (Dictionary fs) (record_type s).
Proof.
  intros (Hs & Hr & v & ty & Hv & Ht & Hty) Hsym. destruct (symbol_record _ _ _ Hs Hsym Hv) as [vs ->]. inversion Hty; subst.
  pose proof (type_resolves_structure _ _ _ Hr) as Hst. destruct (structure_inv _ _ Hst) as (tf & k & -> & Ek & _). pose proof (type_inv _ _ _ Hst Ht) as [Ek' Es].
  rewrite Ek in Ek'. injection Ek' as ->. destruct Hr as (n & Hn). cbn [type_ok] in Hn. rewrite Hst, Ek in Hn. kinds_in Hn. rewrite Es in Hn.
  split; [exact Hs|]. split; [exists n; rewrite record_type_ok; exact Hn|]. exists (SRecord s vs), (TyRecord s). split; [exact Hv|]. split; [reflexivity|exact Hty].
Qed.

Lemma all_some_lookup {A} (l : list (option A)) r i a : all_some l = Some r -> l !! i = Some a -> exists x, a = Some x /\ r !! i = Some x.
Proof.
  intros H Hi. apply all_some_inr in H. destruct (Forall2_lookup_l _ _ _ _ _ H Hi) as (x & Hx & ->). eauto.
Qed.

(** The fields of a typed record are typed. *)
Lemma typed_fields fs s l t declarations : typed (Dictionary fs) t -> get_symbol "symbol" fs = Some s -> dget "fields" fs = Some (ArrayAttribute l) ->
  file ≫= (fun f => lookupSymbolIn f s) = Some (StructDecl declarations) ->
  length l = length declarations /\ forall i x, l !! i = Some x -> exists type, typed x type.
Proof.
  intros Ht Hsym Hl Hd. destruct (typed_record _ _ _ Ht Hsym) as (Hs & (n & Hn) & v & ty & Hv & Hty & Hh).
  destruct (symbol_record _ _ _ Hs Hsym Hv) as [vs ->]. pose proof (value_inv _ _ Hs Hv) as (_ & _ & l' & Hl' & Hok & Hvs).
  rewrite Hl in Hl'. injection Hl' as <-. inversion Hh as [| | |s' values types tys Hf Htys Hall|]; subst.
  destruct (fields_of_file _ _ Hf) as (ds & Hd' & Ht'). rewrite Hd in Hd'. injection Hd' as <-. apply field_types_length in Ht'.
  pose proof (Forall2_length _ _ _ Hall) as L1. pose proof Hvs as L2. apply all_some_inr, Forall2_length in L2. rewrite length_fmap in L2.
  pose proof Htys as L3. apply all_some_inr, Forall2_length in L3. rewrite length_fmap in L3. split; [lia|].
  intros i x Hi. rewrite record_type_ok in Hn. apply (resolvable_mono _ n (S n)) in Hn; [|lia]. cbn [resolvable] in Hn. rewrite Hf in Hn.
  destruct (lookup_lt_is_Some_2 types i) as [type Hti]; [apply lookup_lt_Some in Hi; lia|]. exists type.
  split; [exact (Forall_lookup_1 _ _ _ _ Hok Hi)|]. split; [exists n; rewrite forallb_forall in Hn; apply Hn; apply list_elem_of_In; eapply list_elem_of_lookup_2; exact Hti|].
  destruct (all_some_lookup _ _ i (value_of x) Hvs) as (v & Ev & Hv'); [rewrite list_lookup_fmap, Hi; reflexivity|].
  destruct (all_some_lookup _ _ i (type_of ExpectLogical type) Htys) as (ty & Ety & Hty'); [rewrite list_lookup_fmap, Hti; reflexivity|].
  exists v, ty. split; [exact Ev|]. split; [exact Ety|]. exact (Forall2_lookup_lr _ _ _ _ _ _ Hall Hv' Hty').
Qed.

(** ** Running a body *)

(** Every SSA value so far is typed. *)
Definition values_typed (values : list (ValueId * Attr)) : Prop := Forall (fun p => exists type, typed (snd p) type) values.

Lemma lookup_typed values id v : values_typed values -> value_lookup values id = Some v -> exists type, typed v type.
Proof.
  induction 1 as [|[k w] values Hw Hv IH]; cbn [value_lookup]; [discriminate|]. case_decide; [intros [= <-]; exact Hw|exact IH].
Qed.

Lemma emplace_typed values id v type : values_typed values -> typed v type -> values_typed (try_emplace id v values).
Proof. intros Hv Ht. unfold try_emplace. destruct (value_lookup values id); [exact Hv|]. constructor; [exists type; exact Ht|exact Hv]. Qed.

Lemma typed_dictionary v type : typed v type -> exists fs, v = Dictionary fs.
Proof. intros [H _]. destruct v; try discriminate H. eauto. Qed.

(** A field is read in range, and its value is typed. *)
Lemma get_field_typed values value field : values_typed values ->
  (exists message, get_field file values value field = Some (inl message) /\ message <> "assertion: field of a record") \/
  exists v type, get_field file values value field = Some (inr v) /\ typed v type.
Proof.
  intros Hv. unfold get_field. destruct (value_lookup values value) as [base|] eqn:Eb; cbn [mbind option_bind]; [|left; eexists; split; [reflexivity|discriminate]].
  destruct (lookup_typed _ _ _ Hv Eb) as [t Ht]. destruct (typed_dictionary _ _ Ht) as [fs ->]. cbn [record_parts].
  destruct (get_symbol "symbol" fs) as [s|] eqn:Es; [|left; eexists; split; [reflexivity|discriminate]].
  destruct (get_array "fields" fs) as [l|] eqn:El; [|left; eexists; split; [reflexivity|discriminate]].
  destruct (file ≫= _) as [[ds| |]|] eqn:Ed; try (left; eexists; split; [reflexivity|discriminate]).
  destruct (resolveSourceRecord file s) as [|view]; [left; eexists; split; [reflexivity|discriminate]|].
  assert (Hl : dget "fields" fs = Some (ArrayAttribute l)) by (unfold get_array in El; destruct (dget "fields" fs) as [[]|]; congruence).
  destruct (typed_fields _ _ _ _ _ Ht Es Hl Ed) as [Hlen Hall].
  destruct (field_index ds field 0) as [i|] eqn:Ei; [|left; eexists; split; [reflexivity|discriminate]].
  assert (Hi : (i < length ds)%nat).
  { assert (G : forall d k j, field_index d field k = Some j -> (j < k + length d)%nat).
    { induction d as [|x d IH]; intros k j; cbn [field_index]; [discriminate|]. case_decide as E0; [intros [= <-]; cbn; lia|]. intros H. apply IH in H. cbn. lia. }
    apply G in Ei. exact Ei. }
  destruct (lookup_lt_is_Some_2 l i) as [x Hx]; [lia|]. destruct (Hall i x Hx) as [type Hxt]. destruct (typed_dictionary _ _ Hxt) as [xf ->].
  rewrite Hx. right. eauto.
Qed.

Lemma run_body_typed nominal operations : forall values data, values_typed values -> run_body fuel file nominal operations values = Some (inr data) ->
  typed data (record_type nominal).
Proof.
  induction operations as [|op operations IH]; intros values data Hv H; cbn [run_body] in H; [discriminate|].
  destruct op as [result type operands|result value field|operands|?]; [| | |discriminate].
  - apply rbind_inr in H as (created & Ec & H). unfold create_record in Ec. destruct type as [|symbol|]; try discriminate.
    apply rbind_inr in Ec as (fields & Ef & Ec). apply rbind_inr in Ec as ([] & Em & [= <-]). apply matches_typed in Em.
    apply IH in H; [exact H|]. eapply emplace_typed; eassumption.
  - apply rbind_inr in H as (found & Ef & H). destruct (get_field_typed values value field Hv) as [(m & E & _)|(v & type & E & Ht)]; [congruence|].
    rewrite E in Ef. injection Ef as <-. apply IH in H; [exact H|]. eapply emplace_typed; eassumption.
  - unfold return_value in H. destruct operands as [|d [|valid [|]]]; try discriminate. destruct (value_lookup values d) as [v|] eqn:Ed; [|discriminate].
    destruct (value_lookup values valid) as [[| | | | | | |vf| |]|]; try discriminate. destruct (_ || _); [discriminate|].
    destruct v as [| | | | | | |fs| |]; try discriminate. case_bool_decide as Es; [|discriminate]. injection H as <-.
    destruct (lookup_typed _ _ _ Hv Ed) as [t Ht]. eapply typed_record; eassumption.
Qed.

Lemma check_bound_typed metadata : forall bound inputs values, check_bound fuel file metadata bound inputs = Some (inr values) ->
  Forall (fun v => exists type, typed v type) values.
Proof.
  induction metadata as [|raw metadata IH]; intros bound inputs values H; cbn [check_bound] in H; [injection H as <-; constructor|].
  destruct bound as [|given bound]; [injection H as <-; constructor|]. destruct (parameter_dict "constraint" raw) as [c|]; [|discriminate].
  destruct (parameter_dict "default" raw) as [d|]; [|discriminate]. destruct (get_string "kind" c) as [k|]; [|discriminate].
  destruct (get_dictionary "type" c) as [type|]; [|discriminate]. destruct (negb _); [discriminate|]. apply rbind_inr in H as (v & _ & H).
  apply rbind_inr in H as (p & _ & H). destruct (negb _); [discriminate|]. apply rbind_inr in H as ([] & Em & H). apply rbind_inr in H as (vs & Evs & [= <-]).
  constructor; [exists type; apply matches_typed, Em|exact (IH _ _ _ Evs)].
Qed.

Lemma true_typed : typed true_value (Dictionary [("kind", StringAttribute "bool"); ("storage", TypeAttribute (IntegerType Signless 1))]).
Proof. split; [reflexivity|]. split; [exists 0%nat; reflexivity|]. exists (SBool true), TyBool. repeat split. constructor. Qed.

Lemma arguments_typed ids values start : values_typed start -> Forall (fun v => exists type, typed v type) values ->
  values_typed (foldl (fun m '(id, v) => try_emplace id v m) start (zip ids values)).
Proof.
  intros Hs Hv. revert ids start Hs. induction Hv as [|v values [type Ht] Hv IH]; intros [|id ids] start Hs; cbn; try exact Hs.
  apply IH. eapply emplace_typed; eassumption.
Qed.

Lemma constructor_typed {E St} (active : St -> list string) set_active (child : E -> St -> Run (Attr * St)) helper nominal arguments st data st' :
  ac_record helper = Some nominal ->
  evaluateSourceStaticRecordConstructor fuel file active set_active child helper arguments st = Some (inr (data, st')) ->
  typed data (record_type nominal).
Proof.
  intros Hn H. unfold evaluateSourceStaticRecordConstructor in H. apply rbind_inr in H as (mapping & _ & H).
  destruct (ac_parameters helper) as [metadata|]; [|discriminate]. rewrite Hn in H. destruct (f_blocks helper) as [|body ?]; [discriminate|].
  apply rbind_inr in H as ((bound & st1) & _ & H). destruct (negb _); [discriminate|]. apply rbind_inr in H as (values & Ev & H).
  destruct (negb _); [discriminate|]. apply rbind_inr in H as (view & _ & H). destruct (negb _); [discriminate|]. case_bool_decide; [discriminate|].
  apply rbind_inr in H as (d & Ed & [= <- <-]). eapply run_body_typed; [|exact Ed]. apply arguments_typed; [constructor|].
  apply Forall_app. split; [eapply check_bound_typed; exact Ev|]. constructor; [eexists; apply true_typed|constructor].
Qed.

(** ** Enough fuel *)

(** The symbols of the file. *)
Definition declared_names : list string := match file with Some f => map fst f | None => [] end.

Lemma declared_in_file s : fields_of resolver s <> None -> s ∈ declared_names.
Proof.
  destruct (fields_of resolver s) as [types|] eqn:E; [|congruence]. intros _. destruct (fields_of_file _ _ E) as (ds & Hd & _).
  unfold declared_names. destruct file as [f|]; [|discriminate]. cbn in Hd. clear E. induction f as [|[k x] f IH]; cbn [lookupSymbolIn] in Hd; [discriminate|].
  cbn [map fst]. destruct (decide (k = s)) as [->|]; [left|right; exact (IH Hd)].
Qed.

Hypothesis enough : (length declared_names < fuel)%nat.

Lemma matches_returns value type : matches fuel file value type <> None.
Proof. unfold matches. exact (proj1 (value_match_exact resolver declared_names declared_in_file fuel ExpectLogical value type enough)). Qed.

(** Matching is exact. *)
Lemma matches_exact value type : matches fuel file value type = Some (inr tt) <-> typed value type.
Proof.
  split; [apply matches_typed|]. intros H. unfold matches.
  exact (proj2 (proj2 (value_match_exact resolver declared_names declared_in_file fuel ExpectLogical value type enough)) H).
Qed.

Lemma run_body_returns nominal operations : forall values, run_body fuel file nominal operations values <> None.
Proof.
  induction operations as [|op operations IH]; intros values; cbn [run_body]; [discriminate|].
  destruct op as [result type operands|result value field|operands|?]; [| | |discriminate].
  - apply rbind_returns; [|intros; apply IH]. unfold create_record. destruct type; try discriminate.
    apply rbind_returns; [discriminate|]. intros fields _. apply rbind_returns; [apply matches_returns|discriminate].
  - apply rbind_returns; [|intros; apply IH]. unfold get_field. repeat case_match; discriminate.
  - unfold return_value. repeat case_match; discriminate.
Qed.

Lemma check_bound_returns metadata : forall bound inputs, check_bound fuel file metadata bound inputs <> None.
Proof.
  induction metadata as [|raw metadata IH]; intros bound inputs; cbn [check_bound]; [discriminate|]. destruct bound as [|given bound]; [discriminate|].
  destruct (parameter_dict "constraint" raw) as [c|]; [|discriminate]. destruct (parameter_dict "default" raw) as [d|]; [|discriminate].
  destruct (get_string "kind" c) as [k|]; [|discriminate]. destruct (get_dictionary "type" c) as [type|]; [|discriminate]. destruct (negb _); [discriminate|].
  apply rbind_returns; [repeat case_match; discriminate|]. intros v _. apply rbind_returns; [discriminate|]. intros p _. destruct (negb _); [discriminate|].
  apply rbind_returns; [apply matches_returns|]. intros _ _. apply rbind_returns; [apply IH|discriminate].
Qed.

Lemma constructor_returns {E St} (active : St -> list string) set_active (child : E -> St -> Run (Attr * St)) helper arguments st :
  (forall a st, a ∈ arguments -> child (arg_value a) st <> None) ->
  evaluateSourceStaticRecordConstructor fuel file active set_active child helper arguments st <> None.
Proof.
  intros Hc. unfold evaluateSourceStaticRecordConstructor. apply rbind_returns; [discriminate|]. intros mapping _.
  destruct (ac_parameters helper) as [metadata|]; [|discriminate]. destruct (ac_record helper); [|discriminate]. destruct (f_blocks helper); [discriminate|].
  apply rbind_returns.
  - generalize (replicate (length metadata) (@None Attr)) as bound. revert mapping st. induction arguments as [|a arguments IH]; intros mapping st bound;
      cbn [evaluate_arguments]; [discriminate|]. destruct mapping as [|t mapping]; [discriminate|]. apply rbind_returns; [apply Hc; left|].
    intros r _. apply IH. intros a' st' Ha'. apply Hc. right. exact Ha'.
  - intros [bound st1] _. destruct (negb _); [discriminate|]. apply rbind_returns; [apply check_bound_returns|]. intros values _.
    destruct (negb _); [discriminate|]. apply rbind_returns; [discriminate|]. intros view _. destruct (negb _); [discriminate|].
    case_bool_decide; [discriminate|]. apply rbind_returns; [apply run_body_returns|discriminate].
Qed.
End Typed.

(** ** Theorems *)

(** Arguments are bound as in a call of the source language: a call of a
    constructor is accepted exactly when its positional arguments come first
    and fill the first parameters, none of them keyword only, each keyword
    names a parameter that is not positional only, no parameter gets two
    arguments and every parameter without argument has a default; the
    mapping gives each argument its parameter. *)
Theorem static_call_binding_exact {E} (helper : FuncOp) (metadata : list Attr) (arguments : list (Argument E)) (mapping : list nat) :
  ac_parameters helper = Some metadata -> bindStaticRecordArguments helper arguments = inr mapping <-> call_binding metadata arguments mapping.
Proof. apply bindStatic_spec. Qed.

(** C30: A record constructor returns a value of its record.  Whatever its
    arguments evaluate to and whatever its body does with creations, field
    accesses and its return, a result is a well-formed value that the check
    against the record's type accepts; and with fuel for the declared records
    the call returns when its arguments do. *)
Theorem constructor_result_typed `{L : ApLib} {HL : ApLaws L} (fuel : nat) (file : option SourceFile) {E St} (active : St -> list string)
    (set_active : list string -> St -> St) (child : E -> St -> Run (Attr * St)) (helper : FuncOp) (nominal : string) (arguments : list (Argument E)) (st : St) :
  ac_record helper = Some nominal -> (length (declared_names file) < fuel)%nat ->
  (forall data st', evaluateSourceStaticRecordConstructor fuel file active set_active child helper arguments st = Some (inr (data, st')) ->
     verifyStaticValueStructure data = inr tt /\ matches fuel file data (record_type nominal) = Some (inr tt)) /\
  ((forall a s, a ∈ arguments -> child (arg_value a) s <> None) ->
   evaluateSourceStaticRecordConstructor fuel file active set_active child helper arguments st <> None).
Proof.
  intros Hn Hf. split; [|apply (constructor_returns fuel file Hf)]. intros data st' H.
  pose proof (constructor_typed fuel file active set_active child helper nominal arguments st data st' Hn H) as Ht.
  split; [apply Ht|]. apply (matches_exact fuel file Hf). exact Ht.
Qed.

Module ConstructorWitness.
Import StaticWitness.
Definition parameter (name binding : string) (default : Attr) : Attr :=
  Dictionary [("binding", StringAttribute binding); ("constraint", Dictionary [("kind", StringAttribute "logical"); ("type", nibble)]);
              ("default", default); ("name", StringAttribute name)].
Definition required : Attr := Dictionary [("present", Boolean false)].
Definition optional (value : Attr) : Attr := Dictionary [("present", Boolean true); ("value", value)].
Definition field (name : string) : Attr := Dictionary [("name", StringAttribute name); ("type", nibble)].
Definition nib : MlirType := IntegerType Signless 4.
Definition flag : MlirType := IntegerType Signless 1.

(** [make_pair(x, y=3)] builds a pair of [y] and the first field of a pair of
    [x] and [y]. *)
Definition make_pair : FuncOp :=
  mkFunc "make_pair" (Some "record_constructor") (Some "pair")
    (Some [parameter "x" "positional_only" required; parameter "y" "positional_or_keyword" (optional (digit [51]))])
    [nib; nib; flag] [NominalType "pair"; flag]
    [mkBlock [1; 2; 3]%positive
       [StructCreateOp 4%positive (NominalType "pair") [1; 2]%positive; StructGetOp 5%positive 4%positive "a"; StructCreateOp 6%positive (NominalType "pair") [2; 5]%positive; ReturnOp [6; 3]%positive]].
Definition unit_file : option SourceFile := Some [("pair", StructDecl [field "a"; field "b"]); ("make_pair", FuncDecl make_pair)].

Definition by_pos {E} (e : E) : Argument E := mkArgument "positional" None e.
Definition by_name {E} (name : string) (e : E) : Argument E := mkArgument "keyword" (Some name) e.

Lemma static_call_binding_exact_witness :
  bindStaticRecordArguments make_pair [by_pos 5%Z; by_name "y" 7%Z] = inr [0; 1]%nat /\
  ~ (exists mapping, call_binding (default [] (ac_parameters make_pair)) [by_name "x" 5%Z] mapping) /\
  call_binding (default [] (ac_parameters make_pair)) [by_pos 5%Z] [0]%nat.
Proof.
  split; [vm_compute; reflexivity|]. split.
  - intros (mapping & H). apply (static_call_binding_exact make_pair _ _ mapping eq_refl) in H. vm_compute in H. discriminate H.
  - apply (static_call_binding_exact make_pair _ [by_pos 5%Z] [0]%nat eq_refl). vm_compute. reflexivity.
Defined.

Lemma constructor_result_typed_witness :
  evaluateSourceStaticRecordConstructor (L := Reference.lib) 3 unit_file (fun _ : unit => []) (fun _ s => s) (fun v s => rdone (v, s)) make_pair
    [by_pos (digit [53])] tt = Some (inr (pair_of [51] [53], tt)) /\
  matches (L := Reference.lib) 3 unit_file (pair_of [51] [53]) (record_type "pair") = Some (inr tt).
Proof.
  assert (H : evaluateSourceStaticRecordConstructor (L := Reference.lib) 3 unit_file (fun _ : unit => []) (fun _ s => s) (fun v s => rdone (v, s)) make_pair
    [by_pos (digit [53])] tt = Some (inr (pair_of [51] [53], tt))) by (vm_compute; reflexivity).
  split; [exact H|]. apply (constructor_result_typed (HL := Reference.laws) 3 unit_file _ _ _ make_pair "pair" _ _ eq_refl ltac:(cbn; lia)) in H as [_ H]. exact H.
Defined.
End ConstructorWitness.
