(* ===== verification/SourceEvaluation.v ===== *)
(** * Evaluation of static source expressions ([ACIRStaticEvaluation.cpp])

    A constant of the source is an expression over literals, operators,
    conditionals and calls of record constructors.  It is inspected first, all
    branches included, for the kinds of value it can have, and evaluated
    then, on demand.  Both walks keep memos and sets of active expressions. *)

From Stdlib Require Import ZArith Lia String.
From stdpp Require Import base list numbers strings.
From S2P Require Import Prelude ModelInput CompilerPrelude ApInt ValueSemantics HardwareTypes HardwareAnalysis StaticValues RecordConstructors.

Open Scope string_scope.
Open Scope list_scope.

(** ** Expressions *)

(** The trees of [StaticExprAttr] by kind, after the grammar check;
    [EDeferred] is every kind that is not evaluated here. *)
Inductive SourceExpr :=
| ELiteral (at_ : Provenance) (value : Attr)
| ECall (at_ : Provenance) (callee : option string) (arguments : list (Argument SourceExpr))
| ESelect (at_ : Provenance) (condition yes no : SourceExpr)
| EUnary (at_ : Provenance) (operator : string) (operand : SourceExpr)
| EBinary (at_ : Provenance) (operator : string) (lhs rhs : SourceExpr)
| EDeferred (at_ : Provenance) (kind : string).

Definition name_dec (a b : option string) : {a = b} + {a <> b}.
Proof. decide equality. apply String.string_dec. Defined.

Fixpoint SourceExpr_dec (a b : SourceExpr) {struct a} : {a = b} + {a <> b}.
Proof.
  decide equality; try apply Pos.eq_dec; try apply String.string_dec; try apply Attr_dec.
  - apply List.list_eq_dec. intros [k n v] [k' n' v']. destruct (String.string_dec k k') as [->|N]; [|right; congruence].
    destruct (name_dec n n') as [->|N]; [|right; congruence]. destruct (SourceExpr_dec v v') as [->|N]; [left; reflexivity|right; congruence].
  - apply name_dec.
Defined.
#[export] Instance SourceExpr_eq_dec : EqDecision SourceExpr := SourceExpr_dec.

(** ** Kinds *)

Inductive PackedKind := PackedBoolean | PackedInteger | PackedRecord | PackedList.
#[export] Instance PackedKind_eq_dec : EqDecision PackedKind.
Proof. solve_decision. Defined.

Record Kind := mkKind { kind_of : PackedKind; record_of : option string }.
#[export] Instance Kind_eq_dec : EqDecision Kind.
Proof. solve_decision. Defined.
Definition KindSet := list Kind.

(** A value without a kind stands for the list kind; static values have one. *)
Definition valueKind (value : Attr) : Kind :=
  match value with
  | Dictionary fields =>
    if decide (get_string "kind" fields = Some "bool") then mkKind PackedBoolean None
    else if decide (get_string "kind" fields = Some "integer") then mkKind PackedInteger None
    else if decide (get_string "kind" fields = Some "record") then mkKind PackedRecord (get_symbol "symbol" fields)
    else mkKind PackedList None
  | _ => mkKind PackedList None
  end.

Definition compatible (kinds : KindSet) (constraint : ValueKindConstraint) : bool :=
  existsb (fun kind =>
    (bool_decide (kind_of kind = PackedBoolean) && negb (bool_decide (constraint = OnlyInteger))) ||
    (bool_decide (kind_of kind = PackedInteger) && negb (bool_decide (constraint = OnlyBoolean)))) kinds.

(** The overload for logical types. *)
Definition compatible_type (kinds : KindSet) (logical : list (string * Attr)) : bool :=
  let kind := get_string "kind" logical in
  existsb (fun candidate =>
    (bool_decide (kind = Some "bool") && bool_decide (kind_of candidate = PackedBoolean)) ||
    (bool_decide (kind = Some "integer") && bool_decide (kind_of candidate = PackedInteger)) ||
    (bool_decide (kind = Some "record") && bool_decide (kind_of candidate = PackedRecord) &&
     bool_decide (record_of candidate = get_symbol "symbol" logical))) kinds.

(** The attribute under ["value"], as an operand. *)
Definition operand_of (value : Attr) : Attribute :=
  match value with
  | Dictionary fields => match dget "value" fields with Some (Boolean b) => BoolAttr b | Some (MathInt s) => MathIntAttr s | _ => OtherAttr end
  | _ => OtherAttr
  end.

Definition wrap (value : Attribute) : Attr :=
  match value with
  | BoolAttr b => Dictionary [("kind", StringAttribute "bool"); ("value", Boolean b)]
  | MathIntAttr s => Dictionary [("kind", StringAttribute "integer"); ("value", MathInt s)]
  | OtherAttr => Dictionary [("kind", StringAttribute "integer"); ("value", OtherAttribute 1%positive)]
  end.

(** The type of a parameter's constraint. *)
Definition parameter_type (parameter : Attr) : option (list (string * Attr)) :=
  parameter_dict "constraint" parameter ≫= get_dict "type".

(** ** The evaluator *)

Record Evaluation := mkEvaluation {
  kinds : list (SourceExpr * KindSet);
  values : list (SourceExpr * Attr);
  constructors : list (SourceExpr * FuncOp);
  activeKinds : list SourceExpr;
  activeValues : list SourceExpr;
  activeConstructors : list string;
}.

Definition fresh_evaluation : Evaluation := mkEvaluation [] [] [] [] [] [].

(** [find] in a map keyed by expressions. *)
Fixpoint memo {A} (key : SourceExpr) (l : list (SourceExpr * A)) : option A :=
  match l with
  | [] => None
  | (k, a) :: rest => if decide (k = key) then Some a else memo key rest
  end.
Definition remember {A} (key : SourceExpr) (a : A) (l : list (SourceExpr * A)) : list (SourceExpr * A) :=
  match memo key l with Some _ => l | None => (key, a) :: l end.
Definition leave (key : SourceExpr) (l : list SourceExpr) : list SourceExpr := filter (fun e => e <> key) l.

Definition Step (A : Type) : Type := Evaluation -> Run (A * Evaluation).
Definition ret {A} (a : A) : Step A := fun st => rdone (a, st).
Definition sfail {A} (message : string) : Step A := fun _ => rfail message.
Definition bind {A B} (m : Step A) (k : A -> Step B) : Step B := fun st => let? r := m st in k (fst r) (snd r).
Definition lift {A} (m : FailureOr A) : Step A := fun st => let? a := Some m in rdone (a, st).

Notation "'let#' x := m 'in' k" := (bind m (fun x => k)) (at level 10, x name, m at level 200, k at level 200) : gfsim_scope.

(** The memo and the guard around an inspection, and around an evaluation. *)
Definition preflight_with (inspect : Step KindSet) (e : SourceExpr) : Step KindSet := fun st =>
  match memo e (kinds st) with
  | Some found => rdone (found, st)
  | None =>
    if bool_decide (e ∈ activeKinds st) then rfail "cycle in static expression kind analysis"
    else
      let? r := inspect (mkEvaluation (kinds st) (values st) (constructors st) (e :: activeKinds st) (activeValues st) (activeConstructors st)) in
      let '(result, st) := r in
      rdone (result, mkEvaluation (remember e result (kinds st)) (values st) (constructors st) (leave e (activeKinds st)) (activeValues st)
                       (activeConstructors st))
  end.

Definition evaluate_with (compute : Step Attr) (e : SourceExpr) : Step Attr := fun st =>
  match memo e (values st) with
  | Some found => rdone (found, st)
  | None =>
    if bool_decide (e ∈ activeValues st) then rfail "cycle in demanded static expression"
    else
      let? r := compute (mkEvaluation (kinds st) (values st) (constructors st) (activeKinds st) (e :: activeValues st) (activeConstructors st)) in
      let '(result, st) := r in
      rdone (result, mkEvaluation (kinds st) (remember e result (values st)) (constructors st) (activeKinds st) (leave e (activeValues st))
                       (activeConstructors st))
  end.

Definition record_constructor (e : SourceExpr) (helper : FuncOp) : Step unit := fun st =>
  rdone (tt, mkEvaluation (kinds st) (values st) (remember e helper (constructors st)) (activeKinds st) (activeValues st) (activeConstructors st)).

Section Evaluate.
Context `{L : ApLib}.
Variable fuel : nat.
Variable file : option SourceFile.

(** ** Inspection *)

(** The loop over the arguments of a call; [inspected] holds their
    inspections. *)
Fixpoint inspect_arguments (parameters : list Attr) (mapping : list nat) (inspected : list (Step KindSet)) : Step unit :=
  match mapping, inspected with
  | target :: targets, inspection :: rest =>
    let# actualKinds := inspection in
    match parameters !! target ≫= parameter_type with
    | Some logical =>
      if compatible_type actualKinds logical then inspect_arguments parameters targets rest
      else sfail "static constructor argument has definitely incompatible kind"
    | None => sfail "assertion: parameter type"
    end
  | _, _ => ret tt
  end.

(** The loop over the parameters without argument. *)
Fixpoint inspect_defaults (parameters : list Attr) (ordinal : nat) (supplied : list nat) : FailureOr unit :=
  match parameters with
  | [] => success tt
  | parameter :: rest =>
    if bool_decide (ordinal ∈ supplied) then inspect_defaults rest (S ordinal) supplied
    else
      match parameter_dict "default" parameter ≫= get_dictionary "value", parameter_type parameter with
      | Some value, Some logical =>
        if compatible_type [valueKind value] logical then inspect_defaults rest (S ordinal) supplied
        else failure "static constructor default has definitely incompatible kind"
      | _, _ => failure "static constructor default has definitely incompatible kind"
      end
  end.

Definition constructorKinds (e : SourceExpr) (callee : option string) (arguments : list (Argument SourceExpr)) (inspected : list (Step KindSet))
  : Step KindSet :=
  match callee with
  | None => sfail "lexical static calls require source authority resolution"
  | Some _ =>
    let# helper := lift (resolveSourceStaticRecordConstructor file callee) in
    let# mapping := lift (bindStaticRecordArguments helper arguments) in
    match ac_parameters helper with
    | None => sfail "assertion: resolved constructor"
    | Some parameters =>
      let# _ := inspect_arguments parameters mapping inspected in
      let# _ := lift (inspect_defaults parameters 0 mapping) in
      let# _ := record_constructor e helper in
      ret [mkKind PackedRecord (ac_record helper)]
    end
  end.

(** The literal value of a condition, if it is a boolean literal. *)
Definition literal_condition (condition : SourceExpr) : option bool :=
  match condition with ELiteral _ (Dictionary fields) => get_bool "value" fields | _ => None end.

Definition join_kinds (yes no : KindSet) : KindSet :=
  foldl (fun joined kind => if bool_decide (kind ∈ joined) then joined else joined ++ [kind]) yes no.

Definition result_kind (info : ValueOpcodeInfo) : Kind :=
  mkKind (if bool_decide (info_result info = KindBoolean) then PackedBoolean else PackedInteger) None.

(** The operator of a node with [count] operands. *)
Definition inspect_operator (operator : string) (count : nat) : FailureOr ValueOpcodeInfo :=
  match parseValueOpcode operator with
  | None => failure "unknown static value opcode"
  | Some opcode =>
    let info := getValueOpcodeInfo opcode in
    if negb (Nat.eqb (arity info) count) then failure "static value opcode arity differs from expression shape" else success info
  end.

Definition inspect_operand (inspection : Step KindSet) (constraint : ValueKindConstraint) : Step unit :=
  let# kinds := inspection in
  if compatible kinds constraint then ret tt else sfail "static value operand has definitely incompatible bool/integer kind".

(** [preflight] with [inspect] inside. *)
Fixpoint preflight (e : SourceExpr) : Step KindSet :=
  preflight_with
    match e with
    | ELiteral _ literal => let# _ := lift (verifyStaticValueStructure literal) in ret [valueKind literal]
    | ECall _ callee arguments => constructorKinds e callee arguments ((fun a => preflight (arg_value a)) <$> arguments)
    | ESelect _ condition yes no =>
      let# c := preflight condition in
      let# y := preflight yes in
      let# n := preflight no in
      if negb (compatible c OnlyBoolean) then sfail "static select condition has definitely nonboolean kind"
      else
        match literal_condition condition with
        | Some boolean => ret (if boolean then y else n)
        | None => ret (join_kinds y n)
        end
    | EUnary _ operator operand =>
      let# info := lift (inspect_operator operator 1) in
      let# _ := inspect_operand (preflight operand) (constraint_at info 0) in
      ret [result_kind info]
    | EBinary _ operator lhs rhs =>
      let# info := lift (inspect_operator operator 2) in
      let# _ := inspect_operand (preflight lhs) (constraint_at info 0) in
      let# _ := inspect_operand (preflight rhs) (constraint_at info 1) in
      ret [result_kind info]
    | EDeferred _ _ => sfail "static expression category requires deferred source/helper authority or semantics"
    end e.

(** ** Evaluation *)

Definition set_activeConstructors (l : list string) (st : Evaluation) : Evaluation :=
  mkEvaluation (kinds st) (values st) (constructors st) (activeKinds st) (activeValues st) l.

(** A call runs the helper that the inspection recorded. *)
Definition compute_call (e : SourceExpr) (arguments : list (Argument (Step Attr))) : Step Attr := fun st =>
  match memo e (constructors st) with
  | None => rfail "assertion: inspected call"
  | Some helper =>
    evaluateSourceStaticRecordConstructor fuel file activeConstructors set_activeConstructors (fun child => child) helper arguments st
  end.

Definition compute_select (condition : Step Attr) (yes no : Step Attr) : Step Attr :=
  let# c := condition in
  match c with
  | Dictionary fields =>
    match get_bool "value" fields with
    | Some boolean =>
      if bool_decide (get_string "kind" fields = Some "bool") then (if boolean then yes else no)
      else sfail "selected static condition must be bool, without integer truthiness"
    | None => sfail "selected static condition must be bool, without integer truthiness"
    end
  | _ => sfail "selected static condition must be bool, without integer truthiness"
  end.

Definition compute_operand (operand : Step Attr) (constraint : ValueKindConstraint) : Step Attr :=
  let# value := operand in
  if compatible [valueKind value] constraint then ret value else sfail "selected static operand has incompatible bool/integer kind".

(** A unary ([rhs = None]) or binary node. *)
Definition compute_operator (operator : string) (lhs : Step Attr) (rhs : option (Step Attr)) : Step Attr :=
  match parseValueOpcode operator with
  | None => sfail "assertion: inspected operator"
  | Some opcode =>
    let info := getValueOpcodeInfo opcode in
    let# left_ := compute_operand lhs (constraint_at info 0) in
    let rest : Step Attr :=
      match (if Nat.eqb (arity info) 2 then rhs else None) with
      | Some rhs =>
        let# right_ := compute_operand rhs (constraint_at info 1) in
        let# value := lift (evaluateValue opcode [operand_of left_; operand_of right_]) in ret (wrap value)
      | None => let# value := lift (evaluateValue opcode [operand_of left_]) in ret (wrap value)
      end in
    match evaluation info with
    | Strict => rest
    | _ =>
      match operand_of left_ with
      | BoolAttr boolean => if short_circuits (evaluation info) boolean then ret left_ else rest
      | _ => sfail "assertion: boolean operand"
      end
    end
  end.

(** [evaluate] with [compute] inside. *)
Fixpoint evaluate (e : SourceExpr) : Step Attr :=
  evaluate_with
    match e with
    | ELiteral _ literal => ret literal
    | ECall _ _ arguments => compute_call e ((fun a => mkArgument (arg_kind a) (arg_name a) (evaluate (arg_value a))) <$> arguments)
    | ESelect _ condition yes no => compute_select (evaluate condition) (evaluate yes) (evaluate no)
    | EUnary _ operator operand => compute_operator operator (evaluate operand) None
    | EBinary _ operator lhs rhs => compute_operator operator (evaluate lhs) (Some (evaluate rhs))
    | EDeferred _ _ => sfail "assertion: inspected expression"
    end e.

Definition evaluateSourceStaticExpr (e : SourceExpr) : Run Attr :=
  let? r := preflight e fresh_evaluation in
  let? v := evaluate e (snd r) in
  rdone (fst v).
End Evaluate.
