(* ===== verification/SourceEvaluationSpec.v ===== *)
(** * What the evaluation of static source expressions guarantees

    The memos and the sets of active expressions are invisible: the evaluator
    computes what a plain recursive walk computes.  The kinds found by the
    inspection are those of the values, and where the other evaluator of the
    compiler ([HardwareAnalysis.cpp]) knows the expression, they agree. *)

From Stdlib Require Import ZArith Lia String.
From stdpp Require Import base list numbers strings gmap.
From S2P Require Import Prelude ModelInput ConfigSpec CompilerPrelude ApInt ValueSemantics ValueSemanticsSpec HardwareTypes HardwareAnalysis HardwareAnalysisSpec StaticValues StaticValuesSpec RecordConstructors RecordConstructorsSpec SourceEvaluation.

Open Scope string_scope.
Open Scope list_scope.

(** ** Induction and size *)

Lemma SourceExpr_induction (P : SourceExpr -> Prop) :
  (forall p v, P (ELiteral p v)) ->
  (forall p callee args, Forall (fun a => P (arg_value a)) args -> P (ECall p callee args)) ->
  (forall p c y n, P c -> P y -> P n -> P (ESelect p c y n)) ->
  (forall p op x, P x -> P (EUnary p op x)) ->
  (forall p op l r, P l -> P r -> P (EBinary p op l r)) ->
  (forall p k, P (EDeferred p k)) -> forall e, P e.
Proof.
  intros H1 H2 H3 H4 H5 H6. fix go 1. intros [p v|p callee args|p c y n|p op x|p op l r|p k].
  - apply H1.
  - apply H2. induction args as [|[k n v] args IH]; constructor; [apply go|exact IH].
  - apply H3; apply go.
  - apply H4; apply go.
  - apply H5; apply go.
  - apply H6.
Qed.

Fixpoint esize (e : SourceExpr) : nat :=
  match e with
  | ECall _ _ args => S (fold_right (fun a n => (esize (arg_value a) + n)%nat) 0%nat args)
  | ESelect _ c y n => S (esize c + esize y + esize n)
  | EUnary _ _ x => S (esize x)
  | EBinary _ _ l r => S (esize l + esize r)
  | _ => 1
  end.

Lemma esize_argument a p callee args : a ∈ args -> (esize (arg_value a) < esize (ECall p callee args))%nat.
Proof.
  cbn. induction args as [|x args IH]; intros H; [apply elem_of_nil in H; contradiction|]. apply elem_of_cons in H as [-> |H]; cbn; [lia|].
  apply IH in H. cbn in H. lia.
Qed.

(** ** The walks without memo *)

Section Direct.
Context `{L : ApLib}.
Variable fuel : nat.
Variable file : option SourceFile.

Fixpoint direct_arguments (parameters : list Attr) (mapping : list nat) (inspected : list (FailureOr KindSet)) : FailureOr unit :=
  match mapping, inspected with
  | target :: targets, inspection :: rest =>
    let! actualKinds := inspection in
    match parameters !! target ≫= parameter_type with
    | Some logical =>
      if compatible_type actualKinds logical then direct_arguments parameters targets rest
      else failure "static constructor argument has definitely incompatible kind"
    | None => failure "assertion: parameter type"
    end
  | _, _ => success tt
  end.

Definition direct_call (callee : option string) (arguments : list (Argument SourceExpr)) (inspected : list (FailureOr KindSet)) : FailureOr KindSet :=
  match callee with
  | None => failure "lexical static calls require source authority resolution"
  | Some _ =>
    let! helper := resolveSourceStaticRecordConstructor file callee in
    let! mapping := bindStaticRecordArguments helper arguments in
    match ac_parameters helper with
    | None => failure "assertion: resolved constructor"
    | Some parameters =>
      let! _ := direct_arguments parameters mapping inspected in
      let! _ := inspect_defaults parameters 0 mapping in
      success [mkKind PackedRecord (ac_record helper)]
    end
  end.

Definition direct_operand (inspection : FailureOr KindSet) (constraint : ValueKindConstraint) : FailureOr unit :=
  let! kinds := inspection in
  if compatible kinds constraint then success tt else failure "static value operand has definitely incompatible bool/integer kind".

(** The kinds an expression can have. *)
Fixpoint direct_kinds (e : SourceExpr) : FailureOr KindSet :=
  match e with
  | ELiteral _ literal => let! _ := verifyStaticValueStructure literal in success [valueKind literal]
  | ECall _ callee arguments => direct_call callee arguments ((fun a => direct_kinds (arg_value a)) <$> arguments)
  | ESelect _ condition yes no =>
    let! c := direct_kinds condition in
    let! y := direct_kinds yes in
    let! n := direct_kinds no in
    if negb (compatible c OnlyBoolean) then failure "static select condition has definitely nonboolean kind"
    else success (match literal_condition condition with Some b => if b then y else n | None => join_kinds y n end)
  | EUnary _ operator operand =>
    let! info := inspect_operator operator 1 in
    let! _ := direct_operand (direct_kinds operand) (constraint_at info 0) in
    success [result_kind info]
  | EBinary _ operator lhs rhs =>
    let! info := inspect_operator operator 2 in
    let! _ := direct_operand (direct_kinds lhs) (constraint_at info 0) in
    let! _ := direct_operand (direct_kinds rhs) (constraint_at info 1) in
    success [result_kind info]
  | EDeferred _ _ => failure "static expression category requires deferred source/helper authority or semantics"
  end.

Definition direct_select (condition yes no : Run Attr) : Run Attr :=
  let? c := condition in
  match c with
  | Dictionary fields =>
    match get_bool "value" fields with
    | Some boolean =>
      if bool_decide (get_string "kind" fields = Some "bool") then (if boolean then yes else no)
      else rfail "selected static condition must be bool, without integer truthiness"
    | None => rfail "selected static condition must be bool, without integer truthiness"
    end
  | _ => rfail "selected static condition must be bool, without integer truthiness"
  end.

Definition direct_value_operand (operand : Run Attr) (constraint : ValueKindConstraint) : Run Attr :=
  let? value := operand in
  if compatible [valueKind value] constraint then rdone value else rfail "selected static operand has incompatible bool/integer kind".

Definition direct_operator (operator : string) (lhs : Run Attr) (rhs : option (Run Attr)) : Run Attr :=
  match parseValueOpcode operator with
  | None => rfail "assertion: inspected operator"
  | Some opcode =>
    let info := getValueOpcodeInfo opcode in
    let? left_ := direct_value_operand lhs (constraint_at info 0) in
    let rest : Run Attr :=
      match (if Nat.eqb (arity info) 2 then rhs else None) with
      | Some rhs =>
        let? right_ := direct_value_operand rhs (constraint_at info 1) in
        let? value := Some (evaluateValue opcode [operand_of left_; operand_of right_]) in rdone (wrap value)
      | None => let? value := Some (evaluateValue opcode [operand_of left_]) in rdone (wrap value)
      end in
    match evaluation info with
    | Strict => rest
    | _ =>
      match operand_of left_ with
      | BoolAttr boolean => if short_circuits (evaluation info) boolean then rdone left_ else rest
      | _ => rfail "assertion: boolean operand"
      end
    end
  end.

(** A call of the helper that the callee names, without state. *)
Definition direct_constructor (callee : option string) (arguments : list (Argument (Run Attr))) : Run Attr :=
  let? helper := Some (resolveSourceStaticRecordConstructor file callee) in
  let? r := evaluateSourceStaticRecordConstructor fuel file (fun _ : unit => []) (fun _ st => st)
              (fun child st => let? v := child in rdone (v, st)) helper arguments tt in
  rdone (fst r).

(** The value of an expression. *)
Fixpoint direct_value (e : SourceExpr) : Run Attr :=
  match e with
  | ELiteral _ literal => rdone literal
  | ECall _ callee arguments =>
    direct_constructor callee ((fun a => mkArgument (arg_kind a) (arg_name a) (direct_value (arg_value a))) <$> arguments)
  | ESelect _ condition yes no => direct_select (direct_value condition) (direct_value yes) (direct_value no)
  | EUnary _ operator operand => direct_operator operator (direct_value operand) None
  | EBinary _ operator lhs rhs => direct_operator operator (direct_value lhs) (Some (direct_value rhs))
  | EDeferred _ _ => rfail "assertion: inspected expression"
  end.
End Direct.

(** ** Memos *)

Lemma memo_remember {A} key (a : A) l x : memo x (remember key a l) = match memo x l with Some b => Some b | None => if decide (key = x) then Some a else None end.
Proof.
  unfold remember. destruct (memo key l) as [b|] eqn:E.
  - destruct (memo x l) eqn:Ex; [reflexivity|]. destruct (decide (key = x)) as [->|]; [congruence|reflexivity].
  - cbn [memo]. destruct (decide (key = x)) as [->|]; [rewrite E; reflexivity|]. destruct (memo x l); reflexivity.
Qed.

Lemma leave_head e l : e ∉ l -> leave e (e :: l) = l.
Proof.
  intros Hs. unfold leave. rewrite filter_cons_False by tauto. induction l as [|x l IH]; [reflexivity|].
  apply not_elem_of_cons in Hs as [H1 H2]. rewrite filter_cons_True by congruence. f_equal. apply IH, H2.
Qed.

(** ** The inspection *)

(** The calls of an expression have their helper. *)
Fixpoint known (st : Evaluation) (e : SourceExpr) : Prop :=
  match e with
  | ECall _ _ args => is_Some (memo e (constructors st)) /\ fold_right (fun a P => known st (arg_value a) /\ P) True args
  | ESelect _ c y n => known st c /\ known st y /\ known st n
  | EUnary _ _ x => known st x
  | EBinary _ _ l r => known st l /\ known st r
  | _ => True
  end.

Lemma known_arguments st args : fold_right (fun a P => known st (arg_value a) /\ P) True args <-> Forall (fun a => known st (arg_value a)) args.
Proof. induction args as [|a args IH]; cbn; [split; constructor|]. rewrite Forall_cons, IH. reflexivity. Qed.

Section Inspection.
Context `{L : ApLib}.
Variable file : option SourceFile.

Definition inspected_ok (st : Evaluation) : Prop :=
  (forall x K, memo x (kinds st) = Some K -> direct_kinds file x = inr K /\ known st x) /\
  (forall x h, memo x (constructors st) = Some h ->
     exists p callee args, x = ECall p callee args /\ resolveSourceStaticRecordConstructor file callee = inr h).

(** What an inspection keeps. *)
Definition keeps_state (st st' : Evaluation) : Prop :=
  activeKinds st' = activeKinds st /\ values st' = values st /\ activeValues st' = activeValues st /\
  activeConstructors st' = activeConstructors st /\ forall x h, memo x (constructors st) = Some h -> memo x (constructors st') = Some h.

Lemma keeps_refl st : keeps_state st st.
Proof. repeat split; auto. Qed.

Lemma keeps_trans st1 st2 st3 : keeps_state st1 st2 -> keeps_state st2 st3 -> keeps_state st1 st3.
Proof. intros (A1 & A2 & A3 & A4 & A5) (B1 & B2 & B3 & B4 & B5). repeat split; try congruence. auto. Qed.

Lemma known_keeps st st' e : (forall x h, memo x (constructors st) = Some h -> memo x (constructors st') = Some h) -> known st e -> known st' e.
Proof.
  intros Hk. induction e as [|p callee args IH| | | |] using SourceExpr_induction; cbn [known]; try tauto.
  rewrite !known_arguments. intros [[h Hh] Ha]. split; [exists h; apply Hk, Hh|]. apply Forall_forall. intros a Hin.
  rewrite Forall_forall in IH, Ha. apply IH; [exact Hin|]. apply Ha, Hin.
Qed.

(** A step does what the walk does, from states with active expressions [l]. *)
Definition inspects {A} (l : list SourceExpr) (Q : Evaluation -> Prop) (m : Step A) (d : FailureOr A) : Prop :=
  forall st, inspected_ok st -> activeKinds st = l ->
  match d with
  | inl message => m st = Some (inl message)
  | inr a => exists st', m st = Some (inr (a, st')) /\ inspected_ok st' /\ keeps_state st st' /\ Q st'
  end.

Definition stable (Q : Evaluation -> Prop) : Prop := forall st st', keeps_state st st' -> Q st -> Q st'.

Lemma known_stable e : stable (fun st => known st e).
Proof. intros st st' (_ & _ & _ & _ & H). apply known_keeps, H. Qed.

Lemma inspects_ret {A} l (a : A) : inspects l (fun _ => True) (ret a) (success a).
Proof. intros st Hi Hl. exists st. split; [reflexivity|]. split; [exact Hi|]. split; [apply keeps_refl|exact I]. Qed.

Lemma inspects_fail {A} l Q message : inspects (A := A) l Q (sfail message) (failure message).
Proof. intros st Hi Hl. reflexivity. Qed.

Lemma inspects_lift {A} l (m : FailureOr A) : inspects l (fun _ => True) (lift m) m.
Proof. intros st Hi Hl. unfold lift. destruct m as [e|a]; [reflexivity|]. exists st. split; [reflexivity|]. split; [exact Hi|]. split; [apply keeps_refl|exact I]. Qed.

Lemma inspects_bind {A B} l Q1 Q2 (m : Step A) (k : A -> Step B) d dk : stable Q1 -> inspects l Q1 m d ->
  (forall a, d = inr a -> inspects l Q2 (k a) (dk a)) -> inspects l (fun st => Q1 st /\ Q2 st) (bind m k) (fbind d dk).
Proof.
  intros Hs Hm Hk st Hi Hl. specialize (Hm st Hi Hl). unfold bind. destruct d as [e|a]; [cbn; rewrite Hm; reflexivity|].
  destruct Hm as (st1 & -> & Hi1 & K1 & H1). cbn [rbind fst snd fbind]. pose proof K1 as (E1 & _). specialize (Hk a eq_refl st1 Hi1 ltac:(congruence)).
  destruct (dk a) as [e|b]; [exact Hk|]. destruct Hk as (st2 & -> & Hi2 & K2 & H2). exists st2. split; [reflexivity|]. split; [exact Hi2|].
  split; [eapply keeps_trans; eassumption|]. split; [exact (Hs _ _ K2 H1)|exact H2].
Qed.

Lemma inspects_weaken {A} l (Q Q' : Evaluation -> Prop) (m : Step A) d : (forall st, Q st -> Q' st) -> inspects l Q m d -> inspects l Q' m d.
Proof.
  intros HQ Hm st Hi Hl. specialize (Hm st Hi Hl). destruct d; [exact Hm|]. destruct Hm as (st' & H1 & H2 & H3 & H4). exists st'. auto.
Qed.

(** The guard does not fire and the memo answers like the walk. *)
Lemma preflight_with_inspects e l inspect : e ∉ l -> inspects (e :: l) (fun st => known st e) inspect (direct_kinds file e) ->
  inspects l (fun st => known st e) (preflight_with inspect e) (direct_kinds file e).
Proof.
  intros Hn Hin st Hi Hl. unfold preflight_with. destruct (memo e (kinds st)) as [K|] eqn:Em.
  { destruct (proj1 Hi e K Em) as [-> Hk]. exists st. split; [reflexivity|]. split; [exact Hi|]. split; [apply keeps_refl|exact Hk]. }
  rewrite bool_decide_false by (rewrite Hl; exact Hn).
  specialize (Hin (mkEvaluation (kinds st) (values st) (constructors st) (e :: activeKinds st) (activeValues st) (activeConstructors st))).
  assert (Hi' : inspected_ok (mkEvaluation (kinds st) (values st) (constructors st) (e :: activeKinds st) (activeValues st) (activeConstructors st))).
  { destruct Hi as [H1 H2]. split; [|exact H2]. intros x K Hx. destruct (H1 x K Hx) as [Hd Hk]. split; [exact Hd|]. eapply known_keeps; [|exact Hk]. auto. }
  specialize (Hin Hi' ltac:(cbn; congruence)). destruct (direct_kinds file e) as [m|K] eqn:Ed; [cbn; rewrite Hin; reflexivity|].
  destruct Hin as (st1 & -> & Hi1 & (E1 & E2 & E3 & E4 & E5) & Hk). cbn [rbind]. eexists. split; [reflexivity|]. cbn in E1, E2, E3, E4, E5. split.
  - split; cbn [kinds constructors]; [|exact (proj2 Hi1)]. intros x K' Hx. rewrite memo_remember in Hx. destruct (memo x (kinds st1)) as [K0|] eqn:E0.
    + injection Hx as <-. destruct (proj1 Hi1 x K0 E0) as [Hd Hk']. split; [exact Hd|]. eapply known_keeps; [|exact Hk']. auto.
    + destruct (decide (e = x)) as [->|]; [|discriminate]. injection Hx as <-. split; [exact Ed|]. eapply known_keeps; [|exact Hk]. auto.
  - split; [|eapply known_keeps; [|exact Hk]; auto]. repeat split; cbn; try assumption. rewrite E1. apply leave_head. congruence.
Qed.

Lemma inspects_operand l e c : inspects l (fun st => known st e) (preflight file e) (direct_kinds file e) ->
  inspects l (fun st => known st e) (inspect_operand (preflight file e) c) (direct_operand (direct_kinds file e) c).
Proof.
  intros H. eapply inspects_weaken; [|apply (inspects_bind l (fun st => known st e) (fun _ => True)); [apply known_stable|exact H|]]; [intros ? []; assumption|].
  intros K _. cbn. destruct (compatible K c); [apply inspects_ret|apply inspects_fail].
Qed.

Lemma true_stable : stable (fun _ => True).
Proof. intros st st' _ _. exact I. Qed.

Lemma inspects_arguments l parameters args : Forall (fun a => inspects l (fun st => known st (arg_value a)) (preflight file (arg_value a)) (direct_kinds file (arg_value a))) args ->
  forall mapping, length mapping = length args ->
  inspects l (fun st => Forall (fun a => known st (arg_value a)) args)
    (inspect_arguments parameters mapping ((fun a => preflight file (arg_value a)) <$> args))
    (direct_arguments parameters mapping ((fun a => direct_kinds file (arg_value a)) <$> args)).
Proof.
  induction 1 as [|a args Ha H IH]; intros mapping Hl; (destruct mapping as [|t mapping]; [try discriminate Hl|try discriminate Hl]).
  { eapply inspects_weaken; [|apply inspects_ret]. intros. constructor. }
  cbn. eapply inspects_weaken; [|apply (inspects_bind l (fun st => known st (arg_value a)) (fun st => Forall (fun a => known st (arg_value a)) args));
    [apply known_stable|exact Ha|]]; [intros st [H1 H2]; constructor; assumption|]. intros K _. destruct (parameters !! t ≫= parameter_type) as [logical|]; [|apply inspects_fail].
  destruct (compatible_type K logical); [apply IH; injection Hl; auto|apply inspects_fail].
Qed.

Lemma call_binding_length {E} metadata (args : list (Argument E)) mapping : call_binding metadata args mapping -> length mapping = length args.
Proof. intros (ps & ks & ts & -> & -> & _ & _ & Hk & _). apply Forall2_length in Hk. rewrite !length_app, length_seq. lia. Qed.

Lemma inspects_call l p callee args :
  Forall (fun a => inspects l (fun st => known st (arg_value a)) (preflight file (arg_value a)) (direct_kinds file (arg_value a))) args ->
  inspects l (fun st => known st (ECall p callee args))
    (constructorKinds file (ECall p callee args) callee args ((fun a => preflight file (arg_value a)) <$> args))
    (direct_call file callee args ((fun a => direct_kinds file (arg_value a)) <$> args)).
Proof.
  intros Ha. unfold constructorKinds, direct_call. destruct callee as [c|]; [|apply inspects_fail].
  eapply inspects_weaken; [|apply (inspects_bind l (fun _ => True) (fun st => known st (ECall p (Some c) args))); [exact true_stable|apply inspects_lift|]]; [intros ? []; assumption|].
  intros h Eh. eapply inspects_weaken; [|apply (inspects_bind l (fun _ => True) (fun st => known st (ECall p (Some c) args))); [exact true_stable|apply inspects_lift|]]; [intros ? []; assumption|].
  intros mapping Em. destruct (ac_parameters h) as [parameters|] eqn:Ep; [|apply inspects_fail].
  apply (bindStatic_spec h parameters args mapping Ep), call_binding_length in Em.
  eapply inspects_weaken; [|apply (inspects_bind l (fun st => Forall (fun a => known st (arg_value a)) args) (fun st => is_Some (memo (ECall p (Some c) args) (constructors st))));
    [|apply (inspects_arguments l parameters args Ha mapping Em)|]].
  - intros st [H1 H2]. cbn [known]. rewrite known_arguments. auto.
  - intros st st' K Hf. eapply Forall_impl; [exact Hf|]. intros a. apply known_stable, K.
  - intros _ _. eapply inspects_weaken; [|apply (inspects_bind l (fun _ => True) (fun st => is_Some (memo (ECall p (Some c) args) (constructors st))));
      [exact true_stable|apply inspects_lift|]]; [intros ? []; assumption|].
    intros _ _ st Hi Hl. unfold bind, record_constructor, ret. cbn [rbind rdone fst snd]. eexists. split; [reflexivity|]. cbn [constructors kinds].
    assert (Hmono : forall x h', memo x (constructors st) = Some h' -> memo x (remember (ECall p (Some c) args) h (constructors st)) = Some h')
      by (intros x h' Hx; rewrite memo_remember, Hx; reflexivity). split.
    + split; cbn [constructors kinds].
      * intros x K Hx. destruct (proj1 Hi x K Hx) as [Hd Hk]. split; [exact Hd|]. eapply known_keeps; [|exact Hk]. exact Hmono.
      * intros x h' Hx. rewrite memo_remember in Hx. destruct (memo x (constructors st)) as [h0|] eqn:E0; [injection Hx as <-; exact (proj2 Hi _ _ E0)|].
        destruct (decide (_ = x)) as [<-|]; [|discriminate]. injection Hx as <-. eauto.
    + split; [repeat split; auto|]. rewrite memo_remember. destruct (memo _ (constructors st)); [eauto|]. rewrite decide_True by reflexivity. eauto.
Qed.

(** The expression lies below the active ones. *)
Definition below (e : SourceExpr) (l : list SourceExpr) : Prop := Forall (fun a => (esize e < esize a)%nat) l.

Lemma below_fresh e l : below e l -> e ∉ l.
Proof. intros H Hin. unfold below in H. rewrite Forall_forall in H. specialize (H e Hin). lia. Qed.

Lemma below_child x e l : (esize x < esize e)%nat -> below e l -> below x (e :: l).
Proof. intros Hx Hb. constructor; [exact Hx|]. eapply Forall_impl; [exact Hb|]. cbn. lia. Qed.

Lemma preflight_inspects e : forall l, below e l -> inspects l (fun st => known st e) (preflight file e) (direct_kinds file e).
Proof.
  induction e as [p v|p callee args IH|p c y n IHc IHy IHn|p op x IHx|p op a r IHa IHr|p k] using SourceExpr_induction; intros l Hb;
    cbn [preflight]; apply preflight_with_inspects; try (apply below_fresh, Hb); cbn [direct_kinds].
  - eapply inspects_weaken; [|apply (inspects_bind _ (fun _ => True) (fun _ => True)); [exact true_stable|apply inspects_lift|intros _ _; apply inspects_ret]]. cbn. auto.
  - apply inspects_call. rewrite Forall_forall in IH |- *. intros a Ha. apply IH; [exact Ha|]. apply below_child; [apply esize_argument, Ha|exact Hb].
  - assert (B : forall z, (esize z < esize (ESelect p c y n))%nat -> below z (ESelect p c y n :: l)) by (intros z Hz; apply below_child; [exact Hz|exact Hb]).
    apply inspects_bind; [apply known_stable|apply IHc, B; cbn; lia|]. intros kc _. apply inspects_bind; [apply known_stable|apply IHy, B; cbn; lia|]. intros ky _.
    eapply inspects_weaken; [|apply (inspects_bind _ (fun st => known st n) (fun _ => True)); [apply known_stable|apply IHn, B; cbn; lia|]]; [intros ? []; assumption|]. intros kn _.
    destruct (negb _); [apply inspects_fail|]. destruct (literal_condition c); apply inspects_ret.
  - eapply inspects_weaken; [|apply (inspects_bind _ (fun _ => True) (fun st => known st x)); [exact true_stable|apply inspects_lift|]]; [cbn [known]; intros ? []; assumption|].
    intros info _. eapply inspects_weaken; [|apply (inspects_bind _ (fun st => known st x) (fun _ => True)); [apply known_stable| |intros _ _; apply inspects_ret]]; [intros ? []; assumption|].
    apply inspects_operand, IHx, below_child; [cbn; lia|exact Hb].
  - eapply inspects_weaken; [|apply (inspects_bind _ (fun _ => True) (fun st => known st a /\ known st r)); [exact true_stable|apply inspects_lift|]]; [cbn [known]; intros ? []; assumption|].
    intros info _. apply inspects_bind; [apply known_stable|apply inspects_operand, IHa, below_child; [cbn; lia|exact Hb]|]. intros _ _.
    eapply inspects_weaken; [|apply (inspects_bind _ (fun st => known st r) (fun _ => True)); [apply known_stable| |intros _ _; apply inspects_ret]]; [intros ? []; assumption|].
    apply inspects_operand, IHr, below_child; [cbn; lia|exact Hb].
  - apply inspects_fail.
Qed.
End Inspection.

(** ** The evaluation *)

(** Binding looks at the kinds and names of the arguments only. *)
Definition same_shape {E F} (a : Argument E) (b : Argument F) : Prop := arg_kind a = arg_kind b /\ arg_name a = arg_name b.

Lemma bind_arguments_shape {E F} metadata (a : list (Argument E)) (b : list (Argument F)) : Forall2 same_shape a b ->
  forall next seen bound, bind_arguments metadata a next seen bound = bind_arguments metadata b next seen bound.
Proof.
  induction 1 as [|x y a b [Hk Hn] H IH]; intros next seen bound; [reflexivity|]. cbn [bind_arguments]. rewrite Hk, Hn.
  destruct (decide _).
  - destruct seen; [reflexivity|]. destruct (metadata !! next) as [p|]; [|reflexivity]. destruct (parameter_string "binding" p); [|reflexivity].
    destruct (decide _); [reflexivity|]. rewrite IH. reflexivity.
  - destruct (decide _); [|reflexivity]. destruct (arg_name y); [|reflexivity]. destruct (keyword_target _ _ _); [reflexivity|]. cbn [fbind]. rewrite IH. reflexivity.
Qed.

Lemma bindStatic_shape {E F} helper (a : list (Argument E)) (b : list (Argument F)) : Forall2 same_shape a b ->
  bindStaticRecordArguments helper a = bindStaticRecordArguments helper b.
Proof. intros H. unfold bindStaticRecordArguments. destruct (ac_parameters helper); [|reflexivity]. rewrite (bind_arguments_shape _ _ _ H). reflexivity. Qed.

Section Evaluates.
Context `{L : ApLib}.
Variable fuel : nat.
Variable file : option SourceFile.
(** The helpers that the inspection recorded. *)
Variable C : list (SourceExpr * FuncOp).
Hypothesis recorded : forall x h, memo x C = Some h ->
  exists p callee args, x = ECall p callee args /\ resolveSourceStaticRecordConstructor file callee = inr h.

Definition evaluated_ok (st : Evaluation) : Prop :=
  (forall x v, memo x (values st) = Some v -> direct_value fuel file x = Some (inr v)) /\ constructors st = C /\ activeConstructors st = [].

(** A step does what the walk does, from states with active expressions [l]. *)
Definition evaluates {A} (l : list SourceExpr) (m : Step A) (d : Run A) : Prop :=
  forall st, evaluated_ok st -> activeValues st = l ->
  match d with
  | None => m st = None
  | Some (inl message) => m st = Some (inl message)
  | Some (inr a) => exists st', m st = Some (inr (a, st')) /\ evaluated_ok st' /\ activeValues st' = l
  end.

Lemma evaluates_ret {A} l (a : A) : evaluates l (ret a) (rdone a).
Proof. intros st Hi Hl. exists st. auto. Qed.

Lemma evaluates_fail {A} l message : evaluates (A := A) l (sfail message) (rfail message).
Proof. intros st Hi Hl. reflexivity. Qed.

Lemma evaluates_lift {A} l (m : FailureOr A) : evaluates l (lift m) (Some m).
Proof. intros st Hi Hl. unfold lift. destruct m as [e|a]; [reflexivity|]. exists st. auto. Qed.

Lemma evaluates_bind {A B} l (m : Step A) (k : A -> Step B) d dk : evaluates l m d -> (forall a, evaluates l (k a) (dk a)) ->
  evaluates l (bind m k) (rbind d dk).
Proof.
  intros Hm Hk st Hi Hl. specialize (Hm st Hi Hl). unfold bind. destruct d as [[e|a]|]; [cbn; rewrite Hm; reflexivity| |cbn; rewrite Hm; reflexivity].
  destruct Hm as (st1 & -> & Hi1 & Hl1). exact (Hk a st1 Hi1 Hl1).
Qed.

Lemma evaluate_with_evaluates e l compute : e ∉ l -> evaluates (e :: l) compute (direct_value fuel file e) ->
  evaluates l (evaluate_with compute e) (direct_value fuel file e).
Proof.
  intros Hn Hc st Hi Hl. unfold evaluate_with. destruct (memo e (values st)) as [v|] eqn:Em; [rewrite (proj1 Hi e v Em); exists st; auto|].
  rewrite bool_decide_false by (rewrite Hl; exact Hn).
  specialize (Hc (mkEvaluation (kinds st) (values st) (constructors st) (activeKinds st) (e :: activeValues st) (activeConstructors st)) Hi ltac:(cbn; congruence)).
  destruct (direct_value fuel file e) as [[m|v]|] eqn:Ed; [rewrite Hc; reflexivity| |rewrite Hc; reflexivity].
  destruct Hc as (st1 & -> & (H1 & H2 & H3) & Hl1). cbn [rbind]. eexists. split; [reflexivity|]. split; [split; [|split; [exact H2|exact H3]]|].
  - cbn [values]. intros x v' Hx. rewrite memo_remember in Hx. destruct (memo x (values st1)) eqn:E0; [injection Hx as <-; apply H1, E0|].
    destruct (decide (e = x)) as [<-|]; [|discriminate]. injection Hx as <-. exact Ed.
  - cbn [activeValues]. rewrite Hl1. apply leave_head, Hn.
Qed.

Lemma select_evaluates l c y n dc dy dn : evaluates l c dc -> evaluates l y dy -> evaluates l n dn ->
  evaluates l (compute_select c y n) (direct_select dc dy dn).
Proof.
  intros Hc Hy Hn. apply evaluates_bind; [exact Hc|]. intros v. destruct v as [| | | | | | |fs| |]; try apply evaluates_fail.
  destruct (get_bool "value" fs) as [b|]; [|apply evaluates_fail]. case_bool_decide; [destruct b; assumption|apply evaluates_fail].
Qed.

Lemma operand_evaluates l x dx c : evaluates l x dx -> evaluates l (compute_operand x c) (direct_value_operand dx c).
Proof. intros H. apply evaluates_bind; [exact H|]. intros v. destruct (compatible _ c); [apply evaluates_ret|apply evaluates_fail]. Qed.

(** The same for an operand that may be missing. *)
Definition both_evaluate (l : list SourceExpr) (r : option (Step Attr)) (dr : option (Run Attr)) : Prop :=
  match r, dr with Some r, Some dr => evaluates l r dr | None, None => True | _, _ => False end.

Lemma operator_evaluates l op x dx r dr : evaluates l x dx -> both_evaluate l r dr ->
  evaluates l (compute_operator op x r) (direct_operator op dx dr).
Proof.
  intros Hx Hr. unfold compute_operator, direct_operator. destruct (parseValueOpcode op) as [o|]; [|apply evaluates_fail].
  apply evaluates_bind; [apply operand_evaluates, Hx|]. intros v.
  assert (Hrest : forall (r' : option (Step Attr)) dr', both_evaluate l r' dr' ->
    evaluates l
      match r' with
      | Some rhs => let# right_ := compute_operand rhs (constraint_at (getValueOpcodeInfo o) 1) in
          let# value := lift (evaluateValue o [operand_of v; operand_of right_]) in ret (wrap value)
      | None => let# value := lift (evaluateValue o [operand_of v]) in ret (wrap value)
      end
      match dr' with
      | Some rhs => let? right_ := direct_value_operand rhs (constraint_at (getValueOpcodeInfo o) 1) in
          let? value := Some (evaluateValue o [operand_of v; operand_of right_]) in rdone (wrap value)
      | None => let? value := Some (evaluateValue o [operand_of v]) in rdone (wrap value)
      end).
  { intros [r'|] [dr'|] H; try contradiction.
    - apply evaluates_bind; [apply operand_evaluates, H|]. intros w. apply evaluates_bind; [apply evaluates_lift|]. intros. apply evaluates_ret.
    - apply evaluates_bind; [apply evaluates_lift|]. intros. apply evaluates_ret. }
  assert (Hr' : both_evaluate l (if Nat.eqb (arity (getValueOpcodeInfo o)) 2 then r else None) (if Nat.eqb (arity (getValueOpcodeInfo o)) 2 then dr else None)) by (destruct (Nat.eqb _ 2); [exact Hr|exact I]).
  specialize (Hrest _ _ Hr'). destruct (evaluation (getValueOpcodeInfo o)); [exact Hrest| |];
    (destruct (operand_of v); [|apply evaluates_fail..]; destruct (short_circuits _ _); [apply evaluates_ret|exact Hrest]).
Qed.

(** Evaluation of the arguments, with the evaluator's state and without. *)
Lemma arguments_evaluate l (a : list (Argument (Step Attr))) (b : list (Argument (Run Attr))) :
  Forall2 (fun x y => evaluates l (arg_value x) (arg_value y)) a b -> forall mapping bound,
  evaluates l (evaluate_arguments (fun child => child) a mapping bound)
    (let? r := evaluate_arguments (fun child st => let? v := child in rdone (v, st)) b mapping bound tt in rdone (fst r)).
Proof.
  induction 1 as [|x y a b Hx H IH]; intros mapping bound; [intros st Hi Hl; exists st; auto|].
  destruct mapping as [|t mapping]; [intros st Hi Hl; exists st; auto|]. intros st Hi Hl. cbn [evaluate_arguments]. specialize (Hx st Hi Hl). unfold Step in Hx.
  destruct (arg_value y) as [[m|v]|]; cbn [rbind rdone fst snd]; [rewrite Hx; reflexivity| |rewrite Hx; reflexivity].
  destruct Hx as (st1 & -> & Hi1 & Hl1). cbn [rbind rdone fst snd]. apply IH; assumption.
Qed.

Lemma constructor_evaluates l helper a b :
  Forall2 (fun x y => evaluates l (arg_value x) (arg_value y)) a b -> Forall2 same_shape a b ->
  evaluates l (evaluateSourceStaticRecordConstructor fuel file activeConstructors set_activeConstructors (fun child => child) helper a)
    (let? r := evaluateSourceStaticRecordConstructor fuel file (fun _ : unit => []) (fun _ st => st) (fun child st => let? v := child in rdone (v, st)) helper b tt in
     rdone (fst r)).
Proof.
  intros Hab Hs st Hi Hl. unfold evaluateSourceStaticRecordConstructor. pose proof (bindStatic_shape helper a b Hs) as Hb. unfold Step in Hb. rewrite Hb.
  destruct (bindStaticRecordArguments helper b) as [m|mapping]; [reflexivity|]. cbn [rbind].
  destruct (ac_parameters helper) as [metadata|]; [|reflexivity]. destruct (ac_record helper) as [nominal|]; [|reflexivity].
  destruct (f_blocks helper) as [|body ?]; [reflexivity|].
  pose proof (arguments_evaluate l a b Hab mapping (replicate (length metadata) None) st Hi Hl) as Ha. unfold Step in Ha.
  destruct (evaluate_arguments _ b mapping _ tt) as [[m|[bound u]]|]; cbn [rbind rdone fst] in Ha; [rewrite Ha; reflexivity| |rewrite Ha; reflexivity].
  destruct Ha as (st1 & -> & Hi1 & Hl1). cbn [rbind]. destruct (negb _); [reflexivity|].
  destruct (check_bound fuel file metadata bound (f_inputs helper)) as [[m|vs]|]; [reflexivity| |reflexivity]. cbn [rbind].
  destruct (negb _); [reflexivity|]. destruct (resolveSourceRecord file nominal); [reflexivity|]. cbn [rbind]. destruct (negb _); [reflexivity|].
  destruct Hi1 as (H1 & H2 & H3). rewrite H3. case_bool_decide as Hin; [apply elem_of_nil in Hin; contradiction|].
  destruct (run_body fuel file nominal (block_operations body) _) as [[m|data]|]; [reflexivity| |reflexivity]. cbn [rbind rdone fst].
  eexists. split; [reflexivity|]. split; [|exact Hl1]. split; [exact H1|]. split; [exact H2|]. exact (erase_head (sym_name helper) [] Hin).
Qed.

Lemma evaluate_evaluates st0 e : constructors st0 = C -> forall l, below e l -> known st0 e ->
  evaluates l (evaluate fuel file e) (direct_value fuel file e).
Proof.
  intros HC. induction e as [p v|p callee args IH|p c y n IHc IHy IHn|p op x IHx|p op a r IHa IHr|p k] using SourceExpr_induction; intros l Hb Hk;
    cbn [evaluate]; apply evaluate_with_evaluates; try (apply below_fresh, Hb); cbn [direct_value].
  - apply evaluates_ret.
  - cbn [known] in Hk. rewrite known_arguments in Hk. destruct Hk as [[h Hh] Ha]. rewrite HC in Hh. destruct (recorded _ _ Hh) as (p' & callee' & args' & [= <- <- <-] & Hr).
    intros st Hi Hl. unfold compute_call. rewrite (proj1 (proj2 Hi)), Hh. unfold direct_constructor. rewrite Hr. cbn [rbind].
    apply (constructor_evaluates (ECall p callee args :: l)); [| |exact Hi|exact Hl].
    + apply Forall2_fmap, Forall2_same_length_lookup_2; [reflexivity|]. intros i a a' Ha1 Ha2. rewrite Ha1 in Ha2. injection Ha2 as <-. cbn [arg_value].
      rewrite Forall_forall in IH, Ha. apply list_elem_of_lookup_2 in Ha1. apply IH; [exact Ha1| |apply Ha, Ha1].
      apply below_child; [apply esize_argument, Ha1|exact Hb].
    + apply Forall2_fmap, Forall2_same_length_lookup_2; [reflexivity|]. intros i a a' Ha1 Ha2. rewrite Ha1 in Ha2. injection Ha2 as <-. split; reflexivity.
  - destruct Hk as (Hkc & Hky & Hkn). apply select_evaluates; [apply IHc|apply IHy|apply IHn]; try assumption; (apply below_child; [cbn; lia|exact Hb]).
  - apply operator_evaluates; [|exact I]. apply IHx; [apply below_child; [cbn; lia|exact Hb]|exact Hk].
  - destruct Hk as (Hka & Hkr). apply operator_evaluates; [apply IHa|apply IHr]; try assumption; (apply below_child; [cbn; lia|exact Hb]).
  - apply evaluates_fail.
Qed.
End Evaluates.

(** The evaluator is the plain walk. *)
Lemma evaluation_direct `{L : ApLib} fuel file e : evaluateSourceStaticExpr fuel file e = (let? _ := Some (direct_kinds file e) in direct_value fuel file e).
Proof.
  unfold evaluateSourceStaticExpr.
  assert (H0 : inspected_ok file fresh_evaluation) by (split; intros x ?; discriminate).
  pose proof (preflight_inspects file e [] (List.Forall_nil _) fresh_evaluation H0 eq_refl) as Hp.
  destruct (direct_kinds file e) as [m|K]; [rewrite Hp; reflexivity|]. destruct Hp as (st & -> & [Hi1 Hi2] & (_ & E1 & E2 & E3 & _) & Hk). cbn [rbind fst snd].
  assert (He : evaluated_ok fuel file (constructors st) st) by (split; [intros x v; rewrite E1; discriminate|split; [reflexivity|exact E3]]).
  pose proof (evaluate_evaluates fuel file (constructors st) Hi2 st e eq_refl [] (List.Forall_nil _) Hk st He E2) as Hv.
  destruct (direct_value fuel file e) as [[m|v]|]; [rewrite Hv; reflexivity| |rewrite Hv; reflexivity]. destruct Hv as (st' & -> & _). reflexivity.
Qed.

(** ** Values and operands *)

Lemma operand_wrap r : r <> OtherAttr -> operand_of (wrap r) = r.
Proof. destruct r; [reflexivity|reflexivity|congruence]. Qed.

(** The kind of operand a constraint admits. *)
Definition admits (c : ValueKindConstraint) (a : Attribute) : Prop :=
  match a with BoolAttr _ => c <> OnlyInteger | MathIntAttr _ => c <> OnlyBoolean | OtherAttr => False end.

Lemma compatible_wrap c r : compatible [valueKind (wrap r)] c = true <-> match r with OtherAttr => c <> OnlyBoolean | _ => admits c r end.
Proof. destruct r, c; cbn; split; intros H; (reflexivity || discriminate || congruence). Qed.

Section Values.
Context `{L : ApLib}.

Lemma decode_admits info ops : forall n l, decode_operands info n ops = inr l -> forall i a, ops !! i = Some a -> admits (constraint_at info (n + i)) a.
Proof.
  induction ops as [|x ops IH]; intros n l H i a Hi; [rewrite lookup_nil in Hi; discriminate|]. cbn [decode_operands] in H.
  assert (Hrest : forall l', decode_operands info (S n) ops = inr l' -> forall j b, ops !! j = Some b -> admits (constraint_at info (n + S j)) b).
  { intros l' H' j b Hj. replace (n + S j)%nat with (S n + j)%nat by lia. exact (IH (S n) l' H' j b Hj). }
  destruct x as [b|s|]; [| |discriminate]; (revert H; case_bool_decide as Ec; intros H; [discriminate|]).
  - destruct i as [|i]; [injection Hi as <-; rewrite Nat.add_0_r; exact Ec|exact (Hrest l H i a Hi)].
  - apply fbind_inr in H as (d & _ & H). apply fbind_inr in H as (m & Em & _). destruct i as [|i]; [injection Hi as <-; rewrite Nat.add_0_r; exact Ec|exact (Hrest m Em i a Hi)].
Qed.

Lemma evaluateValue_admits o ops r : evaluateValue o ops = inr r -> forall i a, ops !! i = Some a -> admits (constraint_at (opcodeInfo o) i) a.
Proof.
  unfold evaluateValue. destruct (negb _); [discriminate|]. intros H. apply fbind_inr in H as (l & El & _). exact (decode_admits _ _ 0 l El).
Qed.

Lemma evaluateValue_arity o ops r : evaluateValue o ops = inr r -> length ops = arity (opcodeInfo o).
Proof. unfold evaluateValue. destruct (Nat.eqb_spec (length ops) (arity (opcodeInfo o))); [auto|discriminate]. Qed.

Lemma admitted_compatible c a : admits c a -> compatible [valueKind (wrap a)] c = true.
Proof. intros H. apply compatible_wrap. destruct a; [exact H|exact H|contradiction]. Qed.

(** ** Agreement with the analysis *)

(** The expressions that both evaluators know. *)
Fixpoint embed (e : StaticExpr) : SourceExpr :=
  match e with
  | Reference p _ _ => EDeferred p "reference"
  | Literal p value => ELiteral p (wrap value)
  | TypeWidth p _ => EDeferred p "type_width"
  | Select p c y n => ESelect p (embed c) (embed y) (embed n)
  | Unary p op x => EUnary p op (embed x)
  | Binary p op l r => EBinary p op (embed l) (embed r)
  | Unresolved p kind => EDeferred p kind
  end.

Lemma substitute_nothing e : substitute no_bindings e = e.
Proof. induction e; cbn [substitute]; try congruence. reflexivity. Qed.

Lemma no_bindings_closed : closed no_bindings.
Proof. intros name v H. unfold no_bindings in H. cbn in H. rewrite lookup_empty in H. discriminate. Qed.

Variable package : Package.
Variable fuel : nat.
Variable file : option SourceFile.
#[local] Abbreviation direct_value := (direct_value fuel file).
#[local] Abbreviation direct_kinds := (direct_kinds file).

(** The two evaluations of one expression succeed together, on one value. *)
Definition agree (e : StaticExpr) (depth : nat) (stack : Stack) : Prop := forall v,
  direct_value (embed e) = Some (inr v) <->
  exists r, evaluateStatic package depth stack no_bindings e = Some (inr r) /\ v = wrap r /\ r <> OtherAttr.

Lemma direct_operand_inr d c : direct_operand d c = inr tt -> exists K, d = inr K.
Proof. unfold direct_operand. intros H. apply fbind_inr in H as (K & -> & _). eauto. Qed.

Context {HL : ApLaws L}.

Lemma evaluateValue_not_other o ops r : evaluateValue o ops = inr r -> r <> OtherAttr.
Proof. intros H. destruct (evaluateValue_sound o ops r H) as (vs & v & _ & _ & ->). destruct v; discriminate. Qed.

Lemma inspect_operator_inr op n info : inspect_operator op n = inr info -> exists o, parseValueOpcode op = Some o /\ info = opcodeInfo o /\ arity (opcodeInfo o) = n.
Proof.
  unfold inspect_operator. destruct (parseValueOpcode op) as [o|]; [|discriminate]. destruct (Nat.eqb_spec (arity (getValueOpcodeInfo o)) n); [|discriminate].
  intros [= <-]. exists o. auto.
Qed.

(** One-operand operators are strict. *)
Lemma unary_is_strict o : arity (opcodeInfo o) = 1%nat -> evaluation (opcodeInfo o) = Strict.
Proof. destruct o; cbn; congruence. Qed.

(** Two results of one expression. *)
Definition same_result (d : Run Attr) (h : Run Attribute) : Prop := forall v,
  d = Some (inr v) <-> exists r, h = Some (inr r) /\ v = wrap r /\ r <> OtherAttr.

Lemma operand_agree d h c v : same_result d h -> direct_value_operand d c = Some (inr v) <->
  exists r, h = Some (inr r) /\ v = wrap r /\ r <> OtherAttr /\ admits c r.
Proof.
  intros Hd. unfold direct_value_operand. split.
  - intros H. apply rbind_inr in H as (x & Ex & H). destruct (compatible [valueKind x] c) eqn:Ec; [|discriminate]. injection H as <-.
    apply Hd in Ex as (r & Er & -> & Hr). exists r. repeat split; try assumption. apply compatible_wrap in Ec. destruct r; [exact Ec|exact Ec|congruence].
  - intros (r & Er & -> & Hr & Hc). rewrite (proj2 (Hd (wrap r))) by eauto. cbn [rbind]. rewrite (admitted_compatible _ _ Hc). reflexivity.
Qed.

Lemma binary_agree op o dl dr hl hr : parseValueOpcode op = Some o -> arity (opcodeInfo o) = 2%nat -> same_result dl hl -> same_result dr hr ->
  same_result (direct_operator op dl (Some dr))
    (let? lhs := hl in after_first (strictness o) lhs (let? rhs := hr in Some (evaluateValue o [lhs; rhs]))).
Proof.
  intros Eo Har Hl Hr v. unfold direct_operator. rewrite Eo. change (getValueOpcodeInfo o) with (opcodeInfo o). rewrite Har. cbn [Nat.eqb]. unfold strictness.
  assert (Hrest : forall rl, rl <> OtherAttr -> admits (constraint_at (opcodeInfo o) 0) rl ->
    same_result (let? right_ := direct_value_operand dr (constraint_at (opcodeInfo o) 1) in
       let? value := Some (evaluateValue o [rl; operand_of right_]) in rdone (wrap value))
      (let? rhs := hr in Some (evaluateValue o [rl; rhs]))).
  { intros rl Hrl _ w. split.
    - intros H. apply rbind_inr in H as (rv & Erv & H). apply (operand_agree _ _ _ _ Hr) in Erv as (rr & -> & -> & Hrr & _). rewrite (operand_wrap rr Hrr) in H.
      apply rbind_inr in H as (x & Ex & [= <-]). exists x. split; [exact Ex|]. split; [reflexivity|]. injection Ex as Ex. exact (evaluateValue_not_other _ _ _ Ex).
    - intros (x & Ex & -> & Hx). apply rbind_inr in Ex as (rr & Err & Ex). injection Ex as Ex.
      pose proof (evaluateValue_admits o _ x Ex 1%nat rr eq_refl) as Hadm. assert (Hrr : rr <> OtherAttr) by (intros ->; exact Hadm).
      rewrite (proj2 (operand_agree _ _ _ (wrap rr) Hr)) by eauto. cbn [rbind]. rewrite (operand_wrap rr Hrr), Ex. reflexivity. }
  split.
  - intros H. apply rbind_inr in H as (lv & Elv & H). apply (operand_agree _ _ _ _ Hl) in Elv as (rl & -> & -> & Hrl & Hadm). cbn [rbind].
    specialize (Hrest rl Hrl Hadm). unfold after_first. rewrite (operand_wrap rl Hrl) in H. destruct (evaluation (opcodeInfo o)) eqn:Ev; [apply Hrest in H; exact H| |];
      (destruct rl as [b| |]; try discriminate; destruct (short_circuits _ b); [injection H as <-; exists (BoolAttr b); auto|apply Hrest in H; exact H]).
  - intros (x & Ex & -> & Hx). apply rbind_inr in Ex as (rl & Erl & Ex). assert (Hadm : admits (constraint_at (opcodeInfo o) 0) rl).
    { unfold after_first in Ex. destruct (evaluation (opcodeInfo o)) eqn:Ev.
      - apply rbind_inr in Ex as (rr & _ & Ex). injection Ex as Ex. exact (evaluateValue_admits o _ x Ex 0%nat rl eq_refl).
      - destruct rl as [b| |]; try discriminate. destruct o; cbn in Ev |- *; discriminate.
      - destruct rl as [b| |]; try discriminate. destruct o; cbn in Ev |- *; discriminate. }
    assert (Hrl : rl <> OtherAttr) by (intros ->; exact Hadm). rewrite (proj2 (operand_agree _ _ _ (wrap rl) Hl)) by eauto. cbn [rbind].
    specialize (Hrest rl Hrl Hadm). unfold after_first in Ex. rewrite (operand_wrap rl Hrl).
    destruct (evaluation (opcodeInfo o)) eqn:Ev; [apply Hrest; eauto| |];
      (destruct rl as [b| |]; try discriminate; destruct (short_circuits _ b); [injection Ex as <-; reflexivity|apply Hrest; eauto]).
Qed.

Lemma evaluators_agree_at e : forall K depth stack, direct_kinds (embed e) = inr K -> (expr_size e <= depth)%nat -> HardwareAnalysisSpec.above stack e -> agree e depth stack.
Proof.
  pose proof no_bindings_closed as Hc.
  induction e as [p owner name|p a|p t|p c IHc y IHy n IHn|p op x IHx|p op l IHl r IHr|p k]; intros K depth stack HK Hd Ha v; cbn [embed] in *; try discriminate HK;
    (destruct depth as [|depth]; [cbn in Hd; lia|]); rewrite evaluateStatic_S, substitute_nothing, bool_decide_eq_false_2
      by (rewrite <- (substitute_nothing (_ : StaticExpr)) at 1; apply above_fresh; assumption); cbn [evaluate_node].
  - cbn [SourceEvaluationSpec.direct_kinds] in HK. apply fbind_inr in HK as ([] & Hs & _). cbn [SourceEvaluationSpec.direct_value]. split.
    + intros [= <-]. exists a. destruct a; [split; [reflexivity|]; split; [reflexivity|discriminate]..|discriminate].
    + intros (r & Er & -> & _). destruct a; [injection Er as <-; reflexivity|injection Er as <-; reflexivity|discriminate].
  - cbn [SourceEvaluationSpec.direct_kinds] in HK. apply fbind_inr in HK as (Kc & Hkc & HK). apply fbind_inr in HK as (Ky & Hky & HK). apply fbind_inr in HK as (Kn & Hkn & _).
    assert (Hab : forall z, (expr_size z < expr_size (Select p c y n))%nat -> HardwareAnalysisSpec.above ((Select p c y n, b_owner no_bindings) :: stack) z).
    { intros z Hz. pose proof (above_child no_bindings stack (Select p c y n) z Hc Ha Hz) as H. rewrite substitute_nothing in H. exact H. }
    cbn [expr_size] in Hd. pose proof (IHc Kc depth _ Hkc ltac:(lia) (Hab c ltac:(cbn; lia))) as Ac. pose proof (IHy Ky depth _ Hky ltac:(lia) (Hab y ltac:(cbn; lia))) as Ay.
    pose proof (IHn Kn depth _ Hkn ltac:(lia) (Hab n ltac:(cbn; lia))) as An. cbn [SourceEvaluationSpec.direct_value]. unfold direct_select. split.
    + intros H. apply rbind_inr in H as (cv & Ec & H). apply Ac in Ec as (rc & -> & -> & Hrc). cbn [rbind]. destruct rc as [b|s|]; [|discriminate|congruence].
      cbn in H. rewrite bool_decide_true in H by reflexivity. destruct b; [apply Ay in H|apply An in H]; exact H.
    + intros (r & Er & -> & Hr). apply rbind_inr in Er as (rc & Ec & Er). destruct rc as [b|s|]; try discriminate.
      rewrite (proj2 (Ac (wrap (BoolAttr b)))); [|exists (BoolAttr b); split; [exact Ec|]; split; [reflexivity|discriminate]]. cbn [rbind wrap].
      cbn. rewrite bool_decide_true by reflexivity. destruct b; [apply Ay|apply An]; eauto.
  - cbn [SourceEvaluationSpec.direct_kinds] in HK. apply fbind_inr in HK as (info & Hinfo & HK). apply inspect_operator_inr in Hinfo as (o & Eo & -> & Har).
    apply fbind_inr in HK as ([] & Hx & _). apply direct_operand_inr in Hx as [Kx Hkx].
    assert (Hab : HardwareAnalysisSpec.above ((Unary p op x, b_owner no_bindings) :: stack) x).
    { pose proof (above_child no_bindings stack (Unary p op x) x Hc Ha ltac:(cbn; lia)) as H. rewrite substitute_nothing in H. exact H. }
    cbn [expr_size] in Hd. pose proof (IHx Kx depth _ Hkx ltac:(lia) Hab) as Ax. cbn [SourceEvaluationSpec.direct_value]. unfold direct_operator. rewrite Eo.
    change (getValueOpcodeInfo o) with (opcodeInfo o). unfold strictness. rewrite Har, (unary_is_strict o Har). cbn [Nat.eqb after_first]. split.
    + intros H. apply rbind_inr in H as (xv & Ex & H). unfold direct_value_operand in Ex. apply rbind_inr in Ex as (xv' & Ex & Hcmp).
      destruct (compatible _ _); [|discriminate]. injection Hcmp as <-. apply Ax in Ex as (rx & -> & -> & Hrx). rewrite (operand_wrap rx Hrx) in H. cbn [rbind].
      apply rbind_inr in H as (r & Er & [= <-]). exists r. split; [exact Er|]. split; [reflexivity|]. injection Er as Er. exact (evaluateValue_not_other _ _ _ Er).
    + intros (r & Er & -> & Hr). apply rbind_inr in Er as (rx & Ex & Er). injection Er as Er. assert (Hrx : rx <> OtherAttr).
      { intros ->. exact (evaluateValue_admits o _ r Er 0 OtherAttr eq_refl). }
      unfold direct_value_operand. rewrite (proj2 (Ax (wrap rx))) by eauto. cbn [rbind].
      rewrite (admitted_compatible _ _ (evaluateValue_admits o [rx] r Er 0%nat rx eq_refl)). cbn [rbind rdone]. rewrite (operand_wrap rx Hrx), Er. reflexivity.
  - cbn [SourceEvaluationSpec.direct_kinds] in HK. apply fbind_inr in HK as (info & Hinfo & HK). apply inspect_operator_inr in Hinfo as (o & Eo & -> & Har).
    apply fbind_inr in HK as ([] & Hl & HK). apply direct_operand_inr in Hl as [Kl Hkl]. apply fbind_inr in HK as ([] & Hr & _). apply direct_operand_inr in Hr as [Kr Hkr].
    assert (Hab : forall z, (expr_size z < expr_size (Binary p op l r))%nat -> HardwareAnalysisSpec.above ((Binary p op l r, b_owner no_bindings) :: stack) z).
    { intros z Hz. pose proof (above_child no_bindings stack (Binary p op l r) z Hc Ha Hz) as H. rewrite substitute_nothing in H. exact H. }
    cbn [expr_size] in Hd. pose proof (IHl Kl depth _ Hkl ltac:(lia) (Hab l ltac:(cbn; lia))) as Al. pose proof (IHr Kr depth _ Hkr ltac:(lia) (Hab r ltac:(cbn; lia))) as Ar.
    cbn [SourceEvaluationSpec.direct_value]. rewrite Eo. apply (binary_agree op o _ _ _ _ Eo Har Al Ar).
Qed.
End Values.

(** ** Kinds *)

Section Kinds.
Context `{L : ApLib} {HL : ApLaws L}.
Variable fuel : nat.
Variable file : option SourceFile.

Lemma join_kinds_spec yes no k : k ∈ join_kinds yes no <-> k ∈ yes \/ k ∈ no.
Proof.
  unfold join_kinds. revert yes. induction no as [|x no IH]; intros yes; cbn [foldl]; [split; [auto|intros [H|H]; [exact H|apply elem_of_nil in H; contradiction]]|].
  rewrite IH, elem_of_cons. case_bool_decide as Hx; [|rewrite elem_of_app, elem_of_cons, elem_of_nil; tauto].
  split; [tauto|]. intros [H|[-> |H]]; auto.
Qed.

(** The kind of a result. *)
Lemma evaluateValue_kind o ops r : evaluateValue o ops = inr r -> valueKind (wrap r) = result_kind (opcodeInfo o) /\ verifyStaticValueStructure (wrap r) = inr tt.
Proof.
  intros H. destruct (evaluateValue_sound o ops r H) as (vs & v & _ & Hv & ->). split; [|destruct v; reflexivity].
  assert (Hk : match v with VBool _ => info_result (opcodeInfo o) = KindBoolean | VInt _ => info_result (opcodeInfo o) = KindInteger end).
  { destruct vs as [|[a|a] [|[b|b] [|? ?]]]; destruct o; cbn in Hv; try discriminate; try (injection Hv as <-; reflexivity);
      (match type of Hv with (if ?c then _ else _) = _ => destruct c end; [discriminate|injection Hv as <-; reflexivity]). }
  destruct v; unfold result_kind; rewrite Hk; reflexivity.
Qed.

Lemma resolve_record callee h : resolveSourceStaticRecordConstructor file callee = inr h -> exists nominal, ac_record h = Some nominal.
Proof.
  unfold resolveSourceStaticRecordConstructor. destruct callee as [c|]; [|discriminate]. destruct (file ≫= _) as [[|helper|]|]; try discriminate.
  destruct (ac_helper_kind helper); [|discriminate]. destruct (ac_record helper) as [nominal|] eqn:En; [|discriminate].
  destruct (ac_parameters helper); [|discriminate]. destruct (f_blocks helper) as [|body [|]]; try discriminate. 
  destruct (negb _); [discriminate|]. destruct (_ || _); [discriminate|]. destruct (negb _); [discriminate|].
  destruct (resolveSourceRecord file nominal); [discriminate|]. intros H. apply fbind_inr in H as (? & _ & [= <-]). eauto.
Qed.

Lemma typed_kind v s : typed file v (record_type s) -> valueKind v = mkKind PackedRecord (Some s).
Proof.
  intros (Hs & _ & sv & ty & Hv & Ht & Hh). injection Ht as <-. inversion Hh as [| | |s' values types tys Hf Htys Hall|]; subst.
  destruct v as [| | | | | | |fs| |]; try discriminate Hs. pose proof (value_inv _ _ Hs Hv) as (Hk & Hsym & _). cbn [valueKind]. rewrite Hk, Hsym.
  kinds. reflexivity.
Qed.

Lemma constructor_kind callee args v h : resolveSourceStaticRecordConstructor file callee = inr h -> direct_constructor fuel file callee args = Some (inr v) ->
  verifyStaticValueStructure v = inr tt /\ valueKind v = mkKind PackedRecord (ac_record h).
Proof.
  intros Hh H. unfold direct_constructor in H. rewrite Hh in H. cbn [rbind] in H. apply rbind_inr in H as ((data & u) & Ed & [= <-]). cbn [fst].
  destruct (resolve_record _ _ Hh) as [nominal En]. pose proof (constructor_typed fuel file _ _ _ h nominal _ _ _ _ En Ed) as Ht. rewrite En.
  split; [apply Ht|apply typed_kind, Ht].
Qed.

Lemma boolean_kind v c : c = OnlyBoolean -> compatible [valueKind v] c = true -> kind_of (valueKind v) = PackedBoolean.
Proof. intros ->. unfold compatible. cbn [existsb]. rewrite orb_false_r. case_bool_decide; [auto|]. rewrite andb_false_r. discriminate. Qed.

Lemma valueKind_boolean v : kind_of (valueKind v) = PackedBoolean -> valueKind v = mkKind PackedBoolean None.
Proof. destruct v; cbn; try discriminate. repeat case_decide; cbn; (discriminate || reflexivity). Qed.

Lemma operator_kind op o dl r v : parseValueOpcode op = Some o -> (forall x, dl = Some (inr x) -> verifyStaticValueStructure x = inr tt) ->
  direct_operator op dl r = Some (inr v) -> verifyStaticValueStructure v = inr tt /\ valueKind v = result_kind (opcodeInfo o).
Proof.
  intros Eo Hl H. unfold direct_operator in H. rewrite Eo in H. apply rbind_inr in H as (x & Ex & H). unfold direct_value_operand in Ex.
  apply rbind_inr in Ex as (x' & Ex & Hc). destruct (compatible [valueKind x'] _) eqn:Ec; [|discriminate]. injection Hc as <-.
  change (getValueOpcodeInfo o) with (opcodeInfo o) in *.
  assert (Hrest : forall r' : option (Run Attr), match r' with
      | Some rhs => let? right_ := direct_value_operand rhs (constraint_at (opcodeInfo o) 1) in
          let? value := Some (evaluateValue o [operand_of x'; operand_of right_]) in rdone (wrap value)
      | None => let? value := Some (evaluateValue o [operand_of x']) in rdone (wrap value) end = Some (inr v) ->
    verifyStaticValueStructure v = inr tt /\ valueKind v = result_kind (opcodeInfo o)).
  { intros [rhs|] H'; [apply rbind_inr in H' as (y & _ & H')|]; apply rbind_inr in H' as (w & Ew & [= <-]); injection Ew as Ew;
      apply evaluateValue_kind in Ew as [E1 E2]; auto. }
  destruct (evaluation (opcodeInfo o)) eqn:Ev; [exact (Hrest _ H)| |];
    (destruct (operand_of x') as [b| |]; try discriminate; destruct (short_circuits _ b); [|exact (Hrest _ H)]; injection H as <-;
     split; [apply Hl, Ex|]; destruct o; try discriminate Ev; cbn [opcodeInfo constraint_at] in Ec; apply boolean_kind in Ec; [|reflexivity];
     apply valueKind_boolean in Ec; rewrite Ec; reflexivity).
Qed.

(** The value is well formed and its kind was foreseen. *)
Lemma kinds_sound e : forall K v, direct_kinds file e = inr K -> direct_value fuel file e = Some (inr v) ->
  verifyStaticValueStructure v = inr tt /\ valueKind v ∈ K.
Proof.
  induction e as [p a|p callee args IH|p c y n IHc IHy IHn|p op x IHx|p op l r IHl IHr|p k] using SourceExpr_induction; intros K v HK Hv;
    cbn [direct_kinds direct_value] in HK, Hv; [| | | | |discriminate].
  - apply fbind_inr in HK as ([] & Hs & [= <-]). injection Hv as <-. split; [exact Hs|left].
  - unfold direct_call in HK. destruct callee as [c|]; [|discriminate]. apply fbind_inr in HK as (h & Hh & HK). apply fbind_inr in HK as (m & _ & HK).
    destruct (ac_parameters h); [|discriminate]. apply fbind_inr in HK as (? & _ & HK). apply fbind_inr in HK as (? & _ & [= <-]).
    destruct (constructor_kind _ _ _ _ Hh Hv) as [Hs Hk]. split; [exact Hs|rewrite Hk; left].
  - apply fbind_inr in HK as (Kc & Hkc & HK). apply fbind_inr in HK as (Ky & Hky & HK). apply fbind_inr in HK as (Kn & Hkn & HK).
    destruct (negb _); [discriminate|]. injection HK as <-. apply rbind_inr in Hv as (cv & Ecv & Hv). destruct cv as [| | | | | | |fs| |]; try discriminate.
    destruct (get_bool "value" fs) as [b|] eqn:Eb; [|discriminate]. case_bool_decide as Ek; [|discriminate].
    assert (Hlit : forall b', literal_condition c = Some b' -> b' = b).
    { intros b' Hl. destruct c as [p' [| | | | | | |fs'| |]| | | | |]; try discriminate Hl. injection Ecv as ->. cbn in Hl. congruence. }
    assert (Hbr : verifyStaticValueStructure v = inr tt /\ valueKind v ∈ (if b then Ky else Kn)) by (destruct b; [exact (IHy _ _ Hky Hv)|exact (IHn _ _ Hkn Hv)]).
    destruct Hbr as [Hs Hin]. split; [exact Hs|]. destruct (literal_condition c) as [b'|]; [rewrite (Hlit b' eq_refl); destruct b; exact Hin|].
    apply join_kinds_spec. destruct b; auto.
  - apply fbind_inr in HK as (info & Hinfo & HK). apply inspect_operator_inr in Hinfo as (o & Eo & -> & Har). apply fbind_inr in HK as ([] & Hx & [= <-]).
    apply direct_operand_inr in Hx as [Kx Hkx]. destruct (operator_kind op o _ _ v Eo (fun z Hz => proj1 (IHx _ _ Hkx Hz)) Hv) as [Hs Hk].
    split; [exact Hs|rewrite Hk; left].
  - apply fbind_inr in HK as (info & Hinfo & HK). apply inspect_operator_inr in Hinfo as (o & Eo & -> & Har). apply fbind_inr in HK as ([] & Hx & HK).
    apply fbind_inr in HK as ([] & _ & [= <-]).
    apply direct_operand_inr in Hx as [Kx Hkx]. destruct (operator_kind op o _ _ v Eo (fun z Hz => proj1 (IHl _ _ Hkx Hz)) Hv) as [Hs Hk].
    split; [exact Hs|rewrite Hk; left].
Qed.

(** With fuel for the declared records the evaluation returns. *)
Lemma direct_value_returns e : (length (declared_names file) < fuel)%nat -> direct_value fuel file e <> None.
Proof.
  intros Hf. assert (Hop : forall op dl dr, dl <> None -> (forall d, dr = Some d -> d <> None) -> direct_operator op dl dr <> None).
  { intros op dl dr Hl Hr. unfold direct_operator. destruct (parseValueOpcode op) as [o|]; [|discriminate].
    assert (Hv : forall d c, d <> None -> direct_value_operand d c <> None).
    { intros d c Hd. apply rbind_returns; [exact Hd|]. intros a _. destruct (compatible _ c); discriminate. }
    apply rbind_returns; [apply Hv, Hl|]. intros x _.
    assert (Hrest : forall r' : option (Run Attr), (forall d, r' = Some d -> d <> None) -> match r' with
      | Some rhs => let? right_ := direct_value_operand rhs (constraint_at (getValueOpcodeInfo o) 1) in
          let? value := Some (evaluateValue o [operand_of x; operand_of right_]) in rdone (wrap value)
      | None => let? value := Some (evaluateValue o [operand_of x]) in rdone (wrap value) end <> None).
    { intros [d|] Hd; [apply rbind_returns; [apply Hv, Hd; reflexivity|intros y _]|]; (apply rbind_returns; discriminate). }
    assert (Hr' : forall d, (if Nat.eqb (arity (getValueOpcodeInfo o)) 2 then dr else None) = Some d -> d <> None) by (intros d; destruct (Nat.eqb _ 2); [apply Hr|discriminate]).
    specialize (Hrest _ Hr'). destruct (evaluation (getValueOpcodeInfo o)); [exact Hrest| |];
      (destruct (operand_of x); try discriminate; destruct (short_circuits _ _); [discriminate|exact Hrest]). }
  induction e as [p a|p callee args IH|p c y n IHc IHy IHn|p op x IHx|p op l r IHl IHr|p k] using SourceExpr_induction; cbn [direct_value]; try discriminate.
  - apply rbind_returns; [discriminate|]. intros h _. apply rbind_returns; [|discriminate]. apply constructor_returns; [exact Hf|].
    intros a st Hin. apply list_elem_of_fmap in Hin as (a' & -> & Hin). cbn [arg_value]. rewrite Forall_forall in IH. apply rbind_returns; [apply IH, Hin|discriminate].
  - apply rbind_returns; [exact IHc|]. intros v _. repeat case_match; (discriminate || assumption).
  - apply Hop; [exact IHx|discriminate].
  - apply Hop; [exact IHl|]. intros d [= <-]. exact IHr.
Qed.
End Kinds.

(** ** Theorems *)

(** C29: The evaluation of a static expression is the plain recursive walk: its
    two memos, its guards against cycles and against recursive constructors
    and its recorded helpers never change an answer.  A value is well formed
    and of a kind that the inspection foresaw, and with fuel for the declared
    records the evaluation returns. *)
Theorem source_evaluation_exact `{L : ApLib} {HL : ApLaws L} (fuel : nat) (file : option SourceFile) (e : SourceExpr) :
  evaluateSourceStaticExpr fuel file e = (let? _ := Some (direct_kinds file e) in direct_value fuel file e) /\
  (forall v, evaluateSourceStaticExpr fuel file e = Some (inr v) ->
     verifyStaticValueStructure v = inr tt /\ exists K, direct_kinds file e = inr K /\ valueKind v ∈ K) /\
  ((length (declared_names file) < fuel)%nat -> evaluateSourceStaticExpr fuel file e <> None).
Proof.
  rewrite evaluation_direct. split; [reflexivity|]. split.
  - intros v H. apply rbind_inr in H as (K & EK & H). injection EK as EK. destruct (kinds_sound fuel file e K v EK H) as [Hs Hk]. eauto.
  - intros Hf. apply rbind_returns; [discriminate|]. intros K _. apply direct_value_returns, Hf.
Qed.

(** The two evaluators of the compiler agree.  On an expression of
    literals, operators and conditionals that passes the inspection, the
    evaluation of source constants succeeds exactly when the analysis of
    hardware types does, with the same value, whatever the unit, the package
    and the depth of calls, once the depth reaches the size of the
    expression. *)
Theorem evaluators_agree `{L : ApLib} {HL : ApLaws L} (fuel depth : nat) (file : option SourceFile) (package : Package) (e : StaticExpr) (K : KindSet) :
  direct_kinds file (embed e) = inr K -> (expr_size e <= depth)%nat -> forall v,
  evaluateSourceStaticExpr fuel file (embed e) = Some (inr v) <->
  exists r, evaluateStatic package depth [] no_bindings e = Some (inr r) /\ v = wrap r /\ r <> OtherAttr.
Proof.
  intros HK Hd v. rewrite evaluation_direct, HK. cbn [rbind]. apply (evaluators_agree_at package fuel file e K depth [] HK Hd). constructor.
Qed.

Module EvaluationWitness.
Import StaticWitness ConstructorWitness.
Definition num (s : list Z) : SourceExpr := ELiteral 1%positive (digit s).
Definition guarded_sum : StaticExpr :=
  Select 1%positive (Binary 1%positive "lt" (Literal 1%positive (MathIntAttr [50])) (Literal 1%positive (MathIntAttr [51])))
    (Binary 1%positive "add" (Literal 1%positive (MathIntAttr [50])) (Literal 1%positive (MathIntAttr [51])))
    (Binary 1%positive "floordiv" (Literal 1%positive (MathIntAttr [50])) (Literal 1%positive (MathIntAttr [48]))).
(** [make_pair(2 + 3 if 2 < 3 else 2 // 0)] *)
Definition call : SourceExpr := ECall 2%positive (Some "make_pair") [by_pos (embed guarded_sum)].

Lemma source_evaluation_exact_witness :
  evaluateSourceStaticExpr (L := Reference.lib) 3 unit_file call = Some (inr (pair_of [51] [53])) /\
  verifyStaticValueStructure (pair_of [51] [53]) = inr tt.
Proof.
  assert (H : evaluateSourceStaticExpr (L := Reference.lib) 3 unit_file call = Some (inr (pair_of [51] [53]))) by (vm_compute; reflexivity).
  split; [exact H|]. apply (proj1 (proj2 (source_evaluation_exact (HL := Reference.laws) 3 unit_file call)) _ H).
Defined.

Lemma evaluators_agree_witness :
  evaluateSourceStaticExpr (L := Reference.lib) 3 unit_file (embed guarded_sum) = Some (inr (digit [53])).
Proof.
  assert (HK : direct_kinds (L := Reference.lib) unit_file (embed guarded_sum) = inr [mkKind PackedInteger None]) by (vm_compute; reflexivity).
  assert (Hd : (expr_size guarded_sum <= 12)%nat) by (cbn; lia).
  refine (proj2 (evaluators_agree (HL := Reference.laws) 3 12 unit_file [] guarded_sum _ HK Hd (digit [53])) _).
  exists (MathIntAttr [53]). split; [vm_compute; reflexivity|]. split; [reflexivity|discriminate].
Defined.
End EvaluationWitness.
