(* ===== verification/PythonAst.v ===== *)
(** * The captured syntax tree ([PythonImportAST.cpp])

    Python sources reach the compiler as trees of attributes: a node is a
    dictionary of a kind, its fields and its span.  This file models the nodes
    with the paths that identify their occurrences, the check of a captured
    file, the binding of call arguments, the walk over assignment targets and
    the two lexical queries of the importer. *)

From Stdlib Require Import ZArith Lia String.
From stdpp Require Import base list numbers strings.
From S2P Require Import Prelude ModelInput CompilerPrelude ApInt ValueSemantics StaticValues.

Open Scope string_scope.
Open Scope list_scope.

(** ** Nodes *)

Definition DictionaryAttr := list (string * Attr).

Record AstStep := mkStep { step_field : string; step_index : option Z }.
Definition step_dec (a b : AstStep) : {a = b} + {a <> b}.
Proof. decide equality; [|apply String.string_dec]. decide equality. apply Z.eq_dec. Defined.
#[export] Instance AstStep_eq_dec : EqDecision AstStep := step_dec.

(** A null node has no value. *)
Record AstNode := mkNode { node_value : option DictionaryAttr; node_path : list AstStep }.
Definition no_node : AstNode := mkNode None [].

Definition dictionary_dec (a b : DictionaryAttr) : {a = b} + {a <> b}.
Proof. destruct (Attr_dec (Dictionary a) (Dictionary b)); [left|right]; congruence. Defined.
Definition value_dec (a b : option DictionaryAttr) : {a = b} + {a <> b}.
Proof. decide equality. apply dictionary_dec. Defined.
#[export] Instance AstNode_eq_dec : EqDecision AstNode.
Proof. intros [v p] [v' p']. destruct (value_dec v v') as [->|]; [|right; congruence]. destruct (List.list_eq_dec step_dec p p') as [->|]; [left; reflexivity|right; congruence]. Defined.

(** [dyn_cast<DictionaryAttr>]. *)
Definition as_dictionary (a : Attr) : option DictionaryAttr := match a with Dictionary d => Some d | _ => None end.

Definition present (n : AstNode) : bool := match node_value n with Some _ => true | None => false end.

Definition kind (n : AstNode) : string := default "" (node_value n ≫= get_string "kind").
Definition fields (n : AstNode) : option DictionaryAttr := node_value n ≫= get_dict "fields".
Definition get (n : AstNode) (name : string) : option Attr := fields n ≫= dget name.

Definition child (n : AstNode) (name : string) : AstNode :=
  mkNode (get n name ≫= as_dictionary) (node_path n ++ [mkStep name None]).

Definition array (n : AstNode) (name : string) : option (list Attr) :=
  match get n name with Some (ArrayAttribute l) => Some l | _ => None end.

Definition item (n : AstNode) (name : string) (index : nat) : AstNode :=
  match array n name ≫= (fun values => values !! index) with
  | Some value => mkNode (as_dictionary value) (node_path n ++ [mkStep name None; mkStep "" (Some (Z.of_nat index))])
  | None => no_node
  end.

Definition string_of (n : AstNode) (name : string) : string :=
  match get n name with Some (StringAttribute s) => s | _ => "" end.

(** The length of an array; an array that a node lacks has no items. *)
Definition size_of (l : option (list Attr)) : nat := match l with Some l => length l | None => 0 end.

(** The nodes of a loop over an array. *)
Definition items (n : AstNode) (name : string) : list AstNode := item n name <$> seq 0 (size_of (array n name)).

Definition is_kind (n : AstNode) (name : string) : bool := bool_decide (kind n = name).
Definition kind_in (n : AstNode) (names : list string) : bool := bool_decide (kind n ∈ names).

(** ** Recursion over nodes *)

Fixpoint height (a : Attr) : nat :=
  match a with
  | ArrayAttribute l => S (max_list (height <$> l))
  | Dictionary fs => S (max_list ((fun f => height (snd f)) <$> fs))
  | _ => 1
  end.

Definition node_height (n : AstNode) : nat := match node_value n with Some d => height (Dictionary d) | None => 0 end.

Fixpoint descend {X B} (body : (AstNode -> X -> B) -> AstNode -> X -> B) (stop : X -> B) (depth : nat) (n : AstNode) : X -> B :=
  match depth with O => stop | S depth => body (descend body stop depth) n end.

(** A recursive lambda over the nodes below a node; [stop] is never reached. *)
Definition walk {X B} (body : (AstNode -> X -> B) -> AstNode -> X -> B) (stop : X -> B) (n : AstNode) : X -> B :=
  descend body stop (S (node_height n)) n.

(** ** Call arguments *)

(** The positional arguments from the [i]th on. *)
Fixpoint bind_positional (arguments : list AstNode) (i : nat) (actuals : list AstNode) (order : list nat) : FailureOr (list AstNode * list nat) :=
  match arguments with
  | [] => success (actuals, order)
  | actual :: rest =>
    if is_kind actual "Starred" then failure "starred callable arguments are unsupported"
    else bind_positional rest (S i) (<[i := actual]> actuals) (order ++ [i])
  end.

(** [llvm::find], as an index. *)
Fixpoint index_of (name : string) (names : list string) : option nat :=
  match names with
  | [] => None
  | n :: rest => if decide (n = name) then Some 0%nat else S <$> index_of name rest
  end.

Fixpoint bind_keywords (formals : list string) (keywords : list AstNode) (actuals : list AstNode) (order : list nat) : FailureOr (list AstNode * list nat) :=
  match keywords with
  | [] => success (actuals, order)
  | keyword :: rest =>
    let name := string_of keyword "arg" in
    if decide (name = "") then failure "unknown callable keyword argument"
    else
      match index_of name formals with
      | None => failure "unknown callable keyword argument"
      | Some index =>
        if present (default no_node (actuals !! index)) then failure "duplicate callable argument"
        else bind_keywords formals rest (<[index := child keyword "value"]> actuals) (order ++ [index])
      end
  end.

(** The actuals in the order of the formals, and the order of evaluation. *)
Definition normalizeCallArguments (call : AstNode) (formals : list string) (arityDiagnostic : string) (optionalTrailing : nat) : FailureOr (list AstNode * list nat) :=
  let supplied := (size_of (array call "args") + size_of (array call "keywords"))%nat in
  if (length formals <? optionalTrailing)%nat || (length formals <? supplied)%nat || (supplied <? length formals - optionalTrailing)%nat
  then failure arityDiagnostic
  else
    let! bound := bind_positional (items call "args") 0 (replicate (length formals) no_node) [] in
    let! bound := bind_keywords formals (items call "keywords") (fst bound) (snd bound) in
    if existsb (fun actual => negb (present actual)) (take (length formals - optionalTrailing) (fst bound))
    then failure "missing required callable argument"
    else success bound.

(** ** Assignment targets *)

(** The targets that [forEachAssignmentLeaf] visits, in order, until one
    visit fails. *)
Definition assignment_leaves : AstNode -> unit -> list AstNode :=
  walk (fun self target _ =>
    if kind_in target ["Tuple"; "List"] then flat_map (fun element => self element tt) (items target "elts")
    else [target]) (fun _ => []).

(** ** Table queries *)

(** [names.insert] of the arguments of a lambda. *)
Fixpoint lambda_arguments (arguments : list AstNode) (names : list string) : FailureOr (list string) :=
  match arguments with
  | [] => success names
  | argument :: rest =>
    if negb (is_kind argument "arg") || bool_decide (string_of argument "arg" = "") ||
       negb (match get argument "annotation" with Some UnitAttribute => true | _ => false end)
    then failure "Table query Lambda argument must be unannotated"
    else if bool_decide (string_of argument "arg" ∈ names) then failure "Table query Lambda arguments must be distinct"
    else lambda_arguments rest (names ++ [string_of argument "arg"])
  end.

Definition is_unit (a : option Attr) : bool := match a with Some UnitAttribute => true | _ => false end.

Definition validateTableQueryLambda (node : AstNode) (arity : option nat) : FailureOr unit :=
  if negb (is_kind node "Lambda") then failure "Table query callback requires an expression Lambda"
  else
    let args := child node "args" in
    if negb (is_kind args "arguments") || negb (present (child node "body")) then failure "captured Lambda shape is malformed"
    else
      let shape :=
        match array args "args", array args "posonlyargs", array args "kwonlyargs", array args "defaults", array args "kw_defaults" with
        | Some positional, Some positionalOnly, Some keywords, Some defaults, Some keywordDefaults =>
          match arity with Some n => Nat.eqb (length positional + length positionalOnly) n | None => true end &&
          bool_decide (length keywords = 0%nat) && bool_decide (length defaults = 0%nat) && bool_decide (length keywordDefaults = 0%nat) &&
          negb (present (child args "vararg")) && negb (present (child args "kwarg")) &&
          is_unit (get args "vararg") && is_unit (get args "kwarg")
        | _, _, _, _, _ => false
        end in
      if negb shape then failure "Table query Lambda requires positional arguments without defaults or variadic/keyword arguments"
      else
        let! names := lambda_arguments (items args "posonlyargs") [] in
        let! names := lambda_arguments (items args "args") names in
        success tt.

(** ** Verification of a capture *)

Open Scope Z_scope.

Definition span_names : list string :=
  ["start_line"; "start_byte_column"; "start_codepoint_column"; "end_line"; "end_byte_column"; "end_codepoint_column"].

(** The coordinates in the order of the names. *)
Fixpoint span_values (span : DictionaryAttr) (names : list string) : FailureOr (list Z) :=
  match names with
  | [] => success []
  | name :: rest =>
    let! value := decodeU64 (dget name span) in
    if value =? 0 then failure "captured AST span coordinates are one-based"
    else let! values := span_values span rest in success (value :: values)
  end.

Definition verifyCapturedSpan (span : option DictionaryAttr) : FailureOr unit :=
  match span with
  | None => failure "captured AST span must contain exactly six fields"
  | Some span =>
    if negb (Nat.eqb (length span) 6) then failure "captured AST span must contain exactly six fields"
    else
      let! values := span_values span span_names in
      let v i := values.[i] in
      if (v 3 <? v 0) || ((v 3 =? v 0) && ((v 4 <? v 1) || (v 5 <? v 2))) then failure "captured AST span ends before it starts"
      else success tt
  end.

Definition malformed {A} : FailureOr A := failure "captured shape is malformed".

Definition is_node (a : Attr) : bool := match a with Dictionary d => bool_decide (is_Some (get_string "kind" d)) | _ => false end.

Definition verifyRequiredNode (fields : DictionaryAttr) (name : string) : FailureOr unit :=
  match dget name fields with
  | Some a => if is_node a then success tt else failure "field must be an AST node"
  | None => failure "field must be an AST node"
  end.

Definition verifyRequiredArray (fields : DictionaryAttr) (name : string) : FailureOr unit :=
  match get_array name fields with Some _ => success tt | None => failure "field must be an ArrayAttr" end.

(** [elementKind] is empty for nodes of any kind. *)
Definition element_ok (elementKind : string) (element : Attr) : bool :=
  match element with
  | Dictionary d =>
    match get_string "kind" d with
    | Some form => bool_decide (elementKind = "") || bool_decide (form = elementKind)
    | None => false
    end
  | _ => false
  end.

Definition verifyNodeArray (fields : DictionaryAttr) (name elementKind : string) (nonempty : bool) : FailureOr unit :=
  let! _ := verifyRequiredArray fields name in
  match get_array name fields with
  | Some elements =>
    if nonempty && Nat.eqb (length elements) 0 then failure "field must not be empty"
    else if forallb (element_ok elementKind) elements then success tt
    else failure "field must contain AST nodes"
  | None => failure "field must be an ArrayAttr"
  end.

Definition verifyOptionalArray (fields : DictionaryAttr) (name : string) : FailureOr unit :=
  match dget name fields with
  | None | Some (ArrayAttribute _) => success tt
  | Some _ => failure "field must be an ArrayAttr when present"
  end.

Definition verifyStringArray (fields : DictionaryAttr) (name : string) : FailureOr unit :=
  match get_array name fields with
  | None => failure "field must be an ArrayAttr"
  | Some values =>
    if forallb (fun value => match value with StringAttribute _ => true | _ => false end) values then success tt
    else failure "field must contain strings"
  end.

Definition verifyOptionalNode (fields : DictionaryAttr) (name : string) : FailureOr unit :=
  match dget name fields with
  | None => failure "field is missing"
  | Some UnitAttribute => success tt
  | Some a => if is_node a then success tt else failure "field must be an AST node or UnitAttr"
  end.

Definition verifyStringOrUnit (fields : DictionaryAttr) (name : string) : FailureOr unit :=
  match dget name fields with
  | Some (StringAttribute _) | Some UnitAttribute => success tt
  | _ => failure "field must be a StringAttr or UnitAttr"
  end.

Definition encoded_integer (d : DictionaryAttr) : bool := Nat.eqb (length d) 1 && bool_decide (is_Some (get_string "integer" d)).

Definition verifyEncodedInteger (fields : DictionaryAttr) (name : string) : FailureOr unit :=
  match get_dict name fields with
  | Some d => if encoded_integer d then success tt else failure "field must be an encoded integer"
  | None => failure "field must be an encoded integer"
  end.

Definition expression_kinds : list string :=
  ["BoolOp"; "NamedExpr"; "BinOp"; "UnaryOp"; "Lambda"; "IfExp"; "Dict"; "Set"; "ListComp"; "SetComp"; "DictComp"; "GeneratorExp"; "Await"; "Yield";
   "YieldFrom"; "Compare"; "Call"; "FormattedValue"; "JoinedStr"; "Constant"; "Attribute"; "Subscript"; "Starred"; "Name"; "List"; "Tuple"].

(** The kind of a node in a field. *)
Definition field_kind (fields : DictionaryAttr) (name : string) : string := default "" (get_dict name fields ≫= get_string "kind").

Definition has_string (fields : DictionaryAttr) (name : string) : FailureOr unit :=
  if bool_decide (is_Some (get_string name fields)) then success tt else malformed.
Definition has_size (fields : DictionaryAttr) (n : nat) : FailureOr unit := if Nat.eqb (length fields) n then success tt else malformed.

(** The shape of a node by its kind; [node] is the whole node. *)
Definition verify_form (form : string) (node fields : DictionaryAttr) : FailureOr unit :=
  let required_node := verifyRequiredNode fields in
  let required_array := verifyRequiredArray fields in
  let optional_node := verifyOptionalNode fields in
  if decide (form = "Module") then required_array "body"
  else if decide (form = "ClassDef") then
    all_ok [has_string fields "name"; required_array "body"; required_array "decorator_list"; verifyOptionalArray fields "type_params"; required_array "bases"; required_array "keywords"]
  else if decide (form = "FunctionDef") then
    all_ok [has_string fields "name"; required_array "body"; required_array "decorator_list"; verifyOptionalArray fields "type_params"; required_node "args"; optional_node "returns"]
  else if decide (form = "Lambda") then
    let! _ := all_ok [has_size fields 2; required_node "args"; required_node "body"] in
    if negb (bool_decide (field_kind fields "args" = "arguments")) then failure "captured Lambda args must be arguments"
    else if negb (bool_decide (field_kind fields "body" ∈ expression_kinds)) then failure "captured Lambda body must be an expression"
    else validateTableQueryLambda (mkNode (Some node) []) None
  else if decide (form = "arguments") then
    all_ok [required_array "posonlyargs"; required_array "args"; required_array "kwonlyargs"; required_array "kw_defaults"; required_array "defaults"; optional_node "vararg"; optional_node "kwarg"]
  else if decide (form = "ImportFrom") then all_ok [verifyStringOrUnit fields "module"; verifyEncodedInteger fields "level"; required_array "names"]
  else if decide (form = "alias") then all_ok [has_string fields "name"; verifyStringOrUnit fields "asname"]
  else if decide (form = "Assign") then all_ok [required_array "targets"; required_node "value"]
  else if decide (form = "AnnAssign") then all_ok [required_node "target"; required_node "annotation"; optional_node "value"; verifyEncodedInteger fields "simple"]
  else if decide (form = "Call") then all_ok [required_node "func"; required_array "args"; required_array "keywords"]
  else if decide (form = "keyword") then all_ok [verifyStringOrUnit fields "arg"; required_node "value"]
  else if decide (form = "Attribute") then all_ok [has_string fields "attr"; required_node "value"]
  else if decide (form = "Subscript") then all_ok [required_node "value"; required_node "slice"]
  else if decide (form = "Tuple") then required_array "elts"
  else if decide (form = "Return") then optional_node "value"
  else if decide (form = "Expr") then required_node "value"
  else if decide (form = "Nonlocal") then verifyStringArray fields "names"
  else if decide (form = "If") then all_ok [required_node "test"; required_array "body"; required_array "orelse"]
  else if decide (form = "For") then all_ok [required_node "target"; required_node "iter"; verifyNodeArray fields "body" "" true; verifyNodeArray fields "orelse" "" false]
  else if decide (form = "UnaryOp") then all_ok [required_node "op"; required_node "operand"]
  else if decide (form = "Match") then all_ok [has_size fields 2; required_node "subject"; verifyNodeArray fields "cases" "match_case" true]
  else if decide (form = "match_case") then all_ok [has_size fields 3; required_node "pattern"; optional_node "guard"; verifyNodeArray fields "body" "" true]
  else if decide (form = "MatchValue") then all_ok [has_size fields 1; required_node "value"]
  else if decide (form = "MatchSingleton") then
    all_ok [has_size fields 1; match dget "value" fields with Some (Boolean _) | Some UnitAttribute => success tt | _ => malformed end]
  else if decide (form = "MatchOr") then all_ok [has_size fields 1; verifyNodeArray fields "patterns" "" false]
  else if decide (form = "MatchAs") then all_ok [has_size fields 2; optional_node "pattern"; verifyStringOrUnit fields "name"]
  else if decide (form = "Name") then has_string fields "id"
  else if decide (form = "arg") then all_ok [has_string fields "arg"; optional_node "annotation"]
  else success tt.

(** The header of a node and its shape, after its fields were checked. *)
Definition verify_node_with (field_checks : option (list (FailureOr unit))) (node : DictionaryAttr) : FailureOr unit :=
  if negb (Nat.eqb (length node) 3) then failure "captured AST node must contain kind, fields and span"
  else
    match get_string "kind" node, get_dict "fields" node, field_checks with
    | Some form, Some fields, Some checks =>
      if bool_decide (form = "") then failure "captured AST node header is malformed"
      else
        let! _ := verifyCapturedSpan (get_dict "span" node) in
        let! _ := all_ok checks in
        verify_form form node fields
    | _, _, _ => failure "captured AST node header is malformed"
    end.

(** [verifyCapturedField]; a dictionary is an encoded integer or a node. *)
Fixpoint verifyCapturedField (value : Attr) : FailureOr unit :=
  match value with
  | StringAttribute _ | Boolean _ | UnitAttribute => success tt
  | ArrayAttribute values => all_ok (verifyCapturedField <$> values)
  | Dictionary d =>
    if encoded_integer d then success tt
    else
      verify_node_with
        (default None (dget_with (fun a => match a with Dictionary fs => Some ((fun f => verifyCapturedField (snd f)) <$> fs) | _ => None end) "fields" d)) d
  | _ => failure "captured AST field has an unsupported attribute kind"
  end.

Definition verifyCapturedNode (raw : Attr) : FailureOr unit :=
  match raw with
  | Dictionary d => verify_node_with (option_map (fun fs => (fun f => verifyCapturedField (snd f)) <$> fs) (get_dict "fields" d)) d
  | _ => failure "captured AST node must contain kind, fields and span"
  end.

Record CapturedSource := mkCaptured { source_path : string; source_module : AstNode }.

(** The transport: whether its body is empty, and its attributes. *)
Definition readSingleCapture (body_empty : bool) (attributes : DictionaryAttr) : FailureOr CapturedSource :=
  if negb body_empty then failure "source transport module body must be empty"
  else
    match get_array "ac.python_capture" attributes with
    | Some [Dictionary file] =>
      match get_string "path" file, get_array "body" file with
      | Some path, Some [root] =>
        if negb (Nat.eqb (length file) 2) then failure "captured source file record is malformed"
        else
          match root with
          | Dictionary node =>
            if negb (bool_decide (get_string "kind" node = Some "Module")) then failure "captured source root must be a Python Module node"
            else let! _ := verifyCapturedNode root in success (mkCaptured path (mkNode (Some node) []))
          | _ => failure "captured source root must be a Python Module node"
          end
      | _, _ => failure "captured source file record is malformed"
      end
    | Some [_] => failure "captured source file record is malformed"
    | _ => failure "ac.python_capture must contain exactly one source file"
    end.

(** ** Spans and occurrences *)

(** Both start at one where the node has no span. *)
Definition location (n : AstNode) : Z * Z :=
  let span := node_value n ≫= get_dict "span" in
  let coordinate name := match span ≫= dget name with Some (IntegerAttribute _ _ bits) => bits | _ => 1 end in
  (coordinate "start_line", coordinate "start_codepoint_column").

(** A coordinate of the span; [None] where the builder would get a null
    attribute. *)
Definition coordinate (n : AstNode) (name : string) : option Attr :=
  match (node_value n ≫= get_dict "span") ≫= dget name with Some (IntegerAttribute t width bits) => Some (IntegerAttribute t width bits) | _ => None end.

Definition sourceSpan (sourcePath : string) (n : AstNode) : option Attr :=
  match coordinate n "start_line", coordinate n "start_codepoint_column", coordinate n "end_line", coordinate n "end_codepoint_column" with
  | Some line, Some column, Some end_line, Some end_column =>
    Some (Dictionary [("column", column); ("end_column", end_column); ("end_line", end_line); ("line", line); ("path", StringAttribute sourcePath)])
  | _, _, _, _ => None
  end.

(** [getI64IntegerAttr] of an index. *)
Definition i64_attr (v : Z) : Attr := IntegerAttribute (IntegerType Signless 64) 64 (v mod 2 ^ 64).

Definition step_component (step : AstStep) : Attr :=
  match step_index step with
  | Some index => Dictionary [("kind", StringAttribute "index"); ("value", i64_attr index)]
  | None => Dictionary [("kind", StringAttribute "field"); ("name", StringAttribute (step_field step))]
  end.

Definition occurrence (definition : string) (n : AstNode) (expansion : list DictionaryAttr) : Attr :=
  let site := Dictionary [("ast_path", ArrayAttribute (step_component <$> node_path n)); ("definition", SymbolRef definition)] in
  Dictionary [("expansion", ArrayAttribute (Dictionary <$> expansion)); ("site", site)].

(** ** Bounded loops *)

Record LiteralForSyntax := mkFor { for_target : AstNode; for_bound : AstNode; for_spelling : string }.

Definition readLiteralForSyntax (node : AstNode) : FailureOr LiteralForSyntax :=
  let target := child node "target" in
  let iterable := child node "iter" in
  let function := child iterable "func" in
  let one l := match l with Some [_] => true | _ => false end in
  let none l := match l with Some [] => true | _ => false end in
  if negb (is_kind node "For") || negb (is_kind target "Name") || bool_decide (string_of target "id" = "") || negb (is_kind iterable "Call") ||
     negb (is_kind function "Name") || negb (bool_decide (string_of function "id" = "range")) ||
     negb (one (array iterable "args")) || negb (none (array iterable "keywords")) || negb (none (array node "orelse"))
  then failure "bounded for requires a Name target and exact range(Integer literal), without loop else"
  else
    let bound := item iterable "args" 0 in
    let encoded := if is_kind bound "Constant" then get bound "value" ≫= as_dictionary else None in
    match encoded ≫= get_string "integer" with
    | Some digits =>
      if bool_decide (digits = "") || negb (forallb is_digit (lit digits)) then failure "bounded for stop requires a nonnegative non-Boolean Integer literal"
      else success (mkFor target bound digits)
    | None => failure "bounded for stop requires a nonnegative non-Boolean Integer literal"
    end.

(** ** Shadowed names *)

(** Whether a statement of a scope binds [name]; [self] is the recursive
    lambda. *)
Definition binds_body (name : string) (self : AstNode -> unit -> bool) (scope : AstNode) (_ : unit) : bool :=
  let any field := existsb (fun n => self n tt) (items scope field) in
  if is_kind scope "Name" then bool_decide (string_of scope "id" = name)
  else if kind_in scope ["FunctionDef"; "ClassDef"] then bool_decide (string_of scope "name" = name)
  else if is_kind scope "Assign" then any "targets"
  else if kind_in scope ["AnnAssign"; "AugAssign"; "NamedExpr"; "For"] && self (child scope "target") tt then true
  else if kind_in scope ["Tuple"; "List"] then any "elts"
  else if is_kind scope "Match" && any "cases" then true
  else any "body" || any "orelse".

Definition binds (name : string) : AstNode -> unit -> bool := walk (binds_body name) (fun _ => false).

Definition bindsLocally (name : string) (scope : AstNode) : bool :=
  let args := child scope "args" in
  existsb (fun field => existsb (fun argument => bool_decide (string_of argument "arg" = name)) (items args field)) ["args"; "posonlyargs"; "kwonlyargs"] ||
  existsb (fun field => bool_decide (string_of (child args field) "arg" = name)) ["vararg"; "kwarg"] ||
  existsb (fun statement => binds name statement tt) (items scope "body").

(** [scopeBindingCache], by scope and name. *)
Definition ScopeCache := list ((option DictionaryAttr * string) * bool).

Fixpoint cached (scope : option DictionaryAttr) (name : string) (cache : ScopeCache) : option bool :=
  match cache with
  | [] => None
  | ((s, n), b) :: rest => if value_dec s scope then if decide (n = name) then Some b else cached scope name rest else cached scope name rest
  end.

Definition scopeBinds (name : string) (scope : AstNode) (cache : ScopeCache) : bool * ScopeCache :=
  match cached (node_value scope) name cache with
  | Some b => (b, cache)
  | None => let result := bindsLocally name scope in (result, ((node_value scope, name), result) :: cache)
  end.

(** The walk from the module down to the node. *)
Fixpoint shadowed_along (name : string) (ancestor : AstNode) (path : list AstStep) (cache : ScopeCache) : bool * ScopeCache :=
  match path with
  | [] => (false, cache)
  | step :: rest =>
    match step_index step with
    | Some _ => (false, cache)
    | None =>
      let '(bound, cache) :=
        if kind_in ancestor ["FunctionDef"; "ClassDef"; "Lambda"] && bool_decide (step_field step = "body") then scopeBinds name ancestor cache
        else (false, cache) in
      if bound then (true, cache)
      else
        match rest with
        | {| step_index := Some index |} :: rest' =>
          let next := item ancestor (step_field step) (Z.to_nat index) in
          if present next then shadowed_along name next rest' cache else (false, cache)
        | _ =>
          let next := child ancestor (step_field step) in
          if present next then shadowed_along name next rest cache else (false, cache)
        end
    end
  end.

Definition sourceBindingShadowed (source : CapturedSource) (node : AstNode) (name : string) (cache : ScopeCache) : bool * ScopeCache :=
  shadowed_along name (source_module source) (node_path node) cache.

(** ** The order of a use and a declaration *)

Inductive SourceDeclarationOrder := Before | AtOrAfter | Unrelated.

Definition text_size (s : string) : Z := Z.of_nat (String.length s).

(** ** Fallible steps over a state *)

Definition C (S A : Type) : Type := S -> option A * S.
Definition cret {S A} (a : A) : C S A := fun s => (Some a, s).
Definition cbind {S A B} (m : C S A) (k : A -> C S B) : C S B := fun s => let '(r, s) := m s in match r with Some a => k a s | None => (None, s) end.
Notation "'let+' x := m 'in' k" := (cbind m (fun x => k)) (at level 10, x name, m at level 200, k at level 200) : gfsim_scope.

(** A loop with an accumulator. *)
Fixpoint cfold {S A B} (f : B -> A -> C S B) (l : list A) (b : B) : C S B :=
  match l with [] => cret b | a :: rest => let+ b := f b a in cfold f rest b end.

Definition refuse {S A} : C S A := fun s => (None, s).

(** A result that is checked later, and the check. *)
Definition attempt {S A} (m : C S A) : C S (option A) := fun s => let '(r, s) := m s in (Some r, s).
Definition proceed {S A} (r : option A) : C S A := fun s => (r, s).

Section Order.
(** The accounting of the caller. *)
Context {S : Type}.
Variable charge : Z -> S -> bool * S.
#[local] Abbreviation C := (C S).

(** Fails where the caller refuses the amount. *)
Definition pay (amount : Z) : C unit := fun s => let '(paid, s) := charge amount s in (if paid then Some tt else None, s).
Fixpoint same_steps (path prefix : list AstStep) : C bool :=
  match path, prefix with
  | a :: path, c :: prefix =>
    let+ _ := if 2 ^ 64 - 1 - text_size (step_field c) - 1 <? text_size (step_field a) then refuse
              else pay (1 + text_size (step_field a) + text_size (step_field c)) in
    if decide (a = c) then same_steps path prefix else cret false
  | _, _ => cret true
  end.

Definition samePrefix (path prefix : list AstStep) : C bool :=
  let+ _ := pay 1 in
  if (length path <? length prefix)%nat then cret false else same_steps (take (length prefix) path) prefix.

Definition dictionary_size (d : option DictionaryAttr) : Z := match d with Some d => Z.of_nat (length d) | None => 0 end.

(** The path leads into a function or class other than the declaration. *)
Definition crossing (owner declaration node : AstNode) (i : nat) (step : AstStep) (dictionary : DictionaryAttr) : C bool :=
  if (length (node_path owner) <? i)%nat && bool_decide (step_field step = "body") &&
     bool_decide (default "" (get_string "kind" dictionary) ∈ ["FunctionDef"; "ClassDef"])
  then
    let+ selected := samePrefix (node_path node) (node_path declaration) in
    cret (negb (Nat.eqb i (length (node_path declaration))) || negb selected)
  else cret false.

Fixpoint authenticate_steps (owner declaration node : AstNode) (checkCrossing : bool) (path : list AstStep) (i : nat) (current : option Attr) : C bool :=
  match path with
  | [] =>
    let dictionary := current ≫= as_dictionary in
    let+ _ := pay (1 + dictionary_size dictionary + dictionary_size (node_value node)) in
    cret (bool_decide (is_Some dictionary) && if value_dec dictionary (node_value node) then true else false)
  | step :: rest =>
    let dictionary := current ≫= as_dictionary in
    let+ _ := pay (1 + text_size (step_field step) + dictionary_size dictionary) in
    match step_index step, dictionary with
    | None, Some dictionary =>
      if decide (step_field step = "") then cret false
      else
        let+ crosses := if checkCrossing then crossing owner declaration node i step dictionary else cret false in
        if crosses then cret false
        else
          let fields := get_dict "fields" dictionary in
          let+ _ := pay (match fields with Some fields => Z.of_nat (length fields) | None => 1 end) in
          let current := fields ≫= dget (step_field step) in
          match rest with
          | {| step_field := field; step_index := Some index |} :: rest' =>
            let+ _ := pay (1 + text_size field) in
            if negb (bool_decide (field = "")) then cret false
            else
              match current with
              | Some (ArrayAttribute values) =>
                match values !! Z.to_nat index with
                | Some value => authenticate_steps owner declaration node checkCrossing rest' (i + 2) (Some value)
                | None => cret false
                end
              | _ => cret false
              end
          | _ =>
            match current with
            | Some value => authenticate_steps owner declaration node checkCrossing rest (i + 1) (Some value)
            | None => cret false
            end
          end
    | _, _ => cret false
    end
  end.

Definition authenticate (source : CapturedSource) (owner declaration node : AstNode) (checkCrossing : bool) : C bool :=
  authenticate_steps owner declaration node checkCrossing (node_path node) 0 (Dictionary <$> node_value (source_module source)).

(** The step that selects the statement of a body. *)
Definition body_index (path : list AstStep) (base : nat) : option Z :=
  match path !! base, path !! (base + 1)%nat with
  | Some {| step_field := field; step_index := None |}, Some {| step_field := empty; step_index := Some index |} =>
    if decide (field = "body") then if decide (empty = "") then Some index else None else None
  | _, _ => None
  end.

Definition sourceDeclarationOrder (source : CapturedSource) (owner occurrence declaration : AstNode) : C SourceDeclarationOrder :=
  let+ valid := authenticate source owner declaration owner false in
  if negb valid then cret Unrelated
  else
    let+ valid := authenticate source owner declaration declaration false in
    if negb valid then cret Unrelated
    else
      let+ valid := authenticate source owner declaration occurrence true in
      if negb valid then cret Unrelated
      else
        let+ declarationPrefix := attempt (samePrefix (node_path declaration) (node_path owner)) in
        let+ occurrencePrefix := attempt (samePrefix (node_path occurrence) (node_path owner)) in
        let+ declarationPrefix := proceed (if occurrencePrefix then declarationPrefix else None) in
        let+ occurrencePrefix := proceed occurrencePrefix in
        let base := length (node_path owner) in
        if negb declarationPrefix || negb occurrencePrefix || negb (Nat.eqb (length (node_path declaration)) (base + 2)) ||
           (length (node_path occurrence) <? base + 2)%nat
        then cret Unrelated
        else
          let name path := match path !! base with Some step => text_size (step_field step) | None => 0 end in
          let+ _ := pay (10 + name (node_path declaration) + name (node_path occurrence)) in
          match body_index (node_path declaration) base, body_index (node_path occurrence) base with
          | Some declared, Some used =>
            if is_kind declaration "FunctionDef" then cret (if used <? declared then Before else AtOrAfter) else cret Unrelated
          | _, _ => cret Unrelated
          end.
End Order.
