(* ===== verification/PythonAstSpec.v ===== *)
(** * Walks over captured trees

    Recursion over the nodes of a tree ends and unfolds as the source writes
    it; nodes reached by fields and indices are authentic; a verified capture
    has the shapes that the importer reads; the lexical queries are exact. *)

From Stdlib Require Import ZArith Lia String.
From stdpp Require Import base list numbers strings.
From S2P Require Import Prelude ModelInput CompilerPrelude ApInt ValueSemantics StaticValues StaticValuesSpec PythonAst.

Open Scope string_scope.
Open Scope list_scope.
Open Scope Z_scope.

(** ** Heights *)

Lemma max_list_elem x l : x ∈ l -> (x <= max_list l)%nat.
Proof. apply max_list_elem_of_le. Qed.

Lemma height_pos a : (0 < height a)%nat.
Proof. destruct a; cbn; lia. Qed.

Lemma dget_elem name fs a : dget name fs = Some a -> (name, a) ∈ fs.
Proof.
  unfold dget. induction fs as [|[k v] fs IH]; cbn; [discriminate|]. destruct (decide (k = name)) as [->|]; [intros [= ->]; left|]. intros H. right. exact (IH H).
Qed.

Lemma height_dget name fs a : dget name fs = Some a -> (height a < height (Dictionary fs))%nat.
Proof.
  intros H. apply dget_elem in H. cbn. apply Nat.lt_succ_r, max_list_elem, list_elem_of_fmap. exists (name, a). auto.
Qed.

Lemma height_array l a : a ∈ l -> (height a < height (ArrayAttribute l))%nat.
Proof. intros H. cbn. apply Nat.lt_succ_r, max_list_elem, list_elem_of_fmap. eauto. Qed.

Lemma present_value n : present n = true <-> is_Some (node_value n).
Proof. unfold present. destruct (node_value n); split; eauto; [discriminate|intros [? [=]]]. Qed.

Lemma present_height n : present n = true -> (0 < node_height n)%nat.
Proof. unfold present, node_height. destruct (node_value n); [|discriminate]. intros _. apply height_pos. Qed.

Lemma kind_present n k : kind n = k -> k <> "" -> present n = true.
Proof. unfold kind, present. destruct (node_value n); cbn; congruence. Qed.

Lemma is_kind_present n k : is_kind n k = true -> k <> "" -> present n = true.
Proof. unfold is_kind. rewrite bool_decide_eq_true. apply kind_present. Qed.

Lemma kind_in_present n ks : kind_in n ks = true -> bool_decide ("" ∈ ks) = false -> present n = true.
Proof. unfold kind_in. rewrite bool_decide_eq_true, bool_decide_eq_false. intros H Hn. eapply kind_present; [reflexivity|]. intros E. rewrite E in H. contradiction. Qed.

Lemma get_dict_dget name fs d : get_dict name fs = Some d -> dget name fs = Some (Dictionary d).
Proof. unfold get_dict. destruct (dget name fs) as [[]|]; congruence. Qed.

Lemma get_height n name a : get n name = Some a -> (height a < node_height n)%nat.
Proof.
  unfold get, fields, node_height. destruct (node_value n) as [d|]; [|discriminate]. cbn [mbind option_bind].
  destruct (get_dict "fields" d) as [fs|] eqn:E; [|discriminate]. cbn [mbind option_bind]. intros H. apply height_dget in H. apply get_dict_dget, height_dget in E.
  exact (Nat.lt_trans _ _ _ H E).
Qed.

Lemma child_below n name : present n = true -> (node_height (child n name) < node_height n)%nat.
Proof.
  intros Hp. unfold child, node_height at 1. cbn [node_value]. destruct (get n name) as [a|] eqn:E; [|apply present_height, Hp].
  destruct a; cbn [mbind option_bind as_dictionary]; try (apply present_height, Hp). exact (get_height _ _ _ E).
Qed.

Lemma array_get n name l : array n name = Some l -> get n name = Some (ArrayAttribute l).
Proof. unfold array. destruct (get n name) as [[]|]; congruence. Qed.

Lemma item_some n name i m : m = item n name i -> (i < size_of (array n name))%nat -> exists l a, array n name = Some l /\ l !! i = Some a /\
  m = mkNode (as_dictionary a) (node_path n ++ [mkStep name None; mkStep "" (Some (Z.of_nat i))]).
Proof.
  intros -> Hi. unfold item. destruct (array n name) as [l|] eqn:E; [|cbn in Hi; lia]. cbn in Hi. destruct (lookup_lt_is_Some_2 l i Hi) as [a Ha]. exists l, a.
  cbn [mbind option_bind]. rewrite Ha. auto.
Qed.

Lemma elem_of_items n name m : m ∈ items n name <-> exists i, (i < size_of (array n name))%nat /\ m = item n name i.
Proof. unfold items. rewrite list_elem_of_fmap. setoid_rewrite elem_of_seq. split; intros (i & H); exists i; intuition lia. Qed.

Lemma items_below n name m : m ∈ items n name -> (node_height m < node_height n)%nat.
Proof.
  rewrite elem_of_items. intros (i & Hi & ->). destruct (item_some n name i _ eq_refl Hi) as (l & a & El & Ea & ->). unfold node_height at 1. cbn [node_value].
  apply array_get, get_height in El. apply list_elem_of_lookup_2, height_array in Ea. destruct (as_dictionary a) as [d|] eqn:E; [|lia].
  destruct a; try discriminate. injection E as ->. lia.
Qed.

(** ** Walks *)

(** The body of a recursive lambda only recurs on lower nodes. *)
Definition local_body {X B} (body : (AstNode -> X -> B) -> AstNode -> X -> B) : Prop :=
  forall f g n, (forall m x, (node_height m < node_height n)%nat -> f m x = g m x) -> forall x, body f n x = body g n x.

Section Walk.
Context {X B : Type} (body : (AstNode -> X -> B) -> AstNode -> X -> B) (stop : X -> B).

Lemma descend_enough : local_body body -> forall j k n x, (node_height n < j)%nat -> (node_height n < k)%nat -> descend body stop j n x = descend body stop k n x.
Proof.
  intros Hb. induction j as [|j IH]; intros k n x Hj Hk; [lia|]. destruct k as [|k]; [lia|]. cbn [descend]. apply Hb. intros m y Hm. apply IH; lia.
Qed.

(** The walk is the recursion of the source. *)
Lemma walk_unfold : local_body body -> forall n x, walk body stop n x = body (walk body stop) n x.
Proof. intros Hb n x. unfold walk at 1. cbn [descend]. apply Hb. intros m y Hm. unfold walk. apply descend_enough; [exact Hb|lia|lia]. Qed.

(** What every step keeps, the walk keeps. *)
Lemma walk_invariant (P : AstNode -> X -> B -> Prop) :
  (forall n x, P n x (stop x)) -> (forall self, (forall m x, P m x (self m x)) -> forall n x, P n x (body self n x)) -> forall n x, P n x (walk body stop n x).
Proof.
  intros Hstop Hbody n. unfold walk. generalize (S (node_height n)). intros k. revert n. induction k as [|k IH]; intros n x; cbn [descend]; [apply Hstop|]. apply Hbody. exact IH.
Qed.
End Walk.

Lemma flat_map_ext_elem {A B} (f g : A -> list B) l : (forall a, a ∈ l -> f a = g a) -> flat_map f l = flat_map g l.
Proof. induction l as [|a l IH]; intros H; cbn; [reflexivity|]. rewrite (H a) by left. rewrite IH by (intros b Hb; apply H; right; exact Hb). reflexivity. Qed.

Lemma existsb_ext_elem {A} (f g : A -> bool) l : (forall a, a ∈ l -> f a = g a) -> existsb f l = existsb g l.
Proof. induction l as [|a l IH]; intros H; cbn; [reflexivity|]. rewrite (H a) by left. rewrite IH by (intros b Hb; apply H; right; exact Hb). reflexivity. Qed.

Lemma cbind_ext {S A B} (m m' : C S A) (k k' : A -> C S B) s : m s = m' s -> (forall a s, k a s = k' a s) -> cbind m k s = cbind m' k' s.
Proof. intros Hm Hk. unfold cbind. rewrite Hm. destruct (m' s) as [[a|] s']; [apply Hk|reflexivity]. Qed.

Lemma cfold_ext {S A B} (f g : B -> A -> C S B) l : (forall b a s, a ∈ l -> f b a s = g b a s) -> forall b s, cfold f l b s = cfold g l b s.
Proof.
  induction l as [|a l IH]; intros H b s; cbn [cfold]; [reflexivity|]. apply cbind_ext; [apply H; left|]. intros b' s'. apply IH. intros b'' a' s'' Ha. apply H. right. exact Ha.
Qed.

Lemma leaves_unfold target : assignment_leaves target tt =
  if kind_in target ["Tuple"; "List"] then flat_map (fun element => assignment_leaves element tt) (items target "elts") else [target].
Proof.
  unfold assignment_leaves. etransitivity; [apply walk_unfold|reflexivity]. intros f g n H [].
  destruct (kind_in n ["Tuple"; "List"]); [|reflexivity]. apply flat_map_ext_elem. intros m Hm. apply H. eapply items_below, Hm.
Qed.

(** ** Verified captures *)

(** The nodes reached from a node by fields and indices. *)
Inductive reaches (root : AstNode) : AstNode -> Prop :=
| reaches_root : reaches root root
| reaches_child n name : reaches root n -> reaches root (child n name)
| reaches_item n name i : reaches root n -> reaches root (item n name i).

(** A dictionary is an encoded integer or a verified node; nothing, for a
    null node. *)
Definition verified_value (v : option DictionaryAttr) : Prop :=
  match v with Some d => encoded_integer d = true \/ verifyCapturedNode (Dictionary d) = inr tt | None => True end.

Lemma verified_field_dict d : verifyCapturedField (Dictionary d) = if encoded_integer d then success tt else verifyCapturedNode (Dictionary d).
Proof.
  cbn [verifyCapturedField verifyCapturedNode]. destruct (encoded_integer d); [reflexivity|]. f_equal. unfold get_dict. rewrite dget_with_dget.
  destruct (dget "fields" d) as [[]|]; reflexivity.
Qed.

Lemma verified_fields d fs : verifyCapturedNode (Dictionary d) = inr tt -> get_dict "fields" d = Some fs -> Forall (fun f => verifyCapturedField (snd f) = inr tt) fs.
Proof.
  cbn [verifyCapturedNode]. intros H E. rewrite E in H. unfold verify_node_with in H. destruct (negb _); [discriminate|]. rewrite E in H.
  destruct (get_string "kind" d) as [k|]; [|discriminate]. cbn [option_map] in H. destruct (bool_decide _); [discriminate|].
  apply fbind_inr in H as (_ & _ & H). apply fbind_inr in H as ([] & H & _). apply all_ok_inr in H. rewrite Forall_fmap in H. exact H.
Qed.

Lemma encoded_no_kind d k : encoded_integer d = true -> get_string "kind" d = Some k -> False.
Proof.
  unfold encoded_integer. rewrite andb_true_iff, bool_decide_eq_true. intros [Hl [s Hs]] Hk. destruct d as [|[n v] [|]]; try discriminate Hl.
  unfold get_string, dget in *. cbn in *. destruct (decide (n = "integer")) as [->|]; [|discriminate Hs]. discriminate Hk.
Qed.

Lemma encoded_no_fields d : encoded_integer d = true -> get_dict "fields" d = None.
Proof.
  unfold encoded_integer. rewrite andb_true_iff, bool_decide_eq_true. intros [Hl [s Hs]]. destruct d as [|[n v] [|]]; try discriminate Hl.
  unfold get_string, get_dict, dget in *. cbn in *. destruct (decide (n = "integer")) as [->|]; [reflexivity|discriminate Hs].
Qed.

Lemma verified_get n name a : verified_value (node_value n) -> get n name = Some a -> verifyCapturedField a = inr tt.
Proof.
  unfold get, fields. destruct (node_value n) as [d|]; [|discriminate]. cbn [verified_value mbind option_bind]. intros Hv H.
  destruct (get_dict "fields" d) as [fs|] eqn:E; [|discriminate]. cbn [mbind option_bind] in H. destruct Hv as [Hi|Hv]; [rewrite (encoded_no_fields d Hi) in E; discriminate|].
  pose proof (verified_fields d fs Hv E) as Hf. rewrite Forall_forall in Hf. exact (Hf _ (dget_elem _ _ _ H)).
Qed.

Lemma verified_dictionary a : verifyCapturedField a = inr tt -> verified_value (as_dictionary a).
Proof. destruct a; cbn [as_dictionary verified_value]; try (intros; exact I). rewrite verified_field_dict. destruct (encoded_integer _); [intros _; left; reflexivity|intros H; right; exact H]. Qed.

Lemma reaches_verified root n : verified_value (node_value root) -> reaches root n -> verified_value (node_value n).
Proof.
  intros Hr. induction 1 as [|n name _ IH|n name i _ IH]; [exact Hr| |].
  - unfold child. cbn [node_value]. destruct (get n name) as [a|] eqn:E; [|exact I]. cbn [mbind option_bind]. apply verified_dictionary. eapply verified_get; eassumption.
  - unfold item. destruct (array n name) as [l|] eqn:E; [|exact I]. cbn [mbind option_bind]. destruct (l !! i) as [a|] eqn:Ei; [|exact I]. cbn [node_value].
    apply verified_dictionary. apply array_get in E. pose proof (verified_get _ _ _ IH E) as H. cbn [verifyCapturedField] in H. apply all_ok_inr in H.
    rewrite Forall_fmap, Forall_forall in H. apply H. eapply list_elem_of_lookup_2, Ei.
Qed.

Lemma verified_header d : verifyCapturedNode (Dictionary d) = inr tt -> exists form fs, get_string "kind" d = Some form /\ form <> "" /\ get_dict "fields" d = Some fs /\
  verifyCapturedSpan (get_dict "span" d) = inr tt /\ verify_form form d fs = inr tt.
Proof.
  cbn [verifyCapturedNode]. unfold verify_node_with. destruct (negb _); [discriminate|]. destruct (get_string "kind" d) as [form|]; [|discriminate].
  destruct (get_dict "fields" d) as [fs|]; [|discriminate]. cbn [option_map]. case_bool_decide as Ef; [discriminate|]. intros H.
  apply fbind_inr in H as ([] & Hs & H). apply fbind_inr in H as ([] & _ & H). exists form, fs. auto.
Qed.

(** The arrays and the nodes that a node of a kind has. *)
Definition shape : list (string * (list string * list string)) :=
  [("Module", (["body"], [])); ("ClassDef", (["body"; "decorator_list"; "bases"; "keywords"], [])); ("FunctionDef", (["body"; "decorator_list"], ["args"]));
   ("Lambda", ([], ["args"; "body"])); ("arguments", (["posonlyargs"; "args"; "kwonlyargs"; "kw_defaults"; "defaults"], [])); ("ImportFrom", (["names"], []));
   ("Assign", (["targets"], ["value"])); ("AnnAssign", ([], ["target"; "annotation"])); ("Call", (["args"; "keywords"], ["func"])); ("keyword", ([], ["value"]));
   ("Attribute", ([], ["value"])); ("Subscript", ([], ["value"; "slice"])); ("Tuple", (["elts"], [])); ("Expr", ([], ["value"])); ("If", (["body"; "orelse"], ["test"]));
   ("For", (["body"; "orelse"], ["target"; "iter"])); ("UnaryOp", ([], ["op"; "operand"])); ("Match", (["cases"], ["subject"])); ("match_case", (["body"], ["pattern"]));
   ("MatchValue", ([], ["value"])); ("MatchOr", (["patterns"], []))].

Definition shape_in (fs : DictionaryAttr) (arrays nodes : list string) : Prop :=
  Forall (fun name => is_Some (get_array name fs)) arrays /\ Forall (fun name => exists a, dget name fs = Some a /\ is_node a = true) nodes.

Lemma required_array_inr fs name : verifyRequiredArray fs name = inr tt -> is_Some (get_array name fs).
Proof. unfold verifyRequiredArray. destruct (get_array name fs); [eauto|discriminate]. Qed.

Lemma node_array_inr fs name k b : verifyNodeArray fs name k b = inr tt -> is_Some (get_array name fs).
Proof. unfold verifyNodeArray. intros H. apply fbind_inr in H as ([] & H & _). apply required_array_inr, H. Qed.

Lemma required_node_inr fs name : verifyRequiredNode fs name = inr tt -> exists a, dget name fs = Some a /\ is_node a = true.
Proof. unfold verifyRequiredNode. destruct (dget name fs) as [a|]; [|discriminate]. destruct (is_node a) eqn:E; [|discriminate]. intros _. exists a. auto. Qed.

Create HintDb shapes discriminated.
#[export] Hint Resolve required_array_inr node_array_inr required_node_inr : shapes.

(** Selects the branch of a kind. *)
Ltac select_form H :=
  repeat match type of H with
  | (if decide (?a = ?b) then _ else ?e) = ?r => first [rewrite (decide_False (P := a = b)) in H by discriminate|rewrite (decide_True (P := a = b)) in H by reflexivity]
  end.

Lemma verify_form_shape k arrays nodes node fs : (k, (arrays, nodes)) ∈ shape -> verify_form k node fs = inr tt -> shape_in fs arrays nodes.
Proof.
  intros Hk H. unfold shape in Hk. repeat (apply elem_of_cons in Hk as [Hk|Hk]; [injection Hk as -> -> ->|]); [..|apply elem_of_nil in Hk; contradiction];
  cbv beta zeta delta [verify_form] in H.
  all: select_form H; rewrite ?all_ok_inr in H; try (apply fbind_inr in H as ([] & H & _)); rewrite ?all_ok_inr in H; repeat match type of H with Forall _ (_ :: _) => apply Forall_cons in H as [? H] end;
    (split; repeat (apply Forall_cons; split); try apply Forall_nil; try exact I; eauto with shapes).
Qed.

Lemma shape_node n d form fs : node_value n = Some d -> get_string "kind" d = Some form -> get_dict "fields" d = Some fs ->
  kind n = form /\ fields n = Some fs /\ (forall name, get n name = dget name fs) /\ (forall name, array n name = get_array name fs).
Proof.
  intros Ev Ek Ef. unfold kind, fields, get, array, get, fields. rewrite Ev. cbn [mbind option_bind]. rewrite Ek, Ef. auto.
Qed.

(** A coordinate of the span of a node. *)
Definition span_of (n : AstNode) (name : string) : option Z := match coordinate n name with Some (IntegerAttribute _ _ bits) => Some bits | _ => None end.

Lemma decode_coordinate n d span name v : node_value n = Some d -> get_dict "span" d = Some span -> decodeU64 (dget name span) = inr v ->
  exists t w, coordinate n name = Some (IntegerAttribute t w v).
Proof.
  intros Ev Es H. unfold coordinate. rewrite Ev. cbn [mbind option_bind]. rewrite Es. cbn [mbind option_bind]. unfold decodeU64 in H.
  destruct (dget name span) as [[]|]; try discriminate. match type of H with match ?t with _ => _ end = _ => destruct t; try discriminate end.
  repeat (match type of H with (if ?b then _ else _) = _ => destruct b; [discriminate|] end). injection H as ->. eauto.
Qed.

Lemma location_coordinate n t w t' w' l c : coordinate n "start_line" = Some (IntegerAttribute t w l) -> coordinate n "start_codepoint_column" = Some (IntegerAttribute t' w' c) ->
  location n = (l, c).
Proof.
  unfold coordinate, location. destruct (node_value n ≫= get_dict "span") as [span|]; [|discriminate]. cbn [mbind option_bind].
  destruct (dget "start_line" span) as [[]|]; try discriminate. destruct (dget "start_codepoint_column" span) as [[]|]; try discriminate. congruence.
Qed.

Lemma span_step span name rest values : span_values span (name :: rest) = inr values -> exists v more, decodeU64 (dget name span) = inr v /\ v <> 0 /\
  span_values span rest = inr more /\ values = v :: more.
Proof.
  cbn [span_values]. intros H. apply fbind_inr in H as (v & Hv & H). destruct (Z.eqb_spec v 0); [discriminate|]. apply fbind_inr in H as (more & Hm & H).
  injection H as <-. eauto 6.
Qed.

(** The location and the end of a node are those of its span. *)
Definition well_spanned (path : string) (n : AstNode) : Prop := exists line column end_line end_column,
  location n = (line, column) /\ line <> 0 /\ column <> 0 /\ span_of n "end_line" = Some end_line /\ span_of n "end_codepoint_column" = Some end_column /\
  (line < end_line \/ line = end_line /\ column <= end_column) /\ is_Some (sourceSpan path n).

(** The coordinates of a checked span. *)
Lemma verified_coordinates d : verifyCapturedSpan (get_dict "span" d) = inr tt -> exists span l c el ec, get_dict "span" d = Some span /\
  decodeU64 (dget "start_line" span) = inr l /\ decodeU64 (dget "start_codepoint_column" span) = inr c /\
  decodeU64 (dget "end_line" span) = inr el /\ decodeU64 (dget "end_codepoint_column" span) = inr ec /\
  (l <> 0 /\ c <> 0 /\ el <> 0 /\ ec <> 0) /\ (l < el \/ l = el /\ c <= ec).
Proof.
  destruct (get_dict "span" d) as [span|] eqn:Es; [|discriminate]. cbn [verifyCapturedSpan]. destruct (negb _); [discriminate|]. intros H.
  apply fbind_inr in H as (values & Hv & H). unfold span_names in Hv.
  apply span_step in Hv as (l & m0 & Hl & Nl & Hv & ->). apply span_step in Hv as (b & m1 & Hb & Nb & Hv & ->). apply span_step in Hv as (c & m2 & Hc & Nc & Hv & ->).
  apply span_step in Hv as (el & m3 & Hel & Nel & Hv & ->). apply span_step in Hv as (eb & m4 & Heb & Neb & Hv & ->). apply span_step in Hv as (ec & m5 & Hec & Nec & Hv & ->).
  injection Hv as <-.
  change ((if (el <? l) || ((el =? l) && ((eb <? b) || (ec <? c))) then failure "captured AST span ends before it starts" else success tt) = inr tt) in H.
  destruct (_ || _) eqn:Eo in H; [discriminate|]. apply orb_false_iff in Eo as [E1 E2]. apply Z.ltb_ge in E1.
  exists span, l, c, el, ec. repeat (split; [assumption || reflexivity|]). split; [auto|].
  destruct (Z.eqb_spec el l) as [->|]; [right|left; lia]. cbn [andb] in E2. apply orb_false_iff in E2 as [_ E2]. apply Z.ltb_ge in E2. auto.
Qed.

Lemma verified_span path n d : node_value n = Some d -> verifyCapturedSpan (get_dict "span" d) = inr tt -> well_spanned path n.
Proof.
  intros Ev H. apply verified_coordinates in H as (span & l & c & el & ec & Es & Hl & Hc & Hel & Hec & (Nl & Nc & _) & Ho).
  destruct (decode_coordinate _ _ _ _ _ Ev Es Hl) as (t1 & w1 & C1). destruct (decode_coordinate _ _ _ _ _ Ev Es Hc) as (t2 & w2 & C2).
  destruct (decode_coordinate _ _ _ _ _ Ev Es Hel) as (t3 & w3 & C3). destruct (decode_coordinate _ _ _ _ _ Ev Es Hec) as (t4 & w4 & C4).
  exists l, c, el, ec. unfold span_of, sourceSpan. rewrite C1, C2, C3, C4. split; [eapply location_coordinate; eassumption|]. repeat split; try assumption. eauto.
Qed.

(** The fields that the kind of a node promises. *)
Definition well_shaped (n : AstNode) : Prop := forall arrays nodes, (kind n, (arrays, nodes)) ∈ shape ->
  Forall (fun name => is_Some (array n name)) arrays /\ Forall (fun name => kind (child n name) <> "") nodes.

Lemma verified_kind d : verifyCapturedField (Dictionary d) = inr tt -> is_Some (get_string "kind" d) -> get_string "kind" d <> Some "".
Proof.
  rewrite verified_field_dict. intros H [k Hk]. destruct (encoded_integer d) eqn:E; [destruct (encoded_no_kind d k E Hk)|].
  apply verified_header in H as (form & fs & Ek & Hn & _). congruence.
Qed.

Lemma verified_shape n d : node_value n = Some d -> verifyCapturedNode (Dictionary d) = inr tt -> well_shaped n.
Proof.
  intros Ev Hd arrays nodes Hs. pose proof Hd as H. apply verified_header in H as (form & fs & Ek & Hn & Ef & _ & Hform).
  destruct (shape_node n d form fs Ev Ek Ef) as (Hk & _ & Hget & Harr). rewrite Hk in Hs. destruct (verify_form_shape _ _ _ _ _ Hs Hform) as [Ha Hc]. split.
  - eapply Forall_impl; [exact Ha|]. intros name H. rewrite Harr. exact H.
  - eapply Forall_impl; [exact Hc|]. intros name (a & Hg & Hnode). unfold kind, child. cbn [node_value]. rewrite Hget, Hg. destruct a as [| | | | | | |d'| |]; try discriminate.
    pose proof (verified_fields d fs Hd Ef) as Hf. rewrite Forall_forall in Hf. specialize (Hf _ (dget_elem _ _ _ Hg)). cbn [snd] in Hf. unfold is_node in Hnode.
    apply bool_decide_eq_true in Hnode. pose proof (verified_kind _ Hf Hnode) as Hk'. cbn [mbind option_bind as_dictionary]. destruct Hnode as [k' Ek']. rewrite Ek' in *. cbn. congruence.
Qed.

Lemma captured_module empty attributes source : readSingleCapture empty attributes = inr source -> exists d, node_value (source_module source) = Some d /\
  get_string "kind" d = Some "Module" /\ verifyCapturedNode (Dictionary d) = inr tt.
Proof.
  unfold readSingleCapture. destruct (negb empty); [discriminate|]. destruct (get_array _ attributes) as [[|[] []]|]; try discriminate.
  destruct (get_string "path" _); [|discriminate]. destruct (get_array "body" _) as [[|root []]|]; try discriminate. destruct (negb _); [discriminate|].
  destruct root; try discriminate. case_bool_decide as Ek; [|discriminate]. cbn [negb]. intros H. apply fbind_inr in H as ([] & Hv & H). injection H as <-. eauto.
Qed.

Lemma captured_path empty attributes source : readSingleCapture empty attributes = inr source -> node_path (source_module source) = [].
Proof.
  unfold readSingleCapture. destruct (negb empty); [discriminate|]. destruct (get_array _ attributes) as [[|[] []]|]; try discriminate.
  destruct (get_string "path" _); [|discriminate]. destruct (get_array "body" _) as [[|root []]|]; try discriminate. destruct (negb _); [discriminate|].
  destruct root; try discriminate. destruct (negb _); [discriminate|]. intros H. apply fbind_inr in H as ([] & Hv & H). injection H as <-. reflexivity.
Qed.

(** A node with a kind below an accepted capture was checked. *)
Lemma captured_node empty attributes source n : readSingleCapture empty attributes = inr source -> reaches (source_module source) n -> kind n <> "" ->
  exists d, node_value n = Some d /\ verifyCapturedNode (Dictionary d) = inr tt.
Proof.
  intros H Hn Hk. apply captured_module in H as (d & Ev & Ek & Hd). assert (Hv : verified_value (node_value n)) by (eapply reaches_verified; [rewrite Ev; right; exact Hd|exact Hn]).
  destruct (node_value n) as [d'|] eqn:E; [|unfold kind in Hk; rewrite E in Hk; contradiction]. destruct Hv as [Hi|Hv]; [|eauto].
  exfalso. apply Hk. unfold kind. rewrite E. cbn [mbind option_bind]. destruct (get_string "kind" d') eqn:Es; [destruct (encoded_no_kind _ _ Hi Es)|reflexivity].
Qed.


(** ** Shadowed names *)

(** What is read of a node does not depend on its path. *)
Definition same_value (n m : AstNode) : Prop := node_value n = node_value m.

Lemma same_get n m name : same_value n m -> get n name = get m name.
Proof. unfold same_value, get, fields. intros ->. reflexivity. Qed.

Lemma same_kind n m : same_value n m -> kind n = kind m.
Proof. unfold same_value, kind. intros ->. reflexivity. Qed.

Lemma same_string n m name : same_value n m -> string_of n name = string_of m name.
Proof. intros H. unfold string_of. rewrite (same_get _ _ _ H). reflexivity. Qed.

Lemma same_array n m name : same_value n m -> array n name = array m name.
Proof. intros H. unfold array. rewrite (same_get _ _ _ H). reflexivity. Qed.

Lemma same_child n m name : same_value n m -> same_value (child n name) (child m name).
Proof. intros H. unfold same_value, child. cbn [node_value]. rewrite (same_get _ _ _ H). reflexivity. Qed.

Lemma same_item n m name i : same_value n m -> same_value (item n name i) (item m name i).
Proof. intros H. unfold same_value, item. rewrite (same_array _ _ _ H). destruct (_ ≫= _); reflexivity. Qed.

Lemma same_existsb (f g : AstNode -> bool) n m name : same_value n m -> (forall a b, same_value a b -> f a = g b) -> existsb f (items n name) = existsb g (items m name).
Proof.
  intros H Hf. unfold items. rewrite (same_array _ _ _ H). induction (seq 0 (size_of (array m name))) as [|i l IH]; cbn; [reflexivity|].
  rewrite IH. f_equal. apply Hf, same_item, H.
Qed.

Lemma same_binds_body name f n m : same_value n m -> (forall a b, same_value a b -> f a tt = f b tt) -> binds_body name f n tt = binds_body name f m tt.
Proof.
  intros H IH. unfold binds_body, is_kind, kind_in. rewrite (same_kind _ _ H), !(same_string _ _ _ H). rewrite (IH _ _ (same_child _ _ "target" H)).
  rewrite !(same_existsb _ _ n m _ H IH). reflexivity.
Qed.

Lemma same_binds name n m : same_value n m -> binds name n tt = binds name m tt.
Proof.
  intros H. unfold binds, walk. replace (node_height m) with (node_height n) by (unfold node_height; rewrite H; reflexivity). generalize (S (node_height n)). intros k.
  revert n m H. induction k as [|k IH]; intros n m H; cbn [descend]; [reflexivity|]. apply same_binds_body; [exact H|exact IH].
Qed.

Lemma same_binds_locally name n m : same_value n m -> bindsLocally name n = bindsLocally name m.
Proof.
  intros H. unfold bindsLocally. pose proof (same_child _ _ "args" H) as Ha.
  rewrite (same_existsb _ (fun statement => binds name statement tt) n m "body" H (same_binds name)). f_equal. f_equal.
  - apply existsb_ext_elem. intros field _. apply same_existsb; [exact Ha|]. intros a b Hab. rewrite (same_string _ _ _ Hab). reflexivity.
  - cbn [existsb]. rewrite !(fun f => same_string _ _ "arg" (same_child _ _ f Ha)). reflexivity.
Qed.

Lemma binds_local name : local_body (binds_body name).
Proof.
  intros f g n H []. unfold binds_body. assert (Hany : forall field, existsb (fun m => f m tt) (items n field) = existsb (fun m => g m tt) (items n field)).
  { intros field. apply existsb_ext_elem. intros m Hm. apply H. eapply items_below, Hm. }
  rewrite !Hany. destruct (kind_in n ["AnnAssign"; "AugAssign"; "NamedExpr"; "For"]) eqn:Ek; [|reflexivity].
  rewrite (H (child n "target")); [reflexivity|]. apply child_below. eapply kind_in_present; [exact Ek|]. reflexivity.
Qed.

(** The paths of present nodes from one node down to another. *)
Inductive leads : AstNode -> list AstStep -> AstNode -> Prop :=
| leads_here n : leads n [] n
| leads_child a name p n : present (child a name) = true -> leads (child a name) p n -> leads a (mkStep name None :: p) n
| leads_item a name i p n : present (item a name i) = true -> leads (item a name i) p n -> leads a (mkStep name None :: mkStep "" (Some (Z.of_nat i)) :: p) n.

Lemma leads_app a p n q m : leads a p n -> leads n q m -> leads a (p ++ q) m.
Proof. induction 1; intros Hq; cbn [app]; [exact Hq|constructor 2; auto|constructor 3; auto]. Qed.

Lemma item_present n name i : present (item n name i) = true -> exists l a, array n name = Some l /\ l !! i = Some a /\
  item n name i = mkNode (as_dictionary a) (node_path n ++ [mkStep name None; mkStep "" (Some (Z.of_nat i))]).
Proof.
  intros H. apply item_some; [reflexivity|]. unfold item in H. destruct (array n name) as [l|]; [|discriminate]. cbn [mbind option_bind size_of] in *.
  destruct (l !! i) eqn:E; [|discriminate]. eapply lookup_lt_Some, E.
Qed.

Lemma reaches_leads root n : reaches root n -> present n = true -> exists p, node_path n = node_path root ++ p /\ leads root p n.
Proof.
  induction 1 as [|n name _ IH|n name i _ IH]; intros Hp.
  - exists []. rewrite app_nil_r. split; constructor.
  - destruct IH as (p & Ep & Hl); [unfold child, present, get, fields in *; cbn [node_value] in Hp; destruct (node_value n); [reflexivity|discriminate]|].
    exists (p ++ [mkStep name None]). cbn [child node_path]. rewrite Ep, app_assoc. split; [reflexivity|]. eapply leads_app; [exact Hl|]. constructor; [exact Hp|constructor].
  - destruct (item_present _ _ _ Hp) as (l & a & El & _ & Ei).
    destruct IH as (p & Ep & Hl); [unfold array, get, fields, present in *; destruct (node_value n); [reflexivity|discriminate]|].
    exists (p ++ [mkStep name None; mkStep "" (Some (Z.of_nat i))]). rewrite Ei at 1. cbn [node_path]. rewrite Ep, app_assoc. split; [reflexivity|].
    eapply leads_app; [exact Hl|]. constructor; [exact Hp|constructor].
Qed.

(** The scopes that enclose a use: the functions, classes and lambdas whose
    body leads to it. *)
Definition scope_kind (n : AstNode) : bool := kind_in n ["FunctionDef"; "ClassDef"; "Lambda"].
Definition in_body (scope n : AstNode) : Prop := exists m, (m = child scope "body" \/ exists i, m = item scope "body" i) /\ present m = true /\ reaches m n.
Definition shadowing (name : string) (root n : AstNode) : Prop :=
  exists scope, reaches root scope /\ scope_kind scope = true /\ bindsLocally name scope = true /\ in_body scope n.

(** A cache holds what the scopes bind. *)
Definition cache_ok (cache : ScopeCache) : Prop := Forall (fun e => snd e = bindsLocally (snd (fst e)) (mkNode (fst (fst e)) [])) cache.

Lemma cached_ok cache scope name b : cache_ok cache -> cached scope name cache = Some b -> b = bindsLocally name (mkNode scope []).
Proof.
  induction 1 as [|[[s m] c] cache Hc _ IH]; cbn [cached]; [discriminate|]. destruct (value_dec s scope) as [->|]; [|exact IH].
  destruct (decide (m = name)) as [->|]; [|exact IH]. intros [= <-]. exact Hc.
Qed.

Lemma scopeBinds_exact name scope cache : cache_ok cache -> fst (scopeBinds name scope cache) = bindsLocally name scope /\ cache_ok (snd (scopeBinds name scope cache)).
Proof.
  intros Hc. assert (E : bindsLocally name (mkNode (node_value scope) []) = bindsLocally name scope) by (apply same_binds_locally; reflexivity).
  unfold scopeBinds. destruct (cached _ _ _) as [b|] eqn:Eb; cbn [fst snd].
  - split; [|exact Hc]. rewrite (cached_ok _ _ _ _ Hc Eb). exact E.
  - split; [reflexivity|]. constructor; [|exact Hc]. cbn [fst snd]. symmetry. exact E.
Qed.

Lemma reaches_trans a b c : reaches a b -> reaches b c -> reaches a c.
Proof. intros Hab. induction 1; [exact Hab|constructor; assumption|constructor; assumption]. Qed.

Lemma leads_reaches a p n : leads a p n -> reaches a n.
Proof.
  induction 1; [constructor| |]; (eapply reaches_trans; [|eassumption]; constructor; constructor).
Qed.

(** A path to a child does not go on with an index. *)
Lemma leads_start a p n : leads a p n -> p = [] \/ exists name rest, p = mkStep name None :: rest.
Proof. destruct 1; eauto. Qed.

(** A path leads to one node. *)
Lemma leads_unique a p n : leads a p n -> forall m, leads a p m -> n = m.
Proof.
  induction 1 as [n|a name p n _ Hl IH|a name i p n _ Hl IH]; intros m Hm.
  - inversion Hm. reflexivity.
  - inversion Hm as [|? ? ? ? _ Hl'|? ? j q ? _ Hl']; subst; [exact (IH _ Hl')|]. destruct (leads_start _ _ _ Hl) as [E|(f & rest & E)]; discriminate.
  - inversion Hm as [|? ? ? ? _ Hl'|? ? j q ? _ Hl']; subst; [destruct (leads_start _ _ _ Hl') as [E|(f & rest & E)]; discriminate|]. assert (i = j) as <- by lia. exact (IH _ Hl').
Qed.

Lemma reaches_unique root n m : reaches root n -> reaches root m -> present n = true -> present m = true -> node_path n = node_path m -> n = m.
Proof.
  intros Hn Hm Pn Pm E. destruct (reaches_leads _ _ Hn Pn) as (p & Ep & Hp), (reaches_leads _ _ Hm Pm) as (q & Eq & Hq).
  assert (p = q) as <- by (apply (app_inv_head (node_path root)); congruence). exact (leads_unique _ _ _ Hp _ Hq).
Qed.

Section Shadow.
Variable name : string.

(** Whether the walk stops at a scope that it enters through [field]. *)
Definition stops (a : AstNode) (field : string) : bool := scope_kind a && bool_decide (field = "body") && bindsLocally name a.

(** One move of the walk, to a child or to an item. *)
Lemma along_child a field p n cache : cache_ok cache -> present (child a field) = true -> leads (child a field) p n -> exists cache', cache_ok cache' /\
  shadowed_along name a (mkStep field None :: p) cache = if stops a field then (true, cache') else shadowed_along name (child a field) p cache'.
Proof.
  intros Hc Hp Hl. pose proof (leads_start _ _ _ Hl) as Hs. cbn [shadowed_along step_index step_field]. unfold stops, scope_kind.
  destruct (scopeBinds_exact name a cache Hc) as [Eb Hc']. destruct (scopeBinds name a cache) as [b cache'] eqn:Es. cbn [fst snd] in Eb, Hc'. subst b.
  destruct (kind_in a _ && bool_decide _) eqn:E; [exists cache'|exists cache]; (split; [assumption|]); cbn [andb].
  - destruct (bindsLocally name a); [reflexivity|]. destruct Hs as [->|(f & rest & ->)]; rewrite Hp; reflexivity.
  - destruct Hs as [->|(f & rest & ->)]; rewrite Hp; reflexivity.
Qed.

Lemma along_item a field i p cache : cache_ok cache -> present (item a field i) = true -> exists cache', cache_ok cache' /\
  shadowed_along name a (mkStep field None :: mkStep "" (Some (Z.of_nat i)) :: p) cache = if stops a field then (true, cache') else shadowed_along name (item a field i) p cache'.
Proof.
  intros Hc Hp. cbn [shadowed_along step_index step_field]. unfold stops, scope_kind. rewrite Nat2Z.id.
  destruct (scopeBinds_exact name a cache Hc) as [Eb Hc']. destruct (scopeBinds name a cache) as [b cache'] eqn:Es. cbn [fst snd] in Eb, Hc'. subst b.
  destruct (kind_in a _ && bool_decide _) eqn:E; [exists cache'|exists cache]; (split; [assumption|]); cbn [andb].
  - destruct (bindsLocally name a); [reflexivity|]. rewrite Hp. reflexivity.
  - rewrite Hp. reflexivity.
Qed.

Lemma stops_shadowing a field m n : stops a field = true -> (m = child a field \/ exists i, m = item a field i) -> present m = true -> reaches m n -> shadowing name a n.
Proof.
  unfold stops. rewrite !andb_true_iff, bool_decide_eq_true. intros [[Hk ->] Hb] Hm Hp Hr. exists a. repeat split; try assumption; [constructor|]. exists m. auto.
Qed.

Lemma shadowing_below a m n : reaches a m -> shadowing name m n -> shadowing name a n.
Proof. intros Ha (scope & Hr & H). exists scope. split; [|exact H]. eapply reaches_trans; eassumption. Qed.

(** What the walk finds encloses the use, and the cache stays right. *)
Lemma along_sound a p n cache : leads a p n -> cache_ok cache -> cache_ok (snd (shadowed_along name a p cache)) /\
  (fst (shadowed_along name a p cache) = true -> shadowing name a n).
Proof.
  intros Hl. revert cache. induction Hl as [n|a field p n Hp Hl IH|a field i p n Hp Hl IH]; intros cache Hc; [split; [exact Hc|discriminate]| |].
  - destruct (along_child a field p n cache Hc Hp Hl) as (cache' & Hc' & ->). destruct (stops a field) eqn:E; [split; [exact Hc'|intros _]|].
    + eapply stops_shadowing; [exact E|left; reflexivity|exact Hp|eapply leads_reaches, Hl].
    + destruct (IH cache' Hc') as [H1 H2]. split; [exact H1|]. intros H. eapply shadowing_below; [constructor; constructor|exact (H2 H)].
  - destruct (along_item a field i p cache Hc Hp) as (cache' & Hc' & ->). destruct (stops a field) eqn:E; [split; [exact Hc'|intros _]|].
    + eapply stops_shadowing; [exact E|right; eexists; reflexivity|exact Hp|eapply leads_reaches, Hl].
    + destruct (IH cache' Hc') as [H1 H2]. split; [exact H1|]. intros H. eapply shadowing_below; [constructor; constructor|exact (H2 H)].
Qed.

(** The walk does not pass a scope that binds the name. *)
Lemma along_complete a p scope q n cache : leads a p scope -> leads scope q n -> cache_ok cache -> (forall cache, cache_ok cache -> fst (shadowed_along name scope q cache) = true) ->
  fst (shadowed_along name a (p ++ q) cache) = true.
Proof.
  intros Hl Hq Hc Hs. revert cache Hc. induction Hl as [scope|a field p scope Hp Hl IH|a field i p scope Hp Hl IH]; intros cache Hc; [exact (Hs cache Hc)| |]; cbn [app].
  - destruct (along_child a field (p ++ q) n cache Hc Hp (leads_app _ _ _ _ _ Hl Hq)) as (cache' & Hc' & ->). destruct (stops a field); [reflexivity|]. apply IH; assumption.
  - destruct (along_item a field i (p ++ q) cache Hc Hp) as (cache' & Hc' & ->). destruct (stops a field); [reflexivity|]. apply IH; assumption.
Qed.

Lemma stops_scope scope : scope_kind scope = true -> bindsLocally name scope = true -> stops scope "body" = true.
Proof. unfold stops. intros -> ->. reflexivity. Qed.
End Shadow.


Module Capture.
(** A captured file:
    [from pycircuit import module, rule]
    [@module def top(): r: Word; @rule def left(x=r): x.lo = 0;]
    [@rule def right(x=r): if go: x[1] = 0; @rule def both(x=r): x = 0] *)
Definition one_based : Attr := IntegerAttribute (IntegerType Signless 64) 64 1.
Definition span : Attr := Dictionary ((fun name => (name, one_based)) <$>
  ["end_byte_column"; "end_codepoint_column"; "end_line"; "start_byte_column"; "start_codepoint_column"; "start_line"]).
Definition syntax (kind : string) (fields : list (string * Attr)) : Attr := Dictionary [("fields", Dictionary fields); ("kind", StringAttribute kind); ("span", span)].
Definition name (id : string) : Attr := syntax "Name" [("id", StringAttribute id)].
Definition number (digits : string) : Attr := syntax "Constant" [("value", Dictionary [("integer", StringAttribute digits)])].
Definition assign (target : Attr) : Attr := syntax "Assign" [("targets", ArrayAttribute [target]); ("value", number "0")].
Definition no_items : Attr := ArrayAttribute [].
Definition arguments (args defaults : list Attr) : Attr :=
  syntax "arguments" [("args", ArrayAttribute args); ("defaults", ArrayAttribute defaults); ("kw_defaults", no_items); ("kwarg", UnitAttribute);
                      ("kwonlyargs", no_items); ("posonlyargs", no_items); ("vararg", UnitAttribute)].
Definition function (id decorator : string) (args : Attr) (body : list Attr) : Attr :=
  syntax "FunctionDef" [("args", args); ("body", ArrayAttribute body); ("decorator_list", ArrayAttribute [name decorator]); ("name", StringAttribute id); ("returns", UnitAttribute)].
Definition on_register : Attr := arguments [syntax "arg" [("annotation", UnitAttribute); ("arg", StringAttribute "x")]] [name "r"].
Definition alias (id : string) : Attr := syntax "alias" [("asname", UnitAttribute); ("name", StringAttribute id)].

Definition left_rule : Attr := function "left" "rule" on_register [assign (syntax "Attribute" [("attr", StringAttribute "lo"); ("value", name "x")])].
Definition right_rule : Attr := function "right" "rule" on_register
  [syntax "If" [("body", ArrayAttribute [assign (syntax "Subscript" [("slice", number "1"); ("value", name "x")])]); ("orelse", no_items); ("test", name "go")]].
Definition both_rule : Attr := function "both" "rule" on_register [assign (name "x")].

Definition file : list Attr :=
  [syntax "ImportFrom" [("level", Dictionary [("integer", StringAttribute "0")]); ("module", StringAttribute "pycircuit"); ("names", ArrayAttribute [alias "module"; alias "rule"])];
   function "top" "module" (arguments [] [])
     [syntax "AnnAssign" [("annotation", name "Word"); ("simple", Dictionary [("integer", StringAttribute "1")]); ("target", name "r"); ("value", UnitAttribute)];
      left_rule; right_rule; both_rule]].

Definition capture : DictionaryAttr :=
  [("ac.python_capture", ArrayAttribute [Dictionary [("body", ArrayAttribute [syntax "Module" [("body", ArrayAttribute file)]]); ("path", StringAttribute "top.py")]])].

Definition source : CapturedSource := mkCaptured "top.py" (mkNode (as_dictionary (syntax "Module" [("body", ArrayAttribute file)])) []).

Lemma capture_read : readSingleCapture true capture = inr source.
Proof. vm_compute. reflexivity. Qed.


(** The statement of the rule [left], inside [top] and [left]. *)
Definition use : AstNode := item (item (item (source_module source) "body" 1) "body" 1) "body" 0.

End Capture.
