(* ===== verification/PythonSyntax.v ===== *)
(** * Markers of the source ([PythonImportEnumSyntax.cpp])

    Decorators and type names of the captured source are recognised by what
    they were imported from, never by their spelling.  This file models that
    classification and the search for a decorator. *)

From Stdlib Require Import ZArith Lia String.
From stdpp Require Import base list numbers strings.
From S2P Require Import Prelude ModelInput CompilerPrelude ApInt StaticValues PythonAst.

Open Scope string_scope.
Open Scope list_scope.

(** ** Markers *)

Inductive MarkerKind :=
| MarkerNone | MarkerEnum | MarkerAuto | MarkerEncoding | MarkerEnumToBits | MarkerEnumFromBits | MarkerModule | MarkerSystem | MarkerRule | MarkerMethod
| MarkerStruct | MarkerBits | MarkerTable | MarkerQueue | MarkerConcat | MarkerFourState | MarkerCaseEq | MarkerIsKnown | MarkerPopcount
| MarkerCountLeadingZeros | MarkerCountTrailingZeros | MarkerPriorityEncode | MarkerOnehotEncode.
#[export] Instance MarkerKind_eq_dec : EqDecision MarkerKind.
Proof. solve_decision. Defined.

(** The cases of a [StringSwitch]. *)
Fixpoint string_switch {A} (cases : list (string * A)) (otherwise : A) (s : string) : A :=
  match cases with
  | [] => otherwise
  | (name, a) :: rest => if decide (name = s) then a else string_switch rest otherwise s
  end.

Definition enum_markers : list (string * MarkerKind) := [("Enum", MarkerEnum); ("auto", MarkerAuto)].

Definition pycircuit_markers : list (string * MarkerKind) :=
  [("encoding", MarkerEncoding); ("enum_to_bits", MarkerEnumToBits); ("enum_from_bits", MarkerEnumFromBits); ("module", MarkerModule); ("system", MarkerSystem);
   ("rule", MarkerRule); ("method", MarkerMethod); ("struct", MarkerStruct); ("bits", MarkerBits); ("table", MarkerTable); ("queue", MarkerQueue);
   ("concat", MarkerConcat); ("four_state", MarkerFourState); ("case_eq", MarkerCaseEq); ("is_known", MarkerIsKnown); ("popcount", MarkerPopcount);
   ("count_leading_zeros", MarkerCountLeadingZeros); ("count_trailing_zeros", MarkerCountTrailingZeros); ("priority_encode", MarkerPriorityEncode);
   ("onehot_encode", MarkerOnehotEncode)].

Definition classifyImportedMarker (module remoteName : string) : MarkerKind :=
  if decide (module = "enum") then string_switch enum_markers MarkerNone remoteName
  else if negb (bool_decide (module = "pycircuit")) then MarkerNone
  else string_switch pycircuit_markers MarkerNone remoteName.

Record ResolvedSourceBinding := mkResolved { marker : MarkerKind; nominalSymbol : option string }.

(** ** Lexical queries *)

Section Lexical.
Context {S : Type}.
(** [LexicalBindings]: the resolution of the importer, if any. *)
Variable bindings : option (AstNode -> S -> option ResolvedSourceBinding * S).

Definition lookup_binding (node : AstNode) : C S (option ResolvedSourceBinding) := fun s =>
  match bindings with Some f => let '(r, s) := f node s in (Some r, s) | None => (Some None, s) end.

Definition resolvesMarker (node : AstNode) (wanted : MarkerKind) : C S bool :=
  if negb (present node) || negb (bool_decide (is_Some bindings)) || bool_decide (wanted = MarkerNone) then cret false
  else
    let+ resolved := lookup_binding node in
    cret match resolved with Some r => bool_decide (marker r = wanted) && negb (bool_decide (is_Some (nominalSymbol r))) | None => false end.

(** Decorators that may be written as a call. *)
Definition callable_marker (m : MarkerKind) : bool :=
  match m with MarkerModule | MarkerEncoding | MarkerRule | MarkerMethod | MarkerSystem => true | _ => false end.

Fixpoint any_decorator (decorators : list AstNode) (wanted : MarkerKind) : C S bool :=
  match decorators with
  | [] => cret false
  | decorator :: rest =>
    let target := if is_kind decorator "Call" && callable_marker wanted then child decorator "func" else decorator in
    let+ found := resolvesMarker target wanted in
    if (found : bool) then cret true else any_decorator rest wanted
  end.

Definition hasSourceDecorator (declaration : AstNode) (wanted : MarkerKind) : C S bool := any_decorator (items declaration "decorator_list") wanted.
End Lexical.
