(* ===== verification/RuleWrites.v ===== *)
(** * The writes of registered rules ([SourceRuleWrites.cpp])

    A module registers rules that assign parts of the registers and tables it
    owns.  Before anything is lowered this analysis collects, for every
    registration, the paths that its rule assigns, and the pairs of
    registrations whose paths may overlap: each such pair needs a proof that
    the two rules are never enabled together. *)

From Stdlib Require Import ZArith Lia String.
From stdpp Require Import base list numbers strings gmap.
From S2P Require Import Prelude ModelInput CompilerPrelude ApInt ValueSemantics StaticValues PythonAst PythonSyntax.

Open Scope string_scope.
Open Scope list_scope.
Open Scope Z_scope.

(** ** Paths *)

Inductive SelectorKind := FieldSelector | IndexSelector.
#[export] Instance SelectorKind_eq_dec : EqDecision SelectorKind.
Proof. solve_decision. Defined.

(** The constant of an index is the canonical spelling of its integer. *)
Record SourceWriteSelector := mkSelector { sel_kind : SelectorKind; sel_field : string; sel_occurrence : AstNode; directConstantInteger : option (list Z) }.
Record SourceWritePath := mkPath { selectors : list SourceWriteSelector; assignment : AstNode }.
Record SourceOwnerWrite := mkOwnerWrite { w_owner : AstNode; w_formal : string; w_paths : list SourceWritePath }.
Record SourceRuleBinding := mkBinding { b_ordinal : nat; b_expression : AstNode }.
Inductive PlanKind := LocalDeclaration | GlobalTemplateCall.
Record SourceRuleCallPlan := mkPlan {
  p_module : AstNode; p_occurrence : AstNode; p_rule : AstNode; p_kind : PlanKind; p_statement : AstNode;
  p_bindings : list SourceRuleBinding; p_writes : list SourceOwnerWrite }.
Record SourcePendingWritePair := mkPair { pw_module : AstNode; pw_owner : AstNode; firstCall : AstNode; secondCall : AstNode; firstAssignment : AstNode; secondAssignment : AstNode }.

Definition sameOccurrence (a b : AstNode) : bool := bool_decide (a = b).

Definition spelling_dec (a b : option (list Z)) : {a = b} + {a <> b}.
Proof. decide equality. apply (List.list_eq_dec Z.eq_dec). Defined.

(** The selector [left_] stands for the same element as [right_]. *)
Definition selector_covers (left_ right_ : SourceWriteSelector) : bool :=
  if negb (bool_decide (sel_kind left_ = sel_kind right_)) then false
  else
    match sel_kind left_ with
    | FieldSelector => bool_decide (sel_field left_ = sel_field right_)
    | IndexSelector =>
      match directConstantInteger left_, directConstantInteger right_ with
      | None, None => sameOccurrence (sel_occurrence left_) (sel_occurrence right_)
      | l, r => if spelling_dec l r then true else false
      end
    end.

Fixpoint zip_all (f : SourceWriteSelector -> SourceWriteSelector -> bool) (a b : list SourceWriteSelector) : bool :=
  match a, b with x :: a, y :: b => f x y && zip_all f a b | _, _ => true end.

Definition covers (a b : list SourceWriteSelector) : bool := (length a <=? length b)%nat && zip_all selector_covers a b.

Fixpoint overlaps (a b : list SourceWriteSelector) : bool :=
  match a, b with
  | left_ :: a, right_ :: b =>
    if negb (bool_decide (sel_kind left_ = sel_kind right_)) then true
    else
      match sel_kind left_ with
      | FieldSelector => if negb (bool_decide (sel_field left_ = sel_field right_)) then false else overlaps a b
      | IndexSelector =>
        match directConstantInteger left_, directConstantInteger right_ with
        | Some l, Some r => if bool_decide (l = r) then overlaps a b else false
        | _, _ => overlaps a b
        end
      end
  | _, _ => true
  end.

(** ** The state of the analysis *)

Record ImportBinding := mkImport { im_module : string; im_remote : string; nameSpace : bool }.

Record Analysis := mkAnalysis {
  imports : gmap string ImportBinding;
  calls : list SourceRuleCallPlan;
  pending : list SourcePendingWritePair;
  work : Z;
  scope_cache : ScopeCache;
  (** the diagnostics emitted so far *)
  diagnostics : list string;
}.

Definition fresh_analysis : Analysis := mkAnalysis ∅ [] [] 0 [] [].

#[local] Abbreviation M := (C Analysis).

Definition set_imports (x : gmap string ImportBinding) : M unit := fun s => (Some tt, mkAnalysis x (calls s) (pending s) (work s) (scope_cache s) (diagnostics s)).
Definition push_call (p : SourceRuleCallPlan) : M unit := fun s => (Some tt, mkAnalysis (imports s) (calls s ++ [p]) (pending s) (work s) (scope_cache s) (diagnostics s)).
Definition push_pending (p : SourcePendingWritePair) : M unit := fun s => (Some tt, mkAnalysis (imports s) (calls s) (pending s ++ [p]) (work s) (scope_cache s) (diagnostics s)).
Definition emit (message : string) (s : Analysis) : Analysis := mkAnalysis (imports s) (calls s) (pending s) (work s) (scope_cache s) (diagnostics s ++ [message]).
Definition read {A} (f : Analysis -> A) : M A := fun s => (Some (f s), s).

(** [return diagnostic(node) << message]. *)
Definition diagnose {A} (message : string) : M A := fun s => (None, emit message s).

(** Emits the diagnostic of a failed check. *)
Definition checked {A} (r : FailureOr A) : M A := match r with inr a => cret a | inl message => diagnose message end.

Definition work_limit : Z := 1048576.

Definition charge (amount : Z) (s : Analysis) : bool * Analysis :=
  if work_limit - work s <? amount then (false, emit "owner-enable proof work budget exhausted during write planning" s)
  else (true, mkAnalysis (imports s) (calls s) (pending s) (work s + amount) (scope_cache s) (diagnostics s)).

#[local] Abbreviation pay := (PythonAst.pay charge).

Definition path_size (l : list SourceWriteSelector) : Z := Z.of_nat (length l).

(** ** Targets *)

Section Targets.
Context `{L : ApLib}.

(** [staticValue]: a null dictionary is [None]. *)
Definition staticValue (raw : option Attr) : FailureOr (option DictionaryAttr) :=
  match raw with
  | Some (Boolean b) => success (Some [("kind", StringAttribute "bool"); ("value", Boolean b)])
  | _ =>
    match (raw ≫= as_dictionary) ≫= get_string "integer" with
    | None => success None
    | Some spelling =>
      let! value := parseMathIntAttr (lit spelling) in
      match value with
      | MathIntAttr digits => success (Some [("kind", StringAttribute "integer"); ("value", MathInt digits)])
      | _ => success None
      end
    end
  end.

(** The constant of an index expression. *)
Definition index_constant (index : AstNode) : M (option (list Z)) :=
  match (if is_kind index "Constant" then get index "value" ≫= as_dictionary else None) with
  | Some raw =>
    match get_string "integer" raw with
    | Some spelling =>
      let+ _ := pay (text_size spelling) in
      let+ encoded := checked (staticValue (Some (Dictionary raw))) in
      match encoded with
      | Some encoded => cret (get_math "value" encoded)
      | None => refuse
      end
    | None => cret None
    end
  | None => cret None
  end.

(** The loop of [targetPath]: the base, and the selectors from the last to the
    first. *)
Definition target_steps : AstNode -> list SourceWriteSelector * Analysis -> option (AstNode * list SourceWriteSelector) * Analysis :=
  walk (fun self base x => let '(found, s) := x in
    (if kind_in base ["Attribute"; "Subscript"] then
       let+ _ := pay 1 in
       let+ selector :=
         if is_kind base "Attribute" then cret (mkSelector FieldSelector (string_of base "attr") base None)
         else
           let index := child base "slice" in
           let+ integer := index_constant index in
           cret (mkSelector IndexSelector "" index integer) in
       fun s => self (child base "value") (found ++ [selector], s)
     else cret (base, found)) s) (fun x => (None, snd x)).

(** The name of the base, empty where it is not a name, and the selectors. *)
Definition targetPath (target : AstNode) : M (string * list SourceWriteSelector) := fun s =>
  let '(r, s) := target_steps target ([], s) in
  match r with
  | Some (base, found) => (Some (if is_kind base "Name" then string_of base "id" else "", rev found), s)
  | None => (None, s)
  end.
End Targets.

(** The first loop of [addPath]: whether a prior path covers the new one. *)
Fixpoint find_cover (prior : list SourceWritePath) (path : SourceWritePath) : M bool :=
  match prior with
  | [] => cret false
  | p :: rest =>
    let+ _ := pay (1 + path_size (selectors p) + path_size (selectors path)) in
    if covers (selectors p) (selectors path) then cret true else find_cover rest path
  end.

Definition addPath (owner : SourceOwnerWrite) (path : SourceWritePath) : M SourceOwnerWrite :=
  let+ covered := find_cover (w_paths owner) path in
  if (covered : bool) then cret owner
  else
    let+ _ := cfold (fun _ prior => pay (1 + path_size (selectors prior) + path_size (selectors path))) (w_paths owner) tt in
    cret (mkOwnerWrite (w_owner owner) (w_formal owner) (filter (fun prior => covers (selectors path) (selectors prior) = false) (w_paths owner) ++ [path])).

(** ** Bindings of the source *)

Section Source.
Context `{L : ApLib}.
Variable source : CapturedSource.

Definition shadowed (node : AstNode) (name : string) : M bool := fun s =>
  let '(b, cache) := sourceBindingShadowed source node name (scope_cache s) in
  (Some b, mkAnalysis (imports s) (calls s) (pending s) (work s) cache (diagnostics s)).

Definition binding (node : AstNode) (s : Analysis) : option ResolvedSourceBinding * Analysis :=
  let base := if is_kind node "Attribute" then child node "value" else node in
  if negb (is_kind base "Name") then (None, s)
  else
    let '(hidden, s) := shadowed base (string_of base "id") s in
    if default false hidden then (None, s)
    else
      match imports s !! string_of base "id" with
      | None => (None, s)
      | Some imported =>
        if is_kind node "Attribute" then
          (if nameSpace imported then Some (mkResolved (classifyImportedMarker (im_module imported) (string_of node "attr")) None) else None, s)
        else
          (if nameSpace imported then None else Some (mkResolved (classifyImportedMarker (im_module imported) (im_remote imported)) None), s)
      end.

Definition resolves (node : AstNode) (wanted : MarkerKind) : M bool := resolvesMarker (Some binding) node wanted.
Definition hasDecorator (node : AstNode) (name : string) : M bool := hasSourceDecorator (Some binding) node (classifyImportedMarker "pycircuit" name).

(** What the statements of a module may refer to. *)
Record ModuleScope := mkScope {
  ms_module : AstNode;
  rules : gmap string AstNode;
  nestedRuleNames : gset string;
  moduleShadows : gset string;
  moduleFormalShadows : gset string;
  ordinaryData : gset string;
  ruleResultAliases : gset string;
  owners : gmap string AstNode;
  firstCallIndex : nat;
}.

(** ** Registration of a rule *)

Definition formal_names (formals : AstNode) : list string := (fun n => string_of n "arg") <$> items formals "args".

(** The actuals of a registration, in the order of the formals, and the order
    of their evaluation. *)
Definition registration_actuals (local : bool) (call formals : AstNode) : FailureOr (list AstNode * list nat) :=
  let names := formal_names formals in
  if local then
    if negb (Nat.eqb (size_of (array formals "defaults")) (length names)) then failure "autonomous Rule formal requires an explicit default binding"
    else success (item formals "defaults" <$> seq 0 (length names), seq 0 (length names))
  else normalizeCallArguments call names "behavioral rule call argument arity mismatch" 0.

(** The owners that the actuals name: the writes to collect, the write of each
    formal and how often an owner is named. *)
Record OwnerTable := mkOwners { t_writes : list SourceOwnerWrite; ownerForFormal : gmap string nat; aliases : gmap string nat }.

Definition bind_owner (scope : ModuleScope) (table : OwnerTable) (formal : string * AstNode) : M OwnerTable :=
  let+ _ := pay 1 in
  let '(name, actual) := formal in
  if negb (is_kind actual "Name") then cret table
  else
    match owners scope !! string_of actual "id" with
    | None => cret table
    | Some owner =>
      cret (mkOwners (t_writes table ++ [mkOwnerWrite owner name []]) (<[name := length (t_writes table)]> (ownerForFormal table))
                     (<[string_of actual "id" := S (default 0%nat (aliases table !! string_of actual "id"))]> (aliases table)))
    end.

(** The visit of one target. *)
Definition record_leaf (table : gmap string nat) (stmt : AstNode) (writes : list SourceOwnerWrite) (leaf : AstNode) : M (list SourceOwnerWrite) :=
  let+ _ := pay 1 in
  let+ target := targetPath leaf in
  match table !! fst target ≫= (fun i => (i,.) <$> writes !! i) with
  | Some (i, owner) => let+ owner := addPath owner (mkPath (snd target) stmt) in cret (<[i := owner]> writes)
  | None => cret writes
  end.

(** The targets that a statement assigns itself. *)
Definition statement_targets (stmt : AstNode) : list AstNode :=
  if is_kind stmt "Assign" then items stmt "targets"
  else if kind_in stmt ["AnnAssign"; "For"] then [child stmt "target"]
  else [].

(** The blocks of a statement that are scanned with it. *)
Definition statement_blocks (stmt : AstNode) : list (AstNode * string) :=
  if is_kind stmt "For" then [(stmt, "body")]
  else if is_kind stmt "If" then [(stmt, "body"); (stmt, "orelse")]
  else if is_kind stmt "Match" then (fun case => (case, "body")) <$> items stmt "cases"
  else [].

Definition scanWrites (table : gmap string nat) : AstNode -> string * list SourceOwnerWrite * Analysis -> option (list SourceOwnerWrite) * Analysis :=
  walk (fun self parent x => let '(field, writes, s) := x in
    cfold (fun writes stmt =>
      let+ _ := pay 1 in
      let+ writes := cfold (fun writes target => cfold (record_leaf table stmt) (assignment_leaves target tt) writes) (statement_targets stmt) writes in
      cfold (fun writes (block : AstNode * string) s => self (fst block) (snd block, writes, s)) (statement_blocks stmt) writes)
      (items parent field) writes s) (fun x => (None, snd x)).

(** The name that the declaration of an owner gives it. *)
Definition owner_name (owner : AstNode) : string :=
  if is_kind owner "AnnAssign" then string_of (child owner "target") "id" else string_of (item owner "targets" 0) "id".

Definition pending_limit : nat := 8192.

(** The first overlapping pair of paths of two writes. *)
Fixpoint find_previous (path : SourceWritePath) (previous : list SourceWritePath) : M (option SourceWritePath) :=
  match previous with
  | [] => cret None
  | p :: rest =>
    let+ _ := pay (1 + path_size (selectors path) + path_size (selectors p)) in
    if overlaps (selectors path) (selectors p) then cret (Some p) else find_previous path rest
  end.

Fixpoint record_overlap (scope : ModuleScope) (call : AstNode) (owner first : AstNode) (paths previous : list SourceWritePath) : M unit :=
  match paths with
  | [] => cret tt
  | path :: rest =>
    let+ found := find_previous path previous in
    match found with
    | None => record_overlap scope call owner first rest previous
    | Some p =>
      let+ recorded := read (fun s => length (pending s)) in
      if Nat.eqb recorded pending_limit then diagnose "owner-enable proof pending pair budget exhausted"
      else push_pending (mkPair (ms_module scope) owner first call (assignment p) (assignment path))
    end
  end.

(** One write against one write of an earlier registration. *)
Definition compare_writes (scope : ModuleScope) (call first : AstNode) (write other : SourceOwnerWrite) : M unit :=
  let+ _ := pay 1 in
  if negb (sameOccurrence (w_owner write) (w_owner other)) then cret tt
  else record_overlap scope call (w_owner write) first (w_paths write) (w_paths other).

Definition compare_with_earlier (scope : ModuleScope) (call : AstNode) (counts : gmap string nat) (write : SourceOwnerWrite) : M unit :=
  if (1 <? default 0%nat (counts !! owner_name (w_owner write)))%nat then diagnose "overlapping writable owner aliases"
  else
    let+ earlier := read (fun s => drop (firstCallIndex scope) (calls s)) in
    cfold (fun _ prior => cfold (fun _ other => compare_writes scope call (p_occurrence prior) write other) (p_writes prior) tt) earlier tt.

(** The registration of a call or of a local rule.  (The count of
    registrations by name is not read by anyone.) *)
Definition registerCall (scope : ModuleScope) (call statement : AstNode) : M unit :=
  let+ _ := pay 1 in
  let local := is_kind call "FunctionDef" in
  let function := if local then call else child call "func" in
  if negb local && negb (is_kind function "Name") then cret tt
  else
    let name := string_of function (if local then "name" else "id") in
    match rules scope !! name with
    | None => cret tt
    | Some rule =>
      let+ hidden := if negb local && negb (bool_decide (string_of function "id" ∈ nestedRuleNames scope)) then shadowed function (string_of function "id") else cret false in
      if (hidden : bool) then diagnose "source rule binding is shadowed in its lexical scope"
      else
        let formals := child rule "args" in
        let+ bound := checked (registration_actuals local call formals) in
        let bindings := (fun ordinal => mkBinding ordinal (default no_node (fst bound !! ordinal))) <$> snd bound in
        let+ table := cfold (bind_owner scope) (zip (formal_names formals) (fst bound)) (mkOwners [] ∅ ∅) in
        let+ writes := (fun s => scanWrites (ownerForFormal table) rule ("body", t_writes table, s)) in
        let writes := filter (fun write => w_paths write <> []) writes in
        let+ _ := cfold (fun _ write => compare_with_earlier scope call (aliases table) write) writes tt in
        push_call (mkPlan (ms_module scope) call rule (if local then LocalDeclaration else GlobalTemplateCall) statement bindings writes)
    end.

(** ** Names bound in a scope *)

(** [bindTarget]: the names that a target binds. *)
Definition target_names : AstNode -> unit -> list string :=
  walk (fun self target _ =>
    if is_kind target "Name" then [string_of target "id"]
    else if kind_in target ["Tuple"; "List"] then flat_map (fun element => self element tt) (items target "elts")
    else []) (fun _ => []).

Definition bound_names (node : AstNode) : list string :=
  if is_kind node "Assign" then flat_map (fun target => target_names target tt) (items node "targets")
  else if kind_in node ["AnnAssign"; "AugAssign"; "For"; "NamedExpr"] then target_names (child node "target") tt
  else [].

Definition collectLocals : AstNode -> gset string * Analysis -> option (gset string) * Analysis :=
  walk (fun self node x => let '(bound, s) := x in
    (if negb (present node) then refuse
     else
       let+ _ := pay 1 in
       if kind_in node ["FunctionDef"; "ClassDef"] then
         let+ rule := hasDecorator node "rule" in
         cret (if (rule : bool) then bound else {[string_of node "name"]} ∪ bound)
       else
         cfold (fun bound statement s => self statement (bound, s)) (items node "body" ++ items node "orelse") (list_to_set (bound_names node) ∪ bound)) s)
    (fun x => (None, snd x)).

(** The names of the arguments of a callable. *)
Definition argument_names (arguments : AstNode) : list string :=
  flat_map (fun field => (fun n => string_of n "arg") <$> items arguments field) ["args"; "posonlyargs"; "kwonlyargs"].

Definition orderBefore (scope : ModuleScope) (use : AstNode) (name : string) : M bool :=
  match rules scope !! name with
  | Some rule =>
    if negb (bool_decide (name ∈ nestedRuleNames scope)) then cret false
    else
      let+ order := sourceDeclarationOrder charge source (ms_module scope) use rule in
      cret match order with Before => true | _ => false end
  | None => cret false
  end.

(** ** Occurrences of rules in expressions *)

(** Where an occurrence stands. *)
Record Context_ := mkContext { registration : AstNode; shadows : gset string; callableScope : bool; captureSite : option AstNode; transactionScope : bool }.

(** The nodes in the fields of a node, in the order of the dictionary. *)
Definition field_nodes (skip : string -> bool) (node : AstNode) : list AstNode :=
  flat_map (fun field : string * Attr =>
    let '(name, value) := field in
    if skip name then []
    else
      match value with
      | ArrayAttribute l => item node name <$> filter (fun j => default false (is_node <$> l !! j) = true) (seq 0 (length l))
      | Dictionary d => if bool_decide (is_Some (get_string "kind" d)) then [child node name] else []
      | _ => []
      end) (default [] (fields node)).

Definition called_name (node : AstNode) : option string :=
  if is_kind node "Call" && is_kind (child node "func") "Name" then Some (string_of (child node "func") "id") else None.

(** The name that a node refers to, or none. *)
Definition referenced (node : AstNode) : string :=
  if is_kind node "Name" then string_of node "id" else default "" (called_name node).

(** The scope inside a function or lambda, defaults checked. *)
Definition callable_context (scope : ModuleScope) (self : AstNode -> Context_ -> M unit) (node : AstNode) (ctx : Context_) : M Context_ :=
  if negb (kind_in node ["FunctionDef"; "Lambda"]) then cret ctx
  else
    let+ transaction :=
      if is_kind node "FunctionDef" then
        let+ rule := hasDecorator node "rule" in
        if (rule : bool) then cret true else hasDecorator node "method"
      else cret false in
    let site := if is_kind node "FunctionDef" && Nat.eqb (size_of (array node "decorator_list")) 0 then Some node else captureSite ctx in
    let outside := shadows ctx ∖ ruleResultAliases scope in
    let arguments := child node "args" in
    let+ inside := cfold (fun bound statement s => collectLocals statement (bound, s)) (items node "body") (list_to_set (argument_names arguments) ∪ outside) in
    let+ _ := cfold (fun _ default_ => self default_ (mkContext no_node outside true None transaction)) (items arguments "defaults") tt in
    cret (mkContext (registration ctx) inside true site transaction).

(** Whether ordinary data was bound to the name before the rule. *)
Definition earlier_data (scope : ModuleScope) (node : AstNode) (ctx : Context_) : M bool :=
  let name := referenced node in
  if negb (bool_decide (name = "")) && bool_decide (name ∈ nestedRuleNames scope) && negb (bool_decide (name ∈ shadows ctx)) then
    let+ before := orderBefore scope (default node (captureSite ctx)) name in
    let target :=
      if negb (callableScope ctx) && is_kind node "Name" then
        match node_path node !! (length (node_path (ms_module scope)) + 2)%nat with Some step => bool_decide (step_field step = "targets") | None => false end
      else false in
    let earlier := (before : bool) && (bool_decide (name ∈ ordinaryData scope) || target) in
    if earlier && is_kind node "Call" then diagnose "ordinary data binding is not a callable Rule" else cret earlier
  else cret false.

(** The checks of one occurrence; the invocation that its parts belong to. *)
Definition check_occurrence (scope : ModuleScope) (node : AstNode) (ctx : Context_) : M AstNode :=
  let rule name := bool_decide (is_Some (rules scope !! name)) in
  let visible name := negb (bool_decide (name ∈ shadows ctx)) in
  let nested name := bool_decide (name ∈ nestedRuleNames scope) in
  if callableScope ctx && is_kind node "Name" && bool_decide (string_of node "id" ∈ ruleResultAliases scope) && visible (string_of node "id")
  then diagnose "local Rule result alias is not a Rule input; wire through a child Module interface"
  else if negb (callableScope ctx) && match called_name node with Some f => rule f && bool_decide (f ∈ moduleFormalShadows scope) | None => false end
  then diagnose "source rule binding is shadowed in its lexical scope"
  else
    let+ earlier := earlier_data scope node ctx in
    let name := referenced node in
    let direct := negb (bool_decide (name = "")) && nested name && visible name && negb (earlier : bool) in
    if direct && is_kind node "Call" then diagnose "autonomous local Rule cannot be called; use its result at Module wiring"
    else if direct && callableScope ctx then diagnose "local Rule result is not a Rule input; wire through a child Module interface"
    else
      let called := match called_name node with Some f => rule f && visible f && negb earlier | None => false end in
      let nestedCall := transactionScope ctx && called in
      let invocation := if nestedCall then node else registration ctx in
      if is_kind node "Name" && rule (string_of node "id") && negb (nested (string_of node "id")) && visible (string_of node "id") && negb earlier &&
         negb (present invocation && present (child invocation "func") && sameOccurrence node (child invocation "func"))
      then diagnose "Rule is only a complete Module/System registration; it is not a helper or callback"
      else if called && negb nestedCall && negb (present (registration ctx) && sameOccurrence node (registration ctx))
      then diagnose "Rule call must be a complete Module/System registration"
      else cret invocation.

Definition skipped_field (node : AstNode) (name : string) : bool :=
  bool_decide (name = "decorator_list") || (bool_decide (name = "args") && is_kind node "FunctionDef") || bool_decide (name = "returns").

Definition expressions (scope : ModuleScope) : AstNode -> Context_ * Analysis -> option unit * Analysis :=
  walk (fun self node x => let '(ctx, s) := x in
    (let+ _ := pay 1 in
     if negb (present node) then cret tt
     else
       let+ ctx := callable_context scope (fun n c s => self n (c, s)) node ctx in
       let+ invocation := check_occurrence scope node ctx in
       cfold (fun _ n s => self n (mkContext invocation (shadows ctx) (callableScope ctx) (captureSite ctx) (transactionScope ctx), s))
         (field_nodes (skipped_field node) node) tt) s) (fun x => (None, snd x)).

(** Whether an expression depends on the result of a local rule; it does not
    fail where the budget ends. *)
Definition depends (scope : ModuleScope) : AstNode -> Analysis -> bool * Analysis :=
  walk (fun self node s =>
    if negb (present node) then (false, s)
    else
      let '(paid, s) := charge 1 s in
      if negb paid then (false, s)
      else if is_kind node "Name" then
        (bool_decide (string_of node "id" ∈ nestedRuleNames scope) || bool_decide (string_of node "id" ∈ ruleResultAliases scope), s)
      else if is_kind node "Call" then (false, s)
      else (fix any l s := match l with [] => (false, s) | n :: rest => let '(b, s) := self n s in if (b : bool) then (true, s) else any rest s end)
             (field_nodes (fun _ => false) node) s) (fun s => (false, s)).

(** ** Modules *)

Definition add_owner (scope : ModuleScope) (name : string) (stmt : AstNode) : ModuleScope :=
  mkScope (ms_module scope) (rules scope) (nestedRuleNames scope) (moduleShadows scope) (moduleFormalShadows scope) (ordinaryData scope)
    (ruleResultAliases scope) (<[name := stmt]> (owners scope)) (firstCallIndex scope).
Definition add_aliases (scope : ModuleScope) (names : list string) : ModuleScope :=
  mkScope (ms_module scope) (rules scope) (nestedRuleNames scope) (moduleShadows scope) (moduleFormalShadows scope) (ordinaryData scope)
    (list_to_set names ∪ ruleResultAliases scope) (owners scope) (firstCallIndex scope).

(** The owner that a statement declares. *)
Definition declare_owner (scope : ModuleScope) (stmt : AstNode) : M ModuleScope :=
  if is_kind stmt "AnnAssign" then
    cret (if is_kind (child stmt "target") "Name" then add_owner scope (string_of (child stmt "target") "id") stmt else scope)
  else if is_kind stmt "Assign" && Nat.eqb (size_of (array stmt "targets")) 1 then
    let rhs := child stmt "value" in
    if is_kind rhs "Call" && is_kind (child rhs "func") "Subscript" then
      let+ table := resolves (child (child rhs "func") "value") MarkerTable in
      cret (if (table : bool) then add_owner scope (string_of (item stmt "targets" 0) "id") stmt else scope)
    else cret scope
  else cret scope.

(** The statement is a registration. *)
Definition is_registration (scope : ModuleScope) (call : AstNode) : M bool :=
  match called_name call with
  | None => cret false
  | Some name =>
    if negb (bool_decide (is_Some (rules scope !! name))) || bool_decide (name ∈ moduleShadows scope) then cret false
    else if bool_decide (name ∈ ordinaryData scope) then let+ before := orderBefore scope call name in cret (negb before)
    else cret true
  end.

(** [bind]: a local rule is not assigned.  (What follows the diagnostic in the
    source is unreachable, so no name ever becomes ordinary data.) *)
Definition bind_data (scope : ModuleScope) (stmt leaf : AstNode) : M unit :=
  if is_kind leaf "Name" && bool_decide (string_of leaf "id" ∈ nestedRuleNames scope) then
    let+ _ := orderBefore scope stmt (string_of leaf "id") in
    diagnose "ordinary data cannot replace a declared or registered Rule"
  else cret tt.

Definition name_of_leaf (leaf : AstNode) : list string := if is_kind leaf "Name" then [string_of leaf "id"] else [].

(** A statement after its declaration: its registrations, and the names that it
    makes depend on a rule. *)
Definition register_statement (scope : ModuleScope) (stmt : AstNode) : M ModuleScope :=
  let call := if kind_in stmt ["Expr"; "Assign"; "AnnAssign"; "Return"] then child stmt "value" else no_node in
  let+ registers := is_registration scope call in
  let+ _ := (fun s => expressions scope stmt (mkContext (if (registers : bool) then call else no_node) (moduleShadows scope) false None false, s)) in
  let+ _ := if (registers : bool) then registerCall scope call stmt else cret tt in
  let+ local := if is_kind stmt "FunctionDef" then hasDecorator stmt "rule" else cret false in
  let+ _ := if (local : bool) then registerCall scope stmt stmt else cret tt in
  if is_kind stmt "Assign" then
    let targets := flat_map (fun target => assignment_leaves target tt) (items stmt "targets") in
    let+ aliased := (fun s => let '(b, s) := depends scope (child stmt "value") s in (Some b, s)) in
    let scope := if (aliased : bool) then add_aliases scope (flat_map name_of_leaf targets) else scope in
    let+ _ := cfold (fun _ leaf => bind_data scope stmt leaf) targets tt in
    cret scope
  else cret scope.

Definition module_statement (scope : ModuleScope) (stmt : AstNode) : M ModuleScope :=
  let+ scope := declare_owner scope stmt in register_statement scope stmt.

(** The local rules of a module. *)
Definition nested_rule (found : gmap string AstNode * gset string) (declaration : AstNode) : M (gmap string AstNode * gset string) :=
  let+ rule := if is_kind declaration "FunctionDef" then hasDecorator declaration "rule" else cret false in
  if negb (rule : bool) then cret found
  else
    let name := string_of declaration "name" in
    if bool_decide (name ∈ snd found) then diagnose "duplicate Rule declaration" else cret (<[name := declaration]> (fst found), {[name]} ∪ snd found).

Definition analyze_module (globals : gmap string AstNode) (module : AstNode) : M unit :=
  let+ _ := pay 1 in
  if negb (is_kind module "FunctionDef") then cret tt
  else
    let+ plain := hasDecorator module "module" in
    let+ system := if (plain : bool) then cret true else hasDecorator module "system" in
    if negb (system : bool) then cret tt
    else
      let+ found := cfold nested_rule (items module "body") (globals, ∅) in
      let formals : gset string := list_to_set (argument_names (child module "args")) in
      let+ locals := cfold (fun bound statement s => collectLocals statement (bound, s)) (items module "body") formals in
      let+ first := read (fun s => length (calls s)) in
      let scope := mkScope module (fst found) (snd found) (locals ∖ snd found) formals ∅ ∅ ∅ first in
      let+ _ := cfold module_statement (items module "body") scope in
      cret tt.

(** ** The analysis *)

Definition import_name (statement : AstNode) (_ : unit) (alias : AstNode) : M unit :=
  let+ _ := pay 1 in
  let remote := string_of alias "name" in
  let name := match get alias "asname" with Some (StringAttribute rename) => rename | _ => remote end in
  let+ known := read imports in
  if bool_decide (is_Some (known !! name)) then diagnose "duplicate or conflicting import binding"
  else
    let module := if is_kind statement "Import" then remote else string_of statement "module" in
    set_imports (<[name := mkImport module remote (is_kind statement "Import")]> known).

Definition import_statement (_ : unit) (statement : AstNode) : M unit :=
  let+ _ := pay 1 in
  if negb (kind_in statement ["Import"; "ImportFrom"]) then cret tt else cfold (import_name statement) (items statement "names") tt.

Definition global_rule (found : gmap string AstNode) (statement : AstNode) : M (gmap string AstNode) :=
  let+ _ := pay 1 in
  let+ rule := if is_kind statement "FunctionDef" then hasDecorator statement "rule" else cret false in
  if negb (rule : bool) then cret found
  else if bool_decide (is_Some (found !! string_of statement "name")) then diagnose "duplicate rule name"
  else cret (<[string_of statement "name" := statement]> found).

Definition analyze : M unit :=
  let statements := items (source_module source) "body" in
  let+ _ := cfold import_statement statements tt in
  let+ globals := cfold global_rule statements ∅ in
  cfold (fun _ module => analyze_module globals module) statements tt.
End Source.

(** The constructor: the analysis of a capture and whether its plan is valid. *)
Definition SourceRuleWritesAnalysis `{L : ApLib} (body_empty : bool) (attributes : DictionaryAttr) : bool * Analysis :=
  match readSingleCapture body_empty attributes with
  | inl message => (false, emit message fresh_analysis)
  | inr source => let '(r, s) := analyze source fresh_analysis in (bool_decide (is_Some r), s)
  end.

(** ** Queries *)

Section Lookup.
Context {S : Type}.
(** The accounting of the caller. *)
Variable charge : Z -> S -> bool * S.
#[local] Abbreviation pay := (PythonAst.pay charge).

Fixpoint same_path (a c : list AstStep) : C S bool :=
  match a, c with
  | l :: a, r :: c =>
    let+ _ := pay (text_size (step_field l)) in
    let+ _ := pay (text_size (step_field r)) in
    let+ _ := pay 1 in
    if decide (l = r) then same_path a c else cret false
  | _, _ => cret true
  end.

Definition same_node (a c : AstNode) : C S bool :=
  let+ _ := pay 1 in
  if value_dec (node_value a) (node_value c) then
    if Nat.eqb (length (node_path a)) (length (node_path c)) then same_path (node_path a) (node_path c) else cret false
  else cret false.

Fixpoint lookup_plan (plans : list SourceRuleCallPlan) (module call : AstNode) : C S (option SourceRuleCallPlan) :=
  match plans with
  | [] => cret None
  | plan :: rest =>
    let+ _ := pay 1 in
    let+ owner := same_node (p_module plan) module in
    if negb (owner : bool) then lookup_plan rest module call
    else
      let+ found := same_node (p_occurrence plan) call in
      if (found : bool) then cret (Some plan) else lookup_plan rest module call
  end.

Definition lookup (a : Analysis) (module call : AstNode) : C S (option SourceRuleCallPlan) := lookup_plan (calls a) module call.
End Lookup.

(** ** The pass *)

Inductive PassOutcome := PassFailure | PassSuccess (remark : option nat).

Definition runOnOperation (valid : bool) (a : Analysis) : PassOutcome :=
  if negb valid then PassFailure
  else PassSuccess (if Nat.eqb (length (pending a)) 0 then None else Some (length (pending a))).
