(* ===== verification/RuleWritesSpec.v ===== *)
(** * What the write analysis reports

    A path stands for the places of an owner that an assignment to it may
    change.  The algebra of paths is exact; the plan of a registration covers
    every assignment of its rule; every pair of registrations of one module
    that may change one place is reported. *)

From Stdlib Require Import ZArith Lia String.
From stdpp Require Import base list numbers strings gmap.
From S2P Require Import Prelude ModelInput CompilerPrelude ApInt ValueSemantics ValueSemanticsSpec StaticValues PythonAst PythonAstSpec PythonSyntax RuleWrites.

Open Scope string_scope.
Open Scope list_scope.
Open Scope Z_scope.

(** ** Places *)

Inductive Place := PlaceField (name : string) | PlaceIndex (z : Z).

(** The values of the index expressions, by occurrence. *)
Definition Indices := AstNode -> Z.

Definition selects (e : Indices) (sel : SourceWriteSelector) (p : Place) : Prop :=
  match sel_kind sel, p with
  | FieldSelector, PlaceField name => sel_field sel = name
  | IndexSelector, PlaceIndex z => match directConstantInteger sel with Some spelling => spelling = spell z | None => e (sel_occurrence sel) = z end
  | _, _ => False
  end.

(** An assignment to a path changes every place below it. *)
Definition touches (e : Indices) (path : list SourceWriteSelector) (place : list Place) : Prop :=
  exists l rest, place = l ++ rest /\ Forall2 (selects e) path l.

Lemma touches_nil e place : touches e [] place.
Proof. exists [], place. split; [reflexivity|constructor]. Qed.

Lemma touches_cons e sel path place : touches e (sel :: path) place <-> exists p rest, place = p :: rest /\ selects e sel p /\ touches e path rest.
Proof.
  split.
  - intros (l & rest & -> & H). inversion H as [|? p ? l' Hp Hl]; subst. exists p, (l' ++ rest). split; [reflexivity|]. split; [exact Hp|]. exists l', rest. auto.
  - intros (p & rest & -> & Hp & l & r & -> & Hl). exists (p :: l), r. split; [reflexivity|]. constructor; assumption.
Qed.

Lemma selector_covers_sound e a b p : selector_covers a b = true -> selects e b p -> selects e a p.
Proof.
  unfold selector_covers, selects, sameOccurrence. case_bool_decide as E; [|discriminate]. cbn [negb]. rewrite <- E. intros Hc Hs. destruct (sel_kind a), p as [f|z]; try contradiction.
  - apply bool_decide_eq_true in Hc. congruence.
  - destruct (directConstantInteger a) as [x|], (directConstantInteger b) as [y|]; try (destruct (spelling_dec _ _) as [E'|]; [congruence|discriminate]).
    apply bool_decide_eq_true in Hc. congruence.
Qed.

Lemma covers_cons a b x y : covers (a :: x) (b :: y) = selector_covers a b && covers x y.
Proof. unfold covers. cbn. destruct (selector_covers a b); [reflexivity|]. apply andb_false_r. Qed.

Lemma covers_sound e place : forall a b, covers a b = true -> touches e b place -> touches e a place.
Proof.
  intros a b. revert place b. induction a as [|x a IH]; intros place b; [intros; apply touches_nil|]. destruct b as [|y b]; [discriminate|].
  rewrite covers_cons, andb_true_iff, !touches_cons. intros [H1 H2] (p & rest & -> & Hp & Hr). exists p, rest. split; [reflexivity|].
  split; [eapply selector_covers_sound; eassumption|]. eapply IH; eassumption.
Qed.

Lemma overlaps_sound e e' place : forall a b, touches e a place -> touches e' b place -> overlaps a b = true.
Proof.
  intros a. revert place. induction a as [|x a IH]; intros place b; [destruct b; reflexivity|]. destruct b as [|y b]; [reflexivity|]. rewrite !touches_cons.
  intros (p & rest & -> & Hp & Hr) (p' & rest' & [= <- <-] & Hp' & Hr'). cbn [overlaps]. case_bool_decide as E; [|reflexivity]. cbn [negb].
  specialize (IH rest b Hr Hr'). unfold selects in *. rewrite <- E in Hp'. destruct (sel_kind x), p as [f|z]; try contradiction.
  - rewrite bool_decide_eq_true_2 by congruence. exact IH.
  - destruct (directConstantInteger x), (directConstantInteger y); try exact IH. rewrite bool_decide_eq_true_2 by congruence. exact IH.
Qed.

(** Constants are spelled canonically. *)
Definition canonical_selector (sel : SourceWriteSelector) : Prop := forall s, directConstantInteger sel = Some s -> exists z, s = spell z.

Lemma selects_some e sel : canonical_selector sel -> exists p, selects e sel p.
Proof.
  intros Hc. unfold selects. destruct (sel_kind sel); [exists (PlaceField (sel_field sel)); reflexivity|].
  destruct (directConstantInteger sel) as [s|] eqn:E; [|exists (PlaceIndex (e (sel_occurrence sel))); reflexivity].
  destruct (Hc s E) as [z ->]. exists (PlaceIndex z). reflexivity.
Qed.

Lemma touches_some e path : Forall canonical_selector path -> exists place, touches e path place.
Proof.
  induction 1 as [|sel path Hs _ [place IH]]; [exists []; apply touches_nil|]. destruct (selects_some e sel Hs) as [p Hp]. exists (p :: place).
  apply touches_cons. eauto.
Qed.

Lemma selector_covers_complete x y : canonical_selector x -> canonical_selector y -> selector_covers x y = false -> exists e p, selects e y p /\ ~ selects e x p.
Proof.
  intros Hx Hy. unfold selector_covers, sameOccurrence. case_bool_decide as E; cbn [negb].
  2:{ intros _. destruct (selects_some (fun _ => 0) y Hy) as [p Hp]. exists (fun _ => 0), p. split; [exact Hp|]. unfold selects in *.
      destruct (sel_kind x), (sel_kind y), p; (congruence || tauto). }
  unfold selects. rewrite <- E. destruct (sel_kind x).
  { intros H. apply bool_decide_eq_false in H. exists (fun _ => 0), (PlaceField (sel_field y)). auto. }
  destruct (directConstantInteger x) as [sx|] eqn:Ex, (directConstantInteger y) as [sy|] eqn:Ey.
  - destruct (spelling_dec _ _) as [|Hn]; [discriminate|]. intros _. destruct (Hy sy Ey) as [z ->]. exists (fun _ => 0), (PlaceIndex z). split; congruence.
  - intros _. destruct (Hx sx Ex) as [z ->]. exists (fun _ => z + 1), (PlaceIndex (z + 1)). split; [reflexivity|]. intros H. apply spell_inj in H. lia.
  - intros _. destruct (Hy sy Ey) as [z ->]. exists (fun _ => z + 1), (PlaceIndex z). split; [reflexivity|]. lia.
  - intros H. apply bool_decide_eq_false in H. exists (fun o => if decide (o = sel_occurrence x) then 1 else 0), (PlaceIndex 0).
    split; destruct (decide _); congruence.
Qed.

Lemma covers_complete : forall a b, Forall canonical_selector a -> Forall canonical_selector b -> covers a b = false ->
  exists e place, touches e b place /\ ~ touches e a place.
Proof.
  intros a b Ha. revert b. induction Ha as [|x a Hx Ha IH]; intros b Hb; [discriminate|]. destruct Hb as [|y b Hy Hb].
  { intros _. exists (fun _ => 0), []. split; [apply touches_nil|]. rewrite touches_cons. intros (p & r & [=] & _). }
  rewrite covers_cons, andb_false_iff. intros [H|H].
  - destruct (selector_covers_complete x y Hx Hy H) as (e & p & Hp & Hn). destruct (touches_some e b Hb) as [place Hpl]. exists e, (p :: place).
    rewrite !touches_cons. split; [eauto|]. intros (p' & r & [= <- <-] & Hp' & _). exact (Hn Hp').
  - destruct (IH b Hb H) as (e & place & Hpl & Hn). destruct (selects_some e y Hy) as [p Hp]. exists e, (p :: place). rewrite !touches_cons. split; [eauto|].
    intros (p' & r & [= <- <-] & _ & Hr). exact (Hn Hr).
Qed.

(** The index expressions of a path. *)
Definition dynamic (sel : SourceWriteSelector) : bool := match sel_kind sel, directConstantInteger sel with IndexSelector, None => true | _, _ => false end.
Definition expressions_of (path : list SourceWriteSelector) : list AstNode := sel_occurrence <$> filter (fun sel => dynamic sel = true) path.

(** Fields meet fields and indices meet indices. *)
Definition same_kinds (a b : list SourceWriteSelector) : Prop := forall i x y, a !! i = Some x -> b !! i = Some y -> sel_kind x = sel_kind y.

Definition update (e : Indices) (o : AstNode) (z : Z) : Indices := fun n => if decide (n = o) then z else e n.

Lemma selects_update e o z sel p : (dynamic sel = true -> sel_occurrence sel <> o) -> selects (update e o z) sel p <-> selects e sel p.
Proof.
  unfold selects, dynamic, update. destruct (sel_kind sel), p; try reflexivity. destruct (directConstantInteger sel); [reflexivity|]. intros H.
  destruct (decide _) as [E|]; [destruct (H eq_refl E)|reflexivity].
Qed.

Lemma touches_update e o z path place : o ∉ expressions_of path -> touches (update e o z) path place <-> touches e path place.
Proof.
  revert place. induction path as [|sel path IH]; intros place Ho; [split; intros _; apply touches_nil|]. rewrite !touches_cons.
  assert (Hsel : forall p, selects (update e o z) sel p <-> selects e sel p).
  { intros p. apply selects_update. intros Hd <-. apply Ho. unfold expressions_of. rewrite filter_cons_True by exact Hd. left. }
  assert (Htail : o ∉ expressions_of path).
  { intros H. apply Ho. unfold expressions_of in *. destruct (decide (dynamic sel = true)); [rewrite filter_cons_True by assumption; right; exact H|rewrite filter_cons_False by assumption; exact H]. }
  setoid_rewrite Hsel. setoid_rewrite (fun r => IH r Htail). reflexivity.
Qed.

Lemma expressions_cons sel path : NoDup (expressions_of (sel :: path)) -> NoDup (expressions_of path) /\ (dynamic sel = true -> sel_occurrence sel ∉ expressions_of path).
Proof.
  unfold expressions_of. destruct (decide (dynamic sel = true)); [rewrite filter_cons_True by assumption|rewrite filter_cons_False by assumption]; [|intros H; split; [exact H|contradiction]].
  rewrite fmap_cons, NoDup_cons. tauto.
Qed.

(** A selector can be made to meet an index. *)
Lemma select_index sel z : sel_kind sel = IndexSelector -> (forall s, directConstantInteger sel = Some s -> s = spell z) -> forall e path place,
  (dynamic sel = true -> sel_occurrence sel ∉ expressions_of path) -> touches e path place -> exists e', touches e' (sel :: path) (PlaceIndex z :: place).
Proof.
  intros Ek Hs e path place Hn Ht. destruct (directConstantInteger sel) as [s|] eqn:Ec.
  - exists e. apply touches_cons. exists (PlaceIndex z), place. split; [reflexivity|]. split; [|exact Ht]. unfold selects. rewrite Ek, Ec. apply Hs. reflexivity.
  - exists (update e (sel_occurrence sel) z). apply touches_cons. exists (PlaceIndex z), place. split; [reflexivity|]. split.
    + unfold selects. rewrite Ek, Ec. unfold update. destruct (decide _); [reflexivity|contradiction].
    + apply touches_update; [|exact Ht]. apply Hn. unfold dynamic. rewrite Ek, Ec. reflexivity.
Qed.

Lemma overlaps_complete : forall a b, Forall canonical_selector a -> Forall canonical_selector b -> NoDup (expressions_of a) -> NoDup (expressions_of b) ->
  same_kinds a b -> overlaps a b = true -> exists e e' place, touches e a place /\ touches e' b place.
Proof.
  intros a b Ha. revert b. induction Ha as [|x a Hx Ha IH]; intros b Hb Na Nb Hk Ho.
  { destruct (touches_some (fun _ => 0) b Hb) as [place Hp]. exists (fun _ => 0), (fun _ => 0), place. split; [apply touches_nil|exact Hp]. }
  destruct Hb as [|y b Hy Hb].
  { destruct (touches_some (fun _ => 0) (x :: a) ltac:(constructor; assumption)) as [place Hp]. exists (fun _ => 0), (fun _ => 0), place. split; [exact Hp|apply touches_nil]. }
  apply expressions_cons in Na as [Na Nx]. apply expressions_cons in Nb as [Nb Ny]. assert (Ek : sel_kind x = sel_kind y) by exact (Hk 0%nat x y eq_refl eq_refl).
  cbn [overlaps] in Ho. rewrite bool_decide_eq_true_2 in Ho by exact Ek. cbn [negb] in Ho.
  assert (Htail : overlaps a b = true -> exists e e' place, touches e a place /\ touches e' b place).
  { intros H. apply IH; try assumption. intros i x' y' H1 H2. exact (Hk (S i) x' y' H1 H2). }
  destruct (sel_kind x) eqn:Ekx.
  { case_bool_decide as Ef; cbn [negb] in Ho; [|discriminate]. destruct (Htail Ho) as (e & e' & place & H1 & H2). exists e, e', (PlaceField (sel_field x) :: place).
    rewrite !touches_cons. unfold selects. rewrite Ekx, <- Ek. split; eexists _, _; eauto. }
  assert (exists z, (forall s, directConstantInteger x = Some s -> s = spell z) /\ (forall s, directConstantInteger y = Some s -> s = spell z) /\ overlaps a b = true) as (z & Zx & Zy & Ht).
  { destruct (directConstantInteger x) as [sx|] eqn:Ex, (directConstantInteger y) as [sy|] eqn:Ey.
    - case_bool_decide as Es; [subst sy|discriminate]. destruct (Hx sx Ex) as [z ->]. exists z. split; [congruence|]. split; [congruence|exact Ho].
    - destruct (Hx sx Ex) as [z ->]. exists z. split; [congruence|]. split; [discriminate|exact Ho].
    - destruct (Hy sy Ey) as [z ->]. exists z. split; [discriminate|]. split; [congruence|exact Ho].
    - exists 0. split; [discriminate|]. split; [discriminate|exact Ho]. }
  destruct (Htail Ht) as (e & e' & place & H1 & H2). destruct (select_index x z Ekx Zx e a place Nx H1) as [e1 T1].
  destruct (select_index y z (eq_sym Ek) Zy e' b place Ny H2) as [e2 T2]. exists e1, e2, (PlaceIndex z :: place). auto.
Qed.

(** ** Steps that leave the plan alone *)

#[local] Abbreviation M := (C Analysis).
#[local] Abbreviation pay := (PythonAst.pay charge).

Definition framed_at {A} (s : Analysis) (r : A * Analysis) : Prop := calls (snd r) = calls s /\ pending (snd r) = pending s.
Definition framed {A} (m : M A) : Prop := forall s, framed_at s (m s).

Create HintDb framed discriminated.

Lemma framed_trans {A B} s (r : A * Analysis) (r' : B * Analysis) : framed_at s r -> framed_at (snd r) r' -> framed_at s r'.
Proof. intros [E1 E2] [E3 E4]. split; congruence. Qed.

Lemma framed_ret {A} (a : A) : framed (cret a).
Proof. intros s. split; reflexivity. Qed.

Lemma framed_bind {A B} (m : M A) (k : A -> M B) : framed m -> (forall a, framed (k a)) -> framed (cbind m k).
Proof.
  intros Hm Hk s. unfold cbind. specialize (Hm s). destruct (m s) as [[a|] s1]; [|split; apply Hm]. eapply framed_trans; [exact Hm|apply Hk].
Qed.

Lemma framed_cfold {A B} (f : B -> A -> M B) l : (forall b a, framed (f b a)) -> forall b, framed (cfold f l b).
Proof. intros Hf. induction l as [|a l IH]; intros b; cbn [cfold]; [apply framed_ret|]. apply framed_bind; [apply Hf|exact IH]. Qed.

Lemma framed_pay n : framed (pay n).
Proof. intros s. unfold PythonAst.pay, charge. destruct (_ <? _); split; reflexivity. Qed.

Lemma framed_refuse {A} : framed (@refuse Analysis A).
Proof. intros s. split; reflexivity. Qed.

Lemma framed_diagnose {A} message : framed (@diagnose A message).
Proof. intros s. split; reflexivity. Qed.

Lemma framed_checked {A} (r : FailureOr A) : framed (checked r).
Proof. destruct r; [apply framed_diagnose|apply framed_ret]. Qed.

Lemma framed_read {A} (f : Analysis -> A) : framed (read f).
Proof. intros s. split; reflexivity. Qed.

Lemma framed_set_imports x : framed (set_imports x).
Proof. intros s. split; reflexivity. Qed.

#[export] Hint Resolve framed_ret framed_pay framed_refuse framed_diagnose framed_checked framed_read framed_set_imports : framed.

Lemma framed_attempt {A} (m : C Analysis A) : framed m -> framed (attempt m).
Proof. intros H s. specialize (H s). unfold attempt. destruct (m s). exact H. Qed.

Lemma framed_proceed {A} (r : option A) : framed (proceed r).
Proof. intros s. split; reflexivity. Qed.
#[local] Hint Resolve framed_attempt framed_proceed : framed.

(** Splits a step into the steps that it is made of. *)
Ltac framed_step :=
  match goal with
  | |- framed (cbind _ _) => apply framed_bind; [|intros ?]
  | |- framed (cfold _ _ _) => apply framed_cfold; intros ? ?
  | |- framed (if ?b then _ else _) => destruct b
  | |- framed (match ?x with _ => _ end) => destruct x
  | |- framed (let '(_, _) := ?x in _) => destruct x
  | H : forall m x, framed_at (snd x) (?self m x) |- framed (fun s => ?self _ _) => intros ?; apply (H _ (_, _))
  | H : forall m x, framed_at (snd (snd x)) (?self m x) |- framed (fun s => ?self _ _) => intros ?; apply (H _ (_, (_, _)))
  | |- framed _ => solve [auto with framed]
  end.
Ltac framed := repeat framed_step.

(** A walk whose body is framed. *)
Lemma framed_walk {X A} (body : (AstNode -> X * Analysis -> option A * Analysis) -> AstNode -> X * Analysis -> option A * Analysis) :
  (forall self, (forall m x, framed_at (snd x) (self m x)) -> forall n x, framed_at (snd x) (body self n x)) ->
  forall n x, framed_at (snd x) (walk body (fun x => (None, snd x)) n x).
Proof. intros H. apply (walk_invariant body _ (fun _ x r => framed_at (snd x) r)); [intros n x; split; reflexivity|exact H]. Qed.

Section Frames.
Context `{L : ApLib}.
Variable source : CapturedSource.

Lemma framed_shadowed node name : framed (shadowed source node name).
Proof. intros s. unfold shadowed. destruct (sourceBindingShadowed _ _ _ _). split; reflexivity. Qed.

Lemma binding_framed node s : framed_at s (binding source node s).
Proof.
  unfold binding. destruct (negb _); [split; reflexivity|]. pose proof (framed_shadowed (if is_kind node "Attribute" then child node "value" else node)
    (string_of (if is_kind node "Attribute" then child node "value" else node) "id") s) as Hs.
  destruct (shadowed _ _ _ s) as [hidden s1]. destruct (default false hidden); [exact Hs|]. destruct (imports s1 !! _); [|exact Hs]. destruct (is_kind node "Attribute"); exact Hs.
Qed.

Lemma framed_resolvesMarker node wanted : framed (resolvesMarker (Some (binding source)) node wanted).
Proof.
  unfold resolvesMarker. framed. intros s. unfold lookup_binding. pose proof (binding_framed node s) as H. destruct (binding source node s) as [r s1]. exact H.
Qed.

#[local] Hint Resolve framed_shadowed framed_resolvesMarker : framed.

Lemma framed_any_decorator ds wanted : framed (any_decorator (Some (binding source)) ds wanted).
Proof. induction ds as [|d ds IH]; cbn [any_decorator]; framed. Qed.

Lemma framed_hasDecorator node name : framed (hasDecorator source node name).
Proof. apply framed_any_decorator. Qed.

Lemma framed_resolves node wanted : framed (resolves source node wanted).
Proof. apply framed_resolvesMarker. Qed.

Lemma framed_same_steps path prefix : framed (same_steps charge path prefix).
Proof. revert prefix. induction path as [|a path IH]; intros [|c prefix]; cbn [same_steps]; framed. Qed.

Lemma framed_samePrefix path prefix : framed (samePrefix charge path prefix).
Proof. unfold samePrefix. framed. apply framed_same_steps. Qed.
#[local] Hint Resolve framed_samePrefix framed_same_steps : framed.

Lemma framed_crossing o d n i step dict : framed (crossing charge o d n i step dict).
Proof. unfold crossing. framed. Qed.
#[local] Hint Resolve framed_crossing : framed.

Lemma framed_authenticate_steps o d n b : forall path i current, framed (authenticate_steps charge o d n b path i current).
Proof.
  induction path as [path IH] using (induction_ltof1 _ (@length AstStep)). intros i current. destruct path as [|step rest]; cbn [authenticate_steps]; framed.
  all: apply IH; unfold ltof; cbn; lia.
Qed.

Lemma framed_orderBefore scope use name : framed (orderBefore source scope use name).
Proof. unfold orderBefore, sourceDeclarationOrder, authenticate. framed; apply framed_authenticate_steps. Qed.
#[local] Hint Resolve framed_orderBefore framed_hasDecorator framed_resolves : framed.

Lemma framed_locals n x : framed_at (snd x) (collectLocals source n x).
Proof.
  unfold collectLocals. apply framed_walk. intros self H m [bound s]. cbn [snd]. revert s.
  match goal with |- forall s, framed_at s (?m s) => change (framed m) end. framed.
Qed.

Lemma framed_collectLocals statement bound : framed (fun s => collectLocals source statement (bound, s)).
Proof. intros s. apply (framed_locals statement (bound, s)). Qed.
#[local] Hint Resolve framed_collectLocals : framed.

Lemma framed_callable_context scope self node ctx : (forall n c, framed (self n c)) -> framed (callable_context source scope self node ctx).
Proof. intros H. unfold callable_context. framed. Qed.

Lemma framed_earlier_data scope node ctx : framed (earlier_data source scope node ctx).
Proof. unfold earlier_data. framed. Qed.
#[local] Hint Resolve framed_callable_context framed_earlier_data : framed.

Lemma framed_check_occurrence scope node ctx : framed (check_occurrence source scope node ctx).
Proof. unfold check_occurrence. framed. Qed.
#[local] Hint Resolve framed_check_occurrence : framed.

Lemma framed_expressions scope n x : framed_at (snd x) (expressions source scope n x).
Proof.
  unfold expressions. apply framed_walk. intros self H m [ctx s]. cbn [snd]. revert s.
  match goal with |- forall s, framed_at s (?m s) => change (framed m) end. framed. apply framed_callable_context. intros n' c. framed.
Qed.

Lemma framed_depends scope n s : framed_at s (depends scope n s).
Proof.
  unfold depends. apply (walk_invariant _ _ (fun _ s r => framed_at s r)); [intros n' x; split; reflexivity|]. intros self H m x.
  destruct (negb (present m)); [split; reflexivity|]. unfold charge. destruct (_ <? _); [split; reflexivity|]. cbn [negb].
  destruct (is_kind m "Name"); [split; reflexivity|]. destruct (is_kind m "Call"); [split; reflexivity|].
  set (x' := mkAnalysis _ _ _ _ _ _). assert (framed_at x (tt, x')) as Hx by (split; reflexivity). clearbody x'. revert x' Hx.
  induction (field_nodes (fun _ => false) m) as [|n' l IH]; intros x' Hx; [exact Hx|]. pose proof (H n' x') as H1. destruct (self n' x') as [b x1].
  assert (framed_at x (tt, x1)) as Hx1 by (destruct Hx, H1; split; cbn in *; congruence). destruct b; [exact Hx1|]. apply IH, Hx1.
Qed.
End Frames.

(** ** Successful steps *)

(** What a step that succeeds gives. *)
Definition gives {A} (m : M A) (Q : A -> Prop) : Prop := forall s a s', m s = (Some a, s') -> Q a.

Lemma gives_ret {A} (a : A) (Q : A -> Prop) : Q a -> gives (cret a) Q.
Proof. intros H s a' s' [= <- _]. exact H. Qed.

Lemma gives_bind {A B} (m : M A) (k : A -> M B) P Q : gives m P -> (forall a, P a -> gives (k a) Q) -> gives (cbind m k) Q.
Proof. intros Hm Hk s b s'. unfold cbind. destruct (m s) as [[a|] s1] eqn:E; [|discriminate]. apply Hk. eapply Hm, E. Qed.

Lemma gives_weaken {A} (m : M A) (P Q : A -> Prop) : (forall a, P a -> Q a) -> gives m P -> gives m Q.
Proof. intros H Hm s a s' E. apply H. eapply Hm, E. Qed.

Lemma gives_any {A} (m : M A) : gives m (fun _ => True).
Proof. intros s a s' _. exact I. Qed.

Lemma gives_fail {A} (m : M A) Q : (forall s, fst (m s) = None) -> gives m Q.
Proof. intros H s a s' E. specialize (H s). rewrite E in H. discriminate. Qed.

Lemma gives_diagnose {A} message (Q : A -> Prop) : gives (diagnose message) Q.
Proof. apply gives_fail. reflexivity. Qed.

Lemma gives_skip {A B} (m : M A) (k : A -> M B) Q : (forall a, gives (k a) Q) -> gives (cbind m k) Q.
Proof. intros H. eapply gives_bind; [apply gives_any|]. intros a _. apply H. Qed.

(** An invariant of a loop, over the items done. *)
Lemma gives_cfold {A B} (f : B -> A -> M B) (I : list A -> B -> Prop) l : (forall done a b, a ∈ l -> I done b -> gives (f b a) (I (done ++ [a]))) ->
  forall b, I [] b -> gives (cfold f l b) (I l).
Proof.
  intros Hf. cut (forall rest done, l = done ++ rest -> forall b, I done b -> gives (cfold f rest b) (I l)); [intros H b; exact (H l [] eq_refl b)|].
  induction rest as [|a rest IH]; intros done El b Hb; cbn [cfold]; [apply gives_ret; rewrite El, app_nil_r; exact Hb|].
  eapply gives_bind; [apply Hf; [rewrite El; set_solver|exact Hb]|]. intros b' Hb'. apply (IH (done ++ [a])); [rewrite El, <- app_assoc; reflexivity|exact Hb'].
Qed.

(** ** Adding a path *)

(** Some path touches the place. *)
Definition touched (e : Indices) (paths : list SourceWritePath) (place : list Place) : Prop := exists p, p ∈ paths /\ touches e (selectors p) place.

(** No path covers another. *)
Definition apart (p q : SourceWritePath) : Prop := covers (selectors p) (selectors q) = false /\ covers (selectors q) (selectors p) = false.
Definition minimal (paths : list SourceWritePath) : Prop := ForallOrdPairs apart paths.

Lemma find_cover_gives prior path : gives (find_cover prior path)
  (fun b => if (b : bool) then exists p, p ∈ prior /\ covers (selectors p) (selectors path) = true else Forall (fun p => covers (selectors p) (selectors path) = false) prior).
Proof.
  induction prior as [|p prior IH]; cbn [find_cover]; [apply gives_ret; constructor|]. apply gives_skip. intros _. destruct (covers (selectors p) (selectors path)) eqn:E.
  - apply gives_ret. exists p. split; [left|exact E].
  - eapply gives_weaken; [|exact IH]. intros [|]; [|intros H; constructor; assumption]. intros (q & Hq & Hc). exists q. split; [right; exact Hq|exact Hc].
Qed.

Lemma minimal_filter (P : SourceWritePath -> Prop) `{forall x, Decision (P x)} l : minimal l -> minimal (filter P l).
Proof.
  induction 1 as [|p l Hp _ IH]; [constructor|]. destruct (decide (P p)); [rewrite filter_cons_True by assumption|rewrite filter_cons_False by assumption; exact IH].
  constructor; [|exact IH]. rewrite Forall_forall in *. intros q Hq. apply Hp. apply list_elem_of_filter in Hq. tauto.
Qed.

Lemma minimal_snoc l p : minimal l -> Forall (fun q => apart q p) l -> minimal (l ++ [p]).
Proof.
  induction 1 as [|q l Hq _ IH]; intros Hl; cbn; [constructor; constructor|]. inversion Hl as [|? ? Ha Hl']; subst. constructor; [|apply IH, Hl'].
  apply Forall_app. split; [exact Hq|]. constructor; [exact Ha|constructor].
Qed.

(** The paths of [new] touch what those of [old] and [path] touch. *)
Lemma addPath_gives owner path : gives (addPath owner path) (fun owner' =>
  w_owner owner' = w_owner owner /\ w_formal owner' = w_formal owner /\
  (forall e place, touched e (w_paths owner') place <-> touched e (w_paths owner) place \/ touches e (selectors path) place) /\
  (minimal (w_paths owner) -> minimal (w_paths owner'))).
Proof.
  eapply gives_bind; [apply find_cover_gives|]. intros [|] Hc.
  - apply gives_ret. repeat split; auto. intros [H|H]; [exact H|]. destruct Hc as (p & Hp & Hcov). exists p. split; [exact Hp|]. eapply covers_sound; eassumption.
  - apply gives_skip. intros _. apply gives_ret. cbn [w_owner w_formal w_paths]. split; [reflexivity|]. split; [reflexivity|]. split.
    + intros e place. split.
      * intros (p & Hp & Ht). apply elem_of_app in Hp as [Hp|Hp]; [left; exists p; apply list_elem_of_filter in Hp; tauto|].
        apply list_elem_of_singleton in Hp as ->. right. exact Ht.
      * intros [(p & Hp & Ht)|Ht]; [|exists path; split; [set_solver|exact Ht]]. destruct (covers (selectors path) (selectors p)) eqn:E.
        -- exists path. split; [set_solver|]. eapply covers_sound; eassumption.
        -- exists p. split; [|exact Ht]. apply elem_of_app. left. apply list_elem_of_filter. auto.
    + intros Hm. apply minimal_snoc; [apply minimal_filter, Hm|]. rewrite Forall_forall in *. intros q Hq. apply list_elem_of_filter in Hq as [Hq1 Hq2]. split; [apply Hc, Hq2|exact Hq1].
Qed.

(** ** Targets *)

(** The integer literal of an index expression, if it is one. *)
Definition literal_of (index : AstNode) : option string :=
  (if is_kind index "Constant" then get index "value" ≫= as_dictionary else None) ≫= get_string "integer".

Definition constant_of (index : AstNode) : option (list Z) := lit <$> literal_of index.

(** What a target stands for: a path from a name, or from something else. *)
Inductive target_path : AstNode -> string -> list SourceWriteSelector -> Prop :=
| path_name n : kind n = "Name" -> target_path n (string_of n "id") []
| path_other n : kind n ∉ ["Name"; "Attribute"; "Subscript"] -> target_path n "" []
| path_field n root path : kind n = "Attribute" -> target_path (child n "value") root path ->
    target_path n root (path ++ [mkSelector FieldSelector (string_of n "attr") n None])
| path_index n root path : kind n = "Subscript" -> target_path (child n "value") root path ->
    target_path n root (path ++ [mkSelector IndexSelector "" (child n "slice") (constant_of (child n "slice"))]).

Section Targets.
Context `{L : ApLib} `{HL : !ApLaws L}.

Lemma parse_attr sp a : parseMathIntAttr sp = inr a -> a = MathIntAttr sp /\ exists z, sp = spell z.
Proof.
  unfold parseMathIntAttr. intros H. apply fbind_inr in H as (s & Es & [= <-]). pose proof (parse_value sp s Es) as E. unfold mathIntAttr.
  rewrite aps_toString_law, <- E. eauto.
Qed.

Lemma index_constant_gives index : gives (index_constant index) (fun c => c = constant_of index /\ forall s, c = Some s -> exists z, s = spell z).
Proof.
  unfold index_constant, constant_of, literal_of. destruct (if is_kind index "Constant" then _ else None) as [raw|]; cbn [mbind option_bind]; [|apply gives_ret; split; [reflexivity|discriminate]].
  destruct (get_string "integer" raw) as [spelling|] eqn:Ei; [|apply gives_ret; split; [reflexivity|discriminate]]. apply gives_skip. intros _.
  eapply gives_bind with (P := fun encoded => encoded = Some [("kind", StringAttribute "integer"); ("value", MathInt (lit spelling))] /\ exists z, lit spelling = spell z).
  - unfold staticValue. cbn [mbind option_bind as_dictionary]. rewrite Ei. destruct (parseMathIntAttr (lit spelling)) as [m|a] eqn:Ep; cbn [fbind]; [apply gives_diagnose|].
    apply parse_attr in Ep as [-> Hz]. apply gives_ret. auto.
  - intros encoded [-> Hz]. apply gives_ret. cbn. split; [reflexivity|]. intros s [= <-]. exact Hz.
Qed.

Lemma target_steps_gives : forall n x, forall base found s', target_steps n x = (Some (base, found), s') ->
  exists more, found = fst x ++ more /\ Forall canonical_selector more /\ target_path n (if is_kind base "Name" then string_of base "id" else "") (rev more).
Proof.
  unfold target_steps. apply (walk_invariant _ _ (fun n x r => forall base found s', r = (Some (base, found), s') ->
    exists more, found = fst x ++ more /\ Forall canonical_selector more /\ target_path n (if is_kind base "Name" then string_of base "id" else "") (rev more))); [discriminate|].
  intros self IH n [found0 s0]. cbn [fst]. intros base found s'. destruct (kind_in n ["Attribute"; "Subscript"]) eqn:Ek.
  2:{ intros [= <- <- <-]. exists []. rewrite app_nil_r. split; [reflexivity|]. split; [constructor|]. cbn [rev]. unfold kind_in in Ek. apply bool_decide_eq_false in Ek.
      unfold is_kind. case_bool_decide as En; [apply path_name, En|]. apply path_other. set_solver. }
  unfold kind_in in Ek. apply bool_decide_eq_true in Ek. unfold cbind at 1. destruct (pay 1 s0) as [[[]|] s1]; [|discriminate].
  match goal with |- cbind ?m _ _ = _ -> _ => assert (Hsel : gives m (fun sel => canonical_selector sel /\ forall root path, target_path (child n "value") root path -> target_path n root (path ++ [sel]))) end.
  { unfold is_kind. case_bool_decide as Ea.
    - apply gives_ret. split; [intros s; discriminate|]. intros root path. apply path_field, Ea.
    - eapply gives_bind; [apply index_constant_gives|]. intros c [-> Hc]. apply gives_ret. split; [exact Hc|]. intros root path. apply path_index. set_solver. }
  unfold cbind. destruct (_ s1) as [[sel|] s2] eqn:E2; [|discriminate]. specialize (Hsel s1 sel s2 E2) as [Hcan Hpath]. intros H.
  destruct (IH _ _ _ _ _ H) as (more & -> & Hm & Ht). exists (sel :: more). cbn [fst]. split; [rewrite <- app_assoc; reflexivity|].
  split; [constructor; assumption|]. cbn [rev]. apply Hpath, Ht.
Qed.

Lemma targetPath_gives leaf : gives (targetPath leaf) (fun t => target_path leaf (fst t) (snd t) /\ Forall canonical_selector (snd t)).
Proof.
  intros s t s'. unfold targetPath. destruct (target_steps leaf ([], s)) as [[[base found]|] s1] eqn:E; [|discriminate]. intros [= <- _].
  destruct (target_steps_gives _ _ _ _ _ E) as (more & -> & Hm & Ht). cbn [fst snd app]. split; [exact Ht|]. apply Forall_rev, Hm.
Qed.

Lemma target_path_unique n root path : target_path n root path -> forall root' path', target_path n root' path' -> root = root' /\ path = path'.
Proof.
  induction 1 as [n En|n En|n root path En _ IH|n root path En _ IH]; intros root' path' H; inversion H as [? En'|? En'|? ? path1 En' H1|? ? path1 En' H1]; subst; try congruence; auto;
    try (exfalso; first [apply En'|apply En]; rewrite ?En, ?En'; set_solver).
  - destruct (IH _ _ H1) as [-> ->]. auto.
  - destruct (IH _ _ H1) as [-> ->]. auto.
Qed.
End Targets.

(** ** The assignments of a rule *)

(** The targets of a statement, its blocks, and the leaves of a target. *)
Inductive has_target : AstNode -> AstNode -> Prop :=
| assignment_target stmt target : kind stmt = "Assign" -> target ∈ items stmt "targets" -> has_target stmt target
| annotated_target stmt : kind stmt = "AnnAssign" -> has_target stmt (child stmt "target")
| loop_target stmt : kind stmt = "For" -> has_target stmt (child stmt "target").

Inductive has_block : AstNode -> AstNode -> string -> Prop :=
| loop_body stmt : kind stmt = "For" -> has_block stmt stmt "body"
| then_branch stmt : kind stmt = "If" -> has_block stmt stmt "body"
| else_branch stmt : kind stmt = "If" -> has_block stmt stmt "orelse"
| match_arm stmt arm : kind stmt = "Match" -> arm ∈ items stmt "cases" -> has_block stmt arm "body".

Inductive has_leaf : AstNode -> AstNode -> Prop :=
| leaf_itself target : kind target <> "Tuple" -> kind target <> "List" -> has_leaf target target
| leaf_element target element leaf : kind target = "Tuple" \/ kind target = "List" -> element ∈ items target "elts" -> has_leaf element leaf -> has_leaf target leaf.

(** A leaf target that a block assigns, in nested loops, branches and cases
    included. *)
Inductive assigned : AstNode -> string -> AstNode -> Prop :=
| assigned_here parent field stmt target leaf :
    stmt ∈ items parent field -> has_target stmt target -> has_leaf target leaf -> assigned parent field leaf
| assigned_below parent field stmt block inner leaf :
    stmt ∈ items parent field -> has_block stmt block inner -> assigned block inner leaf -> assigned parent field leaf.

Lemma is_kind_iff n k : is_kind n k = true <-> kind n = k.
Proof. apply bool_decide_eq_true. Qed.

Lemma is_kind_not n k : is_kind n k = false <-> kind n <> k.
Proof. apply bool_decide_eq_false. Qed.

Lemma kind_in_two n a b : kind_in n [a; b] = true <-> kind n = a \/ kind n = b.
Proof. unfold kind_in. rewrite bool_decide_eq_true, !elem_of_cons, elem_of_nil. tauto. Qed.

Lemma has_target_iff stmt target : target ∈ statement_targets stmt <-> has_target stmt target.
Proof.
  unfold statement_targets. destruct (is_kind stmt "Assign") eqn:Ea; [apply is_kind_iff in Ea|apply is_kind_not in Ea; destruct (kind_in stmt _) eqn:Ek].
  - split; [constructor 1; assumption|]. destruct 1; [assumption|congruence..].
  - apply kind_in_two in Ek. rewrite list_elem_of_singleton. split; [intros ->; destruct Ek; [constructor 2|constructor 3]; assumption|]. destruct 1; [congruence|reflexivity..].
  - split; [intros H; apply elem_of_nil in H; contradiction|]. assert (Hn : ~ (kind stmt = "AnnAssign" \/ kind stmt = "For")) by (rewrite <- kind_in_two, Ek; discriminate).
    destruct 1; [congruence|tauto..].
Qed.

Lemma has_block_iff stmt block inner : (block, inner) ∈ statement_blocks stmt <-> has_block stmt block inner.
Proof.
  unfold statement_blocks. destruct (is_kind stmt "For") eqn:Ef; [apply is_kind_iff in Ef|apply is_kind_not in Ef; destruct (is_kind stmt "If") eqn:Ei;
    [apply is_kind_iff in Ei|apply is_kind_not in Ei; destruct (is_kind stmt "Match") eqn:Em; [apply is_kind_iff in Em|apply is_kind_not in Em]]].
  - rewrite list_elem_of_singleton. split; [intros [= -> ->]; constructor; assumption|]. destruct 1; congruence.
  - rewrite !elem_of_cons, elem_of_nil. split; [intros [[= -> ->]|[[= -> ->]|[]]]; [constructor 2|constructor 3]; assumption|]. destruct 1; try congruence; auto.
  - rewrite list_elem_of_fmap. split; [intros (arm & [= -> ->] & H); constructor 4; assumption|]. destruct 1; try congruence. eauto.
  - split; [intros H; apply elem_of_nil in H; contradiction|]. destruct 1; congruence.
Qed.

Lemma has_leaf_iff target leaf : leaf ∈ assignment_leaves target tt <-> has_leaf target leaf.
Proof.
  induction target as [target IH] using (induction_ltof1 _ node_height). unfold ltof in IH. rewrite leaves_unfold. destruct (kind_in target _) eqn:Ek.
  - apply kind_in_two in Ek. rewrite list_elem_of_In, in_flat_map. setoid_rewrite <- list_elem_of_In. split.
    + intros (element & He & Hl). eapply leaf_element; [exact Ek|exact He|]. apply IH; [eapply items_below, He|exact Hl].
    + intros H. inversion H; subst; [tauto|]. eexists. split; [eassumption|]. apply IH; [eapply items_below; eassumption|assumption].
  - assert (Hn : ~ (kind target = "Tuple" \/ kind target = "List")) by (rewrite <- kind_in_two, Ek; discriminate). rewrite list_elem_of_singleton. split.
    + intros ->. constructor; tauto.
    + intros H. inversion H; subst; [reflexivity|tauto].
Qed.

(** The writes [ws'] are [ws] with the paths of the leaves [P]. *)
Definition collects (table : gmap string nat) (P : AstNode -> Prop) (ws ws' : list SourceOwnerWrite) : Prop :=
  length ws' = length ws /\
  forall i w w', ws !! i = Some w -> ws' !! i = Some w' ->
    w_owner w' = w_owner w /\ w_formal w' = w_formal w /\ (minimal (w_paths w) -> minimal (w_paths w')) /\
    forall e place, touched e (w_paths w') place <->
      touched e (w_paths w) place \/ exists leaf root path, P leaf /\ target_path leaf root path /\ table !! root = Some i /\ touches e path place.

Lemma collects_nothing table (P : AstNode -> Prop) ws :
  (forall leaf root path i, P leaf -> target_path leaf root path -> table !! root = Some i -> ws !! i = None) -> collects table P ws ws.
Proof.
  intros H. split; [reflexivity|]. intros i w w' E1 E2. assert (w' = w) as -> by congruence. repeat split; auto.
  intros [Ht|(leaf & root & path & HP & Hp & Hi & _)]; [exact Ht|]. rewrite (H _ _ _ _ HP Hp Hi) in E1. discriminate.
Qed.

Lemma collects_trans table (P Q : AstNode -> Prop) a b c : collects table P a b -> collects table Q b c -> collects table (fun l => P l \/ Q l) a c.
Proof.
  intros [L1 H1] [L2 H2]. split; [congruence|]. intros i w w' Ea Ec.
  destruct (lookup_lt_is_Some_2 b i) as [v Eb]; [apply lookup_lt_Some in Ea; lia|]. destruct (H1 i w v Ea Eb) as (O1 & F1 & M1 & T1). destruct (H2 i v w' Eb Ec) as (O2 & F2 & M2 & T2).
  split; [congruence|]. split; [congruence|]. split; [auto|]. intros e place. rewrite T2, T1. split.
  - intros [[H|(l & r & p & H & R)]|(l & r & p & H & R)]; [left; exact H|right; exists l, r, p; tauto..].
  - intros [H|(l & r & p & [H|H] & R)]; [left; left; exact H|left; right; exists l, r, p; tauto|right; exists l, r, p; tauto].
Qed.

Lemma collects_ext table (P Q : AstNode -> Prop) a b : (forall l, P l <-> Q l) -> collects table P a b -> collects table Q a b.
Proof. intros H [L1 H1]. split; [exact L1|]. intros i w w' Ea Eb. destruct (H1 i w w' Ea Eb) as (O1 & F1 & M1 & T1). repeat split; auto; setoid_rewrite <- H; apply T1. Qed.

Section Scan.
Context `{L : ApLib} `{HL : !ApLaws L}.
Variable table : gmap string nat.

Lemma record_leaf_gives stmt ws leaf : gives (record_leaf table stmt ws leaf) (collects table (eq leaf) ws).
Proof.
  unfold record_leaf. apply gives_skip. intros _. eapply gives_bind; [apply targetPath_gives|]. intros [root path] [Ht _]. cbn [fst snd] in *.
  destruct (table !! root) as [i|] eqn:Ei; cbn [mbind option_bind].
  2:{ apply gives_ret, collects_nothing. intros l r p i <- Hp Hi. destruct (target_path_unique _ _ _ Ht _ _ Hp) as [<- <-]. congruence. }
  destruct (ws !! i) as [owner|] eqn:Ew; cbn [fmap option_fmap option_map].
  2:{ apply gives_ret, collects_nothing. intros l r p j <- Hp Hj. destruct (target_path_unique _ _ _ Ht _ _ Hp) as [<- <-]. congruence. }
  eapply gives_bind; [apply addPath_gives|]. intros owner' (O1 & F1 & T1 & M1). apply gives_ret. split; [apply length_insert|].
  intros j w w' E1 E2. destruct (decide (j = i)) as [->|Hne].
  - rewrite list_lookup_insert_eq in E2 by (eapply lookup_lt_Some, E1). injection E2 as <-. assert (w = owner) as -> by congruence. repeat split; auto; intros H.
    + apply T1 in H as [H|H]; [left; exact H|]. right. exists leaf, root, path. auto.
    + apply T1. destruct H as [H|(l & r & p & <- & Hp & _ & H)]; [left; exact H|]. right. destruct (target_path_unique _ _ _ Ht _ _ Hp) as [<- <-]. exact H.
  - rewrite list_lookup_insert_ne in E2 by congruence. assert (w' = w) as -> by congruence. repeat split; auto.
    intros [H|(l & r & p & <- & Hp & Hr & _)]; [exact H|]. destruct (target_path_unique _ _ _ Ht _ _ Hp) as [<- <-]. congruence.
Qed.

(** A loop of steps that each collect their leaves. *)
Lemma collect_loop {A} (f : list SourceOwnerWrite -> A -> M (list SourceOwnerWrite)) (P : A -> AstNode -> Prop) l ws :
  (forall a ws, a ∈ l -> gives (f ws a) (collects table (P a) ws)) -> gives (cfold f l ws) (collects table (fun leaf => exists a, a ∈ l /\ P a leaf) ws).
Proof.
  intros Hf. apply (gives_cfold f (fun done => collects table (fun leaf => exists a, a ∈ done /\ P a leaf) ws)).
  - intros done a ws' Ha Hd. eapply gives_weaken; [|apply (Hf a ws' Ha)]. intros ws'' Hw. eapply collects_ext; [|eapply collects_trans; [exact Hd|exact Hw]].
    intros leaf. cbn beta. setoid_rewrite elem_of_app. setoid_rewrite list_elem_of_singleton. split.
    + intros [(x & Hx & Hp)|Hp]; [exists x; auto|exists a; auto].
    + intros (x & [Hx| ->] & Hp); [left; exists x; auto|right; exact Hp].
  - apply collects_nothing. intros leaf ? ? ? (a & Ha & _). apply elem_of_nil in Ha. contradiction.
Qed.

Lemma scanWrites_gives : forall n x ws' s', scanWrites table n x = (Some ws', s') -> collects table (assigned n (fst (fst x))) (snd (fst x)) ws'.
Proof.
  unfold scanWrites. apply (walk_invariant _ _ (fun n x r => forall ws' s', r = (Some ws', s') -> collects table (assigned n (fst (fst x))) (snd (fst x)) ws')); [discriminate|].
  intros self IH n [[field ws] s]. cbn [fst snd]. intros ws' s' H.
  assert (Hstep : forall stmt ws, stmt ∈ items n field -> gives (let+ _ := pay 1 in
      let+ writes := cfold (fun writes target => cfold (record_leaf table stmt) (assignment_leaves target tt) writes) (statement_targets stmt) ws in
      cfold (fun writes (block : AstNode * string) s => self (fst block) (snd block, writes, s)) (statement_blocks stmt) writes)
    (collects table (fun leaf => (exists target, target ∈ statement_targets stmt /\ exists l, l ∈ assignment_leaves target tt /\ l = leaf) \/
       exists block, block ∈ statement_blocks stmt /\ assigned (fst block) (snd block) leaf) ws)).
  { intros stmt ws0 _. apply gives_skip. intros _. eapply gives_bind.
    - apply (collect_loop (fun writes target => cfold (record_leaf table stmt) (assignment_leaves target tt) writes)
        (fun target leaf => exists l, l ∈ assignment_leaves target tt /\ l = leaf)).
      intros target ws1 _. apply (collect_loop (record_leaf table stmt) (fun l leaf => l = leaf)). intros l ws2 _. apply record_leaf_gives.
    - intros ws1 H1. eapply gives_weaken; [|apply (collect_loop (fun writes (block : AstNode * string) s => self (fst block) (snd block, writes, s))
        (fun block leaf => assigned (fst block) (snd block) leaf))].
      + intros ws2 H2. eapply collects_trans; eassumption.
      + intros block ws2 _ s1 ws3 s3 E. exact (IH _ _ _ _ E). }
  pose proof (collect_loop _ _ (items n field) ws Hstep s ws' s' H) as Hc. eapply collects_ext; [|exact Hc]. intros leaf. split.
  - intros (stmt & Hs & [(target & Ht & l & Hl & <-)|([block inner] & Hb & Ha)]); [eapply assigned_here; [exact Hs|apply has_target_iff, Ht|apply has_leaf_iff, Hl]|eapply assigned_below; [exact Hs|apply has_block_iff, Hb|exact Ha]].
  - intros Ha. inversion Ha as [? ? stmt target ? Hs Ht Hl|? ? stmt block inner ? Hs Hb Hi]; subst; exists stmt; (split; [exact Hs|]).
    + left. exists target. split; [apply has_target_iff, Ht|]. exists leaf. split; [apply has_leaf_iff, Hl|reflexivity].
    + right. exists (block, inner). split; [apply has_block_iff, Hb|exact Hi].
Qed.
End Scan.

(** ** Reports *)

(** Steps over the plans [c] that only add pairs; [Q] holds of the pairs. *)
Definition reporting {A} (c : list SourceRuleCallPlan) (m : M A) (Q : list SourcePendingWritePair -> Prop) : Prop :=
  forall s a s', calls s = c -> m s = (Some a, s') -> calls s' = c /\ (exists new, pending s' = pending s ++ new) /\ Q (pending s').

(** A property that more pairs keep. *)
Definition stable (Q : list SourcePendingWritePair -> Prop) : Prop := forall l new, Q l -> Q (l ++ new).

Lemma reporting_framed {A} c (m : M A) : framed m -> reporting c m (fun _ => True).
Proof.
  intros Hm s a s' Hc E. specialize (Hm s). rewrite E in Hm. destruct Hm as [H1 H2]. cbn in H1, H2. split; [congruence|]. split; [|exact I]. exists []. rewrite app_nil_r. exact H2.
Qed.

Lemma reporting_bind {A B} c (m : M A) (k : A -> M B) Q R : stable Q -> reporting c m Q -> (forall a, reporting c (k a) R) -> reporting c (cbind m k) (fun l => Q l /\ R l).
Proof.
  intros Hst Hm Hk s b s'. unfold cbind. intros Hc. destruct (m s) as [[a|] s1] eqn:E1; [|discriminate]. intros E2.
  destruct (Hm s a s1 Hc E1) as (C1 & [n1 P1] & Q1). destruct (Hk a s1 b s' C1 E2) as (C2 & [n2 P2] & R2). split; [exact C2|].
  split; [exists (n1 ++ n2); rewrite P2, P1, app_assoc; reflexivity|]. split; [rewrite P2; apply Hst, Q1|exact R2].
Qed.

Lemma reporting_weaken {A} c (m : M A) (Q R : list SourcePendingWritePair -> Prop) : (forall l, Q l -> R l) -> reporting c m Q -> reporting c m R.
Proof. intros H Hm s a s' Hc E. destruct (Hm s a s' Hc E) as (H1 & H2 & H3). auto. Qed.

Lemma reporting_skip {A B} c (m : M A) (k : A -> M B) R : framed m -> (forall a, reporting c (k a) R) -> reporting c (cbind m k) R.
Proof.
  intros Hm Hk. eapply reporting_weaken; [|apply (reporting_bind c m k (fun _ => True) R); [intros ? ? _; exact I|apply reporting_framed, Hm|exact Hk]]. intros l [_ H]. exact H.
Qed.

Lemma reporting_ret {A} c (a : A) (Q : list SourcePendingWritePair -> Prop) : (forall l, Q l) -> reporting c (cret a) Q.
Proof. intros H s b s' Hc [= _ <-]. split; [exact Hc|]. split; [|apply H]. exists []. rewrite app_nil_r. reflexivity. Qed.

Lemma reporting_fold {A B} c (f : B -> A -> M B) (Q : A -> list SourcePendingWritePair -> Prop) l : (forall a, stable (Q a)) ->
  (forall a b, a ∈ l -> reporting c (f b a) (Q a)) -> forall b, reporting c (cfold f l b) (fun p => forall a, a ∈ l -> Q a p).
Proof.
  intros Hst. induction l as [|a l IH]; intros Hf b; cbn [cfold]; [apply reporting_ret; intros p a Ha; apply elem_of_nil in Ha; contradiction|].
  eapply reporting_weaken; [|apply reporting_bind; [apply (Hst a)|apply Hf; left|intros b'; apply IH; intros a' b'' Ha; apply Hf; right; exact Ha]].
  intros p [H1 H2] a' Ha. apply elem_of_cons in Ha as [->|Ha]; [exact H1|exact (H2 a' Ha)].
Qed.

(** The pair of two calls over an owner is recorded. *)
Definition recorded (module owner first second : AstNode) (l : list SourcePendingWritePair) : Prop :=
  exists p, p ∈ l /\ pw_module p = module /\ pw_owner p = owner /\ firstCall p = first /\ secondCall p = second.

Lemma recorded_stable m o f c : stable (recorded m o f c).
Proof. intros l new (p & Hp & H). exists p. split; [apply elem_of_app; left; exact Hp|exact H]. Qed.

Definition overlapping (paths previous : list SourceWritePath) : Prop := exists p q, p ∈ paths /\ q ∈ previous /\ overlaps (selectors p) (selectors q) = true.

Lemma framed_find_previous path previous : framed (find_previous path previous).
Proof. induction previous as [|p previous IH]; cbn [find_previous]; framed. Qed.

Lemma find_previous_gives path previous : gives (find_previous path previous)
  (fun found => match found with Some p => p ∈ previous | None => forall q, q ∈ previous -> overlaps (selectors path) (selectors q) = false end).
Proof.
  induction previous as [|p previous IH]; cbn [find_previous]; [apply gives_ret; intros q Hq; apply elem_of_nil in Hq; contradiction|]. apply gives_skip. intros _.
  destruct (overlaps (selectors path) (selectors p)) eqn:E; [apply gives_ret; left|]. eapply gives_weaken; [|exact IH]. intros [q|]; [intros H; right; exact H|].
  intros H q Hq. apply elem_of_cons in Hq as [->|Hq]; [exact E|exact (H q Hq)].
Qed.

Lemma record_overlap_reports c scope call owner first paths previous :
  reporting c (record_overlap scope call owner first paths previous) (fun l => overlapping paths previous -> recorded (ms_module scope) owner first call l).
Proof.
  induction paths as [|path paths IH]; cbn [record_overlap]; [apply reporting_ret; intros l (p & q & Hp & _); apply elem_of_nil in Hp; contradiction|].
  intros s a s' Hc. unfold cbind at 1. pose proof (framed_find_previous path previous s) as [F1 F2]. pose proof (find_previous_gives path previous s) as Hg.
  destruct (find_previous path previous s) as [[found|] s1]; [|discriminate]. specialize (Hg found s1 eq_refl). cbn [snd] in F1, F2. destruct found as [p|].
  - unfold cbind, read. destruct (Nat.eqb _ _); [discriminate|]. intros [= _ <-]. cbn. split; [congruence|]. split; [eexists; rewrite F2; reflexivity|].
    intros _. exists (mkPair (ms_module scope) owner first call (assignment p) (assignment path)). split; [set_solver|auto].
  - intros E. destruct (IH s1 a s' ltac:(congruence) E) as (C1 & [n P1] & Q1). split; [exact C1|]. split; [exists n; congruence|].
    intros (x & q & Hx & Hq & Ho). apply Q1. apply elem_of_cons in Hx as [->|Hx]; [rewrite (Hg q Hq) in Ho; discriminate|]. exists x, q. auto.
Qed.

(** Two writes of one owner whose paths overlap. *)
Definition conflicting (write other : SourceOwnerWrite) : Prop := w_owner write = w_owner other /\ overlapping (w_paths write) (w_paths other).

Lemma compare_writes_reports c scope call first write other :
  reporting c (compare_writes scope call first write other) (fun l => conflicting write other -> recorded (ms_module scope) (w_owner write) first call l).
Proof.
  unfold compare_writes. apply reporting_skip; [apply framed_pay|]. intros _. unfold sameOccurrence. case_bool_decide as E; cbn [negb].
  - eapply reporting_weaken; [|apply record_overlap_reports]. intros l H [_ Ho]. exact (H Ho).
  - apply reporting_ret. intros l [E' _]. contradiction.
Qed.

Lemma compare_with_earlier_reports c scope call counts write :
  reporting c (compare_with_earlier scope call counts write) (fun l => forall prior other, prior ∈ drop (firstCallIndex scope) c -> other ∈ p_writes prior ->
    conflicting write other -> recorded (ms_module scope) (w_owner write) (p_occurrence prior) call l).
Proof.
  unfold compare_with_earlier. destruct (_ <? _)%nat; [intros s a s' _ [=]|]. intros s a s' Hc. unfold cbind, read. rewrite Hc. revert s a s' Hc.
  match goal with |- forall s a s', calls s = c -> ?m s = _ -> _ => change (reporting c m (fun l => forall prior other, prior ∈ drop (firstCallIndex scope) c -> other ∈ p_writes prior ->
    conflicting write other -> recorded (ms_module scope) (w_owner write) (p_occurrence prior) call l)) end.
  eapply reporting_weaken; [|apply (reporting_fold c _ (fun prior l => forall other, other ∈ p_writes prior -> conflicting write other ->
    recorded (ms_module scope) (w_owner write) (p_occurrence prior) call l))].
  - intros l H prior other Hp. apply H, Hp.
  - intros prior l new H other Ho Hc. apply recorded_stable. exact (H other Ho Hc).
  - intros prior _ _. apply (reporting_fold c _ (fun other l => conflicting write other -> recorded (ms_module scope) (w_owner write) (p_occurrence prior) call l)).
    + intros other l new H Hc. apply recorded_stable, H, Hc.
    + intros other _ _. apply compare_writes_reports.
Qed.

(** ** Registration *)

Lemma cbind_inv {A B} (m : M A) (k : A -> M B) s b s' : cbind m k s = (Some b, s') -> exists a s1, m s = (Some a, s1) /\ k a s1 = (Some b, s').
Proof. unfold cbind. destruct (m s) as [[a|] s1]; [|discriminate]. eauto. Qed.

Lemma framed_some {A} (m : M A) s a s' : framed m -> m s = (Some a, s') -> calls s' = calls s /\ pending s' = pending s.
Proof. intros H E. specialize (H s). rewrite E in H. exact H. Qed.

(** The owner that an actual names. *)
Definition bound_owner (scope : ModuleScope) (actual : AstNode) : option AstNode :=
  if is_kind actual "Name" then owners scope !! string_of actual "id" else None.

Section Register.
Context `{L : ApLib} `{HL : !ApLaws L}.
Variable source : CapturedSource.

Lemma framed_targetPath leaf : framed (targetPath leaf).
Proof.
  intros s. unfold targetPath. assert (H : forall n x, framed_at (snd x) (target_steps n x)).
  { unfold target_steps. apply framed_walk. intros self H m [found s0]. cbn [snd]. revert s0.
    match goal with |- forall s, framed_at s (?m s) => change (framed m) end. unfold index_constant. framed. }
  specialize (H leaf ([], s)). destruct (target_steps leaf ([], s)) as [[[base found]|] s1]; exact H.
Qed.
#[local] Hint Resolve framed_targetPath : framed.

Lemma framed_addPath owner path : framed (addPath owner path).
Proof.
  unfold addPath. framed. induction (w_paths owner) as [|p l IH]; cbn [find_cover]; framed.
Qed.
#[local] Hint Resolve framed_addPath : framed.

Lemma framed_scanWrites table n x : framed_at (snd x) (scanWrites table n x).
Proof.
  unfold scanWrites. apply framed_walk. intros self H m [[field ws] s]. cbn [snd]. revert s.
  match goal with |- forall s, framed_at s (?m s) => change (framed m) end. unfold record_leaf. framed.
Qed.

Lemma framed_bind_owner scope table f : framed (bind_owner scope table f).
Proof. unfold bind_owner. framed. Qed.

(** The table that the formals give. *)
Definition owners_of (scope : ModuleScope) (done : list (string * AstNode)) (t : OwnerTable) : Prop :=
  Forall (fun w => w_paths w = []) (t_writes t) /\
  (forall f i, ownerForFormal t !! f = Some i -> exists actual o, (f, actual) ∈ done /\ bound_owner scope actual = Some o /\ t_writes t !! i = Some (mkOwnerWrite o f [])) /\
  (forall f actual o, (f, actual) ∈ done -> bound_owner scope actual = Some o -> is_Some (ownerForFormal t !! f)) /\
  (forall i w, t_writes t !! i = Some w -> exists actual, (w_formal w, actual) ∈ done /\ bound_owner scope actual = Some (w_owner w)).

Lemma bind_owner_gives scope done t f : owners_of scope done t -> gives (bind_owner scope t f) (owners_of scope (done ++ [f])).
Proof.
  intros (H1 & H2 & H3 & H4). unfold bind_owner. apply gives_skip. intros _. destruct f as [name actual].
  assert (Hsame : bound_owner scope actual = None -> owners_of scope (done ++ [(name, actual)]) t).
  { intros Hn. split; [exact H1|]. split; [|split].
    - intros f i E. destruct (H2 f i E) as (a & o & Ha & R). exists a, o. split; [apply elem_of_app; left; exact Ha|exact R].
    - intros f a o Ha Ho. apply elem_of_app in Ha as [Ha|Ha]; [exact (H3 f a o Ha Ho)|]. apply list_elem_of_singleton in Ha. injection Ha as -> ->. congruence.
    - intros i w E. destruct (H4 i w E) as (a & Ha & R). exists a. split; [apply elem_of_app; left; exact Ha|exact R]. }
  unfold bound_owner in Hsame at 1. destruct (is_kind actual "Name") eqn:Ek; cbn [negb]; [|apply gives_ret, Hsame; reflexivity].
  destruct (owners scope !! string_of actual "id") as [o|] eqn:Eo; [|apply gives_ret, Hsame; reflexivity]. apply gives_ret.
  assert (Hb : bound_owner scope actual = Some o) by (unfold bound_owner; rewrite Ek; exact Eo). split; [|split; [|split]]; cbn [t_writes ownerForFormal].
  - apply Forall_app. split; [exact H1|]. constructor; [reflexivity|constructor].
  - intros f i. rewrite lookup_insert_Some. intros [[<- <-]|[Hne E]].
    + exists actual, o. split; [apply elem_of_app; right; left|]. split; [exact Hb|]. rewrite lookup_app_r, Nat.sub_diag by lia. reflexivity.
    + destruct (H2 f i E) as (a & o' & Ha & Ho & Hw). exists a, o'. split; [apply elem_of_app; left; exact Ha|]. split; [exact Ho|]. apply lookup_app_l_Some, Hw.
  - intros f a o' Ha Ho. rewrite lookup_insert_is_Some'. apply elem_of_app in Ha as [Ha|Ha]; [right; exact (H3 f a o' Ha Ho)|].
    apply list_elem_of_singleton in Ha. injection Ha as -> _. left. reflexivity.
  - intros i w E. apply lookup_app_Some in E as [E|[_ E]].
    + destruct (H4 i w E) as (a & Ha & R). exists a. split; [apply elem_of_app; left; exact Ha|exact R].
    + apply list_lookup_singleton_Some in E as [_ <-]. exists actual. cbn. split; [apply elem_of_app; right; left|exact Hb].
Qed.

Lemma bind_owners_gives scope l : gives (cfold (bind_owner scope) l (mkOwners [] ∅ ∅)) (owners_of scope l).
Proof.
  apply (gives_cfold (bind_owner scope) (owners_of scope)); [intros done a b _ H; apply bind_owner_gives, H|].
  split; [constructor|]. split; [intros f i; cbn; rewrite lookup_empty; discriminate|]. split; [intros f a o H; apply elem_of_nil in H; contradiction|].
  intros i w; cbn; rewrite lookup_nil; discriminate.
Qed.

(** The writes of a plan are those of the rule: for every formal that stands
    for an owner, the paths touch what its assignments touch. *)
Definition plan_exact (scope : ModuleScope) (bound : list (string * AstNode)) (plan : SourceRuleCallPlan) : Prop :=
  (forall f actual o, (f, actual) ∈ bound -> bound_owner scope actual = Some o -> forall e place,
    (exists w, w ∈ p_writes plan /\ w_owner w = o /\ w_formal w = f /\ touched e (w_paths w) place) <->
    (exists leaf path, assigned (p_rule plan) "body" leaf /\ target_path leaf f path /\ touches e path place)) /\
  (forall w, w ∈ p_writes plan -> minimal (w_paths w) /\ exists actual, (w_formal w, actual) ∈ bound /\ bound_owner scope actual = Some (w_owner w)).

Lemma NoDup_fst_unique {A B} (l : list (A * B)) a b b' : NoDup (l.*1) -> (a, b) ∈ l -> (a, b') ∈ l -> b = b'.
Proof.
  intros Hn H1 H2. apply list_elem_of_lookup_1 in H1 as [i H1]. apply list_elem_of_lookup_1 in H2 as [j H2].
  assert (i = j) as <- by (eapply NoDup_lookup; [exact Hn|rewrite list_lookup_fmap, H1; reflexivity|rewrite list_lookup_fmap, H2; reflexivity]). congruence.
Qed.

Lemma writes_exact scope bound t ws plan : NoDup (bound.*1) -> owners_of scope bound t -> collects (ownerForFormal t) (assigned (p_rule plan) "body") (t_writes t) ws ->
  p_writes plan = filter (fun w => w_paths w <> []) ws -> plan_exact scope bound plan.
Proof.
  intros Hn (H1 & H2 & H3 & H4) [Hlen Hc] Ew.
  assert (Hback : forall i w, ws !! i = Some w -> exists w0, t_writes t !! i = Some w0 /\ w_paths w0 = []).
  { intros i w E. destruct (lookup_lt_is_Some_2 (t_writes t) i) as [w0 E0]; [apply lookup_lt_Some in E; lia|]. exists w0. split; [exact E0|].
    rewrite Forall_forall in H1. apply H1. eapply list_elem_of_lookup_2, E0. }
  split.
  - intros f actual o Ha Ho e place. rewrite Ew. split.
    + intros (w & Hw & Eo & Ef & Ht). apply list_elem_of_filter in Hw as [_ Hw]. apply list_elem_of_lookup_1 in Hw as [i Ei]. destruct (Hback i w Ei) as (w0 & E0 & Ep).
      destruct (Hc i w0 w E0 Ei) as (_ & F & _ & T). destruct (proj1 (T e place) Ht) as [(p & Hp & _)|(leaf & root & path & HP & Hp & Hi & Ht')]; [rewrite Ep in Hp; apply elem_of_nil in Hp; contradiction|].
      destruct (H2 root i Hi) as (a' & o' & _ & _ & E'). assert (root = f) as ->; [|exists leaf, path; auto].
      assert (w0 = mkOwnerWrite o' root []) as Ew0 by congruence. rewrite <- Ef, F, Ew0. reflexivity.
    + intros (leaf & path & HP & Hp & Ht). destruct (H3 f actual o Ha Ho) as [i Hi]. destruct (H2 f i Hi) as (a' & o' & Ha' & Ho' & E0).
      assert (actual = a') as <- by (eapply NoDup_fst_unique; eassumption). assert (o' = o) as -> by congruence.
      destruct (lookup_lt_is_Some_2 ws i) as [w Ei]; [apply lookup_lt_Some in E0; lia|]. destruct (Hc i _ w E0 Ei) as (O & F & _ & T).
      assert (Htw : touched e (w_paths w) place) by (apply T; right; exists leaf, f, path; auto). exists w. split; [|auto].
      apply list_elem_of_filter. split; [|eapply list_elem_of_lookup_2, Ei]. intros En. destruct Htw as (p & Hp' & _). rewrite En in Hp'. apply elem_of_nil in Hp'. exact Hp'.
  - intros w Hw. rewrite Ew in Hw. apply list_elem_of_filter in Hw as [_ Hw]. apply list_elem_of_lookup_1 in Hw as [i Ei]. destruct (Hback i w Ei) as (w0 & E0 & Ep).
    destruct (Hc i w0 w E0 Ei) as (O & F & Mn & _). split; [apply Mn; rewrite Ep; constructor|]. rewrite O, F. apply (H4 i), E0.
Qed.

(** What a registration does: nothing, or one plan and the pairs of it. *)
Definition registered (scope : ModuleScope) (call : AstNode) (s s' : Analysis) : Prop :=
  exists rule actuals order plan,
    rules scope !! string_of (if is_kind call "FunctionDef" then call else child call "func") (if is_kind call "FunctionDef" then "name" else "id") = Some rule /\
    registration_actuals (is_kind call "FunctionDef") call (child rule "args") = inr (actuals, order) /\
    calls s' = calls s ++ [plan] /\ p_module plan = ms_module scope /\ p_occurrence plan = call /\ p_rule plan = rule /\
    (NoDup (formal_names (child rule "args")) -> plan_exact scope (zip (formal_names (child rule "args")) actuals) plan) /\
    (exists new, pending s' = pending s ++ new) /\
    (forall prior write other, prior ∈ drop (firstCallIndex scope) (calls s) -> write ∈ p_writes plan -> other ∈ p_writes prior -> conflicting write other ->
      recorded (ms_module scope) (w_owner write) (p_occurrence prior) call (pending s')).

Lemma NoDup_zip_fst {A B} (l : list A) (k : list B) : NoDup l -> NoDup ((zip l k).*1).
Proof.
  revert k. induction l as [|a l IH]; intros [|b k] Hn; cbn; try constructor; apply NoDup_cons in Hn as [Ha Hn]; [|apply IH, Hn].
  intros H. apply Ha. apply list_elem_of_fmap in H as ([x y] & -> & H). apply elem_of_zip_l in H. exact H.
Qed.

(** The call or declaration names a rule. *)
Definition names_rule (scope : ModuleScope) (call rule : AstNode) : Prop :=
  (is_kind call "FunctionDef" = true \/ is_kind (child call "func") "Name" = true) /\
  rules scope !! string_of (if is_kind call "FunctionDef" then call else child call "func") (if is_kind call "FunctionDef" then "name" else "id") = Some rule.

Lemma registerCall_spec scope call statement s s' : registerCall source scope call statement s = (Some tt, s') ->
  (calls s' = calls s /\ pending s' = pending s /\ forall rule, ~ names_rule scope call rule) \/ registered scope call s s'.
Proof.
  unfold registerCall. intros H. apply cbind_inv in H as ([] & s1 & E1 & H). destruct (framed_some _ _ _ _ (framed_pay 1) E1) as [C1 P1].
  destruct (negb _ && negb _) eqn:Ec.
  { injection H as <-. left. split; [exact C1|]. split; [exact P1|]. intros rule [Hk _]. destruct (is_kind call "FunctionDef"); [discriminate|]. destruct Hk as [|Hk]; [discriminate|].
    rewrite Hk in Ec. discriminate. }
  clear Ec. destruct (rules scope !! _) as [rule|] eqn:Er; [|injection H as <-; left; split; [exact C1|]; split; [exact P1|]; intros rule [_ Hr]; congruence].
  apply cbind_inv in H as (hidden & s2 & E2 & H). assert (framed_at s1 (Some hidden, s2)) as F2.
  { rewrite <- E2. destruct (negb _ && _); [apply framed_shadowed|apply framed_ret]. }
  destruct F2 as [C2 P2]. cbn [snd] in C2, P2. destruct hidden; [discriminate|]. apply cbind_inv in H as (bound & s3 & E3 & H). destruct (framed_some _ _ _ _ (framed_checked _) E3) as [C3 P3].
  assert (Eb : registration_actuals (is_kind call "FunctionDef") call (child rule "args") = inr bound) by (unfold checked in E3; destruct (registration_actuals _ _ _); [discriminate|injection E3 as <- _; reflexivity]).
  destruct bound as [actuals order]. cbn [fst snd] in H. apply cbind_inv in H as (t & s4 & E4 & H). pose proof (bind_owners_gives _ _ _ _ _ E4) as Ht.
  destruct (framed_some _ _ _ _ (framed_cfold _ _ (fun b a => framed_bind_owner scope b a) _) E4) as [C4 P4].
  apply cbind_inv in H as (ws & s5 & E5 & H). pose proof (scanWrites_gives _ _ _ _ _ E5) as Hw. cbn [fst snd] in Hw. pose proof (framed_scanWrites (ownerForFormal t) rule ("body", t_writes t, s4)) as F5.
  rewrite E5 in F5. destruct F5 as [C5 P5]. cbn [snd] in C5, P5. apply cbind_inv in H as (u & s6 & E6 & H). injection H as <-. right.
  assert (C05 : calls s5 = calls s) by congruence. assert (P05 : pending s5 = pending s) by congruence.
  pose proof (reporting_fold (calls s) (fun _ write => compare_with_earlier scope call (aliases t) write) (fun write l => forall prior other, prior ∈ drop (firstCallIndex scope) (calls s) ->
    other ∈ p_writes prior -> conflicting write other -> recorded (ms_module scope) (w_owner write) (p_occurrence prior) call l) (filter (fun w => w_paths w <> []) ws)) as Hrep.
  destruct (Hrep ltac:(intros w l new Hl prior other Hp Ho Hcf; apply recorded_stable; exact (Hl prior other Hp Ho Hcf)) ltac:(intros w b _; apply compare_with_earlier_reports) tt s5 u s6 C05 E6) as (C6 & [new P6] & Q6).
  eexists rule, actuals, order, _. split; [exact Er|]. split; [exact Eb|]. cbn [calls pending snd]. split; [rewrite C6; reflexivity|]. split; [reflexivity|]. split; [reflexivity|]. split; [reflexivity|].
  split; [|split; [exists new; congruence|intros prior write other Hp Hwr Ho Hcf; exact (Q6 write Hwr prior other Hp Ho Hcf)]].
  intros Hn. eapply writes_exact; [apply NoDup_zip_fst, Hn|exact Ht|exact Hw|reflexivity].
Qed.
End Register.

(** ** The whole analysis *)

(** Every conflict of two registrations of one module is recorded. *)
Definition complete (s : Analysis) : Prop :=
  forall i j p q, calls s !! i = Some p -> calls s !! j = Some q -> (i < j)%nat -> p_module p = p_module q ->
  forall write other, write ∈ p_writes q -> other ∈ p_writes p -> conflicting write other ->
    recorded (p_module q) (w_owner write) (p_occurrence p) (p_occurrence q) (pending s).

(** Inside a module: the plans before [firstCallIndex] are of the modules
    [others], those after it of this one. *)
Definition module_ok (others : list AstNode) (scope : ModuleScope) (s : Analysis) : Prop :=
  complete s /\ (firstCallIndex scope <= length (calls s))%nat /\
  (forall p, p ∈ take (firstCallIndex scope) (calls s) -> p_module p ∈ others) /\ (forall p, p ∈ drop (firstCallIndex scope) (calls s) -> p_module p = ms_module scope).

Lemma module_ok_framed others scope s s' : calls s' = calls s -> pending s' = pending s -> module_ok others scope s -> module_ok others scope s'.
Proof. unfold module_ok, complete. intros -> ->. auto. Qed.

Section Whole.
Context `{L : ApLib} `{HL : !ApLaws L}.
Variable source : CapturedSource.

Lemma registered_ok others scope call s s' : ms_module scope ∉ others -> registered scope call s s' -> module_ok others scope s -> module_ok others scope s'.
Proof.
  intros Hother (rule & actuals & order & plan & _ & _ & Ec & Em & Eo & _ & _ & [new Ep] & Hrec) (Hcomp & Hle & Htake & Hdrop).
  assert (Hlen : length (calls s') = S (length (calls s))) by (rewrite Ec, length_app; cbn; lia). split; [|split; [lia|split]].
  - intros i j p q Hi Hj Hij Hm write other Hw Ho Hcf. rewrite Ec in Hi, Hj. apply lookup_app_Some in Hj as [Hj|[Hj1 Hj2]].
    + rewrite lookup_app_l in Hi by (apply lookup_lt_Some in Hj; lia). rewrite Ep. apply recorded_stable. eapply (Hcomp i j); eassumption.
    + apply list_lookup_singleton_Some in Hj2 as [Hj2 <-]. rewrite lookup_app_l in Hi by lia. rewrite Em, Eo. apply Hrec with (other := other); [|exact Hw|exact Ho|exact Hcf].
      rewrite <- (take_drop (firstCallIndex scope) (calls s)) in Hi. apply lookup_app_Some in Hi as [Hi|[_ Hi]]; [|eapply list_elem_of_lookup_2, Hi].
      exfalso. apply Hother. rewrite <- Em, <- Hm. apply Htake. eapply list_elem_of_lookup_2, Hi.
  - rewrite Ec, take_app_le by exact Hle. exact Htake.
  - rewrite Ec, drop_app_le by exact Hle. intros p Hp. apply elem_of_app in Hp as [Hp|Hp]; [exact (Hdrop p Hp)|]. apply list_elem_of_singleton in Hp as ->. exact Em.
Qed.

(** A successful step from [I] ends in [J] of its value. *)
Definition leads {A} (I : Analysis -> Prop) (m : M A) (J : A -> Analysis -> Prop) : Prop := forall s a s', I s -> m s = (Some a, s') -> J a s'.

Lemma leads_bind {A B} I (m : M A) J (k : A -> M B) K : leads I m J -> (forall a, leads (J a) (k a) K) -> leads I (cbind m k) K.
Proof. intros Hm Hk s b s' HI E. apply cbind_inv in E as (a & s1 & E1 & E2). eapply Hk; [|exact E2]. eapply Hm; eassumption. Qed.

Lemma leads_framed {A} others scope (m : M A) : framed m -> leads (module_ok others scope) m (fun _ => module_ok others scope).
Proof. intros Hm s a s' HI E. destruct (framed_some _ _ _ _ Hm E) as [E1 E2]. eapply module_ok_framed; eassumption. Qed.

Lemma leads_ret {A} I (a : A) (J : A -> Analysis -> Prop) : (forall s, I s -> J a s) -> leads I (cret a) J.
Proof. intros H s b s' HI [= <- <-]. exact (H s HI). Qed.

Lemma registerCall_leads others scope call stmt : ms_module scope ∉ others -> leads (module_ok others scope) (registerCall source scope call stmt) (fun _ => module_ok others scope).
Proof.
  intros Ho s [] s' HI E. destruct (registerCall_spec source scope call stmt s s' E) as [(E1 & E2 & _)|H]; [eapply module_ok_framed; eassumption|eapply registered_ok; eassumption].
Qed.

(** Scopes of one module. *)
Definition same_module (scope scope' : ModuleScope) : Prop := ms_module scope' = ms_module scope /\ firstCallIndex scope' = firstCallIndex scope.

Lemma module_ok_same others scope scope' s : same_module scope scope' -> module_ok others scope s -> module_ok others scope' s.
Proof. intros [E1 E2]. unfold module_ok. rewrite E1, E2. auto. Qed.

Lemma declare_owner_same scope stmt : gives (declare_owner source scope stmt) (same_module scope).
Proof.
  unfold declare_owner. destruct (is_kind stmt "AnnAssign"); [apply gives_ret; destruct (is_kind _ _); split; reflexivity|].
  destruct (_ && _); [|apply gives_ret; split; reflexivity]. destruct (_ && _); [|apply gives_ret; split; reflexivity]. apply gives_skip. intros [|]; apply gives_ret; split; reflexivity.
Qed.

Lemma framed_declare_owner scope stmt : framed (declare_owner source scope stmt).
Proof. unfold declare_owner. framed; apply framed_resolves. Qed.

Lemma framed_is_registration scope call : framed (is_registration source scope call).
Proof. unfold is_registration. framed; apply framed_orderBefore. Qed.

Lemma register_statement_leads others scope stmt : ms_module scope ∉ others ->
  leads (module_ok others scope) (register_statement source scope stmt) (fun scope' s => same_module scope scope' /\ module_ok others scope' s).
Proof.
  intros Ho. unfold register_statement. set (call := if kind_in _ _ then _ else _). eapply leads_bind; [apply leads_framed, framed_is_registration|]. intros registers.
  eapply leads_bind; [apply leads_framed; intros s; apply (framed_expressions source scope stmt (_, s))|]. intros [].
  eapply leads_bind with (J := fun _ => module_ok others scope); [destruct registers; [apply registerCall_leads, Ho|apply leads_ret; auto]|]. intros [].
  eapply leads_bind; [apply leads_framed; destruct (is_kind _ _); [apply framed_hasDecorator|apply framed_ret]|]. intros local.
  eapply leads_bind with (J := fun _ => module_ok others scope); [destruct local; [apply registerCall_leads, Ho|apply leads_ret; auto]|]. intros [].
  destruct (is_kind stmt "Assign"); [|apply leads_ret; intros s H; split; [split; reflexivity|exact H]]. cbn zeta.
  eapply leads_bind; [apply leads_framed; intros s; pose proof (framed_depends scope (child stmt "value") s) as H; destruct (depends _ _ s); exact H|].
  intros aliased. set (scope2 := if aliased then _ else _). assert (Hs2 : same_module scope scope2) by (unfold scope2; destruct aliased; split; reflexivity).
  eapply leads_bind; [apply leads_framed, framed_cfold; intros [] leaf; unfold bind_data; framed; apply framed_orderBefore|]. intros []. apply leads_ret. intros s H.
  split; [exact Hs2|]. eapply module_ok_same; eassumption.
Qed.

Lemma module_statement_leads others scope stmt : ms_module scope ∉ others ->
  leads (module_ok others scope) (module_statement source scope stmt) (fun scope' s => same_module scope scope' /\ module_ok others scope' s).
Proof.
  intros Ho s0 scope' s' HI E. unfold module_statement in E. apply cbind_inv in E as (scope1 & s1 & E1 & E2). pose proof (declare_owner_same _ _ _ _ _ E1) as [Em Ef].
  destruct (framed_some _ _ _ _ (framed_declare_owner scope stmt) E1) as [C1 P1].
  destruct (register_statement_leads others scope1 stmt ltac:(congruence) s1 scope' s') as [[Em' Ef'] H]; [|exact E2|].
  - eapply module_ok_same; [split; eassumption|]. eapply module_ok_framed; eassumption.
  - split; [split; congruence|exact H].
Qed.

Lemma statements_lead others scope l : ms_module scope ∉ others ->
  leads (module_ok others scope) (cfold (module_statement source) l scope) (fun scope' s => same_module scope scope' /\ module_ok others scope' s).
Proof.
  revert scope. induction l as [|stmt l IH]; intros scope Ho; cbn [cfold]; [apply leads_ret; intros s H; split; [split; reflexivity|exact H]|].
  intros s0 scope' s' HI E. apply cbind_inv in E as (scope1 & s1 & E1 & E2). destruct (module_statement_leads others scope stmt Ho _ _ _ HI E1) as [[Em Ef] H1].
  destruct (IH scope1 ltac:(congruence) s1 scope' s' H1 E2) as [[Em' Ef'] H2]. split; [split; congruence|exact H2].
Qed.

(** Between modules. *)
Definition analysis_ok (done : list AstNode) (s : Analysis) : Prop := complete s /\ forall p, p ∈ calls s -> p_module p ∈ done.

Lemma analysis_ok_framed done s s' : calls s' = calls s -> pending s' = pending s -> analysis_ok done s -> analysis_ok done s'.
Proof. unfold analysis_ok, complete. intros -> ->. auto. Qed.

Lemma analysis_ok_mono done m s : analysis_ok done s -> analysis_ok (done ++ [m]) s.
Proof. intros [H1 H2]. split; [exact H1|]. intros p Hp. apply elem_of_app. left. exact (H2 p Hp). Qed.

Lemma framed_nested_rule found d : framed (nested_rule source found d).
Proof. unfold nested_rule. framed; apply framed_hasDecorator. Qed.

Lemma analyze_module_leads globals done module : module ∉ done -> leads (analysis_ok done) (analyze_module source globals module) (fun _ => analysis_ok (done ++ [module])).
Proof.
  intros Hm s0 u s' HI E. assert (Hend : forall s, calls s = calls s0 -> pending s = pending s0 -> analysis_ok (done ++ [module]) s) by (intros s E1 E2; apply analysis_ok_mono; eapply analysis_ok_framed; eassumption).
  unfold analyze_module in E. apply cbind_inv in E as ([] & s1 & E1 & E). destruct (framed_some _ _ _ _ (framed_pay 1) E1) as [C1 P1]. destruct (negb _); [injection E as _ <-; auto|].
  apply cbind_inv in E as (plain & s2 & E2 & E). destruct (framed_some _ _ _ _ (framed_hasDecorator source module "module") E2) as [C2 P2].
  apply cbind_inv in E as (system & s3 & E3 & E). assert (F3 : framed (if plain then cret true else hasDecorator source module "system")) by (destruct plain; [apply framed_ret|apply framed_hasDecorator]).
  destruct (framed_some _ _ _ _ F3 E3) as [C3 P3]. destruct (negb system); [injection E as _ <-; apply Hend; congruence|].
  apply cbind_inv in E as (found & s4 & E4 & E). destruct (framed_some _ _ _ _ (framed_cfold _ _ framed_nested_rule _) E4) as [C4 P4].
  apply cbind_inv in E as (locals & s5 & E5 & E). destruct (framed_some _ _ _ _ (framed_cfold _ _ (fun b a => framed_collectLocals source a b) _) E5) as [C5 P5].
  apply cbind_inv in E as (first & s6 & E6 & E). injection E6 as <- <-. apply cbind_inv in E as (scope' & s7 & E7 & E). injection E as _ <-.
  match type of E7 with cfold _ _ ?scope _ = _ => destruct (statements_lead done scope (items module "body") Hm s5 scope' s7) as [[Em Ef] (Hc & Hle & Ht & Hd)]; [|exact E7|] end.
  - split; [|split; [cbn; lia|split; cbn [firstCallIndex]; intros p Hp]].
    + destruct HI as [Hc _]. unfold complete in *. rewrite C5, C4, C3, C2, C1, P5, P4, P3, P2, P1. exact Hc.
    + rewrite take_ge in Hp by lia. apply (proj2 HI). congruence.
    + rewrite drop_ge in Hp by lia. apply elem_of_nil in Hp. contradiction.
  - split; [exact Hc|]. intros p Hp. rewrite <- (take_drop (firstCallIndex scope') (calls s7)) in Hp. apply elem_of_app in Hp as [Hp|Hp].
    + apply elem_of_app. left. exact (Ht p Hp).
    + rewrite (Hd p Hp), Em. cbn. apply elem_of_app. right. left.
Qed.

(** The items of an array are different occurrences. *)
Lemma items_NoDup n name : NoDup (items n name).
Proof.
  unfold items. apply NoDup_fmap_2_strong; [|apply NoDup_seq]. intros i j Hi Hj E. apply elem_of_seq in Hi, Hj.
  destruct (item_some n name i _ eq_refl ltac:(lia)) as (l & a & _ & _ & Ei). destruct (item_some n name j _ eq_refl ltac:(lia)) as (l' & a' & _ & _ & Ej).
  rewrite Ei, Ej in E. injection E as _ E. apply app_inv_head in E. injection E as E. lia.
Qed.

Lemma modules_lead globals rest : forall done, NoDup (done ++ rest) ->
  leads (analysis_ok done) (cfold (fun _ module => analyze_module source globals module) rest tt) (fun _ => analysis_ok (done ++ rest)).
Proof.
  induction rest as [|m rest IH]; intros done Hn; cbn [cfold]; [apply leads_ret; rewrite app_nil_r; auto|]. eapply leads_bind.
  - apply analyze_module_leads. apply NoDup_app in Hn as (_ & Hn & _). intros H. apply (Hn m H). left.
  - intros []. replace (done ++ m :: rest) with ((done ++ [m]) ++ rest) in * by (rewrite <- app_assoc; reflexivity). apply IH, Hn.
Qed.

Lemma framed_import_statement u stmt : framed (import_statement u stmt).
Proof. unfold import_statement, import_name. framed. Qed.

Lemma framed_global_rule found stmt : framed (global_rule source found stmt).
Proof. unfold global_rule. framed; apply framed_hasDecorator. Qed.

Lemma analyze_complete s' : analyze source fresh_analysis = (Some tt, s') -> complete s'.
Proof.
  unfold analyze. intros E. apply cbind_inv in E as ([] & s1 & E1 & E). destruct (framed_some _ _ _ _ (framed_cfold _ _ framed_import_statement _) E1) as [C1 P1].
  apply cbind_inv in E as (globals & s2 & E2 & E). destruct (framed_some _ _ _ _ (framed_cfold _ _ framed_global_rule _) E2) as [C2 P2].
  refine (proj1 (modules_lead globals _ [] (items_NoDup _ _) s2 tt s' _ E)). apply (analysis_ok_framed [] fresh_analysis); [congruence|congruence|].
  split; [intros i j p q H; cbn in H; rewrite lookup_nil in H; discriminate|intros p Hp; apply elem_of_nil in Hp; contradiction].
Qed.
End Whole.

(** The algebra of write paths is exact.  A path stands for the places that
    an assignment to it may change, for given values of its index expressions.
    [covers] holds exactly when every place of the second path is a place of
    the first, whatever the indices are; [overlaps] holds exactly when some
    indices give the two paths a common place (for paths that select fields
    and elements at the same depths, each index expression occurring once). *)
Theorem write_paths_exact a b : Forall canonical_selector a -> Forall canonical_selector b ->
  (covers a b = true <-> forall e place, touches e b place -> touches e a place) /\
  (NoDup (expressions_of a) -> NoDup (expressions_of b) -> same_kinds a b ->
    overlaps a b = true <-> exists e e' place, touches e a place /\ touches e' b place).
Proof.
  intros Ha Hb. split.
  - split; [intros H e place; apply covers_sound, H|]. intros H. destruct (covers a b) eqn:E; [reflexivity|]. destruct (covers_complete a b Ha Hb E) as (e & place & H1 & H2). destruct (H2 (H e place H1)).
  - intros Na Nb Hk. split; [apply overlaps_complete; assumption|]. intros (e & e' & place & H1 & H2). eapply overlaps_sound; eassumption.
Qed.


(** C16: no conflict escapes.  If the analysis of a capture is valid, then for
    any two registrations of one module and any writes of them to the same
    owner that may change a common place, for whatever values their index
    expressions have, the pair of the two calls is among the pending pairs,
    and so needs a proof that the rules exclude each other. *)
Theorem conflicting_writers_reported `{L : ApLib} `{HL : !ApLaws L} body_empty attributes s i j p q write other e e' place :
  SourceRuleWritesAnalysis body_empty attributes = (true, s) ->
  calls s !! i = Some p -> calls s !! j = Some q -> (i < j)%nat -> p_module p = p_module q ->
  other ∈ p_writes p -> write ∈ p_writes q -> w_owner write = w_owner other ->
  touched e (w_paths other) place -> touched e' (w_paths write) place ->
  exists pair, pair ∈ pending s /\ pw_module pair = p_module q /\ pw_owner pair = w_owner write /\ firstCall pair = p_occurrence p /\ secondCall pair = p_occurrence q.
Proof.
  unfold SourceRuleWritesAnalysis. destruct (readSingleCapture _ _) as [m|source]; [discriminate|]. destruct (analyze source fresh_analysis) as [[[]|] s1] eqn:E; [|discriminate].
  intros [= <-] Hi Hj Hij Hm Ho Hw Eo (x & Hx & Tx) (y & Hy & Ty). apply (analyze_complete source s1 E i j p q Hi Hj Hij Hm write other Hw Ho). split; [exact Eo|].
  exists y, x. split; [exact Hy|]. split; [exact Hx|]. eapply overlaps_sound; eassumption.
Qed.

Module RuleWitness.
(** The file of [Capture] with its three rules. *)
Import Capture.

#[local] Existing Instance Reference.lib.
#[local] Existing Instance Reference.laws.

Definition result : bool * Analysis := SourceRuleWritesAnalysis true capture.

(** The names of the calls of the pairs. *)
Definition pair_names (p : SourcePendingWritePair) : string * string := (string_of (firstCall p) "name", string_of (secondCall p) "name").

(** A field and an element of one register count as overlapping; the whole
    register overlaps both. *)
Lemma result_pairs : fst result = true /\ length (calls (snd result)) = 3%nat /\ pair_names <$> pending (snd result) = [("left", "right"); ("left", "both"); ("right", "both")].
Proof. split; [vm_compute; reflexivity|]. split; [vm_compute; reflexivity|]. vm_compute. reflexivity. Qed.

(** The [i]th element of a list of known length. *)
Definition nth_of {A} (d : A) (l : list A) (i : nat) : A := default d (l !! i).
Lemma nth_of_lookup {A} (d : A) l i : (i <? length l)%nat = true -> l !! i = Some (nth_of d l i).
Proof. intros H. apply Nat.ltb_lt, lookup_lt_is_Some_2 in H as [a Ha]. unfold nth_of. rewrite Ha. reflexivity. Qed.
Lemma nth_of_elem {A} (d : A) l i : (i <? length l)%nat = true -> nth_of d l i ∈ l.
Proof. intros H. eapply list_elem_of_lookup_2, nth_of_lookup, H. Qed.

Definition plan (i : nat) : SourceRuleCallPlan := nth_of (mkPlan no_node no_node no_node LocalDeclaration no_node [] []) (calls (snd result)) i.
Definition write_of (i : nat) : SourceOwnerWrite := nth_of (mkOwnerWrite no_node "" []) (p_writes (plan i)) 0.
Definition path_of (i : nat) : SourceWritePath := nth_of (mkPath [] no_node) (w_paths (write_of i)) 0.
Definition field_of (i : nat) : SourceWriteSelector := nth_of (mkSelector IndexSelector "" no_node None) (selectors (path_of i)) 0.

Lemma plan_at i : (i <? length (calls (snd result)))%nat = true -> calls (snd result) !! i = Some (plan i).
Proof. apply nth_of_lookup. Qed.
Lemma write_in i : (0 <? length (p_writes (plan i)))%nat = true -> write_of i ∈ p_writes (plan i).
Proof. exact (nth_of_elem (mkOwnerWrite no_node "" []) (p_writes (plan i)) 0). Qed.
Lemma path_in i : (0 <? length (w_paths (write_of i)))%nat = true -> path_of i ∈ w_paths (write_of i).
Proof. exact (nth_of_elem (mkPath [] no_node) (w_paths (write_of i)) 0). Qed.

Lemma left_path : selectors (path_of 0) = [field_of 0].
Proof.
  assert (H : length (selectors (path_of 0)) = 1%nat) by (vm_compute; reflexivity). unfold field_of. destruct (selectors (path_of 0)) as [|x [|]]; try discriminate H. reflexivity.
Qed.

Lemma conflicting_writers_reported_witness :
  exists pair, pair ∈ pending (snd result) /\ pw_module pair = p_module (plan 2) /\ pw_owner pair = w_owner (write_of 2) /\
    firstCall pair = p_occurrence (plan 0) /\ secondCall pair = p_occurrence (plan 2).
Proof.
  refine (conflicting_writers_reported true capture (snd result) 0 2 (plan 0) (plan 2) (write_of 2) (write_of 0) (fun _ => 0) (fun _ => 0) [PlaceField "lo"] _ _ _ _ _ _ _ _ _ _).
  - change (result = (true, snd result)). rewrite <- (proj1 result_pairs). destruct result. reflexivity.
  - apply plan_at. vm_compute. reflexivity.
  - apply plan_at. vm_compute. reflexivity.
  - lia.
  - apply (bool_decide_eq_true (p_module (plan 0) = p_module (plan 2))). vm_compute. reflexivity.
  - apply write_in. vm_compute. reflexivity.
  - apply write_in. vm_compute. reflexivity.
  - apply (bool_decide_eq_true (w_owner (write_of 2) = w_owner (write_of 0))). vm_compute. reflexivity.
  - exists (path_of 0). split; [apply path_in; vm_compute; reflexivity|]. exists [PlaceField "lo"], []. split; [reflexivity|]. rewrite left_path. constructor; [|constructor].
    assert (sel_kind (field_of 0) = FieldSelector) as Ek by (vm_compute; reflexivity). unfold selects. rewrite Ek. vm_compute. reflexivity.
  - exists (path_of 2). split; [apply path_in; vm_compute; reflexivity|]. exists [], [PlaceField "lo"]. split; [reflexivity|].
    assert (H : length (selectors (path_of 2)) = 0%nat) by (vm_compute; reflexivity). destruct (selectors (path_of 2)); [constructor|discriminate H].
Defined.

(** [x.lo] and [x.lo[1]]. *)
Definition low : SourceWriteSelector := mkSelector FieldSelector "lo" no_node None.
Definition first_element : SourceWriteSelector := mkSelector IndexSelector "" no_node (Some (spell 1)).

Lemma write_paths_exact_witness :
  (forall e place, touches e [low; first_element] place -> touches e [low] place) /\ exists e e' place, touches e [low] place /\ touches e' [low; first_element] place.
Proof.
  assert (Hl : canonical_selector low) by discriminate. assert (Hf : canonical_selector first_element) by (intros s [= <-]; exists 1; reflexivity).
  destruct (write_paths_exact [low] [low; first_element]) as [H1 H2]; [repeat constructor; assumption..|]. split; [apply H1; reflexivity|].
  apply H2; [constructor|constructor| |reflexivity]. intros [|[|i]] x y; cbn; congruence.
Defined.

Definition source : CapturedSource := match readSingleCapture true capture with inr s => s | inl _ => mkCaptured "" no_node end.
Definition top : AstNode := item (source_module source) "body" 1.
Definition left_declaration : AstNode := item top "body" 1.
Definition top_scope : ModuleScope := mkScope top {["left" := left_declaration]} {["left"]} ∅ ∅ ∅ ∅ {["r" := item top "body" 0]} 0.
Definition registered_left : option unit * Analysis := registerCall source top_scope left_declaration left_declaration fresh_analysis.

End RuleWitness.
