(* ===== verification/SourceIdentity.v ===== *)
(** * Source identities ([ACIRIdentityContracts.cpp], [ACIRSourceContracts.cpp])

    Everything that the compiler derives from a source file is named by
    dictionaries of fixed grammars: spans, sites, occurrences, owners, state
    references, checks, observations.  This file models the verifiers of the
    grammars, the memo of the dictionaries that passed, and the structural
    order by which identities are sorted. *)

From Stdlib Require Import ZArith Lia String.
From stdpp Require Import base list numbers strings.
From S2P Require Import Prelude CompilerPrelude ApInt ValueSemantics StaticValues PythonAst.

Open Scope string_scope.
Open Scope list_scope.
Open Scope Z_scope.

(** ** The memo *)

(** The grammars that the dialect of a context remembers. *)
Record GrammarMemo := mkMemo {
  verifiedSourceSpanGrammars : list DictionaryAttr;
  verifiedStaticExpressionGrammars : list DictionaryAttr;
  verifiedOccurrenceGrammars : list DictionaryAttr }.

(** No memo where the dialect is not loaded. *)
Definition Memo := option GrammarMemo.

Definition holds (l : list DictionaryAttr) (value : DictionaryAttr) : bool := existsb (fun d => if dictionary_dec d value then true else false) l.
Definition insert_once (value : DictionaryAttr) (l : list DictionaryAttr) : list DictionaryAttr := if holds l value then l else value :: l.

Definition memo_contains (grammars : GrammarMemo -> list DictionaryAttr) (value : option DictionaryAttr) (memo : Memo) : bool :=
  match value, memo with Some value, Some memo => holds (grammars memo) value | _, _ => false end.

Definition isVerifiedSourceSpanGrammar := memo_contains verifiedSourceSpanGrammars.
Definition isVerifiedStaticExpressionGrammar := memo_contains verifiedStaticExpressionGrammars.
Definition isVerifiedOccurrenceGrammar := memo_contains verifiedOccurrenceGrammars.

Definition rememberVerifiedSourceSpanGrammar (value : DictionaryAttr) (memo : Memo) : Memo :=
  (fun m => mkMemo (insert_once value (verifiedSourceSpanGrammars m)) (verifiedStaticExpressionGrammars m) (verifiedOccurrenceGrammars m)) <$> memo.
Definition rememberVerifiedStaticExpressionGrammar (value : DictionaryAttr) (memo : Memo) : Memo :=
  (fun m => mkMemo (verifiedSourceSpanGrammars m) (insert_once value (verifiedStaticExpressionGrammars m)) (verifiedOccurrenceGrammars m)) <$> memo.
Definition rememberOccurrence (value : DictionaryAttr) (memo : Memo) : Memo :=
  (fun m => mkMemo (verifiedSourceSpanGrammars m) (verifiedStaticExpressionGrammars m) (insert_once value (verifiedOccurrenceGrammars m))) <$> memo.

(** Checks that use the memo. *)
Definition G (A : Type) : Type := Memo -> FailureOr A * Memo.
Definition gpure {A} (r : FailureOr A) : G A := fun memo => (r, memo).
Definition gbind {A B} (m : G A) (k : A -> G B) : G B := fun memo => let '(r, memo) := m memo in match r with inr a => k a memo | inl e => (inl e, memo) end.
Notation "'let@' x := m 'in' k" := (gbind m (fun x => k)) (at level 10, x name, m at level 200, k at level 200) : gfsim_scope.

(** The checks of a sequence, up to the first that fails. *)
Fixpoint gall (l : list (G unit)) : G unit :=
  match l with [] => gpure (success tt) | m :: rest => let@ _ := m in gall rest end.

(** ** Fields *)

Definition exactFields (value : option DictionaryAttr) (count : nat) : FailureOr DictionaryAttr :=
  match value with
  | Some d => if Nat.eqb (length d) count then success d else failure "must contain exactly the expected fields"
  | None => failure "must contain exactly the expected fields"
  end.

Definition verifyDictionaryField (owner : DictionaryAttr) (field : string) (verifier : option DictionaryAttr -> G unit) : G unit :=
  match get_dict field owner with
  | Some nested => verifier (Some nested)
  | None => gpure (failure "field must be a DictionaryAttr")
  end.

Definition decodeU32 (value : option Attr) : FailureOr Z :=
  let! decoded := decodeU64 value in
  if 2 ^ 32 - 1 <? decoded then failure "is outside the u32 range" else success decoded.

Definition readU64 (record : DictionaryAttr) (name : string) : FailureOr Z := decodeU64 (dget name record).

Definition accept {A} (r : FailureOr A) : FailureOr unit := let! _ := r in success tt.

(** ** Spans and sites *)

Definition verifySourceSpan (value : option DictionaryAttr) : G unit := fun memo =>
  if isVerifiedSourceSpanGrammar value memo then (success tt, memo)
  else
    match value with
    | None => (failure "SourceSpan must contain exactly five fields", memo)
    | Some d =>
      let checked :=
        if negb (Nat.eqb (length d) 5) then failure "SourceSpan must contain exactly five fields"
        else if negb (bool_decide (is_Some (get_string "path" d))) then failure "SourceSpan field 'path' must be a StringAttr"
        else
          let! line := readU64 d "line" in
          let! column := readU64 d "column" in
          let! endLine := readU64 d "end_line" in
          let! endColumn := readU64 d "end_column" in
          if (line =? 0) || (column =? 0) || (endLine =? 0) || (endColumn =? 0) then failure "SourceSpan coordinates must be one-based"
          else if (endLine <? line) || ((endLine =? line) && (endColumn <? column)) then failure "SourceSpan must not end before it starts"
          else success tt in
      match checked with
      | inr _ => (success tt, rememberVerifiedSourceSpanGrammar d memo)
      | inl e => (inl e, memo)
      end
    end.

Definition verifyPathComponent (value : option DictionaryAttr) : FailureOr unit :=
  match value with
  | Some d =>
    if negb (Nat.eqb (length d) 2) then failure "PathComponent must contain exactly two fields"
    else
      match get_string "kind" d with
      | None => failure "PathComponent field 'kind' must be a StringAttr"
      | Some kind =>
        if decide (kind = "field") then
          match get_string "name" d with Some _ => success tt | None => failure "field PathComponent requires a StringAttr name" end
        else if decide (kind = "index") then accept (readU64 d "value")
        else failure "PathComponent kind must be 'field' or 'index'"
      end
  | None => failure "PathComponent must contain exactly two fields"
  end.

(** The component of a path; other attributes are refused before. *)
Definition path_element (component : Attr) : FailureOr unit :=
  match component with
  | Dictionary record => verifyPathComponent (Some record)
  | _ => failure "Site ast_path elements must be PathComponent DictionaryAttr"
  end.

Definition verifySite (value : option DictionaryAttr) : FailureOr unit :=
  match value with
  | Some d =>
    if negb (Nat.eqb (length d) 2) then failure "Site must contain exactly two fields"
    else
      match get_symbol "definition" d, get_array "ast_path" d with
      | None, _ => failure "Site field 'definition' must be a FlatSymbolRefAttr"
      | _, None => failure "Site field 'ast_path' must be an ArrayAttr"
      | Some _, Some path => all_ok (path_element <$> path)
      end
  | None => failure "Site must contain exactly two fields"
  end.

(** ** Occurrences *)

Definition verifyExpansionFrame (value : option DictionaryAttr) : FailureOr unit :=
  match value with
  | None => failure "ExpansionFrame must be a DictionaryAttr"
  | Some d =>
    let site := match get_dict "site" d with Some nested => verifySite (Some nested) | None => failure "field must be a DictionaryAttr" end in
    match get_string "kind" d with
    | None => failure "ExpansionFrame kind must be a StringAttr"
    | Some kind =>
      if decide (kind = "call") then
        let! d := exactFields value 3 in
        let! _ := site in
        match get_symbol "callee" d with Some _ => success tt | None => failure "call ExpansionFrame callee must be a FlatSymbolRefAttr" end
      else if decide (kind = "iteration") then
        let! d := exactFields value 4 in
        let! _ := site in
        let! _ := decodeU64 (dget "ordinal" d) in
        match get_dict "value" d with Some nested => verifyStaticValueStructure (Dictionary nested) | None => failure "field must be a DictionaryAttr" end
      else failure "ExpansionFrame kind must be 'call' or 'iteration'"
    end
  end.

Definition expansion_element (frame : Attr) : FailureOr unit :=
  match frame with
  | Dictionary record => verifyExpansionFrame (Some record)
  | _ => failure "Occurrence expansion must be an ExpansionFrame DictionaryAttr"
  end.

Definition verifyOccurrence (value : option DictionaryAttr) : G unit := fun memo =>
  if isVerifiedOccurrenceGrammar value memo then (success tt, memo)
  else
    let checked :=
      let! d := exactFields value 2 in
      let! _ := match get_dict "site" d with Some nested => verifySite (Some nested) | None => failure "field must be a DictionaryAttr" end in
      match get_array "expansion" d with
      | None => failure "Occurrence expansion must be an ArrayAttr"
      | Some expansion => let! _ := all_ok (expansion_element <$> expansion) in success d
      end in
    match checked with
    | inr d => (success tt, rememberOccurrence d memo)
    | inl e => (inl e, memo)
    end.

Definition occurrence_element (value : Attr) : G unit :=
  match value with Dictionary d => verifyOccurrence (Some d) | _ => gpure (failure "must be an Occurrence DictionaryAttr") end.

Definition verifyOccurrenceArray (values : option (list Attr)) : G unit :=
  match values with Some values => gall (occurrence_element <$> values) | None => gpure (failure "must be an ArrayAttr") end.

Definition verifyU64Array (values : option (list Attr)) : FailureOr unit :=
  match values with Some values => all_ok ((fun value => accept (decodeU64 (Some value))) <$> values) | None => failure "must be an ArrayAttr" end.

Definition static_element (value : Attr) : FailureOr unit :=
  match value with Dictionary d => verifyStaticValueStructure value | _ => failure "must be a StaticValue DictionaryAttr" end.

Definition verifyStaticValueArray (values : option (list Attr)) : FailureOr unit :=
  match values with Some values => all_ok (static_element <$> values) | None => failure "must be an ArrayAttr" end.

(** ** Owners *)

Fixpoint has_char (c : Ascii.ascii) (s : string) : bool :=
  match s with EmptyString => false | String d rest => Ascii.eqb c d || has_char c rest end.

Definition ends_with (suffix s : string) : bool :=
  (String.length suffix <=? String.length s)%nat &&
  bool_decide (substring (String.length s - String.length suffix) (String.length suffix) s = suffix).

(** [StringRef::split] with empty components kept. *)
Fixpoint split (c : Ascii.ascii) (s : string) : list string :=
  match s with
  | EmptyString => [""]
  | String d rest =>
    if Ascii.eqb c d then "" :: split c rest
    else match split c rest with [] => [String d ""] | first :: more => String d first :: more end
  end.

Definition slash : Ascii.ascii := Ascii.ascii_of_nat 47.
Definition backslash : Ascii.ascii := Ascii.ascii_of_nat 92.
Definition nul : Ascii.ascii := Ascii.zero.

Definition hasNul (value : string) : bool := has_char nul value.

Section Owners.
(** [llvm::sys::path::is_absolute] in the POSIX style, and [has_root_name] in
    the two Windows styles. *)
Variable is_absolute has_root_name_slash has_root_name_backslash : string -> bool.

Definition verifyRelativePythonPath (path : string) : FailureOr unit :=
  if bool_decide (path = "") || is_absolute path || has_root_name_slash path || has_root_name_backslash path || has_char backslash path || hasNul path ||
     negb (ends_with ".py" path)
  then failure "SourceOwner path must be a relative POSIX .py path"
  else if existsb (fun component => bool_decide (component ∈ ["";  "."; ".."])) (split slash path)
  then failure "SourceOwner path contains an invalid POSIX component"
  else success tt.

Definition verifySourceOwner (value : option DictionaryAttr) : FailureOr unit :=
  let! d := exactFields value 2 in
  match get_string "package" d, get_string "path" d with
  | None, _ => failure "SourceOwner package must be a StringAttr"
  | _, None => failure "SourceOwner path must be a StringAttr"
  | Some _, Some path => verifyRelativePythonPath path
  end.

Definition verifySourceGuardLocation (location sourceOwner : option DictionaryAttr) : G unit :=
  let@ _ := gpure (verifySourceOwner sourceOwner) in
  let@ _ := verifySourceSpan location in
  gpure (if decide ((location ≫= get_string "path") = (sourceOwner ≫= get_string "path")) then success tt
         else failure "guard SourceSpan path must match its declaring SourceOwner").

(** The role of a declaration; [None] is a null attribute. *)
Definition verifyDeclarationMetadata (owner origin : option DictionaryAttr) (role : option string) : G unit :=
  let@ _ := gpure (verifySourceOwner owner) in
  let@ _ := verifyOccurrence origin in
  gpure (if decide (role = Some "definition") then success tt else if decide (role = Some "import_snapshot") then success tt
         else failure "declaration_role must be 'definition' or 'import_snapshot'").
End Owners.

(** ** Derived identities *)

Definition verifySpecKey (value : option DictionaryAttr) : FailureOr unit :=
  let! d := exactFields value 2 in
  match get_symbol "definition" d with
  | None => failure "SpecKey definition must be a FlatSymbolRefAttr"
  | Some _ => verifyStaticValueArray (get_array "arguments" d)
  end.

Definition verifyValueID (value : option DictionaryAttr) : G unit :=
  let@ d := gpure (exactFields value 2) in
  let@ _ := verifyDictionaryField d "origin" verifyOccurrence in
  gpure (accept (decodeU32 (dget "slot" d))).

Definition verifyUseID (value : option DictionaryAttr) : G unit :=
  let@ d := gpure (exactFields value 3) in
  let@ _ := verifyDictionaryField d "origin" verifyOccurrence in
  let@ _ := gpure (if decide (get_string "role" d = Some "next") then success tt else if decide (get_string "role" d = Some "helper_return") then success tt
                   else failure "UseID role must be 'next' or 'helper_return'") in
  gpure (accept (decodeU32 (dget "slot" d))).

Definition verifyCheckID (value : option DictionaryAttr) : G unit :=
  let@ d := gpure (exactFields value 3) in
  let@ _ := verifyDictionaryField d "registration" verifyOccurrence in
  let@ _ := verifyDictionaryField d "check" verifyOccurrence in
  gpure (accept (decodeU64 (dget "obligation" d))).

Definition verifyOwnerRef (value : option DictionaryAttr) : G unit :=
  let@ d := gpure (exactFields value 1) in
  verifyOccurrenceArray (get_array "instance_path" d).

(** A nonnegative [i64]. *)
Definition observation_ordinal (value : option Attr) : bool :=
  match value with Some (IntegerAttribute (IntegerType Signless 64) _ bits) => bits <? 2 ^ 63 | _ => false end.

Definition invocation_frame (raw : Attr) : G unit :=
  let@ frame := gpure (exactFields (as_dictionary raw) 2) in
  let@ _ := verifyDictionaryField frame "call" verifyOccurrence in
  verifyDictionaryField frame "receiver" verifyOwnerRef.

(** The owner is the module itself or the receiver of the innermost call. *)
Definition observation_owner (invocation : list Attr) (owner : DictionaryAttr) : FailureOr unit :=
  match last invocation with
  | None =>
    match get_array "instance_path" owner with
    | Some [] => success tt
    | _ => failure "empty observation invocation requires self owner"
    end
  | Some frame =>
    if value_dec (as_dictionary frame ≫= get_dict "receiver") (Some owner) then success tt else failure "observation owner must equal final receiver"
  end.

Definition verifyObservationID (value : option DictionaryAttr) : G unit :=
  let@ d := gpure (exactFields value 5) in
  let@ _ := verifyDictionaryField d "registration" verifyOccurrence in
  let@ _ := verifyDictionaryField d "site" verifyOccurrence in
  let@ _ := verifyDictionaryField d "owner" verifyOwnerRef in
  let@ _ := gpure (if observation_ordinal (dget "ordinal" d) then success tt else failure "ObservationID ordinal must be a nonnegative signless i64") in
  match get_array "invocation" d with
  | None => gpure (failure "ObservationID invocation must be an ArrayAttr")
  | Some invocation =>
    let@ _ := gall (invocation_frame <$> invocation) in
    gpure (match get_dict "owner" d with Some owner => observation_owner invocation owner | None => failure "field must be a DictionaryAttr" end)
  end.

Definition verifyProofScope (value : option DictionaryAttr) : G unit :=
  let@ d := gpure (exactFields value 2) in
  let@ _ := verifyDictionaryField d "specialization" (fun key => gpure (verifySpecKey key)) in
  verifyDictionaryField d "registration" verifyOccurrence.

Definition verifyStateID (value : option DictionaryAttr) : G unit :=
  let@ d := gpure (exactFields value 3) in
  let@ _ := verifyDictionaryField d "owner" verifyOwnerRef in
  let@ _ := verifyDictionaryField d "declaration" verifyOccurrence in
  gpure (verifyU64Array (get_array "element" d)).

(** [None] where a null attribute is inspected. *)
Definition verifyFormalOrdinal (value : option Attr) : option (FailureOr unit) :=
  match value with
  | None => None
  | Some UnitAttribute => Some (success tt)
  | Some a => Some (accept (decodeU64 (Some a)))
  end.

Definition verifyStateRef (value : option DictionaryAttr) (memo : Memo) : option (FailureOr unit) * Memo :=
  let run (m : G unit) := let '(r, memo) := m memo in (Some r, memo) in
  match value with
  | None => (Some (failure "StateRef must be a DictionaryAttr"), memo)
  | Some d =>
    match get_string "kind" d with
    | None => (Some (failure "StateRef kind must be a StringAttr"), memo)
    | Some kind =>
      if decide (kind = "owned") then
        run (let@ d := gpure (exactFields value 3) in
             let@ _ := verifyDictionaryField d "declaration" verifyOccurrence in
             gpure (verifyU64Array (get_array "element" d)))
      else if decide (kind = "formal") then
        match exactFields value 3 with
        | inl e => (Some (inl e), memo)
        | inr d =>
          match get_string "parameter" d with
          | None => (Some (failure "formal StateRef parameter must be a StringAttr"), memo)
          | Some _ => (verifyFormalOrdinal (dget "ordinal" d), memo)
          end
        end
      else (Some (failure "StateRef kind must be 'owned' or 'formal'"), memo)
    end
  end.

(** ** The structural order *)

Section Order.
Context `{L : ApLib}.

Definition rank (value : Attr) : option Z :=
  match value with
  | UnitAttribute => Some 0
  | Boolean _ => Some 1
  | IntegerAttribute _ _ _ => Some 2
  | MathInt _ => Some 3
  | StringAttribute _ => Some 4
  | SymbolRef _ => Some 5
  | ArrayAttribute _ => Some 6
  | Dictionary _ => Some 7
  | _ => None
  end.

(** [StringRef::compare]. *)
Definition string_order (a b : string) : Z := match String.compare a b with Datatypes.Lt => -1 | Datatypes.Eq => 0 | Datatypes.Gt => 1 end.

Definition integer_order (w a w' b : Z) : Z := compareValues (aps (ap_of w a) true) (aps (ap_of w' b) true).

(** Elements in turn, and then the lengths; [None] passes through. *)
Definition lexical {A B} (compare : A -> B -> option Z) : list A -> list B -> option Z :=
  fix lexical l r :=
    match l, r with
    | [], [] => Some 0
    | [], _ :: _ => Some (-1)
    | _ :: _, [] => Some 1
    | a :: l, b :: r =>
      match compare a b with
      | Some part => if part =? 0 then lexical l r else Some part
      | None => None
      end
    end.

Definition field_order (compare : Attr -> Attr -> option Z) (l r : string * Attr) : option Z :=
  let key := string_order (fst l) (fst r) in
  if key =? 0 then compare (snd l) (snd r) else Some key.

(** [None] where an attribute has no rank. *)
Fixpoint compareClosedSourceStructure (left_ right_ : Attr) {struct left_} : option Z :=
  if Attr_dec left_ right_ then Some 0
  else
    match rank left_, rank right_ with
    | Some leftRank, Some rightRank =>
      if negb (leftRank =? rightRank) then Some (if leftRank <? rightRank then -1 else 1)
      else
        match left_, right_ with
        | Boolean l, Boolean r => Some (if Bool.eqb l r then 0 else if l then 1 else -1)
        | IntegerAttribute _ w l, IntegerAttribute _ w' r => Some (integer_order w l w' r)
        | MathInt l, MathInt r => Some (compareMath (mathValue l) (mathValue r))
        | StringAttribute l, StringAttribute r | SymbolRef l, SymbolRef r => Some (string_order l r)
        | ArrayAttribute l, ArrayAttribute r => lexical compareClosedSourceStructure l r
        | Dictionary l, Dictionary r => lexical (field_order compareClosedSourceStructure) l r
        | _, _ => Some 0
        end
    | _, _ => None
    end.
End Order.
