(* ===== verification/SourceOrder.v ===== *)
(** * The structural order is a total order

    [compareClosedSourceStructure] sorts identities, and its zero answers are
    taken for equality.  On closed attributes it is a total order of what they
    spell: types of integers do not count, everything else does. *)

From Stdlib Require Import ZArith Lia String.
From stdpp Require Import base list numbers strings.
From S2P Require Import Prelude ModelInput CompilerPrelude ApInt ValueSemantics StaticValues StaticValuesSpec PythonAst SourceIdentity.

Open Scope string_scope.
Open Scope list_scope.
Open Scope Z_scope.

(** ** Orders *)

(** A total order of the elements of [P]. *)
Record lawful {A} (P : A -> Prop) (cmp : A -> A -> comparison) : Prop := {
  lawful_eq x y : P x -> P y -> cmp x y = Datatypes.Eq <-> x = y;
  lawful_flip x y : P x -> P y -> cmp y x = CompOpp (cmp x y);
  lawful_trans x y z : P x -> P y -> P z -> cmp x y = Datatypes.Lt -> cmp y z = Datatypes.Lt -> cmp x z = Datatypes.Lt }.

(** Two comparisons in turn. *)
Definition both (c d : comparison) : comparison := match c with Datatypes.Eq => d | _ => c end.

Definition lex {A} (cmp : A -> A -> comparison) : list A -> list A -> comparison :=
  fix lex l r :=
    match l, r with
    | [], [] => Datatypes.Eq
    | [], _ :: _ => Datatypes.Lt
    | _ :: _, [] => Datatypes.Gt
    | a :: l, b :: r => both (cmp a b) (lex l r)
    end.

Lemma both_eq c d : both c d = Datatypes.Eq <-> c = Datatypes.Eq /\ d = Datatypes.Eq.
Proof. destruct c; cbn; intuition congruence. Qed.

Lemma both_lt c d : both c d = Datatypes.Lt <-> c = Datatypes.Lt \/ c = Datatypes.Eq /\ d = Datatypes.Lt.
Proof. destruct c; cbn; intuition congruence. Qed.

Lemma both_opp c d : both (CompOpp c) (CompOpp d) = CompOpp (both c d).
Proof. destruct c; reflexivity. Qed.

(** The step of a transitive comparison in turn. *)
Lemma both_trans {A} (P : A -> Prop) cmp x y z (c d e : comparison) : lawful P cmp -> P x -> P y -> P z ->
  (c = Datatypes.Lt -> d = Datatypes.Lt -> e = Datatypes.Lt) -> both (cmp x y) c = Datatypes.Lt -> both (cmp y z) d = Datatypes.Lt -> both (cmp x z) e = Datatypes.Lt.
Proof.
  intros HC Hx Hy Hz Hce. rewrite !both_lt, !(lawful_eq P cmp HC) by assumption. intros [H1|[-> H1]] [H2|[E H2]]; subst; auto. left. eapply (lawful_trans P cmp HC); [..|exact H1|exact H2]; assumption.
Qed.

Lemma lex_lawful {A} (P : A -> Prop) cmp : lawful P cmp -> lawful (Forall P) (lex cmp).
Proof.
  intros HC. split.
  - induction x as [|a l IH]; intros [|b r] Hl Hr; cbn [lex]; try (split; congruence). apply Forall_cons in Hl as [Ha Hl]. apply Forall_cons in Hr as [Hb Hr].
    rewrite both_eq, (lawful_eq P cmp HC) by assumption. rewrite IH by assumption. split; [intros [-> ->]; reflexivity|intros [= -> ->]; auto].
  - induction x as [|a l IH]; intros [|b r] Hl Hr; cbn [lex]; try reflexivity. apply Forall_cons in Hl as [Ha Hl]. apply Forall_cons in Hr as [Hb Hr].
    rewrite (lawful_flip P cmp HC a b) by assumption. rewrite IH by assumption. apply both_opp.
  - induction x as [|a l IH]; intros [|b r] [|c k] Hl Hr Hk; cbn [lex]; try congruence. apply Forall_cons in Hl as [Ha Hl]. apply Forall_cons in Hr as [Hb Hr]. apply Forall_cons in Hk as [Hc Hk].
    eapply both_trans; [exact HC|assumption..|]. apply IH; assumption.
Qed.

(** An order of pairs. *)
Lemma pair_lawful {A B} (P : A -> Prop) (Q : B -> Prop) cmp cmp' : lawful P cmp -> lawful Q cmp' ->
  lawful (fun p => P (fst p) /\ Q (snd p)) (fun p q => both (cmp (fst p) (fst q)) (cmp' (snd p) (snd q))).
Proof.
  intros HC HD. split.
  - intros [a b] [a' b'] [Ha Hb] [Ha' Hb']. cbn [fst snd] in *. rewrite both_eq, (lawful_eq P cmp HC), (lawful_eq Q cmp' HD) by assumption. split; [intros [-> ->]; reflexivity|intros [= -> ->]; auto].
  - intros [a b] [a' b'] [Ha Hb] [Ha' Hb']. cbn [fst snd] in *. rewrite (lawful_flip P cmp HC a a'), (lawful_flip Q cmp' HD b b') by assumption. apply both_opp.
  - intros [a b] [a' b'] [a'' b''] [Ha Hb] [Ha' Hb'] [Ha'' Hb'']. cbn [fst snd] in *. eapply both_trans; [exact HC|assumption..|]. apply (lawful_trans Q cmp' HD); assumption.
Qed.

(** An order by a key. *)
Lemma key_lawful {A K} (P : A -> Prop) (Q : K -> Prop) (key : A -> K) cmp : lawful Q cmp -> (forall x, P x -> Q (key x)) -> (forall x y, P x -> P y -> key x = key y -> x = y) ->
  lawful P (fun x y => cmp (key x) (key y)).
Proof.
  intros HC HP Hk. split.
  - intros x y Hx Hy. rewrite (lawful_eq Q cmp HC) by auto. split; [apply Hk; assumption|congruence].
  - intros x y Hx Hy. apply (lawful_flip Q cmp HC); auto.
  - intros x y z Hx Hy Hz. apply (lawful_trans Q cmp HC); auto.
Qed.

Lemma Z_lawful : lawful (fun _ => True) Z.compare.
Proof.
  split; [intros x y _ _; apply Z.compare_eq_iff|intros x y _ _; apply Z.compare_antisym|]. intros x y z _ _ _. rewrite !Z.compare_lt_iff. lia.
Qed.

Lemma ascii_lawful : lawful (fun _ => True) Ascii.compare.
Proof.
  split; [intros x y _ _; split; [apply Ascii.compare_eq_iff|intros ->; apply N.compare_refl]|intros x y _ _; apply Ascii.compare_antisym|]. intros x y z _ _ _. unfold Ascii.compare. rewrite !N.compare_lt_iff. lia.
Qed.

(** [String.compare] is the order of the characters in turn. *)
Lemma string_compare_lex a b : String.compare a b = lex Ascii.compare (list_ascii_of_string a) (list_ascii_of_string b).
Proof. revert b. induction a as [|x a IH]; intros [|y b]; cbn; try reflexivity. rewrite <- IH. destruct (Ascii.compare x y); reflexivity. Qed.

Lemma string_lawful : lawful (fun _ => True) String.compare.
Proof.
  pose proof (key_lawful (fun _ => True) (Forall (fun _ => True)) list_ascii_of_string _ (lex_lawful _ _ ascii_lawful)) as H. cbn beta in H.
  assert (H' : lawful (fun _ : string => True) (fun x y => lex Ascii.compare (list_ascii_of_string x) (list_ascii_of_string y))).
  { apply H; [intros; apply Forall_true; auto|]. intros x y _ _ E. rewrite <- (string_of_list_ascii_of_string x), <- (string_of_list_ascii_of_string y), E. reflexivity. }
  destruct H' as [H1 H2 H3]. split; intros; rewrite ?string_compare_lex in *; eauto.
Qed.

(** ** The order of closed attributes *)

(** What identities are made of; integers fit 64 bits. *)
Fixpoint closed (a : Attr) : Prop :=
  match a with
  | UnitAttribute | Boolean _ | StringAttribute _ | SymbolRef _ => True
  | IntegerAttribute _ w bits => 0 < w < 2 ^ 32 /\ is_u 64 bits /\ bits < 2 ^ w
  | MathInt s => exists z, s = spell z /\ Z.of_nat (length s) <= 2 ^ 30
  | ArrayAttribute l => fold_right (fun a P => closed a /\ P) True l
  | Dictionary fs => fold_right (fun f P => closed (snd f) /\ P) True fs
  | TypeAttribute _ | OtherAttribute _ => False
  end.

(** The attribute with one type for its integers. *)
Fixpoint forget (a : Attr) : Attr :=
  match a with
  | IntegerAttribute _ _ bits => IntegerAttribute (IntegerType Signless 64) 64 bits
  | ArrayAttribute l => ArrayAttribute (forget <$> l)
  | Dictionary fs => Dictionary ((fun f => (fst f, forget (snd f))) <$> fs)
  | a => a
  end.

Definition rank_of (a : Attr) : Z := default 8 (rank a).

(** The order without the test for equal attributes. *)
Fixpoint order (a b : Attr) {struct a} : comparison :=
  both (Z.compare (rank_of a) (rank_of b))
    match a, b with
    | Boolean l, Boolean r => Z.compare (Z.b2z l) (Z.b2z r)
    | IntegerAttribute _ _ l, IntegerAttribute _ _ r => Z.compare l r
    | MathInt l, MathInt r => Z.compare (Reference.read l) (Reference.read r)
    | StringAttribute l, StringAttribute r | SymbolRef l, SymbolRef r => String.compare l r
    | ArrayAttribute l, ArrayAttribute r => lex order l r
    | Dictionary l, Dictionary r => lex (fun f g => both (String.compare (fst f) (fst g)) (order (snd f) (snd g))) l r
    | _, _ => Datatypes.Eq
    end.

Definition sign (c : comparison) : Z := match c with Datatypes.Lt => -1 | Datatypes.Eq => 0 | Datatypes.Gt => 1 end.

(** An order of the images of a constructor. *)
Lemma image_lawful {A K} (P : A -> Prop) (Q : K -> Prop) (con : K -> A) cmp inner : lawful Q cmp -> (forall x, P x -> exists k, Q k /\ x = con k) ->
  (forall k k', Q k -> Q k' -> con k = con k' -> k = k') -> (forall k k', inner (con k) (con k') = cmp k k') -> lawful P inner.
Proof.
  intros HC Hx Hinj E. split.
  - intros x y Px Py. destruct (Hx x Px) as (k & Hk & ->), (Hx y Py) as (k' & Hk' & ->). rewrite E, (lawful_eq Q cmp HC) by assumption. split; [congruence|auto].
  - intros x y Px Py. destruct (Hx x Px) as (k & Hk & ->), (Hx y Py) as (k' & Hk' & ->). rewrite !E. apply (lawful_flip Q cmp HC); assumption.
  - intros x y z Px Py Pz. destruct (Hx x Px) as (k & Hk & ->), (Hx y Py) as (k' & Hk' & ->), (Hx z Pz) as (k'' & Hk'' & ->). rewrite !E. apply (lawful_trans Q cmp HC); assumption.
Qed.

(** An order within the ranks is an order. *)
Lemma ranked_lawful {A} (P : A -> Prop) (f : A -> Z) inner : (forall r, lawful (fun x => P x /\ f x = r) inner) -> lawful P (fun x y => both (Z.compare (f x) (f y)) (inner x y)).
Proof.
  intros HC. split.
  - intros x y Hx Hy. rewrite both_eq, Z.compare_eq_iff. split; [intros [E H]; apply (lawful_eq _ _ (HC (f x))) in H; auto|intros ->]. split; [reflexivity|]. apply (lawful_eq _ _ (HC (f y))); auto.
  - intros x y Hx Hy. rewrite (Z.compare_antisym (f x) (f y)). destruct (Z.compare_spec (f x) (f y)) as [E|E|E]; cbn; [|reflexivity..]. apply (lawful_flip _ _ (HC (f x))); auto.
  - intros x y z Hx Hy Hz. rewrite !both_lt, !Z.compare_lt_iff, !Z.compare_eq_iff. intros [H1|[E1 H1]] [H2|[E2 H2]]; [left; lia..|]. right. split; [lia|].
    apply (lawful_trans _ _ (HC (f x)) x y z); auto. split; [exact Hz|lia].
Qed.

Lemma trivial_lawful : lawful (fun _ => True) (fun _ _ : unit => Datatypes.Eq).
Proof. split; [intros [] []; tauto|reflexivity|discriminate]. Qed.

Definition order_payload (a b : Attr) : comparison :=
  match a, b with
  | Boolean l, Boolean r => Z.compare (Z.b2z l) (Z.b2z r)
  | IntegerAttribute _ _ l, IntegerAttribute _ _ r => Z.compare l r
  | MathInt l, MathInt r => Z.compare (Reference.read l) (Reference.read r)
  | StringAttribute l, StringAttribute r | SymbolRef l, SymbolRef r => String.compare l r
  | ArrayAttribute l, ArrayAttribute r => lex order l r
  | Dictionary l, Dictionary r => lex (fun f g => both (String.compare (fst f) (fst g)) (order (snd f) (snd g))) l r
  | _, _ => Datatypes.Eq
  end.

Lemma order_unfold a b : order a b = both (Z.compare (rank_of a) (rank_of b)) (order_payload a b).
Proof. destruct a; reflexivity. Qed.

Lemma closed_array l : closed (ArrayAttribute l) <-> Forall closed l.
Proof. cbn [closed]. induction l as [|a l IH]; cbn; [split; [constructor|auto]|]. rewrite Forall_cons, <- IH. reflexivity. Qed.

Lemma closed_dictionary fs : closed (Dictionary fs) <-> Forall (fun f => closed (snd f)) fs.
Proof. cbn [closed]. induction fs as [|a l IH]; cbn; [split; [constructor|auto]|]. rewrite Forall_cons, <- IH. reflexivity. Qed.

(** Attributes of bounded height with one type for their integers. *)
Definition normal (n : nat) (a : Attr) : Prop := closed a /\ forget a = a /\ (height a < n)%nat.

Lemma normal_array n l : normal (S n) (ArrayAttribute l) -> Forall (normal n) l.
Proof.
  intros (Hc & Hf & Hh). apply closed_array in Hc. injection Hf as Hf. apply Forall_forall. intros a Ha. rewrite Forall_forall in Hc. split; [exact (Hc a Ha)|]. split.
  - apply list_elem_of_lookup in Ha as [i Hi]. pose proof (list_lookup_fmap forget l i) as E. rewrite Hf, Hi in E. cbn in E. congruence.
  - cbn in Hh. assert (height a <= max_list (height <$> l))%nat by (apply max_list_elem_of_le, list_elem_of_fmap; eauto). lia.
Qed.

Lemma normal_dictionary n fs : normal (S n) (Dictionary fs) -> Forall (fun f => True /\ normal n (snd f)) fs.
Proof.
  intros (Hc & Hf & Hh). apply closed_dictionary in Hc. injection Hf as Hf. apply Forall_forall. intros a Ha. rewrite Forall_forall in Hc. split; [exact I|]. split; [exact (Hc a Ha)|]. split.
  - apply list_elem_of_lookup in Ha as [i Hi]. pose proof (list_lookup_fmap (fun f => (fst f, forget (snd f))) fs i) as E. rewrite Hf, Hi in E. cbn in E. destruct a. cbn in *. congruence.
  - cbn in Hh. assert (height (snd a) <= max_list ((fun f => height (snd f)) <$> fs))%nat by (apply max_list_elem_of_le, list_elem_of_fmap; eauto). lia.
Qed.

Lemma spelled_lawful : lawful (fun s => exists z, s = spell z) (fun l r => Z.compare (Reference.read l) (Reference.read r)).
Proof. apply (key_lawful _ (fun _ => True)); [apply Z_lawful|auto|]. intros x y [zx ->] [zy ->]. rewrite !Reference.read_spell. congruence. Qed.

Lemma bool_lawful : lawful (fun _ => True) (fun l r => Z.compare (Z.b2z l) (Z.b2z r)).
Proof. apply (key_lawful _ (fun _ => True)); [apply Z_lawful|auto|]. intros x y _ _. apply Z.b2z_inj. Qed.

(** The attributes of a rank are the images of its constructor. *)
Ltac images :=
  [> let a := fresh "a" in let Hc := fresh "Hc" in let Hf := fresh "Hf" in let Hh := fresh "Hh" in let Hr := fresh "Hr" in
     intros a [(Hc & Hf & Hh) Hr]; destruct a; try discriminate Hr; cbn [closed forget] in Hc, Hf; eauto
   | congruence
   | reflexivity ].

(** The payloads of one rank. *)
Lemma payload_lawful n r : lawful (normal n) order -> lawful (fun a => normal (S n) a /\ rank_of a = r) order_payload.
Proof.
  intros IH.
  destruct (Z.eq_dec r 0) as [->|N0]; [apply (image_lawful _ (fun _ => True) (fun _ : unit => UnitAttribute) _ _ trivial_lawful);
    [intros a [_ Hr]; exists tt; destruct a; try discriminate Hr; auto|intros [] []; auto|reflexivity]|].
  destruct (Z.eq_dec r 1) as [->|N1]; [apply (image_lawful _ (fun _ => True) Boolean _ _ bool_lawful); images|].
  destruct (Z.eq_dec r 2) as [->|N2]; [apply (image_lawful _ (fun _ => True) (IntegerAttribute (IntegerType Signless 64) 64) _ _ Z_lawful); images|].
  destruct (Z.eq_dec r 3) as [->|N3]; [apply (image_lawful _ _ MathInt _ _ spelled_lawful); images; destruct Hc as (z & -> & _); eauto|].
  destruct (Z.eq_dec r 4) as [->|N4]; [apply (image_lawful _ (fun _ => True) StringAttribute _ _ string_lawful); images|].
  destruct (Z.eq_dec r 5) as [->|N5]; [apply (image_lawful _ (fun _ => True) SymbolRef _ _ string_lawful); images|].
  destruct (Z.eq_dec r 6) as [->|N6]; [apply (image_lawful _ _ ArrayAttribute _ _ (lex_lawful _ _ IH));
    [intros a [Hn Ha]; destruct a; try discriminate Ha; apply normal_array in Hn; eauto|congruence|reflexivity]|].
  destruct (Z.eq_dec r 7) as [->|N7]; [apply (image_lawful _ _ Dictionary _ _ (lex_lawful _ _ (pair_lawful _ _ _ _ string_lawful IH)));
    [intros a [Hn Ha]; destruct a; try discriminate Ha; apply normal_dictionary in Hn; eauto|congruence|reflexivity]|].
  assert (Hno : forall a, normal (S n) a /\ rank_of a = r -> False) by (intros a [(Hc & _) Ha]; destruct a; unfold rank_of in Ha; cbn in Ha; first [congruence|contradiction]).
  split; [intros x y Hx; destruct (Hno x Hx)|intros x y Hx; destruct (Hno x Hx)|intros x y z Hx; destruct (Hno x Hx)].
Qed.

Lemma order_lawful n : lawful (normal n) order.
Proof.
  induction n as [|n IH]; [split; [intros x y (_ & _ & H)|intros x y (_ & _ & H)|intros x y z (_ & _ & H)]; lia|].
  destruct (ranked_lawful (normal (S n)) rank_of order_payload (fun r => payload_lawful n r IH)) as [H1 H2 H3].
  split; intros; rewrite ?order_unfold in *; eauto.
Qed.

(** ** The comparison of the code *)

Lemma forget_forget a : forget (forget a) = forget a.
Proof.
  induction a as [?|?|?|?|?|? ? ?|l IH|fs IH|?|] using Attr_induction; cbn [forget]; try reflexivity; f_equal; rewrite <- list_fmap_compose.
  - apply Forall_fmap_ext_1. exact IH.
  - apply Forall_fmap_ext_1. eapply Forall_impl; [exact IH|]. intros [k v] H. cbn in *. congruence.
Qed.

Lemma closed_forget a : closed a -> closed (forget a).
Proof.
  induction a as [?|?|?|?|?|? w b|l IH|fs IH|?|] using Attr_induction; cbn [forget]; try (intros H; exact H).
  - cbn [closed]. unfold is_u. lia.
  - rewrite !closed_array, Forall_fmap. rewrite Forall_forall in IH. rewrite !Forall_forall. intros H a Ha. exact (IH a Ha (H a Ha)).
  - rewrite !closed_dictionary, Forall_fmap. rewrite Forall_forall in IH. rewrite !Forall_forall. intros H a Ha. exact (IH a Ha (H a Ha)).
Qed.

Lemma normal_forget a n : closed a -> (height (forget a) < n)%nat -> normal n (forget a).
Proof. intros Hc Hh. split; [apply closed_forget, Hc|]. split; [apply forget_forget|exact Hh]. Qed.

Lemma order_refl a : closed a -> order (forget a) (forget a) = Datatypes.Eq.
Proof. intros Hc. apply (lawful_eq _ _ (order_lawful (S (height (forget a))))); try (apply normal_forget; [exact Hc|lia]). reflexivity. Qed.

Lemma rank_forget a : rank (forget a) = rank a.
Proof. destruct a; reflexivity. Qed.

Lemma closed_rank a : closed a -> rank a = Some (rank_of a).
Proof. unfold rank_of. destruct a; cbn; try reflexivity; contradiction. Qed.

Section Compare.
Context `{L : ApLib} {HL : ApLaws L}.

Lemma integer_order_sign w a w' b : 0 < w < 2 ^ 32 -> is_u 64 a -> a < 2 ^ w -> 0 < w' < 2 ^ 32 -> is_u 64 b -> b < 2 ^ w' -> integer_order w a w' b = sign (Z.compare a b).
Proof.
  intros Hw Ha Ha' Hw' Hb Hb'. unfold integer_order. rewrite compareValues_law. unfold aps_value. destruct (aps_parts (ap_of w a) true) as [-> ->], (aps_parts (ap_of w' b) true) as [-> ->].
  destruct (ap_of_law w a Hw Ha) as [_ ->], (ap_of_law w' b Hw' Hb) as [_ ->]. unfold is_u in *. rewrite !Z.mod_small by lia. reflexivity.
Qed.

Lemma compareMath_sign z z' : Z.of_nat (length (spell z)) <= 2 ^ 30 -> Z.of_nat (length (spell z')) <= 2 ^ 30 ->
  compareMath (mathValue (spell z)) (mathValue (spell z')) = sign (Z.compare (Reference.read (spell z)) (Reference.read (spell z'))).
Proof.
  intros H H'. unfold compareMath, mathValue. rewrite compareValues_law, !aps_of_string_law, !Reference.read_spell by assumption. reflexivity.
Qed.

Lemma sign_both c d : sign (both c d) = if sign c =? 0 then sign d else sign c.
Proof. destruct c; reflexivity. Qed.

(** The loops over elements and fields. *)
Lemma lexical_sign {A} (compare : A -> A -> option Z) (cmp : A -> A -> comparison) (f : A -> A) (P : A -> Prop) l : Forall P l ->
  Forall (fun a => forall b, P b -> compare a b = Some (sign (cmp (f a) (f b)))) l -> forall r, Forall P r -> lexical compare l r = Some (sign (lex cmp (f <$> l) (f <$> r))).
Proof.
  intros _. induction 1 as [|a l Ha _ IH]; intros [|b r] Hr; cbn [lexical lex fmap list_fmap]; try reflexivity. apply Forall_cons in Hr as [Hb Hr].
  rewrite (Ha b Hb), sign_both. destruct (_ =? 0); [exact (IH r Hr)|reflexivity].
Qed.

Lemma field_sign compare : forall f g, compare (snd f) (snd g) = Some (sign (order (forget (snd f)) (forget (snd g)))) ->
  field_order compare f g = Some (sign (both (String.compare (fst f) (fst g)) (order (forget (snd f)) (forget (snd g))))).
Proof. intros [k v] [k' v'] H. unfold field_order, string_order. cbn [fst snd] in *. rewrite sign_both, H. unfold sign. destruct (String.compare k k'); reflexivity. Qed.

Definition compare_payload (left_ right_ : Attr) : option Z :=
  match left_, right_ with
  | Boolean l, Boolean r => Some (if Bool.eqb l r then 0 else if l then 1 else -1)
  | IntegerAttribute _ w l, IntegerAttribute _ w' r => Some (integer_order w l w' r)
  | MathInt l, MathInt r => Some (compareMath (mathValue l) (mathValue r))
  | StringAttribute l, StringAttribute r | SymbolRef l, SymbolRef r => Some (string_order l r)
  | ArrayAttribute l, ArrayAttribute r => lexical compareClosedSourceStructure l r
  | Dictionary l, Dictionary r => lexical (field_order compareClosedSourceStructure) l r
  | _, _ => Some 0
  end.

Lemma compare_unfold a b : compareClosedSourceStructure a b = if Attr_dec a b then Some 0 else
  match rank a, rank b with
  | Some leftRank, Some rightRank => if negb (leftRank =? rightRank) then Some (if leftRank <? rightRank then -1 else 1) else compare_payload a b
  | _, _ => None
  end.
Proof. destruct a; reflexivity. Qed.

(** The payloads of one rank, once the parts are right. *)
Lemma payload_sign a b : closed a -> closed b -> rank a = rank b -> 
  (forall l, a = ArrayAttribute l -> Forall (fun x => forall y, closed y -> compareClosedSourceStructure x y = Some (sign (order (forget x) (forget y)))) l) ->
  (forall fs, a = Dictionary fs -> Forall (fun x => forall y, closed y -> compareClosedSourceStructure (snd x) y = Some (sign (order (forget (snd x)) (forget y)))) fs) ->
  compare_payload a b = Some (sign (order_payload (forget a) (forget b))).
Proof.
  intros Ha Hb Hr Harr Hdict. destruct a, b; try discriminate Hr; cbn [compare_payload forget order_payload]; try reflexivity.
  - match goal with |- Some (if Bool.eqb ?x ?y then _ else _) = _ => destruct x, y; reflexivity end.
  - cbn [closed] in Ha, Hb. destruct Ha as (z & -> & Hz), Hb as (z' & -> & Hz'). rewrite compareMath_sign by assumption. reflexivity.
  - cbn [closed] in Ha, Hb. rewrite integer_order_sign by tauto. reflexivity.
  - apply closed_array in Ha. apply closed_array in Hb. apply (lexical_sign _ order forget closed); [exact Ha|exact (Harr _ eq_refl)|exact Hb].
  - apply closed_dictionary in Ha. apply closed_dictionary in Hb. 
    apply (lexical_sign _ (fun f g => both (String.compare (fst f) (fst g)) (order (snd f) (snd g))) (fun f => (fst f, forget (snd f))) (fun f => closed (snd f))); [exact Ha| |exact Hb].
    eapply Forall_impl; [exact (Hdict _ eq_refl)|]. intros f H g Hg. apply field_sign, H, Hg.
Qed.

Lemma compare_sign a : forall b, closed a -> closed b -> compareClosedSourceStructure a b = Some (sign (order (forget a) (forget b))).
Proof.
  assert (Hstep : forall a b, closed a -> closed b -> (rank a = rank b -> compare_payload a b = Some (sign (order_payload (forget a) (forget b)))) ->
    compareClosedSourceStructure a b = Some (sign (order (forget a) (forget b)))).
  { intros x y Hx Hy Hp. rewrite compare_unfold. destruct (Attr_dec x y) as [->|]; [rewrite order_refl by exact Hy; reflexivity|].
    rewrite order_unfold. unfold rank_of at 1 2. rewrite !rank_forget. fold (rank_of x) (rank_of y). rewrite (closed_rank x Hx), (closed_rank y Hy) in *. cbn [default].
    destruct (Z.compare_spec (rank_of x) (rank_of y)) as [E|E|E].
    - rewrite E, Z.eqb_refl. cbn [negb both]. apply Hp. congruence.
    - rewrite (proj2 (Z.eqb_neq _ _)) by lia. rewrite (proj2 (Z.ltb_lt _ _)) by lia. reflexivity.
    - rewrite (proj2 (Z.eqb_neq _ _)) by lia. rewrite (proj2 (Z.ltb_ge _ _)) by lia. reflexivity. }
  induction a as [?|?|?|?|?|? ? ?|l IH|fs IH|?|] using Attr_induction; intros other Ha Hb; apply Hstep; try assumption; intros Hr; apply payload_sign; try assumption; try discriminate.
  - intros l' [= <-]. apply closed_array in Ha. rewrite Forall_forall in IH, Ha |- *. intros x Hx y Hy. exact (IH x Hx y (Ha x Hx) Hy).
  - intros l' [= <-]. apply closed_dictionary in Ha. rewrite Forall_forall in IH, Ha |- *. intros x Hx y Hy. exact (IH x Hx y (Ha x Hx) Hy).
Qed.
End Compare.

(** The integers of an attribute have one type. *)
Fixpoint uniform (t : MlirType) (w : Z) (a : Attr) : Prop :=
  match a with
  | IntegerAttribute t' w' _ => t' = t /\ w' = w
  | ArrayAttribute l => fold_right (fun a P => uniform t w a /\ P) True l
  | Dictionary fs => fold_right (fun f P => uniform t w (snd f) /\ P) True fs
  | _ => True
  end.

Lemma uniform_forget t w a : forall b, uniform t w a -> uniform t w b -> forget a = forget b -> a = b.
Proof.
  induction a as [?|?|?|?|?|? ? ?|l IH|fs IH|?|] using Attr_induction; intros [] Ha Hb E; cbn [forget] in E; try congruence; cbn [uniform] in Ha, Hb.
  - destruct Ha as [-> ->], Hb as [-> ->]. congruence.
  - injection E as E. f_equal. revert elements Hb E. induction IH as [|x l Hx _ IHl]; intros [|y r] Hb E; try discriminate; [reflexivity|].
    cbn in Ha, Hb, E. injection E as E1 E2. f_equal; [apply Hx; tauto|apply IHl; tauto].
  - injection E as E. f_equal. revert fields Hb E. induction IH as [|[k x] l Hx _ IHl]; intros [|[k' y] r] Hb E; try discriminate; [reflexivity|].
    cbn in Ha, Hb, E. injection E as Ek E1 E2. subst k'. f_equal; [f_equal; apply Hx; tauto|apply IHl; tauto].
Qed.

Section Total.
Context `{L : ApLib} {HL : ApLaws L}.

(** The structural order is total.  Any two closed
    attributes are compared; swapping them negates the answer; the answers
    compose; and zero is answered exactly for attributes that are equal up to
    the types of their integers, so exactly for equal ones where the integers
    have one type. *)
Lemma closed_structure_order a b c : closed a -> closed b -> closed c -> exists r s t,
  compareClosedSourceStructure a b = Some r /\ compareClosedSourceStructure b c = Some s /\ compareClosedSourceStructure a c = Some t /\
  compareClosedSourceStructure b a = Some (- r) /\ -1 <= r <= 1 /\
  (r = 0 <-> forget a = forget b) /\ (forall ty w, uniform ty w a -> uniform ty w b -> r = 0 <-> a = b) /\
  (r <= 0 -> s <= 0 -> t <= 0 /\ (t = 0 -> r = 0 /\ s = 0)).
Proof.
  intros Ha Hb Hc. exists (sign (order (forget a) (forget b))), (sign (order (forget b) (forget c))), (sign (order (forget a) (forget c))).
  set (n := S (height (forget a) + height (forget b) + height (forget c))%nat). pose proof (order_lawful n) as Hl.
  assert (Na : normal n (forget a)) by (apply normal_forget; [exact Ha|unfold n; lia]). assert (Nb : normal n (forget b)) by (apply normal_forget; [exact Hb|unfold n; lia]).
  assert (Nc : normal n (forget c)) by (apply normal_forget; [exact Hc|unfold n; lia]).
  assert (Hz : sign (order (forget a) (forget b)) = 0 <-> forget a = forget b) by (rewrite <- (lawful_eq _ _ Hl) by assumption; destruct (order (forget a) (forget b)); cbn; split; congruence).
  rewrite !compare_sign by assumption. repeat (split; [reflexivity|]). split; [rewrite (lawful_flip _ _ Hl (forget a) (forget b)) by assumption; destruct (order (forget a) (forget b)); reflexivity|].
  split; [destruct (order (forget a) (forget b)); cbn; lia|]. split; [exact Hz|].
  split; [intros ty w Ua Ub; rewrite Hz; split; [apply (uniform_forget ty w); assumption|intros ->; reflexivity]|].
  destruct (order (forget a) (forget b)) eqn:E1; [|..]; cbn [sign]; [|intros _|lia].
  - apply (lawful_eq _ _ Hl) in E1; [|assumption..]. rewrite E1. lia.
  - destruct (order (forget b) (forget c)) eqn:E2; cbn [sign]; [intros _|intros _|lia].
    + apply (lawful_eq _ _ Hl) in E2; [|assumption..]. rewrite <- E2, E1. cbn. lia.
    + rewrite (lawful_trans _ _ Hl _ _ _ Na Nb Nc E1 E2). cbn. lia.
Qed.
End Total.
