(* ===== verification/SourceIdentitySpec.v ===== *)
(** * Identities and their grammars

    A verifier accepts exactly the dictionaries of its grammar, whatever the
    memo holds; accepted identities are closed, so the structural order applies
    to them; and what the importer builds for the nodes of a capture is
    accepted and tells the nodes apart. *)

From Stdlib Require Import ZArith Lia String.
From Stdlib Require Sorting.Permutation.
From stdpp Require Import base list numbers strings.
From S2P Require Import Prelude ModelInput CompilerPrelude ApInt ValueSemantics StaticValues StaticValuesSpec PythonAst PythonAstSpec SourceIdentity SourceOrder.

Open Scope string_scope.
Open Scope list_scope.
Open Scope Z_scope.

(** ** Grammars *)

(** The attribute spells a number of 64 bits. *)
Definition spells (a : Attr) (z : Z) : Prop := exists signedness n w, a = IntegerAttribute (IntegerType signedness n) w z /\
  (signedness = UnsignedInt \/ 2 * z < 2 ^ w) /\ bit_length z <= 64.

Definition has_number (name : string) (d : DictionaryAttr) (z : Z) : Prop := exists a, dget name d = Some a /\ spells a z.

Definition span_grammar (d : DictionaryAttr) : Prop := length d = 5%nat /\ is_Some (get_string "path" d) /\ exists line column end_line end_column,
  has_number "line" d line /\ has_number "column" d column /\ has_number "end_line" d end_line /\ has_number "end_column" d end_column /\
  line <> 0 /\ column <> 0 /\ end_line <> 0 /\ end_column <> 0 /\ (line < end_line \/ line = end_line /\ column <= end_column).

Definition component_grammar (d : DictionaryAttr) : Prop := length d = 2%nat /\
  (get_string "kind" d = Some "field" /\ is_Some (get_string "name" d) \/ get_string "kind" d = Some "index" /\ exists z, has_number "value" d z).

(** An array of dictionaries of a grammar. *)
Definition array_of (grammar : DictionaryAttr -> Prop) (name : string) (d : DictionaryAttr) : Prop :=
  exists l, get_array name d = Some l /\ Forall (fun a => exists e, a = Dictionary e /\ grammar e) l.

Definition field_of (grammar : DictionaryAttr -> Prop) (name : string) (d : DictionaryAttr) : Prop := exists e, get_dict name d = Some e /\ grammar e.

Definition site_grammar (d : DictionaryAttr) : Prop := length d = 2%nat /\ is_Some (get_symbol "definition" d) /\ array_of component_grammar "ast_path" d.

Definition static_grammar (d : DictionaryAttr) : Prop := verifyStaticValueStructure (Dictionary d) = inr tt.

Definition frame_grammar (d : DictionaryAttr) : Prop :=
  get_string "kind" d = Some "call" /\ length d = 3%nat /\ field_of site_grammar "site" d /\ is_Some (get_symbol "callee" d) \/
  get_string "kind" d = Some "iteration" /\ length d = 4%nat /\ field_of site_grammar "site" d /\ (exists z, has_number "ordinal" d z) /\ field_of static_grammar "value" d.

Definition occurrence_grammar (d : DictionaryAttr) : Prop := length d = 2%nat /\ field_of site_grammar "site" d /\ array_of frame_grammar "expansion" d.

Definition slot_grammar (d : DictionaryAttr) : Prop := exists z, has_number "slot" d z /\ z < 2 ^ 32.

Definition value_id_grammar (d : DictionaryAttr) : Prop := length d = 2%nat /\ field_of occurrence_grammar "origin" d /\ slot_grammar d.

Definition use_id_grammar (d : DictionaryAttr) : Prop := length d = 3%nat /\ field_of occurrence_grammar "origin" d /\
  (get_string "role" d = Some "next" \/ get_string "role" d = Some "helper_return") /\ slot_grammar d.

Definition check_id_grammar (d : DictionaryAttr) : Prop :=
  length d = 3%nat /\ field_of occurrence_grammar "registration" d /\ field_of occurrence_grammar "check" d /\ exists z, has_number "obligation" d z.

Definition owner_ref_grammar (d : DictionaryAttr) : Prop := length d = 1%nat /\ array_of occurrence_grammar "instance_path" d.

Definition invocation_grammar (d : DictionaryAttr) : Prop := length d = 2%nat /\ field_of occurrence_grammar "call" d /\ field_of owner_ref_grammar "receiver" d.

Definition observation_id_grammar (d : DictionaryAttr) : Prop :=
  length d = 5%nat /\ field_of occurrence_grammar "registration" d /\ field_of occurrence_grammar "site" d /\ field_of owner_ref_grammar "owner" d /\
  (exists w bits, dget "ordinal" d = Some (IntegerAttribute (IntegerType Signless 64) w bits) /\ bits < 2 ^ 63) /\
  exists invocation owner, get_array "invocation" d = Some invocation /\ get_dict "owner" d = Some owner /\
    Forall (fun a => exists e, a = Dictionary e /\ invocation_grammar e) invocation /\
    match last invocation with
    | None => get_array "instance_path" owner = Some []
    | Some frame => exists e, frame = Dictionary e /\ get_dict "receiver" e = Some owner
    end.

Definition spec_key_grammar (d : DictionaryAttr) : Prop := length d = 2%nat /\ is_Some (get_symbol "definition" d) /\ array_of static_grammar "arguments" d.

Definition proof_scope_grammar (d : DictionaryAttr) : Prop := length d = 2%nat /\ field_of spec_key_grammar "specialization" d /\ field_of occurrence_grammar "registration" d.

Definition numbers_grammar (name : string) (d : DictionaryAttr) : Prop := exists l, get_array name d = Some l /\ Forall (fun a => exists z, spells a z) l.

Definition state_id_grammar (d : DictionaryAttr) : Prop :=
  length d = 3%nat /\ field_of owner_ref_grammar "owner" d /\ field_of occurrence_grammar "declaration" d /\ numbers_grammar "element" d.

Definition state_ref_grammar (d : DictionaryAttr) : Prop := length d = 3%nat /\
  (get_string "kind" d = Some "owned" /\ field_of occurrence_grammar "declaration" d /\ numbers_grammar "element" d \/
   get_string "kind" d = Some "formal" /\ is_Some (get_string "parameter" d) /\ (dget "ordinal" d = Some UnitAttribute \/ exists z, has_number "ordinal" d z)).

(** ** The verifiers *)

(** Every dictionary in the memo passed. *)
Definition memo_right (memo : Memo) : Prop := match memo with
  | Some m => Forall span_grammar (verifiedSourceSpanGrammars m) /\ Forall occurrence_grammar (verifiedOccurrenceGrammars m)
  | None => True
  end.

Definition decides (m : G unit) (P : Prop) : Prop := forall memo, memo_right memo -> (fst (m memo) = inr tt <-> P) /\ memo_right (snd (m memo)).

Lemma decides_iff m P Q : (P <-> Q) -> decides m P -> decides m Q.
Proof. intros H Hm memo Hr. destruct (Hm memo Hr) as [H1 H2]. split; [rewrite <- H; exact H1|exact H2]. Qed.

Lemma decides_pure r P : (r = inr tt <-> P) -> decides (gpure r) P.
Proof. intros H memo Hr. split; [exact H|exact Hr]. Qed.

Lemma decides_bind m k P Q : decides m P -> decides k Q -> decides (let@ _ := m in k) (P /\ Q).
Proof.
  intros Hm Hk memo Hr. destruct (Hm memo Hr) as [H1 H2]. unfold gbind. destruct (m memo) as [[e|[]] memo']; cbn [fst snd] in *.
  - split; [|exact H2]. split; [discriminate|]. intros [HP _]. apply H1 in HP. discriminate.
  - destruct (Hk memo' H2) as [H3 H4]. split; [|exact H4]. rewrite H3. split; [|tauto]. intros HQ. split; [apply H1; reflexivity|exact HQ].
Qed.

Lemma decides_exact d n k P : decides (k d) P -> decides (let@ d := gpure (exactFields (Some d) n) in k d) (length d = n /\ P).
Proof.
  intros Hk memo Hr. unfold gbind, gpure, exactFields. destruct (Nat.eqb_spec (length d) n) as [E|E]; cbn [success failure].
  - destruct (Hk memo Hr) as [H1 H2]. split; [|exact H2]. rewrite H1. tauto.
  - split; [|exact Hr]. split; [discriminate|tauto].
Qed.

Lemma decides_field d name verifier grammar : (forall e, decides (verifier (Some e)) (grammar e)) -> decides (verifyDictionaryField d name verifier) (field_of grammar name d).
Proof.
  intros Hv. unfold verifyDictionaryField, field_of. destruct (get_dict name d) as [e|].
  - eapply decides_iff; [|apply Hv]. split; [eauto|]. intros (e' & [= <-] & H). exact H.
  - apply decides_pure. split; [discriminate|intros (e & [=] & _)].
Qed.

Lemma decides_all {A} (f : A -> G unit) (P : A -> Prop) l : (forall a, decides (f a) (P a)) -> decides (gall (f <$> l)) (Forall P l).
Proof.
  intros Hf. induction l as [|a l IH]; cbn [gall fmap list_fmap].
  - apply decides_pure. split; [constructor|reflexivity].
  - eapply decides_iff; [|apply decides_bind; [apply Hf|exact IH]]. rewrite Forall_cons. reflexivity.
Qed.

Lemma decode_spells a z : decodeU64 (Some a) = inr z <-> spells a z.
Proof.
  unfold decodeU64, spells. destruct a as [| | | | |t w bits| | | |]; try (split; [discriminate|intros (? & ? & ? & [=] & _)]).
  destruct t as [signedness n| |]; try (split; [discriminate|intros (? & ? & ? & [=] & _)]).
  destruct (negb (bool_decide (signedness = UnsignedInt)) && (2 ^ w <=? 2 * bits)) eqn:E1; [split; [discriminate|]|].
  - apply andb_true_iff in E1 as [Eu El]. apply negb_true_iff, bool_decide_eq_false in Eu. apply Z.leb_le in El. intros (s' & n' & w' & [= -> -> -> ->] & [H|H] & _); [contradiction|lia].
  - destruct (Z.ltb_spec 64 (bit_length bits)); [split; [discriminate|intros (s' & n' & w' & [= -> -> -> ->] & _ & H'); lia]|]. split.
    + intros [= <-]. exists signedness, n, w. split; [reflexivity|]. split; [|assumption]. apply andb_false_iff in E1 as [E1|E1]; [left|right].
      * apply negb_false_iff, bool_decide_eq_true in E1. exact E1.
      * apply Z.leb_gt in E1. exact E1.
    + intros (s' & n' & w' & [= -> -> -> ->] & _). reflexivity.
Qed.

Lemma decode_number name d z : decodeU64 (dget name d) = inr z <-> has_number name d z.
Proof.
  unfold has_number. destruct (dget name d) as [a|]; [|split; [discriminate|intros (a & [=] & _)]]. rewrite decode_spells. split; [eauto|intros (a' & [= <-] & H); exact H].
Qed.

Lemma spells_unique a z z' : spells a z -> spells a z' -> z = z'.
Proof. intros (s & n & w & -> & _) (s' & n' & w' & [= <- <- <- <-] & _). reflexivity. Qed.

Lemma has_number_unique name d z z' : has_number name d z -> has_number name d z' -> z = z'.
Proof. intros (a & E & H) (a' & E' & H'). rewrite E in E'. injection E' as <-. eapply spells_unique; eassumption. Qed.

Lemma accept_iff {A} (r : FailureOr A) : accept r = inr tt <-> exists a, r = inr a.
Proof. unfold accept. destruct r as [e|a]; cbn; split; [discriminate|intros [a [=]]|eauto|reflexivity]. Qed.

Lemma accept_number name d : accept (decodeU64 (dget name d)) = inr tt <-> exists z, has_number name d z.
Proof. rewrite accept_iff. split; intros [z H]; exists z; apply decode_number, H. Qed.

Lemma all_ok_fmap {A} (f : A -> FailureOr unit) (P : A -> Prop) l : (forall a, f a = inr tt <-> P a) -> all_ok (f <$> l) = inr tt <-> Forall P l.
Proof. intros H. rewrite all_ok_inr, Forall_fmap. split; intros Hl; (eapply Forall_impl; [exact Hl|]); intros a Ha; apply H, Ha. Qed.

(** The checks of the arrays of dictionaries. *)
Lemma dictionary_element (check : Attr -> FailureOr unit) (verify : option DictionaryAttr -> FailureOr unit) grammar :
  (forall d, check (Dictionary d) = verify (Some d)) -> (forall a, as_dictionary a = None -> check a <> inr tt) -> (forall d, verify (Some d) = inr tt <-> grammar d) ->
  forall a, check a = inr tt <-> exists d, a = Dictionary d /\ grammar d.
Proof.
  intros Hd Hn Hg a. destruct a as [| | | | | | |d| |]; try (split; [intros H; exfalso; revert H; apply Hn; reflexivity|intros (d & [=] & _)]).
  rewrite Hd, Hg. split; [eauto|intros (d' & [= <-] & H); exact H].
Qed.

Lemma component_exact d : verifyPathComponent (Some d) = inr tt <-> component_grammar d.
Proof.
  unfold verifyPathComponent, component_grammar. destruct (Nat.eqb_spec (length d) 2) as [E|E]; [|split; [discriminate|tauto]]. cbn [negb].
  destruct (get_string "kind" d) as [k|]; [|split; [discriminate|intros [_ [[[=] _]|[[=] _]]]]]. destruct (decide (k = "field")) as [->|Nf].
  - destruct (get_string "name" d) as [name|]; split; try discriminate; eauto. intros [_ [[_ [? [=]]]|[[=] _]]].
  - destruct (decide (k = "index")) as [->|Ni].
    + unfold readU64. rewrite accept_number. split; [auto|intros [_ [[[=] _]|[_ H]]]; exact H].
    + split; [discriminate|]. intros [_ [[[= ->] _]|[[= ->] _]]]; contradiction.
Qed.

Lemma site_exact d : verifySite (Some d) = inr tt <-> site_grammar d.
Proof.
  unfold verifySite, site_grammar, array_of. destruct (Nat.eqb_spec (length d) 2) as [E|E]; [|split; [discriminate|tauto]]. cbn [negb].
  destruct (get_symbol "definition" d) as [s|]; [|split; [discriminate|intros (_ & [? [=]] & _)]].
  destruct (get_array "ast_path" d) as [path|]; [|split; [discriminate|intros (_ & _ & ? & [=] & _)]].
  rewrite (all_ok_fmap path_element (fun a => exists e, a = Dictionary e /\ component_grammar e)).
  - split; [intros H; split; [exact E|]; split; [eauto|]; eauto|]. intros (_ & _ & l & [= <-] & H). exact H.
  - apply (dictionary_element _ verifyPathComponent); [reflexivity|intros []; discriminate|apply component_exact].
Qed.

Lemma site_field_exact d : match get_dict "site" d with Some nested => verifySite (Some nested) | None => failure "field must be a DictionaryAttr" end = inr tt <-> field_of site_grammar "site" d.
Proof.
  unfold field_of. destruct (get_dict "site" d) as [e|]; [|split; [discriminate|intros (e & [=] & _)]]. rewrite site_exact. split; [eauto|intros (e' & [= <-] & H); exact H].
Qed.

Lemma fbind_unit (m : FailureOr unit) (r : FailureOr unit) : fbind m (fun _ => r) = inr tt <-> m = inr tt /\ r = inr tt.
Proof. destruct m as [e|[]]; cbn; split; [discriminate|intros [[=] _]|auto|intros [_ H]; exact H]. Qed.

Lemma exact_then (d : DictionaryAttr) n (k : DictionaryAttr -> FailureOr unit) : fbind (exactFields (Some d) n) k = inr tt <-> length d = n /\ k d = inr tt.
Proof. unfold exactFields. destruct (Nat.eqb_spec (length d) n); cbn; split; try discriminate; tauto. Qed.

Lemma present_symbol name d message : match get_symbol name d with Some _ => success tt | None => failure message end = inr tt <-> is_Some (get_symbol name d).
Proof. destruct (get_symbol name d); split; try discriminate; eauto. intros [? [=]]. Qed.

Lemma frame_exact d : verifyExpansionFrame (Some d) = inr tt <-> frame_grammar d.
Proof.
  unfold verifyExpansionFrame, frame_grammar. destruct (get_string "kind" d) as [k|] eqn:Ek; [|split; [discriminate|intros [[[=] _]|[[=] _]]]].
  destruct (decide (k = "call")) as [->|Nc]; [|destruct (decide (k = "iteration")) as [->|Ni]].
  - rewrite exact_then, fbind_unit, site_field_exact, present_symbol. split; [tauto|intros [H|[[=] _]]; tauto].
  - rewrite exact_then, fbind_unit, site_field_exact. split.
    + intros (Hl & Hs & H). apply fbind_inr in H as (z & Hz & H). right. split; [reflexivity|]. split; [exact Hl|]. split; [exact Hs|]. split; [exists z; apply decode_number, Hz|].
      unfold field_of. destruct (get_dict "value" d) as [e|]; [|discriminate]. eauto.
    + intros [[[=] _]|(_ & Hl & Hs & (z & Hz) & e & He & Hg)]. split; [exact Hl|]. split; [exact Hs|]. apply decode_number in Hz. rewrite Hz. cbn [fbind]. rewrite He. exact Hg.
  - split; [discriminate|]. intros [[[= ->] _]|[[= ->] _]]; contradiction.
Qed.

Lemma holds_elem l d : holds l d = true <-> d ∈ l.
Proof.
  unfold holds. rewrite existsb_exists. setoid_rewrite <- list_elem_of_In. split.
  - intros (x & Hx & H). destruct (dictionary_dec x d) as [->|]; [exact Hx|discriminate].
  - intros H. exists d. split; [exact H|]. destruct (dictionary_dec d d); congruence.
Qed.

Lemma Forall_insert_once (P : DictionaryAttr -> Prop) d l : P d -> Forall P l -> Forall P (insert_once d l).
Proof. intros Hd Hl. unfold insert_once. destruct (holds l d); [exact Hl|]. constructor; assumption. Qed.

(** A check behind the memo: what the memo holds passed before. *)
Lemma decides_memo (P : Prop) (grammars : GrammarMemo -> list DictionaryAttr) d (check : FailureOr unit) (remember : Memo -> Memo) :
  (forall memo, memo_right memo -> memo_contains grammars (Some d) memo = true -> P) -> (check = inr tt <-> P) ->
  (forall memo, memo_right memo -> P -> memo_right (remember memo)) ->
  decides (fun memo => if memo_contains grammars (Some d) memo then (success tt, memo) else match check with inr _ => (success tt, remember memo) | inl e => (inl e, memo) end) P.
Proof.
  intros Hc Hp Hr memo Hm. destruct (memo_contains grammars (Some d) memo) eqn:E; cbn [fst snd].
  - split; [|exact Hm]. split; [intros _; exact (Hc memo Hm E)|reflexivity].
  - destruct check as [e|[]]; cbn [fst snd].
    + split; [|exact Hm]. split; [discriminate|]. intros H. apply Hp in H. discriminate.
    + assert (H : P) by (apply Hp; reflexivity). split; [split; [intros _; exact H|reflexivity]|exact (Hr memo Hm H)].
Qed.

Definition span_check (d : DictionaryAttr) : FailureOr unit :=
  if negb (Nat.eqb (length d) 5) then failure "SourceSpan must contain exactly five fields"
  else if negb (bool_decide (is_Some (get_string "path" d))) then failure "SourceSpan field 'path' must be a StringAttr"
  else
    let! line := readU64 d "line" in
    let! column := readU64 d "column" in
    let! endLine := readU64 d "end_line" in
    let! endColumn := readU64 d "end_column" in
    if (line =? 0) || (column =? 0) || (endLine =? 0) || (endColumn =? 0) then failure "SourceSpan coordinates must be one-based"
    else if (endLine <? line) || ((endLine =? line) && (endColumn <? column)) then failure "SourceSpan must not end before it starts"
    else success tt.

Lemma span_check_exact d : span_check d = inr tt <-> span_grammar d.
Proof.
  unfold span_check, span_grammar, readU64. destruct (Nat.eqb_spec (length d) 5) as [E|E]; [|split; [discriminate|tauto]]. cbn [negb].
  case_bool_decide as Ep; [|split; [discriminate|tauto]]. cbn [negb]. split.
  - intros H. apply fbind_inr in H as (l & Hl & H). apply fbind_inr in H as (c & Hc & H). apply fbind_inr in H as (el & Hel & H). apply fbind_inr in H as (ec & Hec & H).
    apply decode_number in Hl, Hc, Hel, Hec. split; [exact E|]. split; [exact Ep|]. exists l, c, el, ec. repeat (split; [assumption|]).
    destruct (Z.eqb_spec l 0), (Z.eqb_spec c 0), (Z.eqb_spec el 0), (Z.eqb_spec ec 0); try discriminate H. cbn [orb] in H. repeat (split; [assumption|]).
    destruct (Z.ltb_spec el l); [discriminate|]. cbn [orb] in H. destruct (Z.eqb_spec el l) as [->|]; [|left; lia]. cbn [andb] in H. destruct (Z.ltb_spec ec c); [discriminate|]. right. lia.
  - intros (_ & _ & l & c & el & ec & Hl & Hc & Hel & Hec & Nl & Nc & Nel & Nec & Ho). apply decode_number in Hl, Hc, Hel, Hec. rewrite Hl, Hc, Hel, Hec. cbn [fbind].
    rewrite !(proj2 (Z.eqb_neq _ 0)) by assumption. cbn [orb]. destruct Ho as [Ho|[-> Ho]].
    + rewrite (proj2 (Z.ltb_ge _ _)) by lia. rewrite (proj2 (Z.eqb_neq el l)) by lia. reflexivity.
    + rewrite Z.ltb_irrefl, Z.eqb_refl. cbn [orb andb]. rewrite (proj2 (Z.ltb_ge _ _)) by lia. reflexivity.
Qed.

Lemma span_decides d : decides (verifySourceSpan (Some d)) (span_grammar d).
Proof.
  apply (decides_memo _ verifiedSourceSpanGrammars d (span_check d) (rememberVerifiedSourceSpanGrammar d)).
  - intros [m|] Hm H; [|discriminate]. apply holds_elem in H. destruct Hm as [Hm _]. rewrite Forall_forall in Hm. exact (Hm d H).
  - apply span_check_exact.
  - intros [m|] Hm H; [|exact I]. destruct Hm as [H1 H2]. split; [apply Forall_insert_once; assumption|exact H2].
Qed.

Definition occurrence_check (d : DictionaryAttr) : FailureOr unit :=
  let! d := exactFields (Some d) 2 in
  let! _ := match get_dict "site" d with Some nested => verifySite (Some nested) | None => failure "field must be a DictionaryAttr" end in
  match get_array "expansion" d with
  | None => failure "Occurrence expansion must be an ArrayAttr"
  | Some expansion => all_ok (expansion_element <$> expansion)
  end.

Lemma occurrence_check_exact d : occurrence_check d = inr tt <-> occurrence_grammar d.
Proof.
  unfold occurrence_check, occurrence_grammar, array_of. rewrite exact_then, fbind_unit, site_field_exact.
  destruct (get_array "expansion" d) as [l|]; [|split; [intros (_ & _ & [=])|intros (_ & _ & ? & [=] & _)]].
  rewrite (all_ok_fmap expansion_element (fun a => exists e, a = Dictionary e /\ frame_grammar e)).
  - split; [intros (H1 & H2 & H3); repeat (split; [assumption|]); eauto|]. intros (H1 & H2 & l' & [= <-] & H3). auto.
  - apply (dictionary_element _ verifyExpansionFrame); [reflexivity|intros []; discriminate|apply frame_exact].
Qed.

Lemma verifyOccurrence_check d memo : verifyOccurrence (Some d) memo =
  if memo_contains verifiedOccurrenceGrammars (Some d) memo then (success tt, memo) else match occurrence_check d with inr _ => (success tt, rememberOccurrence d memo) | inl e => (inl e, memo) end.
Proof.
  unfold verifyOccurrence, isVerifiedOccurrenceGrammar, occurrence_check, exactFields. destruct (memo_contains _ _ _); [reflexivity|].
  destruct (Nat.eqb (length d) 2); [|reflexivity]. cbn [fbind success]. destruct (match get_dict "site" d with Some _ => _ | None => _ end) as [e|[]]; [reflexivity|]. cbn [fbind].
  destruct (get_array "expansion" d) as [l|]; [|reflexivity]. destruct (all_ok _) as [e|[]]; reflexivity.
Qed.

Lemma occurrence_decides d : decides (verifyOccurrence (Some d)) (occurrence_grammar d).
Proof.
  intros memo Hm. rewrite verifyOccurrence_check. revert memo Hm. apply (decides_memo _ verifiedOccurrenceGrammars d (occurrence_check d) (rememberOccurrence d)).
  - intros [m|] Hm H; [|discriminate]. apply holds_elem in H. destruct Hm as [_ Hm]. rewrite Forall_forall in Hm. exact (Hm d H).
  - apply occurrence_check_exact.
  - intros [m|] Hm H; [|exact I]. destruct Hm as [H1 H2]. split; [exact H1|apply Forall_insert_once; assumption].
Qed.

(** ** The derived identities *)

Lemma occurrence_array_decides name d : decides (verifyOccurrenceArray (get_array name d)) (array_of occurrence_grammar name d).
Proof.
  unfold verifyOccurrenceArray, array_of. destruct (get_array name d) as [l|]; [|apply decides_pure; split; [discriminate|intros (l & [=] & _)]].
  eapply decides_iff; [|apply (decides_all occurrence_element (fun a => exists e, a = Dictionary e /\ occurrence_grammar e))].
  - split; [eauto|intros (l' & [= <-] & H); exact H].
  - intros a. destruct a as [| | | | | | |e| |]; try (apply decides_pure; split; [discriminate|intros (e & [=] & _)]).
    eapply decides_iff; [|apply occurrence_decides]. split; [eauto|intros (e' & [= <-] & H); exact H].
Qed.

Lemma numbers_exact name d : verifyU64Array (get_array name d) = inr tt <-> numbers_grammar name d.
Proof.
  unfold verifyU64Array, numbers_grammar. destruct (get_array name d) as [l|]; [|split; [discriminate|intros (l & [=] & _)]].
  rewrite (all_ok_fmap _ (fun a => exists z, spells a z)); [split; [eauto|intros (l' & [= <-] & H); exact H]|].
  intros a. rewrite accept_iff. split; intros [z H]; exists z; apply decode_spells, H.
Qed.

Lemma slot_exact d : accept (decodeU32 (dget "slot" d)) = inr tt <-> slot_grammar d.
Proof.
  rewrite accept_iff. unfold decodeU32, slot_grammar. split.
  - intros (z & H). apply fbind_inr in H as (z' & Hz & H). destruct (Z.ltb_spec (2 ^ 32 - 1) z'); [discriminate|]. exists z'. split; [apply decode_number, Hz|lia].
  - intros (z & Hz & Hl). apply decode_number in Hz. exists z. rewrite Hz. cbn [fbind]. rewrite (proj2 (Z.ltb_ge _ _)) by lia. reflexivity.
Qed.

Lemma owner_ref_decides d : decides (verifyOwnerRef (Some d)) (owner_ref_grammar d).
Proof. apply decides_exact, occurrence_array_decides. Qed.

Create HintDb grammars discriminated.
#[export] Hint Resolve decides_exact decides_bind decides_field occurrence_decides owner_ref_decides span_decides : grammars.

Lemma value_id_decides d : decides (verifyValueID (Some d)) (value_id_grammar d).
Proof. apply decides_exact, decides_bind; [auto with grammars|]. apply decides_pure, slot_exact. Qed.

Lemma role_exact d (a b : string) message : (if decide (get_string "role" d = Some a) then success tt else if decide (get_string "role" d = Some b) then success tt else failure message) = inr tt <->
  get_string "role" d = Some a \/ get_string "role" d = Some b.
Proof. destruct (decide _); [tauto|]. destruct (decide _); [tauto|]. split; [discriminate|tauto]. Qed.

Lemma use_id_decides d : decides (verifyUseID (Some d)) (use_id_grammar d).
Proof. apply decides_exact, decides_bind; [auto with grammars|]. apply decides_bind; apply decides_pure; [apply role_exact|apply slot_exact]. Qed.

Lemma check_id_decides d : decides (verifyCheckID (Some d)) (check_id_grammar d).
Proof. apply decides_exact, decides_bind; [auto with grammars|]. apply decides_bind; [auto with grammars|]. apply decides_pure, accept_number. Qed.

Lemma state_id_decides d : decides (verifyStateID (Some d)) (state_id_grammar d).
Proof. apply decides_exact, decides_bind; [auto with grammars|]. apply decides_bind; [auto with grammars|]. apply decides_pure, numbers_exact. Qed.

Lemma spec_key_exact d : verifySpecKey (Some d) = inr tt <-> spec_key_grammar d.
Proof.
  unfold verifySpecKey, spec_key_grammar, array_of. rewrite exact_then. destruct (get_symbol "definition" d) as [s|]; [|split; [intros [_ [=]]|intros (_ & [? [=]] & _)]].
  unfold verifyStaticValueArray. destruct (get_array "arguments" d) as [l|]; [|split; [intros [_ [=]]|intros (_ & _ & l & [=] & _)]].
  rewrite (all_ok_fmap static_element (fun a => exists e, a = Dictionary e /\ static_grammar e)).
  - split; [intros [H1 H2]; repeat (split; [eauto|]); eauto|]. intros (H1 & _ & l' & [= <-] & H2). auto.
  - apply (dictionary_element _ (fun d => match d with Some d => verifyStaticValueStructure (Dictionary d) | None => failure "" end)); [reflexivity|intros []; discriminate|reflexivity].
Qed.

Lemma proof_scope_decides d : decides (verifyProofScope (Some d)) (proof_scope_grammar d).
Proof. apply decides_exact, decides_bind; [|auto with grammars]. apply decides_field. intros e. apply decides_pure, spec_key_exact. Qed.

Lemma invocation_decides raw : decides (invocation_frame raw) (exists e, raw = Dictionary e /\ invocation_grammar e).
Proof.
  destruct raw as [| | | | | | |e| |]; try (apply (decides_pure (failure _)); split; [discriminate|intros (e & [=] & _)]).
  eapply decides_iff; [|apply (decides_exact e 2); apply decides_bind; auto with grammars]. split; [intros H; exists e; split; [reflexivity|exact H]|]. intros (e' & [= <-] & H). exact H.
Qed.

(** The owner of an observation. *)
Definition owner_grammar (invocation : list Attr) (owner : DictionaryAttr) : Prop :=
  match last invocation with
  | None => get_array "instance_path" owner = Some []
  | Some frame => exists e, frame = Dictionary e /\ get_dict "receiver" e = Some owner
  end.

Lemma owner_exact invocation owner : observation_owner invocation owner = inr tt <-> owner_grammar invocation owner.
Proof.
  unfold observation_owner, owner_grammar. destruct (last invocation) as [frame|].
  - destruct (value_dec _ _) as [E|E]; [split; [intros _|reflexivity]|split; [discriminate|]].
    + destruct frame as [| | | | | | |e| |]; try discriminate E. eauto.
    + intros (e & -> & H). contradiction.
  - destruct (get_array "instance_path" owner) as [[|]|]; split; first [discriminate|reflexivity].
Qed.

Lemma ordinal_exact d : (if observation_ordinal (dget "ordinal" d) then success tt else failure "ObservationID ordinal must be a nonnegative signless i64") = inr tt <->
  exists w bits, dget "ordinal" d = Some (IntegerAttribute (IntegerType Signless 64) w bits) /\ bits < 2 ^ 63.
Proof.
  unfold observation_ordinal. destruct (dget "ordinal" d) as [a|]; [|split; [discriminate|intros (w & b & [=] & _)]].
  destruct a as [| | | | |t w bits| | | |]; try (split; [discriminate|intros (? & ? & [=] & _)]).
  destruct t as [s n| |]; [|split; [discriminate|intros (? & ? & [=] & _)]..]. destruct s; [|split; [discriminate|intros (? & ? & [=] & _)]..].
  destruct (decide (n = 64)) as [->|N].
  - destruct (Z.ltb_spec bits (2 ^ 63)); split; try discriminate; [eauto|reflexivity|]. intros (? & ? & [= -> ->] & ?). lia.
  - split; [|intros (? & ? & [=] & _); contradiction]. destruct n as [|p|]; try discriminate. do 7 (destruct p as [p|p|]; try discriminate). contradiction.
Qed.

Lemma observation_id_decides d : decides (verifyObservationID (Some d)) (observation_id_grammar d).
Proof.
  apply decides_exact. do 3 (apply decides_bind; [solve [auto with grammars]|]). apply decides_bind; [apply decides_pure, ordinal_exact|].
  destruct (get_array "invocation" d) as [l|]; [|apply decides_pure; split; [discriminate|intros (l & o & [=] & _)]].
  eapply decides_iff; [|apply decides_bind; [apply (decides_all invocation_frame _ l invocation_decides)|apply decides_pure; reflexivity]].
  destruct (get_dict "owner" d) as [owner|]; [|split; [intros [_ [=]]|intros (l' & o & _ & [=] & _)]]. rewrite owner_exact. split.
  - intros [H1 H2]. exists l, owner. auto.
  - intros (l' & o & [= <-] & [= <-] & H1 & H2). auto.
Qed.

(** A formal reference whose third field is not its ordinal. *)
Definition lacks_ordinal (d : DictionaryAttr) : Prop :=
  length d = 3%nat /\ get_string "kind" d = Some "formal" /\ is_Some (get_string "parameter" d) /\ dget "ordinal" d = None.

Lemma formal_ordinal_exact d : (verifyFormalOrdinal (dget "ordinal" d) = Some (inr tt) <-> dget "ordinal" d = Some UnitAttribute \/ exists z, has_number "ordinal" d z) /\
  (verifyFormalOrdinal (dget "ordinal" d) = None <-> dget "ordinal" d = None).
Proof.
  pose proof (accept_number "ordinal" d) as Hn. destruct (dget "ordinal" d) as [a|] eqn:E.
  - destruct (Attr_dec a UnitAttribute) as [->|Na]; [split; [split; [left; reflexivity|reflexivity]|split; discriminate]|].
    assert (Ev : verifyFormalOrdinal (Some a) = Some (accept (decodeU64 (Some a)))) by (destruct a; try reflexivity; contradiction). rewrite Ev. split; [|split; discriminate].
    rewrite <- Hn. split; [intros [= H]; right; exact H|]. intros [[= ->]|H]; [contradiction|f_equal; exact H].
  - split; [|split; reflexivity]. split; [discriminate|]. intros [[=]|(z & a & Ea & _)]. congruence.
Qed.

Lemma state_ref_exact d memo : memo_right memo -> (fst (verifyStateRef (Some d) memo) = Some (inr tt) <-> state_ref_grammar d) /\
  memo_right (snd (verifyStateRef (Some d) memo)) /\ (fst (verifyStateRef (Some d) memo) = None <-> lacks_ordinal d).
Proof.
  intros Hm. unfold verifyStateRef, state_ref_grammar, lacks_ordinal. destruct (get_string "kind" d) as [k|] eqn:Ek.
  2: { cbn. split; [split; [discriminate|intros (_ & [[[=] _]|[[=] _]])]|]. split; [exact Hm|]. split; [discriminate|intros (_ & [=] & _)]. }
  destruct (decide (k = "owned")) as [->|No]; [|destruct (decide (k = "formal")) as [->|Nf]].
  - assert (Hd : decides (let@ d := gpure (exactFields (Some d) 3) in let@ _ := verifyDictionaryField d "declaration" verifyOccurrence in gpure (verifyU64Array (get_array "element" d)))
      (length d = 3%nat /\ field_of occurrence_grammar "declaration" d /\ numbers_grammar "element" d)).
    { apply (decides_exact d 3 (fun d => let@ _ := verifyDictionaryField d "declaration" verifyOccurrence in gpure (verifyU64Array (get_array "element" d)))).
      apply decides_bind; [auto with grammars|apply decides_pure, numbers_exact]. }
    destruct (Hd memo Hm) as [H1 H2]. destruct (gbind _ _ memo) as [r memo']. cbn [fst snd] in *. split; [|split; [exact H2|split; [discriminate|intros (_ & [=] & _)]]].
    split; [intros [= ->]; assert (H : inr tt = inr tt :> FailureOr unit) by reflexivity; apply H1 in H; tauto|]. intros [Hl [H|[[=] _]]]. f_equal. apply H1. tauto.
  - unfold exactFields. destruct (Nat.eqb_spec (length d) 3) as [E|E]; cbn [success failure].
    + destruct (get_string "parameter" d) as [p|]; cbn [fst snd].
      * destruct (formal_ordinal_exact d) as [H1 H2]. rewrite H1, H2. split; [split; [intros H; split; [exact E|right; eauto]|intros [_ [[[=] _]|(_ & _ & H)]]; exact H]|].
        split; [exact Hm|]. split; [intros H; eauto|tauto].
      * split; [split; [discriminate|intros (_ & [[[=] _]|(_ & [? [=]] & _)])]|]. split; [exact Hm|]. split; [discriminate|intros (_ & _ & [? [=]] & _)].
    + cbn [fst snd]. split; [split; [discriminate|tauto]|]. split; [exact Hm|]. split; [discriminate|tauto].
  - cbn [fst snd]. split; [split; [discriminate|intros (_ & [[[= ->] _]|[[= ->] _]]); contradiction]|]. split; [exact Hm|]. split; [discriminate|intros (_ & [= ->] & _); contradiction].
Qed.

(** ** The verifiers as one *)

Inductive IdentityKind := SpanIdentity | OccurrenceIdentity | ValueIdentity | UseIdentity | CheckIdentity | ObservationIdentity | OwnerRefIdentity | StateIdentity | StateRefIdentity | ProofScopeIdentity.
#[export] Instance IdentityKind_eq_dec : EqDecision IdentityKind.
Proof. solve_decision. Defined.

(** The verifier of a kind; [None] where it does not return. *)
Definition verify_identity (k : IdentityKind) (d : DictionaryAttr) (memo : Memo) : option (FailureOr unit) * Memo :=
  let run (m : option DictionaryAttr -> G unit) := let '(r, memo) := m (Some d) memo in (Some r, memo) in
  match k with
  | SpanIdentity => run verifySourceSpan
  | OccurrenceIdentity => run verifyOccurrence
  | ValueIdentity => run verifyValueID
  | UseIdentity => run verifyUseID
  | CheckIdentity => run verifyCheckID
  | ObservationIdentity => run verifyObservationID
  | OwnerRefIdentity => run verifyOwnerRef
  | StateIdentity => run verifyStateID
  | StateRefIdentity => verifyStateRef (Some d) memo
  | ProofScopeIdentity => run verifyProofScope
  end.

Definition identity_grammar (k : IdentityKind) : DictionaryAttr -> Prop :=
  match k with
  | SpanIdentity => span_grammar
  | OccurrenceIdentity => occurrence_grammar
  | ValueIdentity => value_id_grammar
  | UseIdentity => use_id_grammar
  | CheckIdentity => check_id_grammar
  | ObservationIdentity => observation_id_grammar
  | OwnerRefIdentity => owner_ref_grammar
  | StateIdentity => state_id_grammar
  | StateRefIdentity => state_ref_grammar
  | ProofScopeIdentity => proof_scope_grammar
  end.

Lemma run_decides (m : option DictionaryAttr -> G unit) (P : DictionaryAttr -> Prop) d memo (r := let '(r, memo) := m (Some d) memo in (Some r, memo)) :
  decides (m (Some d)) (P d) -> memo_right memo -> (fst r = Some (inr tt) <-> P d) /\ memo_right (snd r) /\ fst r <> None.
Proof.
  intros Hd Hm. destruct (Hd memo Hm) as [H1 H2]. subst r. destruct (m (Some d) memo) as [r memo']. cbn [fst snd] in *. split; [|split; [exact H2|discriminate]].
  rewrite <- H1. split; [intros [= H]; exact H|intros ->; reflexivity].
Qed.

Lemma verifier_exact k d memo : memo_right memo ->
  (fst (verify_identity k d memo) = Some (inr tt) <-> identity_grammar k d) /\ memo_right (snd (verify_identity k d memo)) /\
  (fst (verify_identity k d memo) = None <-> k = StateRefIdentity /\ lacks_ordinal d).
Proof.
  intros Hm. destruct (decide (k = StateRefIdentity)) as [->|Hk].
  - destruct (state_ref_exact d memo Hm) as (H1 & H2 & H3). split; [exact H1|]. split; [exact H2|]. cbn [verify_identity]. rewrite H3. tauto.
  - assert (Hr : (fst (verify_identity k d memo) = Some (inr tt) <-> identity_grammar k d) /\ memo_right (snd (verify_identity k d memo)) /\ fst (verify_identity k d memo) <> None).
    { destruct k; cbn [verify_identity identity_grammar]; try contradiction; (eapply run_decides; [|exact Hm]); auto with grammars.
      all: first [apply value_id_decides|apply use_id_decides|apply check_id_decides|apply observation_id_decides|apply state_id_decides|apply proof_scope_decides]. }
    destruct Hr as (H1 & H2 & H3). repeat (split; [assumption|]). tauto.
Qed.

(** C21: the verifiers of identities are exact and their memo is invisible.
    Whatever verified spans and occurrences the context remembers, the
    verifier of a kind accepts exactly the dictionaries of its grammar, and it
    remembers only such.  Only the verifier of state references may fail to
    return: it inspects the missing ordinal of a formal reference. *)
Theorem identity_verifiers_exact k d memo : memo_right memo ->
  (fst (verify_identity k d memo) = Some (inr tt) <-> identity_grammar k d) /\ memo_right (snd (verify_identity k d memo)) /\
  (fst (verify_identity k d memo) = None <-> k = StateRefIdentity /\ lacks_ordinal d).
Proof. apply verifier_exact. Qed.

(** ** What the importer builds *)

Lemma coordinate_attribute n d span name v : node_value n = Some d -> get_dict "span" d = Some span -> decodeU64 (dget name span) = inr v ->
  exists a, coordinate n name = Some a /\ spells a v.
Proof.
  intros Ev Es H. destruct (decode_coordinate _ _ _ _ _ Ev Es H) as (t & w & C). exists (IntegerAttribute t w v). split; [exact C|].
  apply decode_number in H as (a & Ea & Hs). unfold coordinate in C. rewrite Ev in C. cbn [mbind option_bind] in C. rewrite Es in C. cbn [mbind option_bind] in C. rewrite Ea in C.
  destruct a; try discriminate C. injection C as -> -> ->. exact Hs.
Qed.

Lemma source_span_grammar path n d : node_value n = Some d -> verifyCapturedSpan (get_dict "span" d) = inr tt ->
  exists span, sourceSpan path n = Some (Dictionary span) /\ span_grammar span.
Proof.
  intros Ev H. apply verified_coordinates in H as (span & l & c & el & ec & Es & Hl & Hc & Hel & Hec & (Nl & Nc & Nel & Nec) & Ho).
  destruct (coordinate_attribute _ _ _ _ _ Ev Es Hl) as (a1 & C1 & S1). destruct (coordinate_attribute _ _ _ _ _ Ev Es Hc) as (a2 & C2 & S2).
  destruct (coordinate_attribute _ _ _ _ _ Ev Es Hel) as (a3 & C3 & S3). destruct (coordinate_attribute _ _ _ _ _ Ev Es Hec) as (a4 & C4 & S4).
  eexists. unfold sourceSpan. rewrite C1, C2, C3, C4. split; [reflexivity|]. split; [reflexivity|]. split; [eexists; reflexivity|].
  exists l, c, el, ec. unfold has_number. repeat (split; [first [assumption|eexists; split; [reflexivity|eassumption]]|]). exact Ho.
Qed.

(** Indices below [2^63], the positions of arrays in memory. *)
Definition small_steps (path : list AstStep) : Prop := Forall (fun s => match step_index s with Some i => i < 2 ^ 63 | None => True end) path.

(** The steps of reached nodes: an index has no field. *)
Definition plain_steps (path : list AstStep) : Prop := Forall (fun s => match step_index s with Some i => 0 <= i /\ step_field s = "" | None => True end) path.

Lemma reaches_plain root n : plain_steps (node_path root) -> reaches root n -> plain_steps (node_path n).
Proof.
  intros Hr. unfold plain_steps. induction 1 as [|n name _ IH|n name i _ IH]; [exact Hr| |].
  - cbn [child node_path]. apply Forall_app. split; [exact IH|]. repeat constructor.
  - unfold item. destruct (_ ≫= _) as [a|]; [|constructor]. cbn [node_path]. apply Forall_app. split; [exact IH|]. repeat constructor. lia.
Qed.

Lemma component_of_step s : match step_index s with Some i => 0 <= i < 2 ^ 63 | None => True end -> exists d, step_component s = Dictionary d /\ component_grammar d.
Proof.
  intros H. unfold step_component. destruct (step_index s) as [i|]; eexists; (split; [reflexivity|]); (split; [reflexivity|]).
  - right. split; [reflexivity|]. exists i. eexists. split; [reflexivity|]. exists Signless, 64, 64. unfold i64_attr. rewrite Z.mod_small by lia. split; [reflexivity|]. split; [right; lia|].
    unfold bit_length. destruct (Z.eqb_spec i 0); [lia|]. enough (Z.log2 i < 63) by lia. apply Z.log2_lt_pow2; lia.
  - left. split; [reflexivity|]. eexists. reflexivity.
Qed.

Lemma step_component_inj s s' : (match step_index s with Some i => 0 <= i < 2 ^ 63 /\ step_field s = "" | None => True end) ->
  (match step_index s' with Some i => 0 <= i < 2 ^ 63 /\ step_field s' = "" | None => True end) -> step_component s = step_component s' -> s = s'.
Proof.
  destruct s as [f [i|]], s' as [f' [i'|]]; cbn; try discriminate.
  - intros [Hi ->] [Hi' ->] [= E]. rewrite !Z.mod_small in E by lia. congruence.
  - intros _ _ [= ->]. reflexivity.
Qed.

Lemma steps_bounds path : small_steps path -> plain_steps path -> Forall (fun s => match step_index s with Some i => 0 <= i < 2 ^ 63 /\ step_field s = "" | None => True end) path.
Proof.
  unfold small_steps, plain_steps. rewrite !Forall_forall. intros Hs Hp s Hin. specialize (Hs s Hin). specialize (Hp s Hin). revert Hs Hp.
  destruct (step_index s); [|auto]. intuition lia.
Qed.

Lemma occurrence_accepted definition n expansion : Forall frame_grammar expansion -> small_steps (node_path n) -> plain_steps (node_path n) ->
  exists d, occurrence definition n expansion = Dictionary d /\ occurrence_grammar d.
Proof.
  intros He Hs Hp. eexists. split; [reflexivity|]. split; [reflexivity|]. split.
  - eexists. split; [reflexivity|]. split; [reflexivity|]. split; [eexists; reflexivity|]. eexists. split; [reflexivity|]. apply Forall_fmap.
    eapply Forall_impl; [exact (steps_bounds _ Hs Hp)|]. intros s H. apply component_of_step. cbn beta in H. revert H. destruct (step_index s); [intros [H _]; exact H|auto].
  - eexists. split; [reflexivity|]. apply Forall_fmap. eapply Forall_impl; [exact He|]. intros d H. cbn. eauto.
Qed.

Lemma fmap_inj_on {A B} (f : A -> B) (P : A -> Prop) l r : (forall x y, P x -> P y -> f x = f y -> x = y) -> Forall P l -> Forall P r -> f <$> l = f <$> r -> l = r.
Proof.
  intros Hf Hl. revert r. induction Hl as [|x l Hx _ IH]; intros [|y r] Hr E; try discriminate; [reflexivity|]. cbn in E. injection E as E1 E2. apply Forall_cons in Hr as [Hy Hr].
  f_equal; [exact (Hf x y Hx Hy E1)|exact (IH r Hr E2)].
Qed.

Lemma occurrence_inj definition n expansion definition' m expansion' : small_steps (node_path n) -> plain_steps (node_path n) -> small_steps (node_path m) -> plain_steps (node_path m) ->
  occurrence definition n expansion = occurrence definition' m expansion' -> definition = definition' /\ node_path n = node_path m /\ expansion = expansion'.
Proof.
  intros Sn Pn Sm Pm [= Ee Ep Ed]. split; [exact Ed|]. split.
  - eapply (fmap_inj_on step_component); [|exact (steps_bounds _ Sn Pn)|exact (steps_bounds _ Sm Pm)|exact Ep]. intros x y Hx Hy. exact (step_component_inj x y Hx Hy).
  - apply (fmap_inj_on Dictionary (fun _ => True)); [congruence|apply Forall_true; auto|apply Forall_true; auto|exact Ee].
Qed.

(** C22: the importer names what it reads faithfully.  For every node with a
    kind of an accepted capture the source span that it builds is accepted,
    and so is the occurrence, for any definition and any accepted frames of
    expansion; and another occurrence of a node of the capture is the same
    only for the same node, definition and frames.  (Indices are below 2^63.) *)
Theorem importer_identities_faithful empty attributes source n memo :
  readSingleCapture empty attributes = inr source -> reaches (source_module source) n -> kind n <> "" -> memo_right memo -> small_steps (node_path n) ->
  (exists span, sourceSpan (source_path source) n = Some (Dictionary span) /\ fst (verifySourceSpan (Some span) memo) = inr tt) /\
  forall definition expansion, Forall frame_grammar expansion ->
    exists d, occurrence definition n expansion = Dictionary d /\ fst (verifyOccurrence (Some d) memo) = inr tt /\
    forall m definition' expansion', reaches (source_module source) m -> present m = true -> small_steps (node_path m) ->
      occurrence definition' m expansion' = Dictionary d -> m = n /\ definition' = definition /\ expansion' = expansion.
Proof.
  intros Hsrc Hn Hk Hm Hs. destruct (captured_node _ _ _ _ Hsrc Hn Hk) as (dn & Ev & Hv). pose proof Hv as Hh. apply verified_header in Hh as (_ & _ & _ & _ & _ & Hspan & _).
  assert (Hroot : plain_steps (node_path (source_module source))) by (rewrite (captured_path _ _ _ Hsrc); constructor).
  assert (Hp : plain_steps (node_path n)) by (eapply reaches_plain; eassumption). split.
  - destruct (source_span_grammar (source_path source) _ _ Ev Hspan) as (span & E & Hg). exists span. split; [exact E|]. apply (proj1 (span_decides span memo Hm)), Hg.
  - intros definition expansion He. destruct (occurrence_accepted definition n expansion He Hs Hp) as (d & E & Hg). exists d. split; [exact E|].
    split; [apply (proj1 (occurrence_decides d memo Hm)), Hg|]. intros m definition' expansion' Hrm Pm Sm Em. rewrite <- E in Em.
    apply occurrence_inj in Em as (-> & Epath & ->); try assumption; [|exact (reaches_plain _ _ Hroot Hrm)]. split; [|auto].
    eapply reaches_unique; try eassumption. unfold present. rewrite Ev. reflexivity.
Qed.

(** ** Accepted identities are closed *)

(** What MLIR guarantees of its attributes: integers fit their width,
    mathematical integers are spelled canonically. *)
Fixpoint attr_ok (a : Attr) : Prop :=
  match a with
  | IntegerAttribute _ w bits => 0 < w < 2 ^ 32 /\ 0 <= bits < 2 ^ w
  | MathInt s => exists z, s = spell z /\ Z.of_nat (length s) <= 2 ^ 30
  | ArrayAttribute l => fold_right (fun a P => attr_ok a /\ P) True l
  | Dictionary fs => fold_right (fun f P => attr_ok (snd f) /\ P) True fs
  | _ => True
  end.

Lemma ok_array l : attr_ok (ArrayAttribute l) <-> Forall attr_ok l.
Proof. cbn [attr_ok]. induction l as [|a l IH]; cbn; [split; [constructor|auto]|]. rewrite Forall_cons, <- IH. reflexivity. Qed.

Lemma ok_dictionary fs : attr_ok (Dictionary fs) <-> Forall (fun f => attr_ok (snd f)) fs.
Proof. cbn [attr_ok]. induction fs as [|a l IH]; cbn; [split; [constructor|auto]|]. rewrite Forall_cons, <- IH. reflexivity. Qed.

Lemma ok_get name d a : attr_ok (Dictionary d) -> dget name d = Some a -> attr_ok a.
Proof. rewrite ok_dictionary. intros H E. exact (dget_Forall attr_ok name d a H E). Qed.

(** A dictionary with as many fields as found names has no others. *)
Lemma exact_names (P : Attr -> Prop) names d : NoDup names -> length d = length names -> Forall (fun name => exists a, dget name d = Some a /\ P a) names -> Forall (fun f => P (snd f)) d.
Proof.
  intros Hn Hl Hf. assert (Hin : forall name, name ∈ names -> name ∈ d.*1).
  { intros name H. rewrite Forall_forall in Hf. destruct (Hf name H) as (a & Ea & _). apply dget_elem in Ea. apply list_elem_of_fmap. exists (name, a). auto. }
  assert (Hp : names ≡ₚ d.*1).
  { apply Permutation.NoDup_Permutation_bis; [apply NoDup_ListNoDup, Hn|rewrite length_fmap; lia|]. intros x Hx. apply list_elem_of_In, Hin, list_elem_of_In, Hx. }
  assert (Hd : NoDup (d.*1)) by (rewrite <- Hp; exact Hn). apply Forall_forall. intros [k a] Hk. cbn [snd].
  assert (Hkn : k ∈ names) by (rewrite Hp; apply list_elem_of_fmap; exists (k, a); auto). rewrite Forall_forall in Hf. destruct (Hf k Hkn) as (a' & Ea & HP).
  enough (a' = a) by congruence. clear -Ea Hk Hd. unfold dget in Ea. induction d as [|[k' v] d IH]; [apply elem_of_nil in Hk; contradiction|].
  cbn [dget_with] in Ea. cbn in Hd. apply NoDup_cons in Hd as [Hnot Hd]. apply elem_of_cons in Hk as [[= <- <-]|Hk].
  - destruct (decide (k = k)); congruence.
  - destruct (decide (k' = k)) as [->|]; [exfalso; apply Hnot, list_elem_of_fmap; exists (k, a); auto|]. exact (IH Hd Hk Ea).
Qed.

Lemma closed_record names d : NoDup names -> length d = length names -> Forall (fun name => exists a, dget name d = Some a /\ closed a) names -> closed (Dictionary d).
Proof. intros Hn Hl Hf. apply closed_dictionary. eapply exact_names; eassumption. Qed.

(** ** Fields that are closed *)

Definition closes (grammar : DictionaryAttr -> Prop) : Prop := forall d, grammar d -> attr_ok (Dictionary d) -> closed (Dictionary d).
Definition closed_at (d : DictionaryAttr) (name : string) : Prop := exists a, dget name d = Some a /\ closed a.

Lemma closed_string name d : is_Some (get_string name d) -> closed_at d name.
Proof. unfold get_string, closed_at. intros [s H]. destruct (dget name d) as [[]|]; try discriminate. eexists. split; [reflexivity|exact I]. Qed.

Lemma closed_symbol name d : is_Some (get_symbol name d) -> closed_at d name.
Proof. unfold get_symbol, closed_at. intros [s H]. destruct (dget name d) as [[]|]; try discriminate. eexists. split; [reflexivity|exact I]. Qed.

Lemma spells_closed a z : spells a z -> attr_ok a -> closed a.
Proof.
  intros (s & n & w & -> & _ & Hb) [Hw Hz]. cbn [closed]. split; [exact Hw|]. split; [|lia]. unfold is_u. split; [lia|]. unfold bit_length in Hb. destruct (Z.eqb_spec z 0) as [->|]; [lia|].
  apply Z.log2_lt_pow2; lia.
Qed.

Lemma closed_number name d z : attr_ok (Dictionary d) -> has_number name d z -> closed_at d name.
Proof. intros Ho (a & E & H). exists a. split; [exact E|]. eapply spells_closed; [exact H|exact (ok_get _ _ _ Ho E)]. Qed.

Lemma get_dict_some name d e : get_dict name d = Some e -> dget name d = Some (Dictionary e).
Proof. unfold get_dict. destruct (dget name d) as [[]|]; congruence. Qed.

Lemma get_array_some name d l : get_array name d = Some l -> dget name d = Some (ArrayAttribute l).
Proof. unfold get_array. destruct (dget name d) as [[]|]; congruence. Qed.

Lemma closed_field grammar name d : closes grammar -> attr_ok (Dictionary d) -> field_of grammar name d -> closed_at d name.
Proof. intros Hg Ho (e & E & H). apply get_dict_some in E. exists (Dictionary e). split; [exact E|]. apply Hg; [exact H|exact (ok_get _ _ _ Ho E)]. Qed.

Lemma closed_array_of grammar name d : closes grammar -> attr_ok (Dictionary d) -> array_of grammar name d -> closed_at d name.
Proof.
  intros Hg Ho (l & E & H). apply get_array_some in E. exists (ArrayAttribute l). split; [exact E|]. apply ok_get with (2 := E), ok_array in Ho. apply closed_array.
  rewrite Forall_forall in H, Ho |- *. intros a Ha. destruct (H a Ha) as (e & -> & He). exact (Hg e He (Ho _ Ha)).
Qed.

Lemma closed_numbers name d : attr_ok (Dictionary d) -> numbers_grammar name d -> closed_at d name.
Proof.
  intros Ho (l & E & H). apply get_array_some in E. exists (ArrayAttribute l). split; [exact E|]. apply ok_get with (2 := E), ok_array in Ho. apply closed_array.
  rewrite Forall_forall in H, Ho |- *. intros a Ha. destruct (H a Ha) as (z & Hz). exact (spells_closed _ _ Hz (Ho _ Ha)).
Qed.

Create HintDb closing discriminated.
#[export] Hint Resolve closed_string closed_symbol closed_number closed_field closed_array_of closed_numbers : closing.

(** Closes a record with the given fields. *)
Ltac close_record names :=
  apply (closed_record names); [rewrite NoDup_ListNoDup; repeat (apply List.NoDup_cons; [cbn; intuition discriminate|]); apply List.NoDup_nil|assumption|];
  repeat (apply Forall_cons; split); [..|apply Forall_nil; exact I];
  match goal with |- exists a, dget ?name ?d = Some a /\ closed a => change (closed_at d name) end; eauto with closing.

Lemma component_closes : closes component_grammar.
Proof.
  intros d [Hl [[Hk Hn]|[Hk [z Hz]]]] Ho; [close_record ["kind"; "name"]|close_record ["kind"; "value"]].
Qed.

Lemma site_closes : closes site_grammar.
Proof. pose proof component_closes. intros d (Hl & Hs & Ha) Ho. close_record ["definition"; "ast_path"]. Qed.

(** The forms of static values. *)
Lemma static_forms fs : verifyStaticValueStructure (Dictionary fs) = inr tt -> is_Some (get_string "kind" fs) /\
  (length fs = 2%nat /\ (is_Some (get_bool "value" fs) \/ is_Some (get_math "value" fs) \/
     exists l, dget "values" fs = Some (ArrayAttribute l) /\ Forall (fun a => verifyStaticValueStructure a = inr tt) l) \/
   length fs = 3%nat /\ is_Some (get_symbol "symbol" fs) /\ exists l, dget "fields" fs = Some (ArrayAttribute l) /\ Forall (fun a => verifyStaticValueStructure a = inr tt) l).
Proof.
  cbn [verifyStaticValueStructure]. destruct (recordKind (Dictionary fs)) as [|k] eqn:Ek; [discriminate|]. cbn [fbind]. apply recordKind_spec in Ek. rewrite Ek.
  unfold requireExactFields. intros H. split; [eauto|]. destruct (decide (k = "bool")); [|destruct (decide (k = "integer")); [|destruct (decide (k = "record")); [|destruct (decide (k = "list")); [|discriminate]]]];
    case_bool_decide as El; try discriminate H; cbn [fbind] in H.
  - left. split; [exact El|]. left. destruct (get_bool "value" fs); [eauto|discriminate].
  - left. split; [exact El|]. right. left. destruct (get_math "value" fs); [eauto|discriminate].
  - right. split; [exact El|]. destruct (get_symbol "symbol" fs); [|discriminate]. split; [eauto|]. rewrite checked_array_get in H.
    destruct (dget "fields" fs) as [[| | | | | |l| | |]|]; try discriminate. exists l. split; [reflexivity|].
    change (all_ok (verifyStaticValueStructure <$> l) = inr tt) in H. rewrite all_ok_inr, Forall_fmap in H. exact H.
  - left. split; [exact El|]. right. right. rewrite checked_array_get in H. destruct (dget "values" fs) as [[| | | | | |l| | |]|]; try discriminate. exists l. split; [reflexivity|].
    assert (H' : all_ok (verifyStaticValueStructure <$> l) = inr tt) by (destruct l; [discriminate|exact H]). rewrite all_ok_inr, Forall_fmap in H'. exact H'.
Qed.

Lemma static_closes : closes static_grammar.
Proof.
  assert (H : forall a, verifyStaticValueStructure a = inr tt -> attr_ok a -> closed a); [|intros d; apply H].
  intros a. induction a as [fs IH|a Hn] using value_induction; [|intros H; destruct a; try discriminate H; exfalso; eapply Hn; reflexivity].
  intros H Ho. destruct (static_forms fs H) as (Hk & Hf).
  assert (Harr : forall name l, dget name fs = Some (ArrayAttribute l) -> Forall (fun a => verifyStaticValueStructure a = inr tt) l -> closed_at fs name).
  { intros name l E Hl. specialize (IH name l E). exists (ArrayAttribute l). split; [exact E|]. apply ok_get with (2 := E), ok_array in Ho. apply closed_array.
    rewrite Forall_forall in IH, Hl, Ho |- *. intros x Hx. exact (IH x Hx (Hl x Hx) (Ho x Hx)). }
  destruct Hf as [[Hl [Hb|[Hm|(l & E & Hs)]]]|(Hl & Hs & l & E & Hr)].
  - close_record ["kind"; "value"]. destruct Hb as [b Hb]. unfold get_bool in Hb. destruct (dget "value" fs) as [[]|] eqn:Ev; try discriminate. eexists. split; [exact Ev|exact I].
  - close_record ["kind"; "value"]. destruct Hm as [b Hb]. unfold get_math in Hb. destruct (dget "value" fs) as [[]|] eqn:Ev; try discriminate. eexists. split; [exact Ev|]. exact (ok_get _ _ _ Ho Ev).
  - close_record ["kind"; "values"].
  - close_record ["kind"; "symbol"; "fields"].
Qed.

Lemma frame_closes : closes frame_grammar.
Proof.
  pose proof site_closes. pose proof static_closes. intros d [(Hk & Hl & Hs & Hc)|(Hk & Hl & Hs & [z Hz] & Hv)] Ho;
    [close_record ["kind"; "site"; "callee"]|close_record ["kind"; "site"; "ordinal"; "value"]].
Qed.

Lemma occurrence_closes : closes occurrence_grammar.
Proof. pose proof site_closes. pose proof frame_closes. intros d (Hl & Hs & He) Ho. close_record ["site"; "expansion"]. Qed.

Lemma owner_ref_closes : closes owner_ref_grammar.
Proof. pose proof occurrence_closes. intros d (Hl & Ha) Ho. close_record ["instance_path"]. Qed.

Lemma invocation_closes : closes invocation_grammar.
Proof. pose proof occurrence_closes. pose proof owner_ref_closes. intros d (Hl & Hc & Hr) Ho. close_record ["call"; "receiver"]. Qed.

Lemma spec_key_closes : closes spec_key_grammar.
Proof. pose proof static_closes. intros d (Hl & Hs & Ha) Ho. close_record ["definition"; "arguments"]. Qed.

Lemma observation_id_closes : closes observation_id_grammar.
Proof.
  pose proof occurrence_closes. pose proof owner_ref_closes. pose proof invocation_closes. intros d (Hl & Hr & Hs & Hw & (w & bits & Eo & Hb) & l & owner & El & _ & Hi & _) Ho.
  close_record ["registration"; "site"; "owner"; "ordinal"; "invocation"].
  - eexists. split; [exact Eo|]. pose proof (ok_get _ _ _ Ho Eo) as [Hw' Hz]. cbn [closed]. unfold is_u. lia.
  - apply (closed_array_of invocation_grammar); [assumption..|]. exists l. auto.
Qed.

(** Accepted identities are closed. *)
Lemma identity_closes k : closes (identity_grammar k).
Proof.
  pose proof occurrence_closes as Hocc. pose proof owner_ref_closes as Hown. pose proof spec_key_closes as Hkey. destruct k; cbn [identity_grammar]; try assumption.
  - intros d (Hl & Hp & l & c & el & ec & H1 & H2 & H3 & H4 & _) Ho. close_record ["path"; "line"; "column"; "end_line"; "end_column"].
  - intros d (Hl & Hs & z & Hz & _) Ho. close_record ["origin"; "slot"].
  - intros d (Hl & Hs & Hr & z & Hz & _) Ho. close_record ["origin"; "role"; "slot"]. apply closed_string. destruct Hr as [-> | ->]; eauto.
  - intros d (Hl & Hs & Hc & z & Hz) Ho. close_record ["registration"; "check"; "obligation"].
  - apply observation_id_closes.
  - intros d (Hl & Hs & Hc & Hn) Ho. close_record ["owner"; "declaration"; "element"].
  - intros d (Hl & [(Hk & Hd & He)|(Hk & Hp & Hor)]) Ho; [close_record ["kind"; "declaration"; "element"]|close_record ["kind"; "parameter"; "ordinal"]].
    destruct Hor as [E|[z Hz]]; [exists UnitAttribute; split; [exact E|exact I]|eauto with closing].
  - intros d (Hl & Hs & Hc) Ho. close_record ["specialization"; "registration"].
Qed.

Section Ordered.
Context `{L : ApLib} {HL : ApLaws L}.

(** C23: verified identities are totally ordered.  For identities of any kinds
    that their verifiers accept, the structural comparison answers (it meets
    no other attribute); swapping negates the answer; the answers compose; and
    zero is answered exactly for identities that are equal up to the types of
    their integers, so exactly for equal ones where the integers have one
    type. *)
Theorem verified_identities_ordered i j k a b c memo memo' memo'' :
  attr_ok (Dictionary a) -> attr_ok (Dictionary b) -> attr_ok (Dictionary c) -> memo_right memo -> memo_right memo' -> memo_right memo'' ->
  fst (verify_identity i a memo) = Some (inr tt) -> fst (verify_identity j b memo') = Some (inr tt) -> fst (verify_identity k c memo'') = Some (inr tt) ->
  exists r s t,
    compareClosedSourceStructure (Dictionary a) (Dictionary b) = Some r /\ compareClosedSourceStructure (Dictionary b) (Dictionary c) = Some s /\
    compareClosedSourceStructure (Dictionary a) (Dictionary c) = Some t /\ compareClosedSourceStructure (Dictionary b) (Dictionary a) = Some (- r) /\ -1 <= r <= 1 /\
    (r = 0 <-> forget (Dictionary a) = forget (Dictionary b)) /\
    (forall ty w, uniform ty w (Dictionary a) -> uniform ty w (Dictionary b) -> r = 0 <-> a = b) /\
    (r <= 0 -> s <= 0 -> t <= 0 /\ (t = 0 -> r = 0 /\ s = 0)).
Proof.
  intros Ha Hb Hc Hm Hm' Hm'' Va Vb Vc. assert (Hclosed : forall k d memo, attr_ok (Dictionary d) -> memo_right memo -> fst (verify_identity k d memo) = Some (inr tt) -> closed (Dictionary d)).
  { intros k' d m Hok Hr H. apply (identity_closes k'); [|exact Hok]. apply (verifier_exact k' d m Hr), H. }
  destruct (closed_structure_order (Dictionary a) (Dictionary b) (Dictionary c) (Hclosed _ _ _ Ha Hm Va) (Hclosed _ _ _ Hb Hm' Vb) (Hclosed _ _ _ Hc Hm'' Vc))
    as (r & s & t & H1 & H2 & H3 & H4 & H5 & H6 & H7 & H8).
  exists r, s, t. repeat (split; [assumption|]). split; [|exact H8]. intros ty w Ua Ub. rewrite (H7 ty w Ua Ub). split; congruence.
Qed.
End Ordered.

Module IdentityWitness.
Import Capture.
#[local] Existing Instance Reference.lib.
#[local] Existing Instance Reference.laws.

(** A formal reference with a field too many and no ordinal. *)
Definition malformed_reference : DictionaryAttr := [("kind", StringAttribute "formal"); ("name", StringAttribute "s"); ("parameter", StringAttribute "p")].

Lemma identity_verifiers_exact_witness : fst (verify_identity StateRefIdentity malformed_reference None) = None.
Proof.
  apply (identity_verifiers_exact StateRefIdentity malformed_reference None I). split; [reflexivity|]. split; [reflexivity|]. split; [reflexivity|]. split; [eexists; reflexivity|reflexivity].
Defined.

Definition fresh_memo : Memo := Some (mkMemo [] [] []).
Lemma fresh_right : memo_right fresh_memo.
Proof. split; constructor. Qed.

Lemma use_reached : reaches (source_module source) use.
Proof. apply reaches_item, reaches_item, reaches_item, reaches_root. Qed.

Lemma importer_identities_faithful_witness : exists d, occurrence "top" use [] = Dictionary d /\ fst (verifyOccurrence (Some d) fresh_memo) = inr tt.
Proof.
  destruct (importer_identities_faithful true capture source use fresh_memo capture_read use_reached) as [_ H].
  - vm_compute. discriminate.
  - apply fresh_right.
  - repeat constructor.
  - destruct (H "top" [] (List.Forall_nil _)) as (d & H1 & H2 & _). exists d. split; [exact H1|exact H2].
Defined.

(** The occurrences of two statements, and the owner that they form. *)
Definition occurrence_of (i : nat) : DictionaryAttr := default [] (as_dictionary (occurrence "top" (item (source_module source) "body" i) [])).
Definition owner_of : DictionaryAttr := [("instance_path", ArrayAttribute [Dictionary (occurrence_of 0); Dictionary (occurrence_of 1)])].

Lemma verified_identities_ordered_witness : exists r s,
  compareClosedSourceStructure (Dictionary (occurrence_of 0)) (Dictionary (occurrence_of 1)) = Some r /\
  compareClosedSourceStructure (Dictionary (occurrence_of 1)) (Dictionary owner_of) = Some s /\ (r = 0 <-> occurrence_of 0 = occurrence_of 1).
Proof.
  destruct (verified_identities_ordered OccurrenceIdentity OccurrenceIdentity OwnerRefIdentity (occurrence_of 0) (occurrence_of 1) owner_of fresh_memo fresh_memo fresh_memo)
    as (r & s & t & H1 & H2 & _ & _ & _ & _ & H3 & _).
  1-3: vm_compute; repeat split; first [reflexivity|discriminate].
  1-3: apply fresh_right.
  1-3: vm_compute; reflexivity.
  exists r, s. split; [exact H1|]. split; [exact H2|]. apply (H3 (IntegerType Signless 64) 64); vm_compute; repeat split.
Defined.
End IdentityWitness.
