(* ===== verification/SourceIdentifier.v ===== *)
(** * Python identifiers ([SourceIdentifier.cpp])

    A name of a captured source is checked as Python reads it: UTF-8 text, a
    start character, continuation characters, in normalization form KC, and no
    keyword.  The tables of the Unicode database
    ([SourceIdentifierUnicodeData.h], generated) are the argument [u]. *)

From Stdlib Require Import ZArith Lia String.
From stdpp Require Import base list numbers strings.
From S2P Require Import Prelude ModelInput CompilerPrelude.

Open Scope string_scope.
Open Scope list_scope.
Open Scope Z_scope.

(** ** Tables *)

Record Decomposition := mkDecomposition { d_codepoint : Z; d_offset : nat; d_length : nat }.
Record Composition := mkComposition { c_first : Z; c_second : Z; c_result : Z }.

(** Ranges are pairs of their ends, combining classes pairs of a code point and
    its class. *)
Record UnicodeData := mkUnicode {
  xidStartRanges : list (Z * Z);
  xidContinueRanges : list (Z * Z);
  decompositions : list Decomposition;
  decompositionValues : list Z;
  combiningClasses : list (Z * Z);
  compositions : list Composition }.

(** [std::lower_bound], with the elements that come before given by a test. *)
Fixpoint lower_bound_loop {A} (before : A -> bool) (l : list A) (fuel first len : nat) : nat :=
  match fuel with
  | O => first
  | S fuel =>
    if Nat.eqb len 0 then first
    else
      let half := (len / 2)%nat in
      match l !! (first + half)%nat with
      | Some x => if before x then lower_bound_loop before l fuel (first + half + 1) (len - half - 1) else lower_bound_loop before l fuel first half
      | None => first
      end
  end.

Definition lower_bound {A} (before : A -> bool) (l : list A) : nat := lower_bound_loop before l (S (length l)) 0 (length l).

(** ** Text *)

(** The class of a lead byte: value bits and the number of continuations. *)
Definition lead_bits (lead : Z) : option (Z * nat) :=
  if lead <? 128 then Some (lead, 0%nat)
  else if (194 <=? lead) && (lead <=? 223) then Some (Z.land lead 31, 1%nat)
  else if (224 <=? lead) && (lead <=? 239) then Some (Z.land lead 15, 2%nat)
  else if (240 <=? lead) && (lead <=? 244) then Some (Z.land lead 7, 3%nat)
  else None.

Definition overlong (value : Z) (count : nat) : bool :=
  match count with 1%nat => value <? 128 | 2%nat => value <? 2048 | 3%nat => value <? 65536 | _ => false end.

(** One round of the loop. *)
Definition decode_one (lead : Z) (rest : list Z) : option (Z * list Z) :=
  match lead_bits lead with
  | None => None
  | Some (bits, count) =>
    if Nat.ltb (length rest) count then None
    else
      match continuation count bits rest with
      | None => None
      | Some (value, rest) =>
        if overlong value count || (1114111 <? value) || ((55296 <=? value) && (value <=? 57343)) then None else Some (value, rest)
      end
  end.

(** Every round consumes a byte. *)
Fixpoint decode_loop (fuel : nat) (input : list Z) : option (list Z) :=
  match fuel, input with
  | _, [] => Some []
  | O, _ => None
  | S fuel, lead :: rest =>
    match decode_one lead rest with
    | None => None
    | Some (value, rest) => cons value <$> decode_loop fuel rest
    end
  end.

Definition decodeUtf8 (input : list Z) : option (list Z) := decode_loop (length input) input.

(** ** Properties of code points *)

Definition HangulSBase : Z := 44032.
Definition HangulLBase : Z := 4352.
Definition HangulVBase : Z := 4449.
Definition HangulTBase : Z := 4519.
Definition HangulLCount : Z := 19.
Definition HangulVCount : Z := 21.
Definition HangulTCount : Z := 28.
Definition HangulNCount : Z := HangulVCount * HangulTCount.
Definition HangulSCount : Z := HangulLCount * HangulNCount.

Definition containsCodepoint (table : list (Z * Z)) (codepoint : Z) : bool :=
  match table !! lower_bound (fun range => snd range <? codepoint) table with
  | Some range => fst range <=? codepoint
  | None => false
  end.

Section Tables.
Variable u : UnicodeData.

Definition combiningClass (codepoint : Z) : Z :=
  match combiningClasses u !! lower_bound (fun entry => fst entry <? codepoint) (combiningClasses u) with
  | Some (c, value) => if c =? codepoint then value else 0
  | None => 0
  end.

Definition decomposition (codepoint : Z) : option Decomposition :=
  match decompositions u !! lower_bound (fun entry => d_codepoint entry <? codepoint) (decompositions u) with
  | Some found => if d_codepoint found =? codepoint then Some found else None
  | None => None
  end.

Definition composePair (first second : Z) : Z :=
  if (HangulLBase <=? first) && (first <? HangulLBase + HangulLCount) && (HangulVBase <=? second) && (second <? HangulVBase + HangulVCount)
  then HangulSBase + ((first - HangulLBase) * HangulVCount + (second - HangulVBase)) * HangulTCount
  else if (HangulSBase <=? first) && (first <? HangulSBase + HangulSCount) && ((first - HangulSBase) mod HangulTCount =? 0) &&
          (HangulTBase <? second) && (second <? HangulTBase + HangulTCount)
  then first + second - HangulTBase
  else
    match compositions u !! lower_bound (fun entry => (c_first entry <? first) || ((c_first entry =? first) && (c_second entry <? second))) (compositions u) with
    | Some found => if (c_first found =? first) && (c_second found =? second) then c_result found else 0
    | None => 0
    end.

(** ** Normalization *)

Definition is_syllable (c : Z) : bool := (HangulSBase <=? c) && (c <? HangulSBase + HangulSCount).

(** The jamo of a syllable. *)
Definition jamo (syllable : Z) : list Z :=
  let index := syllable - HangulSBase in
  let trailing := index mod HangulTCount in
  [HangulLBase + index / HangulNCount; HangulVBase + (index mod HangulNCount) / HangulTCount] ++ (if trailing =? 0 then [] else [HangulTBase + trailing]).

Definition mapping_values (mapping : Decomposition) : list Z := take (d_length mapping) (drop (d_offset mapping) (decompositionValues u)).

(** The stack has its top first; [None] where the fuel ends. *)
Fixpoint decompose_loop (fuel : nat) (pending output : list Z) : option (list Z) :=
  match pending, fuel with
  | [], _ => Some output
  | _, O => None
  | current :: pending, S fuel =>
    if is_syllable current then decompose_loop fuel (jamo current ++ pending) output
    else
      match decomposition current with
      | None => decompose_loop fuel pending (output ++ [current])
      | Some mapping => decompose_loop fuel (mapping_values mapping ++ pending) output
      end
  end.

Definition appendDecomposed (fuel : nat) (codepoint : Z) (output : list Z) : option (list Z) := decompose_loop fuel [codepoint] output.

Fixpoint decompose_all (fuel : nat) (input output : list Z) : option (list Z) :=
  match input with
  | [] => Some output
  | codepoint :: rest => match appendDecomposed fuel codepoint output with Some output => decompose_all fuel rest output | None => None end
  end.

(** [std::stable_sort] by the combining class. *)
Fixpoint insert_mark (mark : Z) (l : list Z) : list Z :=
  match l with
  | [] => [mark]
  | m :: rest => if combiningClass m <? combiningClass mark then m :: insert_mark mark rest else mark :: m :: rest
  end.
Definition sort_marks (l : list Z) : list Z := foldr insert_mark [] l.

(** The marks up to the next starter, and the rest. *)
Fixpoint split_marks (l : list Z) : list Z * list Z :=
  match l with
  | c :: rest => if combiningClass c =? 0 then ([], l) else let '(marks, rest) := split_marks rest in (c :: marks, rest)
  | [] => ([], [])
  end.

(** A segment is a starter with its marks. *)
Fixpoint reorder (fuel : nat) (l : list Z) : list Z :=
  match fuel, l with
  | O, _ => l
  | _, [] => []
  | S fuel, c :: rest =>
    let '(starter, marked) := if combiningClass c =? 0 then ([c], rest) else ([], l) in
    let '(marks, rest) := split_marks marked in
    starter ++ sort_marks marks ++ reorder fuel rest
  end.

Record Composing := mkComposing { composed : list Z; starterPosition : option nat; lastClass : Z }.

Definition compose_step (s : Composing) (codepoint : Z) : Composing :=
  let currentClass := combiningClass codepoint in
  let pushed := mkComposing (composed s ++ [codepoint]) (if currentClass =? 0 then Some (length (composed s)) else starterPosition s) currentClass in
  match starterPosition s with
  | Some position =>
    if (lastClass s =? 0) || (lastClass s <? currentClass) then
      let composite := composePair (default 0 (composed s !! position)) codepoint in
      if composite =? 0 then pushed else mkComposing (<[position := composite]> (composed s)) (Some position) (lastClass s)
    else pushed
  | None => pushed
  end.

Definition compose (l : list Z) : list Z := composed (foldl compose_step (mkComposing [] None 0) l).

Definition nfkc (fuel : nat) (input : list Z) : option (list Z) :=
  (fun decomposed => compose (reorder (length decomposed) decomposed)) <$> decompose_all fuel input [].

(** ** The check *)

(** [None] where a decomposition does not end. *)
Definition verifyPythonAstIdentifier (fuel : nat) (name : string) (bindingName : bool) : option (FailureOr unit) :=
  match decodeUtf8 (lit name) with
  | None | Some [] => Some (failure "Python AST identifier must be nonempty valid UTF-8")
  | Some (front :: rest) =>
    if negb (containsCodepoint (xidStartRanges u) front) then Some (failure "Python AST identifier does not start with XID_Start")
    else if negb (forallb (containsCodepoint (xidContinueRanges u)) rest) then Some (failure "Python AST identifier contains a non-XID_Continue character")
    else
      match nfkc fuel (front :: rest) with
      | None => None
      | Some normal =>
        Some (if negb (bool_decide (normal = front :: rest)) then failure "Python AST identifier is not in Unicode NFKC form"
              else if bool_decide (name ∈ ["None"; "True"; "False"]) then failure "Python AST identifier cannot be a constant keyword"
              else if bindingName && bool_decide (name = "__debug__") then failure "Python AST binding cannot use '__debug__'"
              else success tt)
      end
  end.
End Tables.
