(* ===== verification/SourceIdentifierSpec.v ===== *)
(** * Identifiers are checked exactly

    The lookups in the sorted tables are exact, text is decoded exactly,
    decomposition ends, and a name is accepted exactly when it is a Python
    identifier in normal form. *)

From Stdlib Require Import ZArith Lia String.
From stdpp Require Import base list numbers strings sets.
From S2P Require Import Prelude ModelInput ModelInputSpec CompilerPrelude SourceIdentifier.

Open Scope string_scope.
Open Scope list_scope.
Open Scope Z_scope.

(** ** Binary search *)

(** The elements before [k] are those that pass the test. *)
Definition partitioned {A} (before : A -> bool) (l : list A) (k : nat) : Prop :=
  (k <= length l)%nat /\ forall i x, l !! i = Some x -> before x = true <-> (i < k)%nat.

Lemma lower_bound_loop_spec {A} (before : A -> bool) l k : partitioned before l k ->
  forall fuel first len, (len < fuel)%nat -> (first <= k <= first + len)%nat -> (first + len <= length l)%nat -> lower_bound_loop before l fuel first len = k.
Proof.
  intros [Hk Hp]. induction fuel as [|fuel IH]; intros first len Hf Hb Hl; [lia|]. cbn [lower_bound_loop]. destruct (Nat.eqb_spec len 0) as [->|Hlen]; [lia|].
  assert (Hh : (len / 2 < len)%nat) by (apply Nat.div_lt; lia). destruct (lookup_lt_is_Some_2 l (first + len / 2)%nat) as [x Hx]; [lia|]. rewrite Hx. destruct (before x) eqn:E.
  - apply (Hp _ _ Hx) in E. apply IH; lia.
  - assert (~ (first + len / 2 < k)%nat) by (rewrite <- (Hp _ _ Hx), E; discriminate). apply IH; lia.
Qed.

Lemma lower_bound_spec {A} (before : A -> bool) l k : partitioned before l k -> lower_bound before l = k.
Proof. intros Hp. apply lower_bound_loop_spec; [exact Hp|lia|destruct Hp; lia|lia]. Qed.

(** A test that fails for good has a partition. *)
Definition monotone {A} (before : A -> bool) (l : list A) : Prop := forall i j x y, l !! i = Some x -> l !! j = Some y -> (i < j)%nat -> before y = true -> before x = true.

Lemma partition_exists {A} (before : A -> bool) l : monotone before l -> exists k, partitioned before l k.
Proof.
  induction l as [|a l IH]; intros Hm; [exists 0%nat; split; [reflexivity|intros i x H; discriminate]|].
  destruct IH as (k & Hk & Hp); [intros i j x y Hi Hj Hij; apply (Hm (S i) (S j)); [exact Hi|exact Hj|lia]|]. destruct (before a) eqn:Ea.
  - exists (S k). split; [cbn; lia|]. intros [|i] x Hx; cbn in Hx; [injection Hx as ->; split; [lia|auto]|]. rewrite (Hp i x Hx). lia.
  - exists 0%nat. split; [lia|]. intros i x Hx. split; [|lia]. intros E. destruct i as [|i]; cbn in Hx; [congruence|]. rewrite (Hm 0%nat (S i) a x) in Ea; [discriminate|reflexivity|exact Hx|lia|exact E].
Qed.

(** The element at the bound is the first that fails the test. *)
Lemma lower_bound_first {A} (before : A -> bool) l : monotone before l ->
  match l !! lower_bound before l with
  | Some x => x ∈ l /\ before x = false /\ forall y, y ∈ l -> before y = false -> exists i j, l !! i = Some x /\ l !! j = Some y /\ (i <= j)%nat
  | None => forall y, y ∈ l -> before y = true
  end.
Proof.
  intros Hm. destruct (partition_exists before l Hm) as (k & Hp). rewrite (lower_bound_spec _ _ _ Hp). destruct Hp as [Hk Hp]. destruct (l !! k) as [x|] eqn:Ex.
  - split; [eapply list_elem_of_lookup_2, Ex|]. split; [destruct (before x) eqn:E; [apply (Hp _ _ Ex) in E; lia|reflexivity]|].
    intros y Hy Ey. apply list_elem_of_lookup in Hy as [j Hj]. exists k, j. split; [exact Ex|]. split; [exact Hj|]. destruct (Nat.le_gt_cases k j) as [H|H]; [exact H|].
    apply (Hp _ _ Hj) in H. congruence.
  - intros y Hy. apply list_elem_of_lookup in Hy as [j Hj]. apply (Hp _ _ Hj). apply lookup_ge_None in Ex. apply lookup_lt_Some in Hj. lia.
Qed.

(** ** Sorted tables *)

Definition sorted_by {A} (R : A -> A -> Prop) (l : list A) : Prop := forall i j x y, l !! i = Some x -> l !! j = Some y -> (i < j)%nat -> R x y.

Definition ranges_sorted (t : list (Z * Z)) : Prop := Forall (fun r => fst r <= snd r) t /\ sorted_by (fun r s => snd r < fst s) t.
Definition in_ranges (t : list (Z * Z)) (c : Z) : Prop := exists r, r ∈ t /\ fst r <= c <= snd r.

Lemma contains_exact t c : ranges_sorted t -> containsCodepoint t c = true <-> in_ranges t c.
Proof.
  intros [Hr Hs]. rewrite Forall_forall in Hr. assert (Hm : monotone (fun range => snd range <? c) t).
  { intros i j x y Hi Hj Hij. rewrite !Z.ltb_lt. intros H. pose proof (Hs i j x y Hi Hj Hij). pose proof (Hr y (list_elem_of_lookup_2 _ _ _ Hj)). cbn beta in *. lia. }
  unfold containsCodepoint. pose proof (lower_bound_first _ _ Hm) as Hf. destruct (t !! _) as [x|].
  - destruct Hf as (Hx & Ex & Hmin). apply Z.ltb_ge in Ex. rewrite Z.leb_le. split; [intros H; exists x; auto|]. intros (r & Hin & Hc).
    destruct (Hmin r Hin) as (i & j & Hi & Hj & Hij); [apply Z.ltb_ge; lia|]. destruct (Nat.eq_dec i j) as [->|]; [assert (r = x) by congruence; subst; lia|].
    pose proof (Hs i j x r Hi Hj ltac:(lia)). pose proof (Hr x Hx). cbn beta in *. lia.
  - split; [discriminate|]. intros (r & Hin & Hc). specialize (Hf r Hin). apply Z.ltb_lt in Hf. lia.
Qed.

(** A table sorted by a key, searched for the key. *)
Lemma keyed_lookup {A} (before : A -> bool) (same : A -> bool) (R : A -> A -> Prop) l : sorted_by R l ->
  (forall x y, R x y -> before y = true -> before x = true) -> (forall x y, R x y -> same y = true -> before x = true) -> (forall x, same x = true -> before x = false) ->
  (match l !! lower_bound before l with Some x => if same x then Some x else None | None => None end) = List.find same l /\
  (forall x, x ∈ l -> same x = true -> List.find same l = Some x).
Proof.
  intros Hs Hb Hsame Hno. assert (Hm : monotone before l) by (intros i j x y Hi Hj Hij; apply Hb; exact (Hs i j x y Hi Hj Hij)).
  assert (Hone : forall x y, x ∈ l -> y ∈ l -> same x = true -> same y = true -> x = y).
  { intros x y Hx Hy Sx Sy. apply list_elem_of_lookup in Hx as [i Hi], Hy as [j Hj]. destruct (Nat.lt_trichotomy i j) as [H|[->|H]]; [|congruence|].
    - pose proof (Hsame _ _ (Hs _ _ _ _ Hi Hj H) Sy) as E. rewrite (Hno x Sx) in E. discriminate.
    - pose proof (Hsame _ _ (Hs _ _ _ _ Hj Hi H) Sx) as E. rewrite (Hno y Sy) in E. discriminate. }
  assert (Hfind : forall x, x ∈ l -> same x = true -> List.find same l = Some x).
  { intros x Hx Sx. destruct (List.find same l) as [y|] eqn:E; [apply List.find_some in E as [Hy Sy]; f_equal; apply Hone; [apply list_elem_of_In, Hy|assumption..]|].
    apply list_elem_of_In, (List.find_none _ _ E) in Hx. congruence. }
  split; [|exact Hfind]. pose proof (lower_bound_first before l Hm) as Hf. destruct (l !! _) as [x|].
  - destruct Hf as (Hx & Ex & Hmin). destruct (same x) eqn:Sx; [symmetry; apply Hfind; assumption|].
    destruct (List.find same l) as [y|] eqn:E; [|reflexivity]. apply List.find_some in E as [Hy Sy]. apply list_elem_of_In in Hy.
    destruct (Hmin y Hy (Hno y Sy)) as (i & j & Hi & Hj & Hij). destruct (Nat.eq_dec i j) as [->|]; [assert (x = y) by congruence; congruence|].
    pose proof (Hsame _ _ (Hs _ _ _ _ Hi Hj ltac:(lia)) Sy). congruence.
  - destruct (List.find same l) as [y|] eqn:E; [|reflexivity]. apply List.find_some in E as [Hy Sy]. apply list_elem_of_In in Hy. specialize (Hf y Hy). rewrite (Hno y Sy) in Hf. discriminate.
Qed.

(** The order in which the generator writes the tables; a class is a byte. *)
Definition tables_ok (u : UnicodeData) : Prop :=
  Forall (fun e => is_byte (snd e)) (combiningClasses u) /\
  ranges_sorted (xidStartRanges u) /\ ranges_sorted (xidContinueRanges u) /\ sorted_by (fun a b => fst a < fst b) (combiningClasses u) /\
  sorted_by (fun a b => d_codepoint a < d_codepoint b) (decompositions u) /\
  sorted_by (fun a b => c_first a < c_first b \/ c_first a = c_first b /\ c_second a < c_second b) (compositions u).

Lemma class_exact u c : sorted_by (fun a b => fst a < fst b) (combiningClasses u) -> combiningClass u c = from_option snd 0 (List.find (fun e => fst e =? c) (combiningClasses u)).
Proof.
  intros Hs. destruct (keyed_lookup (fun entry => fst entry <? c) (fun e => fst e =? c) _ _ Hs) as [E _]; [intros x y; rewrite !Z.ltb_lt; lia|intros x y; rewrite Z.ltb_lt, Z.eqb_eq; lia|intros x; rewrite Z.ltb_ge, Z.eqb_eq; lia|].
  rewrite <- E. unfold combiningClass. destruct (_ !! _) as [[k v]|]; [|reflexivity]. cbn [fst]. destruct (k =? c); reflexivity.
Qed.

Lemma decomposition_exact u c : sorted_by (fun a b => d_codepoint a < d_codepoint b) (decompositions u) -> decomposition u c = List.find (fun e => d_codepoint e =? c) (decompositions u).
Proof.
  intros Hs. destruct (keyed_lookup (fun entry => d_codepoint entry <? c) (fun e => d_codepoint e =? c) _ _ Hs) as [E _]; [intros x y; rewrite !Z.ltb_lt; lia|intros x y; rewrite Z.ltb_lt, Z.eqb_eq; lia|intros x; rewrite Z.ltb_ge, Z.eqb_eq; lia|].
  exact E.
Qed.

Lemma composition_exact u a b : sorted_by (fun a b => c_first a < c_first b \/ c_first a = c_first b /\ c_second a < c_second b) (compositions u) ->
  (match compositions u !! lower_bound (fun entry => (c_first entry <? a) || ((c_first entry =? a) && (c_second entry <? b))) (compositions u) with
   | Some found => if (c_first found =? a) && (c_second found =? b) then c_result found else 0
   | None => 0
   end) = from_option c_result 0 (List.find (fun e => (c_first e =? a) && (c_second e =? b)) (compositions u)).
Proof.
  intros Hs. destruct (keyed_lookup (fun entry => (c_first entry <? a) || ((c_first entry =? a) && (c_second entry <? b))) (fun e => (c_first e =? a) && (c_second e =? b)) _ _ Hs) as [E _].
  - intros x y H. rewrite !orb_true_iff, !andb_true_iff, !Z.ltb_lt, !Z.eqb_eq. lia.
  - intros x y H. rewrite orb_true_iff, !andb_true_iff, !Z.ltb_lt, !Z.eqb_eq. lia.
  - intros x. rewrite andb_true_iff, !Z.eqb_eq. intros [-> ->]. rewrite !Z.ltb_irrefl, andb_false_r. reflexivity.
  - rewrite <- E. destruct (_ !! _) as [x|]; [|reflexivity]. destruct (_ && _); reflexivity.
Qed.

(** ** Text *)

Lemma lead_bits_spec lead : is_byte lead -> lead_bits lead =
  if lead <? 128 then Some (lead, 0%nat) else match lead_range lead with
  | Some (1%nat, bits, _) => if 2 <=? bits then Some (bits, 1%nat) else None
  | Some (3%nat, bits, _) => if bits <=? 4 then Some (bits, 3%nat) else None
  | Some (n, bits, _) => Some (bits, n)
  | None => None
  end.
Proof.
  set (expected := fun lead => if lead <? 128 then Some (lead, 0%nat) else match lead_range lead with
    | Some (1%nat, bits, _) => if 2 <=? bits then Some (bits, 1%nat) else None
    | Some (3%nat, bits, _) => if bits <=? 4 then Some (bits, 3%nat) else None
    | Some (n, bits, _) => Some (bits, n)
    | None => None
    end). assert (Hall : forallb (fun b => bool_decide (lead_bits b = expected b)) (Z.of_nat <$> seq 0 256) = true) by (vm_compute; reflexivity).
  intros Hb. exact (bool_decide_eq_true_1 _ (byte_cases _ Hall lead Hb)).
Qed.

(** A value of continuations lies in the range of its first bits. *)
Lemma continuation_range count : forall bits input value rest, Forall is_byte input -> 0 <= bits -> (bits + 1) * 64 ^ Z.of_nat count <= 2 ^ 26 ->
  continuation count bits input = Some (value, rest) -> bits * 64 ^ Z.of_nat count <= value < (bits + 1) * 64 ^ Z.of_nat count.
Proof.
  induction count as [|count IH]; intros bits input value rest Hb H0 Hlim; cbn [continuation]; [intros [= -> ->]; cbn; lia|].
  destruct input as [|c input]; [discriminate|]. apply Forall_cons in Hb as [Hc Hb]. destruct (continuation_bits c Hc) as [E1 E2]. rewrite E1.
  destruct ((128 <=? c) && (c <? 192)) eqn:E; [|discriminate]. cbn [negb]. assert (128 <= c < 192) by lia. rewrite (E2 ltac:(assumption)).
  replace (Z.of_nat (S count)) with (Z.of_nat count + 1) in * by lia. rewrite Z.pow_add_r in * by lia. change (64 ^ 1) with 64 in *.
  assert (0 < 64 ^ Z.of_nat count) by (apply Z.pow_pos_nonneg; lia). rewrite push_bits by nia. intros H2. apply IH in H2; [nia|exact Hb|lia|nia].
Qed.

Lemma decode_one_code_point lead rest : is_byte lead -> Forall is_byte rest -> decode_one lead rest = code_point lead rest.
Proof.
  intros Hl Hr. unfold decode_one, code_point. rewrite (lead_bits_spec lead Hl). destruct (Z.ltb_spec lead 128) as [Hlt|Hge].
  { cbn [continuation]. rewrite (proj2 (Nat.ltb_ge _ _)) by lia. cbn [overlong orb]. unfold is_byte in Hl. replace (1114111 <? lead) with false by lia.
    replace (55296 <=? lead) with false by lia. reflexivity. }
  rewrite (lead_class_spec lead Hl). unfold lead_range.
  destruct ((192 <=? lead) && (lead <? 224)) eqn:E1; [|destruct ((224 <=? lead) && (lead <? 240)) eqn:E2; [reflexivity|destruct ((240 <=? lead) && (lead <? 248)) eqn:E3; [|reflexivity]]].
  - destruct (Z.leb_spec 2 (lead - 192)); [reflexivity|]. destruct (Nat.ltb _ _); [reflexivity|]. destruct (continuation 1 (lead - 192) rest) as [[v r]|] eqn:Ec; [|reflexivity].
    apply continuation_range in Ec; [|exact Hr|lia|cbn; lia]. cbn in Ec. replace (v <? 128) with true by lia. reflexivity.
  - destruct (Z.leb_spec (lead - 240) 4); [reflexivity|]. destruct (Nat.ltb _ _); [reflexivity|]. destruct (continuation 3 (lead - 240) rest) as [[v r]|] eqn:Ec; [|reflexivity].
    apply continuation_range in Ec; [|exact Hr|lia|cbn; lia]. cbn in Ec. replace (1114111 <? v) with true by lia. rewrite orb_true_r. reflexivity.
Qed.

Lemma decode_loop_sound fuel : forall input cps, Forall is_byte input -> decode_loop fuel input = Some cps -> Forall scalar cps /\ input = encode_all cps.
Proof.
  induction fuel as [|fuel IH]; intros [|lead rest] cps Hb H; cbn [decode_loop] in H; try discriminate; try (injection H as <-; split; [constructor|reflexivity]).
  pose proof Hb as Hb'. apply Forall_cons in Hb' as [Hl Hr]. rewrite decode_one_code_point in H by assumption. destruct (code_point lead rest) as [[cp rest']|] eqn:E; [|discriminate].
  destruct (code_point_sound lead rest cp rest' Hb E) as (Hcp & Eq). rewrite Eq in Hb |- *. apply Forall_app in Hb as [_ Hb].
  destruct (decode_loop fuel rest') as [cps'|] eqn:Er; [|discriminate]. injection H as <-. destruct (IH rest' cps' Hb Er) as [H1 H2]. split; [constructor; assumption|]. rewrite H2. reflexivity.
Qed.

Lemma decode_loop_complete cps : forall fuel, Forall scalar cps -> (length (encode_all cps) <= fuel)%nat -> decode_loop fuel (encode_all cps) = Some cps.
Proof.
  induction cps as [|cp cps IH]; intros fuel Hc Hf; [destruct fuel; reflexivity|]. apply Forall_cons in Hc as [Hcp Hcps].
  destruct (code_point_encode cp (encode_all cps) Hcp (encode_all_bytes cps Hcps)) as (lead & tail & Eq & Hcode & Hb). change (encode_all (cp :: cps)) with (encode cp ++ encode_all cps) in *.
  rewrite Eq in *. cbn [app] in *. destruct fuel as [|fuel]; [cbn in Hf; lia|]. cbn [decode_loop]. apply Forall_cons in Hb as [Hl Ht].
  rewrite decode_one_code_point, Hcode; [|exact Hl|apply Forall_app; split; [exact Ht|apply encode_all_bytes, Hcps]].
  rewrite IH; [reflexivity|exact Hcps|]. cbn [length] in Hf. rewrite length_app in Hf. lia.
Qed.

(** Text decodes to the code points that it encodes. *)
Lemma decodeUtf8_exact input cps : Forall is_byte input -> decodeUtf8 input = Some cps <-> Forall scalar cps /\ input = encode_all cps.
Proof. intros Hb. split; [apply decode_loop_sound, Hb|]. intros [Hc ->]. apply decode_loop_complete; [exact Hc|lia]. Qed.

(** ** Decomposition *)

Section Decompose.
Variable u : UnicodeData.

(** The parts of a code point, if it has any. *)
Definition parts (c : Z) : option (list Z) := if is_syllable c then Some (jamo c) else mapping_values u <$> decomposition u c.

(** The full decomposition of a code point. *)
Inductive decomposes : Z -> list Z -> Prop :=
| decomposes_self c : parts c = None -> decomposes c [c]
| decomposes_parts c ps outs : parts c = Some ps -> Forall2 decomposes ps outs -> decomposes c (concat outs).

(** Decompositions lead downwards, as those of the Unicode database do. *)
Definition well_founded_tables : Prop := exists rank : Z -> nat, forall c ps p, parts c = Some ps -> p ∈ ps -> (rank p < rank c)%nat.

(** What the loop does with one code point, in how many rounds. *)
Definition loops (steps : nat) (c : Z) (out : list Z) : Prop :=
  forall fuel pending output, decompose_loop u (steps + fuel) (c :: pending) output = decompose_loop u fuel pending (output ++ out).

Lemma loop_unfold fuel c pending output : decompose_loop u (S fuel) (c :: pending) output =
  match parts c with None => decompose_loop u fuel pending (output ++ [c]) | Some ps => decompose_loop u fuel (ps ++ pending) output end.
Proof. unfold parts. cbn [decompose_loop]. destruct (is_syllable c); [reflexivity|]. destruct (decomposition u c); reflexivity. Qed.

Lemma loops_parts ps : Forall (fun p => exists out steps, decomposes p out /\ loops steps p out) ps ->
  exists outs steps, Forall2 decomposes ps outs /\ forall fuel pending output, decompose_loop u (steps + fuel) (ps ++ pending) output = decompose_loop u fuel pending (output ++ concat outs).
Proof.
  induction 1 as [|p ps (out & n & Hd & Hl) _ (outs & m & Hds & Hls)]; [exists [], 0%nat; split; [constructor|]; intros; cbn; rewrite app_nil_r; reflexivity|].
  exists (out :: outs), (n + m)%nat. split; [constructor; assumption|]. intros fuel pending output. rewrite <- Nat.add_assoc. cbn [app concat]. rewrite Hl, Hls, app_assoc. reflexivity.
Qed.

Lemma loops_exist : well_founded_tables -> forall c, exists out steps, decomposes c out /\ loops steps c out.
Proof.
  intros [rank Hr] c. induction c as [c IH] using (induction_ltof1 _ rank). unfold ltof in IH. destruct (parts c) as [ps|] eqn:Ep.
  - destruct (loops_parts ps) as (outs & n & Hds & Hls); [apply Forall_forall; intros p Hp; apply IH; exact (Hr c ps p Ep Hp)|].
    exists (concat outs), (S n). split; [eapply decomposes_parts; eassumption|]. intros fuel pending output. cbn [Nat.add]. rewrite loop_unfold, Ep. apply Hls.
  - exists [c], 1%nat. split; [constructor; exact Ep|]. intros fuel pending output. cbn [Nat.add]. rewrite loop_unfold, Ep. reflexivity.
Qed.

Lemma Forall2_unique {A B} (R : A -> B -> Prop) l : (forall a, a ∈ l -> forall x y, R a x -> R a y -> x = y) -> forall m n, Forall2 R l m -> Forall2 R l n -> m = n.
Proof.
  intros HR m n Hm. revert n. induction Hm as [|a x l m Ha Hm IH]; intros n Hn; inversion Hn as [|? y ? n' Hy Hn']; subst; [reflexivity|]. f_equal; [apply (HR a); [left|assumption..]|].
  apply IH; [|exact Hn']. intros b Hb. apply HR. right. exact Hb.
Qed.

Lemma decomposes_unique : well_founded_tables -> forall c x y, decomposes c x -> decomposes c y -> x = y.
Proof.
  intros [rank Hr] c. induction c as [c IH] using (induction_ltof1 _ rank). unfold ltof in IH. intros x y Hx Hy.
  inversion Hx as [? Ex|? ps outs Ex Ho]; subst; inversion Hy as [? Ey|? ps' outs' Ey Ho']; subst; try congruence. assert (ps' = ps) as -> by congruence.
  f_equal. eapply Forall2_unique; [|exact Ho|exact Ho']. intros p Hp. apply IH. exact (Hr c ps p Ex Hp).
Qed.

Lemma decompose_all_ends : well_founded_tables -> forall cps, exists outs limit, Forall2 decomposes cps outs /\
  forall fuel output, (limit <= fuel)%nat -> decompose_all u fuel cps output = Some (output ++ concat outs).
Proof.
  intros Hw. induction cps as [|c cps (outs & limit & Hds & Hls)]; [exists [], 0%nat; split; [constructor|]; intros; cbn; rewrite app_nil_r; reflexivity|].
  destruct (loops_exist Hw c) as (out & steps & Hd & Hl). exists (out :: outs), (steps + limit)%nat. split; [constructor; assumption|]. intros fuel output Hf. cbn [decompose_all concat].
  unfold appendDecomposed. replace fuel with (steps + (fuel - steps))%nat at 1 by lia. rewrite Hl. replace (decompose_loop u (fuel - steps) [] (output ++ out)) with (Some (output ++ out)) by (destruct (fuel - steps)%nat; reflexivity).
  rewrite Hls by lia. rewrite app_assoc. reflexivity.
Qed.

(** ** Canonical order *)

#[local] Abbreviation ccc := (combiningClass u).

(** No mark stands before a mark of a lower class. *)
Definition canonically_ordered (l : list Z) : Prop := forall i a b, l !! i = Some a -> l !! S i = Some b -> 0 < ccc b -> ccc a <= ccc b.

Lemma insert_mark_perm m l : Permutation (m :: l) (insert_mark u m l).
Proof.
  induction l as [|x l IH]; cbn [insert_mark]; [reflexivity|]. destruct (_ <? _); [|reflexivity]. etransitivity; [apply Permutation_swap|]. constructor. exact IH.
Qed.

Lemma sort_marks_perm l : Permutation l (sort_marks u l).
Proof. induction l as [|x l IH]; [constructor|]. cbn [sort_marks foldr]. etransitivity; [constructor; exact IH|]. apply insert_mark_perm. Qed.

(** Sorted by class. *)
Inductive class_sorted : list Z -> Prop :=
| class_nil : class_sorted []
| class_one a : class_sorted [a]
| class_cons a b l : ccc a <= ccc b -> class_sorted (b :: l) -> class_sorted (a :: b :: l).

Lemma insert_mark_sorted m l : class_sorted l -> class_sorted (insert_mark u m l).
Proof.
  induction 1 as [|a|a b l Hab Hs IH]; cbn [insert_mark]; [constructor| |].
  - destruct (Z.ltb_spec (ccc a) (ccc m)); constructor; try lia; constructor.
  - cbn [insert_mark] in IH. destruct (Z.ltb_spec (ccc a) (ccc m)) as [H|H]; [|constructor; [lia|]; constructor; assumption].
    destruct (Z.ltb_spec (ccc b) (ccc m)); (constructor; [lia|assumption]).
Qed.

Lemma sort_marks_sorted l : class_sorted (sort_marks u l).
Proof. induction l as [|x l IH]; [constructor|]. apply insert_mark_sorted, IH. Qed.

Lemma split_marks_spec l : l = fst (split_marks u l) ++ snd (split_marks u l) /\ match snd (split_marks u l) with c :: _ => ccc c = 0 | [] => True end.
Proof.
  induction l as [|c l [IH1 IH2]]; [split; [reflexivity|exact I]|]. cbn [split_marks]. destruct (Z.eqb_spec (ccc c) 0) as [E|E]; [split; [reflexivity|exact E]|].
  destruct (split_marks u l) as [marks rest]. cbn [fst snd app] in *. split; [f_equal; exact IH1|exact IH2].
Qed.

Lemma ordered_marks marks rest : class_sorted marks -> canonically_ordered rest -> match rest with c :: _ => ccc c = 0 | [] => True end -> canonically_ordered (marks ++ rest).
Proof.
  induction 1 as [|a|a b l Hab Hs IH]; intros Hr Hc; cbn [app]; [exact Hr| |].
  - intros [|i] x y Hx Hy Hpos; cbn in Hx, Hy; [|exact (Hr i x y Hx Hy Hpos)]. destruct rest as [|c rest]; [discriminate|]. injection Hy as <-. lia.
  - specialize (IH Hr Hc). intros [|i] x y Hx Hy Hpos; cbn in Hx, Hy; [|exact (IH i x y Hx Hy Hpos)]. congruence.
Qed.

Lemma ordered_starter c l : ccc c = 0 -> (forall d, 0 <= ccc d) -> canonically_ordered l -> canonically_ordered (c :: l).
Proof. intros Hc Hpos Hl [|i] x y Hx Hy H; cbn in Hx, Hy; [|exact (Hl i x y Hx Hy H)]. injection Hx as <-. specialize (Hpos y). lia. Qed.

Lemma reorder_head fuel l : match l with c :: _ => ccc c = 0 | [] => True end -> match reorder u fuel l with c :: _ => ccc c = 0 | [] => True end.
Proof.
  destruct fuel as [|fuel], l as [|c l]; cbn [reorder]; try tauto. intros E. rewrite (proj2 (Z.eqb_eq _ 0) E). destruct (split_marks u l). cbn [app]. exact E.
Qed.

Lemma reorder_spec : (forall d, 0 <= ccc d) -> forall fuel l, (length l <= fuel)%nat -> Permutation l (reorder u fuel l) /\ canonically_ordered (reorder u fuel l).
Proof.
  intros Hpos. induction fuel as [|fuel IH]; intros l Hl; [destruct l; [|cbn in Hl; lia]; split; [constructor|intros i a b H; discriminate]|].
  destruct l as [|c l]; [split; [constructor|intros i a b H; discriminate]|]. cbn [reorder]. cbn [length] in Hl.
  destruct (Z.eqb_spec (ccc c) 0) as [E|E].
  - destruct (split_marks_spec l) as [Es Eh]. destruct (split_marks u l) as [marks rest]. cbn [fst snd] in Es, Eh. cbn [app]. subst l. rewrite length_app in Hl.
    destruct (IH rest ltac:(lia)) as [Hp Ho]. split.
    + constructor. apply Permutation_app; [apply sort_marks_perm|exact Hp].
    + apply ordered_starter; [exact E|exact Hpos|]. apply ordered_marks; [apply sort_marks_sorted|exact Ho|apply reorder_head, Eh].
  - destruct (split_marks_spec (c :: l)) as [Es Eh]. cbn [split_marks] in *. rewrite (proj2 (Z.eqb_neq _ 0) E) in *. destruct (split_marks u l) as [marks rest]. cbn [fst snd app] in Es, Eh |- *.
    injection Es as Es. subst l. rewrite length_app in Hl. destruct (IH rest ltac:(lia)) as [Hp Ho]. split.
    + change (c :: marks ++ rest) with ((c :: marks) ++ rest). apply Permutation_app; [apply sort_marks_perm|exact Hp].
    + apply ordered_marks; [apply sort_marks_sorted|exact Ho|apply reorder_head, Eh].
Qed.
End Decompose.

Lemma class_nonnegative u c : Forall (fun e => is_byte (snd e)) (combiningClasses u) -> 0 <= combiningClass u c.
Proof.
  intros H. unfold combiningClass. destruct (_ !! _) as [[k v]|] eqn:E; [|lia]. destruct (k =? c); [|lia]. rewrite Forall_forall in H.
  apply list_elem_of_lookup_2 in E. specialize (H _ E). unfold is_byte in H. cbn in H. lia.
Qed.

(** ** Hangul *)

Lemma reorder_starters u l : Forall (fun c => combiningClass u c = 0) l -> forall fuel, reorder u fuel l = l.
Proof.
  induction 1 as [|c l Hc Hl IH]; intros [|fuel]; cbn [reorder]; try reflexivity. rewrite (proj2 (Z.eqb_eq _ 0) Hc).
  replace (split_marks u l) with (@nil Z, l); [cbn; rewrite IH; reflexivity|]. destruct Hl as [|d l Hd Hl]; [reflexivity|]. cbn [split_marks]. rewrite (proj2 (Z.eqb_eq _ 0) Hd). reflexivity.
Qed.

Lemma compose_two u a b : combiningClass u a = 0 -> composePair u a b <> 0 -> compose u [a; b] = [composePair u a b].
Proof.
  intros Ha Hab. unfold compose. cbn [foldl]. unfold compose_step at 2. cbn [starterPosition composed lastClass]. rewrite Ha. cbn [Z.eqb app length].
  unfold compose_step. cbn [starterPosition composed lastClass orb Z.eqb]. cbn. rewrite (proj2 (Z.eqb_neq _ 0) Hab). reflexivity.
Qed.

Lemma compose_three u a b c : combiningClass u a = 0 -> composePair u a b <> 0 -> composePair u (composePair u a b) c <> 0 -> compose u [a; b; c] = [composePair u (composePair u a b) c].
Proof.
  intros Ha Hab Habc. unfold compose. cbn [foldl]. unfold compose_step at 3. cbn [starterPosition composed lastClass]. rewrite Ha. cbn [Z.eqb app length].
  unfold compose_step at 2. cbn [starterPosition composed lastClass orb Z.eqb]. cbn. rewrite (proj2 (Z.eqb_neq _ 0) Hab). unfold compose_step. cbn. rewrite (proj2 (Z.eqb_neq _ 0) Habc). reflexivity.
Qed.

(** A syllable and the index it is made from. *)
Lemma syllable_index s : is_syllable s = true -> exists l v t, s = HangulSBase + (l * HangulVCount + v) * HangulTCount + t /\ 0 <= l < HangulLCount /\ 0 <= v < HangulVCount /\ 0 <= t < HangulTCount /\
  jamo s = [HangulLBase + l; HangulVBase + v] ++ (if t =? 0 then [] else [HangulTBase + t]).
Proof.
  unfold is_syllable, jamo, HangulSCount, HangulNCount. change (HangulVCount * HangulTCount) with 588. unfold HangulSBase, HangulLBase, HangulVBase, HangulTBase, HangulLCount, HangulVCount, HangulTCount.
  rewrite andb_true_iff, Z.leb_le, Z.ltb_lt. intros Hs. set (i := s - 44032). exists (i / 588), ((i mod 588) / 28), (i mod 28).
  pose proof (Z.div_mod i 588 ltac:(lia)) as H1. pose proof (Z.mod_pos_bound i 588 ltac:(lia)) as H2. pose proof (Z.div_mod (i mod 588) 28 ltac:(lia)) as H3. pose proof (Z.mod_pos_bound (i mod 588) 28 ltac:(lia)) as H4.
  assert (H5 : (i mod 588) mod 28 = i mod 28) by (change 588 with (28 * 21); rewrite Z.rem_mul_r by lia; rewrite Z.mul_comm, Z.mod_add, Z.mod_mod by lia; reflexivity).
  rewrite H5 in H3, H4. subst i. repeat split; try lia; try (apply Z.div_le_lower_bound; lia); try (apply Z.div_lt_upper_bound; lia).
Qed.

Lemma compose_jamo u s : is_syllable s = true -> (forall p, p ∈ jamo s -> combiningClass u p = 0) -> compose u (jamo s) = [s].
Proof.
  intros Hs Hc. destruct (syllable_index s Hs) as (l & v & t & -> & Hl & Hv & Ht & Ej). rewrite Ej in *.
  assert (Ha : combiningClass u (HangulLBase + l) = 0) by (apply Hc; left).
  assert (E1 : composePair u (HangulLBase + l) (HangulVBase + v) = HangulSBase + (l * HangulVCount + v) * HangulTCount).
  { unfold composePair. rewrite !(proj2 (Z.leb_le _ _)), !(proj2 (Z.ltb_lt _ _)) by lia. cbn [andb]. lia. }
  unfold HangulSBase, HangulLBase, HangulVBase, HangulTBase, HangulLCount, HangulVCount, HangulTCount in *. destruct (Z.eqb_spec t 0) as [Et|Nt]; cbn [app].
  - rewrite compose_two; [rewrite E1; f_equal; lia|exact Ha|lia].
  - assert (E2 : composePair u (44032 + (l * 21 + v) * 28) (4519 + t) = 44032 + (l * 21 + v) * 28 + t).
    { unfold composePair, HangulSCount, HangulNCount, HangulSBase, HangulLBase, HangulVBase, HangulTBase, HangulLCount, HangulVCount, HangulTCount.
      rewrite (proj2 (Z.ltb_ge (44032 + _) _)) by lia. rewrite andb_false_r. cbn [andb]. rewrite (proj2 (Z.leb_le 44032 _)) by lia. rewrite (proj2 (Z.ltb_lt (44032 + _) _)) by lia.
      replace ((44032 + (l * 21 + v) * 28 - 44032) mod 28) with 0 by (replace (44032 + (l * 21 + v) * 28 - 44032) with ((l * 21 + v) * 28) by lia; rewrite Z.mod_mul by lia; reflexivity).
      rewrite (proj2 (Z.ltb_lt 4519 _)), (proj2 (Z.ltb_lt (4519 + t) _)) by lia. cbn [andb Z.eqb]. lia. }
    rewrite compose_three; rewrite ?E1, ?E2; [reflexivity|exact Ha|lia..].
Qed.

(** ** Normalization and the check *)

(** The normal form of the decompositions [outs]. *)
Definition recomposed (u : UnicodeData) (outs : list (list Z)) : list Z := compose u (reorder u (length (concat outs)) (concat outs)).

Lemma nfkc_ends u cps : well_founded_tables u -> exists outs limit, Forall2 (decomposes u) cps outs /\ forall fuel, (limit <= fuel)%nat -> nfkc u fuel cps = Some (recomposed u outs).
Proof.
  intros Hw. destruct (decompose_all_ends u Hw cps) as (outs & limit & Hd & Hl). exists outs, limit. split; [exact Hd|]. intros fuel Hf. unfold nfkc. rewrite Hl by exact Hf. reflexivity.
Qed.


(** A Python identifier: its code points and their normal form. *)
Definition is_identifier (u : UnicodeData) (name : string) : Prop := exists front rest outs, lit name = encode_all (front :: rest) /\ Forall scalar (front :: rest) /\
  in_ranges (xidStartRanges u) front /\ Forall (in_ranges (xidContinueRanges u)) rest /\
  Forall2 (decomposes u) (front :: rest) outs /\ recomposed u outs = front :: rest.

Lemma lit_bytes name : Forall is_byte (lit name).
Proof.
  unfold lit. apply Forall_fmap, Forall_true. intros c. cbv beta delta [Basics.compose]. destruct c as [b0 b1 b2 b3 b4 b5 b6 b7].
  destruct b0, b1, b2, b3, b4, b5, b6, b7; split; vm_compute; congruence.
Qed.

Lemma forallb_Forall_iff {A} (f : A -> bool) (P : A -> Prop) l : (forall a, f a = true <-> P a) -> forallb f l = true <-> Forall P l.
Proof. intros H. rewrite forallb_forall, Forall_forall. setoid_rewrite <- list_elem_of_In. split; intros Hl a Ha; apply H, Hl, Ha. Qed.

(** The names that are refused although they are identifiers. *)
Definition reserved_name (bindingName : bool) (name : string) : Prop := name ∈ ["None"; "True"; "False"] \/ bindingName = true /\ name = "__debug__".


(** ** Concrete tables: letters, digits, one accented letter with its marks *)

Module IdentifierWitness.

Definition sample : UnicodeData := mkUnicode
  [(65, 90); (95, 95); (97, 122); (233, 233)] [(48, 57); (65, 90); (95, 95); (97, 122); (233, 233); (768, 879)]
  [mkDecomposition 233 0 2] [101; 769] [(769, 230); (803, 220)] [mkComposition 101 769 233].

Ltac check_sorted := intros i j x y Hi Hj Hij; do 7 (try destruct i as [|i]); try discriminate Hi; do 7 (try destruct j as [|j]); try discriminate Hj; try lia;
  injection Hi as <-; injection Hj as <-; cbn; lia.

Lemma sample_tables_ok : tables_ok sample.
Proof.
  split; [repeat (apply Forall_cons; split; [cbv; split; congruence|]); apply Forall_nil_2|]. split; [|split; [|split; [check_sorted|split; check_sorted]]].
  all: split; [repeat (apply Forall_cons; split; [cbn; lia|]); apply Forall_nil_2|check_sorted].
Qed.

Lemma sample_mapping c : c <> 233 -> decomposition sample c = None.
Proof. intros Hc. rewrite decomposition_exact by apply sample_tables_ok. cbn [sample decompositions List.find d_codepoint]. destruct (Z.eqb_spec 233 c); [congruence|reflexivity]. Qed.

Lemma sample_well_founded : well_founded_tables sample.
Proof.
  exists (fun c => if is_syllable c || (c =? 233) then 1%nat else 0%nat). intros c ps p Hp Hin. unfold parts in Hp. destruct (is_syllable c) eqn:Es; cbn [orb].
  - injection Hp as <-. destruct (syllable_index c Es) as (l & v & t & _ & Hl & Hv & Ht & Hj). rewrite Hj in Hin.
    unfold HangulLBase, HangulVBase, HangulTBase in Hin. unfold HangulLCount in Hl. unfold HangulVCount in Hv. unfold HangulTCount in Ht.
    assert (H : 4352 <= p < 4700) by (destruct (t =? 0); set_unfold in Hin; lia).
    unfold is_syllable, HangulSBase. destruct (Z.leb_spec 44032 p); [lia|]. destruct (Z.eqb_spec p 233); [lia|]. cbn. lia.
  - destruct (Z.eqb_spec c 233) as [->|Hc]; [|rewrite sample_mapping in Hp by exact Hc; discriminate]. vm_compute in Hp. injection Hp as <-.
    apply list_elem_of_In in Hin. cbn [In] in Hin. destruct Hin as [<-|[<-|[]]]; cbn; lia.
Qed.



Example accepted : verifyPythonAstIdentifier sample 8 "Value_1" true = Some (success tt).
Proof. reflexivity. Qed.

Example recomposed_accent : nfkc sample 8 [101; 803; 769; 233] = Some [233; 803; 233] /\ nfkc sample 8 [101; 769; 803] = Some [233; 803] /\ nfkc sample 8 [101; 769] = Some [233].
Proof. split; [|split]; reflexivity. Qed.

Example refused : verifyPythonAstIdentifier sample 8 "1a" false = Some (failure "Python AST identifier does not start with XID_Start").
Proof. reflexivity. Qed.

End IdentifierWitness.
