(* ===== verification/PythonForms.v ===== *)
(** * Callables, enums and matches of the source
      ([PythonImportEnumSyntax.cpp], [PythonImportCaseSyntax.cpp])

    The importer reads the syntax of a rule or method, of an enum and of a
    match statement before anything is typed.  The nodes are those of a capture
    that was checked, so that the arrays and children read here are there
    ([captured_tree_shape]).  The answers of the importer to lexical queries are
    a function; the Unicode tables of identifiers are an argument. *)

From Stdlib Require Import ZArith Lia String Ascii.
From stdpp Require Import base list numbers strings.
From S2P Require Import Prelude ModelInput ConfigSpec CompilerPrelude ApInt ValueSemantics StaticValues PythonAst PythonSyntax SourceIdentifier.

Open Scope string_scope.
Open Scope list_scope.
Open Scope Z_scope.

(** ** Aliases of fixed width *)

(** [getAsInteger(10, width)] for an [unsigned]. *)
Definition getAsUnsigned (text : list Z) : option Z :=
  if negb (bool_decide (text = [])) && forallb is_digit text && (decimal text <? 2 ^ 32) then Some (decimal text) else None.

(** [consume_front] of a character. *)
Definition consume_char (c : Ascii.ascii) (s : string) : option string :=
  match s with String a rest => if Ascii.eqb a c then Some rest else None | EmptyString => None end.

Definition fixedBitsAliasWidth (module remoteName : string) : option Z :=
  if negb (bool_decide (module = "pycircuit")) then None
  else
    match consume_char "u"%char remoteName with
    | None => None
    | Some rest =>
      match getAsUnsigned (lit rest) with
      | None => None
      | Some width => if (width =? 0) || (64 <? width) || negb (bool_decide (lit rest = spell width)) then None else Some width
      end
    end.

(** ** Callables *)

Definition LexicalBindings : Type := option (AstNode -> option ResolvedSourceBinding).

(** The query of a marker without the state of the importer. *)
Definition resolves_marker (bindings : LexicalBindings) (node : AstNode) (wanted : MarkerKind) : bool :=
  default false (fst (resolvesMarker (S := unit) ((fun f n s => (f n, s)) <$> bindings) node wanted tt)).

Definition resolve (bindings : LexicalBindings) (node : AstNode) : option ResolvedSourceBinding :=
  match bindings with Some f => if present node then f node else None | None => None end.

Record CapturedCallableSyntax := mkCallable { callable_kind : MarkerKind; callable_guard : AstNode; callable_after : AstNode }.

Definition is_field (name : string) (s : AstStep) : bool := bool_decide (step_field s = name) && negb (bool_decide (is_Some (step_index s))).
Definition is_index (s : AstStep) : bool := bool_decide (is_Some (step_index s)).

(** A rule in the body of a module of the file. *)
Definition local_rule (m : MarkerKind) (declaration : AstNode) : bool :=
  bool_decide (m = MarkerRule) &&
  match node_path declaration with [a; i; b; j] => is_field "body" a && is_index i && is_field "body" b && is_index j | _ => false end.

Definition no_array (n : AstNode) (name : string) : bool := Nat.eqb (size_of (array n name)) 0.

(** The keywords of the decorator. *)
Fixpoint decorator_guard (keywords : list AstNode) (guard : AstNode) : FailureOr AstNode :=
  match keywords with
  | [] => success guard
  | keyword :: rest =>
    let name := string_of keyword "arg" in
    if bool_decide (name = "guard") && negb (present guard) then decorator_guard rest (child keyword "value")
    else if bool_decide (name = "after") then failure "source after is retired; independent Rules read current state"
    else failure "duplicate or unsupported Rule/Method decorator option"
  end.

Definition required_formals (arguments : AstNode) : bool :=
  present arguments && no_array arguments "posonlyargs" && no_array arguments "kwonlyargs" && no_array arguments "defaults" &&
  negb (present (child arguments "vararg")) && negb (present (child arguments "kwarg")).

Definition bound_formals (localRule : bool) (formals : AstNode) : bool :=
  localRule && no_array formals "posonlyargs" && no_array formals "kwonlyargs" && negb (present (child formals "vararg")) && negb (present (child formals "kwarg")) &&
  Nat.eqb (size_of (array formals "defaults")) (size_of (array formals "args")).

Fixpoint same_names (formals guards : list AstNode) : bool :=
  match formals, guards with
  | a :: formals, b :: guards => bool_decide (string_of a "arg" = string_of b "arg") && same_names formals guards
  | _, _ => true
  end.

Definition readCallableSyntax (declaration : AstNode) (bindings : LexicalBindings) : FailureOr CapturedCallableSyntax :=
  if negb (is_kind declaration "FunctionDef") || negb (Nat.eqb (size_of (array declaration "decorator_list")) 1) then failure "Rule/Method requires one bound decorator"
  else
    let decorator := item declaration "decorator_list" 0 in
    let target := if is_kind decorator "Call" then child decorator "func" else decorator in
    let m := match resolve bindings target with
             | Some r => if bool_decide (is_Some (nominalSymbol r)) then MarkerNone else marker r
             | None => MarkerNone
             end in
    if negb (bool_decide (m = MarkerRule)) && negb (bool_decide (m = MarkerMethod)) then failure "callable decorator must resolve to pycircuit rule or method"
    else
      let localRule := local_rule m declaration in
      let formals := child declaration "args" in
      if negb localRule && negb (no_array formals "defaults") then failure "only autonomous local Rules accept hardware default bindings"
      else if negb (is_kind decorator "Call") then success (mkCallable m no_node no_node)
      else if negb (no_array decorator "args") || no_array decorator "keywords" then failure "Rule/Method decorator accepts guard=lambda"
      else
        let! guard := decorator_guard (items decorator "keywords") no_node in
        if negb (present guard) then success (mkCallable m guard no_node)
        else if negb (is_kind guard "Lambda") then failure "Rule/Method guard requires a lambda"
        else
          let guardFormals := child guard "args" in
          if (negb (required_formals formals) && negb (bound_formals localRule formals)) || negb (required_formals guardFormals) ||
             negb (Nat.eqb (size_of (array formals "args")) (size_of (array guardFormals "args")))
          then failure "guard lambda requires the callable's exact required positional parameters"
          else if negb (same_names (items formals "args") (items guardFormals "args")) then failure "guard lambda parameter names and order must match the callable"
          else success (mkCallable m guard no_node).

Definition resolveNominalType (node : AstNode) (bindings : LexicalBindings) : FailureOr string :=
  match resolve bindings node with
  | Some (mkResolved MarkerNone (Some symbol)) => success symbol
  | _ => failure "type syntax requires a bound nominal declaration"
  end.

(** ** Enums *)

Record CapturedEnumMemberSyntax := mkMember { member_declaration : AstNode; member_name : string; member_value : AstNode; automatic : bool }.
Record CapturedEnumSyntax := mkEnum { enum_declaration : AstNode; enum_width : AstNode; encoding : string; members : list CapturedEnumMemberSyntax }.

Definition encoding_kinds : list string := ["explicit"; "binary_sequential"; "binary_one_hot"; "gray_sequential"].

(** The value of a literal string. *)
Definition literal_string (value : AstNode) : option string :=
  if is_kind value "Constant" then match get value "value" with Some (StringAttribute s) => Some s | _ => None end else None.

(** The width and the encoding after the keywords; [seen] are their names. *)
Fixpoint encoding_keywords (keywords : list AstNode) (seen : list string) (width : AstNode) (enc : string) : FailureOr (AstNode * string) :=
  match keywords with
  | [] => success (width, enc)
  | keyword :: rest =>
    let name := string_of keyword "arg" in
    if bool_decide (name = "") || bool_decide (name ∈ seen) then failure "encoding requires distinct named keywords"
    else if bool_decide (name = "width") then encoding_keywords rest (name :: seen) (child keyword "value") enc
    else if bool_decide (name = "kind") then
      match literal_string (child keyword "value") with
      | Some k => encoding_keywords rest (name :: seen) width k
      | None => failure "encoding kind requires a literal string"
      end
    else failure ("unsupported encoding keyword '" +:+ name +:+ "'")
  end.

Fixpoint string_ends (c : Ascii.ascii) (s : string) : bool :=
  match s with EmptyString => false | String a EmptyString => Ascii.eqb a c | String _ rest => string_ends c rest end.
Definition string_starts (c : Ascii.ascii) (s : string) : bool := match s with String a _ => Ascii.eqb a c | EmptyString => false end.

(** Names that customize the construction of the class. *)
Definition construction_hook (name : string) : bool := (2 <? String.length name)%nat && string_starts "_"%char name && string_ends "_"%char name.

Section Enums.
Variable u : UnicodeData.
Variable fuel : nat.
Variable bindings : LexicalBindings.

(** A check of a name that succeeds. *)
Definition valid_identifier (name : string) : bool := bool_decide (verifyPythonAstIdentifier u fuel name true = Some (inr tt)).

Definition docstring (statement : AstNode) : bool :=
  let expression := if is_kind statement "Expr" then child statement "value" else no_node in
  is_kind expression "Constant" && match get expression "value" with Some (StringAttribute _) => true | _ => false end.

(** One statement of the body. *)
Definition read_member (enc : string) (seen : list string) (statement : AstNode) : FailureOr CapturedEnumMemberSyntax :=
  if negb (is_kind statement "Assign") || negb (Nat.eqb (size_of (array statement "targets")) 1) || negb (is_kind (item statement "targets" 0) "Name")
  then failure "enum body requires single-name member assignments; methods and construction hooks are unsupported"
  else
    let name := string_of (item statement "targets" 0) "id" in
    if negb (valid_identifier name) || bool_decide (name ∈ seen) then failure "enum member names must be valid and unique"
    else if construction_hook name then failure "enum construction hooks are unsupported"
    else
      let value := child statement "value" in
      let auto := is_kind value "Call" && resolves_marker bindings (child value "func") MarkerAuto in
      if auto && (negb (no_array value "args") || negb (no_array value "keywords")) then failure "enum auto requires an argument-free call"
      else if (bool_decide (enc = "explicit") && auto) || (negb (bool_decide (enc = "explicit")) && negb auto)
      then failure "explicit enum requires Integer expressions; derived encoding requires uniformly bound auto()"
      else success (mkMember statement name value auto).

(** The statements from the [i]th on. *)
Fixpoint read_members (enc : string) (statements : list AstNode) (i : nat) (seen : list string) : FailureOr (list CapturedEnumMemberSyntax) :=
  match statements with
  | [] => success []
  | statement :: rest =>
    if Nat.eqb i 0 && docstring statement then read_members enc rest (S i) seen
    else
      let! m := read_member enc seen statement in
      let! more := read_members enc rest (S i) (member_name m :: seen) in
      success (m :: more)
  end.

Definition readEnumSyntax (declaration : AstNode) : FailureOr CapturedEnumSyntax :=
  if negb (is_kind declaration "ClassDef") || negb (valid_identifier (string_of declaration "name")) then failure "enum requires a named class declaration"
  else if negb (Nat.eqb (size_of (array declaration "bases")) 1) || negb (resolves_marker bindings (item declaration "bases" 0) MarkerEnum) ||
          negb (no_array declaration "keywords") || negb (no_array declaration "type_params")
  then failure "enum requires one bound Enum base, no mixins, metaclass or type parameters"
  else if negb (Nat.eqb (size_of (array declaration "decorator_list")) 1) then failure "enum requires exactly one encoding decorator"
  else
    let decorator := item declaration "decorator_list" 0 in
    if negb (is_kind decorator "Call") || negb (resolves_marker bindings (child decorator "func") MarkerEncoding) || negb (no_array decorator "args")
    then failure "enum requires a bound encoding decorator with keyword arguments"
    else
      let! options := encoding_keywords (items decorator "keywords") [] no_node "explicit" in
      if negb (present (fst options)) then failure "encoding requires an explicit width"
      else if negb (bool_decide (snd options ∈ encoding_kinds)) then failure "unknown enum encoding kind"
      else
        let! ms := read_members (snd options) (items declaration "body") 0 [] in
        if bool_decide (length ms = 0%nat) then failure "enum requires at least one member"
        else success (mkEnum declaration (fst options) (snd options) ms).
End Enums.

(** ** Matches *)

(** A diagnostic at a node, or a value. *)
Definition Located (A : Type) : Type := (AstNode * string) + A.

Definition integerLiteral (n : AstNode) : bool :=
  is_kind n "Constant" && match get n "value" with Some (Dictionary d) => encoded_integer d | _ => false end.

Definition qualifiedAttribute (n : AstNode) : bool :=
  walk (fun self n (_ : unit) =>
    if negb (is_kind n "Attribute") then false
    else let base := child n "value" in is_kind base "Name" || self base tt) (fun _ => false) n tt.

Definition match_key (value : AstNode) : bool :=
  let negativeInteger := is_kind value "UnaryOp" && is_kind (child value "op") "USub" && integerLiteral (child value "operand") in
  integerLiteral value || negativeInteger || qualifiedAttribute value.

(** Neither a pattern nor a name. *)
Definition wildcard (pattern : AstNode) : bool := is_unit (get pattern "pattern") && is_unit (get pattern "name").

Fixpoint fold_located {A B} (f : A -> B -> Located B) (l : list A) (b : B) : Located B :=
  match l with [] => inr b | a :: rest => match f a b with inl e => inl e | inr b => fold_located f rest b end end.

Definition flatten_body (self : AstNode -> list AstNode -> Located (list AstNode)) (pattern : AstNode) (atoms : list AstNode) : Located (list AstNode) :=
  let form := kind pattern in
  if bool_decide (form = "MatchOr") then
    if (size_of (array pattern "patterns") <? 2)%nat then inl (pattern, "match OR pattern requires at least two alternatives")
    else fold_located self (items pattern "patterns") atoms
  else if bool_decide (form = "MatchValue") then
    if match_key (child pattern "value") then inr (atoms ++ [pattern]) else inl (pattern, "match key requires an Integer literal or qualified Enum member")
  else if bool_decide (form = "MatchSingleton") then
    match get pattern "value" with Some (Boolean _) => inr (atoms ++ [pattern]) | _ => inl (pattern, "match singleton key requires True or False") end
  else if bool_decide (form = "MatchAs") then
    inl (pattern, if wildcard pattern then "match catch-all must be a final standalone arm outside OR" else "match capture/as patterns are unsupported; use a qualified member")
  else inl (pattern, "unsupported match pattern '" +:+ form +:+ "'").

Definition flattenPattern : AstNode -> list AstNode -> Located (list AstNode) := walk flatten_body (fun atoms => inr atoms).

Record CapturedMatchArmSyntax := mkArm { originalSite : AstNode; atoms : list AstNode; catchAll : bool }.

(** The [cases] from the [i]th of [count] on. *)
Fixpoint read_arms (count : nat) (cases : list AstNode) (i : nat) : Located (list CapturedMatchArmSyntax) :=
  match cases with
  | [] => inr []
  | arm :: rest =>
    if negb (is_unit (get arm "guard")) then inl (child arm "guard", "match guards are unsupported")
    else
      let pattern := child arm "pattern" in
      let all := is_kind pattern "MatchAs" && wildcard pattern in
      let syntax := if all then if Nat.eqb (i + 1) count then inr [] else inl (pattern, "match catch-all must be the final arm") else flattenPattern pattern [] in
      match syntax with
      | inl e => inl e
      | inr found => match read_arms count rest (S i) with inl e => inl e | inr arms => inr (mkArm arm found all :: arms) end
      end
  end.

Definition readMatchSyntax (statement : AstNode) : Located (list CapturedMatchArmSyntax) :=
  if negb (is_kind statement "Match") then inl (statement, "match syntax requires a Match statement")
  else read_arms (size_of (array statement "cases")) (items statement "cases") 0.
