(* ===== verification/PythonFormsSpec.v ===== *)
(** * What is read of matches, enums and callables

    A match statement is read exactly, and the arms that are read select what
    Python selects.  Enums and callables that are accepted have the names,
    options and parameters that the rest of the compiler relies on. *)

From Stdlib Require Import ZArith Lia String Ascii.
From stdpp Require Import base list numbers strings.
From S2P Require Import Prelude ModelInput ConfigSpec CompilerPrelude ApInt ValueSemantics StaticValues PythonAst PythonAstSpec PythonSyntax SourceIdentifier SourceIdentifierSpec PythonForms.

Open Scope string_scope.
Open Scope list_scope.
Open Scope Z_scope.

(** ** Keys of a match *)

Lemma has_kind_iff n k : is_kind n k = true <-> kind n = k.
Proof. apply bool_decide_eq_true. Qed.

Definition integer_text (v : AstNode) : Prop := kind v = "Constant" /\ exists digits, get v "value" = Some (Dictionary [("integer", StringAttribute digits)]).

Lemma encoded_integer_iff d : encoded_integer d = true <-> exists digits, d = [("integer", StringAttribute digits)].
Proof.
  unfold encoded_integer. rewrite andb_true_iff, Nat.eqb_eq, bool_decide_eq_true. split; [|intros [digits ->]; split; [reflexivity|vm_compute; eauto]].
  intros [Hl [digits Hs]]. destruct d as [|[name a] [|]]; try discriminate Hl. unfold get_string in Hs. cbn in Hs.
  destruct (decide _) as [E|]; [|discriminate Hs]. destruct a; try discriminate Hs. injection Hs as ->. exists digits. congruence.
Qed.

Lemma integerLiteral_iff v : integerLiteral v = true <-> integer_text v.
Proof.
  unfold integerLiteral, integer_text. rewrite andb_true_iff, has_kind_iff. apply and_iff_compat_l. destruct (get v "value") as [[]|]; try (split; [discriminate|intros [? [=]]]).
  rewrite encoded_integer_iff. split; intros [digits E]; exists digits; congruence.
Qed.

(** A dotted name. *)
Inductive qualified : AstNode -> Prop :=
| qualified_name n : kind n = "Attribute" -> kind (child n "value") = "Name" -> qualified n
| qualified_attribute n : kind n = "Attribute" -> qualified (child n "value") -> qualified n.

Lemma qualified_unfold n : qualifiedAttribute n = is_kind n "Attribute" && (is_kind (child n "value") "Name" || qualifiedAttribute (child n "value")).
Proof.
  unfold qualifiedAttribute. etransitivity; [apply walk_unfold|destruct (is_kind n "Attribute"); reflexivity]. intros f g m H []. destruct (is_kind m "Attribute") eqn:E; [|reflexivity].
  cbn [negb]. rewrite H; [reflexivity|]. apply child_below. eapply is_kind_present; [exact E|discriminate].
Qed.

Lemma qualified_iff n : qualifiedAttribute n = true <-> qualified n.
Proof.
  split.
  - induction n as [n IH] using (induction_ltof1 _ node_height). unfold ltof in IH. rewrite qualified_unfold, andb_true_iff, orb_true_iff, !has_kind_iff. intros [Hk [Hn|Hq]].
    + apply qualified_name; assumption.
    + apply qualified_attribute; [exact Hk|]. apply IH; [|exact Hq]. apply child_below. eapply kind_present; [exact Hk|discriminate].
  - induction 1 as [n Hk Hn|n Hk _ IH]; rewrite qualified_unfold, andb_true_iff, orb_true_iff, !has_kind_iff; auto.
Qed.

Definition key (v : AstNode) : Prop :=
  integer_text v \/ (kind v = "UnaryOp" /\ kind (child v "op") = "USub" /\ integer_text (child v "operand")) \/ qualified v.

Lemma match_key_iff v : match_key v = true <-> key v.
Proof. unfold match_key, key. rewrite !orb_true_iff, !andb_true_iff, !has_kind_iff, !integerLiteral_iff, qualified_iff. tauto. Qed.

(** ** Patterns *)

(** The alternatives of a pattern, from left to right. *)
Inductive alternatives : AstNode -> list AstNode -> Prop :=
| alternatives_value p : kind p = "MatchValue" -> key (child p "value") -> alternatives p [p]
| alternatives_singleton p b : kind p = "MatchSingleton" -> get p "value" = Some (Boolean b) -> alternatives p [p]
| alternatives_or p outs : kind p = "MatchOr" -> (2 <= size_of (array p "patterns"))%nat -> Forall2 alternatives (items p "patterns") outs -> alternatives p (concat outs).

Lemma fold_located_ext {A B} (f g : A -> B -> Located B) l : (forall a b, a ∈ l -> f a b = g a b) -> forall b, fold_located f l b = fold_located g l b.
Proof.
  induction l as [|a l IH]; intros H b; [reflexivity|]. cbn [fold_located]. rewrite (H a b) by left. destruct (g a b) as [|b']; [reflexivity|]. apply IH. intros a' b'' Ha. apply H. right. exact Ha.
Qed.

Lemma flatten_unfold pattern l : flattenPattern pattern l = flatten_body flattenPattern pattern l.
Proof.
  unfold flattenPattern. apply walk_unfold. intros f g n H x. unfold flatten_body. case_bool_decide; [|reflexivity]. destruct (_ <? 2)%nat; [reflexivity|].
  apply fold_located_ext. intros a b Ha. apply H. eapply items_below, Ha.
Qed.

Lemma fold_flatten l : Forall (fun p => forall acc r, flattenPattern p acc = inr r <-> exists out, alternatives p out /\ r = acc ++ out) l ->
  forall acc r, fold_located flattenPattern l acc = inr r <-> exists outs, Forall2 alternatives l outs /\ r = acc ++ concat outs.
Proof.
  induction 1 as [|p l Hp _ IH]; intros acc r; cbn [fold_located].
  - split; [intros [= <-]; exists []; split; [constructor|cbn; rewrite app_nil_r; reflexivity]|]. intros (outs & Ho & ->). inversion Ho. cbn. rewrite app_nil_r. reflexivity.
  - split.
    + destruct (flattenPattern p acc) as [|acc'] eqn:E; [discriminate|]. apply Hp in E as (out & Ha & ->). rewrite IH. intros (outs & Ho & ->).
      exists (out :: outs). split; [constructor; assumption|]. cbn [concat]. rewrite app_assoc. reflexivity.
    + intros (outs & Ho & ->). inversion Ho as [|? out ? outs' Ha Hr]; subst. rewrite (proj2 (Hp acc (acc ++ out))) by eauto. apply IH. exists outs'. cbn [concat]. rewrite app_assoc. auto.
Qed.

Lemma flatten_exact p : forall acc r, flattenPattern p acc = inr r <-> exists out, alternatives p out /\ r = acc ++ out.
Proof.
  induction p as [p IH] using (induction_ltof1 _ node_height). unfold ltof in IH. intros acc r. rewrite flatten_unfold. unfold flatten_body.
  assert (Hitems : Forall (fun q => forall acc r, flattenPattern q acc = inr r <-> exists out, alternatives q out /\ r = acc ++ out) (items p "patterns")).
  { apply Forall_forall. intros q Hq. apply IH. eapply items_below, Hq. }
  repeat case_bool_decide; [destruct (Nat.ltb_spec (size_of (array p "patterns")) 2) as [Hn|Hn]|destruct (match_key (child p "value")) eqn:Ek|destruct (get p "value") as [[]|] eqn:Eg| |].
  all: try (split; [discriminate|]; intros (out & Ha & ->); exfalso; inversion Ha as [? ? Hk|? ? ? ?|? ? ? ?]; subst; first [apply match_key_iff in Hk|idtac]; congruence || lia).
  - rewrite (fold_flatten _ Hitems). split; [intros (outs & Ho & ->); exists (concat outs); split; [constructor; assumption|reflexivity]|].
    intros (out & Ha & ->). inversion Ha; subst; try congruence. eauto.
  - apply match_key_iff in Ek. split; [intros [= <-]; exists [p]; split; [constructor; assumption|reflexivity]|]. intros (out & Ha & ->). inversion Ha; subst; congruence.
  - split; [intros [= <-]; exists [p]; split; [eapply alternatives_singleton; eassumption|reflexivity]|]. intros (out & Ha & ->). inversion Ha; subst; congruence.
Qed.

(** ** Statements *)

(** What a case is read as. *)
Definition arm_of (case : AstNode) (a : CapturedMatchArmSyntax) : Prop :=
  let p := child case "pattern" in
  get case "guard" = Some UnitAttribute /\ originalSite a = case /\
  if catchAll a then kind p = "MatchAs" /\ get p "pattern" = Some UnitAttribute /\ get p "name" = Some UnitAttribute /\ atoms a = []
  else alternatives p (atoms a).

Lemma is_unit_iff a : is_unit a = true <-> a = Some UnitAttribute.
Proof. destruct a as [[]|]; cbn; split; congruence. Qed.

Lemma catch_all_iff p : is_kind p "MatchAs" && wildcard p = true <-> kind p = "MatchAs" /\ get p "pattern" = Some UnitAttribute /\ get p "name" = Some UnitAttribute.
Proof. unfold wildcard. rewrite !andb_true_iff, has_kind_iff, !is_unit_iff. tauto. Qed.

Lemma alternatives_kind p out : alternatives p out -> kind p <> "MatchAs".
Proof. destruct 1; congruence. Qed.

(** Only the last arm catches everything. *)
Definition final_catch_all (arms : list CapturedMatchArmSyntax) : Prop := forall i a, arms !! i = Some a -> catchAll a = true -> S i = length arms.

Lemma read_arms_exact count cases : forall i arms, count = (i + length cases)%nat ->
  read_arms count cases i = inr arms <-> Forall2 arm_of cases arms /\ final_catch_all arms.
Proof.
  induction cases as [|case cases IH]; intros i arms Hc; cbn [read_arms length] in *.
  { split; [intros [= <-]; split; [constructor|intros j a H; discriminate]|]. intros [H _]. inversion H. reflexivity. }
  assert (Htail : forall a arms', final_catch_all (a :: arms') <-> (catchAll a = true -> arms' = []) /\ final_catch_all arms').
  { intros a arms'. split.
    - intros H. split; [intros Ha; specialize (H 0%nat a eq_refl Ha); destruct arms'; [reflexivity|discriminate]|]. intros j b Hj Hb. specialize (H (S j) b Hj Hb). cbn in H. lia.
    - intros [H1 H2] [|j] b Hj Hb; cbn in Hj; [injection Hj as <-; rewrite H1 by exact Hb; reflexivity|]. cbn. f_equal. exact (H2 j b Hj Hb). }
  specialize (fun arms => IH (S i) arms ltac:(lia)). destruct (is_unit (get case "guard")) eqn:Eg; cbn [negb].
  2: { split; [discriminate|]. intros [H _]. inversion H as [|? ? ? ? (Hg & _) _]; subst. apply is_unit_iff in Hg. congruence. }
  apply is_unit_iff in Eg. set (p := child case "pattern") in *. destruct (is_kind p "MatchAs" && wildcard p) eqn:Ew.
  - pose proof Ew as Hw. apply catch_all_iff in Hw. destruct (Nat.eqb_spec (i + 1) count) as [He|He].
    + assert (cases = []) as -> by (destruct cases; [reflexivity|cbn in *; lia]). cbn [read_arms]. split.
      * intros [= <-]. split; [repeat (constructor; try tauto)|]. apply Htail. split; [reflexivity|intros j b H; discriminate].
      * intros [H Hf]. inversion H as [|? a ? ? Ha Hr]; subst. inversion Hr; subst. destruct a as [site l []], Ha as (_ & Es & Ha); cbn in Es, Ha; [destruct Ha as (_ & _ & _ & ->); subst; reflexivity|].
        apply alternatives_kind in Ha. tauto.
    + split; [discriminate|]. intros [H Hf]. inversion H as [|? a ? ? Ha Hr]; subst. apply Htail in Hf as [Hf _]. destruct Ha as (_ & _ & Ha). destruct (catchAll a); [|apply alternatives_kind in Ha; tauto].
      rewrite Hf in Hr by reflexivity. inversion Hr; subst. cbn in He. lia.
  - assert (Hna : forall a, arm_of case a -> catchAll a = false).
    { intros a (_ & _ & Ha). destruct (catchAll a); [|reflexivity]. assert (is_kind p "MatchAs" && wildcard p = true) by (apply catch_all_iff; tauto). congruence. }
    split.
    + destruct (flattenPattern p []) as [|found] eqn:Ef; [discriminate|]. apply flatten_exact in Ef as (out & Ha & ->). destruct (read_arms count cases (S i)) as [|more] eqn:Er; [discriminate|].
      intros [= <-]. destruct (proj1 (IH more) eq_refl) as [H1 H2]. split; [constructor; [|exact H1]; repeat split; assumption|]. apply Htail. split; [discriminate|exact H2].
    + intros [H Hf]. inversion H as [|? a ? more Ha Hr]; subst. pose proof (Hna a Ha) as Hca. destruct a as [site l c]. cbn in Hca. subst c. destruct Ha as (_ & Es & Ha). cbn in Es, Ha. subst site.
      rewrite (proj2 (flatten_exact p [] l)) by eauto. apply Htail in Hf as [_ Hf]. rewrite (proj2 (IH more)) by auto. reflexivity.
Qed.

(** ** What a match selects *)

Section Selection.
(** Whether the subject is the key of a pattern, and the guards that hold. *)
Variable holds truth : AstNode -> Prop.

(** Python's rules for patterns. *)
Inductive py_matches : AstNode -> Prop :=
| py_key p : kind p = "MatchValue" \/ kind p = "MatchSingleton" -> holds p -> py_matches p
| py_or p q : kind p = "MatchOr" -> q ∈ items p "patterns" -> py_matches q -> py_matches p
| py_capture p : kind p = "MatchAs" -> get p "pattern" = Some UnitAttribute -> py_matches p
| py_as p : kind p = "MatchAs" -> present (child p "pattern") = true -> py_matches (child p "pattern") -> py_matches p.

Definition py_accepts (case : AstNode) : Prop := py_matches (child case "pattern") /\ (get case "guard" = Some UnitAttribute \/ truth (child case "guard")).

(** The first case that accepts. *)
Definition first_that {A} (P : A -> Prop) (l : list A) (i : nat) : Prop := (exists a, l !! i = Some a /\ P a) /\ forall j b, (j < i)%nat -> l !! j = Some b -> ~ P b.

Definition arm_accepts (a : CapturedMatchArmSyntax) : Prop := catchAll a = true \/ Exists holds (atoms a).

Lemma alternatives_match p : forall out, alternatives p out -> py_matches p <-> Exists holds out.
Proof.
  induction p as [p IH] using (induction_ltof1 _ node_height). unfold ltof in IH. intros out Ha. assert (Hone : kind p = "MatchValue" \/ kind p = "MatchSingleton" -> py_matches p <-> Exists holds [p]).
  { intros Hk. rewrite Exists_cons, Exists_nil. split; [|intros [H|[]]; constructor; assumption]. inversion 1; subst; [auto|..]; destruct Hk; congruence. }
  inversion Ha as [q Hk Hv|q b Hk Hb|q outs Hk Hn Ho]; subst; [apply Hone; auto|apply Hone; auto|].
  assert (Hor : py_matches p <-> Exists py_matches (items p "patterns")).
  { rewrite Exists_exists. split; [|intros (q & Hq & Hm); eapply py_or; eassumption]. intros Hm. inversion Hm as [? [|] ?|? ? ? ? ?|? ? ?|? ? ? ?]; subst; try congruence. eauto. }
  rewrite Hor. clear Hor Hone Ha. assert (Hb : forall q, q ∈ items p "patterns" -> (node_height q < node_height p)%nat) by (intros q Hq; eapply items_below, Hq).
  induction Ho as [|q out qs outs Hq Hqs IHo]; [cbn; rewrite !Exists_nil; tauto|]. cbn [concat]. rewrite Exists_cons, Exists_app, (IH q (Hb q ltac:(left)) out Hq), IHo; [tauto|].
  intros q' Hq'. apply Hb. right. exact Hq'.
Qed.

Lemma arm_accepts_iff case a : arm_of case a -> py_accepts case <-> arm_accepts a.
Proof.
  intros (Hg & _ & Ha). unfold py_accepts, arm_accepts. destruct (catchAll a).
  - destruct Ha as (Hk & Hp & _). split; [auto|]. intros _. split; [apply py_capture; assumption|auto].
  - rewrite (alternatives_match _ _ Ha). split; [intros [H _]; auto|]. intros [[=]|H]. auto.
Qed.

Lemma first_that_Forall2 {A B} (R : A -> B -> Prop) (P : A -> Prop) (Q : B -> Prop) l m : (forall a b, R a b -> P a <-> Q b) -> Forall2 R l m -> forall i, first_that P l i <-> first_that Q m i.
Proof.
  intros HR H i. unfold first_that. split; intros [(a & Ha & Hp) Hj]; (split; [|intros j b Hlt Hb]).
  - destruct (Forall2_lookup_l _ _ _ _ _ H Ha) as (b & Hb & Hr). exists b. split; [exact Hb|]. apply (HR a b Hr), Hp.
  - destruct (Forall2_lookup_r _ _ _ _ _ H Hb) as (a' & Ha' & Hr). rewrite <- (HR a' b Hr). exact (Hj j a' Hlt Ha').
  - destruct (Forall2_lookup_r _ _ _ _ _ H Ha) as (b & Hb & Hr). exists b. split; [exact Hb|]. apply (HR b a Hr), Hp.
  - destruct (Forall2_lookup_l _ _ _ _ _ H Hb) as (a' & Ha' & Hr). rewrite (HR b a' Hr). exact (Hj j a' Hlt Ha').
Qed.
End Selection.

(** C26: a match statement is read exactly and keeps its meaning.  It is
    accepted exactly when no case has a guard, every case but possibly the last
    is an alternative of keys (integer literals, dotted names, booleans) and
    the last may be the wildcard; the arms are then the cases in order with
    their keys in order.  For every subject, the first arm with a key that the
    subject equals is the case that Python selects. *)
Theorem match_syntax_exact statement arms :
  (readMatchSyntax statement = inr arms <-> kind statement = "Match" /\ Forall2 arm_of (items statement "cases") arms /\ final_catch_all arms) /\
  (readMatchSyntax statement = inr arms -> forall holds truth i,
    first_that (py_accepts holds truth) (items statement "cases") i <-> first_that (arm_accepts holds) arms i).
Proof.
  assert (H : readMatchSyntax statement = inr arms <-> kind statement = "Match" /\ Forall2 arm_of (items statement "cases") arms /\ final_catch_all arms).
  { unfold readMatchSyntax. rewrite <- has_kind_iff. destruct (is_kind statement "Match"); cbn [negb]; [|split; [discriminate|intros [[=] _]]].
    rewrite read_arms_exact; [tauto|]. unfold items. rewrite length_fmap, length_seq. reflexivity. }
  split; [exact H|]. intros E holds truth i. apply H in E as (_ & Hf & _). eapply first_that_Forall2; [|exact Hf]. apply arm_accepts_iff.
Qed.

(** ** Enums *)

(** The name is bound to a marker of the library. *)
Definition bound_to (bindings : LexicalBindings) (n : AstNode) (m : MarkerKind) : Prop := exists f, bindings = Some f /\ present n = true /\ f n = Some (mkResolved m None).

Lemma resolves_marker_iff bindings n m : m <> MarkerNone -> resolves_marker bindings n m = true <-> bound_to bindings n m.
Proof.
  intros Hm. unfold resolves_marker, resolvesMarker, bound_to. rewrite (bool_decide_eq_false_2 (m = MarkerNone)) by exact Hm. rewrite orb_false_r. destruct bindings as [f|]; cbn [fmap option_fmap option_map].
  2: { rewrite (bool_decide_eq_false_2 (is_Some None)) by (intros [? [=]]). rewrite orb_true_r. split; [discriminate|intros (? & [=] & _)]. }
  rewrite (bool_decide_eq_true_2 (is_Some (Some _))) by eauto. rewrite orb_false_r. destruct (present n) eqn:Ep; cbn; [|split; [discriminate|intros (? & _ & [=] & _)]].
  destruct (f n) as [[k s]|] eqn:Ef; cbn; [|split; [discriminate|intros (g & [= <-] & _ & H); congruence]].
  rewrite andb_true_iff, bool_decide_eq_true. destruct s as [s|]; cbn.
  - split; [intros [_ [=]]|intros (g & [= <-] & _ & H); congruence].
  - split; [intros [-> _]; eauto|]. intros (g & [= <-] & _ & H). split; [congruence|reflexivity].
Qed.

Lemma size_one n name : Nat.eqb (size_of (array n name)) 1 = true <-> items n name = [item n name 0].
Proof.
  rewrite Nat.eqb_eq. unfold items. split; [intros ->; reflexivity|]. intros H. apply (f_equal length) in H. rewrite length_fmap, length_seq in H. exact H.
Qed.

Lemma no_array_iff n name : no_array n name = true <-> items n name = [].
Proof. unfold no_array, items. rewrite Nat.eqb_eq. destruct (size_of (array n name)); cbn; split; congruence. Qed.

(** A name that Python gives a meaning in the body of an enum. *)
Definition hook (name : string) : Prop := exists middle, middle <> "" /\ name = "_" +:+ middle +:+ "_".

Lemma string_ends_iff c s : string_ends c s = true <-> exists front, s = front +:+ String c "".
Proof.
  induction s as [|a s IH]; cbn [string_ends].
  - split; [discriminate|]. intros [[|b front] [=]].
  - destruct s as [|b s].
    + rewrite Ascii.eqb_eq. split; [intros ->; exists ""; reflexivity|]. intros [[|x [|y front]] E]; cbn in E; injection E as E1; try discriminate; congruence.
    + rewrite IH. split; intros [front E].
      * exists (String a front). cbn. rewrite E. reflexivity.
      * destruct front as [|x front]; cbn in E; [discriminate|]. injection E as _ E. exists front. exact E.
Qed.

Lemma string_length_app a b : String.length (a +:+ b) = (String.length a + String.length b)%nat.
Proof. induction a as [|c a IH]; [reflexivity|]. exact (f_equal S IH). Qed.

Lemma construction_hook_iff name : construction_hook name = true <-> hook name.
Proof.
  unfold construction_hook, hook. rewrite !andb_true_iff, Nat.ltb_lt, string_ends_iff. split.
  - intros [[Hl Hs] [front ->]]. rewrite string_length_app in Hl. destruct front as [|a front]; [cbn [String.length] in Hl; lia|]. cbn in Hs. apply Ascii.eqb_eq in Hs as ->. exists front. split; [|reflexivity].
    intros ->. cbn [String.length] in Hl. lia.
  - intros (middle & Hm & ->). split; [|exists ("_" +:+ middle); reflexivity]. split; [|reflexivity]. destruct middle as [|c middle]; [contradiction|]. rewrite !string_length_app. cbn [String.length]. lia.
Qed.

Section EnumSpec.
Variables (u : UnicodeData) (fuel : nat) (bindings : LexicalBindings).

Definition identifier (name : string) : Prop := verifyPythonAstIdentifier u fuel name true = Some (inr tt).
Definition auto_call (v : AstNode) : Prop := kind v = "Call" /\ bound_to bindings (child v "func") MarkerAuto.

(** What a statement of the body is read as. *)
Definition member_of (enc : string) (s : AstNode) (m : CapturedEnumMemberSyntax) : Prop :=
  kind s = "Assign" /\ (exists target, items s "targets" = [target] /\ kind target = "Name" /\ member_name m = string_of target "id") /\
  identifier (member_name m) /\ ~ hook (member_name m) /\ member_declaration m = s /\ member_value m = child s "value" /\
  (automatic m = true <-> enc <> "explicit") /\ (automatic m = true <-> auto_call (child s "value")) /\
  (auto_call (child s "value") -> items (child s "value") "args" = [] /\ items (child s "value") "keywords" = []).

Lemma read_member_exact enc seen s m : read_member u fuel bindings enc seen s = inr m <-> member_of enc s m /\ member_name m ∉ seen.
Proof.
  unfold read_member. pose proof (size_one s "targets") as Hone. assert (Hauto : is_kind (child s "value") "Call" && resolves_marker bindings (child (child s "value") "func") MarkerAuto = true <-> auto_call (child s "value")).
  { rewrite andb_true_iff, has_kind_iff, resolves_marker_iff by discriminate. reflexivity. }
  set (name := string_of (item s "targets" 0) "id") in *. set (auto := is_kind (child s "value") "Call" && _) in *.
  assert (Hname : member_of enc s m -> member_name m = name /\ items s "targets" = [item s "targets" 0]).
  { intros (_ & (target & Ht & _ & ->) & _). assert (target = item s "targets" 0) as ->; [|auto]. unfold items in Ht. destruct (size_of (array s "targets")) as [|[|]]; cbn in Ht; congruence. }
  destruct (is_kind s "Assign") eqn:Ek; cbn [negb orb]; [|split; [discriminate|]; intros [(Hk & _) _]; apply has_kind_iff in Hk; congruence].
  destruct (Nat.eqb (size_of (array s "targets")) 1) eqn:E1; cbn [negb orb]; [|split; [discriminate|]; intros [H _]; apply Hname in H as [_ H]; apply Hone in H; congruence].
  destruct (is_kind (item s "targets" 0) "Name") eqn:En; cbn [negb].
  2: { split; [discriminate|]. intros [H _]. pose proof (proj2 (Hname H)) as Hi. destruct H as (_ & (target & Ht & Hk & _) & _). rewrite Hi in Ht. injection Ht as <-. apply has_kind_iff in Hk. congruence. }
  apply has_kind_iff in Ek, En. apply size_one in E1.
  destruct (valid_identifier u fuel name) eqn:Ei; cbn [negb orb].
  2: { split; [discriminate|]. intros [H _]. pose proof (proj1 (Hname H)) as E. destruct H as (_ & _ & H & _). rewrite E in H. apply bool_decide_eq_false in Ei. contradiction. }
  apply bool_decide_eq_true in Ei. case_bool_decide as Es; [split; [discriminate|]; intros [H Hn]; apply Hname in H as [H _]; congruence|].
  destruct (construction_hook name) eqn:Eh.
  { split; [discriminate|]. intros [H _]. pose proof (proj1 (Hname H)) as E. destruct H as (_ & _ & _ & H & _). rewrite E in H. apply construction_hook_iff in Eh. contradiction. }
  assert (Hh : ~ hook name) by (rewrite <- construction_hook_iff, Eh; discriminate).
  pose proof (no_array_iff (child s "value") "args") as Ha. pose proof (no_array_iff (child s "value") "keywords") as Hk.
  destruct auto eqn:Eau; cbn [andb negb orb].
  - assert (Hac : auto_call (child s "value")) by (apply Hauto; reflexivity).
    destruct (no_array (child s "value") "args"), (no_array (child s "value") "keywords"); cbn [negb orb].
    2-4: split; [discriminate|]; intros [(_ & _ & _ & _ & _ & _ & _ & _ & H) _]; destruct (H Hac) as [H1 H2]; apply Ha in H1; apply Hk in H2; congruence.
    case_bool_decide as Ee; cbn [andb negb orb]; [split; [discriminate|]; intros [(_ & _ & _ & _ & _ & _ & H1 & H2 & _) _]; exfalso; apply H1; [apply H2, Hac|exact Ee]|]. split.
    + intros [= <-]. split; [|exact Es]. unfold member_of. cbn [member_name member_declaration member_value automatic]. split_and!; try assumption; try tauto; eauto.
    + intros [H Hn]. pose proof (proj1 (Hname H)) as E. destruct H as (_ & _ & _ & _ & Hd & Hv & _ & H2 & _). apply H2 in Hac. destruct m; cbn in *; subst. reflexivity.
  - assert (Hac : ~ auto_call (child s "value")) by (rewrite <- Hauto; discriminate). case_bool_decide as Ee; cbn [andb negb orb].
    + split.
      * intros [= <-]. split; [|exact Es]. unfold member_of. cbn [member_name member_declaration member_value automatic].
        split_and!; try assumption; try tauto; eauto; split; (discriminate || contradiction).
      * intros [H Hn]. pose proof (proj1 (Hname H)) as E. destruct H as (_ & _ & _ & _ & Hd & Hv & _ & H2 & _). destruct m as [? ? ? []]; cbn in *; subst; [exfalso; apply Hac, H2; reflexivity|reflexivity].
    + split; [discriminate|]. intros [(_ & _ & _ & _ & _ & _ & H1 & H2 & _) _]. exfalso. apply Hac, H2, H1, Ee.
Qed.

Definition documents (s : AstNode) : Prop := kind s = "Expr" /\ kind (child s "value") = "Constant" /\ exists text, get (child s "value") "value" = Some (StringAttribute text).

Lemma docstring_iff s : docstring s = true <-> documents s.
Proof.
  unfold docstring, documents. rewrite <- (has_kind_iff s). destruct (is_kind s "Expr") eqn:E.
  - rewrite andb_true_iff, has_kind_iff. destruct (get (child s "value") "value") as [[]|]; (split; [intros [? [=]]|intros (_ & ? & ? & [=])]) || (split; [intros [? _]|intros (_ & ? & _)]); eauto.
  - split; [intros H; vm_compute in H; discriminate|intros [[=] _]].
Qed.

(** The members of a body: its statements but for a docstring at the front. *)
Definition member_statements (body statements : list AstNode) : Prop :=
  match body with
  | s :: rest => documents s /\ statements = rest \/ ~ documents s /\ statements = body
  | [] => statements = []
  end.

Definition distinct_from (seen : list string) (ms : list CapturedEnumMemberSyntax) : Prop := NoDup (member_name <$> ms) /\ forall m, m ∈ ms -> member_name m ∉ seen.

Lemma read_members_later enc l : forall i seen ms, read_members u fuel bindings enc l (S i) seen = inr ms <-> Forall2 (member_of enc) l ms /\ distinct_from seen ms.
Proof.
  induction l as [|s l IH]; intros i seen ms; cbn [read_members Nat.eqb andb].
  - split; [intros [= <-]; split; [constructor|]; split; [constructor|intros m Hm; inversion Hm]|]. intros [H _]. inversion H. reflexivity.
  - split.
    + intros H. apply fbind_inr in H as (m & Hm & H). apply fbind_inr in H as (more & Hr & H). injection H as <-. apply read_member_exact in Hm as [Hm Hs]. apply IH in Hr as [Hr [Hn Hd]].
      split; [constructor; assumption|]. split.
      * cbn. constructor; [|exact Hn]. rewrite list_elem_of_fmap. intros (m' & E & Hm'). apply (Hd m' Hm'). rewrite E. left.
      * intros m' [->|Hm']%elem_of_cons; [exact Hs|]. intros Hin. apply (Hd m' Hm'). right. exact Hin.
    + intros [H [Hn Hd]]. inversion H as [|? m ? more Hm Hr]; subst. cbn in Hn. apply NoDup_cons in Hn as [Hx Hn].
      rewrite (proj2 (read_member_exact enc seen s m)) by (split; [exact Hm|apply Hd; left]). cbn [fbind].
      rewrite (proj2 (IH (S i) (member_name m :: seen) more)); [reflexivity|]. split; [exact Hr|]. split; [exact Hn|].
      intros m' Hm' [E|Hin]%elem_of_cons; [|apply (Hd m'); [right; exact Hm'|exact Hin]]. apply Hx. rewrite list_elem_of_fmap. exists m'. auto.
Qed.

Lemma read_members_index enc l : forall i j seen, read_members u fuel bindings enc l (S i) seen = read_members u fuel bindings enc l (S j) seen.
Proof.
  induction l as [|s l IH]; intros i j seen; cbn [read_members Nat.eqb andb]; [reflexivity|]. destruct (read_member u fuel bindings enc seen s) as [|m]; [reflexivity|]. cbn [fbind].
  rewrite (IH (S i) (S j)). reflexivity.
Qed.

Lemma read_members_exact enc body ms : read_members u fuel bindings enc body 0 [] = inr ms <->
  exists statements, member_statements body statements /\ Forall2 (member_of enc) statements ms /\ NoDup (member_name <$> ms).
Proof.
  assert (Hd : forall ms, distinct_from [] ms <-> NoDup (member_name <$> ms)).
  { intros l. unfold distinct_from. split; [tauto|]. intros H. split; [exact H|]. intros m _ Hm. inversion Hm. }
  destruct body as [|s rest].
  - split; [intros [= <-]; exists []; repeat split; constructor|]. intros (? & -> & H & _). inversion H. reflexivity.
  - cbn [member_statements]. pose proof (docstring_iff s) as Hdoc. destruct (docstring s) eqn:E.
    + cbn [read_members Nat.eqb andb]. rewrite E, read_members_later, Hd. split; [intros [H1 H2]; exists rest; tauto|]. intros (l & [[_ ->]|[Hn _]] & H1 & H2); [auto|]. exfalso. apply Hn, Hdoc. reflexivity.
    + replace (read_members u fuel bindings enc (s :: rest) 0 []) with (read_members u fuel bindings enc (s :: rest) 1 []).
      * rewrite read_members_later, Hd. split; [intros [H1 H2]; exists (s :: rest); split; [right; split; [rewrite <- Hdoc; discriminate|reflexivity]|tauto]|].
        intros (l & [[H _]|[_ ->]] & H1 & H2); [apply Hdoc in H; discriminate|auto].
      * cbn [read_members Nat.eqb andb]. rewrite E. destruct (read_member u fuel bindings enc [] s) as [|m]; [reflexivity|]. cbn [fbind]. rewrite (read_members_index enc rest 1 0). reflexivity.
Qed.
End EnumSpec.

Definition literal (v : AstNode) (text : string) : Prop := kind v = "Constant" /\ get v "value" = Some (StringAttribute text).

Lemma literal_string_iff v text : literal_string v = Some text <-> literal v text.
Proof.
  unfold literal_string, literal. rewrite <- has_kind_iff. destruct (is_kind v "Constant"); [|split; [discriminate|intros [[=] _]]].
  destruct (get v "value") as [[]|]; split; (intros [= ->] || intros [_ [= ->]] || idtac); try reflexivity; auto; try discriminate.
Qed.

Definition argument (k : AstNode) : string := string_of k "arg".

(** What a keyword named [name] gives, or else [given]. *)
Definition option_is {A} (ks : list AstNode) (name : string) (R : AstNode -> A -> Prop) (given a : A) : Prop :=
  (forall k, k ∈ ks -> argument k = name -> R (child k "value") a) /\ ((forall k, k ∈ ks -> argument k <> name) -> a = given).

Lemma option_is_skip {A} k ks name (R : AstNode -> A -> Prop) given a : argument k <> name -> option_is (k :: ks) name R given a <-> option_is ks name R given a.
Proof.
  intros Hk. unfold option_is. split; intros [H1 H2]; (split; [|intros Hn; apply H2]).
  - intros k' Hk'. apply H1. right. exact Hk'.
  - intros k' [->|Hk']%elem_of_cons; [exact Hk|apply Hn, Hk'].
  - intros k' [->|Hk']%elem_of_cons; [contradiction|apply H1, Hk'].
  - intros k' Hk'. apply Hn. right. exact Hk'.
Qed.

(** A keyword that comes once. *)
Lemma option_is_here {A} k ks name (R : AstNode -> A -> Prop) given a : argument k = name -> name ∉ argument <$> ks ->
  option_is (k :: ks) name R given a <-> R (child k "value") a.
Proof.
  intros Hk Hn. split; [intros [H _]; apply H; [left|exact Hk]|]. intros H. split.
  - intros k' [->|Hk']%elem_of_cons E; [exact H|]. exfalso. apply Hn. rewrite <- E. apply list_elem_of_fmap. eauto.
  - intros H'. exfalso. apply (H' k); [left|exact Hk].
Qed.

Lemma option_is_none {A} ks name (R : AstNode -> A -> Prop) given a : name ∉ argument <$> ks -> option_is ks name R given a <-> a = given.
Proof.
  intros Hn. assert (H : forall k, k ∈ ks -> argument k <> name) by (intros k Hk E; apply Hn; rewrite <- E; apply list_elem_of_fmap; eauto).
  split; [intros [_ H2]; apply H2, H|]. intros ->. split; [intros k Hk E; destruct (H k Hk E)|reflexivity].
Qed.

Definition known_keywords (seen : list string) (ks : list AstNode) : Prop := NoDup (argument <$> ks) /\ forall k, k ∈ ks -> argument k ∉ seen /\ (argument k = "width" \/ argument k = "kind").

Lemma known_fresh a seen ks : known_keywords (a :: seen) ks -> a ∉ argument <$> ks.
Proof. intros [_ H] Hin. apply list_elem_of_fmap in Hin as (k & -> & Hk). apply (H k Hk). left. Qed.

Lemma known_keywords_cons seen k ks : known_keywords seen (k :: ks) <-> argument k ∉ seen /\ (argument k = "width" \/ argument k = "kind") /\ known_keywords (argument k :: seen) ks.
Proof.
  unfold known_keywords. cbn. rewrite NoDup_cons. split.
  - intros [[H1 H2] H3]. destruct (H3 k ltac:(left)) as [H4 H5]. split_and!; [exact H4|exact H5|exact H2|]. intros k' Hk'. destruct (H3 k' ltac:(right; exact Hk')) as [H6 H7].
    split; [|exact H7]. intros [E|Hs]%elem_of_cons; [|contradiction]. apply H1. rewrite <- E. apply list_elem_of_fmap. eauto.
  - intros (H1 & H2 & H4 & H5). split; [split; [|exact H4]|].
    + apply (known_fresh _ seen). split; assumption.
    + intros k' [->|Hk']%elem_of_cons; [auto|]. destruct (H5 k' Hk') as [H6 H7]. split; [|exact H7]. intros Hs. apply H6. right. exact Hs.
Qed.

Lemma encoding_keywords_exact ks : forall seen w0 e0 w e, encoding_keywords ks seen w0 e0 = inr (w, e) <->
  known_keywords seen ks /\ option_is ks "width" (fun v a => a = v) w0 w /\ option_is ks "kind" literal e0 e.
Proof.
  induction ks as [|k ks IH]; intros seen w0 e0 w e; cbn [encoding_keywords].
  { rewrite !option_is_none by (intros H; inversion H). split; [intros [= -> ->]; split; [|auto]; split; [constructor|intros k Hk; inversion Hk]|]. intros (_ & -> & ->). reflexivity. }
  change (string_of k "arg") with (argument k). rewrite known_keywords_cons. case_bool_decide as Ee; cbn [orb]; [split; [discriminate|]; intros ((_ & [H|H] & _) & _); congruence|].
  case_bool_decide as Es; [split; [discriminate|tauto]|]. assert (Hf := known_fresh (argument k) seen ks). case_bool_decide as Ew; [|case_bool_decide as Ek].
  - rewrite IH, (option_is_skip k ks "kind") by congruence. rewrite Ew in *. split; intros H; assert (Hn : "width" ∉ argument <$> ks) by (apply Hf; tauto);
      rewrite option_is_here in * by assumption; rewrite option_is_none in * by assumption; tauto.
  - rewrite option_is_skip by congruence. rewrite Ek in *. destruct (literal_string (child k "value")) as [text|] eqn:El.
    + apply literal_string_iff in El. rewrite IH. split; intros H; assert (Hn : "kind" ∉ argument <$> ks) by (apply Hf; tauto);
        rewrite option_is_here in * by assumption; rewrite (option_is_none ks "kind") in * by assumption.
      * destruct H as (H1 & H2 & ->). tauto.
      * destruct H as (H1 & H2 & H3). split; [tauto|]. split; [exact H2|]. destruct El as [_ El], H3 as [_ H3]. congruence.
    + split; [discriminate|]. intros (H1 & _ & H3). rewrite option_is_here in H3 by (try apply Hf; tauto). apply literal_string_iff in H3. congruence.
  - split; [discriminate|]. intros ((_ & [H|H] & _) & _); congruence.
Qed.

Lemma single_item n name (P : AstNode -> Prop) : (exists m, items n name = [m] /\ P m) <-> Nat.eqb (size_of (array n name)) 1 = true /\ P (item n name 0).
Proof.
  rewrite size_one. split; [intros (m & H & Hp)|intros [H Hp]; eauto]. assert (m = item n name 0) as <-; [|auto].
  unfold items in H. destruct (size_of (array n name)) as [|[|]]; cbn in H; congruence.
Qed.

(** The arguments of the encoding decorator. *)
Definition encoded (bindings : LexicalBindings) (width : AstNode) (enc : string) (decorator : AstNode) : Prop :=
  kind decorator = "Call" /\ bound_to bindings (child decorator "func") MarkerEncoding /\ items decorator "args" = [] /\
  known_keywords [] (items decorator "keywords") /\ option_is (items decorator "keywords") "width" (fun v a => a = v) no_node width /\
  option_is (items decorator "keywords") "kind" literal "explicit" enc.

(** An enum of the source language. *)
Definition enum_form (u : UnicodeData) (fuel : nat) (bindings : LexicalBindings) (d : AstNode) (e : CapturedEnumSyntax) : Prop :=
  kind d = "ClassDef" /\ identifier u fuel (string_of d "name") /\
  (exists base, items d "bases" = [base] /\ bound_to bindings base MarkerEnum) /\ items d "keywords" = [] /\ items d "type_params" = [] /\
  (exists decorator, items d "decorator_list" = [decorator] /\ encoded bindings (enum_width e) (encoding e) decorator) /\
  present (enum_width e) = true /\ encoding e ∈ ["explicit"; "binary_sequential"; "binary_one_hot"; "gray_sequential"] /\
  enum_declaration e = d /\ members e <> [] /\
  exists statements, member_statements (items d "body") statements /\ Forall2 (member_of u fuel bindings (encoding e)) statements (members e) /\ NoDup (member_name <$> members e).

(** C27: enums are read exactly.  A class is accepted exactly when its one base
    is bound to [Enum], its one decorator is a call of the bound [encoding]
    with a width and possibly a literal kind, each given once, and every
    statement after a docstring assigns one fresh name that is an identifier
    and no construction hook; the values are argument-free calls of the bound
    [auto] for a derived encoding and no such calls for the explicit one.
    What is read is the width, the encoding and the members in order. *)
Theorem enum_syntax_exact u fuel bindings d e : readEnumSyntax u fuel bindings d = inr e <-> enum_form u fuel bindings d e.
Proof.
  unfold enum_form. setoid_rewrite single_item. rewrite <- (has_kind_iff d), <- !no_array_iff, <- resolves_marker_iff by discriminate. unfold readEnumSyntax.
  unfold encoded. rewrite <- (has_kind_iff (item d _ _)), <- (no_array_iff (item d _ _)), <- (resolves_marker_iff bindings _ MarkerEncoding) by discriminate.
  assert (Hid : valid_identifier u fuel (string_of d "name") = true <-> identifier u fuel (string_of d "name")) by apply bool_decide_eq_true. rewrite <- Hid. clear Hid.
  destruct (is_kind d "ClassDef"), (valid_identifier u fuel (string_of d "name")); cbn [negb orb]; try (split; [discriminate|intuition discriminate]).
  destruct (Nat.eqb (size_of (array d "bases")) 1), (resolves_marker bindings (item d "bases" 0) MarkerEnum), (no_array d "keywords"), (no_array d "type_params"); cbn [negb orb]; try (split; [discriminate|intuition discriminate]).
  destruct (Nat.eqb (size_of (array d "decorator_list")) 1); cbn [negb]; [|split; [discriminate|intuition discriminate]]. set (decorator := item d "decorator_list" 0) in *.
  destruct (is_kind decorator "Call"), (resolves_marker bindings (child decorator "func") MarkerEncoding), (no_array decorator "args"); cbn [negb orb]; try (split; [discriminate|intuition discriminate]).
  pose proof (encoding_keywords_exact (items decorator "keywords") [] no_node "explicit") as Hk. rewrite <- Hk. destruct (encoding_keywords (items decorator "keywords") [] no_node "explicit") as [|[w enc]]; cbn [fbind fst snd]; [split; [discriminate|intuition discriminate]|].
  split.
  - destruct (present w) eqn:Ep; cbn [negb]; [|discriminate]. case_bool_decide as Ee; cbn [negb]; [|discriminate]. intros H. apply fbind_inr in H as (ms & Hm & H).
    case_bool_decide as El; [discriminate|]. injection H as <-. cbn [enum_declaration enum_width encoding members]. apply read_members_exact in Hm. split_and!; auto. intros ->. apply El. reflexivity.
  - intros (_ & _ & _ & _ & _ & (_ & _ & _ & _ & [= -> ->]) & Hp & He & Hd & Hne & Hs). rewrite Hp. cbn [negb]. rewrite (bool_decide_eq_true_2 (_ ∈ encoding_kinds)) by exact He. cbn [negb].
    rewrite (proj2 (read_members_exact u fuel bindings _ _ _) Hs). cbn [fbind]. rewrite bool_decide_eq_false_2 by (destruct (members e); [contradiction|discriminate]).
    destruct e; cbn in *; subst; reflexivity.
Qed.

(** ** Callables *)

(** A rule in the body of a module: the path of its node. *)
Definition local_path (p : list AstStep) : Prop := exists i field j field', p = [mkStep "body" None; mkStep field (Some i); mkStep "body" None; mkStep field' (Some j)].

Lemma local_rule_iff m d : local_rule m d = true <-> m = MarkerRule /\ local_path (node_path d).
Proof.
  unfold local_rule, local_path. rewrite andb_true_iff, bool_decide_eq_true. apply and_iff_compat_l. split.
  - destruct (node_path d) as [|[fa ia] [|[fi i] [|[fb ib] [|[fj j] [|]]]]]; try discriminate. unfold is_field, is_index. cbn. rewrite !andb_true_iff, !negb_true_iff, !bool_decide_eq_true, !bool_decide_eq_false.
    intros [[[[-> Ha] [x ->]] [-> Hb]] [y ->]]. destruct ia; [exfalso; eauto|]. destruct ib; [exfalso; eauto|]. eauto.
  - intros (i & fi & j & fj & ->). reflexivity.
Qed.

Definition names (n : AstNode) : list string := argument <$> items n "args".

(** Only positional parameters, with [defaults] default values. *)
Definition positional (n : AstNode) (defaults : nat) : Prop :=
  items n "posonlyargs" = [] /\ items n "kwonlyargs" = [] /\ present (child n "vararg") = false /\ present (child n "kwarg") = false /\ length (items n "defaults") = defaults.

(** The guard of a callable is a function of the callable's parameters. *)
Definition guards (local : Prop) (formals guard : AstNode) : Prop :=
  kind guard = "Lambda" /\ present (child guard "args") = true /\ positional (child guard "args") 0 /\ names (child guard "args") = names formals /\
  (present formals = true /\ positional formals 0 \/ local /\ positional formals (length (names formals))).

(** A rule or method of the source language. *)
Definition callable_form (bindings : LexicalBindings) (d : AstNode) (c : CapturedCallableSyntax) : Prop :=
  let formals := child d "args" in
  let local := callable_kind c = MarkerRule /\ local_path (node_path d) in
  kind d = "FunctionDef" /\ (callable_kind c = MarkerRule \/ callable_kind c = MarkerMethod) /\ callable_after c = no_node /\ (local \/ items formals "defaults" = []) /\
  exists decorator, items d "decorator_list" = [decorator] /\
    (kind decorator <> "Call" /\ bound_to bindings decorator (callable_kind c) /\ callable_guard c = no_node \/
     kind decorator = "Call" /\ bound_to bindings (child decorator "func") (callable_kind c) /\ items decorator "args" = [] /\
     exists k, items decorator "keywords" = [k] /\ argument k = "guard" /\ callable_guard c = child k "value" /\ guards local formals (child k "value")).

Lemma length_items n name : length (items n name) = size_of (array n name).
Proof. unfold items. rewrite length_fmap, length_seq. reflexivity. Qed.

Lemma same_names_iff l m : length l = length m -> same_names l m = true <-> argument <$> l = argument <$> m.
Proof.
  revert m. induction l as [|a l IH]; intros [|b m] Hl; cbn in *; try discriminate; [tauto|]. rewrite andb_true_iff, bool_decide_eq_true, IH by congruence. unfold argument at 3 5.
  split; [intros [-> ->]; reflexivity|]. intros [= H1 H2]. auto.
Qed.

Lemma required_iff n : required_formals n = true <-> present n = true /\ positional n 0.
Proof.
  unfold required_formals, positional. rewrite !andb_true_iff, !no_array_iff, !negb_true_iff, length_zero_iff_nil. tauto.
Qed.

Lemma bound_iff local n : bound_formals local n = true <-> local = true /\ positional n (length (names n)).
Proof.
  unfold bound_formals, positional, names. rewrite length_fmap, !length_items, !andb_true_iff, !no_array_iff, !negb_true_iff, Nat.eqb_eq. tauto.
Qed.

Lemma decorator_guard_exact ks g : (forall k, k ∈ ks -> present (child k "value") = true) -> ks <> [] ->
  decorator_guard ks no_node = inr g <-> exists k, ks = [k] /\ argument k = "guard" /\ g = child k "value".
Proof.
  intros Hp Hne. destruct ks as [|k ks]; [contradiction|]. cbn [decorator_guard]. change (string_of k "arg") with (argument k). change (present no_node) with false. cbn [negb andb].
  case_bool_decide as Eg; cbn [andb].
  - destruct ks as [|k' ks]; cbn [decorator_guard].
    + split; [intros [= <-]; eauto|]. intros (k0 & [= <-] & _ & ->). reflexivity.
    + rewrite (Hp k) by left. rewrite andb_false_r. split; [destruct (bool_decide _); discriminate|]. intros (? & [=] & _).
  - split; [destruct (bool_decide _); discriminate|]. intros (k0 & [= <- _] & H & _). contradiction.
Qed.

(** The marker a decorator resolves to. *)
Definition resolved_marker (bindings : LexicalBindings) (n : AstNode) : MarkerKind :=
  match resolve bindings n with Some r => if bool_decide (is_Some (nominalSymbol r)) then MarkerNone else marker r | None => MarkerNone end.

Lemma resolved_marker_iff bindings n m : m <> MarkerNone -> resolved_marker bindings n = m <-> bound_to bindings n m.
Proof.
  intros Hm. unfold resolved_marker, resolve, bound_to. destruct bindings as [f|]; [|split; [congruence|intros (? & [=] & _)]].
  destruct (present n); [|split; [congruence|intros (? & _ & [=] & _)]]. destruct (f n) as [[k s]|] eqn:Ef; [|split; [congruence|intros (g & [= <-] & _ & H); congruence]]. cbn.
  case_bool_decide as Es; split; try congruence.
  - intros (g & [= <-] & _ & H). destruct Es as [x Hx]. rewrite Ef in H. injection H as -> ->. discriminate.
  - intros ->. exists f. repeat split; auto. rewrite Ef. destruct s; [exfalso; eauto|reflexivity].
  - intros (g & [= <-] & _ & H). congruence.
Qed.

Lemma guard_exact m d g c : let formals := child d "args" in let localRule := local_rule m d in present g = true ->
  (if negb (is_kind g "Lambda") then failure "Rule/Method guard requires a lambda"
   else if (negb (required_formals formals) && negb (bound_formals localRule formals)) || negb (required_formals (child g "args")) ||
           negb (Nat.eqb (size_of (array formals "args")) (size_of (array (child g "args") "args")))
   then failure "guard lambda requires the callable's exact required positional parameters"
   else if negb (same_names (items formals "args") (items (child g "args") "args")) then failure "guard lambda parameter names and order must match the callable"
   else success (mkCallable m g no_node)) = inr c <->
  c = mkCallable m g no_node /\ guards (m = MarkerRule /\ local_path (node_path d)) formals g.
Proof.
  cbv zeta. intros Hg. unfold guards. rewrite <- (has_kind_iff g), <- local_rule_iff. set (formals := child d "args"). set (gf := child g "args").
  assert (Hnames : names gf = names formals <-> Nat.eqb (size_of (array formals "args")) (size_of (array gf "args")) = true /\ same_names (items formals "args") (items gf "args") = true).
  { unfold names. rewrite Nat.eqb_eq, <- !length_items. split; [intros E|intros [Hl E]].
    - assert (Hl : length (items formals "args") = length (items gf "args")) by (apply (f_equal length) in E; rewrite !length_fmap in E; congruence). split; [exact Hl|]. apply same_names_iff; congruence.
    - apply same_names_iff in E; congruence. }
  assert (Hreq : (present gf = true /\ positional gf 0) <-> required_formals gf = true) by (symmetry; apply required_iff).
  assert (Hform : (present formals = true /\ positional formals 0 \/ local_rule m d = true /\ positional formals (length (names formals))) <-> required_formals formals || bound_formals (local_rule m d) formals = true).
  { rewrite orb_true_iff, required_iff, bound_iff. reflexivity. }
  rewrite Hnames, Hform. rewrite (and_assoc (present gf = true)), Hreq.
  destruct (is_kind g "Lambda"), (required_formals formals), (bound_formals (local_rule m d) formals), (required_formals gf), (Nat.eqb _ _), (same_names _ _); cbn [negb andb orb];
    try (split; [discriminate|intuition discriminate]); (split; [intros [= <-]; auto 10|intros [-> _]; reflexivity]).
Qed.

(** Rules and methods are read exactly, for a decorator whose keywords
    have values.  A function is accepted exactly when its one decorator is
    bound to [rule] or [method], only a rule of a module gives its parameters
    default values, and a guard, if there is one, is the only argument of the
    decorator: a lambda without defaults that has the same positional
    parameters, in names and order.  What is read is the marker and the guard. *)
Theorem callable_syntax_exact bindings d c : (forall k, k ∈ items (item d "decorator_list" 0) "keywords" -> present (child k "value") = true) ->
  readCallableSyntax d bindings = inr c <-> callable_form bindings d c.
Proof.
  intros Hkw. unfold callable_form. setoid_rewrite (single_item d "decorator_list"). unfold readCallableSyntax. rewrite <- (has_kind_iff d).
  destruct (is_kind d "FunctionDef"), (Nat.eqb (size_of (array d "decorator_list")) 1); cbn [negb orb]; try (split; [discriminate|intuition discriminate]).
  set (decorator := item d "decorator_list" 0) in *. pose proof (has_kind_iff decorator "Call") as Hcall. set (target := if is_kind decorator "Call" then child decorator "func" else decorator).
  change (match resolve bindings target with Some r => if bool_decide (is_Some (nominalSymbol r)) then MarkerNone else marker r | None => MarkerNone end) with (resolved_marker bindings target).
  assert (Hm : forall m, m = MarkerRule \/ m = MarkerMethod -> resolved_marker bindings target = m <-> bound_to bindings target m) by (intros m [-> | ->]; apply resolved_marker_iff; discriminate).
  rewrite <- (no_array_iff (child d "args")), <- (no_array_iff decorator). set (M := resolved_marker bindings target) in *.
  destruct (decide (M = MarkerRule \/ M = MarkerMethod)) as [HM|HM].
  2: { rewrite !bool_decide_eq_false_2 by tauto. split; [discriminate|]. intros (_ & Hk & _ & _ & _ & H). exfalso. apply HM.
       rewrite (proj2 (Hm (callable_kind c) Hk)); [exact Hk|]. unfold target. destruct (is_kind decorator "Call"); intuition congruence. }
  replace (negb (bool_decide (M = MarkerRule)) && negb (bool_decide (M = MarkerMethod))) with false by (destruct HM as [-> | ->]; reflexivity).
  assert (Hb : bound_to bindings target M) by (apply Hm; [exact HM|reflexivity]).
  assert (Hkind : forall k, k = MarkerRule \/ k = MarkerMethod -> bound_to bindings target k -> k = M) by (intros k Hk H; symmetry; apply Hm; assumption).
  assert (Hd : negb (local_rule M d) && negb (no_array (child d "args") "defaults") = false <-> (M = MarkerRule /\ local_path (node_path d)) \/ no_array (child d "args") "defaults" = true).
  { rewrite andb_false_iff, !negb_false_iff, local_rule_iff. reflexivity. }
  unfold target in *. destruct (is_kind decorator "Call"); cbn [negb]; clear target Hm; split.
  - destruct (_ && _); [discriminate|]. destruct (no_array decorator "args"), (no_array decorator "keywords") eqn:Ek; cbn [negb orb]; try discriminate.
    intros H. apply fbind_inr in H as (g & Hg & H). apply decorator_guard_exact in Hg as (k & Eks & Ea & ->); [|exact Hkw|intros E; apply no_array_iff in E; congruence].
    rewrite Hkw in H by (rewrite Eks; left). cbn [negb] in H. apply guard_exact in H as [-> Hgu]; [|apply Hkw; rewrite Eks; left]. cbn [callable_kind callable_guard callable_after].
    split_and!; auto; [apply Hd; reflexivity|]. right. split_and!; auto; [apply Hcall; reflexivity|]. exists k. auto.
  - intros (_ & Hk & Haf & Hdef & _ & [(Hn & _)|(_ & Hbo & Ha & k & Eks & Ea & Eg & Hgu)]); [exfalso; apply Hn, Hcall; reflexivity|].
    rewrite (Hkind _ Hk Hbo) in *. rewrite (proj2 Hd Hdef), Ha. cbn [negb orb]. destruct (no_array decorator "keywords") eqn:E; [apply no_array_iff in E; congruence|].
    rewrite (proj2 (decorator_guard_exact _ (child k "value") Hkw ltac:(congruence))) by eauto. cbn [fbind]. rewrite Hkw by (rewrite Eks; left). cbn [negb].
    apply guard_exact; [apply Hkw; rewrite Eks; left|]. split; [|exact Hgu]. destruct c; cbn in *; subst. rewrite (Hkind _ Hk Hbo). reflexivity.
  - destruct (_ && _); [discriminate|]. intros [= <-]. cbn [callable_kind callable_guard callable_after]. split_and!; auto; [apply Hd; reflexivity|]. left. split_and!; auto. rewrite <- Hcall. discriminate.
  - intros (_ & Hk & Haf & Hdef & _ & [(Hn & Hbo & Hg)|(Hc & _)]); [|apply Hcall in Hc; discriminate]. rewrite (Hkind _ Hk Hbo) in Hdef. rewrite (proj2 Hd Hdef).
    destruct c; cbn in *; subst. rewrite (Hkind _ Hk Hbo). reflexivity.
Qed.

(** ** Aliases *)

(** Exactly the names [u1] to [u64] of the library. *)
Lemma alias_width_exact module name w : fixedBitsAliasWidth module name = Some w <-> module = "pycircuit" /\ 1 <= w <= 64 /\ lit name = lit "u" ++ spell w.
Proof.
  unfold fixedBitsAliasWidth. case_bool_decide as Em; cbn [negb]; [|split; [discriminate|tauto]]. destruct name as [|a rest]; [split; [discriminate|intros (_ & _ & [=])]|]. cbn [consume_char].
  assert (Hu : forall l, lit (String a rest) = lit "u" ++ l <-> a = "u"%char /\ lit rest = l).
  { intros l. change (lit (String a rest)) with (byte_of a :: lit rest). change (lit "u" ++ l) with (117 :: l). split; [intros [= H1 H2]|intros [-> ->]; reflexivity]. split; [|exact H2].
    revert H1. destruct a as [b0 b1 b2 b3 b4 b5 b6 b7]. destruct b0, b1, b2, b3, b4, b5, b6, b7; vm_compute; congruence. }
  rewrite Hu. clear Hu. destruct (Ascii.eqb_spec a "u") as [->|Ha]; [|split; [discriminate|tauto]]. unfold getAsUnsigned. split.
  - destruct (negb (bool_decide (lit rest = []))); [|discriminate]. destruct (forallb is_digit (lit rest)) eqn:Ed; [|discriminate].
    assert (H0 : 0 <= decimal (lit rest)) by (apply decimal_bound, (forallb_Forall_iff is_digit (fun c => is_digit c = true)); [reflexivity|exact Ed]).
    destruct (decimal (lit rest) <? 2 ^ 32); [|discriminate]. cbn [andb]. destruct (Z.eqb_spec (decimal (lit rest)) 0); [discriminate|]. destruct (Z.ltb_spec 64 (decimal (lit rest))); [discriminate|]. cbn [orb].
    case_bool_decide as Es; [|discriminate]. cbn [negb]. intros [= <-]. split; [exact Em|]. split; [lia|]. auto.
  - intros (_ & Hw & _ & E). rewrite E. assert (Esp : spell w = spell_magnitude w) by (unfold spell; destruct (Z.ltb_spec w 0); [lia|reflexivity]). rewrite Esp.
    destruct (spell_magnitude_spec w ltac:(lia)) as (Hd & Hdig & d & more & Hc & _). apply (forallb_Forall_iff is_digit (fun c => is_digit c = true)) in Hdig; [|reflexivity].
    rewrite Hd, Hdig, (bool_decide_eq_false_2 (spell_magnitude w = [])) by (rewrite Hc; discriminate). cbn [negb andb]. destruct (Z.ltb_spec w (2 ^ 32)); [|lia].
    destruct (Z.eqb_spec w 0); [lia|]. destruct (Z.ltb_spec 64 w); [lia|]. cbn [orb]. rewrite bool_decide_eq_true_2 by (symmetry; exact Esp). reflexivity.
Qed.

(** ** A match, an enum and a rule *)

Module FormsWitness.
Import Capture.

Definition node (a : Attr) : AstNode := mkNode (as_dictionary a) [].

(** [match x: case 1 | Color.RED: 0; case True: 0; case _: 0] *)
Definition case (pattern : Attr) : Attr := syntax "match_case" [("body", ArrayAttribute [assign (name "y")]); ("guard", UnitAttribute); ("pattern", pattern)].
Definition value (v : Attr) : Attr := syntax "MatchValue" [("value", v)].
Definition red : Attr := syntax "Attribute" [("attr", StringAttribute "RED"); ("value", name "Color")].
Definition choice : AstNode := node (syntax "Match" [("cases", ArrayAttribute
  [case (syntax "MatchOr" [("patterns", ArrayAttribute [value (number "1"); value red])]);
   case (syntax "MatchSingleton" [("value", Boolean true)]);
   case (syntax "MatchAs" [("name", UnitAttribute); ("pattern", UnitAttribute)])]); ("subject", name "x")]).
Definition pattern (i : nat) : AstNode := child (item choice "cases" i) "pattern".
Definition choice_arms : list CapturedMatchArmSyntax :=
  [mkArm (item choice "cases" 0) [item (pattern 0) "patterns" 0; item (pattern 0) "patterns" 1] false; mkArm (item choice "cases" 1) [pattern 1] false; mkArm (item choice "cases" 2) [] true].

Lemma match_syntax_exact_witness : Forall2 arm_of (items choice "cases") choice_arms /\ forall holds truth i,
  first_that (py_accepts holds truth) (items choice "cases") i <-> first_that (arm_accepts holds) choice_arms i.
Proof.
  assert (E : readMatchSyntax choice = inr choice_arms) by (vm_compute; reflexivity). destruct (match_syntax_exact choice choice_arms) as [H1 H2].
  split; [apply H1 in E; apply E|exact (H2 E)].
Defined.

(** [@encoding(width=2) class Color(Enum): RED = 1] *)
Definition keyword (id : string) (v : Attr) : Attr := syntax "keyword" [("arg", StringAttribute id); ("value", v)].
Definition color : AstNode := node (syntax "ClassDef" [("bases", ArrayAttribute [name "Enum"]); ("body", ArrayAttribute [assign (name "RED")]);
  ("decorator_list", ArrayAttribute [syntax "Call" [("args", no_items); ("func", name "encoding"); ("keywords", ArrayAttribute [keyword "width" (number "2")])]]);
  ("keywords", no_items); ("name", StringAttribute "Color")]).

(** The names are those of the library. *)
Definition library : LexicalBindings := Some (fun n =>
  Some (mkResolved (string_switch [("Enum", MarkerEnum); ("encoding", MarkerEncoding); ("rule", MarkerRule)] MarkerNone (string_of n "id")) None)).

Definition color_syntax : CapturedEnumSyntax :=
  mkEnum color (child (item (item color "decorator_list" 0) "keywords" 0) "value") "explicit" [mkMember (item color "body" 0) "RED" (child (item color "body" 0) "value") false].

Lemma enum_syntax_exact_witness : enum_form IdentifierWitness.sample 8 library color color_syntax.
Proof. apply (enum_syntax_exact IdentifierWitness.sample 8 library color color_syntax). vm_compute. reflexivity. Defined.

(** [@rule(guard=lambda x: x) def step(x=r): x = 0] *)
Definition step : AstNode := mkNode (as_dictionary (syntax "FunctionDef" [("args", on_register); ("body", ArrayAttribute [assign (name "x")]);
  ("decorator_list", ArrayAttribute [syntax "Call" [("args", no_items); ("func", name "rule");
    ("keywords", ArrayAttribute [keyword "guard" (syntax "Lambda" [("args", arguments [syntax "arg" [("annotation", UnitAttribute); ("arg", StringAttribute "x")]] []); ("body", name "x")])])]]);
  ("name", StringAttribute "step"); ("returns", UnitAttribute)])) [mkStep "body" None; mkStep "" (Some 1); mkStep "body" None; mkStep "" (Some 0)].

Definition step_syntax : CapturedCallableSyntax := mkCallable MarkerRule (child (item (item step "decorator_list" 0) "keywords" 0) "value") no_node.

Lemma callable_syntax_exact_witness : callable_form library step step_syntax.
Proof.
  apply (callable_syntax_exact library step step_syntax); [|vm_compute; reflexivity]. intros k Hk. apply elem_of_items in Hk as (i & Hi & ->).
  destruct i as [|i]; [vm_compute; reflexivity|]. vm_compute in Hi. lia.
Defined.
End FormsWitness.
