(* ===== verification/GrantProof.v ===== *)
(** * The proof of exclusive grants ([HardwareGrantProof.cpp])

    Two rules may write one register only if their enables are never one
    together.  [HardwareGrantProof] tries to prove that: it collects facts
    that must hold when an enable is known to be one, over a graph that its
    owner presents through callbacks, and looks for a contradiction.  All work
    is charged to a budget; a failure latches its reason. *)

From Stdlib Require Import ZArith Lia String.
From stdpp Require Import base list numbers strings gmap.
From S2P Require Import Prelude CompilerPrelude.

Open Scope string_scope.
Open Scope Z_scope.

(** ** The graph *)

Definition Node := Z.

(** A [MathIntAttr] is the integer that it spells; [None] is the null one. *)
Record Constant := mkConstant { c_value : option Z; c_width : Z }.

Inductive NodeKind := Raw | NotNode | AndNode | OrNode | SelectNode | EqNode | NeNode.
#[export] Instance NodeKind_eq_dec : EqDecision NodeKind.
Proof. solve_decision. Defined.

Record NodeView := mkView { v_kind : NodeKind; v_operands : list Node; v_width : option Z; fullyKnown : option Constant }.

(** ** Facts *)

(** Without constant: the node is known to be [f_polarity].  With one: the
    comparison with it is known to be [f_polarity]. *)
Record Fact := mkFact { f_value : Node; f_polarity : bool; f_constant : option Z; f_width : Z }.
#[export] Instance Fact_eq_dec : EqDecision Fact.
Proof. solve_decision. Defined.

Inductive Result := Facts (facts : list Fact) | Impossible | Failure.

(** [found->second.facts] of any result. *)
Definition facts_of (r : Result) : list Fact := match r with Facts fs => fs | _ => [] end.

Definition same (a c : Fact) : bool := bool_decide (a = c).

Definition contradictory (a c : Fact) : bool :=
  if negb (f_value a =? f_value c) then false
  else
    match f_constant a, f_constant c with
    | Some x, Some y =>
      if negb (f_width a =? f_width c) then false
      else if x =? y then negb (Bool.eqb (f_polarity a) (f_polarity c))
      else f_polarity a && f_polarity c
    | None, None => negb (Bool.eqb (f_polarity a) (f_polarity c))
    | _, _ => false
    end.

(** [QueryKey]: whether a collision is assumed, its addresses, the query. *)
Definition QueryKey : Type := bool * ((Node * Node) * (Node * bool)).

Definition truth (c : Constant) : bool := match c_value c with Some z => negb (z =? 0) | None => false end.

Definition equalConstants (a c : Constant) : bool := bool_decide (c_value a = c_value c).

(** The two largest identities are reserved. *)
Definition reserved (node : Node) : bool := 2 ^ 64 - 2 <=? node.

Definition arity_of (kind : NodeKind) : nat :=
  match kind with Raw => 0 | NotNode => 1 | SelectNode => 3 | _ => 2 end%nat.

Section Impl.
(** The budget of the owner. *)
Context {Budget : Type}.
Variable canonicalize : option (Node -> Z -> Budget -> option Node * Budget).
Variable inspect : option (Node -> Budget -> option NodeView * Budget).
Variable debit : option (Z -> Budget -> bool * Budget).

Record Impl := mkImpl {
  reason : string;
  collision : option (Node * Node);
  cache : gmap QueryKey Result;
  visiting : gset QueryKey;
  views : gmap Node NodeView;
  budget : Budget;
}.

Definition new_proof (b : Budget) : Impl := mkImpl "" None ∅ ∅ ∅ b.

Definition M (A : Type) : Type := Impl -> A * Impl.
Definition mret {A} (a : A) : M A := fun s => (a, s).
Definition mthen {A B} (m : M A) (k : A -> M B) : M B := fun s => let '(a, s) := m s in k a s.
Notation "'let*' x := m 'in' k" := (mthen m (fun x => k)) (at level 10, x name, m at level 200, k at level 200) : gfsim_scope.

(** Continues with the value, or fails. *)
Definition unless_failed {A B} (a : option A) (k : A -> M (option B)) : M (option B) :=
  match a with Some a => k a | None => mret None end.

Definition set_reason (message : string) : M unit := fun s =>
  (tt, mkImpl message (collision s) (cache s) (visiting s) (views s) (budget s)).
Definition set_budget (b : Budget) (s : Impl) : Impl := mkImpl (reason s) (collision s) (cache s) (visiting s) (views s) b.

Definition charge (amount : Z) : M bool := fun s =>
  if negb (bool_decide (reason s = "")) then (false, s)
  else
    match debit with
    | None => let '(_, s) := set_reason "owner-enable proof work budget exhausted" s in (false, s)
    | Some debit =>
      let '(paid, b) := debit amount (budget s) in
      let s := set_budget b s in
      if paid then (true, s) else let '(_, s) := set_reason "owner-enable proof work budget exhausted" s in (false, s)
    end.

(** [fail]: the first reason stays. *)
Definition fail (message : string) : M Result := fun s =>
  if bool_decide (reason s = "") then let '(_, s) := set_reason message s in (Failure, s) else (Failure, s).

Definition failed_with {A} (message : string) : M (option A) := let* _ := fail message in mret None.

Definition canonical (node : Node) (depth : Z) : M (option Node) :=
  let* paid := charge 1 in
  if negb paid then mret None
  else
    match canonicalize with
    | Some f =>
      if 128 <=? depth then failed_with "owner-enable proof recursion or adapter contract failed"
      else if reserved node then failed_with "owner-enable proof adapter uses a reserved node identity"
      else
        let* found := (fun s => let '(r, b) := f node depth (budget s) in (r, set_budget b s)) in
        unless_failed found (fun c =>
          if reserved c then failed_with "owner-enable proof adapter returns a reserved node identity" else mret (Some c))
    | None => failed_with "owner-enable proof recursion or adapter contract failed"
    end.

(** The checks of a view. *)
Definition view_error (view : NodeView) : option string :=
  if negb (Nat.eqb (length (v_operands view)) (arity_of (v_kind view))) then Some "owner-enable proof adapter has invalid node arity"
  else
    match fullyKnown view with
    | None => None
    | Some known =>
      match v_width view, c_value known with
      | Some width, Some value =>
        if (width =? 0) || negb (c_width known =? width) then Some "owner-enable proof adapter has invalid known pattern"
        else if (value <? 0) || (width <? bit_length value) then Some "owner-enable proof known pattern exceeds its width"
        else None
      | _, _ => Some "owner-enable proof adapter has invalid known pattern"
      end
    end.

Definition remember_view (node : Node) (view : NodeView) : M unit := fun s =>
  (tt, mkImpl (reason s) (collision s) (cache s) (visiting s) (<[node := view]> (views s)) (budget s)).

Definition describe (node : Node) : M (option NodeView) :=
  let* paid := charge 1 in
  if negb paid then mret None
  else if reserved node then failed_with "owner-enable proof adapter uses a reserved node identity"
  else
    let* known := (fun s => (views s !! node, s)) in
    match known with
    | Some view => mret (Some view)
    | None =>
      match inspect with
      | None => mret None
      | Some f =>
        let* found := (fun s => let '(r, b) := f node (budget s) in (r, set_budget b s)) in
        unless_failed found (fun view =>
          match view_error view with
          | Some message => failed_with message
          | None =>
            let* paid := charge (1 + Z.of_nat (length (v_operands view))) in
            if negb paid then mret None else let* _ := remember_view node view in mret (Some view)
          end)
      end
    end.

Definition width (value : Node) : M (option (option Z)) :=
  let* view := describe value in unless_failed view (fun view => mret (Some (v_width view))).

Definition constant (value : Node) (depth : Z) : M (option (option Constant)) :=
  let* resolved := canonical value depth in
  unless_failed resolved (fun resolved =>
    let* view := describe resolved in unless_failed view (fun view => mret (Some (fullyKnown view)))).

(** ** The algebra of facts *)

(** The loop of [append] over the facts so far. *)
Fixpoint append_check (all prior : list Fact) (fact : Fact) : M Result :=
  match prior with
  | [] =>
    let* paid := charge 1 in
    if negb paid then mret Failure
    else if Nat.eqb (length all) 256 then fail "owner-enable proof fact budget exhausted"
    else mret (Facts (all ++ [fact]))
  | p :: rest =>
    let* paid := charge 1 in
    if negb paid then mret Failure
    else if same p fact then mret (Facts all)
    else if contradictory p fact then mret Impossible
    else append_check all rest fact
  end.

Definition append (result : Result) (fact : Fact) : M Result :=
  match result with Facts fs => append_check fs fs fact | _ => mret result end.

(** The loop of [conjunction]. *)
Fixpoint append_all (result : Result) (facts : list Fact) : M Result :=
  match facts with
  | [] => mret result
  | fact :: rest =>
    let* result := append result fact in
    match result with Facts _ => append_all result rest | _ => mret result end
  end.

Definition conjunction (a c : Result) : M Result :=
  let* paid := charge 1 in
  if negb paid then mret Failure
  else
    match a, c with
    | Failure, _ | _, Failure => mret Failure
    | Impossible, _ | _, Impossible => mret Impossible
    | Facts fa, Facts fc =>
      let* paid := charge (Z.of_nat (length fa)) in
      if negb paid then mret Failure else append_all a fc
    end.

(** The inner and the outer loop of [alternatives]. *)
Fixpoint find_same (left_ : Fact) (facts : list Fact) : M (option bool) :=
  match facts with
  | [] => mret (Some false)
  | right_ :: rest =>
    let* paid := charge 1 in
    if negb paid then mret None
    else if same left_ right_ then
      let* paid := charge 1 in
      if negb paid then mret None else mret (Some true)
    else find_same left_ rest
  end.

Fixpoint common_facts (left_ right_ : list Fact) (result : list Fact) : M Result :=
  match left_ with
  | [] => mret (Facts result)
  | fact :: rest =>
    let* found := find_same fact right_ in
    match found with
    | None => mret Failure
    | Some found => common_facts rest right_ (if found then result ++ [fact] else result)
    end
  end.

Definition alternatives (a c : Result) : M Result :=
  let* paid := charge 1 in
  if negb paid then mret Failure
  else
    match a, c with
    | Failure, _ | _, Failure => mret Failure
    | Impossible, _ => let* paid := charge (Z.of_nat (length (facts_of c))) in mret (if paid then c else Failure)
    | _, Impossible => let* paid := charge (Z.of_nat (length (facts_of a))) in mret (if paid then a else Failure)
    | Facts fa, Facts fc => common_facts fa fc []
    end.

(** ** Addresses *)

Definition sameAddress (value endpoint : Node) (depth : Z) : M (option bool) :=
  let* resolved := canonical value depth in
  unless_failed resolved (fun resolved =>
    if resolved =? endpoint then mret (Some true)
    else
      let* a := constant resolved depth in
      let* c := constant endpoint depth in
      unless_failed a (fun a => unless_failed c (fun c =>
        mret (Some match a, c with Some a, Some c => equalConstants a c | _, _ => false end)))).

(** Both sides, in the given order. *)
Definition sameAddresses (lhs rhs first second : Node) (depth : Z) : M (option bool) :=
  let* a := sameAddress lhs first depth in
  let* c := sameAddress rhs second depth in
  unless_failed a (fun a => unless_failed c (fun c => mret (Some (a && c)))).

Definition collisionComparison (lhs rhs : Node) (depth : Z) : M (option bool) := fun s =>
  match collision s with
  | None => (Some false, s)
  | Some (first, second) =>
    (let* straight := sameAddresses lhs rhs first second depth in
     unless_failed straight (fun straight =>
       if straight then mret (Some true) else sameAddresses lhs rhs second first depth)) s
  end.

(** ** Required facts *)

Definition query_key (s : Impl) (value : Node) (polarity : bool) : QueryKey :=
  (bool_decide (is_Some (collision s)), (default (0, 0) (collision s), (value, polarity))).

Definition enter (key : QueryKey) : M unit := fun s =>
  (tt, mkImpl (reason s) (collision s) (cache s) ({[key]} ∪ visiting s) (views s) (budget s)).
Definition leave_query (key : QueryKey) : M unit := fun s =>
  (tt, mkImpl (reason s) (collision s) (cache s) (visiting s ∖ {[key]}) (views s) (budget s)).
Definition remember_result (key : QueryKey) (r : Result) : M unit := fun s =>
  (tt, mkImpl (reason s) (collision s) (match cache s !! key with Some _ => cache s | None => <[key := r]> (cache s) end) (visiting s) (views s) (budget s)).

(** [result.kind = Impossible] where the condition holds. *)
Definition impossible_if (b : bool) : Result := if b then Impossible else Facts [].

Definition operand (view : NodeView) (i : nat) : Node := default 0 (v_operands view !! i).

(** The select node; [required] is the query of an operand at [depth]. *)
Definition required_select (required : Node -> bool -> M Result) (view : NodeView) (polarity : bool) (depth : Z) : M Result :=
  let* yes := canonical (operand view 1) depth in
  let* no := canonical (operand view 2) depth in
  match yes, no with
  | Some yes, Some no =>
    if yes =? no then required yes polarity
    else
      let* yesConstant := constant yes depth in
      let* noConstant := constant no depth in
      match yesConstant, noConstant with
      | Some (Some y), Some (Some n) =>
        if Bool.eqb (truth y) (truth n) then mret (impossible_if (negb (Bool.eqb (truth y) polarity)))
        else required (operand view 0) (Bool.eqb (truth y) polarity)
      | Some None, Some (Some n) =>
        let differs := negb (Bool.eqb polarity (truth n)) in
        let* guard := required (operand view 0) differs in
        let* branch := required yes polarity in
        if differs then conjunction guard branch else alternatives guard branch
      | Some (Some y), Some None =>
        let agrees := Bool.eqb polarity (truth y) in
        let* guard := required (operand view 0) agrees in
        let* branch := required no polarity in
        if agrees then alternatives guard branch else conjunction guard branch
      | Some None, Some None =>
        let* guardTrue := required (operand view 0) true in
        let* guardFalse := required (operand view 0) false in
        let* yesFacts := required yes polarity in
        let* noFacts := required no polarity in
        let* selectedTrue := conjunction guardTrue yesFacts in
        let* selectedFalse := conjunction guardFalse noFacts in
        let* common := conjunction yesFacts noFacts in
        let* either := alternatives selectedTrue selectedFalse in
        alternatives either common
      | _, _ => fail "owner-enable proof select constant analysis failed"
      end
  | _, _ => fail "owner-enable proof select analysis failed"
  end.

(** The comparison nodes. *)
Definition required_comparison (view : NodeView) (polarity : bool) (depth : Z) : M Result :=
  let* inCollision := collisionComparison (operand view 0) (operand view 1) depth in
  match inCollision with
  | None => fail "address proof equality endpoint analysis failed"
  | Some inCollision =>
    let equal := Bool.eqb (bool_decide (v_kind view = EqNode)) polarity in
    let result := impossible_if (inCollision && negb equal) in
    let* left_ := constant (operand view 0) depth in
    let* right_ := constant (operand view 1) depth in
    match left_, right_ with
    | Some (Some l), Some (Some r) =>
      let sameCode := (c_width l =? c_width r) && bool_decide (c_value l = c_value r) in
      mret (if Bool.eqb sameCode equal then result else Impossible)
    | Some (Some closed), Some None =>
      let* selector := canonical (operand view 1) depth in
      match selector with
      | Some selector => append result (mkFact selector equal (c_value closed) (c_width closed))
      | None => fail "owner-enable proof equality selector analysis failed"
      end
    | Some None, Some (Some closed) =>
      let* selector := canonical (operand view 0) depth in
      match selector with
      | Some selector => append result (mkFact selector equal (c_value closed) (c_width closed))
      | None => fail "owner-enable proof equality selector analysis failed"
      end
    | Some None, Some None => mret result
    | _, _ => fail "owner-enable proof equality constant analysis failed"
    end
  end.

(** The facts of a node whose view is known and whose value is not constant. *)
Definition required_node (required : Node -> bool -> M Result) (view : NodeView) (polarity : bool) (depth : Z) : M Result :=
  match v_kind view with
  | NotNode => required (operand view 0) (negb polarity)
  | AndNode | OrNode =>
    let* left_ := required (operand view 0) polarity in
    let* right_ := required (operand view 1) polarity in
    if Bool.eqb (bool_decide (v_kind view = AndNode)) polarity then conjunction left_ right_ else alternatives left_ right_
  | SelectNode => required_select required view polarity depth
  | EqNode | NeNode => required_comparison view polarity depth
  | Raw => mret (Facts [])
  end.

(** A query that is neither cached nor active. *)
Definition required_fresh (required : Node -> bool -> M Result) (key : QueryKey) (value : Node) (polarity : bool) (depth : Z) : M Result :=
  let* count := width value in
  match count with
  | None => fail "owner-enable proof width analysis failed"
  | Some count =>
    if negb (bool_decide (count = Some 1)) then fail "owner-enable proof requires one-bit enable"
    else
      let* inspected := describe value in
      match inspected with
      | None => fail "owner-enable proof node inspection failed"
      | Some view =>
        let* paid := charge (Z.of_nat (length (v_operands view))) in
        if negb paid then mret Failure
        else
          let* code := constant value depth in
          match code with
          | None => fail "owner-enable proof constant analysis failed"
          | Some code =>
            let* result := match code with
                           | Some code => mret (impossible_if (negb (Bool.eqb (truth code) polarity)))
                           | None => required_node required view polarity (depth + 1)
                           end in
            let* result := append result (mkFact value polarity None 0) in
            let* _ := leave_query key in
            match result with
            | Failure => mret Failure
            | _ =>
              let* paid := charge (Z.of_nat (length (facts_of result))) in
              if negb paid then mret Failure else let* _ := remember_result key result in mret result
            end
          end
      end
  end.

(** [required] with [room = 128 - depth] calls left below. *)
Fixpoint required (room : nat) (original : Node) (polarity : bool) : M Result :=
  let* paid := charge 1 in
  if negb paid then mret Failure
  else
    match room with
    | O => fail "owner-enable proof recursion budget exhausted"
    | S below =>
      let depth := 128 - Z.of_nat room in
      let* resolved := canonical original depth in
      match resolved with
      | None => fail "owner-enable proof normalization failed"
      | Some value =>
        let* key := (fun s => (query_key s value polarity, s)) in
        let* found := (fun s => (cache s !! key, s)) in
        match found with
        | Some r => let* paid := charge (Z.of_nat (length (facts_of r))) in mret (if paid then r else Failure)
        | None =>
          let* active := (fun s => (bool_decide (key ∈ visiting s), s)) in
          if active then fail "cycle in owner-enable proof queries"
          else
            let* _ := enter key in
            let* queries := (fun s => (size (cache s) + size (visiting s), s))%nat in
            if (4096 <? Z.of_nat queries) then fail "owner-enable proof query budget exhausted"
            else required_fresh (required below) key value polarity depth
        end
      end
    end.

(** ** The queries *)

Definition disjoint (first second : Node) : M (option bool) :=
  let* paid := charge 1 in
  if negb paid then mret None
  else
    let* left_ := required 128 first true in
    let* right_ := required 128 second true in
    let* together := conjunction left_ right_ in
    mret match together with Failure => None | Impossible => Some true | Facts _ => Some false end.

Definition set_collision (c : option (Node * Node)) : M unit := fun s =>
  (tt, mkImpl (reason s) c (cache s) (visiting s) (views s) (budget s)).

Definition disjointAtAddress (first second firstIndex secondIndex : Node) : M (option bool) :=
  let* left_ := canonical firstIndex 0 in
  let* right_ := canonical secondIndex 0 in
  unless_failed left_ (fun left_ => unless_failed right_ (fun right_ =>
    let* leftConstant := constant left_ 0 in
    let* rightConstant := constant right_ 0 in
    let* leftWidth := width left_ in
    let* rightWidth := width right_ in
    unless_failed leftConstant (fun leftConstant => unless_failed rightConstant (fun rightConstant =>
    unless_failed leftWidth (fun leftWidth => unless_failed rightWidth (fun rightWidth =>
      match leftWidth, rightWidth with
      | Some lw, Some rw =>
        let search : M (option bool) :=
          let* _ := set_collision (Some (left_, right_)) in
          let* result := disjoint first second in
          let* _ := set_collision None in
          mret result in
        match leftConstant, rightConstant with
        | Some l, Some r => if negb (equalConstants l r) then mret (Some true) else search
        | None, None => if negb (lw =? rw) then mret (Some false) else search
        | _, _ => search
        end
      | _, _ => failed_with "address proof requires typed Bits indices"
      end)))))).

(** ** The interface *)

Definition failureReason (s : Impl) : string := reason s.

(** The public methods, and a sequence of calls of them. *)
Inductive Query := Exclusive (first second : Node) | ExclusiveAt (first second firstIndex secondIndex : Node).

Definition ask (q : Query) : M (option bool) :=
  match q with
  | Exclusive a b => disjoint a b
  | ExclusiveAt a b i j => disjointAtAddress a b i j
  end.

Fixpoint ask_all (qs : list Query) : M (list (option bool)) :=
  match qs with
  | [] => mret []
  | q :: rest => let* answer := ask q in let* answers := ask_all rest in mret (answer :: answers)
  end.
End Impl.
