(* ===== verification/GrantProofSpec.v ===== *)
(** * What a proof of exclusive grants shows

    Nodes carry four-state signals.  The facts collected for an enable hold
    in every valuation that agrees with the graph, so that a contradiction
    between the facts of two enables means that they are never one together;
    with assumed addresses, that they are never one together while the
    addresses may be equal. *)

From Stdlib Require Import ZArith Lia String.
From stdpp Require Import base list numbers strings gmap.
From S2P Require Import Prelude Bits BitsLogic BitsShift BitsArith FourState FourStateSpec CompilerPrelude GrantProof.

Open Scope string_scope.
Open Scope Z_scope.

(** ** Signals *)

Record Signal := mkSignal { s_width : Z; s_lane : Z -> V4 }.

(** Lanes above the width are zero. *)
Definition lane_at (p : Signal) (n : Z) : V4 := if n <? s_width p then s_lane p n else V0.

(** The four-state comparison is one or zero. *)
Definition known_equal (p q : Signal) : Prop := forall n, 0 <= n -> lane_at p n = lane_at q n /\ known4 (lane_at p n) = true.
Definition known_unequal (p q : Signal) : Prop :=
  exists n, 0 <= n /\ known4 (lane_at p n) = true /\ known4 (lane_at q n) = true /\ lane_at p n <> lane_at q n.

Definition is_known (p : Signal) (z : Z) : Prop := forall n, 0 <= n -> lane_at p n = of_bool (Z.testbit z n).

(** The signal is known to be [b]. *)
Definition enabled (p : Signal) (b : bool) : Prop := s_lane p 0 = of_bool b.

Lemma of_bool_inj a b : of_bool a = of_bool b -> a = b.
Proof. destruct a, b; (reflexivity || discriminate). Qed.

Lemma known_of_bool b : known4 (of_bool b) = true.
Proof. destruct b; reflexivity. Qed.

Lemma equal_unequal p q : known_equal p q -> known_unequal p q -> False.
Proof. intros H (n & Hn & _ & _ & Hne). destruct (H n Hn). contradiction. Qed.

Lemma unequal_sym p q : known_unequal p q -> known_unequal q p.
Proof. intros (n & Hn & H1 & H2 & H3). exists n. auto. Qed.

(** Only the lanes matter. *)
Definition alike (p q : Signal) : Prop := forall n, 0 <= n -> lane_at p n = lane_at q n.

#[export] Instance alike_equivalence : Equivalence alike.
Proof. split; [intros p n _; reflexivity|intros p q H n Hn; symmetry; apply H, Hn|intros p q r H1 H2 n Hn; rewrite H1 by exact Hn; apply H2, Hn]. Qed.

#[export] Instance known_unequal_proper : Proper (alike ==> alike ==> iff) known_unequal.
Proof.
  intros p p' Hp q q' Hq. split; intros (n & Hn & H); exists n; rewrite ?(Hp n Hn), ?(Hq n Hn) in *; auto.
Qed.

Lemma is_known_alike p q z : is_known p z -> is_known q z -> alike p q.
Proof. intros Hp Hq n Hn. rewrite Hp, Hq by exact Hn. reflexivity. Qed.

Lemma is_known_equal p q z : known_equal p q -> is_known q z -> is_known p z.
Proof. intros H Hq n Hn. rewrite (proj1 (H n Hn)). apply Hq, Hn. Qed.

Lemma is_known_inj p x y : is_known p x -> is_known p y -> 0 <= x -> 0 <= y -> x = y.
Proof.
  intros Hx Hy H0x H0y. apply Z.bits_inj'. intros n Hn. apply of_bool_inj. rewrite <- (Hx n Hn), <- (Hy n Hn). reflexivity.
Qed.

(** ** Valuations of the graph *)

Section Valuation.
Variable signal : Node -> Signal.

(** The lane that a node of the kind has. *)
Definition lane_ok (kind : NodeKind) (operands : list Node) (node : Signal) : Prop :=
  match kind, operands with
  | Raw, _ => True
  | NotNode, [a] => s_lane node 0 = not4 (s_lane (signal a) 0)
  | AndNode, [a; c] => s_lane node 0 = and4 (s_lane (signal a) 0) (s_lane (signal c) 0)
  | OrNode, [a; c] => s_lane node 0 = or4 (s_lane (signal a) 0) (s_lane (signal c) 0)
  | SelectNode, [g; y; n] =>
    s_width (signal y) = s_width node /\ s_width (signal n) = s_width node /\
    s_lane node 0 = match s_lane (signal g) 0 with
                    | V1 => s_lane (signal y) 0
                    | V0 => s_lane (signal n) 0
                    | _ => merge4 (s_lane (signal y) 0) (s_lane (signal n) 0)
                    end
  | EqNode, [a; c] =>
    s_width (signal a) = s_width (signal c) /\
    (enabled node true <-> known_equal (signal a) (signal c)) /\ (enabled node false <-> known_unequal (signal a) (signal c))
  | NeNode, [a; c] =>
    s_width (signal a) = s_width (signal c) /\
    (enabled node false <-> known_equal (signal a) (signal c)) /\ (enabled node true <-> known_unequal (signal a) (signal c))
  | _, _ => False
  end.

(** A view describes the signal of its node. *)
Definition describes_node (node : Node) (view : NodeView) : Prop :=
  (forall w, v_width view = Some w -> s_width (signal node) = w) /\
  (forall c z, fullyKnown view = Some c -> c_value c = Some z -> is_known (signal node) z) /\
  lane_ok (v_kind view) (v_operands view) (signal node).

(** What a fact says. *)
Definition holds (f : Fact) : Prop :=
  match f_constant f with
  | None => enabled (signal (f_value f)) (f_polarity f)
  | Some z => 0 <= z /\
    if f_polarity f then is_known (signal (f_value f)) z
    else exists n, 0 <= n /\ known4 (lane_at (signal (f_value f)) n) = true /\ lane_at (signal (f_value f)) n <> of_bool (Z.testbit z n)
  end.

Lemma contradictory_sound a c : contradictory a c = true -> holds a -> holds c -> False.
Proof.
  unfold contradictory, holds. destruct (Z.eqb_spec (f_value a) (f_value c)) as [E|]; [|discriminate]. cbn [negb]. rewrite E.
  destruct (f_constant a) as [x|], (f_constant c) as [y|]; try discriminate.
  - destruct (f_width a =? f_width c); [|discriminate]. cbn [negb]. destruct (Z.eqb_spec x y) as [<-|Hne].
    + destruct (f_polarity a), (f_polarity c); try discriminate; intros _ [_ H1] [_ H2].
      * destruct H2 as (n & Hn & _ & H2). apply H2, H1, Hn.
      * destruct H1 as (n & Hn & _ & H1). apply H1, H2, Hn.
    + intros H. apply andb_true_iff in H as [-> ->]. intros [X0 X] [Y0 Y]. apply Hne. eapply is_known_inj; eassumption.
  - destruct (f_polarity a), (f_polarity c); try discriminate; unfold enabled; intros _ H1 H2; rewrite H1 in H2; discriminate.
Qed.

(** What a result says of a condition. *)
Definition entails (P : Prop) (r : Result) : Prop :=
  match r with Facts fs => P -> Forall holds fs | Impossible => ~ P | Failure => True end.

Lemma entails_weaken (P Q : Prop) r : (P -> Q) -> entails Q r -> entails P r.
Proof. intros H. destruct r; cbn; auto. Qed.

(** The assumption of a query: the addresses may be equal. *)
Definition may_collide (c : option (Node * Node)) : Prop :=
  match c with Some (i, j) => ~ known_unequal (signal i) (signal j) | None => True end.

Definition key_collision (key : QueryKey) : option (Node * Node) := if fst key then Some (fst (snd key)) else None.

Definition key_sound (key : QueryKey) (r : Result) : Prop :=
  may_collide (key_collision key) -> entails (enabled (signal (fst (snd (snd key)))) (snd (snd (snd key)))) r.
End Valuation.

(** ** Steps *)

Section Sound.
Context {Budget : Type}.
Variable canonicalize : option (Node -> Z -> Budget -> option Node * Budget).
Variable inspect : option (Node -> Budget -> option NodeView * Budget).
Variable debit : option (Z -> Budget -> bool * Budget).
Variable signal : Node -> Signal.

(** The callbacks agree with the valuation. *)
Hypothesis canonicalize_ok : forall f node depth b c b', canonicalize = Some f -> f node depth b = (Some c, b') -> signal c = signal node.
Hypothesis inspect_ok : forall f node b view b', inspect = Some f -> f node b = (Some view, b') -> describes_node signal node view.

#[local] Abbreviation Impl := (@Impl Budget).
#[local] Abbreviation M := (@M Budget).
#[local] Abbreviation holds := (holds signal).
#[local] Abbreviation entails := (entails signal).
#[local] Abbreviation enabled_at n b := (enabled (signal n) b).

Definition proof_ok (s : Impl) : Prop :=
  (forall n v, views s !! n = Some v -> describes_node signal n v /\ view_error v = None) /\
  (forall key r, cache s !! key = Some r -> key_sound signal key r).

(** A step from a sound state under the assumption [coll] ends in a sound
    state, with a value that satisfies [Q]. *)
Definition triple {A} (coll : option (Node * Node)) (m : M A) (Q : A -> Prop) : Prop :=
  forall s, proof_ok s -> collision s = coll -> let '(a, s') := m s in proof_ok s' /\ collision s' = coll /\ Q a.

Lemma triple_ret {A} coll (a : A) (Q : A -> Prop) : Q a -> triple coll (mret a) Q.
Proof. intros H s Hs Hc. cbn. auto. Qed.

Lemma triple_bind {A B} coll (m : M A) (k : A -> M B) P Q : triple coll m P -> (forall a, P a -> triple coll (k a) Q) -> triple coll (mthen m k) Q.
Proof.
  intros Hm Hk s Hs Hc. unfold mthen. specialize (Hm s Hs Hc). destruct (m s) as [a s1]. destruct Hm as (Hs1 & Hc1 & Pa). exact (Hk a Pa s1 Hs1 Hc1).
Qed.

Lemma triple_weaken {A} coll (m : M A) (P Q : A -> Prop) : (forall a, P a -> Q a) -> triple coll m P -> triple coll m Q.
Proof. intros H Hm s Hs Hc. specialize (Hm s Hs Hc). destruct (m s) as [a s1]. destruct Hm as (H1 & H2 & H3). auto. Qed.

(** A step that changes neither views, cache nor assumption. *)
Lemma triple_frame {A} coll (m : M A) : (forall s, let '(_, s') := m s in views s' = views s /\ cache s' = cache s /\ collision s' = collision s) ->
  triple coll m (fun _ => True).
Proof.
  intros H s Hs Hc. specialize (H s). destruct (m s) as [a s']. destruct H as (E1 & E2 & E3). split; [|split; [congruence|exact I]].
  unfold proof_ok. rewrite E1, E2. exact Hs.
Qed.

Lemma charge_triple coll n : triple coll (charge debit n) (fun _ => True).
Proof.
  apply triple_frame. intros s. unfold charge. destruct (negb _); [auto|]. destruct debit as [d|]; [|cbn; auto]. destruct (d n (budget s)) as [paid b].
  destruct paid; cbn; auto.
Qed.

Lemma fail_triple coll message : triple coll (fail message) (fun r => r = Failure).
Proof.
  intros s Hs Hc. unfold fail. case_bool_decide; cbn; split; auto.
Qed.

Lemma failed_triple {A} coll message (Q : option A -> Prop) : Q None -> triple coll (failed_with message) Q.
Proof. intros HQ. eapply triple_bind; [apply fail_triple|]. intros r _. apply triple_ret, HQ. Qed.

(** Fails, or gives a value with [P]. *)
Definition some {A} (P : A -> Prop) (o : option A) : Prop := match o with Some a => P a | None => True end.

Lemma unless_triple {A B} coll (a : option A) (k : A -> M (option B)) P Q : some P a -> (forall a, P a -> triple coll (k a) (some Q)) ->
  triple coll (unless_failed a k) (some Q).
Proof. destruct a as [a|]; cbn; [auto|]. intros _ _. apply triple_ret. exact I. Qed.

(** Runs a charge before the rest. *)
Lemma paid_triple {A} coll n (k : bool -> M A) Q : (forall b, triple coll (k b) Q) -> triple coll (mthen (charge debit n) k) Q.
Proof. intros H. eapply triple_bind; [apply charge_triple|]. intros b _. apply H. Qed.

Lemma canonical_triple coll node depth : triple coll (canonical canonicalize debit node depth) (some (fun c => signal c = signal node)).
Proof.
  apply paid_triple. intros [|]; cbn [negb]; [|apply triple_ret; exact I]. destruct canonicalize as [f|] eqn:Ef; [|apply failed_triple; exact I].
  destruct (128 <=? depth); [apply failed_triple; exact I|]. destruct (reserved node); [apply failed_triple; exact I|].
  apply triple_bind with (P := some (fun c => signal c = signal node)).
  - intros s Hs Hc. destruct (f node depth (budget s)) as [r b] eqn:Er. cbn. split; [exact Hs|]. split; [exact Hc|]. destruct r as [c|]; [|exact I].
    eapply canonicalize_ok; [reflexivity|exact Er].
  - intros found Hf. eapply unless_triple; [exact Hf|]. intros c Hc. destruct (reserved c); [apply failed_triple; exact I|apply triple_ret; exact Hc].
Qed.

Definition view_ok (n : Node) (v : NodeView) : Prop := describes_node signal n v /\ view_error v = None.

Lemma describe_triple coll node : triple coll (describe inspect debit node) (some (view_ok node)).
Proof.
  apply paid_triple. intros [|]; cbn [negb]; [|apply triple_ret; exact I]. destruct (reserved node); [apply failed_triple; exact I|].
  apply triple_bind with (P := some (view_ok node)).
  - intros s Hs Hc. split; [exact Hs|]. split; [exact Hc|]. destruct (views s !! node) as [v|] eqn:E; [exact (proj1 Hs _ _ E)|exact I].
  - intros known Hk. destruct known as [v|]; [apply triple_ret; exact Hk|]. destruct inspect as [f|] eqn:Ef; [|apply triple_ret; exact I].
    apply triple_bind with (P := some (describes_node signal node)).
    + intros s Hs Hc. destruct (f node (budget s)) as [r b] eqn:Er. cbn. split; [exact Hs|]. split; [exact Hc|]. destruct r as [v|]; [|exact I].
      eapply inspect_ok; [reflexivity|exact Er].
    + intros found Hf. eapply unless_triple; [exact Hf|]. intros v Hv. destruct (view_error v) eqn:Ee; [apply failed_triple; exact I|].
      apply paid_triple. intros [|]; cbn [negb]; [|apply triple_ret; exact I]. eapply triple_bind with (P := fun _ => True); [|intros _ _; apply triple_ret; split; assumption].
      intros s Hs Hc. cbn. split; [|auto]. split; cbn; [|exact (proj2 Hs)]. intros n v'. rewrite lookup_insert_Some. intros [[<- <-]|[_ H]]; [split; assumption|exact (proj1 Hs _ _ H)].
Qed.

(** A known constant fits the width of its signal. *)
Definition constant_ok (n : Node) (c : option Constant) : Prop :=
  forall k, c = Some k -> exists z, c_value k = Some z /\ 0 <= z /\ c_width k = s_width (signal n) /\ is_known (signal n) z /\ bit_length z <= c_width k /\ c_width k <> 0.

Lemma view_constant n v : view_ok n v -> constant_ok n (fullyKnown v).
Proof.
  intros [(Hw & Hk & _) He] k Ek. unfold view_error in He. rewrite Ek in He. destruct (negb _) eqn:Ea in He; [discriminate|].
  destruct (v_width v) as [w|] eqn:Ew; [|discriminate]. destruct (c_value k) as [z|] eqn:Ez; [|discriminate].
  destruct ((w =? 0) || negb (c_width k =? w)) eqn:E1; [discriminate|]. destruct ((z <? 0) || (w <? bit_length z)) eqn:E2; [discriminate|].
  exists z. specialize (Hw w eq_refl). specialize (Hk k z Ek Ez). repeat split; try lia; try assumption.
Qed.

Lemma constant_triple coll node depth : triple coll (constant canonicalize inspect debit node depth) (some (constant_ok node)).
Proof.
  eapply triple_bind; [apply canonical_triple|]. intros r Hr. eapply unless_triple; [exact Hr|]. intros c Hc. eapply triple_bind; [apply describe_triple|].
  intros v Hv. eapply unless_triple; [exact Hv|]. intros v' Hv'. apply triple_ret. cbn. pose proof (view_constant _ _ Hv') as H. unfold constant_ok in *. rewrite Hc in H. exact H.
Qed.

Lemma width_triple coll node : triple coll (width inspect debit node) (some (fun w => forall x, w = Some x -> s_width (signal node) = x)).
Proof.
  eapply triple_bind; [apply describe_triple|]. intros v Hv. eapply unless_triple; [exact Hv|]. intros v' [(Hw & _) _]. apply triple_ret. exact Hw.
Qed.

(** ** The algebra *)

Lemma append_check_triple coll all prior fact P : (P -> holds fact) -> (P -> Forall holds all) -> (forall f, f ∈ prior -> f ∈ all) ->
  triple coll (append_check debit all prior fact) (entails P).
Proof.
  intros Hf Hall. induction prior as [|p prior IH]; intros Hsub; cbn [append_check]; apply paid_triple; (intros [|]; cbn [negb]; [|apply triple_ret; exact I]).
  - destruct (Nat.eqb _ 256); [eapply triple_weaken; [|apply fail_triple]; intros r ->; exact I|]. apply triple_ret. intros HP. apply Forall_app. auto.
  - destruct (same p fact); [apply triple_ret; exact Hall|]. destruct (contradictory p fact) eqn:Ec.
    + apply triple_ret. intros HP. eapply contradictory_sound; [exact Ec| |apply Hf, HP]. specialize (Hall HP). rewrite Forall_forall in Hall. apply Hall, Hsub. left.
    + apply IH. intros f Hin. apply Hsub. right. exact Hin.
Qed.

Lemma append_triple coll r fact P : entails P r -> (P -> holds fact) -> triple coll (append debit r fact) (entails P).
Proof. intros Hr Hf. destruct r as [fs| |]; cbn [append]; [apply append_check_triple; auto|apply triple_ret, Hr|apply triple_ret; exact I]. Qed.

Lemma append_all_triple coll facts P : (P -> Forall holds facts) -> forall r, entails P r -> triple coll (append_all debit r facts) (entails P).
Proof.
  induction facts as [|f facts IH]; intros Hf r Hr; cbn [append_all]; [apply triple_ret, Hr|].
  eapply triple_bind; [apply append_triple; [exact Hr|intros HP; exact (Forall_inv (Hf HP))]|]. intros r' Hr'. destruct r' as [fs| |]; [|apply triple_ret, Hr'..].
  apply IH; [intros HP; exact (Forall_inv_tail (Hf HP))|exact Hr'].
Qed.

Lemma conjunction_triple coll a c P Q : entails P a -> entails Q c -> triple coll (conjunction debit a c) (entails (P /\ Q)).
Proof.
  intros Ha Hc. apply paid_triple. intros [|]; cbn [negb]; [|apply triple_ret; exact I].
  destruct a as [fa| |], c as [fc| |]; try (apply triple_ret; cbn in *; tauto). apply paid_triple. intros [|]; cbn [negb]; [|apply triple_ret; exact I].
  apply append_all_triple; [intros [_ HQ]; exact (Hc HQ)|intros [HP _]; exact (Ha HP)].
Qed.

Lemma find_same_triple coll left_ facts : triple coll (find_same debit left_ facts) (some (fun b => b = true -> left_ ∈ facts)).
Proof.
  induction facts as [|f facts IH]; cbn [find_same]; [apply triple_ret; discriminate|]. apply paid_triple. intros [|]; cbn [negb]; [|apply triple_ret; exact I].
  destruct (same left_ f) eqn:Es.
  - apply paid_triple. intros [|]; cbn [negb]; apply triple_ret; [|exact I]. intros _. unfold same in Es. apply bool_decide_eq_true in Es as ->. left.
  - eapply triple_weaken; [|exact IH]. intros [b|]; cbn; [|auto]. intros H E. right. exact (H E).
Qed.

Lemma common_triple coll right_ P : forall left_ acc, (P -> Forall holds acc) -> (P -> Forall holds left_ \/ Forall holds right_) ->
  triple coll (common_facts debit left_ right_ acc) (entails P).
Proof.
  induction left_ as [|f left_ IH]; intros acc Hacc H; cbn [common_facts]; [apply triple_ret; exact Hacc|].
  eapply triple_bind; [apply find_same_triple|]. intros [found|] Hf; [|apply triple_ret; exact I]. cbn in Hf. apply IH.
  - intros HP. destruct found; [|exact (Hacc HP)]. apply Forall_app. split; [exact (Hacc HP)|]. constructor; [|constructor].
    destruct (H HP) as [Hl|Hr]; [exact (Forall_inv Hl)|]. rewrite Forall_forall in Hr. apply Hr, Hf. reflexivity.
  - intros HP. destruct (H HP) as [Hl|Hr]; [left; exact (Forall_inv_tail Hl)|right; exact Hr].
Qed.

Lemma alternatives_triple coll a c P Q : entails P a -> entails Q c -> triple coll (alternatives debit a c) (entails (P \/ Q)).
Proof.
  intros Ha Hc. apply paid_triple. intros [|]; cbn [negb]; [|apply triple_ret; exact I].
  destruct a as [fa| |], c as [fc| |]; try (apply triple_ret; exact I); try (apply paid_triple; intros [|]; apply triple_ret; cbn in *; tauto).
  apply common_triple; [constructor|]. intros [HP|HQ]; [left; exact (Ha HP)|right; exact (Hc HQ)].
Qed.

(** ** Addresses *)

Lemma equal_constants_alike a c n m : constant_ok n (Some a) -> constant_ok m (Some c) -> equalConstants a c = true -> alike (signal n) (signal m).
Proof.
  intros Ha Hc E. destruct (Ha a eq_refl) as (x & Ex & _ & _ & Kx & _). destruct (Hc c eq_refl) as (y & Ey & _ & _ & Ky & _).
  unfold equalConstants in E. apply bool_decide_eq_true in E. rewrite Ex, Ey in E. injection E as <-. eapply is_known_alike; eassumption.
Qed.

Lemma sameAddress_triple coll value endpoint depth : triple coll (sameAddress canonicalize inspect debit value endpoint depth) (some (fun b => b = true -> alike (signal value) (signal endpoint))).
Proof.
  eapply triple_bind; [apply canonical_triple|]. intros r Hr. eapply unless_triple; [exact Hr|]. intros v Hv. destruct (Z.eqb_spec v endpoint) as [->|_].
  { apply triple_ret. intros _. rewrite Hv. reflexivity. }
  eapply triple_bind; [apply constant_triple|]. intros a Ha. eapply triple_bind; [apply constant_triple|]. intros c Hc.
  eapply unless_triple; [exact Ha|]. intros a' Ha'. eapply unless_triple; [exact Hc|]. intros c' Hc'. apply triple_ret. intros E.
  destruct a' as [a'|], c' as [c'|]; try discriminate. rewrite <- Hv. eapply equal_constants_alike; eassumption.
Qed.

Lemma sameAddresses_triple coll lhs rhs first second depth : triple coll (sameAddresses canonicalize inspect debit lhs rhs first second depth)
  (some (fun b => b = true -> known_unequal (signal lhs) (signal rhs) -> known_unequal (signal first) (signal second))).
Proof.
  eapply triple_bind; [apply sameAddress_triple|]. intros a Ha. eapply triple_bind; [apply sameAddress_triple|]. intros c Hc.
  eapply unless_triple; [exact Ha|]. intros a' Ha'. eapply unless_triple; [exact Hc|]. intros c' Hc'. apply triple_ret. intros E.
  apply andb_true_iff in E as [E1 E2]. rewrite (Ha' E1), (Hc' E2). auto.
Qed.

(** The comparison of two addresses that may be equal is not known unequal. *)
Lemma collisionComparison_triple coll lhs rhs depth : triple coll (collisionComparison canonicalize inspect debit lhs rhs depth)
  (some (fun b => b = true -> may_collide signal coll -> ~ known_unequal (signal lhs) (signal rhs))).
Proof.
  intros s Hs Hc. unfold collisionComparison. rewrite Hc. destruct coll as [[i j]|]; [|split; [exact Hs|split; [exact Hc|discriminate]]]. revert s Hs Hc.
  eapply triple_bind; [apply sameAddresses_triple|]. intros straight H1. eapply unless_triple; [exact H1|]. intros b Hb.
  destruct b; [apply triple_ret; intros _ Hm Hu; exact (Hm (Hb eq_refl Hu))|].
  eapply triple_weaken; [|apply sameAddresses_triple]. intros [b|] H; [|exact I]. intros E Hm Hu. exact (Hm (unequal_sym _ _ (H E Hu))).
Qed.

(** ** Comparisons *)

(** What a query asks: the signal, where the addresses may be equal. *)
Definition wanted (coll : option (Node * Node)) (n : Node) (b : bool) : Prop := may_collide signal coll /\ enabled_at n b.

Definition comparison_of (view : NodeView) (polarity : bool) : bool := Bool.eqb (bool_decide (v_kind view = EqNode)) polarity.

Lemma comparison_lane view n a c polarity : view_ok n view -> v_operands view = [a; c] -> v_kind view = EqNode \/ v_kind view = NeNode ->
  s_width (signal a) = s_width (signal c) /\
  (enabled_at n polarity -> if comparison_of view polarity then known_equal (signal a) (signal c) else known_unequal (signal a) (signal c)).
Proof.
  intros [(_ & _ & Hl) _] Eo Hk. unfold comparison_of. rewrite Eo in Hl. destruct Hk as [Ek|Ek]; rewrite Ek in *; cbn in Hl |- *; destruct Hl as (Hw & H1 & H2);
    (split; [exact Hw|]); destruct polarity; cbn; tauto.
Qed.

Lemma two_operands view n : view_ok n view -> arity_of (v_kind view) = 2%nat -> exists a c, v_operands view = [a; c].
Proof.
  intros [_ He] Ha. unfold view_error in He. destruct (Nat.eqb_spec (length (v_operands view)) (arity_of (v_kind view))) as [E|]; [|discriminate].
  rewrite Ha in E. destruct (v_operands view) as [|a [|c [|]]]; try discriminate. eauto.
Qed.

(** The fact that a comparison with a constant gives. *)
Lemma comparison_fact n m selector (equal : bool) closed : constant_ok m (Some closed) -> signal selector = signal n ->
  (if equal then known_equal (signal n) (signal m) else known_unequal (signal n) (signal m)) -> holds (mkFact selector equal (c_value closed) (c_width closed)).
Proof.
  intros Hc Es H. destruct (Hc closed eq_refl) as (z & Ez & Hz & _ & Kz & _). unfold GrantProofSpec.holds. cbn. rewrite Ez, Es. split; [exact Hz|]. destruct equal.
  - eapply is_known_equal; eassumption.
  - destruct H as (k & Hk & K1 & _ & Hne). exists k. rewrite <- (Kz k Hk). auto.
Qed.

Lemma comparison_sym (equal : bool) p q : (if equal then known_equal p q else known_unequal p q) -> if equal then known_equal q p else known_unequal q p.
Proof. destruct equal; [|apply unequal_sym]. intros H n Hn. destruct (H n Hn) as [E K]. rewrite <- E. auto. Qed.

(** Two constants decide their comparison. *)
Lemma comparison_constants n m l r (equal : bool) : constant_ok n (Some l) -> constant_ok m (Some r) -> s_width (signal n) = s_width (signal m) ->
  (if equal then known_equal (signal n) (signal m) else known_unequal (signal n) (signal m)) ->
  (c_width l =? c_width r) && bool_decide (c_value l = c_value r) = equal.
Proof.
  intros Hl Hr Hw H. destruct (Hl l eq_refl) as (x & Ex & X0 & Wx & Kx & _). destruct (Hr r eq_refl) as (y & Ey & Y0 & Wy & Ky & _).
  replace (c_width l =? c_width r) with true by (symmetry; apply Z.eqb_eq; congruence). rewrite Ex, Ey. cbn [andb]. destruct equal.
  - apply bool_decide_eq_true. f_equal. eapply is_known_inj; [exact Kx| |assumption..]. eapply is_known_equal; eassumption.
  - apply bool_decide_eq_false. intros [= <-]. destruct H as (k & Hk & _ & _ & Hne). apply Hne. rewrite Kx, Ky by exact Hk. reflexivity.
Qed.

Lemma fail_entails coll message P : triple coll (fail message) (entails P).
Proof. eapply triple_weaken; [|apply fail_triple]. intros r ->. exact I. Qed.

Lemma required_comparison_triple coll view value polarity depth : view_ok value view -> v_kind view = EqNode \/ v_kind view = NeNode ->
  triple coll (required_comparison canonicalize inspect debit view polarity depth) (entails (wanted coll value polarity)).
Proof.
  intros Hv Hk. destruct (two_operands view value Hv) as (a & c & Eo); [destruct Hk as [-> | ->]; reflexivity|].
  destruct (comparison_lane view value a c polarity Hv Eo Hk) as [Hw Hlane]. unfold required_comparison, operand. rewrite Eo. cbn [lookup list_lookup default].
  fold (comparison_of view polarity). set (equal := comparison_of view polarity) in *. change (default 0 (Some a)) with a. change (default 0 (Some c)) with c.
  eapply triple_bind; [apply collisionComparison_triple|]. intros [inC|] Hin; [|apply fail_entails]. cbn in Hin.
  assert (Hres : entails (wanted coll value polarity) (impossible_if (inC && negb equal))).
  { unfold impossible_if. destruct inC, equal; cbn; try (intros _; constructor). intros [Hm He]. exact (Hin eq_refl Hm (Hlane He)). }
  eapply triple_bind; [apply constant_triple|]. intros left_ Hl. eapply triple_bind; [apply constant_triple|]. intros right_ Hr.
  destruct left_ as [left_|]; [|apply fail_entails]. destruct right_ as [right_|]; [|destruct left_; apply fail_entails]. cbn in Hl, Hr.
  destruct left_ as [l|], right_ as [r|].
  - apply triple_ret. destruct (Bool.eqb _ _) eqn:E; [exact Hres|]. intros [_ He]. apply Bool.eqb_false_iff in E. apply E.
    eapply comparison_constants; [exact Hl|exact Hr|exact Hw|exact (Hlane He)].
  - eapply triple_bind; [apply canonical_triple|]. intros [sel|] Hs; [|apply fail_entails]. apply append_triple; [exact Hres|].
    intros [_ He]. eapply comparison_fact; [exact Hl|exact Hs|]. apply comparison_sym, Hlane, He.
  - eapply triple_bind; [apply canonical_triple|]. intros [sel|] Hs; [|apply fail_entails]. apply append_triple; [exact Hres|].
    intros [_ He]. eapply comparison_fact; [exact Hr|exact Hs|]. apply Hlane, He.
  - apply triple_ret, Hres.
Qed.

(** ** Selections *)

Lemma enabled_inj n a b : enabled_at n a -> enabled_at n b -> a = b.
Proof. unfold enabled. intros H1 H2. apply of_bool_inj. congruence. Qed.

(** A known one-bit signal is its truth. *)
Lemma constant_truth n k : constant_ok n (Some k) -> s_width (signal n) = 1 -> enabled_at n (truth k).
Proof.
  intros H Hw. destruct (H k eq_refl) as (z & Ez & Hz & Ew & Kz & Hb & _). unfold truth, enabled. rewrite Ez. specialize (Kz 0 ltac:(lia)).
  unfold lane_at in Kz. rewrite Hw in Kz. cbn in Kz. rewrite Kz. f_equal. rewrite Ew, Hw in Hb.
  assert (z = 0 \/ z = 1) as [-> | ->]; [|reflexivity..]. unfold bit_length in Hb. destruct (Z.eqb_spec z 0); [auto|].
  pose proof (Z.log2_nonneg z). assert (Z.log2 z = 0) as E by lia. apply Z.log2_null in E. lia.
Qed.

Lemma select_lane view n g y m polarity : view_ok n view -> v_kind view = SelectNode -> v_operands view = [g; y; m] ->
  s_width (signal y) = s_width (signal n) /\ s_width (signal m) = s_width (signal n) /\
  (enabled_at n polarity -> (enabled_at g true /\ enabled_at y polarity) \/ (enabled_at g false /\ enabled_at m polarity) \/ (enabled_at y polarity /\ enabled_at m polarity)).
Proof.
  intros [(_ & _ & Hl) _] Ek Eo. rewrite Ek, Eo in Hl. cbn in Hl. destruct Hl as (H1 & H2 & H3). split; [exact H1|]. split; [exact H2|].
  unfold enabled. rewrite H3. destruct polarity, (s_lane (signal g) 0), (s_lane (signal y) 0), (s_lane (signal m) 0); cbn; intros; try discriminate; auto.
Qed.

Definition query_ok coll (required : Node -> bool -> M Result) : Prop := forall n b, triple coll (required n b) (entails (wanted coll n b)).

Lemma impossible_entails P b : (b = true -> ~ P) -> entails P (impossible_if b).
Proof. unfold impossible_if. destruct b; cbn; [auto|]. constructor. Qed.

(** Answers for conditions that cover the wanted one. *)
Lemma conjunction_entails coll a c P Q R : entails P a -> entails Q c -> (R -> P /\ Q) -> triple coll (conjunction debit a c) (entails R).
Proof. intros Ha Hc H. eapply triple_weaken; [|apply conjunction_triple; eassumption]. intros r. apply entails_weaken, H. Qed.

Lemma alternatives_entails coll a c P Q R : entails P a -> entails Q c -> (R -> P \/ Q) -> triple coll (alternatives debit a c) (entails R).
Proof. intros Ha Hc H. eapply triple_weaken; [|apply alternatives_triple; eassumption]. intros r. apply entails_weaken, H. Qed.

Lemma required_select_triple coll required view value polarity depth : query_ok coll required -> view_ok value view -> v_kind view = SelectNode -> s_width (signal value) = 1 ->
  triple coll (required_select canonicalize inspect debit required view polarity depth) (entails (wanted coll value polarity)).
Proof.
  intros Hq Hv Hk Hw.
  assert (exists g y m, v_operands view = [g; y; m]) as (g & y & m & Eo).
  { destruct Hv as [_ He]. unfold view_error in He. rewrite Hk in He. destruct (v_operands view) as [|g [|y [|m [|]]]]; try discriminate. eauto. }
  destruct (select_lane view value g y m polarity Hv Hk Eo) as (Wy & Wm & Hlane). rewrite Hw in Wy, Wm. unfold required_select, operand. rewrite Eo.
  cbn [lookup list_lookup default]. change (default 0 (Some g)) with g. change (default 0 (Some y)) with y. change (default 0 (Some m)) with m.
  eapply triple_bind; [apply canonical_triple|]. intros yes Hyes. eapply triple_bind; [apply canonical_triple|]. intros no Hno.
  destruct yes as [yes|]; [|apply fail_entails]. destruct no as [no|]; [|apply fail_entails]. cbn in Hyes, Hno. rewrite <- Hyes in Wy, Hlane. rewrite <- Hno in Wm, Hlane.
  assert (Hcases : wanted coll value polarity -> (wanted coll g true /\ wanted coll yes polarity) \/ (wanted coll g false /\ wanted coll no polarity) \/ (wanted coll yes polarity /\ wanted coll no polarity)).
  { unfold wanted. tauto. }
  clear Hlane. destruct (Z.eqb_spec yes no) as [<-|_].
  { eapply triple_weaken; [|apply Hq]. intros r. apply entails_weaken. tauto. }
  eapply triple_bind; [apply constant_triple|]. intros yc Hyc. eapply triple_bind; [apply constant_triple|]. intros nc Hnc.
  destruct yc as [yc|]; [|apply fail_entails]. destruct nc as [nc|]; [|destruct yc; apply fail_entails]. cbn in Hyc, Hnc.
  assert (Hyt : forall k, yc = Some k -> wanted coll yes polarity -> truth k = polarity).
  { intros k -> [_ H]. eapply enabled_inj; [apply constant_truth; eassumption|exact H]. }
  assert (Hnt : forall k, nc = Some k -> wanted coll no polarity -> truth k = polarity).
  { intros k -> [_ H]. eapply enabled_inj; [apply constant_truth; eassumption|exact H]. }
  clear Hyc Hnc. destruct yc as [ky|], nc as [kn|].
  - specialize (Hyt ky eq_refl). specialize (Hnt kn eq_refl). destruct (Bool.eqb (truth ky) (truth kn)) eqn:E.
    + apply Bool.eqb_prop in E. apply triple_ret. apply impossible_entails. rewrite E in *. intros Hne H. apply Hcases in H.
      assert (truth kn = polarity) as Et by tauto. rewrite Et, Bool.eqb_reflx in Hne. discriminate.
    + apply Bool.eqb_false_iff in E. eapply triple_weaken; [|apply Hq]. intros r. apply entails_weaken. intros H. apply Hcases in H.
      destruct H as [[H1 H2]|[[H1 H2]|[H1 H2]]].
      * rewrite (Hyt H2), Bool.eqb_reflx. exact H1.
      * rewrite (Hnt H2) in E. apply Bool.eqb_false_iff in E. rewrite E. exact H1.
      * exfalso. apply E. rewrite (Hyt H1), (Hnt H2). reflexivity.
  - specialize (Hyt ky eq_refl). eapply triple_bind; [apply Hq|]. intros guard Hg. eapply triple_bind; [apply Hq|]. intros branch Hb.
    destruct (Bool.eqb polarity (truth ky)) eqn:E; [eapply alternatives_entails; [exact Hg|exact Hb|]; tauto|].
    apply Bool.eqb_false_iff in E. eapply conjunction_entails; [exact Hg|exact Hb|]. intros H. apply Hcases in H. intuition congruence.
  - specialize (Hnt kn eq_refl). eapply triple_bind; [apply Hq|]. intros guard Hg. eapply triple_bind; [apply Hq|]. intros branch Hb.
    destruct (Bool.eqb polarity (truth kn)) eqn:E; cbn [negb] in *; [eapply alternatives_entails; [exact Hg|exact Hb|]; tauto|].
    apply Bool.eqb_false_iff in E. eapply conjunction_entails; [exact Hg|exact Hb|]. intros H. apply Hcases in H. intuition congruence.
  - do 4 (eapply triple_bind; [apply Hq|]; intros ? ?). eapply triple_bind; [eapply conjunction_entails; [eassumption..|exact (fun H => H)]|]. intros st Hst.
    eapply triple_bind; [eapply conjunction_entails; [eassumption..|exact (fun H => H)]|]. intros sf Hsf.
    eapply triple_bind; [eapply conjunction_entails; [eassumption..|exact (fun H => H)]|]. intros common Hcommon.
    eapply triple_bind; [eapply alternatives_entails; [exact Hst|exact Hsf|exact (fun H => H)]|]. intros either He.
    eapply alternatives_entails; [exact He|exact Hcommon|]. tauto.
Qed.

(** ** Queries *)

Lemma logic_lane view n a c polarity : view_ok n view -> v_kind view = AndNode \/ v_kind view = OrNode -> v_operands view = [a; c] -> enabled_at n polarity ->
  if Bool.eqb (bool_decide (v_kind view = AndNode)) polarity then enabled_at a polarity /\ enabled_at c polarity else enabled_at a polarity \/ enabled_at c polarity.
Proof.
  intros [(_ & _ & Hl) _] Hk Eo. rewrite Eo in Hl. unfold enabled. destruct Hk as [Ek|Ek]; rewrite Ek in *; cbn in Hl |- *; rewrite Hl;
    case_bool_decide; try congruence; destruct polarity, (s_lane (signal a) 0), (s_lane (signal c) 0); cbn; intros E; try discriminate E; auto.
Qed.

Lemma not_lane view n polarity : view_ok n view -> v_kind view = NotNode -> enabled_at n polarity -> enabled_at (operand view 0) (negb polarity).
Proof.
  intros [(_ & _ & Hl) He] Ek. unfold view_error in He. rewrite Ek in *. unfold operand. destruct (v_operands view) as [|a [|]]; try discriminate. cbn in Hl |- *.
  unfold enabled. rewrite Hl. destruct polarity, (s_lane (signal a) 0); cbn; intros; try discriminate; auto.
Qed.

Lemma required_node_triple coll required view value polarity depth : query_ok coll required -> view_ok value view -> s_width (signal value) = 1 ->
  triple coll (required_node canonicalize inspect debit required view polarity depth) (entails (wanted coll value polarity)).
Proof.
  intros Hq Hv Hw. unfold required_node.
  assert (Hlogic : v_kind view = AndNode \/ v_kind view = OrNode -> triple coll
    (mthen (required (operand view 0) polarity) (fun left_ => mthen (required (operand view 1) polarity) (fun right_ =>
      if Bool.eqb (bool_decide (v_kind view = AndNode)) polarity then conjunction debit left_ right_ else alternatives debit left_ right_))) (entails (wanted coll value polarity))).
  { intros Hk. destruct (two_operands view value Hv) as (a & c & Eo); [destruct Hk as [-> | ->]; reflexivity|].
    pose proof (logic_lane view value a c polarity Hv Hk Eo) as Hlane. unfold operand. rewrite Eo. cbn [lookup list_lookup].
    eapply triple_bind; [apply Hq|]. intros l Hl. eapply triple_bind; [apply Hq|]. intros r Hr.
    destruct (Bool.eqb _ polarity); [eapply conjunction_entails|eapply alternatives_entails]; try eassumption; unfold wanted; tauto. }
  destruct (v_kind view) eqn:Ek.
  - apply triple_ret. cbn. constructor.
  - eapply triple_weaken; [|apply Hq]. intros r. apply entails_weaken. intros [H1 H2]. split; [exact H1|]. eapply not_lane; eassumption.
  - apply Hlogic. auto.
  - apply Hlogic. auto.
  - eapply required_select_triple; eassumption.
  - eapply required_comparison_triple; eauto.
  - eapply required_comparison_triple; eauto.
Qed.

(** The key of a query under an assumption. *)
Definition key_for (coll : option (Node * Node)) (n : Node) (b : bool) : QueryKey := (bool_decide (is_Some coll), (default (0, 0) coll, (n, b))).

Lemma key_sound_for coll n b r : key_sound signal (key_for coll n b) r <-> entails (wanted coll n b) r.
Proof.
  unfold key_sound, wanted. assert (key_collision (key_for coll n b) = coll) as -> by (destruct coll; reflexivity). cbn. destruct r; cbn; tauto.
Qed.

Lemma remember_triple coll n b r : entails (wanted coll n b) r -> triple coll (remember_result (key_for coll n b) r) (fun _ => True).
Proof.
  intros Hr s Hs Hc. cbn. split; [|auto]. split; [exact (proj1 Hs)|]. cbn. intros key r'. destruct (cache s !! key_for coll n b) eqn:E; [apply Hs|].
  rewrite lookup_insert_Some. intros [[<- <-]|[_ H]]; [apply key_sound_for, Hr|exact (proj2 Hs _ _ H)].
Qed.

Lemma required_fresh_triple coll required value polarity depth : query_ok coll required ->
  triple coll (required_fresh canonicalize inspect debit required (key_for coll value polarity) value polarity depth) (entails (wanted coll value polarity)).
Proof.
  intros Hq. eapply triple_bind; [apply width_triple|]. intros [w|] Hw; [|apply fail_entails]. cbn in Hw.
  destruct (bool_decide (w = Some 1)) eqn:Ew; cbn [negb]; [|apply fail_entails]. apply bool_decide_eq_true in Ew. specialize (Hw 1 Ew).
  eapply triple_bind; [apply describe_triple|]. intros [view|] Hv; [|apply fail_entails]. apply paid_triple. intros [|]; cbn [negb]; [|apply triple_ret; exact I].
  eapply triple_bind; [apply constant_triple|]. intros [code|] Hcode; [|apply fail_entails]. cbn in Hcode.
  eapply triple_bind with (P := entails (wanted coll value polarity)).
  { destruct code as [k|]; [|apply required_node_triple; assumption]. apply triple_ret, impossible_entails. intros Hne [_ He].
    rewrite (enabled_inj _ _ _ (constant_truth _ _ Hcode Hw) He), Bool.eqb_reflx in Hne. discriminate. }
  intros r Hr. eapply triple_bind; [apply append_triple with (P := wanted coll value polarity); [exact Hr|intros [_ He]; exact He]|]. clear r Hr. intros r Hr.
  eapply triple_bind; [apply triple_frame; intros s; cbn; auto|]. intros _ _.
  assert (Hend : triple coll (mthen (charge debit (Z.of_nat (length (facts_of r)))) (fun paid => if negb paid then mret Failure else mthen (remember_result (key_for coll value polarity) r) (fun _ => mret r)))
    (entails (wanted coll value polarity))).
  { apply paid_triple. intros [|]; cbn [negb]; [|apply triple_ret; exact I]. eapply triple_bind; [apply remember_triple, Hr|]. intros _ _. apply triple_ret, Hr. }
  destruct r as [fs| |]; [exact Hend|exact Hend|apply triple_ret; exact I].
Qed.

(** Every answer follows from what is asked. *)
Lemma required_triple coll room : query_ok coll (required canonicalize inspect debit room).
Proof.
  induction room as [|room IH]; intros n b; cbn [required]; apply paid_triple; (intros [|]; cbn [negb]; [|apply triple_ret; exact I]); [apply fail_entails|].
  eapply triple_bind; [apply canonical_triple|]. intros [value|] Hv; [|apply fail_entails]. cbn in Hv.
  assert (Hsame : wanted coll n b <-> wanted coll value b) by (unfold wanted; rewrite Hv; reflexivity).
  eapply triple_weaken; [intros r; apply entails_weaken, Hsame|].
  eapply triple_bind with (P := fun key => key = key_for coll value b).
  { intros s Hs Hc. split; [exact Hs|]. split; [exact Hc|]. unfold query_key, key_for. rewrite Hc. reflexivity. }
  intros key ->. eapply triple_bind with (P := fun found => forall r, found = Some r -> entails (wanted coll value b) r).
  { intros s Hs Hc. split; [exact Hs|]. split; [exact Hc|]. intros r E. apply key_sound_for. exact (proj2 Hs _ _ E). }
  intros [r|] Hr; [apply paid_triple; intros [|]; apply triple_ret; [apply Hr; reflexivity|exact I]|].
  eapply triple_bind; [apply triple_frame; intros s; auto|]. intros active _. destruct active; [apply fail_entails|].
  eapply triple_bind; [apply triple_frame; intros s; cbn; auto|]. intros _ _. eapply triple_bind; [apply triple_frame; intros s; auto|]. intros queries _.
  destruct (4096 <? _); [apply fail_entails|]. apply required_fresh_triple, IH.
Qed.

Lemma disjoint_triple coll first second : triple coll (disjoint canonicalize inspect debit first second)
  (fun r => r = Some true -> ~ (wanted coll first true /\ wanted coll second true)).
Proof.
  unfold disjoint. apply paid_triple. intros [|]; cbn [negb]; [|apply triple_ret; discriminate]. eapply triple_bind; [apply required_triple|]. intros l Hl.
  eapply triple_bind; [apply required_triple|]. intros r Hr. eapply triple_bind; [apply conjunction_triple; eassumption|]. intros [fs| |] Ht; apply triple_ret; try discriminate.
  intros _. exact Ht.
Qed.

(** ** Questions of the owner *)

(** What the answer [true] promises. *)
Definition exclusive (q : Query) : Prop :=
  match q with
  | Exclusive first second => ~ (enabled_at first true /\ enabled_at second true)
  | ExclusiveAt first second i j => ~ (enabled_at first true /\ enabled_at second true /\ ~ known_unequal (signal i) (signal j))
  end.

Lemma different_constants n m l r : constant_ok n (Some l) -> constant_ok m (Some r) -> equalConstants l r = false -> known_unequal (signal n) (signal m).
Proof.
  intros Hl Hr E. destruct (Hl l eq_refl) as (x & Ex & X0 & _ & Kx & _). destruct (Hr r eq_refl) as (y & Ey & Y0 & _ & Ky & _).
  unfold equalConstants in E. apply bool_decide_eq_false in E. rewrite Ex, Ey in E. set (k := Z.log2 (Z.lxor x y)).
  assert (0 <= k) as Hk by apply Z.log2_nonneg. exists k. split; [exact Hk|]. rewrite Kx, Ky by exact Hk. repeat split; [apply known_of_bool..|].
  intros Hb. apply of_bool_inj in Hb. assert (Z.lxor x y <> 0) as Hx by (rewrite Z.lxor_eq_0_iff; congruence).
  assert (0 <= Z.lxor x y) by (apply Z.lxor_nonneg; lia). pose proof (Z.bit_log2 (Z.lxor x y) ltac:(lia)) as Hbit. fold k in Hbit.
  rewrite Z.lxor_spec, Hb, xorb_nilpotent in Hbit. discriminate.
Qed.

(** The query under the assumption that two addresses may be equal. *)
Lemma assume_triple (first second i j : Node) :
  triple None (mthen (set_collision (Some (i, j))) (fun _ => mthen (disjoint canonicalize inspect debit first second) (fun result => mthen (set_collision None) (fun _ => mret result))))
    (fun r => r = Some true -> exclusive (ExclusiveAt first second i j)).
Proof.
  intros s Hs Hc. unfold mthen, set_collision at 1. pose proof (disjoint_triple (Some (i, j)) first second (mkImpl (reason s) (Some (i, j)) (cache s) (visiting s) (views s) (budget s)) Hs eq_refl) as H.
  destruct (disjoint canonicalize inspect debit first second _) as [r s1]. destruct H as (H1 & _ & H3). cbn. split; [exact H1|]. split; [reflexivity|].
  intros E. specialize (H3 E). unfold wanted, may_collide in H3. tauto.
Qed.

Lemma disjointAtAddress_triple first second i j : triple None (disjointAtAddress canonicalize inspect debit first second i j)
  (fun r => r = Some true -> exclusive (ExclusiveAt first second i j)).
Proof.
  apply (triple_weaken None _ (some (fun b => b = true -> exclusive (ExclusiveAt first second i j)))); [intros [b|] H E; [injection E as ->; exact (H eq_refl)|discriminate]|].
  eapply triple_bind; [apply canonical_triple|]. intros l Hl. eapply triple_bind; [apply canonical_triple|]. intros r Hr.
  eapply unless_triple; [exact Hl|]. clear l Hl. intros l Hl. eapply unless_triple; [exact Hr|]. clear r Hr. intros r Hr.
  eapply triple_bind; [apply constant_triple|]. intros lc Hlc. eapply triple_bind; [apply constant_triple|]. intros rc Hrc.
  eapply triple_bind; [apply width_triple|]. intros lw Hlw. eapply triple_bind; [apply width_triple|]. intros rw Hrw.
  eapply unless_triple; [exact Hlc|]. clear lc Hlc. intros lc Hlc. eapply unless_triple; [exact Hrc|]. clear rc Hrc. intros rc Hrc.
  eapply unless_triple; [exact Hlw|]. clear lw Hlw. intros lw _. eapply unless_triple; [exact Hrw|]. clear rw Hrw. intros rw _.
  destruct lw as [lw|]; [|apply failed_triple; exact I]. destruct rw as [rw|]; [|apply failed_triple; exact I].
  unfold exclusive. rewrite <- Hl, <- Hr. fold (exclusive (ExclusiveAt first second l r)).
  set (search := mthen _ _). assert (Hsearch : triple None search (some (fun b => b = true -> exclusive (ExclusiveAt first second l r)))).
  { eapply triple_weaken; [|apply assume_triple]. intros [b|] H; [|exact I]. intros ->. exact (H eq_refl). }
  destruct lc as [lc|], rc as [rc|].
  - destruct (equalConstants lc rc) eqn:E; [exact Hsearch|]. apply triple_ret. intros _ (_ & _ & H). apply H. eapply different_constants; eassumption.
  - exact Hsearch.
  - exact Hsearch.
  - destruct (lw =? rw); [exact Hsearch|]. apply triple_ret. discriminate.
Qed.

Lemma ask_triple q : triple None (ask canonicalize inspect debit q) (fun r => r = Some true -> exclusive q).
Proof.
  destruct q; [|apply disjointAtAddress_triple]. eapply triple_weaken; [|apply disjoint_triple]. intros r H E. specialize (H E). unfold wanted in H. cbn in *. tauto.
Qed.

Lemma ask_all_triple qs : triple None (ask_all canonicalize inspect debit qs) (Forall2 (fun q r => r = Some true -> exclusive q) qs).
Proof.
  induction qs as [|q qs IH]; cbn [ask_all]; [apply triple_ret; constructor|]. eapply triple_bind; [apply ask_triple|]. intros r Hr.
  eapply triple_bind; [apply IH|]. intros rs Hrs. apply triple_ret. constructor; assumption.
Qed.

(** C18: proofs of exclusive grants are sound.  Let every node carry a
    four-state signal, of any width, that agrees with what the callbacks say of
    it: a canonical node carries the signal of the node that it stands for, and
    the width, constant, and the operator of an inspected node are those of its
    signal.  Then in any sequence of questions to one proof object, whatever
    the budget pays and whatever was cached by earlier ones, every answer
    [true] of [disjoint] means that the two enables are never known one
    together; and every answer [true] of [disjointAtAddress], that they are
    never known one together unless the two indices are known to differ. *)
Theorem grant_proofs_sound b qs :
  Forall2 (fun q r => r = Some true -> exclusive q) qs (fst (ask_all canonicalize inspect debit qs (new_proof b))).
Proof.
  assert (proof_ok (new_proof b)) as H by (split; intros ? ?; cbn; rewrite lookup_empty; discriminate).
  pose proof (ask_all_triple qs (new_proof b) H eq_refl) as H1. destruct (ask_all _ _ _ _ _). exact (proj2 (proj2 H1)).
Qed.
End Sound.

(** ** The operators of the runtime *)

(** The signal of a runtime value. *)
Definition signal_of {W} (x : FourState W) : Signal := mkSignal W (lane x).

(** The operator returns the signal of a node of the kind. *)
Definition computes {W} (signal : Node -> Signal) (m : outcome (FourState W)) (kind : NodeKind) (operands : list Node) : Prop :=
  exists r, m = Ret r /\ lane_ok signal kind operands (signal_of r).

Section Runtime.
Context {W : Z} `{HW : PosWidth W}.
Implicit Types x y : FourState W.

Lemma lane_of x n : 0 <= n < W -> lane_at (signal_of x) n = lane x n.
Proof. intros H. unfold lane_at, signal_of. cbn [s_width s_lane]. destruct (Z.ltb_spec n W); [reflexivity|lia]. Qed.

Lemma known_unequal_of x y : known_unequal (signal_of x) (signal_of y) <-> exists n, 0 <= n < W /\ differ x y n = true.
Proof.
  split; intros (n & Hn & H).
  - unfold lane_at in H. cbn [signal_of s_width s_lane] in H. destruct (Z.ltb_spec n W); [|tauto]. exists n. split; [lia|]. unfold differ.
    destruct H as (H1 & H2 & H3). destruct (lane x n), (lane y n); (discriminate || congruence || reflexivity).
  - exists n. split; [lia|]. rewrite !lane_of by exact Hn. unfold differ in H. destruct (lane x n), (lane y n); (discriminate || (cbn; split; [reflexivity|split; [reflexivity|discriminate]])).
Qed.

Lemma known_equal_of x y : fs_wf x -> fs_wf y -> known_equal (signal_of x) (signal_of y) <-> both_known x y = true /\ ~ exists n, 0 <= n < W /\ differ x y n = true.
Proof using HW.
  intros Hx Hy. unfold both_known. rewrite andb_true_iff, !isFullyKnown_spec by assumption. split.
  - intros H. split; [split; intros n Hn; destruct (H n ltac:(lia)) as [E K]; rewrite !lane_of in * by exact Hn; congruence|].
    rewrite <- known_unequal_of. intros Hu. exact (equal_unequal _ _ H Hu).
  - intros [[Kx Ky] Hd] n Hn. destruct (Z.lt_ge_cases n W) as [Hlt|Hge].
    + rewrite !lane_of by lia. split; [|apply Kx; lia]. specialize (Kx n ltac:(lia)). specialize (Ky n ltac:(lia)).
      destruct (differ x y n) eqn:E; [exfalso; apply Hd; exists n; split; [lia|exact E]|]. unfold differ in E. destruct (lane x n), (lane y n); (discriminate || reflexivity).
    + unfold lane_at. cbn [signal_of s_width]. destruct (Z.ltb_spec n W); [lia|]. auto.
Qed.

Lemma enabled_V4 v b : enabled (signal_of (fs_of_V4 v)) b <-> v = of_bool b.
Proof.
  unfold enabled. cbn [signal_of s_lane]. destruct v, b; cbn [fs_of_V4]; unfold fs_bool; rewrite ?lane_fs_x, ?lane_fs_of by lia; cbn; split; (reflexivity || discriminate).
Qed.

Lemma eq4_equal x y : fs_wf x -> fs_wf y -> (eq4 x y = V1 <-> known_equal (signal_of x) (signal_of y)) /\ (eq4 x y = V0 <-> known_unequal (signal_of x) (signal_of y)).
Proof using HW.
  intros Hx Hy. rewrite known_equal_of, known_unequal_of by assumption. rewrite <- difference_spec by assumption. unfold eq4.
  destruct (bits_ne _ _), (both_known x y); intuition congruence.
Qed.

Lemma returns_lane (m : outcome (FourState W)) spec : returns m spec -> exists r, m = Ret r /\ lane r 0 = spec 0.
Proof using HW. intros (r & E & _ & H). exists r. split; [exact E|]. apply H. pose proof (W_pos (W:=W)). lia. Qed.
End Runtime.

(** The operators that a proof of exclusive grants reads are those that
    the generated simulator computes.  For well-formed runtime values, the
    four-state [~], [&], [|], selection and the comparisons [==] and [!=]
    return without an exception, and their results are signals that the nodes
    Not, And, Or, Select, Eq and Ne of the proof may have: unknown and
    high-impedance lanes are treated alike by both. *)
Theorem runtime_operators_describe {W} `{HW : PosWidth W} signal (x y : FourState W) (guard : FourState 1) (g a c : Node) :
  fs_wf x -> fs_wf y -> fs_wf guard -> signal g = signal_of guard -> signal a = signal_of x -> signal c = signal_of y ->
  computes signal (FS.bit_not x) NotNode [a] /\
  computes signal (FS.bit_and x y) AndNode [a; c] /\
  computes signal (FS.bit_or x y) OrNode [a; c] /\
  computes signal (FS.select guard x y) SelectNode [g; a; c] /\
  computes signal (FS.compare EQ x y) EqNode [a; c] /\
  computes signal (FS.compare NE x y) NeNode [a; c].
Proof.
  intros Hx Hy Hg Eg Ea Ec. unfold computes, lane_ok. rewrite Eg, Ea, Ec. cbn [signal_of s_lane s_width]. destruct (eq4_equal x y Hx Hy) as [He Hu].
  split; [exact (returns_lane _ _ (bit_not_spec x Hx))|]. split; [exact (returns_lane _ _ (bit_and_spec x y Hx Hy))|]. split; [exact (returns_lane _ _ (bit_or_spec x y Hx Hy))|].
  split; [destruct (returns_lane _ _ (select_spec guard x y Hg Hx Hy)) as (r & E & Hr); exists r; auto|].
  split; (eexists; split; [apply compare_spec; assumption|]; split; [reflexivity|]); rewrite !enabled_V4; cbn [of_bool].
  - split; [exact He|exact Hu].
  - rewrite <- He, <- Hu. destruct (eq4 x y); cbn; intuition congruence.
Qed.

Module GrantWitness.
(** Two grants of a register file: [0] writes at address [2]; [7] writes at
    address [3], unless [0] is one at an address that may be the same. *)
Definition graph : list NodeView :=
  [ mkView Raw [] (Some 1) None; mkView NotNode [0] (Some 1) None; mkView Raw [] (Some 2) None; mkView Raw [] (Some 2) None;
    mkView NeNode [2; 3] (Some 1) None; mkView Raw [] (Some 1) None; mkView OrNode [1; 4] (Some 1) None; mkView AndNode [5; 6] (Some 1) None;
    mkView Raw [] (Some 1) (Some (mkConstant (Some 1) 1)); mkView Raw [] (Some 1) (Some (mkConstant (Some 0) 1)); mkView SelectNode [0; 8; 9] (Some 1) None ].

Definition node (n : Node) : option NodeView := if 0 <=? n then graph !! Z.to_nat n else None.
Definition canonicalize (n : Node) (_ : Z) (left_ : Z) : option Node * Z := (match node n with Some _ => Some n | None => None end, left_).
Definition inspect (n : Node) (left_ : Z) : option NodeView * Z := (node n, left_).
Definition debit (units left_ : Z) : bool * Z := if left_ <? units then (false, left_) else (true, left_ - units).

(** The second address has an unknown bit, so the comparison is unknown. *)
Definition signal (n : Node) : Signal :=
  mkSignal (if (n =? 2) || (n =? 3) then 2 else 1)
    (fun k => match n, k with
              | 0, _ | 5, _ | 8, _ | 10, _ => V1
              | 1, _ | 9, _ => V0
              | 2, 0 | 3, 0 => V1
              | 2, _ => V0
              | _, _ => VX
              end).

Lemma second_bit_unknown : ~ known_equal (signal 2) (signal 3) /\ ~ known_unequal (signal 2) (signal 3).
Proof.
  split.
  - intros H. destruct (H 1 ltac:(lia)) as [E _]. discriminate E.
  - intros (n & Hn & _ & H2 & H3). assert (n = 0 \/ n = 1 \/ 2 <= n) as [-> | [-> | Hge]] by lia; [apply H3; reflexivity|discriminate H2|].
    apply H3. unfold lane_at. change (s_width (signal 2)) with 2. change (s_width (signal 3)) with 2. destruct (Z.ltb_spec n 2); [lia|reflexivity].
Qed.

Lemma constant_known n z : signal n = signal 8 /\ z = 1 \/ signal n = signal 9 /\ z = 0 -> is_known (signal n) z.
Proof.
  intros [[-> ->]|[-> ->]] k Hk; unfold lane_at; [change (s_width (signal 8)) with 1|change (s_width (signal 9)) with 1];
    (destruct (Z.ltb_spec k 1); [assert (k = 0) as -> by lia; reflexivity|]).
  - rewrite Z.bits_above_log2 by (cbn; lia). reflexivity.
  - rewrite Z.bits_0. reflexivity.
Qed.

Lemma graph_described n v : node n = Some v -> describes_node signal n v.
Proof.
  unfold node. destruct (Z.leb_spec 0 n); [|discriminate]. pose proof second_bit_unknown as [H1 H2]. rewrite <- (Z2Nat.id n) at 2 by lia.
  generalize (Z.to_nat n). intros k Hv. do 11 (destruct k as [|k];
    [injection Hv as <-; (split; [intros w [= <-]; reflexivity|]; split; [intros c z; try discriminate; intros [= <-] [= <-]; apply constant_known; tauto|]);
       cbn; unfold enabled; cbn; first [tauto | reflexivity | split; [reflexivity|]; split; (split; [discriminate|tauto])]|]).
  discriminate Hv.
Qed.

Definition questions : list Query := [Exclusive 0 1; ExclusiveAt 0 7 2 3; Exclusive 0 7; Exclusive 10 1].

(** The answers, within a budget of a thousand units. *)
Lemma grant_proofs_sound_witness :
  fst (ask_all (Some canonicalize) (Some inspect) (Some debit) questions (new_proof 1000)) = [Some true; Some true; Some false; Some true] /\
  Forall2 (fun q r => r = Some true -> exclusive signal q) questions [Some true; Some true; Some false; Some true].
Proof.
  assert (E : fst (ask_all (Some canonicalize) (Some inspect) (Some debit) questions (new_proof 1000)) = [Some true; Some true; Some false; Some true]) by (vm_compute; reflexivity).
  split; [exact E|]. rewrite <- E. apply (grant_proofs_sound (Some canonicalize) (Some inspect) (Some debit) signal).
  - intros f n d b c b' [= <-]. unfold canonicalize. destruct (node n); congruence.
  - intros f n b view b' [= <-] [= Hv _]. apply graph_described, Hv.
Defined.

Lemma runtime_operators_describe_witness :
  computes (fun n => if n =? 0 then signal_of (fs_bool true) else signal_of (fs_x (bits_of_word 1 0))) (FS.compare EQ (fs_bool true) (fs_x (bits_of_word 1 0))) EqNode [0; 1].
Proof.
  refine (proj1 (proj2 (proj2 (proj2 (proj2 (runtime_operators_describe _ (fs_bool true) (fs_x (bits_of_word 1 0)) (fs_bool true) 0 0 1 _ _ _ _ _ _))))));
    first [reflexivity | apply fs_wfb_sound; reflexivity].
Defined.
End GrantWitness.
