(* ===== verification/GrantFailures.v ===== *)
(** * Failures of a proof of exclusive grants

    A proof that fails says why, and stays failed: nothing after the first
    reason reaches the callbacks. *)

From Stdlib Require Import ZArith Lia String.
From stdpp Require Import base list numbers strings gmap.
From S2P Require Import Prelude CompilerPrelude GrantProof.

Open Scope string_scope.
Open Scope Z_scope.

Section Failures.
Context {Budget : Type}.
Variable canonicalize : option (Node -> Z -> Budget -> option Node * Budget).
Variable inspect : option (Node -> Budget -> option NodeView * Budget).
Variable debit : option (Z -> Budget -> bool * Budget).

#[local] Abbreviation Impl := (@Impl Budget).
#[local] Abbreviation M := (@M Budget).

(** Failures are not cached. *)
Definition no_failure (s : Impl) : Prop := forall key r, cache s !! key = Some r -> r <> Failure.

(** A step that ends without a reason began without one, and its value
    satisfies [Q]. *)
Definition quiet {A} (m : M A) (Q : A -> Prop) : Prop :=
  forall s, no_failure s -> let '(a, s') := m s in no_failure s' /\ (reason s' = "" -> reason s = "" /\ Q a).

Lemma quiet_ret {A} (a : A) (Q : A -> Prop) : Q a -> quiet (mret a) Q.
Proof. intros H s Hs. cbn. auto. Qed.

Lemma quiet_bind {A B} (m : M A) (k : A -> M B) (P : A -> Prop) (Q : B -> Prop) : quiet m P -> (forall a, quiet (k a) (fun b => P a -> Q b)) -> quiet (mthen m k) Q.
Proof.
  intros Hm Hk s Hs. unfold mthen. specialize (Hm s Hs). destruct (m s) as [a s1]. destruct Hm as [Hs1 H1]. specialize (Hk a s1 Hs1). destruct (k a s1) as [b s2].
  destruct Hk as [Hs2 H2]. split; [exact Hs2|]. intros E. destruct (H2 E) as [E1 HQ]. destruct (H1 E1) as [E0 HP]. auto.
Qed.

Lemma quiet_weaken {A} (m : M A) (P Q : A -> Prop) : quiet m P -> (forall a, P a -> Q a) -> quiet m Q.
Proof. intros Hm H s Hs. specialize (Hm s Hs). destruct (m s) as [a s1]. destruct Hm as [H1 H2]. split; [exact H1|]. intros E. destruct (H2 E). auto. Qed.

(** A step that keeps cache and reason. *)
Lemma quiet_frame {A} (m : M A) (Q : A -> Prop) : (forall s, let '(a, s') := m s in cache s' = cache s /\ reason s' = reason s /\ Q a) -> quiet m Q.
Proof.
  intros H s Hs. specialize (H s). destruct (m s) as [a s']. destruct H as (E1 & E2 & HQ). split; [unfold no_failure; rewrite E1; exact Hs|]. rewrite E2. auto.
Qed.

Lemma quiet_charge n : quiet (charge debit n) (fun paid => paid = true).
Proof.
  intros s Hs. unfold charge. case_bool_decide as E; cbn [negb]; [|split; [exact Hs|contradiction]].
  destruct debit as [d|]; [|split; [exact Hs|discriminate]]. destruct (d n (budget s)) as [paid b]. destruct paid; (split; [exact Hs|]); [auto|discriminate].
Qed.

Lemma quiet_fail (m : string) Q : m <> "" -> quiet (fail m) Q.
Proof.
  intros Hm s Hs. unfold fail. case_bool_decide as E; cbn; (split; [exact Hs|]); contradiction.
Qed.

Lemma quiet_failed {A} (m : string) (Q : option A -> Prop) : m <> "" -> quiet (failed_with m) Q.
Proof. intros Hm. eapply quiet_bind; [apply (quiet_fail m (fun _ => False) Hm)|]. intros r. apply quiet_ret. contradiction. Qed.

Lemma quiet_unless {A B} (a : option A) (k : A -> M (option B)) : (forall a, quiet (k a) (fun _ => True)) -> quiet (unless_failed a k) (fun _ => True).
Proof. intros H. destruct a; [apply H|apply quiet_ret; exact I]. Qed.

Lemma quiet_paid {A} n (yes no : M A) Q : quiet yes Q -> quiet no (fun _ => True) -> quiet (mthen (charge debit n) (fun paid => if negb paid then no else yes)) Q.
Proof.
  intros Hy Hn. eapply quiet_bind; [apply quiet_charge|]. intros [|]; cbn [negb]; [eapply quiet_weaken; [exact Hy|auto]|eapply quiet_weaken; [exact Hn|discriminate]].
Qed.

(** The value of a callback is not looked at. *)
Lemma quiet_any {A B} (m : M A) (k : A -> M B) Q : quiet m (fun _ => True) -> (forall a, quiet (k a) Q) -> quiet (mthen m k) Q.
Proof. intros Hm Hk. eapply quiet_bind; [exact Hm|]. intros a. eapply quiet_weaken; [apply Hk|auto]. Qed.

Ltac quiet_end := first [apply quiet_ret; (exact I || auto; congruence) | apply quiet_fail; discriminate | apply quiet_failed; discriminate].

Lemma quiet_canonical node depth : quiet (canonical canonicalize debit node depth) (fun _ => True).
Proof.
  apply quiet_paid; [|quiet_end]. destruct canonicalize as [f|]; [|quiet_end]. destruct (128 <=? depth); [quiet_end|]. destruct (reserved node); [quiet_end|].
  apply quiet_any; [apply quiet_frame; intros s; destruct (f node depth (budget s)); cbn; auto|]. intros a. apply quiet_unless. intros c. destruct (reserved c); quiet_end.
Qed.

Lemma quiet_describe node : quiet (describe inspect debit node) (fun _ => True).
Proof.
  apply quiet_paid; [|quiet_end]. destruct (reserved node); [quiet_end|]. apply quiet_any; [apply quiet_frame; intros s; cbn; auto|]. intros [v|]; [quiet_end|].
  destruct inspect as [f|]; [|quiet_end]. apply quiet_any; [apply quiet_frame; intros s; destruct (f node (budget s)); cbn; auto|]. intros a. apply quiet_unless. intros v.
  destruct (view_error v) as [m|] eqn:Em.
  - apply quiet_failed. unfold view_error in Em. repeat case_match; congruence.
  - apply quiet_paid; [|quiet_end]. apply quiet_any; [apply quiet_frame; intros s; cbn; auto|]. intros []. quiet_end.
Qed.

Lemma quiet_width node : quiet (width inspect debit node) (fun _ => True).
Proof. apply quiet_any; [apply quiet_describe|]. intros a. apply quiet_unless. intros v. quiet_end. Qed.

Lemma quiet_constant node depth : quiet (constant canonicalize inspect debit node depth) (fun _ => True).
Proof.
  apply quiet_any; [apply quiet_canonical|]. intros a. apply quiet_unless. intros v. apply quiet_any; [apply quiet_describe|]. intros w. apply quiet_unless. intros u. quiet_end.
Qed.

(** ** The algebra *)

Definition answered (r : Result) : Prop := r <> Failure.

Lemma quiet_append_check fact all prior : quiet (append_check debit all prior fact) answered.
Proof.
  induction prior as [|p prior IH]; cbn [append_check]; (apply quiet_paid; [|quiet_end]).
  - destruct (Nat.eqb _ _); [quiet_end|apply quiet_ret; discriminate].
  - destruct (same p fact); [apply quiet_ret; discriminate|]. destruct (contradictory p fact); [apply quiet_ret; discriminate|exact IH].
Qed.

Lemma quiet_append r fact : quiet (append debit r fact) (fun r' => answered r -> answered r').
Proof. destruct r; cbn [append]; [eapply quiet_weaken; [apply quiet_append_check|auto]|apply quiet_ret; auto..]. Qed.

Lemma quiet_append_all facts : forall r, quiet (append_all debit r facts) (fun r' => answered r -> answered r').
Proof.
  induction facts as [|f facts IH]; intros r; cbn [append_all]; [apply quiet_ret; auto|]. eapply quiet_bind; [apply quiet_append|]. intros r'.
  destruct r' as [fs| |]; [eapply quiet_weaken; [apply IH|]|apply quiet_ret..]; unfold answered; intuition discriminate.
Qed.

Lemma quiet_conjunction a c : quiet (conjunction debit a c) (fun r => answered a -> answered c -> answered r).
Proof.
  apply quiet_paid; [|quiet_end]. destruct a as [fa| |], c as [fc| |]; try (apply quiet_ret; unfold answered; intuition discriminate).
  apply quiet_paid; [|quiet_end]. eapply quiet_weaken; [apply quiet_append_all|auto].
Qed.

Lemma quiet_find_same f facts : quiet (find_same debit f facts) (fun r => r <> None).
Proof.
  induction facts as [|g facts IH]; cbn [find_same]; [apply quiet_ret; discriminate|]. apply quiet_paid; [|quiet_end].
  destruct (same f g); [|exact IH]. apply quiet_paid; [apply quiet_ret; discriminate|quiet_end].
Qed.

Lemma quiet_common right_ : forall left_ acc, quiet (common_facts debit left_ right_ acc) answered.
Proof.
  induction left_ as [|f left_ IH]; intros acc; cbn [common_facts]; [apply quiet_ret; discriminate|]. eapply quiet_bind; [apply quiet_find_same|].
  intros [b|]; [eapply quiet_weaken; [apply IH|auto]|apply quiet_ret; contradiction].
Qed.

Lemma quiet_after n (r : Result) Q : Q r -> quiet (mthen (charge debit n) (fun paid => mret (if paid then r else Failure))) Q.
Proof. intros H. eapply quiet_bind; [apply quiet_charge|]. intros [|]; apply quiet_ret; [auto|discriminate]. Qed.

Lemma quiet_alternatives a c : quiet (alternatives debit a c) (fun r => answered a -> answered c -> answered r).
Proof.
  apply quiet_paid; [|quiet_end]. destruct a as [fa| |], c as [fc| |]; try (apply quiet_ret; unfold answered; intuition discriminate);
    try (apply quiet_after; auto). eapply quiet_weaken; [apply quiet_common|auto].
Qed.

(** ** Queries *)

Lemma quiet_sameAddress value endpoint depth : quiet (sameAddress canonicalize inspect debit value endpoint depth) (fun _ => True).
Proof.
  apply quiet_any; [apply quiet_canonical|]. intros r. apply quiet_unless. intros v. destruct (v =? endpoint); [quiet_end|].
  do 2 (apply quiet_any; [apply quiet_constant|]; intros ?). do 2 (apply quiet_unless; intros ?). quiet_end.
Qed.

Lemma quiet_sameAddresses l r i j depth : quiet (sameAddresses canonicalize inspect debit l r i j depth) (fun _ => True).
Proof. do 2 (apply quiet_any; [apply quiet_sameAddress|]; intros ?). do 2 (apply quiet_unless; intros ?). quiet_end. Qed.

Lemma quiet_collisionComparison l r depth : quiet (collisionComparison canonicalize inspect debit l r depth) (fun _ => True).
Proof.
  intros s Hs. unfold collisionComparison. destruct (collision s) as [[i j]|]; [|cbn; auto]. revert s Hs. apply quiet_any; [apply quiet_sameAddresses|].
  intros a. apply quiet_unless. intros [|]; [quiet_end|apply quiet_sameAddresses].
Qed.

Definition asks (required : Node -> bool -> M Result) : Prop := forall n b, quiet (required n b) answered.

Lemma quiet_both {A} required (combine : Result -> Result -> M A) n b m c Q :
  asks required -> (forall x y, quiet (combine x y) (fun r => answered x -> answered y -> Q r)) ->
  quiet (mthen (required n b) (fun x => mthen (required m c) (fun y => combine x y))) Q.
Proof.
  intros Hr Hc. eapply quiet_bind; [apply Hr|]. intros x. eapply quiet_bind; [apply Hr|]. intros y. eapply quiet_weaken; [apply Hc|]. intros r H Hy Hx. exact (H Hx Hy).
Qed.

Lemma answered_if b : answered (impossible_if b).
Proof. destruct b; discriminate. Qed.

Lemma quiet_select required view polarity depth : asks required -> quiet (required_select canonicalize inspect debit required view polarity depth) answered.
Proof.
  intros Hr. unfold required_select. do 2 (apply quiet_any; [apply quiet_canonical|]; intros ?). destruct a as [yes|], a0 as [no|]; try quiet_end.
  destruct (yes =? no); [apply Hr|]. apply quiet_any; [apply quiet_constant|]. intros yc. apply quiet_any; [apply quiet_constant|]. intros nc.
  destruct yc as [[y|]|], nc as [[n|]|]; try quiet_end.
  - destruct (Bool.eqb _ _); [apply quiet_ret, answered_if|apply Hr].
  - apply quiet_both; [exact Hr|]. intros g b. destruct (Bool.eqb _ _); [apply quiet_alternatives|apply quiet_conjunction].
  - apply quiet_both; [exact Hr|]. intros g b. destruct (negb _); [apply quiet_conjunction|apply quiet_alternatives].
  - do 4 (eapply quiet_bind; [apply Hr|]; intros ?). do 3 (eapply quiet_bind; [apply quiet_conjunction|]; intros ?). eapply quiet_bind; [apply quiet_alternatives|]. intros ?.
    eapply quiet_weaken; [apply quiet_alternatives|]. intuition.
Qed.

Lemma quiet_comparison view polarity depth : quiet (required_comparison canonicalize inspect debit view polarity depth) answered.
Proof.
  apply quiet_any; [apply quiet_collisionComparison|]. intros [inC|]; [|quiet_end]. apply quiet_any; [apply quiet_constant|]. intros lc.
  apply quiet_any; [apply quiet_constant|]. intros rc. destruct lc as [[l|]|], rc as [[r|]|]; try quiet_end.
  - apply quiet_ret. destruct (Bool.eqb _ _); [apply answered_if|discriminate].
  - apply quiet_any; [apply quiet_canonical|]. intros [sel|]; [|quiet_end]. eapply quiet_weaken; [apply quiet_append|]. intros x H. apply H, answered_if.
  - apply quiet_any; [apply quiet_canonical|]. intros [sel|]; [|quiet_end]. eapply quiet_weaken; [apply quiet_append|]. intros x H. apply H, answered_if.
  - apply quiet_ret, answered_if.
Qed.

Lemma quiet_node required view polarity depth : asks required -> quiet (required_node canonicalize inspect debit required view polarity depth) answered.
Proof.
  intros Hr. unfold required_node. destruct (v_kind view).
  - apply quiet_ret. discriminate.
  - apply Hr.
  - apply quiet_both; [exact Hr|]. intros x y. destruct (Bool.eqb _ _); [apply quiet_conjunction|apply quiet_alternatives].
  - apply quiet_both; [exact Hr|]. intros x y. destruct (Bool.eqb _ _); [apply quiet_conjunction|apply quiet_alternatives].
  - apply quiet_select, Hr.
  - apply quiet_comparison.
  - apply quiet_comparison.
Qed.

Lemma quiet_remember key r : answered r -> quiet (remember_result key r) (fun _ => True).
Proof.
  intros Hr s Hs. cbn. split; [|auto]. intros k x. cbn. destruct (cache s !! key); [apply Hs|]. rewrite lookup_insert_Some. intros [[_ <-]|[_ H]]; [exact Hr|exact (Hs _ _ H)].
Qed.

Lemma quiet_fresh required key value polarity depth : asks required -> quiet (required_fresh canonicalize inspect debit required key value polarity depth) answered.
Proof.
  intros Hr. apply quiet_any; [apply quiet_width|]. intros [w|]; [|quiet_end]. destruct (negb _); [quiet_end|]. apply quiet_any; [apply quiet_describe|]. intros [view|]; [|quiet_end].
  apply quiet_paid; [|quiet_end]. apply quiet_any; [apply quiet_constant|]. intros [code|]; [|quiet_end]. eapply quiet_bind with (P := answered).
  { destruct code; [apply quiet_ret, answered_if|apply quiet_node, Hr]. }
  intros r. eapply quiet_bind; [apply quiet_append|]. intros r'. apply quiet_any; [apply quiet_frame; intros s; cbn; auto|]. intros [].
  assert (Hend : answered r' -> quiet (mthen (charge debit (Z.of_nat (length (facts_of r')))) (fun paid => if negb paid then mret Failure else mthen (remember_result key r') (fun _ => mret r')))
    (fun b => (answered r -> answered r') -> answered r -> answered b)).
  { intros Ha. apply quiet_paid; [|quiet_end]. apply quiet_any; [apply quiet_remember, Ha|]. intros []. apply quiet_ret. auto. }
  destruct r'; [apply Hend; discriminate|apply Hend; discriminate|apply quiet_ret; auto].
Qed.

Lemma quiet_required room : asks (required canonicalize inspect debit room).
Proof.
  induction room as [|room IH]; intros n b; cbn [required]; (apply quiet_paid; [|quiet_end]); [quiet_end|]. apply quiet_any; [apply quiet_canonical|].
  intros [value|]; [|quiet_end]. apply quiet_any; [apply quiet_frame; intros s; cbn; auto|]. intros key.
  eapply quiet_bind with (P := fun found => found <> Some Failure). { intros s Hs. split; [exact Hs|]. intros E. split; [exact E|]. intros H. exact (Hs _ _ H eq_refl). }
  intros [r|]; [apply quiet_after; unfold answered; congruence|]. eapply quiet_weaken; [|intros r H _; exact H].
  apply quiet_any; [apply quiet_frame; intros s; auto|]. intros [|]; [quiet_end|]. apply quiet_any; [apply quiet_frame; intros s; cbn; auto|]. intros [].
  apply quiet_any; [apply quiet_frame; intros s; auto|]. intros queries. destruct (4096 <? _); [quiet_end|]. apply quiet_fresh, IH.
Qed.

Lemma quiet_disjoint first second : quiet (disjoint canonicalize inspect debit first second) (fun r => r <> None).
Proof.
  unfold disjoint. apply quiet_paid; [|quiet_end]. apply quiet_both; [apply quiet_required|]. intros x y.
  eapply quiet_bind; [apply quiet_conjunction|].
  intros [fs| |]; apply quiet_ret; try discriminate. intros H Hx Hy. exfalso. exact (H Hx Hy eq_refl).
Qed.

Lemma quiet_at first second i j : quiet (disjointAtAddress canonicalize inspect debit first second i j) (fun _ => True).
Proof.
  assert (Hs : forall l r, quiet (mthen (set_collision (Some (l, r))) (fun _ => mthen (disjoint canonicalize inspect debit first second) (fun x => mthen (set_collision None) (fun _ => mret x)))) (fun _ => True)).
  { intros l r. apply quiet_any; [apply quiet_frame; intros s; cbn; auto|]. intros []. eapply quiet_any; [eapply quiet_weaken; [apply quiet_disjoint|auto]|]. intros x.
    apply quiet_any; [apply quiet_frame; intros s; cbn; auto|]. intros []. quiet_end. }
  unfold disjointAtAddress. do 2 (apply quiet_any; [apply quiet_canonical|]; intros ?). apply quiet_unless. intros l. apply quiet_unless. intros r.
  do 2 (apply quiet_any; [apply quiet_constant|]; intros ?). do 2 (apply quiet_any; [apply quiet_width|]; intros ?).
  do 4 (apply quiet_unless; intros ?). destruct a7 as [lw|]; [|quiet_end]. destruct a8 as [rw|]; [|quiet_end].
  destruct a5, a6; try destruct (negb _); (apply Hs || quiet_end).
Qed.

Lemma quiet_ask q : quiet (ask canonicalize inspect debit q) (fun _ => True).
Proof. destruct q; [eapply quiet_weaken; [apply quiet_disjoint|auto]|apply quiet_at]. Qed.

Lemma quiet_ask_all qs : quiet (ask_all canonicalize inspect debit qs) (fun _ => True).
Proof.
  induction qs as [|q qs IH]; cbn [ask_all]; [quiet_end|]. apply quiet_any; [apply quiet_ask|]. intros a. apply quiet_any; [exact IH|]. intros rs. quiet_end.
Qed.

(** ** After a failure *)

Lemma charge_latched n s : reason s <> "" -> charge debit n s = (false, s).
Proof. intros H. unfold charge. rewrite bool_decide_eq_false_2 by exact H. reflexivity. Qed.

Lemma ask_latched q s : reason s <> "" -> ask canonicalize inspect debit q s = (None, s).
Proof.
  intros H. destruct q; cbn [ask]; unfold disjoint, disjointAtAddress, canonical, mthen; rewrite !charge_latched by exact H; cbn; [reflexivity|].
  rewrite !charge_latched by exact H. reflexivity.
Qed.

Lemma ask_all_latched qs s : reason s <> "" -> ask_all canonicalize inspect debit qs s = (map (fun _ => None) qs, s).
Proof.
  intros H. induction qs as [|q qs IH]; [reflexivity|]. cbn [ask_all map]. unfold mthen. rewrite ask_latched, IH by exact H. reflexivity.
Qed.

(** Failures are explained and final.  After any sequence of questions to
    a proof object, whatever the callbacks and the budget do: if [disjoint]
    fails then [failureReason] is not empty; and once it is not empty, every
    later question fails as well, leaves the state and the reason as they are,
    and neither inspects a node nor charges the budget. *)
Theorem grant_failures_explained b asked first second qs :
  let s := snd (ask_all canonicalize inspect debit asked (new_proof b)) in
  let '(answer, s') := disjoint canonicalize inspect debit first second s in
  (answer = None -> failureReason s' <> "") /\
  (failureReason s' <> "" -> ask_all canonicalize inspect debit qs s' = (map (fun _ => None) qs, s')).
Proof.
  intros s. assert (no_failure s) as Hs.
  { assert (no_failure (new_proof b)) as H by (intros k r; cbn; rewrite lookup_empty; discriminate). pose proof (quiet_ask_all asked (new_proof b) H) as H1.
    unfold s. destruct (ask_all _ _ _ asked _). exact (proj1 H1). }
  pose proof (quiet_disjoint first second s Hs) as Hd. destruct (disjoint _ _ _ first second s) as [answer s']. destruct Hd as [_ Hd].
  split; [intros -> E; exact (proj2 (Hd E) eq_refl)|]. apply ask_all_latched.
Qed.
End Failures.

Module FailureWitness.
(** Two free enables; the budget pays five units. *)
Definition inspect (n : Node) (left_ : Z) : option NodeView * Z := (if n <? 2 then Some (mkView Raw [] (Some 1) None) else None, left_).
Definition canonicalize (n : Node) (_ : Z) (left_ : Z) : option Node * Z := (Some n, left_).
Definition debit (units left_ : Z) : bool * Z := if left_ <? units then (false, left_) else (true, left_ - units).

#[local] Abbreviation query b := (disjoint (Some canonicalize) (Some inspect) (Some debit) 0 1 (new_proof b)).

Lemma grant_failures_explained_witness :
  fst (query 100) = Some false /\ fst (query 5) = None /\ failureReason (snd (query 5)) = "owner-enable proof work budget exhausted" /\
  fst (ask_all (Some canonicalize) (Some inspect) (Some debit) [Exclusive 0 0; ExclusiveAt 0 1 0 1] (snd (query 5))) = [None; None].
Proof.
  split; [vm_compute; reflexivity|]. split; [vm_compute; reflexivity|]. split; [vm_compute; reflexivity|].
  pose proof (grant_failures_explained (Some canonicalize) (Some inspect) (Some debit) 5 [] 0 1 [Exclusive 0 0; ExclusiveAt 0 1 0 1]) as H. cbn zeta in H.
  assert (E : failureReason (snd (query 5)) <> "") by (vm_compute; discriminate).
  change (snd (ask_all (Some canonicalize) (Some inspect) (Some debit) [] (new_proof 5))) with (new_proof 5) in H. revert H E. destruct (query 5) as [answer s']. intros H E. cbn [snd] in *. rewrite (proj2 H E). reflexivity.
Defined.
End FailureWitness.
