(* ===== verification/CppNames.v ===== *)
(** * Names of generated code: [compiler/lib/Compiler/FinalCppNames.cpp]

    Source names become identifiers that are legal in C++ and SystemVerilog;
    owners become namespaces and paths.  Names are byte strings. *)

From Stdlib Require Import ZArith Lia String Ascii.
From stdpp Require Import base list numbers strings.
From S2P Require Import Prelude ModelInput ConfigSpec CompilerPrelude.

Open Scope string_scope.

Definition code (c : ascii) : nat := nat_of_ascii c.
Definition chars (s : string) : list ascii := list_ascii_of_string s.

Definition isAsciiAlpha (value : ascii) : bool :=
  ((97 <=? code value) && (code value <=? 122) || (65 <=? code value) && (code value <=? 90))%nat.
Definition isAsciiDigit (value : ascii) : bool := ((48 <=? code value) && (code value <=? 57))%nat.

(** [StringRef::split] at every separator, empty parts kept. *)
Fixpoint split_at (separator : ascii) (s : string) : list string :=
  match s with
  | EmptyString => [""]
  | String c rest =>
    match split_at separator rest with
    | part :: more => if Ascii.eqb c separator then "" :: part :: more else String c part :: more
    | [] => []
    end
  end.

Definition cpp_keywords : list string := split_at " "
  ("alignas alignof and and_eq asm atomic_cancel atomic_commit " ++
   "atomic_noexcept auto bitand bitor bool break case catch char char8_t " ++
   "char16_t char32_t class compl concept const consteval constexpr " ++
   "constinit const_cast continue co_await co_return co_yield decltype " ++
   "default delete do double dynamic_cast else enum explicit export " ++
   "extern false float for friend goto if import inline int long module " ++
   "mutable namespace new noexcept not not_eq nullptr operator or or_eq " ++
   "private protected public reflexpr register reinterpret_cast requires " ++
   "return short signed sizeof static static_assert static_cast struct " ++
   "switch synchronized template this thread_local throw true try " ++
   "typedef typeid typename union unsigned using virtual void volatile " ++
   "wchar_t while xor xor_eq").

Definition isCppKeyword (value : string) : bool := bool_decide (value ∈ cpp_keywords).

Definition reserved : list string :=
  (["Work"; "Xfer"; "Reset"; "DiscardNext"; "Build"; "HasWork"; "ReportStat"; "name"; "input"; "output"; "wire"; "logic";
    "always"; "assign"; "end"; "begin"; "initial"; "parameter"; "localparam"; "function"; "endfunction"; "task"; "endtask";
    "package"; "endpackage"] ++
   split_at " "
    ("accept_on alias always_comb always_ff always_latch assert assume " ++
     "automatic before bind bins binsof bit break buf bufif0 bufif1 byte " ++
     "case casex casez cell chandle checker class clocking cmos config " ++
     "const constraint context continue cover covergroup coverpoint cross " ++
     "deassign default defparam design disable dist do edge else endcase " ++
     "endchecker endclass endclocking endconfig endgenerate endgroup " ++
     "endinterface endmodule endprimitive endprogram endproperty " ++
     "endsequence " ++
     "endspecify endtable enum event eventually expect export extends " ++
     "extern " ++
     "final first_match for force foreach forever fork forkjoin genvar " ++
     "generate global highz0 highz1 if iff ifnone ignore_bins illegal_bins " ++
     "implements implies import incdir include inside instance int integer " ++
     "interconnect interface intersect join join_any join_none large let " ++
     "liblist library local localparam longint macromodule matches medium " ++
     "modport nand negedge nettype new nexttime nmos nor noshowcancelled " ++
     "not notif0 notif1 null or packed pmos posedge primitive priority " ++
     "program property protected pull0 pull1 pulldown pullup " ++
     "pulsestyle_onevent " ++
     "pulsestyle_ondetect pure rand randc randcase randsequence rcmos real " ++
     "realtime ref reg reject_on release repeat restrict return rnmos rpmos " ++
     "rtran rtranif0 rtranif1 s_always s_eventually s_nexttime s_until " ++
     "s_until_with scalared sequence shortint shortreal showcancelled " ++
     "signed " ++
     "small soft solve specify specparam static string strong strong0 " ++
     "strong1 " ++
     "struct super supply0 supply1 sync_accept_on sync_reject_on table " ++
     "tagged " ++
     "this throughout time timeprecision timeunit tran tranif0 tranif1 tri " ++
     "tri0 tri1 triand trior trireg type typedef union unique unique0 " ++
     "unsigned " ++
     "until until_with untyped use uwire var vectored virtual void wait " ++
     "wait_order wand weak weak0 weak1 while wildcard with within wor xnor " ++
     "xor"))%list.

(** ** Identifiers *)

Definition name_char (byte : ascii) : bool := isAsciiAlpha byte || isAsciiDigit byte || Ascii.eqb byte "_".

Fixpoint starts_with (prefix s : string) : bool :=
  match prefix, s with
  | EmptyString, _ => true
  | String a p, String b t => Ascii.eqb a b && starts_with p t
  | String _ _, EmptyString => false
  end.

Fixpoint contains (pattern s : string) : bool :=
  starts_with pattern s || match s with EmptyString => false | String _ rest => contains pattern rest end.

Definition ends_with_underscore (s : string) : bool :=
  match last (chars s) with Some c => Ascii.eqb c "_" | None => false end.

(** A spelling kept as it is, unless it is a keyword. *)
Definition simple (source : string) : bool :=
  match source with
  | EmptyString => false
  | String c _ =>
    negb (isAsciiDigit c) && forallb name_char (chars source) && negb (starts_with "pyc_" source) &&
    negb (starts_with "_" source) && negb (ends_with_underscore source) && negb (contains "__" source)
  end.

Definition hex_digit (n : nat) : ascii := ascii_of_nat (if (n <? 10)%nat then 48 + n else 87 + n).

Fixpoint hex_bytes (source : string) : string :=
  match source with
  | EmptyString => EmptyString
  | String byte rest => String (hex_digit (code byte / 16)) (String (hex_digit (code byte mod 16)) (hex_bytes rest))
  end.

Definition legalizeIdentifier (source : string) : FailureOr string :=
  if bool_decide (source = "") then failure "C++ source identifier is empty"
  else if simple source && negb (isCppKeyword source) && negb (bool_decide (source ∈ reserved)) then success source
  else success ("pyc_" ++ hex_bytes source).

(** ** Components *)

Definition splitComponents (value : string) (separator : ascii) : FailureOr (list string) :=
  if bool_decide (value = "") then success []
  else
    let parts := split_at separator value in
    if bool_decide ("" ∈ parts) then failure "SourceOwner contains an empty qualified component" else success parts.

Fixpoint join_onto (result : string) (parts : list string) (separator : string) : string :=
  match parts with
  | [] => result
  | part :: rest => join_onto (if bool_decide (result = "") then part else result ++ separator ++ part) rest separator
  end.
Definition join (parts : list string) (separator : string) : string := join_onto "" parts separator.

Record CppOwnerComponents := mkComponents { moduleName : string; namespaces : list string; filePath : list string }.

(** [ends_with(".py")] with the rest before it. *)
Definition drop_py (path : string) : option string :=
  let n := String.length path in
  if (3 <=? n)%nat && bool_decide (String.substring (n - 3) 3 path = ".py") then Some (String.substring 0 (n - 3) path) else None.

(** [verified] is the answer of [verifySourceOwner]. *)
Definition sourceOwnerComponents (verified : FailureOr unit) (package path : string) : FailureOr CppOwnerComponents :=
  let! ok := verified in
  match drop_py path with
  | None => failure "C++ source group owner path must end in .py"
  | Some stem =>
    let! packageParts := splitComponents package "." in
    let! fileParts := splitComponents stem "/" in
    let moduleParts := match last fileParts with
                       | Some part => if decide (part = "__init__") then removelast fileParts else fileParts
                       | None => fileParts
                       end in
    let names := (packageParts ++ moduleParts)%list in
    let files := (packageParts ++ fileParts)%list in
    success (mkComponents (join names ".") names (match files with [] => ["__init__"] | _ => files end))
  end.

(** The part after the last dot; empty when there is none. *)
Definition rsplit_second (value : string) : string :=
  match split_at "." value with [_] => "" | parts => match last parts with Some leaf => leaf | None => "" end end.

Definition sourceDefinitionName (definition : option string) : FailureOr string :=
  match definition with
  | None => failure "C++ source group has no qualified definition"
  | Some value =>
    let leaf := rsplit_second value in
    if bool_decide (leaf = "") then failure "hardware definition has an empty class name" else legalizeIdentifier leaf
  end.

Fixpoint legalize_all (components : list string) : FailureOr (list string) :=
  match components with
  | [] => success []
  | component :: rest =>
    let! name := legalizeIdentifier component in
    let! more := legalize_all rest in
    success (name :: more)
  end.

Definition namespaceCppName (components : list string) : FailureOr string :=
  let! legalized := legalize_all components in success (join legalized "::").

Definition bad_component (component : string) : bool :=
  bool_decide (component = "") || bool_decide (component = ".") || bool_decide (component = "..") ||
  existsb (fun c => Ascii.eqb c "/" || Ascii.eqb c "\" || Ascii.eqb c zero) (chars component).

Definition sourcePathName (components : list string) (extension : string) : FailureOr string :=
  if bool_decide (components = []) then failure "source path has no components"
  else if existsb bad_component components then failure "source path has an invalid component"
  else success ("sources/" ++ join components "/" ++ extension).
