(* ===== verification/CppNamesSpec.v ===== *)
(** * Generated names are legal and distinct *)

From Stdlib Require Import ZArith Lia String Ascii.
From stdpp Require Import base list numbers strings.
From S2P Require Import Prelude ModelInput ConfigSpec CompilerPrelude CppNames.

Open Scope string_scope.

(** ** Strings as lists of characters *)

Lemma chars_app a b : chars (a ++ b) = (chars a ++ chars b)%list.
Proof.
  induction a as [|c a IH]; [reflexivity|]. change (c :: chars (a ++ b) = c :: (chars a ++ chars b))%list. rewrite IH. reflexivity.
Qed.

Lemma chars_inj a b : chars a = chars b -> a = b.
Proof.
  intros E. rewrite <- (string_of_list_ascii_of_string a), <- (string_of_list_ascii_of_string b). unfold chars in E. congruence.
Qed.

Lemma append_cancel_l a b c : a ++ b = a ++ c -> b = c.
Proof. intros E. apply chars_inj. apply (f_equal chars) in E. rewrite !chars_app in E. apply app_inv_head in E. exact E. Qed.

Lemma append_cancel_r a b c : a ++ c = b ++ c -> a = b.
Proof. intros E. apply chars_inj. apply (f_equal chars) in E. rewrite !chars_app in E. apply app_inv_tail in E. exact E. Qed.

Lemma append_assoc a b c : (a ++ b) ++ c = a ++ (b ++ c).
Proof. apply chars_inj. rewrite !chars_app. symmetry. apply app_assoc. Qed.

Lemma append_empty a b : a ++ b = "" -> a = "" /\ b = "".
Proof. destruct a; [auto|discriminate]. Qed.

Lemma append_nil_r a : a ++ "" = a.
Proof. induction a as [|c a IH]; [reflexivity|]. change (String c (a ++ "") = String c a). rewrite IH. reflexivity. Qed.

(** ** Hexadecimal bytes *)

Lemma code_bound c : (code c < 256)%nat.
Proof. apply nat_ascii_bounded. Qed.

Lemma code_inj a b : code a = code b -> a = b.
Proof. intros E. rewrite <- (ascii_nat_embedding a), <- (ascii_nat_embedding b). unfold code in E. congruence. Qed.

Definition hex_ok (n : nat) : bool :=
  let c := hex_digit n in name_char c && negb (Ascii.eqb c "_") &&
  forallb (fun m => Nat.eqb m n || negb (Ascii.eqb (hex_digit m) c)) (seq 0 16).

Lemma hex_digits_ok : forallb hex_ok (seq 0 16) = true.
Proof. reflexivity. Qed.

Lemma hex_digit_ok n : (n < 16)%nat -> hex_ok n = true.
Proof. intros Hn. pose proof hex_digits_ok as H. rewrite forallb_forall in H. apply H, in_seq. lia. Qed.

Lemma hex_digit_inj m n : (m < 16)%nat -> (n < 16)%nat -> hex_digit m = hex_digit n -> m = n.
Proof.
  intros Hm Hn E. pose proof (hex_digit_ok n Hn) as H. unfold hex_ok in H. apply andb_true_iff in H as [_ H].
  rewrite forallb_forall in H. specialize (H m (proj2 (in_seq 16 0 m) ltac:(lia))). rewrite E, Ascii.eqb_refl, orb_false_r in H.
  apply Nat.eqb_eq in H. exact H.
Qed.

Definition plain_char (c : ascii) : bool := name_char c && negb (Ascii.eqb c "_").

Lemma hex_digit_plain n : (n < 16)%nat -> plain_char (hex_digit n) = true.
Proof. intros Hn. pose proof (hex_digit_ok n Hn) as H. unfold hex_ok in H. apply andb_true_iff in H as [H _]. exact H. Qed.

Lemma nibbles c : (code c / 16 < 16)%nat /\ (code c mod 16 < 16)%nat /\ code c = (16 * (code c / 16) + code c mod 16)%nat.
Proof.
  pose proof (code_bound c). split; [apply Nat.Div0.div_lt_upper_bound; lia|]. split; [apply Nat.mod_upper_bound; lia|]. apply Nat.div_mod_eq.
Qed.

Lemma hex_bytes_inj s t : hex_bytes s = hex_bytes t -> s = t.
Proof.
  revert t. induction s as [|c s IH]; intros [|d t]; cbn [hex_bytes]; try discriminate; [reflexivity|]. intros [= E1 E2 E3].
  destruct (nibbles c) as (H1 & H2 & H3), (nibbles d) as (H4 & H5 & H6). assert (D : (code c / 16 = code d / 16)%nat) by (apply hex_digit_inj; assumption).
  assert (M : (code c mod 16 = code d mod 16)%nat) by (apply hex_digit_inj; assumption).
  rewrite (IH t E3). f_equal. apply code_inj. rewrite H3, D, M. symmetry. exact H6.
Qed.

Lemma hex_bytes_plain s : forallb plain_char (chars (hex_bytes s)) = true.
Proof.
  induction s as [|c s IH]; cbn; [reflexivity|]. destruct (nibbles c) as (H1 & H2 & _). fold (chars (hex_bytes s)).
  rewrite !hex_digit_plain by assumption. exact IH.
Qed.

(** ** Identifiers *)

(** An identifier of both target languages: it begins with a letter, holds
    letters, digits and single inner underscores, and is no reserved word. *)
Record legal (name : string) : Prop := {
  legal_first : match name with EmptyString => false | String c _ => isAsciiAlpha c end = true;
  legal_chars : forallb name_char (chars name) = true;
  legal_last : ends_with_underscore name = false;
  legal_inner : contains "__" name = false;
  legal_cpp : name ∉ cpp_keywords;
  legal_reserved : name ∉ reserved;
}.

Lemma plain_no_pair s : forallb plain_char (chars s) = true -> contains "__" s = false.
Proof.
  induction s as [|c s IH]; [reflexivity|]. change (plain_char c && forallb plain_char (chars s) = true -> (Ascii.eqb "_" c && starts_with "_" s) || contains "__" s = false).
  intros H. apply andb_true_iff in H as [Hc H]. rewrite IH, orb_false_r by exact H. unfold plain_char in Hc.
  apply andb_true_iff in Hc as [_ Hc]. rewrite Ascii.eqb_sym. destruct (Ascii.eqb c "_"); [discriminate|reflexivity].
Qed.

Lemma plain_name_char s : forallb plain_char (chars s) = true -> forallb name_char (chars s) = true.
Proof. rewrite !forallb_forall. intros H c Hc. specialize (H c Hc). unfold plain_char in H. apply andb_true_iff in H. apply H. Qed.

Lemma no_pyc_keyword : forallb (fun k => negb (starts_with "pyc_" k)) (cpp_keywords ++ reserved)%list = true.
Proof. vm_compute. reflexivity. Qed.

Lemma pyc_not_reserved s : ("pyc_" ++ s ∉ cpp_keywords) /\ ("pyc_" ++ s ∉ reserved).
Proof.
  assert (H : forall k, k ∈ (cpp_keywords ++ reserved)%list -> k <> "pyc_" ++ s).
  { pose proof no_pyc_keyword as H. rewrite forallb_forall in H. intros k Hk E. apply list_elem_of_In in Hk. specialize (H k Hk).
    rewrite E in H. discriminate H. }
  split; intros Hin; (eapply H; [|reflexivity]); apply elem_of_app; auto.
Qed.

Lemma pyc_legal s : s <> "" -> legal ("pyc_" ++ hex_bytes s).
Proof.
  intros Hs. pose proof (hex_bytes_plain s) as Hp. destruct (pyc_not_reserved (hex_bytes s)) as [K1 K2].
  assert (Hne : exists a b t, hex_bytes s = String a (String b t)) by (destruct s; [congruence|cbn; eauto]).
  destruct Hne as (a & b & t & E). constructor; [reflexivity| | | |exact K1|exact K2].
  - rewrite chars_app, forallb_app, (plain_name_char (hex_bytes s)) by exact Hp. reflexivity.
  - unfold ends_with_underscore. rewrite chars_app. rewrite last_app. rewrite E in *.
    destruct (last (chars (String a (String b t)))) as [c|] eqn:El; [|apply last_None in El; discriminate].
    rewrite forallb_forall in Hp. specialize (Hp c). apply last_Some in El as [l' El]. rewrite El in Hp.
    specialize (Hp ltac:(apply in_app_iff; right; left; reflexivity)). unfold plain_char in Hp.
    destruct (Ascii.eqb c "_"); [rewrite andb_false_r in Hp; discriminate|reflexivity].
  - rewrite E in *. cbn in Hp. apply andb_true_iff in Hp as [Ha Hp].
    change (contains "__" ("pyc_" ++ String a (String b t))) with
      ((Ascii.eqb "_" a && true) || contains "__" (String a (String b t))).
    rewrite plain_no_pair, orb_false_r by (cbn; rewrite Ha; exact Hp).
    unfold plain_char in Ha. rewrite Ascii.eqb_sym. destruct (Ascii.eqb a "_"); [rewrite andb_false_r in Ha; discriminate|reflexivity].
Qed.

Lemma simple_legal s : simple s = true -> isCppKeyword s = false -> bool_decide (s ∈ reserved) = false -> legal s.
Proof.
  intros Hs Hk Hr. unfold simple in Hs. destruct s as [|c s]; [discriminate|]. rewrite !andb_true_iff, !negb_true_iff in Hs.
  destruct Hs as (((((H1 & H2) & H3) & H4) & H5) & H6). constructor; [|exact H2|exact H5|exact H6| |].
  - change (name_char c && forallb name_char (chars s) = true) in H2. change (Ascii.eqb "_" c && true = false) in H4.
    apply andb_true_iff in H2 as [H2 _]. unfold name_char in H2. rewrite H1, orb_false_r in H2.
    destruct (isAsciiAlpha c); [reflexivity|]. cbn [orb] in H2. rewrite Ascii.eqb_sym, H2 in H4. discriminate.
  - unfold isCppKeyword in Hk. apply bool_decide_eq_false in Hk. exact Hk.
  - apply bool_decide_eq_false in Hr. exact Hr.
Qed.

Lemma legalize_cases s : s <> "" ->
  (legalizeIdentifier s = inr s /\ simple s = true /\ legal s) \/ legalizeIdentifier s = inr ("pyc_" ++ hex_bytes s).
Proof.
  intros Hs. unfold legalizeIdentifier. rewrite bool_decide_eq_false_2 by exact Hs.
  destruct (simple s) eqn:E1, (isCppKeyword s) eqn:E2, (bool_decide (s ∈ reserved)) eqn:E3; cbn; auto using simple_legal.
Qed.

Lemma simple_not_pyc s t : simple s = true -> s <> "pyc_" ++ t.
Proof.
  assert (H : forall u, simple u = true -> starts_with "pyc_" u = false).
  { intros [|c u] Hu; [discriminate|]. unfold simple in Hu. rewrite !andb_true_iff, !negb_true_iff in Hu. tauto. }
  intros Hs ->. apply H in Hs. discriminate Hs.
Qed.

Lemma legalize_empty : legalizeIdentifier "" = inl "C++ source identifier is empty".
Proof. reflexivity. Qed.

Lemma legalize_legal s r : legalizeIdentifier s = inr r -> legal r.
Proof.
  intros H. assert (Hs : s <> "") by (intros ->; discriminate H).
  destruct (legalize_cases s Hs) as [(E & _ & Hl)|E]; rewrite E in H; injection H as <-; [exact Hl|apply pyc_legal, Hs].
Qed.

Lemma legalize_inj s t r : legalizeIdentifier s = inr r -> legalizeIdentifier t = inr r -> s = t.
Proof.
  intros Hs Ht. assert (Es : s <> "") by (intros ->; discriminate Hs). assert (Et : t <> "") by (intros ->; discriminate Ht).
  destruct (legalize_cases s Es) as [(E1 & S1 & _)|E1], (legalize_cases t Et) as [(E2 & S2 & _)|E2];
    rewrite E1 in Hs; rewrite E2 in Ht; injection Hs as <-; injection Ht as Ht.
  - congruence.
  - exfalso. exact (simple_not_pyc _ _ S1 (eq_sym Ht)).
  - exfalso. exact (simple_not_pyc _ _ S2 Ht).
  - apply append_cancel_l in Ht. apply hex_bytes_inj. congruence.
Qed.

(** ** Splitting and joining *)

Definition free (separator : ascii) (s : string) : Prop := separator ∉ chars s.

Lemma free_cons separator c s : free separator (String c s) -> c <> separator /\ free separator s.
Proof. unfold free. intros H. split; intros E; apply H; [subst; left|right; exact E]. Qed.

Lemma split_free separator s : free separator s -> split_at separator s = [s].
Proof.
  induction s as [|c s IH]; intros H; [reflexivity|]. apply free_cons in H as [Hc H]. cbn [split_at]. rewrite IH by exact H.
  destruct (Ascii.eqb_spec c separator); [contradiction|reflexivity].
Qed.

Lemma split_nonempty separator s : split_at separator s <> [].
Proof. induction s as [|c s IH]; cbn [split_at]; [discriminate|]. destruct (split_at separator s); [congruence|]. destruct (_ =? _)%char; discriminate. Qed.

Lemma split_append separator s t : free separator s ->
  split_at separator (s ++ String separator t) = s :: split_at separator t.
Proof.
  induction s as [|c s IH]; intros H.
  - change ("" ++ String separator t) with (String separator t). cbn [split_at]. pose proof (split_nonempty separator t).
    destruct (split_at separator t); [congruence|]. rewrite Ascii.eqb_refl. reflexivity.
  - apply free_cons in H as [Hc H]. change (String c s ++ String separator t) with (String c (s ++ String separator t)).
    cbn [split_at]. rewrite IH by exact H. destruct (Ascii.eqb_spec c separator); [contradiction|reflexivity].
Qed.

(** The parts after the first. *)
Fixpoint tail_parts (parts : list string) (separator : string) : string :=
  match parts with [] => "" | part :: rest => separator ++ part ++ tail_parts rest separator end.

Lemma join_onto_spec result parts separator : result <> "" -> join_onto result parts separator = result ++ tail_parts parts separator.
Proof.
  revert result. induction parts as [|p ps IH]; intros result Hr; cbn [join_onto tail_parts]; [symmetry; apply append_nil_r|].
  rewrite bool_decide_eq_false_2 by exact Hr. rewrite IH.
  - rewrite !append_assoc. reflexivity.
  - intros E. apply append_empty in E as [E _]. contradiction.
Qed.

Lemma join_cons p ps separator : p <> "" -> join (p :: ps) separator = p ++ tail_parts ps separator.
Proof. intros Hp. unfold join. cbn [join_onto]. rewrite bool_decide_eq_true_2 by reflexivity. apply join_onto_spec, Hp. Qed.

(** Nonempty parts without the separator. *)
Definition parted (separator : ascii) (parts : list string) : Prop := Forall (fun p => p <> "" /\ free separator p) parts.

Lemma split_join separator parts : parted separator parts -> parts <> [] ->
  split_at separator (join parts (String separator "")) = parts.
Proof.
  intros Hp Hne. destruct parts as [|p ps]; [congruence|]. apply Forall_cons in Hp as [[Hp Hf] Hps]. rewrite join_cons by exact Hp.
  clear Hne Hp. revert p Hf. induction Hps as [|q qs [Hq Fq] Hqs IH]; intros p Hf; cbn [tail_parts].
  - rewrite append_nil_r. apply split_free, Hf.
  - change (String separator "" ++ q ++ tail_parts qs (String separator "")) with (String separator (q ++ tail_parts qs (String separator ""))).
    rewrite split_append by exact Hf. f_equal. apply IH, Fq.
Qed.

Lemma split_parts_free separator s : Forall (free separator) (split_at separator s).
Proof.
  induction s as [|c s IH]; cbn [split_at]; [constructor; [apply not_elem_of_nil|constructor]|].
  destruct (split_at separator s) as [|p ps]; [constructor|]. apply Forall_cons in IH as [Hp Hps].
  destruct (Ascii.eqb_spec c separator); constructor; [apply not_elem_of_nil|constructor; assumption| |exact Hps].
  unfold free. change (chars (String c p)) with (c :: chars p). rewrite elem_of_cons. intros [E|E]; [congruence|contradiction].
Qed.

Lemma split_whole separator s : exists p ps, split_at separator s = p :: ps /\ s = p ++ tail_parts ps (String separator "").
Proof.
  induction s as [|c s IH]; cbn [split_at]; [exists "", []; auto|]. destruct IH as (p & ps & -> & E).
  destruct (Ascii.eqb_spec c separator) as [->|].
  - exists "", (p :: ps). split; [reflexivity|]. rewrite E at 1. reflexivity.
  - exists (String c p), ps. split; [reflexivity|]. rewrite E at 1. reflexivity.
Qed.

(** Splitting into components and joining them are inverse. *)
Lemma splitComponents_spec value separator parts :
  splitComponents value separator = inr parts <->
  parted separator parts /\ value = join parts (String separator "").
Proof.
  unfold splitComponents. case_bool_decide as Ev.
  - subst value. split; [intros [= <-]; split; [constructor|reflexivity]|]. intros [Hp E]. destruct parts as [|p ps]; [reflexivity|].
    apply Forall_cons in Hp as [[Hp _] _]. rewrite join_cons in E by exact Hp. symmetry in E. apply append_empty in E as [E _]. contradiction.
  - case_bool_decide as Ee.
    + split; [discriminate|]. intros [Hp ->]. exfalso. assert (Hne : parts <> []) by (intros ->; apply Ev; reflexivity).
      rewrite split_join in Ee by assumption. unfold parted in Hp. rewrite Forall_forall in Hp. destruct (Hp "" Ee) as [H _]. congruence.
    + split.
      * intros [= <-]. split.
        -- pose proof (split_parts_free separator value) as Hf. unfold parted. rewrite Forall_forall in *. intros p Hp. split; [|apply Hf, Hp].
           intros ->. contradiction.
        -- destruct (split_whole separator value) as (p & ps & E & Ew). rewrite E in *. rewrite join_cons; [exact Ew|]. intros ->. apply Ee. left.
      * intros [Hp ->]. unfold success. rewrite split_join; [reflexivity|exact Hp|]. intros ->. apply Ev. reflexivity.
Qed.

(** Joined with a doubled separator the parts are recovered too. *)
Lemma split_double separator parts : parted separator parts -> parts <> [] ->
  filter (fun p => p <> "") (split_at separator (join parts (String separator (String separator "")))) = parts.
Proof.
  intros Hp Hne. destruct parts as [|p ps]; [congruence|]. apply Forall_cons in Hp as [[Hp Hf] Hps]. rewrite join_cons by exact Hp.
  clear Hne. revert p Hp Hf. induction Hps as [|q qs [Hq Fq] Hqs IH]; intros p Hp Hf; cbn [tail_parts].
  - rewrite append_nil_r, split_free, filter_cons_True by assumption. reflexivity.
  - set (rest := q ++ tail_parts qs (String separator (String separator ""))).
    change (String separator (String separator "") ++ rest) with (String separator ("" ++ String separator rest)).
    rewrite split_append, split_append by (exact Hf || apply not_elem_of_nil). rewrite filter_cons_True by exact Hp.
    rewrite filter_cons_False by (intros H; apply H; reflexivity). f_equal. apply IH; assumption.
Qed.

Lemma join_double_inj separator a b : parted separator a -> parted separator b ->
  join a (String separator (String separator "")) = join b (String separator (String separator "")) -> a = b.
Proof.
  intros Ha Hb E. assert (He : forall l, parted separator l -> join l (String separator (String separator "")) = "" -> l = []).
  { intros [|p ps] Hl E'; [reflexivity|]. apply Forall_cons in Hl as [[Hp _] _]. rewrite join_cons in E' by exact Hp.
    apply append_empty in E' as [E' _]. contradiction. }
  destruct (decide (a = [])) as [->|Na]; [symmetry; apply He; [exact Hb|symmetry; exact E]|].
  destruct (decide (b = [])) as [->|Nb]; [exfalso; apply Na, He; [exact Ha|exact E]|].
  rewrite <- (split_double separator a Ha Na), <- (split_double separator b Hb Nb), E. reflexivity.
Qed.

Lemma legal_parted names : Forall legal names -> parted ":" names.
Proof.
  intros Hl. eapply Forall_impl; [exact Hl|]. intros s [H1 H2 _ _ _ _]. split; [intros ->; discriminate|]. unfold free. rewrite forallb_forall in H2.
  intros Hin. apply list_elem_of_In in Hin. specialize (H2 _ Hin). discriminate H2.
Qed.

Lemma legalize_all_spec components names : legalize_all components = inr names ->
  Forall legal names /\ Forall2 (fun c n => legalizeIdentifier c = inr n) components names.
Proof.
  revert names. induction components as [|c cs IH]; intros names; cbn [legalize_all]; [intros [= <-]; split; constructor|].
  intros H. apply fbind_inr in H as (n & En & H). apply fbind_inr in H as (more & Em & [= <-]). destruct (IH more Em).
  split; constructor; auto. eapply legalize_legal, En.
Qed.

Lemma namespace_inj a b r : namespaceCppName a = inr r -> namespaceCppName b = inr r -> a = b.
Proof.
  unfold namespaceCppName. intros Ha Hb. apply fbind_inr in Ha as (na & Ea & Ha). apply fbind_inr in Hb as (nb & Eb & Hb).
  injection Ha as Ha. injection Hb as Hb. apply legalize_all_spec in Ea as [La Fa], Eb as [Lb Fb].
  assert (E : na = nb) by (apply (join_double_inj ":"); [apply legal_parted, La|apply legal_parted, Lb|congruence]). subst nb.
  clear - Fa Fb. revert b Fb. induction Fa as [|x n xs ns Hx Hxs IH]; intros b Fb; inversion Fb as [|y m ys ms Hy Hys]; subst; [reflexivity|].
  f_equal; [eapply legalize_inj; eassumption|]. apply IH. assumption.
Qed.

Lemma good_component c : bad_component c = false -> c <> "" /\ free "/" c.
Proof.
  unfold bad_component. rewrite !orb_false_iff. intros (((H1 & _) & _) & H2). apply bool_decide_eq_false in H1. split; [exact H1|].
  intros Hin. apply list_elem_of_In in Hin. assert (E : existsb (fun c => Ascii.eqb c "/" || Ascii.eqb c "\" || Ascii.eqb c zero) (chars c) = true).
  { apply existsb_exists. exists "/"%char. split; [exact Hin|reflexivity]. }
  congruence.
Qed.

Lemma path_inj a b extension r : sourcePathName a extension = inr r -> sourcePathName b extension = inr r -> a = b.
Proof.
  assert (Hgood : forall l, existsb bad_component l = false -> parted "/" l).
  { induction l as [|c l IH]; [constructor|]. cbn [existsb]. intros H. apply orb_false_iff in H as [H1 H2]. constructor; [apply good_component, H1|apply IH, H2]. }
  unfold sourcePathName. case_bool_decide as Ea; [discriminate|]. destruct (existsb bad_component a) eqn:Ba; [discriminate|]. intros [= <-].
  case_bool_decide as Eb; [discriminate|]. destruct (existsb bad_component b) eqn:Bb; [discriminate|]. intros H. injection H as H.
  assert (E : join a "/" = join b "/") by (symmetry; apply (append_cancel_r _ _ extension); exact H).
  rewrite <- (split_join "/" a (Hgood a Ba) Ea), <- (split_join "/" b (Hgood b Bb) Eb), E. reflexivity.
Qed.

Lemma alpha_not_digit c : isAsciiAlpha c = true -> isAsciiDigit c = false.
Proof.
  unfold isAsciiAlpha, isAsciiDigit. rewrite orb_true_iff, !andb_true_iff, !Nat.leb_le. intros H. apply andb_false_iff.
  rewrite !Nat.leb_gt. lia.
Qed.


(** Qualified names do not collide and components survive the round trip.
    Different component lists get different C++ namespaces and, with one
    extension, different file paths; splitting a qualified name gives exactly
    the nonempty components that join back to it. *)
Theorem qualified_names_distinct a b r extension separator value parts :
  (namespaceCppName a = inr r -> namespaceCppName b = inr r -> a = b) /\
  (sourcePathName a extension = inr r -> sourcePathName b extension = inr r -> a = b) /\
  (splitComponents value separator = inr parts <-> parted separator parts /\ value = join parts (String separator "")).
Proof. split; [apply namespace_inj|]. split; [apply path_inj|apply splitComponents_spec]. Qed.

Module NamesWitness.

Lemma qualified_names_distinct_witness :
  namespaceCppName ["core"; "class"] = inr "core::pyc_636c617373" /\
  (forall b, namespaceCppName b = inr "core::pyc_636c617373" -> ["core"; "class"] = b) /\
  splitComponents "soc.core" "." = inr ["soc"; "core"].
Proof.
  split; [reflexivity|]. split.
  - intros b. apply (qualified_names_distinct ["core"; "class"] b "core::pyc_636c617373" "" "." "" []). reflexivity.
  - apply (qualified_names_distinct [] [] "" "" "." "soc.core" ["soc"; "core"]). split; [|reflexivity].
    repeat constructor; try discriminate; unfold free; cbn; intros H; repeat (apply elem_of_cons in H as [H|H]; [discriminate|]); apply elem_of_nil in H; exact H.
Defined.
End NamesWitness.
